(* ===== verification/_CoqProject ===== *)
-Q . S2P
Prelude.v
JsString.v
JsNumber.v
Path.v
PathSpec.v
PathPosix.v
PathPosixFacts.v
PathParse.v
PathClaims.v
PathWin32.v
PathWin32Facts.v
Realm.v
BootLoader.v
BootLoaderFacts.v
BundleLoader.v
BundleLoaderFacts.v
BundleClaims.v
PriorityQueue.v
PriorityQueueFacts.v
FixedQueue.v
TaskQueues.v
TaskQueuesFacts.v
LinkedList.v
Rings.v
Timers.v
TimerQueue.v
TimersInv.v
TimersOps.v
TimersRun.v
TimersCancel.v
TimersClaims.v
Immediates.v
ImmediatesFacts.v
ImmediatesClaims.v
ProcessEvents.v
ProcessEventsFacts.v
QueryString.v
QueryStringFacts.v
Punycode.v
PunycodeFacts.v
Buffer.v
BufferFacts.v
Url.v
UrlFacts.v
UrlSync.v
Events.v
EventsFacts.v
EventsOps.v
EventsClaims.v
EventsOnce.v
EventsLimit.v
Effects.v
RegExp.v
RegExpFacts.v
PackageJson.v
EsmResolve.v
EsmFacts.v
PackageJsonFacts.v
EsmClaims.v
CjsResolve.v
CjsFacts.v
CjsFind.v
CjsClaims.v
CjsLoad.v
CjsLoadFacts.v
CjsSample.v
CjsLoadClaims.v
CjsTotal.v
Writable.v
WritableFacts.v
WritableEvents.v
WritableClaims.v
WritableOrder.v
WritableFifo.v
Inspector.v
InspectorFacts.v
Domain.v
DomainFacts.v
AbortSignal.v
AbortSignalFacts.v
