(* ===== verification/Prelude.v ===== *)
(** * hermes-node: a verification library for its JavaScript core

    hermes-node runs Node programs on the Hermes engine: C++ bindings below,
    and above them a JavaScript layer made of the runtime's own bootstrap code
    ([libjs/]) and of Node's library ([libjs-node/]).  This library models the
    part of that layer that decides which code runs and where it comes from
    (paths, URLs, the module loaders and resolvers), what runs when (timers,
    immediates, ticks, promise rejections, events), and the data it works on
    (streams of writes, the numbers of buffers, query strings, punycode).

    ** Parts, and how they interact

    - [path] ([libjs-node/path.js]) is pure string arithmetic; every loader names
      files with it.  The URL shim ([libjs/shims/internal/url.js]) turns them into
      file URLs and back, over a native parser.
    - The bootstrap loader ([libjs/loader.js]) is [globalThis.require]: it runs
      modules embedded in the binary, and files while the disk is open.
    - The bundle loader ([libjs/bundle-loader.js]) closes the bootstrap
      loader's disk access and wraps Node's [Module._load] and
      [Module._resolveFilename], so that a bundle is the only source of code.
      It asks the table of builtins ([libjs/shims/internal/bootstrap/realm.js])
      what the binary carries.
    - Node's CommonJS loader ([internal/modules/cjs/loader.js]) resolves requests
      to files, with the [exports] and [imports] of packages as the resolver of ES
      modules ([internal/modules/esm/resolve.js]) reads them through
      [internal/modules/package_json_reader.js], and runs each file once.
    - The event loop calls [processTimers] and [processImmediate]
      ([internal/timers.js], [timers.js]) and [processTicksAndRejections]
      ([internal/process/task_queues.js], [internal/process/promises.js]), which
      keep their work in a priority queue, linked lists and a fixed queue.
    - [events.js] is [EventEmitter]; [libjs/process-events.js] gives [process] its
      events and decides what an uncaught exception does.
    - A writable stream ([internal/streams/writable.js], [destroy.js]) passes
      writes on one by one, buffers the others, and emits events in ticks.
    - Three shims of the runtime stand in for larger modules of Node: abort
      signals ([libjs/shims/internal/abort_controller.js]) and domains
      ([libjs/shims/domain.js]) are emitters, and the inspector server
      ([libjs/shims/inspector-server.js]) carries messages between the runtime and
      a debugger.
    - [internal/buffer.js] reads and writes numbers; [querystring] and [punycode]
      are codecs.

    ** Files

    - [Prelude] (this file): values, errors, [result] and its [let*], 32-bit
      shifts, tactics, generic lemmas.  [JsString]: the string methods of
      ECMA-262 on sequences of code units.  [JsNumber]: numbers as exact rationals
      with infinities and NaN.  [Effects]: one monad of state, exceptions and
      fuel, with invariants, triples and totality; the resolvers, the CommonJS
      loader and streams use it.
    - [Path], [PathPosix] (Module [Posix]), [PathWin32] (Module [Win32]): one
      definition per method of [path.js], loops named [..._loop].  [PathSpec]:
      paths as lists of segments, and [cd].  [PathPosixFacts], [PathParse],
      [PathWin32Facts], [PathClaims]: lemmas and theorems.
    - [Realm]: the tables and predicates of [BuiltinModule].
    - [BootLoader] (Module [Boot]), [BootLoaderFacts]: [loader.js].  State:
      [cache], the module records, [diskLoadingClosed], a trace.
    - [BundleLoader] (Module [Bundle]), [BundleLoaderFacts], [BundleClaims]:
      [bundle-loader.js].  State: [Module._cache], module records,
      [process.mainModule], a trace of what was run and forwarded.
    - [RegExp], [RegExpFacts]: the regular expressions the resolvers test, by a
      backtracking matcher, and what they accept.
      [PackageJson], [PackageJsonFacts]: [package_json_reader.js].  [EsmResolve]
      (Module [Esm]), [EsmFacts], [EsmClaims]: [esm/resolve.js]; its state is the
      warnings that were given.
    - [CjsResolve] (Module [Cjs]), [CjsFacts], [CjsFind], [CjsClaims]: the resolver
      of [cjs/loader.js]; its state is the path cache, the cache of file states
      and that of package.json files.  [CjsLoad] (Module [CjsLoad]),
      [CjsLoadFacts], [CjsSample], [CjsLoadClaims], [CjsTotal]: [Module._load] and
      the handlers of extensions; its state adds [Module._cache], the module
      records, [relativeResolveCache] and [requireDepth].
    - [PriorityQueue], [PriorityQueueFacts], [FixedQueue], [LinkedList] (with the
      free list), [Rings]: the queues and lists, over heaps of objects.
    - [Timers], [TimerQueue], [TimersInv], [TimersOps], [TimersRun],
      [TimersCancel] (the order of cancellations and callbacks), [TimersClaims]:
      timeouts and intervals.  [Immediates], [ImmediatesFacts],
      [ImmediatesClaims]: immediates, over 32-bit counters.  [TaskQueues],
      [TaskQueuesFacts]: ticks, microtasks and rejections.
    - [ProcessEvents], [ProcessEventsFacts]: [process-events.js].  [Events],
      [EventsFacts], [EventsOps], [EventsClaims], [EventsOnce], [EventsLimit]:
      [events.js], over a heap of listener tables and arrays.
    - [Writable] (Module [Writable]), [WritableFacts] (the bits of [kState]),
      [WritableEvents] (an invariant of every step), [WritableClaims],
      [WritableOrder] and [WritableFifo] (the invariant of order, and the operations
      that keep it): writable streams, over a heap of arrays of buffered writes and
      a queue of ticks.
    - [AbortSignal], [AbortSignalFacts]: signals as a heap, with their listeners.
      [Domain], [DomainFacts]: the stack and members of domains.  [Inspector],
      [InspectorFacts]: the server's variables, over sockets with a [readyState].
    - [QueryString] (Module [Qs]), [Punycode], [Buffer], [Url], [UrlSync], each with
      its [...Facts].

    Code that the modelled code runs (module bodies, callbacks, listeners, ticks,
    the methods of a stream) is arbitrary JavaScript: a tree of the calls it makes
    to the modelled component, each continued with its answer, exceptions
    included.  Code below the modelled layer (native parsers and the file system,
    [process.cwd], the clock, the Unicode case mappings, ...) is a parameter.

    ** Theorems

    - Closed world: with a bundle running, nothing but what the binary carries is
      asked of Node's loader ([bundle_closed_world]), and the bootstrap loader
      reads no file ([boot_closed_world]).
    - Loading: loads end ([bundle_run_terminates], [cjs_load_terminates]); a file
      is started again only after it failed or was deleted ([cjs_started_once]); a
      failed load leaves no trace; records stay well formed unless a module
      assigns [module.parent] or changes [module.children]
      ([cjs_modules_wellformed]); [require] and [require.resolve] agree.
    - Resolution: both resolvers answer regular files only
      ([esm_resolves_to_files], [cjs_resolves_to_files]); [exports] encapsulates a
      package ([esm_exports_encapsulate]); patterns are chosen as documented
      ([esm_best_pattern]); [_findPath] is the documented search
      ([cjs_path_search]); [_nodeModulePaths] is its specification on segments.
    - Scheduling: timers fire once, when due and in order, nothing stays overdue,
      cleared timers never fire, also when a callback or a tick of the same round
      clears them ([timers_cleared_never_fires]), the counters are exact, and each round returns;
      immediates refine a queue ([immediates_refine_queue]); ticks and rejections
      are all served ([taskqueue_completes], [taskqueue_no_stranded_work]).
    - Events: the tables of [EventEmitter] stay well formed and refine a
      multimap; [emit] calls a snapshot; one-shot listeners run once at most; the
      listener limit is reported once.
    - Streams: whatever their code does, at most one write is under way
      ([writable_one_write_at_a_time]), a destroyed stream is inert
      ([writable_destroyed_inert]) and events come in order
      ([writable_events_ordered]).  A stream whose [_write] and [_writev] do not throw and call
      back last, and whose [_writev] does not write, is a queue: writes keep their
      order and none is lost ([writable_fifo]).
    - Shims: messages of the runtime reach the debugger in order and none is lost
      ([inspector_bridge_in_order]); a signal is aborted once and for good, for a
      reason it can give ([abort_once_for_good]); the stack of domains is balanced
      ([domain_stack_balanced]).
    - Data: [normalizeString] refines the specification on segments, [resolve] is
      successive [cd]; round trips of [querystring], [punycode] and the integers
      of buffers; the query of a URL and its parameters agree.
    - Lemmas under "Defects" in the files of claims show where the code does not
      do what it means to, on an example each.

    ** Fuel and bounds

    Loops over strings and arrays recurse on a count of the iterations left,
    computed from the length, and never run out.  Code that runs arbitrary code
    recurses on the depth of nested calls, and running out is the distinct
    outcome [None]: the termination theorems prove that [size U + 1] for the
    bootstrap loader and the CommonJS loader, [2 * size U + 2] for the bundle
    loader (with [U] the module ids or files), the heap of immediates, and the
    rank of a tree of ticks are enough; theorems on [emit], streams, signals and
    domains hold for every amount that is enough for the run.  The search for package.json files
    recurses on parent directories.  The priority queue's shifts wrap at 32 bits,
    its theorems hold below 2^31 slots; the fixed queue's masks act on indices
    below 2048; the counters of timers and immediates are 32-bit; [punycode]
    round trips hold up to 1927 code points, and fail above.  Flags of streams are
    bits of one integer below 2^31.  Lengths of strings are unbounded.

    ** Not modelled

    [matchesGlob]; [__loadUserScript], [__setupEvalContext] and the [.ts] handler
    of [loader.js]; hooks of [module.registerHooks], ES modules loaded by
    [require], the compile cache; [defaultResolve]; the iterators of
    [URLSearchParams]; the promise and iterator helpers of [events.js]; readable
    and duplex streams; the Buffer class, whose work is native; async context
    frames; the text of most error messages; the remaining Node library, reused
    unchanged and mostly I/O over native bindings; the C++ bindings. *)

From stdpp Require Export base list list_numbers gmap strings.
From Stdlib Require Export ZArith Lia.
From Stdlib Require Import Sorted.

#[global] Open Scope Z_scope.

(** ** JavaScript strings

    A string value is its sequence of UTF-16 code units.  [jsstr] is a list of
    integers; a literal of scope [js] is the list of its character codes. *)

Declare Scope js_scope.
Delimit Scope js_scope with js.

Abbreviation jsstr := (list Z) (only parsing).
Definition js_string : Type := list Z.

Inductive js_literal := jsl_nil | jsl_cons (c : Z) (l : js_literal).

Definition js_literal_of_bytes (l : list Byte.byte) : js_literal :=
  List.fold_right (fun b r => jsl_cons (Z.of_N (Byte.to_N b)) r) jsl_nil l.

Definition js_literal_print (_ : js_literal) : option (list Byte.byte) := None.

#[warnings="-via-type-remapping,-via-type-mismatch"]
String Notation js_string js_literal_of_bytes js_literal_print
  (via js_literal mapping [[nil] => jsl_nil, [cons] => jsl_cons]) : js_scope.

(** ** Values, errors and results

    What a public function may be handed: the source distinguishes values by
    [typeof] only, so an object is an opaque identity and a number an
    integer. *)

Inductive jsval :=
  | VUndefined
  | VNull
  | VBool (b : bool)
  | VNumber (z : Z)
  | VString (s : jsstr)
  | VArray (loc : positive)
  | VObject (loc : positive).

#[export] Instance jsval_eq_dec : EqDecision jsval.
Proof. solve_decision. Defined.

(** An exception: the [code] property programs branch on, and the values the
    source substitutes into the message. *)
Record jserror := JsError { err_code : jsstr; err_args : list jsstr }.

#[export] Instance jserror_eq_dec : EqDecision jserror.
Proof. solve_decision. Defined.

Inductive result (A : Type) :=
  | Ok (a : A)
  | Throw (e : jserror).
Arguments Ok {A} _.
Arguments Throw {A} _.

#[export] Instance result_eq_dec `{EqDecision A} : EqDecision (result A).
Proof. solve_decision. Defined.

Definition result_bind {A B} (m : result A) (k : A -> result B) : result B :=
  match m with
  | Ok a => k a
  | Throw e => Throw e
  end.

Notation "'let*' x ':=' m 'in' k" := (result_bind m (fun x => k))
  (at level 10, x pattern, m at level 100, k at level 200,
   format "'[v' 'let*'  x  ':='  m  'in' '/' k ']'") : js_scope.
#[global] Open Scope js_scope.

Definition is_ok {A} (r : result A) : bool :=
  match r with Ok _ => true | Throw _ => false end.

Lemma result_bind_ok {A B} (m : result A) (k : A -> result B) b :
  result_bind m k = Ok b <-> exists a, m = Ok a /\ k a = Ok b.
Proof. destruct m as [a|e]; cbn; split; [by exists a|by intros (? & [= ->] & ?)|done|by intros (? & ? & ?)]. Qed.

Lemma result_bind_assoc {A B C} (m : result A) (k : A -> result B) (h : B -> result C) :
  result_bind (result_bind m k) h = result_bind m (fun a => result_bind (k a) h).
Proof. by destruct m. Qed.

(** ** Bitwise operators

    JavaScript's shifts convert their operand to a signed 32-bit integer. *)

Definition toInt32 (z : Z) : Z := (z + 2147483648) mod 4294967296 - 2147483648.

(** [a << n] and [a >> n] *)
Definition js_shl (a n : Z) : Z := toInt32 (Z.shiftl (toInt32 a) n).
Definition js_shr (a n : Z) : Z := Z.shiftr (toInt32 a) n.

Lemma toInt32_small z : 0 <= z < 2147483648 -> toInt32 z = z.
Proof. intros. unfold toInt32. rewrite Z.mod_small; lia. Qed.

Lemma js_shl1_small z : 0 <= z < 1073741824 -> js_shl z 1 = z * 2.
Proof.
  intros. unfold js_shl. rewrite (toInt32_small z) by lia.
  rewrite Z.shiftl_mul_pow2 by lia. apply toInt32_small. lia.
Qed.

Lemma js_shr1_small z : 0 <= z < 2147483648 -> js_shr z 1 = z / 2.
Proof. intros. unfold js_shr. rewrite toInt32_small by done. by rewrite Z.shiftr_div_pow2. Qed.

(** ** Automation *)

Create HintDb js discriminated.

(** Reflect the boolean tests of the source into propositions. *)
Ltac bool_hyps :=
  repeat match goal with
  | H : (_ && _)%bool = true |- _ => apply andb_true_iff in H as [? ?]
  | H : (_ || _)%bool = false |- _ => apply orb_false_iff in H as [? ?]
  | H : negb _ = true |- _ => apply negb_true_iff in H
  | H : negb _ = false |- _ => apply negb_false_iff in H
  | H : (_ =? _) = true |- _ => apply Z.eqb_eq in H
  | H : (_ =? _) = false |- _ => apply Z.eqb_neq in H
  | H : (_ <? _) = true |- _ => apply Z.ltb_lt in H
  | H : (_ <? _) = false |- _ => apply Z.ltb_ge in H
  | H : (_ <=? _) = true |- _ => apply Z.leb_le in H
  | H : (_ <=? _) = false |- _ => apply Z.leb_gt in H
  | H : bool_decide _ = true |- _ => apply bool_decide_eq_true in H
  | H : bool_decide _ = false |- _ => apply bool_decide_eq_false in H
  end.

(** Case analysis on the scrutinee of the first [match] or [if] of the goal. *)
Ltac case_step :=
  match goal with
  | |- context [match ?x with _ => _ end] =>
      lazymatch x with
      | context [match _ with _ => _ end] => fail
      | _ => destruct x eqn:?
      end
  end.

(** Decide a linear integer test that occurs in the goal. *)
Ltac ztest :=
  match goal with
  | |- context [?a =? ?b] =>
      first [ replace (a =? b) with true by (symmetry; apply Z.eqb_eq; lia)
            | replace (a =? b) with false by (symmetry; apply Z.eqb_neq; lia) ]
  | |- context [?a <? ?b] =>
      first [ replace (a <? b) with true by (symmetry; apply Z.ltb_lt; lia)
            | replace (a <? b) with false by (symmetry; apply Z.ltb_ge; lia) ]
  | |- context [?a <=? ?b] =>
      first [ replace (a <=? b) with true by (symmetry; apply Z.leb_le; lia)
            | replace (a <=? b) with false by (symmetry; apply Z.leb_gt; lia) ]
  end.

(** ** Generic lemmas on lists *)

Lemma drop_app_exact {A} (l k : list A) n :
  n = length l -> drop n (l ++ k) = k.
Proof. intros ->. apply drop_app_length. Qed.

Lemma take_app_exact {A} (l k : list A) n :
  n = length l -> take n (l ++ k) = l.
Proof. intros ->. apply take_app_length. Qed.

Lemma app_eq_length_inv {A} (a b c d : list A) :
  length a = length c -> a ++ b = c ++ d -> a = c /\ b = d.
Proof. intros Hl He. by apply app_inj_1. Qed.

Lemma last_snoc_inv {A} (l : list A) x :
  last l = Some x -> exists l', l = l' ++ [x].
Proof.
  destruct l as [|y l _] using rev_ind; [done|].
  rewrite last_snoc. intros [= ->]. by exists l.
Qed.

Lemma rev_replicate {A} n (x : A) : rev (replicate n x) = replicate n x.
Proof. rewrite rev_alt. apply reverse_replicate. Qed.

(** ** Increasing lists of object numbers *)

Lemma sorted_sublist (l k : list positive) : l `sublist_of` k -> StronglySorted Pos.lt k -> StronglySorted Pos.lt l.
Proof.
  induction 1 as [|x l k Hs IH|x l k Hs IH]; [done| |].
  - intros [H1 H2]%StronglySorted_inv. constructor; [auto|]. rewrite Forall_forall in *. intros y Hy. apply H2. by eapply elem_of_sublist.
  - intros [H1 H2]%StronglySorted_inv. auto.
Qed.

Lemma sorted_snoc l (i : positive) :
  StronglySorted Pos.lt (l ++ [i]) -> StronglySorted Pos.lt (l ++ [i] ++ [Pos.succ i]).
Proof.
  induction l as [|x l IH]; cbn [app]; intros H.
  - repeat constructor. lia.
  - apply StronglySorted_inv in H as [H1 H2]. constructor; [auto|].
    apply Forall_app in H2 as [H2 H3]. apply Forall_app. split; [done|].
    apply Forall_cons in H3 as [H3 _]. repeat constructor; lia.
Qed.

Lemma sorted_app_lt l k (x y : positive) :
  StronglySorted Pos.lt (l ++ k) -> x ∈ l -> y ∈ k -> (x < y)%positive.
Proof.
  induction l as [|z l IH]; [by intros _ ?%elem_of_nil|]. cbn [app]. intros [H1 H2]%StronglySorted_inv.
  intros [->|Hx]%elem_of_cons Hy; [|auto]. rewrite Forall_forall in H2. apply H2, elem_of_app. by right.
Qed.
