(* ===== verification/JsString.v ===== *)
(** * Operations of JavaScript strings and arrays of strings

    The [String.prototype] and [Array.prototype] methods the sources call,
    over sequences of code units, with the index conventions of ECMA-262
    (negative and out-of-range arguments included), and the lemmas the
    components share. *)

From stdpp Require Import pretty.
From S2P Require Import Prelude.

(** ** Definitions *)

Definition len (s : jsstr) : Z := Z.of_nat (length s).

(** [charCodeAt]: [None] is the [NaN] of an index out of range. *)
Definition charCodeAt (s : jsstr) (i : Z) : option Z :=
  if i <? 0 then None else s !! Z.to_nat i.

(** [code === c] for a code unit [c]; [NaN] is never equal. *)
Definition code_is (o : option Z) (c : Z) : bool :=
  match o with Some x => x =? c | None => false end.

(** [a !== b] for two results of [charCodeAt]; [NaN !== NaN]. *)
Definition code_differs (a b : option Z) : bool :=
  match a, b with Some x, Some y => negb (x =? y) | _, _ => true end.

(** Relative index of [slice]: negative counts from the end, then clamp. *)
Definition slice_index (n i : Z) : Z :=
  if i <? 0 then Z.max (n + i) 0 else Z.min i n.

Definition slice (s : jsstr) (start stop : Z) : jsstr :=
  let a := slice_index (len s) start in
  let b := slice_index (len s) stop in
  take (Z.to_nat (b - a)) (drop (Z.to_nat a) s).

Definition slice_from (s : jsstr) (start : Z) : jsstr := slice s start (len s).

(** [substring]: clamp both arguments, then swap them when out of order. *)
Definition substring (s : jsstr) (start stop : Z) : jsstr :=
  let a := Z.min (Z.max start 0) (len s) in
  let b := Z.min (Z.max stop 0) (len s) in
  let lo := Z.min a b in
  let hi := Z.max a b in
  take (Z.to_nat (hi - lo)) (drop (Z.to_nat lo) s).

(** [charAt]: the empty string out of range. *)
Definition charAt (s : jsstr) (i : Z) : jsstr :=
  match charCodeAt s i with Some c => [c] | None => [] end.

Fixpoint startsWith (s pat : jsstr) {struct pat} : bool :=
  match pat, s with
  | [], _ => true
  | p :: pat', c :: s' => (c =? p) && startsWith s' pat'
  | _ :: _, [] => false
  end.

(** First occurrence of [pat] in [s], the head of [s] being at index [i]. *)
Fixpoint indexOf_at (s pat : jsstr) (i : Z) : Z :=
  if startsWith s pat then i
  else match s with
       | [] => -1
       | _ :: s' => indexOf_at s' pat (i + 1)
       end.

Definition indexOf_from (s pat : jsstr) (position : Z) : Z :=
  let k := Z.min (Z.max position 0) (len s) in
  indexOf_at (drop (Z.to_nat k) s) pat k.

Definition indexOf (s pat : jsstr) : Z := indexOf_from s pat 0.

Definition includes (s pat : jsstr) : bool := negb (indexOf s pat =? -1).

(** Last occurrence of [pat] in [s], the head of [s] being at index [i]. *)
Fixpoint lastIndexOf_at (s pat : jsstr) (i : Z) : Z :=
  match s with
  | [] => if startsWith s pat then i else -1
  | _ :: s' =>
      let r := lastIndexOf_at s' pat (i + 1) in
      if r =? -1 then (if startsWith s pat then i else -1) else r
  end.

Definition lastIndexOf (s pat : jsstr) : Z := lastIndexOf_at s pat 0.

(** [split] at the code units that satisfy [p]; [acc] is the current piece. *)
Fixpoint split_by (p : Z -> bool) (acc s : jsstr) : list jsstr :=
  match s with
  | [] => [acc]
  | c :: s' => if p c then acc :: split_by p [] s' else split_by p (acc ++ [c]) s'
  end.

(** [s.split(c)] for a separator of one code unit. *)
Definition split (s : jsstr) (c : Z) : list jsstr := split_by (Z.eqb c) [] s.

Fixpoint join (sep : jsstr) (l : list jsstr) : jsstr :=
  match l with
  | [] => []
  | [x] => x
  | x :: l' => x ++ sep ++ join sep l'
  end.

(** [s.replace(/c/g, d)] for single code units. *)
Definition replace_all (c : Z) (d : jsstr) (s : jsstr) : jsstr :=
  mjoin ((fun x => if x =? c then d else [x]) <$> s).

(** A Rocq string as a JavaScript string, and decimal integers ([String(n)]). *)
Definition js_of_string (s : string) : jsstr :=
  (fun a => Z.of_N (Ascii.N_of_ascii a)) <$> String.list_ascii_of_string s.

Definition js_of_Z (z : Z) : jsstr := js_of_string (pretty z).

(** ** Lengths and code units *)

Lemma len_nil : len [] = 0.
Proof. done. Qed.

Lemma len_cons c s : len (c :: s) = len s + 1.
Proof. unfold len; cbn [length]; lia. Qed.

Lemma len_app s t : len (s ++ t) = len s + len t.
Proof. unfold len; rewrite length_app; lia. Qed.

Lemma len_nonneg s : 0 <= len s.
Proof. unfold len; lia. Qed.

Lemma len_zero s : len s = 0 <-> s = [].
Proof. unfold len; destruct s; cbn [length]; split; (done || lia). Qed.

Lemma len_eqb_zero s : (len s =? 0) = bool_decide (s = []).
Proof. destruct s; [done|]. rewrite len_cons. pose proof (len_nonneg s).
  by ztest. Qed.

Create Rewrite HintDb js_len.
#[export] Hint Rewrite len_nil len_cons len_app : js_len.

(** Normalise lengths, then linear arithmetic. *)
Ltac len_lia :=
  autorewrite with js_len in *;
  repeat match goal with
  | |- context [len ?s] => lazymatch goal with
      | _ : 0 <= len s |- _ => fail
      | _ => pose proof (len_nonneg s) end
  | _ : context [len ?s] |- _ => lazymatch goal with
      | _ : 0 <= len s |- _ => fail
      | _ => pose proof (len_nonneg s) end
  end; lia.

Lemma charCodeAt_app_mid s c t i :
  i = len s -> charCodeAt (s ++ c :: t) i = Some c.
Proof.
  intros ->. unfold charCodeAt. pose proof (len_nonneg s). ztest.
  unfold len. rewrite Nat2Z.id. by apply list_lookup_middle.
Qed.

Lemma charCodeAt_app_l s t i :
  i < len s -> charCodeAt (s ++ t) i = charCodeAt s i.
Proof.
  intros Hi. unfold charCodeAt. destruct (i <? 0) eqn:E; [done|].
  apply lookup_app_l. unfold len in Hi. bool_hyps. lia.
Qed.

Lemma charCodeAt_app_r s t i :
  len s <= i -> charCodeAt (s ++ t) i = charCodeAt t (i - len s).
Proof.
  intros Hi. unfold charCodeAt. pose proof (len_nonneg s). do 2 ztest.
  rewrite lookup_app_r by (unfold len in *; lia). f_equal. unfold len in *; lia.
Qed.

Lemma charCodeAt_cons c s i :
  0 < i -> charCodeAt (c :: s) i = charCodeAt s (i - 1).
Proof.
  intros. change (c :: s) with ([c] ++ s). rewrite charCodeAt_app_r by len_lia. done.
Qed.

Lemma charCodeAt_0 s : charCodeAt s 0 = head s.
Proof. by destruct s. Qed.

Lemma charCodeAt_ge s i : len s <= i -> charCodeAt s i = None.
Proof.
  intros. unfold charCodeAt. destruct (i <? 0) eqn:?; [done|]. bool_hyps.
  apply lookup_ge_None_2. unfold len in *; lia.
Qed.

Lemma charCodeAt_neg s i : i < 0 -> charCodeAt s i = None.
Proof. intros. unfold charCodeAt. by ztest. Qed.

Lemma charCodeAt_last s c : charCodeAt (s ++ [c]) (len (s ++ [c]) - 1) = Some c.
Proof. apply charCodeAt_app_mid. len_lia. Qed.

(** ** Slices *)

Lemma slice_spec s a b :
  0 <= a -> a <= b -> b <= len s ->
  slice s a b = take (Z.to_nat (b - a)) (drop (Z.to_nat a) s).
Proof.
  intros. unfold slice, slice_index. repeat ztest.
  by rewrite !Z.min_l by lia.
Qed.

Lemma slice_mid s t u a b :
  a = len s -> b = len s + len t -> slice (s ++ t ++ u) a b = t.
Proof.
  intros -> ->. rewrite slice_spec by len_lia.
  rewrite drop_app_exact by (unfold len; lia).
  apply take_app_exact. unfold len; lia.
Qed.

Lemma slice_prefix s t b : b = len s -> slice (s ++ t) 0 b = s.
Proof. intros ->. apply (slice_mid [] s t); len_lia. Qed.

Lemma slice_suffix s t a : a = len s -> slice_from (s ++ t) a = t.
Proof.
  intros ->. unfold slice_from. rewrite <- (app_nil_r t) at 1.
  apply slice_mid; len_lia.
Qed.

Lemma slice_whole s : slice s 0 (len s) = s.
Proof. rewrite <- (app_nil_r s) at 1. by apply slice_prefix. Qed.

Lemma slice_from_whole s : slice_from s 0 = s.
Proof. apply slice_whole. Qed.

Lemma slice_empty s a b : 0 <= b <= a -> slice s a b = [].
Proof.
  intros. unfold slice, slice_index. repeat ztest.
  replace (Z.to_nat _) with 0%nat by lia. done.
Qed.

(** ** Searching *)

Lemma indexOf_start s c : indexOf s [c] = indexOf_at s [c] 0.
Proof.
  unfold indexOf, indexOf_from. cbv zeta. pose proof (len_nonneg s).
  by replace (Z.min (Z.max 0 0) (len s)) with 0 by lia.
Qed.
