(* ===== verification/JsNumber.v ===== *)
(** * JavaScript numbers

    A number is a rational, [NaN] or an infinity; the two zeros are one.  The
    conversions of ECMA-262 that the sources apply to numbers, and bitwise
    operators on integers. *)

From S2P Require Import Prelude.
From Stdlib Require Import QArith Qround.
#[local] Open Scope Z_scope.

Inductive num :=
  | NaN
  | PosInf
  | NegInf
  | Fin (q : Q).

Definition MathTrunc (q : Q) : Z := Z.quot (Qnum q) (Zpos (Qden q)).
Definition q_neg (q : Q) : bool := Qnum q <? 0.

(** An integer as a number. *)
Definition int (z : Z) : num := Fin (inject_Z z).

(** The integer a number is, if it is one. *)
Definition integer_of (n : num) : option Z :=
  match n with
  | Fin q => if Qnum q mod Zpos (Qden q) =? 0 then Some (Qnum q / Zpos (Qden q)) else None
  | _ => None
  end.

(** [a > b] and [a < b] for an integer [b]. *)
Definition num_gt (a : num) (b : Z) : bool :=
  match a with
  | Fin q => negb (Qle_bool q (inject_Z b))
  | PosInf => true
  | _ => false
  end.
Definition num_lt (a : num) (b : Z) : bool :=
  match a with
  | Fin q => negb (Qle_bool (inject_Z b) q)
  | NegInf => true
  | _ => false
  end.

(** [ToUint8] and [ToUint32]: the value stored in a byte of a typed array, and
    the operand of [>>>]. *)
Definition toUint (w : Z) (n : num) : Z :=
  match n with Fin q => MathTrunc q mod 2 ^ w | _ => 0 end.
Definition toUint8 : num -> Z := toUint 8.
Definition toUint32 : num -> Z := toUint 32.

(** [a >>> n], [a | b] and [a & b] on integers. *)
Definition js_ushr (a n : Z) : Z := Z.shiftr (a mod 2 ^ 32) n.
Definition js_or (a b : Z) : Z := Z.lor (toInt32 a) (toInt32 b).
Definition js_and (a b : Z) : Z := Z.land (toInt32 a) (toInt32 b).

Lemma MathTrunc_int z : MathTrunc (inject_Z z) = z.
Proof. unfold MathTrunc. cbn. apply Z.quot_1_r. Qed.

Lemma integer_of_int z : integer_of (int z) = Some z.
Proof. cbn. by rewrite Z.mod_1_r, Z.div_1_r. Qed.

Lemma num_gt_int a b : num_gt (int a) b = (b <? a).
Proof.
  unfold num_gt, int. destruct (Qle_bool _ _) eqn:E; cbn [negb]; symmetry.
  - apply Qle_bool_iff in E. rewrite <- Zle_Qle in E. by apply Z.ltb_ge.
  - apply Z.ltb_lt, Z.lt_nge. intros H. rewrite Zle_Qle in H. apply Qle_bool_iff in H. congruence.
Qed.

Lemma num_lt_int a b : num_lt (int a) b = (a <? b).
Proof.
  unfold num_lt, int. destruct (Qle_bool _ _) eqn:E; cbn [negb]; symmetry.
  - apply Qle_bool_iff in E. rewrite <- Zle_Qle in E. by apply Z.ltb_ge.
  - apply Z.ltb_lt, Z.lt_nge. intros H. rewrite Zle_Qle in H. apply Qle_bool_iff in H. congruence.
Qed.

Lemma toUint_int w z : toUint w (int z) = z mod 2 ^ w.
Proof. unfold toUint, int. by rewrite MathTrunc_int. Qed.
