(* ===== verification/PathSpec.v ===== *)
(** * Path normalisation as an operation on segments

    The abstract specification of [normalizeString]: a path is the list of
    segments between its separators; an empty or [.] segment is dropped, and
    a [..] segment removes the nearest segment it can remove.  The theorem
    [normalizeString_refines] shows that the character loop of [path.js]
    computes it; the algebra below it is what the clients of [normalize],
    [resolve] and [relative] need. *)

From S2P Require Import Prelude JsString Path.

(** ** Specification *)

Definition dot : jsstr := ".".
Definition dotdot : jsstr := "..".

(** One segment against the stack of kept segments, innermost first. *)
Definition seg_step (allowAboveRoot : bool) (stk : list jsstr) (s : jsstr) : list jsstr :=
  if bool_decide (s = []) || bool_decide (s = dot) then stk
  else if bool_decide (s = dotdot) then
    match stk with
    | top :: stk' =>
        if bool_decide (top = dotdot)
        then if allowAboveRoot then dotdot :: stk else stk
        else stk'
    | [] => if allowAboveRoot then [dotdot] else []
    end
  else s :: stk.

Definition seg_fold (allowAboveRoot : bool) (stk segs : list jsstr) : list jsstr :=
  foldl (seg_step allowAboveRoot) stk segs.

Definition norm_segs (allowAboveRoot : bool) (segs : list jsstr) : list jsstr :=
  rev (seg_fold allowAboveRoot [] segs).

(** The segments of a path. *)
Definition segments (isSep : option Z -> bool) (path : jsstr) : list jsstr :=
  split_by (fun c => isSep (Some c)) [] path.

(** A segment has no separator. *)
Definition sep_free (isSep : option Z -> bool) (s : jsstr) : Prop :=
  Forall (fun c => isSep (Some c) = false) s.

(** What a kept segment looks like: neither empty nor [.]. *)
Definition kept (s : jsstr) : Prop := s <> [] /\ s <> dot.

(** [dots] of the loop as a function of the segment read so far. *)
Definition dots_of (cur : jsstr) : Z :=
  if forallb (fun c => c =? CHAR_DOT) cur then len cur else -1.

(** ** Joining *)

Lemma join_snoc sep l x :
  join sep (l ++ [x]) = match l with [] => x | _ => join sep l ++ sep ++ x end.
Proof.
  induction l as [|y [|z l] IH]; [done|done|].
  change ((y :: z :: l) ++ [x]) with (y :: (z :: l) ++ [x]).
  transitivity (y ++ sep ++ join sep ((z :: l) ++ [x])).
  { by destruct l. }
  rewrite IH. cbn [join]. by rewrite <- !app_assoc.
Qed.

Lemma join_app_both sep l m :
  l <> [] -> m <> [] -> join sep (l ++ m) = join sep l ++ sep ++ join sep m.
Proof.
  intros Hl Hm. induction l as [|x l IH]; [done|]. destruct l as [|y l].
  - by destruct m.
  - change (join sep ((x :: y :: l) ++ m)) with (x ++ sep ++ join sep ((y :: l) ++ m)).
    change (join sep (x :: y :: l)) with (x ++ sep ++ join sep (y :: l)).
    rewrite IH by done. by rewrite <- !app_assoc.
Qed.

Lemma join_rev_cons sep x stk :
  join sep (rev (x :: stk)) =
  match stk with [] => x | _ => join sep (rev stk) ++ sep ++ x end.
Proof.
  cbn [rev]. rewrite join_snoc. destruct stk as [|y stk]; [done|].
  cbn [rev]. by destruct (rev stk).
Qed.

Lemma join_nil_inv sep l :
  Forall (fun s => s <> []) l -> join sep l = [] -> l = [].
Proof.
  destruct l as [|x [|y l]]; [done|..]; intros HF E;
    apply Forall_cons in HF as [Hx _]; cbn in E; [done|].
  by apply app_eq_nil in E as [-> _].
Qed.

(** ** Searching for the separator *)

Lemma startsWith_single s c :
  startsWith s [c] = match s with [] => false | x :: _ => x =? c end.
Proof. destruct s; [done|]. cbn. by rewrite andb_true_r. Qed.

Lemma lastIndexOf_at_none s c i :
  Forall (fun x => x <> c) s -> lastIndexOf_at s [c] i = -1.
Proof.
  revert i. induction s as [|x s IH]; intros i HF; [done|].
  apply Forall_cons in HF as [Hx HF]. cbn [lastIndexOf_at]. rewrite IH by done.
  rewrite startsWith_single. cbn. by ztest.
Qed.

Lemma lastIndexOf_at_mid s c t i :
  0 <= i -> Forall (fun x => x <> c) t ->
  lastIndexOf_at (s ++ c :: t) [c] i = i + len s.
Proof.
  revert i. induction s as [|x s IH]; intros i Hi HF; cbn [app lastIndexOf_at].
  - rewrite lastIndexOf_at_none by done. rewrite startsWith_single.
    rewrite !Z.eqb_refl, len_nil. cbn. lia.
  - rewrite IH by (done || lia). pose proof (len_nonneg s). ztest. len_lia.
Qed.

(** ** The loop invariant *)

Section Normalize.
Context (isSep : option Z -> bool) (sepc : Z).
Hypothesis isSep_sepc : isSep (Some sepc) = true.
Hypothesis isSep_slash : isSep (Some CHAR_FORWARD_SLASH) = true.
Hypothesis isSep_dot : isSep (Some CHAR_DOT) = false.

Lemma sep_free_neq s : sep_free isSep s -> Forall (fun x => x <> sepc) s.
Proof. intros H. eapply Forall_impl; [exact H|]. intros x Hx ->. congruence. Qed.

Lemma dots_of_snoc cur c :
  dots_of (cur ++ [c]) =
  if (c =? CHAR_DOT) && negb (dots_of cur =? -1) then dots_of cur + 1 else -1.
Proof.
  unfold dots_of. rewrite forallb_app. cbn [forallb]. rewrite andb_true_r.
  pose proof (len_nonneg cur).
  destruct (forallb _ cur); cbn [andb]; [|by rewrite andb_false_r].
  ztest. rewrite andb_true_r. destruct (c =? CHAR_DOT); len_lia.
Qed.

Lemma dots_of_1 cur : dots_of cur = 1 <-> cur = dot.
Proof.
  unfold dots_of. destruct cur as [|a [|b cur]]; cbn [forallb].
  - split; (done || intros [=]).
  - rewrite andb_true_r. destruct (a =? CHAR_DOT) eqn:E; bool_hyps.
    + subst. by split.
    + split; [done|]. by intros [= ->].
  - split; [|done]. destruct (_ && _); intros; [exfalso; len_lia|done].
Qed.

Lemma dots_of_2 cur : dots_of cur = 2 <-> cur = dotdot.
Proof.
  unfold dots_of. destruct cur as [|a [|b [|c cur]]]; cbn [forallb].
  - split; (done || intros [=]).
  - destruct (_ && _); split; (done || intros [=]).
  - rewrite andb_true_r.
    destruct (a =? CHAR_DOT) eqn:Ea, (b =? CHAR_DOT) eqn:Eb; cbn; bool_hyps;
      unfold CHAR_DOT, dotdot in *; split; intros; simplify_eq; done.
  - split; [|done]. destruct (_ && _); intros; [exfalso; len_lia|done].
Qed.

(** [res] and [lastSegmentLength] of a stack of kept segments. *)
Definition res_of (stk : list jsstr) : jsstr := join [sepc] (rev stk).

Definition last_len (stk : list jsstr) : Z :=
  match stk with [] => 0 | top :: _ => len top end.

(** The stacks the loop builds. *)
Definition stack_ok (stk : list jsstr) : Prop :=
  Forall (fun s => kept s /\ sep_free isSep s) stk.

Lemma res_of_cons x stk :
  res_of (x :: stk) = match stk with [] => x | _ => res_of stk ++ [sepc] ++ x end.
Proof. apply join_rev_cons. Qed.

Lemma res_of_nil_inv stk : stack_ok stk -> res_of stk = [] -> stk = [].
Proof.
  intros Hok E. assert (rev stk = []) as Hr.
  { apply (join_nil_inv [sepc]); [|done]. apply List.Forall_rev.
    eapply Forall_impl; [exact Hok|]. by intros s [[? ?] ?]. }
  apply (f_equal (@rev jsstr)) in Hr. by rewrite rev_involutive in Hr.
Qed.

Lemma res_of_pos stk : stack_ok stk -> (0 <? len (res_of stk)) = negb (bool_decide (stk = [])).
Proof.
  intros Hok. case_bool_decide; [by subst|].
  pose proof (len_nonneg (res_of stk)).
  destruct (decide (len (res_of stk) = 0)) as [E|].
  - apply len_zero, res_of_nil_inv in E; done.
  - by ztest.
Qed.

(** Pushing appends the separator and the segment. *)
Lemma res_of_push x stk :
  stack_ok stk ->
  (if 0 <? len (res_of stk) then res_of stk ++ [sepc] ++ x else x) = res_of (x :: stk).
Proof.
  intros Hok. rewrite res_of_pos, res_of_cons by done. by destruct stk.
Qed.

(** [lastIndexOf] finds the boundary of the top segment. *)
Lemma last_len_lastIndexOf stk :
  stack_ok stk -> len (res_of stk) - 1 - lastIndexOf (res_of stk) [sepc] = last_len stk.
Proof.
  intros Hok. destruct stk as [|x stk]; [done|].
  apply Forall_cons in Hok as [[_ Hx] Hok]. rewrite res_of_cons. unfold lastIndexOf.
  destruct stk as [|y stk].
  - rewrite lastIndexOf_at_none by by apply sep_free_neq. cbn; lia.
  - cbn [app]. rewrite lastIndexOf_at_mid by (lia || by apply sep_free_neq).
    cbn [last_len]. len_lia.
Qed.

(** When the top is not [..], the guard of the [..] case holds. *)
Lemma top_guard x stk :
  stack_ok (x :: stk) ->
  (len (res_of (x :: stk)) <? 2) || negb (last_len (x :: stk) =? 2) ||
  negb (code_is (charCodeAt (res_of (x :: stk)) (len (res_of (x :: stk)) - 1)) CHAR_DOT) ||
  negb (code_is (charCodeAt (res_of (x :: stk)) (len (res_of (x :: stk)) - 2)) CHAR_DOT)
  = negb (bool_decide (x = dotdot)).
Proof.
  intros _. assert (exists p, res_of (x :: stk) = p ++ x) as [p ->].
  { rewrite res_of_cons. destruct stk as [|y stk]; [by exists []|].
    exists (res_of (y :: stk) ++ [sepc]). by rewrite <- app_assoc. }
  cbn [last_len]. case_bool_decide as Hx.
  - subst x. change (len dotdot) with 2. unfold dotdot.
    rewrite (charCodeAt_app_r p _ (_ - 1)), (charCodeAt_app_r p _ (_ - 2)) by len_lia.
    replace (len _ - 1 - len p) with 1 by len_lia.
    replace (len _ - 2 - len p) with 0 by len_lia.
    replace (len (p ++ _) <? 2) with false by (symmetry; apply Z.ltb_ge; len_lia).
    done.
  - destruct (len x =? 2) eqn:E2; [|cbn; by rewrite orb_true_r]. bool_hyps.
    destruct x as [|a [|b [|? ?]]]; try (exfalso; len_lia).
    rewrite (charCodeAt_app_r p _ (_ - 1)), (charCodeAt_app_r p _ (_ - 2)) by len_lia.
    replace (len _ - 1 - len p) with 1 by len_lia.
    replace (len _ - 2 - len p) with 0 by len_lia.
    change (charCodeAt [a; b] 1) with (Some b). change (charCodeAt [a; b] 0) with (Some a).
    cbn.
    destruct (len _ <? 2), (b =? CHAR_DOT) eqn:Eb, (a =? CHAR_DOT) eqn:Ea; try done;
      bool_hyps; subst; by destruct Hx.
Qed.

(** Popping the top segment, by the two branches of the source. *)
Lemma pop_top x stk :
  stack_ok (x :: stk) ->
  (if 2 <? len (res_of (x :: stk)) then
     let lastSlashIndex := len (res_of (x :: stk)) - last_len (x :: stk) - 1 in
     if lastSlashIndex =? -1 then Some ([], 0)
     else let res' := slice (res_of (x :: stk)) 0 lastSlashIndex in
          Some (res', len res' - 1 - lastIndexOf res' [sepc])
   else if negb (len (res_of (x :: stk)) =? 0) then Some ([], 0) else None)
  = Some (res_of stk, last_len stk).
Proof.
  intros Hok. pose proof Hok as [[[Hx _] _] Hok']%Forall_cons.
  rewrite res_of_cons. cbn [last_len]. assert (0 < len x) as Hlx.
  { pose proof (len_nonneg x). destruct (decide (len x = 0)) as [E|]; [|lia].
    by apply len_zero in E. }
  destruct stk as [|y stk].
  - cbn zeta. replace (len x - len x - 1 =? -1) with true by (symmetry; apply Z.eqb_eq; lia).
    replace (len x =? 0) with false by (symmetry; apply Z.eqb_neq; lia).
    by destruct (2 <? len x).
  - assert (0 < len (res_of (y :: stk))) as Hly.
    { pose proof (res_of_pos (y :: stk) Hok') as E.
      rewrite bool_decide_eq_false_2 in E by done. by apply Z.ltb_lt. }
    cbn zeta. rewrite !len_app. rewrite !len_cons, len_nil.
    repeat ztest. rewrite slice_prefix by lia.
    by rewrite last_len_lastIndexOf.
Qed.

(** A separator met after the segment [cur] updates the stack by [seg_step]. *)
Lemma ns_segment_spec pre cur suf allow stk :
  stack_ok stk -> sep_free isSep cur ->
  ns_segment (pre ++ cur ++ suf) allow [sepc] (len pre + len cur)
    (NsState (res_of stk) (last_len stk) (len pre - 1) (dots_of cur))
  = NsState (res_of (seg_step allow stk cur)) (last_len (seg_step allow stk cur))
      (len pre + len cur) 0.
Proof.
  intros Hok Hcur. unfold ns_segment, seg_step.
  case_bool_decide as Hnil.
  { subst. rewrite len_nil. by ztest. }
  assert (0 < len cur).
  { pose proof (len_nonneg cur). destruct (decide (len cur = 0)) as [E|]; [|lia].
    by apply len_zero in E. }
  replace (len pre - 1 =? _) with false by (symmetry; apply Z.eqb_neq; lia).
  cbn [orb]. case_bool_decide as Hdot.
  { subst. by rewrite (proj2 (dots_of_1 dot)). }
  replace (dots_of cur =? 1) with false
    by (symmetry; apply Z.eqb_neq; by rewrite dots_of_1).
  case_bool_decide as Hdd.
  - subst. rewrite (proj2 (dots_of_2 dotdot)) by done. cbn [Z.eqb Pos.eqb].
    destruct stk as [|x stk]; [by destruct allow|].
    rewrite top_guard by done. rewrite pop_top by done.
    case_bool_decide as Hx; cbn [negb].
    + subst x. destruct allow; [|done]. by rewrite res_of_push.
    + done.
  - replace (dots_of cur =? 2) with false
      by (symmetry; apply Z.eqb_neq; by rewrite dots_of_2).
    rewrite slice_mid by lia. rewrite res_of_push by done. cbn [last_len].
    f_equal; lia.
Qed.

Lemma sep_free_dotdot : sep_free isSep dotdot.
Proof. by repeat constructor. Qed.

Lemma seg_step_ok allow stk cur :
  stack_ok stk -> sep_free isSep cur -> stack_ok (seg_step allow stk cur).
Proof.
  intros Hok Hcur. unfold seg_step.
  case_bool_decide; [done|]. case_bool_decide; [done|]. cbn [orb].
  assert (kept dotdot /\ sep_free isSep dotdot) as Hdd.
  { split; [done|]. apply sep_free_dotdot. }
  case_bool_decide.
  - destruct stk as [|x stk]; [destruct allow; by repeat constructor|].
    case_bool_decide; [|by apply Forall_cons in Hok as [? ?]].
    destruct allow; [by constructor|done].
  - by constructor.
Qed.

(** One iteration. *)
Lemma ns_loop_char path allow n i code st c :
  charCodeAt path i = Some c ->
  ns_loop path allow [sepc] isSep (S n) i code st =
  ns_loop path allow [sepc] isSep n (i + 1) (Some c)
    (if isSep (Some c) then ns_segment path allow [sepc] i st
     else NsState (ns_res st) (ns_lastSegmentLength st) (ns_lastSlash st)
            (if (c =? CHAR_DOT) && negb (ns_dots st =? -1) then ns_dots st + 1 else -1)).
Proof.
  intros Hc. cbn [ns_loop]. rewrite Hc.
  destruct (i <? len path) eqn:Ei.
  - destruct st. by destruct (isSep (Some c)).
  - bool_hyps. by rewrite charCodeAt_ge in Hc.
Qed.

Lemma ns_loop_spec allow suf : forall pre cur stk code,
  stack_ok stk -> sep_free isSep cur -> (isSep code = true -> cur = []) ->
  ns_res (ns_loop (pre ++ cur ++ suf) allow [sepc] isSep (S (length suf))
            (len pre + len cur) code
            (NsState (res_of stk) (last_len stk) (len pre - 1) (dots_of cur)))
  = res_of (seg_fold allow stk (split_by (fun c => isSep (Some c)) cur suf)).
Proof.
  induction suf as [|c suf IH]; intros pre cur stk code Hok Hcur Hcode.
  - cbn [length ns_loop split_by]. rewrite app_nil_r, len_app. ztest.
    destruct (isSep code) eqn:Ec.
    + by rewrite Hcode.
    + rewrite isSep_slash. cbn [ns_loop].
      pose proof (ns_segment_spec pre cur [] allow stk Hok Hcur) as E.
      rewrite app_nil_r in E. rewrite E. done.
  - cbn [length]. rewrite (ns_loop_char _ _ _ _ _ _ c)
      by (rewrite app_assoc; apply charCodeAt_app_mid; len_lia).
    cbn [split_by]. destruct (isSep (Some c)) eqn:Ec.
    + rewrite ns_segment_spec by done.
      specialize (IH (pre ++ cur ++ [c]) [] (seg_step allow stk cur) (Some c)).
      rewrite len_nil, !len_app, len_cons, len_nil, <- !app_assoc in IH. cbn [app] in IH.
      replace (len pre + (len cur + (0 + 1)) + 0) with (len pre + len cur + 1) in IH by lia.
      replace (len pre + (len cur + (0 + 1)) - 1) with (len pre + len cur) in IH by lia.
      by apply IH; [apply seg_step_ok|constructor|].
    + specialize (IH pre (cur ++ [c]) stk (Some c)).
      rewrite dots_of_snoc, len_app, len_cons, len_nil, <- !app_assoc in IH. cbn [app] in IH.
      replace (len pre + (len cur + (0 + 1))) with (len pre + len cur + 1) in IH by lia.
      apply IH; [done|by apply Forall_app; split; [|constructor]|congruence].
Qed.

(** [normalizeString] computes the normal form of the segments. *)
Theorem normalizeString_segments path allow :
  normalizeString path allow [sepc] isSep
  = join [sepc] (norm_segs allow (segments isSep path)).
Proof.
  unfold normalizeString, norm_segs, segments.
  apply (ns_loop_spec allow path [] [] [] (Some 0)); by constructor.
Qed.
End Normalize.

(** ** The algebra of segment lists *)

(** A segment that names something: not empty, [.] or [..]. *)
Definition plain (s : jsstr) : Prop := s <> [] /\ s <> dot /\ s <> dotdot.

(** The normal forms: leading [..] segments, then plain ones. *)
Definition normal_segs (l : list jsstr) : Prop :=
  exists k rest, l = replicate k dotdot ++ rest /\ Forall plain rest.

(** Changing directory: what one more path argument does. *)
Definition cd (isSep : option Z -> bool) (dir : list jsstr) (path : jsstr) : list jsstr :=
  norm_segs false ((if isSep (head path) then [] else dir) ++ segments isSep path).

Lemma seg_fold_app allow stk a b :
  seg_fold allow stk (a ++ b) = seg_fold allow (seg_fold allow stk a) b.
Proof. apply foldl_app. Qed.

Lemma seg_step_plain allow stk s : plain s -> seg_step allow stk s = s :: stk.
Proof.
  intros (? & ? & ?). unfold seg_step.
  by rewrite !bool_decide_eq_false_2 by done.
Qed.

Lemma seg_step_skip allow stk s :
  s = [] \/ s = dot -> seg_step allow stk s = stk.
Proof. by intros [-> | ->]. Qed.

Lemma seg_step_dotdot allow stk s : plain s -> seg_step allow (s :: stk) dotdot = stk.
Proof.
  intros (? & ? & ?). unfold seg_step.
  by rewrite (bool_decide_eq_false_2 (s = dotdot)) by done.
Qed.

Lemma seg_fold_plain allow stk l : Forall plain l -> seg_fold allow stk l = rev l ++ stk.
Proof.
  intros HF. revert stk. induction HF as [|s l Hs HF IH]; intros stk; [done|].
  cbn [seg_fold foldl rev]. rewrite seg_step_plain by done.
  rewrite <- app_assoc. apply IH.
Qed.

Lemma seg_fold_replicate_dotdot l stk allow :
  Forall plain l -> seg_fold allow (l ++ stk) (replicate (length l) dotdot) = stk.
Proof.
  induction 1 as [|s l Hs HF IH]; [done|].
  cbn [length replicate seg_fold foldl app]. by rewrite seg_step_dotdot.
Qed.

Lemma norm_segs_plain allow l : Forall plain l -> norm_segs allow l = l.
Proof.
  intros. unfold norm_segs. rewrite seg_fold_plain by done.
  by rewrite app_nil_r, rev_involutive.
Qed.

Lemma seg_step_false_plain stk s :
  Forall plain stk -> Forall plain (seg_step false stk s).
Proof.
  intros HF. unfold seg_step.
  case_bool_decide; [done|]. case_bool_decide; [done|]. cbn [orb]. case_bool_decide.
  - destruct HF as [|x stk Hx HF]; [done|].
    by rewrite bool_decide_eq_false_2 by apply Hx.
  - by repeat constructor.
Qed.

Lemma seg_fold_false_plain stk l : Forall plain stk -> Forall plain (seg_fold false stk l).
Proof.
  revert stk. induction l as [|s l IH]; intros stk HF; [done|].
  by apply IH, seg_step_false_plain.
Qed.

(** Below the root nothing but plain segments is left. *)
Lemma norm_segs_false_plain l : Forall plain (norm_segs false l).
Proof. apply List.Forall_rev. by apply seg_fold_false_plain. Qed.

Lemma seg_step_true_normal stk s :
  normal_segs (rev stk) -> normal_segs (rev (seg_step true stk s)).
Proof.
  intros Hn. pose proof Hn as (k & rest & E & HF). apply (f_equal (@rev jsstr)) in E.
  rewrite rev_involutive, rev_app_distr in E. unfold seg_step.
  case_bool_decide; [done|]. case_bool_decide; [done|]. cbn [orb]. assert (Forall plain (rev rest)) as HFr by by apply List.Forall_rev.
  case_bool_decide as Hs.
  - destruct (rev rest) as [|x r] eqn:Er; cbn [app] in E; subst stk.
    + assert (rest = []) as -> by (apply (f_equal (@rev jsstr)) in Er; by rewrite rev_involutive in Er).
      rewrite rev_replicate. destruct k as [|k]; cbn [replicate]; [by exists 1%nat, []|].
      rewrite bool_decide_eq_true_2 by done. exists (S (S k)), []. split; [|done].
      rewrite app_nil_r. apply (rev_replicate (S (S k))).
    + apply Forall_cons in HFr as [Hx HFr].
      rewrite bool_decide_eq_false_2 by apply Hx.
      exists k, (rev r). rewrite rev_app_distr, !rev_replicate.
      split; [done|by apply List.Forall_rev].
  - subst stk. exists k, (rest ++ [s]). cbn [rev]. rewrite rev_app_distr, !rev_replicate, rev_involutive.
    rewrite <- app_assoc. split; [done|]. apply Forall_app; split; [done|].
    by repeat constructor.
Qed.

Lemma norm_segs_true_normal l : normal_segs (norm_segs true l).
Proof.
  unfold norm_segs. assert (normal_segs (rev (@nil jsstr))) as H by by exists 0%nat, [].
  revert H. generalize (@nil jsstr) as stk. induction l as [|s l IH]; intros stk H; [done|].
  by apply IH, seg_step_true_normal.
Qed.

Lemma seg_fold_true_normal l stk :
  Forall (fun s => s = dotdot) stk ->
  normal_segs l ->
  seg_fold true stk l = rev l ++ stk.
Proof.
  intros Hstk (k & rest & -> & HF). rewrite seg_fold_app, rev_app_distr, rev_replicate.
  assert (seg_fold true stk (replicate k dotdot) = replicate k dotdot ++ stk) as ->.
  { clear HF. revert stk Hstk. induction k as [|k IH]; intros stk Hstk; [done|].
    cbn [replicate seg_fold foldl]. assert (seg_step true stk dotdot = dotdot :: stk) as ->.
    { destruct Hstk as [|x stk -> Hstk]; done. }
    assert (dotdot :: replicate k dotdot ++ stk = replicate k dotdot ++ dotdot :: stk) as E.
    { change (dotdot :: stk) with ([dotdot] ++ stk).
      rewrite app_comm_cons, app_assoc. f_equal.
      change (dotdot :: replicate k dotdot) with (replicate (S k) dotdot).
      by rewrite replicate_S_end. }
    cbn [app]. rewrite E. apply IH. by constructor. }
  rewrite seg_fold_plain by done. by rewrite <- app_assoc.
Qed.

Lemma norm_segs_fixpoint (allow : bool) l :
  (if allow then normal_segs l else Forall plain l) -> norm_segs allow l = l.
Proof.
  destruct allow; [|apply norm_segs_plain]. intros H. unfold norm_segs.
  rewrite seg_fold_true_normal by done. by rewrite app_nil_r, rev_involutive.
Qed.

(** Normalisation is idempotent. *)
Lemma norm_segs_idemp allow l : norm_segs allow (norm_segs allow l) = norm_segs allow l.
Proof.
  apply norm_segs_fixpoint. destruct allow;
    [apply norm_segs_true_normal|apply norm_segs_false_plain].
Qed.

(** A normalised prefix may replace the prefix it came from. *)
Lemma norm_segs_app_l allow a b :
  norm_segs allow (norm_segs allow a ++ b) = norm_segs allow (a ++ b).
Proof.
  unfold norm_segs at 1 3. rewrite !seg_fold_app. do 2 f_equal.
  pose proof (norm_segs_idemp allow a) as E. unfold norm_segs at 1 3 in E.
  apply (f_equal (@rev jsstr)) in E. by rewrite !rev_involutive in E.
Qed.

Lemma norm_segs_skip allow a s b :
  s = [] \/ s = dot -> norm_segs allow (a ++ s :: b) = norm_segs allow (a ++ b).
Proof.
  intros Hs. unfold norm_segs. rewrite !seg_fold_app. cbn [seg_fold foldl].
  by rewrite seg_step_skip.
Qed.

(** Going up from [c ++ u] through [length u] levels and down [d]. *)
Lemma norm_segs_up allow c u d :
  Forall plain c -> Forall plain u -> Forall plain d ->
  norm_segs allow (c ++ u ++ replicate (length u) dotdot ++ d) = c ++ d.
Proof.
  intros Hc Hu Hd. unfold norm_segs. rewrite !seg_fold_app.
  rewrite (seg_fold_plain _ [] c), app_nil_r by done.
  rewrite (seg_fold_plain _ _ u) by done.
  rewrite <- (length_rev u), seg_fold_replicate_dotdot by by apply List.Forall_rev.
  rewrite seg_fold_plain by done. by rewrite rev_app_distr, !rev_involutive.
Qed.

(** ** Splitting and joining *)

Lemma split_by_nil p acc s :
  Forall (fun c => p c = false) s -> split_by p acc s = [acc ++ s].
Proof.
  intros HF. revert acc. induction HF as [|c s Hc HF IH]; intros acc; cbn [split_by].
  - by rewrite app_nil_r.
  - rewrite Hc, IH. by rewrite <- app_assoc.
Qed.

Lemma split_by_app p acc s c t :
  p c = true -> split_by p acc (s ++ c :: t) = split_by p acc s ++ split_by p [] t.
Proof.
  intros Hc. revert acc. induction s as [|x s IH]; intros acc; cbn [app split_by].
  - by rewrite Hc.
  - destruct (p x); [cbn [app]; f_equal|]; apply IH.
Qed.

Lemma split_by_free p acc s :
  Forall (fun c => p c = false) acc ->
  Forall (fun t => Forall (fun c => p c = false) t) (split_by p acc s).
Proof.
  revert acc. induction s as [|x s IH]; intros acc HF; cbn [split_by].
  - by constructor.
  - destruct (p x) eqn:E.
    + constructor; [done|]. by apply IH.
    + apply IH. apply Forall_app; split; [done|by constructor].
Qed.

Section Segments.
Context (isSep : option Z -> bool) (sepc : Z).
Hypothesis isSep_sepc : isSep (Some sepc) = true.

Lemma segments_app s c t :
  isSep (Some c) = true ->
  segments isSep (s ++ c :: t) = segments isSep s ++ segments isSep t.
Proof. intros. by apply split_by_app. Qed.

Lemma segments_single s : sep_free isSep s -> segments isSep s = [s].
Proof. intros. by apply split_by_nil. Qed.

Lemma segments_sep_free s : Forall (sep_free isSep) (segments isSep s).
Proof. by apply split_by_free. Qed.

(** [segments] inverts [join]. *)
Lemma segments_join l :
  l <> [] -> Forall (sep_free isSep) l -> segments isSep (join [sepc] l) = l.
Proof.
  intros Hl HF. induction HF as [|x l Hx HF IH]; [done|].
  destruct l as [|y l]; [by apply segments_single|].
  change (join [sepc] (x :: y :: l)) with (x ++ sepc :: join [sepc] (y :: l)).
  rewrite segments_app, segments_single, IH by done. done.
Qed.

Lemma sep_free_fold allow stk l :
  isSep (Some CHAR_DOT) = false ->
  Forall (sep_free isSep) stk -> Forall (sep_free isSep) l ->
  Forall (sep_free isSep) (seg_fold allow stk l).
Proof.
  intros Hd Hstk HF. revert stk Hstk. induction HF as [|s l Hs HF IH]; intros stk Hstk; [done|].
  apply IH. unfold seg_step.
  assert (sep_free isSep dotdot) by by repeat constructor.
  case_bool_decide; [done|]. case_bool_decide; [done|]. cbn [orb]. case_bool_decide.
  - destruct Hstk as [|x stk Hx Hstk]; [by destruct allow; repeat constructor|].
    case_bool_decide; [|done]. destruct allow; by repeat constructor.
  - by constructor.
Qed.

Lemma norm_segs_sep_free allow l :
  isSep (Some CHAR_DOT) = false ->
  Forall (sep_free isSep) l -> Forall (sep_free isSep) (norm_segs allow l).
Proof. intros. apply List.Forall_rev. by apply sep_free_fold. Qed.
End Segments.

(** ** The two instances of [normalizeString] *)

Lemma posix_sep_spec c : isPosixPathSeparator (Some c) = (c =? CHAR_FORWARD_SLASH).
Proof. done. Qed.

Theorem normalizeString_posix path allow :
  normalizeString path allow "/" isPosixPathSeparator
  = join "/" (norm_segs allow (segments isPosixPathSeparator path)).
Proof. by apply normalizeString_segments. Qed.

Theorem normalizeString_win32 path allow :
  normalizeString path allow [CHAR_BACKWARD_SLASH] isPathSeparator
  = join [CHAR_BACKWARD_SLASH] (norm_segs allow (segments isPathSeparator path)).
Proof. by apply normalizeString_segments. Qed.

(** Normalising a relative path does not change where it leads. *)
Lemma seg_fold_rev_step stk stk2 s :
  normal_segs (rev stk2) ->
  Forall plain stk ->
  seg_fold false stk (rev (seg_step true stk2 s))
  = seg_step false (seg_fold false stk (rev stk2)) s.
Proof.
  intros Hn Hstk. unfold seg_step at 1.
  case_bool_decide as Hnil; [by rewrite seg_step_skip by auto|].
  case_bool_decide as Hd; [by rewrite seg_step_skip by auto|]. cbn [orb].
  case_bool_decide as Hdd.
  - subst s. destruct stk2 as [|x stk2]; [done|]. case_bool_decide as Hx.
    + subst x. cbn [rev]. by rewrite !seg_fold_app.
    + assert (plain x) as Hp.
      { destruct Hn as (k & rest & E & HF). cbn [rev] in E.
        destruct rest as [|z rest _] using rev_ind.
        - rewrite app_nil_r in E. destruct k; [by destruct (rev stk2)|].
          rewrite replicate_S_end in E. by apply app_inj_tail in E as [_ ?].
        - rewrite app_assoc in E. apply app_inj_tail in E as [_ ->].
          apply Forall_app in HF as [_ HF]. by apply Forall_cons in HF as [? _]. }
      cbn [rev]. rewrite seg_fold_app. cbn [seg_fold foldl].
      rewrite (seg_step_plain _ _ x) by done. by rewrite seg_step_dotdot.
  - cbn [rev]. by rewrite seg_fold_app.
Qed.

Lemma norm_segs_app_r a b :
  norm_segs false (a ++ norm_segs true b) = norm_segs false (a ++ b).
Proof.
  unfold norm_segs at 1 3. rewrite !seg_fold_app. f_equal.
  set (stk := seg_fold false [] a).
  assert (Forall plain stk) as Hstk by by apply seg_fold_false_plain.
  unfold norm_segs.
  assert (forall stk2, normal_segs (rev stk2) ->
    seg_fold false stk (rev (seg_fold true stk2 b))
    = seg_fold false (seg_fold false stk (rev stk2)) b) as H.
  { induction b as [|s b IH]; intros stk2 Hn; [done|]. cbn [seg_fold foldl].
    etransitivity; [apply IH, seg_step_true_normal, Hn|].
    f_equal. by apply seg_fold_rev_step. }
  apply (H []). by exists 0%nat, [].
Qed.
