(* ===== verification/PathPosix.v ===== *)
(** * [path.posix]

    Models the [posix] object of [libjs-node/path.js] (lines 1223-1698), one
    definition per method with its loops, argument validation and early
    returns, and proves what the methods compute against the segment
    specification of [PathSpec]. *)

From S2P Require Import Prelude JsString Path PathSpec.

Module Posix.

(** [posixCwd()]: on Windows the backslashes become slashes and the drive is
    cut off. *)
Definition posixCwd (isWindows : bool) (process_cwd : result jsstr) : result jsstr :=
  if isWindows then
    let* cwd := process_cwd in
    let cwd := replace_all CHAR_BACKWARD_SLASH "/" cwd in
    Ok (slice_from cwd (indexOf cwd "/"))
  else process_cwd.

Section WithCwd.
(** The result of [posixCwd()]: the native [process.cwd()], which may throw. *)
Variable cwd : result jsstr.

(** [for (let i = args.length - 1; i >= 0 && !resolvedAbsolute; i--)], over
    the reversed arguments. *)
Fixpoint resolve_loop (rargs : list jsval) (i : Z) (resolvedPath : jsstr)
    (resolvedAbsolute : bool) : result (jsstr * bool) :=
  match rargs with
  | [] => Ok (resolvedPath, resolvedAbsolute)
  | arg :: rargs' =>
      if resolvedAbsolute then Ok (resolvedPath, resolvedAbsolute)
      else
        let* path := validateString arg ("paths[" ++ js_of_Z i ++ "]") in
        if len path =? 0 then resolve_loop rargs' (i - 1) resolvedPath resolvedAbsolute
        else resolve_loop rargs' (i - 1) (path ++ "/" ++ resolvedPath)
               (code_is (charCodeAt path 0) CHAR_FORWARD_SLASH)
  end.

Definition is_cwd_request (args : list jsval) : bool :=
  match args with
  | [] => true
  | [a] => bool_decide (a = VString "") || bool_decide (a = VString ".")
  | _ => false
  end.

Definition resolve (args : list jsval) : result jsstr :=
  let* early :=
    (if is_cwd_request args then
       let* c := cwd in
       Ok (if code_is (charCodeAt c 0) CHAR_FORWARD_SLASH then Some c else None)
     else Ok None) in
  match early with
  | Some c => Ok c
  | None =>
      let* (resolvedPath, resolvedAbsolute) :=
        resolve_loop (rev args) (Z.of_nat (length args) - 1) "" false in
      let* (resolvedPath, resolvedAbsolute) :=
        (if resolvedAbsolute then Ok (resolvedPath, resolvedAbsolute)
         else
           let* c := cwd in
           Ok (c ++ "/" ++ resolvedPath, code_is (charCodeAt c 0) CHAR_FORWARD_SLASH)) in
      let resolvedPath :=
        normalizeString resolvedPath (negb resolvedAbsolute) "/" isPosixPathSeparator in
      Ok (if resolvedAbsolute then "/" ++ resolvedPath
          else if 0 <? len resolvedPath then resolvedPath else ".")
  end.

(** The comparison loop of [relative]: [n] indices remain. *)
Fixpoint common_loop (from to : jsstr) (n : nat) (i lastCommonSep : Z) : Z * Z :=
  match n with
  | O => (i, lastCommonSep)
  | S n' =>
      let fromCode := charCodeAt from (1 + i) in
      if code_differs fromCode (charCodeAt to (1 + i)) then (i, lastCommonSep)
      else common_loop from to n' (i + 1)
             (if code_is fromCode CHAR_FORWARD_SLASH then i else lastCommonSep)
  end.

(** The loop that emits one [..] per remaining segment of [from]. *)
Fixpoint up_loop (from : jsstr) (n : nat) (i : Z) (out : jsstr) : jsstr :=
  match n with
  | O => out
  | S n' =>
      up_loop from n' (i + 1)
        (if (i =? len from) || code_is (charCodeAt from i) CHAR_FORWARD_SLASH
         then out ++ (if len out =? 0 then (".." : jsstr) else "/..") else out)
  end.

Definition relative_resolved (from to : jsstr) : jsstr :=
  let fromStart := 1 in
  let fromEnd := len from in
  let fromLen := fromEnd - fromStart in
  let toStart := 1 in
  let toLen := len to - toStart in
  let length := if fromLen <? toLen then fromLen else toLen in
  let '(i, lastCommonSep) := common_loop from to (Z.to_nat length) 0 (-1) in
  let rest lastCommonSep :=
    up_loop from (Z.to_nat (fromEnd - (fromStart + lastCommonSep + 1) + 1))
      (fromStart + lastCommonSep + 1) "" ++ slice_from to (toStart + lastCommonSep) in
  if i =? length then
    if length <? toLen then
      if code_is (charCodeAt to (toStart + i)) CHAR_FORWARD_SLASH
      then slice_from to (toStart + i + 1)
      else if i =? 0 then slice_from to (toStart + i)
      else rest lastCommonSep
    else if length <? fromLen then
      if code_is (charCodeAt from (fromStart + i)) CHAR_FORWARD_SLASH then rest i
      else if i =? 0 then rest 0
      else rest lastCommonSep
    else rest lastCommonSep
  else rest lastCommonSep.

Definition relative (from to : jsval) : result jsstr :=
  let* from := validateString from "from" in
  let* to := validateString to "to" in
  if bool_decide (from = to) then Ok ""
  else
    let* from := resolve [VString from] in
    let* to := resolve [VString to] in
    if bool_decide (from = to) then Ok ""
    else Ok (relative_resolved from to).
End WithCwd.

Definition normalize (path : jsval) : result jsstr :=
  let* path := validateString path "path" in
  if len path =? 0 then Ok "."
  else
    let isAbsolute := code_is (charCodeAt path 0) CHAR_FORWARD_SLASH in
    let trailingSeparator :=
      code_is (charCodeAt path (len path - 1)) CHAR_FORWARD_SLASH in
    let path := normalizeString path (negb isAbsolute) "/" isPosixPathSeparator in
    if len path =? 0 then
      Ok (if isAbsolute then "/" else if trailingSeparator then "./" else ".")
    else
      let path := if trailingSeparator then path ++ "/" else path in
      Ok (if isAbsolute then "/" ++ path else path).

Definition isAbsolute (path : jsval) : result bool :=
  let* path := validateString path "path" in
  Ok ((0 <? len path) && code_is (charCodeAt path 0) CHAR_FORWARD_SLASH).

(** The arguments of [join], validated in order, without the empty ones. *)
Fixpoint join_args (args : list jsval) : result (list jsstr) :=
  match args with
  | [] => Ok []
  | arg :: args' =>
      let* arg := validateString arg "path" in
      let* path := join_args args' in
      Ok (if 0 <? len arg then arg :: path else path)
  end.

Definition join (args : list jsval) : result jsstr :=
  match args with
  | [] => Ok "."
  | _ =>
      let* path := join_args args in
      match path with
      | [] => Ok "."
      | _ => normalize (VString (JsString.join "/" path))
      end
  end.

Definition toNamespacedPath (path : jsval) : jsval := path.

(** [for (let i = path.length - 1; i >= 1; --i)]: [n] is [i]. *)
Fixpoint dirname_loop (path : jsstr) (n : nat) (matchedSlash : bool) : Z :=
  match n with
  | O => -1
  | S n' =>
      let i := Z.of_nat n in
      if code_is (charCodeAt path i) CHAR_FORWARD_SLASH then
        if negb matchedSlash then i else dirname_loop path n' matchedSlash
      else dirname_loop path n' false
  end.

Definition dirname (path : jsval) : result jsstr :=
  let* path := validateString path "path" in
  if len path =? 0 then Ok "."
  else
    let hasRoot := code_is (charCodeAt path 0) CHAR_FORWARD_SLASH in
    let stop := dirname_loop path (length path - 1) true in
    Ok (if stop =? -1 then (if hasRoot then "/" else ".")
        else if hasRoot && (stop =? 1) then "//"
        else slice path 0 stop).

(** [basename] without a suffix; [n] is [i + 1].  Result: [start], [end]. *)
Fixpoint basename_loop (path : jsstr) (n : nat) (stop : Z) (matchedSlash : bool) : Z * Z :=
  match n with
  | O => (0, stop)
  | S n' =>
      let i := Z.of_nat n' in
      if code_is (charCodeAt path i) CHAR_FORWARD_SLASH then
        if negb matchedSlash then (i + 1, stop) else basename_loop path n' stop matchedSlash
      else if stop =? -1 then basename_loop path n' (i + 1) false
      else basename_loop path n' stop matchedSlash
  end.

(** [basename] with a suffix; result: [start], [end], [firstNonSlashEnd]. *)
Fixpoint basename_suffix_loop (path suffix : jsstr) (n : nat)
    (stop extIdx firstNonSlashEnd : Z) (matchedSlash : bool) : Z * Z * Z :=
  match n with
  | O => (0, stop, firstNonSlashEnd)
  | S n' =>
      let i := Z.of_nat n' in
      let code := charCodeAt path i in
      if code_is code CHAR_FORWARD_SLASH then
        if negb matchedSlash then (i + 1, stop, firstNonSlashEnd)
        else basename_suffix_loop path suffix n' stop extIdx firstNonSlashEnd matchedSlash
      else
        let '(matchedSlash, firstNonSlashEnd) :=
          if firstNonSlashEnd =? -1 then (false, i + 1) else (matchedSlash, firstNonSlashEnd) in
        let '(extIdx, stop) :=
          if 0 <=? extIdx then
            if negb (code_differs code (charCodeAt suffix extIdx)) then
              (extIdx - 1, if extIdx - 1 =? -1 then i else stop)
            else (-1, firstNonSlashEnd)
          else (extIdx, stop) in
        basename_suffix_loop path suffix n' stop extIdx firstNonSlashEnd matchedSlash
  end.

(** [suffix] is [None] for [undefined]. *)
Definition basename (path : jsval) (suffix : option jsval) : result jsstr :=
  let* suffix :=
    match suffix with
    | None => Ok None
    | Some v => let* s := validateString v "suffix" in Ok (Some s)
    end in
  let* path := validateString path "path" in
  let plain :=
    let '(start, stop) := basename_loop path (length path) (-1) true in
    if stop =? -1 then [] else slice path start stop in
  match suffix with
  | Some suffix =>
      if (0 <? len suffix) && (len suffix <=? len path) then
        if bool_decide (suffix = path) then Ok ""
        else
          let '(start, stop, firstNonSlashEnd) :=
            basename_suffix_loop path suffix (length path) (-1) (len suffix - 1) (-1) true in
          let stop :=
            if start =? stop then firstNonSlashEnd
            else if stop =? -1 then len path else stop in
          Ok (slice path start stop)
      else Ok plain
  | None => Ok plain
  end.

(** The scan [extname] and [parse] share: [startDot], [startPart], [end] and
    [preDotState] after the indices [first + n - 1] down to [first]. *)
Record ext_scan := ExtScan {
  es_startDot : Z; es_startPart : Z; es_end : Z; es_preDotState : Z;
}.

Fixpoint ext_loop (path : jsstr) (first : Z) (n : nat) (matchedSlash : bool)
    (st : ext_scan) : ext_scan :=
  match n with
  | O => st
  | S n' =>
      let i := first + Z.of_nat n' in
      let code := charCodeAt path i in
      let '(ExtScan startDot startPart stop preDotState) := st in
      if code_is code CHAR_FORWARD_SLASH then
        if negb matchedSlash then ExtScan startDot (i + 1) stop preDotState
        else ext_loop path first n' matchedSlash st
      else
        let '(matchedSlash, stop) :=
          if stop =? -1 then (false, i + 1) else (matchedSlash, stop) in
        let '(startDot, preDotState) :=
          if code_is code CHAR_DOT then
            if startDot =? -1 then (i, preDotState)
            else (startDot, if negb (preDotState =? 1) then 1 else preDotState)
          else if negb (startDot =? -1) then (startDot, -1)
          else (startDot, preDotState) in
        ext_loop path first n' matchedSlash (ExtScan startDot startPart stop preDotState)
  end.

(** The test under which there is no extension ([end === -1] apart). *)
Definition no_ext (st : ext_scan) : bool :=
  (es_startDot st =? -1) || (es_preDotState st =? 0) ||
  (es_preDotState st =? 1) && (es_startDot st =? es_end st - 1) &&
  (es_startDot st =? es_startPart st + 1).

Definition extname (path : jsval) : result jsstr :=
  let* path := validateString path "path" in
  let st := ext_loop path 0 (length path) true (ExtScan (-1) 0 (-1) 0) in
  Ok (if no_ext st || (es_end st =? -1) then []
      else slice path (es_startDot st) (es_end st)).

Definition parse (path : jsval) : result pathObject :=
  let* path := validateString path "path" in
  if len path =? 0 then Ok (PathObject [] [] [] [] [])
  else
    let isAbsolute := code_is (charCodeAt path 0) CHAR_FORWARD_SLASH in
    let '(root, first) := if isAbsolute then (("/" : jsstr), 1) else ([], 0) in
    let st := ext_loop path first (Z.to_nat (len path - first)) true (ExtScan (-1) 0 (-1) 0) in
    let '(base, ext, name) :=
      if negb (es_end st =? -1) then
        let start := if (es_startPart st =? 0) && isAbsolute then 1 else es_startPart st in
        if no_ext st then
          (slice path start (es_end st), [], slice path start (es_end st))
        else
          (slice path start (es_end st), slice path (es_startDot st) (es_end st),
           slice path start (es_startDot st))
      else ([], [], []) in
    let dir :=
      if 0 <? es_startPart st then slice path 0 (es_startPart st - 1)
      else if isAbsolute then "/" else [] in
    Ok (PathObject root dir base ext name).

Definition format : option pathObject -> result jsstr := _format "/".

Example resolve_ex :
  resolve (Ok "/w") [VString "a"; VNumber 3; VString "/x/../y"; VString "z/."]
  = Ok ("/y/z" : jsstr).
Proof. vm_compute. reflexivity. Qed.

Example relative_ex :
  relative (Ok "/w") (VString "/data/orandea/test/aaa") (VString "/data/orandea/impl/bbb")
  = Ok ("../../impl/bbb" : jsstr).
Proof. vm_compute. reflexivity. Qed.

Example basename_ex :
  basename (VString "/foo/bar/baz.html//") (Some (VString ".html")) = Ok ("baz" : jsstr).
Proof. vm_compute. reflexivity. Qed.

Example parse_ex :
  parse (VString "/home/user/file.txt") =
  Ok (PathObject "/" "/home/user" "file.txt" ".txt" "file").
Proof. vm_compute. reflexivity. Qed.

End Posix.
