(* ===== verification/PathPosixFacts.v ===== *)
(** * What [path.posix] computes

    Functional behaviour of [normalize], [join], [resolve] and [relative] of
    [PathPosix] on strings, against the segment algebra of [PathSpec]. *)

From S2P Require Import Prelude JsString Path PathSpec PathPosix.

Abbreviation slash := isPosixPathSeparator.

(** Segments as they occur in a normalised path. *)
Definition clean (l : list jsstr) : Prop :=
  Forall (fun s => plain s /\ sep_free slash s) l.

(** The absolute path of a list of segments. *)
Definition abs_path (l : list jsstr) : jsstr := "/" ++ join "/" l.

(** What the documentation of [process.cwd()] promises: an absolute path
    without empty, [.] or [..] segments. *)
Definition normal_cwd (c : jsstr) : Prop := exists l, clean l /\ c = abs_path l.

(** ** First and last characters of a joined path *)

Definition nonslash_ends (l : list jsstr) : Prop :=
  Forall (fun s => s <> [] /\ sep_free slash s) l.

Lemma sep_free_head s c : sep_free slash (c :: s) -> (c =? CHAR_FORWARD_SLASH) = false.
Proof. by intros [? _]%Forall_cons. Qed.

Lemma join_head_nonslash l :
  nonslash_ends l -> l <> [] ->
  exists c t, join "/" l = c :: t /\ (c =? CHAR_FORWARD_SLASH) = false.
Proof.
  intros HF Hl. destruct HF as [|x l [Hx Hf] HF]; [done|].
  destruct x as [|c x]; [done|]. pose proof (sep_free_head _ _ Hf).
  destruct l as [|y l]; eexists c, _; cbn; eauto.
Qed.

Lemma join_last_nonslash l :
  nonslash_ends l -> l <> [] ->
  exists t c, join "/" l = t ++ [c] /\ (c =? CHAR_FORWARD_SLASH) = false.
Proof.
  destruct l as [|x l _] using rev_ind; [done|]. intros HF _.
  apply Forall_app in HF as [_ HF]. apply Forall_cons in HF as [[Hx Hf] _].
  destruct x as [|c x _] using rev_ind; [done|].
  apply Forall_app in Hf as [_ Hf]. apply sep_free_head in Hf.
  rewrite join_snoc. destruct l as [|y l]; [by exists x, c|].
  exists (join "/" (y :: l) ++ "/" ++ x), c. by rewrite <- !app_assoc.
Qed.

Lemma nonslash_nonempty l : nonslash_ends l -> l <> [] -> join "/" l <> [].
Proof. intros HF Hl. by destruct (join_head_nonslash l HF Hl) as (? & ? & -> & _). Qed.

Lemma plain_nonslash l : clean l -> nonslash_ends l.
Proof. intros H. eapply Forall_impl; [exact H|]. by intros s [(? & _ & _) ?]. Qed.

Lemma clean_plain l : clean l -> Forall plain l.
Proof. intros H. eapply Forall_impl; [exact H|]. by intros s [? _]. Qed.

Lemma clean_sep_free l : clean l -> Forall (sep_free slash) l.
Proof. intros H. eapply Forall_impl; [exact H|]. by intros s [_ ?]. Qed.

Lemma clean_intro l : Forall plain l -> Forall (sep_free slash) l -> clean l.
Proof. intros H1 H2. apply Forall_and; by split. Qed.

Lemma norm_segs_nonslash allow p : nonslash_ends (norm_segs allow (segments slash p)).
Proof.
  pose proof (norm_segs_sep_free slash allow (segments slash p) eq_refl
                (segments_sep_free slash p)) as Hf.
  apply Forall_and; split; [|done]. destruct allow.
  - destruct (norm_segs_true_normal (segments slash p)) as (k & r & -> & HF).
    apply Forall_app; split.
    + by apply Forall_replicate.
    + eapply Forall_impl; [exact HF|]. by intros s (? & _ & _).
  - eapply Forall_impl; [apply norm_segs_false_plain|]. by intros s (? & _ & _).
Qed.


(** ** [normalize] *)

(** The shape of a normalised path. *)
Definition render (abs : bool) (l : list jsstr) (trail : bool) : jsstr :=
  match l with
  | [] => if abs then "/" else if trail then "./" else "."
  | _ => (if abs then "/" else "") ++ join "/" l ++ (if trail then "/" else "")
  end.

Definition is_abs (p : jsstr) : bool := code_is (charCodeAt p 0) CHAR_FORWARD_SLASH.
Definition is_trail (p : jsstr) : bool := code_is (charCodeAt p (len p - 1)) CHAR_FORWARD_SLASH.

Lemma normalize_render p :
  p <> [] ->
  Posix.normalize (VString p) =
  Ok (render (is_abs p) (norm_segs (negb (is_abs p)) (segments slash p)) (is_trail p)).
Proof.
  intros Hp. unfold Posix.normalize. cbn [validateString result_bind].
  rewrite len_eqb_zero, bool_decide_eq_false_2 by done.
  rewrite normalizeString_posix. fold (is_abs p) (is_trail p).
  pose proof (norm_segs_nonslash (negb (is_abs p)) p) as Hn.
  destruct (norm_segs _ _) as [|x l]; [by destruct (is_abs p), (is_trail p)|].
  rewrite len_eqb_zero, bool_decide_eq_false_2 by by apply nonslash_nonempty.
  unfold render. destruct (is_trail p), (is_abs p); by rewrite ?app_nil_r.
Qed.

Lemma is_abs_render abs l trail :
  nonslash_ends l -> is_abs (render abs l trail) = abs.
Proof.
  intros Hn. destruct l as [|x l]; [by destruct abs, trail|]. unfold render, is_abs.
  destruct abs; [done|].
  destruct (join_head_nonslash (x :: l) Hn) as (c & t & -> & E); done.
Qed.

Lemma is_trail_render abs l trail :
  nonslash_ends l -> l <> [] -> is_trail (render abs l trail) = trail.
Proof.
  intros Hn Hl. destruct l as [|x l]; [done|]. unfold render, is_trail.
  destruct (join_last_nonslash (x :: l) Hn Hl) as (t & c & -> & E).
  destruct trail.
  - rewrite app_assoc. by rewrite charCodeAt_last.
  - rewrite app_nil_r, app_assoc, charCodeAt_last. done.
Qed.

Lemma segments_render abs x l trail :
  nonslash_ends (x :: l) ->
  segments slash (render abs (x :: l) trail)
  = (if abs then [[]] else []) ++ (x :: l) ++ (if trail then [[]] else []).
Proof.
  intros Hn. unfold render.
  assert (segments slash (join "/" (x :: l)) = x :: l) as Hj.
  { apply segments_join; [done|done|]. eapply Forall_impl; [exact Hn|]. by intros s [_ ?]. }
  assert (segments slash (join "/" (x :: l) ++ (if trail then "/" else ""))
          = (x :: l) ++ (if trail then [[]] else [])) as Ht.
  { destruct trail; [by rewrite segments_app, Hj|by rewrite !app_nil_r]. }
  destruct abs; [|exact Ht]. change ("/" ++ ?s) with ([] ++ CHAR_FORWARD_SLASH :: s).
  rewrite segments_app by done. by rewrite Ht.
Qed.

(** The normal form of a rendered path is the path it was rendered from. *)
Lemma norm_segs_render abs x l trail allow :
  nonslash_ends (x :: l) -> norm_segs allow (x :: l) = x :: l ->
  norm_segs allow (segments slash (render abs (x :: l) trail)) = x :: l.
Proof.
  intros Hn Hf. rewrite segments_render by done.
  assert (norm_segs allow ((x :: l) ++ (if trail then [[]] else [])) = x :: l) as Ht.
  { destruct trail; [rewrite norm_segs_skip by auto|]; by rewrite app_nil_r. }
  destruct abs; [|exact Ht].
  change ([[]] ++ ?s) with ([] ++ [] :: s). rewrite norm_segs_skip by auto. exact Ht.
Qed.

Lemma slash_head p : slash (head p) = is_abs p.
Proof. unfold is_abs. by rewrite charCodeAt_0. Qed.

Lemma normalize_fixpoint abs l trail :
  nonslash_ends l -> norm_segs (negb abs) l = l ->
  Posix.normalize (VString (render abs l trail)) = Ok (render abs l trail).
Proof.
  intros Hn Hf. destruct l as [|x l]; [by destruct abs, trail|].
  rewrite normalize_render.
  - rewrite is_abs_render, is_trail_render by done. by rewrite norm_segs_render.
  - unfold render. pose proof (nonslash_nonempty (x :: l) Hn) as H.
    destruct abs; [done|]. intros E. apply app_eq_nil in E as [_ E].
    apply app_eq_nil in E as [E _]. by apply H.
Qed.

Lemma cd_render abs l trail dir :
  nonslash_ends l -> norm_segs (negb abs) l = l ->
  cd slash dir (render abs l trail) = norm_segs false ((if abs then [] else dir) ++ l).
Proof.
  intros Hn Hf. unfold cd. rewrite slash_head, is_abs_render by done.
  destruct l as [|x l].
  - destruct abs; [done|]. rewrite app_nil_r. unfold render.
    assert (forall a, norm_segs false (a ++ [dot]) = norm_segs false a) as H.
    { intros a. rewrite norm_segs_skip by auto. by rewrite app_nil_r. }
    destruct trail; [|apply H].
    change (segments slash "./") with ([dot; []]). rewrite norm_segs_skip by auto.
    rewrite norm_segs_skip by auto. by rewrite app_nil_r.
  - rewrite segments_render by done.
    assert (forall a, norm_segs false (a ++ (x :: l) ++ (if trail then [[]] else []))
                      = norm_segs false (a ++ (x :: l))) as Ht.
    { intros a. destruct trail; [|by rewrite app_nil_r].
      rewrite app_assoc, norm_segs_skip by auto. by rewrite app_nil_r. }
    destruct abs; [|apply Ht]. change ([] ++ [[]] ++ ?s) with ([] ++ [] :: s).
    rewrite norm_segs_skip by auto. apply (Ht []).
Qed.

(** Normalising twice is normalising once, and where a path leads from a given
    directory does not change. *)
Theorem normalize_idempotent_and_sound p dir :
  exists r, Posix.normalize (VString p) = Ok r /\
            Posix.normalize (VString r) = Ok r /\
            cd slash dir r = cd slash dir p.
Proof.
  destruct (decide (p = [])) as [->|Hp].
  { exists ".". split_and!; [done..|]. unfold cd.
    change (norm_segs false (dir ++ dot :: []) = norm_segs false (dir ++ [] :: [])).
    by rewrite !norm_segs_skip by auto. }
  exists (render (is_abs p) (norm_segs (negb (is_abs p)) (segments slash p)) (is_trail p)).
  pose proof (norm_segs_nonslash (negb (is_abs p)) p).
  pose proof (norm_segs_idemp (negb (is_abs p)) (segments slash p)).
  split_and!; [by apply normalize_render|by apply normalize_fixpoint|].
  rewrite cd_render by done. unfold cd. rewrite slash_head.
  destruct (is_abs p); cbn [negb app]; [apply norm_segs_idemp|apply norm_segs_app_r].
Qed.

(** ** [resolve] *)

Lemma segments_prepend p acc :
  segments slash (p ++ "/" ++ acc) = segments slash p ++ segments slash acc.
Proof. by apply segments_app. Qed.

Lemma cd_empty dir : Forall plain dir -> cd slash dir [] = dir.
Proof.
  intros H. unfold cd. change (norm_segs false (dir ++ [] :: []) = dir).
  rewrite norm_segs_skip by auto. rewrite app_nil_r. by apply norm_segs_plain.
Qed.

Lemma cd_plain dir p : Forall plain (cd slash dir p).
Proof. apply norm_segs_false_plain. Qed.

Lemma cds_plain dir ps : Forall plain dir -> Forall plain (foldl (cd slash) dir ps).
Proof.
  revert dir. induction ps as [|p ps IH]; intros dir H; [done|]. apply IH, cd_plain.
Qed.

(** The right-to-left loop accumulates a path that leads where the remaining
    arguments, taken left to right, lead. *)
Lemma resolve_loop_spec dir args acc i :
  Forall plain dir ->
  exists path abs,
    Posix.resolve_loop (rev (VString <$> args)) i acc false = Ok (path, abs) /\
    norm_segs false ((if abs then [] else dir) ++ segments slash path)
    = norm_segs false (foldl (cd slash) dir args ++ segments slash acc).
Proof.
  intros Hdir. revert i acc. induction args as [|p args IH] using rev_ind; intros i acc.
  { exists acc, false. done. }
  rewrite fmap_app, rev_app_distr. cbn [fmap list_fmap rev app Posix.resolve_loop].
  cbn [validateString result_bind]. rewrite len_eqb_zero, foldl_snoc.
  case_bool_decide as Hp.
  { subst p. rewrite cd_empty by by apply cds_plain. apply IH. }
  fold (is_abs p). destruct (is_abs p) eqn:Ea.
  - exists (p ++ "/" ++ acc), true. split; [by destruct (rev (VString <$> args))|].
    unfold cd. rewrite slash_head, Ea. rewrite segments_prepend. cbn [app].
    by rewrite norm_segs_app_l.
  - destruct (IH (i - 1) (p ++ "/" ++ acc)) as (path & abs & HL & HE).
    exists path, abs. split; [exact HL|]. rewrite HE, segments_prepend.
    unfold cd at 2. rewrite slash_head, Ea. rewrite norm_segs_app_l. by rewrite app_assoc.
Qed.

Lemma is_abs_abs_path l : is_abs (abs_path l) = true.
Proof. done. Qed.

Lemma norm_segs_abs_path l :
  clean l -> norm_segs false (segments slash (abs_path l)) = l.
Proof.
  intros Hl. destruct l as [|x l]; [done|].
  change (abs_path (x :: l)) with ([] ++ CHAR_FORWARD_SLASH :: join "/" (x :: l)).
  rewrite segments_app by done. rewrite segments_join by (done || by apply clean_sep_free).
  change (segments slash []) with ([] :: @nil jsstr).
  change ([[]] ++ ?s) with ([] ++ [] :: s). rewrite norm_segs_skip by auto.
  by apply norm_segs_plain, clean_plain.
Qed.

(** [resolve] is a sequence of [cd] commands from the working directory. *)
Theorem resolve_cd c dir args :
  clean dir -> c = abs_path dir ->
  Posix.resolve (Ok c) (VString <$> args) = Ok (abs_path (foldl (cd slash) dir args)).
Proof.
  intros Hdir ->. pose proof (clean_plain _ Hdir) as Hp. unfold Posix.resolve.
  destruct (Posix.is_cwd_request (VString <$> args)) eqn:Ereq.
  - cbn [result_bind]. fold (is_abs (abs_path dir)). rewrite is_abs_abs_path.
    destruct args as [|a [|b args]]; [done| |done]. cbn in Ereq |- *.
    apply orb_true_iff in Ereq as [E|E]; bool_hyps; injection E as ->.
    + by rewrite cd_empty.
    + unfold cd. change (norm_segs false (dir ++ dot :: [])) with (norm_segs false (dir ++ [dot])).
      change (slash (head [46])) with false. change (segments slash [46]) with [dot].
      rewrite norm_segs_skip by auto. by rewrite app_nil_r, norm_segs_plain.
  - cbn [result_bind].
    destruct (resolve_loop_spec dir args "" (Z.of_nat (length (VString <$> args)) - 1) Hp)
      as (path & abs & -> & HE). cbn [result_bind].
    change (segments slash "") with ([] :: @nil jsstr) in HE.
    rewrite norm_segs_skip, app_nil_r in HE by auto.
    rewrite (norm_segs_plain false (foldl _ _ _)) in HE by by apply cds_plain.
    destruct abs; cbn [result_bind].
    + rewrite normalizeString_posix. cbn [negb app] in *. by rewrite HE.
    + fold (is_abs (abs_path dir)). rewrite is_abs_abs_path. cbn [negb].
      rewrite normalizeString_posix, segments_prepend.
      rewrite <- norm_segs_app_l, norm_segs_abs_path by done. by rewrite HE.
Qed.

Lemma cd_clean dir p : clean dir -> clean (cd slash dir p).
Proof.
  intros Hd. apply clean_intro; [apply norm_segs_false_plain|].
  apply norm_segs_sep_free; [done|]. apply Forall_app; split.
  - destruct (slash _); [done|by apply clean_sep_free].
  - apply segments_sep_free.
Qed.

Lemma cds_clean dir ps : clean dir -> clean (foldl (cd slash) dir ps).
Proof. revert dir. induction ps as [|p ps IH]; intros dir H; [done|]. by apply IH, cd_clean. Qed.

(** ** [relative] *)

(** [k] times [..]. *)
Definition ups (k : nat) : jsstr := join "/" (replicate k dotdot).

Definition count_slash (s : jsstr) : nat := length (filter (fun c => c = CHAR_FORWARD_SLASH) s).

Lemma ups_S k :
  ups (S k) = ups k ++ (if len (ups k) =? 0 then (".." : jsstr) else "/..").
Proof.
  unfold ups. rewrite replicate_S_end, join_snoc.
  destruct k as [|k]; [done|].
  change (replicate (S k) dotdot) with (dotdot :: replicate k dotdot) at 1 3.
  cbv iota. rewrite len_eqb_zero, bool_decide_eq_false_2; [done|].
  by destruct k.
Qed.

(** The loop emits one [..] per slash met, and one at the end. *)
Lemma up_loop_spec g : forall pre k,
  Posix.up_loop (pre ++ g) (S (length g)) (len pre) (ups k)
  = ups (k + count_slash g + 1).
Proof.
  induction g as [|c g IH]; intros pre k.
  - cbn [length Posix.up_loop]. rewrite app_nil_r, Z.eqb_refl. cbn [orb].
    rewrite <- ups_S. f_equal. cbn. lia.
  - cbn [length].
    change (Posix.up_loop (pre ++ c :: g) (S (S (length g))) (len pre) (ups k))
      with (Posix.up_loop (pre ++ c :: g) (S (length g)) (len pre + 1)
         (if (len pre =? len (pre ++ c :: g)) ||
             code_is (charCodeAt (pre ++ c :: g) (len pre)) CHAR_FORWARD_SLASH
          then ups k ++ (if len (ups k) =? 0 then (".." : jsstr) else "/..") else ups k)).
    rewrite charCodeAt_app_mid by done.
    replace (len pre =? _) with false by (symmetry; apply Z.eqb_neq; len_lia).
    cbn [orb code_is]. rewrite <- ups_S.
    specialize (IH (pre ++ [c])). rewrite <- app_assoc, len_app, len_cons, len_nil in IH.
    cbn [app] in IH. replace (len pre + (0 + 1)) with (len pre + 1) in IH by lia.
    unfold count_slash in *. rewrite filter_cons.
    destruct (decide (c = CHAR_FORWARD_SLASH)) as [->|Hc].
    + rewrite Z.eqb_refl, IH. f_equal. cbn [length]. lia.
    + replace (c =? _) with false by (symmetry; by apply Z.eqb_neq). by rewrite IH.
Qed.

Lemma count_slash_app a b : count_slash (a ++ b) = (count_slash a + count_slash b)%nat.
Proof. unfold count_slash. by rewrite filter_app, length_app. Qed.

Lemma count_slash_free s : sep_free slash s -> count_slash s = 0%nat.
Proof.
  unfold count_slash. induction 1 as [|c s Hc HF IH]; [done|].
  rewrite filter_cons, decide_False; [done|]. cbn in Hc. by bool_hyps.
Qed.

Lemma count_slash_join l :
  l <> [] -> Forall (sep_free slash) l -> (count_slash (join "/" l) + 1 = length l)%nat.
Proof.
  intros Hl HF. induction HF as [|x l Hx HF IH]; [done|].
  destruct l as [|y l].
  - cbn [join length]. by rewrite count_slash_free.
  - change (join "/" (x :: y :: l)) with (x ++ "/" ++ join "/" (y :: l)).
    rewrite !count_slash_app, (count_slash_free x) by done.
    change (count_slash "/") with 1%nat. cbn [length] in *. rewrite <- IH by done. lia.
Qed.

(** The comparison loop over a common stretch without a slash. *)
Lemma common_loop_free s : forall p q a b n i lcs,
  sep_free slash s -> len p = 1 + i -> len q = 1 + i -> 0 <= i ->
  Posix.common_loop (p ++ s ++ a) (q ++ s ++ b) (length s + n) i lcs
  = Posix.common_loop (p ++ s ++ a) (q ++ s ++ b) n (i + len s) lcs.
Proof.
  induction s as [|c s IH]; intros p q a b n i lcs Hs Hp Hq Hi.
  { by rewrite len_nil, Z.add_0_r. }
  pose proof (sep_free_head _ _ Hs) as Hc. apply Forall_cons in Hs as [_ Hs].
  cbn [length Nat.add Posix.common_loop app].
  rewrite (charCodeAt_app_mid p), (charCodeAt_app_mid q) by lia.
  cbn [code_differs code_is]. rewrite Z.eqb_refl, Hc. cbn [negb].
  specialize (IH (p ++ [c]) (q ++ [c]) a b n (i + 1) lcs Hs).
  rewrite <- !app_assoc in IH. cbn [app] in IH. rewrite IH by len_lia.
  f_equal. len_lia.
Qed.

(** ... and over a common stretch that ends with a slash. *)
Lemma common_loop_dir s x p q a b n i lcs :
  sep_free slash x -> len p = 1 + i -> len q = 1 + i -> 0 <= i ->
  s = x ++ "/" ->
  Posix.common_loop (p ++ s ++ a) (q ++ s ++ b) (length s + n) i lcs
  = Posix.common_loop (p ++ s ++ a) (q ++ s ++ b) n (i + len s) (i + len x).
Proof.
  intros Hx Hp Hq Hi ->. rewrite <- !app_assoc, length_app.
  replace (length x + length "/" + n)%nat with (length x + S n)%nat by (cbn; lia).
  rewrite common_loop_free by done. cbn [Posix.common_loop app].
  rewrite !app_assoc. rewrite (charCodeAt_app_mid (p ++ x)), (charCodeAt_app_mid (q ++ x)) by len_lia.
  cbn [code_differs code_is]. rewrite !Z.eqb_refl. cbn [negb]. f_equal. len_lia.
Qed.

(** ... and over any common stretch, whatever separator it ends at. *)
Lemma common_loop_prefix s : forall p q a b n i lcs,
  len p = 1 + i -> len q = 1 + i -> 0 <= i ->
  exists lcs',
  Posix.common_loop (p ++ s ++ a) (q ++ s ++ b) (length s + n) i lcs
  = Posix.common_loop (p ++ s ++ a) (q ++ s ++ b) n (i + len s) lcs'.
Proof.
  induction s as [|c s IH]; intros p q a b n i lcs Hp Hq Hi.
  { exists lcs. by rewrite len_nil, Z.add_0_r. }
  cbn [length Nat.add Posix.common_loop app].
  rewrite (charCodeAt_app_mid p), (charCodeAt_app_mid q) by lia.
  cbn [code_differs]. rewrite Z.eqb_refl. cbn [negb].
  destruct (IH (p ++ [c]) (q ++ [c]) a b n (i + 1)
              (if code_is (Some c) CHAR_FORWARD_SLASH then i else lcs)) as [lcs' E];
    [len_lia..|].
  exists lcs'. rewrite <- !app_assoc in E. cbn [app] in E. rewrite E. f_equal. len_lia.
Qed.

(** Directory prefix: every segment followed by a slash. *)
Definition dirs (l : list jsstr) : jsstr := mjoin ((fun s => s ++ "/") <$> l).

Lemma dirs_cons x l : dirs (x :: l) = (x ++ "/") ++ dirs l.
Proof. done. Qed.

Lemma join_dirs l m : m <> [] -> join "/" (l ++ m) = dirs l ++ join "/" m.
Proof.
  intros Hm. induction l as [|x l IH]; [done|].
  rewrite dirs_cons, <- app_assoc, <- IH. cbn [app]. destruct (l ++ m) eqn:E; [|by rewrite <- app_assoc].
  by apply app_eq_nil in E as [_ ?].
Qed.

Lemma common_loop_dirs l : forall p q a b n i lcs,
  Forall (sep_free slash) l -> len p = 1 + i -> len q = 1 + i -> 0 <= i ->
  Posix.common_loop (p ++ dirs l ++ a) (q ++ dirs l ++ b) (length (dirs l) + n) i lcs
  = Posix.common_loop (p ++ dirs l ++ a) (q ++ dirs l ++ b) n (i + len (dirs l))
      (match l with [] => lcs | _ => i + len (dirs l) - 1 end).
Proof.
  induction l as [|x l IH]; intros p q a b n i lcs HF Hp Hq Hi.
  { change (dirs []) with (@nil Z). by rewrite len_nil, Z.add_0_r. }
  apply Forall_cons in HF as [Hx HF]. rewrite dirs_cons, length_app, <- Nat.add_assoc.
  rewrite <- !(app_assoc (x ++ "/")). rewrite (common_loop_dir (x ++ "/") x) by done.
  rewrite !(app_assoc p), !(app_assoc q). rewrite IH by (done || len_lia).
  f_equal; [len_lia|]. destruct l; [change (dirs []) with (@nil Z)|]; len_lia.
Qed.

(** A tail after a segment: the end, or a slash. *)
Definition tail_ok (t : jsstr) : Prop :=
  match t with [] => True | c :: _ => c = CHAR_FORWARD_SLASH end.

(** Two different segments: the loop stops inside them. *)
Lemma common_loop_mismatch f : forall t fx ty p q i lcs,
  f <> t -> sep_free slash f -> sep_free slash t -> tail_ok fx -> tail_ok ty ->
  len p = 1 + i -> len q = 1 + i -> 0 <= i ->
  exists m, 0 <= m /\
    Posix.common_loop (p ++ f ++ fx) (q ++ t ++ ty)
      (Nat.min (length (f ++ fx)) (length (t ++ ty))) i lcs = (i + m, lcs) /\
    (m = len (f ++ fx) -> code_is (charCodeAt (t ++ ty) m) CHAR_FORWARD_SLASH = false) /\
    (m = len (t ++ ty) -> code_is (charCodeAt (f ++ fx) m) CHAR_FORWARD_SLASH = false).
Proof.
  induction f as [|c f IH]; intros t fx ty p q i lcs Hne Hf Ht Hfx Hty Hp Hq Hi.
  - destruct t as [|d t]; [done|]. pose proof (sep_free_head _ _ Ht) as Hd.
    exists 0. rewrite Z.add_0_r. split; [done|]. split; [|split].
    + destruct fx as [|e fx]; [done|]. cbn in Hfx; subst e. cbn [app length Nat.min Posix.common_loop].
      rewrite (charCodeAt_app_mid p), (charCodeAt_app_mid q) by lia.
      cbn [code_differs]. by rewrite Z.eqb_sym, Hd.
    + intros _. exact Hd.
    + intros E. exfalso. cbn [app] in E. len_lia.
  - destruct t as [|d t].
    + pose proof (sep_free_head _ _ Hf) as Hc.
      exists 0. rewrite Z.add_0_r. split; [done|]. split; [|split].
      * destruct ty as [|e ty]; [done|]. cbn in Hty; subst e. cbn [app length Nat.min Posix.common_loop].
        rewrite (charCodeAt_app_mid p), (charCodeAt_app_mid q) by lia.
        cbn [code_differs]. by rewrite Hc.
      * intros E. exfalso. cbn [app] in E. len_lia.
      * intros _. exact Hc.
    + pose proof (sep_free_head _ _ Hf) as Hc.
      apply Forall_cons in Hf as [_ Hf]. apply Forall_cons in Ht as [_ Ht].
      cbn [app length Nat.min Posix.common_loop].
      rewrite (charCodeAt_app_mid p), (charCodeAt_app_mid q) by lia. cbn [code_differs].
      destruct (c =? d) eqn:Ecd; cbn [negb].
      * apply Z.eqb_eq in Ecd. subst d. cbn [code_is]. rewrite Hc.
        assert (f <> t) as Hne' by congruence.
        destruct (IH t fx ty (p ++ [c]) (q ++ [c]) (i + 1) lcs) as (m & Hm & E & H1 & H2);
          [done..|len_lia|len_lia|lia|].
        exists (m + 1). split; [lia|]. rewrite <- !(app_assoc p), <- !(app_assoc q) in E. cbn [app] in E.
        rewrite E. split; [f_equal; lia|]. rewrite !len_cons.
        split; intros Em; rewrite charCodeAt_cons by lia;
          replace (m + 1 - 1) with m by lia; [apply H1|apply H2]; lia.
      * exists 0. rewrite Z.add_0_r. split; [done|]. split; [done|].
        split; intros E; exfalso; len_lia.
Qed.

Lemma join_split_tail x l :
  sep_free slash x -> exists t, join "/" (x :: l) = x ++ t /\ tail_ok t.
Proof.
  intros _. destruct l as [|y l].
  - exists []. by rewrite app_nil_r.
  - by exists ("/" ++ join "/" (y :: l)).
Qed.

Lemma dirs_snoc_slash l : exists X, "/" ++ dirs l = X ++ "/" /\ len X = len (dirs l).
Proof.
  induction l as [|x l _] using rev_ind; [by exists []|].
  unfold dirs. rewrite fmap_app, join_app. cbn [fmap list_fmap mjoin list_join].
  rewrite app_nil_r. eexists ("/" ++ dirs l ++ x). split.
  - unfold dirs. by rewrite <- !app_assoc.
  - unfold dirs. len_lia.
Qed.

(** The final stage of [relative] past a common directory prefix. *)
Lemma relative_rest l f t :
  f <> [] -> Forall (sep_free slash) f ->
  let from := "/" ++ dirs l ++ join "/" f in
  let to := "/" ++ dirs l ++ t in
  let lcs := len (dirs l) - 1 in
  Posix.up_loop from (Z.to_nat (len from - (1 + lcs + 1) + 1)) (1 + lcs + 1) ""
    ++ slice_from to (1 + lcs)
  = ups (length f) ++ "/" ++ t.
Proof.
  intros Hf HF from to lcs. subst from to lcs.
  destruct (dirs_snoc_slash l) as (X & EX & HX).
  rewrite !(app_assoc "/" (dirs l)). rewrite EX. f_equal.
  - replace (Z.to_nat _) with (S (length (join "/" f))) by (unfold len in *; rewrite !length_app; cbn; lia).
    replace (1 + _ + 1) with (len (X ++ "/")) by len_lia.
    etransitivity; [apply (up_loop_spec (join "/" f) (X ++ "/") 0)|].
    f_equal. pose proof (count_slash_join f Hf HF). lia.
  - rewrite <- app_assoc. apply slice_suffix. lia.
Qed.

Lemma ups_join k t :
  t <> [] -> (0 < k)%nat -> ups k ++ "/" ++ join "/" t = join "/" (replicate k dotdot ++ t).
Proof.
  intros Ht Hk. unfold ups. rewrite join_app_both; [done|by destruct k; [lia|]|done].
Qed.

Lemma join_cons_head x l : exists t, join "/" (x :: l) = x ++ t.
Proof. destruct l; [exists []; by rewrite app_nil_r|by eexists]. Qed.

Lemma len_join_pos l : nonslash_ends l -> l <> [] -> 0 < len (join "/" l).
Proof.
  intros Hn Hl. destruct (join_head_nonslash l Hn Hl) as (c & t & -> & _).
  rewrite len_cons. pose proof (len_nonneg t). lia.
Qed.

Lemma clean_app a b : clean (a ++ b) <-> clean a /\ clean b.
Proof. apply Forall_app. Qed.

(** [relative] once the comparison loop has stopped at [i]. *)
Definition relative_tail (from to : jsstr) (lcs : Z) : jsstr :=
  Posix.up_loop from (Z.to_nat (len from - (1 + lcs + 1) + 1)) (1 + lcs + 1) ""
  ++ slice_from to (1 + lcs).

Lemma relative_eval from to n i lcs :
  n = Z.to_nat (Z.min (len from - 1) (len to - 1)) ->
  Posix.common_loop from to n 0 (-1) = (i, lcs) ->
  Posix.relative_resolved from to =
  if i =? Z.min (len from - 1) (len to - 1) then
    if len from - 1 <? len to - 1 then
      if code_is (charCodeAt to (1 + i)) CHAR_FORWARD_SLASH then slice_from to (1 + i + 1)
      else if i =? 0 then slice_from to (1 + i) else relative_tail from to lcs
    else if len to - 1 <? len from - 1 then
      if code_is (charCodeAt from (1 + i)) CHAR_FORWARD_SLASH then relative_tail from to i
      else if i =? 0 then relative_tail from to 0 else relative_tail from to lcs
    else relative_tail from to lcs
  else relative_tail from to lcs.
Proof.
  intros -> E. unfold Posix.relative_resolved. cbv zeta.
  assert ((if len from - 1 <? len to - 1 then len from - 1 else len to - 1)
          = Z.min (len from - 1) (len to - 1)) as ->.
  { destruct (_ <? _) eqn:?; bool_hyps; lia. }
  rewrite E. fold (relative_tail from to i) (relative_tail from to 0) (relative_tail from to lcs).
  destruct (i =? _); [|done].
  destruct (Z.min _ _ <? len to - 1) eqn:E1, (len from - 1 <? len to - 1) eqn:E2;
    bool_hyps; try (exfalso; lia); [done|].
  destruct (Z.min _ _ <? len from - 1) eqn:E3, (len to - 1 <? len from - 1) eqn:E4;
    bool_hyps; try (exfalso; lia); done.
Qed.

(** [to] lies below [from]. *)
Lemma relative_below c t :
  clean (c ++ t) -> t <> [] ->
  Posix.relative_resolved (abs_path c) (abs_path (c ++ t)) = join "/" t.
Proof.
  intros [Hc Ht]%clean_app Hne. pose proof (len_join_pos t (plain_nonslash _ Ht) Hne) as Hlt.
  destruct (decide (c = [])) as [->|Hnc].
  - destruct (join_head_nonslash t (plain_nonslash _ Ht) Hne) as (d & r & Ej & Hd).
    rewrite (relative_eval _ _ 0 0 (-1)); [|change (len (abs_path [])) with 1; lia|done].
    unfold abs_path. change ([] ++ t) with t. rewrite Ej in *. cbn [join].
    replace (0 =? _) with true by (symmetry; apply Z.eqb_eq; len_lia).
    replace (_ <? _) with true by (symmetry; apply Z.ltb_lt; len_lia).
    replace (code_is _ _) with false by (symmetry; exact Hd).
    by apply (slice_suffix "/" (d :: r)).
  - pose proof (len_join_pos c (plain_nonslash _ Hc) Hnc) as Hlc. unfold abs_path.
    rewrite (join_app_both _ c t) by done. set (f := join "/" c) in *.
    destruct (common_loop_prefix f "/" "/" [] ("/" ++ join "/" t) 0 0 (-1)) as [lcs' E];
      [done..|].
    rewrite app_nil_r, Nat.add_0_r in E. cbn [Posix.common_loop] in E.
    rewrite (relative_eval _ _ (length f) (0 + len f) lcs');
      [|unfold len; rewrite !length_app; cbn [length]; lia|exact E].
    replace (_ =? _) with true by (symmetry; apply Z.eqb_eq; len_lia).
    replace (_ <? _) with true by (symmetry; apply Z.ltb_lt; len_lia).
    replace (charCodeAt _ _) with (Some CHAR_FORWARD_SLASH).
    2: { symmetry. rewrite app_assoc. apply charCodeAt_app_mid. len_lia. }
    cbn [code_is]. rewrite Z.eqb_refl. rewrite !app_assoc. apply slice_suffix. len_lia.
Qed.

(** [to] lies above [from]. *)
Lemma relative_above c f :
  clean (c ++ f) -> f <> [] ->
  Posix.relative_resolved (abs_path (c ++ f)) (abs_path c) = ups (length f).
Proof.
  intros [Hc Hf]%clean_app Hne. pose proof (len_join_pos f (plain_nonslash _ Hf) Hne) as Hlf.
  pose proof (count_slash_join f Hne (clean_sep_free _ Hf)) as Hcount.
  destruct (decide (c = [])) as [->|Hnc].
  - destruct (join_head_nonslash f (plain_nonslash _ Hf) Hne) as (d & r & Ej & Hd).
    rewrite (relative_eval _ _ 0 0 (-1)); [|change (len (abs_path [])) with 1; lia|done].
    unfold abs_path, relative_tail. change ([] ++ f) with f. rewrite Ej in *. cbn [join].
    replace (0 =? _) with true by (symmetry; apply Z.eqb_eq; len_lia).
    replace (_ <? _) with false by (symmetry; apply Z.ltb_ge; len_lia).
    replace (_ <? _) with true by (symmetry; apply Z.ltb_lt; len_lia).
    replace (code_is _ _) with false by (symmetry; exact Hd).
    change (slice_from _ (1 + 0)) with (@nil Z). rewrite app_nil_r.
    replace (Z.to_nat _) with (S (length r)) by (unfold len; cbn; lia).
    etransitivity; [apply (up_loop_spec r ([47; d]) 0)|]. f_equal.
    rewrite <- Hcount. change (d :: r) with ([d] ++ r). rewrite count_slash_app.
    rewrite (count_slash_free [d]) by (by repeat constructor). lia.
  - pose proof (len_join_pos c (plain_nonslash _ Hc) Hnc) as Hlc. unfold abs_path.
    rewrite (join_app_both _ c f) by done. set (t := join "/" c) in *.
    destruct (common_loop_prefix t "/" "/" ("/" ++ join "/" f) [] 0 0 (-1)) as [lcs' E];
      [done..|].
    rewrite app_nil_r, Nat.add_0_r in E. cbn [Posix.common_loop] in E.
    rewrite (relative_eval _ _ (length t) (0 + len t) lcs');
      [|unfold len; rewrite !length_app; cbn [length]; lia|exact E].
    replace (_ =? _) with true by (symmetry; apply Z.eqb_eq; len_lia).
    replace (_ <? _) with false by (symmetry; apply Z.ltb_ge; len_lia).
    replace (_ <? _) with true by (symmetry; apply Z.ltb_lt; len_lia).
    replace (charCodeAt _ _) with (Some CHAR_FORWARD_SLASH).
    2: { symmetry. rewrite app_assoc. apply charCodeAt_app_mid. len_lia. }
    cbn [code_is]. rewrite Z.eqb_refl. unfold relative_tail.
    rewrite <- (app_nil_r ("/" ++ t)). rewrite slice_suffix, app_nil_r by len_lia.
    replace (Z.to_nat _) with (S (length (join "/" f))) by (unfold len; rewrite !length_app; cbn; lia).
    replace (1 + _ + 1) with (len ("/" ++ t ++ "/")) by len_lia.
    pose proof (up_loop_spec (join "/" f) ("/" ++ t ++ "/") 0) as EU.
    rewrite <- !app_assoc in EU. etransitivity; [apply EU|]. f_equal. lia.
Qed.

(** [from] and [to] part below a common directory. *)
Lemma relative_fork c x f y t :
  clean (c ++ x :: f) -> clean (c ++ y :: t) -> x <> y ->
  Posix.relative_resolved (abs_path (c ++ x :: f)) (abs_path (c ++ y :: t))
  = ups (length (x :: f)) ++ "/" ++ join "/" (y :: t).
Proof.
  intros [Hc Hf]%clean_app [_ Ht]%clean_app Hne. unfold abs_path.
  rewrite !join_dirs by done.
  pose proof (clean_sep_free _ Hf) as HFf. pose proof (clean_sep_free _ Ht) as HFt.
  pose proof (len_join_pos (x :: f) (plain_nonslash _ Hf) ltac:(done)) as Hlf.
  pose proof (len_join_pos (y :: t) (plain_nonslash _ Ht) ltac:(done)) as Hlt.
  rewrite <- (relative_rest c (x :: f) (join "/" (y :: t))) by done. cbv zeta.
  fold (relative_tail ("/" ++ dirs c ++ join "/" (x :: f))
          ("/" ++ dirs c ++ join "/" (y :: t)) (len (dirs c) - 1)).
  destruct (join_split_tail x f) as (fx & Ejf & Hfx); [by apply Forall_cons in HFf as [? _]|].
  destruct (join_split_tail y t) as (ty & Ejt & Hty); [by apply Forall_cons in HFt as [? _]|].
  rewrite Ejf, Ejt in *.
  apply Forall_cons in HFf as [Hx _]. apply Forall_cons in HFt as [Hy _].
  destruct (common_loop_mismatch x y fx ty ("/" ++ dirs c) ("/" ++ dirs c) (len (dirs c))
              (len (dirs c) - 1)) as (m & Hm & E & H1 & H2);
    [done..|len_lia|len_lia|apply len_nonneg|].
  rewrite (relative_eval _ _ (length (dirs c) + Nat.min (length (x ++ fx)) (length (y ++ ty)))
             (len (dirs c) + m) (len (dirs c) - 1)).
  2: { unfold len in *. rewrite !length_app in *. cbn [length]. lia. }
  2: { rewrite (common_loop_dirs c "/" "/") by (done || by apply clean_sep_free).
       rewrite <- !app_assoc in E. rewrite Z.add_0_l.
       replace (match c with [] => -1 | _ => _ end) with (len (dirs c) - 1); [exact E|].
       by destruct c. }
  destruct (_ =? _) eqn:Ei; [|done]. bool_hyps.
  assert (len (dirs c) + m <> 0) as Hnz by len_lia.
  apply Z.eqb_neq in Hnz. rewrite Hnz.
  assert (forall z, charCodeAt ("/" ++ dirs c ++ z) (1 + (len (dirs c) + m)) = charCodeAt z m) as Hat.
  { intros z. rewrite app_assoc, charCodeAt_app_r by len_lia. f_equal. len_lia. }
  rewrite !Hat. destruct (_ <? _) eqn:E1; bool_hyps.
  - rewrite H1 by len_lia. done.
  - destruct (_ <? _) eqn:E2; bool_hyps; [|done]. rewrite H2 by len_lia. done.
Qed.

Lemma common_prefix (f t : list jsstr) :
  exists c f' t', f = c ++ f' /\ t = c ++ t' /\
    match f', t' with x :: _, y :: _ => x <> y | _, _ => True end.
Proof.
  revert t. induction f as [|x f IH]; intros t; [by exists [], [], t|].
  destruct t as [|y t]; [by exists [], (x :: f), []|].
  destruct (decide (x = y)) as [->|Hne].
  - destruct (IH t) as (c & f' & t' & -> & -> & H). by exists (y :: c), f', t'.
  - by exists [], (x :: f), (y :: t).
Qed.

(** What [relative] answers: up through the segments of [from] that [to] does
    not share, then down. *)
Theorem relative_spec c f t :
  clean (c ++ f) -> clean (c ++ t) ->
  match f, t with x :: _, y :: _ => x <> y | [], [] => False | _, _ => True end ->
  Posix.relative_resolved (abs_path (c ++ f)) (abs_path (c ++ t))
  = join "/" (replicate (length f) dotdot ++ t).
Proof.
  intros Hf Ht Hne. destruct f as [|x f], t as [|y t]; [done|..].
  - rewrite app_nil_r in *. by rewrite relative_below.
  - rewrite app_nil_r in *. by rewrite relative_above, app_nil_r.
  - rewrite relative_fork by done. rewrite ups_join by (done || cbn; lia). done.
Qed.

Lemma resolve_one c dir p :
  clean dir -> c = abs_path dir ->
  Posix.resolve (Ok c) [VString p] = Ok (abs_path (cd slash dir p)).
Proof. intros H E. by apply (resolve_cd c dir [p]). Qed.

Lemma resolve_two c dir p q :
  clean dir -> c = abs_path dir ->
  Posix.resolve (Ok c) [VString p; VString q] = Ok (abs_path (cd slash (cd slash dir p) q)).
Proof. intros H E. by apply (resolve_cd c dir [p; q]). Qed.

Lemma abs_path_inj a b : clean a -> clean b -> abs_path a = abs_path b -> a = b.
Proof.
  intros Ha Hb E. rewrite <- (norm_segs_abs_path a), <- (norm_segs_abs_path b) by done.
  by rewrite E.
Qed.

(** Following a relative path made of segments. *)
Lemma cd_segs dir l :
  clean dir -> l <> [] -> nonslash_ends l ->
  cd slash dir (join "/" l) = norm_segs false (dir ++ l).
Proof.
  intros Hd Hl Hn. unfold cd. rewrite slash_head.
  destruct (join_head_nonslash l Hn Hl) as (x & r & Ej & Hx).
  replace (is_abs _) with false by (unfold is_abs; rewrite Ej; by cbn).
  rewrite segments_join; [done|done|done|].
  eapply Forall_impl; [exact Hn|]. by intros s [_ ?].
Qed.

Lemma nonslash_updown k l : clean l -> nonslash_ends (replicate k dotdot ++ l).
Proof.
  intros Hl. apply Forall_app; split; [|by apply plain_nonslash].
  apply Forall_replicate. split; [done|]. by repeat constructor.
Qed.

Lemma relative_roundtrip c from to :
  normal_cwd c ->
  exists rel, Posix.relative (Ok c) (VString from) (VString to) = Ok rel /\
    Posix.resolve (Ok c) [VString from; VString rel] = Posix.resolve (Ok c) [VString to] /\
    is_abs rel = false.
Proof.
  intros (dir & Hdir & ->). unfold Posix.relative. cbn [validateString result_bind].
  case_bool_decide as Hft.
  { subst to. exists []. split_and!; [done| |done]. rewrite (resolve_two _ dir), (resolve_one _ dir) by done.
    by rewrite cd_empty by apply cd_plain. }
  rewrite !(resolve_one _ dir) by done. cbn [result_bind].
  pose proof (cd_clean dir from Hdir) as HF. pose proof (cd_clean dir to Hdir) as HT.
  case_bool_decide as Hab.
  { exists []. split_and!; [done| |done]. rewrite (resolve_two _ dir) by done.
    by rewrite cd_empty, Hab by apply cd_plain. }
  destruct (common_prefix (cd slash dir from) (cd slash dir to)) as (k & f & t & Ef & Et & Hne).
  exists (join "/" (replicate (length f) dotdot ++ t)). rewrite Ef, Et in *.
  assert (match f, t with x :: _, y :: _ => x <> y | [], [] => False | _, _ => True end) as Hne'.
  { destruct f, t; try done. }
  split; [by rewrite relative_spec|].
  pose proof HF as [Hk Hf]%clean_app. pose proof HT as [_ Ht]%clean_app.
  split.
  2: { destruct (join_head_nonslash (replicate (length f) dotdot ++ t)) as (x & r & -> & Hx);
         [by apply nonslash_updown|by destruct f, t|]. by cbn. }
  rewrite (resolve_two _ dir), Ef by done.
  rewrite cd_segs; [|by apply clean_app|by destruct f, t|by apply nonslash_updown].
  rewrite <- app_assoc, norm_segs_up by by apply clean_plain. done.
Qed.

(** ** Paths below a root *)

Lemma join_two a b :
  a <> [] -> b <> [] ->
  Posix.join [VString a; VString b] = Posix.normalize (VString (a ++ "/" ++ b)).
Proof.
  intros Ha Hb. unfold Posix.join. cbn [Posix.join_args validateString result_bind].
  assert (forall s : jsstr, s <> [] -> (0 <? len s) = true) as H.
  { intros s Hs. pose proof (len_nonneg s). apply Z.ltb_lt.
    destruct (decide (len s = 0)) as [E|]; [|lia]. by apply len_zero in E. }
  by rewrite !H by done.
Qed.

(** Joining a normalised root and a normalised relative path. *)
Lemma join_root root ident :
  clean root -> clean ident -> ident <> [] ->
  Posix.join [VString (abs_path root); VString (join "/" ident)] = Ok (abs_path (root ++ ident)).
Proof.
  intros Hr Hi Hne. pose proof (plain_nonslash _ Hi) as Hn.
  rewrite join_two by (done || by apply nonslash_nonempty).
  rewrite normalize_render by done. f_equal.
  assert (is_abs (abs_path root ++ "/" ++ join "/" ident) = true) as -> by done. cbn [negb].
  rewrite segments_prepend, segments_join by (done || by apply clean_sep_free).
  rewrite <- norm_segs_app_l, norm_segs_abs_path by done.
  rewrite norm_segs_plain by (apply clean_plain, clean_app; done).
  unfold render, abs_path. destruct (root ++ ident) as [|z l] eqn:E.
  { by apply app_eq_nil in E as [_ ?]. }
  f_equal. replace (is_trail _) with false; [by rewrite app_nil_r|].
  destruct (join_last_nonslash ident Hn Hne) as (u & d & -> & Hd). unfold is_trail.
  rewrite !app_assoc. rewrite charCodeAt_last. by cbn.
Qed.

(** [relative] between absolute paths does not depend on the directory. *)
Lemma relative_abs c a b :
  normal_cwd c -> clean a -> clean b ->
  Posix.relative (Ok c) (VString (abs_path a)) (VString (abs_path b))
  = Ok (if decide (a = b) then [] else Posix.relative_resolved (abs_path a) (abs_path b)).
Proof.
  intros (dir & Hdir & ->) Ha Hb. unfold Posix.relative. cbn [validateString result_bind].
  case_decide as E; [subst; by rewrite bool_decide_eq_true_2|].
  assert (abs_path a <> abs_path b) as Habs by (intros E'; by apply abs_path_inj in E').
  rewrite bool_decide_eq_false_2 by done. rewrite !(resolve_one _ dir) by done.
  cbn [result_bind].
  assert (forall l, clean l -> cd slash dir (abs_path l) = l) as Hcd.
  { intros l Hl. unfold cd. rewrite slash_head, is_abs_abs_path. by apply norm_segs_abs_path. }
  rewrite !Hcd by done. by rewrite bool_decide_eq_false_2.
Qed.

(** [relative(root, join(root, id)) = id]. *)
Lemma relative_join_root c root ident :
  normal_cwd c -> clean root -> clean ident -> ident <> [] ->
  Posix.relative (Ok c) (VString (abs_path root)) (VString (abs_path (root ++ ident)))
  = Ok (join "/" ident).
Proof.
  intros Hc Hr Hi Hne. rewrite relative_abs by (done || by apply clean_app).
  rewrite decide_False.
  - by rewrite relative_below by (done || by apply clean_app).
  - intros E. apply (f_equal length) in E. rewrite length_app in E.
    destruct ident; [done|]. cbn in E. lia.
Qed.

(** Outside the root, [relative] climbs. *)
Lemma relative_outside c root file :
  normal_cwd c -> clean root -> clean file -> (forall t, file <> root ++ t) ->
  exists l, Posix.relative (Ok c) (VString (abs_path root)) (VString (abs_path file))
            = Ok (join "/" (dotdot :: l)).
Proof.
  intros Hc Hr Hf Hout. rewrite relative_abs by done.
  rewrite decide_False by (intros ->; apply (Hout []); by rewrite app_nil_r).
  destruct (common_prefix root file) as (k & f & t & -> & -> & Hne).
  destruct f as [|x f]; [by destruct (Hout t); rewrite app_nil_r|].
  exists (replicate (length f) dotdot ++ t). by rewrite relative_spec by by destruct t.
Qed.

(** Following a relative path from where another leads. *)
Lemma cd_app dir p q :
  p <> [] -> is_abs q = false -> cd slash dir (p ++ "/" ++ q) = cd slash (cd slash dir p) q.
Proof.
  intros Hp Hq. unfold cd at 1 2. rewrite (slash_head q), Hq.
  assert (head (p ++ "/" ++ q) = head p) as -> by by destruct p.
  rewrite segments_prepend, app_assoc, <- norm_segs_app_l. done.
Qed.

(** A clean path does not climb. *)
Lemma clean_not_up l :
  clean l -> l <> [] ->
  join "/" l <> [] /\ join "/" l <> ".." /\ slice (join "/" l) 0 3 <> "../" /\
  charAt (join "/" l) 0 <> "/".
Proof.
  intros Hl Hne.
  destruct (join_head_nonslash l (plain_nonslash _ Hl) Hne) as (c & t & Ej & Hc).
  assert (forall u, segments slash (join "/" l) <> dotdot :: u) as Hdd.
  { intros u. rewrite segments_join by (done || by apply clean_sep_free). intros ->.
    by apply Forall_cons in Hl as [[(_ & _ & ?) _] _]. }
  split_and!.
  - by rewrite Ej.
  - intros E. by apply (Hdd []); rewrite E.
  - intros E. destruct (decide (3 <= len (join "/" l))) as [Hlen|Hlen].
    + rewrite slice_spec in E by lia. change (take 3 (join "/" l) = "../") in E.
      rewrite <- (take_drop 3 (join "/" l)) in Hdd. rewrite E in Hdd.
      apply (Hdd (segments slash (drop 3 (join "/" l)))).
      apply (segments_prepend ".."). 
    + apply (f_equal length) in E. unfold slice, slice_index in E.
      rewrite length_take, length_drop in E. cbn in E. unfold len in *. lia.
  - rewrite Ej. cbn. intros [= ->]. done.
Qed.
