(* ===== verification/PathParse.v ===== *)
(** * Taking a POSIX path apart

    What the right-to-left scans of [dirname], [basename], [extname] and
    [parse] ([libjs-node/path.js] lines 1441-1694) compute, against one
    decomposition of a path: directory part, last component, trailing
    slashes. *)

From S2P Require Import Prelude JsString Path PathSpec PathPosix PathPosixFacts.

(** ** Specification *)

Definition slashes (k : nat) : jsstr := replicate k CHAR_FORWARD_SLASH.

(** A directory part: empty, or ending in a slash. *)
Definition dir_part (d : jsstr) : Prop := d = [] \/ exists d', d = d' ++ "/".

(** The position of the extension inside a last component: the text before the
    last dot and the text from it on, when the component has an extension. *)
Fixpoint last_dot (b : jsstr) : option (jsstr * jsstr) :=
  match b with
  | [] => None
  | c :: b' =>
      match last_dot b' with
      | Some (n, e) => Some (c :: n, e)
      | None => if c =? CHAR_DOT then Some ([], b) else None
      end
  end.

Definition split_ext (b : jsstr) : jsstr * jsstr :=
  match last_dot b with
  | Some (n, e) => if bool_decide (n = []) || bool_decide (b = dotdot) then (b, []) else (n, e)
  | None => (b, [])
  end.

(** The directory part without the slash that ends it. *)
Definition dir_text (d : jsstr) : jsstr := slice d 0 (len d - 1).

Definition dirname_of (d : jsstr) : jsstr :=
  if bool_decide (d = []) then "."
  else if bool_decide (d = "/") then "/"
  else if bool_decide (d = "//") then "//"
  else dir_text d.

(** ** Decomposition *)

Lemma trailing_slashes p : exists q k,
  p = q ++ slashes k /\ (q = [] \/ exists q' c, q = q' ++ [c] /\ c <> CHAR_FORWARD_SLASH).
Proof.
  induction p as [|c p (q & k & -> & Hq)] using rev_ind; [exists [], 0%nat; auto|].
  destruct (decide (c = CHAR_FORWARD_SLASH)) as [->|Hc].
  - exists q, (S k). split; [|done]. rewrite <- app_assoc. f_equal.
    unfold slashes. by rewrite replicate_S_end.
  - exists ((q ++ slashes k) ++ [c]), 0%nat. split; [by rewrite app_nil_r|]. right. eauto.
Qed.

Lemma last_component q : exists d b, q = d ++ b /\ dir_part d /\ sep_free slash b.
Proof.
  induction q as [|c q (d & b & -> & Hd & Hb)] using rev_ind.
  - exists [], []. split_and!; [done|by left|constructor].
  - destruct (decide (c = CHAR_FORWARD_SLASH)) as [->|Hc].
    + exists ((d ++ b) ++ "/"), []. rewrite app_nil_r. split_and!; [done|right; eauto|constructor].
    + exists d, (b ++ [c]). rewrite app_assoc. split_and!; [done..|].
      apply Forall_app; split; [done|]. constructor; [|done]. by apply Z.eqb_neq.
Qed.

Lemma path_cases p :
  (exists k, p = slashes k) \/
  (exists d b k, p = d ++ b ++ slashes k /\ dir_part d /\ sep_free slash b /\ b <> []).
Proof.
  destruct (trailing_slashes p) as (q & k & -> & [->|(q' & c & -> & Hc)]); [left; by exists k|].
  right. destruct (last_component (q' ++ [c])) as (d & b & E & Hd & Hb).
  exists d, b, k. rewrite E, <- app_assoc. split_and!; [done..|].
  intros ->. rewrite app_nil_r in E. destruct Hd as [->|(d' & ->)]; [by destruct q'|].
  by apply app_inj_2 in E as [_ [= ->]].
Qed.

(** ** The scans *)

(** Lengths as natural numbers, then linear arithmetic. *)
Ltac nat_len := unfold len, slashes in *; rewrite ?length_app, ?length_replicate in *; cbn [length] in *; lia.

Lemma code_slash_free c : slash (Some c) = false -> code_is (Some c) CHAR_FORWARD_SLASH = false.
Proof. done. Qed.

Lemma read_mid r s c t (i : Z) :
  i = len r + len s -> charCodeAt (r ++ s ++ c :: t) i = Some c.
Proof. intros ->. rewrite app_assoc. apply charCodeAt_app_mid. len_lia. Qed.

Lemma basename_loop_slashes q k stop :
  Posix.basename_loop (q ++ slashes k) (length (q ++ slashes k)) stop true
  = Posix.basename_loop (q ++ slashes k) (length q) stop true.
Proof.
  assert (forall j t, Posix.basename_loop (q ++ slashes j ++ t) (length q + j) stop true
          = Posix.basename_loop (q ++ slashes j ++ t) (length q) stop true) as H.
  { induction j as [|j IH]; intros t; [by rewrite Nat.add_0_r|].
    rewrite Nat.add_succ_r. cbn [Posix.basename_loop].
    unfold slashes in *. rewrite replicate_S_end, <- app_assoc.
    change ([CHAR_FORWARD_SLASH] ++ t) with (CHAR_FORWARD_SLASH :: t) in *.
    rewrite (read_mid q (replicate j CHAR_FORWARD_SLASH)); [apply IH|].
    nat_len. }
  specialize (H k []). rewrite app_nil_r in H. rewrite length_app. unfold slashes at 2.
  by rewrite length_replicate.
Qed.

Lemma basename_loop_free s : forall q t stop,
  sep_free slash s -> stop <> -1 ->
  Posix.basename_loop (q ++ s ++ t) (length q + length s) stop false
  = Posix.basename_loop (q ++ s ++ t) (length q) stop false.
Proof.
  induction s as [|c s IH] using rev_ind; intros q t stop Hs Hstop; [by rewrite Nat.add_0_r|].
  apply Forall_app in Hs as [Hs [Hc _]%Forall_cons].
  rewrite length_app. cbn [length]. rewrite Nat.add_1_r, Nat.add_succ_r. cbn [Posix.basename_loop].
  rewrite <- app_assoc. cbn [app]. rewrite read_mid by nat_len.
  rewrite code_slash_free by done. replace (stop =? -1) with false by (symmetry; by apply Z.eqb_neq).
  by apply (IH q (c :: t)).
Qed.

(** The loop stops at the slash that ends the directory part. *)
Lemma basename_loop_dir d t stop :
  dir_part d -> Posix.basename_loop (d ++ t) (length d) stop false = (len d, stop).
Proof.
  intros [->|(d' & ->)]; [done|]. rewrite length_app, Nat.add_1_r. cbn [Posix.basename_loop].
  rewrite <- app_assoc. cbn [app]. rewrite charCodeAt_app_mid by done.
  change (code_is (Some 47) CHAR_FORWARD_SLASH) with true. cbn [negb]. f_equal. nat_len.
Qed.

Lemma basename_loop_spec d b k :
  dir_part d -> sep_free slash b -> b <> [] ->
  Posix.basename_loop (d ++ b ++ slashes k) (length (d ++ b ++ slashes k)) (-1) true
  = (len d, len (d ++ b)).
Proof.
  intros Hd Hb Hne. rewrite (app_assoc d b), basename_loop_slashes, <- app_assoc.
  destruct b as [|c b _] using rev_ind; [done|].
  apply Forall_app in Hb as [Hb [Hc _]%Forall_cons].
  rewrite !length_app. cbn [length]. rewrite Nat.add_1_r, Nat.add_succ_r. cbn [Posix.basename_loop].
  rewrite <- app_assoc. cbn [app]. rewrite read_mid by nat_len.
  rewrite code_slash_free by done. cbn [Z.eqb].
  rewrite basename_loop_free by (done || lia).
  rewrite basename_loop_dir by done. f_equal. nat_len.
Qed.

Lemma basename_loop_root k :
  Posix.basename_loop (slashes k) (length (slashes k)) (-1) true = (0, -1).
Proof. apply (basename_loop_slashes [] k). Qed.

(** [basename] without a suffix. *)
Lemma basename_plain d b k :
  dir_part d -> sep_free slash b -> b <> [] ->
  Posix.basename (VString (d ++ b ++ slashes k)) None = Ok b.
Proof.
  intros Hd Hb Hne. unfold Posix.basename. cbn [validateString result_bind].
  rewrite basename_loop_spec by done.
  replace (len (d ++ b) =? -1) with false by (symmetry; apply Z.eqb_neq; len_lia).
  f_equal. apply slice_mid; len_lia.
Qed.

Lemma dirname_loop_slashes q k :
  (0 < length q)%nat ->
  Posix.dirname_loop (q ++ slashes k) (length (q ++ slashes k) - 1) true
  = Posix.dirname_loop (q ++ slashes k) (length q - 1) true.
Proof.
  intros Hq.
  assert (forall j t, Posix.dirname_loop (q ++ slashes j ++ t) (length q + j - 1) true
          = Posix.dirname_loop (q ++ slashes j ++ t) (length q - 1) true) as H.
  { induction j as [|j IH]; intros t; [by rewrite Nat.add_0_r|].
    replace (length q + S j - 1)%nat with (S (length q + j - 1)) by lia. cbn [Posix.dirname_loop].
    unfold slashes in *. rewrite replicate_S_end, <- app_assoc.
    change ([CHAR_FORWARD_SLASH] ++ t) with (CHAR_FORWARD_SLASH :: t) in *.
    rewrite (read_mid q (replicate j CHAR_FORWARD_SLASH)); [apply IH|].
    nat_len. }
  specialize (H k []). rewrite app_nil_r in H. rewrite length_app. unfold slashes at 2.
  by rewrite length_replicate.
Qed.

Lemma dirname_loop_free s : forall q t,
  sep_free slash s ->
  Posix.dirname_loop (q ++ s ++ t) (length q + length s - 1) false
  = Posix.dirname_loop (q ++ s ++ t) (length q - 1) false.
Proof.
  induction s as [|c s IH] using rev_ind; intros q t Hs; [by rewrite Nat.add_0_r|].
  apply Forall_app in Hs as [Hs [Hc _]%Forall_cons].
  rewrite length_app, <- app_assoc. cbn [length app].
  specialize (IH q (c :: t) Hs).
  destruct (decide (length q + length s = 0)%nat) as [E|E].
  { by replace (length q + (length s + 1) - 1)%nat with (length q - 1)%nat by lia. }
  replace (length q + (length s + 1) - 1)%nat with (S (length q + length s - 1)) by lia.
  cbn [Posix.dirname_loop]. rewrite read_mid by nat_len.
  by rewrite code_slash_free.
Qed.

(** [dirname] of a path with a last component. *)
Lemma dirname_spec d b k :
  dir_part d -> sep_free slash b -> b <> [] ->
  Posix.dirname (VString (d ++ b ++ slashes k)) = Ok (dirname_of d).
Proof.
  intros Hd Hb Hne. unfold Posix.dirname. cbn [validateString result_bind].
  assert (0 < len b) as Hlb.
  { destruct b; [done|]. len_lia. }
  replace (len _ =? 0) with false by (symmetry; apply Z.eqb_neq; len_lia).
  rewrite (app_assoc d b), dirname_loop_slashes by (unfold len in *; rewrite length_app; lia).
  rewrite <- app_assoc, length_app.
  assert (Posix.dirname_loop (d ++ b ++ slashes k) (length d + length b - 1) true
          = Posix.dirname_loop (d ++ b ++ slashes k) (length d - 1) false) as ->.
  { destruct b as [|c b _] using rev_ind; [done|].
    apply Forall_app in Hb as [Hb [Hc _]%Forall_cons].
    rewrite length_app, <- app_assoc. cbn [length app].
    destruct (decide (length d + length b = 0)%nat) as [E|E].
    { replace (length d + (length b + 1) - 1)%nat with 0%nat by lia.
      by replace (length d - 1)%nat with 0%nat by lia. }
    replace (length d + (length b + 1) - 1)%nat with (S (length d + length b - 1)) by lia.
    cbn [Posix.dirname_loop]. rewrite read_mid by nat_len.
    rewrite code_slash_free by done. by apply (dirname_loop_free b d (c :: slashes k)). }
  f_equal. unfold dirname_of, dir_text. destruct Hd as [->|(d' & ->)].
  - cbn [length Posix.dirname_loop Nat.sub]. rewrite bool_decide_eq_true_2 by done. cbn [app Z.eqb].
    destruct b as [|c b]; [done|]. apply Forall_cons in Hb as [Hc _].
    change (charCodeAt ((c :: b) ++ slashes k) 0) with (Some c). by rewrite code_slash_free.
  - rewrite (bool_decide_eq_false_2 (d' ++ "/" = [])) by by destruct d'.
    rewrite length_app. cbn [length]. replace (length d' + 1 - 1)%nat with (length d') by lia.
    destruct d' as [|c d']; [done|].
    cbn [length Posix.dirname_loop]. rewrite <- app_assoc. cbn [app].
    assert (charCodeAt (c :: d' ++ 47 :: b ++ slashes k) (Z.of_nat (S (length d'))) = Some 47) as ->.
    { apply (charCodeAt_app_mid (c :: d')). unfold len. done. }
    cbn [code_is negb Z.eqb Pos.eqb CHAR_FORWARD_SLASH].
    change (47 =? CHAR_FORWARD_SLASH) with true. cbn [negb].
    replace (Z.of_nat (S (length d')) =? -1) with false by (symmetry; apply Z.eqb_neq; lia).
    rewrite (bool_decide_eq_false_2 (c :: d' ++ [47] = "/")) by by destruct d'.
    change (charCodeAt (c :: _) 0) with (Some c). cbn [code_is].
    replace (slice (c :: d' ++ 47 :: b ++ slashes k) 0 (Z.of_nat (S (length d')))) with (c :: d').
    2: { symmetry. by apply (slice_prefix (c :: d')). }
    replace (slice (c :: d' ++ [47]) 0 (len (c :: d' ++ [47]) - 1)) with (c :: d').
    2: { symmetry. apply (slice_prefix (c :: d')). len_lia. }
    case_bool_decide as E.
    + by injection E as -> [-> _]%(app_inj_2 _ []).
    + destruct (c =? CHAR_FORWARD_SLASH) eqn:Ec; [|done]. bool_hyps. subst c.
      destruct d' as [|x d']; [done|]. by destruct (Z.of_nat _ =? 1) eqn:E1; [bool_hyps; cbn in E1; lia|].
Qed.

(** ** [extname] and [parse] *)

Definition dot_free (s : jsstr) : Prop := Forall (fun c => c <> CHAR_DOT) s.

Lemma last_dot_spec b :
  match last_dot b with
  | Some (n, e) => exists e', e = CHAR_DOT :: e' /\ b = n ++ e /\ dot_free e'
  | None => dot_free b
  end.
Proof.
  induction b as [|c b IH]; [constructor|]. cbn [last_dot].
  destruct (last_dot b) as [[n e]|].
  - destruct IH as (e' & -> & -> & He). by exists e'.
  - destruct (c =? CHAR_DOT) eqn:E; bool_hyps; [subst; by exists b|by constructor].
Qed.

Section ExtLoop.
(** The part of the path the loop does not reach ([start] of [parse]). *)
Variable r : jsstr.

Abbreviation scan path n ms st := (Posix.ext_loop path (len r) n ms st).

Lemma read_at q s c t (n : nat) :
  n = length (q ++ s) -> charCodeAt (r ++ q ++ s ++ c :: t) (len r + Z.of_nat n) = Some c.
Proof. intros ->. rewrite (app_assoc q), (read_mid r (q ++ s)); [done|nat_len]. Qed.

Lemma ext_loop_slashes q k st :
  scan (r ++ q ++ slashes k) (length (q ++ slashes k)) true st
  = scan (r ++ q ++ slashes k) (length q) true st.
Proof.
  assert (forall j t, scan (r ++ q ++ slashes j ++ t) (length q + j) true st
          = scan (r ++ q ++ slashes j ++ t) (length q) true st) as H.
  { induction j as [|j IH]; intros t; [by rewrite Nat.add_0_r|].
    rewrite Nat.add_succ_r. cbn [Posix.ext_loop].
    unfold slashes in *. rewrite replicate_S_end, <- app_assoc.
    change ([CHAR_FORWARD_SLASH] ++ t) with (CHAR_FORWARD_SLASH :: t) in *.
    rewrite (read_at q (replicate j CHAR_FORWARD_SLASH)); [|nat_len]. destruct st. apply IH. }
  specialize (H k []). rewrite app_nil_r in H. rewrite length_app. unfold slashes at 2.
  by rewrite length_replicate.
Qed.

(** A character that is no slash, once [end] is known. *)
Lemma ext_loop_char q s c t sd sp stop pd :
  slash (Some c) = false -> stop <> -1 ->
  scan (r ++ q ++ (s ++ [c]) ++ t) (length q + length (s ++ [c])) false (Posix.ExtScan sd sp stop pd)
  = scan (r ++ q ++ s ++ c :: t) (length q + length s) false
      (if c =? CHAR_DOT then
         if sd =? -1 then Posix.ExtScan (len r + len (q ++ s)) sp stop pd
         else Posix.ExtScan sd sp stop 1
       else if sd =? -1 then Posix.ExtScan sd sp stop pd else Posix.ExtScan sd sp stop (-1)).
Proof.
  intros Hc Hs. rewrite length_app. cbn [length]. rewrite Nat.add_1_r, Nat.add_succ_r.
  cbn [Posix.ext_loop]. rewrite <- app_assoc. cbn [app].
  rewrite read_at by nat_len. rewrite code_slash_free by done.
  replace (stop =? -1) with false by (symmetry; by apply Z.eqb_neq). cbn [code_is].
  replace (len r + Z.of_nat (length q + length s)) with (len r + len (q ++ s)) by nat_len.
  destruct (c =? CHAR_DOT), (sd =? -1); cbn [negb]; try done.
  by destruct (pd =? 1) eqn:?; bool_hyps; subst.
Qed.

(** Before the last dot is met. *)
Lemma ext_loop_nodot s : forall q t sp stop pd,
  sep_free slash s -> dot_free s -> stop <> -1 ->
  scan (r ++ q ++ s ++ t) (length q + length s) false (Posix.ExtScan (-1) sp stop pd)
  = scan (r ++ q ++ s ++ t) (length q) false (Posix.ExtScan (-1) sp stop pd).
Proof.
  induction s as [|c s IH] using rev_ind; intros q t sp stop pd Hs Hd Hstop;
    [by rewrite Nat.add_0_r|].
  apply Forall_app in Hs as [Hs [Hc _]%Forall_cons].
  apply Forall_app in Hd as [Hd [Hcd _]%Forall_cons].
  rewrite ext_loop_char by done. apply Z.eqb_neq in Hcd. rewrite Hcd. change (-1 =? -1) with true. cbv iota.
  rewrite IH by done. by rewrite <- app_assoc.
Qed.

(** After the last dot: [preDotState] ends up describing the first character. *)
Definition pre_dot (n : jsstr) (pd : Z) : Z :=
  match n with [] => pd | c :: _ => if c =? CHAR_DOT then 1 else -1 end.

Lemma ext_loop_dotted s : forall q t sd sp stop pd,
  sep_free slash s -> sd <> -1 -> stop <> -1 ->
  scan (r ++ q ++ s ++ t) (length q + length s) false (Posix.ExtScan sd sp stop pd)
  = scan (r ++ q ++ s ++ t) (length q) false (Posix.ExtScan sd sp stop (pre_dot s pd)).
Proof.
  induction s as [|c s IH] using rev_ind; intros q t sd sp stop pd Hs Hsd Hstop;
    [by rewrite Nat.add_0_r|].
  apply Forall_app in Hs as [Hs [Hc _]%Forall_cons].
  rewrite ext_loop_char by done. apply Z.eqb_neq in Hsd as Esd. rewrite Esd.
  rewrite <- app_assoc. destruct (c =? CHAR_DOT) eqn:Ec; rewrite IH by done;
    destruct s; cbn; by rewrite ?Ec.
Qed.

(** The first character that is no slash sets [end]. *)
Lemma ext_loop_first q s c t :
  slash (Some c) = false ->
  scan (r ++ q ++ (s ++ [c]) ++ t) (length q + length (s ++ [c])) true (Posix.ExtScan (-1) 0 (-1) 0)
  = scan (r ++ q ++ s ++ c :: t) (length q + length s) false
      (Posix.ExtScan (if c =? CHAR_DOT then len r + len (q ++ s) else -1) 0
         (len r + len (q ++ s ++ [c])) 0).
Proof.
  intros Hc. rewrite length_app. cbn [length]. rewrite Nat.add_1_r, Nat.add_succ_r.
  cbn [Posix.ext_loop]. rewrite <- app_assoc. cbn [app].
  rewrite read_at by nat_len. rewrite code_slash_free by done. cbn [code_is Z.eqb].
  replace (len r + Z.of_nat (length q + length s)) with (len r + len (q ++ s)) by nat_len.
  replace (len r + len (q ++ s) + 1) with (len r + len (q ++ s ++ [c])) by nat_len.
  by destruct (c =? CHAR_DOT).
Qed.

(** The text after the last dot. *)
Lemma ext_loop_tail q s t :
  sep_free slash s -> dot_free s -> s <> [] ->
  scan (r ++ q ++ s ++ t) (length q + length s) true (Posix.ExtScan (-1) 0 (-1) 0)
  = scan (r ++ q ++ s ++ t) (length q) false (Posix.ExtScan (-1) 0 (len r + len (q ++ s)) 0).
Proof.
  intros Hs Hd Hne. destruct s as [|c s _] using rev_ind; [done|].
  apply Forall_app in Hs as [Hs [Hc _]%Forall_cons].
  apply Forall_app in Hd as [Hd [Hcd _]%Forall_cons].
  rewrite ext_loop_first by done. apply Z.eqb_neq in Hcd. rewrite Hcd.
  rewrite ext_loop_nodot by (done || nat_len). by rewrite <- app_assoc.
Qed.

(** The scan of the last component up to its first character. *)
Lemma ext_loop_component q b t :
  sep_free slash b -> b <> [] ->
  scan (r ++ q ++ b ++ t) (length q + length b) true (Posix.ExtScan (-1) 0 (-1) 0)
  = scan (r ++ q ++ b ++ t) (length q) false
      (match last_dot b with
       | Some (n, e) => Posix.ExtScan (len r + len (q ++ n)) 0 (len r + len (q ++ b)) (pre_dot n 0)
       | None => Posix.ExtScan (-1) 0 (len r + len (q ++ b)) 0
       end).
Proof.
  intros Hb Hne. pose proof (last_dot_spec b) as Hl.
  destruct (last_dot b) as [[n e]|]; [|by apply ext_loop_tail].
  destruct Hl as (e' & -> & -> & He).
  apply Forall_app in Hb as [Hn [_ Hb]%Forall_cons].
  destruct (decide (e' = [])) as [->|Hne'].
  - rewrite ext_loop_first by done. change (CHAR_DOT =? CHAR_DOT) with true. cbv iota.
    rewrite ext_loop_dotted by (done || nat_len). by rewrite <- !app_assoc.
  - pose proof (ext_loop_tail (q ++ n ++ [CHAR_DOT]) e' t Hb He Hne') as E.
    rewrite <- !app_assoc in E. rewrite <- app_assoc.
    replace (length q + length (n ++ CHAR_DOT :: e'))%nat
      with (length (q ++ n ++ [CHAR_DOT]) + length e')%nat by nat_len.
    cbn [app] in *. rewrite E. rewrite length_app.
    pose proof (ext_loop_char q n CHAR_DOT (e' ++ t) (-1) 0
                  (len r + len (q ++ n ++ CHAR_DOT :: e')) 0) as E2.
    rewrite <- (app_assoc n) in E2. cbn [app] in E2. rewrite E2 by (done || nat_len).
    change (CHAR_DOT =? CHAR_DOT) with true. change (-1 =? -1) with true. cbv iota.
    by rewrite ext_loop_dotted by (done || nat_len).
Qed.

(** The loop stops at the slash that ends the directory part, and records
    the component's start unless the directory part is the skipped root. *)
Lemma ext_loop_dir d t sd stop pd :
  dir_part d ->
  scan (r ++ d ++ t) (length d) false (Posix.ExtScan sd 0 stop pd)
  = Posix.ExtScan sd (if bool_decide (d = []) then 0 else len (r ++ d)) stop pd.
Proof.
  intros [->|(d' & ->)]; [done|]. rewrite length_app, Nat.add_1_r. cbn [Posix.ext_loop].
  rewrite bool_decide_eq_false_2 by by destruct d'.
  rewrite <- (app_assoc d'). cbn [app]. rewrite (read_mid r d') by nat_len.
  change (code_is (Some 47) CHAR_FORWARD_SLASH) with true. cbn [negb]. f_equal. nat_len.
Qed.

Lemma ext_loop_spec d b k :
  dir_part d -> sep_free slash b -> b <> [] ->
  scan (r ++ d ++ b ++ slashes k) (length (d ++ b ++ slashes k)) true (Posix.ExtScan (-1) 0 (-1) 0)
  = let off := len (r ++ d) in
    let part := if bool_decide (d = []) then 0 else off in
    match last_dot b with
    | Some (n, e) => Posix.ExtScan (off + len n) part (off + len b) (pre_dot n 0)
    | None => Posix.ExtScan (-1) part (off + len b) 0
    end.
Proof.
  intros Hd Hb Hne. rewrite (app_assoc d b), ext_loop_slashes, <- app_assoc, length_app.
  rewrite ext_loop_component by done. cbv zeta.
  destruct (last_dot b) as [[n e]|]; rewrite ext_loop_dir by done; rewrite !len_app; f_equal; lia.
Qed.
End ExtLoop.

(** The test for "no extension" against the specification; [off] is where the
    component starts and [part] what the scan recorded. *)
Lemma no_ext_spec (off part : Z) b :
  0 <= part <= off ->
  Posix.no_ext
    (match last_dot b with
     | Some (n, e) => Posix.ExtScan (off + len n) part (off + len b) (pre_dot n 0)
     | None => Posix.ExtScan (-1) part (off + len b) 0
     end)
  = match last_dot b with
    | Some (n, e) => bool_decide (n = []) || (bool_decide (b = dotdot) && (part =? off))
    | None => true
    end.
Proof.
  intros Ho. pose proof (last_dot_spec b) as Hl. destruct (last_dot b) as [[n e]|]; [|done].
  destruct Hl as (e' & -> & -> & He). unfold Posix.no_ext. cbn [Posix.es_startDot Posix.es_end
    Posix.es_preDotState Posix.es_startPart].
  replace (off + len n =? -1) with false by (symmetry; apply Z.eqb_neq; len_lia). cbn [orb].
  destruct n as [|c n]; [done|]. rewrite (bool_decide_eq_false_2 (c :: n = [])) by done.
  cbn [pre_dot orb app]. destruct (c =? CHAR_DOT) eqn:Ec; bool_hyps.
  2: { cbn. rewrite bool_decide_eq_false_2; [done|]. by intros [= -> _]. }
  subst c. change (1 =? 0) with false. change (1 =? 1) with true. cbn [orb andb].
  case_bool_decide as E; cbn [andb].
  - destruct n as [|c n]; [|by destruct n]. injection E as ->.
    cbn [app]. rewrite !len_cons, !len_nil.
    destruct (part =? off) eqn:?; bool_hyps; rewrite ?andb_false_iff, ?andb_true_iff;
      [split; apply Z.eqb_eq; lia|right; apply Z.eqb_neq; lia].
  - apply andb_false_iff. rewrite !Z.eqb_neq.
    destruct (decide (off + len (CHAR_DOT :: n) = part + 1)) as [E1|E1]; [left|by right].
    intros E2. apply E. rewrite !len_cons, !len_app, !len_cons in *.
    pose proof (len_nonneg n). pose proof (len_nonneg e').
    assert (n = []) as -> by (apply len_zero; lia).
    assert (e' = []) as -> by (apply len_zero; rewrite len_nil in *; lia). done.
Qed.

(** [extname] depends on the last component only. *)
Lemma extname_spec d b k :
  dir_part d -> sep_free slash b -> b <> [] ->
  Posix.extname (VString (d ++ b ++ slashes k)) = Ok (split_ext b).2.
Proof.
  intros Hd Hb Hne. unfold Posix.extname. cbn [validateString result_bind]. f_equal.
  pose proof (ext_loop_spec [] d b k Hd Hb Hne) as E. cbn [app] in E.
  rewrite len_nil in E. rewrite E. cbv zeta. clear E.
  replace (if bool_decide (d = []) then 0 else len d) with (len d)
    by (case_bool_decide; subst; done).
  rewrite no_ext_spec by (pose proof (len_nonneg d); lia). rewrite Z.eqb_refl, andb_true_r.
  pose proof (last_dot_spec b) as Hl. unfold split_ext.
  destruct (last_dot b) as [[n e]|]; [|done]. cbn [Posix.es_startDot Posix.es_end].
  destruct Hl as (e' & -> & -> & He).
  replace (len d + len (n ++ CHAR_DOT :: e') =? -1) with false by (symmetry; apply Z.eqb_neq; len_lia).
  rewrite orb_false_r.
  case_match; [done|]. rewrite <- (app_assoc n), (app_assoc d). apply (slice_mid (d ++ n) (CHAR_DOT :: e')); len_lia.
Qed.

(** What [parse] returns for a path with a last component: the root, then a
    directory part [d].  [..] right below the root is the exception: its second
    dot passes for an extension. *)
Definition parse_split (r d b : jsstr) : jsstr * jsstr :=
  if bool_decide (r <> [] /\ d = [] /\ b = dotdot) then (dot, dot) else split_ext b.

Definition parse_dir (r d : jsstr) : jsstr :=
  if bool_decide (d = []) then r else dir_text (r ++ d).

Definition parse_obj (r d b : jsstr) : pathObject :=
  PathObject r (parse_dir r d) b (parse_split r d b).2 (parse_split r d b).1.

(** The three fields the component gives. *)
Lemma parse_fields r d b t :
  (r = [] \/ r = "/") ->
  let off := len (r ++ d) in
  let part := if bool_decide (d = []) then 0 else off in
  let path := r ++ d ++ b ++ t in
  let st := match last_dot b with
      | Some (n, e) => Posix.ExtScan (off + len n) part (off + len b) (pre_dot n 0)
      | None => Posix.ExtScan (-1) part (off + len b) 0
      end in
  (if Posix.no_ext st
   then (slice path off (Posix.es_end st), [], slice path off (Posix.es_end st))
   else (slice path off (Posix.es_end st), slice path (Posix.es_startDot st) (Posix.es_end st),
         slice path off (Posix.es_startDot st)))
  = (b, (parse_split r d b).2, (parse_split r d b).1).
Proof.
  intros Hr off part path. cbv zeta.
  assert (path = (r ++ d) ++ b ++ t) as Hpath by (unfold path; by rewrite <- app_assoc).
  assert (slice path off (off + len b) = b) as Hb by (rewrite Hpath; by apply slice_mid).
  pose proof (len_nonneg (r ++ d)) as Ho. fold off in Ho.
  rewrite no_ext_spec by (unfold part; case_bool_decide; lia).
  assert ((part =? off) = negb (bool_decide (r <> [] /\ d = []))) as ->.
  { unfold part, off. case_bool_decide; subst; [|by rewrite bool_decide_eq_false_2, Z.eqb_refl by tauto].
    rewrite app_nil_r. destruct Hr as [->| ->]; done. }
  pose proof (last_dot_spec b) as Hl. unfold parse_split, split_ext.
  destruct (last_dot b) as [[n e]|]; cbn [Posix.es_startDot Posix.es_end].
  2: { rewrite Hb, bool_decide_eq_false_2; [done|]. intros (_ & _ & ->). by apply Forall_cons in Hl as [? _]. }
  destruct Hl as (e' & -> & -> & He). rewrite Hb.
  assert (slice path (off + len n) (off + len (n ++ CHAR_DOT :: e')) = CHAR_DOT :: e') as Hext.
  { rewrite Hpath, <- (app_assoc n), (app_assoc (r ++ d)).
    apply (slice_mid ((r ++ d) ++ n) (CHAR_DOT :: e')); unfold off; len_lia. }
  assert (slice path off (off + len n) = n) as Hname.
  { rewrite Hpath, <- (app_assoc n). by apply (slice_mid (r ++ d) n). }
  rewrite Hext, Hname. clear -He.
  destruct (bool_decide (n = [])) eqn:En; bool_hyps.
  { subst n. cbn [orb app]. case_bool_decide as Hx; [|done]. destruct Hx as (_ & _ & [= ->]).
    by apply Forall_cons in He as [? _]. }
  cbn [orb]. destruct (bool_decide (n ++ CHAR_DOT :: e' = dotdot)) eqn:Eb; bool_hyps; cbn [andb].
  - rewrite Eb. destruct n as [|x [|y n]]; [done|injection Eb as -> ->|by destruct n].
    destruct (bool_decide (r <> [] /\ d = [])) eqn:Er; bool_hyps; cbn [negb].
    + case_bool_decide; [done|tauto].
    + case_bool_decide; [tauto|done].
  - case_bool_decide; [tauto|done].
Qed.

Lemma parse_dir_eq r d t :
  (r = [] \/ r = "/") -> dir_part d -> (r = [] -> d = [] -> is_abs t = false) ->
  let part := if bool_decide (d = []) then 0 else len (r ++ d) in
  (if 0 <? part then slice (r ++ d ++ t) 0 (part - 1)
   else if bool_decide (r = "/") then "/" else [])
  = parse_dir r d.
Proof.
  intros Hr Hd Ht part. unfold part, parse_dir. case_bool_decide as E.
  - cbn. destruct Hr as [->| ->]; done.
  - destruct Hd as [->|(d' & ->)]; [done|].
    replace (0 <? _) with true by (symmetry; apply Z.ltb_lt; len_lia). unfold dir_text.
    rewrite <- !app_assoc. rewrite !(app_assoc r d').
    by rewrite !slice_prefix by len_lia.
Qed.

Lemma parse_spec r d b k :
  (r = [] \/ r = "/") -> (r = [] -> is_abs d = false) ->
  dir_part d -> sep_free slash b -> b <> [] ->
  Posix.parse (VString (r ++ d ++ b ++ slashes k)) = Ok (parse_obj r d b).
Proof.
  intros Hr Habs Hd Hb Hne. unfold Posix.parse. cbn [validateString result_bind].
  assert (0 < len b) as Hlb by (destruct b; [done|len_lia]).
  replace (len (r ++ d ++ b ++ slashes k) =? 0) with false by (symmetry; apply Z.eqb_neq; len_lia).
  fold (is_abs (r ++ d ++ b ++ slashes k)).
  assert (is_abs (r ++ d ++ b ++ slashes k) = bool_decide (r = "/")) as ->.
  { destruct Hr as [->| ->]; [|done]. destruct d as [|c d]; [|by apply Habs].
    destruct b as [|c b]; [done|]. by apply Forall_cons in Hb as [Hc _]. }
  pose proof (ext_loop_spec r d b k Hd Hb Hne) as E.
  assert ((if bool_decide (r = "/") then (("/" : jsstr), 1) else ([], 0)) = (r, len r)) as ->
    by by destruct Hr as [->| ->].
  replace (Z.to_nat (len (r ++ d ++ b ++ slashes k) - len r))
    with (length (d ++ b ++ slashes k)) by (rewrite len_app; unfold len; lia).
  rewrite E. clear E.
  pose proof (parse_fields r d b (slashes k) Hr) as HF. cbv zeta in *.
  set (st := match last_dot b with Some _ => _ | None => _ end) in *.
  assert (Posix.es_startPart st = if bool_decide (d = []) then 0 else len (r ++ d)) as Hp
    by (unfold st; by destruct (last_dot b) as [[? ?]|]).
  assert ((Posix.es_end st =? -1) = false) as ->.
  { unfold st. destruct (last_dot b) as [[? ?]|]; apply Z.eqb_neq; cbn; len_lia. }
  rewrite Hp. cbn [negb].
  assert ((if ((if bool_decide (d = []) then 0 else len (r ++ d)) =? 0) && bool_decide (r = "/")
           then 1 else if bool_decide (d = []) then 0 else len (r ++ d)) = len (r ++ d)) as ->.
  { case_bool_decide; subst; [by destruct Hr as [->| ->]|].
    assert (0 < len d) by (destruct d; [done|len_lia]).
    by replace (len (r ++ d) =? 0) with false by (symmetry; apply Z.eqb_neq; len_lia). }
  rewrite HF. f_equal. unfold parse_obj. f_equal. apply parse_dir_eq; [done..|].
  intros -> ->. destruct b as [|c b]; [done|]. by apply Forall_cons in Hb as [Hc _].
Qed.

(** ** [basename] with a suffix *)

(** [end] and [extIdx] once the characters [s] of the last component, which
    starts at [off] and ends at [stop], have been compared with the suffix. *)
Definition suffix_state (suf s : jsstr) (off stop : Z) : Z * Z :=
  if decide (suf `suffix_of` s) then (off + len s - len suf, -1)
  else if decide (s `suffix_of` suf) then (-1, len suf - len s - 1)
  else (stop, -1).

Lemma suffix_of_cons_long (suf s : jsstr) c :
  suf `suffix_of` c :: s -> ~ suf `suffix_of` s -> suf = c :: s.
Proof.
  intros H Hn. destruct suf as [|x suf]; [by destruct Hn; apply suffix_nil|].
  by apply suffix_cons_inv in H as [?|?].
Qed.

Lemma suffix_state_step suf s c off stop :
  suf <> [] ->
  let '(e, x) := suffix_state suf s (off + 1) stop in
  suffix_state suf (c :: s) off stop
  = if 0 <=? x then
      if negb (code_differs (Some c) (charCodeAt suf x)) then
        ((if x - 1 =? -1 then off else e), x - 1)
      else (stop, -1)
    else (e, x).
Proof.
  intros Hne. unfold suffix_state. destruct (decide (suf `suffix_of` s)) as [Hs|Hs].
  { rewrite decide_True by by apply suffix_cons_r. cbn. f_equal. len_lia. }
  destruct (decide (s `suffix_of` suf)) as [[x ->]|Hs'].
  - destruct x as [|y x _] using rev_ind; [by destruct Hs; exists []|].
    replace (0 <=? _) with true by (symmetry; apply Z.leb_le; len_lia).
    replace (len _ - len s - 1) with (len x) by len_lia.
    rewrite <- app_assoc. cbn [app]. rewrite charCodeAt_app_mid by done. cbn [code_differs].
    destruct (c =? y) eqn:Ecy; bool_hyps; cbn [negb].
    + subst y. destruct x as [|z x].
      * rewrite decide_True by done. change (len [] - 1) with (-1).
        change (-1 =? -1) with true. cbn [app]. f_equal. lia.
      * rewrite decide_False, decide_True.
        -- replace (len (z :: x) - 1 =? -1) with false by (symmetry; apply Z.eqb_neq; len_lia).
           f_equal. len_lia.
        -- by exists (z :: x).
        -- intros H%suffix_length. rewrite length_app in H. cbn in H. lia.
    + rewrite !decide_False; [done|..].
      * intros [z E]. change (c :: s) with ([c] ++ s) in E. change (y :: s) with ([y] ++ s) in E.
        rewrite !app_assoc in E. apply app_inv_tail, app_inj_2 in E as [_ [= ?]]; [|done]. by subst.
      * intros E%suffix_of_cons_long.
        -- change (c :: s) with ([c] ++ s) in E. change (y :: s) with ([y] ++ s) in E.
           rewrite app_assoc in E. apply app_inv_tail, (app_inj_2 _ []) in E as [_ [= ?]]; [|done].
           by subst.
        -- by rewrite <- app_assoc in Hs.
  - cbn. rewrite !decide_False; [done|..].
    + intros H. apply Hs'. etrans; [|exact H]. by exists [c].
    + intros H%suffix_of_cons_long; [|done]. subst suf. apply Hs'. by exists [c].
Qed.

Lemma suffix_loop_slashes q suf k :
  Posix.basename_suffix_loop (q ++ slashes k) suf (length (q ++ slashes k)) (-1) (len suf - 1) (-1) true
  = Posix.basename_suffix_loop (q ++ slashes k) suf (length q) (-1) (len suf - 1) (-1) true.
Proof.
  assert (forall j t, Posix.basename_suffix_loop (q ++ slashes j ++ t) suf (length q + j) (-1) (len suf - 1) (-1) true
          = Posix.basename_suffix_loop (q ++ slashes j ++ t) suf (length q) (-1) (len suf - 1) (-1) true) as H.
  { induction j as [|j IH]; intros t; [by rewrite Nat.add_0_r|].
    rewrite Nat.add_succ_r. cbn [Posix.basename_suffix_loop].
    unfold slashes in *. rewrite replicate_S_end, <- app_assoc.
    change ([CHAR_FORWARD_SLASH] ++ t) with (CHAR_FORWARD_SLASH :: t) in *.
    rewrite (read_mid q (replicate j CHAR_FORWARD_SLASH)); [apply IH|nat_len]. }
  specialize (H k []). rewrite app_nil_r in H. rewrite length_app. unfold slashes at 2.
  by rewrite length_replicate.
Qed.

Lemma suffix_loop_component s : forall q suf t,
  sep_free slash s -> suf <> [] ->
  let '(e, x) := suffix_state suf s (len q) (len (q ++ s)) in
  Posix.basename_suffix_loop (q ++ s ++ t) suf (length q + length s) (-1) (len suf - 1) (-1) true
  = Posix.basename_suffix_loop (q ++ s ++ t) suf (length q) e x
      (if bool_decide (s = []) then -1 else len (q ++ s)) (bool_decide (s = [])).
Proof.
  induction s as [|c s IH]; intros q suf t Hs Hne.
  { unfold suffix_state. rewrite decide_False by (intros [? E]; symmetry in E; by apply app_eq_nil in E as [_ ?]).
    rewrite decide_True by apply suffix_nil. rewrite Nat.add_0_r, len_nil, Z.sub_0_r. done. }
  apply Forall_cons in Hs as [Hc Hs]. specialize (IH (q ++ [c]) suf t Hs Hne).
  pose proof (suffix_state_step suf s c (len q) (len (q ++ c :: s)) Hne) as Hstep.
  rewrite <- !app_assoc in IH. cbn [app] in *.
  replace (len (q ++ [c])) with (len q + 1) in IH by len_lia.
  destruct (suffix_state suf s (len q + 1) (len (q ++ c :: s))) as [e x]. rewrite Hstep. clear Hstep.
  cbn [length]. replace (length q + S (length s))%nat with (length (q ++ [c]) + length s)%nat by nat_len.
  rewrite IH. clear IH. rewrite length_app, Nat.add_1_r. cbn [Posix.basename_suffix_loop].
  rewrite charCodeAt_app_mid by done. rewrite code_slash_free by done.
  rewrite (bool_decide_eq_false_2 (c :: s = [])) by done.
  assert ((if (if bool_decide (s = []) then -1 else len (q ++ c :: s)) =? -1
           then (false, Z.of_nat (length q) + 1)
           else (bool_decide (s = []), if bool_decide (s = []) then -1 else len (q ++ c :: s)))
          = (false, len (q ++ c :: s))) as ->.
  { case_bool_decide; subst; cbn [Z.eqb]; [f_equal; nat_len|].
    by replace (len (q ++ c :: s) =? -1) with false by (symmetry; apply Z.eqb_neq; len_lia). }
  destruct (0 <=? x); [|done]. destruct (negb _); [|done]. done.
Qed.

Lemma suffix_loop_dir d t suf e x f :
  dir_part d ->
  Posix.basename_suffix_loop (d ++ t) suf (length d) e x f false = (len d, e, f).
Proof.
  intros [->|(d' & ->)]; [done|]. rewrite length_app, Nat.add_1_r.
  cbn [Posix.basename_suffix_loop]. rewrite <- app_assoc. cbn [app].
  rewrite charCodeAt_app_mid by done. change (code_is (Some 47) CHAR_FORWARD_SLASH) with true.
  cbn [negb]. do 2 f_equal. nat_len.
Qed.

(** The whole method, once [suffix] takes part. *)
Lemma basename_suffix_spec d b k suf :
  dir_part d -> sep_free slash b -> b <> [] ->
  suf <> [] -> len suf <= len (d ++ b ++ slashes k) -> suf <> d ++ b ++ slashes k ->
  Posix.basename (VString (d ++ b ++ slashes k)) (Some (VString suf))
  = Ok (if decide (suf = b) then b
        else if decide (suf `suffix_of` b) then take (length b - length suf) b
        else if decide (b `suffix_of` suf) then b ++ slashes k
        else b).
Proof.
  intros Hd Hb Hne Hsuf Hlen Hneq. unfold Posix.basename. cbn [validateString result_bind].
  assert (0 < len suf) by (destruct suf; [done|len_lia]).
  replace ((0 <? len suf) && (len suf <=? len (d ++ b ++ slashes k))) with true
    by (symmetry; apply andb_true_iff; split; [apply Z.ltb_lt|apply Z.leb_le]; lia).
  rewrite bool_decide_eq_false_2 by done.
  rewrite (app_assoc d b), suffix_loop_slashes, <- (app_assoc d b), length_app.
  pose proof (suffix_loop_component b d suf (slashes k) Hb Hsuf) as HL.
  destruct (suffix_state suf b (len d) (len (d ++ b))) as [e x] eqn:Est. rewrite HL.
  rewrite (bool_decide_eq_false_2 (b = [])) by done.
  rewrite suffix_loop_dir by done.
  f_equal. unfold suffix_state in Est.
  assert (slice (d ++ b ++ slashes k) (len d) (len (d ++ b)) = b) as Hwhole
    by (apply slice_mid; len_lia).
  destruct (decide (suf `suffix_of` b)) as [[n ->]|Hn]; simplify_eq.
  - destruct n as [|c n].
    + rewrite decide_True by done. by replace (_ =? _) with true by (symmetry; apply Z.eqb_eq; len_lia).
    + rewrite decide_False.
      2: { intros E%(f_equal length). rewrite length_app in E. cbn in E. lia. }
      replace (_ =? _) with false by (symmetry; apply Z.eqb_neq; len_lia).
      replace (_ =? -1) with false by (symmetry; apply Z.eqb_neq; len_lia).
      rewrite take_app_exact by nat_len. rewrite <- app_assoc.
      apply (slice_mid d (c :: n)); len_lia.
  - rewrite decide_False by (intros ->; by apply Hn). destruct (decide (b `suffix_of` suf)); simplify_eq.
    + replace (len d =? -1) with false by (symmetry; apply Z.eqb_neq; len_lia). cbn [Z.eqb Pos.eqb].
      apply (slice_suffix d (b ++ slashes k)). done.
    + assert (0 < len b) by (destruct b; [done|len_lia]).
      replace (len d =? _) with false by (symmetry; apply Z.eqb_neq; len_lia).
      by replace (_ =? -1) with false by (symmetry; apply Z.eqb_neq; len_lia).
Qed.

(** ** All paths *)

Lemma split_ext_app b : (split_ext b).1 ++ (split_ext b).2 = b.
Proof.
  unfold split_ext. pose proof (last_dot_spec b) as H. destruct (last_dot b) as [[n e]|].
  - destruct H as (e' & -> & -> & _). case_match; cbn [fst snd]; by rewrite ?app_nil_r.
  - by rewrite app_nil_r.
Qed.

(** A path with a last component, its root separated. *)
Lemma path_root_cases p :
  (exists k, p = slashes k) \/
  (exists r d b k, p = r ++ d ++ b ++ slashes k /\ (r = [] \/ r = "/") /\
     (r = [] -> is_abs d = false) /\ dir_part d /\ dir_part (r ++ d) /\ sep_free slash b /\ b <> []).
Proof.
  destruct (path_cases p) as [?|(d & b & k & -> & Hd & Hb & Hne)]; [by left|right].
  destruct (is_abs d) eqn:E.
  - destruct d as [|c d]; [done|]. change (is_abs (c :: d)) with (c =? 47) in E. bool_hyps. subst c.
    exists "/", d, b, k. split_and!; [done|by right|done| |done..].
    destruct Hd as [?|([|x d'] & E)]; [done|left|right; exists d']; by injection E.
  - exists [], d, b, k. split_and!; auto.
Qed.

Lemma slashes_only k :
  Posix.parse (VString (slashes (S k))) = Ok (PathObject "/" "/" [] [] []) /\
  Posix.basename (VString (slashes (S k))) None = Ok [] /\
  Posix.extname (VString (slashes (S k))) = Ok [] /\
  Posix.dirname (VString (slashes (S k))) = Ok "/".
Proof.
  split_and!.
  - unfold Posix.parse. cbn [validateString result_bind].
    replace (len (slashes (S k)) =? 0) with false by (symmetry; apply Z.eqb_neq; nat_len).
    change (slashes (S k)) with ("/" ++ [] ++ slashes k).
    change (charCodeAt ("/" ++ [] ++ slashes k) 0) with (Some 47).
    change (code_is (Some 47) CHAR_FORWARD_SLASH) with true. cbv iota.
    replace (Z.to_nat _) with (length ([] ++ slashes k)) by nat_len.
    change 1 with (len "/"). by rewrite (ext_loop_slashes "/" [] k).
  - unfold Posix.basename. cbn [validateString result_bind].
    by rewrite (basename_loop_root (S k)).
  - unfold Posix.extname. cbn [validateString result_bind].
    by rewrite (ext_loop_slashes [] [] (S k)).
  - unfold Posix.dirname. cbn [validateString result_bind].
    replace (len (slashes (S k)) =? 0) with false by (symmetry; apply Z.eqb_neq; nat_len).
    change (slashes (S k)) with ("/" ++ slashes k).
    by rewrite (dirname_loop_slashes "/" k) by (cbn; lia).
Qed.
