(* ===== verification/PathClaims.v ===== *)
(** * [path.posix]: the theorems a caller relies on

    Normalisation against the segment specification, resolution as successive
    changes of directory, the round trips [relative]/[resolve] and
    [parse]/[format], and the agreement of [parse] with [dirname], [basename]
    and [extname]. *)

From S2P Require Import Prelude JsString Path PathSpec PathPosix PathPosixFacts PathParse.

(** ** Normalisation *)

(** C34. [normalizeString], a single left-to-right pass that edits the output
    string in place, computes for both separators what folding the path's
    segments over a stack of kept segments computes: empty and [.] segments
    vanish, [..] pops a segment or, where that is allowed, is kept. *)
Theorem normalizeString_refines_segments path allow :
  normalizeString path allow "/" isPosixPathSeparator
    = join "/" (norm_segs allow (segments isPosixPathSeparator path)) /\
  normalizeString path allow [CHAR_BACKWARD_SLASH] isPathSeparator
    = join [CHAR_BACKWARD_SLASH] (norm_segs allow (segments isPathSeparator path)).
Proof. split; [apply normalizeString_posix|apply normalizeString_win32]. Qed.

(** [posix.normalize] returns for every string, its result is a fixed point
    of [normalize], and following the result from any directory leads where
    following the original path leads. *)
Theorem posix_normalize_idempotent_sound p dir :
  exists r, Posix.normalize (VString p) = Ok r /\
            Posix.normalize (VString r) = Ok r /\
            cd slash dir r = cd slash dir p.
Proof. apply normalize_idempotent_and_sound. Qed.

(** ** Resolution *)

(** C35. [posix.resolve(...args)] is the absolute path reached by changing
    directory to each argument in turn, starting at the current directory:
    the right-to-left loop that stops at the first absolute argument computes
    the left-to-right meaning. *)
Theorem posix_resolve_is_successive_cd c dir args :
  clean dir -> c = abs_path dir ->
  Posix.resolve (Ok c) (VString <$> args) = Ok (abs_path (foldl (cd slash) dir args)).
Proof. apply resolve_cd. Qed.

Lemma clean_dec_wx : clean ["w"; "x"].
Proof. by repeat constructor. Qed.

Lemma posix_resolve_is_successive_cd_witness :
  Posix.resolve (Ok "/w/x") [VString "a/b"; VString "../c/."] = Ok ("/w/x/a/c" : jsstr).
Proof.
  exact (posix_resolve_is_successive_cd "/w/x" ["w"; "x"] ["a/b"; "../c/."] clean_dec_wx eq_refl).
Defined.

(** [posix.relative(from, to)] returns a relative path that, resolved
    against [from], leads where [to] leads, whatever the two strings are. *)
Theorem posix_relative_resolve_roundtrip c from to :
  normal_cwd c ->
  exists rel, Posix.relative (Ok c) (VString from) (VString to) = Ok rel /\
    Posix.resolve (Ok c) [VString from; VString rel] = Posix.resolve (Ok c) [VString to] /\
    is_abs rel = false.
Proof. apply relative_roundtrip. Qed.

Lemma posix_relative_resolve_roundtrip_witness :
  exists rel, Posix.relative (Ok "/w/x") (VString "a//b") (VString "../y") = Ok rel /\
    Posix.resolve (Ok "/w/x") [VString "a//b"; VString rel]
    = Posix.resolve (Ok "/w/x") [VString "../y"] /\ is_abs rel = false.
Proof.
  apply posix_relative_resolve_roundtrip. exists ["w"; "x"]. split; [apply clean_dec_wx|done].
Defined.

(** Below an absolute root, [join] and [relative] are inverse on relative
    paths without empty, [.] and [..] segments: [relative(root, join(root, id))]
    is [id], so distinct ids are given distinct files. *)
Theorem posix_join_relative_inverse c root ident :
  normal_cwd c -> clean root -> clean ident -> ident <> [] ->
  exists file,
    Posix.join [VString (abs_path root); VString (join "/" ident)] = Ok file /\
    Posix.relative (Ok c) (VString (abs_path root)) (VString file) = Ok (join "/" ident).
Proof.
  intros Hc Hr Hi Hne. exists (abs_path (root ++ ident)).
  by rewrite join_root, (relative_join_root c).
Qed.

Lemma posix_join_relative_inverse_witness :
  exists file,
    Posix.join [VString "/app"; VString "w/x"] = Ok file /\
    Posix.relative (Ok "/w/x") (VString "/app") (VString file) = Ok ("w/x" : jsstr).
Proof.
  apply (posix_join_relative_inverse "/w/x" ["app"] ["w"; "x"]);
    [exists ["w"; "x"]; split; [apply clean_dec_wx|done]|by repeat constructor|apply clean_dec_wx|done].
Defined.

(** ** Taking a path apart *)

(** The path consists of [..] below the root and trailing slashes. *)
Definition root_dotdot (p : jsstr) : Prop := exists k, p = "/.." ++ slashes k.

(** [posix.parse] agrees with the single-purpose methods on every non-empty
    path: [base] is [basename], [name] followed by [ext] is [base], [dir] is
    [dirname] (but for the empty [dir] of a bare name, where [dirname] says
    [.], and for a file below a double slash), and [ext] is [extname] except
    for [/..]. *)
Theorem posix_parse_agrees p :
  p <> [] ->
  exists o, Posix.parse (VString p) = Ok o /\
    Posix.basename (VString p) None = Ok (po_base o) /\
    po_name o ++ po_ext o = po_base o /\
    (~ root_dotdot p -> Posix.extname (VString p) = Ok (po_ext o)) /\
    (exists dn, Posix.dirname (VString p) = Ok dn /\
       (dn = po_dir o \/ po_dir o = [] /\ dn = "." \/ po_dir o = "/" /\ dn = "//")).
Proof.
  intros Hp. destruct (path_root_cases p) as [([|k] & ->)|(r & d & b & k & -> & Hr & Habs & Hd & Hrd & Hb & Hne)];
    [done|..].
  { destruct (slashes_only k) as (-> & -> & -> & ->). eexists. split_and!; eauto. }
  exists (parse_obj r d b). rewrite parse_spec by done.
  pose proof (basename_plain (r ++ d) b k Hrd Hb Hne) as Hbase.
  pose proof (extname_spec (r ++ d) b k Hrd Hb Hne) as Hext.
  pose proof (dirname_spec (r ++ d) b k Hrd Hb Hne) as Hdir.
  rewrite <- !app_assoc in *. rewrite Hbase, Hext, Hdir. cbn [parse_obj po_base po_ext po_name po_dir].
  split_and!; [done|done|..].
  - unfold parse_split. case_bool_decide as E; [by destruct E as (_ & _ & ->)|apply split_ext_app].
  - intros Hn. unfold parse_split. rewrite bool_decide_eq_false_2; [done|].
    intros (Hr' & -> & ->). destruct Hr as [->| ->]; [done|]. apply Hn. by exists k.
  - eexists. split; [done|]. unfold dirname_of, parse_dir.
    destruct (decide (d = [])) as [->|Hdne].
    + rewrite app_nil_r. destruct Hr as [->| ->]; vm_compute; auto.
    + rewrite !(bool_decide_eq_false_2 (d = [])) by done.
      rewrite (bool_decide_eq_false_2 (r ++ d = [])) by by destruct Hr as [->| ->].
      rewrite (bool_decide_eq_false_2 (r ++ d = "/")).
      2: { destruct Hr as [->| ->]; intros E; cbn [app] in E; [subst d; by specialize (Habs eq_refl)|].
           by injection E. }
      case_bool_decide as E; [|by left]. rewrite E. right. right. done.
Qed.

Lemma posix_parse_agrees_witness :
  exists o, Posix.parse (VString "/home/u/file.txt//") = Ok o /\
    Posix.basename (VString "/home/u/file.txt//") None = Ok (po_base o) /\
    po_name o ++ po_ext o = po_base o /\
    (~ root_dotdot "/home/u/file.txt//" ->
     Posix.extname (VString "/home/u/file.txt//") = Ok (po_ext o)) /\
    (exists dn, Posix.dirname (VString "/home/u/file.txt//") = Ok dn /\
       (dn = po_dir o \/ po_dir o = [] /\ dn = "." \/ po_dir o = "/" /\ dn = "//")).
Proof. by apply (posix_parse_agrees "/home/u/file.txt//"). Defined.

(** The exception is real: [parse] gives [/..] the extension [.]. *)
Lemma parse_root_dotdot_ext k :
  Posix.parse (VString ("/.." ++ slashes k)) = Ok (PathObject "/" "/" ".." "." ".") /\
  Posix.extname (VString ("/.." ++ slashes k)) = Ok [].
Proof.
  split.
  - apply (parse_spec "/" [] ".." k); [by right|done|by left|by repeat constructor|done].
  - apply (extname_spec "/" ".." k); [right; by exists []|by repeat constructor|done].
Qed.

(** [posix.format(posix.parse(p))] gives back every non-empty path [p] that
    does not end in a slash, a file directly below a double slash apart. *)
Theorem posix_format_parse_roundtrip p :
  p <> [] -> is_trail p = false ->
  (forall b, sep_free slash b -> p <> "//" ++ b) ->
  exists o, Posix.parse (VString p) = Ok o /\ Posix.format (Some o) = Ok p.
Proof.
  intros Hp Ht Hdd. destruct (path_root_cases p)
    as [([|k] & ->)|(r & d & b & k & -> & Hr & Habs & Hd & Hrd & Hb & Hne)]; [done|..].
  { unfold slashes, is_trail in Ht. rewrite replicate_S_end, charCodeAt_last in Ht. done. }
  exists (parse_obj r d b). split; [by apply parse_spec|].
  assert (k = 0%nat) as ->.
  { destruct k as [|k]; [done|]. unfold is_trail, slashes in Ht.
    by rewrite replicate_S_end, !app_assoc, charCodeAt_last in Ht. }
  change (slashes 0) with (@nil Z) in *. rewrite app_nil_r in *.
  unfold Posix.format, _format. cbn [parse_obj po_base po_ext po_name po_dir po_root].
  f_equal. assert (forall s, or_str b s = b) as -> by by destruct b. unfold parse_dir.
  destruct (decide (d = [])) as [->|Hdne].
  { by destruct Hr as [->| ->]. }
  rewrite (bool_decide_eq_false_2 (d = [])) by done. destruct Hd as [->|(d' & ->)]; [done|].
  unfold dir_text. rewrite app_assoc, slice_prefix by len_lia.
  assert (r ++ d' <> []) as Hnn.
  { destruct Hr as [->| ->]; [|done]. intros E. cbn in E. subst d'. by specialize (Habs eq_refl). }
  assert (or_str (r ++ d') r = r ++ d') as -> by by destruct (r ++ d').
  rewrite (bool_decide_eq_false_2 (r ++ d' = [])) by done.
  rewrite bool_decide_eq_false_2; [by rewrite <- !app_assoc|].
  intros E. assert (d' = []) as -> by (apply (app_inv_head r); by rewrite app_nil_r).
  destruct Hr as [->| ->]; [done|]. by apply (Hdd b).
Qed.

Lemma posix_format_parse_roundtrip_witness :
  exists o, Posix.parse (VString "/a//b.c") = Ok o /\ Posix.format (Some o) = Ok ("/a//b.c" : jsstr).
Proof. apply posix_format_parse_roundtrip; [done|reflexivity|by intros b _]. Defined.

(** [posix.basename(path, suffix)] removes the suffix from the last
    component when the component is longer than it and ends in it, and else
    returns the component, with one exception: when the suffix is longer than
    the component and ends in it, the component keeps its trailing slashes. *)
Theorem posix_basename_suffix d b k suf :
  dir_part d -> sep_free slash b -> b <> [] ->
  suf <> [] -> len suf <= len (d ++ b ++ slashes k) -> suf <> d ++ b ++ slashes k ->
  Posix.basename (VString (d ++ b ++ slashes k)) (Some (VString suf))
  = Ok (if decide (suf = b) then b
        else if decide (suf `suffix_of` b) then take (length b - length suf) b
        else if decide (b `suffix_of` suf) then b ++ slashes k
        else b).
Proof. apply basename_suffix_spec. Qed.

Lemma posix_basename_suffix_witness :
  Posix.basename (VString "lib/index.js") (Some (VString ".js")) = Ok ("index" : jsstr) /\
  Posix.basename (VString "long/b//") (Some (VString "xxb")) = Ok ("b//" : jsstr).
Proof.
  split.
  - apply (posix_basename_suffix "lib/" "index.js" 0 ".js");
      [right; by exists "lib"|by repeat constructor|done|done|done|done].
  - apply (posix_basename_suffix "long/" "b" 2 "xxb");
      [right; by exists "long"|by repeat constructor|done|done|done|done].
Defined.
