(* ===== verification/PathWin32.v ===== *)
(** * [path.win32]

    Models the [win32] object of [libjs-node/path.js] (lines 184-1217), one
    definition per method.  The scan for a UNC root, which the source writes
    out in four methods, is one definition here.  The Unicode case mappings,
    [process.cwd()], the per-drive directories of [process.env] and
    [isWindows] are parameters. *)

From S2P Require Import Prelude JsString Path PathSpec.

Module Win32.

Definition bslash : jsstr := [CHAR_BACKWARD_SLASH].

Definition WINDOWS_RESERVED_NAMES : list jsstr := [
  "CON"; "PRN"; "AUX"; "NUL";
  "COM1"; "COM2"; "COM3"; "COM4"; "COM5"; "COM6"; "COM7"; "COM8"; "COM9";
  "LPT1"; "LPT2"; "LPT3"; "LPT4"; "LPT5"; "LPT6"; "LPT7"; "LPT8"; "LPT9";
  "COM" ++ [185]; "COM" ++ [178]; "COM" ++ [179];
  "LPT" ++ [185]; "LPT" ++ [178]; "LPT" ++ [179]].

(** [while (j < len && p(path[j])) j++]: [n] characters remain. *)
Fixpoint skip_while (p : option Z -> bool) (path : jsstr) (n : nat) (j : Z) : Z :=
  match n with
  | O => j
  | S n' => if (j <? len path) && p (charCodeAt path j) then skip_while p path n' (j + 1) else j
  end.

Definition skip_seps (path : jsstr) (j : Z) : Z := skip_while isPathSeparator path (length path) j.
Definition skip_nonseps (path : jsstr) (j : Z) : Z :=
  skip_while (fun c => negb (isPathSeparator c)) path (length path) j.

(** After a double separator: a part, separators, and where the next part
    starts ([last]) and ends ([j]); [None] when the text does not match. *)
Definition match_unc (path : jsstr) : option (jsstr * Z * Z) :=
  let j := skip_nonseps path 2 in
  if (j <? len path) && negb (j =? 2) then
    let firstPart := slice path 2 j in
    let last := j in
    let j := skip_seps path j in
    if (j <? len path) && negb (j =? last) then
      let last := j in
      Some (firstPart, last, skip_nonseps path j)
    else None
  else None.

Definition starts_unc (path : jsstr) : bool := isPathSeparator (charCodeAt path 1).

(** [path] begins with a drive letter and a colon. *)
Definition has_drive (path : jsstr) : bool :=
  isWindowsDeviceRoot (charCodeAt path 0) && code_is (charCodeAt path 1) CHAR_COLON.

Section Host.
Variable toUpperCase toLowerCase : jsstr -> jsstr.
(** [process.cwd()], and [process.env[`=C:`]]. *)
Variable cwd : result jsstr.
Variable drive_cwd : jsstr -> option jsstr.
Variable isWindows : bool.

Definition isWindowsReservedName (path : jsstr) (colonIndex : Z) : bool :=
  bool_decide (toUpperCase (slice path 0 colonIndex) ∈ WINDOWS_RESERVED_NAMES).

(** ** [resolve] *)

(** Device, absoluteness and end of the root of one argument. *)
Definition resolve_root (path : jsstr) : jsstr * bool * Z :=
  let code := charCodeAt path 0 in
  if len path =? 1 then
    if isPathSeparator code then ([], true, 1) else ([], false, 0)
  else if isPathSeparator code then
    if starts_unc path then
      match match_unc path with
      | Some (firstPart, last, j) =>
          if (j =? len path) || negb (j =? last) then
            if negb (bool_decide (firstPart = ".")) && negb (bool_decide (firstPart = "?"))
            then (bslash ++ bslash ++ firstPart ++ bslash ++ slice path last j, true, j)
            else (bslash ++ bslash ++ firstPart, true, 4)
          else ([], true, 0)
      | None => ([], true, 0)
      end
    else ([], true, 1)
  else if has_drive path then
    if (2 <? len path) && isPathSeparator (charCodeAt path 2)
    then (slice path 0 2, true, 3) else (slice path 0 2, false, 2)
  else ([], false, 0).

Record resolving := Resolving {
  resolvedDevice : jsstr; resolvedTail : jsstr; resolvedAbsolute : bool;
}.

(** The end of the loop's body; the flag tells whether it [break]s. *)
Definition resolve_path (path : jsstr) (r : resolving) : resolving * bool :=
  let '(device, isAbsolute, rootEnd) := resolve_root path in
  if (0 <? len device) && (0 <? len (resolvedDevice r)) &&
     negb (bool_decide (toLowerCase device = toLowerCase (resolvedDevice r)))
  then (r, false)
  else
    let dev := if (0 <? len device) && negb (0 <? len (resolvedDevice r))
               then device else resolvedDevice r in
    if resolvedAbsolute r then
      (Resolving dev (resolvedTail r) (resolvedAbsolute r), 0 <? len dev)
    else
      (Resolving dev (slice_from path rootEnd ++ bslash ++ resolvedTail r) isAbsolute,
       isAbsolute && (0 <? len dev)).

(** The arguments, last to first. *)
Fixpoint resolve_loop (rargs : list jsval) (i : Z) (r : resolving) : result (resolving * bool) :=
  match rargs with
  | [] => Ok (r, false)
  | arg :: rargs' =>
      let* path := validateString arg ("paths[" ++ js_of_Z i ++ "]") in
      if len path =? 0 then resolve_loop rargs' (i - 1) r
      else
        let '(r, stop) := resolve_path path r in
        if stop then Ok (r, true) else resolve_loop rargs' (i - 1) r
  end.

(** The iteration at [i = -1]: [inl] is an early [return]. *)
Definition resolve_cwd (args : list jsval) (r : resolving) : result (jsstr + resolving) :=
  if len (resolvedDevice r) =? 0 then
    let* path := cwd in
    if match args with
       | [] => true
       | [a] => (bool_decide (a = VString "") || bool_decide (a = VString ".")) &&
                isPathSeparator (charCodeAt path 0)
       | _ => false
       end
    then Ok (inl (if isWindows then path else replace_all CHAR_FORWARD_SLASH bslash path))
    else Ok (inr (resolve_path path r).1)
  else
    let* path :=
      match drive_cwd ("=" ++ resolvedDevice r) with
      | Some (c :: p) => Ok (c :: p)
      | _ => cwd
      end in
    let path :=
      if negb (bool_decide (toLowerCase (slice path 0 2) = toLowerCase (resolvedDevice r))) &&
         code_is (charCodeAt path 2) CHAR_BACKWARD_SLASH
      then resolvedDevice r ++ bslash else path in
    Ok (inr (resolve_path path r).1).

Definition resolve (args : list jsval) : result jsstr :=
  let* (r, stop) :=
    resolve_loop (rev args) (Z.of_nat (length args) - 1) (Resolving [] [] false) in
  let* e := (if stop then Ok (inr r) else resolve_cwd args r) in
  match e with
  | inl path => Ok path
  | inr r =>
      let tail :=
        normalizeString (resolvedTail r) (negb (resolvedAbsolute r)) bslash isPathSeparator in
      Ok (if resolvedAbsolute r then resolvedDevice r ++ bslash ++ tail
          else or_str (resolvedDevice r ++ tail) ".")
  end.

(** ** [normalize] *)

Inductive normal_root :=
  | Whole (result : jsstr)
  | Root (device : option jsstr) (isAbsolute : bool) (rootEnd : Z).

Definition normalize_root (path : jsstr) : normal_root :=
  let code := charCodeAt path 0 in
  if isPathSeparator code then
    if starts_unc path then
      match match_unc path with
      | Some (firstPart, last, j) =>
          if (j =? len path) || negb (j =? last) then
            if bool_decide (firstPart = ".") || bool_decide (firstPart = "?") then
              let colonIndex := indexOf path ":" in
              let possibleDevice := slice path 4 (colonIndex + 1) in
              if isWindowsReservedName possibleDevice (len possibleDevice - 1)
              then Root (Some (bslash ++ bslash ++ "?" ++ bslash ++ possibleDevice)) true
                        (4 + len possibleDevice)
              else Root (Some (bslash ++ bslash ++ firstPart)) true 4
            else if j =? len path then
              Whole (bslash ++ bslash ++ firstPart ++ bslash ++ slice_from path last ++ bslash)
            else Root (Some (bslash ++ bslash ++ firstPart ++ bslash ++ slice path last j)) true j
          else Root None true 0
      | None => Root None true 0
      end
    else Root None true 1
  else
    let colonIndex := indexOf path ":" in
    if 0 <? colonIndex then
      if isWindowsDeviceRoot code && (colonIndex =? 1) then
        if (2 <? len path) && isPathSeparator (charCodeAt path 2)
        then Root (Some (slice path 0 2)) true 3
        else Root (Some (slice path 0 2)) false 2
      else if isWindowsReservedName path colonIndex then
        Root (Some (slice path 0 (colonIndex + 1))) false (colonIndex + 1)
      else Root None false 0
    else Root None false 0.

(** The [do ... while] loop: is some colon last, or before a separator? *)
Fixpoint colon_loop (path : jsstr) (n : nat) (index : Z) : bool :=
  match n with
  | O => false
  | S n' =>
      if (index =? len path - 1) || isPathSeparator (charCodeAt path (index + 1)) then true
      else
        let index := indexOf_from path ":" (index + 1) in
        if index =? -1 then false else colon_loop path n' index
  end.

Definition normalize (path : jsval) : result jsstr :=
  let* path := validateString path "path" in
  if len path =? 0 then Ok "."
  else if len path =? 1 then
    Ok (if isPosixPathSeparator (charCodeAt path 0) then bslash else path)
  else
    match normalize_root path with
    | Whole s => Ok s
    | Root device isAbsolute rootEnd =>
        let tail :=
          if rootEnd <? len path then
            normalizeString (slice_from path rootEnd) (negb isAbsolute) bslash isPathSeparator
          else [] in
        let tail := if (len tail =? 0) && negb isAbsolute then ("." : jsstr) else tail in
        let tail :=
          if (0 <? len tail) && isPathSeparator (charCodeAt path (len path - 1))
          then tail ++ bslash else tail in
        let device_str := match device with Some d => d | None => [] end in
        if negb isAbsolute && bool_decide (device = None) && includes path ":" &&
           ((2 <=? len tail) && has_drive tail ||
            colon_loop path (length path) (indexOf path ":"))
        then Ok ("." ++ bslash ++ tail)
        else if isWindowsReservedName path (indexOf path ":") then
          Ok ("." ++ bslash ++ device_str ++ tail)
        else Ok (if isAbsolute then device_str ++ bslash ++ tail else device_str ++ tail)
    end.

Definition isAbsolute (path : jsval) : result bool :=
  let* path := validateString path "path" in
  Ok (if len path =? 0 then false
      else
        let code := charCodeAt path 0 in
        isPathSeparator code ||
        (2 <? len path) && isWindowsDeviceRoot code &&
        code_is (charCodeAt path 1) CHAR_COLON && isPathSeparator (charCodeAt path 2)).

(** ** [join] *)

(** The leading separators of the first argument: their number, and whether
    they are not those of a UNC path. *)
Definition join_slashes (firstPart : jsstr) : Z * bool :=
  if isPathSeparator (charCodeAt firstPart 0) then
    if (1 <? len firstPart) && isPathSeparator (charCodeAt firstPart 1) then
      if 2 <? len firstPart then
        if isPathSeparator (charCodeAt firstPart 2) then (3, true) else (2, false)
      else (2, true)
    else (1, true)
  else (0, true).

(** The non-empty parts between backslashes. *)
Fixpoint join_parts (joined part : jsstr) : list jsstr :=
  match joined with
  | [] => if bool_decide (part = []) then [] else [part]
  | c :: joined' =>
      if c =? CHAR_BACKWARD_SLASH then
        (if bool_decide (part = []) then [] else [part]) ++ join_parts joined' []
      else join_parts joined' (part ++ [c])
  end.

Fixpoint join_args (args : list jsval) : result (list jsstr) :=
  match args with
  | [] => Ok []
  | arg :: args' =>
      let* arg := validateString arg "path" in
      let* path := join_args args' in
      Ok (if 0 <? len arg then arg :: path else path)
  end.

Definition join (args : list jsval) : result jsstr :=
  match args with
  | [] => Ok "."
  | _ =>
      let* path := join_args args in
      match path with
      | [] => Ok "."
      | firstPart :: _ =>
          let joined := JsString.join bslash path in
          let '(slashCount, needsReplace) := join_slashes firstPart in
          let joined :=
            if needsReplace then
              let slashCount := skip_seps joined slashCount in
              if 2 <=? slashCount then bslash ++ slice_from joined slashCount else joined
            else joined in
          let reserved p :=
            let colonIndex := indexOf p ":" in
            negb (colonIndex =? -1) && isWindowsReservedName p colonIndex in
          if existsb reserved (join_parts joined []) then
            Ok ((fun c => if c =? CHAR_FORWARD_SLASH then CHAR_BACKWARD_SLASH else c) <$> joined)
          else normalize (VString joined)
      end
  end.

(** ** [relative] *)

(** The common parts of two split paths. *)
Fixpoint common_parts (from to : list jsstr) : Z :=
  match from, to with
  | f :: from', t :: to' =>
      if bool_decide (toLowerCase f = toLowerCase t) then 1 + common_parts from' to' else 0
  | _, _ => 0
  end.

Definition pop_empty (l : list jsstr) : list jsstr :=
  match last l with Some [] => removelast l | _ => l end.

(** [StringPrototypeRepeat(s, n)] *)
Fixpoint repeat_str (s : jsstr) (n : nat) : jsstr :=
  match n with O => [] | S n' => s ++ repeat_str s n' end.

(** When lower-casing changed a length: part by part. *)
Definition relative_split (fromOrig toOrig : jsstr) : jsstr :=
  let fromSplit := pop_empty (split fromOrig CHAR_BACKWARD_SLASH) in
  let toSplit := pop_empty (split toOrig CHAR_BACKWARD_SLASH) in
  let fromLen := Z.of_nat (length fromSplit) in
  let toLen := Z.of_nat (length toSplit) in
  let length := if fromLen <? toLen then fromLen else toLen in
  let i := common_parts fromSplit toSplit in
  let rest := JsString.join bslash (drop (Z.to_nat i) toSplit) in
  if i =? 0 then toOrig
  else if i =? length then
    if length <? toLen then rest
    else if length <? fromLen then
      repeat_str (".." ++ bslash) (Z.to_nat (fromLen - 1 - i)) ++ ".."
    else []
  else repeat_str (".." ++ bslash) (Z.to_nat (fromLen - i)) ++ rest.

Definition is_bslash (c : option Z) : bool := code_is c CHAR_BACKWARD_SLASH.

(** [while (end - 1 > start && path[end - 1] is a backslash) end--] *)
Fixpoint trim_end (path : jsstr) (start : Z) (n : nat) (stop : Z) : Z :=
  match n with
  | O => stop
  | S n' =>
      if (start <? stop - 1) && is_bslash (charCodeAt path (stop - 1))
      then trim_end path start n' (stop - 1) else stop
  end.

(** The comparison loop: [i] and [lastCommonSep]. *)
Fixpoint common_loop (from to : jsstr) (fromStart toStart : Z) (n : nat) (i lastCommonSep : Z)
    : Z * Z :=
  match n with
  | O => (i, lastCommonSep)
  | S n' =>
      let fromCode := charCodeAt from (fromStart + i) in
      if code_differs fromCode (charCodeAt to (toStart + i)) then (i, lastCommonSep)
      else common_loop from to fromStart toStart n' (i + 1)
             (if is_bslash fromCode then i else lastCommonSep)
  end.

(** One [..] per remaining part of [from]. *)
Fixpoint up_loop (from : jsstr) (fromEnd : Z) (n : nat) (i : Z) (out : jsstr) : jsstr :=
  match n with
  | O => out
  | S n' =>
      up_loop from fromEnd n' (i + 1)
        (if (i =? fromEnd) || is_bslash (charCodeAt from i)
         then out ++ (if len out =? 0 then (".." : jsstr) else bslash ++ "..") else out)
  end.

Definition relative_codes (fromOrig toOrig from to : jsstr) : jsstr :=
  let fromStart := skip_while is_bslash from (length from) 0 in
  let fromEnd := trim_end from fromStart (length from) (len from) in
  let fromLen := fromEnd - fromStart in
  let toStart := skip_while is_bslash to (length to) 0 in
  let toEnd := trim_end to toStart (length to) (len to) in
  let toLen := toEnd - toStart in
  let length := if fromLen <? toLen then fromLen else toLen in
  let '(i, lastCommonSep) := common_loop from to fromStart toStart (Z.to_nat length) 0 (-1) in
  let finish lastCommonSep :=
    let first := fromStart + lastCommonSep + 1 in
    let out := up_loop from fromEnd (Z.to_nat (fromEnd - first + 1)) first [] in
    let toStart := toStart + lastCommonSep in
    if 0 <? len out then out ++ slice toOrig toStart toEnd
    else
      let toStart := if is_bslash (charCodeAt toOrig toStart) then toStart + 1 else toStart in
      slice toOrig toStart toEnd in
  if negb (i =? length) then
    if lastCommonSep =? -1 then toOrig else finish lastCommonSep
  else if (length <? toLen) && is_bslash (charCodeAt to (toStart + i)) then
    slice_from toOrig (toStart + i + 1)
  else if (length <? toLen) && (i =? 2) then slice_from toOrig (toStart + i)
  else
    let lastCommonSep :=
      if length <? fromLen then
        if is_bslash (charCodeAt from (fromStart + i)) then i
        else if i =? 2 then 3 else lastCommonSep
      else lastCommonSep in
    finish (if lastCommonSep =? -1 then 0 else lastCommonSep).

Definition relative (from to : jsval) : result jsstr :=
  let* from := validateString from "from" in
  let* to := validateString to "to" in
  if bool_decide (from = to) then Ok []
  else
    let* fromOrig := resolve [VString from] in
    let* toOrig := resolve [VString to] in
    if bool_decide (fromOrig = toOrig) then Ok []
    else
      let from := toLowerCase fromOrig in
      let to := toLowerCase toOrig in
      if bool_decide (from = to) then Ok []
      else if negb (len fromOrig =? len from) || negb (len toOrig =? len to)
      then Ok (relative_split fromOrig toOrig)
      else Ok (relative_codes fromOrig toOrig from to).

Definition toNamespacedPath (path : jsval) : result jsval :=
  match path with
  | VString (c :: p) =>
      let* resolvedPath := resolve [path] in
      if len resolvedPath <=? 2 then Ok path
      else if is_bslash (charCodeAt resolvedPath 0) then
        if is_bslash (charCodeAt resolvedPath 1) &&
           negb (code_is (charCodeAt resolvedPath 2) CHAR_QUESTION_MARK) &&
           negb (code_is (charCodeAt resolvedPath 2) CHAR_DOT)
        then Ok (VString (bslash ++ bslash ++ "?" ++ bslash ++ "UNC" ++ bslash ++
                          slice_from resolvedPath 2))
        else Ok (VString resolvedPath)
      else if has_drive resolvedPath && is_bslash (charCodeAt resolvedPath 2)
      then Ok (VString (bslash ++ bslash ++ "?" ++ bslash ++ resolvedPath))
      else Ok (VString resolvedPath)
  | _ => Ok path
  end.
End Host.

(** ** Taking a path apart *)

(** [for (let i = len - 1; i >= offset; --i)]: [n] iterations remain. *)
Fixpoint dirname_loop (path : jsstr) (offset : Z) (n : nat) (matchedSlash : bool) : Z :=
  match n with
  | O => -1
  | S n' =>
      let i := offset + Z.of_nat n' in
      if isPathSeparator (charCodeAt path i) then
        if negb matchedSlash then i else dirname_loop path offset n' matchedSlash
      else dirname_loop path offset n' false
  end.

Definition dirname (path : jsval) : result jsstr :=
  let* path := validateString path "path" in
  if len path =? 0 then Ok "."
  else
    let code := charCodeAt path 0 in
    if len path =? 1 then Ok (if isPathSeparator code then path else ".")
    else
      (** [inl] is the early return of a bare UNC root. *)
      let root : jsstr + Z * Z :=
        if isPathSeparator code then
          if starts_unc path then
            match match_unc path with
            | Some (_, last, j) =>
                if j =? len path then inl path
                else if negb (j =? last) then inr (j + 1, j + 1) else inr (1, 1)
            | None => inr (1, 1)
            end
          else inr (1, 1)
        else if has_drive path then
          let rootEnd := if (2 <? len path) && isPathSeparator (charCodeAt path 2) then 3 else 2 in
          inr (rootEnd, rootEnd)
        else inr (-1, 0) in
      match root with
      | inl path => Ok path
      | inr (rootEnd, offset) =>
          let stop := dirname_loop path offset (Z.to_nat (len path - offset)) true in
          if stop =? -1 then Ok (if rootEnd =? -1 then "." else slice path 0 rootEnd)
          else Ok (slice path 0 stop)
      end.

(** [basename] without a suffix, down to [first]: [start], [end]. *)
Fixpoint basename_loop (path : jsstr) (first : Z) (n : nat) (stop : Z) (matchedSlash : bool)
    : Z * Z :=
  match n with
  | O => (first, stop)
  | S n' =>
      let i := first + Z.of_nat n' in
      if isPathSeparator (charCodeAt path i) then
        if negb matchedSlash then (i + 1, stop) else basename_loop path first n' stop matchedSlash
      else if stop =? -1 then basename_loop path first n' (i + 1) false
      else basename_loop path first n' stop matchedSlash
  end.

Fixpoint basename_suffix_loop (path suffix : jsstr) (first : Z) (n : nat)
    (stop extIdx firstNonSlashEnd : Z) (matchedSlash : bool) : Z * Z * Z :=
  match n with
  | O => (first, stop, firstNonSlashEnd)
  | S n' =>
      let i := first + Z.of_nat n' in
      let code := charCodeAt path i in
      if isPathSeparator code then
        if negb matchedSlash then (i + 1, stop, firstNonSlashEnd)
        else basename_suffix_loop path suffix first n' stop extIdx firstNonSlashEnd matchedSlash
      else
        let '(matchedSlash, firstNonSlashEnd) :=
          if firstNonSlashEnd =? -1 then (false, i + 1) else (matchedSlash, firstNonSlashEnd) in
        let '(extIdx, stop) :=
          if 0 <=? extIdx then
            if negb (code_differs code (charCodeAt suffix extIdx)) then
              (extIdx - 1, if extIdx - 1 =? -1 then i else stop)
            else (-1, firstNonSlashEnd)
          else (extIdx, stop) in
        basename_suffix_loop path suffix first n' stop extIdx firstNonSlashEnd matchedSlash
  end.

Definition basename (path : jsval) (suffix : option jsval) : result jsstr :=
  let* suffix :=
    match suffix with
    | None => Ok None
    | Some v => let* s := validateString v "suffix" in Ok (Some s)
    end in
  let* path := validateString path "path" in
  let first := if (2 <=? len path) && has_drive path then 2 else 0 in
  let count := Z.to_nat (len path - first) in
  let plain :=
    let '(start, stop) := basename_loop path first count (-1) true in
    if stop =? -1 then [] else slice path start stop in
  match suffix with
  | Some suffix =>
      if (0 <? len suffix) && (len suffix <=? len path) then
        if bool_decide (suffix = path) then Ok []
        else
          let '(start, stop, firstNonSlashEnd) :=
            basename_suffix_loop path suffix first count (-1) (len suffix - 1) (-1) true in
          let stop :=
            if start =? stop then firstNonSlashEnd
            else if stop =? -1 then len path else stop in
          Ok (slice path start stop)
      else Ok plain
  | None => Ok plain
  end.

(** The scan of [extname] and [parse]. *)
Record ext_scan := ExtScan {
  es_startDot : Z; es_startPart : Z; es_end : Z; es_preDotState : Z;
}.

Fixpoint ext_loop (path : jsstr) (first : Z) (n : nat) (matchedSlash : bool) (st : ext_scan)
    : ext_scan :=
  match n with
  | O => st
  | S n' =>
      let i := first + Z.of_nat n' in
      let code := charCodeAt path i in
      let '(ExtScan startDot startPart stop preDotState) := st in
      if isPathSeparator code then
        if negb matchedSlash then ExtScan startDot (i + 1) stop preDotState
        else ext_loop path first n' matchedSlash st
      else
        let '(matchedSlash, stop) :=
          if stop =? -1 then (false, i + 1) else (matchedSlash, stop) in
        let '(startDot, preDotState) :=
          if code_is code CHAR_DOT then
            if startDot =? -1 then (i, preDotState)
            else (startDot, if negb (preDotState =? 1) then 1 else preDotState)
          else if negb (startDot =? -1) then (startDot, -1)
          else (startDot, preDotState) in
        ext_loop path first n' matchedSlash (ExtScan startDot startPart stop preDotState)
  end.

Definition no_ext (st : ext_scan) : bool :=
  (es_startDot st =? -1) || (es_preDotState st =? 0) ||
  (es_preDotState st =? 1) && (es_startDot st =? es_end st - 1) &&
  (es_startDot st =? es_startPart st + 1).

Definition extname (path : jsval) : result jsstr :=
  let* path := validateString path "path" in
  let first := if (2 <=? len path) && has_drive path then 2 else 0 in
  let st := ext_loop path first (Z.to_nat (len path - first)) true (ExtScan (-1) first (-1) 0) in
  Ok (if no_ext st || (es_end st =? -1) then []
      else slice path (es_startDot st) (es_end st)).

(** The end of the root for [parse]; [None] is one of its early returns with
    [root] and [dir] the whole path. *)
Definition parse_root (path : jsstr) : option Z :=
  if isPathSeparator (charCodeAt path 0) then
    if starts_unc path then
      match match_unc path with
      | Some (_, last, j) =>
          if j =? len path then Some j else if negb (j =? last) then Some (j + 1) else Some 1
      | None => Some 1
      end
    else Some 1
  else if has_drive path then
    if len path <=? 2 then None
    else if isPathSeparator (charCodeAt path 2) then
      if len path =? 3 then None else Some 3
    else Some 2
  else Some 0.

Definition parse (path : jsval) : result pathObject :=
  let* path := validateString path "path" in
  if len path =? 0 then Ok (PathObject [] [] [] [] [])
  else if len path =? 1 then
    if isPathSeparator (charCodeAt path 0) then Ok (PathObject path path [] [] [])
    else Ok (PathObject [] [] path [] path)
  else
    match parse_root path with
    | None => Ok (PathObject path path [] [] [])
    | Some rootEnd =>
        let root := if 0 <? rootEnd then slice path 0 rootEnd else [] in
        let st := ext_loop path rootEnd (Z.to_nat (len path - rootEnd)) true
                    (ExtScan (-1) rootEnd (-1) 0) in
        let '(base, ext, name) :=
          if negb (es_end st =? -1) then
            if no_ext st then
              (slice path (es_startPart st) (es_end st), [], slice path (es_startPart st) (es_end st))
            else
              (slice path (es_startPart st) (es_end st), slice path (es_startDot st) (es_end st),
               slice path (es_startPart st) (es_startDot st))
          else ([], [], []) in
        let dir :=
          if (0 <? es_startPart st) && negb (es_startPart st =? rootEnd)
          then slice path 0 (es_startPart st - 1) else root in
        Ok (PathObject root dir base ext name)
    end.

Definition format : option pathObject -> result jsstr := _format bslash.

(** ASCII case mappings, for evaluation. *)
Definition ascii_upper (s : jsstr) : jsstr :=
  (fun c => if (97 <=? c) && (c <=? 122) then c - 32 else c) <$> s.
Definition ascii_lower (s : jsstr) : jsstr :=
  (fun c => if (65 <=? c) && (c <=? 90) then c + 32 else c) <$> s.

Example win32_resolve_ex :
  resolve ascii_lower (Ok "C:\w") (fun _ => None) true [VString "d:\x"; VString "D:y\..\z"]
  = Ok ("D:\x\z" : jsstr).
Proof. vm_compute. reflexivity. Qed.

Example win32_normalize_ex :
  normalize ascii_upper (VString "\\srv//share/a/../b/") = Ok ("\\srv\share\b\" : jsstr).
Proof. vm_compute. reflexivity. Qed.

Example win32_relative_ex :
  relative ascii_lower (Ok "C:\w") (fun _ => None) true
    (VString "C:\orandea\test\aaa") (VString "C:\orandea\impl\bbb") = Ok ("..\..\impl\bbb" : jsstr).
Proof. vm_compute. reflexivity. Qed.

Example win32_join_ex :
  join ascii_upper [VString "c:/a"; VString "..\b"] = Ok ("c:\b" : jsstr).
Proof. vm_compute. reflexivity. Qed.

Example win32_parse_ex :
  parse (VString "C:\path\dir\file.txt") = Ok (PathObject "C:\" "C:\path\dir" "file.txt" ".txt" "file").
Proof. vm_compute. reflexivity. Qed.

Example win32_dirname_ex : dirname (VString "\\s\sh\a\b") = Ok ("\\s\sh\a" : jsstr).
Proof. vm_compute. reflexivity. Qed.

End Win32.
