(* ===== verification/PathWin32Facts.v ===== *)
(** * [path.win32]: theorems

    [normalize] never turns a relative path into an absolute one, whatever
    colons, drives and device names the path contains. *)

From S2P Require Import Prelude JsString Path PathSpec PathWin32.
Import Win32.

(** ** Searching for a character *)

Lemma indexOf_at_hit c s : forall k, 0 <= k ->
  indexOf_at s [c] k = -1 \/
  (k <= indexOf_at s [c] k /\ charCodeAt s (indexOf_at s [c] k - k) = Some c).
Proof.
  induction s as [|x s IH]; intros k Hk; cbn [indexOf_at]; rewrite startsWith_single; [by left|].
  destruct (x =? c) eqn:E; bool_hyps.
  - right. split; [lia|]. by rewrite Z.sub_diag, E.
  - destruct (IH (k + 1)) as [->|[H1 H2]]; [lia|by left|]. right. split; [lia|].
    rewrite charCodeAt_cons by lia. by rewrite <- H2; f_equal; lia.
Qed.

Lemma indexOf_hit c s : 0 <= indexOf s [c] -> charCodeAt s (indexOf s [c]) = Some c.
Proof.
  rewrite !indexOf_start. intros H0.
  destruct (indexOf_at_hit c s 0 ltac:(lia)) as [E|[_ E]]; [lia|]. by rewrite Z.sub_0_r in E.
Qed.

Lemma indexOf_at_miss c s : forall k, 0 <= k ->
  indexOf_at s [c] k = -1 -> Forall (fun x => x <> c) s.
Proof.
  induction s as [|x s IH]; intros k Hk; cbn [indexOf_at]; rewrite startsWith_single; [constructor|].
  destruct (x =? c) eqn:E; bool_hyps; [lia|]. intros H. constructor; [done|].
  apply (IH (k + 1)); [lia|done].
Qed.

Lemma includes_miss c s : includes s [c] = false -> Forall (fun x => x <> c) s.
Proof.
  unfold includes. rewrite indexOf_start. intros H. bool_hyps. by apply (indexOf_at_miss c s 0).
Qed.

(** ** What the normalised tail is made of *)

Lemma Forall_seg_step (P : jsstr -> Prop) allow stk s :
  P dotdot -> P s -> Forall P stk -> Forall P (seg_step allow stk s).
Proof.
  intros Hd Hs HF. unfold seg_step. case_match; [done|]. case_match; [|by constructor].
  destruct HF as [|x stk Hx HF]; [|case_match]; try case_match; auto.
Qed.

Lemma Forall_norm_segs (P : jsstr -> Prop) allow segs :
  P dotdot -> Forall P segs -> Forall P (norm_segs allow segs).
Proof.
  intros Hd HF. unfold norm_segs, seg_fold. apply List.Forall_rev.
  assert (Forall P (@nil jsstr)) as HN by constructor. revert HN. generalize (@nil jsstr).
  induction HF as [|s segs Hs HF IH]; intros stk HS; [done|]. cbn [foldl].
  apply IH. by apply Forall_seg_step.
Qed.

Lemma Forall_split_by (Q : Z -> Prop) p s : forall acc,
  Forall Q acc -> Forall Q s -> Forall (Forall Q) (split_by p acc s).
Proof.
  induction s as [|c s IH]; intros acc Ha Hs; cbn [split_by]; [by repeat constructor|].
  apply Forall_cons in Hs as [Hc Hs]. destruct (p c); [constructor; [done|by apply IH; [constructor|]]|].
  apply IH; [|done]. apply Forall_app. by repeat constructor.
Qed.

Lemma Forall_join (Q : Z -> Prop) sep l : Forall Q sep -> Forall (Forall Q) l -> Forall Q (JsString.join sep l).
Proof.
  intros Hs HF. induction HF as [|x l Hx HF IH]; [constructor|]. destruct l as [|y l]; [done|].
  change (JsString.join sep (x :: y :: l)) with (x ++ sep ++ JsString.join sep (y :: l)). by rewrite !Forall_app.
Qed.

(** A colon in the tail is a colon of the path. *)
Lemma tail_no_colon path allow :
  Forall (fun c => c <> CHAR_COLON) path ->
  Forall (fun c => c <> CHAR_COLON) (normalizeString path allow bslash isPathSeparator).
Proof.
  intros H. rewrite normalizeString_win32. apply Forall_join; [by repeat constructor|].
  apply Forall_norm_segs; [by repeat constructor|]. by apply Forall_split_by.
Qed.

(** The tail does not begin with a separator. *)
Lemma tail_head path allow :
  isPathSeparator (head (normalizeString path allow bslash isPathSeparator)) = false.
Proof.
  rewrite normalizeString_win32.
  assert (Forall (fun s => s <> [] /\ sep_free isPathSeparator s)
            (norm_segs allow (segments isPathSeparator path))) as HF.
  { apply Forall_and. split.
    - destruct allow.
      + destruct (norm_segs_true_normal (segments isPathSeparator path)) as (k & rest & -> & HF).
        apply Forall_app. split; [by apply Forall_replicate|].
        eapply Forall_impl; [exact HF|]. by intros s [? _].
      + eapply Forall_impl; [apply norm_segs_false_plain|]. by intros s [? _].
    - apply Forall_norm_segs; [by repeat constructor|]. apply segments_sep_free. }
  destruct HF as [|x l [Hx Hf] HF]; [done|]. destruct x as [|c x]; [done|].
  apply Forall_cons in Hf as [Hc _]. by destruct l.
Qed.

(** ** Relative stays relative *)

Lemma isAbsolute_cons c s :
  isAbsolute (VString (c :: s)) =
  Ok (isPathSeparator (Some c) ||
      (2 <? len (c :: s)) && isWindowsDeviceRoot (Some c) &&
      code_is (charCodeAt (c :: s) 1) CHAR_COLON && isPathSeparator (charCodeAt (c :: s) 2)).
Proof.
  unfold isAbsolute. cbn [validateString result_bind].
  replace (len (c :: s) =? 0) with false by (symmetry; apply Z.eqb_neq; len_lia). done.
Qed.

(** A path that starts [.\ ] is not absolute. *)
Lemma dot_relative s : isAbsolute (VString ("." ++ bslash ++ s)) = Ok false.
Proof. change ("." ++ bslash ++ s) with (46 :: 92 :: s). rewrite isAbsolute_cons. by rewrite andb_false_r. Qed.

(** The tail after its two adjustments. *)
Definition norm_tail (path : jsstr) (rootEnd : Z) : jsstr :=
  let tail :=
    if rootEnd <? len path then
      normalizeString (slice_from path rootEnd) true bslash isPathSeparator else [] in
  let tail := if (len tail =? 0) && true then ("." : jsstr) else tail in
  if (0 <? len tail) && isPathSeparator (charCodeAt path (len path - 1)) then tail ++ bslash else tail.

Lemma norm_tail_head path rootEnd :
  exists c t, norm_tail path rootEnd = c :: t /\ isPathSeparator (Some c) = false.
Proof.
  unfold norm_tail. set (t0 := if rootEnd <? len path then _ else _).
  assert (isPathSeparator (head t0) = false) as H0.
  { unfold t0. destruct (_ <? _); [apply tail_head|done]. }
  rewrite andb_true_r, len_eqb_zero. case_bool_decide as E.
  - change (0 <? len ".") with true. cbn [andb]. by case_match; eexists _, _.
  - destruct t0 as [|c t]; [done|]. case_match; eauto.
Qed.

Lemma norm_tail_no_colon path :
  Forall (fun c => c <> CHAR_COLON) path -> Forall (fun c => c <> CHAR_COLON) (norm_tail path 0).
Proof.
  intros H. unfold norm_tail. rewrite slice_from_whole.
  set (t0 := if 0 <? len path then _ else _).
  assert (Forall (fun c => c <> CHAR_COLON) t0) as H0.
  { unfold t0. destruct (_ <? _); [by apply tail_no_colon|constructor]. }
  rewrite andb_true_r, len_eqb_zero. case_bool_decide; case_match; rewrite ?Forall_app;
    by repeat constructor.
Qed.

(** The root of a relative path. *)
Lemma normalize_root_relative up path :
  (2 <= length path)%nat -> isAbsolute (VString path) = Ok false ->
  (normalize_root up path = Root None false 0) \/
  (exists a b t, path = a :: b :: t /\ isPathSeparator (Some a) = false /\
     normalize_root up path = Root (Some [a; b]) false 2) \/
  (exists d e, normalize_root up path = Root (Some d) false e /\
     isWindowsReservedName up path (indexOf path ":") = true).
Proof.
  intros Hl Habs. destruct path as [|a [|b t]]; [cbn in Hl; lia..|].
  rewrite isAbsolute_cons in Habs. injection Habs as Habs. apply orb_false_iff in Habs as [Ha Hd].
  unfold normalize_root. change (charCodeAt (a :: b :: t) 0) with (Some a). rewrite Ha.
  destruct (0 <? indexOf _ ":") eqn:Ei; [|by left]. bool_hyps.
  destruct (isWindowsDeviceRoot (Some a) && (indexOf (a :: b :: t) ":" =? 1)) eqn:Er.
  - apply andb_true_iff in Er as [Er1 Er2]. bool_hyps. right. left.
    pose proof (indexOf_hit 58 (a :: b :: t) ltac:(lia)) as Hc.
    change [58] with (":" : jsstr) in Hc. rewrite Er2 in Hc.
    injection Hc as ->. cbn in Er1. rewrite Er1 in Hd. change (58 =? CHAR_COLON) with true in Hd.
    rewrite !andb_true_r in Hd. rewrite Hd. exists a, 58, t. split_and!; [done|done|].
    f_equal. f_equal. apply (slice_prefix [a; 58]). done.
  - destruct (isWindowsReservedName up _ _) eqn:Ew; [|by left]. right. right. eauto.
Qed.

(** C40. [win32.normalize] of a path that is not absolute returns a path that is
    not absolute: no combination of [..], colons, drive letters and reserved
    device names lets a relative path come out absolute, whatever the Unicode
    case mapping. *)
Theorem win32_normalize_keeps_relative up path :
  isAbsolute (VString path) = Ok false ->
  exists r, normalize up (VString path) = Ok r /\ isAbsolute (VString r) = Ok false.
Proof.
  intros Habs. destruct path as [|a [|b t]].
  - by exists ".".
  - exists [a]. split; [|done]. unfold normalize. cbn [validateString result_bind].
    rewrite isAbsolute_cons in Habs. apply (f_equal (fun r => negb (is_ok r) || bool_decide (r = Ok true))) in Habs.
    unfold isPathSeparator in Habs. change (charCodeAt [a] 0) with (Some a). unfold isPosixPathSeparator.
    destruct (code_is (Some a) CHAR_FORWARD_SLASH); [done|done].
  - set (path := a :: b :: t) in *.
    assert (2 <= length path)%nat as Hl by (cbn; lia).
    unfold normalize. cbn [validateString result_bind].
    replace (len path =? 0) with false by (symmetry; apply Z.eqb_neq; unfold path; len_lia).
    replace (len path =? 1) with false by (symmetry; apply Z.eqb_neq; unfold path; len_lia).
    destruct (normalize_root_relative up path Hl Habs)
      as [->|[(a' & b' & t' & Hp & Ha & ->)|(d & e & -> & Hres)]]; cbn [negb].
    + fold (norm_tail path 0).
      destruct (norm_tail_head path 0) as (c & tl & Et & Hc).
      rewrite bool_decide_eq_true_2 by done. cbn [andb].
      destruct (includes path ":" && _) eqn:E1; [eexists; split; [done|apply dot_relative]|].
      destruct (isWindowsReservedName up path _); [eexists; split; [done|apply dot_relative]|].
      eexists. split; [done|]. cbn [app]. rewrite Et, isAbsolute_cons, Hc. cbn [orb]. f_equal.
      apply andb_false_iff in E1 as [E1|E1].
      * apply includes_miss, norm_tail_no_colon in E1. rewrite Et in E1.
        apply Forall_cons in E1 as [_ E1]. destruct tl as [|x tl]; [by rewrite andb_false_r|].
        apply Forall_cons in E1 as [Hx _]. change (charCodeAt (c :: x :: tl) 1) with (Some x).
        cbn [code_is]. apply Z.eqb_neq in Hx. rewrite Hx. by rewrite andb_false_r.
      * apply orb_false_iff in E1 as [E1 _]. rewrite Et in E1. unfold has_drive in E1.
        change (charCodeAt (c :: tl) 0) with (Some c) in E1.
        apply andb_false_iff in E1 as [E1|E1].
        -- bool_hyps. replace (2 <? len (c :: tl)) with false by (symmetry; apply Z.ltb_ge; lia). done.
        -- apply andb_false_iff in E1 as [->|E1]; [by rewrite andb_false_r|].
           rewrite E1. by rewrite andb_false_r.
    + fold (norm_tail path 2). destruct (norm_tail_head path 2) as (c & tl & Et & Hc). rewrite Et.
      rewrite bool_decide_eq_false_2 by done. cbn [andb].
      destruct (isWindowsReservedName up path _); [eexists; split; [done|apply dot_relative]|].
      eexists. split; [done|]. cbn [app]. rewrite isAbsolute_cons, Ha.
      change (charCodeAt (a' :: b' :: c :: tl) 2) with (Some c). rewrite Hc. by rewrite andb_false_r.
    + rewrite bool_decide_eq_false_2 by done. cbn [andb]. rewrite Hres.
      eexists. split; [done|apply dot_relative].
Qed.

Lemma win32_normalize_keeps_relative_witness :
  exists r, normalize ascii_upper (VString "x\..\C:\Windows") = Ok r /\ isAbsolute (VString r) = Ok false.
Proof. apply (win32_normalize_keeps_relative ascii_upper "x\..\C:\Windows"). vm_compute. reflexivity. Defined.

(** Without a colon, [isWindowsReservedName] is asked about the path less its
    last character: an ordinary file name is taken for a device. *)
Lemma normalize_reserved_without_colon :
  normalize ascii_upper (VString "CONx") = Ok (".\CONx" : jsstr).
Proof. vm_compute. reflexivity. Qed.
