(* ===== verification/Realm.v ===== *)
(** * [internal/bootstrap/realm] (shim)

    Models [libjs/shims/internal/bootstrap/realm.js]: which requests name a
    module the binary carries, with and without the [node:] scheme, and the
    records of the public builtin loader.  The loaders above decide with these
    predicates whether a request may be answered without a file system. *)

From S2P Require Import Prelude JsString.

(** ** The tables *)

Definition builtinIds : list jsstr := [
  "assert"; "assert/strict"; "async_hooks"; "buffer"; "child_process";
  "cluster"; "console"; "constants"; "dgram"; "diagnostics_channel";
  "dns"; "dns/promises"; "domain"; "events"; "fs"; "fs/promises"; "http"; "https";
  "net"; "os"; "path"; "path/posix"; "path/win32"; "process";
  "querystring"; "readline"; "readline/promises"; "repl";
  "module";
  "crypto";
  "stream"; "stream/consumers"; "stream/promises"; "stream/web";
  "string_decoder"; "timers"; "timers/promises"; "tls"; "tty"; "url"; "util";
  "util/types"; "vm";
  "zlib"].

Definition vendoredIds : list jsstr := ["ws"].

Definition allRequirableIds : list jsstr := builtinIds ++ vendoredIds.

Definition builtinSet (id : jsstr) : bool := bool_decide (id ∈ builtinIds).
Definition allRequirableSet (id : jsstr) : bool := bool_decide (id ∈ allRequirableIds).

(** ** The static predicates of [BuiltinModule] *)

Definition node_scheme : jsstr := "node:".

Definition exists_ (id : jsstr) : bool := allRequirableSet id.
Definition canBeRequiredByUsers (id : jsstr) : bool := allRequirableSet id.
Definition canBeRequiredWithoutScheme (id : jsstr) : bool := builtinSet id.

Definition isBuiltin (id : jsstr) : bool :=
  if allRequirableSet id then true
  else if startsWith id node_scheme then allRequirableSet (slice_from id 5)
  else false.

Definition normalizeRequirableId (id : jsstr) : option jsstr :=
  if startsWith id node_scheme then
    let normalizedId := slice_from id 5 in
    if allRequirableSet normalizedId then Some normalizedId else None
  else if builtinSet id then Some id
  else None.

Definition getSchemeOnlyModuleNames : list jsstr := [].
Definition getAllBuiltinModuleIds : list jsstr := allRequirableIds.

(** ** A record of the public loader

    [compileForPublicLoader] loads through the bootstrap loader's [require],
    a computation [m] that may throw; the record changes only when it
    returns, except for [loading]. *)

Record builtin_module := BuiltinModule {
  bm_id : jsstr; bm_loaded : bool; bm_loading : bool; bm_exports : option jsval;
}.

Definition new_builtin (id : jsstr) : builtin_module := BuiltinModule id false false None.

Definition compileForPublicLoader (bootstrapRequire : jsstr -> result jsval)
    (m : builtin_module) : builtin_module * result unit :=
  if bm_loaded m then (m, Ok tt)
  else
    match bootstrapRequire (bm_id m) with
    | Throw e => (BuiltinModule (bm_id m) (bm_loaded m) true (bm_exports m), Throw e)
    | Ok v => (BuiltinModule (bm_id m) true false (Some v), Ok tt)
    end.

(** ** Facts *)

Lemma startsWith_app p s : startsWith (p ++ s) p = true.
Proof. induction p as [|c p IH]; [done|]. cbn. by rewrite Z.eqb_refl, IH. Qed.

Lemma startsWith_split s p : startsWith s p = true -> exists t, s = p ++ t.
Proof.
  revert s. induction p as [|c p IH]; intros s H; [by exists s|].
  destruct s as [|x s]; [done|]. cbn in H. apply andb_true_iff in H as [E H].
  apply Z.eqb_eq in E as ->. destruct (IH s H) as [t ->]. by exists t.
Qed.

Lemma node_scheme_slice s : slice_from (node_scheme ++ s) 5 = s.
Proof. by apply slice_suffix. Qed.

(** No requirable id carries the scheme. *)
Lemma requirable_no_scheme id : allRequirableSet id = true -> startsWith id node_scheme = false.
Proof.
  unfold allRequirableSet. intros H%bool_decide_eq_true.
  assert (Forall (fun i => startsWith i node_scheme = false) allRequirableIds) as HF.
  { apply Forall_forall. intros i Hi.
    assert (forallb (fun i => negb (startsWith i node_scheme)) allRequirableIds = true) as HB
      by (vm_compute; reflexivity).
    rewrite forallb_forall in HB. apply negb_true_iff, HB. by apply list_elem_of_In. }
  rewrite Forall_forall in HF. by apply HF.
Qed.

Lemma builtin_requirable id : builtinSet id = true -> allRequirableSet id = true.
Proof.
  unfold builtinSet, allRequirableSet. rewrite !bool_decide_eq_true.
  unfold allRequirableIds. rewrite elem_of_app. by left.
Qed.

(** A normalised id is requirable, and requirable without normalising again
    exactly when it is a builtin. *)
Lemma normalize_requirable id n :
  normalizeRequirableId id = Some n -> allRequirableSet n = true.
Proof.
  unfold normalizeRequirableId. destruct (startsWith id node_scheme).
  - destruct (allRequirableSet _) eqn:E; [|done]. by intros [= <-].
  - destruct (builtinSet id) eqn:E; [|done]. intros [= <-]. by apply builtin_requirable.
Qed.

(** Whatever normalises is a builtin in the sense of [isBuiltin]. *)
Lemma normalize_isBuiltin id n : normalizeRequirableId id = Some n -> isBuiltin id = true.
Proof.
  unfold normalizeRequirableId, isBuiltin. destruct (startsWith id node_scheme) eqn:Es.
  - destruct (allRequirableSet (slice_from id 5)); [|done]. by destruct (allRequirableSet id).
  - destruct (builtinSet id) eqn:E; [|done]. by rewrite builtin_requirable.
Qed.
