(* ===== verification/BootLoader.v ===== *)
(** * The bootstrap module loader

    Models [libjs/loader.js]: the CommonJS loader that serves the embedded
    modules, is [globalThis.require], and backs Node's own loader as a
    fallback.  Its state is the module cache (ids to module records, which
    are shared objects), the [diskLoadingClosed] flag and the records
    themselves; a trace records every module body started and every file
    read.  A module body is arbitrary JavaScript: it is a tree of the actions
    the loader can observe, each continued with the loader's answer. *)

From S2P Require Import Prelude JsString Path Realm.

Module Boot.

(** ** Data *)

(** What a module body does to the loader: [Done] returns, [Fail] throws, and
    the other actions continue with the answer (an exception included, so a
    body may catch it). *)
Inductive body :=
  | Done
  | Fail (e : jserror)
  | Require (name : jsstr) (k : result jsval -> body)
  | RequireResolve (name : jsstr) (k : jsstr -> body)
  | GlobalRequire (name : jsstr) (k : result jsval -> body)
  | SetExports (v : jsval) (k : body)
  | CloseDisk (k : body).

(** [{ id, exports, loaded, filename }] *)
Record module_ := Mod {
  m_id : jsstr; m_exports : jsval; m_loaded : bool; m_filename : jsstr;
}.

Inductive event :=
  | EvExec (id : jsstr)
  | EvRead (path : jsstr).

Record state := State {
  cache : gmap jsstr positive;
  heap : gmap positive module_;
  next : positive;
  diskLoadingClosed : bool;
  trace : list event;
}.

(** The arguments of [setup], and the vendored package data. *)
Record natives := Natives {
  loadBytecodeModule : jsstr -> option body;
  readFileSync : jsstr -> result jsstr;
  compileAndRun : jsstr -> jsstr -> bool -> result body;
  vendoredPackages : gmap jsstr jsstr;
  vendoredIdSet : gset jsstr;
}.

(** [vendoredPackages] is an object literal, so a lookup also finds the
    properties its prototype gives it; those are functions (or an object),
    never strings. *)
Definition objectPrototypeKeys : list jsstr := [
  "constructor"; "__proto__"; "__defineGetter__"; "__defineSetter__";
  "__lookupGetter__"; "__lookupSetter__"; "hasOwnProperty"; "isPrototypeOf";
  "propertyIsEnumerable"; "toLocaleString"; "toString"; "valueOf"].

Inductive package_ref :=
  | Own (vendoredId : jsstr)
  | Inherited.

(** [vendoredPackages[name]] when it is truthy. *)
Definition package_lookup (packages : gmap jsstr jsstr) (name : jsstr) : option package_ref :=
  match packages !! name with
  | Some [] => None
  | Some vendoredId => Some (Own vendoredId)
  | None => if bool_decide (name ∈ objectPrototypeKeys) then Some Inherited else None
  end.

(** The outcome of running loader code: [None] is fuel exhausted. *)
Definition outcome (A : Type) : Type := option (state * result A).

(** ** State updates *)

Definition log (ev : event) (st : state) : state :=
  State (cache st) (heap st) (next st) (diskLoadingClosed st) (trace st ++ [ev]).

Definition set_cache (id : jsstr) (m : positive) (st : state) : state :=
  State (<[id := m]> (cache st)) (heap st) (next st) (diskLoadingClosed st) (trace st).

Definition close_disk (st : state) : state :=
  State (cache st) (heap st) (next st) true (trace st).

Definition update_mod (m : positive) (f : module_ -> module_) (st : state) : state :=
  State (cache st) (alter f m (heap st)) (next st) (diskLoadingClosed st) (trace st).

(** A fresh record whose [exports] is a fresh object. *)
Definition alloc_mod (id filename : jsstr) (st : state) : positive * state :=
  let m := next st in
  (m, State (cache st) (<[m := Mod id (VObject m) false filename]> (heap st))
        (Pos.succ m) (diskLoadingClosed st) (trace st)).

(** [mod.exports] of a record. *)
Definition exports_of (m : positive) (st : state) : jsval :=
  match heap st !! m with Some r => m_exports r | None => VUndefined end.

(** ** Path arithmetic *)

(** [lastSlash >= 0 ? filepath.substring(0, lastSlash) : '.'] *)
Definition dir_of (filepath : jsstr) : jsstr :=
  let lastSlash := lastIndexOf filepath "/" in
  if 0 <=? lastSlash then substring filepath 0 lastSlash else ".".

Fixpoint resolve_parts (parts relParts : list jsstr) : list jsstr :=
  match relParts with
  | [] => parts
  | p :: relParts' =>
      if bool_decide (p = "..") then resolve_parts (removelast parts) relParts'
      else if negb (bool_decide (p = ".")) && negb (bool_decide (p = []))
      then resolve_parts (parts ++ [p]) relParts'
      else resolve_parts parts relParts'
  end.

Definition resolvePath (base relative : jsstr) : jsstr :=
  join "/" (resolve_parts (split base CHAR_FORWARD_SLASH)
                          (split relative CHAR_FORWARD_SLASH)).

Section Loader.
Variable env : natives.

(** [probeFile]: closed, it answers without reading. *)
Definition probeFile (p : jsstr) (st : state) : state * bool :=
  if diskLoadingClosed st then (st, false)
  else (log (EvRead p) st, is_ok (readFileSync env p)).

(** The first candidate that can be read, else the default. *)
Fixpoint probe_first (candidates : list jsstr) (default : jsstr) (st : state) : state * jsstr :=
  match candidates with
  | [] => (st, default)
  | p :: candidates' =>
      let '(st, found) := probeFile p st in
      if found then (st, p) else probe_first candidates' default st
  end.

Definition has_ext (base : jsstr) : bool :=
  (3 <? len base) &&
  (let ext := substring base (len base - 3) (len base) in
   bool_decide (ext = ".js") || bool_decide (ext = ".ts")).

Definition resolveRelative (fromDir name : jsstr) (st : state) : state * jsstr :=
  let base := resolvePath fromDir name in
  if has_ext base then (st, base)
  else probe_first [base ++ ".js"; base ++ ".ts"; base ++ "/index.js"; base ++ "/index.ts"]
         (base ++ ".js") st.

Definition resolveVendoredRelative (fromDir name : jsstr) : jsstr :=
  let base := resolvePath fromDir name in
  if bool_decide (base ∈ vendoredIdSet env) then base
  else
    let indexId := base ++ "/index" in
    if bool_decide (indexId ∈ vendoredIdSet env) then indexId else base.

(** The resolution [makeRequire(fromFilepath)] does for a relative name. *)
Definition resolve_from (fromFilepath name : jsstr) (st : state) : state * jsstr :=
  let fromDir := dir_of fromFilepath in
  if bool_decide (substring fromDir 0 9 = "vendored/")
  then (st, resolveVendoredRelative fromDir name)
  else resolveRelative fromDir name st.

Definition is_relative (name : jsstr) : bool := bool_decide (charAt name 0 = ".").

(** [require.resolve] of the bound [require]. *)
Definition require_resolve (fromFilepath name : jsstr) (st : state) : state * jsstr :=
  if is_relative name then resolve_from fromFilepath name st else (st, name).

(** ** Source text of a disk module *)

Definition stripShebang (source : jsstr) : jsstr :=
  if (2 <=? len source) && bool_decide (charAt source 0 = "#") &&
     bool_decide (charAt source 1 = "!") then
    let nl := indexOf source [10] in
    if 0 <=? nl then slice_from source nl else []
  else source.

Definition wrap_module (source filepath : jsstr) : jsstr :=
  "(function(exports, require, module, __filename, __dirname) {" ++ source ++
  [10] ++ "});" ++ [10] ++ "//# sourceURL=" ++ filepath ++ [10].

Definition is_ts (filepath : jsstr) : bool :=
  (3 <? len filepath) &&
  bool_decide (substring filepath (len filepath - 3) (len filepath) = ".ts").

Definition MODULE_NOT_FOUND (request : jsstr) : jserror :=
  JsError "MODULE_NOT_FOUND" [request].

(** Where the code of a module comes from: the embedded bytecode, or, while
    the world is open, the disk. *)
Definition find_code (id filepath : jsstr) (st : state) : state * result body :=
  match loadBytecodeModule env id with
  | Some fn => (st, Ok fn)
  | None =>
      if diskLoadingClosed st then (st, Throw (MODULE_NOT_FOUND id))
      else
        let st := log (EvRead filepath) st in
        (st, let* source := readFileSync env filepath in
             compileAndRun env (wrap_module (stripShebang source) filepath)
               filepath (is_ts filepath))
  end.

(** [loadModule] handed a value that is not a string: no bytecode is found,
    and [readFileSync] rejects the path. *)
Definition load_non_string (name : jsstr) (st : state) : jserror :=
  if diskLoadingClosed st then MODULE_NOT_FOUND name
  else JsError [] ["readFileSync: path must be a string"].

(** ** Running a module body

    [req] and [greq] are the [require] bound to the module's file and the
    global one. *)
Fixpoint exec (req greq : jsstr -> state -> outcome jsval)
    (res : jsstr -> state -> state * jsstr) (m : positive) (b : body) (st : state)
    : outcome unit :=
  match b with
  | Done => Some (st, Ok tt)
  | Fail e => Some (st, Throw e)
  | Require name k =>
      match req name st with
      | None => None
      | Some (st, r) => exec req greq res m (k r) st
      end
  | RequireResolve name k =>
      let '(st, p) := res name st in exec req greq res m (k p) st
  | GlobalRequire name k =>
      match greq name st with
      | None => None
      | Some (st, r) => exec req greq res m (k r) st
      end
  | SetExports v k =>
      exec req greq res m k
        (update_mod m (fun r => Mod (m_id r) v (m_loaded r) (m_filename r)) st)
  | CloseDisk k => exec req greq res m k (close_disk st)
  end.

(** ** The loader proper

    [load] stands for [loadModule] at the recursion depth that remains. *)

(** The name without its [node:] prefix. *)
Definition bare_name (name : jsstr) : jsstr :=
  if bool_decide (substring name 0 5 = node_scheme) then slice_from name 5 else name.

Section WithLoad.
Variable load : jsstr -> jsstr -> state -> outcome positive.

Definition exports_after (o : outcome positive) : outcome jsval :=
  match o with
  | None => None
  | Some (st, Ok m) => Some (st, Ok (exports_of m st))
  | Some (st, Throw e) => Some (st, Throw e)
  end.

(** [requireModule(name)] *)
Definition requireModule_with (name : jsstr) (st : state) : outcome jsval :=
  let bareName := bare_name name in
  match cache st !! bareName with
  | Some m => Some (st, Ok (exports_of m st))
  | None =>
      match package_lookup (vendoredPackages env) bareName with
      | Some (Own vendoredId) =>
          match load vendoredId vendoredId st with
          | Some (st, Ok m) =>
              let st := set_cache bareName m st in Some (st, Ok (exports_of m st))
          | o => exports_after o
          end
      | Some Inherited => Some (st, Throw (load_non_string bareName st))
      | None => exports_after (load bareName bareName st)
      end
  end.

(** The [require] of [makeRequire(fromFilepath)]. *)
Definition require_with (fromFilepath name : jsstr) (st : state) : outcome jsval :=
  if is_relative name then
    let '(st, resolvedPath) := resolve_from fromFilepath name st in
    match cache st !! resolvedPath with
    | Some m => Some (st, Ok (exports_of m st))
    | None => exports_after (load resolvedPath resolvedPath st)
    end
  else requireModule_with name st.
End WithLoad.

(** [loadModule(id, filepath)]: at most [fuel] nested loads. *)
Fixpoint loadModule (fuel : nat) (id filepath : jsstr) (st : state) : outcome positive :=
  match fuel with
  | O => None
  | S fuel =>
      let '(st, code) := find_code id filepath st in
      match code with
      | Throw e => Some (st, Throw e)
      | Ok compiledFn =>
          let '(m, st) := alloc_mod id filepath st in
          let st := set_cache id m st in
          let st := log (EvExec id) st in
          match exec (require_with (loadModule fuel) filepath)
                     (requireModule_with (loadModule fuel))
                     (require_resolve filepath) m compiledFn st with
          | None => None
          | Some (st, Throw e) => Some (st, Throw e)
          | Some (st, Ok _) =>
              Some (update_mod m (fun r => Mod (m_id r) (m_exports r) true (m_filename r)) st,
                    Ok m)
          end
      end
  end.

Definition requireModule (fuel : nat) : jsstr -> state -> outcome jsval :=
  requireModule_with (loadModule fuel).

(** The wrapper [__initCJS] puts around [Module._load]: a request Node's
    loader cannot find is looked up here before the error is rethrown. *)
Definition cjs_load (fuel : nat) (origLoad : jsstr -> state -> outcome jsval)
    (request : jsstr) (st : state) : outcome jsval :=
  match origLoad request st with
  | None => None
  | Some (st, Ok v) => Some (st, Ok v)
  | Some (st, Throw e) =>
      if bool_decide (err_code e = "MODULE_NOT_FOUND") then
        match cache st !! request with
        | Some m => Some (st, Ok (exports_of m st))
        | None =>
            if bool_decide (is_Some (loadBytecodeModule env request)) then
              requireModule fuel request st
            else if bool_decide (is_Some (package_lookup (vendoredPackages env) request)) then
              requireModule fuel request st
            else Some (st, Throw e)
        end
      else Some (st, Throw e)
  end.
End Loader.

Definition init : state := State ∅ ∅ 1%positive false [].

End Boot.
