(* ===== verification/BootLoaderFacts.v ===== *)
(** * What the bootstrap loader guarantees

    Every run of the loader is a sequence of primitive steps ([step]); the
    invariants are proved by induction on those sequences.  The closed world,
    the at-most-once execution of a module body, the stability of a cached
    module and the termination of [require] follow. *)

From S2P Require Import Prelude JsString Path Realm BootLoader.

Import Boot.

(** ** Runs as sequences of steps *)

Section Runs.
Variable env : natives.

(** The id of a vendored package's entry module. *)
Definition vendored_entry (id : jsstr) : Prop :=
  exists name, package_lookup (vendoredPackages env) name = Some (Own id).

Definition vendored_name (name : jsstr) : Prop :=
  exists id, package_lookup (vendoredPackages env) name = Some (Own id).

Inductive step : state -> state -> Prop :=
  | step_read p st :
      diskLoadingClosed st = false -> step st (log (EvRead p) st)
  | step_load id filepath st m st' :
      cache st !! id = None \/ vendored_entry id ->
      alloc_mod id filepath st = (m, st') ->
      step st (log (EvExec id) (set_cache id m st'))
  | step_alias name m st :
      vendored_name name -> is_Some (heap st !! m) -> step st (set_cache name m st)
  | step_exports m v st :
      step st (update_mod m (fun r => Mod (m_id r) v (m_loaded r) (m_filename r)) st)
  | step_loaded m st :
      step st (update_mod m (fun r => Mod (m_id r) (m_exports r) true (m_filename r)) st)
  | step_close st : step st (close_disk st).

Definition steps : state -> state -> Prop := rtc step.

(** A computation from [st] whose run is a sequence of steps, and whose
    result satisfies [Q]. *)
Definition runs {A} (st : state) (o : outcome A) (Q : state -> result A -> Prop) : Prop :=
  match o with
  | None => True
  | Some (st', r) => steps st st' /\ Q st' r
  end.

Lemma steps_one st st' : step st st' -> steps st st'.
Proof. apply rtc_once. Qed.

Lemma probeFile_steps p st st' b : probeFile env p st = (st', b) -> steps st st'.
Proof.
  unfold probeFile. destruct (diskLoadingClosed st) eqn:E; intros [= <- <-].
  - apply rtc_refl.
  - by apply steps_one, step_read.
Qed.

Lemma probe_first_steps l d : forall st st' p, probe_first env l d st = (st', p) -> steps st st'.
Proof.
  induction l as [|c l IH]; intros st st' p; cbn; [intros [= <- <-]; apply rtc_refl|].
  destruct (probeFile env c st) as [st1 b] eqn:E. apply probeFile_steps in E.
  destruct b; [by intros [= <- <-]|]. intros ?%IH. by etransitivity.
Qed.

Lemma resolve_from_steps f n st st' p : resolve_from env f n st = (st', p) -> steps st st'.
Proof.
  unfold resolve_from, resolveRelative.
  case_bool_decide; [intros [= <- <-]; apply rtc_refl|].
  destruct (has_ext _); [intros [= <- <-]; apply rtc_refl|]. apply probe_first_steps.
Qed.

Lemma require_resolve_steps f n st st' p : require_resolve env f n st = (st', p) -> steps st st'.
Proof.
  unfold require_resolve. destruct (is_relative n); [apply resolve_from_steps|].
  intros [= <- <-]. apply rtc_refl.
Qed.

Lemma find_code_steps id f st st' c :
  find_code env id f st = (st', c) -> steps st st' /\ cache st' = cache st.
Proof.
  unfold find_code. destruct (loadBytecodeModule env id).
  { intros [= <- <-]. split; [apply rtc_refl|done]. }
  destruct (diskLoadingClosed st) eqn:E; intros [= <- <-].
  - split; [apply rtc_refl|done].
  - split; [by apply steps_one, step_read|done].
Qed.

Lemma runs_after {A} st st1 (o : outcome A) Q :
  steps st st1 -> runs st1 o Q -> runs st o Q.
Proof.
  intros H. unfold runs. destruct o as [[st2 r]|]; [|done].
  intros [H2 ?]. split; [by etransitivity|done].
Qed.

Lemma runs_now {A} st (r : result A) (Q : state -> result A -> Prop) :
  Q st r -> runs st (Some (st, r)) Q.
Proof. intros. split; [apply rtc_refl|done]. Qed.

Lemma runs_bind {A B} st (o : outcome A) (k : state -> result A -> outcome B) P Q :
  runs st o P ->
  (forall st1 r, steps st st1 -> P st1 r -> runs st1 (k st1 r) Q) ->
  runs st (match o with None => None | Some (st1, r) => k st1 r end) Q.
Proof.
  intros Ho Hk. destruct o as [[st1 r]|]; [|done]. destruct Ho as [H1 HP].
  eapply runs_after; [exact H1|]. by apply Hk.
Qed.

Lemma exec_runs req greq res m b :
  (forall n st, runs st (req n st) (fun _ _ => True)) ->
  (forall n st, runs st (greq n st) (fun _ _ => True)) ->
  (forall n st st' p, res n st = (st', p) -> steps st st') ->
  forall st, runs st (exec req greq res m b st) (fun _ _ => True).
Proof.
  intros Hreq Hgreq Hres.
  induction b as [|e|n k IH|n k IH|n k IH|v b IH|b IH]; intros st; cbn [exec].
  - by apply runs_now.
  - by apply runs_now.
  - eapply runs_bind; [apply Hreq|auto].
  - destruct (res n st) as [st1 p] eqn:E. eapply runs_after; [by eapply Hres|apply IH].
  - eapply runs_bind; [apply Hgreq|auto].
  - eapply runs_after; [apply steps_one, step_exports|apply IH].
  - eapply runs_after; [apply steps_one, step_close|apply IH].
Qed.

(** Records are never dropped. *)
Lemma step_heap st st' m : step st st' -> is_Some (heap st !! m) -> is_Some (heap st' !! m).
Proof.
  intros Hs Hm. destruct Hs as [| id f st m' st' _ Ha | | | |]; cbn; try done.
  - injection Ha as <- <-. cbn. destruct (decide (next st = m)) as [->|].
    + by rewrite lookup_insert_eq.
    + by rewrite lookup_insert_ne.
  - rewrite lookup_alter. case_decide; [subst; by apply fmap_is_Some|done].
  - rewrite lookup_alter. case_decide; [subst; by apply fmap_is_Some|done].
Qed.

Lemma steps_heap st st' m : steps st st' -> is_Some (heap st !! m) -> is_Some (heap st' !! m).
Proof. induction 1; eauto using step_heap. Qed.

Definition has_record (st : state) (r : result positive) : Prop :=
  forall m, r = Ok m -> is_Some (heap st !! m).

Lemma exports_after_runs st o :
  runs st o has_record -> runs st (exports_after o) (fun _ _ => True).
Proof. by destruct o as [[st1 [m|e]]|]; [intros [? _]..|]. Qed.

Section WithLoad.
Variable load : jsstr -> jsstr -> state -> outcome positive.
Hypothesis load_runs : forall id f st,
  cache st !! id = None \/ vendored_entry id -> runs st (load id f st) has_record.

Lemma requireModule_with_runs n st :
  runs st (requireModule_with env load n st) (fun _ _ => True).
Proof.
  unfold requireModule_with. set (b := bare_name n).
  destruct (cache st !! b) eqn:Ec; [by apply runs_now|].
  destruct (package_lookup (vendoredPackages env) b) as [[vid|]|] eqn:Ep.
  - assert (vendored_entry vid) as Hv by by exists b.
    pose proof (load_runs vid vid st (or_intror Hv)) as H.
    destruct (load vid vid st) as [[st1 [m|e]]|]; [|by destruct H as [? _]|done].
    destruct H as [H1 Hm]. split; [|done]. etransitivity; [exact H1|].
    apply steps_one, step_alias; [by exists vid|by apply Hm].
  - by apply runs_now.
  - apply exports_after_runs, load_runs. by left.
Qed.

Lemma require_with_runs f n st :
  runs st (require_with env load f n st) (fun _ _ => True).
Proof.
  unfold require_with. destruct (is_relative n); [|apply requireModule_with_runs].
  destruct (resolve_from env f n st) as [st1 p] eqn:E.
  eapply runs_after; [by eapply resolve_from_steps|].
  destruct (cache st1 !! p) eqn:Ec; [by apply runs_now|].
  apply exports_after_runs, load_runs. by left.
Qed.
End WithLoad.

Lemma loadModule_runs fuel : forall id f st,
  cache st !! id = None \/ vendored_entry id ->
  runs st (loadModule env fuel id f st) has_record.
Proof.
  induction fuel as [|fuel IH]; intros id f st Hid; [done|]. cbn [loadModule].
  destruct (find_code env id f st) as [st1 code] eqn:Ef.
  apply find_code_steps in Ef as [H1 Hc]. eapply runs_after; [exact H1|].
  destruct code as [fn|e]; [|by apply runs_now].
  destruct (alloc_mod id f st1) as [m st2] eqn:Ea.
  assert (step st1 (log (EvExec id) (set_cache id m st2))) as Hstep.
  { eapply step_load; [|exact Ea]. by rewrite Hc. }
  eapply runs_after; [by apply steps_one|].
  assert (is_Some (heap (log (EvExec id) (set_cache id m st2)) !! m)) as Hm.
  { injection Ea as <- <-. cbn. by rewrite lookup_insert_eq. }
  set (st3 := log _ _) in *.
  pose proof (exec_runs (require_with env (loadModule env fuel) f)
               (requireModule_with env (loadModule env fuel)) (require_resolve env f) m fn) as Hx.
  specialize (Hx (require_with_runs _ IH f) (requireModule_with_runs _ IH)
                (require_resolve_steps f) st3).
  destruct (exec _ _ _ _ _ _) as [[st4 [[]|e]]|]; [| |done]; destruct Hx as [H4 _].
  - split; [etransitivity; [exact H4|apply steps_one, step_loaded]|].
    intros ? [= <-]. eapply step_heap; [apply step_loaded|]. by eapply steps_heap.
  - by split.
Qed.

(** Every run of [require] is a sequence of steps. *)
Lemma requireModule_steps fuel n st st' r :
  requireModule env fuel n st = Some (st', r) -> steps st st'.
Proof.
  intros E. pose proof (requireModule_with_runs _ (loadModule_runs fuel) n st) as H.
  unfold requireModule in E. rewrite E in H. apply H.
Qed.
End Runs.

(** ** Invariants *)

(** The files read and the bodies started, in order. *)
Definition reads (tr : list event) : list jsstr :=
  omap (fun e => match e with EvRead p => Some p | _ => None end) tr.

Definition execs (tr : list event) : list jsstr :=
  omap (fun e => match e with EvExec id => Some id | _ => None end) tr.

(** How often the body of [id] has been started. *)
Definition runs_of (id : jsstr) (st : state) : nat :=
  length (filter (fun x => x = id) (execs (trace st))).

Section Invariants.
Variable env : natives.

(** A program using the loader: requires in any order, and the closing of the
    world. *)
Inductive session : state -> Prop :=
  | session_init : session init
  | session_require st fuel name st' r :
      session st -> requireModule env fuel name st = Some (st', r) -> session st'
  | session_close st : session st -> session (close_disk st).

Lemma session_steps st : session st -> steps env init st.
Proof.
  induction 1 as [|st fuel name st' r _ IH E|st _ IH].
  - apply rtc_refl.
  - etransitivity; [exact IH|]. by eapply requireModule_steps.
  - etransitivity; [exact IH|]. apply steps_one, step_close.
Qed.

Lemma reads_snoc tr e : reads (tr ++ [e]) = reads tr ++ reads [e].
Proof. apply omap_app. Qed.

Lemma execs_snoc tr e : execs (tr ++ [e]) = execs tr ++ execs [e].
Proof. apply omap_app. Qed.

Lemma step_closed st st' :
  step env st st' -> diskLoadingClosed st = true ->
  diskLoadingClosed st' = true /\ reads (trace st') = reads (trace st).
Proof.
  intros Hs Hc. destruct Hs as [p st Ho|id f st m st' _ Ha| | | |]; cbn; try done.
  - congruence.
  - injection Ha as <- <-. cbn. rewrite reads_snoc, app_nil_r. done.
Qed.

Lemma steps_closed st st' :
  steps env st st' -> diskLoadingClosed st = true ->
  diskLoadingClosed st' = true /\ reads (trace st') = reads (trace st).
Proof.
  induction 1 as [|st st1 st2 H1 _ IH]; [done|]. intros Hc.
  destruct (step_closed _ _ H1 Hc) as [Hc1 E1]. destruct (IH Hc1) as [Hc2 E2].
  split; [done|]. by rewrite E2.
Qed.

(** Bodies started are cached, and none but a vendored entry twice. *)
Definition once (st : state) : Prop :=
  (forall id, (0 < runs_of id st)%nat -> is_Some (cache st !! id)) /\
  (forall id, ~ vendored_entry env id -> (runs_of id st <= 1)%nat).

Lemma runs_of_log_exec id id' st :
  runs_of id (log (EvExec id') st) = (runs_of id st + if decide (id' = id) then 1 else 0)%nat.
Proof.
  unfold runs_of. cbn. rewrite execs_snoc, filter_app, length_app. f_equal.
  change (execs [EvExec id']) with [id']. rewrite filter_cons.
  by destruct (decide (id' = id)).
Qed.

Lemma runs_of_log_read id p st : runs_of id (log (EvRead p) st) = runs_of id st.
Proof. unfold runs_of. cbn. by rewrite execs_snoc, app_nil_r. Qed.

Lemma step_once st st' : step env st st' -> once st -> once st'.
Proof.
  intros Hs [H1 H2].
  destruct Hs as [p st Ho|id f st m st' Hid Ha|name m st _ _| | |]; try by split.
  - split; intros id; rewrite runs_of_log_read; auto.
  - injection Ha as <- <-. split; intros id'; rewrite runs_of_log_exec.
    + destruct (decide (id = id')) as [->|Hd]; [by intros _; cbn; rewrite lookup_insert_eq|].
      rewrite Nat.add_0_r. intros Hpos. cbn. rewrite lookup_insert_ne by done. by apply H1.
    + intros Hn. specialize (H2 id' Hn). specialize (H1 id').
      change (runs_of id' (set_cache _ _ _)) with (runs_of id' st).
      destruct (decide (id = id')) as [->|Hd]; [|lia]. destruct Hid as [Hid|?]; [|done].
      destruct (runs_of id' st); [lia|]. destruct H1 as [? ?]; [lia|congruence].
  - split; intros id; unfold runs_of in *; cbn in *; [|auto].
    intros Hpos. rewrite lookup_insert. case_decide; [done|auto].
Qed.

Lemma steps_once st st' : steps env st st' -> once st -> once st'.
Proof. induction 1; eauto using step_once. Qed.

Lemma once_init : once init.
Proof. split; intros id; unfold runs_of; cbn; lia. Qed.

(** A cached module stays the module of its id. *)
Lemma step_cache st st' id m :
  step env st st' -> ~ vendored_entry env id -> ~ vendored_name env id ->
  cache st !! id = Some m -> cache st' !! id = Some m.
Proof.
  intros Hs He Hn Hc. destruct Hs as [|id' f st m' st' Hid Ha|name m' st Hname _| | |]; try done.
  - injection Ha as <- <-. cbn. rewrite lookup_insert_ne; [done|].
    intros ->. destruct Hid; [congruence|done].
  - cbn. rewrite lookup_insert_ne; [done|]. by intros ->.
Qed.

Lemma steps_cache st st' id m :
  steps env st st' -> ~ vendored_entry env id -> ~ vendored_name env id ->
  cache st !! id = Some m -> cache st' !! id = Some m.
Proof. induction 1; eauto using step_cache. Qed.

(** The set of cached ids only grows. *)
Lemma step_dom st st' : step env st st' -> dom (cache st) ⊆ dom (cache st').
Proof.
  intros Hs. destruct Hs as [|id f st m st' _ Ha| | | |]; cbn; try done.
  - injection Ha as <- <-. cbn. rewrite dom_insert_L. set_solver.
  - rewrite dom_insert_L. set_solver.
Qed.

Lemma steps_dom st st' : steps env st st' -> dom (cache st) ⊆ dom (cache st').
Proof. induction 1 as [|? ? ? H]; [done|]. apply step_dom in H. set_solver. Qed.

(** ** Answers *)

(** A cached module is answered from the cache: nothing runs, nothing is read. *)
Lemma requireModule_cached fuel n st m :
  cache st !! bare_name n = Some m ->
  requireModule env fuel n st = Some (st, Ok (exports_of m st)).
Proof. intros E. unfold requireModule, requireModule_with. by rewrite E. Qed.

(** After a load that returned, the id is cached to the record returned. *)
Lemma loadModule_caches fuel id f st st' m :
  ~ vendored_entry env id -> ~ vendored_name env id -> cache st !! id = None ->
  loadModule env fuel id f st = Some (st', Ok m) -> cache st' !! id = Some m.
Proof.
  intros He Hn Hc. destruct fuel as [|fuel]; [done|]. cbn [loadModule].
  destruct (find_code env id f st) as [st1 [fn|e]]; [|done].
  destruct (alloc_mod id f st1) as [m' st2].
  pose proof (exec_runs env (require_with env (loadModule env fuel) f)
               (requireModule_with env (loadModule env fuel)) (require_resolve env f) m' fn
               (require_with_runs env _ (loadModule_runs env fuel) f)
               (requireModule_with_runs env _ (loadModule_runs env fuel))
               (require_resolve_steps env f) (log (EvExec id) (set_cache id m' st2))) as Hx.
  destruct (exec _ _ _ _ _ _) as [[st4 [[]|e]]|]; [|done|done]. destruct Hx as [H4 _].
  intros [= <- <-]. cbn. eapply steps_cache; [exact H4|done|done|].
  cbn. by rewrite lookup_insert_eq.
Qed.
End Invariants.

(** ** Termination *)

(** The names a body may hand to its own [require] and to the global one. *)
Inductive uses (okr okg : jsstr -> Prop) : body -> Prop :=
  | uses_done : uses okr okg Done
  | uses_fail e : uses okr okg (Fail e)
  | uses_require n k :
      okr n -> (forall r, uses okr okg (k r)) -> uses okr okg (Require n k)
  | uses_resolve n k : (forall r, uses okr okg (k r)) -> uses okr okg (RequireResolve n k)
  | uses_global n k :
      okg n -> (forall r, uses okr okg (k r)) -> uses okr okg (GlobalRequire n k)
  | uses_exports v b : uses okr okg b -> uses okr okg (SetExports v b)
  | uses_close b : uses okr okg b -> uses okr okg (CloseDisk b).

Lemma uses_any b : uses (fun _ => True) (fun _ => True) b.
Proof. induction b; by constructor. Qed.

Lemma uses_weaken (okr okg okr' okg' : jsstr -> Prop) b :
  (forall n, okr n -> okr' n) -> (forall n, okg n -> okg' n) ->
  uses okr okg b -> uses okr' okg' b.
Proof. intros Hr Hg. induction 1; constructor; auto. Qed.

Section Termination.
Variable env : natives.

(** A body that requires no vendored package by its name. *)
Definition vend_free : body -> Prop :=
  uses (fun n => is_relative n = true \/ ~ vendored_name env (bare_name n))
       (fun n => ~ vendored_name env (bare_name n)).

(** The modules there are: finitely many. *)
Variable U : gset jsstr.
Hypothesis finite_modules : forall id f st st' fn,
  find_code env id f st = (st', Ok fn) -> id ∈ U.
(** The entry module of a vendored package does not itself require a vendored
    package by name. *)
Hypothesis entries_vend_free : forall id f st st' fn,
  vendored_entry env id -> find_code env id f st = (st', Ok fn) -> vend_free fn.

Definition todo (st : state) : nat := size (U ∖ dom (cache st)).

Lemma todo_mono st st' : steps env st st' -> (todo st' <= todo st)%nat.
Proof.
  intros H%steps_dom. unfold todo. apply subseteq_size. set_solver.
Qed.

Lemma exec_defined okr okg req greq res m b (G : state -> Prop) :
  uses okr okg b ->
  (forall st st', G st -> steps env st st' -> G st') ->
  (forall n st, okr n -> G st -> exists st' r, req n st = Some (st', r) /\ steps env st st') ->
  (forall n st, okg n -> G st -> exists st' r, greq n st = Some (st', r) /\ steps env st st') ->
  (forall n st st' p, res n st = (st', p) -> steps env st st') ->
  forall st, G st -> is_Some (exec req greq res m b st).
Proof.
  intros Hb HG Hr Hg Hres. induction Hb as [|e|n k Hn _ IH|n k _ IH|n k Hn _ IH|v b _ IH|b _ IH];
    intros st Hst; cbn [exec]; [done|done|..].
  - destruct (Hr n st Hn Hst) as (st1 & r & -> & H1). eauto.
  - destruct (res n st) as [st1 p] eqn:E. apply IH. eauto.
  - destruct (Hg n st Hn Hst) as (st1 & r & -> & H1). eauto.
  - apply IH. eapply HG; [exact Hst|]. apply steps_one, step_exports.
  - apply IH. eapply HG; [exact Hst|]. apply steps_one, step_close.
Qed.

Definition defined_new (fuel : nat) : Prop := forall id f st,
  cache st !! id = None -> (2 * todo st + 1 <= fuel)%nat ->
  is_Some (loadModule env fuel id f st).
Definition defined_entry (fuel : nat) : Prop := forall id f st,
  vendored_entry env id -> (2 * todo st + 2 <= fuel)%nat ->
  is_Some (loadModule env fuel id f st).

Lemma requireModule_defined fuel n st :
  defined_new fuel -> (2 * todo st + 1 <= fuel)%nat ->
  (~ vendored_name env (bare_name n) \/
   defined_entry fuel /\ (2 * todo st + 2 <= fuel)%nat) ->
  exists st' r, requireModule env fuel n st = Some (st', r) /\ steps env st st'.
Proof.
  intros Hnew Hf Hv. assert (is_Some (requireModule env fuel n st)) as [[st' r] E].
  { unfold requireModule, requireModule_with.
    destruct (cache st !! bare_name n) eqn:Ec; [done|].
    destruct (package_lookup (vendoredPackages env) (bare_name n)) as [[vid|]|] eqn:Ep.
    - destruct Hv as [Hv|[He Hf2]]; [by destruct Hv; exists vid|].
      assert (vendored_entry env vid) as Hent by by exists (bare_name n).
      destruct (He vid vid st Hent Hf2) as [[st1 [m|e]] ->]; done.
    - done.
    - destruct (Hnew (bare_name n) (bare_name n) st Ec Hf) as [[st1 [m|e]] ->]; done. }
  exists st', r. split; [done|]. by eapply requireModule_steps.
Qed.

Lemma require_defined fuel f n st :
  defined_new fuel -> (2 * todo st + 1 <= fuel)%nat ->
  (is_relative n = true \/ ~ vendored_name env (bare_name n) \/
   defined_entry fuel /\ (2 * todo st + 2 <= fuel)%nat) ->
  exists st' r, require_with env (loadModule env fuel) f n st = Some (st', r) /\ steps env st st'.
Proof.
  intros Hnew Hf Hv. unfold require_with. destruct (is_relative n) eqn:En.
  - destruct (resolve_from env f n st) as [st1 p] eqn:E. apply resolve_from_steps in E.
    pose proof (todo_mono _ _ E). destruct (cache st1 !! p) eqn:Ec; [eauto|].
    destruct (Hnew p p st1 Ec) as [[st2 r] E2]; [lia|].
    pose proof (loadModule_runs env fuel p p st1 (or_introl Ec)) as Hr.
    rewrite E2 in Hr |- *. destruct Hr as [Hr _].
    destruct r as [m|e]; cbn [exports_after]; do 2 eexists; (split; [done|]); by etransitivity.
  - destruct Hv as [?|Hv]; [done|]. by apply requireModule_defined.
Qed.

(** The fuel that is enough. *)
Lemma loadModule_defined fuel : defined_new fuel /\ defined_entry fuel.
Proof.
  induction fuel as [|fuel [IHn IHe]].
  { split; intros id f st _ Hf; exfalso; lia. }
  assert (forall id f st fn st1 m st2 n,
    find_code env id f st = (st1, Ok fn) -> alloc_mod id f st1 = (m, st2) ->
    uses (fun nm => is_relative nm = true \/ ~ vendored_name env (bare_name nm) \/
                    defined_entry fuel /\ (2 * n + 2 <= fuel)%nat)
         (fun nm => ~ vendored_name env (bare_name nm) \/
                    defined_entry fuel /\ (2 * n + 2 <= fuel)%nat) fn ->
    (2 * n + 1 <= fuel)%nat -> (size (U ∖ ({[id]} ∪ dom (cache st))) <= n)%nat ->
    is_Some (loadModule env (S fuel) id f st)) as Hgo.
  { intros id f st fn st1 m st2 n Ef Ea Hfn Hfuel Hn. cbn [loadModule]. rewrite Ef, Ea.
    apply find_code_steps in Ef as [_ Hc].
    assert (is_Some (exec (require_with env (loadModule env fuel) f)
               (requireModule_with env (loadModule env fuel)) (require_resolve env f) m fn
               (log (EvExec id) (set_cache id m st2)))) as [[st4 [[]|e]] ->]; [|done|done].
    eapply exec_defined with (G := fun st => (todo st <= n)%nat).
    - exact Hfn.
    - intros s s' Hs Hss%todo_mono. lia.
    - intros nm s Hnm Hs. apply require_defined; [done|lia|].
      destruct Hnm as [?|[?|[? ?]]]; [by left|by right; left|right; right; split; [done|lia]].
    - intros nm s Hnm Hs. apply requireModule_defined; [done|lia|].
      destruct Hnm as [?|[? ?]]; [by left|right; split; [done|lia]].
    - apply require_resolve_steps.
    - unfold todo. injection Ea as <- <-. cbn. by rewrite dom_insert_L, Hc. }
  split; intros id f st Hid Hf.
  - destruct (find_code env id f st) as [st1 [fn|e]] eqn:Ef;
      [|cbn [loadModule]; by rewrite Ef].
    destruct (alloc_mod id f st1) as [m st2] eqn:Ea.
    assert (id ∈ U) as HU by by eapply finite_modules.
    assert (size (U ∖ ({[id]} ∪ dom (cache st))) < todo st)%nat as Hlt.
    { unfold todo. apply subset_size. apply not_elem_of_dom in Hid. set_solver. }
    eapply (Hgo id f st fn st1 m st2 (todo st - 1)%nat); [done|done| |lia|lia].
    eapply uses_weaken; [| |apply uses_any]; intros nm _; [right; right|right]; split; (done || lia).
  - destruct (find_code env id f st) as [st1 [fn|e]] eqn:Ef;
      [|cbn [loadModule]; by rewrite Ef].
    destruct (alloc_mod id f st1) as [m st2] eqn:Ea.
    eapply (Hgo id f st fn st1 m st2 (todo st)); [done|done| |lia|].
    + eapply uses_weaken; [| |by eapply entries_vend_free]; naive_solver.
    + unfold todo. apply subseteq_size. set_solver.
Qed.
End Termination.

(** ** The guarantees *)

(** Two modules that require each other; [a] exports 7, [b] re-exports what it
    got from [a], and every other id is looked for on an empty disk. *)
Definition demo_a : body := Require "b" (fun _ => SetExports (VNumber 7) Done).
Definition demo_b : body :=
  Require "a" (fun r => match r with Ok v => SetExports v Done | Throw e => Fail e end).

Definition demo_env : natives := Natives
  (fun id => if bool_decide (id = "a") then Some demo_a
             else if bool_decide (id = "b") then Some demo_b else None)
  (fun p => Throw (JsError "ERR_MODULE_NOT_FOUND" [p]))
  (fun _ _ _ => Throw (JsError [] ["SyntaxError"]))
  ∅ ∅.

Lemma demo_no_packages name id : package_lookup (vendoredPackages demo_env) name <> Some (Own id).
Proof. unfold package_lookup, demo_env. cbn. by case_bool_decide. Qed.

Lemma demo_no_vendored_entry id : ~ vendored_entry demo_env id.
Proof. intros [name H]. by apply (demo_no_packages name) in H. Qed.

Lemma demo_no_vendored_name name : ~ vendored_name demo_env name.
Proof. intros [id H]. by apply (demo_no_packages name) in H. Qed.

(** C2. Once the world is closed no [require], whatever the modules it runs do,
    reads the disk or opens the world again. *)
Theorem boot_closed_world env fuel name st st' r :
  requireModule env fuel name st = Some (st', r) ->
  diskLoadingClosed st = true ->
  diskLoadingClosed st' = true /\ reads (trace st') = reads (trace st).
Proof. intros H%requireModule_steps. by apply (steps_closed env). Qed.

Lemma boot_closed_world_witness :
  exists st' r, requireModule demo_env 3 "./x" (close_disk init) = Some (st', r) /\
    diskLoadingClosed st' = true /\ reads (trace st') = [].
Proof.
  eexists _, _. split; [reflexivity|].
  refine (boot_closed_world demo_env 3 "./x" (close_disk init) _ _ _ _); reflexivity.
Defined.

(** In every session the body of a module is started at most once, unless the
    module is the entry of a vendored package. *)
Theorem boot_body_at_most_once env st id :
  session env st -> ~ vendored_entry env id -> (runs_of id st <= 1)%nat.
Proof.
  intros H%session_steps Hid. by apply (steps_once env init st H (once_init env)).
Qed.

Lemma boot_body_at_most_once_witness :
  exists st, requireModule demo_env 5 "a" init = Some (st, Ok (VNumber 7)) /\
    runs_of "a" st = 1%nat /\ runs_of "b" st = 1%nat /\ (runs_of "b" st <= 1)%nat.
Proof.
  eexists. split; [vm_compute; reflexivity|]. split; [reflexivity|]. split; [reflexivity|].
  apply (boot_body_at_most_once demo_env).
  - eapply (session_require demo_env init 5 "a"); [apply session_init|vm_compute; reflexivity].
  - apply demo_no_vendored_entry.
Defined.

(** A successful [require] of a module that is not a vendored package binds the
    name to one record for good: whatever runs afterwards, requiring it again
    runs nothing and answers the current exports of that record. *)
Theorem boot_singleton env fuel name st st1 v :
  requireModule env fuel name st = Some (st1, Ok v) ->
  ~ vendored_entry env (bare_name name) -> ~ vendored_name env (bare_name name) ->
  exists m, v = exports_of m st1 /\
    forall st2 fuel', steps env st1 st2 ->
      requireModule env fuel' name st2 = Some (st2, Ok (exports_of m st2)).
Proof.
  intros H He Hn.
  assert (exists m, v = exports_of m st1 /\ cache st1 !! bare_name name = Some m) as (m & Hv & Hc).
  { unfold requireModule, requireModule_with in H.
    destruct (cache st !! bare_name name) as [m|] eqn:Ec.
    { injection H as <- <-. by exists m. }
    destruct (package_lookup _ _) as [[vid|]|] eqn:Ep; [by destruct Hn; exists vid|done|].
    destruct (loadModule _ _ _ _ _) as [[s [m|e]]|] eqn:El; [|done|done].
    injection H as <- <-. exists m. split; [done|]. by eapply loadModule_caches. }
  exists m. split; [done|]. intros st2 fuel' Hs. apply requireModule_cached.
  by eapply steps_cache.
Qed.

Lemma boot_singleton_witness :
  exists st1, requireModule demo_env 5 "node:b" init = Some (st1, Ok (VNumber 7)) /\
    exists m, VNumber 7 = exports_of m st1 /\
      forall st2 fuel', steps demo_env st1 st2 ->
        requireModule demo_env fuel' "node:b" st2 = Some (st2, Ok (exports_of m st2)).
Proof.
  eexists. split; [vm_compute; reflexivity|].
  apply (boot_singleton demo_env 5 "node:b" init); [vm_compute; reflexivity|..].
  - apply demo_no_vendored_entry.
  - apply demo_no_vendored_name.
Defined.

(** [require] returns: with finitely many modules, and vendored entries that do
    not require a vendored package by name, [2 * size U + 2] nested loads are
    enough, whatever cycles the modules form. *)
Theorem boot_require_terminates (env : natives) (U : gset jsstr) fuel name st :
  (forall id f st st' fn, find_code env id f st = (st', Ok fn) -> id ∈ U) ->
  (forall id f st st' fn, vendored_entry env id ->
     find_code env id f st = (st', Ok fn) -> vend_free env fn) ->
  (2 * size U + 2 <= fuel)%nat ->
  exists st' r, requireModule env fuel name st = Some (st', r).
Proof.
  intros HU He Hf. destruct (loadModule_defined env U HU He fuel) as [Hn Hent].
  assert (todo U st <= size U)%nat by (apply subseteq_size; set_solver).
  destruct (requireModule_defined env U fuel name st Hn) as (st' & r & E & _); [lia| |eauto].
  right. split; [done|lia].
Qed.

Lemma boot_require_terminates_witness :
  exists st' r, requireModule demo_env 6 "a" init = Some (st', r).
Proof.
  apply (boot_require_terminates demo_env {["a"; "b"]}).
  - intros id f st st' fn. unfold find_code, demo_env. cbn.
    case_bool_decide; [set_solver|]. case_bool_decide; [set_solver|].
    by destruct (diskLoadingClosed st).
  - intros id f st st' fn H. by apply demo_no_vendored_entry in H.
  - vm_compute. lia.
Defined.

(** The side condition on vendored entries is needed: the entry is cached under
    its id only after its body has run under the package name, so an entry that
    requires its own package by name is loaded again and again. *)
Theorem boot_vendored_self_require_diverges env id name k :
  package_lookup (vendoredPackages env) name = Some (Own id) ->
  loadBytecodeModule env id = Some (Require name k) ->
  bare_name name = name -> is_relative name = false -> id <> name ->
  forall fuel st, cache st !! name = None -> requireModule env fuel name st = None.
Proof.
  intros Hp Hb Hbare Hrel Hne.
  assert (forall fuel st, cache st !! name = None -> loadModule env fuel id id st = None) as HL.
  { induction fuel as [|fuel IH]; intros st Hc; [done|]. cbn [loadModule]. unfold find_code.
    rewrite Hb. cbn [alloc_mod exec]. unfold require_with. rewrite Hrel.
    unfold requireModule_with. rewrite Hbare. cbn. rewrite lookup_insert_ne by done.
    rewrite Hc, Hp, IH; [done|]. cbn. by rewrite lookup_insert_ne. }
  intros fuel st Hc. unfold requireModule, requireModule_with. by rewrite Hbare, Hc, Hp, HL.
Qed.

Definition vendored_demo : natives := Natives
  (fun id => if bool_decide (id = "vendored/ws/index") then Some (Require "ws" (fun _ => Done)) else None)
  (fun p => Throw (JsError "ERR_MODULE_NOT_FOUND" [p]))
  (fun _ _ _ => Throw (JsError [] ["SyntaxError"]))
  {["ws" := "vendored/ws/index"]} {["vendored/ws/index"]}.

Lemma boot_vendored_self_require_diverges_witness :
  requireModule vendored_demo 1000 "ws" init = None.
Proof.
  apply (boot_vendored_self_require_diverges vendored_demo "vendored/ws/index" "ws" (fun _ => Done));
    [reflexivity..|discriminate|reflexivity].
Defined.

(** A module whose body throws stays in the cache: the first [require] throws,
    the next one returns its exports as if it had run. *)
Theorem boot_failed_module_stays_cached env fuel fuel' name e st :
  cache st !! bare_name name = None ->
  package_lookup (vendoredPackages env) (bare_name name) = None ->
  loadBytecodeModule env (bare_name name) = Some (Fail e) ->
  exists st', requireModule env (S fuel) name st = Some (st', Throw e) /\
    requireModule env fuel' name st' = Some (st', Ok (VObject (next st))).
Proof.
  intros Hc Hp Hb. unfold requireModule at 1, requireModule_with. rewrite Hc, Hp.
  cbn [loadModule]. unfold find_code. rewrite Hb. cbn [alloc_mod exec exports_after].
  eexists. split; [reflexivity|]. rewrite (requireModule_cached _ _ _ _ (next st)).
  - unfold exports_of. cbn. by rewrite lookup_insert_eq.
  - cbn. by rewrite lookup_insert_eq.
Qed.

Lemma boot_failed_module_stays_cached_witness :
  exists st', requireModule (Natives (fun _ => Some (Fail (JsError "E" []))) (readFileSync demo_env)
                               (compileAndRun demo_env) ∅ ∅) 1 "x" init
              = Some (st', Throw (JsError "E" [])) /\
    requireModule (Natives (fun _ => Some (Fail (JsError "E" []))) (readFileSync demo_env)
                               (compileAndRun demo_env) ∅ ∅) 7 "x" st' = Some (st', Ok (VObject 1)).
Proof. apply boot_failed_module_stays_cached; reflexivity. Defined.

(** The package table inherits from [Object.prototype]: a request Node's loader
    reports as MODULE_NOT_FOUND whose text is the name of an inherited property
    comes back, in the open world, as an error without that code. *)
Theorem boot_inherited_name_hides_not_found env fuel origLoad name e st st1 :
  name ∈ objectPrototypeKeys -> vendoredPackages env !! name = None ->
  loadBytecodeModule env name = None ->
  origLoad name st = Some (st1, Throw e) -> err_code e = "MODULE_NOT_FOUND" ->
  cache st1 !! name = None -> diskLoadingClosed st1 = false ->
  exists e', cjs_load env fuel origLoad name st = Some (st1, Throw e') /\
             err_code e' <> "MODULE_NOT_FOUND".
Proof.
  intros Hk Hv Hb Ho He Hc Hopen. unfold cjs_load. rewrite Ho, He, Hc, Hb.
  assert (package_lookup (vendoredPackages env) name = Some Inherited) as Hp.
  { unfold package_lookup. rewrite Hv. by rewrite bool_decide_eq_true_2. }
  rewrite (bool_decide_eq_false_2 (is_Some (None : option body))) by by intros [? ?].
  rewrite Hp. cbn. unfold requireModule, requireModule_with.
  assert (bare_name name = name) as ->.
  { clear -Hk. revert name Hk. apply Forall_forall.
    assert (forallb (fun n => bool_decide (bare_name n = n)) objectPrototypeKeys = true) as H
      by (vm_compute; reflexivity).
    rewrite forallb_forall in H. apply Forall_forall. intros x Hx.
    apply list_elem_of_In, H in Hx. by apply bool_decide_eq_true in Hx. }
  rewrite Hc, Hp. unfold load_non_string. rewrite Hopen. eexists. split; [reflexivity|done].
Qed.

Lemma boot_inherited_name_hides_not_found_witness :
  exists e', cjs_load demo_env 9
      (fun r st => Some (st, Throw (MODULE_NOT_FOUND r))) "constructor" init
    = Some (init, Throw e') /\ err_code e' <> "MODULE_NOT_FOUND".
Proof.
  apply (boot_inherited_name_hides_not_found demo_env 9 _ "constructor"
           (MODULE_NOT_FOUND "constructor")); try reflexivity.
  apply list_elem_of_here.
Defined.
