(* ===== verification/BundleLoader.v ===== *)
(** * The bundle loader

    Models [libjs/bundle-loader.js]: the wrappers it puts around
    [Module._load] and [Module._resolveFilename], the [require] it builds for
    a bundled module, [loadIdentity], and [run].  State is [Module._cache],
    the module records (shared, mutable objects), [process.mainModule], and a
    trace of what was executed, forwarded to Node's own loader and logged.
    The container, Node's loader, [fs], [process.dlopen] and [JSON.parse] are
    fields of [env].  A module body is arbitrary JavaScript: a tree of the
    actions that reach the loader, each continued with its answer. *)

From S2P Require Import Prelude JsString Path PathPosix Realm.

Module Bundle.

(** ** Data *)

(** A value of [Module._cache], or of a record's [children]: an object of the
    heap, or a primitive a program stored there. *)
Inductive cval :=
  | CMod (m : positive)
  | CPrim (v : jsval).

#[export] Instance cval_eq_dec : EqDecision cval.
Proof. solve_decision. Defined.

(** A module record, a [Module] of Node's, or any object a program puts in the
    cache.  [children] is [None] where it is missing (or falsy). *)
Record module_ := Mod {
  m_id : jsstr; m_exports : jsval; m_loaded : bool; m_filename : jsval;
  m_path : jsstr; m_parent : option positive; m_children : option (list cval);
  m_identity : option jsstr;
}.

(** The [options] of [require.resolve]: no [paths], an array, or anything else. *)
Inductive options :=
  | NoPaths
  | Paths (l : list jsval)
  | BadPaths.

Definition hasPaths (o : options) : bool := match o with NoPaths => false | _ => true end.
Definition pathsUsable (o : options) : bool := match o with BadPaths => false | _ => true end.
Definition paths_arg (o : options) : option (list jsval) :=
  match o with Paths l => Some l | _ => None end.

Inductive event :=
  | EvExec (identity : jsstr)
  | EvDlopen (path : jsstr)
  | EvForward (request : jsval)
  | EvForwardResolve (request : jsval) (opts : options)
  | EvLog (line : jsstr).

Record state := State {
  cache : gmap jsstr cval;
  heap : gmap positive module_;
  next : positive;
  mainModule : option positive;
  trace : list event;
}.

(** What a module body does to the loader.  [from] is the module whose
    [require] is called; [None] is the body's own. *)
Inductive body :=
  | Done
  | Fail (e : jserror)
  | Require (from : option positive) (id : jsval) (k : result jsval -> body)
  | Load (request : jsval) (parent : option positive) (isMain : bool) (k : result jsval -> body)
  | Resolve (request : jsval) (opts : options) (k : result jsstr -> body)
  | ResolveFilename (request : jsval) (parent : option positive) (isMain : bool)
      (opts : options) (k : result jsstr -> body)
  | CreateRequire (filename : jsstr) (k : positive -> body)
  | NewObject (exports : jsval) (k : positive -> body)
  | SetExports (v : jsval) (k : body)
  | SetCache (filename : jsstr) (v : cval) (k : body)
  | DeleteCache (filename : jsstr) (k : body).

Inductive payload :=
  | PJson (text : jsstr)
  | PFunction (b : body).

(** The bundle container, Node's loader before it is wrapped, and the host. *)
Record env := Env {
  root : jsstr;
  entry : jsstr;
  natives : list (jsstr * jsstr);
  preloads : list jsstr;
  lookup_edge : jsstr -> jsstr -> option jsstr;
  bundle_resolve : jsstr -> jsstr -> option (list jsval) -> option jsstr;
  bundle_load : jsstr -> result payload;
  originalLoad : jsval -> option positive -> bool -> state -> state * result jsval;
  originalResolveFilename : jsval -> option positive -> bool -> options -> result jsstr;
  existsSync : jsstr -> bool;
  dlopen : jsval -> jsstr -> result jsval;
  json_parse : jsstr -> result jsval;
  cwd : result jsstr;
  debugSetting : option jsstr;
}.

(** ** A state and exception monad; [None] is fuel exhausted *)

Definition M (A : Type) : Type := state -> option (state * result A).

Definition ret {A} (a : A) : M A := fun st => Some (st, Ok a).
Definition throw {A} (e : jserror) : M A := fun st => Some (st, Throw e).
Definition lift {A} (r : result A) : M A := fun st => Some (st, r).
Definition get {A} (f : state -> A) : M A := fun st => Some (st, Ok (f st)).
Definition modify (f : state -> state) : M unit := fun st => Some (f st, Ok tt).
Definition bind {A B} (m : M A) (k : A -> M B) : M B := fun st =>
  match m st with
  | None => None
  | Some (st', Ok a) => k a st'
  | Some (st', Throw e) => Some (st', Throw e)
  end.

(** [try { m } finally { if (threw) cleanup }] *)
Definition on_throw {A} (m : M A) (cleanup : state -> state) : M A := fun st =>
  match m st with
  | Some (st', Throw e) => Some (cleanup st', Throw e)
  | o => o
  end.

(** Run [m] and hand its outcome, exception included, to [k]. *)
Definition catch {A B} (m : M A) (k : result A -> M B) : M B := fun st =>
  match m st with
  | None => None
  | Some (st', r) => k r st'
  end.

#[local] Notation "'do*' x ':=' m 'in' k" := (bind m (fun x => k))
  (at level 10, x pattern, m at level 100, k at level 200).
#[local] Notation "'run*' m ';' k" := (bind m (fun _ => k))
  (at level 10, m at level 100, k at level 200).

(** ** State updates *)

Definition log (ev : event) (st : state) : state :=
  State (cache st) (heap st) (next st) (mainModule st) (trace st ++ [ev]).

Definition set_cache (f : jsstr) (v : cval) (st : state) : state :=
  State (<[f := v]> (cache st)) (heap st) (next st) (mainModule st) (trace st).

Definition delete_cache (f : jsstr) (st : state) : state :=
  State (delete f (cache st)) (heap st) (next st) (mainModule st) (trace st).

Definition set_main (m : positive) (st : state) : state :=
  State (cache st) (heap st) (next st) (Some m) (trace st).

Definition update_mod (m : positive) (f : module_ -> module_) (st : state) : state :=
  State (cache st) (alter f m (heap st)) (next st) (mainModule st) (trace st).

Definition alloc (r : positive -> module_) : M positive := fun st =>
  let m := next st in
  Some (State (cache st) (<[m := r m]> (heap st)) (Pos.succ m) (mainModule st) (trace st), Ok m).

Definition set_exports (v : jsval) (r : module_) : module_ :=
  Mod (m_id r) v (m_loaded r) (m_filename r) (m_path r) (m_parent r) (m_children r) (m_identity r).
Definition set_loaded (r : module_) : module_ :=
  Mod (m_id r) (m_exports r) true (m_filename r) (m_path r) (m_parent r) (m_children r) (m_identity r).
Definition set_children (c : list cval) (r : module_) : module_ :=
  Mod (m_id r) (m_exports r) (m_loaded r) (m_filename r) (m_path r) (m_parent r) (Some c) (m_identity r).

Definition exports_of (m : positive) (st : state) : jsval :=
  match heap st !! m with Some r => m_exports r | None => VUndefined end.

(** [cached.exports] *)
Definition exports_cval (c : cval) (st : state) : result jsval :=
  match c with
  | CMod m => Ok (exports_of m st)
  | CPrim VNull | CPrim VUndefined =>
      Throw (JsError [] ["TypeError"; "Cannot read property 'exports'"])
  | CPrim _ => Ok VUndefined
  end.

(** ** Children *)

Definition updateChildren (parentMod : option positive) (child : cval) (scan : bool)
    (st : state) : state :=
  match parentMod with
  | None => st
  | Some p =>
      update_mod p (fun r =>
        match m_children r with
        | None => r
        | Some children =>
            if scan && bool_decide (child ∈ children) then r
            else set_children (children ++ [child]) r
        end) st
  end.

(** [children.splice(children.indexOf(child), 1)] *)
Fixpoint remove_first (c : cval) (l : list cval) : list cval :=
  match l with
  | [] => []
  | x :: l' => if decide (x = c) then l' else x :: remove_first c l'
  end.

Definition removeChild (parentMod : option positive) (child : cval) (st : state) : state :=
  match parentMod with
  | None => st
  | Some p =>
      update_mod p (fun r =>
        match m_children r with
        | None => r
        | Some children => set_children (remove_first child children) r
        end) st
  end.

(** ** What the binary carries *)

Definition isEmbedded (request : jsstr) : bool := isBuiltin request.

Definition embeddedRequest (request : jsstr) : jsstr :=
  if bool_decide (slice request 0 5 = node_scheme) then request else node_scheme ++ request.

Definition ERR_INVALID_ARG_VALUE (name reason : jsstr) : jserror :=
  JsError "ERR_INVALID_ARG_VALUE" [name; reason].

Section Loader.
Variable E : env.

Definition path_join (a b : jsstr) : result jsstr := Posix.join [VString a; VString b].
Definition path_dirname (a : jsstr) : result jsstr := Posix.dirname (VString a).
Definition path_relative (a b : jsstr) : result jsstr :=
  Posix.relative (cwd E) (VString a) (VString b).

(** [nativeSidecars[target]]: a null-prototype object filled in order, so
    that the last entry of an identity wins. *)
Definition nativeSidecars (target : jsstr) : option jsstr :=
  (foldl (fun (acc : gmap jsstr jsstr) n => <[n.1 := n.2]> acc) ∅ (natives E)) !! target.

(** ** Messages *)

(** [None] is [undefined]. *)
Definition includeSuggestion (request importer : jsstr) (importerIsIdentity : bool)
    : result (option jsstr) :=
  if negb (bool_decide (charAt request 0 = ".")) then Ok (Some request)
  else if negb importerIsIdentity then Ok None
  else
    let* importerDir := path_dirname importer in
    let* target := path_join importerDir request in
    let* entryDir := path_dirname (entry E) in
    let* value := path_relative entryDir target in
    Ok (if bool_decide (value = []) then None
        else Some (if bool_decide (charAt value 0 = ".") then value else "./" ++ value)).

Definition isBareSpecifier (request : jsstr) : result bool :=
  if bool_decide (charAt request 0 = ".") then Ok false
  else let* abs := Posix.isAbsolute (VString request) in Ok (negb abs).

(** The error; computing its text may itself throw. *)
Definition notInBundle (request importer : jsstr) (importerIsIdentity : bool) : jserror :=
  match
    let* suggestion := includeSuggestion request importer importerIsIdentity in
    let* caveat :=
      match suggestion with
      | None => Ok []
      | Some _ =>
          let* bare := isBareSpecifier request in
          Ok (if bare then [10] ++ "  (--include resolves from the entry's directory.)" else [])
      end in
    Ok ("Cannot find module '" ++ request ++ "'" ++ [10] ++
        "  required by " ++ importer ++ [10] ++
        match suggestion with
        | Some value =>
            "  Not in the bundle. Add it with:" ++ [10] ++
            "    --include=" ++ value ++ caveat
        | None =>
            "  Not in the bundle. Add it with --include, whose value is" ++ [10] ++
            "  resolved from the entry's directory."
        end)
  with
  | Ok message => JsError "MODULE_NOT_FOUND" [message]
  | Throw e => e
  end.

Definition missingSidecar (identity sidecar : jsstr) : jserror :=
  match path_join (root E) sidecar with
  | Ok p =>
      JsError "MODULE_NOT_FOUND"
        ["Cannot find module '" ++ identity ++ "'" ++ [10] ++
         "  This bundle records a native addon, but its file is not beside the bundle." ++ [10] ++
         "  Expected: " ++ p ++ [10] ++
         "  Native addons ship alongside the container; copy it there."]
  | Throw e => e
  end.

Definition debugBundle : bool :=
  match debugSetting E with Some s => 0 <=? indexOf s "BUNDLE" | None => false end.

Definition logOutcome (outcome request importer : jsstr) (identity : option jsstr)
    (st : state) : state :=
  if debugBundle then
    log (EvLog ("[bundle] " ++ outcome ++ ": " ++ request ++ " from " ++ importer ++
                match identity with Some i => " -> " ++ i | None => [] end)) st
  else st.

(** ** Importers *)

(** The identity of a record, or of a path below the root. *)
Definition identityOf (parent : option positive) (st : state) : result (option jsstr) :=
  match parent with
  | None => Ok None
  | Some p =>
      match heap st !! p with
      | None => Ok None
      | Some r =>
          match m_identity r, m_filename r with
          | Some i, _ => Ok (Some i)
          | None, VString filename =>
              let* rel := path_relative (root E) filename in
              Ok (if bool_decide (rel = []) || bool_decide (rel = "..") ||
                     bool_decide (slice rel 0 3 = "../") || bool_decide (charAt rel 0 = "/")
                  then None else Some rel)
          | None, _ => Ok None
          end
      end
  end.

Definition no_importer : jsstr := "<no bundled importer>".

(** ** Forwarding to Node's loader *)

Definition forward (request : jsval) (parent : option positive) (isMain : bool) : M jsval :=
  fun st => let '(st', r) := originalLoad E request parent isMain (log (EvForward request) st) in
            Some (st', r).

Definition forward_resolve (request : jsval) (parent : option positive) (isMain : bool)
    (opts : options) : M jsstr :=
  fun st => Some (log (EvForwardResolve request opts) st,
                  originalResolveFilename E request parent isMain opts).

(** ** Resolution *)

Definition is_requirable (request : jsstr) : bool :=
  match normalizeRequirableId request with Some _ => true | None => false end.

(** [Module._resolveFilename] once wrapped. *)
Definition _resolveFilename (request : jsval) (parent : option positive) (isMain : bool)
    (opts : options) : M jsstr :=
  match request with
  | VString req =>
      if negb (pathsUsable opts) || is_requirable req then
        forward_resolve request parent isMain opts
      else
        do* importer := (fun st => Some (st, identityOf parent st)) in
        let named := match importer with None => no_importer | Some i => i end in
        (** The container's resolver, then the binary, then the miss. *)
        let rest : M jsstr :=
          match bundle_resolve E (match importer with None => [] | Some i => i end) req
                  (paths_arg opts) with
          | Some resolved =>
              run* modify (logOutcome "resolve" req named (Some resolved));
              lift (path_join (root E) resolved)
          | None =>
              if isEmbedded req then
                forward_resolve (VString (embeddedRequest req)) parent isMain opts
              else
                run* modify (logOutcome "miss" req named None);
                throw (notInBundle req named (bool_decide (is_Some importer)))
          end in
        if hasPaths opts then rest
        else
          match importer with
          | None =>
              if isEmbedded req then
                forward_resolve (VString (embeddedRequest req)) parent isMain opts
              else
                run* modify (logOutcome "miss" req named None);
                throw (notInBundle req named false)
          | Some i =>
              match lookup_edge E i req with
              | Some target =>
                  run* modify (logOutcome "edge" req i (Some target));
                  lift (path_join (root E) target)
              | None => rest
              end
          end
  | _ => forward_resolve request parent isMain opts
  end.

(** [resolve] of the [require] Node's [makeRequireFunction(mod)] builds. *)
Definition baseResolve (mod_ : positive) (request : jsval) (opts : options) : M jsstr :=
  do* _ := lift (validateString request "request") in
  _resolveFilename request (Some mod_) false opts.

(** [resolve] of the [require] a bundled module is given. *)
Definition resolve (mod_ : positive) (identity : jsstr) (request : jsval) (opts : options)
    : M jsstr :=
  match request with
  | VString req =>
      if negb (pathsUsable opts) || is_requirable req then baseResolve mod_ request opts
      else
        match (if hasPaths opts then None else lookup_edge E identity req) with
        | Some target =>
            run* modify (logOutcome "edge" req identity (Some target));
            lift (path_join (root E) target)
        | None =>
            match bundle_resolve E identity req (paths_arg opts) with
            | Some viaContainer =>
                run* modify (logOutcome "resolve" req identity (Some viaContainer));
                lift (path_join (root E) viaContainer)
            | None =>
                if isEmbedded req then baseResolve mod_ (VString (embeddedRequest req)) opts
                else
                  run* modify (logOutcome "miss" req identity None);
                  throw (notInBundle req identity true)
            end
        end
  | _ => baseResolve mod_ request opts
  end.

(** ** Loading

    [load] stands for [Module._load] at the depth that remains. *)
Section WithLoad.
Variable load : jsval -> option positive -> bool -> M jsval.

(** [Module.prototype.require.call(mod, id)] *)
Definition prototype_require (mod_ : positive) (id : jsval) : M jsval :=
  do* s := lift (validateString id "id") in
  if bool_decide (s = []) then throw (ERR_INVALID_ARG_VALUE "id" "must be a non-empty string")
  else load id (Some mod_) false.

(** A module body, with its record and identity. *)
Fixpoint exec (m : positive) (identity : jsstr) (b : body) : M unit :=
  match b with
  | Done => ret tt
  | Fail e => throw e
  | Require from id k =>
      catch (prototype_require (match from with Some p => p | None => m end) id)
        (fun r => exec m identity (k r))
  | Load request parent isMain k =>
      catch (load request parent isMain) (fun r => exec m identity (k r))
  | Resolve request opts k =>
      catch (resolve m identity request opts) (fun r => exec m identity (k r))
  | ResolveFilename request parent isMain opts k =>
      catch (_resolveFilename request parent isMain opts) (fun r => exec m identity (k r))
  | CreateRequire filename k =>
      do* p := alloc (fun p =>
        Mod filename (VObject p) false (VString filename)
          (match path_dirname filename with Ok d => d | Throw _ => [] end)
          None (Some []) None) in
      exec m identity (k p)
  | NewObject exports k =>
      do* p := alloc (fun p => Mod [] exports false VUndefined [] None None None) in
      exec m identity (k p)
  | SetExports v k => run* modify (update_mod m (set_exports v)); exec m identity k
  | SetCache filename v k =>
      (** A body can only name an object that exists. *)
      run* modify (fun st =>
        match v with
        | CMod p => if bool_decide (is_Some (heap st !! p)) then set_cache filename v st else st
        | CPrim _ => set_cache filename v st
        end);
      exec m identity k
  | DeleteCache filename k => run* modify (delete_cache filename); exec m identity k
  end.

(** The [try] block of [loadIdentity]. *)
Definition load_payload (target : jsstr) (m : positive) : M unit :=
  match nativeSidecars target with
  | Some sidecar =>
      do* addonPath := lift (path_join (root E) sidecar) in
      if negb (existsSync E addonPath) then throw (missingSidecar target sidecar)
      else
        run* modify (logOutcome "native" sidecar target (Some target));
        run* modify (log (EvDlopen addonPath));
        do* current := get (exports_of m) in
        do* exports := lift (dlopen E current addonPath) in
        modify (update_mod m (set_exports exports))
  | None =>
      do* payload := lift (bundle_load E target) in
      match payload with
      | PJson text =>
          do* v := lift (json_parse E text) in
          modify (update_mod m (set_exports v))
      | PFunction b =>
          run* modify (log (EvExec target)); exec m target b
      end
  end.

(** [Module._cache[filename]], [undefined] being absent. *)
Definition cached_value (filename : jsstr) (st : state) : option cval :=
  match cache st !! filename with
  | Some (CPrim VUndefined) => None
  | c => c
  end.

Definition loadIdentity (target : jsstr) (parentMod : option positive) (isMain : bool)
    : M jsval :=
  do* filename := lift (path_join (root E) target) in
  do* cached := get (cached_value filename) in
  match cached with
  | Some c =>
      run* modify (updateChildren parentMod c true);
      fun st => Some (st, exports_cval c st)
  | None =>
      do* dirname := lift (path_dirname filename) in
      do* m := alloc (fun m =>
        Mod (if isMain then "." else filename) (VObject m) false (VString filename)
          dirname parentMod (Some []) (Some target)) in
      run* modify (updateChildren parentMod (CMod m) false);
      run* modify (set_cache filename (CMod m));
      run* modify (if isMain then set_main m else id);
      run* on_throw (load_payload target m)
             (fun st => removeChild parentMod (CMod m) (delete_cache filename st));
      run* modify (update_mod m set_loaded);
      get (exports_of m)
  end.

(** [Module._load] once wrapped. *)
Definition _load_with (request : jsval) (parent : option positive) (isMain : bool) : M jsval :=
  match request with
  | VString req =>
      if is_requirable req then forward request parent isMain
      else
        do* importer := (fun st => Some (st, identityOf parent st)) in
        match importer with
        | None =>
            if isEmbedded req then forward (VString (embeddedRequest req)) parent isMain
            else
              run* modify (logOutcome "miss" req no_importer None);
              throw (notInBundle req no_importer false)
        | Some importer =>
            match lookup_edge E importer req with
            | Some target =>
                run* modify (logOutcome "edge" req importer (Some target));
                loadIdentity target parent false
            | None =>
                match bundle_resolve E importer req None with
                | Some resolved =>
                    run* modify (logOutcome "resolve" req importer (Some resolved));
                    loadIdentity resolved parent false
                | None =>
                    if isEmbedded req then forward (VString (embeddedRequest req)) parent isMain
                    else
                      run* modify (logOutcome "miss" req importer None);
                      throw (notInBundle req importer true)
                end
            end
        end
  | _ => forward request parent isMain
  end.
End WithLoad.

(** [Module._load], at most [fuel] calls deep. *)
Fixpoint _load (fuel : nat) (request : jsval) (parent : option positive) (isMain : bool)
    : M jsval :=
  match fuel with
  | O => fun _ => None
  | S fuel => _load_with (_load fuel) request parent isMain
  end.

(** The preloads of [run], in order. *)
Fixpoint run_preloads (fuel : nat) (l : list jsstr) : M unit :=
  match l with
  | [] => ret tt
  | p :: l' =>
      run* loadIdentity (_load fuel) p None false;
      run_preloads fuel l'
  end.

Definition run (fuel : nat) : M jsval :=
  run* run_preloads fuel (preloads E);
  loadIdentity (_load fuel) (entry E) None true.
End Loader.

Definition init : state := State ∅ ∅ 1%positive None [].

End Bundle.
