(* ===== verification/BundleLoaderFacts.v ===== *)
(** * The bundle loader: invariants of every run

    A transition relation that holds of the loader's primitive state changes
    holds of every call of the loader, whatever the modules do; instances of
    it give the closed world, the shape of the records and the monotonicity
    of the cache.  The theorems on single calls are in [BundleClaims]. *)

From S2P Require Import Prelude JsString Path PathSpec PathPosix PathPosixFacts Realm BundleLoader.
Import Bundle.

(** ** Vocabulary *)

(** The state in which a module's payload runs. *)
Definition entered (target filename dirname : jsstr) (parent : option positive) (isMain : bool)
    (st : state) : state :=
  let m := next st in
  let st := State (cache st)
    (<[m := Mod (if isMain then "." else filename) (VObject m) false (VString filename)
              dirname parent (Some []) (Some target)]> (heap st))
    (Pos.succ m) (mainModule st) (trace st) in
  let st := set_cache filename (CMod m) (updateChildren parent (CMod m) false st) in
  if isMain then set_main m st else st.

(** The cleanup of a load that threw. *)
Definition abandoned (filename : jsstr) (parent : option positive) (m : positive) (st : state) : state :=
  removeChild parent (CMod m) (delete_cache filename st).

(** Does the body leave [Module._cache] to the loader? *)
Fixpoint cache_ops_ok (mutable : bool) (b : body) : Prop :=
  match b with
  | Done | Fail _ => True
  | Require _ _ k | Load _ _ _ k => forall r, cache_ops_ok mutable (k r)
  | Resolve _ _ k | ResolveFilename _ _ _ _ k => forall r, cache_ops_ok mutable (k r)
  | CreateRequire _ k | NewObject _ k => forall p, cache_ops_ok mutable (k p)
  | SetExports _ k => cache_ops_ok mutable k
  | SetCache _ _ k | DeleteCache _ k => mutable = true /\ cache_ops_ok mutable k
  end.

Lemma cache_ops_ok_true b : cache_ops_ok true b.
Proof. induction b; cbn; auto. Qed.

(** Every body of the container does. *)
Definition bodies_ok (mutable : bool) (E : env) : Prop :=
  forall t b, bundle_load E t = Ok (PFunction b) -> cache_ops_ok mutable b.

(** What may reach Node's loader: requests it answers from the binary, or
    rejects before looking anything up. *)
Definition closed_request (request : jsval) : Prop :=
  match request with VString req => is_requirable req = true | _ => True end.

Definition closed_event (ev : event) : Prop :=
  match ev with
  | EvForward request => closed_request request
  | EvForwardResolve request opts => opts = BadPaths \/ closed_request request
  | _ => True
  end.

(** ** Preservation *)

Definition preserves {A} (R : state -> state -> Prop) (m : M A) : Prop :=
  forall st st' r, m st = Some (st', r) -> R st st'.

(** What a relation must satisfy to hold of every run: one field per primitive
    state change of the loader. *)
Record primitive_ok (mutable : bool) (E : env) (R : state -> state -> Prop) := PrimitiveOk {
  pk_log : forall ev st, closed_event ev -> R st (log ev st);
  pk_node : forall request parent isMain st,
    closed_request request -> R st (originalLoad E request parent isMain st).1;
  pk_alloc : forall r st, (m_children r = None \/ m_children r = Some []) ->
    R st (State (cache st) (<[next st := r]> (heap st)) (Pos.succ (next st)) (mainModule st) (trace st));
  pk_exports : forall m v st, R st (update_mod m (set_exports v) st);
  pk_loaded : forall m st, R st (update_mod m set_loaded st);
  pk_hit : forall filename parent c st,
    cached_value filename st = Some c -> R st (updateChildren parent c true st);
  pk_enter : forall target filename dirname parent isMain st,
    cached_value filename st = None -> R st (entered target filename dirname parent isMain st);
  pk_abandon : forall target filename dirname parent isMain st st',
    cached_value filename st = None ->
    R (entered target filename dirname parent isMain st) st' ->
    R st (abandoned filename parent (next st) st');
  pk_set : forall f v st, mutable = true ->
    (forall m, v = CMod m -> is_Some (heap st !! m)) -> R st (set_cache f v st);
  pk_delete : forall f st, mutable = true -> R st (delete_cache f st);
}.

Lemma embedded_requirable req :
  isEmbedded req = true -> is_requirable (embeddedRequest req) = true.
Proof.
  unfold isEmbedded, isBuiltin, is_requirable, embeddedRequest, normalizeRequirableId.
  assert (forall s, slice (node_scheme ++ s) 0 5 = node_scheme) as Hpre
    by (intros s; by apply (slice_prefix node_scheme)).
  assert (forall s, bool_decide (slice s 0 5 = node_scheme) = startsWith s node_scheme) as Hsl.
  { intros s. destruct (startsWith s node_scheme) eqn:Es.
    - apply startsWith_split in Es as [t ->]. by rewrite Hpre, bool_decide_eq_true_2.
    - apply bool_decide_eq_false_2. intros Hs.
      assert (5 <= len s).
      { apply (f_equal length) in Hs. unfold slice, slice_index in Hs.
        rewrite length_take, length_drop in Hs. cbn in Hs. unfold len in *. lia. }
      rewrite slice_spec in Hs by lia. change (take 5 s = node_scheme) in Hs.
      by rewrite <- (take_drop 5 s), Hs, startsWith_app in Es. }
  rewrite Hsl. destruct (startsWith req node_scheme) eqn:Es.
  - rewrite Es. destruct (allRequirableSet req) eqn:Ea.
    { apply requirable_no_scheme in Ea. congruence. }
    by intros ->.
  - rewrite startsWith_app, node_scheme_slice. by destruct (allRequirableSet req).
Qed.

Section Preserves.
Context (R : state -> state -> Prop) `{!PreOrder R}.

Lemma preserves_lift {A} (r : result A) : preserves R (lift r).
Proof. by intros st st' ? [= <- <-]. Qed.
Lemma preserves_ret {A} (a : A) : preserves R (ret a).
Proof. by intros st st' ? [= <- <-]. Qed.
Lemma preserves_throw {A} e : preserves R (throw (A := A) e).
Proof. by intros st st' ? [= <- <-]. Qed.
Lemma preserves_read {A} (f : state -> result A) : preserves R (fun st => Some (st, f st)).
Proof. by intros st st' ? [= <- <-]. Qed.
Lemma preserves_get {A} (f : state -> A) : preserves R (get f).
Proof. by intros st st' ? [= <- <-]. Qed.
Lemma preserves_modify f : (forall st, R st (f st)) -> preserves R (modify f).
Proof. intros H st st' ? [= <- <-]. apply H. Qed.
Lemma preserves_bind {A B} (m : M A) (k : A -> M B) :
  preserves R m -> (forall a, preserves R (k a)) -> preserves R (bind m k).
Proof.
  intros Hm Hk st st' r. unfold bind. destruct (m st) as [[st1 [a|e]]|] eqn:E; [..|done].
  - intros H. etrans; [by eapply Hm|by eapply Hk].
  - intros [= <- <-]. by eapply Hm.
Qed.
Lemma preserves_catch {A B} (m : M A) (k : result A -> M B) :
  preserves R m -> (forall a, preserves R (k a)) -> preserves R (catch m k).
Proof.
  intros Hm Hk st st' r. unfold catch. destruct (m st) as [[st1 a]|] eqn:E; [|done].
  intros H. etrans; [by eapply Hm|by eapply Hk].
Qed.
End Preserves.

(** [loadIdentity], its monadic steps composed. *)
Lemma loadIdentity_eq E load target parent isMain st :
  loadIdentity E load target parent isMain st =
  match path_join (root E) target with
  | Throw e => Some (st, Throw e)
  | Ok filename =>
      match cached_value filename st with
      | Some c =>
          let st' := updateChildren parent c true st in Some (st', exports_cval c st')
      | None =>
          match path_dirname filename with
          | Throw e => Some (st, Throw e)
          | Ok dirname =>
              match load_payload E load target (next st)
                      (entered target filename dirname parent isMain st) with
              | None => None
              | Some (st', Throw e) => Some (abandoned filename parent (next st) st', Throw e)
              | Some (st', Ok _) =>
                  let st'' := update_mod (next st) set_loaded st' in
                  Some (st'', Ok (exports_of (next st) st''))
              end
          end
      end
  end.
Proof.
  unfold loadIdentity, bind at 1, lift at 1. destruct (path_join (root E) target) as [filename|]; [|done].
  unfold bind at 1, get at 1. destruct (cached_value filename st) as [c|]; [done|].
  unfold bind at 1, lift. destruct (path_dirname filename) as [dirname|]; [|done].
  unfold bind at 1, alloc. unfold bind, modify, on_throw, entered.
  destruct isMain; cbn [id];
    match goal with |- context [load_payload E load target (next st) ?s] =>
      destruct (load_payload E load target (next st) s) as [[st' [[]|e]]|] end; done.
Qed.

Section Run.
Context (mutable : bool) (E : env) (R : state -> state -> Prop) `{!PreOrder R}.
Context (HR : primitive_ok mutable E R) (HB : bodies_ok mutable E).

Lemma preserves_log outcome req importer identity :
  preserves R (modify (logOutcome E outcome req importer identity)).
Proof.
  apply preserves_modify. intros st. unfold logOutcome. destruct (debugBundle E); [|done].
  by apply (pk_log _ _ _ HR).
Qed.

Lemma preserves_forward request parent isMain :
  closed_request request -> preserves R (forward E request parent isMain).
Proof.
  intros Hc st st' r. unfold forward.
  pose proof (pk_node _ _ _ HR request parent isMain (log (EvForward request) st) Hc) as HN.
  destruct (originalLoad _ _ _ _ _) as [st1 r1]. intros [= <- <-].
  etrans; [|exact HN]. by apply (pk_log _ _ _ HR).
Qed.

Lemma preserves_forward_resolve request parent isMain opts :
  opts = BadPaths \/ closed_request request ->
  preserves R (forward_resolve E request parent isMain opts).
Proof. intros Hc st st' r [= <- <-]. by apply (pk_log _ _ _ HR). Qed.

Lemma preserves_miss {A} request importer (e : jserror) :
  preserves R (bind (modify (logOutcome E "miss" request importer None)) (fun _ => throw (A := A) e)).
Proof. apply preserves_bind; [done|apply preserves_log|]. intros _. by apply preserves_throw. Qed.

Lemma preserves_found outcome request importer id' (f : result jsstr) :
  preserves R (bind (modify (logOutcome E outcome request importer id')) (fun _ => lift f)).
Proof. apply preserves_bind; [done|apply preserves_log|]. intros _. by apply preserves_lift. Qed.

Lemma closed_embedded req : isEmbedded req = true -> closed_request (VString (embeddedRequest req)).
Proof. apply embedded_requirable. Qed.

Lemma forwarded_guard opts req :
  negb (pathsUsable opts) || is_requirable req = true ->
  opts = BadPaths \/ closed_request (VString req).
Proof. intros [H|H]%orb_true_iff; [left; by destruct opts|by right]. Qed.

Hint Resolve preserves_forward preserves_forward_resolve preserves_miss preserves_found
  closed_embedded forwarded_guard : core.

Lemma preserves_resolveFilename request parent isMain opts :
  preserves R (_resolveFilename E request parent isMain opts).
Proof.
  unfold _resolveFilename. destruct request; try (apply preserves_forward_resolve; by right).
  destruct (negb _ || _) eqn:Eg; [auto|]. apply preserves_bind; [done|by apply preserves_read|].
  intros importer.
  assert (forall o b, preserves R
    match bundle_resolve E o s (paths_arg opts) with
    | Some resolved =>
        bind (modify (logOutcome E "resolve" s match importer with Some i => i | None => no_importer end
                (Some resolved))) (fun _ => lift (path_join (root E) resolved))
    | None =>
        if isEmbedded s then forward_resolve E (VString (embeddedRequest s)) parent isMain opts
        else bind (modify (logOutcome E "miss" s match importer with Some i => i | None => no_importer end None))
               (fun _ => throw (notInBundle E s match importer with Some i => i | None => no_importer end b))
    end) as Hrest.
  { intros o b. destruct (bundle_resolve _ _ _ _); [auto|]. destruct (isEmbedded s) eqn:?; auto. }
  destruct (hasPaths opts); [apply Hrest|]. destruct importer as [i|].
  - destruct (lookup_edge E i s); [auto|apply Hrest].
  - destruct (isEmbedded s) eqn:?; auto.
Qed.

Lemma preserves_baseResolve m request opts : preserves R (baseResolve E m request opts).
Proof.
  apply preserves_bind; [done|by apply preserves_lift|]. intros _. apply preserves_resolveFilename.
Qed.
Hint Resolve preserves_baseResolve preserves_resolveFilename : core.

Lemma preserves_resolve m identity request opts : preserves R (resolve E m identity request opts).
Proof.
  unfold resolve. destruct request; auto. destruct (negb _ || _) eqn:Eg; [auto|].
  destruct (if hasPaths opts then _ else _); [auto|].
  destruct (bundle_resolve _ _ _ _); [auto|]. destruct (isEmbedded s); auto.
Qed.

Section WithLoad.
Context (load : jsval -> option positive -> bool -> M jsval).
Context (Hload : forall request parent isMain, preserves R (load request parent isMain)).

Lemma preserves_prototype_require m id' : preserves R (prototype_require load m id').
Proof.
  apply preserves_bind; [done|by apply preserves_lift|]. intros s.
  case_bool_decide; [by apply preserves_throw|apply Hload].
Qed.

Lemma preserves_alloc r :
  (forall m, m_children (r m) = None \/ m_children (r m) = Some []) -> preserves R (alloc r).
Proof. intros Hr st st' ? [= <- <-]. apply (pk_alloc _ _ _ HR), Hr. Qed.

Lemma preserves_exec m identity b :
  cache_ops_ok mutable b -> preserves R (exec E load m identity b).
Proof.
  induction b; cbn [cache_ops_ok exec]; intros Hb;
    try (apply preserves_catch; [done|
      auto using preserves_prototype_require, preserves_resolve|by auto]; fail);
    try (apply preserves_bind; [done|apply preserves_alloc; auto|by auto]; fail).
  - by apply preserves_ret.
  - by apply preserves_throw.
  - apply preserves_bind; [done| |auto]. apply preserves_modify. intros. apply (pk_exports _ _ _ HR).
  - destruct Hb as [Hm Hb]. apply preserves_bind; [done| |auto]. apply preserves_modify. intros st.
    destruct v as [p|v]; [case_bool_decide; [|done]|]; apply (pk_set _ _ _ HR); auto.
    + intros m' [= <-]. done.
    + by intros m' [=].
  - destruct Hb as [Hm Hb]. apply preserves_bind; [done| |auto]. apply preserves_modify. intros st.
    by apply (pk_delete _ _ _ HR).
Qed.

Lemma preserves_payload target m : preserves R (load_payload E load target m).
Proof.
  unfold load_payload. destruct (nativeSidecars E target) as [sidecar|].
  - apply preserves_bind; [done|by apply preserves_lift|]. intros p.
    destruct (negb _); [by apply preserves_throw|].
    apply preserves_bind; [done|apply preserves_log|]. intros _.
    apply preserves_bind; [done|apply preserves_modify; intros; by apply (pk_log _ _ _ HR)|]. intros _.
    apply preserves_bind; [done|by apply preserves_get|]. intros cur.
    apply preserves_bind; [done|by apply preserves_lift|]. intros v.
    apply preserves_modify. intros. apply (pk_exports _ _ _ HR).
  - intros st st' r. unfold bind at 1, lift at 1.
    destruct (bundle_load E target) as [[text|b]|e] eqn:Eb; [..|by intros [= <- <-]].
    + revert st st' r. change (preserves R (bind (lift (json_parse E text))
        (fun v => modify (update_mod m (set_exports v))))).
      apply preserves_bind; [done|by apply preserves_lift|]. intros v.
      apply preserves_modify. intros. apply (pk_exports _ _ _ HR).
    + revert st st' r. change (preserves R (bind (modify (log (EvExec target)))
        (fun _ => exec E load m target b))).
      apply preserves_bind; [done|apply preserves_modify; intros; by apply (pk_log _ _ _ HR)|].
      intros _. apply preserves_exec. by eapply HB.
Qed.

Lemma preserves_loadIdentity target parent isMain :
  preserves R (loadIdentity E load target parent isMain).
Proof.
  intros st st' r. rewrite loadIdentity_eq.
  destruct (path_join _ _) as [filename|]; [|by intros [= <- <-]].
  destruct (cached_value filename st) as [c|] eqn:Ec.
  { intros [= <- <-]. by eapply (pk_hit _ _ _ HR). }
  destruct (path_dirname filename) as [dirname|]; [|by intros [= <- <-]].
  destruct (load_payload _ _ _ _ _) as [[st1 [[]|e]]|] eqn:Ep; [..|done];
    apply preserves_payload in Ep; intros [= <- <-].
  - etrans; [by apply (pk_enter _ _ _ HR)|]. etrans; [exact Ep|]. apply (pk_loaded _ _ _ HR).
  - by eapply (pk_abandon _ _ _ HR).
Qed.

Lemma preserves_load_with request parent isMain :
  preserves R (_load_with E load request parent isMain).
Proof.
  unfold _load_with. destruct request; try (by apply preserves_forward).
  destruct (is_requirable s) eqn:Er; [by apply preserves_forward|].
  apply preserves_bind; [done|by apply preserves_read|]. intros [i|].
  2: { destruct (isEmbedded s) eqn:?; auto. }
  destruct (lookup_edge E i s).
  { apply preserves_bind; [done|apply preserves_log|]. intros _. apply preserves_loadIdentity. }
  destruct (bundle_resolve _ _ _ _).
  { apply preserves_bind; [done|apply preserves_log|]. intros _. apply preserves_loadIdentity. }
  destruct (isEmbedded s) eqn:?; auto.
Qed.
End WithLoad.

Lemma preserves_load fuel request parent isMain : preserves R (_load E fuel request parent isMain).
Proof.
  revert request parent isMain. induction fuel as [|fuel IH]; [done|]. intros. cbn [_load].
  by apply preserves_load_with.
Qed.

Lemma preserves_run fuel : preserves R (run E fuel).
Proof.
  apply preserves_bind; [done| |intros _; apply preserves_loadIdentity, preserves_load].
  induction (preloads E) as [|p l IH]; [by apply preserves_ret|].
  apply preserves_bind; [done|apply preserves_loadIdentity, preserves_load|done].
Qed.
End Run.

(** ** Node's own loader

    What the loader relies on when it forwards a request the binary answers:
    loading a builtin leaves [Module._cache], [process.mainModule] and the
    module records alone, but for the importer's [children], which may list
    the module (once). *)

Definition same_fixed (r r' : module_) : Prop :=
  m_id r' = m_id r /\ m_filename r' = m_filename r /\ m_path r' = m_path r /\
  m_parent r' = m_parent r /\ m_identity r' = m_identity r.

#[export] Instance same_fixed_preorder : PreOrder same_fixed.
Proof.
  split; [done|]. intros r1 r2 r3 (?&?&?&?&?) (?&?&?&?&?). unfold same_fixed. split_and!; congruence.
Qed.

(** Shape of the records: [children] lists existing objects without repetition,
    and so does the cache. *)
Record wf (st : state) : Prop := Wf {
  wf_heap : forall m r, heap st !! m = Some r -> (m < next st)%positive;
  wf_nodup : forall m r ch, heap st !! m = Some r -> m_children r = Some ch -> NoDup ch;
  wf_children : forall m r ch x, heap st !! m = Some r -> m_children r = Some ch ->
    CMod x ∈ ch -> (x < next st)%positive;
  wf_cache : forall f x, cache st !! f = Some (CMod x) -> (x < next st)%positive;
}.

Definition keeps_shape (st st' : state) : Prop :=
  wf st -> wf st' /\ (next st <= next st')%positive /\
  forall m r, heap st !! m = Some r -> exists r', heap st' !! m = Some r' /\ same_fixed r r'.

#[export] Instance keeps_shape_preorder : PreOrder keeps_shape.
Proof.
  split.
  - intros st W. split_and!; [done|lia|]. intros m r H. by exists r.
  - intros s1 s2 s3 K1 K2 W. destruct (K1 W) as (W1 & N1 & H1). destruct (K2 W1) as (W2 & N2 & H2).
    split_and!; [done|lia|].
    intros m r Hr. destruct (H1 m r Hr) as (r' & Hr' & F1). destruct (H2 m r' Hr') as (r'' & Hr'' & F2).
    exists r''. split; [done|]. by etrans.
Qed.

Record node_loader_ok (E : env) : Prop := NodeLoaderOk {
  nl_cache : forall request parent isMain st, closed_request request ->
    cache (originalLoad E request parent isMain st).1 = cache st;
  nl_main : forall request parent isMain st, closed_request request ->
    mainModule (originalLoad E request parent isMain st).1 = mainModule st;
  nl_trace : forall request parent isMain st, closed_request request ->
    trace (originalLoad E request parent isMain st).1 = trace st;
  nl_shape : forall request parent isMain st, closed_request request ->
    keeps_shape st (originalLoad E request parent isMain st).1;
}.

(** ** The closed world *)

Definition only_closed (st st' : state) : Prop :=
  exists l, trace st' = trace st ++ l /\ Forall closed_event l.

#[export] Instance only_closed_preorder : PreOrder only_closed.
Proof.
  split.
  - intros st. exists []. by rewrite app_nil_r.
  - intros s1 s2 s3 (l1 & E1 & F1) (l2 & E2 & F2). exists (l1 ++ l2).
    rewrite E2, E1, app_assoc. split; [done|]. by apply Forall_app.
Qed.

Lemma only_closed_same st st' : trace st' = trace st -> only_closed st st'.
Proof. intros E. exists []. by rewrite app_nil_r. Qed.

Lemma trace_updateChildren p c scan st : trace (updateChildren p c scan st) = trace st.
Proof. by destruct p. Qed.

Lemma trace_entered t f d p b st : trace (entered t f d p b st) = trace st.
Proof. unfold entered. destruct b; cbn; by rewrite trace_updateChildren. Qed.

Lemma trace_abandoned f p m st : trace (abandoned f p m st) = trace st.
Proof. by destruct p. Qed.

Lemma only_closed_ok E : node_loader_ok E -> primitive_ok true E only_closed.
Proof.
  intros HE. constructor; intros; try (by apply only_closed_same).
  - exists [ev]. split; [done|]. by constructor.
  - apply only_closed_same. by apply nl_trace.
  - apply only_closed_same, trace_updateChildren.
  - apply only_closed_same, trace_entered.
  - destruct H0 as (l & El & Hl). exists l. by rewrite trace_abandoned, El, trace_entered.
Qed.

(** ** The shape of the records *)

Lemma lookup_update_mod m f st p :
  heap (update_mod m f st) !! p = (if decide (m = p) then f <$> heap st !! p else heap st !! p).
Proof.
  cbn. case_decide; subst; [apply lookup_alter_eq|by apply lookup_alter_ne].
Qed.

(** Changing one record without touching its fixed fields, its new children
    well formed. *)
Lemma keeps_shape_update m f st :
  (forall r, same_fixed r (f r)) ->
  (wf st -> forall r ch, heap st !! m = Some r -> m_children (f r) = Some ch ->
     NoDup ch /\ forall x, CMod x ∈ ch -> (x < next st)%positive) ->
  keeps_shape st (update_mod m f st).
Proof.
  intros Hf Hc W. split_and!; [|cbn; lia|].
  - constructor.
    + intros p r. rewrite lookup_update_mod. case_decide; [|apply (wf_heap _ W)].
      intros (r' & Hr' & _)%fmap_Some. by eapply (wf_heap _ W).
    + intros p r ch. rewrite lookup_update_mod. case_decide; [|apply (wf_nodup _ W)].
      intros (r' & Hr' & ->)%fmap_Some. subst. intros Hch. by eapply Hc.
    + intros p r ch x. rewrite lookup_update_mod. case_decide; [|apply (wf_children _ W)].
      intros (r' & Hr' & ->)%fmap_Some. subst. intros Hch. by eapply Hc.
    + apply (wf_cache _ W).
  - intros p r Hr. rewrite lookup_update_mod. case_decide; [|by exists r].
    rewrite Hr. cbn. eexists. split; [done|]. apply Hf.
Qed.

Lemma keeps_shape_update_same m f st :
  (forall r, same_fixed r (f r) /\ m_children (f r) = m_children r) ->
  keeps_shape st (update_mod m f st).
Proof.
  intros Hf. apply keeps_shape_update; [apply Hf|]. intros W r ch Hr.
  rewrite (proj2 (Hf r)). intros Hch. split; [by eapply wf_nodup|]. intros x. by eapply wf_children.
Qed.

Lemma keeps_shape_cache (g : gmap jsstr cval -> gmap jsstr cval) (mm : option positive) tr st :
  (wf st -> forall f x, g (cache st) !! f = Some (CMod x) -> (x < next st)%positive) ->
  keeps_shape st (State (g (cache st)) (heap st) (next st) mm tr).
Proof.
  intros Hg W. split_and!; [|cbn; lia|intros m r Hr; by exists r].
  constructor; cbn; [apply (wf_heap _ W)|apply (wf_nodup _ W)|apply (wf_children _ W)|by apply Hg].
Qed.

Lemma keeps_shape_children p c scan st :
  (wf st -> forall x, c = CMod x -> (x < next st)%positive) ->
  (wf st -> scan = true \/ forall m r ch, heap st !! m = Some r -> m_children r = Some ch -> c ∉ ch) ->
  keeps_shape st (updateChildren p c scan st).
Proof.
  intros Hx Hc. destruct p as [p|]; [|done]. apply keeps_shape_update.
  - intros r. destruct (m_children r); [case_match|]; done.
  - intros W r ch Hr. destruct (m_children r) as [ch0|] eqn:Ech; [|congruence].
    destruct (scan && bool_decide (c ∈ ch0)) eqn:Es.
    { rewrite Ech. intros [= <-]. split; [by eapply wf_nodup|intros x; by eapply wf_children]. }
    intros [= <-].
    assert (c ∉ ch0) as Hni.
    { destruct (Hc W) as [->|Hf]; [|by eapply Hf]. cbn in Es. by apply bool_decide_eq_false in Es. }
    split.
    + apply NoDup_app. split_and!; [by eapply wf_nodup| |apply NoDup_singleton].
      intros x Hin ->%list_elem_of_singleton. done.
    + intros x [Hin| <-%list_elem_of_singleton]%elem_of_app; [by eapply wf_children|by apply Hx].
Qed.

Lemma remove_first_sub c l x : x ∈ remove_first c l -> x ∈ l.
Proof.
  induction l as [|y l IH]; [done|]. cbn. case_decide; [by right|].
  intros [->|Hin]%elem_of_cons; [left|right; auto].
Qed.

Lemma remove_first_nodup c l : NoDup l -> NoDup (remove_first c l) /\ c ∉ remove_first c l.
Proof.
  induction 1 as [|y l Hy HN [IH1 IH2]]; [split; [constructor|by intros ?%elem_of_nil]|].
  cbn. case_decide as Hd; [by subst|]. split.
  - constructor; [|done]. intros Hin%remove_first_sub. done.
  - intros [?|?]%elem_of_cons; [by subst|done].
Qed.

Lemma keeps_shape_abandoned f p m st : keeps_shape st (abandoned f p m st).
Proof.
  unfold abandoned. etrans.
  - apply (keeps_shape_cache (delete f) (mainModule st) (trace st) st). intros W g x [_ Hg]%lookup_delete_Some.
    by eapply wf_cache.
  - destruct p as [p|]; [|done]. apply keeps_shape_update.
    + intros r. by destruct (m_children r).
    + intros W r ch Hr. destruct (m_children r) as [ch0|] eqn:Ech; [|congruence]. intros [= <-].
      pose proof (wf_nodup _ W _ _ _ Hr Ech) as HN. split; [by apply remove_first_nodup|].
      intros x Hx%remove_first_sub. by eapply (wf_children _ W).
Qed.

Lemma keeps_shape_alloc r st :
  (m_children r = None \/ m_children r = Some []) ->
  wf st ->
  wf (State (cache st) (<[next st := r]> (heap st)) (Pos.succ (next st)) (mainModule st) (trace st)).
Proof.
  intros Hr W. constructor; cbn.
  - intros m r'. destruct (decide (m = next st)) as [->|Hm]; [lia|].
    rewrite lookup_insert_ne by done. intros ?%(wf_heap _ W). lia.
  - intros m r' ch. destruct (decide (m = next st)) as [->|Hm].
    + rewrite lookup_insert_eq. intros [= <-]. destruct Hr as [->| ->]; [done|]. intros [= <-]. constructor.
    + rewrite lookup_insert_ne by done. apply (wf_nodup _ W).
  - intros m r' ch x. destruct (decide (m = next st)) as [->|Hm].
    + rewrite lookup_insert_eq. intros [= <-]. destruct Hr as [->| ->]; [done|].
      intros [= <-] ?%elem_of_nil. done.
    + rewrite lookup_insert_ne by done. intros H1 H2 H3. pose proof (wf_children _ W _ _ _ _ H1 H2 H3). lia.
  - intros f x ?%(wf_cache _ W). lia.
Qed.

Lemma keeps_shape_fresh r st :
  (m_children r = None \/ m_children r = Some []) ->
  keeps_shape st
    (State (cache st) (<[next st := r]> (heap st)) (Pos.succ (next st)) (mainModule st) (trace st)).
Proof.
  intros Hr W. split_and!; [by apply keeps_shape_alloc|cbn; lia|].
  intros m r' Hm. cbn. rewrite lookup_insert_ne; [by exists r'|].
  intros <-. apply (wf_heap _ W) in Hm. lia.
Qed.

Lemma keeps_shape_trans_wf st1 st2 st3 :
  keeps_shape st1 st2 -> (wf st1 -> wf st2 -> keeps_shape st2 st3) -> keeps_shape st1 st3.
Proof.
  intros K1 K2 W. destruct (K1 W) as (W2 & _). by apply (transitivity K1 (K2 W W2)).
Qed.

Lemma keeps_shape_entered t f d p b st : keeps_shape st (entered t f d p b st).
Proof.
  unfold entered. set (r := Mod _ _ _ _ _ _ _ _).
  eapply keeps_shape_trans_wf; [by apply (keeps_shape_fresh r); right|]. intros W W1.
  set (st1 := State (cache st) (<[next st := r]> (heap st)) (Pos.succ (next st)) (mainModule st) (trace st)).
  eapply (keeps_shape_trans_wf _ (updateChildren p (CMod (next st)) false st1)).
  - apply keeps_shape_children.
    + intros _ x [= <-]. cbn. lia.
    + intros _. right. intros m r0 ch. cbn. destruct (decide (m = next st)) as [->|Hm].
      * rewrite lookup_insert_eq. intros [= <-] [= <-]. by intros ?%elem_of_nil.
      * rewrite lookup_insert_ne by done. intros H1 H2 H3.
        pose proof (wf_children _ W _ _ _ _ H1 H2 H3). lia.
  - intros _ _. set (st2 := updateChildren p (CMod (next st)) false st1).
    assert (next st2 = Pos.succ (next st)) as Hn by by destruct p.
    destruct b; [apply (keeps_shape_cache (<[f := CMod (next st)]>) (Some (next st)) (trace st2) st2)
                |apply (keeps_shape_cache (<[f := CMod (next st)]>) (mainModule st2) (trace st2) st2)];
      intros W2 g x;
      (destruct (decide (f = g)) as [->|]; [rewrite lookup_insert_eq; intros [= <-]; lia|]);
      rewrite lookup_insert_ne by done; apply (wf_cache _ W2).
Qed.

Lemma keeps_shape_ok E : node_loader_ok E -> primitive_ok true E keeps_shape.
Proof.
  intros HE. constructor; intros.
  - apply (keeps_shape_cache id (mainModule st) (trace st ++ [ev]) st). intros W. apply (wf_cache _ W).
  - by apply nl_shape.
  - by apply keeps_shape_fresh.
  - by apply keeps_shape_update_same.
  - by apply keeps_shape_update_same.
  - apply keeps_shape_children; [|by left]. intros W x ->. unfold cached_value in H.
    destruct (cache st !! filename) as [[|[]]|] eqn:Ec; try done. injection H as ->.
    by eapply wf_cache.
  - apply keeps_shape_entered.
  - etrans; [apply keeps_shape_entered|]. etrans; [done|]. apply keeps_shape_abandoned.
  - apply (keeps_shape_cache (<[f := v]>) (mainModule st) (trace st) st). intros W g x.
    destruct (decide (f = g)) as [->|]; [rewrite lookup_insert_eq|rewrite lookup_insert_ne by done].
    + intros [= ->]. destruct (H0 x eq_refl) as [r Hr]. by eapply wf_heap.
    + apply (wf_cache _ W).
  - apply (keeps_shape_cache (delete f) (mainModule st) (trace st) st). intros W g x [_ Hg]%lookup_delete_Some. by eapply wf_cache.
Qed.

(** ** Termination

    While no module edits [Module._cache], what is cached when a load starts
    is cached when it ends, so that nested loads are of ever fewer modules. *)

Definition cache_grows (st st' : state) : Prop :=
  forall f, is_Some (cached_value f st) -> is_Some (cached_value f st').

#[export] Instance cache_grows_preorder : PreOrder cache_grows.
Proof. split; [by intros st f|]. intros s1 s2 s3 H1 H2 f ?. by apply H2, H1. Qed.

Lemma cache_grows_same st st' : cache st' = cache st -> cache_grows st st'.
Proof. intros E f. unfold cached_value. by rewrite E. Qed.

Lemma cache_updateChildren p c scan st : cache (updateChildren p c scan st) = cache st.
Proof. by destruct p. Qed.

Lemma cache_entered t f d p b st :
  cache (entered t f d p b st) = <[f := CMod (next st)]> (cache st).
Proof. unfold entered. destruct b; cbn; by rewrite cache_updateChildren. Qed.

Lemma cache_abandoned f p m st : cache (abandoned f p m st) = delete f (cache st).
Proof. by destruct p. Qed.

Lemma cached_entered t f d p b st g :
  cached_value g (entered t f d p b st)
  = if decide (f = g) then Some (CMod (next st)) else cached_value g st.
Proof.
  unfold cached_value. rewrite cache_entered. case_decide; subst.
  - by rewrite lookup_insert_eq.
  - by rewrite lookup_insert_ne.
Qed.

Lemma cache_grows_ok E : node_loader_ok E -> primitive_ok false E cache_grows.
Proof.
  intros HE. constructor; intros; try (by apply cache_grows_same); try done.
  - apply cache_grows_same. by apply nl_cache.
  - apply cache_grows_same, cache_updateChildren.
  - intros g Hg. rewrite cached_entered. case_decide; [by eexists|done].
  - intros g Hg. assert (filename <> g) by (intros ->; rewrite H in Hg; by destruct Hg).
    assert (is_Some (cached_value g st')) as H'.
    { apply H0. rewrite cached_entered. by case_decide. }
    unfold cached_value in *. by rewrite cache_abandoned, lookup_delete_ne.
Qed.

Section Termination.
Context (E : env) (HE : node_loader_ok E) (HB : bodies_ok false E).
(** The identities whose payload is a function. *)
Context (U : gset jsstr).
Context (HU : forall t b, bundle_load E t = Ok (PFunction b) -> t ∈ U).

Definition pending (st : state) (t : jsstr) : Prop :=
  match path_join (root E) t with
  | Ok f => cached_value f st = None
  | Throw _ => False
  end.
#[local] Instance pending_dec st t : Decision (pending st t).
Proof. unfold pending. destruct (path_join _ _); apply _. Defined.

Definition todo (st : state) : gset jsstr := filter (pending st) U.

Lemma todo_grows st st' : cache_grows st st' -> todo st' ⊆ todo st.
Proof.
  intros H t. unfold todo. rewrite !elem_of_filter. intros [Hp Ht]. split; [|done].
  unfold pending in *. destruct (path_join _ _) as [f|]; [|done].
  destruct (cached_value f st) eqn:Ef; [|done].
  destruct (H f) as [c0 Hc]; [by eexists|]. congruence.
Qed.

Definition defined {A} (m : M A) (st : state) : Prop := exists st' r, m st = Some (st', r).

Lemma defined_bind {A B} (m : M A) (k : A -> M B) st :
  preserves cache_grows m -> defined m st ->
  (forall a st', cache_grows st st' -> defined (k a) st') -> defined (bind m k) st.
Proof.
  intros Hp (st' & r & Em) Hk. unfold defined, bind. rewrite Em. apply Hp in Em.
  destruct r as [a|e]; [by apply Hk|eauto].
Qed.

Lemma defined_catch {A B} (m : M A) (k : result A -> M B) st :
  preserves cache_grows m -> defined m st ->
  (forall a st', cache_grows st st' -> defined (k a) st') -> defined (catch m k) st.
Proof.
  intros Hp (st' & r & Em) Hk. unfold defined, catch. rewrite Em. apply Hp in Em. by apply Hk.
Qed.

Lemma defined_resolveFilename request parent isMain opts st :
  defined (_resolveFilename E request parent isMain opts) st.
Proof.
  unfold defined, _resolveFilename, bind, forward_resolve, throw, modify, lift.
  repeat (case_match; simplify_eq; try by eauto).
Qed.

Lemma defined_resolve m i request opts st : defined (resolve E m i request opts) st.
Proof.
  assert (forall req, defined (baseResolve E m req opts) st) as Hb.
  { intros req. unfold baseResolve, defined, bind, lift. destruct (validateString req _); [|eauto].
    apply defined_resolveFilename. }
  unfold resolve. destruct request; try apply Hb. destruct (negb _ || _); [apply Hb|].
  destruct (if hasPaths opts then _ else _); [unfold defined, bind; cbn; eauto|].
  destruct (bundle_resolve _ _ _ _); [unfold defined, bind; cbn; eauto|].
  destruct (isEmbedded s); [apply Hb|unfold defined, bind; cbn; eauto].
Qed.

Lemma todo_size st st' : cache_grows st st' -> (size (todo st') <= size (todo st))%nat.
Proof. intros H. by apply subseteq_size, todo_grows. Qed.

(** Entering a module of the container leaves fewer to load. *)
Lemma todo_entered t f d p b st :
  path_join (root E) t = Ok f -> t ∈ U -> cached_value f st = None ->
  (size (todo (entered t f d p b st)) < size (todo st))%nat.
Proof.
  intros Hf Ht Hc. apply subset_size. split.
  - apply todo_grows. by apply (pk_enter _ _ _ (cache_grows_ok E HE)).
  - intros Hsub. assert (t ∈ todo st) as Hin.
    { unfold todo. apply elem_of_filter. split; [|done]. unfold pending. by rewrite Hf. }
    apply Hsub in Hin. unfold todo in Hin. apply elem_of_filter in Hin as [Hp _].
    unfold pending in Hp. rewrite Hf, cached_entered in Hp. by case_decide.
Qed.

Section WithLoad.
Context (load : jsval -> option positive -> bool -> M jsval) (n : nat).
Context (Hpres : forall request parent isMain, preserves cache_grows (load request parent isMain)).
Context (Hdef : forall request parent isMain st,
           (size (todo st) < n)%nat -> defined (load request parent isMain) st).

Lemma defined_exec m i b st :
  cache_ops_ok false b -> (size (todo st) < n)%nat -> defined (exec E load m i b) st.
Proof.
  pose proof (cache_grows_ok E HE) as HG.
  assert (forall st st', (size (todo st) < n)%nat -> cache_grows st st' -> (size (todo st') < n)%nat)
    as Hless by (intros s1 s2 ? ?%todo_size; lia).
  revert st. induction b; cbn [cache_ops_ok exec]; intros st Hb Hn.
  - by eexists _, _.
  - by eexists _, _.
  - apply defined_catch; [eapply preserves_prototype_require; [apply _|done]|..|by eauto].
    unfold prototype_require, defined, bind, lift. destruct (validateString _ _); [|eauto].
    case_bool_decide; [unfold throw; eauto|by apply Hdef].
  - apply defined_catch; [by apply Hpres|by apply Hdef|by eauto].
  - apply defined_catch; [eapply preserves_resolve; [apply _|done]|apply defined_resolve|by eauto].
  - apply defined_catch; [eapply preserves_resolveFilename; [apply _|done]|apply defined_resolveFilename|by eauto].
  - apply defined_bind; [eapply preserves_alloc; eauto|by eexists _, _|by eauto].
  - apply defined_bind; [eapply preserves_alloc; eauto|by eexists _, _|by eauto].
  - apply defined_bind; [|by eexists _, _|by eauto].
    apply preserves_modify. intros. apply (pk_exports _ _ _ HG).
  - by destruct Hb.
  - by destruct Hb.
Qed.

Lemma defined_payload t f d p b st :
  path_join (root E) t = Ok f -> cached_value f st = None -> (size (todo st) < S n)%nat ->
  defined (load_payload E load t (next st)) (entered t f d p b st).
Proof.
  intros Hf Hc Hn. unfold load_payload. destruct (nativeSidecars E t) as [sidecar|].
  { unfold defined, bind, lift. destruct (path_join (root E) sidecar); [|eauto].
    destruct (negb _); [unfold throw; eauto|]. unfold modify, get.
    destruct (dlopen E _ _); eauto. }
  unfold defined, bind, lift. destruct (bundle_load E t) as [[text|b']|] eqn:Eb; [..|eauto].
  { destruct (json_parse E text); unfold modify; eauto. }
  unfold modify. apply defined_exec; [by eapply HB|].
  pose proof (todo_entered t f d p b st Hf (HU _ _ Eb) Hc). 
  assert (forall ev st, todo (log ev st) = todo st) as -> by done. lia.
Qed.

Lemma defined_loadIdentity t p b st :
  (size (todo st) < S n)%nat -> defined (loadIdentity E load t p b) st.
Proof.
  intros Hn. unfold defined. rewrite loadIdentity_eq.
  destruct (path_join _ _) as [f|] eqn:Ef; [|eauto].
  destruct (cached_value f st) eqn:Ec; [eauto|].
  destruct (path_dirname f) as [d|]; [|eauto].
  destruct (defined_payload t f d p b st Ef Ec Hn) as (st' & [?|?] & ->); eauto.
Qed.

Lemma defined_load_with request p b st :
  (size (todo st) < S n)%nat -> defined (_load_with E load request p b) st.
Proof.
  intros Hn.
  assert (forall r, defined (forward E r p b) st) as Hf.
  { intros r. unfold defined, forward. destruct (originalLoad _ _ _ _ _). eauto. }
  assert (forall o q i j t, defined (bind (modify (logOutcome E o q i j))
            (fun _ => loadIdentity E load t p false)) st) as Hl.
  { intros. unfold defined, bind, modify. apply defined_loadIdentity.
    unfold logOutcome. by destruct (debugBundle E). }
  unfold _load_with. destruct request; try apply Hf. destruct (is_requirable s); [apply Hf|].
  unfold bind at 1. unfold defined. destruct (identityOf E p st) as [[i|]|]; [..|eauto].
  - destruct (lookup_edge E i s); [apply Hl|]. destruct (bundle_resolve _ _ _ _); [apply Hl|].
    destruct (isEmbedded s); [apply Hf|]. unfold bind, throw; cbn; eauto.
  - destruct (isEmbedded s); [apply Hf|]. unfold bind, throw; cbn; eauto.
Qed.
End WithLoad.

Lemma defined_load fuel request p b st :
  (size (todo st) < fuel)%nat -> defined (_load E fuel request p b) st.
Proof.
  revert request p b st. induction fuel as [|fuel IH]; intros request p b st Hn; [lia|].
  cbn [_load]. apply (defined_load_with (_load E fuel) fuel); [|done|done].
  intros. by apply (preserves_load false E cache_grows (cache_grows_ok E HE) HB).
Qed.

Lemma defined_run fuel st : (size U < fuel)%nat -> defined (run E fuel) st.
Proof.
  intros Hn.
  assert (forall r p b, preserves cache_grows (_load E fuel r p b)) as Hp
    by (intros; by apply (preserves_load false E cache_grows (cache_grows_ok E HE) HB)).
  assert (forall st, (size (todo st) < S fuel)%nat) as Hs.
  { intros st0. assert (size (todo st0) <= size U)%nat by (apply subseteq_size; by intros t [_ ?]%elem_of_filter). lia. }
  assert (forall t p b st, defined (loadIdentity E (_load E fuel) t p b) st) as Hl.
  { intros. apply (defined_loadIdentity (_load E fuel) fuel); [done|apply defined_load|done]. }
  assert (forall t p b, preserves cache_grows (loadIdentity E (_load E fuel) t p b)) as Hpl
    by (intros; by apply (preserves_loadIdentity false E cache_grows (cache_grows_ok E HE) HB)).
  unfold run. apply defined_bind; [| |intros; apply Hl].
  - induction (preloads E); [apply preserves_ret; apply _|]. cbn [run_preloads].
    apply preserves_bind; [apply _|auto|auto].
  - revert st. induction (preloads E) as [|t l IH]; intros st; [by eexists _, _|].
    cbn [run_preloads]. apply defined_bind; auto.
Qed.
End Termination.
