(* ===== verification/BundleClaims.v ===== *)
(** * The bundle loader: its theorems

    The closed world and the shape of the records over whole runs,
    termination, what one call does (hit, failure), the agreement of
    [require] and [require.resolve], identities and cache keys, and the
    suggestion printed for a module that is missing. *)

From S2P Require Import Prelude JsString Path PathSpec PathPosix PathPosixFacts PathParse Realm.
From S2P Require Import BundleLoader BundleLoaderFacts.
Import Bundle.

(** ** A small bundle, for the witnesses *)

(** [main.js] requires [./a] twice, around a builtin; [a.js] requires
    [./main.js], a cycle; [bad.js] throws. *)
Definition demo_load (t : jsstr) : result payload :=
  if bool_decide (t = "main.js") then
    Ok (PFunction (Require None (VString "./a") (fun _ =>
         Require None (VString "fs") (fun _ => Require None (VString "./a") (fun r =>
         match r with Ok v => SetExports v Done | Throw e => Fail e end)))))
  else if bool_decide (t = "a.js") then
    Ok (PFunction (Require None (VString "./main") (fun _ => SetExports (VNumber 7) Done)))
  else if bool_decide (t = "bad.js") then Ok (PFunction (Fail (JsError "E_BAD" [])))
  else Throw (JsError [] ["no such module"]).

Definition demo_edge (importer request : jsstr) : option jsstr :=
  if bool_decide (request = "./a") then Some "a.js"
  else if bool_decide (request = "./main") then Some "main.js"
  else if bool_decide (request = "./bad") then Some "bad.js"
  else None.

Definition demo : env := Env "/app" "main.js" [] [] demo_edge (fun _ _ _ => None) demo_load
  (fun _ _ _ st => (st, Ok VNull)) (fun _ _ _ _ => Ok "fs") (fun _ => false)
  (fun v _ => Ok v) (fun _ => Ok VNull) (Ok "/w") None.

Lemma demo_node_ok : node_loader_ok demo.
Proof. by constructor. Qed.

Lemma demo_bodies_ok b : bodies_ok b demo.
Proof.
  intros t k. cbn. unfold demo_load. repeat case_bool_decide; intros [= <-]; cbn; try done.
  intros _ _ [v|e]; done.
Qed.

Lemma demo_functions t b : bundle_load demo t = Ok (PFunction b) ->
  t ∈ ({["main.js"; "a.js"; "bad.js"]} : gset jsstr).
Proof. cbn. unfold demo_load. repeat case_bool_decide; intros [= <-]; subst; set_solver. Qed.

(** ** Whole runs *)

(** C1. Closed world: whatever the bundled modules do, the only requests that
    reach Node's own loader or resolver are the ones it answers from the
    binary (a name [normalizeRequirableId] accepts), the ones that are not
    strings and, for resolution, calls with a malformed [paths]. *)
Theorem bundle_closed_world E fuel :
  node_loader_ok E ->
  (forall request parent isMain st st' r,
     _load E fuel request parent isMain st = Some (st', r) -> only_closed st st') /\
  (forall st' r, run E fuel init = Some (st', r) -> Forall closed_event (trace st')).
Proof.
  intros HE. pose proof (only_closed_ok E HE) as HO.
  assert (bodies_ok true E) as HB by (intros t b _; apply cache_ops_ok_true). split.
  - intros. by eapply (preserves_load true E only_closed HO HB).
  - intros st' r H. eapply (preserves_run true E only_closed HO HB) in H as (l & El & Hl).
    by rewrite El.
Qed.

Lemma bundle_closed_world_witness :
  exists st', run demo 9 init = Some (st', Ok (VNumber 7)) /\
    trace st' = [EvExec "main.js"; EvExec "a.js"; EvForward (VString "fs")] /\
    Forall closed_event (trace st').
Proof.
  eexists. split; [vm_compute; reflexivity|]. split; [reflexivity|].
  eapply (proj2 (bundle_closed_world demo 9 demo_node_ok)). vm_compute. reflexivity.
Defined.

(** Every run keeps the module records well formed: each [children] array
    lists existing objects, each once, whatever is required, retried, cached
    or evicted; and a record's id, filename, parent and identity never change. *)
Theorem bundle_records_wellformed E fuel request parent isMain st st' r :
  node_loader_ok E -> wf st ->
  _load E fuel request parent isMain st = Some (st', r) ->
  wf st' /\ forall m rec, heap st !! m = Some rec ->
    exists rec', heap st' !! m = Some rec' /\ same_fixed rec rec'.
Proof.
  intros HE W H. pose proof (keeps_shape_ok E HE) as HK.
  assert (bodies_ok true E) as HB by (intros t b _; apply cache_ops_ok_true).
  eapply (preserves_load true E keeps_shape HK HB) in H. destruct (H W) as (W' & _ & Hf). auto.
Qed.

Lemma wf_init : wf init.
Proof. by constructor. Qed.

(** A state with a main module, as [run] leaves it. *)
Lemma wf_main_record : wf (entered "main.js" "/app/main.js" "/app" None true init).
Proof. apply keeps_shape_entered, wf_init. Qed.

Lemma bundle_records_wellformed_witness :
  exists st' r, _load demo 9 (VString "./a") (Some 1%positive) false
                  (entered "main.js" "/app/main.js" "/app" None true init) = Some (st', r) /\ wf st'.
Proof.
  eexists _, _. split; [vm_compute; reflexivity|].
  eapply (bundle_records_wellformed demo 9 (VString "./a") (Some 1%positive) false);
    [apply demo_node_ok|apply wf_main_record|vm_compute; reflexivity].
Defined.

(** C36. A bundle whose modules leave [Module._cache] alone always finishes
    loading: with [n] modules of code, [n + 1] nested requires are enough for
    [run] to return or throw, whatever cycles the modules form. *)
Theorem bundle_run_terminates (E : env) (U : gset jsstr) fuel st :
  node_loader_ok E -> bodies_ok false E ->
  (forall t b, bundle_load E t = Ok (PFunction b) -> t ∈ U) ->
  (size U < fuel)%nat ->
  exists st' r, run E fuel st = Some (st', r).
Proof. intros HE HB HU Hf. by apply (defined_run E HE HB U HU). Qed.

Lemma bundle_run_terminates_witness : exists st' r, run demo 4 init = Some (st', r).
Proof.
  apply (bundle_run_terminates demo {["main.js"; "a.js"; "bad.js"]});
    [apply demo_node_ok|apply demo_bodies_ok|apply demo_functions|].
  vm_compute. lia.
Defined.

(** ** One call *)

(** A failed load leaves nothing behind: when instantiating a module
    throws, its filename is not cached afterwards and its importer's
    [children] do not list it, so that a retry loads it again. *)
Theorem bundle_failed_load_leaves_no_trace E fuel target parent isMain filename st st' e :
  node_loader_ok E -> wf st ->
  path_join (root E) target = Ok filename -> cached_value filename st = None ->
  loadIdentity E (_load E fuel) target parent isMain st = Some (st', Throw e) ->
  cache st' !! filename = None /\
  forall p r ch, parent = Some p -> heap st' !! p = Some r -> m_children r = Some ch ->
    CMod (next st) ∉ ch.
Proof.
  intros HE W Hf Hc. rewrite loadIdentity_eq, Hf, Hc.
  destruct (path_dirname filename) as [dirname|] eqn:Ed.
  2: { unfold path_dirname, Posix.dirname in Ed. cbn [validateString result_bind] in Ed.
       by destruct (len filename =? 0). }
  destruct (load_payload _ _ _ _ _) as [[st1 [[]|e1]]|] eqn:Ep; [done| |done]. intros [= <- <-].
  assert (keeps_shape st st1) as HK.
  { pose proof (keeps_shape_ok E HE) as HK.
    assert (bodies_ok true E) as HB by (intros t b _; apply cache_ops_ok_true).
    etrans; [apply (keeps_shape_entered target filename dirname parent isMain st)|].
    eapply (preserves_payload true E keeps_shape HK HB); [|exact Ep].
    intros. by eapply (preserves_load true E keeps_shape HK HB). }
  destruct (HK W) as (W1 & _). split.
  - by rewrite cache_abandoned, lookup_delete_eq.
  - intros p r ch -> Hr Hch. unfold abandoned, removeChild in Hr. rewrite lookup_update_mod in Hr.
    rewrite decide_True in Hr by done. apply fmap_Some in Hr as (r0 & Hr0 & ->).
    destruct (m_children r0) as [ch0|] eqn:Ech; [|congruence]. injection Hch as <-.
    apply remove_first_nodup. by eapply (wf_nodup _ W1).
Qed.

Lemma bundle_failed_load_leaves_no_trace_witness :
  exists st', loadIdentity demo (_load demo 3) "bad.js" (Some 1%positive) false
      (entered "main.js" "/app/main.js" "/app" None true init) = Some (st', Throw (JsError "E_BAD" [])) /\
    cache st' !! ("/app/bad.js" : jsstr) = None.
Proof.
  eexists. split; [vm_compute; reflexivity|].
  eapply (bundle_failed_load_leaves_no_trace demo 3 "bad.js" (Some 1%positive) false "/app/bad.js");
    [apply demo_node_ok|apply wf_main_record|vm_compute; reflexivity..].
Defined.

(** A module in the cache is answered from it, loaded or not: no payload is
    fetched and nothing runs, the importer's [children] gain it, and the answer
    is its current [exports], which is what ends circular requires. *)
Theorem bundle_cached_module_not_rerun E load target parent isMain filename m st :
  path_join (root E) target = Ok filename ->
  cached_value filename st = Some (CMod m) ->
  exists st', loadIdentity E load target parent isMain st = Some (st', Ok (exports_of m st)) /\
    cache st' = cache st /\ trace st' = trace st /\ mainModule st' = mainModule st /\
    (forall p r ch, parent = Some p -> heap st !! p = Some r -> m_children r = Some ch ->
       exists r', heap st' !! p = Some r' /\
         m_children r' = Some (if decide (CMod m ∈ ch) then ch else ch ++ [CMod m])).
Proof.
  intros Hf Hc. rewrite loadIdentity_eq, Hf, Hc. cbv zeta.
  exists (updateChildren parent (CMod m) true st).
  split; [|rewrite cache_updateChildren, trace_updateChildren; split_and!; [done..|by destruct parent|]].
  - cbn [exports_cval]. do 3 f_equal. unfold exports_of. destruct parent as [p|]; [|done].
    unfold updateChildren. rewrite lookup_update_mod. case_decide; [subst|done].
    destruct (heap st !! m) as [r|]; [|done]. cbn. destruct (m_children r); [|done]. by case_match.
  - intros p r ch -> Hr Hch. unfold updateChildren. rewrite lookup_update_mod, decide_True, Hr by done.
    cbn [fmap option_fmap option_map]. rewrite Hch. cbn [andb]. eexists. split; [done|].
    case_bool_decide; case_decide; done.
Qed.

Lemma bundle_cached_module_not_rerun_witness :
  exists st', loadIdentity demo (_load demo 0) "main.js" None false
      (entered "main.js" "/app/main.js" "/app" None true init) = Some (st', Ok (VObject 1)) /\
    trace st' = [].
Proof.
  destruct (bundle_cached_module_not_rerun demo (_load demo 0) "main.js" None false "/app/main.js" 1
    (entered "main.js" "/app/main.js" "/app" None true init))
    as (st' & H1 & _ & H2 & _); [vm_compute; reflexivity..|].
  exists st'. by rewrite H1, H2.
Defined.

(** ** [require] and [require.resolve] agree *)

(** Who answers a request of a bundled importer, and with what. *)
Inductive answer :=
  | ANode (request : jsstr)
  | AContainer (how identity : jsstr)
  | AMissing.

Definition classify (E : env) (importer request : jsstr) : answer :=
  if is_requirable request then ANode request
  else match lookup_edge E importer request with
       | Some t => AContainer "edge" t
       | None =>
           match bundle_resolve E importer request None with
           | Some t => AContainer "resolve" t
           | None => if isEmbedded request then ANode (embeddedRequest request) else AMissing
           end
       end.

(** What loading and resolving do with an answer. *)
Definition load_answer (E : env) fuel importer request parent isMain (a : answer) : M jsval :=
  fun st => match a with
  | ANode q => forward E (VString q) (Some parent) isMain st
  | AContainer how t =>
      loadIdentity E (_load E fuel) t (Some parent) false (logOutcome E how request importer (Some t) st)
  | AMissing => Some (logOutcome E "miss" request importer None st,
                      Throw (notInBundle E request importer true))
  end.

Definition resolve_answer (E : env) importer request parent isMain (a : answer) : M jsstr :=
  fun st => match a with
  | ANode q => forward_resolve E (VString q) (Some parent) isMain NoPaths st
  | AContainer how t => Some (logOutcome E how request importer (Some t) st, path_join (root E) t)
  | AMissing => Some (logOutcome E "miss" request importer None st,
                      Throw (notInBundle E request importer true))
  end.



(** ** Identities and filenames *)

(** Below the bundle root, identities and filenames correspond: a module's
    filename determines its identity (so [Module._cache] serves as the only
    cache), a [require] made by [Module.createRequire] for that file has the
    module's identity as importer, and a file outside the root has none. *)
Theorem bundle_identity_of_filename E c rs ident filename :
  normal_cwd c -> cwd E = Ok c -> clean rs -> root E = abs_path rs ->
  clean ident -> ident <> [] -> path_join (root E) (join "/" ident) = Ok filename ->
  (forall ident', clean ident' -> ident' <> [] ->
     path_join (root E) (join "/" ident') = Ok filename -> ident' = ident) /\
  (forall st p r, heap st !! p = Some r -> m_identity r = None ->
     m_filename r = VString filename -> identityOf E (Some p) st = Ok (Some (join "/" ident))) /\
  (forall st p r file, heap st !! p = Some r -> m_identity r = None ->
     clean file -> (forall t, file <> rs ++ t) ->
     m_filename r = VString (abs_path file) -> identityOf E (Some p) st = Ok None).
Proof.
  intros Hc Hcwd Hrs Hroot Hi Hne. unfold path_join. rewrite Hroot, join_root by done.
  intros Hfile. assert (filename = abs_path (rs ++ ident)) as -> by congruence. clear Hfile.
  split_and!.
  - intros ident' Hi' Hne'. rewrite join_root by done. intros E'.
    assert (abs_path (rs ++ ident') = abs_path (rs ++ ident)) as E2 by congruence.
    apply abs_path_inj in E2; [|by apply clean_app..]. by apply app_inv_head in E2.
  - intros st p r Hp Hid Hfn. unfold identityOf, path_relative. rewrite Hp, Hid, Hfn, Hcwd, Hroot.
    rewrite relative_join_root by done. cbn [result_bind].
    destruct (clean_not_up ident Hi Hne) as (H1 & H2 & H3 & H4).
    by rewrite !bool_decide_eq_false_2 by done.
  - intros st p r file Hp Hid Hf Hout Hfn. unfold identityOf, path_relative.
    rewrite Hp, Hid, Hfn, Hcwd, Hroot.
    destruct (relative_outside c rs file Hc Hrs Hf Hout) as [l ->]. cbn [result_bind].
    destruct l as [|y l]; [done|].
    rewrite (bool_decide_eq_true_2 (slice (join "/" (dotdot :: y :: l)) 0 3 = "../")).
    + by rewrite orb_true_r.
    + by apply (slice_prefix "../").
Qed.

Lemma bundle_identity_of_filename_witness :
  identityOf demo (Some 1%positive)
    (State ∅ {[ 1%positive := Mod "/app/lib/x.js" VNull false (VString "/app/lib/x.js") "/app/lib"
                               None (Some []) None ]} 2 None [])
  = Ok (Some ("lib/x.js" : jsstr)).
Proof.
  eapply (bundle_identity_of_filename demo "/w" ["app"] ["lib"; "x.js"] "/app/lib/x.js");
    [exists ["w"]; split; [by repeat constructor|done]|done|by repeat constructor|done
    |by repeat constructor|done|vm_compute; reflexivity|reflexivity..].
Defined.

(** ** The suggestion of the missing-module error *)

Lemma dirname_nonempty p : exists d, path_dirname p = Ok d /\ d <> [].
Proof.
  destruct (path_root_cases p) as [([|k] & ->)|(r & d & b & k & -> & Hr & Habs & Hd & Hrd & Hb & Hne)].
  - by exists ".".
  - exists "/". split; [apply slashes_only|done].
  - exists (dirname_of (r ++ d)). unfold path_dirname. rewrite (app_assoc r d), dirname_spec by done.
    split; [done|]. clear -Hrd. revert Hrd. generalize (r ++ d). intros x Hrd.
    unfold dirname_of. repeat (case_bool_decide; [done|]).
    destruct Hrd as [?|([|c d'] & ->)]; [done..|].
    unfold dir_text. by rewrite slice_prefix by len_lia.
Qed.

(** [path.join(d, request)] for a relative request leads where changing to [d]
    and then following the request leads. *)
Lemma join_relative_cd d request :
  d <> [] -> request <> [] -> is_abs request = false ->
  exists t, path_join d request = Ok t /\
    forall dir, cd slash dir t = cd slash (cd slash dir d) request.
Proof.
  intros Hd Hr Habs. unfold path_join. rewrite join_two by done.
  destruct (normalize_idempotent_and_sound (d ++ "/" ++ request) []) as (t & Ht & _ & _).
  exists t. split; [done|]. intros dir.
  destruct (normalize_idempotent_and_sound (d ++ "/" ++ request) dir) as (t' & Ht' & _ & E).
  assert (t' = t) as -> by congruence. by rewrite E, cd_app.
Qed.

Lemma cd_dot_slash dir p : is_abs p = false -> clean dir -> cd slash dir ("./" ++ p) = cd slash dir p.
Proof.
  intros Hp Hd. change ("./" ++ p) with (dot ++ "/" ++ p). rewrite cd_app by done. f_equal.
  unfold cd. change (norm_segs false (dir ++ dot :: []) = dir). rewrite norm_segs_skip by auto.
  rewrite app_nil_r. by apply norm_segs_plain, clean_plain.
Qed.

(** The [--include] value computed for a relative request that is missing
    names, from the entry's directory, the file the request names from the
    importer's directory; no value is printed exactly when that file is the
    entry's directory itself. *)
Theorem bundle_include_suggestion_sound E c importer request :
  normal_cwd c -> cwd E = Ok c -> charAt request 0 = "." ->
  exists importerDir entryDir o,
    path_dirname importer = Ok importerDir /\ path_dirname (entry E) = Ok entryDir /\
    includeSuggestion E request importer true = Ok o /\
    Posix.resolve (Ok c) [VString importerDir; VString request]
    = Posix.resolve (Ok c) (VString entryDir :: match o with Some v => [VString v] | None => [] end).
Proof.
  intros Hc Hcwd Hdot. destruct (dirname_nonempty importer) as (di & Hdi & Hdi0).
  destruct (dirname_nonempty (entry E)) as (de & Hde & Hde0).
  assert (request <> [] /\ is_abs request = false) as [Hr0 Hrel].
  { destruct request as [|x request]; [done|]. split; [done|].
    change (charAt (x :: request) 0) with [x] in Hdot. by injection Hdot as ->. }
  destruct (join_relative_cd di request Hdi0 Hr0 Hrel) as (t & Ht & Hcd).
  destruct (relative_roundtrip c de t Hc) as (v & Hv & Hres & Hvabs).
  destruct Hc as (dir & Hdir & ->).
  rewrite (resolve_two _ dir), (resolve_one _ dir) in Hres by done.
  assert (cd slash (cd slash dir de) v = cd slash (cd slash dir di) request) as Hsame.
  { rewrite <- Hcd. assert (abs_path (cd slash (cd slash dir de) v) = abs_path (cd slash dir t)) as E' by congruence.
    by apply abs_path_inj in E'; [|by repeat apply cd_clean..]. }
  exists di, de. unfold includeSuggestion, path_relative.
  rewrite Hdot, bool_decide_eq_true_2, Hdi, Hde, Hcwd by done. cbn [negb result_bind].
  rewrite Ht. cbn [result_bind]. rewrite Hv. cbn [result_bind]. eexists. split_and!; [done..|].
  rewrite (resolve_two _ dir) by done. rewrite <- Hsame.
  case_bool_decide as Ev; [subst v|].
  - rewrite (resolve_one _ dir) by done. by rewrite cd_empty by apply cd_plain.
  - rewrite (resolve_two _ dir) by done. case_bool_decide; [done|].
    by rewrite cd_dot_slash by (done || by apply cd_clean).
Qed.

Lemma bundle_include_suggestion_sound_witness :
  includeSuggestion demo "./helper" "node_modules/foo/index.js" true
    = Ok (Some ("./node_modules/foo/helper" : jsstr)) /\
  exists importerDir entryDir o,
    path_dirname "node_modules/foo/index.js" = Ok importerDir /\ path_dirname (entry demo) = Ok entryDir /\
    includeSuggestion demo "./helper" "node_modules/foo/index.js" true = Ok o /\
    Posix.resolve (Ok "/w") [VString importerDir; VString "./helper"]
    = Posix.resolve (Ok "/w") (VString entryDir :: match o with Some v => [VString v] | None => [] end).
Proof.
  split; [vm_compute; reflexivity|].
  apply (bundle_include_suggestion_sound demo "/w"); [|reflexivity..].
  exists ["w"]. split; [by repeat constructor|done].
Defined.

(** A file in a directory whose name starts with a dot is suggested without
    [./], which is the form of a bare specifier. *)
Lemma include_suggestion_hidden_dir :
  includeSuggestion demo "./.config/x" "main.js" true = Ok (Some (".config/x" : jsstr)).
Proof. vm_compute. reflexivity. Qed.
