(* ===== verification/PriorityQueueFacts.v ===== *)
(** * The priority queue: heap order, items and positions

    The loops of the queue move a hole through the array.  Moving the hole
    keeps the multiset of items and the recorded positions, whichever way it
    goes; the order invariant is specific to each loop. *)

From S2P Require Import Prelude PriorityQueue.
Import PriorityQueue.

(** Halving, in [lia]. *)
Ltac Zify.zify_post_hook ::= Z.to_euclidean_division_equations.

(** Exchanging two elements of a list. *)
Lemma insert_swap_Permutation {A} (l : list A) i j x y :
  l !! i = Some x -> l !! j = Some y -> <[i := y]> (<[j := x]> l) ≡ₚ l.
Proof.
  intros Hi Hj. apply lookup_lt_Some in Hi as Li, Hj as Lj.
  apply Permutation_inj. split; [by rewrite !length_insert|].
  exists (fun k => if decide (k = i) then j else if decide (k = j) then i else k). split.
  - intros k1 k2. repeat case_decide; congruence.
  - intros k. repeat case_decide; subst.
    + by rewrite list_lookup_insert_eq by by rewrite length_insert.
    + by rewrite list_lookup_insert_ne, list_lookup_insert_eq.
    + by rewrite !list_lookup_insert_ne.
Qed.

Section Facts.
Context {V : Type} `{EqDecision V} (undefined : V).
Context (compare : V -> V -> Z) (hasSetPosition : bool).

Abbreviation get := (arr_get undefined).
Abbreviation set := (arr_set undefined).
Abbreviation tell := (tell hasSetPosition).
Abbreviation queue := (queue (V := V)).

(** The comparator orders: its sign is antisymmetric, and it is transitive. *)
Class Comparator : Prop := {
  compare_sym a b : compare a b < 0 <-> 0 < compare b a;
  compare_trans a b c : compare a b <= 0 -> compare b c <= 0 -> compare a c <= 0;
}.

(** The items in slots 1 to [n]. *)
Definition items (h : list V) (n : Z) : list V := get h <$> seqZ 1 n.

Definition heap_ordered (h : list V) (n : Z) : Prop :=
  forall i, 2 <= i <= n -> compare (get h (i / 2)) (get h i) <= 0.

(** Every item but the one of slot [pos] knows its slot. *)
Definition tracked (h : list V) (p : V -> option Z) (pos n : Z) : Prop :=
  forall i, 1 <= i <= n -> i <> pos -> p (get h i) = Some i.

Record wf (q : queue) : Prop := Wf {
  wf_size : 0 <= size q < 2147483648;
  wf_order : heap_ordered (heap q) (size q);
  wf_above : forall i, size q < i -> get (heap q) i = undefined;
  wf_distinct : hasSetPosition = true -> NoDup (items (heap q) (size q));
  wf_tracked : hasSetPosition = true -> forall i, 1 <= i <= size q -> positions q (get (heap q) i) = Some i;
}.

Lemma get_set h i v j :
  0 <= i -> get (set h i v) j = if decide (i = j) then v else get h j.
Proof. apply arr_get_set. Qed.

Lemma items_lookup h n i : 1 <= i <= n -> items h n !! Z.to_nat (i - 1) = Some (get h i).
Proof.
  intros Hi. unfold items. rewrite list_lookup_fmap, lookup_seqZ_lt by lia. cbn. do 2 f_equal. lia.
Qed.

Lemma length_items h n : length (items h n) = Z.to_nat n.
Proof. unfold items. by rewrite length_fmap, length_seqZ. Qed.

Lemma items_set h n i v : 1 <= i <= n -> items (set h i v) n = <[Z.to_nat (i - 1) := v]> (items h n).
Proof.
  intros Hi. apply list_eq. intros k. destruct (decide (k < Z.to_nat n)%nat) as [Hk|Hk].
  - replace k with (Z.to_nat (Z.of_nat k + 1 - 1)) at 1 by lia. rewrite items_lookup by lia.
    rewrite get_set by lia. case_decide.
    + replace k with (Z.to_nat (i - 1)) by lia. rewrite list_lookup_insert_eq; [done|].
      rewrite length_items. lia.
    + rewrite list_lookup_insert_ne by lia.
      replace k with (Z.to_nat (Z.of_nat k + 1 - 1)) at 2 by lia. by rewrite items_lookup by lia.
  - rewrite !lookup_ge_None_2; [done|rewrite length_insert|]; rewrite length_items; lia.
Qed.

Lemma items_elem h n x : x ∈ items h n <-> exists i, 1 <= i <= n /\ x = get h i.
Proof.
  clear compare hasSetPosition. unfold items. rewrite list_elem_of_fmap. setoid_rewrite elem_of_seqZ.
  split; intros (i & ? & ?); exists i; (split; [|lia || done]); (done || lia).
Qed.

Lemma items_ext h h' n : (forall i, 1 <= i <= n -> get h i = get h' i) -> items h n = items h' n.
Proof.
  intros H. unfold items. apply list_fmap_ext. intros k i [? ?]%lookup_seqZ. apply H. lia.
Qed.

Lemma items_succ h n : 0 <= n -> items h (n + 1) = items h n ++ [get h (n + 1)].
Proof.
  intros Hn. unfold items. rewrite seqZ_app by lia. rewrite fmap_app. do 2 f_equal.
  by rewrite Z.add_comm.
Qed.

Lemma NoDup_get h n i j :
  NoDup (items h n) -> 1 <= i <= n -> 1 <= j <= n -> get h i = get h j -> i = j.
Proof.
  intros HN Hi Hj E. pose proof (items_lookup h n i Hi) as Li. pose proof (items_lookup h n j Hj) as Lj.
  rewrite E in Li. pose proof (NoDup_lookup _ _ _ _ HN Li Lj). lia.
Qed.

(** ** Moving the hole *)

Lemma move_items h n pos c item :
  1 <= pos <= n -> 1 <= c <= n -> c <> pos ->
  items (set (set h pos (get h c)) c item) n ≡ₚ items (set h pos item) n.
Proof.
  intros Hp Hc Hne. rewrite !items_set by lia.
  set (l := <[Z.to_nat (pos - 1) := item]> (items h n)).
  replace (<[Z.to_nat (c - 1):=item]> (<[Z.to_nat (pos - 1):=get h c]> (items h n)))
    with (<[Z.to_nat (c - 1):=item]> (<[Z.to_nat (pos - 1):=get h c]> l)).
  2: { unfold l. by rewrite list_insert_insert_eq. }
  apply insert_swap_Permutation; unfold l.
  - rewrite list_lookup_insert_ne by lia. by apply items_lookup.
  - rewrite list_lookup_insert_eq; [done|]. rewrite length_items. lia.
Qed.

Lemma move_tracked h n pos c item p :
  hasSetPosition = true -> NoDup (items (set h pos item) n) ->
  1 <= pos <= n -> 1 <= c <= n -> c <> pos ->
  tracked h p pos n -> tracked (set h pos (get h c)) (tell (get h c) pos p) c n.
Proof.
  intros Hs HN Hp Hc Hne HT i Hi Hic. unfold PriorityQueue.tell. rewrite Hs, get_set by lia.
  destruct (decide (pos = i)) as [E1|E1]; [subst; by rewrite decide_True|].
  rewrite decide_False; [by apply HT|]. intros E.
  apply Hic. apply (NoDup_get _ _ i c HN); [lia..|].
  rewrite !get_set by lia. by rewrite !decide_False by lia.
Qed.

Lemma settle_tracked h n pos item p :
  hasSetPosition = true -> NoDup (items (set h pos item) n) -> 1 <= pos <= n ->
  tracked h p pos n ->
  forall i, 1 <= i <= n -> tell item pos p (get (set h pos item) i) = Some i.
Proof.
  intros Hs HN Hp HT i Hi. unfold PriorityQueue.tell. rewrite Hs, get_set by lia.
  destruct (decide (pos = i)) as [E1|E1]; [subst; by rewrite decide_True|].
  rewrite decide_False; [by apply HT|]. intros E.
  apply E1. symmetry. apply (NoDup_get _ _ i pos HN); [lia..|].
  rewrite !get_set by lia. by rewrite decide_False, decide_True by lia.
Qed.

(** ** Going down *)

Context `{!Comparator}.

Lemma compare_ge a b : 0 <= compare a b -> compare b a <= 0.
Proof. pose proof (compare_sym a b). lia. Qed.

(** The order, the hole at [pos] left out; its parent is below [item] and
    below its children. *)
Record down_inv (item : V) (h : list V) (pos n : Z) : Prop := DownInv {
  di_edge : forall i, 2 <= i <= n -> i / 2 <> pos -> i <> pos ->
    compare (get h (i / 2)) (get h i) <= 0;
  di_item : 2 <= pos -> compare (get h (pos / 2)) item <= 0;
  di_skip : forall i, 2 <= i <= n -> i / 2 = pos -> 2 <= pos ->
    compare (get h (pos / 2)) (get h i) <= 0;
}.

(** What a loop delivers: a slot for [item]. *)
Record settled (item : V) (h : list V) (p : V -> option Z) (pos n : Z)
    (h' : list V) (p' : V -> option Z) (pos' : Z) : Prop := Settled {
  st_range : 1 <= pos' <= n;
  st_order : heap_ordered (set h' pos' item) n;
  st_items : items (set h' pos' item) n ≡ₚ items (set h pos item) n;
  st_above : forall i, n < i -> get h' i = get h i;
  st_tracked : hasSetPosition = true -> NoDup (items (set h pos item) n) ->
    tracked h p pos n -> tracked h' p' pos' n;
}.

Lemma settled_move item h p pos n c h' p' pos' :
  1 <= pos <= n -> 1 <= c <= n -> c <> pos ->
  settled item (set h pos (get h c)) (tell (get h c) pos p) c n h' p' pos' ->
  settled item h p pos n h' p' pos'.
Proof.
  intros Hp Hc Hne [R1 R2 R3 R4 R5].
  pose proof (move_items h n pos c item Hp Hc Hne) as HP. constructor; [done..| | |].
  - by etrans.
  - intros i Hi. rewrite R4 by lia. rewrite get_set by lia. by rewrite decide_False by lia.
  - intros Hs HN HT. apply R5; [done|by rewrite HP|]. by eapply move_tracked.
Qed.

Lemma settled_here item h p pos n :
  1 <= pos <= n -> heap_ordered (set h pos item) n -> settled item h p pos n h p pos.
Proof. intros. by constructor. Qed.

(** The hole moves to the smaller child. *)
Lemma down_inv_move item h pos n c :
  1 <= pos -> 2 <= c <= n -> c / 2 = pos ->
  (forall i, 2 <= i <= n -> i / 2 = pos -> compare (get h c) (get h i) <= 0) ->
  compare (get h c) item <= 0 ->
  down_inv item h pos n -> down_inv item (set h pos (get h c)) c n.
Proof.
  intros Hp Hc Hcp Hmin Hci [D1 D2 D3]. constructor.
  - intros i Hi H1 H2. rewrite !get_set by lia.
    destruct (decide (pos = i / 2)) as [E1|E1], (decide (pos = i)) as [E2|E2]; try lia.
    + by apply Hmin.
    + rewrite <- E2. apply D3; lia.
    + by apply D1.
  - intros _. rewrite get_set by lia. by rewrite decide_True by lia.
  - intros i Hi H1 _. rewrite !get_set by lia. rewrite decide_True, decide_False by lia.
    rewrite <- H1. apply D1; lia.
Qed.

Lemma down_inv_stop item h pos n :
  1 <= pos -> (forall i, 2 <= i <= n -> i / 2 = pos -> compare item (get h i) <= 0) ->
  down_inv item h pos n -> heap_ordered (set h pos item) n.
Proof.
  intros Hp Hmin [D1 D2 D3] i Hi. rewrite !get_set by lia.
  destruct (decide (pos = i / 2)) as [E1|E1], (decide (pos = i)) as [E2|E2]; try lia.
  - apply Hmin; lia.
  - rewrite <- E2. apply D2. lia.
  - apply D1; lia.
Qed.

Lemma percolate_down_spec fuel : forall item h p pos n,
  n < 2147483648 -> 1 <= pos <= n -> n - pos <= Z.of_nat fuel -> down_inv item h pos n ->
  let '(h', p', pos') := down_loop undefined compare hasSetPosition fuel n (js_shr n 1) item h p pos in
  settled item h p pos n h' p' pos'.
Proof.
  induction fuel as [|fuel IH]; intros item h p pos n Hn Hp Hf HD; cbn [down_loop].
  { apply settled_here; [done|]. apply down_inv_stop; [lia| |done]. lia. }
  assert (js_shr n 1 = n / 2) as Hsh by (apply js_shr1_small; lia).
  rewrite Hsh. destruct (pos <=? n / 2) eqn:El; bool_hyps.
  2: { apply settled_here; [done|]. apply down_inv_stop; [lia| |done]. lia. }
  rewrite js_shl1_small by lia.
  set (pick := if _ && _ then _ else _).
  assert (exists c, pick = (c, get h c) /\ 2 <= c <= n /\ c / 2 = pos /\
          forall i, 2 <= i <= n -> i / 2 = pos -> compare (get h c) (get h i) <= 0)
    as (c & -> & Hc & Hcp & Hmin).
  { unfold pick. destruct ((pos * 2 + 1 <=? n) && _) eqn:E; bool_hyps.
    - exists (pos * 2 + 1). split_and!; [done|lia..|]. intros i Hi Hip.
      assert (i = pos * 2 \/ i = pos * 2 + 1) as [->| ->] by lia; [lia|].
      apply compare_ge. pose proof (compare_sym (get h (pos * 2 + 1)) (get h (pos * 2 + 1))). lia.
    - exists (pos * 2). split_and!; [done|lia..|]. intros i Hi Hip.
      assert (i = pos * 2 \/ i = pos * 2 + 1) as [->| ->] by lia.
      + apply compare_ge. pose proof (compare_sym (get h (pos * 2)) (get h (pos * 2))). lia.
      + apply compare_ge. apply andb_false_iff in E as [E|E]; bool_hyps; lia. }
  destruct (compare item (get h c) <=? 0) eqn:Ec; bool_hyps.
  { apply settled_here; [done|]. apply down_inv_stop; [lia| |done]. intros i Hi Hip.
    eapply compare_trans; [exact Ec|by apply Hmin]. }
  assert (compare (get h c) item <= 0) as Hci by (apply compare_ge; lia).
  specialize (IH item (set h pos (get h c)) (tell (get h c) pos p) c n).
  rewrite Hsh in IH. destruct (down_loop _ _ _ _ _ _ _ _ _ _) as [[h' p'] pos'].
  apply (settled_move _ _ _ _ _ c); [lia..|]. apply IH; [lia..|].
  apply down_inv_move; [lia|lia|lia|done|done|done].
Qed.

(** ** Going up *)

Record up_inv (item : V) (h : list V) (pos n : Z) : Prop := UpInv {
  ui_edge : forall i, 2 <= i <= n -> i / 2 <> pos -> i <> pos ->
    compare (get h (i / 2)) (get h i) <= 0;
  ui_child : forall i, 2 <= i <= n -> i / 2 = pos -> compare item (get h i) <= 0;
  ui_skip : forall i, 2 <= i <= n -> i / 2 = pos -> 2 <= pos ->
    compare (get h (pos / 2)) (get h i) <= 0;
}.

Lemma up_inv_stop item h pos n :
  1 <= pos -> (2 <= pos -> compare (get h (pos / 2)) item <= 0) ->
  up_inv item h pos n -> heap_ordered (set h pos item) n.
Proof.
  intros Hp Hle [D1 D2 D3] i Hi. rewrite !get_set by lia.
  destruct (decide (pos = i / 2)) as [E1|E1], (decide (pos = i)) as [E2|E2]; try lia.
  - apply D2; lia.
  - rewrite <- E2. apply Hle. lia.
  - apply D1; lia.
Qed.

Lemma up_inv_move item h pos n :
  2 <= pos <= n -> compare item (get h (pos / 2)) <= 0 ->
  up_inv item h pos n -> up_inv item (set h pos (get h (pos / 2))) (pos / 2) n.
Proof.
  intros Hp Hle [D1 D2 D3]. constructor.
  - intros i Hi H1 H2. rewrite !get_set by lia.
    destruct (decide (pos = i / 2)) as [E1|E1], (decide (pos = i)) as [E2|E2]; try lia.
    + apply D3; lia.
    + apply D1; lia.
  - intros i Hi H1. rewrite !get_set by lia. destruct (decide (pos = i)); [done|].
    eapply compare_trans; [exact Hle|]. rewrite <- H1. apply D1; lia.
  - intros i Hi H1 H2. rewrite !get_set by lia. rewrite (decide_False (P := pos = pos / 2 / 2)) by lia.
    assert (compare (get h (pos / 2 / 2)) (get h (pos / 2)) <= 0) by (apply D1; lia).
    destruct (decide (pos = i)); [done|].
    eapply compare_trans; [done|]. rewrite <- H1. apply D1; lia.
Qed.

Lemma percolate_up_spec fuel : forall item h p pos n,
  n < 2147483648 -> 1 <= pos <= n -> pos <= Z.of_nat fuel -> up_inv item h pos n ->
  let '(h', p', pos') := up_loop undefined compare hasSetPosition fuel item h p pos in
  settled item h p pos n h' p' pos'.
Proof.
  induction fuel as [|fuel IH]; intros item h p pos n Hn Hp Hf HD; cbn [up_loop]; [lia|].
  rewrite js_shr1_small by lia.
  destruct (1 <? pos) eqn:E1; bool_hyps.
  2: { apply settled_here; [done|]. apply up_inv_stop; [lia|lia|done]. }
  destruct (compare (get h (pos / 2)) item <=? 0) eqn:Ec; bool_hyps.
  { apply settled_here; [done|]. apply up_inv_stop; [lia|done|done]. }
  specialize (IH item (set h pos (get h (pos / 2))) (tell (get h (pos / 2)) pos p) (pos / 2) n).
  destruct (up_loop _ _ _ _ _ _ _ _) as [[h' p'] pos'].
  apply (settled_move _ _ _ _ _ (pos / 2)); [lia..|]. apply IH; [lia..|].
  apply up_inv_move; [lia|apply compare_ge; lia|done].
Qed.

(** ** The operations *)

(** Settling an item in a queue whose other items are in order. *)
Lemma settled_wf q item pos h' p' pos' :
  settled item (heap q) (positions q) pos (size q) h' p' pos' ->
  get (heap q) pos = item -> size q < 2147483648 -> 1 <= pos <= size q ->
  (forall i, size q < i -> get (heap q) i = undefined) ->
  (hasSetPosition = true -> NoDup (items (heap q) (size q)) /\
     tracked (heap q) (positions q) pos (size q)) ->
  let q' := Queue (set h' pos' item) (size q) (tell item pos' p') in
  wf q' /\ items (heap q') (size q') ≡ₚ items (heap q) (size q).
Proof.
  intros [R1 R2 R3 R4 R5] Hitem Hn Hpos Habove Ht q'.
  assert (items (set (heap q) pos item) (size q) = items (heap q) (size q)) as Hsame.
  { apply items_ext. intros i Hi. rewrite get_set by lia. case_decide; by subst. }
  rewrite Hsame in *. split; [|done]. constructor; cbn.
  - lia.
  - done.
  - intros i Hi. rewrite get_set by lia. rewrite decide_False by lia. rewrite R4 by lia. auto.
  - intros Hs. rewrite R3. by apply Ht.
  - intros Hs. destruct (Ht Hs) as [HN HT]. eapply settle_tracked; [done|by rewrite R3|done|].
    by apply R5.
Qed.

Lemma percolateUp_wf q pos :
  size q < 2147483648 -> 1 <= pos <= size q -> up_inv (get (heap q) pos) (heap q) pos (size q) ->
  (forall i, size q < i -> get (heap q) i = undefined) ->
  (hasSetPosition = true -> NoDup (items (heap q) (size q)) /\
     tracked (heap q) (positions q) pos (size q)) ->
  let q' := percolateUp undefined compare hasSetPosition pos q in
  wf q' /\ items (heap q') (size q') ≡ₚ items (heap q) (size q) /\ size q' = size q.
Proof.
  intros Hn Hp HU Ha Ht. unfold percolateUp.
  pose proof (percolate_up_spec (Z.to_nat pos) _ _ (positions q) _ _ Hn Hp ltac:(lia) HU) as HL.
  destruct (up_loop _ _ _ _ _ _ _ _) as [[h' p'] pos'].
  destruct (settled_wf q _ pos h' p' pos' HL eq_refl Hn Hp Ha Ht). auto.
Qed.

Lemma percolateDown_wf q pos :
  size q < 2147483648 -> 1 <= pos <= size q -> down_inv (get (heap q) pos) (heap q) pos (size q) ->
  (forall i, size q < i -> get (heap q) i = undefined) ->
  (hasSetPosition = true -> NoDup (items (heap q) (size q)) /\
     tracked (heap q) (positions q) pos (size q)) ->
  let q' := percolateDown undefined compare hasSetPosition pos q in
  wf q' /\ items (heap q') (size q') ≡ₚ items (heap q) (size q) /\ size q' = size q.
Proof.
  intros Hn Hp HU Ha Ht. unfold percolateDown.
  pose proof (percolate_down_spec (Z.to_nat (size q)) _ _ (positions q) _ _ Hn Hp ltac:(lia) HU) as HL.
  destruct (down_loop _ _ _ _ _ _ _ _ _ _) as [[h' p'] pos'].
  destruct (settled_wf q _ pos h' p' pos' HL eq_refl Hn Hp Ha Ht). auto.
Qed.

Abbreviation contents q := (items (heap q) (size q)).

Lemma wf_new : wf (new undefined).
Proof.
  constructor; cbn; [lia|intros i; lia| |intros; constructor|intros; lia].
  intros i Hi. unfold arr_get. destruct (i <? 0); [done|].
  assert (Z.to_nat i = 1 \/ 2 <= Z.to_nat i)%nat as [->|H2] by lia; [done|].
  rewrite lookup_ge_None_2; [done|]. cbn. lia.
Qed.

Lemma insert_spec q v :
  wf q -> size q + 1 < 2147483648 -> (hasSetPosition = true -> v ∉ contents q) ->
  let q' := insert undefined compare hasSetPosition v q in
  wf q' /\ contents q' ≡ₚ v :: contents q /\ size q' = size q + 1.
Proof.
  intros [W1 W2 W3 W4 W5] Hn Hv. unfold insert.
  set (q1 := Queue (set (heap q) (size q + 1) v) (size q + 1) (positions q)).
  assert (forall i, get (heap q1) i = if decide (size q + 1 = i) then v else get (heap q) i) as Hget.
  { intros i. cbn. by rewrite get_set by lia. }
  assert (contents q1 = contents q ++ [v]) as Hc.
  { cbn [heap size q1]. rewrite items_succ by lia. f_equal.
    - apply items_ext. intros i Hi. rewrite get_set by lia. by rewrite decide_False by lia.
    - rewrite get_set by lia. by rewrite decide_True. }
  assert (contents q ++ [v] ≡ₚ v :: contents q) as HP by (by rewrite Permutation_app_comm).
  destruct (percolateUp_wf q1 (size q + 1)) as (Hw & Hp & Hs).
  - exact Hn.
  - cbn. lia.
  - cbn [size q1]. constructor; try lia. intros i Hi H1 H2. rewrite !Hget, !decide_False by lia.
    apply W2. lia.
  - intros i Hi. cbn [size q1] in Hi. rewrite Hget, decide_False by lia. apply W3. lia.
  - intros Hset. rewrite Hc. split.
    + rewrite HP. constructor; [by apply Hv|by apply W4].
    + intros i Hi Hne. cbn [size q1] in *. rewrite Hget, decide_False by lia. apply W5; [done|lia].
  - split_and!; [exact Hw| |exact Hs]. by rewrite Hp, Hc.
Qed.

(** The array after [removeAt] moved the last item to [pos]. *)
Lemma remove_get q pos i :
  0 <= size q -> 1 <= pos ->
  get (set (set (heap q) pos (get (heap q) (size q))) (size q) undefined) i
  = if decide (size q = i) then undefined
    else if decide (pos = i) then get (heap q) (size q) else get (heap q) i.
Proof. intros. by rewrite !get_set by lia. Qed.

Lemma insert_drop_Permutation (l : list V) i x y :
  l !! i = Some x -> x :: <[i := y]> l ≡ₚ l ++ [y].
Proof.
  intros Hi. rewrite (Permutation_app_comm l). cbn [app].
  by apply (insert_swap_Permutation (y :: l) 0 (S i) y x).
Qed.

(** The queue after [removeAt] has moved the last item to [pos] and before it
    restores the order. *)
Definition moved (q : queue) (pos : Z) : queue :=
  Queue (set (set (heap q) pos (get (heap q) (size q))) (size q) undefined)
    (size q - 1) (positions q).

Lemma moved_get q pos i :
  1 <= pos <= size q ->
  get (heap (moved q pos)) i = if decide (size q = i) then undefined
    else if decide (pos = i) then get (heap q) (size q) else get (heap q) i.
Proof. intros. cbn [moved heap]. apply remove_get; lia. Qed.

Lemma moved_other q pos i :
  1 <= pos <= size q -> i < size q -> i <> pos ->
  get (heap (moved q pos)) i = get (heap q) i.
Proof. intros Hp Hi Hne. by rewrite moved_get, !decide_False by lia. Qed.

Lemma moved_contents q pos :
  1 <= pos <= size q -> contents q ≡ₚ get (heap q) pos :: contents (moved q pos).
Proof.
  intros Hp. replace (size q) with (size q - 1 + 1) at 1 by lia. rewrite items_succ by lia.
  replace (size q - 1 + 1) with (size q) by lia. cbn [size moved].
  destruct (decide (pos = size q)) as [->|Hne].
  - rewrite Permutation_app_comm. cbn [app].
    rewrite (items_ext (heap q) (heap (moved q (size q)))); [done|].
    intros i Hi. by rewrite moved_other by lia.
  - rewrite <- (insert_drop_Permutation _ _ _ _ (items_lookup (heap q) (size q - 1) pos ltac:(lia))).
    rewrite <- items_set by lia.
    rewrite (items_ext (heap (moved q pos)) (set (heap q) pos (get (heap q) (size q)))); [done|].
    intros i Hi. rewrite moved_get, get_set by lia.
    by rewrite (decide_False (P := size q = i)) by lia.
Qed.

Lemma moved_above q pos i :
  wf q -> 1 <= pos <= size q -> size q - 1 < i -> get (heap (moved q pos)) i = undefined.
Proof.
  intros W Hp Hi. rewrite moved_get by done. case_decide; [done|].
  rewrite decide_False by lia. apply W. lia.
Qed.

Lemma moved_tracked q pos :
  wf q -> 1 <= pos <= size q -> hasSetPosition = true ->
  NoDup (contents (moved q pos)) /\ tracked (heap (moved q pos)) (positions q) pos (size q - 1).
Proof.
  intros [_ _ _ W4 W5] Hp Hs. split.
  - specialize (W4 Hs). rewrite (moved_contents q pos) in W4 by done.
    by apply NoDup_cons in W4 as [_ ?].
  - intros i Hi Hne. rewrite moved_other by lia. apply W5; [done|lia].
Qed.

(** Away from [pos] the order is intact, and across it too. *)
Lemma moved_edge q pos i :
  wf q -> 1 <= pos <= size q -> 2 <= i <= size q - 1 -> i / 2 <> pos -> i <> pos ->
  compare (get (heap (moved q pos)) (i / 2)) (get (heap (moved q pos)) i) <= 0.
Proof. intros W Hp Hi G1 G2. rewrite !moved_other by lia. apply W. lia. Qed.

Lemma moved_skip q pos i :
  wf q -> 2 <= pos <= size q -> 2 <= i <= size q - 1 -> i / 2 = pos ->
  compare (get (heap (moved q pos)) (pos / 2)) (get (heap (moved q pos)) i) <= 0.
Proof.
  intros [_ W2 _ _ _] Hp Hi G1. rewrite !moved_other by lia.
  eapply compare_trans; [apply (W2 pos); lia|]. rewrite <- G1. apply W2. lia.
Qed.

(** Removing the last item leaves nothing to restore. *)
Lemma moved_last_wf q : wf q -> 1 <= size q -> wf (moved q (size q)).
Proof.
  intros W Hp. pose proof W as [W1 W2 W3 W4 W5]. constructor; cbn [size moved].
  - lia.
  - intros i Hi. apply moved_edge; [done|lia..].
  - intros i Hi. by apply moved_above; [|lia|].
  - intros Hs. by apply (moved_tracked q (size q)); [|lia|].
  - intros Hs i Hi. apply (moved_tracked q (size q)); [done|lia|done|lia|lia].
Qed.

Lemma removeAt_spec q pos :
  wf q -> 1 <= pos <= size q ->
  let q' := removeAt undefined compare hasSetPosition pos q in
  wf q' /\ contents q ≡ₚ get (heap q) pos :: contents q' /\ size q' = size q - 1.
Proof.
  intros W Hp. unfold removeAt. fold (moved q pos). pose proof (moved_contents q pos Hp) as HP.
  change (set (set (heap q) pos (get (heap q) (size q))) (size q) undefined)
    with (heap (moved q pos)).
  change (size (moved q pos)) with (size q - 1).
  destruct ((0 <? size q - 1) && (pos <=? size q - 1)) eqn:E; bool_hyps.
  2: { assert (pos = size q) as -> by (apply andb_false_iff in E as [E|E]; bool_hyps; lia).
       split_and!; [apply moved_last_wf; [done|lia]|done|done]. }
  pose proof (wf_size _ W) as W1. rewrite js_shr1_small by lia.
  destruct ((1 <? pos) && (0 <? compare (get (heap (moved q pos)) (pos / 2))
              (get (heap (moved q pos)) pos))) eqn:Eup; bool_hyps.
  - destruct (percolateUp_wf (moved q pos) pos) as (Hw & HP' & Hsz);
      [cbn; lia|cbn; lia| |intros; by apply moved_above|intros; by apply moved_tracked|].
    + constructor; [intros; by apply moved_edge| |].
      * intros i Hi G1. eapply compare_trans; [apply compare_ge; apply Z.lt_le_incl; eassumption|].
        apply moved_skip; [done|lia|done|done].
      * intros i Hi G1 G2. apply moved_skip; [done|lia|done|done].
    + split_and!; [done| |done]. by rewrite HP, HP'.
  - destruct (percolateDown_wf (moved q pos) pos) as (Hw & HP' & Hsz);
      [cbn; lia|cbn; lia| |intros; by apply moved_above|intros; by apply moved_tracked|].
    + constructor; [intros; by apply moved_edge| |].
      * intros G2. apply andb_false_iff in Eup as [Eup|Eup]; bool_hyps; lia.
      * intros i Hi G1 G2. apply moved_skip; [done|lia|done|done].
    + split_and!; [done| |done]. by rewrite HP, HP'.
Qed.

Lemma peek_least q x : wf q -> x ∈ contents q -> compare (peek undefined q) x <= 0.
Proof.
  intros [W1 W2 _ _ _] (i & Hi & ->)%items_elem. unfold peek.
  assert (0 <= i) as H0 by lia. revert H0 Hi. revert i. apply (Z_lt_induction (fun i =>
    1 <= i <= size q -> compare (get (heap q) 1) (get (heap q) i) <= 0)).
  intros i IH Hi. destruct (decide (i = 1)) as [->|Hne].
  - apply compare_ge. pose proof (compare_sym (get (heap q) 1) (get (heap q) 1)). lia.
  - eapply compare_trans; [apply (IH (i / 2)); lia|]. apply W2. lia.
Qed.
End Facts.

(** ** The theorems *)

Arguments wf {V} undefined compare hasSetPosition q.
Arguments items {V} undefined h n.

(** [x ∉ l] for a concrete list of numbers. *)
Ltac not_in := rewrite ?not_elem_of_cons; split_and?; (apply not_elem_of_nil || lia).

(** What a queue holds. *)
Abbreviation contents undefined q := (items undefined (heap q) (size q)).

(** The default comparator, [(a, b) => a - b], on numbers; -1 plays [undefined]. *)
#[export] Instance sub_comparator : Comparator Z.sub.
Proof. split; intros; lia. Qed.

Definition demo_queue : queue :=
  insert (-1) Z.sub true 2 (insert (-1) Z.sub true 9 (insert (-1) Z.sub true 5 (new (-1)))).

Lemma demo_queue_wf : wf (-1) Z.sub true demo_queue /\ contents (-1) demo_queue ≡ₚ [2; 9; 5].
Proof.
  destruct (insert_spec (-1) Z.sub true (new (-1)) 5 (wf_new _ _ _) eq_refl) as (W1 & P1 & _).
  { intros _. by intros ?%elem_of_nil. }
  destruct (insert_spec (-1) Z.sub true _ 9 W1 eq_refl) as (W2 & P2 & _).
  { intros _. rewrite P1. not_in. }
  destruct (insert_spec (-1) Z.sub true _ 2 W2 eq_refl) as (W3 & P3 & _).
  { intros _. rewrite P2, P1. not_in. }
  split; [exact W3|]. by rewrite P3, P2, P1.
Qed.

(** [insert] keeps the heap order and every recorded position, and adds
    exactly the value to what the queue holds, as long as the slots stay below
    2^31, where the 32-bit shifts of the code wrap around. *)
Theorem pq_insert_correct {V} `{EqDecision V} (undefined : V) compare `{!Comparator compare} track q v :
  wf undefined compare track q -> size q + 1 < 2147483648 ->
  (track = true -> v ∉ contents undefined q) ->
  let q' := insert undefined compare track v q in
  wf undefined compare track q' /\ contents undefined q' ≡ₚ v :: contents undefined q /\
  size q' = size q + 1.
Proof. by apply insert_spec. Qed.

Lemma pq_insert_correct_witness :
  contents (-1) (insert (-1) Z.sub true 1 demo_queue) ≡ₚ 1 :: contents (-1) demo_queue.
Proof.
  apply (pq_insert_correct (-1) Z.sub true demo_queue 1); [apply demo_queue_wf|reflexivity|].
  intros _. rewrite (proj2 demo_queue_wf). not_in.
Defined.

(** [removeAt(pos)] keeps the heap order and every recorded position, and
    takes exactly the item of slot [pos] out of the queue. *)
Theorem pq_removeAt_correct {V} `{EqDecision V} (undefined : V) compare `{!Comparator compare} track q pos :
  wf undefined compare track q -> 1 <= pos <= size q ->
  let q' := removeAt undefined compare track pos q in
  wf undefined compare track q' /\
  contents undefined q ≡ₚ arr_get undefined (heap q) pos :: contents undefined q' /\
  size q' = size q - 1.
Proof. by apply removeAt_spec. Qed.

Lemma pq_removeAt_correct_witness :
  contents (-1) demo_queue ≡ₚ 9 :: contents (-1) (removeAt (-1) Z.sub true 2 demo_queue).
Proof. apply (pq_removeAt_correct (-1) Z.sub true demo_queue 2); [apply demo_queue_wf|split; [discriminate|vm_compute; discriminate]]. Defined.

(** [shift] returns a least item and removes it; on an empty queue it
    returns [undefined] and changes nothing. *)
Theorem pq_shift_extracts_minimum {V} `{EqDecision V} (undefined : V) compare `{!Comparator compare} track q :
  wf undefined compare track q -> undefined ∉ contents undefined q ->
  let '(q', v) := shift undefined compare track q in
  (contents undefined q = [] -> v = undefined /\ q' = q) /\
  (contents undefined q <> [] ->
     wf undefined compare track q' /\ contents undefined q ≡ₚ v :: contents undefined q' /\
     Forall (fun x => compare v x <= 0) (contents undefined q)).
Proof.
  intros W Hu. unfold shift. destruct (decide (size q = 0)) as [H0|H0].
  - assert (contents undefined q = []) as Hc by by rewrite H0.
    rewrite decide_True by (apply (wf_above _ _ _ _ W); lia). by rewrite Hc.
  - pose proof (wf_size _ _ _ _ W). assert (1 <= 1 <= size q) as H1 by lia.
    assert (arr_get undefined (heap q) 1 ∈ contents undefined q) as Hin
      by (apply items_elem; by exists 1).
    rewrite decide_False by (intros E; by rewrite E in Hin).
    split; [intros Hc; rewrite Hc in Hin; by apply elem_of_nil in Hin|]. intros _.
    destruct (removeAt_spec undefined compare track q 1 W H1) as (W' & HP & _).
    split_and!; [done..|]. apply Forall_forall. intros x Hx. by apply (peek_least _ _ track).
Qed.

Lemma pq_shift_extracts_minimum_witness :
  exists q', shift (-1) Z.sub true demo_queue = (q', 2) /\
    contents (-1) demo_queue ≡ₚ 2 :: contents (-1) q'.
Proof.
  assert ((-1) ∉ contents (-1) demo_queue) as Hu.
  { rewrite (proj2 demo_queue_wf). not_in. }
  pose proof (pq_shift_extracts_minimum (-1) Z.sub true demo_queue (proj1 demo_queue_wf) Hu) as H.
  exists (removeAt (-1) Z.sub true 1 demo_queue).
  assert (shift (-1) Z.sub true demo_queue = (removeAt (-1) Z.sub true 1 demo_queue, 2)) as E
    by reflexivity.
  rewrite E in H. split; [exact E|]. apply H. discriminate.
Defined.
