(* ===== verification/FixedQueue.v ===== *)
(** * [internal/fixed_queue]

    Models [libjs-node/internal/fixed_queue.js]: a queue as a singly-linked
    list of circular buffers, the buffers being shared objects of a heap, and
    proves that it refines a first-in first-out list. *)

From S2P Require Import Prelude PriorityQueue.

Module FixedQueue.

Definition kSize : Z := 2048.
Definition kMask : Z := kSize - 1.

Section Queue.
(** JavaScript values, with the two the code treats specially. *)
Context {V : Type} `{EqDecision V} (undefined null : V).

Record buffer := Buffer { bottom : Z; top : Z; list_ : list V; next : option positive }.

(** ** [FixedCircularBuffer] *)

Definition new_buffer : buffer := Buffer 0 0 (replicate (Z.to_nat kSize) undefined) None.

Definition buffer_isEmpty (b : buffer) : bool := top b =? bottom b.

Definition buffer_isFull (b : buffer) : bool := Z.land (top b + 1) kMask =? bottom b.

Definition buffer_push (data : V) (b : buffer) : buffer :=
  Buffer (bottom b) (Z.land (top b + 1) kMask) (arr_set undefined (list_ b) (top b) data) (next b).

Definition buffer_shift (b : buffer) : buffer * V :=
  let nextItem := arr_get undefined (list_ b) (bottom b) in
  if decide (nextItem = undefined) then (b, null)
  else (Buffer (Z.land (bottom b + 1) kMask) (top b)
          (arr_set undefined (list_ b) (bottom b) undefined) (next b), nextItem).

Definition set_next (n : option positive) (b : buffer) : buffer :=
  Buffer (bottom b) (top b) (list_ b) n.

(** ** [FixedQueue]: the objects it can reach, and the next free identity *)

Record queue := Queue {
  buffers : gmap positive buffer; fresh : positive; head : positive; tail : positive;
}.

Definition new : queue := Queue {[ 1%positive := new_buffer ]} 2 1 1.

(** A reference is never dangling. *)
Definition deref (q : queue) (p : positive) : buffer := default new_buffer (buffers q !! p).

Definition store (p : positive) (b : buffer) (q : queue) : queue :=
  Queue (<[p := b]> (buffers q)) (fresh q) (head q) (tail q).

Definition isEmpty (q : queue) : bool := buffer_isEmpty (deref q (head q)).

Definition push (data : V) (q : queue) : queue :=
  let q :=
    if buffer_isFull (deref q (head q)) then
      let n := fresh q in
      let q := store n new_buffer q in
      let q := store (head q) (set_next (Some n) (deref q (head q))) q in
      Queue (buffers q) (Pos.succ n) n (tail q)
    else q in
  store (head q) (buffer_push data (deref q (head q))) q.

Definition shift (q : queue) : queue * V :=
  let t := tail q in
  let '(b, item) := buffer_shift (deref q t) in
  let q := store t b q in
  match next b with
  | Some n =>
      if buffer_isEmpty b then
        let q := Queue (buffers q) (fresh q) (head q) n in
        (store t (set_next None b) q, item)
      else (q, item)
  | None => (q, item)
  end.

(** ** Circular buffers *)

(** The buffer holds [xs], from [bottom] on; every other slot is [undefined]. *)
Record rep (b : buffer) (xs : list V) : Prop := Rep {
  rep_bottom : 0 <= bottom b < kSize;
  rep_top : top b = (bottom b + Z.of_nat (length xs)) mod kSize;
  rep_length : Z.of_nat (length xs) < kSize;
  rep_slots : forall i, 0 <= i < kSize ->
    arr_get undefined (list_ b) ((bottom b + i) mod kSize) = default undefined (xs !! Z.to_nat i);
  rep_defined : Forall (fun x => x <> undefined) xs;
}.

Lemma mask_mod z : Z.land z kMask = z mod kSize.
Proof. change kMask with (Z.ones 11). by rewrite Z.land_ones. Qed.

Lemma kSize_pos : 0 < kSize.
Proof. done. Qed.

(** Two slots of one buffer. *)
Lemma slot_inj (b i j : Z) :
  0 <= i < kSize -> 0 <= j < kSize -> (b + i) mod kSize = (b + j) mod kSize -> i = j.
Proof.
  unfold kSize. intros Hi Hj E. Z.to_euclidean_division_equations. lia.
Qed.

Lemma slot_bottom (b : Z) : 0 <= b < kSize -> (b + 0) mod kSize = b.
Proof. intros. rewrite Z.add_0_r. by apply Z.mod_small. Qed.

Lemma rep_new : rep new_buffer [].
Proof.
  constructor; [done..| |done]. intros i Hi. cbn [bottom list_ new_buffer].
  rewrite lookup_nil. cbn. unfold arr_get. destruct (_ <? 0); [done|].
  destruct (replicate _ _ !! _) eqn:E; [|done]. by apply lookup_replicate in E as [-> _].
Qed.

Lemma rep_isEmpty b xs : rep b xs -> buffer_isEmpty b = bool_decide (xs = []).
Proof.
  intros [R1 R2 R3 R4 R5]. unfold buffer_isEmpty. rewrite R2. pose proof kSize_pos.
  destruct xs as [|x xs].
  - cbn [length]. rewrite Z.add_0_r, Z.mod_small by lia. by rewrite Z.eqb_refl.
  - rewrite bool_decide_eq_false_2 by done. apply Z.eqb_neq. intros E.
    assert (Z.of_nat (length (x :: xs)) = 0); [|cbn in *; lia].
    apply (slot_inj (bottom b)); [lia..|]. by rewrite slot_bottom.
Qed.

Lemma rep_isFull b xs : rep b xs -> buffer_isFull b = (Z.of_nat (length xs) =? kSize - 1).
Proof.
  intros [R1 R2 R3 R4 R5]. unfold buffer_isFull. rewrite mask_mod, R2, Zplus_mod_idemp_l.
  pose proof kSize_pos. destruct (Z.of_nat (length xs) =? kSize - 1) eqn:E; bool_hyps.
  - rewrite E. replace (bottom b + (kSize - 1) + 1) with (bottom b + 1 * kSize) by lia.
    rewrite Z_mod_plus_full, Z.mod_small by lia. apply Z.eqb_refl.
  - apply Z.eqb_neq. intros E'. apply E.
    assert (Z.of_nat (length xs) + 1 = 0); [|lia].
    apply (slot_inj (bottom b)); [lia..|]. rewrite slot_bottom by done. by rewrite Z.add_assoc.
Qed.

Lemma rep_push b xs data :
  rep b xs -> data <> undefined -> Z.of_nat (length xs) < kSize - 1 ->
  rep (buffer_push data b) (xs ++ [data]).
Proof.
  intros [R1 R2 R3 R4 R5] Hd Hl. pose proof kSize_pos. constructor.
  - done.
  - cbn. rewrite mask_mod, R2, Zplus_mod_idemp_l, length_app. cbn. f_equal. lia.
  - rewrite length_app. cbn. lia.
  - intros i Hi. cbn. rewrite arr_get_set.
    2: { rewrite R2. apply Z.mod_pos_bound. lia. }
    rewrite R2. case_decide as E.
    + apply slot_inj in E; [|lia..]. subst i. rewrite Nat2Z.id, lookup_app_r by lia.
      by rewrite Nat.sub_diag.
    + rewrite R4 by done. f_equal. destruct (decide (Z.to_nat i < length xs)%nat).
      * by rewrite lookup_app_l.
      * rewrite (lookup_ge_None_2 xs) by lia. rewrite lookup_ge_None_2; [done|].
        rewrite length_app. cbn. destruct (decide (i = Z.of_nat (length xs))); [by subst|lia].
  - apply Forall_app. by repeat constructor.
Qed.

Lemma rep_shift_nil b : rep b [] -> buffer_shift b = (b, null).
Proof.
  intros [R1 R2 R3 R4 R5]. unfold buffer_shift. specialize (R4 0 ltac:(pose proof kSize_pos; lia)).
  rewrite Z.add_0_r, Z.mod_small in R4 by lia. cbn in R4. by rewrite decide_True.
Qed.

Lemma rep_shift_cons b x xs :
  rep b (x :: xs) ->
  exists b', buffer_shift b = (b', x) /\ rep b' xs /\ next b' = next b.
Proof.
  intros [R1 R2 R3 R4 R5]. pose proof kSize_pos. apply Forall_cons in R5 as [Hx R5].
  pose proof (R4 0 ltac:(lia)) as R0. rewrite Z.add_0_r, Z.mod_small in R0 by lia. cbn in R0.
  unfold buffer_shift. rewrite R0, decide_False by done. eexists. split; [done|]. split; [|done].
  cbn [length] in *. constructor; [| | |intros i Hi|done].
  - cbn. rewrite mask_mod. apply Z.mod_pos_bound. lia.
  - cbn. rewrite mask_mod, Zplus_mod_idemp_l, R2. f_equal. lia.
  - lia.
  - cbn. rewrite mask_mod, Zplus_mod_idemp_l, arr_get_set by lia.
    replace (bottom b + 1 + i) with (bottom b + (i + 1)) by lia.
    destruct (decide (i = kSize - 1)) as [->|Hne].
    + replace (bottom b + (kSize - 1 + 1)) with (bottom b + 1 * kSize) by lia.
      rewrite Z_mod_plus_full, Z.mod_small, decide_True by lia.
      rewrite lookup_ge_None_2; [done|]. lia.
    + rewrite decide_False.
      * rewrite R4 by lia. replace (Z.to_nat (i + 1)) with (S (Z.to_nat i)) by lia. done.
      * intros E. assert (0 = i + 1); [|lia].
        apply (slot_inj (bottom b)); [lia..|]. by rewrite slot_bottom.
Qed.

(** ** Chains of buffers *)

Abbreviation link ps e := (match ps with [] => e | (p, _) :: _ => Some p end).

(** A list segment of buffers, each with its items, whose last [next] is [e]. *)
Fixpoint seg (bs : gmap positive buffer) (ps : list (positive * list V)) (e : option positive) : Prop :=
  match ps with
  | [] => True
  | (p, xs) :: rest =>
      exists b, bs !! p = Some b /\ rep b xs /\ next b = link rest e /\ seg bs rest e
  end.

Lemma seg_app bs ps qs e : seg bs (ps ++ qs) e <-> seg bs ps (link qs e) /\ seg bs qs e.
Proof.
  induction ps as [|[p xs] ps IH]; cbn [app seg]; [tauto|]. setoid_rewrite IH.
  assert (link (ps ++ qs) e = link ps (link qs e)) as -> by by destruct ps as [|[]].
  split; [intros (b & ? & ? & ? & ? & ?)|intros [(b & ? & ? & ? & ?) ?]]; eauto 10.
Qed.

Lemma seg_frame bs ps e p b : p ∉ ps.*1 -> seg bs ps e -> seg (<[p := b]> bs) ps e.
Proof.
  induction ps as [|[r xs] ps IH]; cbn; [done|]. intros [Hne Hni]%not_elem_of_cons (b' & ? & ? & ? & ?).
  exists b'. rewrite lookup_insert_ne by done. auto.
Qed.

(** The chain runs from [tail] over the buffers [cs] to [head], the buffer
    [p]; of several buffers none is empty. *)
Record chain (q : queue) (cs : list (positive * list V)) (p : positive) (xs : list V) : Prop := Chain {
  ch_seg : seg (buffers q) cs (Some p);
  ch_head : head q = p;
  ch_last : exists b, buffers q !! p = Some b /\ rep b xs /\ next b = None;
  ch_tail : tail q = match cs with [] => p | (t, _) :: _ => t end;
  ch_nodup : NoDup (cs.*1 ++ [p]);
  ch_fresh : Forall (fun r => (r < fresh q)%positive) (cs.*1 ++ [p]);
  ch_nonempty : cs <> [] -> xs <> [] /\ Forall (fun c => c.2 <> []) cs;
}.

(** The queue holds [L]. *)
Definition holds (q : queue) (L : list V) : Prop :=
  exists cs p xs, chain q cs p xs /\ L = mjoin cs.*2 ++ xs.

Lemma deref_lookup q p b : buffers q !! p = Some b -> deref q p = b.
Proof. unfold deref. by intros ->. Qed.

Lemma holds_new : holds new [].
Proof.
  exists [], 1%positive, []. split; [|done].
  constructor; cbn; [done|done| |done|apply NoDup_singleton|by repeat constructor|done].
  exists new_buffer. split_and!; [done|apply rep_new|done].
Qed.

Lemma holds_isEmpty q L : holds q L -> isEmpty q = bool_decide (L = []).
Proof.
  intros (cs & p & xs & [C1 C2 (b & Hb & Hr & _) C4 C5 C6 C7] & ->). unfold isEmpty.
  rewrite C2, (deref_lookup _ _ _ Hb), (rep_isEmpty _ _ Hr).
  destruct cs as [|c cs]; [done|]. destruct C7 as [Hxs _]; [done|].
  rewrite !bool_decide_eq_false_2; [done| |done]. intros [_ ?]%app_eq_nil. done.
Qed.

(** A push that finds room in [head]. *)
Lemma chain_push_room q cs p xs b data :
  chain q cs p xs -> buffers q !! p = Some b -> Z.of_nat (length xs) < kSize - 1 ->
  data <> undefined ->
  chain (store p (buffer_push data b) q) cs p (xs ++ [data]).
Proof.
  intros [C1 C2 (b' & Hb' & Hr & Hn) C4 C5 C6 C7] Hb Hl Hd. assert (b' = b) as -> by congruence.
  constructor; cbn; [|done| |done|done|done|].
  - apply seg_frame; [|done]. by apply NoDup_app in C5 as (_ & Hni & _); intros ?%Hni; set_solver.
  - exists (buffer_push data b). rewrite lookup_insert_eq. split_and!; [done|by apply rep_push|done].
  - intros Hne. destruct (C7 Hne) as [_ ?]. split; [|done]. by destruct xs.
Qed.

(** A new [head] after a full one. *)
Lemma chain_grow q cs p xs b :
  chain q cs p xs -> buffers q !! p = Some b -> Z.of_nat (length xs) = kSize - 1 ->
  let n := fresh q in
  let bs := <[p := set_next (Some n) b]> (<[n := new_buffer]> (buffers q)) in
  seg bs (cs ++ [(p, xs)]) (Some n) /\ bs !! n = Some new_buffer /\
  NoDup ((cs ++ [(p, xs)]).*1 ++ [n]) /\
  Forall (fun r => (r < Pos.succ n)%positive) ((cs ++ [(p, xs)]).*1 ++ [n]) /\
  Forall (fun c => c.2 <> []) (cs ++ [(p, xs)]).
Proof.
  intros [C1 C2 (b' & Hb' & Hr & Hn) C4 C5 C6 C7] Hb Hl n bs.
  assert (b' = b) as -> by congruence.
  assert (n ∉ cs.*1 ++ [p]) as Hnew.
  { intros Hin. rewrite Forall_forall in C6. apply C6 in Hin. unfold n in Hin. lia. }
  assert (p ∉ cs.*1) as Hp by (apply NoDup_app in C5 as (_ & Hni & _); intros ?%Hni; set_solver).
  rewrite not_elem_of_app, list_elem_of_singleton in Hnew. destruct Hnew as [Hn1 Hn2].
  assert (xs <> []) as Hxs by (intros ->; cbn in Hl; unfold kSize in Hl; lia).
  split_and!.
  - apply seg_app. split.
    + by apply seg_frame, seg_frame.
    + exists (set_next (Some n) b). unfold bs. rewrite lookup_insert_eq. split_and!; [done| |done|done].
      by destruct Hr.
  - unfold bs. rewrite lookup_insert_ne by done. by rewrite lookup_insert_eq.
  - rewrite fmap_app. cbn. apply NoDup_app. split_and!; [done| |apply NoDup_singleton].
    intros r Hr' ->%list_elem_of_singleton. rewrite elem_of_app, list_elem_of_singleton in Hr'. tauto.
  - rewrite fmap_app. cbn. apply Forall_app. split; [|by repeat constructor; lia].
    eapply Forall_impl; [exact C6|]. cbn. intros. unfold n. lia.
  - apply Forall_app. split; [|by repeat constructor]. destruct cs; [constructor|by apply C7].
Qed.

Lemma holds_push q L data : holds q L -> data <> undefined -> holds (push data q) (L ++ [data]).
Proof.
  intros (cs & p & xs & HC & ->) Hd. pose proof HC as [C1 C2 (b & Hb & Hr & Hn) C4 C5 C6 C7].
  unfold push. rewrite C2, (deref_lookup _ _ _ Hb), (rep_isFull _ _ Hr).
  pose proof (rep_length _ _ Hr). destruct (_ =? _) eqn:Efull; bool_hyps.
  - destruct (chain_grow q cs p xs b HC Hb Efull) as (G1 & G2 & G3 & G4 & G5).
    assert (fresh q <> p) as Hne.
    { rewrite fmap_app in G3. apply NoDup_app in G3 as (_ & Hni & _). intros E.
      apply (Hni p); [set_solver|]. rewrite E. set_solver. }
    exists (cs ++ [(p, xs)]), (fresh q), [data]. split.
    + cbn [head store buffers tail fresh].
      assert (deref (store (fresh q) new_buffer q) (head q) = b) as ->.
      { apply deref_lookup. cbn. rewrite C2. by rewrite lookup_insert_ne. }
      rewrite C2 in *. cbn in G2. unfold deref. cbn [buffers]. rewrite G2. cbn [default from_option id].
      constructor; cbn [buffers head tail fresh store].
      * apply seg_frame; [|exact G1]. apply NoDup_app in G3 as (_ & Hni & _).
        intros ?%Hni. set_solver.
      * done.
      * eexists. rewrite lookup_insert_eq. split_and!; [done| |done].
        apply (rep_push new_buffer []); [apply rep_new|done|done].
      * rewrite C4. by destruct cs as [|[]].
      * done.
      * done.
      * intros _. by split.
    + rewrite fmap_app, join_app. cbn. by rewrite app_nil_r, <- app_assoc.
  - exists cs, p, (xs ++ [data]). split; [|by rewrite app_assoc].
    rewrite C2, (deref_lookup _ _ _ Hb). apply chain_push_room; [done|done|lia|done].
Qed.

(** The state after [tail] gave its first item. *)
Lemma chain_shift_tail q t ts rest p xs b b' x :
  chain q ((t, x :: ts) :: rest) p xs -> buffers q !! t = Some b -> next b' = next b -> rep b' ts ->
  ts <> [] -> chain (store t b' q) ((t, ts) :: rest) p xs.
Proof.
  intros [C1 C2 (bl & Hbl & Hr & Hn) C4 C5 C6 C7] Hb Hnb Hr' Hts.
  cbn in C5. apply NoDup_cons in C5 as [Ht C5]. cbn in C1. destruct C1 as (b0 & Hb0 & Hr0 & Hn0 & C1).
  assert (b0 = b) as -> by congruence.
  rewrite not_elem_of_app, list_elem_of_singleton in Ht. destruct Ht as [Ht1 Ht2].
  constructor; cbn; [|done| |done| |done|].
  - exists b'. rewrite lookup_insert_eq. split_and!; [done|done|congruence|by apply seg_frame].
  - exists bl. by rewrite lookup_insert_ne.
  - constructor; [|done]. by rewrite not_elem_of_app, list_elem_of_singleton.
  - intros _. destruct C7 as [? HF]; [done|]. apply Forall_cons in HF as [_ HF]. by repeat constructor.
Qed.

(** The state after an emptied [tail] was dropped. *)
Lemma chain_drop_tail q t x rest p xs b b' :
  chain q ((t, [x]) :: rest) p xs ->
  chain (store t (set_next None b') (Queue (buffers (store t b q)) (fresh q) (head q)
           (match rest with [] => p | (t', _) :: _ => t' end))) rest p xs.
Proof.
  intros [C1 C2 (bl & Hbl & Hr & Hn) C4 C5 C6 C7].
  cbn in C5. apply NoDup_cons in C5 as [Ht C5]. cbn in C1. destruct C1 as (b0 & Hb0 & Hr0 & Hn0 & C1).
  rewrite not_elem_of_app, list_elem_of_singleton in Ht. destruct Ht as [Ht1 Ht2].
  apply Forall_cons in C6 as [_ C6].
  constructor; cbn; [|done| |done|done|done|].
  - by apply seg_frame, seg_frame.
  - exists bl. by rewrite !lookup_insert_ne.
  - intros _. destruct C7 as [? HF]; [done|]. by apply Forall_cons in HF as [_ HF].
Qed.

Lemma holds_shift_nil q : holds q [] -> exists q', shift q = (q', null) /\ holds q' [].
Proof.
  intros (cs & p & xs & HC & E). pose proof HC as [C1 C2 (b & Hb & Hr & Hn) C4 C5 C6 C7].
  destruct cs as [|[t ts] cs].
  2: { destruct C7 as [Hxs _]; [done|]. symmetry in E. by apply app_eq_nil in E as [_ ?]. }
  cbn in E. subst xs. cbn in C4. unfold shift. rewrite C4, (deref_lookup _ _ _ Hb).
  rewrite (rep_shift_nil _ Hr), Hn. eexists. split; [done|].
  exists [], p, []. split; [|done]. constructor; cbn; try done.
  exists b. by rewrite lookup_insert_eq.
Qed.

Lemma holds_shift_cons q x L : holds q (x :: L) -> exists q', shift q = (q', x) /\ holds q' L.
Proof.
  intros (cs & p & xs & HC & E). pose proof HC as [C1 C2 (b & Hb & Hr & Hn) C4 C5 C6 C7].
  destruct cs as [|[t ts] cs].
  - cbn in E, C4. subst xs. unfold shift. rewrite C4, (deref_lookup _ _ _ Hb).
    destruct (rep_shift_cons _ _ _ Hr) as (b' & -> & Hr' & Hn'). rewrite Hn', Hn.
    eexists. split; [done|]. exists [], p, L. split; [|done]. constructor; cbn; try done.
    exists b'. rewrite lookup_insert_eq. split_and!; [done|done|congruence].
  - destruct C7 as [Hxs HF]; [done|]. apply Forall_cons in HF as [Hts _]. cbn in Hts.
    destruct ts as [|y ts]; [done|]. cbn in E. injection E as <- ->.
    cbn in C1, C4. destruct C1 as (bt & Hbt & Hrt & Hnt & C1).
    unfold shift. rewrite C4, (deref_lookup _ _ _ Hbt).
    destruct (rep_shift_cons _ _ _ Hrt) as (b' & -> & Hr' & Hn'). rewrite Hn', Hnt.
    rewrite (rep_isEmpty _ _ Hr').
    assert (exists n, link cs (Some p) = Some n /\
            n = match cs with [] => p | (t', _) :: _ => t' end) as (n & -> & ->)
      by (destruct cs as [|[]]; eauto).
    destruct (decide (ts = [])) as [->|Hne].
    + rewrite bool_decide_eq_true_2 by done. eexists. split; [done|].
      exists cs, p, xs. split; [|done]. exact (chain_drop_tail q t x cs p xs b' b' HC).
    + rewrite bool_decide_eq_false_2 by done. eexists. split; [done|].
      exists ((t, ts) :: cs), p, xs. split; [|done].
      by eapply chain_shift_tail.
Qed.
End Queue.

(** ** Refinement of a list *)

(** An operation of the queue's client. *)
Inductive op {V : Type} := Push (x : V) | Shift | IsEmpty.
Arguments op : clear implicits.

(** What the client observes. *)
Inductive answer {V : Type} := Item (x : V) | Flag (b : bool) | Nothing.
Arguments answer : clear implicits.

Section Refinement.
Context {V : Type} `{EqDecision V} (undefined null : V).

Definition step (o : op V) (q : queue) : queue * answer V :=
  match o with
  | Push x => (push undefined x q, Nothing)
  | Shift => let '(q', x) := shift undefined null q in (q', Item x)
  | IsEmpty => (q, Flag (isEmpty undefined q))
  end.

(** The specification: a list, oldest first. *)
Definition spec_step (o : op V) (L : list V) : list V * answer V :=
  match o, L with
  | Push x, _ => (L ++ [x], Nothing)
  | Shift, [] => ([], Item null)
  | Shift, x :: L' => (L', Item x)
  | IsEmpty, _ => (L, Flag (bool_decide (L = [])))
  end.

Definition trace {S} (st : op V -> S -> S * answer V) : list (op V) -> S -> list (answer V) :=
  fix go ops s :=
    match ops with
    | [] => []
    | o :: ops' => let '(s', a) := st o s in a :: go ops' s'
    end.

Lemma step_refines o q L :
  (forall x, o = Push x -> x <> undefined) -> holds undefined q L ->
  exists q', step o q = (q', (spec_step o L).2) /\ holds undefined q' (spec_step o L).1.
Proof.
  intros Ho HL. destruct o as [x| |]; cbn.
  - eexists. split; [done|]. apply holds_push; [done|by apply Ho].
  - destruct L as [|x L].
    + destruct (holds_shift_nil undefined null q HL) as (q' & -> & ?). by exists q'.
    + destruct (holds_shift_cons undefined null q x L HL) as (q' & -> & ?). by exists q'.
  - exists q. split; [|done]. by rewrite (holds_isEmpty _ _ _ HL).
Qed.

Lemma trace_refines ops : forall q L,
  Forall (fun o => forall x, o = Push x -> x <> undefined) ops -> holds undefined q L ->
  trace step ops q = trace spec_step ops L.
Proof.
  induction ops as [|o ops IH]; intros q L HF HL; [done|]. apply Forall_cons in HF as [Ho HF].
  destruct (step_refines o q L Ho HL) as (q' & E & HL'). cbn. rewrite E.
  destruct (spec_step o L) as [L' a] eqn:E'. cbn in *. f_equal. by apply IH.
Qed.
End Refinement.

(** C39. The queue refines a first-in first-out list: for every sequence of
    [push] (of values other than [undefined]), [shift] and [isEmpty], across
    wrap-around and any number of buffers, a client sees exactly what it would
    see of a list, [shift] answering [null] when it is empty. *)
Theorem fixed_queue_refines_fifo {V} `{EqDecision V} (undefined null : V) ops :
  Forall (fun o => forall x, o = Push x -> x <> undefined) ops ->
  trace (step undefined null) ops (new undefined) = trace (spec_step null) ops [].
Proof. intros HF. apply trace_refines; [done|apply holds_new]. Qed.

Lemma fixed_queue_refines_fifo_witness :
  trace (step 0 (-1)) [Push 5; Push 6; Shift; IsEmpty; Shift; Shift] (new 0)
  = [Nothing; Nothing; Item 5; Flag false; Item 6; Item (-1)].
Proof.
  apply (fixed_queue_refines_fifo 0 (-1) [Push 5; Push 6; Shift; IsEmpty; Shift; Shift]).
  repeat (apply Forall_cons; split; [by intros x [= <-]|]). constructor.
Defined.

End FixedQueue.
