(* ===== verification/TaskQueues.v ===== *)
(** * Next ticks and promise rejections

    Models [libjs-node/internal/process/task_queues.js] ([nextTick] and the
    loop that runs ticks, microtasks and rejections) over the fixed queue, and
    [libjs-node/internal/process/promises.js] (unhandled rejections).

    User code is a finite program of calls.  The engine reports a rejected
    promise without a handler, and a handler added later, by calling
    [promiseRejectHandler]: these are calls of the program too, and a promise
    is rejected once.  Oracles stand for the rest: [microtasks n] is what the
    [n]-th [runMicrotasks] runs, [on n e] the listeners of the [n]-th event
    emitted on [process], [uncaught n e] the listeners of an uncaught exception
    ([None]: the process ends).  Domains, async context frames, trigger ids and
    the [multipleResolves] event are left out. *)

From stdpp Require Import gmap.
From S2P Require Import Prelude JsString PriorityQueue FixedQueue.

Module TaskQueues.

Abbreviation jsval := (list Z) (only parsing).

(** What a promise is rejected with: an object with a [stack], or not. *)
Inductive reason := RError (stack : jsstr) | ROther (v : jsval).

(** A callback that is not a function is [None]. *)
Inductive prog :=
  | Done
  | Raise (e : jserror)
  | NextTick (callback : option prog) (args : list jsval) (k : prog)
  | Reject (r : reason) (k : prog)
  | AddHandler (p : positive) (k : prog)
  | BeginExit (k : prog).

(** What is put in the queue, with the two values it treats specially. *)
Inductive tref := TUndefined | TNull | TObj (t : positive).

#[global] Instance tref_eq_dec : EqDecision tref.
Proof. solve_decision. Defined.

Record tick := Tick { t_async : Z; t_callback : prog; t_args : option (list jsval) }.

Record promiseInfo := PromiseInfo { i_reason : reason; uid : Z; warned : bool }.

Inductive emission :=
  | UnhandledRejection (p : positive) (r : reason)
  | RejectionHandled (p : positive)
  | Warning (text : jsstr)
  | WarnUnhandled (uid : Z)
  | WarnHandled (uid : Z).

Inductive event :=
  | EvInit (id : Z) | EvBefore (id : Z) | EvAfter (id : Z) | EvDestroy (id : Z)
  | EvTick (t : positive)
  | EvEmit (e : emission)
  | EvReport (p : positive)
  | EvHandler (p : positive)
  | EvUncaught (text : reason).

(** How a call ends. *)
Inductive outcome {A : Type} := Returned (x : A) | Threw (e : jserror) | Exited.
#[global] Arguments outcome A : clear implicits.

Record state := State {
  queue : FixedQueue.queue (V := tref);
  tickObjects : gmap positive tick;
  nextObj : positive;
  asyncIdCounter : Z;
  hasTickScheduled : bool;
  hasRejectionToWarn : bool;
  pendingUnhandledRejections : list (positive * promiseInfo);
  maybeUnhandledPromises : gmap positive promiseInfo;
  asyncHandledRejections : list (positive * Z);
  lastPromiseId : Z;
  nextPromise : positive;
  exiting : bool;
  exitCode : option Z;
  microtaskRuns : nat;
  emissions : nat;
  uncaughts : nat;
  trace : list event;
}.

Definition set_queue (v : FixedQueue.queue (V := tref)) (st : state) : state :=
  State v (tickObjects st) (nextObj st) (asyncIdCounter st) (hasTickScheduled st)
    (hasRejectionToWarn st) (pendingUnhandledRejections st) (maybeUnhandledPromises st)
    (asyncHandledRejections st) (lastPromiseId st) (nextPromise st) (exiting st) (exitCode st)
    (microtaskRuns st) (emissions st) (uncaughts st) (trace st).
Definition setHasTickScheduled (v : bool) (st : state) : state :=
  State (queue st) (tickObjects st) (nextObj st) (asyncIdCounter st) v (hasRejectionToWarn st)
    (pendingUnhandledRejections st) (maybeUnhandledPromises st) (asyncHandledRejections st)
    (lastPromiseId st) (nextPromise st) (exiting st) (exitCode st) (microtaskRuns st) (emissions
    st) (uncaughts st) (trace st).
Definition setHasRejectionToWarn (v : bool) (st : state) : state :=
  State (queue st) (tickObjects st) (nextObj st) (asyncIdCounter st) (hasTickScheduled st) v
    (pendingUnhandledRejections st) (maybeUnhandledPromises st) (asyncHandledRejections st)
    (lastPromiseId st) (nextPromise st) (exiting st) (exitCode st) (microtaskRuns st) (emissions
    st) (uncaughts st) (trace st).
Definition set_pending (v : list (positive * promiseInfo)) (st : state) : state :=
  State (queue st) (tickObjects st) (nextObj st) (asyncIdCounter st) (hasTickScheduled st)
    (hasRejectionToWarn st) v (maybeUnhandledPromises st) (asyncHandledRejections st)
    (lastPromiseId st) (nextPromise st) (exiting st) (exitCode st) (microtaskRuns st) (emissions
    st) (uncaughts st) (trace st).
Definition set_maybe (v : gmap positive promiseInfo) (st : state) : state :=
  State (queue st) (tickObjects st) (nextObj st) (asyncIdCounter st) (hasTickScheduled st)
    (hasRejectionToWarn st) (pendingUnhandledRejections st) v (asyncHandledRejections st)
    (lastPromiseId st) (nextPromise st) (exiting st) (exitCode st) (microtaskRuns st) (emissions
    st) (uncaughts st) (trace st).
Definition set_asyncHandled (v : list (positive * Z)) (st : state) : state :=
  State (queue st) (tickObjects st) (nextObj st) (asyncIdCounter st) (hasTickScheduled st)
    (hasRejectionToWarn st) (pendingUnhandledRejections st) (maybeUnhandledPromises st) v
    (lastPromiseId st) (nextPromise st) (exiting st) (exitCode st) (microtaskRuns st) (emissions
    st) (uncaughts st) (trace st).
Definition set_exiting (v : bool) (st : state) : state :=
  State (queue st) (tickObjects st) (nextObj st) (asyncIdCounter st) (hasTickScheduled st)
    (hasRejectionToWarn st) (pendingUnhandledRejections st) (maybeUnhandledPromises st)
    (asyncHandledRejections st) (lastPromiseId st) (nextPromise st) v (exitCode st)
    (microtaskRuns st) (emissions st) (uncaughts st) (trace st).
Definition set_exitCode (v : option Z) (st : state) : state :=
  State (queue st) (tickObjects st) (nextObj st) (asyncIdCounter st) (hasTickScheduled st)
    (hasRejectionToWarn st) (pendingUnhandledRejections st) (maybeUnhandledPromises st)
    (asyncHandledRejections st) (lastPromiseId st) (nextPromise st) (exiting st) v
    (microtaskRuns st) (emissions st) (uncaughts st) (trace st).
Definition set_microtaskRuns (v : nat) (st : state) : state :=
  State (queue st) (tickObjects st) (nextObj st) (asyncIdCounter st) (hasTickScheduled st)
    (hasRejectionToWarn st) (pendingUnhandledRejections st) (maybeUnhandledPromises st)
    (asyncHandledRejections st) (lastPromiseId st) (nextPromise st) (exiting st) (exitCode st) v
    (emissions st) (uncaughts st) (trace st).
Definition set_emissions (v : nat) (st : state) : state :=
  State (queue st) (tickObjects st) (nextObj st) (asyncIdCounter st) (hasTickScheduled st)
    (hasRejectionToWarn st) (pendingUnhandledRejections st) (maybeUnhandledPromises st)
    (asyncHandledRejections st) (lastPromiseId st) (nextPromise st) (exiting st) (exitCode st)
    (microtaskRuns st) v (uncaughts st) (trace st).
Definition set_uncaughts (v : nat) (st : state) : state :=
  State (queue st) (tickObjects st) (nextObj st) (asyncIdCounter st) (hasTickScheduled st)
    (hasRejectionToWarn st) (pendingUnhandledRejections st) (maybeUnhandledPromises st)
    (asyncHandledRejections st) (lastPromiseId st) (nextPromise st) (exiting st) (exitCode st)
    (microtaskRuns st) (emissions st) v (trace st).
Definition set_trace (v : list event) (st : state) : state :=
  State (queue st) (tickObjects st) (nextObj st) (asyncIdCounter st) (hasTickScheduled st)
    (hasRejectionToWarn st) (pendingUnhandledRejections st) (maybeUnhandledPromises st)
    (asyncHandledRejections st) (lastPromiseId st) (nextPromise st) (exiting st) (exitCode st)
    (microtaskRuns st) (emissions st) (uncaughts st) v.

Definition log (e : event) (st : state) : state := set_trace (trace st ++ [e]) st.

Definition initial : state :=
  State (FixedQueue.new TUndefined) ∅ 1 0 false false [] ∅ [] 0 1 false None 0 0 0 [].

Section Env.
Context (initHooks : bool).
Context (microtasks : nat -> prog) (on : nat -> emission -> option prog).
Context (uncaught : nat -> reason -> option prog).
Context (noSideEffectsToString : reason -> jsstr).

(** ** [nextTick] *)

Definition ERR_INVALID_ARG_TYPE : jserror := JsError "ERR_INVALID_ARG_TYPE" ["callback"%js].

Definition nextTick (callback : option prog) (args : list jsval) (st : state) : state * outcome unit :=
  match callback with
  | None => (st, Threw ERR_INVALID_ARG_TYPE)
  | Some f =>
      if exiting st then (st, Returned tt)
      else
        let st := if FixedQueue.isEmpty TUndefined (queue st) then setHasTickScheduled true st else st in
        let asyncId := asyncIdCounter st + 1 in
        let t := nextObj st in
        let tickObject := Tick asyncId f (if decide (args = []) then None else Some args) in
        let st :=
          State (queue st) (<[t := tickObject]> (tickObjects st)) (Pos.succ t) asyncId (hasTickScheduled st)
            (hasRejectionToWarn st) (pendingUnhandledRejections st) (maybeUnhandledPromises st)
            (asyncHandledRejections st) (lastPromiseId st) (nextPromise st) (exiting st) (exitCode st)
            (microtaskRuns st) (emissions st) (uncaughts st) (trace st) in
        let st := if initHooks then log (EvInit asyncId) st else st in
        (set_queue (FixedQueue.push TUndefined (TObj t) (queue st)) st, Returned tt)
  end.

(** ** Rejections *)

(** [Map.prototype.set] keeps the place of a key that is there. *)
Fixpoint map_set (p : positive) (i : promiseInfo) (m : list (positive * promiseInfo)) : list (positive * promiseInfo) :=
  match m with
  | [] => [(p, i)]
  | (q, j) :: m => if decide (q = p) then (p, i) :: m else (q, j) :: map_set p i m
  end.
Definition map_has (p : positive) (m : list (positive * promiseInfo)) : bool := bool_decide (p ∈ m.*1).
Definition map_delete (p : positive) (m : list (positive * promiseInfo)) : list (positive * promiseInfo) :=
  filter (fun kv => kv.1 <> p) m.

Definition unhandledRejection (promise : positive) (r : reason) (st : state) : state :=
  let id := lastPromiseId st + 1 in
  let st :=
    State (queue st) (tickObjects st) (nextObj st) (asyncIdCounter st) (hasTickScheduled st)
      (hasRejectionToWarn st) (map_set promise (PromiseInfo r id false) (pendingUnhandledRejections st))
      (maybeUnhandledPromises st) (asyncHandledRejections st) id (nextPromise st) (exiting st) (exitCode st)
      (microtaskRuns st) (emissions st) (uncaughts st) (trace st) in
  setHasRejectionToWarn true st.

Definition handledRejection (promise : positive) (st : state) : state :=
  if map_has promise (pendingUnhandledRejections st)
  then set_pending (map_delete promise (pendingUnhandledRejections st)) st
  else
    match maybeUnhandledPromises st !! promise with
    | None => st
    | Some i =>
        let st := set_maybe (delete promise (maybeUnhandledPromises st)) st in
        if warned i
        then
          setHasRejectionToWarn true
            (set_asyncHandled (asyncHandledRejections st ++ [(promise, uid i)]) st)
        else st
    end.

(** A new promise, rejected without a handler. *)
Definition reject (r : reason) (st : state) : state :=
  let p := nextPromise st in
  let st :=
    State (queue st) (tickObjects st) (nextObj st) (asyncIdCounter st) (hasTickScheduled st)
      (hasRejectionToWarn st) (pendingUnhandledRejections st) (maybeUnhandledPromises st)
      (asyncHandledRejections st) (lastPromiseId st) (Pos.succ p) (exiting st) (exitCode st)
      (microtaskRuns st) (emissions st) (uncaughts st) (trace st) in
  unhandledRejection p r st.

Fixpoint exec (p : prog) (st : state) : state * outcome unit :=
  match p with
  | Done => (st, Returned tt)
  | Raise e => (st, Threw e)
  | NextTick callback args k =>
      match nextTick callback args st with
      | (st, Returned _) => exec k st
      | r => r
      end
  | Reject r k => exec k (reject r st)
  | AddHandler q k => exec k (handledRejection q (log (EvHandler q) st))
  | BeginExit k => exec k (set_exiting true st)
  end.

Definition runMicrotasks (st : state) : state * outcome unit :=
  exec (microtasks (microtaskRuns st)) (set_microtaskRuns (S (microtaskRuns st)) st).

(** [process.emit]: whether there were listeners. *)
Definition emit (e : emission) (st : state) : state * outcome bool :=
  let n := emissions st in
  let st := log (EvEmit e) (set_emissions (S n) st) in
  match on n e with
  | None => (st, Returned false)
  | Some pr =>
      match exec pr st with
      | (st, Returned _) => (st, Returned true)
      | (st, Threw e) => (st, Threw e)
      | (st, Exited) => (st, Exited)
      end
  end.

(** Sequencing of calls. *)
Definition andThen {A B} (r : state * outcome A) (f : A -> state -> state * outcome B) : state * outcome B :=
  match r with
  | (st, Returned x) => f x st
  | (st, Threw e) => (st, Threw e)
  | (st, Exited) => (st, Exited)
  end.

Definition emitWarning (e : emission) (st : state) : state * outcome unit :=
  andThen (emit e st) (fun _ st => (st, Returned tt)).

Definition isErrorLike (r : reason) : bool := match r with RError _ => true | ROther _ => false end.

Definition emitUnhandledRejectionWarning (i : promiseInfo) (st : state) : state * outcome unit :=
  let text := match i_reason i with RError stack => stack | r => noSideEffectsToString r end in
  let tried :=
    match emitWarning (Warning text) st with
    | (st, Threw _) =>
        match emitWarning (Warning (noSideEffectsToString (i_reason i))) st with
        | (st, Threw _) => (st, Returned tt)
        | r => r
        end
    | r => r
    end in
  andThen tried (fun _ st => emitWarning (WarnUnhandled (uid i)) st).

Definition triggerUncaughtException (r : reason) (st : state) : state * outcome unit :=
  let n := uncaughts st in
  let st := log (EvUncaught r) (set_uncaughts (S n) st) in
  match uncaught n r with
  | None => (st, Exited)
  | Some pr => exec pr st
  end.

(** [new UnhandledPromiseRejection(reason)] *)
Definition UnhandledPromiseRejection (r : reason) : reason := RError (noSideEffectsToString r).
Definition as_error (r : reason) : reason := if isErrorLike r then r else UnhandledPromiseRejection r.

Inductive mode := ModeNone | ModeWarn | ModeStrict | ModeThrow | ModeWarnWithErrorCode.

Definition emitUnhandledRejection (p : positive) (i : promiseInfo) (st : state) : state * outcome bool :=
  emit (UnhandledRejection p (i_reason i)) st.

Definition strictUnhandledRejectionsMode (p : positive) (i : promiseInfo) (st : state) : state * outcome unit :=
  andThen (triggerUncaughtException (as_error (i_reason i)) st) (fun _ st =>
  andThen (emitUnhandledRejection p i st) (fun handled st =>
  if handled then (st, Returned tt) else emitUnhandledRejectionWarning i st)).

Definition ignoreUnhandledRejectionsMode (p : positive) (i : promiseInfo) (st : state) : state * outcome unit :=
  andThen (emitUnhandledRejection p i st) (fun _ st => (st, Returned tt)).

Definition alwaysWarnUnhandledRejectionsMode (p : positive) (i : promiseInfo) (st : state) : state * outcome unit :=
  andThen (emitUnhandledRejection p i st) (fun _ st => emitUnhandledRejectionWarning i st).

Definition throwUnhandledRejectionsMode (p : positive) (i : promiseInfo) (st : state) : state * outcome unit :=
  andThen (emitUnhandledRejection p i st) (fun handled st =>
  if handled then (st, Returned tt) else triggerUncaughtException (as_error (i_reason i)) st).

Definition warnWithErrorCodeUnhandledRejectionsMode (p : positive) (i : promiseInfo) (st : state)
    : state * outcome unit :=
  andThen (emitUnhandledRejection p i st) (fun handled st =>
  if handled then (st, Returned tt)
  else andThen (emitUnhandledRejectionWarning i st) (fun _ st => (set_exitCode (Some 1) st, Returned tt))).

(** The value of [--unhandled-rejections]. *)
Definition getUnhandledRejectionsMode (option_ : jsstr) : mode :=
  if bool_decide (option_ = "none"%js) then ModeNone
  else if bool_decide (option_ = "warn"%js) then ModeWarn
  else if bool_decide (option_ = "strict"%js) then ModeStrict
  else if bool_decide (option_ = "throw"%js) then ModeThrow
  else if bool_decide (option_ = "warn-with-error-code"%js) then ModeWarnWithErrorCode
  else ModeThrow.

Definition unhandledRejectionsMode (m : mode) : positive -> promiseInfo -> state -> state * outcome unit :=
  match m with
  | ModeNone => ignoreUnhandledRejectionsMode
  | ModeWarn => alwaysWarnUnhandledRejectionsMode
  | ModeStrict => strictUnhandledRejectionsMode
  | ModeThrow => throwUnhandledRejectionsMode
  | ModeWarnWithErrorCode => warnWithErrorCodeUnhandledRejectionsMode
  end.

Context (m : mode).

(** The first loop of [processPromiseRejections]; a listener may add to the
    list it empties. *)
Fixpoint handled_loop (fuel : nat) (st : state) : option (state * outcome unit) :=
  match asyncHandledRejections st with
  | [] => Some (st, Returned tt)
  | (promise, id) :: rest =>
      match fuel with
      | O => None
      | S fuel =>
          match andThen (emit (RejectionHandled promise) (set_asyncHandled rest st))
                  (fun handled st => if handled then (st, Returned tt) else emitWarning (WarnHandled id) st) with
          | (st, Returned _) => handled_loop fuel st
          | r => Some r
          end
      end
  end.

(** The second loop, over the map that was taken away. *)
Fixpoint pending_loop (pending : list (positive * promiseInfo)) (st : state) : state * outcome unit :=
  match pending with
  | [] => (st, Returned tt)
  | (promise, i) :: pending =>
      let i := PromiseInfo (i_reason i) (uid i) true in
      let st := log (EvReport promise) (set_maybe (<[promise := i]> (maybeUnhandledPromises st)) st) in
      andThen (unhandledRejectionsMode m promise i st) (fun _ st => pending_loop pending st)
  end.

Definition processPromiseRejections (fuel : nat) (st : state) : option (state * outcome bool) :=
  let maybeScheduled := negb (bool_decide (asyncHandledRejections st = [])) in
  match handled_loop fuel st with
  | None => None
  | Some r =>
      Some (andThen r (fun _ st =>
        let pending := pendingUnhandledRejections st in
        let st := set_pending [] st in
        andThen (pending_loop pending st) (fun _ st =>
          (st, Returned (maybeScheduled || negb (bool_decide (pending = [])) ||
                         negb (bool_decide (pendingUnhandledRejections st = [])))))))
  end.

(** ** The loop *)

(** One tick; what follows the callback in a [finally] block runs in any case. *)
Definition run_tick (t : positive) (st : state) : state * outcome unit :=
  match tickObjects st !! t with
  | None => (st, Returned tt)
  | Some tock =>
      let st := log (EvTick t) (log (EvBefore (t_async tock)) st) in
      match exec (t_callback tock) st with
      | (st, Returned _) => (log (EvAfter (t_async tock)) (log (EvDestroy (t_async tock)) st), Returned tt)
      | (st, Threw e) => (log (EvDestroy (t_async tock)) st, Threw e)
      | (st, Exited) => (st, Exited)
      end
  end.

(** [while ((tock = queue.shift()) !== null)] *)
Fixpoint drain (fuel : nat) (st : state) : option (state * outcome unit) :=
  match fuel with
  | O => None
  | S fuel =>
      let '(q, tock) := FixedQueue.shift TUndefined TNull (queue st) in
      let st := set_queue q st in
      match tock with
      | TObj t =>
          match run_tick t st with
          | (st, Returned _) => drain fuel st
          | r => Some r
          end
      | _ => Some (st, Returned tt)
      end
  end.

Fixpoint processTicksAndRejections (fuel inner : nat) (st : state) : option (state * outcome unit) :=
  match fuel with
  | O => None
  | S fuel =>
      match drain inner st with
      | None => None
      | Some (st, Returned _) =>
          match runMicrotasks st with
          | (st, Returned _) =>
              if negb (FixedQueue.isEmpty TUndefined (queue st)) then processTicksAndRejections fuel inner st
              else
                match processPromiseRejections inner st with
                | None => None
                | Some (st, Returned true) => processTicksAndRejections fuel inner st
                | Some (st, Returned false) =>
                    Some (setHasRejectionToWarn false (setHasTickScheduled false st), Returned tt)
                | Some (st, Threw e) => Some (st, Threw e)
                | Some (st, Exited) => Some (st, Exited)
                end
          | r => Some r
          end
      | Some r => Some r
      end
  end.

Definition runNextTicks (fuel inner : nat) (st : state) : option (state * outcome unit) :=
  let idle st := negb (hasTickScheduled st) && negb (hasRejectionToWarn st) in
  match (if idle st then runMicrotasks st else (st, Returned tt)) with
  | (st, Returned _) =>
      if idle st then Some (st, Returned tt) else processTicksAndRejections fuel inner st
  | r => Some r
  end.
End Env.
End TaskQueues.
