(* ===== verification/TaskQueuesFacts.v ===== *)
(** * Correctness of next ticks and promise rejections

    The invariant of the task queues, through programs, ticks, microtasks and
    rejections, whether they return, throw or end the process; a measure that
    bounds the loop; and the claims. *)

From Stdlib Require Import Sorted.
From stdpp Require Import gmap.
From S2P Require Import Prelude JsString PriorityQueue FixedQueue TaskQueues.
Import TaskQueues.

(** ** What the trace tells *)

Definition ran (t : list event) : list positive :=
  omap (fun e => match e with EvTick i => Some i | _ => None end) t.
Definition reports (t : list event) : list positive :=
  omap (fun e => match e with EvReport p => Some p | _ => None end) t.
Definition handlers (t : list event) : list positive :=
  omap (fun e => match e with EvHandler p => Some p | _ => None end) t.

(** The weight of a program: what it can add to the queues. *)
Fixpoint weight (p : prog) : nat :=
  match p with
  | Done | Raise _ | NextTick None _ _ => 0
  | NextTick (Some f) _ k => 1 + weight f + weight k
  | Reject _ k | AddHandler _ k => 1 + weight k
  | BeginExit k => weight k
  end.

Definition tick_weight (st : state) (t : positive) : nat :=
  match tickObjects st !! t with Some k => 1 + weight (t_callback k) | None => 1 end.

Definition queued_weight (st : state) (L : list positive) : nat := sum_list (tick_weight st <$> L).

(** What is left to do: the ticks [L], the rejections. *)
Definition cost (st : state) (L : list positive) : nat :=
  queued_weight st L + length (pendingUnhandledRejections st) + length (asyncHandledRejections st).

(** ** The invariant

    [L] is what the queue holds, and [X] the rejections taken away by
    [processPromiseRejections] and not yet reported. *)
Record wf (X : list positive) (st : state) (L : list positive) : Prop := {
  wf_queue : FixedQueue.holds TUndefined (queue st) (TObj <$> L);
  wf_objects t : t ∈ L -> is_Some (tickObjects st !! t);
  wf_scheduled : L <> [] -> hasTickScheduled st = true;
  wf_to_warn : pendingUnhandledRejections st <> [] \/ asyncHandledRejections st <> [] ->
    hasRejectionToWarn st = true;
  wf_ticks : StronglySorted Pos.lt (ran (trace st) ++ L ++ [nextObj st]);
  wf_rejections : StronglySorted Pos.lt
    (reports (trace st) ++ X ++ (pendingUnhandledRejections st).*1 ++ [nextPromise st]);
}.

(** No rejection is lost: each was reported, waits, or was handled. *)
Definition accounted (X : list positive) (st : state) : Prop :=
  forall p, (p < nextPromise st)%positive ->
    p ∈ reports (trace st) \/ p ∈ X \/ p ∈ (pendingUnhandledRejections st).*1 \/ p ∈ handlers (trace st).

(** A step that leaves the oracles alone, and adds at most [n] to the work. *)
Record step (X : list positive) (n : nat) (st : state) (L : list positive) (st' : state) (L' : list positive) : Prop := {
  st_wf : wf X st' L';
  st_accounted : accounted X st -> accounted X st';
  st_cost : (cost st' L' <= cost st L + n)%nat;
  st_micro : microtaskRuns st' = microtaskRuns st;
  st_emissions : emissions st' = emissions st;
  st_uncaughts : uncaughts st' = uncaughts st;
}.

Lemma step_refl X st L : wf X st L -> step X 0 st L st L.
Proof. intros H. by constructor; [..|lia| | |]. Qed.

Lemma step_trans X n m st L st1 L1 st2 L2 :
  step X n st L st1 L1 -> step X m st1 L1 st2 L2 -> step X (n + m) st L st2 L2.
Proof. intros [] []. constructor; [done|auto|lia|congruence..]. Qed.

Lemma step_le X n m st L st' L' : (n <= m)%nat -> step X n st L st' L' -> step X m st L st' L'.
Proof. intros Hle []. constructor; [done|done|lia|done..]. Qed.

(** *** Events *)

Lemma omap_snoc {A B} (f : A -> option B) l x : omap f (l ++ [x]) = omap f l ++ match f x with Some y => [y] | None => [] end.
Proof. rewrite omap_app. cbn. by destruct (f x). Qed.

(** An event that says nothing of ticks or reports. *)
Definition plain_event (e : event) : Prop := match e with EvTick _ | EvReport _ => False | _ => True end.

Lemma step_log X e st L : plain_event e -> wf X st L -> step X 0 st L (log e st) L.
Proof.
  intros He W. assert (ran (trace (log e st)) = ran (trace st) /\ reports (trace (log e st)) = reports (trace st)) as [H1 H2].
  { unfold ran, reports. cbn. rewrite !omap_snoc. destruct e; try done; by rewrite !app_nil_r. }
  constructor; try done; [|unfold accounted|rewrite Nat.add_0_r; reflexivity].
  - destruct W. constructor; try done; by rewrite ?H1, ?H2.
  - intros HA p Hp. rewrite H2. specialize (HA p Hp). unfold handlers in *. cbn. rewrite omap_snoc, elem_of_app. tauto.
Qed.

(** *** [nextTick] *)

Lemma wf_below X st L : wf X st L -> forall t, t ∈ L -> (t < nextObj st)%positive.
Proof.
  intros W t Ht. pose proof (wf_ticks _ _ _ W) as H. rewrite app_assoc in H.
  eapply sorted_app_lt; [exact H| |by apply list_elem_of_singleton]. apply elem_of_app. by right.
Qed.

Lemma queued_same st st' L :
  (forall t, t ∈ L -> tickObjects st' !! t = tickObjects st !! t) -> queued_weight st' L = queued_weight st L.
Proof.
  intros H. unfold queued_weight. f_equal. apply list_fmap_ext. intros i t Ht. unfold tick_weight.
  by rewrite H by by eapply list_elem_of_lookup_2.
Qed.

Lemma queued_app st L K : queued_weight st (L ++ K) = (queued_weight st L + queued_weight st K)%nat.
Proof. unfold queued_weight. rewrite fmap_app. induction (tick_weight st <$> L) as [|n l IH]; cbn in *; lia. Qed.

(** A tick object is made and pushed. *)
Lemma step_push X st L k :
  wf X st L -> hasTickScheduled st = true ->
  let t := nextObj st in
  step X (1 + weight (t_callback k)) st L
    (State (FixedQueue.push TUndefined (TObj t) (queue st)) (<[t := k]> (tickObjects st)) (Pos.succ t) (t_async k)
       (hasTickScheduled st) (hasRejectionToWarn st) (pendingUnhandledRejections st) (maybeUnhandledPromises st)
       (asyncHandledRejections st) (lastPromiseId st) (nextPromise st) (exiting st) (exitCode st)
       (microtaskRuns st) (emissions st) (uncaughts st) (trace st)) (L ++ [t]).
Proof.
  intros W Hflag t. pose proof (wf_below _ _ _ W) as Hlt. set (st' := State _ _ _ _ _ _ _ _ _ _ _ _ _ _ _ _ _).
  constructor; try done.
  - unfold st'. destruct W. constructor; try done; cbn [queue tickObjects nextObj trace].
    + rewrite fmap_app. by apply FixedQueue.holds_push.
    + intros u [Hu|Hu%list_elem_of_singleton]%elem_of_app; [|rewrite Hu, lookup_insert_eq; by eexists].
      rewrite lookup_insert_ne; [auto|]. specialize (Hlt u Hu). unfold t. lia.
    + rewrite <- (app_assoc L), (app_assoc (ran _)). apply sorted_snoc. by rewrite <- app_assoc.
  - unfold cost. cbn [pendingUnhandledRejections asyncHandledRejections st']. rewrite queued_app.
    rewrite (queued_same st st' L).
    + assert (queued_weight st' [t] = 1 + weight (t_callback k))%nat as ->; [|lia].
      change (queued_weight st' [t]) with (tick_weight st' t + 0)%nat. unfold tick_weight.
      change (tickObjects st') with (<[t := k]> (tickObjects st)). rewrite lookup_insert_eq. lia.
    + intros u Hu. change (tickObjects st') with (<[t := k]> (tickObjects st)). rewrite lookup_insert_ne; [done|]. specialize (Hlt u Hu). unfold t. lia.
Qed.

Lemma step_schedule X st L :
  wf X st L ->
  let st0 := if FixedQueue.isEmpty TUndefined (queue st) then setHasTickScheduled true st else st in
  step X 0 st L st0 L /\ hasTickScheduled st0 = true.
Proof.
  intros W. rewrite (FixedQueue.holds_isEmpty _ _ _ (wf_queue _ _ _ W)). destruct L as [|t L]; cbn [fmap list_fmap].
  - rewrite bool_decide_eq_true_2 by done. split; [|done]. constructor; try done; [destruct W; by constructor|rewrite Nat.add_0_r; reflexivity].
  - rewrite bool_decide_eq_false_2 by done. split; [by apply step_refl|]. by apply (wf_scheduled _ _ _ W).
Qed.

Lemma step_nextTick hooks X f args st L :
  wf X st L -> exists L', step X (1 + weight f) st L (nextTick hooks (Some f) args st).1 L'.
Proof.
  intros W. unfold nextTick. destruct (exiting st).
  { exists L. eapply step_le; [|by apply step_refl]. lia. }
  destruct (step_schedule _ _ _ W) as [S0 Hflag]. cbv zeta. set (st0 := if FixedQueue.isEmpty _ _ then _ else _) in *.
  pose proof (step_push _ _ _ (Tick (asyncIdCounter st0 + 1) f (if decide (args = []) then None else Some args))
    (st_wf _ _ _ _ _ _ S0) Hflag) as S1. pose proof (step_trans _ _ _ _ _ _ _ _ _ S0 S1) as S2.
  exists (L ++ [nextObj st0]). destruct hooks; [|exact S2].
  pose proof (step_log X (EvInit (asyncIdCounter st0 + 1)) _ _ I (st_wf _ _ _ _ _ _ S2)) as S3.
  pose proof (step_trans _ _ _ _ _ _ _ _ _ S2 S3) as S4. eapply step_le; [|exact S4]. cbn. lia.
Qed.

(** *** Rejections *)

Lemma wf_keys X st L p : wf X st L -> p ∈ (pendingUnhandledRejections st).*1 -> (p < nextPromise st)%positive.
Proof.
  intros W Hp. pose proof (wf_rejections _ _ _ W) as H. rewrite !app_assoc in H.
  eapply sorted_app_lt; [exact H| |by apply list_elem_of_singleton]. apply elem_of_app. by right.
Qed.

Lemma map_set_new p i m : p ∉ m.*1 -> map_set p i m = m ++ [(p, i)].
Proof.
  induction m as [|[q j] m IH]; [done|]. cbn [map_set fmap list_fmap fst]. intros [Hq Hm]%not_elem_of_cons.
  rewrite decide_False by done. by rewrite IH.
Qed.

Lemma step_reject X r st L : wf X st L -> step X 1 st L (reject r st) L.
Proof.
  intros W. unfold reject, unhandledRejection. cbn [pendingUnhandledRejections].
  assert (nextPromise st ∉ (pendingUnhandledRejections st).*1) as Hnew.
  { intros H. pose proof (wf_keys _ _ _ _ W H). lia. }
  rewrite map_set_new by done. constructor; try done.
  - destruct W. constructor; try done. cbn [trace pendingUnhandledRejections nextPromise setHasRejectionToWarn].
    rewrite fmap_app. cbn [fmap list_fmap fst]. rewrite <- (app_assoc _ [_]), !app_assoc.
    rewrite <- (app_assoc _ [_] [_]). apply sorted_snoc. by rewrite <- !app_assoc.
  - intros HA p Hp. cbn [trace pendingUnhandledRejections nextPromise setHasRejectionToWarn] in *.
    rewrite fmap_app, elem_of_app. cbn [fmap list_fmap fst].
    destruct (decide (p = nextPromise st)) as [->|Hne]; [right; right; left; right; by apply list_elem_of_singleton|].
    destruct (HA p) as [H|[H|[H|H]]]; [lia|..]; tauto.
  - unfold cost. cbn [pendingUnhandledRejections asyncHandledRejections setHasRejectionToWarn]. rewrite length_app.
    change (queued_weight _ L) with (queued_weight st L). cbn. lia.
Qed.

Lemma map_delete_keys p m : (map_delete p m).*1 `sublist_of` m.*1.
Proof.
  unfold map_delete. induction m as [|kv m IH]; [done|]. rewrite filter_cons.
  case_decide; by constructor.
Qed.

Lemma map_delete_in q p m : q ∈ m.*1 -> q <> p -> q ∈ (map_delete p m).*1.
Proof.
  intros (kv & -> & Hkv)%list_elem_of_fmap Hne. apply list_elem_of_fmap_2.
  apply list_elem_of_filter. by split.
Qed.

Lemma step_handled X q st L :
  wf X st L -> q ∈ handlers (trace st) -> step X 1 st L (handledRejection q st) L.
Proof.
  intros W Hq. unfold handledRejection. destruct (map_has q _).
  - constructor; try done.
    + destruct W. constructor; try done; cbn [trace pendingUnhandledRejections set_pending nextPromise asyncHandledRejections hasRejectionToWarn].
      * intros [H|H]; [|auto]. apply wf_to_warn0. left. intros E. by rewrite E in H.
      * eapply sorted_sublist; [|exact wf_rejections0]. repeat apply sublist_app; auto using map_delete_keys.
    + intros HA p Hp. cbn [trace pendingUnhandledRejections set_pending nextPromise] in *.
      destruct (decide (p = q)) as [->|Hne]; [tauto|].
      destruct (HA p Hp) as [H|[H|[H|H]]]; [tauto..| |tauto]. right. right. left. by apply map_delete_in.
    + unfold cost. cbn [pendingUnhandledRejections asyncHandledRejections set_pending].
      change (queued_weight _ L) with (queued_weight st L).
      pose proof (length_filter (fun kv : positive * promiseInfo => kv.1 <> q) (pendingUnhandledRejections st)). unfold map_delete. lia.
  - destruct (maybeUnhandledPromises st !! q) as [i|]; [|eapply step_le; [|by apply step_refl]; lia].
    destruct (warned i).
    + constructor; try done; [destruct W; by constructor|].
      unfold cost. cbn [pendingUnhandledRejections asyncHandledRejections setHasRejectionToWarn set_asyncHandled set_maybe].
      rewrite length_app. change (queued_weight _ L) with (queued_weight st L). cbn. lia.
    + constructor; try done; [destruct W; by constructor|]. change (cost _ L) with (cost st L). lia.
Qed.

Lemma exec_step hooks X p st L :
  wf X st L -> exists L', step X (weight p) st L (exec hooks p st).1 L'.
Proof.
  revert st L. induction p as [|e|cb args k IH|r k IH|q k IH|k IH]; intros st L W; cbn [exec weight];
    [by exists L; apply step_refl|by exists L; apply step_refl|..].
  - destruct cb as [f|]; [|by exists L; apply step_refl].
    destruct (step_nextTick hooks X f args st L W) as [L1 S1].
    assert (exists st1, nextTick hooks (Some f) args st = (st1, Returned tt)) as [st1 E].
    { unfold nextTick. destruct (exiting st); by eexists. }
    rewrite E in *. cbn [fst] in S1. destruct (IH st1 L1 (st_wf _ _ _ _ _ _ S1)) as [L2 S2].
    exists L2. eapply step_trans; [exact S1|exact S2].
  - pose proof (step_reject X r st L W) as S1. destruct (IH _ _ (st_wf _ _ _ _ _ _ S1)) as [L2 S2].
    exists L2. eapply (step_trans X 1); [exact S1|exact S2].
  - pose proof (step_log X (EvHandler q) st L I W) as S1.
    assert (q ∈ handlers (trace (log (EvHandler q) st))) as Hq.
    { unfold handlers. cbn. rewrite omap_snoc. apply elem_of_app. right. by apply list_elem_of_singleton. }
    pose proof (step_handled X q _ L (st_wf _ _ _ _ _ _ S1) Hq) as S2.
    destruct (IH _ _ (st_wf _ _ _ _ _ _ S2)) as [L2 S3].
    exists L2. eapply (step_trans X 1); [|exact S3]. eapply (step_trans X 0); [exact S1|exact S2].
  - assert (step X 0 st L (set_exiting true st) L) as S1.
    { constructor; try done; [destruct W; by constructor|]. rewrite Nat.add_0_r. reflexivity. }
    destruct (IH _ _ (st_wf _ _ _ _ _ _ S1)) as [L2 S2]. exists L2. eapply (step_trans X 0); [exact S1|exact S2].
Qed.

(** ** Oracles *)

Section Run.
Context (hooks : bool) (microtasks : nat -> prog) (on : nat -> emission -> option prog).
Context (uncaught : nat -> reason -> option prog) (toStr : reason -> jsstr).
(** For termination: the oracles add at most [B] each time, and nothing from
    the [N]-th time on. *)
Context (N B : nat).

Definition allowance (n : nat) : nat := if (n <? N)%nat then B else 0.

Record finite : Prop := {
  fin_micro n : (weight (microtasks n) <= allowance n)%nat;
  fin_on n e pr : on n e = Some pr -> (weight pr <= allowance n)%nat;
  fin_uncaught n r pr : uncaught n r = Some pr -> (weight pr <= allowance n)%nat;
}.

Definition budget (st : state) : nat :=
  B * ((N - microtaskRuns st) + (N - emissions st) + (N - uncaughts st)).

Definition total (st : state) (L : list positive) : nat := cost st L + budget st.

(** Calls, of user code too, keep the invariant and pay for what they add. *)
Record move (X : list positive) (st : state) (L : list positive) (st' : state) (L' : list positive) : Prop := {
  mv_wf : wf X st' L';
  mv_accounted : accounted X st -> accounted X st';
  mv_total : finite -> (total st' L' <= total st L)%nat;
}.

Definition moves (X : list positive) (st : state) (L : list positive) (st' : state) : Prop :=
  exists L', move X st L st' L'.

Lemma move_refl X st L : wf X st L -> move X st L st L.
Proof. by constructor. Qed.

Lemma move_trans X st L st1 L1 st2 L2 : move X st L st1 L1 -> move X st1 L1 st2 L2 -> move X st L st2 L2.
Proof. intros [] []. constructor; [done|auto|]. intros F. etrans; [by apply mv_total1|by apply mv_total0]. Qed.

Lemma step_move X st L st' L' : step X 0 st L st' L' -> move X st L st' L'.
Proof.
  intros [W A C M E U]. constructor; [done|done|]. intros _. unfold total, budget. rewrite M, E, U. lia.
Qed.

Lemma allowance_paid n k : (allowance n + B * (N - S n + k) <= B * (N - n + k))%nat.
Proof. unfold allowance. destruct (Nat.ltb_spec n N); nia. Qed.

Lemma moves_microtasks X st L : wf X st L -> moves X st L (runMicrotasks hooks microtasks st).1.
Proof.
  intros W. unfold runMicrotasks. set (n := microtaskRuns st).
  assert (wf X (set_microtaskRuns (S n) st) L) as W1 by (destruct W; by constructor).
  destruct (exec_step hooks X (microtasks n) _ _ W1) as [L' S]. exists L'. destruct S as [W2 A C M E U].
  constructor; [done|exact A|]. intros F. pose proof (fin_micro F n). unfold total, budget. rewrite M, E, U.
  cbn [microtaskRuns emissions uncaughts set_microtaskRuns]. fold n.
  change (cost (set_microtaskRuns (S n) st) L) with (cost st L) in C.
  pose proof (allowance_paid n ((N - emissions st) + (N - uncaughts st))). rewrite <- !Nat.add_assoc. lia.
Qed.

Lemma moves_emit X e st L : wf X st L -> moves X st L (emit hooks on e st).1.
Proof.
  intros W. unfold emit. set (n := emissions st). cbv zeta. set (st1 := log _ _).
  assert (wf X (set_emissions (S n) st) L) as W0 by (destruct W; by constructor).
  pose proof (step_log X (EvEmit e) _ _ I W0) as [W1 A1 _ M1 E1 U1]. fold st1 in W1, A1, M1, E1, U1.
  assert (cost st1 L = cost st L) as C1 by reflexivity.
  destruct (on n e) as [pr|] eqn:Eo.
  - destruct (exec_step hooks X pr st1 L W1) as [L' [W2 A C M E U]]. exists L'.
    assert (move X st L (exec hooks pr st1).1 L') as Hm.
    { constructor; [done|auto|]. intros F. pose proof (fin_on F n e pr Eo). unfold total, budget.
      rewrite M, E, U, M1, E1, U1. cbn [microtaskRuns emissions uncaughts set_emissions]. fold n.
      pose proof (allowance_paid n ((N - microtaskRuns st) + (N - uncaughts st))). lia. }
    by destruct (exec hooks pr st1) as [st2 []].
  - exists L. cbn [fst]. constructor; [done|done|]. intros F. unfold total, budget. rewrite M1, E1, U1, C1.
    cbn [microtaskRuns emissions uncaughts set_emissions]. fold n. nia.
Qed.

Lemma moves_trigger X r st L : wf X st L -> moves X st L (triggerUncaughtException hooks uncaught r st).1.
Proof.
  intros W. unfold triggerUncaughtException. set (n := uncaughts st). cbv zeta. set (st1 := log _ _).
  assert (wf X (set_uncaughts (S n) st) L) as W0 by (destruct W; by constructor).
  pose proof (step_log X (EvUncaught r) _ _ I W0) as [W1 A1 _ M1 E1 U1]. fold st1 in W1, A1, M1, E1, U1.
  assert (cost st1 L = cost st L) as C1 by reflexivity.
  destruct (uncaught n r) as [pr|] eqn:Eo.
  - destruct (exec_step hooks X pr st1 L W1) as [L' [W2 A C M E U]]. exists L'.
    constructor; [done|auto|]. intros F. pose proof (fin_uncaught F n r pr Eo). unfold total, budget.
    rewrite M, E, U, M1, E1, U1. cbn [microtaskRuns emissions uncaughts set_uncaughts]. fold n.
    pose proof (allowance_paid n ((N - microtaskRuns st) + (N - emissions st))). lia.
  - exists L. cbn [fst]. constructor; [done|done|]. intros F. unfold total, budget. rewrite M1, E1, U1, C1.
    cbn [microtaskRuns emissions uncaughts set_uncaughts]. fold n. nia.
Qed.

(** Sequences of calls. *)
Lemma moves_andThen {A C} X st L (r : state * outcome A) (f : A -> state -> state * outcome C) :
  moves X st L r.1 -> (forall x st1 L1, wf X st1 L1 -> moves X st1 L1 (f x st1).1) ->
  moves X st L (andThen r f).1.
Proof.
  intros [L1 M1] Hf. destruct r as [st1 []]; cbn [andThen fst] in *; [|by exists L1..].
  destruct (Hf x st1 L1 (mv_wf _ _ _ _ _ M1)) as [L2 M2]. exists L2. by eapply move_trans.
Qed.

Lemma moves_refl X st L : wf X st L -> moves X st L st.
Proof. intros W. exists L. by apply move_refl. Qed.

Lemma moves_emitWarning X e st L : wf X st L -> moves X st L (emitWarning hooks on e st).1.
Proof. intros W. apply moves_andThen; [by apply moves_emit|]. intros. by apply moves_refl. Qed.

Lemma moves_then X st L st1 L1 st2 : move X st L st1 L1 -> moves X st1 L1 st2 -> moves X st L st2.
Proof. intros M1 [L2 M2]. exists L2. by eapply move_trans. Qed.

Lemma moves_unhandledWarning X i st L :
  wf X st L -> moves X st L (emitUnhandledRejectionWarning hooks on toStr i st).1.
Proof.
  intros W. unfold emitUnhandledRejectionWarning. apply moves_andThen.
  - destruct (moves_emitWarning X (Warning (match i_reason i with RError stack => stack | r => toStr r end)) st L W) as [L1 M1].
    destruct (emitWarning _ _ _ st) as [st1 []]; cbn [fst] in *; [by exists L1| |by exists L1].
    destruct (moves_emitWarning X (Warning (toStr (i_reason i))) st1 L1 (mv_wf _ _ _ _ _ M1)) as [L2 M2].
    destruct (emitWarning _ _ _ st1) as [st2 []]; cbn [fst] in *; exists L2; by eapply move_trans.
  - intros. by apply moves_emitWarning.
Qed.

Lemma moves_mode X m p i st L :
  wf X st L -> moves X st L (unhandledRejectionsMode hooks on uncaught toStr m p i st).1.
Proof.
  assert (forall f st1 L1, wf X st1 L1 -> (forall st2 L2, wf X st2 L2 -> moves X st2 L2 (f st2).1) ->
    forall b : bool, moves X st1 L1 (if b then (st1, Returned tt) else f st1).1) as Hif.
  { intros f st1 L1 W1 Hf []; [by apply moves_refl|by apply Hf]. }
  intros W. unfold unhandledRejectionsMode. destruct m;
    unfold ignoreUnhandledRejectionsMode, alwaysWarnUnhandledRejectionsMode, strictUnhandledRejectionsMode,
      throwUnhandledRejectionsMode, warnWithErrorCodeUnhandledRejectionsMode, emitUnhandledRejection.
  - apply moves_andThen; [by apply moves_emit|]. intros. by apply moves_refl.
  - apply moves_andThen; [by apply moves_emit|]. intros. by apply moves_unhandledWarning.
  - apply moves_andThen; [by apply moves_trigger|]. intros. apply moves_andThen; [by apply moves_emit|].
    intros. apply Hif; [done|]. intros. by apply moves_unhandledWarning.
  - apply moves_andThen; [by apply moves_emit|]. intros. apply Hif; [done|]. intros. by apply moves_trigger.
  - apply moves_andThen; [by apply moves_emit|]. intros x st1 L1 W1.
    apply (Hif (fun st => andThen (emitUnhandledRejectionWarning hooks on toStr i st)
      (fun _ st => (set_exitCode (Some 1) st, Returned tt)))); [done|]. intros st2 L2 W2.
    apply moves_andThen; [by apply moves_unhandledWarning|]. intros _ st3 L3 W3. exists L3.
    apply step_move. constructor; try done; [destruct W3; by constructor|]. rewrite Nat.add_0_r. reflexivity.
Qed.

Context (m : mode).

(** *** [processPromiseRejections] *)

Lemma wf_drop X st L : wf X st L -> wf [] st L.
Proof.
  intros []. constructor; try done. eapply sorted_sublist; [|exact wf_rejections0].
  apply sublist_app; [done|]. cbn [app]. by apply sublist_inserts_l.
Qed.

(** The batch that was taken away, reported one by one. *)
Lemma pending_loop_ok pend st L :
  wf pend.*1 st L ->
  let r := pending_loop hooks on uncaught toStr m pend st in
  exists L', wf [] r.1 L' /\ (finite -> (total r.1 L' <= total st L)%nat) /\
    (r.2 = Returned tt -> accounted pend.*1 st -> accounted [] r.1).
Proof.
  revert st L. induction pend as [|[p i] pend IH]; intros st L W; [by exists L|].
  cbn [pending_loop fmap list_fmap fst] in *. cbv zeta. set (i' := PromiseInfo _ _ _). set (st1 := log _ _).
  assert (reports (trace st1) = reports (trace st) ++ [p] /\ ran (trace st1) = ran (trace st) /\
    handlers (trace st1) = handlers (trace st)) as (HR & HT & HH).
  { unfold reports, ran, handlers, st1. cbn. rewrite !omap_snoc. by rewrite !app_nil_r. }
  assert (wf pend.*1 st1 L) as W1.
  { destruct W. constructor; try done; [by rewrite HT|]. rewrite HR, <- app_assoc. exact wf_rejections0. }
  assert (accounted (p :: pend.*1) st -> accounted pend.*1 st1) as HA.
  { intros HA q Hq. rewrite HR, HH, elem_of_app, list_elem_of_singleton.
    specialize (HA q Hq). rewrite elem_of_cons in HA. change (pendingUnhandledRejections st1) with (pendingUnhandledRejections st). tauto. }
  destruct (moves_mode pend.*1 m p i' st1 L W1) as [L2 [W2 A2 T2]].
  change (total st1 L) with (total st L) in T2.
  destruct (unhandledRejectionsMode _ _ _ _ m p i' st1) as [st2 [x|e|]]; cbn [andThen fst] in *;
    [|exists L2; split_and!; [by eapply wf_drop|done|done]..].
  destruct (IH st2 L2 W2) as (L3 & W3 & T3 & A3). exists L3. split_and!; [done| |auto].
  intros F. etrans; [by apply T3|by apply T2].
Qed.

Lemma total_pop st L promise id rest :
  asyncHandledRejections st = (promise, id) :: rest -> total st L = S (total (set_asyncHandled rest st) L).
Proof.
  intros E. unfold total, cost. cbn [pendingUnhandledRejections asyncHandledRejections set_asyncHandled]. rewrite E. cbn [length].
  change (budget (set_asyncHandled rest st)) with (budget st).
  change (queued_weight (set_asyncHandled rest st) L) with (queued_weight st L). lia.
Qed.

(** One report of a handler that came late. *)
Lemma handled_step st L promise id rest :
  wf [] st L -> asyncHandledRejections st = (promise, id) :: rest ->
  let r := andThen (emit hooks on (RejectionHandled promise) (set_asyncHandled rest st))
             (fun handled st => if handled then (st, Returned tt) else emitWarning hooks on (WarnHandled id) st) in
  exists L', wf [] r.1 L' /\ (accounted [] st -> accounted [] r.1) /\ (finite -> (total r.1 L' < total st L)%nat).
Proof.
  intros W E r. assert (wf [] (set_asyncHandled rest st) L) as W1.
  { destruct W. constructor; try done. cbn. intros [H|H]; apply wf_to_warn0; [by left|right; by rewrite E]. }
  assert (moves [] (set_asyncHandled rest st) L r.1) as [L' [W' A' T']].
  { apply moves_andThen; [by apply moves_emit|]. intros [] st1 L1 W2; [by apply moves_refl|by apply moves_emitWarning]. }
  exists L'. split_and!; [done|exact A'|]. intros F. rewrite (total_pop st L promise id rest E). specialize (T' F). lia.
Qed.

Lemma handled_loop_ok fuel st L :
  wf [] st L ->
  (finite -> (total st L <= fuel)%nat -> handled_loop hooks on fuel st <> None) /\
  forall st' r, handled_loop hooks on fuel st = Some (st', r) ->
    exists L', wf [] st' L' /\ (accounted [] st -> accounted [] st') /\
      (finite -> (total st' L' <= total st L)%nat) /\
      (asyncHandledRejections st = [] -> st' = st /\ L' = L /\ r = Returned tt) /\
      (asyncHandledRejections st <> [] -> finite -> (total st' L' < total st L)%nat) /\
      (r = Returned tt -> asyncHandledRejections st' = []).
Proof.
  revert st L. induction fuel as [|fuel IH]; intros st L W; cbn [handled_loop];
    (destruct (asyncHandledRejections st) as [|[promise id] rest] eqn:E;
      [split; [done|]; intros st' r [= <- <-]; exists L; by split_and!|]).
  - split; [|done]. intros F Hf. rewrite (total_pop st L promise id rest E) in Hf. lia.
  - destruct (handled_step st L promise id rest W E) as (L1 & W1 & A1 & T1). cbv zeta in *.
    destruct (andThen _ _) as [st1 [x|e|]]; cbn [fst] in *; [|split; [done|]; intros st' r [= <- <-]; exists L1;
      split_and!; [done..|intros F; specialize (T1 F); lia|done|done|done]..].
    destruct (IH st1 L1 W1) as [IH1 IH2]. split.
    + intros F Hf. apply IH1; [done|]. specialize (T1 F). lia.
    + intros st' r Hr. destruct (IH2 st' r Hr) as (L' & W' & A' & T' & _ & _ & E').
      exists L'. split_and!; [done|auto| |done| |done].
      * intros F. specialize (T1 F). specialize (T' F). lia.
      * intros _ F. specialize (T1 F). specialize (T' F). lia.
Qed.

(** The map is taken away. *)
Lemma take_pending st L :
  wf [] st L ->
  wf (pendingUnhandledRejections st).*1 (set_pending [] st) L /\
  (accounted [] st -> accounted (pendingUnhandledRejections st).*1 (set_pending [] st)) /\
  total st L = (total (set_pending [] st) L + length (pendingUnhandledRejections st))%nat.
Proof.
  intros W. split_and!.
  - destruct W. constructor; try done. cbn. intros [H|H]; [done|]. apply wf_to_warn0. by right.
  - intros HA p Hp. specialize (HA p Hp). cbn [pendingUnhandledRejections set_pending trace fmap list_fmap] in *.
    rewrite !elem_of_nil in *. tauto.
  - unfold total, cost. cbn [pendingUnhandledRejections set_pending asyncHandledRejections length].
    change (budget (set_pending [] st)) with (budget st).
    change (queued_weight (set_pending [] st) L) with (queued_weight st L). lia.
Qed.

Lemma processPR_ok fuel st L :
  wf [] st L ->
  (finite -> (total st L <= fuel)%nat -> processPromiseRejections hooks on uncaught toStr m fuel st <> None) /\
  forall st' r, processPromiseRejections hooks on uncaught toStr m fuel st = Some (st', r) ->
    exists L', wf [] st' L' /\
      (finite -> (total st' L' <= total st L)%nat) /\
      match r with
      | Returned true => (accounted [] st -> accounted [] st') /\ (finite -> (total st' L' < total st L)%nat)
      | Returned false => (accounted [] st -> accounted [] st') /\ L' = L /\
          pendingUnhandledRejections st' = [] /\ asyncHandledRejections st' = []
      | _ => True
      end.
Proof.
  intros W. unfold processPromiseRejections. destruct (handled_loop_ok fuel st L W) as [H1 H2].
  destruct (handled_loop hooks on fuel st) as [[st1 r1]|]; [split; [done|]|split; [intros F Hf; by destruct (H1 F Hf)|done]].
  destruct (H2 st1 r1 eq_refl) as (L1 & W1 & A1 & T1 & E1 & N1 & D1). clear H1 H2.
  intros st' r [= Hr]. destruct r1 as [[]|e|]; cbn [andThen] in Hr; [|injection Hr as <- <-; by exists L1..].
  set (pend := pendingUnhandledRejections st1) in *.
  destruct (take_pending st1 L1 W1) as (W2 & A2 & C2). fold pend in W2, A2, C2.
  destruct (pending_loop_ok pend _ _ W2) as (L3 & W3 & T3 & A3). cbv zeta in *.
  assert (pend = [] -> pending_loop hooks on uncaught toStr m pend (set_pending [] st1) = (set_pending [] st1, Returned tt)) as Hnil
    by by intros ->.
  destruct (pending_loop _ _ _ _ _ pend _) as [st3 [[]|e|]]; cbn [fst snd andThen] in *;
    [|injection Hr as <- <-; exists L3; split_and!; [done| |done]; intros F; specialize (T1 F); specialize (T3 F); lia..].
  injection Hr as <- <-. specialize (A3 eq_refl).
  destruct (decide (asyncHandledRejections st = [])) as [Ea|Ea].
  - rewrite bool_decide_eq_true_2 by done. cbn [negb orb]. destruct (E1 Ea) as (-> & -> & _).
    destruct (decide (pend = [])) as [Ep|Ep].
    + rewrite bool_decide_eq_true_2 by done. cbn [negb orb]. injection (Hnil Ep) as ->.
      exists L. cbn [pendingUnhandledRejections set_pending]. rewrite bool_decide_eq_true_2 by done. cbn [negb].
      split_and!; [by eapply wf_drop|lia|auto|done|done|done].
    + rewrite bool_decide_eq_false_2 by done. cbn [negb orb]. exists L3.
      assert (0 < length pend)%nat by (destruct pend; [done|cbn; lia]).
      split_and!; [done|..|auto|]; intros F; specialize (T3 F); lia.
  - rewrite bool_decide_eq_false_2 by done. cbn [negb orb]. exists L3. specialize (N1 Ea).
    split_and!; [done|..|auto|]; intros F; specialize (T3 F); specialize (N1 F); lia.
Qed.

(** *** Ticks *)

Lemma shift_empty st :
  wf [] st [] -> exists q, FixedQueue.shift TUndefined TNull (queue st) = (q, TNull) /\ wf [] (set_queue q st) [].
Proof.
  intros W. destruct (FixedQueue.holds_shift_nil TUndefined TNull _ (wf_queue _ _ _ W)) as (q & Hs & Hq).
  exists q. split; [done|]. destruct W. by constructor.
Qed.

(** One tick. *)
Lemma tick_ok st t L :
  wf [] st (t :: L) ->
  exists q, FixedQueue.shift TUndefined TNull (queue st) = (q, TObj t) /\
    let r := run_tick hooks t (set_queue q st) in
    exists L', wf [] r.1 L' /\ (accounted [] st -> accounted [] r.1) /\ (finite -> (total r.1 L' < total st (t :: L))%nat).
Proof.
  intros W. destruct (FixedQueue.holds_shift_cons TUndefined TNull _ _ _ (wf_queue _ _ _ W)) as (q & Hs & Hq).
  exists q. split; [done|]. cbv zeta. destruct (wf_objects _ _ _ W t) as [k Hk]; [left|].
  unfold run_tick. cbn [tickObjects set_queue]. rewrite Hk. set (st1 := log _ _).
  assert (ran (trace st1) = ran (trace st) ++ [t] /\ reports (trace st1) = reports (trace st) /\
    handlers (trace st1) = handlers (trace st)) as (HT & HR & HH).
  { unfold reports, ran, handlers, st1. cbn. rewrite !omap_snoc. by rewrite !app_nil_r. }
  assert (wf [] st1 L) as W1.
  { destruct W. constructor; try done.
    - intros u Hu. apply wf_objects0. by right.
    - intros _. by apply wf_scheduled0.
    - rewrite HT, <- app_assoc. exact wf_ticks0.
    - rewrite HR. exact wf_rejections0. }
  assert (accounted [] st -> accounted [] st1) as HA.
  { intros HA p Hp. rewrite HR, HH. by apply HA. }
  destruct (exec_step hooks [] (t_callback k) st1 L W1) as [L' [W2 A2 C2 M2 E2 U2]].
  assert (total (exec hooks (t_callback k) st1).1 L' < total st (t :: L))%nat as HT2.
  { unfold total, budget. rewrite M2, E2, U2. change (cost st1 L) with (cost st L) in C2.
    assert (cost st (t :: L) = cost st L + S (weight (t_callback k)))%nat as ->.
    { unfold cost. change (queued_weight st (t :: L)) with (tick_weight st t + queued_weight st L)%nat.
      unfold tick_weight at 1. rewrite Hk. lia. }
    cbn [microtaskRuns emissions uncaughts set_queue st1 log set_trace]. lia. }
  assert (forall e st2, plain_event e -> wf [] st2 L' -> wf [] (log e st2) L' /\ (accounted [] st2 -> accounted [] (log e st2))) as Hlog.
  { intros e st2 He W3. destruct (step_log [] e st2 L' He W3). done. }
  exists L'. destruct (exec hooks (t_callback k) st1) as [st2 [x|e|]]; cbn [fst] in *.
  - destruct (Hlog (EvDestroy (t_async k)) st2 I W2) as [W3 A3]. destruct (Hlog (EvAfter (t_async k)) _ I W3) as [W4 A4].
    split_and!; [done|auto|done].
  - destruct (Hlog (EvDestroy (t_async k)) st2 I W2) as [W3 A3]. split_and!; [done|auto|done].
  - split_and!; [done|auto|done].
Qed.

Lemma drain_ok fuel st L :
  wf [] st L ->
  (finite -> (total st L < fuel)%nat -> drain hooks fuel st <> None) /\
  forall st' r, drain hooks fuel st = Some (st', r) ->
    exists L', wf [] st' L' /\ (accounted [] st -> accounted [] st') /\
      (finite -> (total st' L' <= total st L)%nat) /\
      (L <> [] -> finite -> (total st' L' < total st L)%nat) /\
      (r = Returned tt -> L' = []).
Proof.
  revert st L. induction fuel as [|fuel IH]; intros st L W; cbn [drain]; [split; [intros; lia|done]|].
  destruct L as [|t L].
  - destruct (shift_empty st W) as (q & -> & Wq). split; [done|]. intros st' r [= <- <-]. exists [].
    split_and!; [done|done|done|done|done].
  - destruct (tick_ok st t L W) as (q & -> & L1 & W1 & A1 & T1). cbv zeta in *.
    destruct (run_tick hooks t (set_queue q st)) as [st1 [x|e|]]; cbn [fst] in *;
      [|split; [done|]; intros st' r [= <- <-]; exists L1; split_and!; [done|done|intros F; specialize (T1 F); lia|auto|done]..].
    destruct (IH st1 L1 W1) as [IH1 IH2]. split.
    + intros F Hf. apply IH1; [done|]. specialize (T1 F). lia.
    + intros st' r Hr. destruct (IH2 st' r Hr) as (L' & W' & A' & T' & _ & E').
      exists L'. split_and!; [done|auto| | |done]; intros; specialize (T1 ltac:(done)); specialize (T' ltac:(done)); lia.
Qed.

(** *** The loop *)

Definition idle (st : state) (L : list positive) : Prop :=
  L = [] /\ pendingUnhandledRejections st = [] /\ asyncHandledRejections st = [] /\
  hasTickScheduled st = false /\ hasRejectionToWarn st = false.

(** The rank of a state at the head of the loop. *)
Definition rank (st : state) (L : list positive) : nat := 2 * total st L + match L with [] => 1 | _ => 0 end.

Lemma queue_empty st L : wf [] st L -> FixedQueue.isEmpty TUndefined (queue st) = bool_decide (L = []).
Proof.
  intros W. rewrite (FixedQueue.holds_isEmpty _ _ _ (wf_queue _ _ _ W)). by destruct L.
Qed.

Lemma process_ok fuel inner st L :
  wf [] st L ->
  (finite -> (rank st L < fuel)%nat -> (total st L < inner)%nat ->
   processTicksAndRejections hooks microtasks on uncaught toStr m fuel inner st <> None) /\
  forall st' r, processTicksAndRejections hooks microtasks on uncaught toStr m fuel inner st = Some (st', r) ->
    exists L', wf [] st' L' /\ (r = Returned tt -> idle st' L' /\ (accounted [] st -> accounted [] st')).
Proof.
  revert st L. induction fuel as [|fuel IH]; intros st L W; cbn [processTicksAndRejections]; [split; [intros; lia|done]|].
  destruct (drain_ok inner st L W) as [D1 D2].
  destruct (drain hooks inner st) as [[st1 r1]|]; [|split; [intros F _ Hi; by destruct (D1 F Hi)|done]].
  destruct (D2 st1 r1 eq_refl) as (L1 & W1 & A1 & T1 & S1 & E1). clear D1 D2.
  destruct r1 as [[]|e|]; [|split; [done|]; intros st' r [= <- <-]; by exists L1..]. specialize (E1 eq_refl) as ->.
  destruct (moves_microtasks [] st1 [] W1) as [L2 [W2 A2 T2]].
  destruct (runMicrotasks hooks microtasks st1) as [st2 [x|e|]]; cbn [fst] in *;
    [|split; [done|]; intros st' r [= <- <-]; by exists L2..].
  rewrite (queue_empty st2 L2 W2). destruct (decide (L2 = [])) as [->|Hne].
  - rewrite bool_decide_eq_true_2 by done. cbn [negb]. destruct (processPR_ok inner st2 [] W2) as [P1 P2].
    destruct (processPromiseRejections _ _ _ _ m inner st2) as [[st3 r3]|].
    2: { split; [|done]. intros F _ Hi. destruct (P1 F); [|done]. specialize (T1 F). specialize (T2 F). lia. }
    destruct (P2 st3 r3 eq_refl) as (L3 & W3 & T3 & R3). clear P1 P2.
    destruct r3 as [[]|e|]; [| |split; [done|]; intros st' r [= <- <-]; by exists L3..].
    + destruct R3 as [A3 T3']. destruct (IH st3 L3 W3) as [I1 I2]. split.
      * intros F Hf Hi. specialize (T1 F). specialize (T2 F). specialize (T3' F). unfold rank in *.
        apply I1; [done|destruct L, L3; lia|lia].
      * intros st' r Hr. destruct (I2 st' r Hr) as (L' & W' & HL). exists L'. split; [done|].
        intros Er. destruct (HL Er) as [? HA]. split; [done|]. intros H0. by apply HA, A3, A2, A1.
    + destruct R3 as (A3 & -> & Ep & Ea). split; [done|]. intros st' r [= <- <-]. exists [].
      assert (wf [] (setHasRejectionToWarn false (setHasTickScheduled false st3)) []) as W4.
      { destruct W3. constructor; try done. cbn. rewrite Ep, Ea. by intros [H|H]. }
      split; [done|]. intros _. split; [by unfold idle|]. intros H0. by apply A3, A2, A1.
  - rewrite bool_decide_eq_false_2 by done. cbn [negb]. destruct (IH st2 L2 W2) as [I1 I2]. split.
    + intros F Hf Hi. pose proof (T1 F). pose proof (T2 F). unfold rank in *.
      apply I1; [done| |lia]. destruct L as [|t L]; [destruct L2; [done|lia]|].
      specialize (S1 ltac:(done) F). destruct L2; lia.
    + intros st' r Hr. destruct (I2 st' r Hr) as (L' & W' & HL). exists L'. split; [done|].
      intros Er. destruct (HL Er) as [? HA]. split; [done|]. intros H0. by apply HA, A2, A1.
Qed.

Lemma runNextTicks_ok fuel inner st L :
  wf [] st L ->
  forall st' r, runNextTicks hooks microtasks on uncaught toStr m fuel inner st = Some (st', r) -> exists L', wf [] st' L'.
Proof.
  intros W st' r. unfold runNextTicks. set (r0 := if _ && _ then _ else _).
  assert (exists L0, wf [] r0.1 L0) as [L0 W0].
  { unfold r0. case_step; [|by exists L]. destruct (moves_microtasks [] st L W) as [L0 [W0 _ _]]. by exists L0. }
  destruct r0 as [st0 [x|e|]]; cbn [fst] in W0; [|intros [= <- <-]; by exists L0..].
  case_step; [intros [= <- <-]; by exists L0|]. intros Hr. destruct (process_ok fuel inner st0 L0 W0) as [_ H].
  destruct (H st' r Hr) as (L' & W' & _). by exists L'.
Qed.

(** ** Reachable states *)

Inductive reachable : state -> Prop :=
  | reach_initial : reachable initial
  | reach_exec pr st : reachable st -> reachable (exec hooks pr st).1
  | reach_process fuel inner st st' r :
      reachable st -> processTicksAndRejections hooks microtasks on uncaught toStr m fuel inner st = Some (st', r) ->
      reachable st'
  | reach_runNextTicks fuel inner st st' r :
      reachable st -> runNextTicks hooks microtasks on uncaught toStr m fuel inner st = Some (st', r) -> reachable st'.

Lemma wf_initial : wf [] initial [].
Proof. constructor; try done; [apply FixedQueue.holds_new|by intros t ?%elem_of_nil|by intros [?|?]|cbn; repeat constructor..]. Qed.

Lemma reachable_wf st : reachable st -> exists L, wf [] st L.
Proof.
  induction 1 as [|pr st _ [L W]|fuel inner st st' r _ [L W] Hp|fuel inner st st' r _ [L W] Hp].
  - exists []. apply wf_initial.
  - destruct (exec_step hooks [] pr st L W) as [L' S]. exists L'. apply S.
  - destruct (process_ok fuel inner st L W) as [_ H]. destruct (H _ _ Hp) as (L' & W' & _). by exists L'.
  - by eapply runNextTicks_ok.
Qed.
End Run.

(** ** Claims *)

(** No listeners, no microtasks; an uncaught exception is swallowed. *)
Definition quiet_on (_ : nat) (_ : emission) : option prog := None.
Definition quiet_microtasks (_ : nat) : prog := Done.
Definition quiet_uncaught (_ : nat) (_ : reason) : option prog := Some Done.
Definition quiet_text (_ : reason) : jsstr := "reason"%js.

(** Two ticks, the first of which schedules a third and rejects a promise. *)
Definition demo : prog :=
  NextTick (Some (NextTick (Some Done) [] (Reject (RError "boom") Done))) [] (NextTick (Some Done) ["x"%js] Done).
Definition demo_state : state := (exec false demo initial).1.

(** C10. No work is stranded: in any reachable state - also after callbacks and
    listeners that threw - [hasTickScheduled] is set when a tick is in the
    queue, and [hasRejectionToWarn] when a rejection or a late handler is to be
    reported: the two flags that [runNextTicks] tests before it looks at the
    queues. *)
Theorem taskqueue_no_stranded_work hooks microtasks on uncaught toStr m st :
  reachable hooks microtasks on uncaught toStr m st ->
  (FixedQueue.isEmpty TUndefined (queue st) = false -> hasTickScheduled st = true) /\
  (pendingUnhandledRejections st <> [] \/ asyncHandledRejections st <> [] -> hasRejectionToWarn st = true).
Proof.
  intros [L W]%(reachable_wf _ _ _ _ _ 0 0). split; [|apply (wf_to_warn _ _ _ W)].
  rewrite (queue_empty st L W). intros H%bool_decide_eq_false. by apply (wf_scheduled _ _ _ W).
Qed.

Lemma taskqueue_no_stranded_work_witness :
  FixedQueue.isEmpty TUndefined (queue demo_state) = false /\ hasTickScheduled demo_state = true.
Proof.
  split; [vm_compute; reflexivity|].
  apply (taskqueue_no_stranded_work false quiet_microtasks quiet_on quiet_uncaught quiet_text ModeThrow demo_state);
    [apply reach_exec, reach_initial|vm_compute; reflexivity].
Defined.

(** Ticks run in the order in which they were scheduled, each at most once,
    whatever callbacks schedule, throw or reject meanwhile; and unhandled
    rejections are reported in the order in which the promises were rejected,
    each at most once. *)
Theorem taskqueue_in_order hooks microtasks on uncaught toStr m st :
  reachable hooks microtasks on uncaught toStr m st ->
  StronglySorted Pos.lt (ran (trace st)) /\ StronglySorted Pos.lt (reports (trace st)).
Proof.
  intros [L W]%(reachable_wf _ _ _ _ _ 0 0). split.
  - eapply sorted_sublist; [|apply (wf_ticks _ _ _ W)]. by apply sublist_inserts_r.
  - eapply sorted_sublist; [|apply (wf_rejections _ _ _ W)]. by apply sublist_inserts_r.
Qed.

Lemma taskqueue_in_order_witness :
  exists st', processTicksAndRejections false quiet_microtasks quiet_on quiet_uncaught quiet_text ModeThrow 20 20 demo_state
      = Some (st', Returned tt) /\
    ran (trace st') = [1; 2; 3]%positive /\ reports (trace st') = [1]%positive /\
    StronglySorted Pos.lt (ran (trace st')) /\ StronglySorted Pos.lt (reports (trace st')).
Proof.
  destruct (processTicksAndRejections false quiet_microtasks quiet_on quiet_uncaught quiet_text ModeThrow 20 20 demo_state)
    as [[st' r]|] eqn:E; [|vm_compute in E; discriminate E].
  exists st'. split; [do 2 f_equal; vm_compute in E; injection E as _ <-; reflexivity|].
  split; [vm_compute in E; injection E as <- _; vm_compute; reflexivity|].
  split; [vm_compute in E; injection E as <- _; vm_compute; reflexivity|].
  apply (taskqueue_in_order false quiet_microtasks quiet_on quiet_uncaught quiet_text ModeThrow st').
  eapply reach_process; [|exact E]. apply reach_exec, reach_initial.
Defined.

(** Nothing is left to do, and the flags say so. *)
Definition drained (st : state) : Prop :=
  FixedQueue.isEmpty TUndefined (queue st) = true /\
  pendingUnhandledRejections st = [] /\ asyncHandledRejections st = [] /\
  hasTickScheduled st = false /\ hasRejectionToWarn st = false.

(** C9. The loop runs to completion.  If microtasks and listeners add a bounded
    amount of work at each of their first [N] runs and none later, then from
    any reachable state, with enough fuel, the loop returns, throws or ends the
    process; and when it returns, no tick, no rejection and no late handler is
    left, both flags are cleared, and - if no rejection had been lost before -
    every rejection so far was reported or got a handler. *)
Theorem taskqueue_completes hooks microtasks on uncaught toStr m N B st :
  finite microtasks on uncaught N B ->
  reachable hooks microtasks on uncaught toStr m st ->
  exists n, forall fuel inner, (n <= fuel)%nat -> (n <= inner)%nat ->
    exists st' r, processTicksAndRejections hooks microtasks on uncaught toStr m fuel inner st = Some (st', r) /\
      (r = Returned tt -> drained st' /\
         (accounted [] st -> forall p, (p < nextPromise st')%positive -> p ∈ reports (trace st') \/ p ∈ handlers (trace st'))).
Proof.
  intros F [L W]%(reachable_wf _ _ _ _ _ 0 0). exists (S (rank N B st L)). intros fuel inner Hf Hi.
  destruct (process_ok hooks microtasks on uncaught toStr N B m fuel inner st L W) as [H1 H2].
  destruct (processTicksAndRejections _ _ _ _ _ m fuel inner st) as [[st' r]|]; [|destruct (H1 F); [lia|unfold rank in Hi; lia|done]].
  exists st', r. split; [done|]. intros Er. destruct (H2 _ _ eq_refl) as (L' & W' & HL).
  destruct (HL Er) as [(-> & Ep & Ea & Et & Ew) HA]. split; [unfold drained; by rewrite (queue_empty st' [] W')|].
  intros H0 p Hlt. specialize (HA H0 p Hlt). rewrite Ep, !elem_of_nil in HA. tauto.
Qed.

Lemma taskqueue_completes_witness :
  exists n, forall fuel inner, (n <= fuel)%nat -> (n <= inner)%nat ->
    exists st' r, processTicksAndRejections false quiet_microtasks quiet_on quiet_uncaught quiet_text ModeThrow fuel inner demo_state
        = Some (st', r) /\
      (r = Returned tt -> drained st' /\
         (accounted [] demo_state -> forall p, (p < nextPromise st')%positive -> p ∈ reports (trace st') \/ p ∈ handlers (trace st'))).
Proof.
  apply (taskqueue_completes false quiet_microtasks quiet_on quiet_uncaught quiet_text ModeThrow 0 0 demo_state).
  - split; [intros n; apply Nat.le_0_l|intros n e pr H; discriminate H|].
    intros n r pr H. injection H as <-. apply Nat.le_0_l.
  - apply reach_exec, reach_initial.
Defined.

(** A listener of [unhandledRejection] that throws loses the other rejections
    of its batch: they are neither reported nor kept. *)
Lemma taskqueue_throwing_listener_loses_rejections :
  let on n e := match e with UnhandledRejection 1 _ => Some (Raise (JsError [] ["boom"%js])) | _ => None end in
  let st := (exec false (Reject (RError "a") (Reject (RError "b") Done)) initial).1 in
  exists st', processTicksAndRejections false quiet_microtasks on quiet_uncaught quiet_text ModeThrow 20 20 st
      = Some (st', Threw (JsError [] ["boom"%js])) /\
    reports (trace st') = [1%positive] /\ pendingUnhandledRejections st' = [] /\
    maybeUnhandledPromises st' !! 2%positive = None.
Proof. eexists. vm_compute. by split_and!. Qed.

(** A promise handled by the listener of an earlier rejection of its batch is
    reported all the same. *)
Lemma taskqueue_handled_in_batch_still_reported :
  let on n e := match e with UnhandledRejection 1 _ => Some (AddHandler 2 Done) | UnhandledRejection _ _ => Some Done | _ => None end in
  let st := (exec false (Reject (RError "a") (Reject (RError "b") Done)) initial).1 in
  exists st', processTicksAndRejections false quiet_microtasks on quiet_uncaught quiet_text ModeThrow 20 20 st
      = Some (st', Returned tt) /\
    trace st' = [EvReport 1; EvEmit (UnhandledRejection 1 (RError "a")); EvHandler 2;
                 EvReport 2; EvEmit (UnhandledRejection 2 (RError "b"))].
Proof. eexists. vm_compute. by split_and!. Qed.
