(* ===== verification/LinkedList.v ===== *)
(** * [internal/linkedlist] and [internal/freelist]

    Models [libjs-node/internal/linkedlist.js], the circular doubly-linked
    lists of the timers, over a heap of shared objects with the fields
    [_idleNext] and [_idlePrev], and [libjs-node/internal/freelist.js].
    Proved: on well-formed lists [append], [remove], [peek] and [isEmpty] act
    as on a sequence, oldest item first, and leave other lists alone. *)

From S2P Require Import Prelude.

Module LinkedList.

(** Every object has the two fields; absent is [null] or [undefined]. *)
Record heap := Heap { idleNext : gmap positive positive; idlePrev : gmap positive positive }.

Definition next (h : heap) (p : positive) : option positive := idleNext h !! p.
Definition prev (h : heap) (p : positive) : option positive := idlePrev h !! p.

Definition set_next (p : positive) (v : option positive) (h : heap) : heap :=
  Heap (partial_alter (fun _ => v) p (idleNext h)) (idlePrev h).
Definition set_prev (p : positive) (v : option positive) (h : heap) : heap :=
  Heap (idleNext h) (partial_alter (fun _ => v) p (idlePrev h)).

Definition init (list : positive) (h : heap) : heap :=
  set_prev list (Some list) (set_next list (Some list) h).

Definition peek (list : positive) (h : heap) : option positive :=
  if decide (prev h list = Some list) then None else prev h list.

Definition remove (item : positive) (h : heap) : heap :=
  let h := match next h item with Some n => set_prev n (prev h item) h | None => h end in
  let h := match prev h item with Some p => set_next p (next h item) h | None => h end in
  set_prev item None (set_next item None h).

(** A list that was never initialised makes [append] throw. *)
Definition append (list item : positive) (h : heap) : result heap :=
  let h := if decide (next h item = None /\ prev h item = None) then h else remove item h in
  let h := set_next item (next h list) h in
  let h := set_prev item (Some list) h in
  match next h list with
  | None => Throw (JsError [] ["TypeError"])
  | Some n => Ok (set_next list (Some item) (set_prev n (Some item) h))
  end.

Definition isEmpty (list : positive) (h : heap) : bool := bool_decide (next h list = Some list).

(** ** Rings *)

Lemma next_set_next p v h q : next (set_next p v h) q = if decide (p = q) then v else next h q.
Proof.
  unfold next, set_next. cbn. case_decide; subst; [apply lookup_partial_alter_eq|by apply lookup_partial_alter_ne].
Qed.
Lemma prev_set_prev p v h q : prev (set_prev p v h) q = if decide (p = q) then v else prev h q.
Proof.
  unfold prev, set_prev. cbn. case_decide; subst; [apply lookup_partial_alter_eq|by apply lookup_partial_alter_ne].
Qed.
Lemma next_set_prev p v h q : next (set_prev p v h) q = next h q.
Proof. done. Qed.
Lemma prev_set_next p v h q : prev (set_next p v h) q = prev h q.
Proof. done. Qed.

Create Rewrite HintDb link.
#[export] Hint Rewrite next_set_next prev_set_prev next_set_prev prev_set_next : link.

(** The neighbours along [a], [ys], [b]. *)
Definition adj (a : positive) (ys : list positive) (b : positive) : list (positive * positive) :=
  zip (a :: ys) (ys ++ [b]).

Definition linked (h : heap) (e : positive * positive) : Prop :=
  next h e.1 = Some e.2 /\ prev h e.2 = Some e.1.

(** The ring of list [l] holds [xs], oldest first: from [l], [_idleNext] leads
    to the newest. *)
Definition ring (h : heap) (l : positive) (xs : list positive) : Prop :=
  NoDup (l :: xs) /\ Forall (linked h) (adj l (rev xs) l).

Lemma adj_fst a ys b : (adj a ys b).*1 = a :: ys.
Proof. unfold adj. apply fst_zip. rewrite length_app. cbn. lia. Qed.

Lemma adj_snd a ys b : (adj a ys b).*2 = ys ++ [b].
Proof. unfold adj. apply snd_zip. rewrite length_app. cbn. lia. Qed.

Lemma adj_app a ys m zs b : adj a (ys ++ m :: zs) b = adj a ys m ++ adj m zs b.
Proof.
  unfold adj. change (a :: ys ++ m :: zs) with ((a :: ys) ++ m :: zs).
  rewrite <- app_assoc. cbn [app]. replace (ys ++ m :: zs ++ [b]) with ((ys ++ [m]) ++ zs ++ [b])
    by by rewrite <- app_assoc.
  apply (zip_with_app pair (a :: ys) (m :: zs) (ys ++ [m]) (zs ++ [b])). rewrite length_app. cbn. lia.
Qed.

Lemma adj_cons a ys b : exists y Q, adj a ys b = (a, y) :: Q /\ forall c, adj c ys b = (c, y) :: Q.
Proof. destruct ys as [|y ys]; unfold adj; cbn; eauto. Qed.

Lemma adj_snoc a ys b : exists P x, adj a ys b = P ++ [(x, b)] /\ forall c, adj a ys c = P ++ [(x, c)].
Proof.
  revert a. induction ys as [|y ys IH]; intros a; [by exists [], a|].
  destruct (IH y) as (P & x & E & Hc). exists ((a, y) :: P), x.
  change (adj a (y :: ys) b) with ((a, y) :: adj y ys b). rewrite E. split; [done|].
  intros c. change (adj a (y :: ys) c) with ((a, y) :: adj y ys c). by rewrite Hc.
Qed.

(** Taking [m] out of a path joins its neighbours. *)
Lemma adj_remove a ys m zs b : exists P x y Q,
  adj a (ys ++ m :: zs) b = P ++ (x, m) :: (m, y) :: Q /\
  adj a (ys ++ zs) b = P ++ (x, y) :: Q.
Proof.
  destruct (adj_snoc a ys m) as (P & x & E & Hc). destruct (adj_cons m zs b) as (y & Q & E' & Hc').
  exists P, x, y, Q. rewrite adj_app, E, E', <- app_assoc. split; [done|].
  destruct zs as [|z zs].
  - rewrite app_nil_r, Hc. unfold adj in E'. cbn in E'. by injection E' as <- <-.
  - rewrite adj_app, Hc. change (adj m (z :: zs) b) with ((m, z) :: adj z zs b) in E'.
    injection E' as -> <-. by rewrite <- app_assoc.
Qed.

(** A change that spares the fields of a path spares the path. *)
Lemma linked_frame h h' L :
  (forall e, e ∈ L -> next h' e.1 = next h e.1 /\ prev h' e.2 = prev h e.2) ->
  Forall (linked h) L -> Forall (linked h') L.
Proof.
  rewrite !Forall_forall. intros H HL e He. destruct (H e He) as [E1 E2]. unfold linked.
  rewrite E1, E2. by apply HL.
Qed.

(** ** The operations *)

Lemma elem_of_rev {A} (x : A) l : x ∈ rev l <-> x ∈ l.
Proof. rewrite rev_alt. apply elem_of_reverse. Qed.

(** Objects outside [ps] keep their fields. *)
Definition spares (ps : list positive) (h h' : heap) : Prop :=
  forall p, p ∉ ps -> next h' p = next h p /\ prev h' p = prev h p.

Lemma remove_fields m x y h :
  next h m = Some y -> prev h m = Some x -> m <> x -> m <> y ->
  forall p, next (remove m h) p = (if decide (m = p) then None else if decide (x = p) then Some y else next h p) /\
            prev (remove m h) p = (if decide (m = p) then None else if decide (y = p) then Some x else prev h p).
Proof.
  intros Hn Hp Hx Hy p. unfold remove. rewrite Hn.
  assert (prev (set_prev y (prev h m) h) m = Some x) as -> by (rewrite prev_set_prev; by rewrite decide_False).
  change (next (set_prev y (prev h m) h) m) with (next h m). rewrite Hn, Hp. autorewrite with link. done.
Qed.

(** The data of a ring around one of its items. *)
Lemma ring_split h l xs1 m xs2 :
  ring h l (xs1 ++ m :: xs2) -> exists P x y Q,
    adj l (rev (xs1 ++ xs2)) l = P ++ (x, y) :: Q /\
    Forall (linked h) P /\ Forall (linked h) Q /\ linked h (x, m) /\ linked h (m, y) /\
    NoDup (P.*1 ++ x :: m :: Q.*1) /\ NoDup (P.*2 ++ m :: y :: Q.*2) /\
    x ∈ l :: xs1 ++ xs2 /\ y ∈ l :: xs1 ++ xs2.
Proof.
  intros [HN HF]. rewrite rev_app_distr in HF. cbn [rev] in HF. rewrite <- app_assoc in HF. cbn [app] in HF.
  destruct (adj_remove l (rev xs2) m (rev xs1) l) as (P & x & y & Q & E & E').
  pose proof (adj_fst l (rev xs2 ++ m :: rev xs1) l) as Ef.
  pose proof (adj_snd l (rev xs2 ++ m :: rev xs1) l) as Es.
  pose proof (adj_fst l (rev xs2 ++ rev xs1) l) as Ef'.
  pose proof (adj_snd l (rev xs2 ++ rev xs1) l) as Es'.
  rewrite E in *. rewrite E' in *. rewrite rev_app_distr. exists P, x, y, Q.
  apply Forall_app in HF as [HP HF]. apply Forall_cons in HF as [Hx HF]. apply Forall_cons in HF as [Hy HQ].
  assert (forall p, p ∈ rev xs2 ++ rev xs1 <-> p ∈ xs1 ++ xs2) as Hrev.
  { intros p. rewrite !elem_of_app, !elem_of_rev. tauto. }
  assert (l :: rev xs2 ++ m :: rev xs1 ≡ₚ l :: xs1 ++ m :: xs2) as HP1.
  { f_equiv. rewrite <- !Permutation_rev, (Permutation_app_comm xs2). cbn.
    by rewrite Permutation_middle. }
  rewrite !fmap_app in *. cbn in *. split_and!; try done.
  - rewrite Ef, HP1. done.
  - rewrite Es. rewrite Permutation_app_comm. cbn. by rewrite HP1.
  - assert (x ∈ P.*1 ++ x :: Q.*1) as H by (rewrite elem_of_app; right; left).
    rewrite Ef' in H. apply elem_of_cons in H as [->|H]; [left|right; by apply Hrev].
  - assert (y ∈ P.*2 ++ y :: Q.*2) as H by (rewrite elem_of_app; right; left).
    rewrite Es' in H. apply elem_of_app in H as [H|H%list_elem_of_singleton]; [right; by apply Hrev|subst; left].
Qed.

Lemma remove_ring h l xs1 m xs2 :
  ring h l (xs1 ++ m :: xs2) ->
  ring (remove m h) l (xs1 ++ xs2) /\ next (remove m h) m = None /\ prev (remove m h) m = None /\
  spares (l :: xs1 ++ m :: xs2) h (remove m h).
Proof.
  intros HR. destruct (ring_split _ _ _ _ _ HR) as (P & x & y & Q & E & HP & HQ & [Hx1 Hx2] & [Hy1 Hy2] & N1 & N2 & Ix & Iy).
  cbn [fst snd] in *.
  apply NoDup_app in N1 as (_ & D1 & [X1 N1]%NoDup_cons). apply NoDup_cons in N1 as [M1 _].
  apply NoDup_app in N2 as (_ & D2 & [M2 N2]%NoDup_cons). apply NoDup_cons in N2 as [Y2 _].
  assert (m <> x) as Hmx by (intros ->; apply X1; left).
  assert (m <> y) as Hmy by (intros ->; apply M2; left).
  pose proof (remove_fields m x y h Hy1 Hx2 Hmx Hmy) as HF.
  split_and!.
  - split.
    { destruct HR as [HN _]. apply NoDup_cons in HN as [Hl HN]. constructor.
      - rewrite elem_of_app in *. intros [?|?]; apply Hl; set_solver.
      - apply NoDup_app in HN as (? & Hd & [? ?]%NoDup_cons). apply NoDup_app. split_and!; [done| |done].
        intros p Hp Hp2. apply (Hd p Hp). by right. }
    rewrite E. apply Forall_app. split; [|constructor].
    + eapply linked_frame; [|exact HP]. intros [u v] He. cbn [fst snd].
      assert (u ∈ P.*1) as Hu by by apply (list_elem_of_fmap_2 fst _ (u, v)).
      assert (v ∈ P.*2) as Hv by by apply (list_elem_of_fmap_2 snd _ (u, v)).
      destruct (HF u) as [-> _], (HF v) as [_ ->].
      rewrite !decide_False; [done|..]; intros <-;
        [apply (D2 _ Hv)|apply (D2 _ Hv)|apply (D1 _ Hu)|apply (D1 _ Hu)]; set_solver.
    + split; cbn [fst snd].
      * destruct (HF x) as [-> _]. by rewrite decide_False, decide_True by done.
      * destruct (HF y) as [_ ->]. by rewrite decide_False, decide_True by done.
    + eapply linked_frame; [|exact HQ]. intros [u v] He. cbn [fst snd].
      assert (u ∈ Q.*1) as Hu by by apply (list_elem_of_fmap_2 fst _ (u, v)).
      assert (v ∈ Q.*2) as Hv by by apply (list_elem_of_fmap_2 snd _ (u, v)).
      destruct (HF u) as [-> _], (HF v) as [_ ->].
      rewrite !decide_False; [done|..]; intros <-; set_solver.
  - destruct (HF m) as [-> _]. by rewrite decide_True.
  - destruct (HF m) as [_ ->]. by rewrite decide_True.
  - intros p Hp. destruct (HF p) as [-> ->].
    rewrite !decide_False; [done|..]; intros ->; apply Hp; set_solver.
Qed.

(** A ring none of whose objects changed. *)
Lemma ring_frame h h' l xs :
  (forall p, p ∈ l :: xs -> next h' p = next h p /\ prev h' p = prev h p) ->
  ring h l xs -> ring h' l xs.
Proof.
  intros H [HN HF]. split; [done|]. eapply linked_frame; [|exact HF]. intros [u v] He. cbn [fst snd].
  assert (u ∈ (adj l (rev xs) l).*1) as Hu by by apply (list_elem_of_fmap_2 fst _ (u, v)).
  assert (v ∈ (adj l (rev xs) l).*2) as Hv by by apply (list_elem_of_fmap_2 snd _ (u, v)).
  rewrite adj_fst, elem_of_cons, elem_of_rev in Hu.
  rewrite adj_snd, elem_of_app, elem_of_rev, list_elem_of_singleton in Hv.
  split; [apply H|apply H]; rewrite elem_of_cons; tauto.
Qed.

Lemma init_ring l h : ring (init l h) l [].
Proof.
  split; [apply NoDup_singleton|]. repeat constructor; cbn [fst snd]; unfold init;
    autorewrite with link; by rewrite decide_True.
Qed.

(** Appending an object that is in no list. *)
Lemma append_unlinked h l xs item :
  ring h l xs -> item ∉ l :: xs -> next h item = None -> prev h item = None ->
  exists h', append l item h = Ok h' /\ ring h' l (xs ++ [item]) /\
    spares (item :: l :: xs) h h'.
Proof.
  intros [HN HF] Hni Hn Hp. unfold append. rewrite decide_True by done.
  destruct (adj_cons l (rev xs) l) as (y & Q & E & Hc). rewrite E in HF.
  apply Forall_cons in HF as [[Hly Hyl] HQ]. cbn [fst snd] in *.
  assert (item <> l /\ item ∉ xs) as [Hil Hix] by (by apply not_elem_of_cons in Hni).
  autorewrite with link. rewrite decide_False, Hly by done.
  eexists. split; [done|].
  set (h' := set_next l _ _).
  pose proof (adj_fst l (rev xs) l) as Ef. pose proof (adj_snd l (rev xs) l) as Es.
  rewrite E in Ef, Es. cbn in Ef, Es. injection Ef as Ef.
  assert (NoDup (y :: Q.*2)) as NS.
  { rewrite Es. rewrite Permutation_app_comm. cbn. by rewrite <- Permutation_rev. }
  apply NoDup_cons in HN as [Hl HN]. apply NoDup_cons in NS as [Hy NS].
  assert (forall p, p ∈ y :: Q.*2 -> p ∈ l :: xs) as Hin2.
  { intros p. rewrite Es, elem_of_app, elem_of_rev, list_elem_of_singleton, elem_of_cons. tauto. }
  assert (item <> y) as Hiy by (intros ->; apply Hni, Hin2; left).
  assert (forall p, next h' p = if decide (l = p) then Some item else if decide (item = p) then Some y else next h p) as Nx
    by (intros; unfold h'; by autorewrite with link).
  assert (forall p, prev h' p = if decide (y = p) then Some item else if decide (item = p) then Some l else prev h p) as Px
    by (intros; unfold h'; by autorewrite with link).
  split; [split|].
  - change (l :: xs ++ [item]) with ((l :: xs) ++ [item]). apply NoDup_app.
    split_and!; [by constructor| |apply NoDup_singleton]. intros p Hp' ->%list_elem_of_singleton. done.
  - rewrite rev_app_distr. cbn [rev app].
    change (adj l (item :: rev xs) l) with ((l, item) :: adj item (rev xs) l). rewrite (Hc item).
    constructor; [split; cbn [fst snd]|constructor; [split; cbn [fst snd]|]].
    + rewrite Nx. by rewrite decide_True.
    + rewrite Px. rewrite decide_False by done. by rewrite decide_True.
    + rewrite Nx. rewrite decide_False by done. by rewrite decide_True.
    + rewrite Px. by rewrite decide_True.
    + eapply linked_frame; [|exact HQ]. intros [u v] He. cbn [fst snd].
      assert (u ∈ Q.*1) as Hu by by apply (list_elem_of_fmap_2 fst _ (u, v)).
      assert (v ∈ Q.*2) as Hv by by apply (list_elem_of_fmap_2 snd _ (u, v)).
      rewrite Ef, elem_of_rev in Hu. rewrite Nx, Px.
      rewrite !decide_False; [done|..]; intros <-; [|by apply Hy|by apply Hix|by apply Hl].
      apply Hni, Hin2. by right.
  - intros p Hp'. rewrite Nx, Px. apply not_elem_of_cons in Hp' as [H1 H2].
    apply not_elem_of_cons in H2 as H2'. rewrite !decide_False; [done|..]; try (intros ->; tauto).
    intros ->. apply H2, Hin2. left.
Qed.

(** Appending an object that is in a list: it leaves it first. *)
Lemma append_linked h l item :
  next (remove item h) item = None -> prev (remove item h) item = None ->
  next h item <> None -> append l item h = append l item (remove item h).
Proof.
  intros H1 H2 H3. unfold append. rewrite decide_False by tauto. by rewrite decide_True.
Qed.

(** A member of a ring is linked. *)
Lemma ring_next_some h l xs1 m xs2 : ring h l (xs1 ++ m :: xs2) -> next h m <> None.
Proof.
  intros (P & x & y & Q & _ & _ & _ & _ & [E _] & _)%ring_split. cbn [fst snd] in E. by rewrite E.
Qed.

(** The last neighbour of [l] is its oldest item. *)
Lemma ring_oldest h l xs : ring h l xs -> prev h l = Some (default l (head xs)).
Proof.
  intros [_ HF]. destruct (adj_snoc l (rev xs) l) as (P & x & E & _).
  pose proof (adj_fst l (rev xs) l) as Ef. rewrite E in HF, Ef.
  apply Forall_app in HF as [_ [[_ Hp] _]%Forall_cons]. cbn [fst snd] in Hp. rewrite Hp. f_equal.
  rewrite fmap_app in Ef. cbn in Ef. destruct xs as [|z xs]; cbn in *.
  - by apply (app_inj_2 _ []) in Ef as [_ [= ->]].
  - change (l :: rev xs ++ [z]) with ((l :: rev xs) ++ [z]) in Ef. by apply app_inj_2 in Ef as [_ [= ->]].
Qed.

Lemma ring_peek h l xs : ring h l xs -> peek l h = head xs.
Proof.
  intros HR. pose proof (ring_oldest h l xs HR) as Ho. destruct HR as [HN _].
  unfold peek. rewrite Ho. destruct xs as [|x xs]; [by rewrite decide_True|].
  rewrite decide_False; [done|]. intros [= ->]. apply NoDup_cons in HN as [Hl _]. apply Hl. left.
Qed.

Lemma ring_isEmpty h l xs : ring h l xs -> isEmpty l h = bool_decide (xs = []).
Proof.
  intros [HN HF]. unfold isEmpty. destruct (rev xs) as [|y ys] eqn:Er.
  - assert (xs = []) as -> by (by destruct xs; [|cbn in Er; apply app_eq_nil in Er as [_ ?]]).
    apply Forall_cons in HF as [[E _] _]. cbn [fst snd] in E. by rewrite E, !bool_decide_eq_true_2.
  - change (adj l (y :: ys) l) with ((l, y) :: adj y ys l) in HF.
    apply Forall_cons in HF as [[E _] _]. cbn [fst snd] in E. rewrite E.
    rewrite !bool_decide_eq_false_2; [done|by intros ->|].
    intros [= ->]. apply NoDup_cons in HN as [Hl _]. apply Hl. rewrite <- elem_of_rev, Er. left.
Qed.

(** [append] puts an object at the newest end of a list, first taking it
    out of the list it is in: an object in no list, in the same list, or in
    another one, whose other items keep their order. *)
Theorem linkedlist_append h l xs item :
  (ring h l xs -> item ∉ l :: xs -> next h item = None -> prev h item = None ->
   exists h', append l item h = Ok h' /\ ring h' l (xs ++ [item])) /\
  (forall xs1 xs2, xs = xs1 ++ item :: xs2 -> ring h l xs ->
   exists h', append l item h = Ok h' /\ ring h' l (xs1 ++ xs2 ++ [item])) /\
  (forall l2 ys1 ys2, ring h l xs -> ring h l2 (ys1 ++ item :: ys2) ->
   (forall p, p ∈ l :: xs -> p ∉ l2 :: ys1 ++ item :: ys2) ->
   exists h', append l item h = Ok h' /\ ring h' l (xs ++ [item]) /\ ring h' l2 (ys1 ++ ys2)).
Proof.
  split_and!.
  - intros HR Hni Hn Hp. destruct (append_unlinked h l xs item HR Hni Hn Hp) as (h' & ? & ? & _). eauto.
  - intros xs1 xs2 -> HR. destruct (remove_ring _ _ _ _ _ HR) as (HR' & Hn & Hp & _).
    rewrite append_linked by (done || by eapply ring_next_some).
    destruct (append_unlinked (remove item h) l (xs1 ++ xs2) item) as (h' & ? & ? & _); [done| |done|done|].
    + destruct HR as [[Hl HN]%NoDup_cons _]. apply NoDup_app in HN as (_ & Hd & [Hi _]%NoDup_cons).
      rewrite elem_of_app, elem_of_cons in Hl. rewrite elem_of_cons, elem_of_app.
      intros [->|[H|H]]; [tauto|apply (Hd item H); left|done].
    + exists h'. by rewrite app_assoc.
  - intros l2 ys1 ys2 HR HR2 Hdis. destruct (remove_ring _ _ _ _ _ HR2) as (HR2' & Hn & Hp & Hsp).
    rewrite append_linked by (done || by eapply ring_next_some).
    assert (ring (remove item h) l xs) as HR'.
    { eapply ring_frame; [|exact HR]. intros p Hin. apply Hsp. by apply Hdis. }
    assert (item ∉ l :: xs) as Hni by (intros H%Hdis; apply H; set_solver).
    destruct (append_unlinked (remove item h) l xs item HR' Hni Hn Hp) as (h' & E & HR3 & Hsp3).
    exists h'. split_and!; [done|done|]. eapply ring_frame; [|exact HR2']. intros p Hin. apply Hsp3.
    rewrite not_elem_of_cons. split.
    + intros ->. destruct HR2 as [[Hl HN]%NoDup_cons _]. apply NoDup_app in HN as (_ & Hd & [Hi _]%NoDup_cons).
      apply elem_of_cons in Hin as [->|Hin]; [set_solver|].
      apply elem_of_app in Hin as [Hin|Hin]; [apply (Hd item Hin); left|done].
    + intros Hin'. apply (Hdis p Hin'). set_solver.
Qed.

(** Lists 1 and 2, with items 3 and 4, and 5. *)
Definition demo_heap : heap :=
  Heap (list_to_map [(1, 4); (4, 3); (3, 1); (2, 5); (5, 2)]%positive)
       (list_to_map [(1, 3); (3, 4); (4, 1); (2, 5); (5, 2)]%positive).

Lemma demo_rings : ring demo_heap 1 [3; 4]%positive /\ ring demo_heap 2 [5]%positive.
Proof.
  split; split; try (by repeat constructor);
    apply (bool_decide_unpack _); vm_compute; done.
Qed.

Lemma linkedlist_append_witness :
  (exists h', append 1 3 demo_heap = Ok h' /\ ring h' 1 [4; 3]%positive) /\
  (exists h', append 2 4 demo_heap = Ok h' /\ ring h' 2 [5; 4]%positive /\ ring h' 1 [3]%positive).
Proof.
  split.
  - apply (proj1 (proj2 (linkedlist_append demo_heap 1 [3; 4]%positive 3)) [] [4]%positive);
      [reflexivity|apply demo_rings].
  - apply (proj2 (proj2 (linkedlist_append demo_heap 2 [5]%positive 4)) 1%positive [3]%positive []);
      [apply demo_rings..|].
    apply Forall_forall.
    apply (bool_decide_unpack (Forall (fun p => p ∉ [1; 3; 4]%positive) [2; 5]%positive)). vm_compute. done.
Defined.

(** [remove] takes an object out of its list and clears its links, the
    other items keeping their order; [peek] is the oldest item, and [isEmpty]
    tells whether there is none. *)
Theorem linkedlist_remove_peek h l xs1 m xs2 :
  ring h l (xs1 ++ m :: xs2) ->
  ring (remove m h) l (xs1 ++ xs2) /\
  next (remove m h) m = None /\ prev (remove m h) m = None /\
  peek l h = head (xs1 ++ m :: xs2) /\ isEmpty l h = false /\
  peek l (remove m h) = head (xs1 ++ xs2) /\
  isEmpty l (remove m h) = bool_decide (xs1 ++ xs2 = []).
Proof.
  intros HR. destruct (remove_ring _ _ _ _ _ HR) as (HR' & Hn & Hp & _).
  rewrite !(ring_peek _ _ _ HR), !(ring_peek _ _ _ HR'), (ring_isEmpty _ _ _ HR), (ring_isEmpty _ _ _ HR').
  split_and!; try done. apply bool_decide_eq_false_2. by destruct xs1.
Qed.

Lemma linkedlist_remove_peek_witness :
  ring (remove 3 demo_heap) 1 [4]%positive /\ peek 1 demo_heap = Some 3%positive.
Proof.
  destruct (linkedlist_remove_peek demo_heap 1 [] 3 [4]%positive) as (H1 & _ & _ & H2 & _);
    [apply demo_rings|]. split; [exact H1|exact H2].
Defined.

End LinkedList.

(** ** [internal/freelist] *)

Module FreeList.
Section Pool.
Context {V : Type}.

Record freelist := FreeList_ { max : Z; list_ : list V }.

(** [alloc(...args)]; [ctor] is the constructor's result for those arguments. *)
Definition alloc (ctor : V) (f : freelist) : freelist * V :=
  match last (list_ f) with
  | Some obj => (FreeList_ (max f) (removelast (list_ f)), obj)
  | None => (f, ctor)
  end.

Definition free (obj : V) (f : freelist) : freelist * bool :=
  if Z.of_nat (length (list_ f)) <? max f then (FreeList_ (max f) (list_ f ++ [obj]), true)
  else (f, false).
End Pool.
End FreeList.

(** The pool never holds more than [max] objects, a freed object it keeps
    is the next one handed out, and one it refuses leaves it unchanged. *)
Theorem freelist_bounded_lifo {V} (obj ctor : V) f :
  Z.of_nat (length (FreeList.list_ f)) <= Z.max 0 (FreeList.max f) ->
  let '(f', kept) := FreeList.free obj f in
  Z.of_nat (length (FreeList.list_ f')) <= Z.max 0 (FreeList.max f) /\
  (kept = true -> FreeList.alloc ctor f' = (f, obj)) /\ (kept = false -> f' = f).
Proof.
  intros Hb. unfold FreeList.free. destruct (_ <? _) eqn:E; bool_hyps; [|done]. cbn.
  split_and!; [rewrite length_app; cbn; lia| |done]. intros _.
  unfold FreeList.alloc. cbn. rewrite last_snoc, removelast_last. by destruct f.
Qed.

Lemma freelist_bounded_lifo_witness :
  FreeList.alloc 0 (fst (FreeList.free 7 (FreeList.FreeList_ 2 [4]))) = (FreeList.FreeList_ 2 [4], 7).
Proof.
  pose proof (freelist_bounded_lifo 7 0 (FreeList.FreeList_ 2 [4])) as H.
  cbn -[Z.le] in H. apply H; [lia|reflexivity].
Defined.
