(* ===== verification/Rings.v ===== *)
(** * All the linked lists of a heap

    [ring] describes one list of [internal/linkedlist].  [rings] describes
    every list of a heap at once, as a map from lists to their items: no object
    is in two places, and an object in none has no links.  The operations act
    on the map. *)

From S2P Require Import Prelude LinkedList.
Import LinkedList.

Abbreviation lists_of := (gmap positive (list positive)) (only parsing).

Record rings (h : heap) (R : lists_of) : Prop := Rings {
  rings_ring l xs : R !! l = Some xs -> ring h l xs;
  rings_owner l1 l2 xs1 xs2 p :
    R !! l1 = Some xs1 -> R !! l2 = Some xs2 -> p ∈ l1 :: xs1 -> p ∈ l2 :: xs2 -> l1 = l2;
  rings_out p :
    (forall l xs, R !! l = Some xs -> p ∉ l :: xs) -> next h p = None /\ prev h p = None;
}.

(** Taking [m] out of whichever list it is in. *)
Definition others (m : positive) (xs : list positive) : list positive := filter (fun x => x <> m) xs.
Definition detach (m : positive) (R : lists_of) : lists_of := others m <$> R.

Lemma others_not_in m xs : m ∉ xs -> others m xs = xs.
Proof.
  unfold others. induction xs as [|x xs IH]; [done|]. rewrite not_elem_of_cons. intros [H1 H2].
  rewrite filter_cons_True by done. by rewrite IH.
Qed.

Lemma others_middle m xs1 xs2 :
  NoDup (xs1 ++ m :: xs2) -> others m (xs1 ++ m :: xs2) = xs1 ++ xs2.
Proof.
  intros (_ & Hd & [Hm _]%NoDup_cons)%NoDup_app. unfold others.
  rewrite filter_app, filter_cons_False by tauto.
  fold (others m xs1) (others m xs2). rewrite !others_not_in; [done|done|].
  intros H. apply (Hd m H). left.
Qed.

Lemma elem_of_others m xs p : p ∈ others m xs <-> p <> m /\ p ∈ xs.
Proof. unfold others. by rewrite list_elem_of_filter. Qed.

Lemma detach_lookup m R l xs :
  detach m R !! l = Some xs <-> exists ys, R !! l = Some ys /\ xs = others m ys.
Proof.
  unfold detach. rewrite lookup_fmap. destruct (R !! l) as [ys|]; cbn.
  - split; [intros [= <-]; eauto|by intros (? & [= <-] & ->)].
  - by split; [|intros (? & ? & _)].
Qed.

Lemma detach_out m R : (forall l xs, R !! l = Some xs -> m ∉ xs) -> detach m R = R.
Proof.
  intros H. apply map_eq. intros l. unfold detach. rewrite lookup_fmap.
  destruct (R !! l) as [xs|] eqn:E; cbn; [|done]. f_equal. by apply others_not_in, (H l).
Qed.

Lemma init_spares p h : spares [p] h (init p h).
Proof.
  intros q Hq. unfold init. autorewrite with link. rewrite !decide_False; [done|..]; intros ->; apply Hq; left.
Qed.

Lemma rings_init h R p :
  rings h R -> (forall l xs, R !! l = Some xs -> p ∉ l :: xs) -> rings (init p h) (<[p := []]> R).
Proof.
  intros [H1 H2 H3] Hp. constructor.
  - intros l xs [[<- <-]|[Hne Hl]]%lookup_insert_Some; [apply init_ring|].
    eapply ring_frame; [|by apply H1]. intros q Hq. apply init_spares.
    intros ->%list_elem_of_singleton. by apply (Hp l xs).
  - intros l1 l2 xs1 xs2 q Hl1 Hl2 Hq1 Hq2.
    apply lookup_insert_Some in Hl1 as [[<- <-]|[Hne1 Hl1]], Hl2 as [[<- <-]|[Hne2 Hl2]]; [done|..].
    + apply list_elem_of_singleton in Hq1 as ->. by destruct (Hp l2 xs2).
    + apply list_elem_of_singleton in Hq2 as ->. by destruct (Hp l1 xs1).
    + by eapply H2.
  - intros q Hq. assert (q <> p) as Hqp.
    { intros ->. apply (Hq p []); [by rewrite lookup_insert_eq|left]. }
    destruct (init_spares p h q) as [-> ->]; [by intros ?%list_elem_of_singleton|].
    apply H3. intros l xs Hl. apply Hq. rewrite lookup_insert_ne; [done|].
    intros ->. apply (Hp l xs Hl). left.
Qed.

(** Where an object is. *)
Lemma in_or_out (R : lists_of) p :
  (exists l xs, R !! l = Some xs /\ p ∈ l :: xs) \/ (forall l xs, R !! l = Some xs -> p ∉ l :: xs).
Proof.
  destruct (decide (map_Forall (fun l xs => p ∉ l :: xs) R)) as [H|H]; [by right; apply H|left].
  apply map_not_Forall in H as (l & xs & Hl & Hn); [|apply _]. exists l, xs. split; [done|].
  destruct (decide (p ∈ l :: xs)); tauto.
Qed.

Lemma remove_out m h : next h m = None -> prev h m = None -> remove m h = h.
Proof.
  intros Hn Hp. unfold remove. rewrite Hn, Hp. destruct h as [nx pv]. unfold set_prev, set_next, next, prev in *.
  cbn in *. f_equal; apply map_eq; intros i;
    (destruct (decide (i = m)) as [->|]; [by rewrite lookup_partial_alter_eq|by rewrite lookup_partial_alter_ne by done]).
Qed.

Lemma rings_remove h R m : rings h R -> R !! m = None -> rings (remove m h) (detach m R).
Proof.
  intros HR Hm. pose proof HR as [H1 H2 H3].
  destruct (in_or_out R m) as [(l & xs & Hl & Hin)|Hout].
  2: { destruct (H3 m Hout) as [Hn Hp]. rewrite remove_out by done. rewrite detach_out; [done|].
       intros l xs Hl H. apply (Hout l xs Hl). by right. }
  apply elem_of_cons in Hin as [->|Hin]; [congruence|].
  apply list_elem_of_split in Hin as (xs1 & xs2 & ->).
  pose proof (H1 _ _ Hl) as Hr. destruct (remove_ring h l xs1 m xs2 Hr) as (Hr' & Hn & Hp & Hsp).
  assert (NoDup (xs1 ++ m :: xs2)) as HN by (destruct Hr as [[_ ?]%NoDup_cons _]; done).
  constructor.
  - intros l' ys' (ys & Hl' & ->)%detach_lookup. destruct (decide (l' = l)) as [->|Hne].
    + replace ys with (xs1 ++ m :: xs2) by congruence. by rewrite others_middle.
    + assert (forall p, p ∈ l' :: ys -> p ∉ l :: xs1 ++ m :: xs2) as Hdis.
      { intros p Hp1 Hp2. apply Hne. by eapply (H2 l' l). }
      rewrite others_not_in.
      * eapply ring_frame; [|by apply H1]. intros p Hp'. by apply Hsp, Hdis.
      * intros Hm'. apply (Hdis m); set_solver.
  - intros l1 l2 ys1 ys2 p (zs1 & Hl1 & ->)%detach_lookup (zs2 & Hl2 & ->)%detach_lookup Hp1 Hp2.
    apply (H2 l1 l2 zs1 zs2 p Hl1 Hl2); rewrite elem_of_cons, ?elem_of_others in *; tauto.
  - intros p Hp'. destruct (decide (p = m)) as [->|Hpm]; [done|].
    assert (forall l' ys, R !! l' = Some ys -> p ∉ l' :: ys) as Hp''.
    { intros l' ys Hl' Hin. apply (Hp' l' (others m ys)); [apply detach_lookup; eauto|].
      rewrite elem_of_cons, elem_of_others in *. tauto. }
    destruct (Hsp p) as [-> ->]; [by apply Hp''|]. by apply H3.
Qed.

(** An object that is only linked to itself, as a new timer is. *)
Lemma remove_self_fields m h :
  next h m = Some m -> prev h m = Some m ->
  next (remove m h) m = None /\ prev (remove m h) m = None /\ spares [m] h (remove m h).
Proof.
  intros Hn Hp. unfold remove. rewrite Hn. autorewrite with link. rewrite decide_True, Hp by done.
  autorewrite with link. rewrite !decide_True by done.
  split_and!; [done..|]. intros q Hq. autorewrite with link.
  rewrite !decide_False; [done|..]; intros ->; apply Hq; left.
Qed.

Lemma rings_remove_self h R m : rings h R -> R !! m = Some [] -> rings (remove m h) (delete m R).
Proof.
  intros [H1 H2 H3] Hm. destruct (H1 m [] Hm) as [_ HF].
  apply Forall_cons in HF as [[Hn Hp] _]. cbn [fst snd] in Hn, Hp.
  destruct (remove_self_fields m h Hn Hp) as (Hn' & Hp' & Hsp).
  assert (forall l xs, delete m R !! l = Some xs -> m ∉ l :: xs) as Hout.
  { intros l xs [Hne Hl]%lookup_delete_Some Hin. apply Hne.
    apply (H2 m l [] xs m); [done|done|left|done]. }
  constructor.
  - intros l xs Hl. eapply ring_frame; [|apply lookup_delete_Some in Hl as [_ Hl]; by apply H1].
    intros p Hin. apply Hsp. intros ->%list_elem_of_singleton. by apply (Hout l xs).
  - intros l1 l2 xs1 xs2 p [_ Hl1]%lookup_delete_Some [_ Hl2]%lookup_delete_Some. by apply H2.
  - intros p Hpo. destruct (decide (p = m)) as [->|Hne]; [done|].
    destruct (Hsp p) as [-> ->]; [by intros ?%list_elem_of_singleton|]. apply H3.
    intros l xs Hl. destruct (decide (l = m)) as [->|Hlm].
    + replace xs with (@nil positive) by congruence. by intros ?%list_elem_of_singleton.
    + apply Hpo. by rewrite lookup_delete_ne.
Qed.

Lemma rings_append_out h R l xs m :
  rings h R -> R !! l = Some xs -> (forall l xs, R !! l = Some xs -> m ∉ l :: xs) ->
  exists h', append l m h = Ok h' /\ rings h' (<[l := xs ++ [m]]> R).
Proof.
  intros [H1 H2 H3] Hl Hm. destruct (H3 m Hm) as [Hn Hp].
  destruct (append_unlinked h l xs m) as (h' & E & Hr & Hsp); [by apply H1|by apply Hm|done|done|].
  exists h'. split; [done|].
  assert (forall l' ys p, l <> l' -> R !! l' = Some ys -> p ∈ l' :: ys -> p ∉ m :: l :: xs) as Hdis.
  { intros l' ys p Hne Hl' Hin. rewrite not_elem_of_cons. split.
    - intros ->. by apply (Hm l' ys).
    - intros Hin'. apply Hne. by eapply (H2 l l'). }
  constructor.
  - intros l' ys [[<- <-]|[Hne Hl']]%lookup_insert_Some; [done|].
    eapply ring_frame; [|by apply H1]. intros p Hin. by apply Hsp, (Hdis l' ys).
  - intros l1 l2 xs1 xs2 p Hl1 Hl2 Hp1 Hp2.
    apply lookup_insert_Some in Hl1 as [[<- <-]|[Hne1 Hl1]], Hl2 as [[<- <-]|[Hne2 Hl2]];
      [done|..|by eapply H2].
    + destruct (Hdis l2 xs2 p Hne2 Hl2 Hp2). set_solver.
    + destruct (Hdis l1 xs1 p Hne1 Hl1 Hp1). set_solver.
  - intros p Hpo. assert (p ∉ l :: xs ++ [m]) as Hpl by (apply Hpo; by rewrite lookup_insert_eq).
    destruct (Hsp p) as [-> ->]; [set_solver|]. apply H3. intros l' ys Hl'.
    destruct (decide (l = l')) as [<-|Hne].
    + replace ys with xs by congruence. set_solver.
    + apply Hpo. by rewrite lookup_insert_ne.
Qed.

(** An item that is linked is taken out first. *)
Lemma append_remove h l m : append l m h = append l m (remove m h).
Proof.
  assert (next (remove m h) m = None /\ prev (remove m h) m = None) as [Hn Hp].
  { unfold remove. autorewrite with link. by rewrite !decide_True. }
  destruct (decide (next h m = None /\ prev h m = None)) as [[H1 H2]|H].
  - by rewrite remove_out.
  - unfold append at 1. rewrite decide_False by done. unfold append. by rewrite decide_True.
Qed.

(** Appending [m] to list [l]. *)
Definition attach (l m : positive) (R : lists_of) : lists_of :=
  <[l := others m (default [] (R !! l)) ++ [m]]> (detach m (delete m R)).

(** [m] is an item of [l]. *)
Definition listed (R : lists_of) (m l : positive) : Prop := exists xs, R !! l = Some xs /\ m ∈ xs.

Lemma listed_detach R m p l : listed (detach m R) p l <-> p <> m /\ listed R p l.
Proof.
  unfold listed. setoid_rewrite detach_lookup. split.
  - intros (xs & (ys & Hl & ->) & [? ?]%elem_of_others). eauto.
  - intros (Hne & xs & Hl & Hin). eexists. split; [eauto|]. by apply elem_of_others.
Qed.

Lemma listed_attach R m l p l' :
  is_Some (R !! l) -> l <> m -> (R !! m = None \/ R !! m = Some []) ->
  listed (attach l m R) p l' <-> (p = m /\ l' = l) \/ (p <> m /\ listed R p l').
Proof.
  intros [xs Hl] Hne Hm. unfold attach. rewrite Hl. cbn [default]. unfold listed.
  destruct (decide (l' = l)) as [->|Hl'].
  - rewrite lookup_insert_eq. split.
    + intros (? & [= <-] & Hin). rewrite elem_of_app, elem_of_others, list_elem_of_singleton in Hin.
      destruct (decide (p = m)); [tauto|right]. split; [done|]. exists xs. tauto.
    + intros H. eexists. split; [done|]. rewrite elem_of_app, elem_of_others, list_elem_of_singleton.
      destruct H as [[? _]|(? & ys & Hl2 & ?)]; [tauto|left]. split; [done|]. by replace xs with ys by congruence.
  - rewrite lookup_insert_ne by done. setoid_rewrite detach_lookup. split.
    + intros (ys & (zs & Hz & ->) & [? ?]%elem_of_others). apply lookup_delete_Some in Hz as [_ Hz]. eauto.
    + intros [[_ ?]|(? & ys & Hl2 & Hin)]; [done|]. exists (others m ys). split; [exists ys; split; [|done]|by apply elem_of_others].
      apply lookup_delete_Some. split; [|done]. intros <-. destruct Hm as [Hm|Hm]; [congruence|].
      replace ys with (@nil positive) in Hin by congruence. by apply elem_of_nil in Hin.
Qed.

Lemma attach_dom R m l l' :
  is_Some (R !! l) -> l <> m -> is_Some (attach l m R !! l') <-> l' <> m /\ is_Some (R !! l').
Proof.
  intros Hl Hne. unfold attach, detach. destruct (decide (l' = l)) as [->|Hl'].
  - rewrite lookup_insert_eq. split; [done|]. intros _. eauto.
  - rewrite lookup_insert_ne, lookup_fmap, fmap_is_Some by done.
    destruct (decide (m = l')) as [<-|Hne'].
    + rewrite lookup_delete_eq. split; [by intros [? ?]|tauto].
    + rewrite lookup_delete_ne by done. split; [|tauto]. intros. split; [done|done].
Qed.

(** [m] is in some list, in none, or, being new, its own empty list. *)
Lemma rings_attach h R l m :
  rings h R -> is_Some (R !! l) -> l <> m -> (R !! m = None \/ R !! m = Some []) ->
  exists h', append l m h = Ok h' /\ rings h' (attach l m R).
Proof.
  intros HR [xs Hl] Hne Hm. rewrite append_remove. unfold attach. rewrite Hl. cbn [default].
  assert (rings (remove m h) (detach m (delete m R))) as HR'.
  { destruct Hm as [Hm|Hm]; [rewrite delete_id by done; by apply rings_remove|].
    rewrite detach_out; [by apply rings_remove_self|].
    intros l' ys [Hne' Hl']%lookup_delete_Some Hin. apply Hne'.
    destruct HR as [_ H2 _]. apply (H2 m l' [] ys m); [done|done|left|by right]. }
  apply rings_append_out; [done| |].
  - apply detach_lookup. exists xs. split; [by rewrite lookup_delete_ne|done].
  - intros l' ys (zs & Hl' & ->)%detach_lookup [->|H]%elem_of_cons.
    + by apply lookup_delete_Some in Hl' as [? _].
    + by apply elem_of_others in H as [? _].
Qed.

Lemma rings_peek h R l xs : rings h R -> R !! l = Some xs -> peek l h = head xs.
Proof.
  intros [H1 _ _] Hl. by apply ring_peek, H1.
Qed.

Lemma rings_isEmpty h R l xs : rings h R -> R !! l = Some xs -> isEmpty l h = bool_decide (xs = []).
Proof.
  intros [H1 _ _] Hl. by apply ring_isEmpty, H1.
Qed.

(** An object has links exactly when it is in a list. *)
Lemma rings_unlinked h R m :
  rings h R -> R !! m = None ->
  (next h m = None /\ prev h m = None) <-> (forall l xs, R !! l = Some xs -> m ∉ xs).
Proof.
  intros [H1 H2 H3] Hm. split.
  - intros [Hn _] l xs Hl Hin. apply list_elem_of_split in Hin as (xs1 & xs2 & ->).
    by apply (ring_next_some h l xs1 m xs2); [apply H1|].
  - intros H. apply H3. intros l xs Hl [->|Hin]%elem_of_cons; [congruence|]. by apply (H l xs).
Qed.
