(* ===== verification/Timers.v ===== *)
(** * [internal/timers] and [timers]: timeouts and intervals

    Models [libjs-node/internal/timers.js] and the timeouts of
    [libjs-node/timers.js]: the [Timeout] objects, the lists of timers of one
    duration (linked lists of [internal/linkedlist]), the map from durations to
    lists, the priority queue of lists ordered by expiry, the count of timers
    that keep the process alive, and [processTimers], which the event loop
    calls.  Callbacks, and the ticks and microtasks [runNextTicks] drains
    between two callbacks, are arbitrary programs over the timers API.

    Parameters: the clock of the event loop, read by [getLibuvNow]; the
    programs [runNextTicks] runs; whether async hooks are installed.  Not
    modelled: what async hooks do, the async context frames, trigger ids and
    the text of warnings. *)

From Stdlib Require Import QArith.
From S2P Require Import Prelude JsString JsNumber PriorityQueue LinkedList.
#[local] Open Scope Z_scope.

Module Timers.

(** ** Data *)

(** What a program hands to [clearTimeout]. *)
Inductive handle :=
  | HTimer (t : positive)
  | HNumber (z : Z)
  | HString (s : jsstr)
  | HOther.

(** A program: the calls it makes to the API, each continued with its answer.
    A callback that is not a function is [None]. *)
#[warnings="-register-all"]
Inductive prog :=
  | Done
  | Raise (e : jserror)
  | SetTimeout (callback : option (list jsval -> prog)) (after : option num)
      (args : list jsval) (k : result positive -> prog)
  | SetInterval (callback : option (list jsval -> prog)) (repeat : option num)
      (args : list jsval) (k : result positive -> prog)
  | SetUnrefTimeout (callback : option (list jsval -> prog)) (after : option num)
      (k : result positive -> prog)
  | ClearTimeout (timer : handle) (k : prog)
  | Refresh (t : positive) (k : prog)
  | Unref (t : positive) (k : prog)
  | Ref (t : positive) (k : prog)
  | HasRef (t : positive) (k : bool -> prog)
  | ToPrimitive (t : positive) (k : Z -> prog).

(** A [Timeout]; its links are in the heap of the linked lists. *)
Record timeout := Timeout_ {
  idleTimeout : Q;
  idleStart : option Z;
  onTimeout : option (list jsval -> prog);
  timerArgs : option (list jsval);
  repeat_ : option Q;
  destroyed : bool;
  refed : bool;
  hasPrimitive : bool;
  asyncId : Z;
}.

(** A [TimersList]; its [priorityQueuePosition] is what the queue told it. *)
Record timers_list := TimersList { expiry : Z; id : Z; msecs : Z }.

(** What is observed: the calls of the native binding and of the async hooks,
    the warnings, the start of a callback ([EvFire]) and a call of
    [clearTimeout] that names a timer ([EvClear]). *)
Inductive event :=
  | EvSchedule (msecs : Z)
  | EvToggleTimerRef (b : bool)
  | EvWarning (name : jsstr)
  | EvInit (asyncId : Z)
  | EvBefore (asyncId : Z)
  | EvAfter (asyncId : Z)
  | EvDestroy (asyncId : Z)
  | EvFire (t : positive)
  | EvClear (t : positive).

(** The variables of the module.  An infinite [nextExpiry] is [None]. *)
Record state := State {
  timeouts : gmap positive timeout;
  lists : gmap positive timers_list;
  links : LinkedList.heap;
  nextObj : positive;
  timerListMap : gmap Z positive;
  timerListQueue : PriorityQueue.queue (V := option positive);
  timerListId : Z;
  nextExpiry : option Z;
  timeoutInfo : Z;
  knownTimersById : gmap jsstr positive;
  asyncIdCounter : Z;
  warnedNegativeNumber : bool;
  warnedNotNumber : bool;
  clockReads : nat;
  tickRuns : nat;
  trace : list event;
}.

Definition set_timeouts (v : gmap positive timeout) (st : state) : state :=
  State v (lists st) (links st) (nextObj st) (timerListMap st) (timerListQueue st)
    (timerListId st) (nextExpiry st) (timeoutInfo st) (knownTimersById st) (asyncIdCounter
    st) (warnedNegativeNumber st) (warnedNotNumber st) (clockReads st) (tickRuns st) (trace
    st).
Definition set_lists (v : gmap positive timers_list) (st : state) : state :=
  State (timeouts st) v (links st) (nextObj st) (timerListMap st) (timerListQueue st)
    (timerListId st) (nextExpiry st) (timeoutInfo st) (knownTimersById st) (asyncIdCounter
    st) (warnedNegativeNumber st) (warnedNotNumber st) (clockReads st) (tickRuns st) (trace
    st).
Definition set_links (v : LinkedList.heap) (st : state) : state :=
  State (timeouts st) (lists st) v (nextObj st) (timerListMap st) (timerListQueue st)
    (timerListId st) (nextExpiry st) (timeoutInfo st) (knownTimersById st) (asyncIdCounter
    st) (warnedNegativeNumber st) (warnedNotNumber st) (clockReads st) (tickRuns st) (trace
    st).
Definition set_nextObj (v : positive) (st : state) : state :=
  State (timeouts st) (lists st) (links st) v (timerListMap st) (timerListQueue st)
    (timerListId st) (nextExpiry st) (timeoutInfo st) (knownTimersById st) (asyncIdCounter
    st) (warnedNegativeNumber st) (warnedNotNumber st) (clockReads st) (tickRuns st) (trace
    st).
Definition set_timerListMap (v : gmap Z positive) (st : state) : state :=
  State (timeouts st) (lists st) (links st) (nextObj st) v (timerListQueue st) (timerListId
    st) (nextExpiry st) (timeoutInfo st) (knownTimersById st) (asyncIdCounter st)
    (warnedNegativeNumber st) (warnedNotNumber st) (clockReads st) (tickRuns st) (trace st).
Definition set_timerListQueue (v : PriorityQueue.queue (V := option positive)) (st : state) : state :=
  State (timeouts st) (lists st) (links st) (nextObj st) (timerListMap st) v (timerListId
    st) (nextExpiry st) (timeoutInfo st) (knownTimersById st) (asyncIdCounter st)
    (warnedNegativeNumber st) (warnedNotNumber st) (clockReads st) (tickRuns st) (trace st).
Definition set_timerListId (v : Z) (st : state) : state :=
  State (timeouts st) (lists st) (links st) (nextObj st) (timerListMap st) (timerListQueue
    st) v (nextExpiry st) (timeoutInfo st) (knownTimersById st) (asyncIdCounter st)
    (warnedNegativeNumber st) (warnedNotNumber st) (clockReads st) (tickRuns st) (trace st).
Definition set_nextExpiry (v : option Z) (st : state) : state :=
  State (timeouts st) (lists st) (links st) (nextObj st) (timerListMap st) (timerListQueue
    st) (timerListId st) v (timeoutInfo st) (knownTimersById st) (asyncIdCounter st)
    (warnedNegativeNumber st) (warnedNotNumber st) (clockReads st) (tickRuns st) (trace st).
Definition set_timeoutInfo (v : Z) (st : state) : state :=
  State (timeouts st) (lists st) (links st) (nextObj st) (timerListMap st) (timerListQueue
    st) (timerListId st) (nextExpiry st) v (knownTimersById st) (asyncIdCounter st)
    (warnedNegativeNumber st) (warnedNotNumber st) (clockReads st) (tickRuns st) (trace st).
Definition set_knownTimersById (v : gmap jsstr positive) (st : state) : state :=
  State (timeouts st) (lists st) (links st) (nextObj st) (timerListMap st) (timerListQueue
    st) (timerListId st) (nextExpiry st) (timeoutInfo st) v (asyncIdCounter st)
    (warnedNegativeNumber st) (warnedNotNumber st) (clockReads st) (tickRuns st) (trace st).
Definition set_asyncIdCounter (v : Z) (st : state) : state :=
  State (timeouts st) (lists st) (links st) (nextObj st) (timerListMap st) (timerListQueue
    st) (timerListId st) (nextExpiry st) (timeoutInfo st) (knownTimersById st) v
    (warnedNegativeNumber st) (warnedNotNumber st) (clockReads st) (tickRuns st) (trace st).
Definition set_warnedNegativeNumber (v : bool) (st : state) : state :=
  State (timeouts st) (lists st) (links st) (nextObj st) (timerListMap st) (timerListQueue
    st) (timerListId st) (nextExpiry st) (timeoutInfo st) (knownTimersById st)
    (asyncIdCounter st) v (warnedNotNumber st) (clockReads st) (tickRuns st) (trace st).
Definition set_warnedNotNumber (v : bool) (st : state) : state :=
  State (timeouts st) (lists st) (links st) (nextObj st) (timerListMap st) (timerListQueue
    st) (timerListId st) (nextExpiry st) (timeoutInfo st) (knownTimersById st)
    (asyncIdCounter st) (warnedNegativeNumber st) v (clockReads st) (tickRuns st) (trace
    st).
Definition set_clockReads (v : nat) (st : state) : state :=
  State (timeouts st) (lists st) (links st) (nextObj st) (timerListMap st) (timerListQueue
    st) (timerListId st) (nextExpiry st) (timeoutInfo st) (knownTimersById st)
    (asyncIdCounter st) (warnedNegativeNumber st) (warnedNotNumber st) v (tickRuns st)
    (trace st).
Definition set_tickRuns (v : nat) (st : state) : state :=
  State (timeouts st) (lists st) (links st) (nextObj st) (timerListMap st) (timerListQueue
    st) (timerListId st) (nextExpiry st) (timeoutInfo st) (knownTimersById st)
    (asyncIdCounter st) (warnedNegativeNumber st) (warnedNotNumber st) (clockReads st) v
    (trace st).
Definition set_trace (v : list event) (st : state) : state :=
  State (timeouts st) (lists st) (links st) (nextObj st) (timerListMap st) (timerListQueue
    st) (timerListId st) (nextExpiry st) (timeoutInfo st) (knownTimersById st)
    (asyncIdCounter st) (warnedNegativeNumber st) (warnedNotNumber st) (clockReads st)
    (tickRuns st) v.

Definition MIN_SAFE_INTEGER : Z := -9007199254740991.
Definition TIMEOUT_MAX : Z := 2147483647.

Definition initial : state :=
  State ∅ ∅ (LinkedList.Heap ∅ ∅) 1 ∅ (PriorityQueue.new None) MIN_SAFE_INTEGER None 0 ∅ 0
    false false 0 0 [].

(** ** Field updates *)

Definition log (e : event) (st : state) : state := set_trace (trace st ++ [e]) st.
Definition upd (t : positive) (f : timeout -> timeout) (st : state) : state :=
  set_timeouts (alter f t (timeouts st)) st.

Definition with_idleTimeout (v : Q) (r : timeout) : timeout :=
  Timeout_ v (idleStart r) (onTimeout r) (timerArgs r) (repeat_ r) (destroyed r) (refed r)
    (hasPrimitive r) (asyncId r).
Definition with_idleStart (v : Z) (r : timeout) : timeout :=
  Timeout_ (idleTimeout r) (Some v) (onTimeout r) (timerArgs r) (repeat_ r) (destroyed r)
    (refed r) (hasPrimitive r) (asyncId r).
Definition without_onTimeout (r : timeout) : timeout :=
  Timeout_ (idleTimeout r) (idleStart r) None (timerArgs r) (repeat_ r) (destroyed r)
    (refed r) (hasPrimitive r) (asyncId r).
Definition with_destroyed (v : bool) (r : timeout) : timeout :=
  Timeout_ (idleTimeout r) (idleStart r) (onTimeout r) (timerArgs r) (repeat_ r) v
    (refed r) (hasPrimitive r) (asyncId r).
Definition with_refed (v : bool) (r : timeout) : timeout :=
  Timeout_ (idleTimeout r) (idleStart r) (onTimeout r) (timerArgs r) (repeat_ r)
    (destroyed r) v (hasPrimitive r) (asyncId r).
Definition with_hasPrimitive (v : bool) (r : timeout) : timeout :=
  Timeout_ (idleTimeout r) (idleStart r) (onTimeout r) (timerArgs r) (repeat_ r)
    (destroyed r) (refed r) v (asyncId r).
Definition with_asyncId (v : Z) (r : timeout) : timeout :=
  Timeout_ (idleTimeout r) (idleStart r) (onTimeout r) (timerArgs r) (repeat_ r)
    (destroyed r) (refed r) (hasPrimitive r) v.

(** ** The timer lists *)

(** A list of the queue; [undefined] is never compared. *)
Definition list_of (ls : gmap positive timers_list) (a : option positive) : timers_list :=
  default (TimersList 0 0 0) (a ≫= fun l => ls !! l).

Definition compareTimersLists (ls : gmap positive timers_list) (a b : option positive) : Z :=
  let expiryDiff := expiry (list_of ls a) - expiry (list_of ls b) in
  if expiryDiff =? 0 then id (list_of ls a) - id (list_of ls b) else expiryDiff.

Definition queue_insert (l : positive) (st : state) : state :=
  set_timerListQueue
    (PriorityQueue.insert None (compareTimersLists (lists st)) true (Some l) (timerListQueue st)) st.
Definition queue_removeAt (pos : Z) (st : state) : state :=
  set_timerListQueue
    (PriorityQueue.removeAt None (compareTimersLists (lists st)) true pos (timerListQueue st)) st.
Definition queue_percolateDown (pos : Z) (st : state) : state :=
  set_timerListQueue
    (PriorityQueue.percolateDown None (compareTimersLists (lists st)) true pos (timerListQueue st)) st.
Definition queue_shift (st : state) : state :=
  set_timerListQueue
    (PriorityQueue.shift None (compareTimersLists (lists st)) true (timerListQueue st)).1 st.
Definition queue_peek (st : state) : option positive :=
  PriorityQueue.peek None (timerListQueue st).

Definition priorityQueuePosition (l : positive) (st : state) : option Z :=
  PriorityQueue.positions (timerListQueue st) (Some l).

(** [new TimersList(expiry, msecs)] *)
Definition new_TimersList (expiry msecs : Z) (st : state) : positive * state :=
  let l := nextObj st in
  let st := set_nextObj (Pos.succ l) st in
  let st := set_links (LinkedList.init l (links st)) st in
  let st := set_lists (<[l := TimersList expiry (timerListId st) msecs]> (lists st)) st in
  (l, set_timerListId (timerListId st + 1) st).

(** ** References *)

Definition incRefCount (st : state) : state :=
  let old := timeoutInfo st in
  let st := set_timeoutInfo (toInt32 (old + 1)) st in
  if old =? 0 then log (EvToggleTimerRef true) st else st.

Definition decRefCount (st : state) : state :=
  let st := set_timeoutInfo (toInt32 (timeoutInfo st - 1)) st in
  if timeoutInfo st =? 0 then log (EvToggleTimerRef false) st else st.

Section Env.
(** The readings of the loop's clock, the programs run by [runNextTicks], and
    [initHooksExist()]. *)
Context (clock : nat -> Z) (ticks : nat -> prog) (initHooks : bool).

Definition getLibuvNow (st : state) : Z * state :=
  (clock (clockReads st), set_clockReads (S (clockReads st)) st).

Definition initAsyncResource (t : positive) (st : state) : state :=
  let asyncId := asyncIdCounter st + 1 in
  let st := set_asyncIdCounter asyncId st in
  let st := upd t (with_asyncId asyncId) st in
  if initHooks then log (EvInit asyncId) st else st.

(** ** [Timeout] *)

Definition in_range (a : num) : bool :=
  match a with
  | Fin q => Qle_bool 1 q && Qle_bool q (inject_Z TIMEOUT_MAX)
  | _ => false
  end.
Definition above_max (a : num) : bool :=
  match a with
  | Fin q => negb (Qle_bool q (inject_Z TIMEOUT_MAX))
  | PosInf => true
  | _ => false
  end.
Definition negative (a : num) : bool :=
  match a with
  | Fin q => q_neg q
  | NegInf => true
  | _ => false
  end.
Definition is_nan (a : num) : bool := match a with NaN => true | _ => false end.

Definition value_of (a : num) : Q := match a with Fin q => q | _ => 1 end.

(** The warnings about a duration that is out of range, and the duration of a
    new [Timeout]. *)
Definition warn_after (a : num) (st : state) : state :=
  if above_max a then log (EvWarning "TimeoutOverflowWarning") st
  else if negative a && negb (warnedNegativeNumber st)
  then log (EvWarning "TimeoutNegativeWarning") (set_warnedNegativeNumber true st)
  else if is_nan a && negb (warnedNotNumber st)
  then log (EvWarning "TimeoutNaNWarning") (set_warnedNotNumber true st)
  else st.

Definition checked_after (after : option num) (st : state) : Q * state :=
  let after := default (Fin 1) after in
  if in_range after then (value_of after, st) else (1%Q, warn_after after st).

(** [new Timeout(callback, after, args, isRepeat, isRefed)] *)
Definition new_Timeout (callback : list jsval -> prog) (after : option num)
    (args : option (list jsval)) (isRepeat isRefed : bool) (st : state) : positive * state :=
  let '(after, st) := checked_after after st in
  let t := nextObj st in
  let st := set_nextObj (Pos.succ t) st in
  let st := set_links (LinkedList.init t (links st)) st in
  let st := set_timeouts (<[t :=
    Timeout_ after None (Some callback) args (if isRepeat then Some after else None)
      false isRefed false 0]> (timeouts st)) st in
  let st := if isRefed then incRefCount st else st in
  (t, initAsyncResource t st).

(** ** Scheduling *)

Definition expires_before (next : option Z) (e : Z) : bool :=
  match next with Some n => n <=? e | None => false end.

(** The list of a duration, created when there is none. *)
Definition find_list (msecs start : Z) (st : state) : positive * state :=
  match timerListMap st !! msecs with
  | Some l => (l, st)
  | None =>
      let e := start + msecs in
      let '(l, st) := new_TimersList e msecs st in
      let st := set_timerListMap (<[msecs := l]> (timerListMap st)) st in
      let st := queue_insert l st in
      (l, if expires_before (nextExpiry st) e then st
          else set_nextExpiry (Some e) (log (EvSchedule msecs) st))
  end.

Definition insert (item : positive) (msecs : Q) (start : option Z) (st : state)
    : state * result unit :=
  let '(start, st) := match start with Some s => (s, st) | None => getLibuvNow st end in
  let msecs := MathTrunc msecs in
  let st := upd item (with_idleStart start) st in
  let '(l, st) := find_list msecs start st in
  match LinkedList.append l item (links st) with
  | Ok h => (set_links h st, Ok tt)
  | Throw e => (st, Throw e)
  end.

Definition type_error : jserror := JsError [] ["TypeError"].

(** The bookkeeping of [insertGuarded], after the timer is in its list. *)
Definition rescheduled (item : positive) (r : timeout) (refed' : bool) (st : state) : state :=
  let isDestroyed := destroyed r in
  let st :=
    if isDestroyed || (asyncId r =? 0)
    then initAsyncResource item (upd item (with_destroyed false) st) else st in
  let st :=
    if isDestroyed then (if refed' then incRefCount st else st)
    else if Bool.eqb refed' (negb (refed r))
    then (if refed' then incRefCount st else decRefCount st) else st in
  upd item (with_refed refed') st.

Definition insertGuarded (item : positive) (refed' : bool) (st : state) : state * result unit :=
  match timeouts st !! item with
  | None => (st, Throw type_error)
  | Some r =>
      let msecs := idleTimeout r in
      if q_neg msecs then (st, Ok tt)
      else
        match insert item msecs None st with
        | (st, Throw e) => (st, Throw e)
        | (st, Ok _) => (rescheduled item r refed' st, Ok tt)
        end
  end.

Definition active (item : positive) : state -> state * result unit := insertGuarded item true.
Definition unrefActive (item : positive) : state -> state * result unit := insertGuarded item false.

(** [Timeout.prototype.refresh], [unref] and [ref] *)
Definition refresh (t : positive) (st : state) : state * result unit :=
  match timeouts st !! t with
  | None => (st, Throw type_error)
  | Some r => if refed r then active t st else unrefActive t st
  end.

Definition unref (t : positive) (st : state) : state * result unit :=
  match timeouts st !! t with
  | None => (st, Throw type_error)
  | Some r =>
      (if refed r
       then let st := upd t (with_refed false) st in
            if destroyed r then st else decRefCount st
       else st, Ok tt)
  end.

Definition ref (t : positive) (st : state) : state * result unit :=
  match timeouts st !! t with
  | None => (st, Throw type_error)
  | Some r =>
      (if refed r then st
       else let st := upd t (with_refed true) st in
            if destroyed r then st else incRefCount st, Ok tt)
  end.

Definition hasRef (t : positive) (st : state) : state * result bool :=
  match timeouts st !! t with
  | None => (st, Throw type_error)
  | Some r => (st, Ok (refed r))
  end.

(** [Timeout.prototype[Symbol.toPrimitive]] *)
Definition toPrimitive (t : positive) (st : state) : state * result Z :=
  match timeouts st !! t with
  | None => (st, Throw type_error)
  | Some r =>
      (if hasPrimitive r then st
       else let st := upd t (with_hasPrimitive true) st in
            set_knownTimersById (<[js_of_Z (asyncId r) := t]> (knownTimersById st)) st,
       Ok (asyncId r))
  end.

Definition ERR_INVALID_ARG_TYPE (name expected : jsstr) : jserror :=
  JsError "ERR_INVALID_ARG_TYPE" [name; expected].

Definition validateFunction (v : option (list jsval -> prog)) (name : jsstr)
    : result (list jsval -> prog) :=
  match v with
  | Some f => Ok f
  | None => Throw (ERR_INVALID_ARG_TYPE name "Function")
  end.

Definition args_or_undefined (args : list jsval) : option (list jsval) :=
  match args with [] => None | _ => Some args end.

(** The common body of [setTimeout], [setInterval] and [setUnrefTimeout]. *)
Definition schedule (callback : option (list jsval -> prog)) (after : option num)
    (args : option (list jsval)) (isRepeat isRefed : bool) (st : state)
    : state * result positive :=
  match validateFunction callback "callback" with
  | Throw e => (st, Throw e)
  | Ok callback =>
      let '(t, st) := new_Timeout callback after args isRepeat isRefed st in
      match insert t (default 0%Q (idleTimeout <$> timeouts st !! t)) None st with
      | (st, Throw e) => (st, Throw e)
      | (st, Ok _) => (st, Ok t)
      end
  end.

Definition setTimeout callback after args (st : state) : state * result positive :=
  schedule callback after (args_or_undefined args) false true st.
Definition setInterval callback repeat args (st : state) : state * result positive :=
  schedule callback repeat (args_or_undefined args) true true st.
Definition setUnrefTimeout callback after (st : state) : state * result positive :=
  schedule callback after None false false st.

(** [getTimerDuration(msecs, name)]; a value that is not a number is [None]. *)
Definition getTimerDuration (msecs : option num) (name : jsstr) (st : state) : state * result Q :=
  match msecs with
  | None => (st, Throw (ERR_INVALID_ARG_TYPE name "number"))
  | Some m =>
      if negative m || match m with Fin _ => false | _ => true end
      then (st, Throw (JsError "ERR_OUT_OF_RANGE" [name; "a non-negative finite number"%js]))
      else if above_max m
      then (log (EvWarning "TimeoutOverflowWarning") st, Ok (inject_Z TIMEOUT_MAX))
      else (st, Ok (value_of m))
  end.

(** ** Cancelling *)

Definition forget_primitive (r : timeout) (st : state) : state :=
  if hasPrimitive r
  then set_knownTimersById (delete (js_of_Z (asyncId r)) (knownTimersById st)) st else st.

(** The end of [unenroll] for a timer that keeps the process alive: its list
    goes when it is empty. *)
Definition drop_list (r : timeout) (st : state) : state :=
  match timerListMap st !! MathTrunc (idleTimeout r) with
  | Some l =>
      if LinkedList.isEmpty l (links st) then
        let st := queue_removeAt (default 0 (priorityQueuePosition l st)) st in
        set_timerListMap (delete (msecs (list_of (lists st) (Some l))) (timerListMap st)) st
      else st
  | None => st
  end.

Definition unenroll (item : positive) (st : state) : state :=
  match timeouts st !! item with
  | None => st
  | Some r =>
      if destroyed r then st
      else
        let st := upd item (with_destroyed true) st in
        let st := forget_primitive r st in
        let st := log (EvDestroy (asyncId r)) st in
        let st := set_links (LinkedList.remove item (links st)) st in
        let st := if refed r then decRefCount (drop_list r st) else st in
        upd item (with_idleTimeout (-1)) st
  end.

Definition clear_timer (t : positive) (st : state) : state :=
  unenroll t (upd t without_onTimeout st).

(** The trace records that the program asks to cancel a timer, whatever comes
    of it. *)
Definition note_clear (t : positive) (st : state) : state :=
  match timeouts st !! t with Some _ => log (EvClear t) st | None => st end.

Definition clear_known (key : jsstr) (st : state) : state :=
  match knownTimersById st !! key with
  | Some t => clear_timer t (note_clear t st)
  | None => st
  end.

(** [clearTimeout], [clearInterval], [Timeout.prototype.close] *)
Definition clearTimeout (timer : handle) (st : state) : state :=
  match timer with
  | HTimer t =>
      let st := note_clear t st in
      match timeouts st !! t ≫= onTimeout with Some _ => clear_timer t st | None => st end
  | HNumber z => clear_known (js_of_Z z) st
  | HString s => clear_known s st
  | HOther => st
  end.
Definition clearInterval (timer : handle) (st : state) : state := clearTimeout timer st.

(** ** Running a program *)

Fixpoint exec (p : prog) (st : state) : state * result unit :=
  match p with
  | Done => (st, Ok tt)
  | Raise e => (st, Throw e)
  | SetTimeout callback after args k =>
      let '(st, r) := setTimeout callback after args st in exec (k r) st
  | SetInterval callback repeat args k =>
      let '(st, r) := setInterval callback repeat args st in exec (k r) st
  | SetUnrefTimeout callback after k =>
      let '(st, r) := setUnrefTimeout callback after st in exec (k r) st
  | ClearTimeout timer k => exec k (clearTimeout timer st)
  | Refresh t k =>
      match refresh t st with (st, Ok _) => exec k st | (st, Throw e) => (st, Throw e) end
  | Unref t k =>
      match unref t st with (st, Ok _) => exec k st | (st, Throw e) => (st, Throw e) end
  | Ref t k =>
      match ref t st with (st, Ok _) => exec k st | (st, Throw e) => (st, Throw e) end
  | HasRef t k =>
      match hasRef t st with (st, Ok b) => exec (k b) st | (st, Throw e) => (st, Throw e) end
  | ToPrimitive t k =>
      match toPrimitive t st with (st, Ok z) => exec (k z) st | (st, Throw e) => (st, Throw e) end
  end.

Definition runNextTicks (st : state) : state * result unit :=
  exec (ticks (tickRuns st)) (set_tickRuns (S (tickRuns st)) st).

(** [if (ran) runNextTicks(); else ran = true;] *)
Definition between (ran : bool) (st : state) : state * result unit :=
  if ran then runNextTicks st else (st, Ok tt).

(** ** Expiry *)

(** A timer that leaves its list for good. *)
Definition destroy (t : positive) (r : timeout) (id : Z) (st : state) : state :=
  let st := upd t (with_destroyed true) st in
  let st :=
    if hasPrimitive r
    then set_knownTimersById (delete (js_of_Z id) (knownTimersById st)) st else st in
  let st := if refed r then set_timeoutInfo (toInt32 (timeoutInfo st - 1)) st else st in
  log (EvDestroy id) st.

Definition unlinked (t : positive) (st : state) : bool :=
  bool_decide (LinkedList.next (links st) t = None /\ LinkedList.prev (links st) t = None).

(** The [finally] block: an interval is scheduled again, a timer that its
    callback did not schedule again is destroyed. *)
Definition after_callback (t : positive) (id : Z) (start : option Z) (st : state)
    : state * result unit :=
  match timeouts st !! t with
  | None => (st, Throw type_error)
  | Some r =>
      match repeat_ r with
      | Some again =>
          if negb (Qeq_bool (idleTimeout r) (-1)) then
            insert t again start (upd t (with_idleTimeout again) st)
          else if unlinked t st && negb (destroyed r) then (destroy t r id st, Ok tt)
          else (st, Ok tt)
      | None =>
          if unlinked t st && negb (destroyed r) then (destroy t r id st, Ok tt) else (st, Ok tt)
      end
  end.

(** The callback of a timer that has left its list. *)
Definition call_timer (t : positive) (r : timeout) (callback : list jsval -> prog) (st : state)
    : state * result unit :=
  let st := log (EvBefore (asyncId r)) st in
  let '(start, st) :=
    match repeat_ r with
    | Some _ => let '(s, st) := getLibuvNow st in (Some s, st)
    | None => (None, st)
    end in
  let '(st, res) := exec (callback (default [] (timerArgs r))) (log (EvFire t) st) in
  match after_callback t (asyncId r) start st with
  | (st, Throw e) => (st, Throw e)
  | (st, Ok _) =>
      match res with
      | Throw e => (st, Throw e)
      | Ok _ => (log (EvAfter (asyncId r)) st, Ok tt)
      end
  end.

(** One timer of a list, from [L.remove(timer)] on. *)
Definition fire (t : positive) (st : state) : state * result unit :=
  let st := set_links (LinkedList.remove t (links st)) st in
  match timeouts st !! t with
  | None => (st, Throw type_error)
  | Some r =>
      match onTimeout r with
      | None => (if destroyed r then st else destroy t r (asyncId r) st, Ok tt)
      | Some callback => call_timer t r callback st
      end
  end.

(** The list waits for its oldest timer. *)
Definition postpone (l : positive) (start msecs_ now : Z) (st : state) : state :=
  let L := list_of (lists st) (Some l) in
  let st := set_lists (<[l := TimersList (Z.max (start + msecs_) (now + 1)) (timerListId st)
                                (msecs L)]> (lists st)) st in
  let st := set_timerListId (timerListId st + 1) st in
  queue_percolateDown 1 st.

(** The list is empty. *)
Definition retire (l : positive) (msecs : Z) (st : state) : state :=
  if decide (timerListMap st !! msecs = Some l)
  then queue_shift (set_timerListMap (delete msecs (timerListMap st)) st) else st.

Fixpoint list_loop (fuel : nat) (l : positive) (msecs now : Z) (ran : bool) (st : state)
    : option (state * result unit) :=
  match fuel with
  | O => None
  | S fuel =>
      match LinkedList.peek l (links st) with
      | None => Some (retire l msecs st, Ok tt)
      | Some t =>
          let start := default 0 (timeouts st !! t ≫= idleStart) in
          if now - start <? msecs then Some (postpone l start msecs now st, Ok tt)
          else
            match between ran st with
            | (st, Throw e) => Some (st, Throw e)
            | (st, Ok _) =>
                match fire t st with
                | (st, Throw e) => Some (st, Throw e)
                | (st, Ok _) => list_loop fuel l msecs now true st
                end
            end
      end
  end.

Definition listOnTimeout (fuel : nat) (l : positive) (now : Z) (st : state)
    : option (state * result unit) :=
  list_loop fuel l (msecs (list_of (lists st) (Some l))) now false st.

Fixpoint timers_loop (fuel inner : nat) (now : Z) (ran : bool) (st : state)
    : option (state * result Z) :=
  match fuel with
  | O => None
  | S fuel =>
      match queue_peek st with
      | None => Some (st, Ok 0)
      | Some l =>
          let e := expiry (list_of (lists st) (Some l)) in
          if now <? e then
            let st := set_nextExpiry (Some e) st in
            Some (st, Ok (if 0 <? timeoutInfo st then e else - e))
          else
            match between ran st with
            | (st, Throw e) => Some (st, Throw e)
            | (st, Ok _) =>
                match listOnTimeout inner l now st with
                | None => None
                | Some (st, Throw e) => Some (st, Throw e)
                | Some (st, Ok _) => timers_loop fuel inner now true st
                end
            end
      end
  end.

Definition processTimers (fuel : nat) (now : Z) (st : state) : option (state * result Z) :=
  timers_loop fuel fuel now false (set_nextExpiry None st).
End Env.
End Timers.
