(* ===== verification/TimerQueue.v ===== *)
(** * The queue of timer lists

    What the priority queue promises to the timers.  Its comparator reads the
    [expiry] and [id] of the lists it holds, which change: the lemmas say when
    the queue stays ordered although they do, and that the list at the root is
    the one that expires first. *)

From S2P Require Import Prelude JsNumber PriorityQueue PriorityQueueFacts Timers.
Import PriorityQueue Timers.

Abbreviation list_map := (gmap positive timers_list) (only parsing).
Abbreviation contents q := (items (None : option positive) (heap q) (size q)).

(** The queue is well formed for the comparator of the lists [ls]. *)
Definition queue_ok (ls : list_map) (q : queue (V := option positive)) : Prop :=
  wf None (compareTimersLists ls) true q /\ None ∉ contents q.

#[export] Instance compareTimersLists_comparator ls : Comparator (compareTimersLists ls).
Proof.
  constructor; unfold compareTimersLists.
  - intros a b. repeat case_step; bool_hyps; lia.
  - intros a b c. repeat case_step; bool_hyps; lia.
Qed.

(** [a] expires before [b], or at the same time and was created before it. *)
Lemma compare_le ls a b :
  compareTimersLists ls a b <= 0 <->
  expiry (list_of ls a) < expiry (list_of ls b) \/
  expiry (list_of ls a) = expiry (list_of ls b) /\ id (list_of ls a) <= id (list_of ls b).
Proof. unfold compareTimersLists. case_step; bool_hyps; lia. Qed.

(** The comparator only looks at the lists of the queue. *)
Lemma queue_ok_ext ls ls' q :
  (forall l, Some l ∈ contents q -> ls' !! l = ls !! l) -> queue_ok ls q -> queue_ok ls' q.
Proof.
  intros H [[W1 W2 W3 W4 W5] HN]. split; [|done]. constructor; try done.
  assert (forall i, 1 <= i <= size q ->
    list_of ls' (arr_get None (heap q) i) = list_of ls (arr_get None (heap q) i)) as Hsame.
  { intros i Hi. unfold list_of. destruct (arr_get None (heap q) i) as [l|] eqn:E; cbn; [|done].
    rewrite H; [done|]. apply items_elem. eauto. }
  intros i Hi. specialize (W2 i Hi). unfold compareTimersLists in *.
  rewrite !Hsame by (Z.to_euclidean_division_equations; lia). done.
Qed.

Lemma queue_ok_new ls : queue_ok ls (new None).
Proof. split; [apply wf_new|]. by intros ?%elem_of_nil. Qed.

Lemma queue_insert_ok ls q l :
  queue_ok ls q -> size q + 1 < 2147483648 -> Some l ∉ contents q ->
  let q' := PriorityQueue.insert None (compareTimersLists ls) true (Some l) q in
  queue_ok ls q' /\ contents q' ≡ₚ Some l :: contents q.
Proof.
  intros [W HN] Hs Hl. destruct (insert_spec None (compareTimersLists ls) true q (Some l) W Hs) as (W' & P & _);
    [done|]. split; [split; [done|]|done]. rewrite P. by rewrite not_elem_of_cons.
Qed.

(** A list of the queue knows its position. *)
Lemma queue_position ls q l :
  queue_ok ls q -> Some l ∈ contents q ->
  exists pos, positions q (Some l) = Some pos /\ 1 <= pos <= size q /\
    arr_get None (heap q) pos = Some l.
Proof.
  intros [[W1 W2 W3 W4 W5] HN] (i & Hi & E)%items_elem. exists i. split_and!; try done; try lia.
  rewrite E. by apply W5.
Qed.

Lemma queue_removeAt_ok ls q l :
  queue_ok ls q -> Some l ∈ contents q ->
  let q' := removeAt None (compareTimersLists ls) true (default 0 (positions q (Some l))) q in
  queue_ok ls q' /\ contents q ≡ₚ Some l :: contents q'.
Proof.
  intros Hq Hl. destruct (queue_position ls q l Hq Hl) as (pos & -> & Hp & E). destruct Hq as [W HN].
  destruct (removeAt_spec None (compareTimersLists ls) true q pos W Hp) as (W' & P & _). rewrite E in P.
  split; [split; [done|]|done]. intros H. apply HN. rewrite P. by right.
Qed.

Lemma queue_peek_None ls q : queue_ok ls q -> peek None q = None -> contents q = [].
Proof.
  intros [[W1 _ _ _ _] HN] Hp. destruct (decide (size q = 0)) as [E|E].
  - by rewrite E.
  - destruct HN. apply items_elem. exists 1. split; [lia|]. symmetry. exact Hp.
Qed.

Lemma queue_peek_Some ls q l :
  queue_ok ls q -> peek None q = Some l ->
  1 <= size q /\ Some l ∈ contents q /\
  forall x, x ∈ contents q -> compareTimersLists ls (Some l) x <= 0.
Proof.
  intros [W HN] Hp. assert (1 <= size q) as Hs.
  { destruct W as [W1 _ W3 _ _]. destruct (decide (size q = 0)) as [E|E]; [|lia].
    unfold peek in Hp. rewrite W3 in Hp by lia. done. }
  split_and!; [done| |].
  - apply items_elem. exists 1. split; [lia|]. symmetry. exact Hp.
  - intros x Hx. rewrite <- Hp. by apply (peek_least None (compareTimersLists ls) true).
Qed.

(** The list that expires first is at the root. *)
Lemma queue_root ls q l :
  queue_ok ls q -> Some l ∈ contents q ->
  (forall l', Some l' ∈ contents q -> id (list_of ls (Some l')) = id (list_of ls (Some l)) -> l' = l) ->
  (forall x, x ∈ contents q -> compareTimersLists ls (Some l) x <= 0) ->
  peek None q = Some l.
Proof.
  intros Hq Hl Hinj Hle. destruct (peek None q) as [l'|] eqn:E.
  - destruct (queue_peek_Some ls q l' Hq E) as (_ & Hin & Hle').
    f_equal. apply Hinj; [done|]. specialize (Hle _ Hin). specialize (Hle' _ Hl).
    rewrite compare_le in *. lia.
  - apply (queue_peek_None ls) in E; [|done]. rewrite E in Hl. by apply elem_of_nil in Hl.
Qed.

Lemma queue_shift_ok ls q l :
  queue_ok ls q -> peek None q = Some l ->
  let q' := (shift None (compareTimersLists ls) true q).1 in
  queue_ok ls q' /\ contents q ≡ₚ Some l :: contents q'.
Proof.
  intros Hq Hp. destruct (queue_peek_Some ls q l Hq Hp) as (Hs & _ & _). destruct Hq as [W HN].
  unfold shift. unfold peek in Hp. rewrite Hp. rewrite decide_False by done. cbn [fst].
  destruct (removeAt_spec None (compareTimersLists ls) true q 1 W) as (W' & P & _); [lia|].
  rewrite Hp in P. split; [split; [done|]|done]. intros H. apply HN. rewrite P. by right.
Qed.

(** The root may get another expiry: sinking it restores the order. *)
Lemma queue_percolateDown_ok ls q l L :
  queue_ok ls q -> peek None q = Some l ->
  let ls' := <[l := L]> ls in
  let q' := percolateDown None (compareTimersLists ls') true 1 q in
  queue_ok ls' q' /\ contents q' ≡ₚ contents q.
Proof.
  intros Hq Hp ls' q'. destruct (queue_peek_Some ls q l Hq Hp) as (Hs & _ & _).
  destruct Hq as [[W1 W2 W3 W4 W5] HN]. unfold peek in Hp.
  destruct (percolateDown_wf None (compareTimersLists ls') true q 1) as (W' & P & _);
    [lia|lia| |done| |].
  - constructor; [|lia|lia]. intros i Hi H1 H2. specialize (W2 i Hi).
    assert (forall j, 2 <= j <= size q ->
      list_of ls' (arr_get None (heap q) j) = list_of ls (arr_get None (heap q) j)) as Hsame.
    { intros j Hj. unfold list_of. destruct (arr_get None (heap q) j) as [l'|] eqn:E; cbn; [|done].
      unfold ls'. rewrite lookup_insert_ne; [done|]. intros <-.
      assert (1 = j); [|lia]. apply (NoDup_get None (compareTimersLists ls) (heap q) (size q)); [by apply W4|lia|lia|congruence]. }
    unfold compareTimersLists in *. rewrite !Hsame by (Z.to_euclidean_division_equations; lia). done.
  - intros _. split; [by apply W4|]. intros i Hi _. by apply W5.
  - fold q' in W', P |- *. split; [split; [done|]|done]. by rewrite P.
Qed.
