(* ===== verification/TimersInv.v ===== *)
(** * The invariant of the timers

    [structure] relates the linked lists, the map from durations to lists and
    the queue of lists: a list is in the queue exactly when the map holds it,
    and the lists that are not hold no timer.  [timers_ok] relates the timers
    to the lists: a timer is destroyed exactly when it is in no list, but for
    the one whose callback is running, and [timeoutInfo] counts the timers that
    are neither destroyed nor unreferenced. *)

From Stdlib Require Import QArith Sorting.Sorted.
From S2P Require Import Prelude JsNumber LinkedList Rings PriorityQueue PriorityQueueFacts Timers TimerQueue.
#[local] Open Scope Z_scope.
Import Timers.

(** ** Durations *)

Definition duration (q : Q) : Prop := in_range (Fin q) = true.

Lemma duration_trunc q : duration q -> 1 <= MathTrunc q <= TIMEOUT_MAX.
Proof.
  unfold duration, in_range. rewrite andb_true_iff, !Qle_bool_iff. unfold Qle, MathTrunc, TIMEOUT_MAX.
  destruct q as [n d]. cbn. intros [H1 H2]. rewrite Z.quot_div_nonneg by lia.
  split; [apply Z.div_le_lower_bound; lia|]. apply Z.div_le_upper_bound; lia.
Qed.

Lemma duration_not_neg q : duration q -> q_neg q = false.
Proof.
  unfold duration, in_range. rewrite andb_true_iff, !Qle_bool_iff. unfold Qle, q_neg.
  destruct q as [n d]. cbn. intros [H1 _]. apply Z.ltb_ge. lia.
Qed.

Lemma duration_ne q : duration q -> Qeq_bool q (-1) = false.
Proof.
  intros H%duration_not_neg. apply not_true_is_false. intros E%Qeq_bool_iff.
  unfold q_neg, Qeq in *. destruct q as [n d]. cbn in *. bool_hyps. lia.
Qed.

(** What holds of a timer at any time: its duration is in range until it is
    cancelled. *)
Record timer_ok (r : timeout) : Prop := TimerOk {
  ok_idle : duration (idleTimeout r) \/ idleTimeout r = (-1)%Q /\ destroyed r = true;
  ok_repeat : forall q, repeat_ r = Some q -> duration q;
}.

Lemma timer_ok_live r : timer_ok r -> destroyed r = false -> duration (idleTimeout r).
Proof. intros [[?|[_ ?]] _]; congruence. Qed.

(** ** Counting *)

Definition counted (r : timeout) : bool := refed r && negb (destroyed r).
Definition count (m : gmap positive timeout) : Z :=
  Z.of_nat (size (filter (fun kv => counted kv.2 = true) m)).

Lemma count_insert_new m t r :
  m !! t = None -> count (<[t := r]> m) = count m + Z.b2z (counted r).
Proof.
  intros Ht. unfold count. destruct (counted r) eqn:E.
  - rewrite map_filter_insert_True by done. rewrite map_size_insert_None; [cbn; lia|].
    apply map_lookup_filter_None. by left.
  - rewrite map_filter_insert_False by (cbn; congruence). rewrite delete_id by done. cbn. lia.
Qed.

Definition weight (old : option timeout) : Z := Z.b2z (default false (counted <$> old)).

Lemma count_insert m t r : count (<[t := r]> m) = count m - weight (m !! t) + Z.b2z (counted r).
Proof.
  destruct (m !! t) as [r0|] eqn:Ht; [|rewrite count_insert_new by done; change (weight None) with 0; lia].
  rewrite <- insert_delete_eq, count_insert_new by apply lookup_delete_eq.
  replace m with (<[t := r0]> (delete t m)) at 2 by by rewrite insert_delete_id.
  rewrite count_insert_new by apply lookup_delete_eq.
  change (weight (Some r0)) with (Z.b2z (counted r0)). lia.
Qed.

Lemma toInt32_mod z : exists k, toInt32 z = z + 4294967296 * k.
Proof.
  unfold toInt32. exists (- ((z + 2147483648) / 4294967296)).
  pose proof (Z.div_mod (z + 2147483648) 4294967296). lia.
Qed.

Lemma toInt32_add z d : toInt32 (toInt32 z + d) = toInt32 (z + d).
Proof.
  destruct (toInt32_mod z) as [k ->]. unfold toInt32.
  replace (z + 4294967296 * k + d + 2147483648) with (z + d + 2147483648 + k * 4294967296) by lia.
  by rewrite Z_mod_plus_full.
Qed.

(** ** The invariant *)

Definition mapped (st : state) (l : positive) : Prop :=
  exists L, lists st !! l = Some L /\ timerListMap st !! msecs L = Some l.

(** [new] is a timer that is not scheduled yet. *)
Record structure (new : option positive) (R : lists_of) (st : state) : Prop := Structure {
  s_rings : rings (links st) R;
  s_dom : forall l, is_Some (R !! l) <-> is_Some (lists st !! l) \/ new = Some l;
  s_listed : forall t l, listed R t l -> mapped st l /\ is_Some (timeouts st !! t);
  s_map : forall m l, timerListMap st !! m = Some l ->
    exists L, lists st !! l = Some L /\ msecs L = m /\ 1 <= m <= TIMEOUT_MAX;
  s_queue : queue_ok (lists st) (timerListQueue st);
  s_contents : forall l, Some l ∈ contents (timerListQueue st) <-> mapped st l;
  s_ids : forall l L, lists st !! l = Some L -> id L < timerListId st;
  s_ids_inj : forall l1 l2 L1 L2, lists st !! l1 = Some L1 -> lists st !! l2 = Some L2 ->
    id L1 = id L2 -> l1 = l2;
  s_fresh : forall p, (nextObj st <= p)%positive -> timeouts st !! p = None /\ lists st !! p = None;
  s_disj : forall p, timeouts st !! p = None \/ lists st !! p = None;
  s_new : forall t, new = Some t -> is_Some (timeouts st !! t);
}.

(** [cur] is the timer whose callback is running. *)
Record timers_ok (cur : option positive) (R : lists_of) (st : state) : Prop := TimersOk {
  t_ok : forall t r, timeouts st !! t = Some r -> timer_ok r;
  t_listed : forall t l r L, listed R t l -> timeouts st !! t = Some r -> lists st !! l = Some L ->
    destroyed r = false /\ MathTrunc (idleTimeout r) = msecs L /\ is_Some (idleStart r);
  t_live : forall t r, timeouts st !! t = Some r -> destroyed r = false ->
    cur = Some t \/ exists l, listed R t l;
  t_count : timeoutInfo st = toInt32 (count (timeouts st));
}.

(** Without intervals, the timers of a list are in the order of their starts,
    and its expiry is no later than the time of any of them. *)
Definition no_intervals (st : state) : Prop :=
  forall t r, timeouts st !! t = Some r -> repeat_ r = None.

Definition start_at (st : state) (t : positive) : Z := default 0 (timeouts st !! t ≫= idleStart).

(** [T] is the present time. *)
Record punctual (T : Z) (R : lists_of) (st : state) : Prop := Punctual {
  p_sorted : forall l xs, R !! l = Some xs -> StronglySorted (fun a b => start_at st a <= start_at st b) xs;
  p_past : forall t l, listed R t l -> start_at st t <= T;
  p_expiry : forall t l L, listed R t l -> lists st !! l = Some L -> expiry L <= start_at st t + msecs L;
  p_lists : forall l L, lists st !! l = Some L -> expiry L <= T + msecs L;
}.

(** ** Frames *)

(** [st'] differs from [st] in what the structure does not look at. *)
Record same_structure (st st' : state) : Prop := SameStructure {
  ss_links : links st' = links st;
  ss_lists : lists st' = lists st;
  ss_map : timerListMap st' = timerListMap st;
  ss_queue : timerListQueue st' = timerListQueue st;
  ss_id : timerListId st' = timerListId st;
  ss_next : nextObj st' = nextObj st;
  ss_timeouts : forall p, is_Some (timeouts st' !! p) <-> is_Some (timeouts st !! p);
}.

Lemma structure_same new R st st' : same_structure st st' -> structure new R st -> structure new R st'.
Proof.
  intros [E1 E2 E3 E4 E5 E6 E7] [S1 S2 S3 S4 S5 S6 S7 S8 S9 S10 S11].
  assert (forall p, timeouts st' !! p = None <-> timeouts st !! p = None) as E8.
  { intros p. by rewrite !eq_None_not_Some, E7. }
  unfold mapped in *. constructor; unfold mapped; rewrite ?E1, ?E2, ?E3, ?E4, ?E5, ?E6; try done.
  - intros t l H. rewrite E7. by apply S3.
  - intros p H. rewrite E8. by apply S9.
  - intros p. rewrite E8. apply S10.
  - intros t H. rewrite E7. by apply S11.
Qed.

(** One timer changes, and it alone may change lists. *)
Lemma timers_ok_update cur cur' R R' st st' t r' :
  timers_ok cur R st ->
  timeouts st' = <[t := r']> (timeouts st) ->
  (forall l L, lists st !! l = Some L ->
     exists L', lists st' !! l = Some L' /\ msecs L' = msecs L) ->
  (forall p l, listed R p l -> is_Some (lists st !! l)) ->
  timeoutInfo st' = toInt32 (timeoutInfo st - weight (timeouts st !! t) + Z.b2z (counted r')) ->
  timer_ok r' ->
  (forall p l, p <> t -> listed R' p l <-> listed R p l) ->
  (forall l L, listed R' t l -> lists st' !! l = Some L ->
     destroyed r' = false /\ MathTrunc (idleTimeout r') = msecs L /\ is_Some (idleStart r')) ->
  (destroyed r' = false -> cur' = Some t \/ exists l, listed R' t l) ->
  (forall c, cur = Some c -> c <> t -> cur' = Some c) ->
  timers_ok cur' R' st'.
Proof.
  intros [T1 T2 T3 T4] Et El Hls Ei Hok HR Hnew Hlive Hcur. constructor; rewrite Et.
  - intros p r [[<- <-]|[Hne Hp]]%lookup_insert_Some; [done|by eapply T1].
  - intros p l r L Hl [[<- <-]|[Hne Hp]]%lookup_insert_Some HL; [by eapply Hnew|].
    apply HR in Hl; [|done]. destruct (Hls p l Hl) as [L0 HL0].
    destruct (El l L0 HL0) as (L' & E' & Em). replace L with L' by congruence. rewrite Em.
    by eapply T2.
  - intros p r [[<- <-]|[Hne Hp]]%lookup_insert_Some Hd; [by apply Hlive|].
    destruct (T3 p r Hp Hd) as [Hc|[l Hl]]; [left; by apply Hcur|right].
    exists l. by apply HR.
  - rewrite Ei, T4. unfold Z.sub. rewrite <- Z.add_assoc, toInt32_add, count_insert. f_equal. lia.
Qed.

Lemma info_keep cur R st x : timers_ok cur R st -> x = timeoutInfo st -> timeoutInfo st = toInt32 x.
Proof.
  intros HT ->. rewrite (t_count _ _ _ HT). rewrite <- (Z.add_0_r (toInt32 (count _))).
  by rewrite toInt32_add, !Z.add_0_r.
Qed.

(** Nothing about the timers changes. *)
Lemma timers_ok_same cur R R' st st' :
  timers_ok cur R st ->
  timeouts st' = timeouts st -> timeoutInfo st' = timeoutInfo st ->
  (forall l L', lists st' !! l = Some L' -> (exists p, listed R p l) ->
     exists L, lists st !! l = Some L /\ msecs L' = msecs L) ->
  (forall p l, listed R' p l <-> listed R p l) ->
  timers_ok cur R' st'.
Proof.
  intros [T1 T2 T3 T4] Et Ei El HR. constructor; rewrite ?Et, ?Ei; try done.
  - intros p l r L' Hl%HR Hp HL'. destruct (El l L' HL') as (L & HL & ->); [eauto|]. by eapply T2.
  - intros p r Hp Hd. setoid_rewrite HR. by eapply T3.
Qed.

Lemma StronglySorted_sublist {A} (P : A -> A -> Prop) xs ys :
  sublist xs ys -> StronglySorted P ys -> StronglySorted P xs.
Proof.
  induction 1 as [|x xs ys Hs IH|x xs ys Hs IH]; intros HS; [constructor| |].
  - apply StronglySorted_inv in HS as [H1 H2]. constructor; [auto|].
    rewrite Forall_forall in H2 |- *. intros y Hy. apply H2. by eapply elem_of_sublist.
  - apply StronglySorted_inv in HS as [H1 _]. auto.
Qed.

Lemma StronglySorted_ext {A} (P Q : A -> A -> Prop) xs :
  (forall a b, a ∈ xs -> b ∈ xs -> P a b -> Q a b) -> StronglySorted P xs -> StronglySorted Q xs.
Proof.
  induction xs as [|x xs IH]; intros H HS; [constructor|].
  apply StronglySorted_inv in HS as [H1 H2]. constructor.
  - apply IH; [|done]. intros a b Ha Hb. apply H; by right.
  - rewrite Forall_forall in H2 |- *. intros y Hy. apply H; [left|by right|by apply H2].
Qed.

Lemma StronglySorted_snoc {A} (P : A -> A -> Prop) xs x :
  StronglySorted P xs -> Forall (fun a => P a x) xs -> StronglySorted P (xs ++ [x]).
Proof.
  induction 1 as [|a xs Hs IH Ha]; intros HF; [repeat constructor|].
  apply Forall_cons in HF as [HP HF]. cbn. constructor; [by apply IH|].
  apply Forall_app. split; [done|]. by constructor.
Qed.

(** Timers leave their lists; lists come and go. *)
Lemma punctual_less T T' R R' st st' :
  punctual T R st -> T <= T' ->
  (forall l xs', R' !! l = Some xs' -> xs' = [] \/ exists xs, R !! l = Some xs /\ sublist xs' xs) ->
  (forall l L', lists st' !! l = Some L' -> (exists p, listed R' p l) \/ T' + msecs L' < expiry L' ->
     lists st !! l = Some L') ->
  (forall t l, listed R' t l -> start_at st' t = start_at st t) ->
  punctual T' R' st'.
Proof.
  intros [P1 P2 P3 P4] HT HR HL Hst.
  assert (forall t l, listed R' t l -> listed R t l) as Hsub.
  { intros t l (xs' & Hl & Hin). destruct (HR l xs' Hl) as [->|(xs & Hx & Hs)]; [by apply elem_of_nil in Hin|].
    exists xs. split; [done|]. by eapply elem_of_sublist. }
  constructor.
  - intros l xs' Hl. destruct (HR l xs' Hl) as [->|(xs & Hx & Hs)]; [constructor|].
    apply (StronglySorted_ext (fun a b => start_at st a <= start_at st b)).
    + intros a b Ha Hb. rewrite !(Hst _ l) by (by exists xs'). done.
    + eapply StronglySorted_sublist; [done|]. by apply (P1 l).
  - intros t l Ht. rewrite (Hst t l Ht). apply Hsub, P2 in Ht. lia.
  - intros t l L Ht HL'. rewrite (Hst t l Ht). apply (P3 t l); [auto|]. apply HL; [done|]. eauto.
  - intros l L HL'. destruct (decide (T' + msecs L < expiry L)) as [H|H]; [|lia].
    apply HL in HL'; [|by right]. apply P4 in HL'. lia.
Qed.

(** Timer [t] starts at [s] and goes to the end of a list. *)
Lemma punctual_append T T' R R' st st' t s m :
  punctual T R st -> T <= s <= T' ->
  (forall l xs', R' !! l = Some xs' -> exists xs, (R !! l = Some xs \/ xs = []) /\
     (xs' = others t xs \/ xs' = others t xs ++ [t])) ->
  (forall l L', lists st' !! l = Some L' -> lists st !! l = Some L' \/ expiry L' = s + m /\ msecs L' = m) ->
  (forall l, is_Some (R !! l) -> is_Some (lists st !! l)) ->
  (forall l L, lists st !! l = Some L -> lists st' !! l = Some L) ->
  start_at st' t = s -> (forall p, p <> t -> start_at st' p = start_at st p) ->
  punctual T' R' st'.
Proof.
  intros [P1 P2 P3 P4] HT HR HL Hdom HL0 Est Hst.
  assert (forall p l, listed R' p l -> p = t \/ p <> t /\ listed R p l) as Hsub.
  { intros p l (xs' & Hl & Hin). destruct (decide (p = t)) as [|Hne]; [by left|right]. split; [done|].
    destruct (HR l xs' Hl) as (xs & Hx & Hxs). exists xs.
    assert (p ∈ xs) as Hp.
    { destruct Hxs as [Hxs|Hxs]; rewrite Hxs, ?elem_of_app, ?elem_of_others, ?list_elem_of_singleton in Hin; tauto. }
    split; [|done]. destruct Hx as [|Hx]; [done|rewrite Hx in Hp; by apply elem_of_nil in Hp]. }
  constructor.
  - intros l xs' Hl. destruct (HR l xs' Hl) as (xs & Hx & Hxs).
    assert (StronglySorted (fun a b => start_at st' a <= start_at st' b) (others t xs)) as Hso.
    { apply (StronglySorted_ext (fun a b => start_at st a <= start_at st b)).
      - intros a b [Ha _]%elem_of_others [Hb _]%elem_of_others. by rewrite !Hst.
      - apply (StronglySorted_sublist _ _ xs); [apply sublist_filter|].
        destruct Hx as [Hx|Hx]; [by apply (P1 l)|rewrite Hx; constructor]. }
    destruct Hxs as [->|Hxs]; [done|]. rewrite Hxs. apply StronglySorted_snoc; [done|].
    apply Forall_forall. intros a [Ha Hin]%elem_of_others. rewrite Est, Hst by done.
    destruct Hx as [Hx|Hx]; [|rewrite Hx in Hin; by apply elem_of_nil in Hin].
    assert (start_at st a <= T) by (apply (P2 a l); by exists xs). lia.
  - intros p l [->|[Hne Hp]]%Hsub; [lia|]. rewrite Hst by done. apply P2 in Hp. lia.
  - intros p l L Hp HL'. apply Hsub in Hp as [->|[Hne Hp]].
    + rewrite Est. destruct (HL l L HL') as [H|[-> ->]]; [|lia]. apply P4 in H. lia.
    + rewrite Hst by done. apply (P3 p l); [done|]. destruct (Hdom l) as [L0 HL1]; [by destruct Hp as (? & ? & _)|].
      apply HL0 in HL1 as HL2. congruence.
  - intros l L HL'. destruct (HL l L HL') as [H|[-> ->]]; [apply P4 in H|]; lia.
Qed.

(** A list waits for its oldest timer. *)
Lemma punctual_postpone T R st st' l t xs L' :
  punctual T R st -> R !! l = Some (t :: xs) -> timeouts st' = timeouts st ->
  lists st' = <[l := L']> (lists st) ->
  expiry L' = start_at st t + msecs L' -> punctual T R st'.
Proof.
  intros [P1 P2 P3 P4] Hl Et El He.
  assert (forall p, start_at st' p = start_at st p) as Hst by (intros; unfold start_at; by rewrite Et).
  assert (listed R t l) as Ht by (exists (t :: xs); split; [done|left]). constructor.
  - intros l' ys Hys. apply (StronglySorted_ext (fun a b => start_at st a <= start_at st b)); [|by apply (P1 l')].
    intros a b _ _. by rewrite !Hst.
  - intros p l' Hp. rewrite Hst. by apply (P2 p l').
  - intros p l' L0 Hp. rewrite El, Hst. intros [[<- <-]|[_ HL0]]%lookup_insert_Some; [|by apply (P3 p l')].
    destruct Hp as (ys & Hys & Hin). replace ys with (t :: xs) in Hin by congruence.
    specialize (P1 l _ Hl). apply StronglySorted_inv in P1 as [_ HF]. rewrite Forall_forall in HF.
    apply elem_of_cons in Hin as [->|Hin]; [lia|]. specialize (HF p Hin). lia.
  - intros l' L0. rewrite El. intros [[<- <-]|[_ HL0]]%lookup_insert_Some; [|by apply (P4 l')].
    specialize (P2 t l Ht). lia.
Qed.

(** ** Lists gained and lost *)

Lemma structure_list new R st l :
  structure new R st -> mapped st l -> is_Some (R !! l).
Proof. intros HS (L & HL & _). apply (s_dom _ _ _ HS). eauto. Qed.

Lemma structure_timer new R st t :
  structure new R st -> is_Some (timeouts st !! t) -> lists st !! t = None.
Proof. intros HS [r Ht]. destruct (s_disj _ _ _ HS t) as [|]; congruence. Qed.

Lemma structure_item new R st t :
  structure new R st -> is_Some (timeouts st !! t) -> (new = None \/ new = Some t) ->
  R !! t = None \/ R !! t = Some [].
Proof.
  intros HS Ht Hnew. pose proof (structure_timer _ _ _ _ HS Ht) as Hl.
  destruct (R !! t) as [[|x xs]|] eqn:E; [by right| |by left].
  destruct (s_listed _ _ _ HS x t) as [(L & HL & _) _]; [exists (x :: xs); split; [done|left]|]. congruence.
Qed.

Lemma structure_attach new R st l t :
  structure new R st -> mapped st l -> is_Some (timeouts st !! t) -> (new = None \/ new = Some t) ->
  exists h, LinkedList.append l t (links st) = Ok h /\
    structure None (attach l t R) (set_links h st) /\
    forall p l', listed (attach l t R) p l' <-> (p = t /\ l' = l) \/ (p <> t /\ listed R p l').
Proof.
  intros HS Hl Ht Hnew. pose proof (structure_list _ _ _ _ HS Hl) as HRl.
  pose proof (structure_timer _ _ _ _ HS Ht) as Htl.
  assert (l <> t) as Hne by (destruct Hl as (L & HL & _); congruence).
  pose proof (structure_item _ _ _ _ HS Ht Hnew) as HRt.
  destruct (rings_attach (links st) R l t) as (h & E & HR'); [apply HS|done|done|done|].
  pose proof (fun p l' => listed_attach R t l p l' HRl Hne HRt) as HL'.
  exists h. split_and!; [done| |done].
  destruct HS as [S1 S2 S3 S4 S5 S6 S7 S8 S9 S10 S11]. constructor; cbn; try done.
  - intros l'. rewrite attach_dom by done. rewrite S2. split.
    + intros [Hn [?|E']]; [by left|]. destruct Hnew; congruence.
    + intros [[L HL]|?]; [|done]. split; [congruence|left; eauto].
  - intros p l' [[-> ->]|[_ H]]%HL'; [done|by apply S3].
Qed.

Lemma structure_detach R st t :
  structure None R st -> is_Some (timeouts st !! t) ->
  structure None (detach t R) (set_links (LinkedList.remove t (links st)) st).
Proof.
  intros HS Ht. pose proof (structure_timer _ _ _ _ HS Ht) as Htl.
  assert (R !! t = None) as HRt.
  { rewrite eq_None_not_Some, (s_dom _ _ _ HS). intros [[? ?]|?]; congruence. }
  destruct HS as [S1 S2 S3 S4 S5 S6 S7 S8 S9 S10 S11]. constructor; cbn; try done.
  - by apply rings_remove.
  - intros l. unfold detach. rewrite lookup_fmap, fmap_is_Some. apply S2.
  - intros p l [_ H]%listed_detach. by apply S3.
Qed.

(** There is room in the queue for one more duration. *)
Lemma queue_room new R st m :
  structure new R st -> timerListMap st !! m = None -> 1 <= m <= TIMEOUT_MAX ->
  PriorityQueue.size (timerListQueue st) + 1 < 2147483648.
Proof.
  intros HS Hm Hrange. pose proof (s_queue _ _ _ HS) as [W HN].
  pose proof (wf_size _ _ _ _ W) as Hsz. pose proof (wf_distinct _ _ _ _ W eq_refl) as HD.
  set (q := timerListQueue st) in *. set (f := fun x => msecs (list_of (lists st) x)).
  assert (forall x, x ∈ contents q -> exists l, x = Some l /\ timerListMap st !! f x = Some l) as Hf.
  { intros [l|] Hx; [|done]. apply (s_contents _ _ _ HS) in Hx as (L & HL & Hl).
    exists l. split; [done|]. unfold f, list_of. cbn. by rewrite HL. }
  assert (NoDup (m :: (f <$> contents q))) as HND.
  { constructor.
    - intros (x & Hx & Hin)%list_elem_of_fmap. destruct (Hf x Hin) as (l & _ & E). congruence.
    - apply NoDup_fmap_2_strong; [|done]. intros x y Hx Hy E.
      destruct (Hf x Hx) as (l & -> & E1), (Hf y Hy) as (l' & -> & E2). rewrite E in E1. congruence. }
  assert (m :: (f <$> contents q) ⊆+ seqZ 1 TIMEOUT_MAX) as Hsub.
  { apply NoDup_submseteq; [done|]. intros k Hk. apply elem_of_seqZ.
    apply elem_of_cons in Hk as [->|(x & -> & Hx)%list_elem_of_fmap]; [lia|].
    destruct (Hf x Hx) as (l & _ & E). destruct (s_map _ _ _ HS _ _ E) as (L & _ & _ & ?). lia. }
  apply submseteq_length in Hsub. cbn [length] in Hsub.
  rewrite length_fmap, length_seqZ, length_items in Hsub.
  unfold TIMEOUT_MAX in *. lia.
Qed.

(** A list that is nowhere yet. *)
Lemma structure_fresh new R st :
  structure new R st -> forall l xs, R !! l = Some xs -> nextObj st ∉ l :: xs.
Proof.
  intros HS l xs Hl. destruct (s_fresh _ _ _ HS (nextObj st)) as [F1 F2]; [lia|].
  intros [<-|Hin]%elem_of_cons.
  - destruct (s_dom _ _ _ HS (nextObj st)) as [[[? ?]|Hn] _]; [eauto|congruence|].
    destruct (s_new _ _ _ HS _ Hn). congruence.
  - destruct (s_listed _ _ _ HS (nextObj st) l) as [_ [? ?]]; [by exists xs|]. congruence.
Qed.

Lemma structure_new_list new R st m e l st' :
  structure new R st -> timerListMap st !! m = None -> 1 <= m <= TIMEOUT_MAX ->
  new_TimersList e m st = (l, st') ->
  structure new (<[l := []]> R) (queue_insert l (set_timerListMap (<[m := l]> (timerListMap st')) st')).
Proof.
  intros HS Hm Hr [= <- <-]. pose proof (queue_room _ _ _ _ HS Hm Hr) as Hroom.
  pose proof (structure_fresh _ _ _ HS) as Hout.
  destruct (s_fresh _ _ _ HS (nextObj st)) as [F1 F2]; [lia|].
  destruct HS as [S1 S2 S3 S4 S5 S6 S7 S8 S9 S10 S11]. unfold mapped in *.
  set (l := nextObj st) in *. set (L := TimersList e (timerListId st) m).
  assert (Some l ∉ contents (timerListQueue st)) as Hnq.
  { intros (L0 & HL0 & _)%S6. congruence. }
  destruct (queue_insert_ok (<[l := L]> (lists st)) (timerListQueue st) l) as [Q1 Q2]; [|done|done|].
  { eapply queue_ok_ext; [|exact S5]. intros l' Hl'. apply lookup_insert_ne. intros <-. done. }
  assert (forall l' L', <[l := L]> (lists st) !! l' = Some L' ->
            (l' = l /\ L' = L) \/ (l' <> l /\ lists st !! l' = Some L')) as Hls.
  { intros l' L' [[<- <-]|[? ?]]%lookup_insert_Some; [by left|by right]. }
  constructor; cbn; unfold mapped; cbn; fold l L; try done.
  - by apply rings_init.
  - intros l'. rewrite !lookup_insert_is_Some, S2. destruct (decide (l = l')); tauto.
  - intros t l' (xs & [[<- <-]|[Hne Hl']]%lookup_insert_Some & Hin); [by apply elem_of_nil in Hin|].
    destruct (S3 t l') as [(L' & HL' & Hm') Ht]; [by exists xs|]. split; [|done].
    exists L'. rewrite !lookup_insert_ne; [done|congruence|done].
  - intros m' l' [[<- <-]|[Hne Hl']]%lookup_insert_Some.
    + exists L. by rewrite lookup_insert_eq.
    + destruct (S4 m' l' Hl') as (L' & HL' & ?). exists L'. rewrite lookup_insert_ne; [done|]. congruence.
  - intros l'. rewrite Q2, elem_of_cons, S6. split.
    + intros [[= ->]|(L' & HL' & Hl')]; [exists L; by rewrite !lookup_insert_eq|].
      exists L'. rewrite !lookup_insert_ne by congruence. done.
    + intros (L' & [[-> ->]|[Hne HL']]%Hls & Hl'); [by left|right]. exists L'. split; [done|].
      apply lookup_insert_Some in Hl' as [[_ <-]|[_ ?]]; done.
  - intros l' L' [[-> ->]|[Hne HL']]%Hls; cbn; [lia|]. apply S7 in HL'. lia.
  - intros l1 l2 L1 L2 [[-> ->]|[Hne1 HL1]]%Hls [[-> ->]|[Hne2 HL2]]%Hls; cbn; [done| | |by apply S8].
    + apply S7 in HL2. lia.
    + apply S7 in HL1. lia.
  - intros p Hp. destruct (S9 p) as [? ?]; [lia|]. split; [done|]. rewrite lookup_insert_ne; [done|lia].
  - intros p. destruct (decide (p = l)) as [->|Hne]; [by left|]. rewrite lookup_insert_ne by done. apply S10.
Qed.

(** The queue and the map let go of a list without timers. *)
Lemma structure_unmap R st l L q' :
  structure None R st -> lists st !! l = Some L -> timerListMap st !! msecs L = Some l ->
  (forall t, ~ listed R t l) ->
  queue_ok (lists st) q' -> contents (timerListQueue st) ≡ₚ Some l :: contents q' ->
  structure None R (set_timerListQueue q' (set_timerListMap (delete (msecs L) (timerListMap st)) st)).
Proof.
  intros [S1 S2 S3 S4 S5 S6 S7 S8 S9 S10 S11] HL Hl Hempty Hq HP. unfold mapped in *.
  constructor; cbn; unfold mapped; cbn; try done.
  - intros t l' Hin. destruct (S3 t l' Hin) as [(L' & HL' & Hl') Ht]. split; [|done]. exists L'. split; [done|].
    apply lookup_delete_Some. split; [|done]. intros E. rewrite E in Hl.
    apply (Hempty t). by replace l with l' by congruence.
  - intros m l' [_ Hl']%lookup_delete_Some. by apply S4.
  - intros l'. destruct S5 as [W _]. pose proof (wf_distinct _ _ _ _ W eq_refl) as HD.
    rewrite HP in HD. apply NoDup_cons in HD as [Hnin _]. specialize (S6 l'). rewrite HP, elem_of_cons in S6.
    setoid_rewrite lookup_delete_Some. split.
    + intros Hin. destruct S6 as [(L' & HL' & Hl') _]; [by right|]. exists L'. split_and!; [done| |done].
      intros E. apply Hnin. rewrite E in Hl. by replace l with l' by congruence.
    + intros (L' & HL' & Hne & Hl'). destruct S6 as [_ [[= ->]|?]]; [by exists L'| |done]. congruence.
Qed.

(** The list at the root of the queue expires later. *)
Lemma structure_postpone R st l L start now :
  structure None R st -> lists st !! l = Some L -> queue_peek st = Some l ->
  structure None R (postpone l start (msecs L) now st).
Proof.
  intros [S1 S2 S3 S4 S5 S6 S7 S8 S9 S10 S11] HL Hp. unfold postpone, queue_peek in *.
  replace (list_of (lists st) (Some l)) with L by (unfold list_of; cbn; by rewrite HL).
  set (L' := TimersList _ _ _).
  destruct (queue_percolateDown_ok (lists st) (timerListQueue st) l L' S5 Hp) as [Q1 Q2].
  assert (forall l1 L1, <[l := L']> (lists st) !! l1 = Some L1 ->
    exists L2, lists st !! l1 = Some L2 /\ msecs L1 = msecs L2 /\
      (l1 = l /\ L1 = L' \/ l1 <> l /\ L1 = L2)) as Hls.
  { intros l1 L1 [[<- <-]|[Hne ?]]%lookup_insert_Some; [by exists L; auto|exists L1; auto]. }
  assert (forall l1 L1, lists st !! l1 = Some L1 ->
    exists L2, <[l := L']> (lists st) !! l1 = Some L2 /\ msecs L2 = msecs L1) as Hls'.
  { intros l1 L1 H1. destruct (decide (l1 = l)) as [->|Hne].
    - exists L'. rewrite lookup_insert_eq. replace L1 with L by congruence. done.
    - exists L1. by rewrite lookup_insert_ne. }
  assert (forall l1, (exists L1, <[l := L']> (lists st) !! l1 = Some L1 /\ timerListMap st !! msecs L1 = Some l1)
            <-> mapped st l1) as Hmap.
  { intros l1. split.
    - intros (L1 & (L2 & H2 & -> & _)%Hls & ?). by exists L2.
    - intros (L1 & (L2 & H2 & E)%Hls' & ?). exists L2. by rewrite E. }
  constructor; cbn; unfold mapped; cbn; fold L'; try setoid_rewrite Hmap; try done.
  - intros l1. rewrite S2, lookup_insert_is_Some. split; [|intros [[<-|[_ ?]]|?]; [left; eauto|by left|done]].
    intros [?|?]; [|done]. destruct (decide (l = l1)); auto.
  - intros m l1 Hl1. destruct (S4 m l1 Hl1) as (L1 & (L2 & H2 & E)%Hls' & ? & ?). exists L2. by rewrite E.
  - intros l1. rewrite Q2. apply S6.
  - intros l1 L1 (L2 & H2 & _ & [[-> ->]|[? ->]])%Hls; cbn; [lia|]. apply S7 in H2. lia.
  - intros l1 l2 L1 L2 (L3 & H3 & _ & C1)%Hls (L4 & H4 & _ & C2)%Hls E.
    apply S7 in H3 as B3. apply S7 in H4 as B4.
    destruct C1 as [[-> ->]|[? ->]], C2 as [[-> ->]|[? ->]]; cbn in E; [done|lia|lia|by eapply S8].
  - intros p Hp'. destruct (S9 p Hp') as [? H9]. split; [done|]. rewrite lookup_insert_ne; [done|congruence].
  - intros p. destruct (S10 p) as [|H10]; [by left|]. destruct (decide (p = l)) as [->|]; [congruence|].
    right. by rewrite lookup_insert_ne.
Qed.

(** A timer is in a list exactly when it has links. *)
Definition linked (st : state) (t : positive) : Prop :=
  ~ (LinkedList.next (links st) t = None /\ LinkedList.prev (links st) t = None).

Lemma linked_listed R st t :
  structure None R st -> is_Some (timeouts st !! t) -> linked st t <-> exists l, listed R t l.
Proof.
  intros HS Ht. pose proof (structure_timer _ _ _ _ HS Ht) as Htl.
  assert (R !! t = None) as HRt.
  { rewrite eq_None_not_Some, (s_dom _ _ _ HS). intros [[? ?]|?]; congruence. }
  unfold linked. rewrite (rings_unlinked _ _ _ (s_rings _ _ _ HS) HRt). split.
  - intros H. destruct (in_or_out R t) as [(l & xs & Hl & Hin)|Hout].
    + apply elem_of_cons in Hin as [->|Hin]; [congruence|]. by exists l, xs.
    + destruct H. intros l xs Hl Hin. apply (Hout l xs Hl). by right.
  - intros (l & xs & Hl & Hin) H. by apply (H l xs).
Qed.
