(* ===== verification/TimersOps.v ===== *)
(** * The timers API keeps the invariant

    Every operation a program can call keeps [Inv], and changes the state only
    as [evolves] allows: lists that exist keep their expiry, a list or a timer
    that is scheduled is scheduled for a time after the present reading of the
    clock, and a cancelled timer stays cancelled. *)

From Stdlib Require Import QArith.
From S2P Require Import Prelude JsNumber LinkedList Rings PriorityQueue PriorityQueueFacts Timers TimerQueue TimersInv.
#[local] Open Scope Z_scope.
Import Timers.

(** The timers fired, oldest first. *)
Definition fired (st : state) : list positive :=
  omap (fun e => match e with EvFire t => Some t | _ => None end) (trace st).

(** A timer is due when it is scheduled and its time has come. *)
Definition due_at (now : Z) (r : timeout) : Prop :=
  exists s, idleStart r = Some s /\ s + MathTrunc (idleTimeout r) <= now.
Definition due (now : Z) (st : state) (t : positive) : Prop :=
  linked st t /\ exists r, timeouts st !! t = Some r /\ due_at now r.

(** A timer that [clearTimeout] was called on has no callback. *)
Definition is_cleared (r : timeout) : Prop := onTimeout r = None.
Definition cleared (st : state) (t : positive) : Prop :=
  exists r, timeouts st !! t = Some r /\ is_cleared r.

(** The next wake-up is no later than the expiry of any list. *)
Definition armed (st : state) : Prop :=
  forall l L, mapped st l -> lists st !! l = Some L ->
    exists n, nextExpiry st = Some n /\ n <= expiry L.

Lemma fired_log e st :
  fired (log e st) = fired st ++ match e with EvFire t => [t] | _ => [] end.
Proof. unfold fired, log. cbn. rewrite omap_app. by destruct e. Qed.

Section Ops.
Context (clock : nat -> Z) (initHooks : bool).
Context (clock_mono : forall i j, (i <= j)%nat -> clock i <= clock j).
(** A time that is past. *)
Context (now : Z).

Definition time (st : state) : Z := clock (clockReads st).

(** The invariant; [cur] is the timer whose callback is running. *)
Definition Inv (cur : option positive) (st : state) : Prop :=
  exists R, structure None R st /\ timers_ok cur R st /\ (no_intervals st -> punctual (time st) R st).

Lemma time_mono st st' : (clockReads st <= clockReads st')%nat -> time st <= time st'.
Proof. apply clock_mono. Qed.

Lemma start_at_same st st' t : timeouts st' = timeouts st -> start_at st' t = start_at st t.
Proof. unfold start_at. by intros ->. Qed.

Lemma start_at_insert st st' t r' p :
  timeouts st' = <[t := r']> (timeouts st) ->
  start_at st' p = if decide (p = t) then default 0 (idleStart r') else start_at st p.
Proof.
  unfold start_at. intros ->. case_decide as Hd; [subst; by rewrite lookup_insert_eq|].
  by rewrite lookup_insert_ne.
Qed.

Lemma no_intervals_insert st st' t r' :
  timeouts st' = <[t := r']> (timeouts st) ->
  (forall r, timeouts st !! t = Some r -> repeat_ r' = repeat_ r) -> no_intervals st' -> no_intervals st.
Proof.
  intros Et Hr Hn p r Hp. destruct (decide (t = p)) as [<-|Hne].
  - rewrite <- (Hr r Hp). apply (Hn t). by rewrite Et, lookup_insert_eq.
  - apply (Hn p). by rewrite Et, lookup_insert_ne.
Qed.

Lemma Inv_same cur st st' :
  same_structure st st' -> timeouts st' = timeouts st -> timeoutInfo st' = timeoutInfo st ->
  (clockReads st <= clockReads st')%nat -> Inv cur st -> Inv cur st'.
Proof.
  intros Hs Et Ei Hr (R & HS & HT & HP). exists R. pose proof (ss_lists _ _ Hs) as El. split_and!.
  - by eapply structure_same.
  - eapply timers_ok_same; [done|done|done| |done]. intros l L' HL' _. exists L'. by rewrite <- El.
  - unfold no_intervals. rewrite Et. intros Hn. eapply punctual_less; [by apply HP|by apply time_mono|..].
    + intros l xs' Hl. right. by exists xs'.
    + by rewrite El.
    + intros. by apply start_at_same.
Qed.

Record evolves (fs : list positive) (st st' : state) : Prop := Evolves {
  ev_reads : (clockReads st <= clockReads st')%nat;
  ev_timeouts : forall t, is_Some (timeouts st !! t) -> is_Some (timeouts st' !! t);
  ev_lists : forall l L, lists st !! l = Some L -> lists st' !! l = Some L;
  ev_mapped : forall l, mapped st' l -> mapped st l \/
    lists st !! l = None /\ exists L, lists st' !! l = Some L /\ now < expiry L;
  ev_due : forall t, due now st' t -> due now st t;
  ev_cleared : forall t, cleared st t -> cleared st' t;
  ev_armed : armed st -> armed st';
  ev_fired : fired st' = fired st ++ fs;
}.

Lemma evolves_time fs st st' : evolves fs st st' -> time st <= time st'.
Proof. intros H. apply clock_mono, H. Qed.

Lemma evolves_refl st : evolves [] st st.
Proof. constructor; auto. by rewrite app_nil_r. Qed.

Lemma evolves_trans fs1 fs2 st1 st2 st3 :
  evolves fs1 st1 st2 -> evolves fs2 st2 st3 -> evolves (fs1 ++ fs2) st1 st3.
Proof.
  intros H1 H2. destruct H1 as [A1 A2 A3 A4 A5 A6 A7 A8], H2 as [B1 B2 B3 B4 B5 B6 B7 B8].
  constructor; auto; [lia| |by rewrite B8, A8, app_assoc].
  intros l Hl. destruct (B4 l Hl) as [Hl'|(Hn & L & HL & He)].
  - destruct (A4 l Hl') as [?|(Hn & L & HL & He)]; [by left|right]. split; [done|]. eauto.
  - right. split; [|by exists L].
    destruct (lists st1 !! l) as [L1|] eqn:E; [|done]. apply A3 in E. congruence.
Qed.

(** A change of one timer. *)
Lemma evolves_timer st st' t r' :
  timeouts st' = <[t := r']> (timeouts st) ->
  lists st' = lists st -> timerListMap st' = timerListMap st -> nextExpiry st' = nextExpiry st ->
  fired st' = fired st -> (clockReads st <= clockReads st')%nat ->
  (forall p, is_Some (timeouts st !! p) -> linked st' p -> linked st p) ->
  is_Some (timeouts st !! t) ->
  (linked st' t -> due_at now r' -> due now st t) ->
  (cleared st t -> is_cleared r') ->
  evolves [] st st'.
Proof.
  intros Et El Em En Ef Hr Hk Ht Hd Hc. constructor; unfold mapped, armed, due, cleared, mapped in *;
    rewrite ?Et, ?El, ?Em, ?En, ?app_nil_r; auto.
  - intros p [r Hp]. rewrite lookup_insert_is_Some. destruct (decide (t = p)); eauto.
  - intros p (Hl & r & [[<- <-]|[Hne Hp]]%lookup_insert_Some & H); [by apply Hd|].
    split; [apply Hk; eauto|eauto].
  - intros p (r & Hp & H). destruct (decide (t = p)) as [<-|Hne].
    + exists r'. rewrite lookup_insert_eq. split; [done|]. apply Hc. eauto.
    + exists r. by rewrite lookup_insert_ne.
Qed.

(** No timer changes. *)
Lemma evolves_same st st' :
  timeouts st' = timeouts st ->
  lists st' = lists st -> timerListMap st' = timerListMap st -> nextExpiry st' = nextExpiry st ->
  fired st' = fired st -> (clockReads st <= clockReads st')%nat ->
  (forall p, is_Some (timeouts st !! p) -> linked st' p -> linked st p) ->
  evolves [] st st'.
Proof.
  intros Et El Em En Ef Hr Hk. constructor; unfold mapped, armed, due, cleared, mapped in *;
    rewrite ?Et, ?El, ?Em, ?En, ?app_nil_r; auto.
  intros p (Hl & r & Hp & Hd). split; [apply Hk; eauto|eauto].
Qed.

(** ** Finding or creating a list *)

Record found (new : option positive) (R : lists_of) (st : state) (m s : Z)
    (l : positive) (R' : lists_of) (st' : state) : Prop := Found {
  f_structure : structure new R' st';
  f_list : exists L, lists st' !! l = Some L /\ msecs L = m /\ timerListMap st' !! m = Some l;
  f_listed : forall p l', listed R' p l' <-> listed R p l';
  f_R : forall l' xs', R' !! l' = Some xs' -> R !! l' = Some xs' \/ xs' = [];
  f_new : forall l' L', lists st' !! l' = Some L' ->
    lists st !! l' = Some L' \/ expiry L' = s + m /\ msecs L' = m;
  f_lists : forall l L, lists st !! l = Some L -> lists st' !! l = Some L;
  f_mapped : forall l', mapped st' l' -> mapped st l' \/
    lists st !! l' = None /\ exists L, lists st' !! l' = Some L /\ expiry L = s + m;
  f_timeouts : timeouts st' = timeouts st;
  f_info : timeoutInfo st' = timeoutInfo st;
  f_reads : clockReads st' = clockReads st;
  f_fired : fired st' = fired st;
  f_armed : armed st -> armed st';
}.

(** A new list is announced when it expires before all the others. *)
Lemma next_wakeup next e :
  exists n, (if expires_before next e then next else Some e) = Some n /\ n <= e /\
    forall n0, next = Some n0 -> n <= n0.
Proof.
  unfold expires_before. destruct next as [n|]; [|by exists e].
  destruct (n <=? e) eqn:E; bool_hyps; [exists n|exists e]; (split_and!; [done|lia|]);
    intros n0 [= <-]; lia.
Qed.

Lemma find_list_spec new R st m s l st' :
  structure new R st -> 1 <= m <= TIMEOUT_MAX -> find_list m s st = (l, st') ->
  exists R', found new R st m s l R' st'.
Proof.
  intros HS Hm. unfold find_list. destruct (timerListMap st !! m) as [l0|] eqn:El.
  { intros [= -> ->]. exists R. destruct (s_map _ _ _ HS _ _ El) as (L & HL & HLm & _).
    constructor; auto. eauto. }
  destruct (new_TimersList (s + m) m st) as [l1 st1] eqn:En.
  pose proof (structure_new_list _ _ _ _ _ _ _ HS El Hm En) as HS1. injection En as <- <-.
  destruct (s_fresh _ _ _ HS (nextObj st)) as [_ Hfresh]; [lia|].
  set (l1 := nextObj st) in *. set (L1 := TimersList (s + m) (timerListId st) m).
  set (st1 := queue_insert _ _) in *.
  set (st2 := if expires_before (nextExpiry st1) (s + m) then st1 else _).
  assert (same_structure st1 st2) as Hsame by (unfold st2; by destruct (expires_before _ _)).
  assert (timeouts st2 = timeouts st /\ timeoutInfo st2 = timeoutInfo st /\ clockReads st2 = clockReads st
    /\ lists st2 = <[l1 := L1]> (lists st) /\ timerListMap st2 = <[m := l1]> (timerListMap st) /\
    fired st2 = fired st /\ nextExpiry st2 =
      (if expires_before (nextExpiry st) (s + m) then nextExpiry st else Some (s + m)))
    as (E1 & E2 & E3 & E4 & E5 & E6 & E7).
  { unfold st2. change (nextExpiry st1) with (nextExpiry st).
    destruct (expires_before _ _); [done|]. split_and!; try done.
    change (fired (log (EvSchedule m) st1) = fired st). rewrite fired_log. by rewrite app_nil_r. }
  assert (forall l', mapped st2 l' -> l' = l1 \/ l' <> l1 /\ mapped st l') as Hmap.
  { intros l' (L' & HL' & Hl'). rewrite E4 in HL'. rewrite E5 in Hl'.
    apply lookup_insert_Some in HL' as [[<- <-]|[Hne HL']]; [by left|right]. split; [done|]. exists L'. split; [done|].
    apply lookup_insert_Some in Hl' as [[_ ?]|[_ ?]]; [by destruct Hne|done]. }
  intros [= <- <-]. exists (<[l1 := []]> R). constructor; auto.
  - by eapply structure_same.
  - exists L1. by rewrite E4, E5, !lookup_insert_eq.
  - intros p l'. unfold listed. split.
    + intros (xs & [[<- <-]|[Hne Hx]]%lookup_insert_Some & Hin); [by apply elem_of_nil in Hin|eauto].
    + intros (xs & Hx & Hin). exists xs. rewrite lookup_insert_ne; [done|]. intros <-.
      destruct (structure_fresh _ _ _ HS _ _ Hx). left.
  - intros l' xs' [[<- <-]|[_ ?]]%lookup_insert_Some; [by right|by left].
  - rewrite E4. intros l' L' [[<- <-]|[_ ?]]%lookup_insert_Some; [by right|by left].
  - intros l' L' HL'. rewrite E4, lookup_insert_ne; [done|]. congruence.
  - intros l' [->|[Hne ?]]%Hmap; [right|by left]. split; [done|]. exists L1. by rewrite E4, lookup_insert_eq.
  - intros Harm l' L' Hl' HL'. rewrite E4 in HL'. rewrite E7.
    destruct (next_wakeup (nextExpiry st) (s + m)) as (n & -> & Hn & Hn'). exists n. split; [done|].
    apply lookup_insert_Some in HL' as [[<- <-]|[Hne HL']]; [done|].
    destruct (Hmap l' Hl') as [?|[_ Hl'']]; [done|].
    destruct (Harm l' L' Hl'' HL') as (n0 & E0 & Hle). specialize (Hn' n0 E0). lia.
Qed.
(** ** Scheduling *)

Definition start_of (start : option Z) (st : state) : Z := default (time st) start.

(** What [insert] does: timer [t] is the newest of the list of duration [m]. *)
Record inserted (R : lists_of) (st : state) (t : positive) (m s : Z)
    (R' : lists_of) (st' : state) : Prop := Inserted {
  i_structure : structure None R' st';
  i_list : exists l L, lists st' !! l = Some L /\ msecs L = m /\
    forall p l', listed R' p l' <-> (p = t /\ l' = l) \/ (p <> t /\ listed R p l');
  i_R : forall l' xs', R' !! l' = Some xs' -> exists xs, (R !! l' = Some xs \/ xs = []) /\
    (xs' = others t xs \/ xs' = others t xs ++ [t]);
  i_new : forall l' L', lists st' !! l' = Some L' ->
    lists st !! l' = Some L' \/ expiry L' = s + m /\ msecs L' = m;
  i_lists : forall l L, lists st !! l = Some L -> lists st' !! l = Some L;
  i_mapped : forall l', mapped st' l' -> mapped st l' \/
    lists st !! l' = None /\ exists L, lists st' !! l' = Some L /\ expiry L = s + m;
  i_reads : (clockReads st <= clockReads st')%nat;
  i_fired : fired st' = fired st;
  i_armed : armed st -> armed st';
}.

Lemma alter_is_Some (m : gmap positive timeout) f t p :
  is_Some (alter f t m !! p) <-> is_Some (m !! p).
Proof. apply lookup_alter_is_Some. Qed.

Lemma insert_timer_spec new R st t msq start :
  structure new R st -> (new = None \/ new = Some t) -> is_Some (timeouts st !! t) ->
  1 <= MathTrunc msq <= TIMEOUT_MAX ->
  exists R' st', insert clock t msq start st = (st', Ok tt) /\
    inserted R st t (MathTrunc msq) (start_of start st) R' st' /\
    timeouts st' = alter (with_idleStart (start_of start st)) t (timeouts st) /\
    timeoutInfo st' = timeoutInfo st.
Proof.
  intros HS Hnew Ht Hm. unfold insert.
  assert (exists st0, (match start with Some s => (s, st) | None => getLibuvNow clock st end)
            = (start_of start st, st0) /\ same_structure st st0 /\ timeouts st0 = timeouts st /\
            timeoutInfo st0 = timeoutInfo st /\ (clockReads st <= clockReads st0)%nat /\
            nextExpiry st0 = nextExpiry st /\ trace st0 = trace st)
    as (st0 & -> & Hs0 & E1 & E2 & E3 & E4 & E5).
  { unfold getLibuvNow. destruct start as [s|]; eexists; (split; [reflexivity|]); split_and!; try done; cbn; lia. }
  set (s := start_of start st). cbv zeta. set (st1 := upd t (with_idleStart s) st0).
  assert (same_structure st st1) as Hs1.
  { destruct Hs0. constructor; try done. intros p. unfold st1, upd. cbn. by rewrite alter_is_Some, E1. }
  pose proof (structure_same _ _ _ _ Hs1 HS) as HS1.
  destruct (find_list (MathTrunc msq) s st1) as [l st2] eqn:Ef.
  destruct (find_list_spec _ _ _ _ _ _ _ HS1 Hm Ef) as (R2 & [F1 (L & HL & HLm & Hl) F3 FR FN F4 F5 F6 F7 F8 F9 F10]).
  destruct (structure_attach _ _ _ l t F1) as (h & Ea & HS3 & HL3).
  { exists L. by rewrite HLm. }
  { rewrite F6. unfold st1, upd. cbn. by rewrite alter_is_Some, E1. }
  { done. }
  rewrite Ea. exists (attach l t R2), (set_links h st2). split; [done|].
  pose proof (ss_lists _ _ Hs1) as Els. pose proof (ss_map _ _ Hs1) as Ems.
  split; [constructor; cbn; auto|split].
  - exists l, L. split; [done|split; [done|]]. intros p l'. rewrite HL3, F3. done.
  - intros l' xs' Hl'. unfold attach in Hl'. apply lookup_insert_Some in Hl' as [[<- <-]|[Hne Hl']].
    + exists (default [] (R2 !! l)). split; [|by right]. destruct (R2 !! l) as [ys|] eqn:El; [|by right].
      by apply (FR l).
    + apply detach_lookup in Hl' as (ys & [_ Hl']%lookup_delete_Some & ->). exists ys. split; [by apply FR|by left].
  - intros l' L'. rewrite <- Els. apply FN.
  - intros l' L'. rewrite <- Els. apply F4.
  - intros l' Hl'. destruct (F5 l' Hl') as [(L' & ? & ?)|?]; [left; exists L'|right; by rewrite <- Els].
    by rewrite <- Els, <- Ems.
  - rewrite F8. done.
  - change (fired st2 = fired st). rewrite F9. unfold fired. cbn. by rewrite E5.
  - intros Harm. apply F10. intros l' L' (L0 & HL0 & Hl0) HL'. rewrite Els in HL0, HL'. rewrite Ems in Hl0.
    change (nextExpiry st1) with (nextExpiry st0). rewrite E4. apply (Harm l' L'); [by exists L0|done].
  - cbn. rewrite F6. unfold st1, upd. cbn. by rewrite E1.
  - cbn. by rewrite F7.
Qed.

(** A timer that is scheduled, its record and the count brought up to date. *)
Lemma inserted_Inv cur cur' R st t m s R' st1 st' r' :
  structure None R st -> timers_ok cur R st -> (no_intervals st -> punctual (time st) R st) ->
  inserted R st t m s R' st1 -> same_structure st1 st' -> timeouts st' = <[t := r']> (timeouts st) ->
  timeoutInfo st' = toInt32 (timeoutInfo st - weight (timeouts st !! t) + Z.b2z (counted r')) ->
  timer_ok r' -> destroyed r' = false -> MathTrunc (idleTimeout r') = m -> idleStart r' = Some s ->
  (forall c, cur = Some c -> c <> t -> cur' = Some c) ->
  (no_intervals st' -> no_intervals st /\ time st <= s <= time st') ->
  Inv cur' st'.
Proof.
  intros HS HT HP [I1 (l & L & HL & Hm & HR) IR IN I3 I4 I7 I8 I9] Hs Et Ei Hok Hd Hm' Hst Hc Hni.
  exists R'. split; [by eapply structure_same|]. pose proof (ss_lists _ _ Hs) as Els. split.
  2: { intros [Hn Htime]%Hni. eapply (punctual_append _ _ R R' st st' t s m); [by apply HP|done|done|by rewrite Els|..].
       - intros l0 Hl0. by apply (s_dom _ _ _ HS) in Hl0 as [?|?].
       - by rewrite Els.
       - rewrite (start_at_insert st st' t r') by done. by rewrite decide_True, Hst.
       - intros p Hp. rewrite (start_at_insert st st' t r') by done. by rewrite decide_False. }
  eapply (timers_ok_update cur cur' R R' st st' t r'); try done.
  - intros l0 L0 HL0. exists L0. rewrite Els. split; [by apply I3|done].
  - intros p l0 Hp. destruct (s_listed _ _ _ HS p l0 Hp) as [(L0 & ? & _) _]. eauto.
  - intros p l0 Hne. rewrite HR. naive_solver.
  - intros l0 L0 [[_ ->]|[? _]]%HR HL0; [|done]. rewrite Els in HL0. split_and!; [done| |by rewrite Hst].
    congruence.
  - intros _. right. exists l. apply HR. by left.
Qed.

Lemma inserted_evolves R st t m s R' st1 st' r' :
  structure None R st -> inserted R st t m s R' st1 -> same_structure st1 st' ->
  timeouts st' = <[t := r']> (timeouts st) -> nextExpiry st' = nextExpiry st1 ->
  fired st' = fired st1 -> clockReads st' = clockReads st1 ->
  now <= s -> 1 <= m -> MathTrunc (idleTimeout r') = m -> idleStart r' = Some s ->
  (forall r, timeouts st !! t = Some r -> onTimeout r' = onTimeout r) ->
  evolves [] st st'.
Proof.
  intros HS [I1 (l0 & L0 & _ & _ & HR) _ _ I3 I4 I7 I8 I9] Hs Et En Ef Er Hts Hm1 Hm Hst Hnc.
  pose proof (ss_lists _ _ Hs) as Els. pose proof (ss_map _ _ Hs) as Ems.
  assert (forall l, mapped st' l <-> mapped st1 l) as Hmap by (intros; unfold mapped; by rewrite Els, Ems).
  constructor.
  - rewrite Er. done.
  - intros p Hp. rewrite Et, lookup_insert_is_Some. destruct (decide (t = p)); auto.
  - rewrite Els. done.
  - intros l [?|(Hn & L & HL & He)]%Hmap%I4; [by left|right]. split; [done|].
    exists L. rewrite Els. split; [done|]. lia.
  - intros p (Hl & r & Hp & s0 & Es & Hle).
    rewrite (linked_listed R') in Hl; [|by eapply structure_same|eauto]. rewrite Et in Hp.
    apply lookup_insert_Some in Hp as [[<- <-]|[Hne Hp]].
    { rewrite Hst in Es. injection Es as <-. lia. }
    split; [|exists r; split; [done|by exists s0]]. apply (linked_listed R st p); [done|eauto|].
    destruct Hl as [l [[? _]|[_ Hl]]%HR]; [done|eauto].
  - intros p (r & Hp & Ho). unfold cleared. rewrite Et. destruct (decide (t = p)) as [<-|Hne].
    + exists r'. rewrite lookup_insert_eq. split; [done|]. unfold is_cleared. by rewrite (Hnc r Hp).
    + exists r. by rewrite lookup_insert_ne.
  - intros Harm l L Hl HL. rewrite En. rewrite Els in HL. apply (I9 Harm l L); [by apply Hmap|done].
  - rewrite Ef, I8. by rewrite app_nil_r.
Qed.

(** The same, seen from the state before the timer was created. *)
Lemma inserted_from R R0 st0 st t m s R' st' :
  inserted R st t m s R' st' -> lists st = lists st0 -> timerListMap st = timerListMap st0 ->
  nextExpiry st = nextExpiry st0 -> fired st = fired st0 -> clockReads st = clockReads st0 ->
  (forall p l, listed R p l <-> listed R0 p l) ->
  (forall l xs, R !! l = Some xs -> R0 !! l = Some xs \/ xs = []) ->
  inserted R0 st0 t m s R' st'.
Proof.
  intros [I1 (l & L & HL & Hm & HR) IR IN I3 I4 I7 I8 I9] El Em En Ef Er HR0 HR1. unfold mapped, armed, mapped in *.
  rewrite El, Em, En, Ef, Er in *.
  constructor; try done.
  2: { intros l' xs' (xs & [Hx|Hx] & Hxs)%IR; exists xs; split; auto. }
  exists l, L. split_and!; [done|done|]. intros p l'. by rewrite HR, HR0.
Qed.

(** A timer that is scheduled, or that was cancelled. *)
Definition alive_or_cancelled (r : timeout) : Prop := destroyed r = false \/ idleTimeout r = (-1)%Q.

(** A step of a program: intervals stay intervals, and timers are destroyed by
    cancelling them only. *)
Record keeps (cur : option positive) (st st' : state) : Prop := Keeps {
  k_inv : Inv cur st';
  k_evolves : evolves [] st st';
  k_alive : forall t r, timeouts st !! t = Some r ->
    exists r', timeouts st' !! t = Some r' /\ repeat_ r' = repeat_ r /\
      (alive_or_cancelled r -> alive_or_cancelled r');
}.

Definition ready (cur : option positive) (st : state) : Prop := Inv cur st /\ now <= time st.

Lemma keeps_ready cur st st' : ready cur st -> keeps cur st st' -> ready cur st'.
Proof. intros [_ H] [HI HE _]. split; [done|]. apply evolves_time in HE. lia. Qed.

Lemma keeps_trans cur st1 st2 st3 : keeps cur st1 st2 -> keeps cur st2 st3 -> keeps cur st1 st3.
Proof.
  intros [_ E1 A1] [I2 E2 A2]. split; [done|by apply (evolves_trans [] [] _ _ _ E1)|].
  intros t r Ht. destruct (A1 t r Ht) as (r1 & Ht1 & E1' & H1).
  destruct (A2 t r1 Ht1) as (r2 & Ht2 & E2' & H2). exists r2. split_and!; [done|congruence|auto].
Qed.

Lemma keeps_refl cur st : Inv cur st -> keeps cur st st.
Proof. split; [done|apply evolves_refl|eauto]. Qed.

(** Only timer [t] changes. *)
Lemma keeps_timer cur st st' t r' :
  Inv cur st' -> evolves [] st st' -> timeouts st' = <[t := r']> (timeouts st) ->
  (forall r, timeouts st !! t = Some r ->
     repeat_ r' = repeat_ r /\ (alive_or_cancelled r -> alive_or_cancelled r')) ->
  keeps cur st st'.
Proof.
  intros HI HE Et Ha. split; [done|done|]. intros p r Hp. rewrite Et.
  destruct (decide (t = p)) as [<-|Hne].
  - exists r'. rewrite lookup_insert_eq. split; [done|]. by apply (Ha r).
  - exists r. by rewrite lookup_insert_ne.
Qed.

(** ** Steps that touch no timer *)

Record quiet (st st' : state) : Prop := Quiet {
  q_structure : same_structure st st';
  q_timeouts : timeouts st' = timeouts st;
  q_info : timeoutInfo st' = timeoutInfo st;
  q_next : nextExpiry st' = nextExpiry st;
  q_reads : clockReads st' = clockReads st;
  q_fired : fired st' = fired st;
}.

Lemma quiet_refl st : quiet st st.
Proof. done. Qed.

Lemma quiet_log e st : (forall t, e <> EvFire t) -> quiet st (log e st).
Proof.
  intros He. constructor; try done. rewrite fired_log. destruct e; try apply app_nil_r. by destruct (He t).
Qed.

Lemma quiet_trans st1 st2 st3 : quiet st1 st2 -> quiet st2 st3 -> quiet st1 st3.
Proof.
  intros [[A1 A2 A3 A4 A5 A6 A7] B1 C1 D1 E1 F1] [[A1' A2' A3' A4' A5' A6' A7'] B2 C2 D2 E2 F2].
  constructor; [constructor|..]; try congruence. intros p. by rewrite A7', A7.
Qed.

Lemma quiet_Inv cur st st' : quiet st st' -> Inv cur st -> Inv cur st'.
Proof. intros [H1 H2 H3 _ H5 _]. apply Inv_same; try done. lia. Qed.

Lemma quiet_evolves st st' : quiet st st' -> evolves [] st st'.
Proof.
  intros [[E1 ? ? ? ? ? ?] ? ? ? ? ?]. apply evolves_same; try done; [lia|]. unfold linked. by rewrite E1.
Qed.

Lemma quiet_keeps cur st st' : Inv cur st -> quiet st st' -> keeps cur st st'.
Proof.
  intros HI Hq. split; [by eapply quiet_Inv|by apply quiet_evolves|]. rewrite (q_timeouts _ _ Hq). eauto.
Qed.

Lemma keeps_quiet cur st1 st2 st3 : keeps cur st1 st2 -> quiet st2 st3 -> keeps cur st1 st3.
Proof. intros H Hq. eapply keeps_trans; [done|]. apply quiet_keeps; [apply H|done]. Qed.

Lemma checked_after_spec after st q st' :
  checked_after after st = (q, st') -> duration q /\ quiet st st'.
Proof.
  unfold checked_after. destruct (in_range (default (Fin 1) after)) eqn:E.
  - intros [= <- <-]. split; [|done]. destruct (default (Fin 1) after) as [| | |q0]; done.
  - intros [= <- <-]. split; [done|]. unfold warn_after.
    repeat case_match; try done; try (by apply quiet_log);
      (eapply quiet_trans; [|by apply quiet_log]; done).
Qed.

(** A record put in place of that of timer [t], and the count. *)
Definition put (t : positive) (r : timeout) (info : Z) (st : state) : state :=
  set_timeoutInfo info (set_timeouts (<[t := r]> (timeouts st)) st).

Lemma incRefCount_quiet st : quiet (set_timeoutInfo (toInt32 (timeoutInfo st + 1)) st) (incRefCount st).
Proof. unfold incRefCount. case_match; [by apply quiet_log|done]. Qed.

Lemma decRefCount_quiet st : quiet (set_timeoutInfo (toInt32 (timeoutInfo st - 1)) st) (decRefCount st).
Proof. unfold decRefCount. case_match; [by apply quiet_log|done]. Qed.

Lemma initAsyncResource_quiet t st :
  quiet (upd t (with_asyncId (asyncIdCounter st + 1)) st) (initAsyncResource initHooks t st).
Proof.
  unfold initAsyncResource. cbv zeta. case_match; [|done].
  eapply quiet_trans; [|by apply quiet_log]. done.
Qed.

Lemma quiet_upd t f st st' : quiet st st' -> quiet (upd t f st) (upd t f st').
Proof.
  intros [[A1 A2 A3 A4 A5 A6 A7] B C D E F]. constructor; [constructor|..]; cbn; try done; [|by rewrite B].
  intros p. by rewrite !alter_is_Some, A7.
Qed.

Lemma quiet_set_info v st st' : quiet st st' -> quiet (set_timeoutInfo v st) (set_timeoutInfo v st').
Proof. intros [[A1 A2 A3 A4 A5 A6 A7] B C D E F]. constructor; [constructor|..]; cbn; done. Qed.

Lemma incRefCount_cong st st' :
  quiet st st' -> quiet (set_timeoutInfo (toInt32 (timeoutInfo st + 1)) st) (incRefCount st').
Proof.
  intros H. eapply quiet_trans; [|apply incRefCount_quiet].
  rewrite (q_info _ _ H). by apply quiet_set_info.
Qed.

Lemma decRefCount_cong st st' :
  quiet st st' -> quiet (set_timeoutInfo (toInt32 (timeoutInfo st - 1)) st) (decRefCount st').
Proof.
  intros H. eapply quiet_trans; [|apply decRefCount_quiet].
  rewrite (q_info _ _ H). by apply quiet_set_info.
Qed.

Lemma upd_put t f r st :
  timeouts st !! t = Some r -> upd t f st = put t (f r) (timeoutInfo st) st.
Proof.
  intros Ht. unfold upd, put, set_timeouts, set_timeoutInfo. cbn. f_equal. by apply alter_alt_Some.
Qed.

(** ** [setTimeout], [setInterval], [setUnrefTimeout] *)

Lemma structure_new_timer R st r info :
  structure None R st ->
  let t := nextObj st in
  structure (Some t) (<[t := []]> R)
    (put t r info (set_nextObj (Pos.succ t) (set_links (LinkedList.init t (links st)) st))).
Proof.
  intros HS t. pose proof (structure_fresh _ _ _ HS) as Hout. fold t in Hout.
  destruct (s_fresh _ _ _ HS t) as [F1 F2]; [unfold t; lia|].
  destruct HS as [S1 S2 S3 S4 S5 S6 S7 S8 S9 S10 S11]. unfold mapped in *.
  constructor; cbn; unfold mapped; cbn; try done.
  - by apply rings_init.
  - intros l. rewrite lookup_insert_is_Some, S2. destruct (decide (t = l)) as [<-|Hne]; [tauto|].
    split; [intros [?|[_ [?|?]]]; auto; done|]. intros [?|[= ?]]; [right; auto|done].
  - intros p l (xs & [[<- <-]|[Hne Hl]]%lookup_insert_Some & Hin); [by apply elem_of_nil in Hin|].
    destruct (S3 p l) as [Hl' Hp]; [by exists xs|]. split; [done|].
    rewrite lookup_insert_is_Some. destruct (decide (t = p)); auto.
  - intros p Hp. destruct (S9 p) as [? ?]; [unfold t in *; lia|]. split; [|done].
    rewrite lookup_insert_ne; [done|unfold t; lia].
  - intros p. destruct (decide (t = p)) as [<-|Hne]; [by right|]. rewrite lookup_insert_ne by done. apply S10.
  - intros p [= <-]. rewrite lookup_insert_eq. eauto.
Qed.

Lemma new_Timeout_spec callback after args isRepeat isRefed st t st' :
  new_Timeout initHooks callback after args isRepeat isRefed st = (t, st') ->
  t = nextObj st /\ exists q r, duration q /\
    r = Timeout_ q None (Some callback) args (if isRepeat then Some q else None) false isRefed false (asyncId r) /\
    quiet (put t r (if isRefed then toInt32 (timeoutInfo st + 1) else timeoutInfo st)
             (set_nextObj (Pos.succ t) (set_links (LinkedList.init t (links st)) st))) st'.
Proof.
  unfold new_Timeout. destruct (checked_after after st) as [q sta] eqn:Ea.
  apply checked_after_spec in Ea as [Hq [[A1 A2 A3 A4 A5 A6 A7] B C D E F]]. rewrite A6.
  set (t0 := nextObj st). set (r0 := Timeout_ _ _ _ _ _ _ _ _ _). intros [= <- <-]. split; [done|].
  set (sta' := set_timeouts _ _). set (stb := if isRefed then incRefCount sta' else sta').
  set (base := put t0 r0 (if isRefed then toInt32 (timeoutInfo st + 1) else timeoutInfo st)
     (set_nextObj (Pos.succ t0) (set_links (LinkedList.init t0 (links st)) st))).
  assert (quiet base stb) as Hb.
  { unfold stb. destruct isRefed.
    - eapply quiet_trans; [|apply incRefCount_quiet]. change (timeoutInfo sta') with (timeoutInfo sta).
      rewrite C. constructor; [constructor|..]; cbn; rewrite ?A1, ?B; done.
    - constructor; [constructor|..]; cbn; rewrite ?A1, ?B; done. }
  exists q, (with_asyncId (asyncIdCounter stb + 1) r0). split_and!; [done|done|].
  eapply quiet_trans; [|apply initAsyncResource_quiet].
  eapply quiet_trans; [|apply (quiet_upd _ _ _ _ Hb)].
  rewrite (upd_put _ _ r0) by apply lookup_insert_eq. unfold put, base. cbn.
  constructor; [constructor|..]; cbn; try done; rewrite insert_insert_eq; done.
Qed.

Lemma listed_new R (t : positive) p l :
  R !! t = None -> listed (<[t := []]> R) p l <-> listed R p l.
Proof.
  intros Ht. unfold listed. split.
  - intros (xs & [[<- <-]|[Hne Hl]]%lookup_insert_Some & Hin); [by apply elem_of_nil in Hin|eauto].
  - intros (xs & Hl & Hin). exists xs. rewrite lookup_insert_ne; [done|]. congruence.
Qed.

Lemma schedule_ok cur callback after args isRepeat isRefed st st' res :
  ready cur st -> schedule clock initHooks callback after args isRepeat isRefed st = (st', res) ->
  keeps cur st st'.
Proof.
  intros [(R & HS & HT & HP) Hnow]. unfold schedule. destruct (validateFunction _ _) as [cb|e].
  2: { intros [= <- <-]. apply keeps_refl. by exists R. }
  destruct (new_Timeout _ _ _ _ _ _ _) as [t st1] eqn:En.
  apply new_Timeout_spec in En as (Et & q & r & Hq & Hr & Hquiet). set (base := put _ _ _ _) in Hquiet.
  pose proof (structure_new_timer R st r (timeoutInfo base) HS) as HS1. rewrite <- Et in HS1.
  assert (structure (Some t) (<[t := []]> R) st1) as HS2 by (eapply structure_same; [apply Hquiet|done]).
  assert (timeouts st1 = <[t := r]> (timeouts st)) as Ets by apply (q_timeouts _ _ Hquiet).
  destruct (s_fresh _ _ _ HS t) as [Hft Hfl]; [subst t; lia|].
  assert (R !! t = None) as HRt.
  { rewrite eq_None_not_Some, (s_dom _ _ _ HS). intros [[? ?]|?]; congruence. }
  pose proof (duration_trunc q Hq) as Htr. rewrite Ets, lookup_insert_eq.
  assert (idleTimeout r = q) as Eq by (by rewrite Hr). cbn [fmap option_fmap option_map default]. unfold Datatypes.id. rewrite Eq.
  destruct (insert_timer_spec _ _ _ t q None HS2) as (R' & st2 & -> & HI & Ets2 & Ei2);
    [by right|rewrite Ets, lookup_insert_eq; eauto|done|].
  intros [= <- <-]. destruct Hquiet as [[A1 A2 A3 A4 A5 A6 A7] B C D E F].
  apply (inserted_from _ R st) in HI; try done; [|intros; by apply listed_new|].
  2: { intros l xs [[_ <-]|[_ ?]]%lookup_insert_Some; auto. }
  set (s := start_of None st1) in *. assert (s = time st) as Es by (unfold s, start_of, time; cbn; by rewrite E).
  assert (timeouts st2 = <[t := with_idleStart s r]> (timeouts st)) as Ets3.
  { rewrite Ets2, Ets, alter_insert_eq. done. }
  apply (keeps_timer cur st st2 t (with_idleStart s r)); [| |done|intros; congruence].
  - eapply (inserted_Inv cur cur R st t (MathTrunc q) s R' st2 st2 (with_idleStart s r)); try done.
    + rewrite Ei2, C. unfold base. cbn. rewrite Hft. rewrite Hr. unfold counted. cbn.
      destruct isRefed; cbn; [f_equal; lia|]. eapply info_keep; [done|lia].
    + rewrite Hr. constructor; cbn; [by left|]. intros q0. destruct isRepeat; [|done]. by intros [= <-].
    + by rewrite Hr.
    + cbn. by rewrite Eq.
    + intros Hn. split; [eapply no_intervals_insert; [exact Ets3|intros; congruence|done]|].
      rewrite Es. split; [done|]. apply time_mono, (i_reads _ _ _ _ _ _ _ HI).
  - eapply (inserted_evolves R st t (MathTrunc q) s R' st2 st2); try done; try lia; [cbn; by rewrite Eq|].
    intros r0 Hr0. congruence.
Qed.

(** ** [refresh] *)

Lemma rescheduled_spec t r r1 (b : bool) st :
  timeouts st !! t = Some r1 -> destroyed r1 = destroyed r ->
  exists r', quiet (put t r' (if destroyed r then (if b then toInt32 (timeoutInfo st + 1) else timeoutInfo st)
      else if Bool.eqb b (negb (refed r))
      then (if b then toInt32 (timeoutInfo st + 1) else toInt32 (timeoutInfo st - 1)) else timeoutInfo st) st)
    (rescheduled initHooks t r b st) /\
    idleTimeout r' = idleTimeout r1 /\ idleStart r' = idleStart r1 /\ repeat_ r' = repeat_ r1 /\
    destroyed r' = false /\ refed r' = b /\ onTimeout r' = onTimeout r1.
Proof.
  intros Ht Hd. unfold rescheduled.
  set (st1 := if destroyed r || (asyncId r =? 0) then _ else st).
  assert (exists r2, quiet (put t r2 (timeoutInfo st) st) st1 /\ idleTimeout r2 = idleTimeout r1 /\
    idleStart r2 = idleStart r1 /\ repeat_ r2 = repeat_ r1 /\ onTimeout r2 = onTimeout r1 /\
    destroyed r2 = false) as (r2 & Hq & P1 & P2 & P3 & P5 & P4).
  { unfold st1. destruct (destroyed r || (asyncId r =? 0)) eqn:E.
    - eexists. split; [|split_and!; cycle -1].
      + eapply quiet_trans; [|apply initAsyncResource_quiet]. rewrite (upd_put t (with_destroyed false) r1) by done.
        rewrite (upd_put t _ (with_destroyed false r1)) by apply lookup_insert_eq. unfold put. cbn.
        constructor; [constructor|..]; cbn; try done; by rewrite insert_insert_eq.
      + done.
      + done.
      + done.
      + done.
      + done.
    - apply orb_false_iff in E as [E _]. exists r1. split_and!; [|done|done|done|done|congruence].
      unfold put. constructor; [constructor|..]; cbn; try done; by rewrite insert_id. }
  exists (with_refed b r2). split_and!; try done. set (info := if destroyed r then _ else _).
  assert (forall st2, quiet (put t r2 info st) st2 -> quiet (put t (with_refed b r2) info st) (upd t (with_refed b) st2)) as Hlast.
  { intros st2 H2. eapply quiet_trans; [|apply (quiet_upd _ _ _ _ H2)].
    rewrite (upd_put _ _ r2) by apply lookup_insert_eq. unfold put. cbn.
    constructor; [constructor|..]; cbn; try done; by rewrite insert_insert_eq. }
  apply Hlast. unfold info. pose proof (incRefCount_cong _ _ Hq) as Hi. pose proof (decRefCount_cong _ _ Hq) as Hde.
  destruct (destroyed r), b, (refed r); cbn [Bool.eqb negb]; assumption.
Qed.

Lemma insertGuarded_ok cur t b st st' res :
  ready cur st -> insertGuarded clock initHooks t b st = (st', res) ->
  keeps cur st st'.
Proof.
  intros [HI0 Hnow]. pose proof HI0 as (R & HS & HT & HP). unfold insertGuarded.
  destruct (timeouts st !! t) as [r|] eqn:Ht; [|by intros [= <- <-]; apply keeps_refl].
  destruct (q_neg (idleTimeout r)) eqn:Hneg; [by intros [= <- <-]; apply keeps_refl|].
  pose proof (t_ok _ _ _ HT _ _ Ht) as Hok.
  assert (duration (idleTimeout r)) as Hdur.
  { destruct Hok as [[?|[E _]] _]; [done|]. rewrite E in Hneg. done. }
  pose proof (duration_trunc _ Hdur) as Htr.
  destruct (insert_timer_spec _ _ _ t (idleTimeout r) None HS) as (R' & st1 & -> & HI & Ets & Ei);
    [by left|eauto|done|].
  intros [= <- <-]. set (s := start_of None st) in *.
  assert (timeouts st1 !! t = Some (with_idleStart s r)) as Ht1 by by rewrite Ets, lookup_alter_eq, Ht.
  destruct (rescheduled_spec t r _ b st1 Ht1 eq_refl) as (r' & [Q1 Q2 Q3 Q4 Q5 Q6] & P1 & P2 & P3 & P4 & P5 & P6).
  assert (same_structure st1 (rescheduled initHooks t r b st1)) as Hs.
  { destruct Q1. constructor; try done. intros p. rewrite ss_timeouts. cbn.
    rewrite lookup_insert_is_Some. destruct (decide (t = p)) as [<-|]; [|tauto]. rewrite Ht1. naive_solver. }
  assert (timeouts (rescheduled initHooks t r b st1) = <[t := r']> (timeouts st)) as Ets'.
  { rewrite Q2. cbn. rewrite Ets. apply map_eq. intros p. destruct (decide (t = p)) as [<-|Hne].
    - by rewrite !lookup_insert_eq.
    - by rewrite !lookup_insert_ne, lookup_alter_ne by done. }
  apply (keeps_timer cur st _ t r'); [| |done|].
  3: { intros r0 Hr0. split; [rewrite P3; cbn; congruence|by left]. }
  - eapply (inserted_Inv cur cur R st t (MathTrunc (idleTimeout r)) s R' st1); try done.
    + rewrite Q3. cbn. rewrite Ei, Ht. change (weight (Some r)) with (Z.b2z (counted r)).
      unfold counted. rewrite P4, P5.
      destruct (destroyed r), b, (refed r); cbn; f_equal; try lia; (eapply info_keep; [done|lia]).
    + constructor; [left; by rewrite P1|]. intros q Hq. rewrite P3 in Hq. cbn in Hq.
      by apply (ok_repeat _ Hok).
    + by rewrite P1.
    + intros Hn. split.
      * eapply no_intervals_insert; [exact Ets'|intros; rewrite P3; cbn; congruence|done].
      * split; [done|]. unfold time. rewrite Q5. apply clock_mono, (i_reads _ _ _ _ _ _ _ HI).
  - eapply (inserted_evolves R st t (MathTrunc (idleTimeout r)) s R' st1); try done; try lia; [by rewrite P1|].
    intros r0 E0. rewrite P6. cbn. congruence.
Qed.

(** ** Updates in place *)

Lemma put_ok cur st t r r' :
  Inv cur st -> timeouts st !! t = Some r ->
  destroyed r' = destroyed r -> idleTimeout r' = idleTimeout r -> idleStart r' = idleStart r ->
  repeat_ r' = repeat_ r -> (onTimeout r = None -> onTimeout r' = None) ->
  let st' := put t r' (toInt32 (timeoutInfo st - Z.b2z (counted r) + Z.b2z (counted r'))) st in
  keeps cur st st'.
Proof.
  intros (R & HS & HT & HP) Ht E1 E2 E3 E4 E5 st'.
  pose proof (t_ok _ _ _ HT _ _ Ht) as Hok.
  apply (keeps_timer cur st st' t r'); [| |done|].
  - exists R. split_and!.
    + eapply structure_same; [|done]. constructor; try done. intros p. cbn.
      rewrite lookup_insert_is_Some. destruct (decide (t = p)) as [<-|]; [|tauto]. rewrite Ht. naive_solver.
    + eapply (timers_ok_update cur cur R R st st' t r'); try done.
      * intros l L HL. by exists L.
      * intros p l Hp. destruct (s_listed _ _ _ HS p l Hp) as [(L0 & ? & _) _]. eauto.
      * cbn. by rewrite Ht.
      * destruct Hok as [O1 O2]. constructor; rewrite ?E1, ?E2, ?E4; done.
      * intros l L Hl HL. rewrite E1, E2, E3. by eapply (t_listed _ _ _ HT).
      * rewrite E1. by apply (t_live _ _ _ HT).
    + intros Hn. apply (no_intervals_insert st st' t r') in Hn; [|done|intros; congruence].
      eapply punctual_less; [by apply HP|done|intros l xs' Hl; right; by exists xs'|done|].
      intros p l _. rewrite (start_at_insert st st' t r') by done. case_decide as Hpt; [subst p|done].
      unfold start_at. rewrite Ht. cbn. by rewrite E3.
  - apply (evolves_timer st st' t r'); try done.
    + intros Hl Hd. split; [done|]. exists r. split; [done|]. unfold due_at in *. by rewrite <- E2, <- E3.
    + intros (r0 & Hr0 & H0). apply E5. by replace r with r0 by congruence.
  - intros r0 Hr0. replace r0 with r by congruence. split; [done|]. unfold alive_or_cancelled. by rewrite E1, E2.
Qed.

Lemma unref_ok cur t st : Inv cur st -> keeps cur st (unref t st).1.
Proof.
  intros HI. unfold unref. destruct (timeouts st !! t) as [r|] eqn:Ht; [|by apply keeps_refl].
  cbn [fst]. destruct (refed r) eqn:Er; [|by apply keeps_refl].
  eapply keeps_quiet; [by apply (put_ok cur st t r (with_refed false r))|].
  rewrite (upd_put _ _ r) by done. unfold counted. cbn. rewrite Er. destruct (destroyed r); cbn.
  - destruct HI as (R & _ & HT & _). rewrite Z.sub_0_r, Z.add_0_r, <- (info_keep _ _ _ _ HT eq_refl). apply quiet_refl.
  - rewrite Z.add_0_r. eapply quiet_trans; [|apply decRefCount_quiet]. done.
Qed.

Lemma ref_ok cur t st : Inv cur st -> keeps cur st (ref t st).1.
Proof.
  intros HI. unfold ref. destruct (timeouts st !! t) as [r|] eqn:Ht; [|by apply keeps_refl].
  cbn [fst]. destruct (refed r) eqn:Er; [by apply keeps_refl|].
  eapply keeps_quiet; [by apply (put_ok cur st t r (with_refed true r))|].
  rewrite (upd_put _ _ r) by done. unfold counted. cbn. rewrite Er. destruct (destroyed r); cbn.
  - destruct HI as (R & _ & HT & _). rewrite Z.sub_0_r, Z.add_0_r, <- (info_keep _ _ _ _ HT eq_refl). apply quiet_refl.
  - rewrite Z.sub_0_r. eapply quiet_trans; [|apply incRefCount_quiet]. done.
Qed.

(** Updates that leave the count alone. *)
Lemma upd_ok cur st t f r :
  Inv cur st -> timeouts st !! t = Some r ->
  destroyed (f r) = destroyed r -> refed (f r) = refed r -> idleTimeout (f r) = idleTimeout r ->
  idleStart (f r) = idleStart r -> repeat_ (f r) = repeat_ r ->
  (onTimeout r = None -> onTimeout (f r) = None) ->
  keeps cur st (upd t f st).
Proof.
  intros HI Ht E1 E2 E3 E4 E5 E6. rewrite (upd_put _ _ r) by done.
  eapply keeps_quiet; [by apply (put_ok cur st t r (f r))|].
  unfold counted. rewrite E1, E2. destruct HI as (R & _ & HT & _).
  rewrite <- (info_keep _ _ _ (timeoutInfo st - _ + _) HT) by lia. apply quiet_refl.
Qed.

Lemma toPrimitive_ok cur t st : Inv cur st -> keeps cur st (toPrimitive t st).1.
Proof.
  intros HI. unfold toPrimitive. destruct (timeouts st !! t) as [r|] eqn:Ht; [|by apply keeps_refl].
  cbn [fst]. destruct (hasPrimitive r); [by apply keeps_refl|].
  eapply keeps_quiet; [by apply (upd_ok cur st t (with_hasPrimitive true) r)|]. done.
Qed.

(** ** Cancelling *)

Lemma drop_list_ok cur r st : Inv cur st -> keeps cur st (drop_list r st).
Proof.
  intros HI. pose proof HI as (R & HS & HT & HP). unfold drop_list.
  destruct (timerListMap st !! MathTrunc (idleTimeout r)) as [l|] eqn:El; [|by apply keeps_refl].
  destruct (LinkedList.isEmpty l (links st)) eqn:Ee; [|by apply keeps_refl].
  destruct (s_map _ _ _ HS _ _ El) as (L & HL & Hm & _).
  assert (mapped st l) as Hmap by (exists L; by rewrite Hm).
  destruct (structure_list _ _ _ _ HS Hmap) as [xs Hxs].
  rewrite (rings_isEmpty _ _ _ _ (s_rings _ _ _ HS) Hxs) in Ee. bool_hyps. subst xs.
  assert (Some l ∈ contents (timerListQueue st)) as Hin by by apply (s_contents _ _ _ HS).
  destruct (queue_removeAt_ok _ _ _ (s_queue _ _ _ HS) Hin) as [Q1 Q2].
  unfold queue_removeAt, priorityQueuePosition. cbn [lists set_timerListQueue timerListMap].
  replace (list_of (lists st) (Some l)) with L by (unfold list_of; cbn; by rewrite HL).
  assert (timerListMap st !! msecs L = Some l) as Hl by by rewrite Hm.
  assert (forall t, ~ listed R t l) as Hnone.
  { intros t (ys & Hys & Hin'). replace ys with (@nil positive) in Hin' by congruence. by apply elem_of_nil in Hin'. }
  split; [| |by eauto].
  - exists R. split_and!; [by apply (structure_unmap R st l L _ HS HL Hl Hnone Q1 Q2)| |].
    + eapply timers_ok_same; try done. intros l' L' HL' _. by exists L'.
    + intros Hn. eapply punctual_less; [by apply HP|done|intros l' xs' Hl'; right; by exists xs'|done|done].
  - assert (forall m l', delete (msecs L) (timerListMap st) !! m = Some l' -> timerListMap st !! m = Some l') as Hsub.
    { intros m l' [_ ?]%lookup_delete_Some. done. }
    constructor; cbn; auto; [| |by rewrite app_nil_r].
    + intros l' (L' & HL' & Hl'). left. exists L'. auto.
    + intros Harm l' L' (L0 & HL0 & Hl0) HL'. apply (Harm l' L'); [|done]. exists L0. auto.
Qed.

(** A timer leaves its list, destroyed. *)
Lemma leave_ok cur cur' st t r r' :
  Inv cur st -> timeouts st !! t = Some r -> timer_ok r' -> destroyed r' = true ->
  (forall c, cur = Some c -> c <> t -> cur' = Some c) ->
  (is_cleared r -> is_cleared r') -> repeat_ r' = repeat_ r ->
  let st' := put t r' (toInt32 (timeoutInfo st - Z.b2z (counted r)))
               (set_links (LinkedList.remove t (links st)) st) in
  Inv cur' st' /\ evolves [] st st'.
Proof.
  intros (R & HS & HT & HP) Ht Hok Hd Hc Hcl Hrep st'. split.
  - exists (detach t R). split_and!.
    + eapply structure_same; [|apply (structure_detach R st t); [done|eauto]].
      constructor; try done. intros p. cbn. rewrite lookup_insert_is_Some.
      destruct (decide (t = p)) as [<-|]; [|tauto]. rewrite Ht. naive_solver.
    + eapply (timers_ok_update cur cur' R (detach t R) st st' t r'); try done.
      * intros l L HL. by exists L.
      * intros p l Hp. destruct (s_listed _ _ _ HS p l Hp) as [(L0 & ? & _) _]. eauto.
      * assert (counted r' = false) as -> by (unfold counted; by rewrite Hd, andb_false_r).
        cbn. rewrite Ht. change (weight (Some r)) with (Z.b2z (counted r)). by rewrite Z.add_0_r.
      * intros p l Hne. rewrite listed_detach. tauto.
      * by intros l L [? _]%listed_detach.
      * congruence.
    + intros Hn. apply (no_intervals_insert st st' t r') in Hn; [|done|intros; congruence].
      eapply punctual_less; [by apply HP|done| |done|].
      * intros l xs' (xs & Hl & ->)%detach_lookup. right. exists xs. split; [done|]. apply sublist_filter.
      * intros p l [Hne _]%listed_detach. rewrite (start_at_insert st st' t r') by done. by rewrite decide_False.
  - assert (forall p, linked st' p -> linked (set_links (LinkedList.remove t (links st)) st) p) as Hl' by done.
    assert (forall p, is_Some (timeouts st !! p) -> linked st' p -> p <> t /\ linked st p) as Hk.
    { intros p Hp Hl%Hl'. apply (linked_listed (detach t R)) in Hl as [l [Hne Hl]%listed_detach];
        [|by apply structure_detach; [|eauto]|done]. split; [done|]. by apply (linked_listed R st); [|done|eauto]. }
    apply (evolves_timer st st' t r'); try done.
    + intros p Hp Hl. by apply Hk.
    + intros Hl. by destruct (Hk t ltac:(eauto) Hl).
    + intros (r0 & Hr0 & H0). apply Hcl. by replace r with r0 by congruence.
Qed.

(** [drop_list] reads and changes the lists only. *)
Lemma drop_list_frame r st1 st2 :
  links st1 = links st2 -> lists st1 = lists st2 -> timerListMap st1 = timerListMap st2 ->
  timerListQueue st1 = timerListQueue st2 ->
  timerListMap (drop_list r st1) = timerListMap (drop_list r st2) /\
  timerListQueue (drop_list r st1) = timerListQueue (drop_list r st2) /\
  timeouts (drop_list r st1) = timeouts st1 /\ timeoutInfo (drop_list r st1) = timeoutInfo st1 /\
  links (drop_list r st1) = links st1 /\ lists (drop_list r st1) = lists st1 /\
  nextObj (drop_list r st1) = nextObj st1 /\ timerListId (drop_list r st1) = timerListId st1 /\
  nextExpiry (drop_list r st1) = nextExpiry st1 /\ clockReads (drop_list r st1) = clockReads st1 /\
  trace (drop_list r st1) = trace st1.
Proof.
  intros E1 E2 E3 E4. unfold drop_list. rewrite E3. destruct (timerListMap st2 !! _) as [l|]; [|done].
  rewrite E1. destruct (LinkedList.isEmpty l (links st2)); [|done].
  unfold queue_removeAt, priorityQueuePosition. cbn. by rewrite E2, E3, E4.
Qed.

Lemma unenroll_quiet t r st :
  timeouts st !! t = Some r -> destroyed r = false ->
  let st1 := put t (with_idleTimeout (-1) (with_destroyed true r))
               (if refed r then toInt32 (timeoutInfo st - 1) else timeoutInfo st)
               (set_links (LinkedList.remove t (links st)) st) in
  quiet (if refed r then drop_list r st1 else st1) (unenroll t st).
Proof.
  intros Ht Hd st1. unfold unenroll. rewrite Ht, Hd.
  rewrite (upd_put t (with_destroyed true) r) by done.
  set (st2 := set_links _ (log _ _)).
  assert (quiet (put t (with_destroyed true r) (timeoutInfo st) (set_links (LinkedList.remove t (links st)) st)) st2) as Hq2.
  { unfold st2, forget_primitive. constructor; [constructor|..]; try by destruct (hasPrimitive r).
    unfold fired. cbn. rewrite omap_app. destruct (hasPrimitive r); cbn; by rewrite app_nil_r. }
  destruct (refed r) eqn:Er.
  - pose proof Hq2 as [[A1 A2 A3 A4 A5 A6 A7] B C D E F].
    destruct (drop_list_frame r st2 st1) as (D1 & D2 & D3 & D4 & D5 & D6 & D7 & D8 & D9 & D10 & D11); [done..|].
    destruct (drop_list_frame r st1 st1) as (_ & _ & G3 & G4 & G5 & G6 & G7 & G8 & G9 & G10 & G11); [done..|].
    pose proof (decRefCount_quiet (drop_list r st2)) as [[A1' A2' A3' A4' A5' A6' A7'] B' C' D' E' F'].
    set (st3 := decRefCount _) in *. cbn in A1', A2', A3', A4', A5', A6', B', C', D', E'.
    rewrite (upd_put _ _ (with_destroyed true r)) by (rewrite B', D3, B; apply lookup_insert_eq).
    assert (fired st3 = fired st) as Ff.
    { rewrite F'. transitivity (fired st2); [|by rewrite F]. unfold fired. cbn. by rewrite D11. }
    assert (fired (drop_list r st1) = fired st) as Fg by (unfold fired; by rewrite G11).
    assert (<[t := with_idleTimeout (-1) (with_destroyed true r)]> (timeouts st3) = timeouts (drop_list r st1)) as Ft.
    { rewrite B', D3, B, G3. cbn. by rewrite insert_insert_eq. }
    constructor; [constructor|..].
    + cbn. by rewrite A1', D5, G5, A1.
    + cbn. by rewrite A2', D6, G6, A2.
    + cbn. by rewrite A3', D1.
    + cbn. by rewrite A4', D2.
    + cbn. by rewrite A5', D8, G8, A5.
    + cbn. by rewrite A6', D7, G7, A6.
    + intros p. cbn. by rewrite Ft.
    + exact Ft.
    + cbn. by rewrite C', D4, C, G4.
    + cbn. by rewrite D', D9, G9, D.
    + cbn. by rewrite E', D10, G10, E.
    + change (fired st3 = fired (drop_list r st1)). by rewrite Ff, Fg.
  - eapply quiet_trans; [|apply quiet_upd, Hq2].
    rewrite (upd_put _ _ (with_destroyed true r)) by apply lookup_insert_eq.
    unfold put. constructor; [constructor|..]; cbn; try done; by rewrite insert_insert_eq.
Qed.

Lemma unenroll_ok cur t st : Inv cur st -> keeps cur st (unenroll t st).
Proof.
  intros HI. destruct (timeouts st !! t) as [r|] eqn:Ht.
  2: { unfold unenroll. rewrite Ht. by apply keeps_refl. }
  destruct (destroyed r) eqn:Hd.
  { unfold unenroll. rewrite Ht, Hd. by apply keeps_refl. }
  pose proof (unenroll_quiet t r st Ht Hd) as Hq.
  set (r' := with_idleTimeout (-1) (with_destroyed true r)) in *.
  assert (timer_ok r') as Hok.
  { destruct HI as (R & HS & HT & _). destruct (t_ok _ _ _ HT t r Ht) as [_ O2]. constructor; cbn; [by right|done]. }
  destruct (leave_ok cur cur st t r r' HI Ht Hok eq_refl) as [HI1 HE1]; [done|done|done|].
  assert (toInt32 (timeoutInfo st - Z.b2z (counted r)) =
          if refed r then toInt32 (timeoutInfo st - 1) else timeoutInfo st) as Ei.
  { unfold counted. rewrite Hd. destruct (refed r); [done|]. cbn. rewrite Z.sub_0_r.
    destruct HI as (R & _ & HT & _). by rewrite <- (info_keep _ _ _ _ HT eq_refl). }
  rewrite Ei in HI1, HE1. set (st1 := put _ _ _ _) in *.
  assert (keeps cur st st1) as Hk.
  { apply (keeps_timer cur st st1 t r'); [done|done|done|]. intros r0 Hr0. split; [cbn; congruence|by right]. }
  eapply keeps_quiet; [|exact Hq]. destruct (refed r); [|done].
  eapply keeps_trans; [exact Hk|]. by apply drop_list_ok.
Qed.

Lemma clear_timer_ok cur t st : Inv cur st -> keeps cur st (clear_timer t st).
Proof.
  intros HI. unfold clear_timer. destruct (timeouts st !! t) as [r|] eqn:Ht.
  - assert (keeps cur st (upd t without_onTimeout st)) as Hk by by apply (upd_ok cur st t without_onTimeout r).
    eapply keeps_trans; [done|]. apply unenroll_ok, Hk.
  - assert (upd t without_onTimeout st = st) as ->; [|by apply unenroll_ok].
    unfold upd. rewrite alter_id' by done. by destruct st.
Qed.

Lemma note_clear_ok cur t st : Inv cur st -> keeps cur st (note_clear t st).
Proof.
  intros HI. unfold note_clear. destruct (timeouts st !! t); [|by apply keeps_refl].
  apply quiet_keeps; [done|by apply quiet_log].
Qed.

Lemma note_then_clear_ok cur t st : Inv cur st -> keeps cur st (clear_timer t (note_clear t st)).
Proof.
  intros HI. pose proof (note_clear_ok cur t st HI) as Hk. eapply keeps_trans; [done|]. apply clear_timer_ok, Hk.
Qed.

Lemma clearTimeout_ok cur h st : Inv cur st -> keeps cur st (clearTimeout h st).
Proof.
  intros HI. unfold clearTimeout, clear_known.
  repeat case_match; auto using keeps_refl, note_clear_ok, note_then_clear_ok.
Qed.

(** ** Programs *)

Lemma refresh_ok cur t st : ready cur st -> keeps cur st (refresh clock initHooks t st).1.
Proof.
  intros HI. unfold refresh, active, unrefActive. destruct (timeouts st !! t) as [r|]; [|by apply keeps_refl, HI].
  destruct (refed r); destruct (insertGuarded _ _ _ _ _) as [st' res] eqn:E; by eapply insertGuarded_ok.
Qed.

Lemma keeps_then cur st st1 st2 :
  ready cur st -> keeps cur st st1 -> (ready cur st1 -> keeps cur st1 st2) -> keeps cur st st2.
Proof. intros HR HK H. eapply keeps_trans; [done|]. apply H. by eapply keeps_ready. Qed.

Lemma exec_ok cur p : forall st, ready cur st -> keeps cur st (exec clock initHooks p st).1.
Proof.
  induction p as [|e|cb a args k IH|cb a args k IH|cb a k IH|h k IH|t k IH|t k IH|t k IH|t k IH|t k IH];
    intros st HI; cbn [exec]; try by apply keeps_refl, HI.
  - unfold setTimeout. destruct (schedule _ _ _ _ _ _ _ _) as [st1 r] eqn:E.
    eapply keeps_then; [done|by eapply schedule_ok|apply IH].
  - unfold setInterval. destruct (schedule _ _ _ _ _ _ _ _) as [st1 r] eqn:E.
    eapply keeps_then; [done|by eapply schedule_ok|apply IH].
  - unfold setUnrefTimeout. destruct (schedule _ _ _ _ _ _ _ _) as [st1 r] eqn:E.
    eapply keeps_then; [done|by eapply schedule_ok|apply IH].
  - eapply keeps_then; [done|apply clearTimeout_ok, HI|apply IH].
  - pose proof (refresh_ok cur t st HI) as H. destruct (refresh _ _ _ _) as [st1 [|]]; [|done].
    eapply keeps_then; [done|done|apply IH].
  - pose proof (unref_ok cur t st (proj1 HI)) as H. destruct (unref _ _) as [st1 [|]]; [|done].
    eapply keeps_then; [done|done|apply IH].
  - pose proof (ref_ok cur t st (proj1 HI)) as H. destruct (ref _ _) as [st1 [|]]; [|done].
    eapply keeps_then; [done|done|apply IH].
  - unfold hasRef. destruct (timeouts st !! t); [by apply IH|apply keeps_refl, HI].
  - pose proof (toPrimitive_ok cur t st (proj1 HI)) as H. destruct (toPrimitive _ _) as [st1 [|]]; [|done].
    eapply keeps_then; [done|done|apply IH].
Qed.
End Ops.
