(* ===== verification/TimersRun.v ===== *)
(** * [processTimers]

    The loops of [processTimers] and [listOnTimeout]: what one expired timer
    does to the state, that the list being processed stays at the root of the
    queue, and that the loops end. *)

From Stdlib Require Import QArith.
From S2P Require Import Prelude JsNumber LinkedList Rings PriorityQueue PriorityQueueFacts Timers TimerQueue TimersInv TimersOps.
#[local] Open Scope Z_scope.
Import Timers.

Section Run.
Context (clock : nat -> Z) (ticks : nat -> prog) (initHooks : bool).
Context (clock_mono : forall i j, (i <= j)%nat -> clock i <= clock j).
Context (now : Z).

Abbreviation evolves := (TimersOps.evolves now).
Abbreviation keeps := (TimersOps.keeps clock now).
Abbreviation Inv := (TimersOps.Inv clock).
Abbreviation ready := (TimersOps.ready clock now).
Abbreviation exec := (Timers.exec clock initHooks).

(** ** A timer leaves its list *)

(** [cur] ends when its timer is destroyed or scheduled. *)
Lemma Inv_settle t r st :
  Inv (Some t) st -> timeouts st !! t = Some r -> destroyed r = true \/ linked st t -> Inv None st.
Proof.
  intros (R & HS & [T1 T2 T3 T4] & HP) Ht Hor. exists R. split_and!; [done| |done]. constructor; try done.
  intros p rp Hp Hd. destruct (T3 p rp Hp Hd) as [[= <-]|?]; [|by right]. right.
  destruct Hor as [?|Hl]; [congruence|]. apply (linked_listed R st); [done|eauto|done].
Qed.

Lemma take_out t r st :
  Inv None st -> timeouts st !! t = Some r ->
  let st' := set_links (LinkedList.remove t (links st)) st in
  Inv (Some t) st' /\ evolves [] st st' /\ ~ linked st' t.
Proof.
  intros (R & HS & HT & HP) Ht st'.
  assert (structure None (detach t R) st') as HS' by (apply structure_detach; [done|eauto]).
  assert (forall p, is_Some (timeouts st !! p) -> linked st' p -> p <> t /\ linked st p) as Hk.
  { intros p Hp Hl. apply (linked_listed (detach t R)) in Hl as [l [Hne Hl]%listed_detach]; [|done|done].
    split; [done|]. by apply (linked_listed R st); [|done|eauto]. }
  split_and!.
  - exists (detach t R). split_and!; [done| |].
    2: { intros Hn. eapply punctual_less; [by apply HP|done| |done|done].
         intros l xs' (xs & Hl & ->)%detach_lookup. right. exists xs. split; [done|]. apply sublist_filter. }
    eapply (timers_ok_update None (Some t) R (detach t R) st st' t r); try done.
    + cbn. by rewrite insert_id.
    + intros l L HL. by exists L.
    + intros p l Hp. destruct (s_listed _ _ _ HS p l Hp) as [(L0 & ? & _) _]. eauto.
    + cbn. rewrite Ht. eapply info_keep; [done|]. change (weight (Some r)) with (Z.b2z (counted r)). lia.
    + by eapply t_ok.
    + intros p l Hne. rewrite listed_detach. tauto.
    + by intros l L [? _]%listed_detach.
    + by left.
  - apply evolves_same; try done. intros p Hp Hl. by apply Hk.
  - intros Hl. by destruct (Hk t ltac:(eauto) Hl).
Qed.

Lemma destroy_quiet t r id st :
  timeouts st !! t = Some r ->
  quiet (put t (with_destroyed true r) (if refed r then toInt32 (timeoutInfo st - 1) else timeoutInfo st) st)
    (destroy t r id st).
Proof.
  intros Ht. unfold destroy. rewrite (upd_put _ _ r) by done.
  eapply quiet_trans; [|by apply quiet_log]. destruct (hasPrimitive r), (refed r); done.
Qed.

Lemma destroy_ok t r id st :
  Inv (Some t) st -> timeouts st !! t = Some r -> destroyed r = false -> ~ linked st t ->
  Inv None (destroy t r id st) /\ evolves [] st (destroy t r id st).
Proof.
  intros HI Ht Hd Hu. pose proof (destroy_quiet t r id st Ht) as Hq.
  assert (timer_ok (with_destroyed true r)) as Hok.
  { destruct HI as (R & HS & HT & _). pose proof (t_ok _ _ _ HT _ _ Ht) as Hok.
    pose proof (timer_ok_live _ Hok Hd). destruct Hok as [_ O2]. constructor; cbn; [by left|done]. }
  destruct (leave_ok clock now (Some t) None st t r (with_destroyed true r) HI Ht Hok eq_refl) as [HI1 HE1];
    [congruence|done|done|].
  assert (set_links (LinkedList.remove t (links st)) st = st) as Eq.
  { unfold linked in Hu. destruct (LinkedList.next (links st) t) eqn:E1, (LinkedList.prev (links st) t) eqn:E2;
      try (destruct Hu; intros [? ?]; congruence). rewrite remove_out by done. by destruct st. }
  rewrite Eq in HI1, HE1.
  assert (toInt32 (timeoutInfo st - Z.b2z (counted r)) =
          if refed r then toInt32 (timeoutInfo st - 1) else timeoutInfo st) as Ei.
  { unfold counted. rewrite Hd. destruct (refed r); [done|]. cbn. rewrite Z.sub_0_r.
    destruct HI as (R & _ & HT & _). by rewrite <- (info_keep _ _ _ _ HT eq_refl). }
  rewrite Ei in HI1, HE1. split; [by eapply (quiet_Inv clock clock_mono)|].
  apply (evolves_trans now [] [] _ _ _ HE1). by apply quiet_evolves.
Qed.

(** ** The callback *)

Lemma after_callback_ok t r id start st :
  Inv (Some t) st -> timeouts st !! t = Some r -> alive_or_cancelled r ->
  (is_Some (repeat_ r) -> exists s, start = Some s /\ now <= s) ->
  exists st', after_callback clock t id start st = (st', Ok tt) /\ Inv None st' /\ evolves [] st st'.
Proof.
  intros HI Ht Ha Hs. unfold after_callback. rewrite Ht.
  pose proof HI as (R & HS & HT & HP). pose proof (t_ok _ _ _ HT _ _ Ht) as Hok.
  set (finish := if unlinked t st && negb (destroyed r) then (destroy t r id st, Ok tt) else (st, Ok tt)).
  assert (exists st', finish = (st', Ok tt) /\ Inv None st' /\ evolves [] st st') as Hfin.
  { unfold finish, unlinked. destruct (bool_decide _ && negb (destroyed r)) eqn:E.
    - apply andb_true_iff in E as [E1 E2]. bool_hyps. eexists. split; [done|].
      apply destroy_ok; [done|done|done|]. unfold linked. tauto.
    - eexists. split; [done|]. split; [|apply evolves_refl]. eapply Inv_settle; [done|done|].
      apply andb_false_iff in E as [E|E]; bool_hyps; [by right|by left]. }
  destruct (repeat_ r) as [q|] eqn:Er; [|exact Hfin].
  destruct (Qeq_bool (idleTimeout r) (-1)) eqn:Eq; cbn [negb]; [exact Hfin|clear finish Hfin].
  assert (destroyed r = false) as Hd by (destruct Ha as [?|E]; [done|rewrite E in Eq; done]).
  destruct Hs as (s & -> & Hs); [done|]. pose proof (ok_repeat _ Hok q Er) as Hq.
  pose proof (duration_trunc _ Hq) as Htr.
  rewrite (upd_put _ _ r) by done. set (st1 := put _ _ _ _).
  assert (same_structure st st1) as Hs1.
  { constructor; try done. intros p. cbn. rewrite lookup_insert_is_Some.
    destruct (decide (t = p)) as [<-|]; [|tauto]. rewrite Ht. naive_solver. }
  destruct (insert_timer_spec clock None R st1 t q (Some s)) as (R' & st2 & -> & HI2 & Ets & Ei);
    [by eapply structure_same|by left|cbn; rewrite lookup_insert_eq; eauto|done|].
  apply (inserted_from R R st) in HI2; [|by auto..].
  set (r' := with_idleStart s (with_idleTimeout q r)).
  assert (timeouts st2 = <[t := r']> (timeouts st)) as Ets2.
  { rewrite Ets. cbn. by rewrite alter_insert_eq. }
  eexists. split; [done|]. split.
  - eapply (inserted_Inv clock (Some t) None R st t (MathTrunc q) s R' st2 st2 r'); try done.
    + rewrite Ei. cbn. rewrite Ht. eapply info_keep; [done|].
      change (weight (Some r)) with (Z.b2z (counted r)). unfold counted. cbn. lia.
    + constructor; cbn; [by left|]. apply Hok.
    + congruence.
    + intros Hn. exfalso. assert (repeat_ r' = None) as Hn'; [|cbn in Hn'; congruence].
      apply (Hn t). by rewrite Ets2, lookup_insert_eq.
  - eapply (inserted_evolves now R st t (MathTrunc q) s R' st2 st2 r'); try done; try lia.
    intros r0 Hr0. replace r0 with r by congruence. done.
Qed.

Lemma evolves_fire t st : evolves [t] st (log (EvFire t) st).
Proof. constructor; try done; auto. apply fired_log. Qed.

Lemma evolves_read st : evolves [] st (set_clockReads (S (clockReads st)) st).
Proof. apply evolves_same; try done. cbn. lia. Qed.

Lemma ready_evolves cur cur' fs st st' :
  ready cur st -> evolves fs st st' -> Inv cur' st' -> ready cur' st'.
Proof. intros [_ Hn] HE HI. split; [done|]. apply (evolves_time clock clock_mono) in HE. lia. Qed.

Lemma call_timer_ok t r callback st st' res :
  ready (Some t) st -> timeouts st !! t = Some r -> alive_or_cancelled r ->
  call_timer clock initHooks t r callback st = (st', res) ->
  Inv None st' /\ evolves [t] st st'.
Proof.
  intros [HI Hn] Ht Ha. unfold call_timer.
  set (st1 := log (EvBefore (asyncId r)) st).
  assert (quiet st st1) as Hq1 by by apply quiet_log.
  assert (exists start st2, (match repeat_ r with
      | Some _ => let '(s, st) := getLibuvNow clock st1 in (Some s, st) | None => (None, st1) end) = (start, st2) /\
      Inv (Some t) st2 /\ evolves [] st st2 /\ timeouts st2 = timeouts st /\
      (is_Some (repeat_ r) -> exists s, start = Some s /\ now <= s)) as (start & st2 & -> & HI2 & HE2 & Et2 & Hs).
  { pose proof (quiet_Inv clock clock_mono _ _ _ Hq1 HI) as HI1. pose proof (quiet_evolves now _ _ Hq1) as HE1.
    unfold getLibuvNow. destruct (repeat_ r) as [q|]; eexists _, _; (split; [reflexivity|]).
    - split_and!; [|by apply (evolves_trans now [] [] _ _ _ HE1), evolves_read|done|by eexists].
      by eapply (Inv_same clock clock_mono); [..|exact HI1]; cbn; auto with lia.
    - split_and!; [done|done|done|]. by intros [? ?]. }
  set (st3 := log (EvFire t) st2). pose proof (evolves_fire t st2) as HE3. fold st3 in HE3.
  assert (Inv (Some t) st3) as HI3 by (by eapply (Inv_same clock clock_mono); [..|exact HI2]).
  assert (ready (Some t) st3) as HR3.
  { eapply (ready_evolves (Some t)); [|exact HE3|done].
    apply (ready_evolves (Some t) (Some t) [] st st2); [by split|exact HE2|done]. }
  pose proof (exec_ok clock initHooks clock_mono now (Some t) (callback (default [] (timerArgs r))) st3 HR3) as [HI4 HE4 HK4].
  destruct (exec _ st3) as [st4 res4]. cbn [fst] in HI4, HE4, HK4.
  destruct (HK4 t r) as (r4 & Ht4 & Er4 & Ha4); [by rewrite <- Et2 in Ht|].
  destruct (after_callback_ok t r4 (asyncId r) start st4 HI4 Ht4 (Ha4 Ha)) as (st5 & -> & HI5 & HE5);
    [by rewrite Er4|].
  pose proof (evolves_trans now _ _ _ _ _ (evolves_trans now _ _ _ _ _ (evolves_trans now _ _ _ _ _ HE2 HE3) HE4) HE5) as HE.
  cbn [app] in HE. destruct res4 as [u|e]; intros [= <- <-]; [|done].
  assert (quiet st5 (log (EvAfter (asyncId r)) st5)) as Hq by by apply quiet_log.
  split; [by eapply (quiet_Inv clock clock_mono)|]. apply (evolves_trans now [t] [] _ _ _ HE). by apply quiet_evolves.
Qed.

Lemma fire_ok t r st st' res :
  ready None st -> timeouts st !! t = Some r -> alive_or_cancelled r ->
  fire clock initHooks t st = (st', res) ->
  ready None st' /\ exists fs, evolves fs st st' /\ ~ due now st' t /\
    (fs = [] \/ fs = [t] /\ ~ cleared st t).
Proof.
  intros HR Ht Ha. unfold fire.
  destruct (take_out t r st (proj1 HR) Ht) as (HI1 & HE1 & Hu). set (st1 := set_links _ st) in *.
  assert (ready (Some t) st1) as HR1 by by eapply ready_evolves.
  assert (~ due now st1 t) as Hd1 by (intros [? _]; done).
  assert (timeouts st1 !! t = Some r) as Ht1 by done. rewrite Ht1.
  assert (forall fs st', evolves fs st1 st' -> Inv None st' -> (fs = [] \/ fs = [t] /\ ~ cleared st t) ->
    ready None st' /\ exists fs, evolves fs st st' /\ ~ due now st' t /\ (fs = [] \/ fs = [t] /\ ~ cleared st t)) as Hdone.
  { intros fs st2 HE HI Hfs. split; [by eapply ready_evolves|]. exists fs. split_and!; [|by intros ?%(ev_due _ _ _ _ HE)|done].
    by apply (evolves_trans now [] fs _ _ _ HE1). }
  destruct (onTimeout r) as [cb|] eqn:Eo.
  - intros Ec. destruct (call_timer_ok _ _ _ _ _ _ HR1 Ht1 Ha Ec) as [HI2 HE2].
    apply (Hdone [t]); [done|done|right]. split; [done|]. intros (r0 & Hr0 & E0). unfold is_cleared in E0. congruence.
  - destruct (destroyed r) eqn:Ed; intros [= <- <-].
    + apply (Hdone []); [apply evolves_refl| |by left]. eapply Inv_settle; [done|done|by left].
    + destruct (destroy_ok t r (asyncId r) st1 HI1 Ht1 Ed Hu) as [HI2 HE2]. apply (Hdone []); [done|done|by left].
Qed.

Lemma between_ok ran st st' res :
  ready None st -> between clock ticks initHooks ran st = (st', res) -> keeps None st st' /\ ready None st'.
Proof.
  intros HR. unfold between, runNextTicks. destruct ran; [|intros [= <- <-]; split; [apply keeps_refl, HR|done]].
  set (st1 := set_tickRuns _ _). intros E.
  assert (keeps None st st1) as HK1 by by apply (quiet_keeps clock clock_mono); [apply HR|].
  pose proof (exec_ok clock initHooks clock_mono now None (ticks (tickRuns st)) st1) as HK2. rewrite E in HK2.
  assert (keeps None st st') as HK by (eapply keeps_then; [exact clock_mono|exact HR|exact HK1|exact HK2]).
  split; [done|]. by eapply keeps_ready.
Qed.

(** ** What a call of [processTimers(now)] may do

    As [evolves], but the lists it has dealt with expire later than [now], and
    it fires timers: only those that were due, each once, and none that was
    cancelled. *)

Record advances (fs : list positive) (st st' : state) : Prop := Advances {
  ad_lists : forall l L, lists st !! l = Some L ->
    exists L', lists st' !! l = Some L' /\ msecs L' = msecs L /\ (L' = L \/ now < expiry L');
  ad_mapped : forall l L', mapped st' l -> lists st' !! l = Some L' ->
    mapped st l /\ lists st !! l = Some L' \/ now < expiry L';
  ad_due : forall t, due now st' t -> due now st t;
  ad_cleared : forall t, cleared st t -> cleared st' t;
  ad_fired : fired st' = fired st ++ fs;
  ad_once : NoDup fs;
  ad_fs : forall t, t ∈ fs -> due now st t /\ ~ due now st' t /\ ~ cleared st t;
}.

Lemma evolves_advances fs st st' :
  evolves fs st st' -> NoDup fs ->
  (forall t, t ∈ fs -> due now st t /\ ~ due now st' t /\ ~ cleared st t) ->
  advances fs st st'.
Proof.
  intros [A1 A2 A3 A4 A5 A6 A7 A8] HN Hfs. constructor; try done.
  - intros l L HL. exists L. auto.
  - intros l L' Hl HL'. destruct (A4 l Hl) as [Hm|(Hn & L & HL & He)].
    + left. split; [done|]. destruct Hm as (L & HL & _). rewrite HL. apply A3 in HL. congruence.
    + right. by replace L' with L by congruence.
Qed.

Lemma keeps_advances cur st st' : keeps cur st st' -> advances [] st st'.
Proof. intros [_ HE _]. apply (evolves_advances [] _ _ HE); [constructor|]. by intros t ?%elem_of_nil. Qed.

Lemma advances_trans fs1 fs2 st1 st2 st3 :
  advances fs1 st1 st2 -> advances fs2 st2 st3 -> advances (fs1 ++ fs2) st1 st3.
Proof.
  intros [A1 A2 A3 A4 A5 A6 A7] [B1 B2 B3 B4 B5 B6 B7]. constructor; auto.
  - intros l L HL. destruct (A1 l L HL) as (L1 & HL1 & Em1 & C1), (B1 l L1 HL1) as (L2 & HL2 & Em2 & C2).
    exists L2. split_and!; [done|congruence|]. destruct C2 as [->|?]; auto.
  - intros l L' Hl HL'. destruct (B2 l L' Hl HL') as [[Hl2 HL2]|?]; auto.
  - by rewrite B5, A5, app_assoc.
  - apply NoDup_app. split_and!; [done| |done]. intros t H1%A7 H2%B7. tauto.
  - intros t [H|H]%elem_of_app.
    + apply A7 in H as (? & ? & ?). split_and!; auto.
    + apply B7 in H as (? & ? & Hc). split_and!; auto.
Qed.

(** ** The list being processed *)

(** A list that is still in the queue has expired, and no list expires before it. *)
Definition first (l : positive) (L : timers_list) (st : state) : Prop :=
  lists st !! l = Some L /\
  (mapped st l -> expiry L <= now /\
     forall l', mapped st l' -> compareTimersLists (lists st) (Some l) (Some l') <= 0).

Lemma first_evolves l L fs st st' : evolves fs st st' -> first l L st -> first l L st'.
Proof.
  intros HE [HL Hf]. pose proof (ev_lists _ _ _ _ HE) as Hls. split; [by apply Hls|]. intros Hm.
  assert (mapped st l) as Hm0.
  { destruct (ev_mapped _ _ _ _ HE l Hm) as [?|[? _]]; [done|congruence]. }
  destruct (Hf Hm0) as [He Hle]. split; [done|]. intros l' Hm'. rewrite compare_le.
  unfold list_of. cbn. rewrite (Hls _ _ HL). cbn.
  destruct (ev_mapped _ _ _ _ HE l' Hm') as [Hm1|(_ & L1 & HL1 & He1)].
  - specialize (Hle l' Hm1). rewrite compare_le in Hle. destruct Hm1 as (L1 & HL1 & _).
    unfold list_of in Hle. cbn in Hle. rewrite HL, HL1 in Hle. rewrite (Hls _ _ HL1). done.
  - rewrite HL1. cbn. lia.
Qed.

Lemma first_root l L st : Inv None st -> mapped st l -> first l L st -> queue_peek st = Some l.
Proof.
  intros (R & HS & HT & _) Hm [HL Hf]. apply (queue_root (lists st)); [apply HS|by apply (s_contents _ _ _ HS)|..].
  - intros l' (L' & HL' & _)%(s_contents _ _ _ HS) E. unfold list_of in E. cbn in E. rewrite HL, HL' in E.
    by eapply (s_ids_inj _ _ _ HS).
  - intros [l'|] Hx; [|by destruct (s_queue _ _ _ HS)]. apply Hf; [done|]. by apply (s_contents _ _ _ HS).
Qed.

(** The list is done with: out of the queue, or due later. *)
Definition served (l : positive) (st : state) : Prop :=
  forall L, mapped st l -> lists st !! l = Some L -> now < expiry L.

Lemma peek_items R st l :
  structure None R st -> is_Some (lists st !! l) ->
  exists xs, R !! l = Some xs /\ LinkedList.peek l (links st) = head xs.
Proof.
  intros HS Hl. destruct (s_dom _ _ _ HS l) as [_ [xs Hxs]]; [by left|]. exists xs. split; [done|].
  apply (rings_peek _ R); [apply HS|done].
Qed.

Lemma postpone_ok l L t start st :
  ready None st -> first l L st -> mapped st l ->
  LinkedList.peek l (links st) = Some t -> start_at st t = start -> now < start + msecs L ->
  let st' := postpone l start (msecs L) now st in
  ready None st' /\ advances [] st st' /\ served l st'.
Proof.
  intros [HI Hn] Hf Hm Hpk Hst Hlate st'. pose proof (first_root l L st HI Hm Hf) as Hp. destruct Hf as [HL _].
  pose proof HI as (R & HS & HT & HP). pose proof (structure_postpone R st l L start now HS HL Hp) as HS'.
  fold st' in HS'. set (L' := TimersList (Z.max (start + msecs L) (now + 1)) (timerListId st) (msecs L)).
  assert (lists st' = <[l := L']> (lists st)) as El.
  { unfold st', postpone. cbn. unfold list_of. cbn. by rewrite HL. }
  assert (forall l1 L1, lists st' !! l1 = Some L1 -> exists L2, lists st !! l1 = Some L2 /\ msecs L1 = msecs L2 /\
            (L1 = L2 \/ now < expiry L1)) as Hls.
  { rewrite El. intros l1 L1 [[<- <-]|[Hne ?]]%lookup_insert_Some; [exists L|exists L1; auto].
    split_and!; [done|done|right]. cbn. lia. }
  split_and!.
  - split; [|done]. exists R. split_and!; [done| |].
    + eapply timers_ok_same; try done. intros l1 L1 (L2 & ? & ? & _)%Hls _. eauto.
    + intros Hni. destruct (peek_items R st l HS) as ([|x xs] & Hxs & Epk); [eauto|cbn in Epk; congruence|].
      replace x with t in Hxs by (cbn in Epk; congruence).
      apply (punctual_postpone _ _ st st' l t xs L'); [by apply HP|done|done|done|]. cbn. lia.
  - constructor; try done; auto using NoDup_nil_2.
    + intros l1 L1 H1. rewrite El. destruct (decide (l = l1)) as [<-|Hne].
      * exists L'. rewrite lookup_insert_eq. replace L1 with L by congruence. cbn. split_and!; [done|done|right; lia].
      * exists L1. rewrite lookup_insert_ne by done. auto.
    + intros l1 L1 (L0 & HL0 & Hm0) HL1. destruct (Hls l1 L1 HL1) as (L2 & HL2 & Em & [->|?]); [|by right].
      left. split; [|done]. exists L2. split; [done|]. by replace L2 with L0 by congruence.
    + by rewrite app_nil_r.
    + by intros p ?%elem_of_nil.
  - intros L1 _ HL1. rewrite El, lookup_insert_eq in HL1. injection HL1 as <-. cbn. lia.
Qed.

Lemma retire_ok l L st :
  ready None st -> LinkedList.peek l (links st) = None -> first l L st ->
  let st' := retire l (msecs L) st in
  ready None st' /\ advances [] st st' /\ served l st'.
Proof.
  intros [HI Hn] Hpk Hf st'. unfold st', retire. destruct (decide _) as [Hl|Hl].
  2: { split_and!; [done|by eapply keeps_advances, keeps_refl|]. intros L1 (L0 & HL0 & Hm) HL1.
       destruct Hf as [HL _]. replace L with L0 in Hl by congruence. done. }
  pose proof Hf as [HL _]. assert (mapped st l) as Hm by by exists L.
  pose proof (first_root l L st HI Hm Hf) as Hp. destruct HI as (R & HS & HT & HP).
  destruct (peek_items R st l HS) as (xs & Hxs & Epk); [eauto|]. rewrite Hpk in Epk.
  destruct (queue_shift_ok _ _ _ (s_queue _ _ _ HS) Hp) as [Q1 Q2].
  assert (forall t, ~ listed R t l) as Hnone.
  { intros t (ys & Hys & Hin). replace ys with xs in Hin by congruence. destruct xs; [by apply elem_of_nil in Hin|done]. }
  pose proof (structure_unmap R st l L _ HS HL Hl Hnone Q1 Q2) as HS'.
  unfold queue_shift. cbn [lists timerListQueue set_timerListMap]. set (st1 := set_timerListQueue _ _) in *.
  assert (forall l', mapped st1 l' -> mapped st l' /\ l' <> l) as Hsub.
  { intros l' (L' & HL' & Hl'). cbn in HL', Hl'. apply lookup_delete_Some in Hl' as [Hne Hl'].
    split; [by exists L'|]. intros ->. congruence. }
  split_and!.
  - split; [|done]. exists R. split_and!; [done| |].
    + eapply timers_ok_same; [exact HT|done|done| |done]. intros l1 L1 HL1 _. by exists L1.
    + intros Hni. eapply punctual_less; [by apply HP|done|intros l' xs' Hl'; right; by exists xs'|done|done].
  - constructor; try done; auto using NoDup_nil_2.
    + intros l1 L1 H1. exists L1. auto.
    + intros l1 L1 [H1 _]%Hsub HL1. by left.
    + by rewrite app_nil_r.
    + by intros t ?%elem_of_nil.
  - intros L1 [_ ?]%Hsub. done.
Qed.

(** ** The loops *)

Lemma list_loop_ok fuel : forall l L ran st,
  ready None st -> first l L st ->
  match list_loop clock ticks initHooks fuel l (msecs L) now ran st with
  | None => forall D : gset positive, (forall t, due now st t -> t ∈ D) -> (fuel <= size D)%nat
  | Some (st', res) => ready None st' /\ (res = Ok tt -> served l st') /\ exists fs, advances fs st st'
  end.
Proof.
  induction fuel as [|fuel IH]; intros l L ran st HR Hf; cbn [list_loop]; [lia|].
  destruct (LinkedList.peek l (links st)) as [t|] eqn:Ep.
  2: { destruct (retire_ok l L st HR Ep Hf) as (H1 & H2 & H3). eauto. }
  pose proof (proj1 HR) as (R & HS & HT & _). destruct Hf as [HL Hf0].
  destruct (peek_items R st l HS) as (xs & Hxs & Epk); [eauto|]. rewrite Ep in Epk.
  destruct xs as [|x xs]; [done|]. injection Epk as <-.
  assert (listed R t l) as Hlist by (exists (t :: xs); split; [done|left]).
  destruct (s_listed _ _ _ HS t l Hlist) as [Hm [r Hr]].
  destruct (t_listed _ _ _ HT t l r L Hlist Hr HL) as (Hd & Hms & s0 & Hs). rewrite Hr. cbn. rewrite Hs. cbn.
  destruct (now - s0 <? msecs L) eqn:Ed; bool_hyps.
  { destruct (postpone_ok l L t s0 st HR (conj HL Hf0) Hm Ep) as (H1 & H2 & H3); [|lia|eauto].
    unfold start_at. rewrite Hr. cbn. by rewrite Hs. }
  assert (due now st t) as Hdue.
  { split; [apply (linked_listed R st); eauto|]. exists r. split; [done|]. exists s0. split; [done|]. lia. }
  destruct (between clock ticks initHooks ran st) as [st1 res1] eqn:Eb.
  destruct (between_ok ran st st1 res1 HR Eb) as [HK1 HR1]. pose proof (keeps_advances _ _ _ HK1) as HA1.
  destruct res1 as [[]|e]; [|split_and!; [done|done|eauto]].
  destruct (k_alive _ _ _ _ _ HK1 t r Hr) as (r1 & Hr1 & _ & Ha1).
  destruct (fire clock initHooks t st1) as [st2 res2] eqn:Ef.
  destruct (fire_ok t r1 st1 st2 res2 HR1 Hr1 (Ha1 (or_introl Hd)) Ef) as (HR2 & fs & HE2 & Hnd & Hfs).
  assert (advances fs st st2) as HA2.
  { pose proof (evolves_trans now [] fs _ _ _ (k_evolves _ _ _ _ _ HK1) HE2) as HE. cbn [app] in HE.
    apply evolves_advances; [done|destruct Hfs as [->|[-> _]]; [constructor|apply NoDup_singleton]|].
    intros p Hp. destruct Hfs as [->|[-> Hnc]]; [by apply elem_of_nil in Hp|].
    apply list_elem_of_singleton in Hp as ->. split_and!; [done|done|].
    by intros ?%(ev_cleared _ _ _ _ (k_evolves _ _ _ _ _ HK1)). }
  destruct res2 as [[]|e]; [|split_and!; [done|done|eauto]].
  assert (first l L st2) as Hf2.
  { eapply first_evolves; [exact HE2|]. eapply first_evolves; [apply (k_evolves _ _ _ _ _ HK1)|]. done. }
  specialize (IH l L true st2 HR2 Hf2).
  destruct (list_loop _ _ _ _ _ _ _ _ _) as [[st3 res3]|].
  - destruct IH as (HR3 & Hs3 & fs3 & HA3). split_and!; [done|done|]. exists (fs ++ fs3). by eapply advances_trans.
  - intros D HD. specialize (IH (D ∖ {[t]})).
    assert (t ∈ D) as HtD by by apply HD.
    rewrite size_difference in IH by set_solver. rewrite size_singleton in IH.
    assert (fuel <= size D - 1)%nat; [|assert (size D <> 0%nat); [intros E0%size_empty_inv; set_solver|lia]].
    apply IH. intros p Hp. apply elem_of_difference. split; [by apply HD, (ad_due _ _ _ HA2)|].
    intros ->%elem_of_singleton. done.
Qed.

(** What [processTimers] answers: the expiry of the list that expires first,
    negated when no timer keeps the process alive, or 0 when there is no list. *)
Definition answer (n : Z) (st : state) : Prop :=
  (n = 0 /\ forall l, ~ mapped st l) \/
  (exists l L, mapped st l /\ lists st !! l = Some L /\ now < expiry L /\
     nextExpiry st = Some (expiry L) /\
     (forall l' L', mapped st l' -> lists st !! l' = Some L' -> expiry L <= expiry L') /\
     n = if 0 <? timeoutInfo st then expiry L else - expiry L).

Lemma peek_first l st :
  Inv None st -> queue_peek st = Some l ->
  exists L, lists st !! l = Some L /\ mapped st l /\
    (forall l', mapped st l' -> compareTimersLists (lists st) (Some l) (Some l') <= 0).
Proof.
  intros (R & HS & HT & _) Hp.
  destruct (queue_peek_Some _ _ _ (s_queue _ _ _ HS) Hp) as (_ & Hin & Hle).
  apply (s_contents _ _ _ HS) in Hin as Hm. pose proof Hm as (L & HL & _). exists L. split_and!; [done|done|].
  intros l' Hm'. apply Hle. by apply (s_contents _ _ _ HS).
Qed.

Lemma timers_loop_answer l st :
  Inv None st -> queue_peek st = Some l -> now < expiry (list_of (lists st) (Some l)) ->
  let e := expiry (list_of (lists st) (Some l)) in
  answer (if 0 <? timeoutInfo st then e else - e) (set_nextExpiry (Some e) st).
Proof.
  intros HI Hp He e. destruct (peek_first l st HI Hp) as (L & HL & Hm & Hle). right. exists l, L.
  unfold e in *. unfold list_of in *. cbn in *. rewrite HL in *. cbn in *. split_and!; try done.
  intros l' L' Hm' HL'. specialize (Hle l' Hm'). rewrite compare_le in Hle. unfold list_of in Hle. cbn in Hle.
  rewrite HL, HL' in Hle. cbn in Hle. lia.
Qed.

Lemma timers_loop_ok fuel inner : forall ran st,
  ready None st ->
  match timers_loop clock ticks initHooks fuel inner now ran st with
  | None => forall D E : gset positive, (forall t, due now st t -> t ∈ D) ->
      (forall l L, mapped st l -> lists st !! l = Some L -> expiry L <= now -> l ∈ E) ->
      (fuel <= size E \/ inner <= size D)%nat
  | Some (st', res) => ready None st' /\ (forall n, res = Ok n -> answer n st') /\ exists fs, advances fs st st'
  end.
Proof.
  induction fuel as [|fuel IH]; intros ran st HR; cbn [timers_loop]; [lia|].
  pose proof (proj1 HR) as HI. destruct (queue_peek st) as [l|] eqn:Ep.
  2: { split_and!; [done| |exists []; by eapply keeps_advances, keeps_refl]. intros n [= <-]. left. split; [done|].
       intros l Hm. destruct HI as (R & HS & HT & _). apply (s_contents _ _ _ HS) in Hm.
       rewrite (queue_peek_None _ _ (s_queue _ _ _ HS) Ep) in Hm. by apply elem_of_nil in Hm. }
  destruct (now <? expiry (list_of (lists st) (Some l))) eqn:Ee; bool_hyps.
  { split_and!; [split; [by eapply (Inv_same clock clock_mono); [..|exact HI]|apply HR]| |].
    - intros n [= <-]. by apply timers_loop_answer.
    - exists []. constructor; try done; auto using NoDup_nil_2; [by eauto|by rewrite app_nil_r|].
      by intros t ?%elem_of_nil. }
  destruct (peek_first l st HI Ep) as (L & HL & Hm & Hle).
  assert (first l L st) as Hf.
  { split; [done|]. intros _. split; [|done]. unfold list_of in Ee. cbn in Ee. rewrite HL in Ee. done. }
  destruct (between clock ticks initHooks ran st) as [st1 res1] eqn:Eb.
  destruct (between_ok ran st st1 res1 HR Eb) as [HK1 HR1]. pose proof (keeps_advances _ _ _ HK1) as HA1.
  destruct res1 as [[]|e]; [|split_and!; [done|done|eauto]].
  pose proof (first_evolves _ _ _ _ _ (k_evolves _ _ _ _ _ HK1) Hf) as Hf1. unfold listOnTimeout.
  replace (list_of (lists st1) (Some l)) with L by (unfold list_of; cbn; by rewrite (proj1 Hf1)).
  pose proof (list_loop_ok inner l L false st1 HR1 Hf1) as HL1.
  destruct (list_loop _ _ _ _ _ _ _ _ _) as [[st2 res2]|].
  2: { intros D E HD HE. right. apply HL1. intros t Ht. by apply HD, (ad_due _ _ _ HA1). }
  destruct HL1 as (HR2 & Hs2 & fs & HA2). pose proof (advances_trans _ _ _ _ _ HA1 HA2) as HA. cbn [app] in HA.
  destruct res2 as [[]|e]; [|split_and!; [done|done|eauto]].
  specialize (IH true st2 HR2). destruct (timers_loop _ _ _ _ _ _ _ _) as [[st3 res3]|].
  - destruct IH as (HR3 & Hn3 & fs3 & HA3). split_and!; [done|done|]. exists (fs ++ fs3). by eapply advances_trans.
  - intros D E HD HE. assert (l ∈ E) as HlE.
    { apply (HE l L); [done|done|]. unfold list_of in Ee. cbn in Ee. by rewrite HL in Ee. }
    destruct (IH D (E ∖ {[l]})) as [H|H]; [| | |by right].
    + intros t Ht. by apply HD, (ad_due _ _ _ HA).
    + intros l' L' Hm' HL' He'. apply elem_of_difference. split.
      * destruct (ad_mapped _ _ _ HA l' L' Hm' HL') as [[? ?]|?]; [eauto|lia].
      * intros ->%elem_of_singleton. specialize (Hs2 eq_refl L' Hm' HL'). lia.
    + left. rewrite size_difference in H by set_solver. rewrite size_singleton in H.
      assert (size E <> 0%nat) by (intros E0%size_empty_inv; set_solver). lia.
Qed.

Lemma processTimers_ok fuel st :
  ready None st ->
  match processTimers clock ticks initHooks fuel now st with
  | None => (fuel <= size (timeouts st) + size (lists st))%nat
  | Some (st', res) => ready None st' /\ (forall n, res = Ok n -> answer n st') /\ exists fs, advances fs st st'
  end.
Proof.
  intros [HI Hn]. unfold processTimers. set (st1 := set_nextExpiry None st).
  assert (ready None st1) as HR1 by (split; [by eapply (Inv_same clock clock_mono); [..|exact HI]|done]).
  assert (advances [] st st1) as HA1.
  { constructor; try done; auto using NoDup_nil_2; [by eauto|by rewrite app_nil_r|]. by intros t ?%elem_of_nil. }
  pose proof (timers_loop_ok fuel fuel false st1 HR1) as H. destruct (timers_loop _ _ _ _ _ _ _ _) as [[st2 res]|].
  - destruct H as (HR2 & Hres & fs & HA2). split_and!; [done|done|]. exists fs. by apply (advances_trans [] fs _ _ _ HA1).
  - destruct (H (dom (timeouts st)) (dom (lists st))) as [H'|H'].
    + intros t (_ & r & Hr & _). apply elem_of_dom. by exists r.
    + intros l L _ HL _. apply elem_of_dom. by exists L.
    + rewrite size_dom in H'. lia.
    + rewrite size_dom in H'. lia.
Qed.
End Run.
