(* ===== verification/TimersCancel.v ===== *)
(** * A cancelled timer stays cancelled

    The order of the calls of [clearTimeout] and of the callbacks in the trace:
    once the trace names a timer as cleared, it never again names it as fired.
    The invariant [heeded] speaks of every intermediate state, so that it also
    covers a call of [clearTimeout] made by a callback or by a tick while
    [processTimers] runs. *)

From Stdlib Require Import QArith.
From S2P Require Import Prelude JsString JsNumber LinkedList PriorityQueue Timers TimersInv TimersOps.
#[local] Open Scope Z_scope.
Import Timers.

Create HintDb heeded.

(** No timer has the name of an object yet to be created; a timer the trace
    says was cleared has no callback, and was not fired since. *)
Definition heeded (st : state) : Prop :=
  (forall p, (nextObj st <= p)%positive -> timeouts st !! p = None) /\
  forall tr1 t tr2, trace st = tr1 ++ EvClear t :: tr2 -> cleared st t /\ EvFire t ∉ tr2.

Lemma heeded_cleared st t : heeded st -> EvClear t ∈ trace st -> cleared st t.
Proof. intros [_ H] (tr1 & tr2 & E)%list_elem_of_split. apply (H _ _ _ E). Qed.

(** ** How a state may change *)

Lemma heeded_frame st st' :
  heeded st -> trace st' = trace st ->
  (forall p, (nextObj st' <= p)%positive -> timeouts st' !! p = None) ->
  (forall t, cleared st t -> cleared st' t) -> heeded st'.
Proof.
  intros [_ H] Et Hf Hc. split; [done|]. rewrite Et. intros tr1 t tr2 E.
  destruct (H _ _ _ E). split; [by apply Hc|done].
Qed.

Lemma heeded_same st st' :
  heeded st -> trace st' = trace st -> nextObj st' = nextObj st -> timeouts st' = timeouts st -> heeded st'.
Proof.
  intros H Et En Em. apply (heeded_frame st st' H Et); unfold cleared; rewrite Em; [|done].
  rewrite En. apply H.
Qed.

(** A timer keeps its callback, or loses it. *)
Lemma heeded_upd st t f :
  heeded st -> (forall r, onTimeout r = None -> onTimeout (f r) = None) -> heeded (upd t f st).
Proof.
  intros H Hf. apply (heeded_frame st (upd t f st) H eq_refl).
  - intros p Hp. apply lookup_alter_None, H, Hp.
  - intros p (r & Hr & Hc). unfold cleared, upd. cbn. destruct (decide (t = p)) as [<-|Hne].
    + exists (f r). rewrite lookup_alter_eq, Hr. split; [done|]. by apply Hf.
    + exists r. by rewrite lookup_alter_ne.
Qed.

(** One more event: a callback starts only if the timer has one; a call of
    [clearTimeout] is recorded of a timer that has none. *)
Definition lawful (st : state) (e : event) : Prop :=
  match e with EvFire t => ~ cleared st t | EvClear t => cleared st t | _ => True end.

Lemma heeded_log st e : heeded st -> lawful st e -> heeded (log e st).
Proof.
  intros H He. split; [apply H|]. cbn. intros tr1 t tr2 E.
  destruct tr2 as [|e' tr3 _] using rev_ind.
  - apply app_inj_tail in E as [_ ->]. split; [done|]. apply not_elem_of_nil.
  - rewrite app_comm_cons, app_assoc in E. apply app_inj_tail in E as [E ->].
    destruct (proj2 H _ _ _ E) as [Hc Hn]. split; [done|].
    rewrite elem_of_app, list_elem_of_singleton. intros [?| <-]; [done|]. by destruct He.
Qed.

Lemma heeded_event st e : heeded st -> (forall t, e <> EvFire t /\ e <> EvClear t) -> heeded (log e st).
Proof. intros H He. apply heeded_log; [done|]. destruct e; try done; by destruct (He t). Qed.

(** A new timer. *)
Lemma heeded_new st st' r :
  heeded st -> trace st' = trace st -> nextObj st' = Pos.succ (nextObj st) ->
  timeouts st' = <[nextObj st := r]> (timeouts st) -> heeded st'.
Proof.
  intros H Et En Em. apply (heeded_frame st st' H Et); unfold cleared; rewrite Em.
  - rewrite En. intros p Hp. rewrite lookup_insert_ne by lia. apply H. lia.
  - intros p (r0 & Hr0 & Hc). exists r0. rewrite lookup_insert_ne; [done|]. intros <-.
    rewrite (proj1 H) in Hr0 by lia. done.
Qed.

(** Steps that record an event or set a field at most. *)
Ltac heed :=
  repeat (first
    [ assumption
    | apply heeded_event; [|done]
    | apply heeded_upd; [|done]
    | match goal with
      | |- heeded (_ _ ?st) => apply (heeded_same st); [|reflexivity..]
      | |- heeded (_ ?st) => apply (heeded_same st); [|reflexivity..]
      end ]).

#[export] Hint Resolve heeded_event heeded_upd : heeded.

(** ** The operations of a program *)

Lemma heeded_incRef st : heeded st -> heeded (incRefCount st).
Proof. intros H. unfold incRefCount. case_match; heed. Qed.

Lemma heeded_decRef st : heeded st -> heeded (decRefCount st).
Proof. intros H. unfold decRefCount. case_match; heed. Qed.
#[local] Hint Resolve heeded_incRef heeded_decRef : heeded.

Section Ops.
Context (clock : nat -> Z) (ticks : nat -> prog) (initHooks : bool).

Lemma heeded_async t st : heeded st -> heeded (initAsyncResource initHooks t st).
Proof. intros H. unfold initAsyncResource. destruct initHooks; heed. Qed.
#[local] Hint Resolve heeded_async : heeded.

Lemma heeded_new_list e m st : heeded st -> heeded (new_TimersList e m st).2.
Proof.
  intros H. apply (heeded_frame st (new_TimersList e m st).2 H eq_refl); [|done].
  intros p Hp. apply H. cbn in Hp. lia.
Qed.

Lemma heeded_find_list m s st : heeded st -> heeded (find_list m s st).2.
Proof.
  intros H. unfold find_list. destruct (timerListMap st !! m); [done|].
  pose proof (heeded_new_list (s + m) m st H) as H1. destruct (new_TimersList _ _ _) as [l st1].
  cbn [snd] in *. cbv zeta. case_match; heed.
Qed.

Lemma heeded_insert t q start st : heeded st -> heeded (insert clock t q start st).1.
Proof.
  intros H. unfold insert, getLibuvNow.
  assert (forall s st1, heeded st1 -> heeded (let '(l, st2) := find_list (MathTrunc q) s (upd t (with_idleStart s) st1) in
    match LinkedList.append l t (links st2) with
    | Ok h => (set_links h st2, Ok tt) | Throw e => (st2, Throw e) end).1) as Hi.
  { intros s st1 H1. pose proof (heeded_find_list (MathTrunc q) s (upd t (with_idleStart s) st1)) as H2.
    destruct (find_list _ _ _) as [l st2]. cbn in H2. destruct (LinkedList.append _ _ _); cbn; heed; apply H2; heed. }
  destruct start as [s|]; apply Hi; heed.
Qed.

Lemma heeded_insertGuarded t b st : heeded st -> heeded (insertGuarded clock initHooks t b st).1.
Proof.
  intros H. unfold insertGuarded. destruct (timeouts st !! t) as [r|]; [|done]. case_match; [done|].
  pose proof (heeded_insert t (idleTimeout r) None st H) as H1. destruct (insert _ _ _ _ _) as [st1 [u|e]]; [|done].
  cbn in *. unfold rescheduled. repeat case_match; auto 6 with heeded.
Qed.

Lemma heeded_schedule cb after args isRepeat isRefed st :
  heeded st -> heeded (schedule clock initHooks cb after args isRepeat isRefed st).1.
Proof.
  intros H. unfold schedule. destruct (validateFunction cb _) as [f|e]; [|done].
  assert (heeded (new_Timeout initHooks f after args isRepeat isRefed st).2) as H1.
  { unfold new_Timeout. destruct (checked_after after st) as [q st1] eqn:E.
    assert (heeded st1) as H1 by (unfold checked_after, warn_after in E; repeat case_match; simplify_eq; heed).
    cbn. apply heeded_async. set (st2 := set_timeouts _ _).
    assert (heeded st2) as H2 by by eapply (heeded_new st1).
    destruct isRefed; auto with heeded. }
  destruct (new_Timeout _ _ _ _ _ _ _) as [t st1]. cbn in H1.
  pose proof (heeded_insert t (default 0%Q (idleTimeout <$> timeouts st1 !! t)) None st1 H1) as H2.
  by destruct (insert _ _ _ _ _) as [st2 [u|e]].
Qed.

Lemma heeded_refresh t st : heeded st -> heeded (refresh clock initHooks t st).1.
Proof. intros H. unfold refresh. repeat case_match; by try apply heeded_insertGuarded. Qed.

Lemma heeded_unref t st : heeded st -> heeded (unref t st).1.
Proof. intros H. unfold unref. repeat case_match; cbn [fst]; auto with heeded. Qed.

Lemma heeded_ref t st : heeded st -> heeded (ref t st).1.
Proof. intros H. unfold ref. repeat case_match; cbn [fst]; auto with heeded. Qed.

Lemma heeded_toPrimitive t st : heeded st -> heeded (toPrimitive t st).1.
Proof. intros H. unfold toPrimitive. repeat case_match; cbn [fst]; heed. Qed.

Lemma heeded_unenroll t st : heeded st -> heeded (unenroll t st).
Proof.
  intros H. unfold unenroll, forget_primitive, drop_list. cbv zeta.
  repeat case_match; try done; apply heeded_upd; try done; try apply heeded_decRef; heed.
Qed.

(** [clearTimeout] leaves the timer it names without a callback. *)
Lemma heeded_clear t st : heeded st -> heeded (clear_timer t (note_clear t st)).
Proof.
  intros H. apply heeded_unenroll. unfold note_clear. destruct (timeouts st !! t) as [r|] eqn:Ht; [|by apply heeded_upd].
  assert (upd t without_onTimeout (log (EvClear t) st) = log (EvClear t) (upd t without_onTimeout st)) as -> by done.
  apply heeded_log; [by apply heeded_upd|]. exists (without_onTimeout r).
  unfold upd. cbn. by rewrite lookup_alter_eq, Ht.
Qed.

Lemma heeded_clearTimeout h st : heeded st -> heeded (clearTimeout h st).
Proof.
  intros H. destruct h as [t|z|s|]; cbn [clearTimeout]; unfold clear_known;
    try (destruct (knownTimersById st !! _)); try by (try apply heeded_clear).
  cbv zeta. destruct (timeouts (note_clear t st) !! t ≫= onTimeout) eqn:E; [by apply heeded_clear|].
  unfold note_clear in *. destruct (timeouts st !! t) as [r|] eqn:Ht; [|done].
  apply heeded_log; [done|]. exists r. split; [done|]. cbn in E. by rewrite Ht in E.
Qed.

(** ** Programs and [processTimers] *)

Lemma heeded_exec p : forall st, heeded st -> heeded (exec clock initHooks p st).1.
Proof.
  induction p as [|e|cb a args k IH|cb a args k IH|cb a k IH|h k IH|t k IH|t k IH|t k IH|t k IH|t k IH];
    intros st H; cbn [exec]; try done.
  - pose proof (heeded_schedule cb a (args_or_undefined args) false true st H) as H1.
    unfold setTimeout. destruct (schedule _ _ _ _ _ _ _ _). by apply IH.
  - pose proof (heeded_schedule cb a (args_or_undefined args) true true st H) as H1.
    unfold setInterval. destruct (schedule _ _ _ _ _ _ _ _). by apply IH.
  - pose proof (heeded_schedule cb a None false false st H) as H1.
    unfold setUnrefTimeout. destruct (schedule _ _ _ _ _ _ _ _). by apply IH.
  - by apply IH, heeded_clearTimeout.
  - pose proof (heeded_refresh t st H). destruct (refresh _ _ _ _) as [st1 [|]]; [by apply IH|done].
  - pose proof (heeded_unref t st H). destruct (unref _ _) as [st1 [|]]; [by apply IH|done].
  - pose proof (heeded_ref t st H). destruct (ref _ _) as [st1 [|]]; [by apply IH|done].
  - unfold hasRef. destruct (timeouts st !! t); [by apply IH|done].
  - pose proof (heeded_toPrimitive t st H). destruct (toPrimitive _ _) as [st1 [|]]; [by apply IH|done].
Qed.

Lemma heeded_between ran st : heeded st -> heeded (between clock ticks initHooks ran st).1.
Proof. intros H. unfold between, runNextTicks. destruct ran; [|done]. apply heeded_exec. heed. Qed.

Lemma heeded_destroy t r i st : heeded st -> heeded (destroy t r i st).
Proof. intros H. unfold destroy. cbv zeta. repeat case_match; heed. Qed.

Lemma heeded_after_callback t i start st : heeded st -> heeded (after_callback clock t i start st).1.
Proof.
  intros H. unfold after_callback.
  repeat case_match; cbn [fst]; auto using heeded_destroy. by apply heeded_insert, heeded_upd.
Qed.

(** The callback is looked up after the ticks, and just before it is called. *)
Lemma heeded_fire t st : heeded st -> heeded (fire clock initHooks t st).1.
Proof.
  intros H. unfold fire. set (st1 := set_links _ st). assert (heeded st1) as H1 by (unfold st1; heed).
  destruct (timeouts st1 !! t) as [r|] eqn:Ht; [|done].
  destruct (onTimeout r) as [cb|] eqn:Eo; [|case_match; [done|by apply heeded_destroy]].
  assert (forall st2, timeouts st2 = timeouts st1 -> heeded st2 -> heeded (log (EvFire t) st2)) as Hfire.
  { intros st2 E H2. apply heeded_log; [done|]. intros (r0 & Hr0 & E0). rewrite E in Hr0. unfold is_cleared in E0. congruence. }
  unfold call_timer, getLibuvNow.
  assert (forall start st2, heeded st2 -> heeded (let '(st3, res) := exec clock initHooks (cb (default [] (timerArgs r))) st2 in
    match after_callback clock t (asyncId r) start st3 with
    | (st4, Throw e) => (st4, Throw e)
    | (st4, Ok _) => match res with Throw e => (st4, Throw e) | Ok _ => (log (EvAfter (asyncId r)) st4, Ok tt) end
    end).1) as Hrest.
  { intros start st2 H2. pose proof (heeded_exec (cb (default [] (timerArgs r))) st2 H2) as H3.
    destruct (exec _ _ _ _) as [st3 res]. pose proof (heeded_after_callback t (asyncId r) start st3 H3) as H4.
    destruct (after_callback _ _ _ _ _) as [st4 [|]]; [|done]. destruct res; cbn in *; heed. }
  destruct (repeat_ r); apply Hrest, Hfire; try done; heed.
Qed.

Lemma heeded_list_loop l m now fuel : forall ran st st' res,
  heeded st -> list_loop clock ticks initHooks fuel l m now ran st = Some (st', res) -> heeded st'.
Proof.
  induction fuel as [|fuel IH]; intros ran st st' res H; cbn [list_loop]; [done|].
  destruct (LinkedList.peek l (links st)) as [t|]; [|intros [= <- _]; unfold retire; case_match; heed].
  case_match; [intros [= <- _]; unfold postpone; heed|].
  pose proof (heeded_between ran st H) as H1. destruct (between _ _ _ _ _) as [st1 [|]]; [|by intros [= <- _]].
  pose proof (heeded_fire t st1 H1) as H2. destruct (fire _ _ _ _) as [st2 [|]]; [|by intros [= <- _]].
  by apply IH.
Qed.

Lemma heeded_timers_loop inner now fuel : forall ran st st' res,
  heeded st -> timers_loop clock ticks initHooks fuel inner now ran st = Some (st', res) -> heeded st'.
Proof.
  induction fuel as [|fuel IH]; intros ran st st' res H; cbn [timers_loop]; [done|].
  destruct (queue_peek st) as [l|]; [|by intros [= <- _]].
  case_match; [intros [= <- _]; heed|].
  pose proof (heeded_between ran st H) as H1. destruct (between _ _ _ _ _) as [st1 [|]]; [|by intros [= <- _]].
  unfold listOnTimeout. destruct (list_loop _ _ _ _ _ _ _ _ _) as [[st2 [|]]|] eqn:E; [| |done];
    apply heeded_list_loop in E; try done; [by apply IH|by intros [= <- _]].
Qed.

Lemma heeded_processTimers fuel now st st' res :
  heeded st -> processTimers clock ticks initHooks fuel now st = Some (st', res) -> heeded st'.
Proof. intros H. apply heeded_timers_loop. heed. Qed.
End Ops.

Lemma heeded_initial : heeded initial.
Proof. split; [done|]. by intros [|? ?] t tr2 ?. Qed.

(** ** Every call is recorded *)

(** What [clearTimeout] is given names a timer. *)
Definition names (st : state) (h : handle) (t : positive) : Prop :=
  match h with
  | HTimer t' => t' = t
  | HNumber z => knownTimersById st !! js_of_Z z = Some t
  | HString s => knownTimersById st !! s = Some t
  | HOther => False
  end.

Lemma decRefCount_trace st : exists tr, trace (decRefCount st) = trace st ++ tr.
Proof. unfold decRefCount. case_match; eexists; [done|symmetry; apply app_nil_r]. Qed.

Lemma unenroll_trace t st : exists tr, trace (unenroll t st) = trace st ++ tr.
Proof.
  unfold unenroll. destruct (timeouts st !! t) as [r|]; [|by exists []; rewrite app_nil_r].
  destruct (destroyed r); [by exists []; rewrite app_nil_r|]. cbv zeta. set (st1 := set_links _ _).
  assert (trace st1 = trace st ++ [EvDestroy (asyncId r)]) as E1 by (unfold st1, forget_primitive; by destruct (hasPrimitive r)).
  destruct (refed r); [|by exists [EvDestroy (asyncId r)]].
  assert (trace (drop_list r st1) = trace st1) as E2 by (unfold drop_list; by repeat case_match).
  destruct (decRefCount_trace (drop_list r st1)) as [tr E3]. exists (EvDestroy (asyncId r) :: tr).
  change (trace (decRefCount (drop_list r st1)) = trace st ++ EvDestroy (asyncId r) :: tr).
  by rewrite E3, E2, E1, <- app_assoc.
Qed.

Lemma clearTimeout_recorded st h t :
  is_Some (timeouts st !! t) -> names st h t ->
  exists tr, trace (clearTimeout h st) = trace st ++ EvClear t :: tr.
Proof.
  intros [r Ht] Hn.
  assert (exists tr, trace (clear_timer t (note_clear t st)) = trace st ++ EvClear t :: tr) as Hc.
  { unfold clear_timer. destruct (unenroll_trace t (upd t without_onTimeout (note_clear t st))) as [tr ->].
    exists tr. unfold note_clear. rewrite Ht. cbn. by rewrite <- app_assoc. }
  destruct h as [t'|z|s|]; cbn in Hn |- *; unfold clear_known; subst; rewrite ?Hn; try done.
  case_match; [done|]. exists []. unfold note_clear. by rewrite Ht.
Qed.
