(* ===== verification/TimersClaims.v ===== *)
(** * The timers: what the event loop relies on

    The states reachable by running programs and by calling [processTimers]
    with a reading of the clock, in any order, and the theorems about them. *)

From Stdlib Require Import QArith.
From S2P Require Import Prelude JsString JsNumber LinkedList Rings PriorityQueue PriorityQueueFacts Timers TimerQueue TimersInv TimersOps TimersRun TimersCancel.
#[local] Open Scope Z_scope.
Import Timers.

(** ** Reachable states *)

Section Reach.
Context (clock : nat -> Z) (ticks : nat -> prog) (initHooks : bool).

(** The event loop calls [processTimers] with the time it is. *)
Definition process_now (fuel : nat) (st : state) : option (state * result Z) :=
  let '(now, st) := getLibuvNow clock st in processTimers clock ticks initHooks fuel now st.

Inductive step : state -> state -> Prop :=
  | step_run p st : step st (exec clock initHooks p st).1
  | step_process fuel st st' res : process_now fuel st = Some (st', res) -> step st st'.

Definition reachable : state -> Prop := rtc step initial.

Context (clock_mono : forall i j, (i <= j)%nat -> clock i <= clock j).

Lemma Inv_initial : Inv clock None initial.
Proof.
  exists ∅. split_and!.
  - constructor; cbn; try done.
    + intros l. rewrite !lookup_empty. split; [by intros [? ?]|intros [[? ?]|?]; done].
    + by intros t l (xs & ?%lookup_empty_Some & _).
    + apply queue_ok_new.
    + intros l. split; [by intros ?%elem_of_nil|by intros (L & ? & _)].
    + intros p. left. apply lookup_empty.
  - constructor; cbn; done.
  - intros _. constructor; try done. by intros t l (xs & ? & _).
Qed.

Lemma exec_keeps p st : Inv clock None st -> keeps clock (time clock st) None st (exec clock initHooks p st).1.
Proof. intros HI. apply exec_ok; [done|]. by split. Qed.

Lemma process_now_ok fuel st :
  Inv clock None st ->
  match process_now fuel st with
  | None => (fuel <= size (timeouts st) + size (lists st))%nat
  | Some (st', res) => Inv clock None st' /\ (forall n, res = Ok n -> answer (time clock st) n st') /\
      exists fs, advances (time clock st) fs st st'
  end.
Proof.
  intros HI. unfold process_now, getLibuvNow. set (st1 := set_clockReads _ st).
  assert (ready clock (time clock st) None st1) as HR.
  { split; [|apply clock_mono; cbn; lia]. eapply (Inv_same clock clock_mono); [..|exact HI]; cbn; auto with lia. done. }
  pose proof (processTimers_ok clock ticks initHooks clock_mono (time clock st) fuel st1 HR) as H.
  fold (time clock st). destruct (processTimers _ _ _ _ _ _) as [[st' res]|]; [|done].
  destruct H as ([HI' _] & Hn & fs & HA). split_and!; [done|done|]. exists fs.
  apply (advances_trans _ [] fs st st1 st'); [|done]. apply evolves_advances; [apply evolves_read|constructor|].
  by intros t ?%elem_of_nil.
Qed.

Lemma step_Inv st st' : Inv clock None st -> step st st' -> Inv clock None st'.
Proof.
  intros HI Hs. revert HI. destruct Hs as [p st0|fuel st0 st1 res E]; intros HI; [by destruct (exec_keeps p st0 HI)|].
  pose proof (process_now_ok fuel st0 HI) as H. rewrite E in H. apply H.
Qed.

Lemma steps_Inv st st' : Inv clock None st -> rtc step st st' -> Inv clock None st'.
Proof. induction 2; eauto using step_Inv. Qed.

Lemma reachable_Inv st : reachable st -> Inv clock None st.
Proof. apply steps_Inv, Inv_initial. Qed.

(** A timer is destroyed exactly when it is in no list. *)
Lemma Inv_linked st t r :
  Inv clock None st -> timeouts st !! t = Some r -> destroyed r = false <-> linked st t.
Proof.
  intros (R & HS & HT & _) Ht. rewrite (linked_listed R st t HS) by eauto. split.
  - intros Hd. by destruct (t_live _ _ _ HT t r Ht Hd) as [?|?].
  - intros (l & Hl). destruct (s_listed _ _ _ HS t l Hl) as [(L & HL & _) _].
    by destruct (t_listed _ _ _ HT t l r L Hl Ht HL).
Qed.

Lemma step_heeded st st' : heeded st -> step st st' -> heeded st'.
Proof.
  intros H Hs. destruct Hs as [p st|fuel st st' res E]; [by apply heeded_exec|].
  unfold process_now, getLibuvNow in E. eapply heeded_processTimers; [|exact E].
  by apply (heeded_same st).
Qed.

Lemma reachable_heeded st : reachable st -> heeded st.
Proof. intros HR. apply (rtc_ind_r (R := step) heeded initial); eauto using step_heeded, heeded_initial. Qed.

(** Steps in which [processTimers] returns; when a callback throws, the event
    loop calls it again. *)
Inductive calm_step : state -> state -> Prop :=
  | calm_run p st : calm_step st (exec clock initHooks p st).1
  | calm_process fuel st st' n : process_now fuel st = Some (st', Ok n) -> calm_step st st'.

Lemma calm_armed st st' : Inv clock None st -> calm_step st st' -> armed st -> Inv clock None st' /\ armed st'.
Proof.
  intros HI Hs Ha. destruct Hs as [p st|fuel st st' n E].
  - destruct (exec_keeps p st HI) as [HI' HE _]. split; [done|]. by apply (ev_armed _ _ _ _ HE).
  - pose proof (process_now_ok fuel st HI) as H. rewrite E in H. destruct H as (HI' & Hn & _).
    split; [done|]. intros l L Hl HL. destruct (Hn n eq_refl) as [[_ H]|(l0 & L0 & _ & _ & _ & En & Hmin & _)].
    + by destruct (H l).
    + eauto.
Qed.
End Reach.

(** ** A program and a clock *)

Definition demo_clock (n : nat) : Z := 10 * Z.of_nat n.

Lemma demo_clock_mono i j : (i <= j)%nat -> demo_clock i <= demo_clock j.
Proof. unfold demo_clock. lia. Qed.

Definition demo_ticks (_ : nat) : prog := Done.
Definition nothing : option (list jsval -> prog) := Some (fun _ => Done).
Definition ms (n : Z) : option num := Some (Fin (inject_Z n)).

(** Timers 1 and 3 of 5 ms, 1 sets another one when it fires; 4 of 50 ms. *)
Definition demo_main : prog :=
  SetTimeout (Some (fun _ => SetTimeout nothing (ms 5) [] (fun _ => Done))) (ms 5) [] (fun _ =>
  SetUnrefTimeout nothing (ms 5) (fun _ => SetTimeout nothing (ms 50) [] (fun _ => Done))).

Definition demo_state : state := (exec demo_clock false demo_main initial).1.
Definition demo_after : state :=
  default initial (fst <$> process_now demo_clock demo_ticks false 9 demo_state).

Lemma demo_reachable : reachable demo_clock demo_ticks false demo_state.
Proof. apply rtc_once, (step_run demo_clock demo_ticks false demo_main initial). Qed.

Lemma demo_process : process_now demo_clock demo_ticks false 9 demo_state = Some (demo_after, Ok 45).
Proof. vm_compute. reflexivity. Qed.

(** ** Claims *)

(** C3. In every state the program can reach, whatever programs, callbacks and
    ticks do, the lists, the map, the queue and the timers fit together; in
    particular a timer is destroyed exactly when it is in no list. *)
Theorem timers_invariant clock ticks initHooks st :
  (forall i j, (i <= j)%nat -> clock i <= clock j) -> reachable clock ticks initHooks st ->
  Inv clock None st /\
  forall t r, timeouts st !! t = Some r -> destroyed r = false <-> linked st t.
Proof.
  intros Hc HR. pose proof (reachable_Inv _ _ _ Hc _ HR) as HI. split; [done|].
  intros t r Ht. by eapply Inv_linked.
Qed.

Lemma timers_invariant_witness : Inv demo_clock None demo_state.
Proof. apply (timers_invariant demo_clock demo_ticks false); [apply demo_clock_mono|apply demo_reachable]. Defined.

(** C7. [timeoutInfo[0]], which decides whether the process stays alive, is
    the number of scheduled timers that were not unreferenced, as a 32-bit
    integer. *)
Theorem timers_refcount clock ticks initHooks st :
  (forall i j, (i <= j)%nat -> clock i <= clock j) -> reachable clock ticks initHooks st ->
  timeoutInfo st =
  toInt32 (Z.of_nat (size (filter (fun '(t, r) => refed r = true /\ linked st t) (timeouts st)))).
Proof.
  intros Hc HR. pose proof (reachable_Inv _ _ _ Hc _ HR) as HI. pose proof HI as (R & _ & HT & _).
  rewrite (t_count _ _ _ HT). unfold count. do 3 f_equal. apply map_filter_ext.
  intros t r Ht. cbn. unfold counted. rewrite andb_true_iff, negb_true_iff.
  by rewrite (Inv_linked clock st t r HI Ht).
Qed.

Lemma timers_refcount_witness :
  toInt32 (Z.of_nat (size (filter (fun '(t, r) => refed r = true /\ linked demo_state t) (timeouts demo_state)))) = 2.
Proof.
  rewrite <- (timers_refcount demo_clock demo_ticks false demo_state demo_clock_mono demo_reachable).
  vm_compute. reflexivity.
Defined.

(** [processTimers] returns, whatever the callbacks do, after a number of
    iterations bounded by the number of timers and lists there were; and when
    no callback throws it answers the expiry of the list that expires first,
    negative when no timer keeps the process alive, or 0 when there is none. *)
Theorem timers_process_returns clock ticks initHooks fuel st :
  (forall i j, (i <= j)%nat -> clock i <= clock j) -> reachable clock ticks initHooks st ->
  (size (timeouts st) + size (lists st) < fuel)%nat ->
  exists st' res, process_now clock ticks initHooks fuel st = Some (st', res) /\
    forall n, res = Ok n -> answer (time clock st) n st'.
Proof.
  intros Hc HR Hf. pose proof (process_now_ok clock ticks initHooks Hc fuel st (reachable_Inv _ _ _ Hc _ HR)) as H.
  destruct (process_now _ _ _ _ _) as [[st' res]|]; [|lia]. exists st', res. split; [done|apply H].
Qed.

Lemma timers_process_returns_witness :
  exists st' res, process_now demo_clock demo_ticks false 9 demo_state = Some (st', res) /\
    forall n, res = Ok n -> answer (time demo_clock demo_state) n st'.
Proof.
  apply (timers_process_returns demo_clock demo_ticks false 9 demo_state demo_clock_mono demo_reachable).
  vm_compute. lia.
Defined.

(** C4. [processTimers(now)] fires a timer only when it was scheduled, and its
    duration had passed, when the call began, and fires it at most once,
    although callbacks may schedule it again. *)
Theorem timers_fire_once_when_due clock ticks initHooks fuel st st' res :
  (forall i j, (i <= j)%nat -> clock i <= clock j) -> reachable clock ticks initHooks st ->
  process_now clock ticks initHooks fuel st = Some (st', res) ->
  exists fs, fired st' = fired st ++ fs /\ NoDup fs /\ forall t, t ∈ fs -> due (time clock st) st t.
Proof.
  intros Hc HR E. pose proof (process_now_ok clock ticks initHooks Hc fuel st (reachable_Inv _ _ _ Hc _ HR)) as H.
  rewrite E in H. destruct H as (_ & _ & fs & [_ _ _ _ A1 A2 A3]). exists fs. split_and!; [done|done|].
  intros t Ht. by apply A3.
Qed.

Lemma timers_fire_once_when_due_witness :
  fired demo_after = [1; 3]%positive /\
  exists fs, fired demo_after = fired demo_state ++ fs /\ NoDup fs /\
    forall t, t ∈ fs -> due (time demo_clock demo_state) demo_state t.
Proof.
  split; [vm_compute; reflexivity|].
  apply (timers_fire_once_when_due demo_clock demo_ticks false 9 demo_state demo_after (Ok 45) demo_clock_mono demo_reachable).
  apply demo_process.
Defined.

(** C5. When [processTimers(now)] returns, no timer is overdue, provided no
    interval was ever set. *)
Theorem timers_nothing_overdue clock ticks initHooks fuel st st' n :
  (forall i j, (i <= j)%nat -> clock i <= clock j) -> reachable clock ticks initHooks st ->
  process_now clock ticks initHooks fuel st = Some (st', Ok n) -> no_intervals st' ->
  forall t, ~ due (time clock st) st' t.
Proof.
  intros Hc HR E Hn t [Hl (r & Ht & s & Hs & Hd)].
  pose proof (process_now_ok clock ticks initHooks Hc fuel st (reachable_Inv _ _ _ Hc _ HR)) as H.
  rewrite E in H. destruct H as ((R & HS & HT & HP) & Ha & _).
  apply (linked_listed R st' t HS) in Hl as [l Hl]; [|eauto].
  destruct (s_listed _ _ _ HS t l Hl) as [Hm _]. pose proof Hm as (L & HL & _).
  destruct (t_listed _ _ _ HT t l r L Hl Ht HL) as (_ & Em & _).
  pose proof (p_expiry _ _ _ (HP Hn) t l L Hl HL) as He. unfold start_at in He. rewrite Ht in He. cbn in He.
  rewrite Hs in He. cbn in He.
  destruct (Ha n eq_refl) as [[_ H]|(l0 & L0 & _ & _ & Hlt & _ & Hmin & _)]; [by apply (H l)|].
  specialize (Hmin l L Hm HL). lia.
Qed.

Lemma timers_nothing_overdue_witness : ~ due (time demo_clock demo_state) demo_after 3%positive.
Proof.
  apply (timers_nothing_overdue demo_clock demo_ticks false 9 demo_state demo_after 45 demo_clock_mono demo_reachable demo_process).
  intros t r Ht. assert (map_Forall (fun _ r => repeat_ r = None) (timeouts demo_after)) as H; [|by apply (H t)].
  apply map_Forall_to_list. vm_compute. repeat constructor.
Defined.

(** C6. Once [clearTimeout] was called on a timer, with the timer itself or
    with a number or a string [knownTimersById] has for it, its callback is
    never called again: not later, not when [refresh] is called on it, and not
    in the same [processTimers] when the call was made by the callback of
    another timer or by a tick or microtask that [listOnTimeout] drains just
    before it.  Every such call is recorded in the trace, whatever the state,
    and nothing after the record starts the callback. *)
Theorem timers_cleared_never_fires clock ticks initHooks st :
  reachable clock ticks initHooks st ->
  (forall t tr1 tr2, trace st = tr1 ++ EvClear t :: tr2 -> EvFire t ∉ tr2) /\
  (forall st0 h t, is_Some (timeouts st0 !! t) -> names st0 h t ->
    exists tr, trace (clearTimeout h st0) = trace st0 ++ EvClear t :: tr).
Proof.
  intros HR. split; [|intros st0 h t; apply clearTimeout_recorded].
  intros t tr1 tr2 E. by apply (reachable_heeded _ _ _ _ HR) in E as [_ ?].
Qed.

(** Timers 1, 3 and 4 of 5 ms: the callback of 1 clears 3, the ticks that run
    before 4 clear it. *)
Definition cancel_main : prog :=
  SetTimeout (Some (fun _ => ClearTimeout (HTimer 3) Done)) (ms 5) [] (fun _ =>
  SetTimeout nothing (ms 5) [] (fun _ => SetTimeout nothing (ms 5) [] (fun _ => Done))).
Definition cancel_ticks (_ : nat) : prog := ClearTimeout (HTimer 4) Done.
Definition cancel_state : state := (exec demo_clock false cancel_main initial).1.
Definition cancel_after : state :=
  default initial (fst <$> process_now demo_clock cancel_ticks false 9 cancel_state).

Lemma cancel_reachable : reachable demo_clock cancel_ticks false cancel_after.
Proof.
  apply (rtc_l _ _ cancel_state); [apply (step_run demo_clock cancel_ticks false cancel_main initial)|].
  apply rtc_once. apply (step_process demo_clock cancel_ticks false 9 _ cancel_after (Ok 0)). vm_compute. reflexivity.
Qed.

Lemma timers_cleared_never_fires_witness :
  (exists tr1 tr2, trace cancel_after = tr1 ++ EvClear 3 :: tr2 /\ EvFire 1 ∈ tr1 /\ EvFire 3 ∉ tr2) /\
  (exists tr1 tr2, trace cancel_after = tr1 ++ EvClear 4 :: tr2 /\ EvFire 1 ∈ tr1 /\ EvFire 4 ∉ tr2).
Proof.
  pose proof (timers_cleared_never_fires demo_clock cancel_ticks false cancel_after cancel_reachable) as [H _].
  split.
  - exists (take 4 (trace cancel_after)), (drop 5 (trace cancel_after)).
    split_and!; [vm_compute; reflexivity|apply list_elem_of_In; vm_compute; tauto|].
    apply (H _ (take 4 (trace cancel_after))). vm_compute. reflexivity.
  - exists (take 8 (trace cancel_after)), (drop 9 (trace cancel_after)).
    split_and!; [vm_compute; reflexivity|apply list_elem_of_In; vm_compute; tauto|].
    apply (H _ (take 8 (trace cancel_after))). vm_compute. reflexivity.
Defined.

(** Between two calls of [processTimers], the wake-up last asked of the
    event loop is no later than the expiry of any list of timers. *)
Theorem timers_wakeup_armed clock ticks initHooks st :
  (forall i j, (i <= j)%nat -> clock i <= clock j) ->
  rtc (calm_step clock ticks initHooks) initial st ->
  forall l L, mapped st l -> lists st !! l = Some L ->
    exists n, nextExpiry st = Some n /\ n <= expiry L.
Proof.
  intros Hc Hs. apply (proj2 (A := Inv clock None st) (B := armed st)).
  assert (Inv clock None initial /\ armed initial) as H0.
  { split; [apply Inv_initial|]. by intros l L (L0 & ? & _). }
  revert H0. induction Hs as [st0|st0 st1 st2 H1 Hs IH]; [done|]. intros [HI Ha]. apply IH. by eapply calm_armed.
Qed.

Lemma timers_wakeup_armed_witness :
  exists n, nextExpiry demo_state = Some n /\ n <= 5.
Proof.
  apply (timers_wakeup_armed demo_clock demo_ticks false demo_state demo_clock_mono) with
    (l := 2%positive) (L := TimersList 5 MIN_SAFE_INTEGER 5).
  - apply rtc_once, (calm_run demo_clock demo_ticks false demo_main initial).
  - exists (TimersList 5 MIN_SAFE_INTEGER 5). split; vm_compute; reflexivity.
  - vm_compute. reflexivity.
Defined.

(** ** Two defects *)

(** Timers 1 and 3 of 10 ms; the ticks between them refresh 3. *)
Definition refresh_main : prog :=
  SetTimeout nothing (ms 10) [] (fun _ => SetTimeout nothing (ms 10) [] (fun _ => Done)).
Definition refresh_ticks (_ : nat) : prog := Refresh 3 Done.

(** A timer refreshed by a tick that runs just before it is fired all the
    same, although its duration has not passed since, and its new schedule is
    lost: [listOnTimeout] compares the times before it drains the ticks. *)
Theorem timers_refresh_in_tick_lost :
  exists st st' n t r s,
    reachable demo_clock refresh_ticks false st /\
    process_now demo_clock refresh_ticks false 9 st = Some (st', Ok n) /\
    t ∉ fired st /\ t ∈ fired st' /\ timeouts st' !! t = Some r /\ idleStart r = Some s /\
    time demo_clock st < s + MathTrunc (idleTimeout r) /\ destroyed r = true.
Proof.
  set (st := (exec demo_clock false refresh_main initial).1).
  exists st, (default initial (fst <$> process_now demo_clock refresh_ticks false 9 st)), 0, 3%positive.
  eexists _, _. split_and!.
  - apply rtc_once, (step_run demo_clock refresh_ticks false refresh_main initial).
  - vm_compute. reflexivity.
  - vm_compute. by intros ?%elem_of_nil.
  - vm_compute. right. left.
  - vm_compute. reflexivity.
  - vm_compute. reflexivity.
  - vm_compute. reflexivity.
  - vm_compute. reflexivity.
Qed.

(** A timer whose number is asked for, which fires and is scheduled again. *)
Definition primitive_main : prog :=
  SetTimeout nothing (ms 10) [] (fun _ => ToPrimitive 1 (fun _ => Done)).
Definition again_main : prog :=
  Refresh 1 (ToPrimitive 1 (fun z => ClearTimeout (HNumber z) Done)).

(** [clearTimeout(+t)] does not cancel a timer that fired, was refreshed
    and whose number had been asked for before: [refresh] gives it a new number
    that [Symbol.toPrimitive] no longer registers. *)
Theorem timers_stale_number_not_cleared :
  exists st1 st2 n,
    process_now demo_clock demo_ticks false 9 (exec demo_clock false primitive_main initial).1 = Some (st1, Ok n) /\
    exec demo_clock false again_main st1 = (st2, Ok tt) /\ linked st2 1 /\
    exists st3 n', process_now demo_clock demo_ticks false 9 st2 = Some (st3, Ok n') /\
      fired st3 = [1; 1]%positive.
Proof.
  set (st0 := (exec demo_clock false primitive_main initial).1).
  set (st1 := default initial (fst <$> process_now demo_clock demo_ticks false 9 st0)).
  set (st2 := (exec demo_clock false again_main st1).1).
  exists st1, st2, 0. split_and!.
  - vm_compute. reflexivity.
  - vm_compute. reflexivity.
  - vm_compute. by intros [? _].
  - eexists _, _. split; [vm_compute; reflexivity|vm_compute; reflexivity].
Qed.
