(* ===== verification/Immediates.v ===== *)
(** * Immediates

    Models the [setImmediate] half of the timers: [ImmediateList],
    [Immediate] and [processImmediate] of [libjs-node/internal/timers.js],
    [setImmediate] and [clearImmediate] of [libjs-node/timers.js].

    An [Immediate] is an object of a heap, with its two links.  A callback,
    and what runs between two callbacks ([runNextTicks]), is a tree of calls to
    this API; the [n]-th run of the ticks is the program [ticks n].  The
    counters are elements of a [Uint32Array].  Async hooks are events of the
    trace, and whether there are hooks of new resources is part of the state and
    does not change; trigger ids and context frames are left out. *)

From stdpp Require Import gmap.
From S2P Require Import Prelude JsString.

Module Immediates.

Abbreviation jsval := (list Z) (only parsing).

(** A program; a callback that is not a function is [None], and so is what is
    cleared when it is not an [Immediate]. *)
Inductive prog :=
  | Done
  | Raise (e : jserror)
  | SetImmediate (callback : option (list jsval -> prog)) (args : list jsval)
      (k : result positive -> prog)
  | ClearImmediate (i : option positive) (k : prog)
  | Ref (i : positive) (k : prog)
  | Unref (i : positive) (k : prog)
  | HasRef (i : positive) (k : bool -> prog).

(** The calls a program can make, over any state. *)
Record api (S : Type) := Api {
  api_set : option (list jsval -> prog) -> list jsval -> S -> S * result positive;
  api_clear : option positive -> S -> S;
  api_ref : positive -> S -> S;
  api_unref : positive -> S -> S;
  api_hasRef : positive -> S -> bool;
}.
#[global] Arguments api_set {_} _. #[global] Arguments api_clear {_} _. #[global] Arguments api_ref {_} _.
#[global] Arguments api_unref {_} _. #[global] Arguments api_hasRef {_} _.

Fixpoint exec {S} (A : api S) (p : prog) (st : S) : S * result unit :=
  match p with
  | Done => (st, Ok tt)
  | Raise e => (st, Throw e)
  | SetImmediate callback args k => let '(st, r) := api_set A callback args st in exec A (k r) st
  | ClearImmediate i k => exec A k (api_clear A i st)
  | Ref i k => exec A k (api_ref A i st)
  | Unref i k => exec A k (api_unref A i st)
  | HasRef i k => exec A (k (api_hasRef A i st)) st
  end.

(** ** State *)

(** [kRefed] is [true], [false] or [null]. *)
Record immediate := Immediate_ {
  idleNext : option positive;
  idlePrev : option positive;
  onImmediate : option (list jsval -> prog);
  argv : option (list jsval);
  destroyed : bool;
  kRefed : option bool;
  async_id : Z;
}.

Record ImmediateList := IList { head : option positive; tail : option positive }.

Record info := Info { kCount : Z; kRefCount : Z; kHasOutstanding : Z }.

Inductive event :=
  | EvInit (id : Z) | EvBefore (id : Z) | EvAfter (id : Z) | EvDestroy (id : Z)
  | EvToggleRef (b : bool)
  | EvRun (i : positive).

(** What both the program and its specification keep: the counters, the next
    object and async id, the runs of the ticks, the trace; and whether hooks for
    new async resources are installed, [initHooksExist()]. *)
Record shared := Shared {
  immediateInfo : info;
  nextObj : positive;
  asyncIdCounter : Z;
  tickRuns : nat;
  trace : list event;
  initHooks : bool;
}.

Record state := State {
  imms : gmap positive immediate;
  immediateQueue : ImmediateList;
  outstandingQueue : ImmediateList;
  sh : shared;
}.

Definition initial (hooks : bool) : state :=
  State ∅ (IList None None) (IList None None) (Shared (Info 0 0 0) 1 0 0 [] hooks).

(** ** Updates *)

Definition log (e : event) (x : shared) : shared :=
  Shared (immediateInfo x) (nextObj x) (asyncIdCounter x) (tickRuns x) (trace x ++ [e]) (initHooks x).
Definition set_info (v : info) (x : shared) : shared :=
  Shared v (nextObj x) (asyncIdCounter x) (tickRuns x) (trace x) (initHooks x).

(** A store into the [Uint32Array]. *)
Definition uint32 (v : Z) : Z := v mod 0x100000000.
Definition set_kCount (v : Z) (x : shared) : shared :=
  set_info (Info (uint32 v) (kRefCount (immediateInfo x)) (kHasOutstanding (immediateInfo x))) x.
Definition set_kRefCount (v : Z) (x : shared) : shared :=
  set_info (Info (kCount (immediateInfo x)) (uint32 v) (kHasOutstanding (immediateInfo x))) x.
Definition set_kHasOutstanding (v : Z) (x : shared) : shared :=
  set_info (Info (kCount (immediateInfo x)) (kRefCount (immediateInfo x)) (uint32 v)) x.

Definition get_kCount (x : shared) : Z := kCount (immediateInfo x).
Definition get_kRefCount (x : shared) : Z := kRefCount (immediateInfo x).

Definition with_sh (f : shared -> shared) (st : state) : state :=
  State (imms st) (immediateQueue st) (outstandingQueue st) (f (sh st)).
Definition upd (i : positive) (f : immediate -> immediate) (st : state) : state :=
  State (alter f i (imms st)) (immediateQueue st) (outstandingQueue st) (sh st).
Definition set_immediateQueue (v : ImmediateList) (st : state) : state :=
  State (imms st) v (outstandingQueue st) (sh st).
Definition set_outstanding_head (v : option positive) (st : state) : state :=
  State (imms st) (immediateQueue st) (IList v (tail (outstandingQueue st))) (sh st).

Definition with_idleNext (v : option positive) (r : immediate) : immediate :=
  Immediate_ v (idlePrev r) (onImmediate r) (argv r) (destroyed r) (kRefed r) (async_id r).
Definition with_idlePrev (v : option positive) (r : immediate) : immediate :=
  Immediate_ (idleNext r) v (onImmediate r) (argv r) (destroyed r) (kRefed r) (async_id r).
Definition without_onImmediate (r : immediate) : immediate :=
  Immediate_ (idleNext r) (idlePrev r) None (argv r) (destroyed r) (kRefed r) (async_id r).
Definition with_destroyed (r : immediate) : immediate :=
  Immediate_ (idleNext r) (idlePrev r) (onImmediate r) (argv r) true (kRefed r) (async_id r).
Definition with_kRefed (v : option bool) (r : immediate) : immediate :=
  Immediate_ (idleNext r) (idlePrev r) (onImmediate r) (argv r) (destroyed r) v (async_id r).

Definition next_of (st : state) (i : positive) : option positive := imms st !! i ≫= idleNext.
Definition prev_of (st : state) (i : positive) : option positive := imms st !! i ≫= idlePrev.

(** ** [ImmediateList]; both methods are only called on [immediateQueue]. *)

Definition append (item : positive) (st : state) : state :=
  let q := immediateQueue st in
  let '(st, h) :=
    match tail q with
    | Some t => (upd item (with_idlePrev (Some t)) (upd t (with_idleNext (Some item)) st), head q)
    | None => (st, Some item)
    end in
  set_immediateQueue (IList h (Some item)) st.

Definition remove (item : positive) (st : state) : state :=
  let st :=
    match next_of st item with
    | Some n => upd n (with_idlePrev (prev_of st item)) st
    | None => st
    end in
  let st :=
    match prev_of st item with
    | Some p => upd p (with_idleNext (next_of st item)) st
    | None => st
    end in
  let h := if bool_decide (Some item = head (immediateQueue st)) then next_of st item
           else head (immediateQueue st) in
  let t := if bool_decide (Some item = tail (immediateQueue st)) then prev_of st item
           else tail (immediateQueue st) in
  let st := set_immediateQueue (IList h t) st in
  upd item (with_idlePrev None) (upd item (with_idleNext None) st).

(** ** [Immediate] *)

(** The counter and the binding, when an immediate is refed or unrefed. *)
Definition incRef (x : shared) : shared :=
  let old := get_kRefCount x in
  let x := set_kRefCount (old + 1) x in
  if old =? 0 then log (EvToggleRef true) x else x.

Definition decRef (x : shared) : shared :=
  let new := get_kRefCount x - 1 in
  let x := set_kRefCount new x in
  if new =? 0 then log (EvToggleRef false) x else x.

Definition ref (i : positive) (st : state) : state :=
  match imms st !! i with
  | Some r =>
      if bool_decide (kRefed r = Some false)
      then with_sh incRef (upd i (with_kRefed (Some true)) st)
      else st
  | None => st
  end.

Definition unref (i : positive) (st : state) : state :=
  match imms st !! i with
  | Some r =>
      if bool_decide (kRefed r = Some true)
      then with_sh decRef (upd i (with_kRefed (Some false)) st)
      else st
  | None => st
  end.

Definition hasRef (i : positive) (st : state) : bool :=
  match imms st !! i with Some r => bool_decide (kRefed r = Some true) | None => false end.

(** A new object and a new async id, for both. *)
Definition allocate (x : shared) : shared :=
  Shared (immediateInfo x) (Pos.succ (nextObj x)) (asyncIdCounter x + 1) (tickRuns x)
    (trace x ++ if initHooks x then [EvInit (asyncIdCounter x + 1)] else []) (initHooks x).

Definition new_Immediate (callback : list jsval -> prog) (args : option (list jsval)) (st : state)
    : state * positive :=
  let i := nextObj (sh st) in
  let st := with_sh allocate st in
  let r := Immediate_ None None (Some callback) args false (Some false) (asyncIdCounter (sh st)) in
  let st := State (<[i := r]> (imms st)) (immediateQueue st) (outstandingQueue st) (sh st) in
  let st := ref i st in
  let st := with_sh (fun x => set_kCount (get_kCount x + 1) x) st in
  (append i st, i).

Definition ERR_INVALID_ARG_TYPE : jserror := JsError "ERR_INVALID_ARG_TYPE" ["callback"%js].

Definition setImmediate (callback : option (list jsval -> prog)) (args : list jsval) (st : state)
    : state * result positive :=
  match callback with
  | None => (st, Throw ERR_INVALID_ARG_TYPE)
  | Some f =>
      let '(st, i) := new_Immediate f (if decide (args = []) then None else Some args) st in
      (st, Ok i)
  end.

Definition clearImmediate (immediate : option positive) (st : state) : state :=
  match immediate ≫= (fun i => r ← imms st !! i; Some (i, r)) with
  | None => st
  | Some (i, r) =>
      if bool_decide (onImmediate r = None) || destroyed r then st
      else
        let st := with_sh (fun x => set_kCount (get_kCount x - 1) x) st in
        let st := upd i with_destroyed st in
        let st := if bool_decide (kRefed r = Some true) then with_sh decRef st else st in
        let st := upd i (with_kRefed None) st in
        let st := with_sh (log (EvDestroy (async_id r))) st in
        let st := upd i without_onImmediate st in
        remove i st
  end.

Definition concrete : api state := Api state setImmediate clearImmediate ref unref hasRef.

Section Process.
Context (ticks : nat -> prog).

Definition count_ticks (x : shared) : shared :=
  Shared (immediateInfo x) (nextObj x) (asyncIdCounter x) (S (tickRuns x)) (trace x) (initHooks x).

Definition runNextTicks (st : state) : state * result unit :=
  exec concrete (ticks (tickRuns (sh st))) (with_sh count_ticks st).

(** Reading [_idleNext] of [undefined]. *)
Definition TypeError : jserror := JsError [] ["TypeError"%js; "_idleNext"%js].

(** The counters, for an immediate about to run. *)
Definition account (r : immediate) (x : shared) : shared :=
  let x := set_kCount (get_kCount x - 1) x in
  if bool_decide (kRefed r = Some true) then set_kRefCount (get_kRefCount x - 1) x else x.

(** One immediate: its callback, and the [finally] block, which moves on to
    its [_idleNext].  A missing callback is a call of [null]. *)
Definition run_one (i : positive) (r : immediate) (st : state) : state * result unit :=
  let st := upd i with_destroyed st in
  let st := with_sh (account r) st in
  let st := upd i (with_kRefed None) st in
  let st := with_sh (fun x => log (EvRun i) (log (EvBefore (async_id r)) x)) st in
  let '(st, res) :=
    match onImmediate r with
    | Some f => exec concrete (f (default [] (argv r))) st
    | None => (st, Throw TypeError)
    end in
  let st := upd i without_onImmediate st in
  let st := with_sh (log (EvDestroy (async_id r))) st in
  let st := set_outstanding_head (next_of st i) st in
  match res with
  | Throw e => (st, Throw e)
  | Ok _ => (with_sh (log (EvAfter (async_id r))) st, Ok tt)
  end.

(** The loop; [None] is out of fuel.  A pointer to no object does not occur. *)
Fixpoint imm_loop (fuel : nat) (immediate prevImmediate : option positive) (ran : bool) (st : state)
    : option (state * result unit) :=
  match immediate with
  | None => Some (st, Ok tt)
  | Some i =>
      match fuel with
      | O => None
      | S fuel =>
          match (if ran then runNextTicks st else (st, Ok tt)) with
          | (st, Throw e) => Some (st, Throw e)
          | (st, Ok _) =>
              match imms st !! i with
              | None => Some (st, Ok tt)
              | Some r =>
                  if destroyed r then
                    match prevImmediate with
                    | None => Some (st, Throw TypeError)
                    | Some p =>
                        let n := next_of st p in
                        imm_loop fuel n prevImmediate true (set_outstanding_head n st)
                    end
                  else
                    match run_one i r st with
                    | (st, Throw e) => Some (st, Throw e)
                    | (st, Ok _) => imm_loop fuel (head (outstandingQueue st)) (Some i) true st
                    end
              end
          end
      end
  end.

(** The number of objects bounds the length of any chain of them. *)
Definition processImmediate (st : state) : option (state * result unit) :=
  let outstanding := bool_decide (head (outstandingQueue st) <> None) in
  let immediate := if outstanding then head (outstandingQueue st) else head (immediateQueue st) in
  let st :=
    if outstanding then st
    else with_sh (set_kHasOutstanding 1) (set_immediateQueue (IList None None) st) in
  match imm_loop (size (imms st)) immediate None false st with
  | None => None
  | Some (st, Throw e) => Some (st, Throw e)
  | Some (st, Ok _) =>
      let st := if outstanding then set_outstanding_head None st else st in
      Some (with_sh (set_kHasOutstanding 0) st, Ok tt)
  end.
End Process.
End Immediates.
