(* ===== verification/ImmediatesFacts.v ===== *)
(** * Correctness of immediates

    The specification is a queue and a batch of callbacks, both plain lists;
    [processImmediate], which walks the links of the objects it runs while
    callbacks and ticks unlink them, refines it.  Then: the counters, and the
    case the walk does not handle. *)

From stdpp Require Import gmap.
From S2P Require Import Prelude JsString Rings Immediates.
Import Immediates.

(** ** The specification *)

Record cell := Cell {
  c_callback : list jsval -> prog; c_argv : option (list jsval); c_refed : bool; c_async : Z }.

Record spec := Spec {
  cells : gmap positive cell;
  queue : list positive;
  batch : list positive;
  ssh : shared;
}.

Definition spec_sh (f : shared -> shared) (a : spec) : spec := Spec (cells a) (queue a) (batch a) (f (ssh a)).
Definition spec_refed (b : bool) (i : positive) (a : spec) : spec :=
  Spec (alter (fun c => Cell (c_callback c) (c_argv c) b (c_async c)) i (cells a)) (queue a) (batch a) (ssh a).
Definition spec_drop (i : positive) (a : spec) : spec :=
  Spec (delete i (cells a)) (others i (queue a)) (others i (batch a)) (ssh a).

Definition spec_set (callback : option (list jsval -> prog)) (args : list jsval) (a : spec)
    : spec * result positive :=
  match callback with
  | None => (a, Throw ERR_INVALID_ARG_TYPE)
  | Some f =>
      let i := nextObj (ssh a) in
      let x := allocate (ssh a) in
      let c := Cell f (if decide (args = []) then None else Some args) true (asyncIdCounter x) in
      let x := incRef x in
      (Spec (<[i := c]> (cells a)) (queue a ++ [i]) (batch a) (set_kCount (get_kCount x + 1) x), Ok i)
  end.

Definition spec_clear (i : option positive) (a : spec) : spec :=
  match i ≫= (fun i => c ← cells a !! i; Some (i, c)) with
  | None => a
  | Some (i, c) =>
      let a := spec_sh (fun x => set_kCount (get_kCount x - 1) x) a in
      let a := if c_refed c then spec_sh decRef a else a in
      spec_drop i (spec_sh (log (EvDestroy (c_async c))) a)
  end.

Definition spec_ref (i : positive) (a : spec) : spec :=
  match cells a !! i with
  | Some c => if c_refed c then a else spec_sh incRef (spec_refed true i a)
  | None => a
  end.

Definition spec_unref (i : positive) (a : spec) : spec :=
  match cells a !! i with
  | Some c => if c_refed c then spec_sh decRef (spec_refed false i a) else a
  | None => a
  end.

Definition spec_hasRef (i : positive) (a : spec) : bool :=
  match cells a !! i with Some c => c_refed c | None => false end.

Definition abstract_ : api spec := Api spec spec_set spec_clear spec_ref spec_unref spec_hasRef.

Section SpecProcess.
Context (ticks : nat -> prog).

Definition spec_ticks (a : spec) : spec * result unit :=
  exec abstract_ (ticks (tickRuns (ssh a))) (spec_sh count_ticks a).

Definition spec_account (c : cell) (x : shared) : shared :=
  let x := set_kCount (get_kCount x - 1) x in
  if c_refed c then set_kRefCount (get_kRefCount x - 1) x else x.

(** Run one: it leaves the batch first. *)
Definition spec_run (i : positive) (c : cell) (a : spec) : spec * result unit :=
  let a := spec_sh (spec_account c) (spec_drop i a) in
  let a := spec_sh (fun x => log (EvRun i) (log (EvBefore (c_async c)) x)) a in
  let '(a, res) := exec abstract_ (c_callback c (default [] (c_argv c))) a in
  let a := spec_sh (log (EvDestroy (c_async c))) a in
  match res with
  | Throw e => (a, Throw e)
  | Ok _ => (spec_sh (log (EvAfter (c_async c))) a, Ok tt)
  end.

(** Run the batch, with the ticks before each but the first; one cleared by
    the ticks is passed over. *)
Fixpoint spec_loop (fuel : nat) (ran : bool) (a : spec) : option (spec * result unit) :=
  match batch a with
  | [] => Some (a, Ok tt)
  | i :: _ =>
      match fuel with
      | O => None
      | S fuel =>
          match (if ran then spec_ticks a else (a, Ok tt)) with
          | (a, Throw e) => Some (a, Throw e)
          | (a, Ok _) =>
              match cells a !! i with
              | None => spec_loop fuel true a
              | Some c =>
                  match spec_run i c a with
                  | (a, Throw e) => Some (a, Throw e)
                  | (a, Ok _) => spec_loop fuel true a
                  end
              end
          end
      end
  end.

(** What a throw left of the last batch comes first; else the queue is the
    batch. *)
Definition spec_process (a : spec) : option (spec * result unit) :=
  let a := match batch a with
    | [] => spec_sh (set_kHasOutstanding 1) (Spec (cells a) [] (queue a) (ssh a))
    | _ :: _ => a
    end in
  match spec_loop (length (batch a)) false a with
  | None => None
  | Some (a, Throw e) => Some (a, Throw e)
  | Some (a, Ok _) => Some (spec_sh (set_kHasOutstanding 0) a, Ok tt)
  end.
End SpecProcess.

(** ** Chains of objects *)

Definition link (h : gmap positive immediate) (i : positive) : option (option positive * option positive) :=
  (fun r => (idlePrev r, idleNext r)) <$> h !! i.

Definition hd_or (e : option positive) (l : list positive) : option positive :=
  match l with [] => e | x :: _ => Some x end.
Definition last_or (p : option positive) (l : list positive) : option positive :=
  match last l with Some x => Some x | None => p end.

(** [l] is linked, after [p] and before [e]. *)
Fixpoint seg (h : gmap positive immediate) (p : option positive) (l : list positive) (e : option positive) : Prop :=
  match l with
  | [] => True
  | x :: l => link h x = Some (p, hd_or e l) /\ seg h (Some x) l e
  end.

Lemma last_or_cons p x l : last_or p (x :: l) = last_or (Some x) l.
Proof. unfold last_or. rewrite last_cons. by destruct (last l). Qed.

Lemma iseg_app h p l1 l2 e : seg h p (l1 ++ l2) e <-> seg h p l1 (hd_or e l2) /\ seg h (last_or p l1) l2 e.
Proof.
  revert p. induction l1 as [|x l1 IH]; intros p; cbn [app seg]; [unfold last_or; cbn; tauto|].
  rewrite IH, last_or_cons. replace (hd_or e (l1 ++ l2)) with (hd_or (hd_or e l2) l1) by by destruct l1. tauto.
Qed.

Lemma seg_ext h h' p l e : (forall x, x ∈ l -> link h' x = link h x) -> seg h p l e -> seg h' p l e.
Proof.
  revert p. induction l as [|x l IH]; intros p Hx; [done|]. cbn [seg]. intros [H1 H2].
  split; [rewrite Hx by left; done|]. apply IH; [|done]. intros y Hy. apply Hx. by right.
Qed.

(** ** What the updates of the heap change *)

Lemma link_upd h f i j :
  (forall r, idlePrev (f r) = idlePrev r /\ idleNext (f r) = idleNext r) -> link (alter f i h) j = link h j.
Proof.
  intros Hf. unfold link. destruct (decide (i = j)) as [->|Hne].
  - rewrite lookup_alter_eq. destruct (h !! j) as [r|]; [|done]. cbn. by destruct (Hf r) as [-> ->].
  - by rewrite lookup_alter_ne.
Qed.

Lemma link_next h v i j :
  link (alter (with_idleNext v) i h) j =
  if decide (i = j) then (fun l => (l.1, v)) <$> link h j else link h j.
Proof.
  unfold link. case_decide as E; [subst; rewrite lookup_alter_eq; by destruct (h !! j)|].
  by rewrite lookup_alter_ne.
Qed.

Lemma link_prev h v i j :
  link (alter (with_idlePrev v) i h) j =
  if decide (i = j) then (fun l => (v, l.2)) <$> link h j else link h j.
Proof.
  unfold link. case_decide as E; [subst; rewrite lookup_alter_eq; by destruct (h !! j)|].
  by rewrite lookup_alter_ne.
Qed.

(** The fields that are not links. *)
Definition core (r : immediate) := (onImmediate r, argv r, destroyed r, kRefed r, async_id r).
Definition core_of (h : gmap positive immediate) (i : positive) := core <$> h !! i.

Lemma core_upd h f i j : (forall r, core (f r) = core r) -> core_of (alter f i h) j = core_of h j.
Proof.
  intros Hf. unfold core_of. destruct (decide (i = j)) as [->|Hne].
  - rewrite lookup_alter_eq. destruct (h !! j); [|done]. cbn. by rewrite Hf.
  - by rewrite lookup_alter_ne.
Qed.

Lemma remove_core st i j : core_of (imms (remove i st)) j = core_of (imms st) j.
Proof. unfold remove. cbn zeta. repeat case_match; cbn; by rewrite !core_upd. Qed.

Lemma remove_sh st i : sh (remove i st) = sh st /\ outstandingQueue (remove i st) = outstandingQueue st.
Proof. unfold remove. cbn zeta. by repeat case_match. Qed.

Lemma next_of_link st i l : link (imms st) i = Some l -> next_of st i = l.2 /\ prev_of st i = l.1.
Proof. unfold link, next_of, prev_of. destruct (imms st !! i) as [r|]; [|done]. cbn. by intros [= <-]. Qed.

Ltac link_cases :=
  try match goal with |- context [link ?h ?j] => destruct (link h j) as [[]|] end;
  cbn [fmap option_fmap option_map fst snd]; repeat case_decide; congruence.

(** The links after [remove], for an object that is not its own neighbour. *)
Lemma remove_links st i p n :
  link (imms st) i = Some (p, n) -> p <> Some i -> n <> Some i ->
  (forall j, link (imms (remove i st)) j =
    if decide (i = j) then Some (None, None)
    else (fun l => (if decide (n = Some j) then p else l.1, if decide (p = Some j) then n else l.2)) <$> link (imms st) j) /\
  immediateQueue (remove i st) =
    IList (if decide (Some i = head (immediateQueue st)) then n else head (immediateQueue st))
      (if decide (Some i = tail (immediateQueue st)) then p else tail (immediateQueue st)).
Proof.
  intros Hl Hp Hn. unfold remove. cbn zeta. destruct (next_of_link _ _ _ Hl) as [Hnx Hpv]. cbn [fst snd] in *.
  set (st1 := match next_of st i with Some m => _ | None => _ end).
  assert (forall j, link (imms st1) j = (fun l => (if decide (n = Some j) then p else l.1, l.2)) <$> link (imms st) j) as H1.
  { intros j. unfold st1. rewrite Hnx, Hpv. destruct n as [n|]; cbn [upd imms].
    - rewrite link_prev. link_cases.
    - link_cases. }
  assert (immediateQueue st1 = immediateQueue st) as Hq1 by (unfold st1; by destruct (next_of st i)).
  clearbody st1. assert (link (imms st1) i = Some (p, n)) as Hl1.
  { rewrite H1, Hl. link_cases. }
  destruct (next_of_link _ _ _ Hl1) as [Hnx1 Hpv1]. cbn [fst snd] in *.
  set (st2 := match prev_of st1 i with Some m => _ | None => _ end).
  assert (forall j, link (imms st2) j = (fun l => (l.1, if decide (p = Some j) then n else l.2)) <$> link (imms st1) j) as H2.
  { intros j. unfold st2. rewrite Hpv1, Hnx1. destruct p as [p|]; cbn [upd imms].
    - rewrite link_next. link_cases.
    - link_cases. }
  assert (immediateQueue st2 = immediateQueue st) as Hq2 by (unfold st2; by destruct (prev_of st1 i)).
  clearbody st2. assert (link (imms st2) i = Some (p, n)) as Hl2.
  { rewrite H2, Hl1. link_cases. }
  destruct (next_of_link _ _ _ Hl2) as [Hnx2 Hpv2]. cbn [fst snd] in *.
  split; [|cbn [upd set_immediateQueue immediateQueue]; rewrite Hq2, Hnx2, Hpv2; f_equal; repeat case_match; bool_hyps; congruence].
  intros j. cbn [upd set_immediateQueue imms]. rewrite link_prev, link_next.
  destruct (decide (i = j)) as [<-|Hij]; [by rewrite Hl2|]. rewrite H2, H1. by destruct (link (imms st) j) as [[]|].
Qed.

(** Removing an object of a chain. *)
Lemma others_app m a b : others m (a ++ b) = others m a ++ others m b.
Proof. apply filter_app. Qed.

Lemma remove_split l1 i l2 : NoDup (l1 ++ i :: l2) -> others i (l1 ++ i :: l2) = l1 ++ l2 /\ i ∉ l1 /\ i ∉ l2.
Proof.
  intros (Hn1 & Hx & Hn2)%NoDup_app. apply NoDup_cons in Hn2 as [Hi Hn2].
  assert (i ∉ l1) as Hi1 by (intros H; apply (Hx _ H); left). split; [|done].
  rewrite others_app, (others_not_in i l1) by done. unfold others at 1. rewrite filter_cons_False by tauto.
  fold (others i l2). by rewrite others_not_in.
Qed.

(** The neighbours of an object of a chain. *)
Lemma seg_at h p l1 i l2 e :
  seg h p (l1 ++ i :: l2) e ->
  link h i = Some (last_or p l1, hd_or e l2) /\ seg h p l1 (Some i) /\ seg h (Some i) l2 e.
Proof. intros [H1 [H2 H3]]%iseg_app. done. Qed.

Lemma last_or_in p l x : last_or p l = Some x -> p = Some x \/ x ∈ l.
Proof.
  unfold last_or. destruct (last l) as [y|] eqn:E; [|by left]. intros [= <-]. right. by apply last_Some_elem_of.
Qed.

Lemma hd_or_in e l x : hd_or e l = Some x -> e = Some x \/ x ∈ l.
Proof. destruct l as [|y l]; [by left|]. intros [= <-]. right. left. Qed.

(** A change of the last [idleNext] of a chain. *)
Lemma seg_redirect h h' p l e e' :
  NoDup l ->
  (forall x, x ∈ l -> link h' x =
    (fun k => (k.1, if decide (last l = Some x) then e' else k.2)) <$> link h x) ->
  seg h p l e -> seg h' p l e'.
Proof.
  intros Hnd Hx Hseg. destruct l as [|y l _] using rev_ind; [done|]. apply NoDup_app in Hnd as (_ & Hy & _).
  rewrite last_snoc in Hx. apply iseg_app in Hseg as [H1 [H2 _]]. apply iseg_app. split; [|split; [|done]].
  - eapply seg_ext; [|exact H1]. intros x Hxl. rewrite Hx by (apply elem_of_app; by left).
    assert (y <> x) by (intros ->; apply (Hy x Hxl); left).
    destruct (link h x) as [[a b]|]; [|done]. cbn [fmap option_fmap option_map fst snd]. by rewrite decide_False by congruence.
  - rewrite Hx by (apply elem_of_app; right; left). rewrite H2. cbn [fmap option_fmap option_map fst snd].
    by rewrite decide_True.
Qed.

(** A change of the first [idlePrev]. *)
Lemma seg_reattach h h' p p' l e :
  NoDup l ->
  (forall x, x ∈ l -> link h' x =
    (fun k => (if decide (hd_or None l = Some x) then p' else k.1, k.2)) <$> link h x) ->
  seg h p l e -> seg h' p' l e.
Proof.
  intros Hnd Hx. destruct l as [|y l]; [done|]. apply NoDup_cons in Hnd as [Hy _]. intros [H1 H2]. split.
  - rewrite Hx by left. rewrite H1. cbn [fmap option_fmap option_map fst snd hd_or]. by rewrite decide_True.
  - eapply seg_ext; [|exact H2]. intros x Hxl. rewrite Hx by by right.
    assert (y <> x) by (intros ->; done).
    destruct (link h x) as [[a b]|]; [|done]. cbn [fmap option_fmap option_map fst snd hd_or].
    by rewrite decide_False by congruence.
Qed.

(** [remove] takes an object out of its chain, and its predecessor learns of
    it. *)
Lemma remove_seg st i p l1 l2 :
  seg (imms st) p (l1 ++ i :: l2) None -> NoDup (l1 ++ i :: l2) ->
  (forall x, p = Some x -> x ∉ l1 ++ i :: l2) ->
  seg (imms (remove i st)) p (l1 ++ l2) None /\
  (forall x, p = Some x -> link (imms (remove i st)) x =
    (fun k => (k.1, if decide (l1 = []) then hd_or None l2 else k.2)) <$> link (imms st) x) /\
  (forall j, j <> i -> j ∉ l1 ++ l2 -> p <> Some j -> link (imms (remove i st)) j = link (imms st) j) /\
  immediateQueue (remove i st) =
    IList (if decide (Some i = head (immediateQueue st)) then hd_or None l2 else head (immediateQueue st))
      (if decide (Some i = tail (immediateQueue st)) then last_or p l1 else tail (immediateQueue st)).
Proof.
  intros Hseg Hnd Hp. destruct (remove_split _ _ _ Hnd) as (_ & Hi1 & Hi2).
  apply NoDup_app in Hnd as (Hn1 & Hd & [_ Hn2]%NoDup_cons).
  apply seg_at in Hseg as (Hl & Hs1 & Hs2).
  assert (last_or p l1 <> Some i) as Hne1.
  { intros [E|E]%last_or_in; [|done]. apply (Hp _ E). apply elem_of_app. right. left. }
  assert (hd_or None l2 <> Some i) as Hne2 by by intros [E|E]%hd_or_in.
  destruct (remove_links _ _ _ _ Hl Hne1 Hne2) as [HL HQ]. split_and!; [|..|exact HQ].
  - apply iseg_app. split.
    + eapply seg_redirect; [done| |exact Hs1]. intros x Hx. rewrite HL.
      rewrite decide_False by (intros ->; done).
      assert (hd_or None l2 <> Some x).
      { intros [E|E]%hd_or_in; [done|]. apply (Hd x Hx). by right. }
      assert (last_or p l1 = last l1) as ->.
      { unfold last_or. destruct (last l1) eqn:E; [done|]. apply last_None in E. subst. inversion Hx. }
      link_cases.
    + eapply seg_reattach; [done| |exact Hs2]. intros x Hx. rewrite HL.
      rewrite decide_False by (intros ->; done).
      assert (last_or p l1 <> Some x).
      { intros [E|E]%last_or_in; [apply (Hp x E); apply elem_of_app; right; by right|]. apply (Hd x E). by right. }
      link_cases.
  - intros x Hx. specialize (Hp x Hx). rewrite HL. rewrite not_elem_of_app, not_elem_of_cons in Hp. destruct Hp as (? & ? & ?).
    rewrite decide_False by congruence.
    assert (hd_or None l2 <> Some x) by by intros [E|E]%hd_or_in.
    destruct l1 as [|y l1]; [change (last_or p []) with p; link_cases|].
    assert (last_or p (y :: l1) <> Some x).
    { unfold last_or. rewrite last_cons. destruct (last l1) eqn:E; intros [= ->]; [|by apply H; left].
      apply H. right. by apply last_Some_elem_of. }
    link_cases.
  - intros j Hj Hjl Hjp. rewrite HL, decide_False by congruence. apply not_elem_of_app in Hjl as [].
    assert (hd_or None l2 <> Some j) by by intros [E|E]%hd_or_in.
    assert (last_or p l1 <> Some j) by by intros [E|E]%last_or_in. link_cases.
Qed.

(** ** The simulation *)

Definition cell_of (r : immediate) : option cell :=
  if destroyed r then None
  else match onImmediate r, kRefed r with
    | Some f, Some b => Some (Cell f (argv r) b (async_id r))
    | _, _ => None
    end.

Lemma cell_core r r' : core r = core r' -> cell_of r = cell_of r' /\ destroyed r = destroyed r' /\ kRefed r = kRefed r'.
Proof. unfold core, cell_of. by intros [= -> -> -> -> ->]. Qed.

(** The objects of the program are the lists of the specification; [p] is the
    object before the batch, which has run. *)
Record sim (st : state) (a : spec) (p : option positive) : Prop := {
  sim_sh : sh st = ssh a;
  sim_cells i : imms st !! i ≫= cell_of = cells a !! i;
  sim_dead i r : imms st !! i = Some r -> destroyed r = true /\ kRefed r = None \/ is_Some (cell_of r);
  sim_queue : seg (imms st) None (queue a) None;
  sim_ends : immediateQueue st = IList (hd_or None (queue a)) (last (queue a));
  sim_batch : seg (imms st) p (batch a) None;
  sim_pred x : p = Some x -> x ∉ queue a ++ batch a /\ exists l, link (imms st) x = Some (l, hd_or None (batch a));
  sim_nodup : NoDup (queue a ++ batch a);
  sim_all i : is_Some (cells a !! i) <-> i ∈ queue a ++ batch a;
  sim_fresh i : (nextObj (sh st) <= i)%positive -> imms st !! i = None;
}.

(** A change of the counters or the trace alone. *)
Lemma sim_with_sh f st a p :
  (forall x, nextObj (f x) = nextObj x) -> sim st a p -> sim (with_sh f st) (spec_sh f a) p.
Proof.
  intros Hf []. constructor; cbn; try done; [by f_equal|].
  intros i. rewrite Hf. auto.
Qed.

Lemma incRef_nextObj x : nextObj (incRef x) = nextObj x.
Proof. unfold incRef. by case_step. Qed.
Lemma decRef_nextObj x : nextObj (decRef x) = nextObj x.
Proof. unfold decRef. by case_step. Qed.

(** A live object is where its cell is. *)
Lemma sim_cell st a p i c :
  sim st a p -> cells a !! i = Some c ->
  exists r, imms st !! i = Some r /\ destroyed r = false /\ onImmediate r = Some (c_callback c) /\
    argv r = c_argv c /\ kRefed r = Some (c_refed c) /\ async_id r = c_async c.
Proof.
  intros S H. rewrite <- (sim_cells _ _ _ S) in H. destruct (imms st !! i) as [r|]; [|done]. cbn in H.
  exists r. unfold cell_of in H. destruct (destroyed r), (onImmediate r), (kRefed r); try done.
  by injection H as <-.
Qed.

Lemma sim_no_cell st a p i r :
  sim st a p -> cells a !! i = None -> imms st !! i = Some r -> destroyed r = true /\ kRefed r = None.
Proof.
  intros S H Hr. rewrite <- (sim_cells _ _ _ S), Hr in H. cbn in H.
  destruct (sim_dead _ _ _ S i r Hr) as [?|[c Hc]]; [done|congruence].
Qed.

(** A change of [kRefed] between the booleans. *)
Lemma sim_refed b st a p i c :
  sim st a p -> cells a !! i = Some c -> sim (upd i (with_kRefed (Some b)) st) (spec_refed b i a) p.
Proof.
  intros S H. destruct (sim_cell _ _ _ _ _ S H) as (r & Hr & Hd & Hf & Ha & Hk & Hi).
  assert (forall j, link (imms (upd i (with_kRefed (Some b)) st)) j = link (imms st) j) as HL
    by (intros j; by apply link_upd).
  destruct S. constructor; cbn [upd spec_refed sh ssh queue batch immediateQueue cells] in *; try done.
  - intros j. cbn [imms upd]. destruct (decide (i = j)) as [<-|Hne].
    + rewrite !lookup_alter_eq, Hr, H. cbn. unfold cell_of. cbn. by rewrite Hd, Hf, Ha, Hi.
    + by rewrite !lookup_alter_ne.
  - intros j r'. cbn [imms upd]. destruct (decide (i = j)) as [<-|Hne].
    + rewrite lookup_alter_eq, Hr. intros [= <-]. right. unfold cell_of. cbn. by rewrite Hd, Hf.
    + rewrite lookup_alter_ne by done. apply sim_dead0.
  - eapply seg_ext; [|exact sim_queue0]. auto.
  - eapply seg_ext; [|exact sim_batch0]. auto.
  - intros x Hx. destruct (sim_pred0 x Hx) as (? & l & ?). split; [done|]. exists l. by rewrite HL.
  - intros j. rewrite <- sim_all0. destruct (decide (i = j)) as [<-|Hne].
    + rewrite lookup_alter_eq, H. by split.
    + by rewrite lookup_alter_ne.
  - intros j Hj. cbn [imms upd]. rewrite lookup_alter_None. auto.
Qed.

Lemma sim_ref st a p i : sim st a p -> sim (ref i st) (spec_ref i a) p.
Proof.
  intros S. unfold ref, spec_ref. destruct (cells a !! i) as [c|] eqn:E.
  - destruct (sim_cell _ _ _ _ _ S E) as (r & -> & _ & _ & _ & -> & _). destruct (c_refed c) eqn:Ec; cbn.
    + by rewrite bool_decide_eq_false_2.
    + rewrite bool_decide_eq_true_2 by done. apply sim_with_sh; [apply incRef_nextObj|]. by eapply sim_refed.
  - destruct (imms st !! i) as [r|] eqn:Er; [|done].
    destruct (sim_no_cell _ _ _ _ _ S E Er) as [_ ->]. by rewrite bool_decide_eq_false_2.
Qed.

Lemma sim_unref st a p i : sim st a p -> sim (unref i st) (spec_unref i a) p.
Proof.
  intros S. unfold unref, spec_unref. destruct (cells a !! i) as [c|] eqn:E.
  - destruct (sim_cell _ _ _ _ _ S E) as (r & -> & _ & _ & _ & -> & _). destruct (c_refed c) eqn:Ec; cbn.
    + rewrite bool_decide_eq_true_2 by done. apply sim_with_sh; [apply decRef_nextObj|]. by eapply sim_refed.
    + by rewrite bool_decide_eq_false_2.
  - destruct (imms st !! i) as [r|] eqn:Er; [|done].
    destruct (sim_no_cell _ _ _ _ _ S E Er) as [_ ->]. by rewrite bool_decide_eq_false_2.
Qed.

Lemma sim_hasRef st a p i : sim st a p -> hasRef i st = spec_hasRef i a.
Proof.
  intros S. unfold hasRef, spec_hasRef. destruct (cells a !! i) as [c|] eqn:E.
  - destruct (sim_cell _ _ _ _ _ S E) as (r & -> & _ & _ & _ & -> & _).
    by destruct (c_refed c); [rewrite bool_decide_eq_true_2|rewrite bool_decide_eq_false_2].
  - destruct (imms st !! i) as [r|] eqn:Er; [|done].
    destruct (sim_no_cell _ _ _ _ _ S E Er) as [_ ->]. by rewrite bool_decide_eq_false_2.
Qed.

(** *** [setImmediate] *)

(** The heap with a new object, linked at the end of the queue. *)
Definition appended (h : gmap positive immediate) (t : option positive) (i : positive) (r : immediate) :=
  match t with
  | Some t => alter (with_idlePrev (Some t)) i (alter (with_idleNext (Some i)) t (<[i := r]> h))
  | None => <[i := r]> h
  end.

Lemma appended_links h t i r j :
  t <> Some i -> link h i = None -> idlePrev r = None -> idleNext r = None ->
  link (appended h t i r) j =
    if decide (i = j) then Some (t, None)
    else (fun l => (l.1, if decide (t = Some j) then Some i else l.2)) <$> link h j.
Proof.
  intros Ht Hi Hp Hn. assert (link (<[i := r]> h) j = if decide (i = j) then Some (None, None) else link h j) as H0.
  { unfold link. case_decide; [subst; rewrite lookup_insert_eq; cbn; by rewrite Hp, Hn|by rewrite lookup_insert_ne]. }
  unfold appended. destruct t as [t|].
  - rewrite link_prev, link_next, H0. destruct (decide (i = j)) as [<-|Hij]; [by rewrite decide_False by congruence|].
    link_cases.
  - rewrite H0. case_decide; [done|]. link_cases.
Qed.

Lemma appended_core h t i r j :
  core_of (appended h t i r) j = if decide (i = j) then Some (core r) else core_of h j.
Proof.
  unfold appended. destruct t; rewrite ?core_upd by done; unfold core_of;
    (case_decide; [subst; by rewrite lookup_insert_eq|by rewrite lookup_insert_ne]).
Qed.

Lemma new_Immediate_eq f args st :
  let i := nextObj (sh st) in
  let x := allocate (sh st) in
  let x' := incRef x in
  let q := immediateQueue st in
  new_Immediate f args st =
    (State (appended (imms st) (tail q) i (Immediate_ None None (Some f) args false (Some true) (asyncIdCounter x)))
       (IList (match tail q with Some _ => head q | None => Some i end) (Some i)) (outstandingQueue st)
       (set_kCount (get_kCount x' + 1) x'), i).
Proof.
  intros i x x' q. unfold new_Immediate, ref, append, upd, with_sh, set_immediateQueue. cbn [imms sh immediateQueue outstandingQueue].
  fold x i. change (asyncIdCounter (allocate (sh st))) with (asyncIdCounter x).
  rewrite lookup_insert_eq. cbn [kRefed]. rewrite bool_decide_eq_true_2 by done.
  cbn [imms sh immediateQueue outstandingQueue]. fold q. unfold appended.
  destruct (tail q); cbn; by rewrite alter_insert_eq.
Qed.

Lemma sim_view h h' i :
  core_of h' i = core_of h i -> h' !! i ≫= cell_of = h !! i ≫= cell_of.
Proof.
  unfold core_of. destruct (h' !! i) as [r'|], (h !! i) as [r|]; try done. cbn [fmap option_fmap option_map].
  intros H%(inj Some). by apply cell_core in H as [H _].
Qed.

Lemma sim_fresh_out st a p : sim st a p -> nextObj (sh st) ∉ queue a ++ batch a /\ imms st !! nextObj (sh st) = None.
Proof.
  intros S. assert (imms st !! nextObj (sh st) = None) as Hi by (apply (sim_fresh _ _ _ S); reflexivity).
  split; [|done]. intros H%(sim_all _ _ _ S). rewrite <- (sim_cells _ _ _ S), Hi in H. by destruct H.
Qed.

Lemma sim_appended f args id st a p x :
  let i := nextObj (sh st) in
  sim st a p -> nextObj x = Pos.succ i ->
  sim (State (appended (imms st) (last (queue a)) i (Immediate_ None None (Some f) args false (Some true) id))
         (IList (match last (queue a) with Some _ => hd_or None (queue a) | None => Some i end) (Some i))
         (outstandingQueue st) x)
      (Spec (<[i := Cell f args true id]> (cells a)) (queue a ++ [i]) (batch a) x) p.
Proof.
  intros i S Hx. destruct (sim_fresh_out _ _ _ S) as [Hin Hi]. fold i in Hin, Hi. set (r := Immediate_ _ _ _ _ _ _ _).
  apply not_elem_of_app in Hin as [Hiq Hib].
  assert (last (queue a) <> Some i) as Hlast by by intros E%last_Some_elem_of.
  pose proof (fun j => appended_links (imms st) (last (queue a)) i r j Hlast
    ltac:(unfold link; by rewrite Hi) eq_refl eq_refl) as HL.
  pose proof (appended_core (imms st) (last (queue a)) i r) as HC.
  set (h := appended _ _ _ _) in *. destruct (proj1 (NoDup_app _ _) (sim_nodup _ _ _ S)) as (Hn1 & Hn2 & Hn3).
  constructor; cbn [sh ssh imms cells queue batch immediateQueue]; [done|..].
  - intros j. specialize (HC j). destruct (decide (i = j)) as [<-|Hij].
    + rewrite lookup_insert_eq. unfold core_of in HC. destruct (h !! i) as [r'|]; [|done].
      apply (inj Some), cell_core in HC as [HC _]. exact HC.
    + rewrite lookup_insert_ne by done. rewrite <- (sim_cells _ _ _ S). by apply sim_view.
  - intros j r' Hr. specialize (HC j). unfold core_of in HC. rewrite Hr in HC. cbn in HC. destruct (decide (i = j)) as [<-|Hij].
    + apply (inj Some), cell_core in HC as [HC _]. right. rewrite HC. by eexists.
    + destruct (imms st !! j) as [r0|] eqn:E; [|done]. apply (inj Some), cell_core in HC as (-> & -> & ->).
      by apply (sim_dead _ _ _ S j).
  - apply iseg_app. cbn [hd_or seg]. split_and!; [|rewrite HL, decide_True by done; unfold last_or; by destruct (last _)|done].
    eapply seg_redirect; [done| |apply (sim_queue _ _ _ S)]. intros j Hj. rewrite HL, decide_False by (intros <-; done). done.
  - rewrite last_snoc. destruct (queue a) as [|y l]; [done|]. rewrite last_cons. by destruct (last l).
  - eapply seg_ext; [|apply (sim_batch _ _ _ S)]. intros j Hj. rewrite HL, decide_False by (intros <-; done).
    assert (last (queue a) <> Some j) by (intros E%last_Some_elem_of; by apply (Hn2 j)). link_cases.
  - intros y Hy. destruct (sim_pred _ _ _ S y Hy) as (Hyn & l & Hl). assert (i <> y).
    { intros <-. unfold link in Hl. by rewrite Hi in Hl. }
    apply not_elem_of_app in Hyn as [Hyq Hyb]. split; [rewrite !not_elem_of_app, list_elem_of_singleton; split_and!; congruence|].
    exists l. rewrite HL, decide_False, Hl by done.
    assert (last (queue a) <> Some y) by by intros E%last_Some_elem_of. link_cases.
  - rewrite <- app_assoc. apply NoDup_app. split_and!; [done| |by constructor].
    intros j Hj [->|?]%elem_of_cons; [done|]. by apply (Hn2 j).
  - intros j. rewrite <- app_assoc, elem_of_app. cbn [app]. rewrite elem_of_cons.
    destruct (decide (i = j)) as [<-|Hij]; [rewrite lookup_insert_eq; split; [auto|by eexists]|].
    rewrite lookup_insert_ne, (sim_all _ _ _ S), elem_of_app by done. naive_solver.
  - intros j Hj. rewrite Hx in Hj. specialize (HC j). rewrite decide_False in HC by lia. unfold core_of in HC.
    rewrite (sim_fresh _ _ _ S j) in HC by lia. by destruct (h !! j).
Qed.

Lemma sim_set callback args st a p :
  sim st a p ->
  sim (setImmediate callback args st).1 (spec_set callback args a).1 p /\
  (setImmediate callback args st).2 = (spec_set callback args a).2 /\
  outstandingQueue (setImmediate callback args st).1 = outstandingQueue st /\
  (forall i, is_Some (imms st !! i) -> is_Some (imms (setImmediate callback args st).1 !! i)).
Proof.
  intros S. unfold setImmediate, spec_set. destruct callback as [f|]; [|done].
  rewrite new_Immediate_eq. cbn [fst snd]. rewrite <- (sim_sh _ _ _ S), (sim_ends _ _ _ S). cbn [tail head outstandingQueue].
  split_and!; [|done|done|].
  - apply sim_appended; [done|]. cbn. by rewrite incRef_nextObj.
  - intros j Hj. cbn [imms]. set (r := Immediate_ _ _ _ _ _ _ _).
    pose proof (appended_core (imms st) (last (queue a)) (nextObj (sh st)) r j) as HC. unfold core_of in HC.
    destruct (appended _ _ _ _ !! j); [by eexists|]. case_decide; [done|]. by destruct (imms st !! j), Hj.
Qed.

(** *** [clearImmediate] *)

Lemma hd_or_app l1 l2 e : hd_or e (l1 ++ l2) = hd_or (hd_or e l2) l1.
Proof. by destruct l1. Qed.

(** The ends of the queue, without one of its items. *)
Lemma ends_remove l1 i l2 :
  NoDup (l1 ++ i :: l2) ->
  (if decide (Some i = hd_or None (l1 ++ i :: l2)) then hd_or None l2 else hd_or None (l1 ++ i :: l2))
    = hd_or None (l1 ++ l2) /\
  (if decide (Some i = last (l1 ++ i :: l2)) then last_or None l1 else last (l1 ++ i :: l2)) = last (l1 ++ l2).
Proof.
  intros (_ & H1 & H2)%remove_split. split.
  - destruct l1 as [|y l1]; cbn [app hd_or]; [by rewrite decide_True|]. rewrite decide_False; [done|]. intros [= ->]. apply H1. left.
  - rewrite !last_app, last_cons. destruct (last l2) as [y|] eqn:E.
    + rewrite decide_False; [done|]. intros [= ->]. by apply H2, last_Some_elem_of.
    + rewrite decide_True by done. unfold last_or. by destruct (last l1).
Qed.

Section Drop.
Context (st st1 : state) (a : spec) (p : option positive) (i : positive).
Context (S : sim st a p) (Hi : is_Some (cells a !! i)).
Context (HL : forall j, link (imms st1) j = link (imms st) j).
Context (HC : forall j, j <> i -> core_of (imms st1) j = core_of (imms st) j).
Context (HD : exists r, imms st1 !! i = Some r /\ destroyed r = true /\ kRefed r = None).
Context (HQ : immediateQueue st1 = immediateQueue st) (HN : nextObj (sh st1) = nextObj (sh st)).

(** What does not depend on the links. *)
Lemma drop_cores h :
  (forall j, core_of h j = core_of (imms st1) j) ->
  (forall j, h !! j ≫= cell_of = delete i (cells a) !! j) /\
  (forall j r, h !! j = Some r -> destroyed r = true /\ kRefed r = None \/ is_Some (cell_of r)) /\
  (forall j, (nextObj (sh st1) <= j)%positive -> h !! j = None).
Proof using All.
  intros Hh. assert (exists r, h !! i = Some r /\ destroyed r = true /\ kRefed r = None) as (r & Hr & Hd & Hk).
  { destruct HD as (r & Hr & Hd & Hk). specialize (Hh i). unfold core_of in Hh. rewrite Hr in Hh.
    destruct (h !! i) as [r'|]; [|done]. apply (inj Some), cell_core in Hh as (_ & ? & ?). exists r'. split_and!; congruence. }
  split_and!.
  - intros j. destruct (decide (i = j)) as [<-|Hij].
    + rewrite lookup_delete_eq, Hr. cbn. unfold cell_of. by rewrite Hd.
    + rewrite lookup_delete_ne by done. rewrite <- (sim_cells _ _ _ S). apply sim_view. rewrite Hh. by apply HC.
  - intros j r' Hr'. destruct (decide (i = j)) as [<-|Hij]; [left; by simplify_eq|].
    specialize (Hh j). rewrite HC in Hh by done. unfold core_of in Hh. rewrite Hr' in Hh.
    destruct (imms st !! j) as [r0|] eqn:E; [|done]. apply (inj Some), cell_core in Hh as (-> & -> & ->).
    by apply (sim_dead _ _ _ S j).
  - intros j Hj. rewrite HN in Hj. pose proof (sim_fresh _ _ _ S j Hj) as Hf. assert (i <> j).
    { intros <-. destruct Hi as [c Hc]. rewrite <- (sim_cells _ _ _ S), Hf in Hc. done. }
    specialize (Hh j). rewrite HC in Hh by done. unfold core_of in Hh. rewrite Hf in Hh. by destruct (h !! j).
Qed.

Lemma drop_lists :
  NoDup (others i (queue a) ++ others i (batch a)) /\
  forall j, is_Some (delete i (cells a) !! j) <-> j ∈ others i (queue a) ++ others i (batch a).
Proof using All.
  rewrite <- others_app. split; [apply NoDup_filter, (sim_nodup _ _ _ S)|]. intros j.
  unfold others. rewrite list_elem_of_filter, <- (sim_all _ _ _ S). destruct (decide (i = j)) as [<-|Hij].
  - rewrite lookup_delete_eq. split; [by intros [? ?]|by intros [? _]].
  - rewrite lookup_delete_ne by done. naive_solver.
Qed.

Lemma sim_remove :
  sim (remove i st1) (Spec (delete i (cells a)) (others i (queue a)) (others i (batch a)) (sh st1)) p.
Proof using All.
  destruct (drop_cores (imms (remove i st1)) ltac:(intros; apply remove_core)) as (D1 & D2 & D3).
  destruct drop_lists as [D4 D5]. pose proof (sim_nodup _ _ _ S) as Hnd. apply NoDup_app in Hnd as (Hn1 & Hn2 & Hn3).
  assert (seg (imms st1) None (queue a) None) as Hq by (eapply seg_ext; [|apply (sim_queue _ _ _ S)]; auto).
  assert (seg (imms st1) p (batch a) None) as Hb by (eapply seg_ext; [|apply (sim_batch _ _ _ S)]; auto).
  assert (forall x, p = Some x -> x ∉ queue a /\ x ∉ batch a /\ exists l, link (imms st1) x = Some (l, hd_or None (batch a))) as Hp.
  { intros x Hx. destruct (sim_pred _ _ _ S x Hx) as ([? ?]%not_elem_of_app & l & Hl). split_and!; [done..|].
    exists l. by rewrite HL. }
  pose proof (sim_ends _ _ _ S) as He. rewrite <- HQ in He.
  apply (sim_all _ _ _ S), elem_of_app in Hi as [(l1 & l2 & E)%list_elem_of_split|(l1 & l2 & E)%list_elem_of_split].
  - assert (i ∉ batch a) as Hib by (intros H; eapply Hn2; [|exact H]; rewrite E; apply elem_of_app; right; left).
    rewrite (others_not_in i (batch a)) in * by done. rewrite E in Hq, He, Hn1. destruct (remove_split _ _ _ Hn1) as (Eo & _ & _).
    rewrite E, Eo in *. destruct (remove_seg st1 i None l1 l2 Hq Hn1 ltac:(done)) as (R1 & _ & R3 & R4).
    assert (forall j, j ∉ l1 ++ i :: l2 -> link (imms (remove i st1)) j = link (imms st1) j) as R.
    { intros j Hj. apply R3; [|intros Hx; apply Hj|done]. { intros ->. apply Hj, elem_of_app. right. left. }
      apply elem_of_app in Hx as [?|?]; apply elem_of_app; [by left|right; by right]. }
    constructor; cbn [ssh cells queue batch]; [by rewrite (proj1 (remove_sh _ _))|done|done|done|..].
    + rewrite R4, He. cbn [head tail]. destruct (ends_remove _ _ _ Hn1) as [-> ->]. done.
    + eapply seg_ext; [|exact Hb]. intros x Hx. apply R. intros H. by apply (Hn2 x).
    + intros x Hx. destruct (Hp x Hx) as (Hxq & Hxb & l & Hl). split.
      * rewrite <- Eo. apply not_elem_of_app. split; [|done]. unfold others. rewrite list_elem_of_filter. tauto.
      * exists l. by rewrite R.
    + done.
    + done.
    + by rewrite (proj1 (remove_sh _ _)).
  - assert (i ∉ queue a) as Hiq by (intros H; eapply Hn2; [exact H|]; rewrite E; apply elem_of_app; right; left).
    rewrite (others_not_in i (queue a)) in * by done. rewrite E in Hb, Hn3, Hp. destruct (remove_split _ _ _ Hn3) as (Eo & _ & _).
    rewrite E, Eo in *. destruct (remove_seg st1 i p l1 l2 Hb Hn3 ltac:(intros x Hx; apply (Hp x Hx))) as (R1 & R2 & R3 & R4).
    constructor; cbn [ssh cells queue batch]; [by rewrite (proj1 (remove_sh _ _))|done|done|..].
    + eapply seg_ext; [|exact Hq]. intros x Hx. apply R3; [by intros ->| |intros Hx'; by destruct (Hp x Hx')].
      intros H. apply (Hn2 x Hx). apply elem_of_app in H as [?|?]; apply elem_of_app; [by left|right; by right].
    + rewrite R4, He. cbn [head tail]. rewrite !decide_False; [done|..].
      * intros H. symmetry in H. by apply last_Some_elem_of in H.
      * intros H. symmetry in H. by apply hd_or_in in H as [|].
    + done.
    + intros x Hx. destruct (Hp x Hx) as (Hxq & Hxb & l & Hl). split.
      * apply not_elem_of_app. split; [done|]. rewrite <- Eo. unfold others. rewrite list_elem_of_filter. tauto.
      * exists l. rewrite (R2 x Hx), Hl. cbn [fmap option_fmap option_map fst snd]. by destruct l1.
    + done.
    + done.
    + by rewrite (proj1 (remove_sh _ _)).
Qed.
End Drop.

Lemma remove_dom st i j : is_Some (imms (remove i st) !! j) <-> is_Some (imms st !! j).
Proof.
  pose proof (remove_core st i j) as H. unfold core_of in H.
  destruct (imms (remove i st) !! j), (imms st !! j); try done; split; by intros [].
Qed.

Lemma sim_clear i st a p :
  sim st a p ->
  sim (clearImmediate i st) (spec_clear i a) p /\ outstandingQueue (clearImmediate i st) = outstandingQueue st /\
  (forall j, is_Some (imms st !! j) -> is_Some (imms (clearImmediate i st) !! j)).
Proof.
  intros S. unfold clearImmediate, spec_clear. destruct i as [i|]; [|done]. cbn [mbind option_bind].
  destruct (cells a !! i) as [c|] eqn:Ec.
  2: { destruct (imms st !! i) as [r|] eqn:Er; [|done]. cbn [mbind option_bind].
       destruct (sim_no_cell _ _ _ _ _ S Ec Er) as [-> _]. by rewrite orb_true_r. }
  destruct (sim_cell _ _ _ _ _ S Ec) as (r & Er & Hd & Hf & Ha & Hk & Hid). rewrite Er. cbn [mbind option_bind].
  rewrite Hd, Hf, Hk, Hid, bool_decide_eq_false_2 by done. cbn [orb]. cbv zeta.
  set (st1 := upd i without_onImmediate _). set (a1 := spec_sh (log _) _).
  assert (sh st1 = ssh a1) as Hsh.
  { pose proof (sim_sh _ _ _ S) as E. unfold st1, a1. destruct (c_refed c); cbn; by rewrite <- E. }
  assert (a1 = Spec (cells a) (queue a) (batch a) (ssh a1)) as Ha1 by (unfold a1; by destruct (c_refed c)).
  assert (imms st1 = alter without_onImmediate i (alter (with_kRefed None) i (alter with_destroyed i (imms st)))) as Him
    by (unfold st1; by destruct (c_refed c)).
  assert (sim (remove i st1) (spec_drop i a1) p /\ outstandingQueue st1 = outstandingQueue st) as [? Ho].
  { split; [|unfold st1; by destruct (c_refed c)]. rewrite Ha1. unfold spec_drop. cbn [cells queue batch ssh]. rewrite <- Hsh.
    apply (sim_remove st st1 a p i S); rewrite ?Him.
    - by eexists.
    - intros j. rewrite !link_upd by done. done.
    - intros j Hj. unfold core_of. by rewrite !lookup_alter_ne.
    - rewrite !lookup_alter_eq, Er. by eexists.
    - unfold st1. by destruct (c_refed c).
    - rewrite Hsh, (sim_sh _ _ _ S). unfold a1. cbn. destruct (c_refed c); cbn; by rewrite ?decRef_nextObj. }
  split; [done|]. split; [by rewrite (proj2 (remove_sh _ _))|].
  intros j Hj. apply remove_dom. rewrite Him. destruct (decide (i = j)) as [<-|Hij]; [|by rewrite !lookup_alter_ne].
  rewrite !lookup_alter_eq, Er. by eexists.
Qed.

(** ** Programs *)

(** What a program can do to the lists: clear what is in them, and add new
    objects to the queue. *)
Record evolves (a a' : spec) : Prop := {
  ev_batch : batch a' `sublist_of` batch a;
  ev_queue x : x ∈ queue a' -> x ∈ queue a \/ (nextObj (ssh a) <= x)%positive;
  ev_next : (nextObj (ssh a) <= nextObj (ssh a'))%positive;
}.

#[global] Instance evolves_preorder : PreOrder evolves.
Proof.
  split.
  - intros a. by constructor; [|left|].
  - intros a b c [B1 Q1 N1] [B2 Q2 N2]. constructor; [by etrans|intros x [H|H]%Q2|lia].
    + apply Q1 in H as [H|H]; [by left|right; lia].
    + right. lia.
Qed.

Lemma others_sublist i l : others i l `sublist_of` l.
Proof. apply sublist_filter. Qed.

Lemma evolves_sh f a : (forall x, nextObj (f x) = nextObj x) -> evolves a (spec_sh f a).
Proof. intros Hf. constructor; cbn; [done|by left|]. by rewrite Hf. Qed.

Lemma evolves_lists a a' :
  batch a' `sublist_of` batch a -> queue a' `sublist_of` queue a -> nextObj (ssh a') = nextObj (ssh a) -> evolves a a'.
Proof. intros Hb Hq Hn. constructor; [done| |by rewrite Hn]. intros x Hx. left. by eapply elem_of_sublist. Qed.

Lemma evolves_set callback args a : evolves a (spec_set callback args a).1.
Proof.
  destruct callback as [f|]; [|done]. constructor; cbn [fst queue batch ssh spec_set]; [done| |].
  - intros x [Hx|Hx%list_elem_of_singleton]%elem_of_app; [by left|right; by subst].
  - cbn. rewrite incRef_nextObj. cbn. lia.
Qed.

Lemma evolves_clear i a : evolves a (spec_clear i a).
Proof.
  unfold spec_clear. destruct i as [i|]; [|done]. cbn. destruct (cells a !! i) as [c|]; [|done]. cbn.
  destruct (c_refed c); apply evolves_lists; try apply others_sublist; cbn [spec_drop spec_sh ssh log nextObj];
    by rewrite ?decRef_nextObj.
Qed.

Lemma evolves_ref i a : evolves a (spec_ref i a) /\ evolves a (spec_unref i a).
Proof.
  unfold spec_ref, spec_unref. destruct (cells a !! i) as [c|]; [|done].
  destruct (c_refed c); (split; [try done..]); apply evolves_lists; try done; cbn [spec_refed spec_sh ssh];
    by rewrite ?incRef_nextObj, ?decRef_nextObj.
Qed.

(** A program acts in the same way on the objects and on the lists. *)
Record follows (st st' : state) (a a' : spec) (p : option positive) : Prop := {
  fol_sim : sim st' a' p;
  fol_outstanding : outstandingQueue st' = outstandingQueue st;
  fol_dom i : is_Some (imms st !! i) -> is_Some (imms st' !! i);
  fol_evolves : evolves a a';
}.

Lemma follows_trans st st' st'' a a' a'' p :
  follows st st' a a' p -> follows st' st'' a' a'' p -> follows st st'' a a'' p.
Proof. intros [] []. constructor; [done|congruence|auto|by etrans]. Qed.

Lemma ref_keeps i st :
  outstandingQueue (ref i st) = outstandingQueue st /\ outstandingQueue (unref i st) = outstandingQueue st /\
  (forall j, is_Some (imms st !! j) -> is_Some (imms (ref i st) !! j) /\ is_Some (imms (unref i st) !! j)).
Proof.
  assert (forall f j, is_Some (imms st !! j) -> is_Some (alter f i (imms st) !! j)) as H.
  { intros f j Hj. destruct (decide (i = j)) as [<-|]; [rewrite lookup_alter_eq|by rewrite lookup_alter_ne].
    by apply fmap_is_Some. }
  unfold ref, unref. destruct (imms st !! i) as [r|]; [|done].
  split_and!; [by case_step..|]. intros j Hj. split; case_step; try done; by apply H.
Qed.

Lemma exec_sim pr st a p :
  sim st a p ->
  follows st (exec concrete pr st).1 a (exec abstract_ pr a).1 p /\
  (exec concrete pr st).2 = (exec abstract_ pr a).2.
Proof.
  revert st a. induction pr as [|e|cb args k IH|i k IH|i k IH|i k IH|i k IH]; intros st a S; cbn [exec];
    [done|done|..]; cbn [api_set api_clear api_ref api_unref api_hasRef concrete abstract_].
  - destruct (sim_set cb args st a p S) as (S1 & Hr & Ho & Hd). pose proof (evolves_set cb args a) as He.
    destruct (setImmediate cb args st) as [st1 r], (spec_set cb args a) as [a1 r']. cbn [fst snd] in *. subst r'.
    destruct (IH r st1 a1 S1) as [HF HR]. split; [|done]. eapply follows_trans; [|exact HF]. by constructor.
  - destruct (sim_clear i st a p S) as (S1 & Ho & Hd). destruct (IH _ _ S1) as [HF HR]. split; [|done].
    eapply follows_trans; [|exact HF]. constructor; [done..|apply evolves_clear].
  - destruct (IH _ _ (sim_ref st a p i S)) as [HF HR]. split; [|done].
    eapply follows_trans; [|exact HF]. destruct (ref_keeps i st) as (? & ? & Hd).
    constructor; [by apply sim_ref|done|intros j Hj; by apply Hd|apply evolves_ref].
  - destruct (IH _ _ (sim_unref st a p i S)) as [HF HR]. split; [|done].
    eapply follows_trans; [|exact HF]. destruct (ref_keeps i st) as (? & ? & Hd).
    constructor; [by apply sim_unref|done|intros j Hj; by apply Hd|apply evolves_ref].
  - rewrite (sim_hasRef st a p i S). by apply IH.
Qed.

(** ** Running *)

(** The head of the batch leaves it, and is then the object before it. *)
Lemma sim_pop st a p i c rest r :
  sim st a p -> batch a = i :: rest -> cells a !! i = Some c -> imms st !! i = Some r ->
  let f x := log (EvRun i) (log (EvBefore (c_async c)) (spec_account c x)) in
  sim (with_sh f (upd i (with_kRefed None) (upd i with_destroyed st))) (spec_sh f (spec_drop i a)) (Some i).
Proof.
  intros S Hb Hc Hr f. pose proof (sim_nodup _ _ _ S) as Hnd. rewrite Hb in Hnd.
  assert (forall x, nextObj (f x) = nextObj x) as Hf by (intros x; unfold f, spec_account; by destruct (c_refed c)).
  apply sim_with_sh; [done|]. set (st1 := upd i _ _).
  assert (forall j, link (imms st1) j = link (imms st) j) as HL.
  { intros j. unfold st1. cbn [upd imms]. rewrite !link_upd by done. done. }
  assert (i ∉ queue a /\ i ∉ rest) as [Hiq Hir].
  { apply NoDup_app in Hnd as (_ & H & [? _]%NoDup_cons). split; [|done]. intros Hi. apply (H i Hi). left. }
  assert (others i (batch a) = rest) as Eb.
  { rewrite Hb. unfold others. rewrite filter_cons_False by tauto. fold (others i rest). by apply others_not_in. }
  assert (forall j, j <> i -> core_of (imms st1) j = core_of (imms st) j) as HC.
  { intros j Hj. unfold core_of, st1. cbn [upd imms]. by rewrite !lookup_alter_ne. }
  assert (exists r, imms st1 !! i = Some r /\ destroyed r = true /\ kRefed r = None) as HD.
  { unfold st1. cbn [upd imms]. rewrite !lookup_alter_eq, Hr. by eexists. }
  assert (is_Some (cells a !! i)) as Hi by by eexists.
  destruct (drop_cores st st1 a p i S Hi HL HC HD eq_refl eq_refl (imms st1) (fun _ => eq_refl)) as (D1 & D2 & D3).
  destruct (drop_lists st st1 a p i S Hi HL HC HD eq_refl eq_refl) as [D4 D5].
  pose proof (sim_batch _ _ _ S) as Hs. rewrite Hb in Hs. destruct Hs as [Hs1 Hs2].
  unfold spec_drop. rewrite Eb, (others_not_in i (queue a)) in * by done.
  constructor; cbn [ssh cells queue batch]; [apply (sim_sh _ _ _ S)|done|done|..|done|done|done].
  - eapply seg_ext; [|apply (sim_queue _ _ _ S)]. auto.
  - apply (sim_ends _ _ _ S).
  - eapply seg_ext; [|exact Hs2]. auto.
  - intros x [= <-]. split; [by apply not_elem_of_app|]. exists p. by rewrite HL.
Qed.

Definition attached (st : state) (a : spec) : Prop := head (outstandingQueue st) = hd_or None (batch a).

(** A change of the head of the outstanding list, and of fields of an object
    that has run. *)
Lemma sim_outstanding v st a p : sim st a p -> sim (set_outstanding_head v st) a p.
Proof. intros []. by constructor. Qed.

Lemma sim_ran i st a : sim st a (Some i) -> sim (upd i without_onImmediate st) a (Some i).
Proof.
  intros S. assert (forall j, link (imms (upd i without_onImmediate st)) j = link (imms st) j) as HL
    by (intros j; by apply link_upd).
  destruct (sim_pred _ _ _ S i eq_refl) as [Hin _].
  assert (cells a !! i = None) as Hc.
  { destruct (cells a !! i) eqn:E; [|done]. exfalso. apply Hin, (sim_all _ _ _ S). by eexists. }
  destruct S. constructor; cbn [upd sh immediateQueue]; try done.
  - intros j. cbn [imms upd]. destruct (decide (i = j)) as [<-|]; [|by rewrite lookup_alter_ne].
    rewrite lookup_alter_eq, Hc. destruct (imms st !! i) as [r|]; [|done]. unfold cell_of. cbn. by destruct (destroyed r).
  - intros j r. cbn [imms upd]. destruct (decide (i = j)) as [<-|]; [|rewrite lookup_alter_ne by done; apply sim_dead0].
    rewrite lookup_alter_eq. destruct (imms st !! i) as [r0|] eqn:E; [|done]. intros [= <-]. left.
    destruct (sim_dead0 i r0 E) as [?|[c Hc']]; [done|]. specialize (sim_cells0 i). rewrite E, Hc in sim_cells0. cbn in sim_cells0. congruence.
  - eapply seg_ext; [|exact sim_queue0]. auto.
  - eapply seg_ext; [|exact sim_batch0]. auto.
  - intros x Hx. destruct (sim_pred0 x Hx) as (? & l & ?). split; [done|]. exists l. by rewrite HL.
  - intros j Hj. cbn [imms upd]. rewrite lookup_alter_None. auto.
Qed.

Lemma run_sim st a p i c rest r :
  sim st a p -> batch a = i :: rest -> cells a !! i = Some c -> imms st !! i = Some r ->
  let st' := (run_one i r st).1 in let a' := (spec_run i c a).1 in
  (run_one i r st).2 = (spec_run i c a).2 /\ sim st' a' (Some i) /\ attached st' a' /\
  evolves (spec_drop i a) a'.
Proof.
  intros S Hb Hc Hr st' a'. destruct (sim_cell _ _ _ _ _ S Hc) as (r0 & Hr0 & _ & Hf & Ha & Hk & Hid). simplify_eq.
  pose proof (sim_pop st a p i c rest r S Hb Hc Hr) as SP. cbv zeta in SP.
  assert (account r = spec_account c) as Hacc.
  { unfold account, spec_account. rewrite Hk.
    by destruct (c_refed c); [rewrite bool_decide_eq_true_2|rewrite bool_decide_eq_false_2]. }
  unfold st', a', run_one, spec_run. cbv zeta. rewrite Hf, Hid, Ha, Hacc.
  match type of SP with sim ?x ?y _ => set (st1 := x) in SP; set (a1 := y) in SP end.
  match goal with |- context [exec concrete _ ?x] => change x with st1 end.
  match goal with |- context [exec abstract_ _ ?x] => change x with a1 end.
  destruct (exec_sim (c_callback c (default [] (c_argv c))) st1 a1 (Some i) SP) as [HF HR].
  destruct (exec concrete _ st1) as [st2 res], (exec abstract_ _ a1) as [a2 res']. cbn [fst snd] in *. subst res'.
  destruct HF as [S2 _ _ E2]. apply sim_ran in S2.
  apply (sim_with_sh (log (EvDestroy (c_async c)))) in S2; [|done].
  set (st3 := with_sh _ (upd i without_onImmediate st2)) in *. set (a3 := spec_sh _ a2) in *.
  apply (sim_outstanding (next_of st3 i)) in S2.
  assert (next_of st3 i = hd_or None (batch a3)) as Hnext.
  { destruct (sim_pred _ _ _ S2 i eq_refl) as (_ & l & Hl). apply next_of_link in Hl as [Hl _]. exact Hl. }
  assert (evolves (spec_drop i a) a3) as E3.
  { etrans; [|etrans; [exact E2|by apply evolves_sh]]. apply evolves_sh. intros x. unfold spec_account. by destruct (c_refed c). }
  destruct res as [[]|e]; cbn [fst snd]; (split; [done|]); [|done].
  split_and!; [by apply sim_with_sh|done|]. etrans; [exact E3|]. by apply evolves_sh.
Qed.

(** ** The loop *)

(** What the loop leaves: nothing of the batch when it returns; and after a
    throw, a head that is the rest of the batch, or has been cleared. *)
Definition aligned (st : state) (a : spec) : Prop :=
  attached st a \/ exists b r, head (outstandingQueue st) = Some b /\ imms st !! b = Some r /\ destroyed r = true.

Definition left_by (st : state) (a : spec) (res : result unit) : Prop :=
  aligned st a /\ match res with Ok _ => batch a = [] /\ attached st a | Throw _ => True end.

Lemma evolves_head a a' i rest :
  evolves a a' -> batch a = i :: rest -> i ∉ batch a' -> (length (batch a') <= length rest)%nat.
Proof.
  intros [H _ _] Hb Hi. rewrite Hb in H. apply sublist_cons_r in H as [H|(l & El & _)].
  - by apply sublist_length.
  - exfalso. apply Hi. rewrite El. left.
Qed.

Lemma evolves_keeps_head a a' i rest :
  evolves a a' -> batch a = i :: rest -> NoDup (batch a) -> i ∈ batch a' ->
  exists rest', batch a' = i :: rest' /\ (length rest' <= length rest)%nat.
Proof.
  intros [H _ _] Hb Hnd Hi. rewrite Hb in H, Hnd. apply NoDup_cons in Hnd as [Hn _].
  apply sublist_cons_r in H as [H|(l & El & Hl)].
  - exfalso. apply Hn. by eapply elem_of_sublist.
  - exists l. split; [done|]. by apply sublist_length.
Qed.

Section Loop.
Context (ticks : nat -> prog).

(** What a round does to the lists. *)
Inductive spec_step (a : spec) : spec -> Prop :=
  | step_ticks : spec_step a (spec_ticks ticks a).1
  | step_run i c rest : batch a = i :: rest -> cells a !! i = Some c -> spec_step a (spec_run i c a).1.

Lemma ticks_sim st a p :
  sim st a p ->
  follows st (runNextTicks ticks st).1 a (spec_ticks ticks a).1 p /\
  (runNextTicks ticks st).2 = (spec_ticks ticks a).2.
Proof.
  intros S. unfold runNextTicks, spec_ticks. rewrite (sim_sh _ _ _ S).
  destruct (exec_sim (ticks (tickRuns (ssh a))) _ _ _ (sim_with_sh count_ticks st a p ltac:(done) S)) as [HF HR].
  split; [|done]. eapply follows_trans; [|exact HF]. constructor; [by apply sim_with_sh|done|done|by apply evolves_sh].
Qed.

Lemma sim_batch_cell st a p i : sim st a p -> i ∈ batch a -> is_Some (cells a !! i).
Proof. intros S Hi. apply (sim_all _ _ _ S), elem_of_app. by right. Qed.

Lemma sim_batch_nodup st a p : sim st a p -> NoDup (batch a).
Proof. intros S. by destruct (proj1 (NoDup_app _ _) (sim_nodup _ _ _ S)) as (_ & _ & ?). Qed.

(** After the ticks, the head of the batch is still live and first, or has
    been destroyed. *)
Lemma ticks_head st st1 a a1 p i rest :
  sim st a p -> batch a = i :: rest -> follows st st1 a a1 p ->
  (exists c r rest', cells a1 !! i = Some c /\ imms st1 !! i = Some r /\ destroyed r = false /\
     batch a1 = i :: rest' /\ (length rest' <= length rest)%nat) \/
  (exists r, cells a1 !! i = None /\ imms st1 !! i = Some r /\ destroyed r = true /\
     (length (batch a1) <= length rest)%nat).
Proof.
  intros S Hb [S1 Ho Hdom He].
  destruct (sim_batch_cell st a p i S ltac:(rewrite Hb; left)) as [c0 Hc0].
  destruct (sim_cell _ _ _ _ _ S Hc0) as (r0 & Hr0 & _). destruct (Hdom i ltac:(by eexists)) as [r Hr].
  assert (i ∉ queue a /\ (i < nextObj (ssh a))%positive) as [Hiq Hlt].
  { split; [|rewrite <- (sim_sh _ _ _ S); apply Pos.lt_nle; intros Hle; by rewrite (sim_fresh _ _ _ S i Hle) in Hr0].
    intros Hi. destruct (proj1 (NoDup_app _ _) (sim_nodup _ _ _ S)) as (_ & H & _). apply (H i Hi). rewrite Hb. left. }
  destruct (cells a1 !! i) as [c|] eqn:Ec.
  - left. destruct (sim_cell _ _ _ _ _ S1 Ec) as (r1 & Hr1 & Hd & _). rewrite Hr in Hr1. injection Hr1 as <-.
    assert (i ∈ batch a1) as Hi.
    { assert (i ∈ queue a1 ++ batch a1) as [Hq|]%elem_of_app by (apply (sim_all _ _ _ S1); by eexists); [|done].
      destruct (ev_queue _ _ He i Hq); [done|lia]. }
    destruct (evolves_keeps_head _ _ _ _ He Hb (sim_batch_nodup _ _ _ S) Hi) as (rest' & Hb' & Hl).
    by exists c, r, rest'.
  - right. exists r. destruct (sim_no_cell _ _ _ _ _ S1 Ec Hr) as [Hd _]. split_and!; [done..|].
    apply (evolves_head a a1 i); [done..|]. intros Hi. apply (sim_batch_cell _ _ _ _ S1) in Hi. rewrite Ec in Hi. by destruct Hi.
Qed.

Lemma loop_empty n m prev ran st a p :
  sim st a p -> batch a = [] -> attached st a ->
  exists st' a' res p',
    imm_loop ticks n (hd_or None []) prev ran st = Some (st', res) /\
    spec_loop ticks m ran a = Some (a', res) /\ sim st' a' p' /\ left_by st' a' res /\ evolves a a' /\
    rtc spec_step a a'.
Proof.
  intros S Hb Ha. exists st, a, (Ok tt), p.
  split_and!; [by destruct n|destruct m; cbn [spec_loop]; by rewrite Hb|done|split; [by left|done]|done|done].
Qed.

Lemma loop_sim n m prev ran st a p :
  sim st a p -> (length (batch a) <= n)%nat -> (length (batch a) <= m)%nat ->
  (ran = true -> prev = p /\ p <> None) -> (ran = true \/ batch a = [] -> attached st a) ->
  exists st' a' res p',
    imm_loop ticks n (hd_or None (batch a)) prev ran st = Some (st', res) /\
    spec_loop ticks m ran a = Some (a', res) /\ sim st' a' p' /\ left_by st' a' res /\ evolves a a' /\
    rtc spec_step a a'.
Proof.
  revert m prev ran st a p. induction n as [|n IH]; intros m prev ran st a p S Hn Hm Hprev Hatt;
    (destruct (batch a) as [|i rest] eqn:Hb; [by eapply loop_empty; auto|]); [cbn in Hn; lia|].
  destruct m as [|m]; [cbn in Hm; lia|]. cbn [length] in Hn, Hm. cbn [imm_loop spec_loop hd_or]. rewrite Hb.
  set (tk := if ran then runNextTicks ticks st else (st, Ok tt)).
  set (sk := if ran then spec_ticks ticks a else (a, Ok tt)).
  assert (follows st tk.1 a sk.1 p /\ tk.2 = sk.2) as [HF HR].
  { unfold tk, sk. destruct ran; [by apply ticks_sim|done]. }
  assert (is_Some (match tk.2 with Throw e => Some e | Ok _ => None end) -> ran = true) as Hthrow.
  { unfold tk. destruct ran; [done|]. by intros [? ?]. }
  assert (rtc spec_step a sk.1) as Hrtc by (unfold sk; destruct ran; [apply rtc_once, step_ticks|done]).
  assert (ran = false -> sk.1 = a) as Hsame by (unfold sk; by intros ->).
  destruct tk as [st1 res], sk as [a1 res']. cbn [fst snd] in *. subst res'.
  pose proof HF as [S1 Ho _ He]. pose proof (ticks_head _ _ _ _ _ _ _ S Hb HF) as Hhead.
  destruct res as [[]|e].
  2: { specialize (Hthrow ltac:(by eexists)). exists st1, a1, (Throw e), p. split_and!; [done..| |done|done].
       split; [|done]. specialize (Hatt ltac:(by left)). unfold attached in Hatt. rewrite Hb in Hatt. cbn [hd_or] in Hatt.
       destruct Hhead as [(c & r & rest' & _ & _ & _ & Hb1 & _)|(r & _ & Hr & Hd & _)].
       - left. unfold attached. by rewrite Ho, Hatt, Hb1.
       - right. exists i, r. by rewrite Ho. }
  destruct Hhead as [(c & r & rest' & Hc & Hr & Hd & Hb1 & Hl)|(r & Hc & Hr & Hd & Hl)]; rewrite Hc, Hr, Hd.
  - destruct (run_sim st1 a1 p i c rest' r S1 Hb1 Hc Hr) as (HR2 & S2 & A2 & E2).
    destruct (run_one i r st1) as [st2 res2], (spec_run i c a1) as [a2 res2'] eqn:Erun. cbn [fst snd] in *. subst res2'.
    assert (evolves a a2) as E3.
    { etrans; [exact He|]. etrans; [|exact E2]. apply evolves_lists; [apply others_sublist..|done]. }
    assert (rtc spec_step a a2) as Hrtc2.
    { eapply rtc_r; [exact Hrtc|]. pose proof (step_run a1 i c rest' Hb1 Hc) as Hs. by rewrite Erun in Hs. }
    destruct res2 as [[]|e];
      [|exists st2, a2, (Throw e), (Some i); split_and!; [done..|split; [by left|done]|done|done]].
    unfold attached in A2. rewrite A2.
    assert (length (batch a2) <= length rest')%nat as Hlen.
    { pose proof (sublist_length _ _ (ev_batch _ _ E2)) as H. cbn [spec_drop batch] in H. rewrite Hb1 in H.
      unfold others in H. rewrite filter_cons_False in H by tauto. etrans; [exact H|]. apply length_filter. }
    destruct (IH m (Some i) true st2 a2 (Some i)) as (st' & a' & res & p' & H1 & H2 & H3 & H4 & H5 & H6); [done|lia..|done|done|].
    exists st', a', res, p'. split_and!; [done..|by etrans|by etrans].
  - assert (ran = true) as ->.
    { destruct ran; [done|]. rewrite (Hsame eq_refl) in Hc.
      destruct (sim_batch_cell st a p i S ltac:(rewrite Hb; left)) as [c Hc']. congruence. }
    destruct (Hprev eq_refl) as [-> Hp]. destruct p as [p|]; [|done].
    destruct (sim_pred _ _ _ S1 p eq_refl) as (_ & l & Hlk). apply next_of_link in Hlk as [Hnx _]. cbn [snd] in Hnx. rewrite Hnx.
    destruct (IH m (Some p) true (set_outstanding_head (hd_or None (batch a1)) st1) a1 (Some p))
      as (st' & a' & res & p' & H1 & H2 & H3 & H4 & H5 & H6); [by apply sim_outstanding|lia..|done|done|].
    exists st', a', res, p'. split_and!; [done..|by etrans|by etrans].
Qed.
End Loop.
