(* ===== verification/ImmediatesClaims.v ===== *)
(** * What immediates guarantee

    Reachable states of [Immediates]: programs of the event loop, and rounds of
    [processImmediate].  The refinement of the queue, the order of the
    callbacks, the counters, that a round serves all that waited, and the round
    that cannot be left. *)

From Stdlib Require Import Sorted.
From stdpp Require Import gmap.
From S2P Require Import Prelude JsString Rings Immediates ImmediatesFacts.
Import Immediates.

(** ** Order and counters of the specification *)

Definition runs (t : list event) : list positive :=
  omap (fun e => match e with EvRun i => Some i | _ => None end) t.

Lemma runs_log e x : runs (trace (log e x)) = runs (trace x) ++ match e with EvRun i => [i] | _ => [] end.
Proof. unfold runs. cbn. rewrite omap_app. by destruct e. Qed.

(** Everything that ran or waits, with the next object last. *)
Definition timeline (a : spec) : list positive :=
  runs (trace (ssh a)) ++ batch a ++ queue a ++ [nextObj (ssh a)].

Definition in_time (a : spec) : Prop := StronglySorted Pos.lt (timeline a).

Lemma in_time_sublist a a' : timeline a' `sublist_of` timeline a -> in_time a -> in_time a'.
Proof. apply sorted_sublist. Qed.

Lemma incRef_runs x : runs (trace (incRef x)) = runs (trace x) /\ runs (trace (decRef x)) = runs (trace x).
Proof. unfold incRef, decRef. split; case_step; rewrite ?runs_log; by rewrite ?app_nil_r. Qed.

Lemma allocate_runs x : runs (trace (allocate x)) = runs (trace x).
Proof. unfold runs. cbn. rewrite omap_app. destruct (initHooks x); apply app_nil_r. Qed.

Lemma in_time_sh f a :
  (forall x, runs (trace (f x)) = runs (trace x) /\ nextObj (f x) = nextObj x) -> in_time a -> in_time (spec_sh f a).
Proof.
  intros Hf. apply in_time_sublist. unfold timeline. cbn [spec_sh ssh batch queue].
  by destruct (Hf (ssh a)) as [-> ->].
Qed.

Lemma in_time_drop i a : in_time a -> in_time (spec_drop i a).
Proof.
  apply in_time_sublist. unfold timeline. cbn [spec_drop ssh batch queue].
  repeat apply sublist_app; auto using others_sublist.
Qed.

Lemma in_time_set callback args a : in_time a -> in_time (spec_set callback args a).1.
Proof.
  destruct callback as [f|]; [|done]. unfold in_time, timeline. cbn [spec_set fst ssh batch queue set_kCount set_info trace nextObj].
  rewrite (proj1 (incRef_runs _)), incRef_nextObj, allocate_runs. cbn [allocate nextObj].
  rewrite <- (app_assoc (queue a)), !app_assoc. intros H. rewrite <- (app_assoc _ [_]).
  apply sorted_snoc. by rewrite <- !app_assoc in H |- *.
Qed.

(** The cells that keep the event loop alive. *)
Definition refs (m : gmap positive cell) : Z := Z.of_nat (size (filter (fun kc => c_refed kc.2 = true) m)).
Definition live (m : gmap positive cell) : Z := Z.of_nat (size m).

Definition counted (a : spec) : Prop :=
  get_kCount (ssh a) = uint32 (live (cells a)) /\ get_kRefCount (ssh a) = uint32 (refs (cells a)).

Lemma refs_insert m i c : m !! i = None -> refs (<[i := c]> m) = refs m + (if c_refed c then 1 else 0).
Proof.
  intros Hi. unfold refs. destruct (c_refed c) eqn:E.
  - rewrite map_filter_insert_True, map_size_insert_None by (done || by rewrite map_lookup_filter, Hi). lia.
  - rewrite map_filter_insert_False by (cbn; congruence). rewrite delete_id by done. lia.
Qed.

Lemma live_insert m i c : m !! i = None -> live (<[i := c]> m) = live m + 1.
Proof. intros Hi. unfold live. rewrite map_size_insert_None by done. lia. Qed.

Lemma refs_delete m i c : m !! i = Some c -> refs (delete i m) = refs m - (if c_refed c then 1 else 0).
Proof.
  intros Hi. rewrite <- (insert_delete_id m i c Hi) at 2. rewrite refs_insert by apply lookup_delete_eq. lia.
Qed.

Lemma live_delete m i c : m !! i = Some c -> live (delete i m) = live m - 1.
Proof.
  intros Hi. rewrite <- (insert_delete_id m i c Hi) at 2. rewrite live_insert by apply lookup_delete_eq. lia.
Qed.

Lemma refs_alter m i c b :
  m !! i = Some c -> let m' := alter (fun c => Cell (c_callback c) (c_argv c) b (c_async c)) i m in
  refs m' = refs m - (if c_refed c then 1 else 0) + (if b then 1 else 0) /\ live m' = live m.
Proof.
  intros Hi. cbv zeta. set (f := fun c : cell => _).
  assert (alter f i m = <[i := f c]> (delete i m)) as ->.
  { rewrite insert_delete_eq. apply map_eq. intros j. destruct (decide (i = j)) as [<-|].
    - by rewrite lookup_alter_eq, Hi, lookup_insert_eq.
    - by rewrite lookup_alter_ne, lookup_insert_ne. }
  rewrite refs_insert, live_insert, (refs_delete m i c), (live_delete m i c) by (done || apply lookup_delete_eq).
  cbn. lia.
Qed.

(** The counters of the shared state, through its updates. *)
Lemma uint32_add a b : uint32 (uint32 a + b) = uint32 (a + b).
Proof. unfold uint32. apply Zplus_mod_idemp_l. Qed.

Lemma uint32_sub a b : uint32 (uint32 a - b) = uint32 (a - b).
Proof. apply (uint32_add a (- b)). Qed.

Lemma incRef_counts x : get_kCount (incRef x) = get_kCount x /\ get_kRefCount (incRef x) = uint32 (get_kRefCount x + 1).
Proof. unfold incRef. by case_step. Qed.

Lemma decRef_counts x : get_kCount (decRef x) = get_kCount x /\ get_kRefCount (decRef x) = uint32 (get_kRefCount x - 1).
Proof. unfold decRef. by case_step. Qed.

Definition bounded (a : spec) : Prop := forall i, is_Some (cells a !! i) -> (i < nextObj (ssh a))%positive.

Record good (a : spec) : Prop := { good_time : in_time a; good_counted : counted a; good_bounded : bounded a }.

Lemma counted_sh f a :
  (forall x, get_kCount (f x) = get_kCount x /\ get_kRefCount (f x) = get_kRefCount x) -> counted a -> counted (spec_sh f a).
Proof. intros Hf. unfold counted. cbn [spec_sh ssh cells]. by destruct (Hf (ssh a)) as [-> ->]. Qed.

(** One leaves: the counters are told. *)
Lemma counted_drop i c f a :
  cells a !! i = Some c -> counted a ->
  (get_kCount (f (ssh a)) = uint32 (get_kCount (ssh a) - 1)) ->
  (get_kRefCount (f (ssh a)) = if c_refed c then uint32 (get_kRefCount (ssh a) - 1) else get_kRefCount (ssh a)) ->
  counted (spec_sh f (spec_drop i a)).
Proof.
  intros Hc [H1 H2] Hf1 Hf2. unfold counted. cbn [spec_sh spec_drop ssh cells]. rewrite Hf1, Hf2, H1, H2.
  rewrite (live_delete _ _ _ Hc), (refs_delete _ _ _ Hc). split; [apply uint32_sub|].
  destruct (c_refed c); [apply uint32_sub|]. f_equal. lia.
Qed.

Lemma good_sh f a :
  (forall x, runs (trace (f x)) = runs (trace x) /\ nextObj (f x) = nextObj x) ->
  (forall x, get_kCount (f x) = get_kCount x /\ get_kRefCount (f x) = get_kRefCount x) -> good a -> good (spec_sh f a).
Proof.
  intros H1 H2 [HT HC HB]. constructor; [by apply in_time_sh|by apply counted_sh|].
  intros i Hi. cbn. rewrite (proj2 (H1 _)). by apply HB.
Qed.

Lemma bounded_lists f a a' :
  nextObj (ssh a') = nextObj (f (ssh a)) -> (forall x, nextObj (f x) = nextObj x) ->
  (forall i, is_Some (cells a' !! i) -> is_Some (cells a !! i)) -> bounded a -> bounded a'.
Proof. intros Hn Hf Hc HB i Hi. rewrite Hn, Hf. by apply HB, Hc. Qed.

Lemma good_refed (b : bool) i c a :
  cells a !! i = Some c -> c_refed c = negb b -> good a ->
  good (spec_sh (if b then incRef else decRef) (spec_refed b i a)).
Proof.
  intros Ec Eb [HT [H1 H2] HB]. destruct (refs_alter _ _ _ b Ec) as [R1 R2]. rewrite Eb in R1. constructor.
  - apply in_time_sh; [|done]. intros x. destruct b; (split; [apply incRef_runs|]); [apply incRef_nextObj|apply decRef_nextObj].
  - unfold counted. cbn [spec_sh spec_refed ssh cells]. rewrite R2, R1. destruct b; cbn [negb].
    + destruct (incRef_counts (ssh a)) as [-> ->]. rewrite H1, H2, uint32_add. split; [done|f_equal; lia].
    + destruct (decRef_counts (ssh a)) as [-> ->]. rewrite H1, H2, uint32_sub. split; [done|f_equal; lia].
  - apply (bounded_lists (if b then incRef else decRef) a); [done| | |done].
    + intros x. destruct b; [apply incRef_nextObj|apply decRef_nextObj].
    + intros j. cbn [spec_sh spec_refed cells]. destruct (decide (i = j)) as [<-|]; [by eexists|by rewrite lookup_alter_ne].
Qed.

Lemma good_ref i a : good a -> good (spec_ref i a) /\ good (spec_unref i a).
Proof.
  intros HG. unfold spec_ref, spec_unref. destruct (cells a !! i) as [c|] eqn:Ec; [|done].
  destruct (c_refed c) eqn:E; (split; [try done..]).
  - by apply (good_refed false i c).
  - by apply (good_refed true i c).
Qed.

Lemma good_set callback args a : good a -> good (spec_set callback args a).1.
Proof.
  intros [HT [H1 H2] HB]. destruct callback as [f|]; [|done].
  assert (cells a !! nextObj (ssh a) = None) as Hi.
  { destruct (cells a !! nextObj (ssh a)) eqn:E; [|done]. specialize (HB (nextObj (ssh a)) ltac:(by eexists)). lia. }
  constructor; [by apply in_time_set| |].
  - unfold counted. cbn [spec_set fst ssh cells]. rewrite live_insert, refs_insert by done. cbn [c_refed].
    set (x := allocate (ssh a)). destruct (incRef_counts x) as [E1 E2].
    change (get_kCount (set_kCount (get_kCount (incRef x) + 1) (incRef x))) with (uint32 (get_kCount (incRef x) + 1)).
    change (get_kRefCount (set_kCount (get_kCount (incRef x) + 1) (incRef x))) with (get_kRefCount (incRef x)).
    rewrite E1, E2. change (get_kCount x) with (get_kCount (ssh a)). change (get_kRefCount x) with (get_kRefCount (ssh a)).
    rewrite H1, H2. by rewrite !uint32_add.
  - intros j. cbn [spec_set fst ssh cells set_kCount set_info nextObj]. rewrite incRef_nextObj. cbn [allocate log nextObj].
    destruct (decide (nextObj (ssh a) = j)) as [<-|]; [lia|]. rewrite lookup_insert_ne by done. intros Hj%HB. lia.
Qed.

Lemma good_clear i a : good a -> good (spec_clear i a).
Proof.
  intros [HT HC HB]. unfold spec_clear. destruct i as [i|]; [|done]. cbn [mbind option_bind].
  destruct (cells a !! i) as [c|] eqn:Ec; [|done]. cbn [mbind option_bind]. cbv zeta.
  set (f := fun x => log (EvDestroy (c_async c)) (if c_refed c then decRef (set_kCount (get_kCount x - 1) x) else set_kCount (get_kCount x - 1) x)).
  assert (forall x, nextObj (f x) = nextObj x) as Hf.
  { intros x. unfold f. cbn [log nextObj]. destruct (c_refed c); [|done]. by rewrite decRef_nextObj. }
  assert (spec_drop i (spec_sh (log (EvDestroy (c_async c))) (if c_refed c
    then spec_sh decRef (spec_sh (fun x => set_kCount (get_kCount x - 1) x) a)
    else spec_sh (fun x => set_kCount (get_kCount x - 1) x) a)) = spec_sh f (spec_drop i a)) as -> by (unfold f; by destruct (c_refed c)).
  constructor.
  - apply in_time_sh; [|by apply in_time_drop]. intros x. split; [|apply Hf]. unfold f. rewrite runs_log, app_nil_r.
    destruct (c_refed c); [|done]. by rewrite (proj2 (incRef_runs _)).
  - apply (counted_drop i c); [done..| |]; unfold f; destruct (c_refed c); try done;
      by destruct (decRef_counts (set_kCount (get_kCount (ssh a) - 1) (ssh a))).
  - apply (bounded_lists f a); [done..| |done]. intros j. cbn [spec_sh spec_drop cells]. by intros [_ ?]%lookup_delete_is_Some.
Qed.

Lemma good_exec pr a : good a -> good (exec abstract_ pr a).1.
Proof.
  revert a. induction pr as [|e|cb args k IH|i k IH|i k IH|i k IH|i k IH]; intros a HG; cbn [exec]; [done|done|..];
    cbn [api_set api_clear api_ref api_unref api_hasRef abstract_].
  - apply (good_set cb args) in HG. destruct (spec_set cb args a) as [a1 r]. by apply IH.
  - by apply IH, good_clear.
  - by apply IH, good_ref.
  - by apply IH, good_ref.
  - by apply IH.
Qed.

Lemma good_run i c rest a : batch a = i :: rest -> cells a !! i = Some c -> good a -> good (spec_run i c a).1.
Proof.
  intros Hb Hc HG. unfold spec_run. cbv zeta.
  set (f := fun x => log (EvRun i) (log (EvBefore (c_async c)) (spec_account c x))).
  match goal with |- context [exec abstract_ _ ?x] => change x with (spec_sh f (spec_drop i a)) end.
  assert (good (spec_sh f (spec_drop i a))) as HG1.
  { destruct HG as [HT HC HB]. constructor.
    - eapply in_time_sublist; [|exact HT]. unfold timeline. cbn [spec_sh spec_drop ssh batch queue].
      unfold f. rewrite !runs_log, app_nil_r. rewrite Hb. unfold others at 1. rewrite filter_cons_False by tauto.
      fold (others i rest). unfold spec_account. rewrite <- app_assoc. destruct (c_refed c);
        (apply sublist_app; [done|]; cbn [app]; apply sublist_skip; repeat apply sublist_app; auto using others_sublist).
    - apply (counted_drop i c); [done..| |]; unfold f, spec_account; by destruct (c_refed c).
    - apply (bounded_lists f a); [done| | |done].
      + intros x. unfold f, spec_account. by destruct (c_refed c).
      + intros j. cbn [spec_sh spec_drop cells]. by intros [_ ?]%lookup_delete_is_Some. }
  apply (good_exec (c_callback c (default [] (c_argv c)))) in HG1.
  destruct (exec abstract_ _ _) as [a2 res]. cbn [fst] in HG1.
  assert (forall e a, match e with EvRun _ => False | _ => True end -> good a -> good (spec_sh (log e) a)) as Hlog.
  { intros e b He. apply good_sh; [|done]. intros x. rewrite runs_log. destruct e; by rewrite ?app_nil_r. }
  destruct res; cbn [fst]; repeat apply Hlog; done.
Qed.

Lemma good_steps ticks a a' : rtc (spec_step ticks) a a' -> good a -> good a'.
Proof.
  induction 1 as [|a b c Hs _ IH]; [done|]. intros HG. apply IH. destruct Hs as [|i c' rest Hb Hc].
  - apply good_exec. by apply good_sh.
  - by apply (good_run i c' rest).
Qed.

(** ** Rounds *)

Definition start (hooks : bool) : spec := Spec ∅ [] [] (sh (initial hooks)).

Lemma sim_start hooks :
  sim (initial hooks) (start hooks) None /\ attached (initial hooks) (start hooks) /\ good (start hooks).
Proof.
  split_and!; [|done|].
  - constructor; cbn; try done; [by constructor|]. intros i. rewrite lookup_empty, elem_of_nil. split; [by intros [? ?]|done].
  - constructor; [|done|intros i; cbn; rewrite lookup_empty; by intros [? ?]].
    unfold in_time, timeline. cbn. repeat constructor.
Qed.

(** The batch is no longer than the heap. *)
Lemma batch_size st a p : sim st a p -> (length (batch a) <= size (imms st))%nat.
Proof.
  intros S. rewrite <- (size_dom (D := gset positive)), <- (size_list_to_set (C := gset positive) (batch a)) by by eapply sim_batch_nodup.
  apply subseteq_size. intros i Hi%elem_of_list_to_set. apply (sim_batch_cell _ _ _ _ S) in Hi as [c Hc].
  apply elem_of_dom. destruct (sim_cell _ _ _ _ _ S Hc) as (r & Hr & _). by eexists.
Qed.

(** The queue becomes the batch. *)
Lemma sim_take_queue st a p :
  sim st a p -> batch a = [] ->
  sim (with_sh (set_kHasOutstanding 1) (set_immediateQueue (IList None None) st))
    (spec_sh (set_kHasOutstanding 1) (Spec (cells a) [] (queue a) (ssh a))) None.
Proof.
  intros S Hb. apply sim_with_sh; [done|]. destruct S. rewrite Hb, app_nil_r in *.
  by constructor; cbn [imms sh set_immediateQueue ssh cells queue batch immediateQueue].
Qed.

Lemma process_sim ticks st a p :
  sim st a p -> attached st a ->
  exists st' a' res p',
    processImmediate ticks st = Some (st', res) /\ spec_process ticks a = Some (a', res) /\
    sim st' a' p' /\ left_by st' a' res /\ (good a -> good a') /\
    (batch a = [] -> res = Ok tt -> forall i, i ∈ queue a' -> (nextObj (sh st) <= i)%positive).
Proof.
  intros S Ha. unfold processImmediate, spec_process. unfold attached in Ha.
  set (st0 := if bool_decide (head (outstandingQueue st) <> None) then st else _).
  set (a0 := match batch a with [] => _ | _ => _ end).
  assert (exists p0, sim st0 a0 p0) as [p0 S0].
  { unfold st0, a0. destruct (batch a) as [|i rest] eqn:Hb; rewrite Ha; cbn [hd_or].
    - rewrite bool_decide_eq_false_2 by tauto. exists None. by eapply sim_take_queue.
    - rewrite bool_decide_eq_true_2 by done. by exists p. }
  assert ((if bool_decide (head (outstandingQueue st) <> None) then head (outstandingQueue st) else head (immediateQueue st))
    = hd_or None (batch a0) /\ (batch a0 = [] -> attached st0 a0) /\ (good a -> good a0) /\
    (batch a = [] -> queue a0 = [] /\ nextObj (ssh a0) = nextObj (sh st))) as (Eh & Ha0 & Hg0 & Hq0).
  { unfold st0, a0. destruct (batch a) as [|i rest] eqn:Hb; rewrite Ha; cbn [hd_or].
    - rewrite bool_decide_eq_false_2 by tauto. rewrite (sim_ends _ _ _ S). split_and!; [done| | |].
      + cbn [spec_sh batch]. intros Hq. unfold attached. cbn. by rewrite Ha, Hq.
      + intros [HT HC HB]. apply good_sh; [done..|]. constructor; [|done|done].
        eapply in_time_sublist; [|exact HT]. unfold timeline. by rewrite Hb.
      + intros _. cbn. by rewrite (sim_sh _ _ _ S).
    - rewrite bool_decide_eq_true_2 by done. rewrite Hb. by split_and!. }
  rewrite Eh. destruct (loop_sim ticks (size (imms st0)) (length (batch a0)) None false st0 a0 p0)
    as (st1 & a1 & res & p1 & -> & -> & S1 & HL & HE & HR); [done|by eapply batch_size|done|done|by intros [|?]; auto|].
  assert (good a -> good a1) as HG by (intros H; eapply good_steps; eauto).
  destruct res as [[]|e]; [|exists st1, a1, (Throw e), p1; by split_and!].
  destruct HL as [_ [Hb1 Ha1]]. set (b := bool_decide _). eexists _, _, (Ok tt), p1. split_and!; [done|done|..].
  - apply sim_with_sh; [done|]. destruct b; [by apply sim_outstanding|done].
  - assert (attached (with_sh (set_kHasOutstanding 0) (if b then set_outstanding_head None st1 else st1))
      (spec_sh (set_kHasOutstanding 0) a1)) as Hatt.
    { unfold attached in *. cbn [spec_sh batch]. rewrite Hb1 in *. by destruct b. }
    split; [by left|by split].
  - intros H. apply good_sh; [done..|]. auto.
  - intros Hb _ i Hi. destruct (Hq0 Hb) as [Hq1 Hn]. apply (ev_queue _ _ HE) in Hi as [Hi|Hi].
    + rewrite Hq1 in Hi. by apply elem_of_nil in Hi.
    + by rewrite Hn in Hi.
Qed.

(** The round that cannot be left: a head that has been cleared. *)
Lemma process_stuck ticks st b r :
  head (outstandingQueue st) = Some b -> imms st !! b = Some r -> destroyed r = true ->
  processImmediate ticks st = Some (st, Throw TypeError).
Proof.
  intros Hh Hr Hd. unfold processImmediate. rewrite Hh, bool_decide_eq_true_2 by done.
  destruct (size (imms st)) as [|n] eqn:Es.
  - apply map_size_empty_iff in Es. by rewrite Es in Hr.
  - cbn [imm_loop]. by rewrite Hr, Hd.
Qed.

(** ** Reachable states *)

Section Reach.
Context (ticks : nat -> prog).

(** A program of the event loop ran, or a round. *)
Inductive reachable : state -> Prop :=
  | reach_initial hooks : reachable (initial hooks)
  | reach_exec pr st : reachable st -> reachable (exec concrete pr st).1
  | reach_process st st' res : reachable st -> processImmediate ticks st = Some (st', res) -> reachable st'.

Lemma destroyed_stays st st' a a' p b r :
  sim st a p -> follows st st' a a' p -> imms st !! b = Some r -> destroyed r = true ->
  exists r', imms st' !! b = Some r' /\ destroyed r' = true.
Proof.
  intros S [S' _ Hdom He] Hb Hd. destruct (Hdom b ltac:(by eexists)) as [r' Hr']. exists r'. split; [done|].
  assert (cells a !! b = None) as Hc by (rewrite <- (sim_cells _ _ _ S), Hb; cbn; unfold cell_of; by rewrite Hd).
  destruct (cells a' !! b) as [c|] eqn:Ec; [|by eapply sim_no_cell].
  assert (b ∉ queue a ++ batch a) as [Hnq Hnb]%not_elem_of_app.
  { intros H%(sim_all _ _ _ S). rewrite Hc in H. by destruct H. }
  assert (b ∈ queue a' ++ batch a') as [H|H]%elem_of_app by (apply (sim_all _ _ _ S'); by eexists).
  - apply (ev_queue _ _ He) in H as [H|H]; [done|]. rewrite <- (sim_sh _ _ _ S) in H. by rewrite (sim_fresh _ _ _ S b H) in Hb.
  - exfalso. apply Hnb. eapply elem_of_sublist; [exact H|apply (ev_batch _ _ He)].
Qed.

Lemma aligned_exec st st' a a' p :
  sim st a p -> follows st st' a a' p -> aligned st a -> aligned st' a'.
Proof.
  intros S HF [Ha|(b & r & Hh & Hr & Hd)].
  - unfold attached in Ha. destruct (batch a) as [|i rest] eqn:Hb; cbn [hd_or] in Ha.
    + left. unfold attached. rewrite (fol_outstanding _ _ _ _ _ HF), Ha. pose proof (ev_batch _ _ (fol_evolves _ _ _ _ _ HF)) as H.
      rewrite Hb in H. apply sublist_nil_r in H. by rewrite H.
    + destruct (ticks_head _ _ _ _ _ _ _ S Hb HF) as [(c & r & rest' & _ & _ & _ & Hb1 & _)|(r & _ & Hr & Hd & _)].
      * left. unfold attached. by rewrite (fol_outstanding _ _ _ _ _ HF), Ha, Hb1.
      * right. exists i, r. by rewrite (fol_outstanding _ _ _ _ _ HF).
  - right. destruct (destroyed_stays _ _ _ _ _ _ _ S HF Hr Hd) as (r' & Hr' & Hd'). exists b, r'.
    by rewrite (fol_outstanding _ _ _ _ _ HF).
Qed.

Lemma reachable_sim st : reachable st -> exists a p, sim st a p /\ aligned st a /\ good a.
Proof.
  induction 1 as [|pr st _ (a & p & S & HA & HG)|st st' res _ (a & p & S & HA & HG) Hp].
  - destruct (sim_start hooks) as (? & ? & ?). exists (start hooks), None. split_and!; [done|by left|done].
  - destruct (exec_sim pr st a p S) as [HF _]. exists (exec abstract_ pr a).1, p.
    split_and!; [apply HF|by eapply aligned_exec|by apply good_exec].
  - destruct HA as [HA|(b & r & Hh & Hr & Hd)].
    + destruct (process_sim ticks st a p S HA) as (st1 & a1 & res1 & p1 & Hp1 & _ & S1 & [HL _] & HG1 & _).
      rewrite Hp in Hp1. injection Hp1 as <- <-. exists a1, p1. split_and!; auto.
    + rewrite (process_stuck ticks st b r Hh Hr Hd) in Hp. injection Hp as <- <-. exists a, p.
      split_and!; [done|right; by exists b, r|done].
Qed.
End Reach.

(** ** Claims *)

(** The program and the specification, run in lockstep. *)
Inductive paired (ticks : nat -> prog) : state -> spec -> Prop :=
  | paired_initial hooks : paired ticks (initial hooks) (start hooks)
  | paired_exec pr st a : paired ticks st a -> paired ticks (exec concrete pr st).1 (exec abstract_ pr a).1
  | paired_process st a st' a' res :
      paired ticks st a -> attached st a ->
      processImmediate ticks st = Some (st', res) -> spec_process ticks a = Some (a', res) -> paired ticks st' a'.

Lemma paired_sim ticks st a : paired ticks st a -> exists p, sim st a p.
Proof.
  induction 1 as [|pr st a _ [p S]|st a st' a' res _ [p S] Ha H1 H2].
  - exists None. apply sim_start.
  - exists p. apply exec_sim, S.
  - destruct (process_sim ticks st a p S Ha) as (st1 & a1 & res1 & p1 & E1 & E2 & S1 & _).
    rewrite H1 in E1. rewrite H2 in E2. injection E1 as <- _. injection E2 as <-. by exists p1.
Qed.

(** C8. Immediates are a plain queue.  The program links objects to each
    other, and walks the links of objects that callbacks and ticks unlink
    meanwhile; the specification has two lists, and removes what is cleared.
    From the start, through any programs and rounds, both make the same events
    in the same order, with the same counters and the same answers and errors;
    a round of [processImmediate] always returns.  A round must not start at
    an object cleared after the last one was cut short. *)
Theorem immediates_refine_queue ticks st a :
  paired ticks st a ->
  sh st = ssh a /\
  (forall pr, (exec concrete pr st).2 = (exec abstract_ pr a).2) /\
  (head (outstandingQueue st) = hd_or None (batch a) ->
   exists st' a' res, processImmediate ticks st = Some (st', res) /\ spec_process ticks a = Some (a', res) /\
     sh st' = ssh a' /\ (res = Ok tt -> batch a' = [])).
Proof.
  intros [p S]%paired_sim. split_and!; [apply (sim_sh _ _ _ S)|intros pr; by apply (exec_sim pr st a p)|].
  intros Ha. destruct (process_sim ticks st a p S Ha) as (st' & a' & res & p' & H1 & H2 & S' & [_ HL] & _).
  exists st', a', res. split_and!; [done..|apply (sim_sh _ _ _ S')|]. intros ->. apply HL.
Qed.

(** Two immediates; the first clears the second and sets a third. *)
Definition demo : prog :=
  SetImmediate (Some (fun _ => ClearImmediate (Some 2%positive) (SetImmediate (Some (fun _ => Done)) [] (fun _ => Done)))) []
    (fun _ => SetImmediate (Some (fun _ => Done)) [] (fun _ => Done)).
Definition demo_ticks (_ : nat) : prog := Done.

Lemma immediates_refine_queue_witness :
  exists st' a' res,
    processImmediate demo_ticks (exec concrete demo (initial true)).1 = Some (st', res) /\
    spec_process demo_ticks (exec abstract_ demo (start true)).1 = Some (a', res) /\
    sh st' = ssh a' /\ (res = Ok tt -> batch a' = []).
Proof.
  apply (immediates_refine_queue demo_ticks (exec concrete demo (initial true)).1 (exec abstract_ demo (start true)).1);
    [apply paired_exec, paired_initial|vm_compute; reflexivity].
Defined.

(** Callbacks run in the order in which their immediates were created,
    each at most once: in any reachable state, the immediates that have run are
    in strictly increasing order of creation, and so are those of a round cut
    short by an error and those set during it. *)
Theorem immediates_in_order ticks st :
  reachable ticks st -> StronglySorted Pos.lt (runs (trace (sh st))).
Proof.
  intros (a & p & S & _ & HG)%reachable_sim. rewrite (sim_sh _ _ _ S).
  eapply sorted_sublist; [|apply (good_time _ HG)]. unfold timeline. apply sublist_inserts_r. done.
Qed.

Lemma immediates_in_order_witness :
  exists st', processImmediate demo_ticks (exec concrete demo (initial true)).1 = Some (st', Ok tt) /\
    runs (trace (sh st')) = [1%positive] /\ StronglySorted Pos.lt (runs (trace (sh st'))).
Proof.
  destruct (processImmediate demo_ticks (exec concrete demo (initial true)).1) as [[st' res]|] eqn:E;
    [|vm_compute in E; discriminate E].
  exists st'. split; [f_equal; f_equal; vm_compute in E; injection E as _ <-; reflexivity|].
  split; [vm_compute in E; injection E as <- _; vm_compute; reflexivity|].
  apply (immediates_in_order demo_ticks st'). eapply reach_process; [|exact E]. apply reach_exec, reach_initial.
Defined.

(** A round serves everyone who waited.  If no round was cut short before
    it, [processImmediate] returns, and when it returns normally the only
    immediates still waiting are those set since it started. *)
Theorem immediates_round_serves_all ticks st :
  reachable ticks st -> head (outstandingQueue st) = None ->
  exists st' res, processImmediate ticks st = Some (st', res) /\
    (res = Ok tt -> head (outstandingQueue st') = None /\
       forall i r, imms st' !! i = Some r -> destroyed r = false -> (nextObj (sh st) <= i)%positive).
Proof.
  intros (a & p & S & HA & _)%reachable_sim Hh.
  assert (attached st a) as Ha by (destruct HA as [?|(b & r & ? & _)]; [done|congruence]).
  assert (batch a = []) as Hb by (unfold attached in Ha; rewrite Hh in Ha; by destruct (batch a)).
  destruct (process_sim ticks st a p S Ha) as (st' & a' & res & p' & H1 & _ & S' & [_ HL] & _ & HQ).
  exists st', res. split; [done|]. intros ->. destruct HL as [Hb' Ha']. split; [unfold attached in Ha'; by rewrite Hb' in Ha'|].
  intros i r Hr Hd. apply HQ; [done..|].
  assert (i ∈ queue a' ++ batch a') as H; [|by rewrite Hb', app_nil_r in H].
  apply (sim_all _ _ _ S'). rewrite <- (sim_cells _ _ _ S'), Hr. cbn.
  by destruct (sim_dead _ _ _ S' i r Hr) as [[? _]|?]; [congruence|].
Qed.

Lemma immediates_round_serves_all_witness :
  head (outstandingQueue (exec concrete demo (initial true)).1) = None /\
  exists st' res, processImmediate demo_ticks (exec concrete demo (initial true)).1 = Some (st', res) /\
    (res = Ok tt -> head (outstandingQueue st') = None /\
       forall i r, imms st' !! i = Some r -> destroyed r = false -> (3 <= i)%positive).
Proof.
  split; [vm_compute; reflexivity|].
  apply (immediates_round_serves_all demo_ticks (exec concrete demo (initial true)).1);
    [apply reach_exec, reach_initial|vm_compute; reflexivity].
Defined.

(** The objects that a predicate holds of. *)
Definition number (P : immediate -> bool) (h : gmap positive immediate) : Z :=
  Z.of_nat (size (filter (fun kr => P kr.2 = true) h)).

Definition waits (r : immediate) : bool := negb (destroyed r).
Definition is_refed (r : immediate) : bool := bool_decide (kRefed r = Some true).

Lemma size_filters {A B} (P : A -> bool) (Q : B -> bool) (m : gmap positive A) (k : gmap positive B) :
  (forall i, (exists x, m !! i = Some x /\ P x = true) <-> exists y, k !! i = Some y /\ Q y = true) ->
  size (filter (fun kx => P kx.2 = true) m) = size (filter (fun ky => Q ky.2 = true) k).
Proof.
  intros H. rewrite <- !(size_dom (D := gset positive)). f_equal. apply set_eq. intros i.
  rewrite !elem_of_dom. unfold is_Some. setoid_rewrite map_lookup_filter_Some. cbn [snd]. apply H.
Qed.

Lemma sim_numbers st a p :
  sim st a p ->
  live (cells a) = number waits (imms st) /\
  refs (cells a) = number is_refed (imms st).
Proof.
  intros S. unfold live, refs, number. split; f_equal.
  - rewrite <- (map_filter_id (fun kc => (fun _ => true) kc.2 = true) (cells a)) by done.
    apply (size_filters (fun _ => true) waits). intros i. split.
    + intros (c & Hc & _). destruct (sim_cell _ _ _ _ _ S Hc) as (r & Hr & Hd & _). exists r. unfold waits. by rewrite Hd.
    + intros (r & Hr & Hd). destruct (cells a !! i) as [c|] eqn:Ec; [by exists c|].
      destruct (sim_no_cell _ _ _ _ _ S Ec Hr) as [H _]. unfold waits in Hd. by rewrite H in Hd.
  - apply (size_filters c_refed is_refed). intros i. split.
    + intros (c & Hc & Hb). destruct (sim_cell _ _ _ _ _ S Hc) as (r & Hr & _ & _ & _ & Hk & _). exists r.
      unfold is_refed. rewrite Hk, Hb. by rewrite bool_decide_eq_true_2.
    + intros (r & Hr & Hd). apply bool_decide_eq_true in Hd. destruct (cells a !! i) as [c|] eqn:Ec.
      * exists c. split; [done|]. destruct (sim_cell _ _ _ _ _ S Ec) as (r' & Hr' & _ & _ & _ & Hk & _). congruence.
      * destruct (sim_no_cell _ _ _ _ _ S Ec Hr) as [_ H]. congruence.
Qed.

(** The counters the native loop reads are right: in any reachable state,
    [kCount] is the number of immediates that wait and [kRefCount] the number
    of those that keep the process alive, in 32 bits; the second number never
    exceeds the first. *)
Theorem immediates_counted ticks st :
  reachable ticks st ->
  get_kCount (sh st) = uint32 (number waits (imms st)) /\
  get_kRefCount (sh st) = uint32 (number is_refed (imms st)) /\
  number is_refed (imms st) <= number waits (imms st).
Proof.
  intros (a & p & S & _ & HG)%reachable_sim. destruct (sim_numbers _ _ _ S) as [<- <-].
  rewrite (sim_sh _ _ _ S). destruct (good_counted _ HG) as [-> ->]. split_and!; [done..|].
  unfold refs, live. apply Nat2Z.inj_le. apply map_subseteq_size, map_filter_subseteq.
Qed.

Lemma immediates_counted_witness :
  get_kCount (sh (exec concrete demo (initial true)).1) = 2 /\
  get_kRefCount (sh (exec concrete (Unref 1 Done) (exec concrete demo (initial true)).1).1) =
    uint32 (number is_refed
      (imms (exec concrete (Unref 1 Done) (exec concrete demo (initial true)).1).1)).
Proof.
  split; [vm_compute; reflexivity|].
  apply (immediates_counted demo_ticks). apply reach_exec, reach_exec, reach_initial.
Defined.

(** Three immediates, the first of which throws; then the second is cleared.
    Every later round throws at once and changes nothing: the third never
    runs, nor does any immediate set from then on. *)
Definition cut_short : prog :=
  SetImmediate (Some (fun _ => Raise (JsError [] ["boom"%js]))) [] (fun _ =>
  SetImmediate (Some (fun _ => Done)) [] (fun _ =>
  SetImmediate (Some (fun _ => Done)) [] (fun _ => Done))).

Lemma immediates_stuck_after_clear :
  exists st1 st2,
    processImmediate demo_ticks (exec concrete cut_short (initial true)).1 = Some (st1, Throw (JsError [] ["boom"%js])) /\
    st2 = (exec concrete (ClearImmediate (Some 2%positive) Done) st1).1 /\
    destroyed <$> (imms st2 !! 3%positive) = Some false /\
    (forall ticks pr, processImmediate ticks (exec concrete pr st2).1 = Some ((exec concrete pr st2).1, Throw TypeError)).
Proof.
  destruct (processImmediate demo_ticks (exec concrete cut_short (initial true)).1) as [[st1 res]|] eqn:E;
    [|vm_compute in E; discriminate E].
  assert (reachable demo_ticks st1) as HR by (eapply reach_process; [|exact E]; apply reach_exec, reach_initial).
  pose proof (reach_exec demo_ticks (ClearImmediate (Some 2%positive) Done) _ HR) as HR2.
  vm_compute in E. injection E as <- <-. eexists _, _. split_and!; [done|done|by vm_compute|].
  intros ticks pr. destruct (reachable_sim _ _ HR2) as (a & p & S & _). destruct (exec_sim pr _ _ _ S) as [HF _].
  destruct (destroyed_stays _ _ _ _ _ 2%positive _ S HF eq_refl eq_refl) as (r & Hr & Hd).
  eapply process_stuck; [|exact Hr|exact Hd]. rewrite (fol_outstanding _ _ _ _ _ HF). done.
Qed.
