(* ===== verification/ProcessEvents.v ===== *)
(** * The events of [process]

    Models [libjs/process-events.js]: the listener table, [on], [once],
    [prependListener], [prependOnceListener], [off], [emit],
    [removeAllListeners], the accessors, [_fatalException] and [emitWarning].
    Listeners are arbitrary code: trees of calls to these methods, run with
    fuel; a trace records every listener call with its nesting depth. *)

From S2P Require Import Prelude JsString BootLoader.

Module ProcessEvents.

(** ** Data *)

(** A registered function: the user's, or the wrapper [once] made of it, which
    has an identity of its own. *)
Inductive listener :=
  | LFn (f : positive)
  | LOnce (wrapper : positive) (event : jsstr) (f : positive).

#[export] Instance listener_eq_dec : EqDecision listener.
Proof. solve_decision. Defined.

(** An argument of a listener: a value, an [Error] made by [emitWarning], or
    the function [newListener] is told about. *)
Inductive arg :=
  | AVal (v : jsval)
  | AError (name message : jsstr) (code : option jsstr)
  | AFn (l : listener).

#[export] Instance arg_eq_dec : EqDecision arg.
Proof. solve_decision. Defined.

(** What a listener does with [process]. *)
Inductive body :=
  | Done
  | Fail (e : jserror)
  | On (prepend : bool) (event : jsstr) (fn : listener) (k : result unit -> body)
  | Once (prepend : bool) (event : jsstr) (f : positive) (k : result unit -> body)
  | Off (event : jsstr) (fn : listener) (k : result unit -> body)
  | Emit (event : jsstr) (args : list arg) (k : result bool -> body)
  | RemoveAll (event : option jsstr) (k : body).

Record call := Call { c_depth : nat; c_fn : positive; c_args : list arg }.

Record state := State {
  handlers : gmap jsstr (list listener);
  nextWrapper : positive;
  exiting : bool;
  exitCode : option Z;
  trace : list call;
}.

(** [handlers[event]]: [handlers] is an object literal, so names of inherited
    properties are found too. *)
Inductive found :=
  | Own (l : list listener)
  | Inherited
  | Absent.

Definition find (event : jsstr) (st : state) : found :=
  match handlers st !! event with
  | Some l => Own l
  | None => if bool_decide (event ∈ Boot.objectPrototypeKeys) then Inherited else Absent
  end.

Definition TypeError : jserror := JsError [] ["TypeError"].

(** ** State changes *)

Definition set_handlers (event : jsstr) (l : list listener) (st : state) : state :=
  State (<[event := l]> (handlers st)) (nextWrapper st) (exiting st) (exitCode st) (trace st).
Definition with_handlers (h : gmap jsstr (list listener)) (st : state) : state :=
  State h (nextWrapper st) (exiting st) (exitCode st) (trace st).
Definition log (c : call) (st : state) : state :=
  State (handlers st) (nextWrapper st) (exiting st) (exitCode st) (trace st ++ [c]).
Definition start_exit (st : state) : state :=
  State (handlers st) (nextWrapper st) true (Some 1) (trace st).
Definition fresh_wrapper (st : state) : positive * state :=
  (nextWrapper st,
   State (handlers st) (Pos.succ (nextWrapper st)) (exiting st) (exitCode st) (trace st)).

(** [list.splice(list.indexOf(fn), 1)] *)
Fixpoint remove_first (fn : listener) (l : list listener) : list listener :=
  match l with
  | [] => []
  | x :: l' => if decide (x = fn) then l' else x :: remove_first fn l'
  end.

(** [process.off] *)
Definition off (event : jsstr) (fn : listener) (st : state) : state * result unit :=
  match find event st with
  | Own l => (set_handlers event (remove_first fn l) st, Ok tt)
  | Inherited => (st, Throw TypeError)
  | Absent => (st, Ok tt)
  end.

(** [process.removeAllListeners] *)
Definition removeAllListeners (event : option jsstr) (st : state) : state :=
  match event with
  | Some e => with_handlers (delete e (handlers st)) st
  | None => with_handlers ∅ st
  end.

(** [process.listeners] and [process.rawListeners] *)
Definition listeners (event : jsstr) (st : state) : result (list listener) :=
  match find event st with
  | Own l => Ok l
  | Inherited => Throw TypeError
  | Absent => Ok []
  end.

(** [process.listenerCount] *)
Definition listenerCount (event : jsstr) (st : state) : result Z :=
  let* l := listeners event st in Ok (Z.of_nat (length l)).

(** ** [emit] and what needs it

    [None] is fuel exhausted. *)
Definition outcome (A : Type) : Type := option (state * result A).

Section Process.
(** The code of the user's functions. *)
Variable code : positive -> list arg -> body.

Section WithEmit.
(** [emit] at the depth that remains, for calls made [depth] deep. *)
Variable emit : nat -> jsstr -> list arg -> state -> outcome bool.

(** [process.on] and [process.prependListener] *)
Definition on (depth : nat) (prepend : bool) (event : jsstr) (fn : listener) (st : state)
    : outcome unit :=
  let st := match find event st with Absent => set_handlers event [] st | _ => st end in
  match (if bool_decide (event = "newListener") then Some (st, Ok true)
         else emit depth "newListener" [AVal (VString event); AFn fn] st) with
  | None => None
  | Some (st, Throw e) => Some (st, Throw e)
  | Some (st, Ok _) =>
      match find event st with
      | Own l => Some (set_handlers event (if prepend then fn :: l else l ++ [fn]) st, Ok tt)
      | _ => Some (st, Throw TypeError)
      end
  end.

(** [process.once] and [process.prependOnceListener] *)
Definition once (depth : nat) (prepend : bool) (event : jsstr) (f : positive) (st : state)
    : outcome unit :=
  let '(w, st) := fresh_wrapper st in on depth prepend event (LOnce w event f) st.

Fixpoint exec (depth : nat) (b : body) (st : state) : outcome unit :=
  match b with
  | Done => Some (st, Ok tt)
  | Fail e => Some (st, Throw e)
  | On prepend event fn k =>
      match on depth prepend event fn st with
      | None => None
      | Some (st, r) => exec depth (k r) st
      end
  | Once prepend event f k =>
      match once depth prepend event f st with
      | None => None
      | Some (st, r) => exec depth (k r) st
      end
  | Off event fn k => let '(st, r) := off event fn st in exec depth (k r) st
  | Emit event args k =>
      match emit depth event args st with
      | None => None
      | Some (st, r) => exec depth (k r) st
      end
  | RemoveAll event k => exec depth k (removeAllListeners event st)
  end.

(** Calling one listener: a wrapper first takes itself off. *)
Definition call_listener (depth : nat) (fn : listener) (args : list arg) (st : state)
    : outcome unit :=
  let run f st := exec (S depth) (code f args) (log (Call depth f args) st) in
  match fn with
  | LFn f => run f st
  | LOnce _ event f =>
      let '(st, r) := off event fn st in
      match r with
      | Throw e => Some (st, Throw e)
      | Ok _ => run f st
      end
  end.

(** The loop of [emit] over the copy of the list. *)
Fixpoint call_all (depth : nat) (copy : list listener) (args : list arg) (st : state)
    : outcome unit :=
  match copy with
  | [] => Some (st, Ok tt)
  | fn :: copy' =>
      match call_listener depth fn args st with
      | None => None
      | Some (st, Throw e) => Some (st, Throw e)
      | Some (st, Ok _) => call_all depth copy' args st
      end
  end.

Definition emit_with (depth : nat) (event : jsstr) (args : list arg) (st : state)
    : outcome bool :=
  match find event st with
  | Absent => Some (st, Ok false)
  | Inherited => Some (st, Throw TypeError)
  | Own l =>
      match call_all depth l args st with
      | None => None
      | Some (st, Throw e) => Some (st, Throw e)
      | Some (st, Ok _) => Some (st, Ok true)
      end
  end.
End WithEmit.

(** [process.emit]: at most [fuel] nested calls. *)
Fixpoint emit (fuel : nat) : nat -> jsstr -> list arg -> state -> outcome bool :=
  match fuel with
  | O => fun _ _ _ _ => None
  | S fuel => emit_with (emit fuel)
  end.

(** [process._fatalException] *)
Definition _fatalException (fuel : nat) (er : arg) (fromPromise : bool) (st : state)
    : outcome bool :=
  let type := AVal (VString (if fromPromise then "unhandledRejection" else "uncaughtException")) in
  match emit fuel 0 "uncaughtExceptionMonitor" [er; type] st with
  | None => None
  | Some (st, Throw e) => Some (st, Throw e)
  | Some (st, Ok _) =>
      match emit fuel 0 "uncaughtException" [er; type] st with
      | None => None
      | Some (st, Throw e) => Some (st, Throw e)
      | Some (st, Ok true) => Some (st, Ok true)
      | Some (st, Ok false) =>
          if exiting st then Some (st, Ok false)
          else
            match emit fuel 0 "exit" [AVal (VNumber 1)] (start_exit st) with
            | None => None
            | Some (st, _) => Some (st, Ok false)
            end
      end
  end.

(** The second argument of [emitWarning]. *)
Inductive warning_type :=
  | TNone
  | TName (s : jsstr)
  | TObject (type_ name code_ : option jsstr).

Definition truthy (o : option jsstr) : option jsstr :=
  match o with Some [] => None | _ => o end.

(** [process.emitWarning(warning, type, code)] *)
Definition emitWarning (fuel : nat) (warning : arg) (type : warning_type) (code_ : option jsstr)
    (st : state) : outcome bool :=
  let '(type, code_) :=
    match type with
    | TObject t n c => (match truthy t with Some t => Some t | None => n end, c)
    | TName s => (Some s, code_)
    | TNone => (None, code_)
    end in
  let warning :=
    match warning with
    | AVal (VString message) =>
        AError (match truthy type with Some t => t | None => "Warning" end) message (truthy code_)
    | w => w
    end in
  emit fuel 0 "warning" [warning] st.
End Process.

Definition init : state := State ∅ 1%positive false None [].

End ProcessEvents.
