(* ===== verification/ProcessEventsFacts.v ===== *)
(** * The events of [process]: theorems

    [emit] calls the listeners present when it starts, in order, whatever they
    do to the table, and returns when the events can be ranked; the answer of
    [_fatalException]; and two ways in which the table differs from what its
    callers assume. *)

From S2P Require Import Prelude JsString ProcessEvents.
Import ProcessEvents.

(** The user function a listener runs. *)
Definition target (fn : listener) : positive :=
  match fn with LFn f => f | LOnce _ _ f => f end.

(** The listeners [emit] copies. *)
Definition snapshot (event : jsstr) (st : state) : list listener :=
  match find event st with Own l => l | _ => [] end.

(** ** What the calls add to the trace *)

(** Every call made is at least [d] deep, and the exit status is untouched. *)
Definition deeper (d : nat) (st st' : state) : Prop :=
  exists l, trace st' = trace st ++ l /\ Forall (fun c => (d <= c_depth c)%nat) l /\
            exiting st' = exiting st /\ exitCode st' = exitCode st.

#[export] Instance deeper_preorder d : PreOrder (deeper d).
Proof.
  split.
  - intros st. exists []. by rewrite app_nil_r.
  - intros s1 s2 s3 (l1 & E1 & F1 & X1 & C1) (l2 & E2 & F2 & X2 & C2). exists (l1 ++ l2).
    rewrite E2, E1, app_assoc, X2, C2. split_and!; [done|by apply Forall_app|done..].
Qed.

Lemma deeper_same d st st' :
  trace st' = trace st -> exiting st' = exiting st -> exitCode st' = exitCode st -> deeper d st st'.
Proof. intros E1 E2 E3. exists []. by rewrite app_nil_r. Qed.

Lemma deeper_weaken d d' st st' : (d <= d')%nat -> deeper d' st st' -> deeper d st st'.
Proof.
  intros Hd (l & E & F & H). exists l. split_and!; [done| |apply H..].
  eapply Forall_impl; [exact F|]. cbn. intros. lia.
Qed.

Lemma deeper_off d event fn st : deeper d st (off event fn st).1.
Proof. unfold off. destruct (find event st); by apply deeper_same. Qed.

Section Facts.
Context (code : positive -> list arg -> body).

(** One listener: its call first, then deeper ones. *)
Definition one_call (d : nat) (f : positive) (args : list arg) (st st' : state) : Prop :=
  exists l, trace st' = trace st ++ Call d f args :: l /\
    Forall (fun c => (S d <= c_depth c)%nat) l /\
    exiting st' = exiting st /\ exitCode st' = exitCode st.

Section WithEmit.
Context (emit : nat -> jsstr -> list arg -> state -> outcome bool).
Context (Hemit : forall d event args st st' r,
           emit d event args st = Some (st', r) -> deeper d st st').

Lemma on_deeper d prepend event fn st st' r :
  on emit d prepend event fn st = Some (st', r) -> deeper d st st'.
Proof.
  unfold on. set (st1 := match find event st with Absent => _ | _ => _ end).
  assert (deeper d st st1) as H1 by (unfold st1; destruct (find event st); by apply deeper_same).
  destruct (if bool_decide _ then _ else _) as [[st2 [b|e]]|] eqn:E; [..|done]; intros H;
    assert (deeper d st1 st2) as H2 by
      (case_bool_decide; [by simplify_eq|by eapply Hemit]).
  - etrans; [exact H1|]. etrans; [exact H2|].
    destruct (find event st2); injection H as <- <-; by apply deeper_same.
  - injection H as <- <-. by etrans.
Qed.

Lemma exec_deeper d b : forall st st' r, exec emit d b st = Some (st', r) -> deeper d st st'.
Proof.
  induction b; cbn [exec]; intros st st' r0 H0.
  - by injection H0 as <- <-.
  - by injection H0 as <- <-.
  - destruct (on _ _ _ _ _ _) as [[st1 r1]|] eqn:E; [|done].
    etrans; [by eapply on_deeper|by eapply H].
  - unfold once in H0. cbn in H0.
    destruct (on _ _ _ _ _ _) as [[st1 r1]|] eqn:E; [|done].
    apply on_deeper in E. etrans; [|by eapply H]. etrans; [|exact E]. by apply deeper_same.
  - pose proof (deeper_off d event fn st). destruct (off event fn st) as [st1 r1].
    etrans; [done|by eapply H].
  - destruct (emit _ _ _ _) as [[st1 r1]|] eqn:E; [|done].
    etrans; [by eapply Hemit|by eapply H].
  - etrans; [|by eapply IHb]. destruct event; by apply deeper_same.
Qed.

Lemma call_listener_one d fn args st st' :
  call_listener code emit d fn args st = Some (st', Ok tt) -> one_call d (target fn) args st st'.
Proof.
  assert (forall f s, exec emit (S d) (code f args) (log (Call d f args) s) = Some (st', Ok tt) ->
            one_call d f args s st') as Hrun.
  { intros f s H. apply exec_deeper in H as (l & E & F & X & C). exists l.
    rewrite E. cbn. rewrite <- app_assoc. auto. }
  destruct fn as [f|w event f]; cbn [call_listener target].
  - apply Hrun.
  - pose proof (deeper_off d event (LOnce w event f) st) as _.
    unfold off. destruct (find event st); cbn; try done; intros H%Hrun; exact H.
Qed.

Lemma call_listener_deeper d fn args st st' r :
  call_listener code emit d fn args st = Some (st', r) -> deeper d st st'.
Proof.
  assert (forall f s, exec emit (S d) (code f args) (log (Call d f args) s) = Some (st', r) ->
            deeper d s st') as Hrun.
  { intros f s H. apply exec_deeper, (deeper_weaken d) in H; [|lia]. etrans; [|exact H].
    exists [Call d f args]. split_and!; [done|by repeat constructor|done..]. }
  destruct fn as [f|w event f]; cbn [call_listener]; [apply Hrun|].
  pose proof (deeper_off d event (LOnce w event f) st) as Ho.
  destruct (off event (LOnce w event f) st) as [st1 [[]|e]]; cbn [fst] in Ho.
  - intros H%Hrun. by etrans.
  - by intros [= <- <-].
Qed.

Lemma call_all_deeper d copy args : forall st st' r,
  call_all code emit d copy args st = Some (st', r) -> deeper d st st'.
Proof.
  induction copy as [|fn copy IH]; cbn [call_all]; intros st st' r H; [by injection H as <- <-|].
  destruct (call_listener _ _ _ _ _ _) as [[st1 [u|e]]|] eqn:E; [..|done];
    apply call_listener_deeper in E.
  - etrans; [exact E|by eapply IH].
  - by injection H as <- <-.
Qed.

Lemma call_all_order d copy args : forall st st',
  call_all code emit d copy args st = Some (st', Ok tt) ->
  exists l, trace st' = trace st ++ l /\
    filter (fun c => c_depth c = d) l = (fun fn => Call d (target fn) args) <$> copy.
Proof.
  induction copy as [|fn copy IH]; cbn [call_all]; intros st st' H.
  { injection H as <-. exists []. by rewrite app_nil_r. }
  destruct (call_listener _ _ _ _ _ _) as [[st1 [[]|e]]|] eqn:E; [|done..].
  apply call_listener_one in E as (l1 & E1 & F1 & _). destruct (IH st1 st' H) as (l2 & E2 & F2).
  exists ((Call d (target fn) args :: l1) ++ l2). rewrite E2, E1, <- app_assoc. split; [done|].
  rewrite filter_app, F2, filter_cons_True by done. cbn. f_equal.
  replace (filter _ l1) with (@nil call); [done|]. symmetry.
  clear -F1. induction F1 as [|c l Hc F IH]; [done|]. rewrite filter_cons_False; [done|lia].
Qed.

Lemma emit_with_deeper d event args st st' r :
  emit_with code emit d event args st = Some (st', r) -> deeper d st st'.
Proof.
  unfold emit_with. destruct (find event st); [|by intros [= <- <-]..].
  destruct (call_all _ _ _ _ _ _) as [[st1 [u|e]]|] eqn:E; [..|done];
    apply call_all_deeper in E; by intros [= <- <-].
Qed.
End WithEmit.

Lemma emit_deeper fuel : forall d event args st st' r,
  emit code fuel d event args st = Some (st', r) -> deeper d st st'.
Proof.
  induction fuel as [|fuel IH]; [done|]. intros. cbn [emit] in *. by eapply emit_with_deeper.
Qed.
End Facts.

(** ** Termination

    Events are ranked so that a listener of an event emits only events of
    smaller rank; [may e f] says that [f] is ever registered for [e]. *)

Section Rank.
Context (code : positive -> list arg -> body).
Context (rank : jsstr -> nat) (may : jsstr -> positive -> Prop).

Fixpoint ranked (n : nat) (b : body) : Prop :=
  match b with
  | Done | Fail _ => True
  | On _ e fn k =>
      (e <> "newListener" -> (rank "newListener" < n)%nat) /\ may e (target fn) /\
      forall r, ranked n (k r)
  | Once _ e f k =>
      (e <> "newListener" -> (rank "newListener" < n)%nat) /\ may e f /\ forall r, ranked n (k r)
  | Off _ _ k => forall r, ranked n (k r)
  | Emit e _ k => (rank e < n)%nat /\ forall r, ranked n (k r)
  | RemoveAll _ k => ranked n k
  end.

Definition well_ranked (st : state) : Prop :=
  forall e l, handlers st !! e = Some l -> Forall (fun fn => may e (target fn)) l.

(** The call returns, in a well-ranked state. *)
Definition returns {A} (o : outcome A) : Prop :=
  exists st r, o = Some (st, r) /\ well_ranked st.

Context (Hcode : forall e f args, may e f -> ranked (rank e) (code f args)).

Lemma find_Own_may e st l : well_ranked st -> find e st = Own l -> Forall (fun fn => may e (target fn)) l.
Proof.
  intros HW. unfold find. destruct (handlers st !! e) eqn:E; [intros [= <-]; by apply HW|].
  by case_bool_decide.
Qed.

Lemma set_handlers_ranked e l st :
  well_ranked st -> Forall (fun fn => may e (target fn)) l -> well_ranked (set_handlers e l st).
Proof.
  intros HW Hl e' l'. cbn. destruct (decide (e = e')) as [<-|Hne].
  - rewrite lookup_insert_eq. by intros [= <-].
  - rewrite lookup_insert_ne by done. apply HW.
Qed.

Lemma remove_first_may e fn l :
  Forall (fun fn => may e (target fn)) l -> Forall (fun fn => may e (target fn)) (remove_first fn l).
Proof. induction 1 as [|x l Hx Hl IH]; cbn; [done|]. case_decide; [done|]. by constructor. Qed.

Lemma off_ranked e fn st : well_ranked st -> well_ranked (off e fn st).1.
Proof.
  intros HW. unfold off. destruct (find e st) eqn:E; [|done..].
  apply set_handlers_ranked; [done|]. apply remove_first_may. by eapply find_Own_may.
Qed.

Lemma removeAll_ranked event st : well_ranked st -> well_ranked (removeAllListeners event st).
Proof.
  intros HW e' l'. destruct event; cbn; [|by rewrite lookup_empty].
  intros [_ H]%lookup_delete_Some. by eapply HW.
Qed.

Section WithEmit.
Context (emit : nat -> jsstr -> list arg -> state -> outcome bool) (n : nat).
Context (Hemit : forall d e args st, (rank e < n)%nat -> well_ranked st -> returns (emit d e args st)).

Lemma on_returns d prepend e fn st :
  (e <> "newListener" -> (rank "newListener" < n)%nat) -> may e (target fn) ->
  well_ranked st -> returns (on emit d prepend e fn st).
Proof.
  intros Hn Hm HW. unfold on. set (st1 := match find e st with Absent => _ | _ => _ end).
  assert (well_ranked st1) as HW1.
  { unfold st1. destruct (find e st); [done..|]. by apply set_handlers_ranked. }
  set (o := if bool_decide _ then _ else _).
  assert (returns o) as (st2 & r & -> & HW2).
  { unfold o. case_bool_decide; [by eexists _, _|]. apply Hemit; auto. }
  destruct r as [b|ex]; [|by eexists _, _]. destruct (find e st2) eqn:E; [|by eexists _, _..].
  eexists _, _. split; [done|]. apply set_handlers_ranked; [done|].
  pose proof (find_Own_may _ _ _ HW2 E). destruct prepend; [by constructor|].
  apply Forall_app. by repeat constructor.
Qed.

Lemma exec_returns d b : forall st, ranked n b -> well_ranked st -> returns (exec emit d b st).
Proof.
  induction b as [| |prepend e fn k IH|prepend e f k IH|e fn k IH|e args k IH|e k IH];
    intros st Hb HW; cbn [exec ranked] in *.
  - by eexists _, _.
  - by eexists _, _.
  - destruct Hb as (H1 & H2 & H3). destruct (on_returns d prepend e fn st H1 H2 HW) as (st1 & r & -> & HW1).
    by apply IH.
  - destruct Hb as (H1 & H2 & H3). unfold once. cbn.
    destruct (on_returns d prepend e (LOnce (nextWrapper st) e f)
                (State (handlers st) (Pos.succ (nextWrapper st)) (exiting st) (exitCode st) (trace st))
                H1 H2 HW) as (st1 & r & -> & HW1).
    by apply IH.
  - pose proof (off_ranked e fn st HW). destruct (off e fn st) as [st1 r]. by apply IH.
  - destruct Hb as [H1 H2]. destruct (Hemit d e args st H1 HW) as (st1 & r & -> & HW1). by apply IH.
  - apply IH; [done|]. by apply removeAll_ranked.
Qed.

Lemma call_all_returns d copy args : forall st,
  Forall (fun fn => forall args, ranked n (code (target fn) args)) copy -> well_ranked st ->
  returns (call_all code emit d copy args st).
Proof.
  induction copy as [|fn copy IH]; intros st HF HW; cbn [call_all]; [by eexists _, _|].
  apply Forall_cons in HF as [Hfn HF].
  assert (returns (call_listener code emit d fn args st)) as (st1 & r & -> & HW1).
  { destruct fn as [f|w e f]; cbn [call_listener target] in *.
    - by apply exec_returns.
    - pose proof (off_ranked e (LOnce w e f) st HW) as HW'.
      destruct (off e (LOnce w e f) st) as [st1 [u|ex]]; [by apply exec_returns|by eexists _, _]. }
  destruct r; [by apply IH|by eexists _, _].
Qed.
End WithEmit.

Lemma emit_returns fuel : forall d e args st,
  (rank e < fuel)%nat -> well_ranked st -> returns (emit code fuel d e args st).
Proof.
  induction fuel as [|fuel IH]; intros d e args st Hr HW; [lia|]. cbn [emit]. unfold emit_with.
  destruct (find e st) as [l| |] eqn:E; [|by eexists _, _..].
  destruct (call_all_returns (emit code fuel) (rank e) (fun d e' args st H => IH d e' args st ltac:(lia))
              d l args st) as (st1 & r & -> & HW1); [|done|].
  - eapply Forall_impl; [by eapply find_Own_may|]. cbn. eauto.
  - destruct r; by eexists _, _.
Qed.
End Rank.

(** ** Theorems *)

(** [emit] returns when no listener re-emits, directly or through others,
    the event it is called for: if the events can be ranked so that the
    listeners of each emit only events of smaller rank ([newListener] counting
    as emitted by a registration), then [rank + 1] nested calls are enough. *)
Theorem process_emit_terminates code rank may :
  (forall e f args, may e f -> ranked rank may (rank e) (code f args)) ->
  forall fuel d event args st,
  (rank event < fuel)%nat -> well_ranked may st ->
  exists st' r, emit code fuel d event args st = Some (st', r) /\ well_ranked may st'.
Proof. intros Hcode fuel d event args st Hr HW. by apply (emit_returns code rank may). Qed.

(** [emit] calls, in registration order, exactly the listeners present
    when it starts, with its arguments, whatever those listeners add, remove
    or emit meanwhile; it answers whether the event had an entry. *)
Theorem process_emit_calls_snapshot code fuel d event args st st' b :
  emit code fuel d event args st = Some (st', Ok b) ->
  (exists l, trace st' = trace st ++ l /\
     filter (fun c => c_depth c = d) l
     = (fun fn => Call d (target fn) args) <$> snapshot event st) /\
  b = match find event st with Own _ => true | _ => false end.
Proof.
  destruct fuel as [|fuel]; [done|]. cbn [emit]. unfold emit_with, snapshot.
  destruct (find event st) as [l| |]; [|done|intros [= <- <-]; split; [|done]; exists []; by rewrite app_nil_r].
  destruct (call_all _ _ _ _ _ _) as [[st1 [[]|e]]|] eqn:E; [|done..]. intros [= <- <-].
  split; [|done]. eapply call_all_order; [|exact E]. intros. by eapply emit_deeper.
Qed.

(** Function 1 registers function 2 and emits a nested event; the others
    return. *)
Definition demo_code (f : positive) (_ : list arg) : body :=
  if decide (f = 1%positive) then On false "x" (LFn 2) (fun _ => Emit "y" [] (fun _ => Done)) else Done.

Definition demo_state : state :=
  State {[ ("x" : jsstr) := [LFn 1; LFn 3]; ("y" : jsstr) := [LFn 4] ]} 1 false None [].

(** The ranks of the demonstration: only ['x'] is above the others. *)
Definition demo_rank (e : jsstr) : nat := if decide (e = "x") then 1 else 0.
Definition demo_may (e : jsstr) (f : positive) : Prop := f = 1%positive -> e = "x".

Lemma demo_ranked e f args : demo_may e f -> ranked demo_rank demo_may (demo_rank e) (demo_code f args).
Proof.
  assert (demo_rank "x" = 1%nat /\ demo_rank "y" = 0%nat /\ demo_rank "newListener" = 0%nat) as (Ex & Ey & En)
    by by vm_compute.
  intros H. unfold demo_code. case_decide as Hf; [|done]. rewrite (H Hf). cbn [ranked target].
  rewrite Ex, Ey, En. unfold demo_may. repeat split; done || lia.
Qed.

Lemma demo_well_ranked : well_ranked demo_may demo_state.
Proof.
  intros e l. unfold demo_state. cbn [handlers].
  intros [[<- <-]|[_ [<- <-]%lookup_singleton_Some]]%lookup_insert_Some; by repeat constructor.
Qed.

Lemma process_emit_terminates_witness :
  exists st' r, emit demo_code 2 0 "x" [] demo_state = Some (st', r) /\ well_ranked demo_may st'.
Proof.
  apply (process_emit_terminates demo_code demo_rank demo_may demo_ranked); [vm_compute; lia|].
  exact demo_well_ranked.
Defined.

Lemma process_emit_calls_snapshot_witness :
  exists st', emit demo_code 5 0 "x" [] demo_state = Some (st', Ok true) /\
    trace st' = [Call 0 1 []; Call 1 4 []; Call 0 3 []] /\
    exists l, trace st' = trace demo_state ++ l /\
      filter (fun c => c_depth c = 0%nat) l
      = (fun fn => Call 0 (target fn) []) <$> snapshot "x" demo_state.
Proof.
  eexists. split; [vm_compute; reflexivity|]. split; [reflexivity|].
  eapply (process_emit_calls_snapshot demo_code 5 0 "x" [] demo_state _ true). vm_compute. reflexivity.
Defined.

(** An exception nobody listens for: [_fatalException] answers [false],
    after marking the process as exiting with status 1 and calling every
    ['exit'] listener, one that throws included. *)
Theorem process_fatal_unhandled code fuel er fromPromise st st' r :
  find "uncaughtExceptionMonitor" st = Absent -> find "uncaughtException" st = Absent ->
  exiting st = false ->
  _fatalException code fuel er fromPromise st = Some (st', r) ->
  r = Ok false /\ exiting st' = true /\ exitCode st' = Some 1 /\
  exists r', emit code fuel 0 "exit" [AVal (VNumber 1)] (start_exit st) = Some (st', r').
Proof.
  intros Hm Hu Hx. unfold _fatalException. destruct fuel as [|fuel]; [done|].
  assert (forall ev args, find ev st = Absent -> emit code (S fuel) 0 ev args st = Some (st, Ok false)) as Ha.
  { intros ev args H. cbn. unfold emit_with. by rewrite H. }
  rewrite (Ha _ _ Hm), (Ha _ _ Hu), Hx.
  destruct (emit _ _ _ _ _ _) as [[st1 r1]|] eqn:E; [|done]. intros [= <- <-].
  pose proof E as (l & _ & _ & X & C)%emit_deeper. split_and!; [done..|]. by exists r1.
Qed.

Lemma process_fatal_unhandled_witness :
  exists st', _fatalException demo_code 5 (AVal VNull) false demo_state = Some (st', Ok false) /\
    exitCode st' = Some 1.
Proof.
  eexists. split; [vm_compute; reflexivity|].
  eapply (process_fatal_unhandled demo_code 5 (AVal VNull) false demo_state); vm_compute; reflexivity.
Defined.

(** An emptied listener list still counts as a listener: after a one-shot
    ['uncaughtException'] listener has run, the next exception is reported as
    handled although no function was called for it. *)
Theorem process_fatal_swallowed_after_once code fuel f er1 er2 st1 st2 :
  (forall args, code f args = Done) ->
  once (emit code (S fuel)) 0 false "uncaughtException" f init = Some (st1, Ok tt) ->
  _fatalException code (S fuel) er1 false st1 = Some (st2, Ok true) ->
  trace st2 = [Call 0 f [er1; AVal (VString "uncaughtException")]] /\
  _fatalException code (S fuel) er2 false st2 = Some (st2, Ok true).
Proof.
  intros Hc Ho. set (w := LOnce 1 "uncaughtException" f).
  set (s1 := State {[ ("uncaughtException" : jsstr) := [w] ]} 2 false None []).
  assert (once (emit code (S fuel)) 0 false "uncaughtException" f init = Some (s1, Ok tt)) as Ho'
    by reflexivity.
  assert (st1 = s1) as -> by congruence. clear Ho Ho'.
  set (s2 er := State {[ ("uncaughtException" : jsstr) := [] ]} 2 false None [Call 0 f [er; AVal (VString "uncaughtException")]]).
  assert (forall ev st args, find ev st = Absent -> emit code (S fuel) 0 ev args st = Some (st, Ok false)) as Ha.
  { intros ev st args H. cbn [emit]. unfold emit_with. by rewrite H. }
  assert (forall er, emit code (S fuel) 0 "uncaughtException" [er; AVal (VString "uncaughtException")] s1
            = Some (s2 er, Ok true)) as E1.
  { intros er. cbn [emit]. unfold emit_with. change (find "uncaughtException" s1) with (Own [w]).
    assert (off "uncaughtException" w s1
            = (State {[ ("uncaughtException" : jsstr) := [] ]} 2 false None [], Ok tt)) as Eo.
    { unfold off. change (find "uncaughtException" s1) with (Own [w]).
      cbn [remove_first]. by rewrite decide_True. }
    cbn [call_all]. unfold call_listener, w. fold w. rewrite Eo. by rewrite Hc. }
  unfold _fatalException. rewrite Ha by reflexivity. rewrite E1. intros [= <-]. split; [done|].
  by rewrite Ha by reflexivity.
Qed.

Lemma process_fatal_swallowed_after_once_witness :
  exists st2, trace st2 = [Call 0 7 [AVal (VNumber 1); AVal (VString "uncaughtException")]] /\
    _fatalException demo_code 1 (AVal (VNumber 2)) false st2 = Some (st2, Ok true).
Proof.
  eexists. eapply (process_fatal_swallowed_after_once demo_code 0 7 (AVal (VNumber 1)) (AVal (VNumber 2)));
    [by intros args|vm_compute; reflexivity|vm_compute; reflexivity].
Defined.

(** Function 1 takes itself off and emits again; function 2 is a one-shot
    listener of the same event. *)
Definition nested_code (f : positive) (_ : list arg) : body :=
  if decide (f = 1%positive) then Off "x" (LFn 1) (fun _ => Emit "x" [] (fun _ => Done)) else Done.

(** A one-shot listener can run twice: the nested [emit] runs and removes it,
    but the outer one still holds it in its copy. *)
Lemma process_once_runs_twice :
  exists st1 st2 st3,
    on (emit nested_code 9) 0 false "x" (LFn 1) init = Some (st1, Ok tt) /\
    once (emit nested_code 9) 0 false "x" 2 st1 = Some (st2, Ok tt) /\
    emit nested_code 9 0 "x" [] st2 = Some (st3, Ok true) /\
    trace st3 = [Call 0 1 []; Call 1 2 []; Call 0 2 []].
Proof.
  eexists _, _, _. split; [vm_compute; reflexivity|]. split; [vm_compute; reflexivity|].
  split; vm_compute; reflexivity.
Qed.
