(* ===== verification/QueryString.v ===== *)
(** * [querystring]

    Models [libjs-node/querystring.js] and [libjs-node/internal/querystring.js]
    (escaping, unescaping, [stringify] and [parse]), and ECMA-262's
    [decodeURIComponent], which they call.  An object is the list of its
    properties in the order of [ObjectKeys]; the object [parse] builds has no
    prototype, so every name is an ordinary property of it.  [QueryString.escape]
    and [QueryString.unescape] are the module's own functions; decoding a
    buffer to a string ([Buffer.prototype.toString]) is a parameter. *)

From S2P Require Import Prelude JsString Path.

Module Qs.

(** ** Tables *)

(** Row [r] of a table of 16 columns. *)
Definition table_get (table : list Z) (c : Z) : option Z :=
  if c <? 0 then None else table !! Z.to_nat c.

Definition zeros : list Z := replicate 16 0.
Definition minus_ones : list Z := replicate 16 (-1).

Definition isHexTable : list Z :=
  zeros ++ zeros ++ zeros ++
  [1; 1; 1; 1; 1; 1; 1; 1; 1; 1; 0; 0; 0; 0; 0; 0] ++
  [0; 1; 1; 1; 1; 1; 1; 0; 0; 0; 0; 0; 0; 0; 0; 0] ++
  zeros ++
  [0; 1; 1; 1; 1; 1; 1; 0; 0; 0; 0; 0; 0; 0; 0; 0] ++
  zeros ++ zeros ++ zeros ++ zeros ++ zeros ++ zeros ++ zeros ++ zeros ++ zeros.

Definition unhexTable : list Z :=
  minus_ones ++ minus_ones ++ minus_ones ++
  [0; 1; 2; 3; 4; 5; 6; 7; 8; 9; -1; -1; -1; -1; -1; -1] ++
  [-1; 10; 11; 12; 13; 14; 15; -1; -1; -1; -1; -1; -1; -1; -1; -1] ++
  minus_ones ++
  [-1; 10; 11; 12; 13; 14; 15; -1; -1; -1; -1; -1; -1; -1; -1; -1] ++
  minus_ones ++ minus_ones ++ minus_ones ++ minus_ones ++ minus_ones ++
  minus_ones ++ minus_ones ++ minus_ones ++ minus_ones.

Definition noEscape : list Z :=
  zeros ++ zeros ++
  [0; 1; 0; 0; 0; 0; 0; 1; 1; 1; 1; 0; 0; 1; 1; 0] ++
  [1; 1; 1; 1; 1; 1; 1; 1; 1; 1; 0; 0; 0; 0; 0; 0] ++
  [0; 1; 1; 1; 1; 1; 1; 1; 1; 1; 1; 1; 1; 1; 1; 1] ++
  [1; 1; 1; 1; 1; 1; 1; 1; 1; 1; 1; 0; 0; 0; 0; 1] ++
  [0; 1; 1; 1; 1; 1; 1; 1; 1; 1; 1; 1; 1; 1; 1; 1] ++
  [1; 1; 1; 1; 1; 1; 1; 1; 1; 1; 1; 0; 0; 0; 1; 0].

(** An upper-case hexadecimal digit. *)
Definition hex_digit (d : Z) : Z := if d <? 10 then 48 + d else 55 + d.

(** [hexTable[i]]: a percent sign and two upper-case digits. *)
Definition hexTable (i : Z) : jsstr := [37; hex_digit (i / 16); hex_digit (i mod 16)].

Definition ERR_INVALID_URI : jserror := JsError "ERR_INVALID_URI" [].
Definition URIError : jserror := JsError [] ["URIError"].

(** ** Escaping *)

(** The loops of [encodeStr], the inner one over ASCII characters merged with
    the outer one (both go on with the next index): [n] characters at most
    remain.  The result is [lastPos] and [out]. *)
Fixpoint encode_loop (str : jsstr) (noEscapeTable : list Z) (n : nat) (i lastPos : Z) (out : jsstr)
    : result (Z * jsstr) :=
  match n with
  | O => Ok (lastPos, out)
  | S n =>
      match charCodeAt str i with
      | None => Ok (lastPos, out)
      | Some c =>
          let flushed := if lastPos <? i then out ++ slice str lastPos i else out in
          if c <? 0x80 then
            if negb (bool_decide (table_get noEscapeTable c = Some 1))
            then encode_loop str noEscapeTable n (i + 1) (i + 1) (flushed ++ hexTable c)
            else encode_loop str noEscapeTable n (i + 1) lastPos out
          else if c <? 0x800 then
            encode_loop str noEscapeTable n (i + 1) (i + 1)
              (flushed ++ hexTable (Z.lor 0xC0 (Z.shiftr c 6)) ++
               hexTable (Z.lor 0x80 (Z.land c 0x3F)))
          else if (c <? 0xD800) || (0xE000 <=? c) then
            encode_loop str noEscapeTable n (i + 1) (i + 1)
              (flushed ++ hexTable (Z.lor 0xE0 (Z.shiftr c 12)) ++
               hexTable (Z.lor 0x80 (Z.land (Z.shiftr c 6) 0x3F)) ++
               hexTable (Z.lor 0x80 (Z.land c 0x3F)))
          else
            let i := i + 1 in
            match charCodeAt str i with
            | None => Throw ERR_INVALID_URI
            | Some u =>
                let c2 := Z.land u 0x3FF in
                let c := 0x10000 + Z.lor (Z.shiftl (Z.land c 0x3FF) 10) c2 in
                encode_loop str noEscapeTable n (i + 1) (i + 1)
                  (flushed ++ hexTable (Z.lor 0xF0 (Z.shiftr c 18)) ++
                   hexTable (Z.lor 0x80 (Z.land (Z.shiftr c 12) 0x3F)) ++
                   hexTable (Z.lor 0x80 (Z.land (Z.shiftr c 6) 0x3F)) ++
                   hexTable (Z.lor 0x80 (Z.land c 0x3F)))
            end
      end
  end.

Definition encodeStr (str : jsstr) (noEscapeTable : list Z) : result jsstr :=
  if len str =? 0 then Ok []
  else
    let* (lastPos, out) := encode_loop str noEscapeTable (length str) 0 0 [] in
    Ok (if lastPos =? 0 then str
        else if lastPos <? len str then out ++ slice_from str lastPos
        else out).

(** A value as the functions here see it: a number by whether it is finite,
    whether it is below 1e21 in absolute value, and its text; anything else
    (null, undefined, a symbol, an object, ...) by its conversion to a string,
    which may throw. *)
Inductive qsval :=
  | QString (s : jsstr)
  | QNumber (finite small : bool) (text : jsstr)
  | QBigInt (text : jsstr)
  | QBool (b : bool)
  | QOther (text : result jsstr).

Definition qs_bool (b : bool) : jsstr := if b then "true" else "false".

Definition qsEscape (v : qsval) : result jsstr :=
  let* str :=
    match v with
    | QString s => Ok s
    | QNumber _ _ text | QBigInt text => Ok text
    | QBool b => Ok (qs_bool b)
    | QOther text => text
    end in
  encodeStr str noEscape.

(** ** Unescaping *)

(** A slot of a buffer that was not written since [allocUnsafe] is [None]. *)
Abbreviation buffer := (list (option Z)).

(** [out[i] = v] for a [Uint8Array]: no effect out of range. *)
Definition buf_set (out : buffer) (i v : Z) : buffer := <[Z.to_nat i := Some (v mod 256)]> out.

(** [unhexTable[c] >= 0] *)
Definition unhex (c : option Z) : option Z :=
  match c with
  | None => None
  | Some c => match table_get unhexTable c with
              | Some d => if 0 <=? d then Some d else None
              | None => None
              end
  end.

(** The loop of [unescapeBuffer]; [n] iterations at most remain. *)
Fixpoint unescape_loop (s : jsstr) (decodeSpaces : bool) (n : nat) (index outIndex : Z)
    (out : buffer) (hasHex : bool) : buffer * Z * bool :=
  match n with
  | O => (out, outIndex, hasHex)
  | S n =>
      match charCodeAt s index with
      | None => (out, outIndex, hasHex)
      | Some currentChar =>
          if (currentChar =? 43) && decodeSpaces then
            unescape_loop s decodeSpaces n (index + 1) (outIndex + 1) (buf_set out outIndex 32) hasHex
          else if (currentChar =? 37) && (index <? len s - 2) then
            match unhex (charCodeAt s (index + 1)) with
            | None =>
                unescape_loop s decodeSpaces n (index + 1) (outIndex + 1) (buf_set out outIndex 37)
                  hasHex
            | Some hexHigh =>
                match unhex (charCodeAt s (index + 2)) with
                | None =>
                    let c := default 0 (charCodeAt s (index + 1)) in
                    unescape_loop s decodeSpaces n (index + 2) (outIndex + 2)
                      (buf_set (buf_set out outIndex 37) (outIndex + 1) c) hasHex
                | Some hexLow =>
                    unescape_loop s decodeSpaces n (index + 3) (outIndex + 1)
                      (buf_set out outIndex (hexHigh * 16 + hexLow)) true
                end
            end
          else
            unescape_loop s decodeSpaces n (index + 1) (outIndex + 1)
              (buf_set out outIndex currentChar) hasHex
      end
  end.

Definition unescapeBuffer (s : jsstr) (decodeSpaces : bool) : buffer :=
  let '(out, outIndex, hasHex) :=
    unescape_loop s decodeSpaces (length s) 0 0 (replicate (length s) None) false in
  if hasHex then take (Z.to_nat outIndex) out else out.

(** *** [decodeURIComponent] (ECMA-262)

    The octet of two hexadecimal digits, and the continuation octets of a
    multi-byte sequence. *)

Definition octet (h l : Z) : option Z :=
  match unhex (Some h), unhex (Some l) with
  | Some a, Some b => Some (a * 16 + b)
  | _, _ => None
  end.

(** [%hl] as a continuation octet: its six low bits. *)
Definition continuation (p h l : Z) : option Z :=
  if p =? 37 then
    match octet h l with
    | Some b => if (0x80 <=? b) && (b <? 0xC0) then Some (b - 0x80) else None
    | None => None
    end
  else None.

(** The UTF-16 code units of a code point. *)
Definition utf16 (v : Z) : jsstr :=
  if v <? 0x10000 then [v]
  else [0xD800 + (v - 0x10000) / 0x400; 0xDC00 + (v - 0x10000) mod 0x400].

(** A Unicode scalar value that needs as many octets as were used. *)
Definition scalar (least v : Z) : bool :=
  (least <=? v) && (v <=? 0x10FFFF) && negb ((0xD800 <=? v) && (v <? 0xE000)).

Fixpoint decodeURIComponent (s : jsstr) : result jsstr :=
  match s with
  | [] => Ok []
  | c :: s1 =>
      if negb (c =? 37) then let* r := decodeURIComponent s1 in Ok (c :: r)
      else
        match s1 with
        | h :: l :: s2 =>
            match octet h l with
            | None => Throw URIError
            | Some b =>
                if b <? 0x80 then let* r := decodeURIComponent s2 in Ok (b :: r)
                else if (0xC0 <=? b) && (b <? 0xE0) then
                  match s2 with
                  | p1 :: h1 :: l1 :: s3 =>
                      match continuation p1 h1 l1 with
                      | Some c1 =>
                          let v := (b - 0xC0) * 64 + c1 in
                          if scalar 0x80 v
                          then let* r := decodeURIComponent s3 in Ok (utf16 v ++ r)
                          else Throw URIError
                      | None => Throw URIError
                      end
                  | _ => Throw URIError
                  end
                else if (0xE0 <=? b) && (b <? 0xF0) then
                  match s2 with
                  | p1 :: h1 :: l1 :: p2 :: h2 :: l2 :: s3 =>
                      match continuation p1 h1 l1, continuation p2 h2 l2 with
                      | Some c1, Some c2 =>
                          let v := ((b - 0xE0) * 64 + c1) * 64 + c2 in
                          if scalar 0x800 v
                          then let* r := decodeURIComponent s3 in Ok (utf16 v ++ r)
                          else Throw URIError
                      | _, _ => Throw URIError
                      end
                  | _ => Throw URIError
                  end
                else if (0xF0 <=? b) && (b <? 0xF8) then
                  match s2 with
                  | p1 :: h1 :: l1 :: p2 :: h2 :: l2 :: p3 :: h3 :: l3 :: s3 =>
                      match continuation p1 h1 l1, continuation p2 h2 l2, continuation p3 h3 l3 with
                      | Some c1, Some c2, Some c3 =>
                          let v := (((b - 0xF0) * 64 + c1) * 64 + c2) * 64 + c3 in
                          if scalar 0x10000 v
                          then let* r := decodeURIComponent s3 in Ok (utf16 v ++ r)
                          else Throw URIError
                      | _, _, _ => Throw URIError
                      end
                  | _ => Throw URIError
                  end
                else Throw URIError
            end
        | _ => Throw URIError
        end
  end.

(** ** [stringify] *)

Definition stringifyPrimitive (v : qsval) : jsstr :=
  match v with
  | QString s => s
  | QNumber true _ text => text
  | QBigInt text => text
  | QBool b => qs_bool b
  | _ => []
  end.

Definition encodeStringified (v : qsval) (encode : qsval -> result jsstr) : result jsstr :=
  match v with
  | QString s => if negb (len s =? 0) then encode v else Ok []
  | QNumber true small text => if small then Ok text else encode (QString text)
  | QBigInt text => Ok text
  | QBool b => Ok (qs_bool b)
  | _ => Ok []
  end.

Definition encodeStringifiedCustom (v : qsval) (encode : jsstr -> result jsstr) : result jsstr :=
  encode (stringifyPrimitive v).

(** A property: a value, or an array of them. *)
Inductive property :=
  | Single (v : qsval)
  | Many (vs : list qsval).

Section Convert.
(** [v => convert(v, encode)], and the separators. *)
Variable convert : qsval -> result jsstr.
Variable sep eq : jsstr.

(** The loop over an array; [j] is not 0. *)
Fixpoint stringify_more (ks : jsstr) (vs : list qsval) (fields : jsstr) : result jsstr :=
  match vs with
  | [] => Ok fields
  | v :: vs =>
      let* x := convert v in
      stringify_more ks vs (fields ++ sep ++ ks ++ x)
  end.

Fixpoint stringify_fields (obj : list (jsstr * property)) (fields : jsstr) : result jsstr :=
  match obj with
  | [] => Ok fields
  | (k, p) :: obj =>
      let* ks := convert (QString k) in
      let ks := ks ++ eq in
      let opened := if bool_decide (fields = []) then fields else fields ++ sep in
      match p with
      | Many [] => stringify_fields obj fields
      | Many (v :: vs) =>
          let* x := convert v in
          let* fields := stringify_more ks vs (opened ++ ks ++ x) in
          stringify_fields obj fields
      | Single v =>
          let* x := convert v in
          stringify_fields obj (opened ++ ks ++ x)
      end
  end.
End Convert.

(** [a ||= b] for a string argument. *)
Definition or_default (a : option jsstr) (b : jsstr) : jsstr :=
  match a with Some (c :: s) => c :: s | _ => b end.

(** [obj] is [None] when the argument is not an object; [custom] is
    [options.encodeURIComponent] when it is a function other than
    [QueryString.escape]. *)
Definition stringify (obj : option (list (jsstr * property))) (sep eq : option jsstr)
    (custom : option (jsstr -> result jsstr)) : result jsstr :=
  let convert v :=
    match custom with
    | None => encodeStringified v qsEscape
    | Some encode => encodeStringifiedCustom v encode
    end in
  match obj with
  | None => Ok []
  | Some obj => stringify_fields convert (or_default sep "&") (or_default eq "=") obj []
  end.

(** ** [parse] *)

Definition charCodes (str : jsstr) : list Z := str.
Definition defSepCodes : list Z := [38].
Definition defEqCodes : list Z := [61].

(** A property of the result: a string, or an array of strings. *)
Inductive parsed :=
  | PStr (s : jsstr)
  | PArr (l : list jsstr).

#[export] Instance parsed_eq_dec : EqDecision parsed.
Proof. solve_decision. Defined.

Definition parsed_obj : Type := list (jsstr * parsed).

(** [obj[key]] becomes [f] of what it was. *)
Fixpoint obj_update (key : jsstr) (f : option parsed -> parsed) (obj : parsed_obj) : parsed_obj :=
  match obj with
  | [] => [(key, f None)]
  | (k, v) :: obj' =>
      if decide (k = key) then (k, f (Some v)) :: obj' else (k, v) :: obj_update key f obj'
  end.

Record scan := Scan {
  lastPos : Z; sepIdx : Z; eqIdx : Z; key : jsstr; value : jsstr;
  keyEncoded : bool; valEncoded : bool; encodeCheck : Z; pairs : Z; obj : parsed_obj;
}.

Section Parse.
(** [Buffer.prototype.toString] *)
Variable buffer_toString : buffer -> jsstr.

Definition qsUnescape (s : jsstr) (decodeSpaces : bool) : jsstr :=
  match decodeURIComponent s with
  | Ok r => r
  | Throw _ => buffer_toString (unescapeBuffer s decodeSpaces)
  end.

(** [options.decodeURIComponent], when it is a function other than
    [QueryString.unescape]. *)
Variable custom : option (jsstr -> result jsstr).

Definition decodeStr (s : jsstr) : jsstr :=
  match custom with
  | None => qsUnescape s false
  | Some decoder => match decoder s with Ok r => r | Throw _ => qsUnescape s true end
  end.

Definition addKeyVal (o : parsed_obj) (k v : jsstr) (kEncoded vEncoded : bool) : parsed_obj :=
  let k := if (0 <? len k) && kEncoded then decodeStr k else k in
  let v := if (0 <? len v) && vEncoded then decodeStr v else v in
  obj_update k (fun cur =>
    match cur with
    | None => PStr v
    | Some (PArr l) => PArr (l ++ [v])
    | Some (PStr s) => PArr [s; v]
    end) o.

Definition customDecode : bool := bool_decide (is_Some custom).
Definition plusChar : jsstr := if customDecode then "%20" else " ".

Variable qs : jsstr.
Variable sepCodes eqCodes : list Z.

Definition sepLen : Z := Z.of_nat (length sepCodes).
Definition eqLen : Z := Z.of_nat (length eqCodes).

Definition isHex (code : Z) : bool := bool_decide (table_get isHexTable code = Some 1).

(** The search for an encoded byte, in the key: [true] when the loop goes on
    with the next character. *)
Definition key_check (code : Z) (st : scan) : scan * bool :=
  let '(Scan lp si ei k v ke ve ec ps o) := st in
  if ke then (st, false)
  else if code =? 37 then (Scan lp si ei k v ke ve 1 ps o, true)
  else if 0 <? ec then
    if isHex code
    then (Scan lp si ei k v (if ec + 1 =? 3 then true else ke) ve (ec + 1) ps o, true)
    else (Scan lp si ei k v ke ve 0 ps o, false)
  else (st, false).

(** The last part of the loop's body: the value. *)
Definition value_step (code i : Z) (st : scan) : scan :=
  let '(Scan lp si ei k v ke ve ec ps o) := st in
  if code =? 43 then
    Scan (i + 1) si ei k ((if lp <? i then v ++ slice qs lp i else v) ++ plusChar) ke ve ec ps o
  else if negb ve then
    if code =? 37 then Scan lp si ei k v ke ve 1 ps o
    else if 0 <? ec then
      if isHex code
      then Scan lp si ei k v ke (if ec + 1 =? 3 then true else ve) (ec + 1) ps o
      else Scan lp si ei k v ke ve 0 ps o
    else st
  else st.

(** A whole separator ends at index [i]; [inr] is a [return]. *)
Definition separator_step (i : Z) (st : scan) : scan + parsed_obj :=
  let '(Scan lp si ei k v ke ve ec ps o) := st in
  let stop := i - si + 1 in
  if (ei <? eqLen) && negb (lp <? stop) && (len k =? 0) then
    if ps - 1 =? 0 then inr o
    else inl (Scan (i + 1) 0 0 k v ke ve ec (ps - 1) o)
  else
    let k := if (ei <? eqLen) && (lp <? stop) then k ++ slice qs lp stop else k in
    let v := if negb (ei <? eqLen) && (lp <? stop) then v ++ slice qs lp stop else v in
    let o := addKeyVal o k v ke ve in
    if ps - 1 =? 0 then inr o
    else inl (Scan (i + 1) 0 0 [] [] customDecode customDecode 0 (ps - 1) o).

(** The body of the loop at index [i]. *)
Definition parse_step (code i : Z) (st : scan) : scan + parsed_obj :=
  let '(Scan lp si ei k v ke ve ec ps o) := st in
  if bool_decide (table_get sepCodes si = Some code) then
    let st := Scan lp (si + 1) ei k v ke ve ec ps o in
    if si + 1 =? sepLen then separator_step i st else inl st
  else if ei <? eqLen then
    if bool_decide (table_get eqCodes ei = Some code) then
      if ei + 1 =? eqLen then
        let stop := i - (ei + 1) + 1 in
        inl (Scan (i + 1) 0 (ei + 1) (if lp <? stop then k ++ slice qs lp stop else k) v
               ke ve 0 ps o)
      else inl (Scan lp 0 (ei + 1) k v ke ve ec ps o)
    else
      let '(st, continue) := key_check code (Scan lp 0 0 k v ke ve ec ps o) in
      if continue then inl st
      else if code =? 43 then
        inl (Scan (i + 1) 0 0 ((if lp <? i then k ++ slice qs lp i else k) ++ plusChar) v
               (keyEncoded st) (valEncoded st) (encodeCheck st) ps o)
      else inl (value_step code i st)
  else inl (value_step code i (Scan lp 0 ei k v ke ve ec ps o)).

(** [for (let i = 0; i < qs.length; ++i)]: [rest] is what remains from [i]. *)
Fixpoint parse_loop (rest : jsstr) (i : Z) (st : scan) : scan + parsed_obj :=
  match rest with
  | [] => inl st
  | code :: rest =>
      match parse_step code i st with
      | inl st => parse_loop rest (i + 1) st
      | inr o => inr o
      end
  end.

(** The leftover key or value. *)
Definition parse_end (st : scan) : parsed_obj :=
  let '(Scan lp si ei k v ke ve ec ps o) := st in
  if lp <? len qs then
    addKeyVal o (if ei <? eqLen then k ++ slice_from qs lp else k)
      (if negb (ei <? eqLen) && (si <? sepLen) then v ++ slice_from qs lp else v) ke ve
  else if (ei =? 0) && (len k =? 0) then o
  else addKeyVal o k v ke ve.
End Parse.

(** [options.maxKeys], when it is a number (an integer here). *)
Definition max_pairs (maxKeys : option Z) : Z :=
  match maxKeys with
  | None => 1000
  | Some m => if 0 <? m then m else -1
  end.

(** [qs] is [None] when the argument is not a string. *)
Definition parse (buffer_toString : buffer -> jsstr) (qs : option jsstr) (sep eq : option jsstr)
    (maxKeys : option Z) (custom : option (jsstr -> result jsstr)) : parsed_obj :=
  match qs with
  | None | Some [] => []
  | Some qs =>
      let sepCodes := match sep with Some (c :: s) => charCodes (c :: s) | _ => defSepCodes end in
      let eqCodes := match eq with Some (c :: s) => charCodes (c :: s) | _ => defEqCodes end in
      let cd := customDecode custom in
      match parse_loop buffer_toString custom qs sepCodes eqCodes qs 0
              (Scan 0 0 0 [] [] cd cd 0 (max_pairs maxKeys) []) with
      | inl st => parse_end buffer_toString custom qs sepCodes eqCodes st
      | inr o => o
      end
  end.

End Qs.
