(* ===== verification/QueryStringFacts.v ===== *)
(** * [querystring]: theorems

    [encodeStr] computes a character-by-character encoding, which
    [decodeURIComponent] inverts on well-formed UTF-16; [parse] inverts
    [stringify]; [unescapeBuffer] returns only bytes it wrote; [maxKeys]
    bounds the result of [parse]. *)

From S2P Require Import Prelude JsString PathSpec QueryString.
Import Qs.

(** ** Encoding, one character at a time *)

Definition bytes2 (c : Z) : jsstr :=
  hexTable (Z.lor 0xC0 (Z.shiftr c 6)) ++ hexTable (Z.lor 0x80 (Z.land c 0x3F)).
Definition bytes3 (c : Z) : jsstr :=
  hexTable (Z.lor 0xE0 (Z.shiftr c 12)) ++ hexTable (Z.lor 0x80 (Z.land (Z.shiftr c 6) 0x3F)) ++
  hexTable (Z.lor 0x80 (Z.land c 0x3F)).
Definition bytes4 (c : Z) : jsstr :=
  hexTable (Z.lor 0xF0 (Z.shiftr c 18)) ++ hexTable (Z.lor 0x80 (Z.land (Z.shiftr c 12) 0x3F)) ++
  hexTable (Z.lor 0x80 (Z.land (Z.shiftr c 6) 0x3F)) ++ hexTable (Z.lor 0x80 (Z.land c 0x3F)).

(** The code point [encodeStr] reads off two code units. *)
Definition pair_point (c u : Z) : Z := 0x10000 + Z.lor (Z.shiftl (Z.land c 0x3FF) 10) (Z.land u 0x3FF).

Definition is_surrogate (c : Z) : bool := negb ((c <? 0xD800) || (0xE000 <=? c)).

Fixpoint encode (table : list Z) (s : jsstr) : result jsstr :=
  match s with
  | [] => Ok []
  | c :: s' =>
      if c <? 0x80 then
        let* r := encode table s' in
        Ok ((if bool_decide (table_get table c = Some 1) then [c] else hexTable c) ++ r)
      else if c <? 0x800 then let* r := encode table s' in Ok (bytes2 c ++ r)
      else if negb (is_surrogate c) then let* r := encode table s' in Ok (bytes3 c ++ r)
      else
        match s' with
        | [] => Throw ERR_INVALID_URI
        | u :: s'' => let* r := encode table s'' in Ok (bytes4 (pair_point c u) ++ r)
        end
  end.

(** The text that [lastPos] leaves pending. *)
Lemma slice_snoc pre c rest lp :
  0 <= lp <= len pre ->
  slice (pre ++ c :: rest) lp (len pre + 1) = slice (pre ++ c :: rest) lp (len pre) ++ [c].
Proof.
  intros H. rewrite !slice_spec by len_lia.
  assert (drop (Z.to_nat lp) (pre ++ c :: rest) = drop (Z.to_nat lp) pre ++ c :: rest) as ->.
  { rewrite drop_app_le; [done|]. unfold len in H. lia. }
  assert (length (drop (Z.to_nat lp) pre) = Z.to_nat (len pre - lp)) as Hl.
  { rewrite length_drop. unfold len in *. lia. }
  replace (Z.to_nat (len pre + 1 - lp)) with (length (drop (Z.to_nat lp) pre) + 1)%nat by lia.
  rewrite <- Hl, take_app_add, take_app_length. done.
Qed.

Lemma pending_flush (str out : jsstr) lp i :
  0 <= lp <= i -> (if lp <? i then out ++ slice str lp i else out) = out ++ slice str lp i.
Proof.
  intros H. destruct (lp <? i) eqn:E; [done|]. bool_hyps.
  rewrite slice_empty, app_nil_r by lia. done.
Qed.

(** What the loop leaves: the encoding of the rest follows what it had. *)
Definition encoded_from (str table rest out : list Z) (lp i : Z) (r : result (Z * jsstr)) : Prop :=
  match r with
  | Ok (lp', out') =>
      exists e, encode table rest = Ok e /\ lp <= lp' <= len str /\ (lp' = 0 -> out' = out) /\
        out' ++ slice str lp' (len str) = out ++ slice str lp i ++ e
  | Throw e => encode table rest = Throw e
  end.

(** One escaped character (or pair) [x], coded as [b]. *)
Lemma encoded_from_cons str table pre x rest out lp b r :
  str = pre ++ x ++ rest -> x <> [] -> 0 <= lp <= len pre ->
  (forall e, encode table rest = e -> encode table (x ++ rest) = let* e := e in Ok (b ++ e)) ->
  encoded_from str table rest (out ++ slice str lp (len pre) ++ b) (len pre + len x) (len pre + len x) r ->
  encoded_from str table (x ++ rest) out lp (len pre) r.
Proof.
  intros Hs Hx Hlp Henc. assert (0 < len x) by (destruct x; [done|len_lia]).
  unfold encoded_from. destruct r as [[lp' out']|e].
  - intros (e & He & H1 & H2 & H3). rewrite (Henc _ He). exists (b ++ e). split_and!; [done|lia|lia|lia|].
    rewrite H3. rewrite (slice_empty str (len pre + len x)) by lia. by rewrite <- !app_assoc.
  - intros He. by rewrite (Henc _ He).
Qed.

Lemma encode_loop_spec str table : forall n pre rest lp out,
  str = pre ++ rest -> (length rest <= n)%nat -> 0 <= lp <= len pre ->
  encoded_from str table rest out lp (len pre) (encode_loop str table n (len pre) lp out).
Proof.
  induction n as [|n IH]; intros pre rest lp out Hs Hn Hlp.
  { destruct rest; [|cbn in Hn; lia]. rewrite app_nil_r in Hs. subst pre.
    exists []. rewrite app_nil_r. split_and!; done || lia. }
  cbn [encode_loop]. destruct rest as [|c rest].
  { rewrite app_nil_r in Hs. subst pre. rewrite charCodeAt_ge by lia.
    exists []. rewrite app_nil_r. split_and!; done || lia. }
  assert (charCodeAt str (len pre) = Some c) as -> by (rewrite Hs; by apply charCodeAt_app_mid).
  rewrite pending_flush by done.
  assert (forall b, (forall e, encode table rest = e -> encode table (c :: rest) = let* e := e in Ok (b ++ e)) ->
    encoded_from str table (c :: rest) out lp (len pre)
      (encode_loop str table n (len pre + 1) (len pre + 1) ((out ++ slice str lp (len pre)) ++ b))) as Hone.
  { intros b Hb. apply (encoded_from_cons str table pre [c] rest out lp b); [done..|].
    replace (len pre + len [c]) with (len (pre ++ [c])) by len_lia.
    replace (len pre + 1) with (len (pre ++ [c])) by len_lia. rewrite <- app_assoc.
    apply IH; [by rewrite <- app_assoc|cbn in Hn; lia|len_lia]. }
  cbn [encode] in Hone |- *. unfold is_surrogate in *. destruct (c <? 128) eqn:E1.
  - case_bool_decide as Et; cbn [negb].
    + specialize (IH (pre ++ [c]) rest lp out ltac:(by rewrite <- app_assoc) ltac:(cbn in Hn; lia) ltac:(len_lia)).
      replace (len (pre ++ [c])) with (len pre + 1) in IH by len_lia.
      unfold encoded_from in *. cbn [encode]. rewrite E1, bool_decide_eq_true_2 by done.
      destruct (encode_loop _ _ _ _ _ _) as [[lp' out']|e].
      * destruct IH as (e & He & H1 & H2 & H3). rewrite He. exists ([c] ++ e). split_and!; [done|lia|lia|done|].
        rewrite H3. rewrite Hs at 1. rewrite slice_snoc, <- Hs by done. by rewrite <- app_assoc.
      * by rewrite IH.
    + apply Hone. by intros e ->.
  - destruct (c <? 2048) eqn:E2; [apply Hone; by intros e ->|].
    destruct ((c <? 55296) || (57344 <=? c)) eqn:E3; [apply Hone; by intros e ->|].
    destruct rest as [|u rest].
    { rewrite Hs, charCodeAt_ge by len_lia. unfold encoded_from. cbn [encode].
      unfold is_surrogate. by rewrite E1, E2, E3. }
    assert (charCodeAt str (len pre + 1) = Some u) as ->.
    { rewrite Hs. replace (pre ++ c :: u :: rest) with ((pre ++ [c]) ++ u :: rest) by by rewrite <- app_assoc.
      apply charCodeAt_app_mid. len_lia. }
    replace (len pre + 1 + 1) with (len pre + len [c; u]) by len_lia.
    apply (encoded_from_cons str table pre [c; u] rest out lp (bytes4 (pair_point c u))); [done..| |].
    + intros e <-. cbn [encode app]. unfold is_surrogate. by rewrite E1, E2, E3.
    + replace (len pre + len [c; u]) with (len (pre ++ [c; u])) by len_lia. rewrite <- app_assoc.
      apply IH; [by rewrite <- app_assoc|cbn in Hn; lia|len_lia].
Qed.

Lemma encodeStr_encode str table : encodeStr str table = encode table str.
Proof.
  unfold encodeStr. rewrite len_eqb_zero. case_bool_decide as E; [by subst|].
  pose proof (encode_loop_spec str table (length str) [] str 0 [] eq_refl ltac:(lia) ltac:(len_lia)) as H.
  change (len []) with 0 in H. unfold encoded_from in H.
  destruct (encode_loop str table (length str) 0 0 []) as [[lp out]|e]; [|by rewrite H].
  destruct H as (e & He & H1 & H2 & H3). rewrite He. cbn [result_bind]. f_equal.
  rewrite (slice_empty str 0 0) in H3 by lia. cbn [app] in H3. rewrite <- H3.
  destruct (lp =? 0) eqn:E0; bool_hyps.
  - subst lp. rewrite H2 by done. by rewrite slice_whole.
  - destruct (lp <? len str) eqn:E1; bool_hyps; [done|]. rewrite slice_empty by len_lia.
    by rewrite app_nil_r.
Qed.

(** ** Decoding what was encoded *)

(** Well-formed UTF-16: code units, surrogates in pairs only. *)
Fixpoint wf16 (s : jsstr) : bool :=
  match s with
  | [] => true
  | c :: s' =>
      (0 <=? c) && (c <? 0x10000) &&
      if negb (is_surrogate c) then wf16 s'
      else
        match s' with
        | [] => false
        | u :: s'' => (c <? 0xDC00) && (0xDC00 <=? u) && (u <? 0xE000) && wf16 s''
        end
  end.

Definition plain (c : Z) : Prop := table_get noEscape c = Some 1.

(** The output alphabet: unreserved characters and [%HH]. *)
Inductive escaped : jsstr -> Prop :=
  | esc_nil : escaped []
  | esc_plain c t : plain c -> escaped t -> escaped (c :: t)
  | esc_hex h l t : isHex h = true -> isHex l = true -> escaped t -> escaped (37 :: h :: l :: t).

Lemma escaped_app s t : escaped s -> escaped t -> escaped (s ++ t).
Proof. induction 1; intros; cbn; [done|by apply esc_plain; auto|by apply esc_hex; auto]. Qed.

(** A finite table fact, by evaluation. *)
Lemma forallb_range (f : Z -> bool) a n c :
  forallb f (seqZ a n) = true -> a <= c < a + n -> f c = true.
Proof. rewrite forallb_forall. intros H Hc. apply H. apply list_elem_of_In, elem_of_seqZ. lia. Qed.

Lemma table_get_range table c v : table_get table c = Some v -> 0 <= c < Z.of_nat (length table).
Proof.
  unfold table_get. destruct (c <? 0) eqn:E; [done|]. bool_hyps. intros H%lookup_lt_Some. lia.
Qed.

Lemma plain_ordinary c : plain c -> c <> 37 /\ c <> 38 /\ c <> 43 /\ c <> 61 /\ 0 <= c < 128.
Proof.
  intros H. pose proof (table_get_range _ _ _ H) as Hr. unfold plain in H.
  split_and!; try (intros ->; discriminate H); apply Hr.
Qed.

Lemma hex_ordinary c : isHex c = true -> c <> 37 /\ c <> 38 /\ c <> 43 /\ c <> 61.
Proof. intros H. split_and!; intros ->; discriminate H. Qed.

Lemma hexTable_octet b : 0 <= b < 256 ->
  octet (hex_digit (b / 16)) (hex_digit (b mod 16)) = Some b /\
  isHex (hex_digit (b / 16)) = true /\ isHex (hex_digit (b mod 16)) = true.
Proof.
  set (f b := bool_decide (octet (hex_digit (b / 16)) (hex_digit (b mod 16)) = Some b) &&
              isHex (hex_digit (b / 16)) && isHex (hex_digit (b mod 16))).
  intros Hb. assert (f b = true) as H by (apply (forallb_range f 0 256); [vm_compute; reflexivity|lia]).
  unfold f in H. bool_hyps. auto.
Qed.

Lemma escaped_hexTable b : 0 <= b < 256 -> escaped (hexTable b).
Proof. intros (_ & H1 & H2)%hexTable_octet. apply esc_hex; [done..|constructor]. Qed.

Lemma continuation_hexTable x : 0 <= x < 64 ->
  continuation 37 (hex_digit ((128 + x) / 16)) (hex_digit ((128 + x) mod 16)) = Some x.
Proof.
  intros Hx. unfold continuation. cbn [Z.eqb Pos.eqb].
  destruct (hexTable_octet (128 + x)) as (-> & _); [lia|]. do 2 ztest. cbn [andb]. f_equal. lia.
Qed.

(** Disjoint bits add up. *)
Lemma lor_add a k b : 0 <= k -> 0 <= b < 2 ^ k -> Z.lor (Z.shiftl a k) b = a * 2 ^ k + b.
Proof.
  intros Hk Hb. rewrite Z.shiftl_mul_pow2 by done. rewrite <- Z.add_lor_land.
  enough (Z.land (a * 2 ^ k) b = 0) as -> by lia.
  rewrite <- (Z.mod_small b (2 ^ k)) by done. apply Z.bits_inj'. intros n Hn.
  rewrite Z.land_spec, Z.bits_0, Z.testbit_mod_pow2 by done. destruct (n <? k) eqn:E; bool_hyps.
  - by rewrite Z.mul_pow2_bits_low by lia.
  - by rewrite andb_false_r.
Qed.

Lemma land_mod c k m mask : 0 <= k -> m = 2 ^ k -> mask = m - 1 -> Z.land c mask = c mod m.
Proof. intros Hk -> ->. rewrite <- Z.land_ones by done. f_equal. by rewrite Z.ones_equiv. Qed.

Lemma lead_byte a k m base x :
  0 <= k -> m = 2 ^ k -> base = a * m -> 0 <= x < m -> Z.lor base x = base + x.
Proof. intros Hk -> -> Hx. rewrite <- lor_add by done. by rewrite Z.shiftl_mul_pow2. Qed.

Lemma trail_byte x : Z.lor 0x80 (Z.land x 0x3F) = 0x80 + x mod 64.
Proof.
  rewrite (land_mod x 6 64) by done. apply (lead_byte 2 6 64); [lia|done..|]. apply Z.mod_pos_bound. lia.
Qed.

Lemma bytes2_eq c : 0x80 <= c < 0x800 -> bytes2 c = hexTable (0xC0 + c / 64) ++ hexTable (0x80 + c mod 64).
Proof.
  intros Hc. unfold bytes2. rewrite trail_byte, Z.shiftr_div_pow2 by lia. change (2 ^ 6) with 64.
  rewrite (lead_byte 6 5 32); [done|lia|done..|]. Z.to_euclidean_division_equations. lia.
Qed.

Lemma bytes3_eq c : 0x800 <= c < 0x10000 ->
  bytes3 c = hexTable (0xE0 + c / 4096) ++ hexTable (0x80 + c / 64 mod 64) ++ hexTable (0x80 + c mod 64).
Proof.
  intros Hc. unfold bytes3. rewrite !trail_byte, !Z.shiftr_div_pow2 by lia.
  change (2 ^ 6) with 64. change (2 ^ 12) with 4096.
  rewrite (lead_byte 14 4 16); [done|lia|done..|]. Z.to_euclidean_division_equations. lia.
Qed.

Lemma bytes4_eq c : 0x10000 <= c < 0x110000 ->
  bytes4 c = hexTable (0xF0 + c / 262144) ++ hexTable (0x80 + c / 4096 mod 64) ++
             hexTable (0x80 + c / 64 mod 64) ++ hexTable (0x80 + c mod 64).
Proof.
  intros Hc. unfold bytes4. rewrite !trail_byte, !Z.shiftr_div_pow2 by lia.
  change (2 ^ 6) with 64. change (2 ^ 12) with 4096. change (2 ^ 18) with 262144.
  rewrite (lead_byte 30 3 8); [done|lia|done..|]. Z.to_euclidean_division_equations. lia.
Qed.

Lemma pair_point_eq c u :
  0xD800 <= c < 0xDC00 -> 0xDC00 <= u < 0xE000 ->
  pair_point c u = 0x10000 + (c - 0xD800) * 0x400 + (u - 0xDC00).
Proof.
  intros Hc Hu. unfold pair_point. rewrite !(land_mod _ 10 1024) by done. rewrite lor_add.
  - Z.to_euclidean_division_equations. lia.
  - lia.
  - apply Z.mod_pos_bound. lia.
Qed.

(** ** [decodeURIComponent] on encoded characters *)

Lemma decode_plain c s : c <> 37 ->
  decodeURIComponent (c :: s) = let* r := decodeURIComponent s in Ok (c :: r).
Proof. intros H. cbn [decodeURIComponent]. by rewrite (proj2 (Z.eqb_neq c 37) H). Qed.

Lemma decode_byte b s : 0 <= b < 0x80 ->
  decodeURIComponent (hexTable b ++ s) = let* r := decodeURIComponent s in Ok (b :: r).
Proof.
  intros H. cbn [hexTable app decodeURIComponent negb Z.eqb Pos.eqb].
  destruct (hexTable_octet b) as (-> & _); [lia|]. by ztest.
Qed.

Lemma decode_bytes2 c s : 0x80 <= c < 0x800 ->
  decodeURIComponent (bytes2 c ++ s) = let* r := decodeURIComponent s in Ok (c :: r).
Proof.
  intros H. assert (0 <= c mod 64 < 64) by (apply Z.mod_pos_bound; lia).
  assert (2 <= c / 64 < 32) by (Z.to_euclidean_division_equations; lia).
  rewrite bytes2_eq by done. cbn [hexTable app decodeURIComponent negb Z.eqb Pos.eqb].
  destruct (hexTable_octet (0xC0 + c / 64)) as (-> & _); [lia|]. do 3 ztest. cbn [andb].
  rewrite continuation_hexTable by done. cbv zeta.
  replace ((192 + c / 64 - 192) * 64 + c mod 64) with c by (Z.to_euclidean_division_equations; lia).
  unfold scalar, utf16. by repeat ztest.
Qed.

Lemma decode_bytes3 c s : 0x800 <= c < 0x10000 -> is_surrogate c = false ->
  decodeURIComponent (bytes3 c ++ s) = let* r := decodeURIComponent s in Ok (c :: r).
Proof.
  intros H Hs. assert (0 <= c mod 64 < 64) by (apply Z.mod_pos_bound; lia).
  assert (0 <= c / 64 mod 64 < 64) by (apply Z.mod_pos_bound; lia).
  assert (0 <= c / 4096 < 16) by (Z.to_euclidean_division_equations; lia).
  rewrite bytes3_eq by done. cbn [hexTable app decodeURIComponent negb Z.eqb Pos.eqb].
  destruct (hexTable_octet (0xE0 + c / 4096)) as (-> & _); [lia|]. do 5 ztest. cbn [andb].
  rewrite !continuation_hexTable by done. cbv zeta.
  replace (((224 + c / 4096 - 224) * 64 + c / 64 mod 64) * 64 + c mod 64) with c
    by (Z.to_euclidean_division_equations; lia).
  unfold scalar, utf16, is_surrogate in *. apply negb_false_iff, orb_true_iff in Hs as [Hs|Hs]; bool_hyps;
    by repeat ztest.
Qed.

Lemma decode_bytes4 c u s : 0xD800 <= c < 0xDC00 -> 0xDC00 <= u < 0xE000 ->
  decodeURIComponent (bytes4 (pair_point c u) ++ s) = let* r := decodeURIComponent s in Ok (c :: u :: r).
Proof.
  intros Hc Hu. rewrite pair_point_eq by done.
  set (v := 0x10000 + (c - 0xD800) * 0x400 + (u - 0xDC00)).
  assert (0x10000 <= v < 0x110000) by lia.
  assert (0 <= v mod 64 < 64) by (apply Z.mod_pos_bound; lia).
  assert (0 <= v / 64 mod 64 < 64) by (apply Z.mod_pos_bound; lia).
  assert (0 <= v / 4096 mod 64 < 64) by (apply Z.mod_pos_bound; lia).
  assert (0 <= v / 262144 < 8) by (clearbody v; Z.to_euclidean_division_equations; lia).
  rewrite bytes4_eq by done. cbn [hexTable app decodeURIComponent negb Z.eqb Pos.eqb].
  destruct (hexTable_octet (0xF0 + v / 262144)) as (-> & _); [lia|]. do 7 ztest. cbn [andb].
  rewrite !continuation_hexTable by done. cbv zeta.
  replace ((((240 + v / 262144 - 240) * 64 + v / 4096 mod 64) * 64 + v / 64 mod 64) * 64 + v mod 64) with v
    by (clearbody v; Z.to_euclidean_division_equations; lia).
  assert (0xD800 + (v - 0x10000) / 0x400 = c /\ 0xDC00 + (v - 0x10000) mod 0x400 = u) as [Ec Eu].
  { unfold v. Z.to_euclidean_division_equations. lia. }
  unfold scalar, utf16. rewrite Ec, Eu. by repeat ztest.
Qed.

(** Well-formed text is encoded in the output alphabet, and decoded back. *)
Definition encodes (s r : jsstr) : Prop := escaped r /\ decodeURIComponent r = Ok s.

Lemma encodes_cons x b s r :
  escaped b -> (forall t, decodeURIComponent (b ++ t) = let* r := decodeURIComponent t in Ok (x ++ r)) ->
  encodes s r -> encodes (x ++ s) (b ++ r).
Proof. intros Hb Hd [He Hr]. split; [by apply escaped_app|]. by rewrite Hd, Hr. Qed.

Lemma escaped_hexTables b1 b2 t : 0 <= b1 < 256 -> 0 <= b2 < 256 -> escaped t -> escaped (hexTable b1 ++ hexTable b2 ++ t).
Proof. intros. apply escaped_app; [by apply escaped_hexTable|]. apply escaped_app; [by apply escaped_hexTable|done]. Qed.

Lemma escaped_trail x : escaped (hexTable (0x80 + x mod 64)).
Proof. apply escaped_hexTable. pose proof (Z.mod_pos_bound x 64). lia. Qed.

Lemma escaped_bytes c :
  (0x80 <= c < 0x800 -> escaped (bytes2 c)) /\ (0x800 <= c < 0x10000 -> escaped (bytes3 c)) /\
  (0x10000 <= c < 0x110000 -> escaped (bytes4 c)).
Proof.
  split_and!; intros H; [rewrite bytes2_eq by done|rewrite bytes3_eq by done|rewrite bytes4_eq by done];
    repeat (apply escaped_app; [|]); try apply escaped_trail;
    apply escaped_hexTable; Z.to_euclidean_division_equations; lia.
Qed.

Lemma encode_wf16 s : wf16 s = true -> exists r, encode noEscape s = Ok r /\ encodes s r.
Proof.
  induction s as [s IH] using (well_founded_induction (Wf_nat.well_founded_ltof _ (@length Z))).
  destruct s as [|c s]; cbn [wf16 encode]; [exists []; by repeat constructor|].
  intros H. apply andb_true_iff in H as [H Hs]. bool_hyps.
  assert (forall s', (length s' <= length s)%nat -> wf16 s' = true ->
    exists r, encode noEscape s' = Ok r /\ encodes s' r) as IH'.
  { intros s' Hl. apply IH. unfold Wf_nat.ltof. cbn. lia. }
  destruct (escaped_bytes c) as (Eb2 & Eb3 & _).
  destruct (c <? 0x80) eqn:E1; bool_hyps.
  { replace (is_surrogate c) with false in Hs by (unfold is_surrogate; by repeat ztest). cbn in Hs.
    destruct (IH' s) as (r & -> & Hr); [lia|done|]. eexists. split; [done|].
    apply (encodes_cons [c]); [| |done].
    - case_bool_decide; [by repeat constructor|]. apply escaped_hexTable. lia.
    - intros t. case_bool_decide as Ht; [|by rewrite decode_byte by lia].
      apply (decode_plain c t). by apply plain_ordinary. }
  destruct (c <? 0x800) eqn:E2; bool_hyps.
  { replace (is_surrogate c) with false in Hs by (unfold is_surrogate; by repeat ztest). cbn in Hs.
    destruct (IH' s) as (r & -> & Hr); [lia|done|]. eexists. split; [done|].
    apply (encodes_cons [c]); [by apply Eb2| |done]. intros t. by rewrite decode_bytes2. }
  destruct (is_surrogate c) eqn:E3; cbn [negb] in *.
  - destruct s as [|u s]; [done|]. bool_hyps.
    assert (0xD800 <= c < 0xDC00) as Hc.
    { split; [|done]. unfold is_surrogate in E3. apply negb_true_iff, orb_false_iff in E3 as [? ?]. by bool_hyps. }
    destruct (IH' s) as (r & -> & Hr); [cbn; lia|done|]. eexists. split; [done|].
    apply (encodes_cons [c; u]); [| |done].
    + apply escaped_bytes. rewrite pair_point_eq by lia. lia.
    + intros t. by rewrite decode_bytes4 by lia.
  - destruct (IH' s) as (r & -> & Hr); [lia|done|]. eexists. split; [done|].
    apply (encodes_cons [c]); [by apply Eb3| |done]. intros t. by rewrite decode_bytes3.
Qed.

Lemma qsEscape_encodes s : wf16 s = true -> exists r, qsEscape (QString s) = Ok r /\ encodes s r.
Proof. intros H. unfold qsEscape. cbn [result_bind]. rewrite encodeStr_encode. by apply encode_wf16. Qed.

(** Without a percent sign, nothing was changed. *)
Lemma decode_no_percent r : 37 ∉ r -> decodeURIComponent r = Ok r.
Proof.
  induction r as [|c r IH]; [done|]. intros [H1 H2]%not_elem_of_cons.
  rewrite decode_plain by done. by rewrite IH.
Qed.

(** ** The scanner of [parse] on encoded text *)

Section Scanner.
Context (toString : Qs.buffer -> jsstr) (qs : jsstr).

Abbreviation step := (parse_step toString None qs [38] [61]).
Abbreviation loop := (parse_loop toString None qs [38] [61]).

(** Nothing but the search for encoded bytes moved, and that only forward. *)
Record only_checks (st st' : scan) : Prop := OnlyChecks {
  oc_lastPos : lastPos st' = lastPos st; oc_sepIdx : sepIdx st' = sepIdx st;
  oc_eqIdx : eqIdx st' = eqIdx st; oc_key : key st' = key st; oc_value : value st' = value st;
  oc_pairs : pairs st' = pairs st; oc_obj : obj st' = obj st;
  oc_ke : keyEncoded st = true -> keyEncoded st' = true;
  oc_ve : valEncoded st = true -> valEncoded st' = true;
}.

#[export] Instance only_checks_preorder : PreOrder only_checks.
Proof.
  split; [by intros []|]. intros s1 s2 s3 [] []. constructor; solve [congruence | auto].
Qed.

(** Scanning a key ([eqIdx] is 0) or a value ([eqIdx] is 1). *)
Definition scanning (st : scan) : Prop := sepIdx st = 0 /\ (eqIdx st = 0 \/ eqIdx st = 1).

Definition flag (st : scan) : bool := if eqIdx st =? 0 then keyEncoded st else valEncoded st.

Lemma only_checks_flag st st' : only_checks st st' -> flag st = true -> flag st' = true.
Proof. intros []. unfold flag. rewrite oc_eqIdx0. destruct (eqIdx st =? 0); auto. Qed.

Lemma only_checks_scanning st st' : only_checks st st' -> scanning st -> scanning st'.
Proof. intros [] [? ?]. split; congruence || (rewrite oc_eqIdx0; done). Qed.

(** Where an encoded byte is searched for with flag [f] and counter [ec]. *)
Definition searched (code : Z) (f f' : bool) (ec ec' : Z) : Prop :=
  f = false ->
  (code = 37 -> f' = false /\ ec' = 1) /\
  (code <> 37 -> 0 < ec -> isHex code = true -> f' = (ec + 1 =? 3) /\ ec' = ec + 1).

Lemma key_check_spec code st st' continue :
  key_check code st = (st', continue) ->
  only_checks st st' /\ (continue = true \/ keyEncoded st = true \/ code <> 37 /\ (encodeCheck st <= 0 \/ isHex code = false)) /\
  searched code (keyEncoded st) (keyEncoded st') (encodeCheck st) (encodeCheck st').
Proof.
  destruct st as [lp si ei k v ke ve ec ps o]. unfold key_check, searched. destruct ke.
  { intros [= <- <-]. split_and!; [done|cbn; auto|done]. }
  destruct (code =? 37) eqn:E37; bool_hyps.
  { intros [= <- <-]. split_and!; [done|auto|cbn; intros _; split; [done|lia]]. }
  destruct (0 <? ec) eqn:Eec; bool_hyps.
  2: { intros [= <- <-]. split_and!; [done|cbn; auto|cbn; intros _; split; lia]. }
  destruct (isHex code) eqn:Eh; intros [= <- <-]; cbn [encodeCheck keyEncoded].
  - split_and!; [done|auto|]. intros _. split; [lia|]. intros _ _ _. by destruct (ec + 1 =? 3).
  - split_and!; [done|auto|]. intros _. split; [lia|done].
Qed.

Lemma value_step_spec code i st :
  code <> 43 -> let st' := value_step None qs code i st in
  only_checks st st' /\ keyEncoded st' = keyEncoded st /\
  searched code (valEncoded st) (valEncoded st') (encodeCheck st) (encodeCheck st').
Proof.
  intros H43%Z.eqb_neq. destruct st as [lp si ei k v ke ve ec ps o]. unfold value_step, searched.
  rewrite H43. destruct ve; cbn [negb]; [done|].
  destruct (code =? 37) eqn:E37; bool_hyps.
  { split_and!; [done|done|cbn; intros _; split; [done|lia]]. }
  destruct (0 <? ec) eqn:Eec; bool_hyps.
  2: { split_and!; [done|done|cbn; intros _; split; lia]. }
  destruct (isHex code) eqn:Eh; cbn [encodeCheck valEncoded keyEncoded].
  - split_and!; [done|done|]. intros _. split; [lia|]. intros _ _ _. by destruct (ec + 1 =? 3).
  - split_and!; [done|done|]. intros _. split; [lia|done].
Qed.

(** One character that is no separator and no plus sign. *)
Lemma step_ordinary code i st :
  scanning st -> code <> 38 -> code <> 61 -> code <> 43 ->
  exists st', step code i st = inl st' /\ only_checks st st' /\
    searched code (flag st) (flag st') (encodeCheck st) (encodeCheck st').
Proof.
  intros [Hsi Hei] H38 H61 H43. destruct st as [lp si ei k v ke ve ec ps o]. cbn in Hsi, Hei. subst si.
  unfold parse_step. change (table_get [38] 0) with (Some 38).
  rewrite bool_decide_eq_false_2 by congruence.
  apply Z.eqb_neq in H43 as E43. destruct Hei as [-> | ->].
  - change (0 <? eqLen [61]) with true. change (table_get [61] 0) with (Some 61). cbv iota.
    rewrite bool_decide_eq_false_2 by congruence. set (st := Scan lp 0 0 k v ke ve ec ps o).
    destruct (key_check code st) as [st1 continue] eqn:Ek.
    apply key_check_spec in Ek as (Hc & Hcont & Hs). rewrite E43.
    assert (flag st = keyEncoded st /\ flag st1 = keyEncoded st1) as [Ef Ef1].
    { unfold flag. by rewrite (oc_eqIdx _ _ Hc). }
    destruct continue.
    + exists st1. split_and!; [done..|]. by rewrite Ef, Ef1.
    + destruct (value_step_spec code i st1 H43) as (Hv & Hk & _).
      assert (flag (value_step None qs code i st1) = keyEncoded (value_step None qs code i st1)) as Ef2.
      { unfold flag. by rewrite (oc_eqIdx _ _ Hv), (oc_eqIdx _ _ Hc). }
      eexists. split_and!; [done|by etrans|]. rewrite Ef, Ef2, Hk.
      intros Hke. destruct Hcont as [?|[?|[? Hh]]]; [done|congruence|]. split; [done|].
      intros _ Hpos Hhex. destruct Hh; [lia|congruence].
  - change (1 <? eqLen [61]) with false. cbv iota.
    destruct (value_step_spec code i (Scan lp 0 1 k v ke ve ec ps o) H43) as (Hv & _ & Hs).
    eexists. split_and!; [done|done|]. unfold flag at 2. by rewrite (oc_eqIdx _ _ Hv).
Qed.

(** Encoded text: scanned to its end; a percent sign in it is noticed. *)
Lemma loop_escaped t : escaped t -> forall rest i st, scanning st ->
  exists st', loop (t ++ rest) i st = loop rest (i + len t) st' /\ only_checks st st' /\
    (37 ∈ t -> flag st' = true).
Proof.
  induction 1 as [|c t Hc _ IH|h l t Hh Hl _ IH]; intros rest i st Hst.
  - exists st. rewrite Z.add_0_r. split_and!; [done..|]. by intros ?%elem_of_nil.
  - destruct (plain_ordinary c Hc) as (H37 & H38 & H43 & H61 & _).
    destruct (step_ordinary c i st Hst H38 H61 H43) as (st1 & E & O1 & _).
    destruct (IH rest (i + 1) st1 (only_checks_scanning _ _ O1 Hst)) as (st2 & E2 & O2 & F2).
    exists st2. cbn [app parse_loop]. rewrite E, E2.
    replace (i + 1 + len t) with (i + len (c :: t)) by len_lia.
    split_and!; [done|by etrans|]. intros [?|?]%elem_of_cons; [congruence|auto].
  - destruct (hex_ordinary h Hh) as (Hh37 & Hh38 & Hh43 & Hh61), (hex_ordinary l Hl) as (Hl37 & Hl38 & Hl43 & Hl61).
    destruct (step_ordinary 37 i st Hst) as (st1 & E1 & O1 & S1); [done..|].
    pose proof (only_checks_scanning _ _ O1 Hst) as Hst1.
    destruct (step_ordinary h (i + 1) st1 Hst1) as (st2 & E2 & O2 & S2); [done..|].
    pose proof (only_checks_scanning _ _ O2 Hst1) as Hst2.
    destruct (step_ordinary l (i + 1 + 1) st2 Hst2) as (st3 & E3 & O3 & S3); [done..|].
    destruct (IH rest (i + 1 + 1 + 1) st3 (only_checks_scanning _ _ O3 Hst2)) as (st4 & E4 & O4 & _).
    exists st4. cbn [app parse_loop]. rewrite E1, E2, E3, E4.
    replace (i + 1 + 1 + 1 + len t) with (i + len (37 :: h :: l :: t)) by len_lia.
    split_and!; [done|by etrans; [|etrans; [|etrans]]|]. intros _.
    apply (only_checks_flag _ _ O4).
    destruct (flag st) eqn:F; [by apply (only_checks_flag _ _ O3), (only_checks_flag _ _ O2), (only_checks_flag _ _ O1)|].
    destruct (proj1 (S1 eq_refl) eq_refl) as [F1 C1].
    destruct (proj2 (S2 F1) Hh37 ltac:(lia) Hh) as [F2 C2]. rewrite C1 in F2, C2.
    destruct (proj2 (S3 F2) Hl37 ltac:(lia) Hl) as [F3 _]. by rewrite F3, C2.
Qed.

(** *** Pairs *)

(** One more value for a key. *)
Definition put (o : parsed_obj) (kv : jsstr * jsstr) : parsed_obj :=
  obj_update kv.1 (fun cur =>
    match cur with
    | None => PStr kv.2
    | Some (PArr l) => PArr (l ++ [kv.2])
    | Some (PStr s) => PArr [s; kv.2]
    end) o.

Lemma decoded_text k ek ke :
  encodes k ek -> (37 ∈ ek -> ke = true) ->
  (if (0 <? len ek) && ke then decodeStr toString None ek else ek) = k.
Proof.
  intros [_ Hd] Hf. destruct ((0 <? len ek) && ke) eqn:E.
  - unfold decodeStr, qsUnescape. by rewrite Hd.
  - assert (37 ∉ ek) as Hn.
    { intros Hin. rewrite (Hf Hin), andb_true_r in E. bool_hyps.
      destruct ek; [by apply elem_of_nil in Hin|len_lia]. }
    rewrite decode_no_percent in Hd by done. by injection Hd as ->.
Qed.

Lemma addKeyVal_put o k v ek ev ke ve :
  encodes k ek -> encodes v ev -> (37 ∈ ek -> ke = true) -> (37 ∈ ev -> ve = true) ->
  addKeyVal toString None o ek ev ke ve = put o (k, v).
Proof. intros. unfold addKeyVal. by rewrite (decoded_text k), (decoded_text v). Qed.

(** The text between [lastPos] and the current index, if any. *)
Lemma pending_slice pre t rest :
  qs = pre ++ t ++ rest ->
  (if len pre <? len pre + len t then slice qs (len pre) (len pre + len t) else []) = t.
Proof.
  intros ->. destruct (len pre <? _) eqn:E; [by apply slice_mid|]. bool_hyps.
  symmetry. apply len_zero. len_lia.
Qed.

Lemma loop_pair pre ek ev rest k v ps o :
  qs = pre ++ (ek ++ 61 :: ev) ++ rest -> encodes k ek -> encodes v ev ->
  exists ke ve ec, (37 ∈ ek -> ke = true) /\ (37 ∈ ev -> ve = true) /\
    loop ((ek ++ 61 :: ev) ++ rest) (len pre) (Scan (len pre) 0 0 [] [] false false 0 ps o)
    = loop rest (len (pre ++ ek ++ [61]) + len ev)
        (Scan (len (pre ++ ek ++ [61])) 0 1 ek [] ke ve ec ps o).
Proof.
  intros Hq [Ek _] [Ev _]. rewrite <- app_assoc. cbn [app].
  destruct (loop_escaped ek Ek (61 :: ev ++ rest) (len pre) (Scan (len pre) 0 0 [] [] false false 0 ps o))
    as (st1 & -> & [] & F1); [by repeat split; left|].
  destruct st1 as [lp si ei key1 val1 ke ve ec ps1 o1].
  cbn [lastPos sepIdx eqIdx key value pairs obj] in *. subst lp si ei key1 val1 ps1 o1.
  cbn [parse_loop parse_step]. change (table_get [38] 0) with (Some 38).
  rewrite bool_decide_eq_false_2 by done. change (0 <? eqLen [61]) with true.
  change (table_get [61] 0) with (Some 61). rewrite bool_decide_eq_true_2 by done.
  change (0 + 1 =? eqLen [61]) with true. cbv iota zeta.
  replace (len pre + len ek - (0 + 1) + 1) with (len pre + len ek) by lia.
  rewrite (app_nil_l (slice qs (len pre) (len pre + len ek))).
  rewrite (pending_slice pre ek (61 :: ev ++ rest)) by (rewrite Hq, <- app_assoc; done).
  replace (len pre + len ek + 1) with (len (pre ++ ek ++ [61])) by len_lia.
  set (lp := len (pre ++ ek ++ [61])). change (0 + 1) with 1.
  destruct (loop_escaped ev Ev rest lp (Scan lp 0 1 ek [] ke ve 0 ps o))
    as (st2 & -> & [] & F2); [by repeat split; right|].
  destruct st2 as [lp2 si2 ei2 key2 val2 ke2 ve2 ec2 ps2 o2].
  cbn [lastPos sepIdx eqIdx key value pairs obj] in *. subst lp2 si2 ei2 key2 val2 ps2 o2.
  exists ke2, ve2, ec2. split_and!; auto.
Qed.

Definition pair_text (e : jsstr * jsstr) : jsstr := e.1 ++ 61 :: e.2.
Definition text (l : list (jsstr * jsstr)) : jsstr := JsString.join "&" (pair_text <$> l).

Definition finish (r : scan + parsed_obj) : parsed_obj :=
  match r with inl st => parse_end toString None qs [38] [61] st | inr o => o end.

Lemma loop_text kvs l :
  Forall2 (fun kv e => encodes kv.1 e.1 /\ encodes kv.2 e.2) kvs l ->
  forall pre ps o, l <> [] -> qs = pre ++ text l -> ps < 0 \/ Z.of_nat (length l) <= ps ->
  finish (loop (text l) (len pre) (Scan (len pre) 0 0 [] [] false false 0 ps o)) = foldl put o kvs.
Proof.
  induction 1 as [|[k v] [ek ev] kvs l [Hk Hv] HF IH]; intros pre ps o Hne Hq Hps; [done|]. cbn in Hk, Hv.
  assert (exists rest, text ((ek, ev) :: l) = (ek ++ 61 :: ev) ++ rest /\
            ((l = [] /\ rest = []) \/ (l <> [] /\ rest = 38 :: text l))) as (rest & Et & Hrest).
  { destruct l as [|e l]; [exists []; rewrite app_nil_r; auto|]. eexists. split; [done|]. by right. }
  rewrite Et in Hq |- *. destruct (loop_pair pre ek ev rest k v ps o Hq Hk Hv) as (ke & ve & ec & Fk & Fv & ->).
  set (lp := len (pre ++ ek ++ [61])).
  assert (qs = (pre ++ ek ++ [61]) ++ ev ++ rest) as Hq' by (rewrite Hq, <- !app_assoc; done).
  pose proof (pending_slice _ _ _ Hq') as Hp. fold lp in Hp.
  destruct Hrest as [[-> ->]|[Hl ->]].
  - inversion HF; subst kvs. cbn [parse_loop finish parse_end foldl].
    change (1 <? eqLen [61]) with false. change (0 <? sepLen [38]) with true. change (1 =? 0) with false.
    cbn [negb andb]. assert (len qs = lp + len ev) as Hlen.
    { rewrite Hq'. unfold lp. len_lia. }
    rewrite Hlen. destruct (lp <? lp + len ev) eqn:E.
    + unfold slice_from. rewrite Hlen. rewrite Hp. by apply addKeyVal_put.
    + rewrite Hp. by apply addKeyVal_put.
  - cbn [parse_loop parse_step]. change (table_get [38] 0) with (Some 38).
    rewrite bool_decide_eq_true_2 by done. change (0 + 1 =? sepLen [38]) with true. cbv iota.
    unfold separator_step. change (1 <? eqLen [61]) with false. cbn [andb negb].
    replace (lp + len ev - (0 + 1) + 1) with (lp + len ev) by lia.
    rewrite (app_nil_l (slice qs lp (lp + len ev))), Hp, (addKeyVal_put o k v) by done.
    assert ((ps - 1 =? 0) = false) as ->.
    { apply Z.eqb_neq. destruct l; [done|]. cbn [length] in Hps. lia. }
    change (customDecode None) with false.
    replace (lp + len ev + 1) with (len (pre ++ (ek ++ 61 :: ev) ++ [38])) by (unfold lp; len_lia).
    apply (IH (pre ++ (ek ++ 61 :: ev) ++ [38])); [done| |cbn [length] in Hps; lia].
    rewrite Hq, <- !app_assoc. done.
Qed.
End Scanner.

(** ** [stringify] writes pairs *)

(** Values whose text survives: well-formed strings; numbers print in the
    characters that need no escape, or are escaped. *)
Definition clean_val (v : qsval) : Prop :=
  match v with
  | QString s => wf16 s = true
  | QNumber true true text | QBigInt text => Forall plain text
  | QNumber true false text => wf16 text = true
  | _ => True
  end.

Definition values (p : property) : list qsval := match p with Single v => [v] | Many vs => vs end.

Definition clean (kp : jsstr * property) : Prop := wf16 kp.1 = true /\ Forall clean_val (values kp.2).

(** The pairs of an object, in the order they are written. *)
Definition key_pairs (kp : jsstr * property) : list (jsstr * jsstr) :=
  (fun v => (kp.1, stringifyPrimitive v)) <$> values kp.2.
Definition all_pairs (obj : list (jsstr * property)) : list (jsstr * jsstr) := obj ≫= key_pairs.

Lemma encodes_plain t : Forall plain t -> encodes t t.
Proof.
  intros H. split; [induction H; [constructor|by apply esc_plain]|]. apply decode_no_percent. intros Hin.
  rewrite Forall_forall in H. by destruct (plain_ordinary 37 (H 37 Hin)).
Qed.

Abbreviation default_convert := (fun v => encodeStringified v qsEscape).

Lemma convert_encodes v :
  clean_val v -> exists e, default_convert v = Ok e /\ encodes (stringifyPrimitive v) e.
Proof.
  destruct v as [s|[] [] t|t|[]|r]; cbn [clean_val encodeStringified stringifyPrimitive]; intros H.
  2,6: by eexists; split; [done|]; apply encodes_plain.
  3,4,7: by exists []; repeat constructor.
  - rewrite len_eqb_zero. case_bool_decide; cbn [negb]; [subst; exists []; by repeat constructor|].
    by apply qsEscape_encodes.
  - by apply qsEscape_encodes.
  - exists "true". split; [done|]. apply encodes_plain. by repeat constructor.
  - exists "false". split; [done|]. apply encodes_plain. by repeat constructor.
Qed.

Abbreviation pairs_encode := (Forall2 (fun kv e => encodes kv.1 e.1 /\ encodes kv.2 e.2)).

Lemma text_nil l : text l = [] -> l = [].
Proof. destruct l as [|[k v] [|]]; [done|..]; unfold text, pair_text; cbn; by destruct k. Qed.

Lemma text_snoc l e : text (l ++ [e]) = (if bool_decide (text l = []) then text l else text l ++ "&") ++ pair_text e.
Proof.
  unfold text. rewrite fmap_app. cbn [fmap list_fmap]. rewrite join_snoc.
  destruct l as [|e' l]; [done|]. rewrite bool_decide_eq_false_2 by (by intros ?%(text_nil (e' :: l))).
  by rewrite <- app_assoc.
Qed.

Lemma stringify_more_text k ek vs :
  encodes k ek -> Forall clean_val vs -> forall l, l <> [] ->
  exists es, stringify_more default_convert "&" (ek ++ "=") vs (text l) = Ok (text (l ++ es)) /\
    pairs_encode ((fun v => (k, stringifyPrimitive v)) <$> vs) es.
Proof.
  intros Hk. induction 1 as [|v vs Hv _ IH]; intros l Hl; cbn [stringify_more].
  { exists []. rewrite app_nil_r. by repeat constructor. }
  destruct (convert_encodes v Hv) as (e & -> & He). cbn [result_bind].
  destruct (IH (l ++ [(ek, e)])) as (es & IHe & IHf); [by destruct l|].
  rewrite text_snoc, bool_decide_eq_false_2 in IHe by (by intros ?%text_nil).
  exists ((ek, e) :: es). split; [|by constructor].
  replace (l ++ (ek, e) :: es) with ((l ++ [(ek, e)]) ++ es) by by rewrite <- app_assoc.
  rewrite <- IHe. f_equal. unfold pair_text. cbn [fst snd]. by rewrite <- !app_assoc.
Qed.

Lemma stringify_fields_text obj :
  Forall clean obj -> forall l,
  exists es, stringify_fields default_convert "&" "=" obj (text l) = Ok (text (l ++ es)) /\
    pairs_encode (all_pairs obj) es.
Proof.
  induction 1 as [|[k p] obj [Hk Hp] _ IH]; intros l; cbn [stringify_fields].
  { exists []. rewrite app_nil_r. by repeat constructor. }
  cbn [fst snd] in Hk, Hp. destruct (convert_encodes (QString k) Hk) as (ek & -> & Hek). cbn [result_bind].
  (** A first value, then the others, then the other properties. *)
  assert (forall v vs, values p = v :: vs -> exists es,
    (let* x := default_convert v in
     let* fields := stringify_more default_convert "&" (ek ++ "=") vs
       ((if bool_decide (text l = []) then text l else text l ++ "&") ++ (ek ++ "=") ++ x) in
     stringify_fields default_convert "&" "=" obj fields) = Ok (text (l ++ es)) /\
    pairs_encode (all_pairs ((k, p) :: obj)) es) as Hmany.
  { intros v vs Ev. rewrite Ev in Hp. apply Forall_cons in Hp as [Hv Hvs].
    destruct (convert_encodes v Hv) as (e & -> & He). cbn [result_bind].
    destruct (stringify_more_text k ek vs Hek Hvs (l ++ [(ek, e)])) as (es1 & E1 & F1); [by destruct l|].
    rewrite text_snoc in E1. unfold pair_text in E1. cbn [fst snd] in E1.
    rewrite <- app_assoc. change ("=" ++ e) with (61 :: e). rewrite E1. cbn [result_bind].
    destruct (IH ((l ++ [(ek, e)]) ++ es1)) as (es2 & -> & F2). exists ((ek, e) :: es1 ++ es2).
    split; [by rewrite <- !app_assoc|]. unfold all_pairs, key_pairs. cbn [mbind list_bind fst snd].
    rewrite Ev. cbn [fmap list_fmap app]. constructor; [done|]. by apply Forall2_app. }
  destruct p as [v|[|v vs]].
  - apply (Hmany v []). done.
  - destruct (IH l) as (es & -> & F). by exists es.
  - apply (Hmany v vs). done.
Qed.

(** ** Collecting pairs *)

(** What [parse] returns for the pairs of one key. *)
Definition collected (kp : jsstr * property) : list (jsstr * parsed) :=
  match stringifyPrimitive <$> values kp.2 with
  | [] => []
  | [s] => [(kp.1, PStr s)]
  | l => [(kp.1, PArr l)]
  end.

Definition collect (obj : list (jsstr * property)) : parsed_obj := obj ≫= collected.

Lemma obj_update_new k f o : k ∉ o.*1 -> obj_update k f o = o ++ [(k, f None)].
Proof.
  induction o as [|[k' v] o IH]; [done|]. cbn. intros [H1 H2]%not_elem_of_cons.
  rewrite decide_False by done. by rewrite IH.
Qed.

Lemma obj_update_last k f o v : k ∉ o.*1 -> obj_update k f (o ++ [(k, v)]) = o ++ [(k, f (Some v))].
Proof.
  induction o as [|[k' v'] o IH]; cbn; [by rewrite decide_True|]. intros [H1 H2]%not_elem_of_cons.
  rewrite decide_False by done. by rewrite IH.
Qed.

Lemma put_array k o vs l : k ∉ o.*1 ->
  foldl put (o ++ [(k, PArr l)]) ((fun v => (k, v)) <$> vs) = o ++ [(k, PArr (l ++ vs))].
Proof.
  intros Hk. revert l. induction vs as [|v vs IH]; intros l; cbn [fmap list_fmap foldl]; [by rewrite app_nil_r|].
  unfold put at 2. cbn [fst snd]. rewrite obj_update_last by done. rewrite IH. by rewrite <- app_assoc.
Qed.

Lemma put_key kp o : kp.1 ∉ o.*1 -> foldl put o (key_pairs kp) = o ++ collected kp.
Proof.
  intros Hk. unfold key_pairs, collected. set (k := kp.1) in *.
  replace ((fun v => (k, stringifyPrimitive v)) <$> values kp.2)
    with ((fun s => (k, s)) <$> (stringifyPrimitive <$> values kp.2)) by by rewrite <- list_fmap_compose.
  destruct (stringifyPrimitive <$> values kp.2) as [|s1 [|s2 l]]; cbn [fmap list_fmap foldl].
  - by rewrite app_nil_r.
  - unfold put. cbn [fst snd]. by rewrite obj_update_new.
  - assert (put o (k, s1) = o ++ [(k, PStr s1)]) as -> by (unfold put; cbn [fst snd]; by rewrite obj_update_new).
    assert (put (o ++ [(k, PStr s1)]) (k, s2) = o ++ [(k, PArr [s1; s2])]) as ->
      by (unfold put; cbn [fst snd]; by rewrite obj_update_last).
    by rewrite put_array.
Qed.

Lemma put_all obj : forall o, NoDup (o.*1 ++ obj.*1) ->
  foldl put o (all_pairs obj) = o ++ collect obj.
Proof.
  induction obj as [|kp obj IH]; intros o HN; [by rewrite app_nil_r|].
  unfold all_pairs. cbn [mbind list_bind]. rewrite foldl_app. cbn [fmap list_fmap] in HN.
  apply NoDup_app in HN as (N1 & N2 & N3). apply NoDup_cons in N3 as [N3 N4].
  rewrite put_key by (intros Hin; apply (N2 _ Hin); by left).
  assert ((collected kp).*1 = [] \/ (collected kp).*1 = [kp.1]) as Hc.
  { unfold collected. destruct (stringifyPrimitive <$> values kp.2) as [|? [|]]; auto. }
  fold (all_pairs obj). rewrite IH; [by rewrite <- app_assoc|]. rewrite fmap_app.
  apply NoDup_app. split_and!; [|..|done].
  - destruct Hc as [-> | ->]; [by rewrite app_nil_r|]. apply NoDup_app. split_and!; [done| |apply NoDup_singleton].
    intros x Hx Hk. apply list_elem_of_singleton in Hk as ->. apply (N2 _ Hx). by left.
  - intros x [Hx|Hx]%elem_of_app Hin; [apply (N2 x Hx); by right|].
    destruct Hc as [Hc|Hc]; rewrite Hc in Hx; [by apply elem_of_nil in Hx|].
    apply list_elem_of_singleton in Hx as ->. done.
Qed.

(** ** Unescaping *)

(** What [unescapeBuffer] decodes, byte by byte. *)
Fixpoint unescape_bytes (decodeSpaces : bool) (s : jsstr) : list Z :=
  match s with
  | [] => []
  | c :: s1 =>
      if (c =? 43) && decodeSpaces then 32 :: unescape_bytes decodeSpaces s1
      else if c =? 37 then
        match s1 with
        | h :: l :: s2 =>
            match octet h l with
            | Some b => b :: unescape_bytes decodeSpaces s2
            | None => 37 :: unescape_bytes decodeSpaces s1
            end
        | _ => 37 :: unescape_bytes decodeSpaces s1
        end
      else c :: unescape_bytes decodeSpaces s1
  end.

Definition byte (b : Z) : option Z := Some (b mod 256).

Lemma buf_set_next w m x i :
  i = len w -> buf_set ((byte <$> w) ++ replicate (S m) None) i x = (byte <$> (w ++ [x])) ++ replicate m None.
Proof.
  intros ->. unfold buf_set, len. rewrite Nat2Z.id, fmap_app, <- app_assoc. cbn [replicate].
  rewrite insert_app_r_alt by (by rewrite length_fmap). by rewrite length_fmap, Nat.sub_diag.
Qed.

Lemma buf_set_within w b n :
  (length w < n)%nat ->
  buf_set ((byte <$> w) ++ replicate (n - length w) None) (len w) b
  = (byte <$> (w ++ [b])) ++ replicate (n - length (w ++ [b])) None.
Proof.
  intros Hn. replace (n - length w)%nat with (S (n - length (w ++ [b])))
    by (rewrite length_app; cbn; lia).
  by apply buf_set_next.
Qed.

Lemma charCodeAt_next2 s pre c h l rest :
  s = pre ++ c :: h :: l :: rest ->
  charCodeAt s (len pre + 1) = Some h /\ charCodeAt s (len pre + 2) = Some l.
Proof.
  intros Hs. split; rewrite Hs, charCodeAt_app_r by lia;
    [by replace (len pre + 1 - len pre) with 1 by lia|].
  by replace (len pre + 2 - len pre) with 2 by lia.
Qed.

Lemma unescape_loop_spec s sp : forall n pre rest w hasHex,
  s = pre ++ rest -> (length rest <= n)%nat -> (length w <= length pre)%nat ->
  (hasHex = false -> length w = length pre) ->
  let r := w ++ unescape_bytes sp rest in
  exists hasHex', (length r <= length s)%nat /\ (hasHex' = false -> length r = length s) /\
    unescape_loop s sp n (len pre) (len w) ((byte <$> w) ++ replicate (length s - length w) None) hasHex
    = ((byte <$> r) ++ replicate (length s - length r) None, len r, hasHex').
Proof.
  induction n as [|n IH]; intros pre rest w hasHex Hs Hn Hw Hh.
  { destruct rest; [|cbn in Hn; lia]. cbn. rewrite app_nil_r in *. subst pre. exists hasHex. auto. }
  destruct rest as [|c rest].
  { cbn [unescape_loop unescape_bytes]. rewrite !app_nil_r in *. subst pre. rewrite charCodeAt_ge by lia.
    exists hasHex. auto. }
  assert (length s = length pre + S (length rest))%nat as Hl by (rewrite Hs, length_app; done).
  assert (charCodeAt s (len pre) = Some c) as Hc by (rewrite Hs; by apply charCodeAt_app_mid).
  cbn [unescape_loop]. rewrite Hc.
  (** [x] is read, [b] is written. *)
  assert (forall x rest' b hh, c :: rest = x ++ rest' -> (0 < length b <= length x)%nat ->
    (hh = false -> hasHex = false /\ length b = length x) -> unescape_bytes sp (c :: rest) = b ++ unescape_bytes sp rest' ->
    let r := w ++ unescape_bytes sp (c :: rest) in
    exists hasHex', (length r <= length s)%nat /\ (hasHex' = false -> length r = length s) /\
    unescape_loop s sp n (len pre + len x) (len w + len b)
      ((byte <$> (w ++ b)) ++ replicate (length s - length (w ++ b)) None) hh
    = ((byte <$> r) ++ replicate (length s - length r) None, len r, hasHex')) as Hnext.
  { intros x rest' b hh Hx Hb Hhh Hu. pose proof (f_equal length Hx) as Hlx. rewrite length_app in Hlx. cbn in Hlx, Hn.
    rewrite Hu, app_assoc. replace (len pre + len x) with (len (pre ++ x)) by len_lia.
    replace (len w + len b) with (len (w ++ b)) by len_lia.
    apply IH; rewrite ?length_app; [by rewrite Hs, Hx, app_assoc|lia|lia|]. intros [? ?]%Hhh. rewrite Hh by done. lia. }
  assert (length w < length s)%nat as Hroom by lia. rewrite !buf_set_within by done. cbn [unescape_bytes] in Hnext |- *. destruct ((c =? 43) && sp) eqn:E1.
  { apply (Hnext [c] rest [32]); [done|cbn; lia|done|done]. }
  destruct (c =? 37) eqn:E2; cbn [andb]; [|by apply (Hnext [c] rest [c]); [|cbn; lia|..]].
  assert (c = 37) as -> by by bool_hyps.
  destruct (len pre <? len s - 2) eqn:E3; bool_hyps.
  2: { assert (length rest < 2)%nat by (unfold len in E3; lia).
       destruct rest as [|h [|]]; [apply (Hnext [37] [] [37])|apply (Hnext [37] [h] [37])|cbn in *; lia];
         done || (cbn; lia). }
  destruct rest as [|h [|l rest]]; [cbn in Hl; unfold len in E3; lia..|].
  destruct (charCodeAt_next2 s pre 37 h l rest Hs) as [-> ->].
  unfold octet in Hnext |- *. destruct (unhex (Some h)) as [a|] eqn:Eh; [|by apply (Hnext [37] (h :: l :: rest) [37]); [|cbn; lia|..]].
  destruct (unhex (Some l)) as [b|] eqn:El; rewrite ?buf_set_within by done;
    [by apply (Hnext [37; h; l] rest [a * 16 + b]); [|cbn; lia|..]|].
  assert (h <> 43 /\ h <> 37) as [H43%Z.eqb_neq H37%Z.eqb_neq] by (split; intros ->; discriminate Eh).
  cbn [default]. replace (len w + 1) with (len (w ++ [37])) by len_lia.
  rewrite buf_set_within by (rewrite length_app; cbn in *; lia). rewrite <- app_assoc. cbn [app].
  apply (Hnext [37; h] (l :: rest) [37; h]); [done|cbn; lia|done|]. cbn [unescape_bytes app]. by rewrite H43, H37.
Qed.

Lemma unescapeBuffer_spec s sp : unescapeBuffer s sp = byte <$> unescape_bytes sp s.
Proof.
  unfold unescapeBuffer.
  destruct (unescape_loop_spec s sp (length s) [] s [] false eq_refl) as (hh & H1 & H2 & H3);
    [done..|]. cbn [app fmap list_fmap] in H1, H2, H3. rewrite Nat.sub_0_r in H3.
  change (len []) with 0 in H3. rewrite H3. destruct hh.
  - unfold len. rewrite Nat2Z.id. apply take_app_exact. by rewrite length_fmap.
  - rewrite H2, Nat.sub_diag by done. apply app_nil_r.
Qed.

(** ** How much [parse] returns *)

Fixpoint count (o : parsed_obj) : Z :=
  match o with
  | [] => 0
  | (_, PStr _) :: o => 1 + count o
  | (_, PArr l) :: o => Z.of_nat (length l) + count o
  end.

Lemma count_put o kv : count (put o kv) = count o + 1.
Proof.
  unfold put. induction o as [|[k p] o IH]; [done|]. cbn [obj_update]. case_decide; cbn [count].
  - destruct p as [s|l]; cbn; [lia|]. rewrite length_app. cbn. lia.
  - destruct p; rewrite IH; lia.
Qed.

Lemma count_addKeyVal toString custom o k v ke ve :
  count (addKeyVal toString custom o k v ke ve) = count o + 1.
Proof.
  assert (exists k' v', addKeyVal toString custom o k v ke ve = put o (k', v')) as (k' & v' & ->)
    by by eexists _, _.
  apply count_put.
Qed.

Section Bound.
Context (toString : list (option Z) -> jsstr) (custom : option (jsstr -> result jsstr)).
Context (qs sepCodes eqCodes : list Z) (most : Z).

Definition within (st : scan) : Prop := 0 < pairs st /\ count (obj st) + pairs st <= most.

Definition step_within (r : scan + parsed_obj) : Prop :=
  match r with inl st => within st | inr o => count o <= most end.

Lemma separator_within i st : within st -> step_within (separator_step toString custom qs eqCodes i st).
Proof.
  destruct st as [lp si ei k v ke ve ec ps o]. unfold within. cbn [pairs obj]. intros [H1 H2].
  unfold separator_step. destruct (_ && _ && _).
  - destruct (ps - 1 =? 0) eqn:E; bool_hyps; cbn; [lia|]. unfold within. cbn. lia.
  - destruct (ps - 1 =? 0) eqn:E; bool_hyps; cbn; [|unfold within; cbn]; rewrite count_addKeyVal; lia.
Qed.

Lemma value_within code i st : within st -> within (value_step custom qs code i st).
Proof. destruct st. unfold value_step. by repeat case_step. Qed.

Lemma step_within_ok code i st : within st -> step_within (parse_step toString custom qs sepCodes eqCodes code i st).
Proof.
  destruct st as [lp si ei k v ke ve ec ps o]. intros H. unfold parse_step.
  destruct (bool_decide _); [destruct (_ =? _); [by apply separator_within|done]|].
  destruct (ei <? eqLen eqCodes); [|by apply value_within].
  destruct (bool_decide _); [by destruct (_ =? _)|].
  destruct (key_check code _) as [st1 continue] eqn:E.
  assert (within st1) as H1 by (apply key_check_spec in E as [[] _]; unfold within in *; cbn in *; congruence).
  destruct continue; [done|]. destruct (code =? 43); [done|]. by apply value_within.
Qed.

Lemma loop_within rest : forall i st, within st -> step_within (parse_loop toString custom qs sepCodes eqCodes rest i st).
Proof.
  induction rest as [|code rest IH]; intros i st H; [done|]. cbn [parse_loop].
  pose proof (step_within_ok code i st H). by destruct (parse_step _ _ _ _ _ _ _ _); [apply IH|].
Qed.

Lemma end_within st : within st -> count (parse_end toString custom qs sepCodes eqCodes st) <= most.
Proof.
  destruct st as [lp si ei k v ke ve ec ps o]. unfold within. cbn [pairs obj]. intros [H1 H2]. unfold parse_end.
  destruct (lp <? len qs); [rewrite count_addKeyVal; lia|]. destruct (_ && _); [lia|]. rewrite count_addKeyVal. lia.
Qed.
End Bound.

(** ** Theorems *)

(** C38. [parse] inverts [stringify]: for an object whose keys and strings are
    well-formed UTF-16, [stringify] succeeds, and [parse] of its text gives
    every key its values back, as strings and in order (an array of one value
    comes back as that value, an empty one not at all), as long as [maxKeys]
    admits that many pairs. *)
Theorem qs_parse_stringify_roundtrip toString obj maxKeys :
  NoDup obj.*1 -> Forall clean obj ->
  max_pairs maxKeys < 0 \/ Z.of_nat (length (all_pairs obj)) <= max_pairs maxKeys ->
  exists qs, stringify (Some obj) None None None = Ok qs /\
    parse toString (Some qs) None None maxKeys None = collect obj.
Proof.
  intros HN HC HM. destruct (stringify_fields_text obj HC []) as (es & Es & HF).
  exists (text es). split; [exact Es|]. pose proof (put_all obj [] HN) as Hp. cbn [app] in Hp. rewrite <- Hp. clear Hp.
  destruct es as [|e es]; [by inversion HF|]. rewrite (Forall2_length _ _ _ HF) in HM.
  pose proof (loop_text toString (text (e :: es)) (all_pairs obj) (e :: es) HF [] (max_pairs maxKeys) []
    ltac:(done) eq_refl HM) as H.
  unfold parse. destruct (text (e :: es)) as [|c t] eqn:Et; [by apply text_nil in Et|]. exact H.
Qed.

Definition demo_obj : list (jsstr * property) :=
  [("a b", Single (QString "1&2")); ([233; 0xD83D; 0xDE00], Many [QBool true; QString []]); ("e", Many [])].

Lemma qs_parse_stringify_roundtrip_witness :
  exists qs, stringify (Some demo_obj) None None None = Ok qs /\
    parse (fun _ => []) (Some qs) None None None None
    = [("a b", PStr "1&2"); ([233; 0xD83D; 0xDE00], PArr ["true"; []])].
Proof.
  apply (qs_parse_stringify_roundtrip (fun _ => []) demo_obj None).
  - apply NoDup_ListNoDup. repeat constructor; cbn; intuition discriminate.
  - by repeat constructor.
  - right. vm_compute. discriminate.
Defined.

(** [unescapeBuffer] returns exactly the bytes its input denotes, each
    percent sequence decoded and nothing else: in particular no byte of the
    uninitialised memory [Buffer.allocUnsafe] hands out is ever returned,
    whether or not the result is cut to the part written. *)
Theorem qs_unescapeBuffer_only_written s decodeSpaces :
  unescapeBuffer s decodeSpaces = (fun b => Some (b mod 256)) <$> unescape_bytes decodeSpaces s.
Proof. apply unescapeBuffer_spec. Qed.

(** [maxKeys] bounds the work: whatever the text, the separators and the
    decoder, [parse] returns at most [maxKeys] values in all (1000 when it is
    not given), counting each element of an array. *)
Theorem qs_parse_bounded toString qs sep eq maxKeys custom :
  0 < max_pairs maxKeys ->
  count (parse toString qs sep eq maxKeys custom) <= max_pairs maxKeys.
Proof.
  intros Hm. unfold parse. destruct qs as [[|c qs]|]; [cbn; lia| |cbn; lia].
  set (sepCodes := match sep with Some (_ :: _) => _ | _ => _ end).
  set (eqCodes := match eq with Some (_ :: _) => _ | _ => _ end).
  set (st := Scan _ _ _ _ _ _ _ _ _ _).
  assert (within (max_pairs maxKeys) st) as Hst by (split; cbn; lia).
  pose proof (loop_within toString custom (c :: qs) sepCodes eqCodes _ (c :: qs) 0 st Hst) as H.
  destruct (parse_loop _ _ _ _ _ _ _ _); [by apply end_within|done].
Qed.

Lemma qs_parse_bounded_witness :
  count (parse (fun _ => []) (Some "a=1&b=2&c=3") None None (Some 2) None) <= 2.
Proof. apply (qs_parse_bounded (fun _ => []) (Some ("a=1&b=2&c=3" : jsstr)) None None (Some 2) None). reflexivity. Defined.

(** Two encoded bytes in a key mark the value as encoded: a value with a stray
    percent sign is then pushed through [unescapeBuffer], which keeps one byte
    of every code unit, although it is returned unchanged otherwise. *)
Lemma key_escapes_reach_value toString :
  parse toString (Some ("%41%41=%zz" ++ [256])) None None None None
  = [("AA", PStr (toString (Some <$> [37; 122; 122; 0])))] /\
  parse toString (Some ("AA=%zz" ++ [256])) None None None None = [("AA", PStr ("%zz" ++ [256]))].
Proof. split; vm_compute; reflexivity. Qed.
