(* ===== verification/Punycode.v ===== *)
(** * [punycode]: the Bootstring encoding of Unicode labels

    Models [libjs-node/punycode.js]: conversion between UTF-16 and code points,
    the variable-length integers of RFC 3492 with their adaptive bias, [encode]
    and [decode], and their application to the labels of a domain name or an
    email address.

    Every number the code computes is an integer below 2^53, so that a division
    of doubles followed by [floor] is the integer division; [>>] is the 32-bit
    shift.  [String.prototype.toLowerCase] is a parameter.  The deprecation
    warning at load time is not modelled. *)

From S2P Require Import Prelude JsString.

Module Punycode.

(** ** Parameters of the encoding *)

Definition maxInt : Z := 2147483647.
Definition base : Z := 36.
Definition tMin : Z := 1.
Definition tMax : Z := 26.
Definition skew : Z := 38.
Definition damp : Z := 700.
Definition initialBias : Z := 72.
Definition initialN : Z := 128.
Definition delimiter : jsstr := "-".
Definition baseMinusTMin : Z := base - tMin.

Inductive error_type := overflow | not_basic | invalid_input.

Definition errors (type : error_type) : jsstr :=
  match type with
  | overflow => "Overflow: input needs wider integers to process"
  | not_basic => "Illegal input >= 0x80 (not a basic code point)"
  | invalid_input => "Invalid input"
  end.

Definition RangeError (message : jsstr) : jserror := JsError [] ["RangeError"%js; message].
Definition error {A} (type : error_type) : result A := Throw (RangeError (errors type)).

(** ** Domain names *)

(** [map] calls back from the last item to the first. *)
Fixpoint map {A B} (array : list A) (callback : A -> result B) : result (list B) :=
  match array with
  | [] => Ok []
  | x :: array =>
      let* ys := map array callback in
      let* y := callback x in
      Ok (y :: ys)
  end.

Definition at_sign : Z := 64.
Definition full_stop : Z := 46.

Definition regexSeparators (c : Z) : bool :=
  (c =? 0x2E) || (c =? 0x3002) || (c =? 0xFF0E) || (c =? 0xFF61).

Definition mapDomain (domain : jsstr) (callback : jsstr -> result jsstr) : result jsstr :=
  let parts := split domain at_sign in
  let '(res, domain) :=
    match parts with
    | part0 :: part1 :: _ => (part0 ++ [at_sign], part1)
    | _ => ([], domain)
    end in
  let domain := (fun c => if regexSeparators c then full_stop else c) <$> domain in
  let labels := split domain full_stop in
  let* encoded := map labels callback in
  Ok (res ++ join [full_stop] encoded).

(** ** UTF-16 *)

Fixpoint ucs2decode (string : jsstr) : list Z :=
  match string with
  | [] => []
  | value :: rest =>
      match rest with
      | extra :: rest' =>
          if (0xD800 <=? value) && (value <=? 0xDBFF) then
            if Z.land extra 0xFC00 =? 0xDC00
            then (js_shl (Z.land value 0x3FF) 10 + Z.land extra 0x3FF + 0x10000) :: ucs2decode rest'
            else value :: ucs2decode rest
          else value :: ucs2decode rest
      | [] => [value]
      end
  end.

(** [String.fromCodePoint], ECMA-262 22.1.2.2. *)
Definition utf16_units (cp : Z) : jsstr :=
  if cp <=? 0xFFFF then [cp]
  else [(cp - 0x10000) / 1024 + 0xD800; (cp - 0x10000) mod 1024 + 0xDC00].

Fixpoint fromCodePoint (codePoints : list Z) : result jsstr :=
  match codePoints with
  | [] => Ok []
  | cp :: codePoints =>
      if (cp <? 0) || (0x10FFFF <? cp)
      then Throw (RangeError ("Invalid code point "%js ++ js_of_Z cp))
      else
        let* rest := fromCodePoint codePoints in
        Ok (utf16_units cp ++ rest)
  end.

Definition ucs2encode (codePoints : list Z) : result jsstr := fromCodePoint codePoints.

(** ** Digits and bias *)

Definition basicToDigit (codePoint : Z) : Z :=
  if (0x30 <=? codePoint) && (codePoint <? 0x3A) then 26 + (codePoint - 0x30)
  else if (0x41 <=? codePoint) && (codePoint <? 0x5B) then codePoint - 0x41
  else if (0x61 <=? codePoint) && (codePoint <? 0x7B) then codePoint - 0x61
  else base.

Definition digitToBasic (digit flag : Z) : Z :=
  digit + 22 + 75 * Z.b2z (digit <? 26) - js_shl (Z.b2z (negb (flag =? 0))) 5.

Fixpoint adapt_loop (fuel : nat) (delta k : Z) : Z * Z :=
  match fuel with
  | O => (delta, k)
  | S fuel =>
      if js_shr (baseMinusTMin * tMax) 1 <? delta
      then adapt_loop fuel (delta / baseMinusTMin) (k + base)
      else (delta, k)
  end.

Definition adapt (delta numPoints : Z) (firstTime : bool) : Z :=
  let delta := if firstTime then delta / damp else js_shr delta 1 in
  let delta := delta + delta / numPoints in
  let '(delta, k) := adapt_loop (S (Z.to_nat (Z.log2 delta))) delta 0 in
  k + (baseMinusTMin + 1) * delta / (delta + skew).

Definition threshold (k bias : Z) : Z :=
  if k <=? bias then tMin else if bias + tMax <=? k then tMax else k - bias.

(** ** Decoding *)

(** One variable-length integer; [input] is what is left of the input. *)
Fixpoint decode_int (input : jsstr) (i w k bias : Z) : result (Z * jsstr) :=
  match input with
  | [] => error invalid_input
  | c :: input =>
      let digit := basicToDigit c in
      if base <=? digit then error invalid_input
      else if (maxInt - i) / w <? digit then error overflow
      else
        let i := i + digit * w in
        let t := threshold k bias in
        if digit <? t then Ok (i, input)
        else
          let baseMinusT := base - t in
          if maxInt / baseMinusT <? w then error overflow
          else decode_int input i (w * baseMinusT) (k + base) bias
  end.

Record decoding := Decoding { d_output : list Z; d_i : Z; d_n : Z; d_bias : Z }.

(** [output.splice(i, 0, n)] *)
Definition splice (l : list Z) (i n : Z) : list Z :=
  take (Z.to_nat i) l ++ n :: drop (Z.to_nat i) l.

Fixpoint decode_loop (fuel : nat) (input : jsstr) (st : decoding) : result (list Z) :=
  match fuel, input with
  | _, [] => Ok (d_output st)
  | O, _ => Ok (d_output st)
  | S fuel, _ =>
      let oldi := d_i st in
      let* (i, input) := decode_int input oldi 1 base (d_bias st) in
      let out := len (d_output st) + 1 in
      let bias := adapt (i - oldi) out (oldi =? 0) in
      if maxInt - d_n st <? i / out then error overflow
      else
        let n := d_n st + i / out in
        let i := i mod out in
        decode_loop fuel input (Decoding (splice (d_output st) i n) (i + 1) n bias)
  end.

Fixpoint decode_basic (input : jsstr) : result (list Z) :=
  match input with
  | [] => Ok []
  | c :: input =>
      if 0x80 <=? c then error not_basic
      else
        let* output := decode_basic input in
        Ok (c :: output)
  end.

Definition decode (input : jsstr) : result jsstr :=
  let basic := Z.max (lastIndexOf input delimiter) 0 in
  let* output := decode_basic (slice input 0 basic) in
  let input := slice_from input (if 0 <? basic then basic + 1 else 0) in
  let* output := decode_loop (length input) input (Decoding output 0 initialN initialBias) in
  fromCodePoint output.

(** ** Encoding *)

(** [delta] as a variable-length integer. *)
Fixpoint encode_digits (fuel : nat) (q k bias : Z) : jsstr :=
  match fuel with
  | O => []
  | S fuel =>
      let t := threshold k bias in
      if q <? t then [digitToBasic q 0]
      else
        let qMinusT := q - t in
        let baseMinusT := base - t in
        digitToBasic (t + qMinusT mod baseMinusT) 0
          :: encode_digits fuel (qMinusT / baseMinusT) (k + base) bias
  end.

Definition encode_int (delta bias : Z) : jsstr :=
  encode_digits (S (S (Z.to_nat (Z.log2 delta)))) delta base bias.

Record encoding := Encoding {
  e_output : jsstr; e_delta : Z; e_bias : Z; e_handledCPCount : Z }.

(** The smallest code point that is not below [n]. *)
Fixpoint next_point (input : list Z) (n m : Z) : Z :=
  match input with
  | [] => m
  | currentValue :: input =>
      next_point input n
        (if (n <=? currentValue) && (currentValue <? m) then currentValue else m)
  end.

(** [delta] counts a code point that is already in the output. *)
Definition count_handled (currentValue n : Z) (st : encoding) : result encoding :=
  if currentValue <? n then
    let delta := e_delta st + 1 in
    if maxInt <? delta then error overflow
    else Ok (Encoding (e_output st) delta (e_bias st) (e_handledCPCount st))
  else Ok st.

(** A code point equal to [n] is written. *)
Definition write_point (basicLength handledCPCountPlusOne : Z) (st : encoding) : encoding :=
  Encoding (e_output st ++ encode_int (e_delta st) (e_bias st)) 0
    (adapt (e_delta st) handledCPCountPlusOne (e_handledCPCount st =? basicLength))
    (e_handledCPCount st + 1).

Fixpoint encode_pass (input : list Z) (n basicLength handledCPCountPlusOne : Z) (st : encoding)
    : result encoding :=
  match input with
  | [] => Ok st
  | currentValue :: input =>
      let* st := count_handled currentValue n st in
      let st :=
        if currentValue =? n then write_point basicLength handledCPCountPlusOne st else st in
      encode_pass input n basicLength handledCPCountPlusOne st
  end.

Fixpoint encode_loop (fuel : nat) (input : list Z) (basicLength n : Z) (st : encoding)
    : result jsstr :=
  match fuel with
  | O => Ok (e_output st)
  | S fuel =>
      if e_handledCPCount st <? len input then
        let m := next_point input n maxInt in
        let handledCPCountPlusOne := e_handledCPCount st + 1 in
        if (maxInt - e_delta st) / handledCPCountPlusOne <? m - n then error overflow
        else
          let delta := e_delta st + (m - n) * handledCPCountPlusOne in
          let* st :=
            encode_pass input m basicLength handledCPCountPlusOne
              (Encoding (e_output st) delta (e_bias st) (e_handledCPCount st)) in
          encode_loop fuel input basicLength (m + 1)
            (Encoding (e_output st) (e_delta st + 1) (e_bias st) (e_handledCPCount st))
      else Ok (e_output st)
  end.

Definition encode (input : jsstr) : result jsstr :=
  let input := ucs2decode input in
  let output := filter (fun currentValue => currentValue < 0x80) input in
  let basicLength := len output in
  let output := if basicLength =? 0 then output else output ++ delimiter in
  encode_loop (S (length input)) input basicLength initialN
    (Encoding output 0 initialBias basicLength).

(** ** Labels *)

Definition regexPunycode : jsstr := "xn--".
Definition regexNonASCII (s : jsstr) : bool := existsb (fun c => 0x7F <? c) s.

Definition toASCII (input : jsstr) : result jsstr :=
  mapDomain input (fun string =>
    if regexNonASCII string
    then let* p := encode string in Ok ("xn--"%js ++ p)
    else Ok string).

Section Lower.
Context (toLowerCase : jsstr -> jsstr).

Definition toUnicode (input : jsstr) : result jsstr :=
  mapDomain input (fun string =>
    if startsWith string regexPunycode then decode (toLowerCase (slice_from string 4))
    else Ok string).
End Lower.

(** ** Examples *)

Example encode_ex : encode [0x6D; 0x61; 0xF1; 0x61; 0x6E; 0x61] = Ok "maana-pta"%js.
Proof. vm_compute. reflexivity. Qed.

Example decode_ex : decode "--dqo34k" = Ok [0x2603; 0x2D; 0x2318].
Proof. vm_compute. reflexivity. Qed.

Example pair_ex : encode [0xD83D; 0xDCA9] = Ok "ls8h"%js /\ decode "ls8h" = Ok [0xD83D; 0xDCA9].
Proof. vm_compute. split; reflexivity. Qed.

Example toASCII_ex :
  toASCII [0x6D; 0x61; 0xF1; 0x61; 0x6E; 0x61; 0x3002; 0x63; 0x6F; 0x6D] = Ok "xn--maana-pta.com"%js.
Proof. vm_compute. reflexivity. Qed.
End Punycode.
