(* ===== verification/PunycodeFacts.v ===== *)
(** * Correctness of [punycode]

    [encode] simulates [decode]: after every code point it writes, the state of
    a decoder that has read what was written so far is determined by how much
    of the input is covered (relation [covers]), and what the encoder counts in
    [delta] is how far the decoder has to advance.  The claims are the round
    trips of labels and of domain names, and the first length at which they
    fail. *)

From S2P Require Import Prelude JsString PathSpec Punycode.
Import Punycode.

(** ** Digits *)

Lemma basicToDigit_digitToBasic d : 0 <= d < base -> basicToDigit (digitToBasic d 0) = d.
Proof.
  unfold base. intros Hd. unfold digitToBasic.
  replace (js_shl _ 5) with 0 by done.
  destruct (d <? 26) eqn:E; bool_hyps; cbn [Z.b2z]; unfold basicToDigit;
    repeat (ztest; cbn [andb]); lia.
Qed.

(** What a digit is written as. *)
Definition digit_char (c : Z) : Prop := 48 <= c <= 57 \/ 97 <= c <= 122.

Lemma digitToBasic_char d : 0 <= d < base -> digit_char (digitToBasic d 0).
Proof.
  unfold base, digit_char. intros Hd. unfold digitToBasic.
  replace (js_shl _ 5) with 0 by done.
  destruct (d <? 26) eqn:E; bool_hyps; cbn [Z.b2z]; lia.
Qed.

Lemma threshold_range k bias : 1 <= threshold k bias <= 26.
Proof. unfold threshold, tMin, tMax. repeat case_step; bool_hyps; lia. Qed.

(** ** Bias *)

Definition max_bias : Z := 213.

Lemma adapt_loop_bound fuel (j : nat) delta k :
  0 <= delta < 456 * 35 ^ Z.of_nat j -> delta < 2 ^ Z.of_nat fuel ->
  let '(delta', k') := adapt_loop fuel delta k in
  0 <= delta' <= 455 /\ k <= k' <= k + 36 * Z.of_nat j.
Proof.
  revert j delta k. induction fuel as [|fuel IH]; intros j delta k Hd Hf; cbn [adapt_loop].
  { cbn in Hf. lia. }
  change (js_shr (baseMinusTMin * tMax) 1) with 455.
  destruct (_ <? delta) eqn:E; bool_hyps; [|lia].
  destruct j as [|j]; [cbn in Hd; lia|].
  rewrite Nat2Z.inj_succ, Z.pow_succ_r in Hd, Hf by lia.
  unfold baseMinusTMin, base, tMin in *.
  specialize (IH j (delta / (36 - 1)) (k + 36)).
  destruct (adapt_loop _ _ _) as [delta' k'].
  assert (0 <= delta / 35 /\ delta / 35 < 456 * 35 ^ Z.of_nat j /\ delta / 35 < 2 ^ Z.of_nat fuel)
    as (? & ? & ?).
  { repeat split; [apply Z.div_pos|apply Z.div_lt_upper_bound|apply Z.div_lt_upper_bound]; lia. }
  change (36 - 1) with 35 in IH. lia.
Qed.

Lemma adapt_bound delta np first :
  0 <= delta <= maxInt -> 0 < np -> 0 <= adapt delta np first <= max_bias.
Proof.
  unfold maxInt. intros Hd Hn. unfold adapt.
  set (d0 := if first then delta / damp else js_shr delta 1).
  assert (0 <= d0 /\ 2 * d0 <= delta) as [H0 H1].
  { unfold d0, damp. destruct first; [|rewrite js_shr1_small by lia];
      (split; [apply Z.div_pos; lia|]); pose proof (Z.mul_div_le delta 2);
      [assert (delta / 700 <= delta / 2) by (apply Z.div_le_compat_l; lia)|]; lia. }
  assert (0 <= d0 / np <= d0) as H2.
  { split; [by apply Z.div_pos|]. apply Z.div_le_upper_bound; nia. }
  pose proof (adapt_loop_bound (S (Z.to_nat (Z.log2 (d0 + d0 / np)))) 5 (d0 + d0 / np) 0) as Hb.
  destruct (adapt_loop _ _ _) as [d k].
  destruct Hb as [? ?]; [cbn; lia| |].
  { rewrite Nat2Z.inj_succ, Z2Nat.id by apply Z.log2_nonneg.
    destruct (Z.eq_dec (d0 + d0 / np) 0) as [Hz|]; [by rewrite Hz|].
    apply Z.log2_spec. lia. }
  unfold max_bias, skew, baseMinusTMin, base, tMin.
  assert (0 <= (36 - 1 + 1) * d / (d + 38) < 34); [|lia].
  split; [apply Z.div_pos; lia|apply Z.div_lt_upper_bound; lia].
Qed.

(** Once a pass has written its code point, [delta] is small, so that the
    number of code points it is averaged over does not matter. *)
Lemma adapt_small delta np np' :
  0 <= delta < np -> delta <= maxInt -> np <= np' ->
  adapt delta np false = adapt delta np' false.
Proof.
  unfold maxInt. intros. unfold adapt. rewrite js_shr1_small by lia.
  assert (0 <= delta / 2 <= delta) by (split; [apply Z.div_pos|apply Z.div_le_upper_bound]; lia).
  rewrite !(Z.div_small (delta / 2)) by lia. done.
Qed.

(** ** Variable-length integers *)

Lemma encode_digits_chars fuel q k bias :
  0 <= q -> Forall digit_char (encode_digits fuel q k bias).
Proof.
  revert q k. induction fuel as [|fuel IH]; intros q k Hq; cbn [encode_digits]; [constructor|].
  pose proof (threshold_range k bias) as Ht. set (t := threshold k bias) in *.
  unfold base in *. destruct (q <? t) eqn:E; bool_hyps.
  - constructor; [|constructor]. apply digitToBasic_char. unfold base; lia.
  - pose proof (Z.mod_pos_bound (q - t) (36 - t)).
    constructor; [apply digitToBasic_char; unfold base; lia|].
    apply IH, Z.div_pos; lia.
Qed.

Lemma encode_digits_step fuel q k bias :
  let t := threshold k bias in
  encode_digits (S fuel) q k bias =
  if q <? t then [digitToBasic q 0]
  else digitToBasic (t + (q - t) mod (base - t)) 0
         :: encode_digits fuel ((q - t) / (base - t)) (k + base) bias.
Proof. done. Qed.

Lemma encode_digits_nonempty fuel q k bias : encode_digits (S fuel) q k bias <> [].
Proof. cbn [encode_digits]. by case_match. Qed.

(** The decoder's guard on [w]: as long as the threshold is below 18, few
    digits were read. *)
Lemma weight_bound (j : nat) q w bias t :
  t = threshold (36 * (Z.of_nat j + 1)) bias -> t <= q -> 0 < w <= 35 ^ Z.of_nat j ->
  w * q <= maxInt -> bias <= max_bias -> w * (base - t) <= maxInt.
Proof.
  intros Et Hq Hw Hm Hb. pose proof (threshold_range (36 * (Z.of_nat j + 1)) bias) as Ht.
  rewrite <- Et in Ht. unfold base.
  destruct (Z.le_gt_cases 18 t) as [|Hlt]; [nia|].
  assert (Z.of_nat j <= 5) as Hj.
  { revert Et. unfold threshold, tMin, tMax, max_bias in *. repeat case_step; bool_hyps; lia. }
  assert (35 ^ Z.of_nat j <= 35 ^ 5) by (apply Z.pow_le_mono_r; lia).
  unfold maxInt. change (35 ^ 5) with 52521875 in *. nia.
Qed.

Lemma decode_encode_digits fuel (j : nat) q i w bias rest :
  0 <= q < 2 ^ Z.of_nat fuel -> 0 <= i -> 0 < w <= 35 ^ Z.of_nat j -> i + w * q <= maxInt ->
  bias <= max_bias ->
  decode_int (encode_digits (S fuel) q (36 * (Z.of_nat j + 1)) bias ++ rest) i w
    (36 * (Z.of_nat j + 1)) bias = Ok (i + w * q, rest).
Proof.
  intros Hq Hi Hw Hm Hb. revert j q i w Hq Hi Hw Hm.
  induction fuel as [|fuel IH]; intros j q i w Hq Hi Hw Hm;
    rewrite encode_digits_step; cbv zeta.
  all: pose proof (threshold_range (36 * (Z.of_nat j + 1)) bias) as Ht.
  all: remember (threshold _ _) as t eqn:Et.
  all: destruct (q <? t) eqn:E; bool_hyps.
  1, 3: cbn [app decode_int]; rewrite <- Et, basicToDigit_digitToBasic by (unfold base; lia);
    assert (q <= (maxInt - i) / w) by (apply Z.div_le_lower_bound; lia);
    unfold base; repeat ztest; do 2 f_equal; lia.
  { cbn in Hq. lia. }
  unfold base at 1 2 3.
  pose proof (Z.div_mod (q - t) (36 - t) ltac:(lia)) as Hdm.
  pose proof (Z.mod_pos_bound (q - t) (36 - t) ltac:(lia)) as Hmod.
  set (r := (q - t) mod (36 - t)) in *. set (q' := (q - t) / (36 - t)) in *.
  assert (0 <= q') by (apply Z.div_pos; lia).
  pose proof (weight_bound j q w bias t Et E Hw ltac:(lia) Hb) as Hwt. unfold base in Hwt.
  cbn [app decode_int]. rewrite <- Et, basicToDigit_digitToBasic by (unfold base; lia).
  assert (q = t + r + (36 - t) * q') as Eq by lia.
  assert (0 <= (36 - t) * q') by (apply Z.mul_nonneg_nonneg; lia).
  assert (w * q = (t + r) * w + w * (36 - t) * q') as Ewq by (rewrite Eq at 1; ring).
  assert (0 <= w * (36 - t) * q') by (repeat apply Z.mul_nonneg_nonneg; lia).
  assert (0 <= (t + r) * w) by (apply Z.mul_nonneg_nonneg; lia).
  assert (2 * q' <= q) by nia.
  assert (t + r <= (maxInt - i) / w) by (apply Z.div_le_lower_bound; lia).
  assert (w <= maxInt / (36 - t)) by (apply Z.div_le_lower_bound; lia).
  unfold base. repeat ztest.
  replace (36 * (Z.of_nat j + 1) + 36) with (36 * (Z.of_nat (S j) + 1)) by lia.
  rewrite IH; [do 2 f_equal; lia| |lia| |lia].
  - rewrite Nat2Z.inj_succ, Z.pow_succ_r in Hq by lia. lia.
  - split; [apply Z.mul_pos_pos; lia|].
    rewrite Nat2Z.inj_succ, Z.pow_succ_r, Z.mul_comm by lia. apply Z.mul_le_mono_nonneg; lia.
Qed.

Lemma decode_encode_int delta i bias rest :
  0 <= delta -> 0 <= i -> i + delta <= maxInt -> bias <= max_bias ->
  decode_int (encode_int delta bias ++ rest) i 1 base bias = Ok (i + delta, rest).
Proof.
  intros Hd Hi Hm Hb. unfold encode_int, base.
  pose proof (decode_encode_digits (S (Z.to_nat (Z.log2 delta))) 0 delta i 1 bias rest) as H.
  change (36 * (Z.of_nat 0 + 1)) with 36 in H. rewrite H; [do 2 f_equal; lia| | |cbn| |]; try lia.
  split; [done|]. rewrite Nat2Z.inj_succ, Z2Nat.id by apply Z.log2_nonneg.
  destruct (Z.eq_dec delta 0) as [Hz|]; [by rewrite Hz|]. apply Z.log2_spec. lia.
Qed.

(** ** The decoder that follows the encoder *)

Definition below (n : Z) (l : list Z) : list Z := filter (fun c => c < n) l.
Definition upto (n : Z) (l : list Z) : list Z := filter (fun c => c <= n) l.

(** [input] takes a decoder from [d] to [d']. *)
Definition advances (input : jsstr) (d d' : decoding) : Prop :=
  forall fuel rest, (length (input ++ rest) <= fuel)%nat ->
  exists fuel', (length rest <= fuel')%nat /\
    decode_loop fuel (input ++ rest) d = decode_loop fuel' rest d'.

(** The encoder is at [suf] in the pass for [n], [pre] being behind it: the
    decoder has the code points up to [n] of [pre] and those below [n] of
    [suf]. *)
Record covers (basicLength n : Z) (pre suf : list Z) (e : encoding) (d : decoding) : Prop := {
  cov_output : d_output d = upto n pre ++ below n suf;
  cov_handled : e_handledCPCount e = len (d_output d);
  cov_delta : e_delta e = (n - d_n d) * (len (d_output d) + 1) + len (upto n pre) - d_i d;
  cov_n : 128 <= d_n d <= n;
  cov_bias : e_bias e = d_bias d;
  cov_max : d_bias d <= max_bias;
  cov_i : 0 <= d_i d <= len (d_output d);
  cov_first : d_i d = 0 <-> e_handledCPCount e = basicLength;
}.

(** Where a pass is: the code point [n] was written, or it is still ahead. *)
Definition progress (n : Z) (pre suf : list Z) (d : decoding) : Prop :=
  (d_n d = n /\ d_i d <= len (upto n pre) <= d_i d + len (below n pre)) \/
  (d_n d < n /\ len (upto n pre) = len (below n pre) /\ n ∈ suf).

Lemma advances_nil d : advances [] d d.
Proof. intros fuel rest H. by exists fuel. Qed.

Lemma advances_app a b d d' d'' : advances a d d' -> advances b d' d'' -> advances (a ++ b) d d''.
Proof.
  intros Ha Hb fuel rest H. rewrite <- app_assoc in *.
  destruct (Ha fuel (b ++ rest) H) as (f' & H' & ->). by apply Hb.
Qed.

Lemma below_app n a b : below n (a ++ b) = below n a ++ below n b.
Proof. apply filter_app. Qed.

Lemma upto_app n a b : upto n (a ++ b) = upto n a ++ upto n b.
Proof. apply filter_app. Qed.

Lemma below_cons n c l : below n (c :: l) = (if c <? n then [c] else []) ++ below n l.
Proof. unfold below. rewrite filter_cons. repeat case_decide; repeat ztest; (done || lia). Qed.

Lemma upto_cons n c l : upto n (c :: l) = (if c <=? n then [c] else []) ++ upto n l.
Proof. unfold upto. rewrite filter_cons. repeat case_decide; repeat ztest; (done || lia). Qed.

Lemma below_succ n l : below (n + 1) l = upto n l.
Proof. apply list_filter_iff. lia. Qed.

Lemma len_below n l : len (below n l) <= len l.
Proof. unfold len. pose proof (length_filter (fun c => c < n) l). unfold below. lia. Qed.

Lemma len_below_mono n m l : n <= m -> len (below n l) <= len (below m l).
Proof.
  intros. induction l as [|c l IH]; [done|]. rewrite !below_cons, !len_app.
  repeat case_step; bool_hyps; len_lia.
Qed.

Lemma below_upto n l : len (below n l) <= len (upto n l).
Proof. rewrite <- below_succ. apply len_below_mono. lia. Qed.

Lemma below_upto_elem n l : n ∈ l -> len (below n l) < len (upto n l).
Proof.
  induction l as [|c l IH]; intros H; [by apply elem_of_nil in H|].
  rewrite below_cons, upto_cons, !len_app. pose proof (below_upto n l).
  apply elem_of_cons in H as [Hc|H]; [subst c|specialize (IH H)];
    repeat case_step; bool_hyps; len_lia.
Qed.

Lemma below_full n l : len (below n l) = len l -> below n l = l.
Proof.
  induction l as [|c l IH]; intros H; [done|]. rewrite below_cons in *.
  pose proof (len_below n l). destruct (c <? n); cbn [app] in *.
  - f_equal. apply IH. len_lia.
  - len_lia.
Qed.

Lemma below_ext n m l : Forall (fun c => c < n <-> c < m) l -> below n l = below m l.
Proof.
  induction 1 as [|c l Hc HF IH]; [done|]. rewrite !below_cons, IH.
  repeat case_step; bool_hyps; (done || lia).
Qed.

Lemma below_all n l : Forall (fun c => c < n) l -> below n l = l.
Proof. induction 1 as [|c l Hc HF IH]; [done|]. rewrite below_cons, IH. by ztest. Qed.

(** ** One code point *)

Section Simulation.
Context (input : list Z) (basicLength : Z).
Hypothesis Hlen : len input <= 1927.
Hypothesis Hpoints : Forall (fun c => 0 <= c <= 0x10FFFF) input.
Hypothesis Hbasic : basicLength = len (below 128 input).

Lemma covers_len n pre suf e d :
  input = pre ++ suf -> covers basicLength n pre suf e d ->
  len (d_output d) = len (upto n pre) + len (below n suf) /\
  len (upto n pre) <= len pre /\ len (below n suf) <= len suf /\
  len (below n input) = len (below n pre) + len (below n suf) /\
  basicLength <= len (below n input).
Proof.
  intros Hin C. rewrite (cov_output _ _ _ _ _ _ C), len_app, <- below_succ.
  pose proof (len_below (n + 1) pre). pose proof (len_below n suf).
  pose proof (len_below_mono 128 n input). pose proof (cov_n _ _ _ _ _ _ C).
  rewrite Hin at 1. rewrite below_app, len_app. lia.
Qed.

Lemma advance_int n pre suf e d :
  input = pre ++ n :: suf -> covers basicLength n pre (n :: suf) e d -> 0 <= e_delta e ->
  n <= 0x10FFFF ->
  let p := len (upto n pre) in
  advances (encode_int (e_delta e) (e_bias e)) d
    (Decoding (splice (d_output d) p n) (p + 1) n
       (adapt (e_delta e) (len (d_output d) + 1) (d_i d =? 0))).
Proof.
  intros Hin C Hd Hn p fuel rest Hf. destruct (covers_len _ _ _ _ _ Hin C) as (Hl & Hp & Hs & _ & _).
  rewrite below_cons in Hl, Hs. replace (n <? n) with false in * by (symmetry; apply Z.ltb_ge; lia).
  destruct C as [Ho Hh Hdelta Hdn Hb Hm Hi _]. cbn [app] in *.
  assert (0 <= p) by apply len_nonneg. fold p in Hdelta, Hl, Hp. clearbody p.
  pose proof (f_equal len Hin) as HL. autorewrite with js_len in HL.
  pose proof (len_below n suf). pose proof (len_nonneg (below n suf)).
  set (h := len (d_output d)) in *.
  assert (d_i d + e_delta e = (n - d_n d) * (h + 1) + p) as Ei by lia.
  assert ((n - d_n d) * (h + 1) <= 1113983 * (h + 1)) by (apply Z.mul_le_mono_nonneg_r; lia).
  destruct (encode_int (e_delta e) (e_bias e)) as [|c int] eqn:Eint.
  { by apply encode_digits_nonempty in Eint. }
  destruct fuel as [|fuel]; [cbn in Hf; lia|].
  exists fuel. split; [rewrite length_app in Hf; cbn in Hf; lia|].
  assert (exists c' t', (c :: int) ++ rest = c' :: t') as (c' & t' & Ect) by eauto.
  rewrite Ect. cbn [decode_loop]. rewrite <- Ect, <- Eint, Hb, decode_encode_int by (unfold maxInt; lia).
  cbn [result_bind]. fold h. rewrite Ei.
  rewrite (Z.div_add_l), Z.div_small, Z.add_0_r by lia.
  rewrite Z.add_comm, Z.mod_add, Z.mod_small by lia.
  unfold maxInt. ztest. do 3 f_equal; lia.
Qed.

Lemma covers_delta n pre suf e d :
  covers basicLength n pre suf e d -> progress n pre suf d -> 0 <= e_delta e.
Proof.
  intros C [[Hn ?]|[Hn [_ _]]]; rewrite (cov_delta _ _ _ _ _ _ C);
    pose proof (cov_i _ _ _ _ _ _ C); pose proof (len_nonneg (upto n pre)).
  - rewrite Hn. lia.
  - nia.
Qed.

(** The count [encode] averages over may be stale; the bias is the decoder's. *)
Lemma covers_adapt n pre suf e d :
  input = pre ++ suf -> covers basicLength n pre suf e d -> progress n pre suf d ->
  adapt (e_delta e) (len (below n input) + 1) (e_handledCPCount e =? basicLength) =
  adapt (e_delta e) (len (d_output d) + 1) (d_i d =? 0).
Proof.
  intros Hin C Hp. destruct (covers_len _ _ _ _ _ Hin C) as (Hl & Hpre & Hs & Hb & Hbl).
  pose proof (covers_delta _ _ _ _ _ C Hp) as Hd. pose proof (below_upto n pre).
  pose proof (cov_delta _ _ _ _ _ _ C) as Ed. pose proof (cov_first _ _ _ _ _ _ C) as Hf.
  pose proof (cov_handled _ _ _ _ _ _ C) as Hh.
  replace (e_handledCPCount e =? basicLength) with (d_i d =? 0)
    by (destruct (d_i d =? 0) eqn:E; bool_hyps; symmetry; [apply Z.eqb_eq|apply Z.eqb_neq]; tauto).
  destruct Hp as [[Hn Hdi]|[Hn [Hpb _]]]; [|do 2 f_equal; lia].
  destruct (Z.eq_dec (len (below n input)) (len (d_output d))) as [->|Hne]; [done|].
  destruct (d_i d =? 0) eqn:E; bool_hyps; [apply Hf in E; lia|].
  rewrite Hn, Z.sub_diag in Ed. pose proof (len_nonneg (below n suf)).
  pose proof (f_equal len Hin) as HL. rewrite len_app in HL.
  apply adapt_small; unfold maxInt; lia.
Qed.

Lemma write_point_ok n pre suf e d :
  input = pre ++ n :: suf -> covers basicLength n pre (n :: suf) e d ->
  progress n pre (n :: suf) d -> n <= 0x10FFFF ->
  exists d', advances (encode_int (e_delta e) (e_bias e)) d d' /\
    covers basicLength n (pre ++ [n]) suf (write_point basicLength (len (below n input) + 1) e) d' /\
    progress n (pre ++ [n]) suf d'.
Proof.
  intros Hin C Hp Hn. pose proof (covers_delta _ _ _ _ _ C Hp) as Hd.
  destruct (covers_len _ _ _ _ _ Hin C) as (Hl & Hpre & _ & Hbn & Hbl).
  pose proof (covers_adapt _ _ _ _ _ Hin C Hp) as Ha.
  pose proof (advance_int _ _ _ _ _ Hin C Hd Hn) as Hadv. cbv zeta in Hadv.
  eexists. split; [exact Hadv|].
  destruct C as [Ho Hh Hdelta Hdn Hb Hm Hi Hf].
  rewrite below_cons in Ho, Hl, Hbn.
  replace (n <? n) with false in * by (symmetry; apply Z.ltb_ge; lia).
  cbn [app] in *. pose proof (len_nonneg (upto n pre)). pose proof (len_nonneg (below n suf)).
  assert (upto n (pre ++ [n]) = upto n pre ++ [n]) as Eu.
  { rewrite upto_app, upto_cons. by ztest. }
  assert (splice (d_output d) (len (upto n pre)) n = upto n (pre ++ [n]) ++ below n suf) as Es.
  { unfold splice, len. rewrite Nat2Z.id, Ho, Eu, take_app_length, drop_app_length, <- app_assoc. done. }
  assert (len (splice (d_output d) (len (upto n pre)) n) = len (d_output d) + 1) as Els.
  { rewrite Es, Eu, Ho. len_lia. }
  pose proof (f_equal len Hin) as HL. autorewrite with js_len in HL.
  pose proof (len_below n suf). pose proof (len_below n pre). pose proof (len_below n input).
  split; [constructor; cbn; rewrite ?Els, ?Eu, ?len_app|].
  - by rewrite <- Eu.
  - lia.
  - len_lia.
  - lia.
  - exact Ha.
  - assert ((n - d_n d) * (len (d_output d) + 1) <= 1113983 * (len (d_output d) + 1))
      by (apply Z.mul_le_mono_nonneg_r; lia).
    apply adapt_bound; [unfold maxInt|]; lia.
  - lia.
  - pose proof (below_upto n pre). lia.
  - left. cbn. rewrite Eu, below_app, !len_app. len_lia.
Qed.

(** A code point that is not [n] is passed over. *)
Lemma pass_over_ok n pre c suf e d :
  input = pre ++ c :: suf -> c <> n -> n <= 0x10FFFF ->
  covers basicLength n pre (c :: suf) e d -> progress n pre (c :: suf) d ->
  exists e', count_handled c n e = Ok e' /\ e_output e' = e_output e /\
    covers basicLength n (pre ++ [c]) suf e' d /\ progress n (pre ++ [c]) suf d.
Proof.
  intros Hin Hc Hn C Hp. destruct (covers_len _ _ _ _ _ Hin C) as (Hl & Hpre & Hs & _ & _).
  pose proof (cov_n _ _ _ _ _ _ C). pose proof (cov_delta _ _ _ _ _ _ C) as Ed.
  pose proof (cov_i _ _ _ _ _ _ C).
  pose proof (f_equal len Hin) as HL. autorewrite with js_len in HL.
  assert (e_delta e < maxInt) as Hmax.
  { rewrite Ed. unfold maxInt. destruct Hp as [[-> Hp]|(Hlt & Hpb & Hel)]; [len_lia|].
    assert (len (below n (c :: suf)) <= len suf).
    { pose proof (below_upto_elem _ _ Hel). pose proof (len_below (n + 1) (c :: suf)) as Hx.
      rewrite below_succ in Hx. len_lia. }
    assert ((n - d_n d) * (len (d_output d) + 1) <= 1113983 * (len (d_output d) + 1))
      by (apply Z.mul_le_mono_nonneg_r; len_lia). len_lia. }
  unfold count_handled. rewrite below_cons in *.
  assert (upto n (pre ++ [c]) = upto n pre ++ (if c <? n then [c] else [])) as Eu.
  { rewrite upto_app, upto_cons, app_nil_r. repeat case_step; bool_hyps; (done || lia). }
  assert (below n (pre ++ [c]) = below n pre ++ (if c <? n then [c] else [])) as Eb.
  { by rewrite below_app, below_cons, app_nil_r. }
  assert (progress n (pre ++ [c]) suf d) as Hp'.
  { unfold progress in *. rewrite Eu, Eb, !len_app.
    destruct Hp as [|(? & ? & [Hx|?]%elem_of_cons)]; [left; len_lia|lia|right; split_and!; [lia..|done]]. }
  destruct C as [Ho Hh _ Hdn Hb Hm Hi Hf]. rewrite below_cons in Ho.
  destruct (c <? n) eqn:E; bool_hyps; cbn [app] in *.
  - ztest. eexists; split_and!; [done..| |done]. constructor; cbn; rewrite ?Eu, <- ?app_assoc; auto.
    rewrite len_app. len_lia.
  - eexists; split_and!; [done..| |done]. rewrite app_nil_r in Eu.
    constructor; rewrite ?Eu; auto.
Qed.

(** ** Passes *)

Lemma encode_pass_ok n pre suf e d :
  input = pre ++ suf -> n <= 0x10FFFF -> covers basicLength n pre suf e d -> progress n pre suf d ->
  exists e' em d', encode_pass suf n basicLength (len (below n input) + 1) e = Ok e' /\
    e_output e' = e_output e ++ em /\ Forall digit_char em /\
    advances em d d' /\ covers basicLength n input [] e' d'.
Proof.
  revert pre e d. induction suf as [|c suf IH]; intros pre e d Hin Hn C Hp; cbn [encode_pass].
  { rewrite app_nil_r in Hin. subst pre.
    exists e, [], d. rewrite app_nil_r. split_and!; auto using advances_nil. }
  destruct (Z.eq_dec c n) as [->|Hc].
  - unfold count_handled. rewrite Z.ltb_irrefl, Z.eqb_refl. cbn [result_bind].
    destruct (write_point_ok _ _ _ _ _ Hin C Hp Hn) as (d1 & Ha & C1 & Hp1).
    destruct (IH (pre ++ [n]) _ _ ltac:(by rewrite <- app_assoc) Hn C1 Hp1)
      as (e' & em & d' & He & Ho & Hem & Ha' & C').
    exists e', (encode_int (e_delta e) (e_bias e) ++ em), d'. cbn in Ho.
    split_and!; [done|by rewrite Ho, app_assoc| |by eapply advances_app|done].
    apply Forall_app. split; [|done]. apply encode_digits_chars.
    by eapply covers_delta.
  - destruct (pass_over_ok _ _ _ _ _ _ Hin Hc Hn C Hp) as (e1 & -> & Ho1 & C1 & Hp1).
    cbn [result_bind]. ztest. rewrite <- Ho1.
    apply (IH (pre ++ [c])); auto. by rewrite <- app_assoc.
Qed.

Lemma next_point_min n m l :
  let r := next_point l n m in
  (r = m /\ Forall (fun c => n <= c -> m <= c) l) \/
  (r ∈ l /\ n <= r < m /\ Forall (fun c => n <= c -> r <= c) l).
Proof.
  revert m. induction l as [|c l IH]; intros m; cbn [next_point]; [left; auto|].
  destruct ((n <=? c) && (c <? m)) eqn:E; bool_hyps.
  - destruct (IH c) as [[Hr HF]|(Hr & ? & HF)].
    + right. rewrite Hr in *. split_and!; [left|lia..|constructor; [lia|done]].
    + right. split_and!; [by right|lia..|]. constructor; [lia|done].
  - apply andb_false_iff in E.
    assert (n <= c -> m <= c) by (intros; destruct E; bool_hyps; lia).
    destruct (IH m) as [[Hr HF]|(Hr & ? & HF)].
    + left. split; [done|]. by constructor.
    + right. split_and!; [by right|lia..|]. constructor; [lia|done].
Qed.

(** The next code point, when some are left. *)
Lemma next_point_ok n :
  len (below n input) < len input ->
  let m := next_point input n maxInt in
  m ∈ input /\ n <= m <= 0x10FFFF /\ below m input = below n input.
Proof.
  intros Hlt. cbv zeta.
  destruct (next_point_min n maxInt input) as [[_ HF]|(Hm & ? & HF)];
    pose proof (proj2 (Forall_and _ _) (conj HF Hpoints)) as HP.
  - exfalso. rewrite (below_ext n maxInt) in Hlt
      by (eapply Forall_impl; [exact HP|]; cbn; unfold maxInt; lia).
    rewrite below_all in Hlt; [lia|].
    eapply Forall_impl; [exact Hpoints|]. cbn. unfold maxInt. lia.
  - pose proof (proj1 (Forall_forall _ _) Hpoints _ Hm) as Hx. cbv beta in Hx. split_and!; [done|lia..|].
    apply below_ext. eapply Forall_impl; [exact HF|]. cbn. lia.
Qed.

(** Before a pass: nothing is behind the encoder. *)
Lemma covers_jump n m e d :
  covers basicLength n [] input e d -> n <= m -> below m input = below n input ->
  covers basicLength m [] input
    (Encoding (e_output e) (e_delta e + (m - n) * (e_handledCPCount e + 1)) (e_bias e)
       (e_handledCPCount e)) d.
Proof.
  intros [Ho Hh Hd Hn Hb Hm Hi Hf] Hle Hbm. cbn in *.
  constructor; cbn; rewrite ?Hbm; auto; [rewrite Hd, Hh; ring|lia].
Qed.

(** After a pass, the decoder waits for [n + 1]. *)
Lemma covers_next n e d :
  covers basicLength n input [] e d ->
  covers basicLength (n + 1) [] input
    (Encoding (e_output e) (e_delta e + 1) (e_bias e) (e_handledCPCount e)) d.
Proof.
  intros [Ho Hh Hd Hn Hb Hm Hi Hf]. cbn [below filter list_filter] in Ho. rewrite app_nil_r in Ho.
  constructor; cbn; rewrite ?below_succ; auto; [|lia].
  rewrite Hd, Ho. rewrite len_nil. ring.
Qed.

Lemma encode_loop_ok fuel n e d :
  covers basicLength n [] input e d -> d_n d < n \/ d_i d = 0 ->
  len input - e_handledCPCount e < Z.of_nat fuel ->
  exists em d', encode_loop fuel input basicLength n e = Ok (e_output e ++ em) /\
    Forall digit_char em /\ advances em d d' /\ d_output d' = input.
Proof.
  revert n e d. induction fuel as [|fuel IH]; intros n e d C Hn Hf; cbn [encode_loop].
  { pose proof (cov_output _ _ _ _ _ _ C) as Ho. cbn in Ho.
    pose proof (cov_handled _ _ _ _ _ _ C) as Hh. rewrite Ho in Hh. pose proof (len_below n input). lia. }
  pose proof (cov_output _ _ _ _ _ _ C) as Ho. cbn in Ho.
  pose proof (cov_handled _ _ _ _ _ _ C) as Hh. rewrite Ho in Hh.
  destruct (_ <? len input) eqn:E; bool_hyps.
  - destruct (next_point_ok n ltac:(lia)) as (Hm & Hnm & Hbm). cbv zeta.
    set (m := next_point _ _ _) in *.
    pose proof (covers_jump _ m _ _ C ltac:(lia) Hbm) as C1.
    pose proof (cov_delta _ _ _ _ _ _ C1) as Ed. cbn [e_delta upto filter list_filter] in Ed.
    pose proof (cov_n _ _ _ _ _ _ C1). pose proof (cov_i _ _ _ _ _ _ C1).
    assert (e_delta e + (m - n) * (e_handledCPCount e + 1) <= maxInt).
    { rewrite Ed, Ho, <- Hh. rewrite len_nil. unfold maxInt.
      assert ((m - d_n d) * (e_handledCPCount e + 1) <= 1113983 * (e_handledCPCount e + 1))
        by (apply Z.mul_le_mono_nonneg_r; len_lia). lia. }
    assert (m - n <= (maxInt - e_delta e) / (e_handledCPCount e + 1))
      by (apply Z.div_le_lower_bound; len_lia).
    ztest. replace (encode_pass input m basicLength (e_handledCPCount e + 1))
      with (encode_pass input m basicLength (len (below m input) + 1)) by (f_equal; rewrite Hbm; lia).
    destruct (encode_pass_ok m [] input _ d eq_refl ltac:(lia) C1) as (e' & em & d1 & -> & Ho' & Hem & Ha & C2).
    { unfold progress. cbn. destruct Hn as [|Hi0]; [right|destruct (Z.eq_dec (d_n d) m); [left|right]];
        rewrite ?len_nil; split_and!; (lia || done). }
    cbn [result_bind e_output] in *.
    pose proof (covers_next _ _ _ C2) as C3.
    pose proof (cov_output _ _ _ _ _ _ C2) as Ho2. cbn in Ho2. rewrite app_nil_r in Ho2.
    pose proof (below_upto_elem _ _ Hm). pose proof (cov_handled _ _ _ _ _ _ C2) as Hh2.
    destruct (IH _ _ d1 C3) as (em' & d' & -> & Hem' & Ha' & Hd').
    { left. pose proof (cov_n _ _ _ _ _ _ C2). lia. }
    { cbn. rewrite Hh2, Ho2. rewrite Hbm in *. lia. }
    exists (em ++ em'), d'. cbn. rewrite Ho', <- app_assoc.
    split_and!; [done|by apply Forall_app|by eapply advances_app|done].
  - exists [], d. rewrite app_nil_r. split_and!; [done..|apply advances_nil|].
    rewrite Ho. apply below_full. pose proof (len_below n input). lia.
Qed.
End Simulation.

(** ** UTF-16 *)

Definition unit16 (c : Z) : Prop := 0 <= c <= 0xFFFF.

Lemma land_high e : unit16 e -> Z.land e 0xFC00 = e / 1024 * 1024.
Proof.
  unfold unit16. intros He. change 0xFC00 with (Z.shiftl (Z.ones 6) 10). change 1024 with (2 ^ 10).
  rewrite <- Z.shiftl_mul_pow2, <- Z.shiftr_div_pow2 by lia.
  apply Z.bits_inj'. intros i Hi. rewrite Z.land_spec, !Z.shiftl_spec by lia.
  destruct (Z.lt_ge_cases i 10); [rewrite !(Z.testbit_neg_r _ (i - 10)) by lia; apply andb_false_r|].
  rewrite Z.shiftr_spec, Z.testbit_ones_nonneg by lia. replace (i - 10 + 10) with i by lia.
  destruct (i - 10 <? 6) eqn:E; bool_hyps; [apply andb_true_r|]. rewrite andb_false_r.
  rewrite <- (Z.mod_small e (2 ^ 16)) by lia. symmetry. apply Z.mod_pow2_bits_high. lia.
Qed.

Lemma land_low e : 0 <= e -> Z.land e 0x3FF = e mod 1024.
Proof. intros. change 0x3FF with (Z.ones 10). by rewrite Z.land_ones. Qed.

(** The code point of a pair is above the units, and its units are the pair. *)
Lemma pair_units v e :
  0xD800 <= v <= 0xDBFF -> unit16 e -> Z.land e 0xFC00 = 0xDC00 ->
  let cp := js_shl (Z.land v 0x3FF) 10 + Z.land e 0x3FF + 0x10000 in
  0xFFFF < cp <= 0x10FFFF /\ utf16_units cp = [v; e].
Proof.
  intros Hv He Hl. rewrite land_high in Hl by done. unfold unit16 in He. cbv zeta.
  rewrite !land_low by lia. unfold js_shl.
  pose proof (Z.mod_pos_bound v 1024 ltac:(lia)). pose proof (Z.mod_pos_bound e 1024 ltac:(lia)).
  rewrite (toInt32_small (v mod 1024)), Z.shiftl_mul_pow2, toInt32_small by lia.
  assert (v mod 1024 = v - 0xD800) as Ev by (symmetry; apply (Z.mod_unique_pos _ _ 54); lia).
  pose proof (Z.div_mod e 1024 ltac:(lia)). assert (e mod 1024 = e - 0xDC00) as Ee by lia.
  rewrite Ev, Ee. change (2 ^ 10) with 1024. split; [lia|]. unfold utf16_units. ztest.
  replace ((v - 0xD800) * 1024 + (e - 0xDC00) + 0x10000 - 0x10000)
    with ((v - 0xD800) * 1024 + (e - 0xDC00)) by lia.
  rewrite Z.div_add_l, Z.div_small by lia.
  rewrite (Z.add_comm (_ * 1024)), Z.mod_add, Z.mod_small by lia.
  do 2 f_equal; [lia|f_equal; lia].
Qed.

Lemma ucs2_roundtrip s :
  Forall unit16 s ->
  fromCodePoint (ucs2decode s) = Ok s /\ Forall (fun c => 0 <= c <= 0x10FFFF) (ucs2decode s).
Proof.
  remember (length s) as n eqn:En. assert (length s <= n)%nat as Hn by lia. clear En. revert s Hn.
  assert (forall v r, unit16 v -> fromCodePoint (ucs2decode r) = Ok r ->
    Forall (fun c => 0 <= c <= 0x10FFFF) (ucs2decode r) ->
    fromCodePoint (v :: ucs2decode r) = Ok (v :: r) /\
    Forall (fun c => 0 <= c <= 0x10FFFF) (v :: ucs2decode r)) as Hone.
  { unfold unit16. intros v r Hv Hr HF. cbn [fromCodePoint]. repeat (ztest; cbn [orb]).
    rewrite Hr. cbn [result_bind]. unfold utf16_units. ztest. split; [done|]. constructor; [lia|done]. }
  induction n as [|n IH]; intros [|v r] Hn HF; cbn in Hn; [by split|lia|by split|].
  apply Forall_cons in HF as [Hv HF]. cbn [ucs2decode]. destruct r as [|e r].
  { apply (Hone v []); [done..|constructor]. }
  destruct (IH (e :: r) ltac:(cbn in *; lia) HF) as [Her HFr].
  destruct ((0xD800 <=? v) && (v <=? 0xDBFF)) eqn:E; [|by apply Hone].
  destruct (_ =? 0xDC00) eqn:E2; [|by apply Hone]. bool_hyps.
  apply Forall_cons in HF as [He HF].
  destruct (IH r ltac:(cbn in *; lia) HF) as [Hr HFr'].
  destruct (pair_units v e ltac:(lia) He E2) as [Hcp Hu]. cbv zeta in Hcp, Hu.
  cbn [fromCodePoint]. repeat (ztest; cbn [orb]). rewrite Hr. cbn [result_bind]. rewrite Hu.
  split; [done|]. constructor; [lia|done].
Qed.

(** A code point below 0x10000 is a unit of the string. *)
Lemma ucs2decode_small (P : Z -> Prop) s :
  Forall unit16 s -> Forall (fun c => c < 128 -> P c) s ->
  Forall (fun c => c < 128 -> P c) (ucs2decode s).
Proof.
  remember (length s) as n eqn:En. assert (length s <= n)%nat as Hn by lia. clear En. revert s Hn.
  induction n as [|n IH]; intros [|v r] Hn Hu HP; cbn in Hn; [constructor|lia|constructor|].
  apply Forall_cons in Hu as [Hv Hu]. apply Forall_cons in HP as [HPv HP].
  cbn [ucs2decode]. destruct r as [|e r]; [by repeat constructor|].
  pose proof (IH (e :: r) ltac:(cbn in *; lia) Hu HP) as Her.
  destruct (_ && _) eqn:E; [|by constructor]. destruct (_ =? 0xDC00) eqn:E2; [|by constructor].
  bool_hyps. apply Forall_cons in Hu as [He Hu]. apply Forall_cons in HP as [_ HP].
  destruct (pair_units v e ltac:(lia) He E2) as [Hcp _]. cbv zeta in Hcp.
  constructor; [lia|]. apply IH; [cbn in *; lia|done..].
Qed.

(** ** Labels *)

Lemma decode_basic_ok l : Forall (fun c => c < 128) l -> decode_basic l = Ok l.
Proof.
  induction 1 as [|c l Hc HF IH]; [done|]. cbn [decode_basic]. ztest. by rewrite IH.
Qed.

Lemma decode_parts basic em :
  Forall (fun c => c < 128) basic -> Forall digit_char em ->
  decode ((if len basic =? 0 then basic else basic ++ delimiter) ++ em) =
  result_bind (decode_loop (length em) em (Decoding basic 0 initialN initialBias)) fromCodePoint.
Proof.
  intros Hb Hem. unfold decode.
  assert (Forall (fun c => c <> 45) em) as Hno
    by (eapply Forall_impl; [exact Hem|]; unfold digit_char; lia).
  destruct (len basic =? 0) eqn:E; bool_hyps.
  - apply len_zero in E as ->. cbn [app]. unfold lastIndexOf, delimiter.
    rewrite (lastIndexOf_at_none em 45 0) by done. cbn [Z.max]. cbn [Z.ltb Z.compare].
    rewrite slice_empty by lia. cbn [decode_basic result_bind]. by rewrite slice_from_whole.
  - pose proof (len_nonneg basic). unfold lastIndexOf, delimiter. rewrite <- app_assoc.
    cbn [app]. rewrite (lastIndexOf_at_mid basic 45 em 0) by done. rewrite Z.max_l by lia.
    rewrite slice_prefix by lia. rewrite decode_basic_ok by done. cbn [result_bind].
    ztest. rewrite (app_assoc basic [45] em : basic ++ 45 :: em = _).
    by rewrite (slice_suffix (basic ++ [45]) em) by len_lia.
Qed.

(** What [encode] writes: the basic code points, and digits. *)
Definition written (s p : jsstr) : Prop :=
  let basic := below 128 (ucs2decode s) in
  exists em, Forall digit_char em /\
    p = (if len basic =? 0 then basic else basic ++ delimiter) ++ em.

(** [encode] and [decode] on a label of at most 1927 code points. *)
Lemma encode_decode s :
  Forall unit16 s -> len (ucs2decode s) <= 1927 ->
  exists p, encode s = Ok p /\ written s p /\ decode p = Ok s.
Proof.
  intros Hs Hl. destruct (ucs2_roundtrip s Hs) as [Hrt Hp]. unfold encode, written.
  set (input := ucs2decode s) in *. change (filter _ input) with (below 128 input).
  set (basic := below 128 input).
  assert (Forall (fun c => c < 128) basic) as Hb.
  { apply Forall_forall. intros c Hc. by apply list_elem_of_filter in Hc as [? _]. }
  assert (covers (len basic) 128 [] input
    (Encoding (if len basic =? 0 then basic else basic ++ delimiter) 0 initialBias (len basic))
    (Decoding basic 0 initialN initialBias)) as C.
  { constructor; cbn; rewrite ?len_nil; try done. pose proof (len_nonneg basic). lia. }
  destruct (encode_loop_ok input (len basic) Hl Hp eq_refl (S (length input)) _ _ _ C)
    as (em & d' & He & Hem & Ha & Hd); [by right|cbn; unfold len at 1; pose proof (len_nonneg basic); lia|].
  eexists. split; [exact He|]. cbn [e_output]. split; [by exists em|].
  rewrite decode_parts by done.
  destruct (Ha (length em) [] ltac:(by rewrite app_nil_r)) as (f & _ & Hf).
  rewrite app_nil_r in Hf. rewrite Hf. destruct f; cbn; by rewrite Hd.
Qed.

(** A property of ASCII units, of the digits and of the delimiter goes from a
    label to its encoding. *)
Lemma written_Forall (P : Z -> Prop) s p :
  (forall c, digit_char c -> P c) -> P 45 -> Forall unit16 s ->
  Forall (fun c => c < 128 -> P c) s -> written s p -> Forall P p.
Proof.
  intros Hdig H45 Hu Hs (em & Hem & ->).
  assert (Forall P (below 128 (ucs2decode s))) as Hb.
  { apply Forall_forall. intros c [Hc Hin]%list_elem_of_filter.
    apply (proj1 (Forall_forall _ _) (ucs2decode_small P s Hu Hs) c Hin Hc). }
  apply Forall_app. split; [|by eapply Forall_impl].
  destruct (_ =? 0); [done|]. apply Forall_app. split; [done|]. by constructor.
Qed.

(** ** Domains *)

(** No unit of a label ends it. *)
Definition plain_unit (c : Z) : Prop := c <> at_sign /\ regexSeparators c = false.

Lemma plain_stop c : plain_unit c -> (full_stop =? c) = false.
Proof.
  intros [_ H]. unfold regexSeparators in H. bool_hyps. apply Z.eqb_neq. unfold full_stop. lia.
Qed.

Lemma join_Forall (P : Z -> Prop) sep l :
  Forall P sep -> Forall (Forall P) l -> Forall P (join sep l).
Proof.
  intros Hs HF. induction HF as [|x l Hx HF IH]; [constructor|]. destruct l as [|y l]; [done|].
  change (join sep (x :: y :: l)) with (x ++ sep ++ join sep (y :: l)).
  apply Forall_app. split; [done|]. by apply Forall_app.
Qed.

(** The part of an address before its domain. *)
Definition local_part (local : option jsstr) : jsstr :=
  match local with Some l => l ++ [at_sign] | None => [] end.

Lemma mapDomain_labels f local labels :
  labels <> [] -> Forall (Forall plain_unit) labels ->
  Forall (fun c => c <> at_sign) (default [] local) ->
  mapDomain (local_part local ++ join [full_stop] labels) f =
  result_bind (map labels f) (fun encoded => Ok (local_part local ++ join [full_stop] encoded)).
Proof.
  intros Hl HF Hlocal. set (domain := join [full_stop] labels).
  assert (Forall (fun c => (at_sign =? c) = false) domain) as Hat.
  { apply join_Forall; [by repeat constructor|]. eapply Forall_impl; [exact HF|]. intros x Hx.
    eapply Forall_impl; [exact Hx|]. intros c [Hc _]. by apply Z.eqb_neq. }
  assert ((fun c => if regexSeparators c then full_stop else c) <$> domain = domain) as Hid.
  { transitivity (id <$> domain); [|apply list_fmap_id]. apply Forall_fmap_ext_1.
    apply join_Forall; [by repeat constructor|]. eapply Forall_impl; [exact HF|]. intros x Hx.
    eapply Forall_impl; [exact Hx|]. by intros c [_ ->]. }
  assert (split domain full_stop = labels) as Hsplit.
  { apply (segments_join (fun o => from_option (Z.eqb full_stop) false o) full_stop); [done..|].
    eapply Forall_impl; [exact HF|]. intros x Hx. eapply Forall_impl; [exact Hx|]. apply plain_stop. }
  unfold mapDomain, split at 1. destruct local as [l|]; cbn [local_part default] in *.
  - rewrite <- app_assoc. cbn [app]. rewrite split_by_app by done. rewrite !split_by_nil; [|done|].
    + cbn [app]. by rewrite Hid, Hsplit.
    + eapply Forall_impl; [exact Hlocal|]. intros c Hc. apply Z.eqb_neq. congruence.
  - cbn [app]. rewrite split_by_nil by done. cbn [app]. by rewrite Hid, Hsplit.
Qed.

Lemma map_ok {A B} (f : A -> result B) l l' :
  Forall2 (fun x y => f x = Ok y) l l' -> map l f = Ok l'.
Proof. induction 1 as [|x y l l' Hxy HF IH]; [done|]. cbn [map]. by rewrite IH, Hxy. Qed.

(** A label that the conversions keep: [toUnicode] puts basic code points in
    lower case, and takes what starts with [xn--] for an encoded label. *)
Record good_label (l : jsstr) : Prop := {
  label_units : Forall unit16 l;
  label_plain : Forall plain_unit l;
  label_lower : Forall (fun c => ~ 65 <= c <= 90) l;
  label_short : len (ucs2decode l) <= 1927;
  label_unicode : regexNonASCII l = true \/ startsWith l regexPunycode = false;
}.

Definition lower_unit (c : Z) : Z := if (65 <=? c) && (c <=? 90) then c + 32 else c.

Section Domains.
Context (toLowerCase : jsstr -> jsstr).
Hypothesis lower_ascii : forall s,
  Forall (fun c => 0 <= c < 128) s -> toLowerCase s = lower_unit <$> s.

Lemma lower_id s :
  Forall (fun c => 0 <= c < 128 /\ ~ 65 <= c <= 90) s -> toLowerCase s = s.
Proof.
  intros HF. rewrite lower_ascii by (eapply Forall_impl; [exact HF|]; by intros c [? _]).
  transitivity (id <$> s); [|apply list_fmap_id]. apply Forall_fmap_ext_1.
  eapply Forall_impl; [exact HF|]. intros c [_ Hc]. unfold lower_unit, id.
  destruct (_ && _) eqn:E; [bool_hyps; lia|done].
Qed.

(** One label, encoded and decoded. *)
Definition to_ascii (string : jsstr) : result jsstr :=
  if regexNonASCII string then let* p := encode string in Ok ("xn--"%js ++ p) else Ok string.
Definition to_unicode (string : jsstr) : result jsstr :=
  if startsWith string regexPunycode then decode (toLowerCase (slice_from string 4)) else Ok string.

Lemma label_roundtrip l :
  good_label l -> exists a, to_ascii l = Ok a /\ to_unicode a = Ok l /\ Forall plain_unit a /\
    Forall (fun c => 0 <= c < 128) a.
Proof.
  intros [Hu Hp Hlow Hs Hx]. unfold to_ascii. destruct (regexNonASCII l) eqn:E.
  - destruct (encode_decode l Hu Hs) as (p & -> & Hw & Hd). cbn [result_bind].
    assert (Forall (fun c => plain_unit c /\ 0 <= c < 128 /\ ~ 65 <= c <= 90) p) as Hpp.
    { eapply written_Forall; [| |exact Hu| |exact Hw].
      - unfold digit_char, plain_unit, regexSeparators, at_sign. intros c Hc.
        split_and!; [lia| |lia..]. repeat (ztest; cbn [orb]). done.
      - unfold plain_unit, at_sign. split_and!; (done || lia).
      - pose proof (proj2 (Forall_and _ _) (conj Hu (proj2 (Forall_and _ _) (conj Hp Hlow)))) as HF.
        eapply Forall_impl; [exact HF|]. unfold unit16. intros c (? & ? & ?) ?. split_and!; [done|lia..|done]. }
    exists ("xn--"%js ++ p). unfold to_unicode.
    replace (startsWith ("xn--"%js ++ p) regexPunycode) with true by done.
    split_and!; [done| |repeat (constructor; [done|])|repeat (constructor; [done|])].
    + rewrite (slice_suffix "xn--"%js p 4) by done. rewrite lower_id; [done|].
      eapply Forall_impl; [exact Hpp|]. by intros c [_ ?].
    + eapply Forall_impl; [exact Hpp|]. by intros c [? _].
    + eapply Forall_impl; [exact Hpp|]. by intros c (_ & ? & _).
  - destruct Hx as [|Hx]; [done|]. exists l. unfold to_unicode. rewrite Hx.
    split_and!; [done..|]. apply Forall_forall. intros c Hc.
    pose proof (proj1 (Forall_forall _ _) Hu c Hc) as Hc'. unfold unit16 in Hc'.
    split; [lia|]. apply Z.lt_nge. intros Hge.
    assert (regexNonASCII l = true) as Hn; [|congruence].
    apply existsb_exists. exists c. split; [by apply list_elem_of_In|]. apply Z.ltb_lt. lia.
Qed.
End Domains.

(** C31. [decode] inverts [encode]: a string of at most 1927 code points
    (lone surrogates included) is encoded without an error, to ASCII, and
    decoding gives it back. *)
Theorem punycode_roundtrip s :
  Forall unit16 s -> len (ucs2decode s) <= 1927 ->
  exists p, encode s = Ok p /\ Forall (fun c => 0 <= c < 128) p /\ decode p = Ok s.
Proof.
  intros Hs Hl. destruct (encode_decode s Hs Hl) as (p & He & Hw & Hd).
  exists p. split_and!; [done| |done]. eapply written_Forall; [| |done| |done].
  - unfold digit_char. lia.
  - lia.
  - eapply Forall_impl; [exact Hs|]. unfold unit16. lia.
Qed.

Definition demo_label : jsstr := [0x62; 0xFC; 0xD83D; 0xDCA9; 0x2D; 0xFC; 0xDC00].

Lemma punycode_roundtrip_witness :
  exists p, encode demo_label = Ok p /\ Forall (fun c => 0 <= c < 128) p /\ decode p = Ok demo_label.
Proof.
  apply (punycode_roundtrip demo_label).
  - unfold demo_label, unit16. repeat constructor; lia.
  - vm_compute. congruence.
Defined.

(** Domain names and email addresses survive the trip to ASCII and back:
    when the labels are in lower case, hold no separator and, if ASCII, do not
    start with [xn--], [toASCII] succeeds, makes the domain ASCII, and
    [toUnicode] restores the address, local part included. *)
Theorem punycode_domain_roundtrip toLowerCase local labels :
  (forall s, Forall (fun c => 0 <= c < 128) s -> toLowerCase s = lower_unit <$> s) ->
  Forall (fun c => c <> at_sign) (default [] local) ->
  labels <> [] -> Forall good_label labels ->
  let address := local_part local ++ join [full_stop] labels in
  exists domain, toASCII address = Ok (local_part local ++ domain) /\
    Forall (fun c => 0 <= c < 128) domain /\
    toUnicode toLowerCase (local_part local ++ domain) = Ok address.
Proof.
  intros Hlower Hlocal Hne HF. cbv zeta.
  assert (exists encoded, Forall2 (fun l a => to_ascii l = Ok a /\ to_unicode toLowerCase a = Ok l /\
    Forall plain_unit a /\ Forall (fun c => 0 <= c < 128) a) labels encoded) as [encoded H2].
  { clear Hne. induction HF as [|l labels Hl HF [encoded IH]]; [by exists []|].
    destruct (label_roundtrip toLowerCase Hlower l Hl) as (a & Ha). exists (a :: encoded). by constructor. }
  exists (join [full_stop] encoded). unfold toASCII, toUnicode.
  assert (Forall (Forall plain_unit) labels) by (eapply Forall_impl; [exact HF|]; apply label_plain).
  assert (Forall (fun a => Forall plain_unit a /\ Forall (fun c => 0 <= c < 128) a) encoded) as HE.
  { eapply Forall2_Forall_r; [exact H2|]. apply Forall_true. by intros ? ? (_ & _ & ?). }
  rewrite Forall_and in HE. destruct HE as [HE1 HE2].
  rewrite !mapDomain_labels; try done; [|by intros ->; apply Forall2_nil_inv_r in H2].
  rewrite (map_ok _ labels encoded) by (eapply Forall2_impl; [exact H2|]; by intros ? ? (? & _)).
  rewrite (map_ok _ encoded labels).
  - split_and!; [done| |done]. apply join_Forall; [by repeat constructor|done].
  - apply Forall2_flip. eapply Forall2_impl; [exact H2|]. by intros ? ? (_ & ? & _).
Qed.

Definition demo_labels : list jsstr := [[0x6D; 0x61; 0xF1; 0x61; 0x6E; 0x61]; "com"%js].

Lemma demo_labels_good : Forall good_label demo_labels.
Proof.
  unfold demo_labels. apply Forall_cons. split; [|apply Forall_cons; split; [|apply Forall_nil; done]].
  all: split; [unfold unit16|unfold plain_unit, at_sign| |vm_compute; congruence|].
  all: apply (bool_decide_unpack _); vm_compute; exact I.
Qed.

Lemma punycode_domain_roundtrip_witness :
  exists domain, toASCII (local_part (Some "Me"%js) ++ join [full_stop] demo_labels) =
      Ok (local_part (Some "Me"%js) ++ domain) /\
    Forall (fun c => 0 <= c < 128) domain /\
    toUnicode (fmap lower_unit) (local_part (Some "Me"%js) ++ domain) =
      Ok (local_part (Some "Me"%js) ++ join [full_stop] demo_labels).
Proof.
  apply (punycode_domain_roundtrip (fmap lower_unit) (Some "Me"%js) demo_labels).
  - done.
  - repeat constructor; unfold at_sign; lia.
  - done.
  - apply demo_labels_good.
Defined.

(** An address with two at signs loses what follows the second. *)
Lemma mapDomain_second_at : toASCII "a@b@c" = Ok "a@b"%js.
Proof. vm_compute. reflexivity. Qed.

(** The bound is the first length at which the round trip can fail: the
    decoder's counter [i] reaches a value that [delta] does not. *)
Lemma punycode_roundtrip_sharp :
  let s := 0xDBFF :: 0xDF71 :: replicate 1926 97 ++ [0x80] in
  len (ucs2decode s) = 1928 /\
  exists p, encode s = Ok p /\ decode p = error overflow.
Proof.
  split; [vm_compute; reflexivity|]. eexists. split; [vm_compute; reflexivity|]. vm_compute. reflexivity.
Qed.
