(* ===== verification/Buffer.v ===== *)
(** * [internal/buffer]: the numbers of a buffer

    Models the readers and writers of [libjs-node/internal/buffer.js]: signed
    and unsigned integers of 1 to 6 bytes and of 8 bytes (BigInt), and floating
    point numbers, in both byte orders, with their checks of the offset and of
    the value.  A buffer is the list of its bytes.

    A writer answers the buffer it leaves and the offset it returns; it checks
    everything before its first store.  An offset is [undefined], a number, or
    a value of another type ([Other]; BigInts and symbols, which [Math.floor]
    rejects, are left out).  Values are numbers (after [+value]) or BigInts;
    numbers are exact, so products that underflow a double are outside the
    model.  The bytes of a floating point number are a parameter. *)

From Stdlib Require Import QArith Qround.
From S2P Require Import Prelude JsString JsNumber.
#[local] Open Scope Z_scope.

Module Buffer.

Abbreviation buffer := (list Z) (only parsing).

Inductive arg :=
  | Undefined
  | Number (n : num)
  | Other.

(** ** Checks *)

Definition ERR_INVALID_ARG_TYPE (name expected : jsstr) : jserror :=
  JsError "ERR_INVALID_ARG_TYPE" [name; expected].
Definition ERR_OUT_OF_RANGE (name range : jsstr) : jserror :=
  JsError "ERR_OUT_OF_RANGE" [name; range].
Definition ERR_BUFFER_OUT_OF_BOUNDS : jserror := JsError "ERR_BUFFER_OUT_OF_BOUNDS" [].

Definition validateNumber (value : arg) (name : jsstr) : result num :=
  match value with
  | Number n => Ok n
  | _ => Throw (ERR_INVALID_ARG_TYPE name "number")
  end.

(** [buf[n]]: [undefined] unless [n] is an index of the buffer. *)
Definition elem (buf : buffer) (n : num) : option Z := integer_of n ≫= charCodeAt buf.

(** [buf[i]] between the two ends that were checked. *)
Definition byte_at (buf : buffer) (i : Z) : Z := default 0 (charCodeAt buf i).

Definition num_add (n : num) (k : Z) : num :=
  match n with Fin q => Fin (q + inject_Z k) | _ => n end.

(** [MathFloor(value) === value] *)
Definition floor_same (n : num) : bool :=
  match n with
  | NaN => false
  | PosInf | NegInf => true
  | Fin _ => match integer_of n with Some _ => true | None => false end
  end.

Definition boundsError {A} (value : arg) (length : Z) (type : option jsstr) : result A :=
  match value with
  | Number n =>
      if negb (floor_same n)
      then Throw (ERR_OUT_OF_RANGE (default "offset"%js type) "an integer")
      else if length <? 0 then Throw ERR_BUFFER_OUT_OF_BOUNDS
      else Throw (ERR_OUT_OF_RANGE (default "offset"%js type)
                    (">= "%js ++ js_of_Z (if type then 1 else 0) ++ " and <= "%js ++ js_of_Z length))
  | _ => Throw (ERR_INVALID_ARG_TYPE (default "undefined"%js type) "number")
  end.

Definition checkBounds (buf : buffer) (offset : arg) (byteLength : Z) : result Z :=
  let* n := validateNumber offset "offset" in
  match elem buf n, elem buf (num_add n byteLength) with
  | Some _, Some _ => Ok (default 0 (integer_of n))
  | _, _ => boundsError (Number n) (len buf - (byteLength + 1)) None
  end.

(** The range an error shows; [n] is the suffix of BigInts. *)
Definition range_text (min max byteLength : Z) (n : jsstr) : jsstr :=
  if 3 <? byteLength then
    if min =? 0
    then ">= 0"%js ++ n ++ " and < 2"%js ++ n ++ " ** "%js ++ js_of_Z ((byteLength + 1) * 8) ++ n
    else ">= -(2"%js ++ n ++ " ** "%js ++ js_of_Z ((byteLength + 1) * 8 - 1) ++ n
         ++ ") and < 2"%js ++ n ++ " ** "%js ++ js_of_Z ((byteLength + 1) * 8 - 1) ++ n
  else ">= "%js ++ js_of_Z min ++ n ++ " and <= "%js ++ js_of_Z max ++ n.

Definition checkInt (value : num) (min max : Z) (buf : buffer) (offset : arg) (byteLength : Z)
    : result Z :=
  if num_gt value max || num_lt value min
  then Throw (ERR_OUT_OF_RANGE "value" (range_text min max byteLength []))
  else checkBounds buf offset byteLength.

(** [checkInt] of a BigInt. *)
Definition checkBigInt (value min max : Z) (buf : buffer) (offset : arg) (byteLength : Z)
    : result Z :=
  if (max <? value) || (value <? min)
  then Throw (ERR_OUT_OF_RANGE "value" (range_text min max byteLength "n"))
  else checkBounds buf offset byteLength.

(** How every reader starts: the offset, and the first and the last byte. *)
Definition ends (buf : buffer) (offset : arg) (byteLength : Z) : result (Z * Z * Z) :=
  let* n := validateNumber offset "offset" in
  match elem buf n, elem buf (num_add n (byteLength - 1)) with
  | Some first, Some last => Ok (default 0 (integer_of n), first, last)
  | _, _ => boundsError (Number n) (len buf - byteLength) None
  end.

(** [offset = 0] *)
Definition or_zero (offset : arg) : arg :=
  match offset with Undefined => Number (int 0) | _ => offset end.

(** ** Reading integers *)

Definition readBigUInt64LE (buf : buffer) (offset : arg) : result Z :=
  let* (offset, first, last) := ends buf (or_zero offset) 8 in
  let lo := first + byte_at buf (offset + 1) * 2 ^ 8 + byte_at buf (offset + 2) * 2 ^ 16
            + byte_at buf (offset + 3) * 2 ^ 24 in
  let hi := byte_at buf (offset + 4) + byte_at buf (offset + 5) * 2 ^ 8
            + byte_at buf (offset + 6) * 2 ^ 16 + last * 2 ^ 24 in
  Ok (lo + Z.shiftl hi 32).

Definition readBigUInt64BE (buf : buffer) (offset : arg) : result Z :=
  let* (offset, first, last) := ends buf (or_zero offset) 8 in
  let hi := first * 2 ^ 24 + byte_at buf (offset + 1) * 2 ^ 16 + byte_at buf (offset + 2) * 2 ^ 8
            + byte_at buf (offset + 3) in
  let lo := byte_at buf (offset + 4) * 2 ^ 24 + byte_at buf (offset + 5) * 2 ^ 16
            + byte_at buf (offset + 6) * 2 ^ 8 + last in
  Ok (Z.shiftl hi 32 + lo).

Definition readBigInt64LE (buf : buffer) (offset : arg) : result Z :=
  let* (offset, first, last) := ends buf (or_zero offset) 8 in
  let val := byte_at buf (offset + 4) + byte_at buf (offset + 5) * 2 ^ 8
             + byte_at buf (offset + 6) * 2 ^ 16 + js_shl last 24 in
  Ok (Z.shiftl val 32
      + (first + byte_at buf (offset + 1) * 2 ^ 8 + byte_at buf (offset + 2) * 2 ^ 16
         + byte_at buf (offset + 3) * 2 ^ 24)).

Definition readBigInt64BE (buf : buffer) (offset : arg) : result Z :=
  let* (offset, first, last) := ends buf (or_zero offset) 8 in
  let val := js_shl first 24 + byte_at buf (offset + 1) * 2 ^ 16
             + byte_at buf (offset + 2) * 2 ^ 8 + byte_at buf (offset + 3) in
  Ok (Z.shiftl val 32
      + (byte_at buf (offset + 4) * 2 ^ 24 + byte_at buf (offset + 5) * 2 ^ 16
         + byte_at buf (offset + 6) * 2 ^ 8 + last)).

Definition readUInt48LE (buf : buffer) (offset : arg) : result Z :=
  let* (offset, first, last) := ends buf (or_zero offset) 6 in
  Ok (first + byte_at buf (offset + 1) * 2 ^ 8 + byte_at buf (offset + 2) * 2 ^ 16
      + byte_at buf (offset + 3) * 2 ^ 24 + (byte_at buf (offset + 4) + last * 2 ^ 8) * 2 ^ 32).

Definition readUInt40LE (buf : buffer) (offset : arg) : result Z :=
  let* (offset, first, last) := ends buf (or_zero offset) 5 in
  Ok (first + byte_at buf (offset + 1) * 2 ^ 8 + byte_at buf (offset + 2) * 2 ^ 16
      + byte_at buf (offset + 3) * 2 ^ 24 + last * 2 ^ 32).

Definition readUInt32LE (buf : buffer) (offset : arg) : result Z :=
  let* (offset, first, last) := ends buf (or_zero offset) 4 in
  Ok (first + byte_at buf (offset + 1) * 2 ^ 8 + byte_at buf (offset + 2) * 2 ^ 16
      + last * 2 ^ 24).

Definition readUInt24LE (buf : buffer) (offset : arg) : result Z :=
  let* (offset, first, last) := ends buf (or_zero offset) 3 in
  Ok (first + byte_at buf (offset + 1) * 2 ^ 8 + last * 2 ^ 16).

Definition readUInt16LE (buf : buffer) (offset : arg) : result Z :=
  let* (offset, first, last) := ends buf (or_zero offset) 2 in
  Ok (first + last * 2 ^ 8).

Definition readUInt8 (buf : buffer) (offset : arg) : result Z :=
  let* n := validateNumber (or_zero offset) "offset" in
  match elem buf n with
  | Some val => Ok val
  | None => boundsError (Number n) (len buf - 1) None
  end.

Definition readUInt48BE (buf : buffer) (offset : arg) : result Z :=
  let* (offset, first, last) := ends buf (or_zero offset) 6 in
  Ok ((first * 2 ^ 8 + byte_at buf (offset + 1)) * 2 ^ 32 + byte_at buf (offset + 2) * 2 ^ 24
      + byte_at buf (offset + 3) * 2 ^ 16 + byte_at buf (offset + 4) * 2 ^ 8 + last).

Definition readUInt40BE (buf : buffer) (offset : arg) : result Z :=
  let* (offset, first, last) := ends buf (or_zero offset) 5 in
  Ok (first * 2 ^ 32 + byte_at buf (offset + 1) * 2 ^ 24 + byte_at buf (offset + 2) * 2 ^ 16
      + byte_at buf (offset + 3) * 2 ^ 8 + last).

Definition readUInt32BE (buf : buffer) (offset : arg) : result Z :=
  let* (offset, first, last) := ends buf (or_zero offset) 4 in
  Ok (first * 2 ^ 24 + byte_at buf (offset + 1) * 2 ^ 16 + byte_at buf (offset + 2) * 2 ^ 8
      + last).

Definition readUInt24BE (buf : buffer) (offset : arg) : result Z :=
  let* (offset, first, last) := ends buf (or_zero offset) 3 in
  Ok (first * 2 ^ 16 + byte_at buf (offset + 1) * 2 ^ 8 + last).

Definition readUInt16BE (buf : buffer) (offset : arg) : result Z :=
  let* (offset, first, last) := ends buf (or_zero offset) 2 in
  Ok (first * 2 ^ 8 + last).

Definition readInt48LE (buf : buffer) (offset : arg) : result Z :=
  let* (offset, first, last) := ends buf (or_zero offset) 6 in
  let val := byte_at buf (offset + 4) + last * 2 ^ 8 in
  Ok (js_or val (js_and val (2 ^ 15) * 0x1fffe) * 2 ^ 32 + first
      + byte_at buf (offset + 1) * 2 ^ 8 + byte_at buf (offset + 2) * 2 ^ 16
      + byte_at buf (offset + 3) * 2 ^ 24).

Definition readInt40LE (buf : buffer) (offset : arg) : result Z :=
  let* (offset, first, last) := ends buf (or_zero offset) 5 in
  Ok (js_or last (js_and last (2 ^ 7) * 0x1fffffe) * 2 ^ 32 + first
      + byte_at buf (offset + 1) * 2 ^ 8 + byte_at buf (offset + 2) * 2 ^ 16
      + byte_at buf (offset + 3) * 2 ^ 24).

Definition readInt32LE (buf : buffer) (offset : arg) : result Z :=
  let* (offset, first, last) := ends buf (or_zero offset) 4 in
  Ok (first + byte_at buf (offset + 1) * 2 ^ 8 + byte_at buf (offset + 2) * 2 ^ 16
      + js_shl last 24).

Definition readInt24LE (buf : buffer) (offset : arg) : result Z :=
  let* (offset, first, last) := ends buf (or_zero offset) 3 in
  let val := first + byte_at buf (offset + 1) * 2 ^ 8 + last * 2 ^ 16 in
  Ok (js_or val (js_and val (2 ^ 23) * 0x1fe)).

Definition readInt16LE (buf : buffer) (offset : arg) : result Z :=
  let* (offset, first, last) := ends buf (or_zero offset) 2 in
  let val := first + last * 2 ^ 8 in
  Ok (js_or val (js_and val (2 ^ 15) * 0x1fffe)).

Definition readInt8 (buf : buffer) (offset : arg) : result Z :=
  let* n := validateNumber (or_zero offset) "offset" in
  match elem buf n with
  | Some val => Ok (js_or val (js_and val (2 ^ 7) * 0x1fffffe))
  | None => boundsError (Number n) (len buf - 1) None
  end.

Definition readInt48BE (buf : buffer) (offset : arg) : result Z :=
  let* (offset, first, last) := ends buf (or_zero offset) 6 in
  let val := byte_at buf (offset + 1) + first * 2 ^ 8 in
  Ok (js_or val (js_and val (2 ^ 15) * 0x1fffe) * 2 ^ 32
      + byte_at buf (offset + 2) * 2 ^ 24 + byte_at buf (offset + 3) * 2 ^ 16
      + byte_at buf (offset + 4) * 2 ^ 8 + last).

Definition readInt40BE (buf : buffer) (offset : arg) : result Z :=
  let* (offset, first, last) := ends buf (or_zero offset) 5 in
  Ok (js_or first (js_and first (2 ^ 7) * 0x1fffffe) * 2 ^ 32
      + byte_at buf (offset + 1) * 2 ^ 24 + byte_at buf (offset + 2) * 2 ^ 16
      + byte_at buf (offset + 3) * 2 ^ 8 + last).

Definition readInt32BE (buf : buffer) (offset : arg) : result Z :=
  let* (offset, first, last) := ends buf (or_zero offset) 4 in
  Ok (js_shl first 24 + byte_at buf (offset + 1) * 2 ^ 16 + byte_at buf (offset + 2) * 2 ^ 8
      + last).

Definition readInt24BE (buf : buffer) (offset : arg) : result Z :=
  let* (offset, first, last) := ends buf (or_zero offset) 3 in
  let val := first * 2 ^ 16 + byte_at buf (offset + 1) * 2 ^ 8 + last in
  Ok (js_or val (js_and val (2 ^ 23) * 0x1fe)).

Definition readInt16BE (buf : buffer) (offset : arg) : result Z :=
  let* (offset, first, last) := ends buf (or_zero offset) 2 in
  let val := first * 2 ^ 8 + last in
  Ok (js_or val (js_and val (2 ^ 15) * 0x1fffe)).

(** [byteLength === k] *)
Definition is_length (byteLength : arg) (k : Z) : bool :=
  match byteLength with Number n => bool_decide (integer_of n = Some k) | _ => false end.

(** The methods with a [byteLength]: [r6] to [r1] read each width. *)
Definition by_length (buf : buffer) (offset byteLength : arg)
    (r6 r5 r3 r4 r2 r1 : buffer -> arg -> result Z) : result Z :=
  match offset with
  | Undefined => Throw (ERR_INVALID_ARG_TYPE "offset" "number")
  | _ =>
      if is_length byteLength 6 then r6 buf offset
      else if is_length byteLength 5 then r5 buf offset
      else if is_length byteLength 3 then r3 buf offset
      else if is_length byteLength 4 then r4 buf offset
      else if is_length byteLength 2 then r2 buf offset
      else if is_length byteLength 1 then r1 buf offset
      else boundsError byteLength 6 (Some "byteLength"%js)
  end.

Definition readUIntLE (buf : buffer) (offset byteLength : arg) : result Z :=
  by_length buf offset byteLength
    readUInt48LE readUInt40LE readUInt24LE readUInt32LE readUInt16LE readUInt8.
Definition readUIntBE (buf : buffer) (offset byteLength : arg) : result Z :=
  by_length buf offset byteLength
    readUInt48BE readUInt40BE readUInt24BE readUInt32BE readUInt16BE readUInt8.
Definition readIntLE (buf : buffer) (offset byteLength : arg) : result Z :=
  by_length buf offset byteLength
    readInt48LE readInt40LE readInt24LE readInt32LE readInt16LE readInt8.
Definition readIntBE (buf : buffer) (offset byteLength : arg) : result Z :=
  by_length buf offset byteLength
    readInt48BE readInt40BE readInt24BE readInt32BE readInt16BE readInt8.

(** ** Writing integers *)

(** [buf[i] = z] for an integer and for a number. *)
Definition store (buf : buffer) (i z : Z) : buffer := <[Z.to_nat i := z mod 2 ^ 8]> buf.
Definition store_num (buf : buffer) (i : Z) (n : num) : buffer := store buf i (toUint8 n).

(** [MathFloor(value * 2 ** -32)] *)
Definition high_word (value : num) : num :=
  match value with Fin q => int (Qfloor (q / inject_Z (2 ^ 32))) | n => n end.

Definition writeBigU_Int64LE (buf : buffer) (value : Z) (offset : arg) (min max : Z)
    : result (buffer * Z) :=
  let* offset := checkBigInt value min max buf offset 7 in
  let lo := Z.land value 0xffffffff in
  let buf := store buf offset lo in
  let lo := js_shr lo 8 in
  let buf := store buf (offset + 1) lo in
  let lo := js_shr lo 8 in
  let buf := store buf (offset + 2) lo in
  let lo := js_shr lo 8 in
  let buf := store buf (offset + 3) lo in
  let hi := Z.land (Z.shiftr value 32) 0xffffffff in
  let buf := store buf (offset + 4) hi in
  let hi := js_shr hi 8 in
  let buf := store buf (offset + 5) hi in
  let hi := js_shr hi 8 in
  let buf := store buf (offset + 6) hi in
  let hi := js_shr hi 8 in
  let buf := store buf (offset + 7) hi in
  Ok (buf, offset + 8).

Definition writeBigU_Int64BE (buf : buffer) (value : Z) (offset : arg) (min max : Z)
    : result (buffer * Z) :=
  let* offset := checkBigInt value min max buf offset 7 in
  let lo := Z.land value 0xffffffff in
  let buf := store buf (offset + 7) lo in
  let lo := js_shr lo 8 in
  let buf := store buf (offset + 6) lo in
  let lo := js_shr lo 8 in
  let buf := store buf (offset + 5) lo in
  let lo := js_shr lo 8 in
  let buf := store buf (offset + 4) lo in
  let hi := Z.land (Z.shiftr value 32) 0xffffffff in
  let buf := store buf (offset + 3) hi in
  let hi := js_shr hi 8 in
  let buf := store buf (offset + 2) hi in
  let hi := js_shr hi 8 in
  let buf := store buf (offset + 1) hi in
  let hi := js_shr hi 8 in
  let buf := store buf offset hi in
  Ok (buf, offset + 8).

Definition writeBigUInt64LE (buf : buffer) (value : Z) (offset : arg) : result (buffer * Z) :=
  writeBigU_Int64LE buf value (or_zero offset) 0 0xffffffffffffffff.
Definition writeBigUInt64BE (buf : buffer) (value : Z) (offset : arg) : result (buffer * Z) :=
  writeBigU_Int64BE buf value (or_zero offset) 0 0xffffffffffffffff.
Definition writeBigInt64LE (buf : buffer) (value : Z) (offset : arg) : result (buffer * Z) :=
  writeBigU_Int64LE buf value (or_zero offset) (-0x8000000000000000) 0x7fffffffffffffff.
Definition writeBigInt64BE (buf : buffer) (value : Z) (offset : arg) : result (buffer * Z) :=
  writeBigU_Int64BE buf value (or_zero offset) (-0x8000000000000000) 0x7fffffffffffffff.

Definition writeU_Int48LE (buf : buffer) (value : num) (offset : arg) (min max : Z)
    : result (buffer * Z) :=
  let* offset := checkInt value min max buf offset 5 in
  let newVal := high_word value in
  let buf := store_num buf offset value in
  let value := js_ushr (toUint32 value) 8 in
  let buf := store buf (offset + 1) value in
  let value := js_ushr value 8 in
  let buf := store buf (offset + 2) value in
  let value := js_ushr value 8 in
  let buf := store buf (offset + 3) value in
  let buf := store_num buf (offset + 4) newVal in
  let buf := store buf (offset + 5) (js_ushr (toUint32 newVal) 8) in
  Ok (buf, offset + 6).

Definition writeU_Int40LE (buf : buffer) (value : num) (offset : arg) (min max : Z)
    : result (buffer * Z) :=
  let* offset := checkInt value min max buf offset 4 in
  let newVal := value in
  let buf := store_num buf offset value in
  let value := js_ushr (toUint32 value) 8 in
  let buf := store buf (offset + 1) value in
  let value := js_ushr value 8 in
  let buf := store buf (offset + 2) value in
  let value := js_ushr value 8 in
  let buf := store buf (offset + 3) value in
  let buf := store_num buf (offset + 4) (high_word newVal) in
  Ok (buf, offset + 5).

Definition writeU_Int32LE (buf : buffer) (value : num) (offset : arg) (min max : Z)
    : result (buffer * Z) :=
  let* offset := checkInt value min max buf offset 3 in
  let buf := store_num buf offset value in
  let value := js_ushr (toUint32 value) 8 in
  let buf := store buf (offset + 1) value in
  let value := js_ushr value 8 in
  let buf := store buf (offset + 2) value in
  let value := js_ushr value 8 in
  let buf := store buf (offset + 3) value in
  Ok (buf, offset + 4).

Definition writeU_Int24LE (buf : buffer) (value : num) (offset : arg) (min max : Z)
    : result (buffer * Z) :=
  let* offset := checkInt value min max buf offset 2 in
  let buf := store_num buf offset value in
  let value := js_ushr (toUint32 value) 8 in
  let buf := store buf (offset + 1) value in
  let value := js_ushr value 8 in
  let buf := store buf (offset + 2) value in
  Ok (buf, offset + 3).

Definition writeU_Int16LE (buf : buffer) (value : num) (offset : arg) (min max : Z)
    : result (buffer * Z) :=
  let* offset := checkInt value min max buf offset 1 in
  let buf := store_num buf offset value in
  let buf := store buf (offset + 1) (js_ushr (toUint32 value) 8) in
  Ok (buf, offset + 2).

Definition writeU_Int8 (buf : buffer) (value : num) (offset : arg) (min max : Z)
    : result (buffer * Z) :=
  let* n := validateNumber offset "offset" in
  if num_gt value max || num_lt value min
  then Throw (ERR_OUT_OF_RANGE "value" (">= "%js ++ js_of_Z min ++ " and <= "%js ++ js_of_Z max))
  else
    match elem buf n with
    | None => boundsError (Number n) (len buf - 1) None
    | Some _ =>
        let offset := default 0 (integer_of n) in
        Ok (store_num buf offset value, offset + 1)
    end.

Definition writeU_Int48BE (buf : buffer) (value : num) (offset : arg) (min max : Z)
    : result (buffer * Z) :=
  let* offset := checkInt value min max buf offset 5 in
  let newVal := high_word value in
  let buf := store buf offset (js_ushr (toUint32 newVal) 8) in
  let offset := offset + 1 in
  let buf := store_num buf offset newVal in
  let offset := offset + 1 in
  let buf := store_num buf (offset + 3) value in
  let value := js_ushr (toUint32 value) 8 in
  let buf := store buf (offset + 2) value in
  let value := js_ushr value 8 in
  let buf := store buf (offset + 1) value in
  let value := js_ushr value 8 in
  let buf := store buf offset value in
  Ok (buf, offset + 4).

Definition writeU_Int40BE (buf : buffer) (value : num) (offset : arg) (min max : Z)
    : result (buffer * Z) :=
  let* offset := checkInt value min max buf offset 4 in
  let buf := store_num buf offset (high_word value) in
  let offset := offset + 1 in
  let buf := store_num buf (offset + 3) value in
  let value := js_ushr (toUint32 value) 8 in
  let buf := store buf (offset + 2) value in
  let value := js_ushr value 8 in
  let buf := store buf (offset + 1) value in
  let value := js_ushr value 8 in
  let buf := store buf offset value in
  Ok (buf, offset + 4).

Definition writeU_Int32BE (buf : buffer) (value : num) (offset : arg) (min max : Z)
    : result (buffer * Z) :=
  let* offset := checkInt value min max buf offset 3 in
  let buf := store_num buf (offset + 3) value in
  let value := js_ushr (toUint32 value) 8 in
  let buf := store buf (offset + 2) value in
  let value := js_ushr value 8 in
  let buf := store buf (offset + 1) value in
  let value := js_ushr value 8 in
  let buf := store buf offset value in
  Ok (buf, offset + 4).

Definition writeU_Int24BE (buf : buffer) (value : num) (offset : arg) (min max : Z)
    : result (buffer * Z) :=
  let* offset := checkInt value min max buf offset 2 in
  let buf := store_num buf (offset + 2) value in
  let value := js_ushr (toUint32 value) 8 in
  let buf := store buf (offset + 1) value in
  let value := js_ushr value 8 in
  let buf := store buf offset value in
  Ok (buf, offset + 3).

Definition writeU_Int16BE (buf : buffer) (value : num) (offset : arg) (min max : Z)
    : result (buffer * Z) :=
  let* offset := checkInt value min max buf offset 1 in
  let buf := store buf offset (js_ushr (toUint32 value) 8) in
  let buf := store_num buf (offset + 1) value in
  Ok (buf, offset + 2).

Definition writeUIntLE (buf : buffer) (value : num) (offset byteLength : arg)
    : result (buffer * Z) :=
  if is_length byteLength 6 then writeU_Int48LE buf value offset 0 0xffffffffffff
  else if is_length byteLength 5 then writeU_Int40LE buf value offset 0 0xffffffffff
  else if is_length byteLength 3 then writeU_Int24LE buf value offset 0 0xffffff
  else if is_length byteLength 4 then writeU_Int32LE buf value offset 0 0xffffffff
  else if is_length byteLength 2 then writeU_Int16LE buf value offset 0 0xffff
  else if is_length byteLength 1 then writeU_Int8 buf value offset 0 0xff
  else boundsError byteLength 6 (Some "byteLength"%js).

Definition writeUIntBE (buf : buffer) (value : num) (offset byteLength : arg)
    : result (buffer * Z) :=
  if is_length byteLength 6 then writeU_Int48BE buf value offset 0 0xffffffffffff
  else if is_length byteLength 5 then writeU_Int40BE buf value offset 0 0xffffffffff
  else if is_length byteLength 3 then writeU_Int24BE buf value offset 0 0xffffff
  else if is_length byteLength 4 then writeU_Int32BE buf value offset 0 0xffffffff
  else if is_length byteLength 2 then writeU_Int16BE buf value offset 0 0xffff
  else if is_length byteLength 1 then writeU_Int8 buf value offset 0 0xff
  else boundsError byteLength 6 (Some "byteLength"%js).

Definition writeIntLE (buf : buffer) (value : num) (offset byteLength : arg)
    : result (buffer * Z) :=
  if is_length byteLength 6
  then writeU_Int48LE buf value offset (-0x800000000000) 0x7fffffffffff
  else if is_length byteLength 5
  then writeU_Int40LE buf value offset (-0x8000000000) 0x7fffffffff
  else if is_length byteLength 3 then writeU_Int24LE buf value offset (-0x800000) 0x7fffff
  else if is_length byteLength 4 then writeU_Int32LE buf value offset (-0x80000000) 0x7fffffff
  else if is_length byteLength 2 then writeU_Int16LE buf value offset (-0x8000) 0x7fff
  else if is_length byteLength 1 then writeU_Int8 buf value offset (-0x80) 0x7f
  else boundsError byteLength 6 (Some "byteLength"%js).

Definition writeIntBE (buf : buffer) (value : num) (offset byteLength : arg)
    : result (buffer * Z) :=
  if is_length byteLength 6
  then writeU_Int48BE buf value offset (-0x800000000000) 0x7fffffffffff
  else if is_length byteLength 5
  then writeU_Int40BE buf value offset (-0x8000000000) 0x7fffffffff
  else if is_length byteLength 3 then writeU_Int24BE buf value offset (-0x800000) 0x7fffff
  else if is_length byteLength 4 then writeU_Int32BE buf value offset (-0x80000000) 0x7fffffff
  else if is_length byteLength 2 then writeU_Int16BE buf value offset (-0x8000) 0x7fff
  else if is_length byteLength 1 then writeU_Int8 buf value offset (-0x80) 0x7f
  else boundsError byteLength 6 (Some "byteLength"%js).

Definition writeUInt32LE (buf : buffer) (value : num) (offset : arg) : result (buffer * Z) :=
  writeU_Int32LE buf value (or_zero offset) 0 0xffffffff.
Definition writeUInt16LE (buf : buffer) (value : num) (offset : arg) : result (buffer * Z) :=
  writeU_Int16LE buf value (or_zero offset) 0 0xffff.
Definition writeUInt8 (buf : buffer) (value : num) (offset : arg) : result (buffer * Z) :=
  writeU_Int8 buf value (or_zero offset) 0 0xff.
Definition writeUInt32BE (buf : buffer) (value : num) (offset : arg) : result (buffer * Z) :=
  writeU_Int32BE buf value (or_zero offset) 0 0xffffffff.
Definition writeUInt16BE (buf : buffer) (value : num) (offset : arg) : result (buffer * Z) :=
  writeU_Int16BE buf value (or_zero offset) 0 0xffff.
Definition writeInt32LE (buf : buffer) (value : num) (offset : arg) : result (buffer * Z) :=
  writeU_Int32LE buf value (or_zero offset) (-0x80000000) 0x7fffffff.
Definition writeInt16LE (buf : buffer) (value : num) (offset : arg) : result (buffer * Z) :=
  writeU_Int16LE buf value (or_zero offset) (-0x8000) 0x7fff.
Definition writeInt8 (buf : buffer) (value : num) (offset : arg) : result (buffer * Z) :=
  writeU_Int8 buf value (or_zero offset) (-0x80) 0x7f.
Definition writeInt32BE (buf : buffer) (value : num) (offset : arg) : result (buffer * Z) :=
  writeU_Int32BE buf value (or_zero offset) (-0x80000000) 0x7fffffff.
Definition writeInt16BE (buf : buffer) (value : num) (offset : arg) : result (buffer * Z) :=
  writeU_Int16BE buf value (or_zero offset) (-0x8000) 0x7fff.

(** ** Floating point numbers

    [float32Array] and [float64Array] give the bytes of a number in the order
    of the machine, and back. *)

Section Floats.
Context {F : Type} (bytes32 bytes64 : F -> list Z) (float32 float64 : list Z -> F).
Context (bigEndian : bool).

Definition readFloatForwards (buf : buffer) (offset : arg) : result F :=
  let* (offset, first, last) := ends buf (or_zero offset) 4 in
  Ok (float32 [first; byte_at buf (offset + 1); byte_at buf (offset + 2); last]).

Definition readFloatBackwards (buf : buffer) (offset : arg) : result F :=
  let* (offset, first, last) := ends buf (or_zero offset) 4 in
  Ok (float32 [last; byte_at buf (offset + 2); byte_at buf (offset + 1); first]).

Definition readDoubleForwards (buf : buffer) (offset : arg) : result F :=
  let* (offset, first, last) := ends buf (or_zero offset) 8 in
  Ok (float64 [first; byte_at buf (offset + 1); byte_at buf (offset + 2); byte_at buf (offset + 3);
               byte_at buf (offset + 4); byte_at buf (offset + 5); byte_at buf (offset + 6); last]).

Definition readDoubleBackwards (buf : buffer) (offset : arg) : result F :=
  let* (offset, first, last) := ends buf (or_zero offset) 8 in
  Ok (float64 [last; byte_at buf (offset + 6); byte_at buf (offset + 5); byte_at buf (offset + 4);
               byte_at buf (offset + 3); byte_at buf (offset + 2); byte_at buf (offset + 1); first]).

(** [this[offset++] = bytes[0]; this[offset++] = bytes[1]; ...] *)
Fixpoint store_all (buf : buffer) (offset : Z) (bytes : list Z) : buffer :=
  match bytes with
  | [] => buf
  | b :: bytes => store_all (store buf offset b) (offset + 1) bytes
  end.

Definition writeDoubleForwards (buf : buffer) (val : F) (offset : arg) : result (buffer * Z) :=
  let* offset := checkBounds buf (or_zero offset) 7 in
  Ok (store_all buf offset (bytes64 val), offset + 8).

Definition writeDoubleBackwards (buf : buffer) (val : F) (offset : arg) : result (buffer * Z) :=
  let* offset := checkBounds buf (or_zero offset) 7 in
  Ok (store_all buf offset (rev (bytes64 val)), offset + 8).

Definition writeFloatForwards (buf : buffer) (val : F) (offset : arg) : result (buffer * Z) :=
  let* offset := checkBounds buf (or_zero offset) 3 in
  Ok (store_all buf offset (bytes32 val), offset + 4).

Definition writeFloatBackwards (buf : buffer) (val : F) (offset : arg) : result (buffer * Z) :=
  let* offset := checkBounds buf (or_zero offset) 3 in
  Ok (store_all buf offset (rev (bytes32 val)), offset + 4).

Definition readFloatLE := if bigEndian then readFloatBackwards else readFloatForwards.
Definition readFloatBE := if bigEndian then readFloatForwards else readFloatBackwards.
Definition readDoubleLE := if bigEndian then readDoubleBackwards else readDoubleForwards.
Definition readDoubleBE := if bigEndian then readDoubleForwards else readDoubleBackwards.
Definition writeFloatLE := if bigEndian then writeFloatBackwards else writeFloatForwards.
Definition writeFloatBE := if bigEndian then writeFloatForwards else writeFloatBackwards.
Definition writeDoubleLE := if bigEndian then writeDoubleBackwards else writeDoubleForwards.
Definition writeDoubleBE := if bigEndian then writeDoubleForwards else writeDoubleBackwards.
End Floats.

(** ** Examples *)

Example write_read_ex :
  writeIntBE [0; 0; 0; 0] (int (-2)) (Number (int 1)) (Number (int 3)) = Ok ([0; 255; 255; 254], 4)
  /\ readIntBE [0; 255; 255; 254] (Number (int 1)) (Number (int 3)) = Ok (-2).
Proof. vm_compute. split; reflexivity. Qed.

Example read_error_ex :
  readUInt32LE [1; 2; 3; 4; 5] (Number (int 2)) =
  Throw (ERR_OUT_OF_RANGE "offset" ">= 0 and <= 1").
Proof. vm_compute. reflexivity. Qed.
End Buffer.
