(* ===== verification/BufferFacts.v ===== *)
(** * Correctness of the numbers of a buffer

    What the readers and writers do is given by two functions: [index], which
    decides whether an offset is within the buffer, and the positional value of
    the bytes there ([value], [bytes]).  Every reader and writer, of every
    width, byte order and signedness, agrees with them on every offset,
    erroneous ones included; reading inverts writing. *)

From Stdlib Require Import QArith Qround.
From S2P Require Import Prelude JsString JsNumber Buffer.
Import Buffer.
#[local] Open Scope Z_scope.

(** ** Specification *)

Inductive endian := LE | BE.

Definition byte (b : Z) : Prop := 0 <= b < 256.

(** The little-endian value of bytes, and the bytes of an integer. *)
Fixpoint of_le (l : list Z) : Z :=
  match l with [] => 0 | b :: l => b + 256 * of_le l end.
Fixpoint le_bytes (n : nat) (z : Z) : list Z :=
  match n with O => [] | S n => z mod 256 :: le_bytes n (z / 256) end.

(** The signed integer a [w]-bit pattern stands for. *)
Definition sign (w v : Z) : Z := if v <? 2 ^ (w - 1) then v else v - 2 ^ w.

Definition value (e : endian) (signed : bool) (n : Z) (l : list Z) : Z :=
  let v := of_le (match e with LE => l | BE => rev l end) in
  if signed then sign (8 * n) v else v.

Definition bytes (e : endian) (n z : Z) : list Z :=
  match e with LE => le_bytes (Z.to_nat n) z | BE => rev (le_bytes (Z.to_nat n) z) end.

Definition in_range (signed : bool) (n z : Z) : Prop :=
  if signed then - 2 ^ (8 * n - 1) <= z < 2 ^ (8 * n - 1) else 0 <= z < 2 ^ (8 * n).

(** The index at which [n] bytes can be accessed, and the error when there is
    none. *)
Definition index (buf : list Z) (offset : arg) (n : Z) : option Z :=
  match offset with
  | Number m =>
      match integer_of m with
      | Some i => if (0 <=? i) && (i + n <=? len buf) then Some i else None
      | None => None
      end
  | _ => None
  end.

Definition offset_error (buf : list Z) (offset : arg) (n : Z) : jserror :=
  match offset with
  | Number m =>
      if negb (floor_same m) then ERR_OUT_OF_RANGE "offset" "an integer"
      else if len buf <? n then ERR_BUFFER_OUT_OF_BOUNDS
      else ERR_OUT_OF_RANGE "offset" (">= 0 and <= "%js ++ js_of_Z (len buf - n))
  | _ => ERR_INVALID_ARG_TYPE "offset" "number"
  end.

Definition window (buf : list Z) (i n : Z) : list Z := take (Z.to_nat n) (drop (Z.to_nat i) buf).
Definition put (buf : list Z) (i : Z) (l : list Z) : list Z :=
  take (Z.to_nat i) buf ++ l ++ drop (Z.to_nat i + length l) buf.

(** The methods for integers of [n] bytes. *)
Definition read (e : endian) (signed : bool) (buf : list Z) (offset : arg) (n : Z) : result Z :=
  match e, signed with
  | LE, false => if n =? 8 then readBigUInt64LE buf offset else readUIntLE buf offset (Number (int n))
  | BE, false => if n =? 8 then readBigUInt64BE buf offset else readUIntBE buf offset (Number (int n))
  | LE, true => if n =? 8 then readBigInt64LE buf offset else readIntLE buf offset (Number (int n))
  | BE, true => if n =? 8 then readBigInt64BE buf offset else readIntBE buf offset (Number (int n))
  end.

Definition write (e : endian) (signed : bool) (buf : list Z) (z : Z) (offset : arg) (n : Z)
    : result (list Z * Z) :=
  match e, signed with
  | LE, false =>
      if n =? 8 then writeBigUInt64LE buf z offset
      else writeUIntLE buf (int z) offset (Number (int n))
  | BE, false =>
      if n =? 8 then writeBigUInt64BE buf z offset
      else writeUIntBE buf (int z) offset (Number (int n))
  | LE, true =>
      if n =? 8 then writeBigInt64LE buf z offset
      else writeIntLE buf (int z) offset (Number (int n))
  | BE, true =>
      if n =? 8 then writeBigInt64BE buf z offset
      else writeIntBE buf (int z) offset (Number (int n))
  end.

Definition widths : list Z := [1; 2; 3; 4; 5; 6; 8].

(** ** Offsets *)

Lemma integer_of_add m k : integer_of (num_add m k) = (fun i => i + k) <$> integer_of m.
Proof.
  destruct m as [| | |q]; [done..|]. unfold num_add, integer_of, Qplus, inject_Z. cbn [Qnum Qden].
  rewrite Pos.mul_1_r, Z.mul_1_r, Z.mod_add, Z.div_add by lia. by case_match.
Qed.

Lemma elem_spec buf m :
  elem buf m = match integer_of m with
               | Some i => if (0 <=? i) && (i <? len buf) then Some (byte_at buf i) else None
               | None => None
               end.
Proof.
  unfold elem, byte_at. destruct (integer_of m) as [i|]; [|done]. cbn.
  unfold charCodeAt. destruct (i <? 0) eqn:E; bool_hyps; [by ztest|]. ztest. cbn [andb].
  destruct (i <? len buf) eqn:E2; bool_hyps; unfold len in *.
  - by destruct (lookup_lt_is_Some_2 buf (Z.to_nat i)) as [x ->]; [lia|].
  - apply lookup_ge_None_2. lia.
Qed.

Lemma boundsError_offset {A} buf m n :
  @boundsError A (Number m) (len buf - n) None = Throw (offset_error buf (Number m) n).
Proof.
  unfold boundsError, offset_error. destruct (negb _); [done|].
  replace (len buf - n <? 0) with (len buf <? n); [by case_match|].
  destruct (len buf <? n) eqn:E; bool_hyps; by ztest.
Qed.

Lemma both_ends buf m k (A : Type) (f : Z -> Z -> Z -> result A) :
  0 <= k ->
  match elem buf m, elem buf (num_add m k) with
  | Some first, Some last => f (default 0 (integer_of m)) first last
  | _, _ => boundsError (Number m) (len buf - (k + 1)) None
  end =
  match index buf (Number m) (k + 1) with
  | Some i => f i (byte_at buf i) (byte_at buf (i + k))
  | None => Throw (offset_error buf (Number m) (k + 1))
  end.
Proof.
  intros Hk. rewrite !elem_spec, integer_of_add, boundsError_offset. unfold index.
  destruct (integer_of m) as [i|]; cbn [fmap option_fmap option_map default]; [|done].
  destruct (0 <=? i) eqn:E; bool_hyps; [|done]. cbn [andb].
  destruct (i + (k + 1) <=? len buf) eqn:E2; bool_hyps.
  - by repeat (ztest; cbn [andb]).
  - destruct (i <? len buf); [|done]. by repeat (ztest; cbn [andb]).
Qed.

Lemma ends_spec buf offset n :
  1 <= n ->
  ends buf offset n =
  match index buf offset n with
  | Some i => Ok (i, byte_at buf i, byte_at buf (i + (n - 1)))
  | None => Throw (offset_error buf offset n)
  end.
Proof.
  intros Hn. unfold ends. destruct offset as [|m|]; [done| |done]. cbn [validateNumber result_bind].
  pose proof (both_ends buf m (n - 1) _ (fun o a b => Ok (o, a, b))) as H.
  rewrite Z.sub_add in H. apply H. lia.
Qed.

Lemma checkBounds_spec buf offset k :
  0 <= k ->
  checkBounds buf offset k =
  match index buf offset (k + 1) with
  | Some i => Ok i
  | None => Throw (offset_error buf offset (k + 1))
  end.
Proof.
  intros Hk. unfold checkBounds. destruct offset as [|m|]; [done| |done]. cbn [validateNumber result_bind].
  apply (both_ends buf m k _ (fun o _ _ => Ok o) Hk).
Qed.

Lemma first_spec {A} buf m (f : Z -> Z -> result A) :
  match elem buf m with
  | Some b => f (default 0 (integer_of m)) b
  | None => boundsError (Number m) (len buf - 1) None
  end =
  match index buf (Number m) 1 with
  | Some i => f i (byte_at buf i)
  | None => Throw (offset_error buf (Number m) 1)
  end.
Proof.
  rewrite elem_spec, boundsError_offset. unfold index. destruct (integer_of m) as [i|]; [|done].
  destruct (0 <=? i) eqn:E; [|done]. cbn [andb].
  destruct (i <? len buf) eqn:E2; bool_hyps; by ztest.
Qed.

(** A buffer around the [n] bytes at an index. *)
Lemma index_split buf offset n i :
  index buf offset n = Some i -> 0 <= n ->
  exists pre w post, buf = pre ++ w ++ post /\ i = len pre /\ len w = n.
Proof.
  unfold index. destruct offset as [|m|]; [done| |done]. destruct (integer_of m) as [j|]; [|done].
  destruct (_ && _) eqn:E; [|done]. intros [= ->] Hn. bool_hyps.
  exists (take (Z.to_nat i) buf), (window buf i n), (drop (Z.to_nat n) (drop (Z.to_nat i) buf)).
  unfold window, len in *. rewrite !take_drop, !length_take, length_drop. split_and!; [done|lia..].
Qed.

Lemma byte_at_split pre w post k :
  0 <= k < len w -> byte_at (pre ++ w ++ post) (len pre + k) = default 0 (w !! Z.to_nat k).
Proof.
  intros Hk. unfold byte_at. rewrite charCodeAt_app_r by lia.
  replace (len pre + k - len pre) with k by lia. rewrite charCodeAt_app_l by lia.
  unfold charCodeAt. by ztest.
Qed.

Lemma window_split pre w post : window (pre ++ w ++ post) (len pre) (len w) = w.
Proof.
  unfold window, len. rewrite !Nat2Z.id, drop_app_length. apply take_app_length.
Qed.

Lemma put_split pre w post l : length l = length w -> put (pre ++ w ++ post) (len pre) l = pre ++ l ++ post.
Proof.
  intros Hl. unfold put, len. rewrite Nat2Z.id, take_app_length.
  rewrite (app_assoc pre w post), (drop_app_exact (pre ++ w)); [done|]. rewrite length_app. lia.
Qed.

(** ** Signs *)

Lemma lor_minus v w : 0 <= w -> 0 <= v < 2 ^ w -> Z.lor v (- 2 ^ w) = v - 2 ^ w.
Proof.
  intros Hw Hv. assert (- 2 ^ w = Z.lnot (Z.ones w)) as E.
  { rewrite Z.ones_equiv. unfold Z.lnot. lia. }
  assert (Z.land v (- 2 ^ w) = 0) as Hl.
  { rewrite E, <- Z.ldiff_land, Z.ldiff_ones_r, Z.shiftr_div_pow2, Z.div_small by done. apply Z.shiftl_0_l. }
  rewrite <- Z.lxor_lor, <- Z.add_nocarry_lxor by done. lia.
Qed.

Lemma land_bit v k :
  0 <= k -> 0 <= v < 2 ^ (k + 1) -> Z.land v (2 ^ k) = if v <? 2 ^ k then 0 else 2 ^ k.
Proof.
  intros Hk Hv. rewrite Z.pow_add_r in Hv by lia. apply Z.bits_inj'. intros i Hi.
  rewrite Z.land_spec, Z.pow2_bits_eqb by done. destruct (k =? i) eqn:E; bool_hyps.
  - subst i. rewrite andb_true_r, Z.testbit_eqb by done.
    destruct (v <? 2 ^ k) eqn:E; bool_hyps; rewrite ?Z.pow2_bits_true, ?Z.bits_0 by done.
    + by rewrite Z.div_small by lia.
    + rewrite <- (Z.div_unique_pos v (2 ^ k) 1 (v - 2 ^ k)) by lia. done.
  - rewrite andb_false_r. destruct (v <? 2 ^ k); [by rewrite Z.bits_0|].
    rewrite Z.pow2_bits_eqb by done. by ztest.
Qed.

Lemma toInt32_minus x : 0 < x <= 2147483648 -> toInt32 (2 ^ 32 - x) = - x.
Proof.
  intros Hx. unfold toInt32. change (2 ^ 32) with 4294967296.
  rewrite <- (Z.mod_unique_pos (4294967296 - x + 2147483648) 4294967296 1 (2147483648 - x)); lia.
Qed.

(** [val | (val & 2 ** k) * m], with [m] chosen so that the product sets the
    bits above the [k + 1] of [val]. *)
Lemma or_sign k v m :
  0 <= k < 31 -> 2 ^ k * m = 2 ^ 32 - 2 ^ (k + 1) -> 0 <= v < 2 ^ (k + 1) ->
  js_or v (js_and v (2 ^ k) * m) = sign (k + 1) v.
Proof.
  intros Hk Hm Hv. unfold js_or, js_and, sign. rewrite Z.add_simpl_r.
  assert (2 ^ (k + 1) <= 2 ^ 31) by (apply Z.pow_le_mono_r; lia).
  assert (0 < 2 ^ k < 2 ^ (k + 1)) by (split; [|apply Z.pow_lt_mono_r]; lia).
  change (2 ^ 31) with 2147483648 in *. rewrite !(toInt32_small v), (toInt32_small (2 ^ k)) by lia.
  rewrite land_bit by lia. destruct (v <? 2 ^ k).
  - apply Z.lor_0_r.
  - rewrite Hm, toInt32_minus by lia. apply lor_minus; lia.
Qed.

(** [last << 24] *)
Lemma shl_sign b : byte b -> js_shl b 24 = sign 8 b * 2 ^ 24.
Proof.
  unfold byte. intros Hb. unfold js_shl, sign. rewrite (toInt32_small b), Z.shiftl_mul_pow2 by lia.
  change (2 ^ (8 - 1)) with 128. change (2 ^ 8) with 256. change (2 ^ 24) with 16777216.
  destruct (b <? 128) eqn:E; bool_hyps; [apply toInt32_small; lia|].
  replace (b * 16777216) with (2 ^ 32 - (256 - b) * 16777216) by lia.
  rewrite toInt32_minus; lia.
Qed.

(** ** Reading *)

Lemma read_ends {A} buf offset n (f : Z -> Z -> Z -> A) g :
  Forall byte buf -> 1 <= n -> 
  (forall pre w post, Forall byte w -> buf = pre ++ w ++ post -> len w = n ->
     f (len pre) (default 0 (w !! 0%nat)) (default 0 (w !! Z.to_nat (n - 1))) = g w) ->
  (let* (o, first, last) := ends buf offset n in Ok (f o first last)) =
  match index buf offset n with
  | Some i => Ok (g (window buf i n))
  | None => Throw (offset_error buf offset n)
  end.
Proof.
  intros Hb Hn H. rewrite ends_spec by done. destruct (index buf offset n) as [i|] eqn:E; [|done].
  apply index_split in E as (pre & w & post & -> & -> & Hw); [|lia]. cbn [result_bind].
  rewrite <- (Z.add_0_r (len pre)) at 2. rewrite !byte_at_split by lia. subst n.
  rewrite window_split. f_equal. apply Forall_app in Hb as [_ [Hb _]%Forall_app]. by eapply H.
Qed.

(** Name the bytes of a list of known length. *)
Ltac name_bytes w :=
  repeat (destruct w as [|? w]; try (exfalso; unfold len in *; cbn [length] in *; lia)).

(** What is left of a reader: sums of bytes, with their signs. *)
Ltac bytes_solve :=
  repeat match goal with H : Forall byte (_ :: _) |- _ => apply Forall_cons in H as [? H] end;
  repeat match goal with |- context [Z.to_nat ?k] =>
    let v := eval vm_compute in (Z.to_nat k) in change (Z.to_nat k) with v end;
  cbn [lookup list_lookup default from_option id];
  rewrite ?(or_sign 15 _ 0x1fffe), ?(or_sign 7 _ 0x1fffffe), ?(or_sign 23 _ 0x1fe),
    ?shl_sign, ?Z.shiftl_mul_pow2 by (unfold byte in *; lia);
  unfold byte, value, sign in *; cbn [rev app of_le]; repeat case_step; bool_hyps; lia.

Ltac read_solve :=
  apply read_ends; [done|lia|];
  let w := fresh "w" in let Hw := fresh "Hw" in let Hn := fresh "Hn" in
  intros ? w ? Hw -> Hn; name_bytes w;
  rewrite ?byte_at_split by (rewrite ?Hn; lia); bytes_solve.

(** A method that reads [n] bytes as it should. *)
Definition reads (n : Z) (e : endian) (signed : bool) (f : list Z -> arg -> result Z) : Prop :=
  forall buf offset, Forall byte buf -> offset <> Undefined ->
  f buf offset =
  match index buf offset n with
  | Some i => Ok (value e signed n (window buf i n))
  | None => Throw (offset_error buf offset n)
  end.

Ltac reader f :=
  let Hb := fresh "Hb" in let Ho := fresh "Ho" in
  intros ? offset Hb Ho; unfold f;
  replace (or_zero offset) with offset by (by destruct offset);
  read_solve.

Lemma readUInt16LE_reads : reads 2 LE false readUInt16LE.
Proof. reader readUInt16LE. Qed.
Lemma readUInt24LE_reads : reads 3 LE false readUInt24LE.
Proof. reader readUInt24LE. Qed.
Lemma readUInt32LE_reads : reads 4 LE false readUInt32LE.
Proof. reader readUInt32LE. Qed.
Lemma readUInt40LE_reads : reads 5 LE false readUInt40LE.
Proof. reader readUInt40LE. Qed.
Lemma readUInt48LE_reads : reads 6 LE false readUInt48LE.
Proof. reader readUInt48LE. Qed.
Lemma readBigUInt64LE_reads : reads 8 LE false readBigUInt64LE.
Proof. reader readBigUInt64LE. Qed.
Lemma readUInt16BE_reads : reads 2 BE false readUInt16BE.
Proof. reader readUInt16BE. Qed.
Lemma readUInt24BE_reads : reads 3 BE false readUInt24BE.
Proof. reader readUInt24BE. Qed.
Lemma readUInt32BE_reads : reads 4 BE false readUInt32BE.
Proof. reader readUInt32BE. Qed.
Lemma readUInt40BE_reads : reads 5 BE false readUInt40BE.
Proof. reader readUInt40BE. Qed.
Lemma readUInt48BE_reads : reads 6 BE false readUInt48BE.
Proof. reader readUInt48BE. Qed.
Lemma readBigUInt64BE_reads : reads 8 BE false readBigUInt64BE.
Proof. reader readBigUInt64BE. Qed.
Lemma readInt16LE_reads : reads 2 LE true readInt16LE.
Proof. reader readInt16LE. Qed.
Lemma readInt24LE_reads : reads 3 LE true readInt24LE.
Proof. reader readInt24LE. Qed.
Lemma readInt32LE_reads : reads 4 LE true readInt32LE.
Proof. reader readInt32LE. Qed.
Lemma readInt40LE_reads : reads 5 LE true readInt40LE.
Proof. reader readInt40LE. Qed.
Lemma readInt48LE_reads : reads 6 LE true readInt48LE.
Proof. reader readInt48LE. Qed.
Lemma readBigInt64LE_reads : reads 8 LE true readBigInt64LE.
Proof. reader readBigInt64LE. Qed.
Lemma readInt16BE_reads : reads 2 BE true readInt16BE.
Proof. reader readInt16BE. Qed.
Lemma readInt24BE_reads : reads 3 BE true readInt24BE.
Proof. reader readInt24BE. Qed.
Lemma readInt32BE_reads : reads 4 BE true readInt32BE.
Proof. reader readInt32BE. Qed.
Lemma readInt40BE_reads : reads 5 BE true readInt40BE.
Proof. reader readInt40BE. Qed.
Lemma readInt48BE_reads : reads 6 BE true readInt48BE.
Proof. reader readInt48BE. Qed.
Lemma readBigInt64BE_reads : reads 8 BE true readBigInt64BE.
Proof. reader readBigInt64BE. Qed.

Lemma read_first buf offset (f g : Z -> Z) :
  Forall byte buf -> (forall b, byte b -> f b = g b) ->
  (let* n := validateNumber offset "offset" in
   match elem buf n with
   | Some val => Ok (f val)
   | None => boundsError (Number n) (len buf - 1) None
   end) =
  match index buf offset 1 with
  | Some i => Ok (g (default 0 (head (window buf i 1))))
  | None => Throw (offset_error buf offset 1)
  end.
Proof.
  intros Hb Hfg. destruct offset as [|m|]; [done| |done]. cbn [validateNumber result_bind].
  rewrite (first_spec buf m (fun _ b => Ok (f b))).
  destruct (index buf (Number m) 1) as [i|] eqn:E; [|done].
  apply index_split in E as (pre & w & post & -> & -> & Hw); [|lia].
  rewrite <- (Z.add_0_r (len pre)) at 1. rewrite byte_at_split by lia. rewrite <- Hw, window_split.
  apply Forall_app in Hb as [_ [Hb _]%Forall_app]. name_bytes w.
  apply Forall_cons in Hb as [Hb _]. cbn. by rewrite Hfg.
Qed.

Lemma readUInt8_reads e : reads 1 e false readUInt8.
Proof.
  intros buf offset Hb Ho. unfold readUInt8. replace (or_zero offset) with offset by (by destruct offset).
  rewrite (read_first buf offset (fun b => b) (fun b => b)) by done. destruct (index buf offset 1) as [i|] eqn:E; [|done].
  apply index_split in E as (pre & w & post & -> & -> & Hw); [|lia]. rewrite <- Hw, window_split.
  f_equal. name_bytes w. destruct e; cbn; lia.
Qed.

Lemma readInt8_reads e : reads 1 e true readInt8.
Proof.
  intros buf offset Hb Ho. unfold readInt8. replace (or_zero offset) with offset by (by destruct offset).
  rewrite (read_first buf offset (fun val => js_or val (js_and val (2 ^ 7) * 0x1fffffe)) (sign 8)).
  - destruct (index buf offset 1) as [i|] eqn:E; [|done].
    apply index_split in E as (pre & w & post & -> & -> & Hw); [|lia]. rewrite <- Hw, window_split.
    f_equal. name_bytes w. rewrite Hw. unfold value. destruct e; cbn [rev app of_le head default];
      by rewrite Z.add_0_r.
  - done.
  - intros b Hv. apply (or_sign 7); [lia..|]. apply Hv.
Qed.

Create HintDb buffer discriminated.
#[export] Hint Resolve readUInt8_reads readUInt16LE_reads readUInt24LE_reads readUInt32LE_reads
  readUInt40LE_reads readUInt48LE_reads readBigUInt64LE_reads readUInt16BE_reads readUInt24BE_reads
  readUInt32BE_reads readUInt40BE_reads readUInt48BE_reads readBigUInt64BE_reads
  readInt8_reads readInt16LE_reads readInt24LE_reads readInt32LE_reads readInt40LE_reads
  readInt48LE_reads readBigInt64LE_reads readInt16BE_reads readInt24BE_reads readInt32BE_reads
  readInt40BE_reads readInt48BE_reads readBigInt64BE_reads : buffer.

Lemma is_length_int n k : is_length (Number (int n)) k = (n =? k).
Proof.
  unfold is_length. rewrite integer_of_int. destruct (n =? k) eqn:E; bool_hyps.
  - subst. by apply bool_decide_eq_true.
  - apply bool_decide_eq_false. congruence.
Qed.

Lemma by_length_reads n e signed r6 r5 r3 r4 r2 r1 :
  reads 6 e signed r6 -> reads 5 e signed r5 -> reads 3 e signed r3 -> reads 4 e signed r4 ->
  reads 2 e signed r2 -> reads 1 e signed r1 -> n ∈ [1; 2; 3; 4; 5; 6] ->
  reads n e signed (fun buf offset => by_length buf offset (Number (int n)) r6 r5 r3 r4 r2 r1).
Proof.
  intros H6 H5 H3 H4 H2 H1 Hn buf offset Hb Ho. unfold by_length. rewrite !is_length_int.
  destruct offset; [done| |]; repeat (apply elem_of_cons in Hn as [->|Hn];
    [cbn [Z.eqb Pos.eqb]; first [by apply H1|by apply H2|by apply H3|by apply H4|by apply H5|by apply H6]|]);
    by apply elem_of_nil in Hn.
Qed.

Lemma widths_cases n : n ∈ widths -> n = 8 \/ n ∈ [1; 2; 3; 4; 5; 6].
Proof. unfold widths. rewrite !elem_of_cons. tauto. Qed.

Lemma read_reads e signed n : n ∈ widths -> reads n e signed (fun buf offset => read e signed buf offset n).
Proof.
  intros [->|Hn]%widths_cases; unfold read.
  - destruct e, signed; auto with buffer.
  - assert ((n =? 8) = false) as ->.
    { apply Z.eqb_neq. rewrite !elem_of_cons in Hn. intros ->.
      destruct Hn as [?|[?|[?|[?|[?|[?|Hn]]]]]]; [done..|]. by apply elem_of_nil in Hn. }
    destruct e, signed; apply by_length_reads; auto with buffer.
Qed.

(** ** Writing *)

Lemma store_split pre w post k z :
  0 <= k < len w ->
  store (pre ++ w ++ post) (len pre + k) z = pre ++ <[Z.to_nat k := z mod 2 ^ 8]> w ++ post.
Proof.
  unfold store, len. intros Hk. replace (Z.to_nat _) with (length pre + Z.to_nat k)%nat by lia.
  by rewrite insert_app_r, insert_app_l by lia.
Qed.

Lemma store_split_0 pre w post z :
  0 < len w -> store (pre ++ w ++ post) (len pre) z = pre ++ <[0%nat := z mod 2 ^ 8]> w ++ post.
Proof. intros. by rewrite <- (Z.add_0_r (len pre)), store_split by lia. Qed.

(** A byte of an integer depends on its low 32 bits only. *)
Lemma byte_of a z k :
  a mod 2 ^ 32 = z mod 2 ^ 32 -> 0 <= k <= 24 -> (a / 2 ^ k) mod 2 ^ 8 = (z / 2 ^ k) mod 2 ^ 8.
Proof.
  intros H Hk. apply Z.bits_inj'. intros i Hi. rewrite !Z.testbit_mod_pow2 by lia.
  destruct (i <? 8) eqn:E; [|done]. bool_hyps. cbn [andb].
  rewrite <- !Z.shiftr_div_pow2, !Z.shiftr_spec by lia.
  pose proof (f_equal (fun x => Z.testbit x (i + k)) H) as Ht. cbn beta in Ht.
  by rewrite !Z.mod_pow2_bits_low in Ht by lia.
Qed.

(** The successive values of [value = value >>> 8] and [lo = lo >> 8]. *)
Lemma ushr_first z : js_ushr (toUint32 (int z)) 8 = (z mod 2 ^ 32) / 2 ^ 8.
Proof. unfold js_ushr, toUint32. by rewrite toUint_int, Z.mod_mod, Z.shiftr_div_pow2 by lia. Qed.

Lemma ushr_next z k : 0 <= k -> js_ushr (z mod 2 ^ 32 / 2 ^ k) 8 = (z mod 2 ^ 32) / 2 ^ (k + 8).
Proof.
  intros Hk. unfold js_ushr. pose proof (Z.mod_pos_bound z (2 ^ 32) ltac:(lia)).
  assert (0 < 2 ^ k) by lia.
  assert (0 <= z mod 2 ^ 32 / 2 ^ k < 2 ^ 32)
    by (split; [apply Z.div_pos; lia|apply Z.div_lt_upper_bound; nia]).
  by rewrite (Z.mod_small (_ / _)), Z.shiftr_div_pow2, Z.div_div, Z.pow_add_r by lia.
Qed.

Lemma land_word z : Z.land z 0xffffffff = z mod 2 ^ 32.
Proof. change 0xffffffff with (Z.ones 32). by rewrite Z.land_ones. Qed.

Lemma shr_first z : js_shr (z mod 2 ^ 32) 8 = toInt32 z / 2 ^ 8.
Proof.
  unfold js_shr, toInt32. change 4294967296 with (2 ^ 32).
  by rewrite Z.add_mod_idemp_l, Z.shiftr_div_pow2 by lia.
Qed.

Lemma shr_next z k : 0 <= k -> js_shr (toInt32 z / 2 ^ k) 8 = toInt32 z / 2 ^ (k + 8).
Proof.
  intros Hk. unfold js_shr. assert (0 < 2 ^ k) by lia.
  assert (-2147483648 <= toInt32 z < 2147483648) as Hz.
  { unfold toInt32. pose proof (Z.mod_pos_bound (z + 2147483648) 4294967296 ltac:(lia)). lia. }
  assert (-2147483648 <= toInt32 z / 2 ^ k < 2147483648) as Hd.
  { split; [apply Z.div_le_lower_bound; nia|apply Z.div_lt_upper_bound; nia]. }
  assert (toInt32 (toInt32 z / 2 ^ k) = toInt32 z / 2 ^ k) as ->.
  { unfold toInt32 at 1. rewrite Z.mod_small; lia. }
  rewrite Z.shiftr_div_pow2, Z.div_div, Z.pow_add_r by lia. done.
Qed.

Lemma toInt32_word z : toInt32 z mod 2 ^ 32 = z mod 2 ^ 32.
Proof.
  unfold toInt32. change 4294967296 with (2 ^ 32).
  rewrite Zminus_mod_idemp_l. f_equal. lia.
Qed.

Lemma high_word_int z : high_word (int z) = int (z / 2 ^ 32).
Proof.
  unfold high_word, int. do 2 f_equal. unfold Qdiv, Qinv, Qmult, inject_Z. cbn [Qnum Qden].
  unfold Qfloor. cbn. by rewrite Z.mul_1_r.
Qed.

Lemma toUint8_byte z : toUint8 (int z) mod 2 ^ 8 = z mod 256.
Proof. unfold toUint8. by rewrite toUint_int, Z.mod_mod. Qed.

(** A writer that stores [bytes] when its value is between [min] and [max]. *)
Definition writes (n : Z) (e : endian)
    (f : list Z -> num -> arg -> Z -> Z -> result (list Z * Z)) : Prop :=
  forall buf z offset min max, min <= z <= max ->
  f buf (int z) offset min max =
  match index buf offset n with
  | Some i => Ok (put buf i (bytes e n z), i + n)
  | None => Throw (offset_error buf offset n)
  end.

Definition writes_big (e : endian)
    (f : list Z -> Z -> arg -> Z -> Z -> result (list Z * Z)) : Prop :=
  forall buf z offset min max, min <= z <= max ->
  f buf z offset min max =
  match index buf offset 8 with
  | Some i => Ok (put buf i (bytes e 8 z), i + 8)
  | None => Throw (offset_error buf offset 8)
  end.

Ltac eval_nats :=
  repeat match goal with |- context [Z.to_nat ?k] =>
    let v := eval vm_compute in (Z.to_nat k) in change (Z.to_nat k) with v end.

(** The stores, one by one, into a buffer that is open around its bytes. *)
Ltac store_steps :=
  repeat (first [rewrite store_split by (unfold len; cbn [length]; lia)
                |rewrite store_split_0 by (unfold len; cbn [length]; lia)];
          eval_nats; cbn [insert list_insert]).

Lemma word_byte z k : 0 <= k <= 24 -> (z mod 2 ^ 32 / 2 ^ k) mod 2 ^ 8 = (z / 2 ^ k) mod 2 ^ 8.
Proof. apply byte_of. by rewrite Z.mod_mod. Qed.

Lemma int_byte z k : 0 <= k <= 24 -> (toInt32 z / 2 ^ k) mod 2 ^ 8 = (z / 2 ^ k) mod 2 ^ 8.
Proof. apply byte_of. apply toInt32_word. Qed.

Lemma low_byte z : (z mod 2 ^ 32) mod 2 ^ 8 = z mod 2 ^ 8.
Proof. pose proof (word_byte z 0) as H. rewrite !Z.div_1_r in H. apply H. lia. Qed.

Lemma len_bytes e n z : 0 <= n -> len (bytes e n z) = n.
Proof.
  intros Hn. assert (forall k x, length (le_bytes k x) = k) as Hk by (induction k; intros; cbn; auto).
  unfold bytes, len. destruct e; rewrite ?length_rev, Hk; lia.
Qed.

Lemma put_bytes pre w post e n z :
  len w = n -> put (pre ++ w ++ post) (len pre) (bytes e n z) = pre ++ bytes e n z ++ post.
Proof.
  intros Hn. apply put_split. pose proof (len_bytes e n z). pose proof (len_nonneg w). unfold len in *. lia.
Qed.

(** The stores of a writer whose checks passed. *)
Ltac write_solve E :=
  apply index_split in E as (? & ?w & ? & -> & -> & ?Hw); [|lia]; cbn [result_bind];
  rewrite put_bytes by done;
  match goal with w : list Z, Hw : len ?w = _ |- _ => name_bytes w end;
  unfold store_num; rewrite ?high_word_int, ?land_word, ?(Z.shiftr_div_pow2 _ 32) by lia;
  rewrite ?ushr_first, ?shr_first by lia; rewrite ?ushr_next, ?shr_next by lia;
  rewrite <- ?Z.add_assoc; store_steps;
  unfold bytes; eval_nats; cbn [le_bytes rev app];
  rewrite ?toUint8_byte, ?word_byte, ?int_byte, ?low_byte by lia;
  rewrite ?Z.div_div by lia; done.

Ltac writer f :=
  intros buf ? offset ? ? ?; unfold f, checkInt, checkBigInt;
  rewrite ?num_gt_int, ?num_lt_int; repeat (ztest; cbn [orb]);
  rewrite checkBounds_spec by lia; cbn [Z.add Pos.add Pos.succ Pos.add_carry];
  let E := fresh "E" in destruct (index buf offset _) eqn:E; [|done]; write_solve E.

Lemma writeU_Int16LE_writes : writes 2 LE writeU_Int16LE.
Proof. writer writeU_Int16LE. Qed.
Lemma writeU_Int24LE_writes : writes 3 LE writeU_Int24LE.
Proof. writer writeU_Int24LE. Qed.
Lemma writeU_Int32LE_writes : writes 4 LE writeU_Int32LE.
Proof. writer writeU_Int32LE. Qed.
Lemma writeU_Int40LE_writes : writes 5 LE writeU_Int40LE.
Proof. writer writeU_Int40LE. Qed.
Lemma writeU_Int48LE_writes : writes 6 LE writeU_Int48LE.
Proof. writer writeU_Int48LE. Qed.
Lemma writeU_Int16BE_writes : writes 2 BE writeU_Int16BE.
Proof. writer writeU_Int16BE. Qed.
Lemma writeU_Int24BE_writes : writes 3 BE writeU_Int24BE.
Proof. writer writeU_Int24BE. Qed.
Lemma writeU_Int32BE_writes : writes 4 BE writeU_Int32BE.
Proof. writer writeU_Int32BE. Qed.
Lemma writeU_Int40BE_writes : writes 5 BE writeU_Int40BE.
Proof. writer writeU_Int40BE. Qed.
Lemma writeU_Int48BE_writes : writes 6 BE writeU_Int48BE.
Proof. writer writeU_Int48BE. Qed.
Lemma writeBigU_Int64LE_writes : writes_big LE writeBigU_Int64LE.
Proof. writer writeBigU_Int64LE. Qed.
Lemma writeBigU_Int64BE_writes : writes_big BE writeBigU_Int64BE.
Proof. writer writeBigU_Int64BE. Qed.

Lemma writeU_Int8_writes e : writes 1 e writeU_Int8.
Proof.
  intros buf z offset min max Hz. unfold writeU_Int8. destruct offset as [|m|]; [done| |done].
  cbn [validateNumber result_bind]. rewrite num_gt_int, num_lt_int. repeat (ztest; cbn [orb]).
  pose proof (first_spec buf m (fun o _ => Ok (store_num buf o (int z), o + 1))) as H.
  destruct (index buf (Number m) 1) as [i|] eqn:E; destruct (elem buf m); try done.
  - etransitivity; [exact H|]. destruct e; write_solve E.
  - by rewrite boundsError_offset in H.
Qed.

Lemma write_writes e signed buf z offset n :
  n ∈ widths -> in_range signed n z -> offset <> Undefined ->
  write e signed buf z offset n =
  match index buf offset n with
  | Some i => Ok (put buf i (bytes e n z), i + n)
  | None => Throw (offset_error buf offset n)
  end.
Proof.
  intros Hn Hz Ho. unfold write.
  unfold writeBigUInt64LE, writeBigUInt64BE, writeBigInt64LE, writeBigInt64BE.
  replace (or_zero offset) with offset by (by destruct offset).
  unfold writeUIntLE, writeUIntBE, writeIntLE, writeIntBE. rewrite !is_length_int.
  unfold widths in Hn. repeat (apply elem_of_cons in Hn as [->|Hn]); [..|by apply elem_of_nil in Hn].
  all: destruct e, signed; cbn [Z.eqb Pos.eqb]; unfold in_range in Hz; cbn in Hz.
  all: match goal with
       | |- writeU_Int8 _ _ _ _ _ = _ => apply writeU_Int8_writes
       | |- writeU_Int16LE _ _ _ _ _ = _ => apply writeU_Int16LE_writes
       | |- writeU_Int24LE _ _ _ _ _ = _ => apply writeU_Int24LE_writes
       | |- writeU_Int32LE _ _ _ _ _ = _ => apply writeU_Int32LE_writes
       | |- writeU_Int40LE _ _ _ _ _ = _ => apply writeU_Int40LE_writes
       | |- writeU_Int48LE _ _ _ _ _ = _ => apply writeU_Int48LE_writes
       | |- writeU_Int16BE _ _ _ _ _ = _ => apply writeU_Int16BE_writes
       | |- writeU_Int24BE _ _ _ _ _ = _ => apply writeU_Int24BE_writes
       | |- writeU_Int32BE _ _ _ _ _ = _ => apply writeU_Int32BE_writes
       | |- writeU_Int40BE _ _ _ _ _ = _ => apply writeU_Int40BE_writes
       | |- writeU_Int48BE _ _ _ _ _ = _ => apply writeU_Int48BE_writes
       | |- writeBigU_Int64LE _ _ _ _ _ = _ => apply writeBigU_Int64LE_writes
       | |- writeBigU_Int64BE _ _ _ _ _ = _ => apply writeBigU_Int64BE_writes
       end; lia.
Qed.

(** ** Round trip *)

Lemma of_le_bytes k z : of_le (le_bytes k z) = z mod 2 ^ (8 * Z.of_nat k).
Proof.
  revert z. induction k as [|k IH]; intros z; cbn [le_bytes of_le]; [by rewrite Z.mod_1_r|].
  rewrite IH. replace (8 * Z.of_nat (S k)) with (8 + 8 * Z.of_nat k) by lia.
  rewrite Z.pow_add_r, Z.rem_mul_r by lia. done.
Qed.

Lemma value_bytes e signed n z :
  0 < n -> in_range signed n z -> value e signed n (bytes e n z) = z.
Proof.
  intros Hn Hz. unfold value, bytes.
  assert (of_le (match e with LE => match e with LE => le_bytes (Z.to_nat n) z | BE => rev (le_bytes (Z.to_nat n) z) end
    | BE => rev (match e with LE => le_bytes (Z.to_nat n) z | BE => rev (le_bytes (Z.to_nat n) z) end) end)
    = z mod 2 ^ (8 * n)) as ->.
  { destruct e; rewrite ?rev_involutive, of_le_bytes, Z2Nat.id by lia; done. }
  unfold in_range, sign in *. destruct signed; [|by apply Z.mod_small].
  assert (2 ^ (8 * n) = 2 * 2 ^ (8 * n - 1)) as E by (rewrite <- Z.pow_succ_r by lia; f_equal; lia).
  destruct (Z.lt_ge_cases z 0).
  - rewrite <- (Z.mod_unique_pos z (2 ^ (8 * n)) (-1) (z + 2 ^ (8 * n))) by lia. ztest. lia.
  - rewrite Z.mod_small by lia. ztest. done.
Qed.

Lemma le_bytes_byte k z : Forall byte (le_bytes k z).
Proof.
  revert z. induction k as [|k IH]; intros z; cbn [le_bytes]; constructor; [|done].
  apply Z.mod_pos_bound. lia.
Qed.

Lemma bytes_byte e n z : Forall byte (bytes e n z).
Proof. unfold bytes. destruct e; [|apply Forall_rev]; apply le_bytes_byte. Qed.

Lemma put_lookup buf i l j :
  0 <= i -> i + len l <= len buf -> j < i \/ i + len l <= j -> charCodeAt (put buf i l) j = charCodeAt buf j.
Proof.
  intros Hi Hl Hj. unfold charCodeAt. destruct (j <? 0) eqn:E; [done|]. bool_hyps. unfold put, len in *.
  destruct Hj.
  - rewrite lookup_app_l by (rewrite length_take; lia). by rewrite lookup_take_lt by lia.
  - rewrite lookup_app_r by (rewrite length_take; lia). rewrite length_take, lookup_app_r by lia.
    rewrite lookup_drop. f_equal. lia.
Qed.

(** ** Values out of range *)

Lemma checkInt_rejects z min max buf offset k :
  ~ (min <= z <= max) -> exists e, checkInt (int z) min max buf offset k = Throw e.
Proof.
  intros H. unfold checkInt. rewrite num_gt_int, num_lt_int.
  destruct (max <? z) eqn:E; [by eexists|]. bool_hyps. ztest. by eexists.
Qed.

Lemma checkBigInt_rejects z min max buf offset k :
  ~ (min <= z <= max) -> exists e, checkBigInt z min max buf offset k = Throw e.
Proof.
  intros H. unfold checkBigInt. destruct (max <? z) eqn:E; [by eexists|]. bool_hyps. ztest. by eexists.
Qed.

Lemma writeU_Int8_rejects z min max buf offset :
  ~ (min <= z <= max) -> exists e, writeU_Int8 buf (int z) offset min max = Throw e.
Proof.
  intros H. unfold writeU_Int8. destruct offset; [by eexists| |by eexists]. cbn [validateNumber result_bind].
  rewrite num_gt_int, num_lt_int. destruct (max <? z) eqn:E; [by eexists|]. bool_hyps. ztest. by eexists.
Qed.

Ltac rejected H :=
  lazymatch goal with
  | |- exists e, writeU_Int8 _ _ _ _ _ = Throw e => by apply writeU_Int8_rejects
  | |- exists e, ?f _ _ _ _ _ = Throw e =>
      unfold f;
      lazymatch goal with
      | |- context [checkInt _ _ _ ?b ?o ?k] => destruct (checkInt_rejects _ _ _ b o k H) as [? ->]
      | |- context [checkBigInt _ _ _ ?b ?o ?k] => destruct (checkBigInt_rejects _ _ _ b o k H) as [? ->]
      end; eexists; reflexivity
  end.

Lemma write_rejects e signed buf z offset n :
  n ∈ widths -> ~ in_range signed n z -> exists err, write e signed buf z offset n = Throw err.
Proof.
  intros Hn Hz. unfold write, writeBigUInt64LE, writeBigUInt64BE, writeBigInt64LE, writeBigInt64BE.
  unfold writeUIntLE, writeUIntBE, writeIntLE, writeIntBE. rewrite !is_length_int.
  unfold widths in Hn. repeat (apply elem_of_cons in Hn as [->|Hn]); [..|by apply elem_of_nil in Hn].
  all: destruct e, signed; cbn [Z.eqb Pos.eqb]; unfold in_range in Hz; cbn in Hz.
  all: match goal with |- exists e, _ _ _ _ ?min ?max = Throw e =>
         assert (~ (min <= z <= max)) as H by lia; rejected H end.
Qed.

(** ** Claims *)

(** Reading an integer, of any width, byte order and signedness: the
    positional value of the bytes at the offset when the offset is an integer
    and all the bytes are in the buffer, and otherwise the error that says why
    not. *)
Theorem buffer_read_spec e signed buf offset n :
  n ∈ widths -> Forall byte buf -> offset <> Undefined ->
  read e signed buf offset n =
  match index buf offset n with
  | Some i => Ok (value e signed n (window buf i n))
  | None => Throw (offset_error buf offset n)
  end.
Proof. intros Hn. by apply read_reads. Qed.

Lemma buffer_read_spec_witness :
  read BE true [1; 255; 254] (Number (int 1)) 2 = Ok (-2) /\
  read BE true [1; 255; 254] (Number (int 2)) 2 =
    Throw (ERR_OUT_OF_RANGE "offset" (">= 0 and <= "%js ++ js_of_Z 1)).
Proof.
  split; (etransitivity; [apply buffer_read_spec|]).
  all: try (apply (bool_decide_unpack _); vm_compute; exact I).
  all: try done.
  all: unfold byte; repeat constructor; lia.
Defined.

(** C32. Writing then reading an integer gives it back, for every width, byte
    order and signedness, at every offset where the bytes fit; the other bytes
    and the length do not change. *)
Theorem buffer_write_read_roundtrip e signed buf z offset n i :
  n ∈ widths -> Forall byte buf -> in_range signed n z -> index buf offset n = Some i ->
  exists buf', write e signed buf z offset n = Ok (buf', i + n) /\
    read e signed buf' offset n = Ok z /\
    len buf' = len buf /\
    (forall j, j < i \/ i + n <= j -> charCodeAt buf' j = charCodeAt buf j).
Proof.
  intros Hn Hb Hz Hi. assert (offset <> Undefined) as Ho by (by intros ->).
  assert (0 < n) as Hpos.
  { unfold widths in Hn. rewrite !elem_of_cons, elem_of_nil in Hn. lia. }
  exists (put buf i (bytes e n z)). rewrite write_writes, Hi by done. split; [done|].
  pose proof (index_split _ _ _ _ Hi ltac:(lia)) as (pre & w & post & -> & -> & Hw).
  rewrite put_bytes by done. pose proof (len_bytes e n z ltac:(lia)) as Hl.
  assert (len (pre ++ bytes e n z ++ post) = len (pre ++ w ++ post)) as Hlen by len_lia.
  split_and!; [|done|].
  - rewrite read_reads; [|done| |done].
    + unfold index in *. rewrite Hlen. destruct offset as [|m|]; [done| |done].
      destruct (integer_of m) as [k|]; [|done]. destruct (_ && _); [|done]. injection Hi as ->.
      pose proof (window_split pre (bytes e n z) post) as Hwin. rewrite Hl in Hwin. rewrite Hwin.
      f_equal. by apply value_bytes.
    + apply Forall_app in Hb as [? [? ?]%Forall_app]. by rewrite !Forall_app; auto using bytes_byte.
  - intros j Hj. rewrite <- (put_bytes _ _ _ _ _ _ Hw). apply put_lookup; rewrite ?Hl; len_lia.
Qed.

Lemma buffer_write_read_roundtrip_witness :
  exists buf', write LE true [9; 9; 9; 9; 9; 9; 9; 9] (-5) (Number (int 1)) 6 = Ok (buf', 1 + 6) /\
    read LE true buf' (Number (int 1)) 6 = Ok (-5) /\
    len buf' = len [9; 9; 9; 9; 9; 9; 9; 9] /\
    (forall j, j < 1 \/ 1 + 6 <= j -> charCodeAt buf' j = charCodeAt [9; 9; 9; 9; 9; 9; 9; 9] j).
Proof.
  apply (buffer_write_read_roundtrip LE true [9; 9; 9; 9; 9; 9; 9; 9] (-5) (Number (int 1)) 6 1).
  - apply (bool_decide_unpack _). vm_compute. exact I.
  - unfold byte. repeat constructor; lia.
  - cbn. lia.
  - vm_compute. reflexivity.
Defined.

(** A write of an integer succeeds exactly when the value fits the width
    and the bytes are all in the buffer; otherwise it throws, before any byte
    is stored. *)
Theorem buffer_write_checked e signed buf z offset n :
  n ∈ widths -> offset <> Undefined ->
  is_ok (write e signed buf z offset n) = true <->
  in_range signed n z /\ is_Some (index buf offset n).
Proof.
  intros Hn Ho. assert (in_range signed n z \/ ~ in_range signed n z) as [Hz|Hz].
  { unfold in_range. destruct signed; lia. }
  - rewrite write_writes by done. destruct (index buf offset n) as [i|]; cbn [is_ok].
    + split; [|done]. intros _. split; [done|]. by exists i.
    + split; [done|]. by intros [_ [? ?]].
  - destruct (write_rejects e signed buf z offset n Hn Hz) as [err ->]. cbn. split; [done|tauto].
Qed.

Lemma buffer_write_checked_witness :
  is_ok (write BE false [0; 0; 0] 256 (Number (int 1)) 1) = true <->
  in_range false 1 256 /\ is_Some (index [0; 0; 0] (Number (int 1)) 1).
Proof.
  apply (buffer_write_checked BE false [0; 0; 0] 256 (Number (int 1)) 1).
  - apply (bool_decide_unpack _). vm_compute. exact I.
  - done.
Defined.

(** Integers of 5 and 6 bytes are not written like the others when the
    value is negative and not an integer: [writeIntLE(-0.5, 0, 4)] writes 0,
    as truncation says, and [writeIntLE(-0.5, 0, 6)] writes -4294967296, the
    high half being rounded down and the low half towards zero. *)
Theorem buffer_fraction_rounds_apart :
  (exists buf, writeIntLE [0; 0; 0; 0; 0; 0] (Fin (-1 # 2)) (Number (int 0)) (Number (int 4)) =
     Ok (buf, 4) /\ readIntLE buf (Number (int 0)) (Number (int 4)) = Ok 0) /\
  (exists buf, writeIntLE [0; 0; 0; 0; 0; 0] (Fin (-1 # 2)) (Number (int 0)) (Number (int 6)) =
     Ok (buf, 6) /\ readIntLE buf (Number (int 0)) (Number (int 6)) = Ok (-4294967296)).
Proof.
  split; [exists [0; 0; 0; 0; 0; 0]|exists [0; 0; 0; 0; 255; 255]]; split; vm_compute; reflexivity.
Qed.

(** ** Floating point numbers *)

Lemma store_all_split pre w post l :
  length l = length w -> Forall byte l ->
  store_all (pre ++ w ++ post) (len pre) l = pre ++ l ++ post.
Proof.
  intros Hl Hb. revert pre w Hl. induction Hb as [|b l Hb HF IH]; intros pre [|c w] Hl; try done.
  cbn [store_all]. rewrite store_split_0 by (unfold len; cbn; lia). cbn [insert list_insert].
  rewrite Z.mod_small by apply Hb.
  replace (pre ++ (b :: w) ++ post) with ((pre ++ [b]) ++ w ++ post) by (by rewrite <- app_assoc).
  replace (len pre + 1) with (len (pre ++ [b])) by len_lia.
  rewrite IH by (cbn in Hl; lia). by rewrite <- app_assoc.
Qed.

Ltac float_reader f g :=
  let offset := fresh "offset" in
  intros ? offset ? ?; unfold f;
  replace (or_zero offset) with offset by (by destruct offset);
  apply (read_ends _ _ _ _ g); [done|lia|];
  let w := fresh "w" in let Hn := fresh "Hn" in
  intros ? w ? ? -> Hn; name_bytes w; rewrite ?byte_at_split by (rewrite ?Hn; lia);
  eval_nats; reflexivity.

Section Floats.
Context {F : Type} (bytes32 bytes64 : F -> list Z) (float32 float64 : list Z -> F).
Context (fround : F -> F) (bigEndian : bool).

(** A method that reads [n] bytes in one of the two orders. *)
Definition loads (n : Z) (back : bool) (load : list Z -> F) (f : list Z -> arg -> result F) : Prop :=
  forall buf offset, Forall byte buf -> offset <> Undefined ->
  f buf offset =
  match index buf offset n with
  | Some i => Ok (load (if back then rev (window buf i n) else window buf i n))
  | None => Throw (offset_error buf offset n)
  end.

Lemma readFloatForwards_loads : loads 4 false float32 (readFloatForwards float32).
Proof. float_reader (@readFloatForwards) float32. Qed.
Lemma readFloatBackwards_loads : loads 4 true float32 (readFloatBackwards float32).
Proof. float_reader (@readFloatBackwards) (fun w => float32 (rev w)). Qed.
Lemma readDoubleForwards_loads : loads 8 false float64 (readDoubleForwards float64).
Proof. float_reader (@readDoubleForwards) float64. Qed.
Lemma readDoubleBackwards_loads : loads 8 true float64 (readDoubleBackwards float64).
Proof. float_reader (@readDoubleBackwards) (fun w => float64 (rev w)). Qed.

(** Storing bytes and reading them back in the same order. *)
Lemma store_load n back load f l buf offset i :
  loads n back load f -> 1 <= n -> len l = n -> Forall byte l -> Forall byte buf ->
  index buf offset n = Some i ->
  (let* o := checkBounds buf (or_zero offset) (n - 1) in
   Ok (store_all buf o (if back then rev l else l), o + n)) =
    Ok (put buf i (if back then rev l else l), i + n) /\
  f (put buf i (if back then rev l else l)) offset = Ok (load l).
Proof.
  intros Hf Hn Hl Hb Hbuf Hi. assert (offset <> Undefined) as Ho by (by intros ->).
  replace (or_zero offset) with offset by (by destruct offset).
  rewrite checkBounds_spec, Z.sub_add, Hi by lia. cbn [result_bind].
  set (m := if back then rev l else l).
  assert (len m = n) as Hm by (unfold m, len in *; destruct back; rewrite ?length_rev; done).
  assert (Forall byte m) as Hmb by (unfold m; destruct back; [by apply Forall_rev|done]).
  pose proof (index_split _ _ _ _ Hi ltac:(lia)) as (pre & w & post & -> & -> & Hw).
  assert (length m = length w) by (unfold len in *; lia).
  rewrite put_split, store_all_split by done. split; [done|].
  rewrite Hf; [| |done].
  - unfold index in *. replace (len (pre ++ m ++ post)) with (len (pre ++ w ++ post)) by len_lia.
    destruct offset as [|k|]; [done| |done]. destruct (integer_of k) as [j|]; [|done].
    destruct (_ && _); [|done]. injection Hi as ->.
    pose proof (window_split pre m post) as Hwin. rewrite Hm in Hwin. rewrite Hwin.
    unfold m. destruct back; by rewrite ?rev_involutive.
  - apply Forall_app in Hbuf as [? [? ?]%Forall_app]. rewrite !Forall_app. auto.
Qed.

Hypothesis bytes32_ok : forall v,
  len (bytes32 v) = 4 /\ Forall byte (bytes32 v) /\ float32 (bytes32 v) = fround v.
Hypothesis bytes64_ok : forall v,
  len (bytes64 v) = 8 /\ Forall byte (bytes64 v) /\ float64 (bytes64 v) = v.

Lemma double_roundtrip back f w buf v offset i :
  loads 8 back float64 f ->
  w = (fun buf v offset =>
    let* o := checkBounds buf (or_zero offset) (8 - 1) in
    Ok (store_all buf o (if back then rev (bytes64 v) else bytes64 v), o + 8)) ->
  Forall byte buf -> index buf offset 8 = Some i ->
  exists buf', w buf v offset = Ok (buf', i + 8) /\ f buf' offset = Ok v.
Proof.
  intros Hf -> Hb Hi. destruct (bytes64_ok v) as (Hl & Hv & Hr).
  destruct (store_load 8 back float64 f _ buf offset i Hf ltac:(lia) Hl Hv Hb Hi) as [H1 H2].
  eexists. split; [exact H1|]. by rewrite H2, Hr.
Qed.

Lemma single_roundtrip back f w buf v offset i :
  loads 4 back float32 f ->
  w = (fun buf v offset =>
    let* o := checkBounds buf (or_zero offset) (4 - 1) in
    Ok (store_all buf o (if back then rev (bytes32 v) else bytes32 v), o + 4)) ->
  Forall byte buf -> index buf offset 4 = Some i ->
  exists buf', w buf v offset = Ok (buf', i + 4) /\ f buf' offset = Ok (fround v).
Proof.
  intros Hf -> Hb Hi. destruct (bytes32_ok v) as (Hl & Hv & Hr).
  destruct (store_load 4 back float32 f _ buf offset i Hf ltac:(lia) Hl Hv Hb Hi) as [H1 H2].
  eexists. split; [exact H1|]. by rewrite H2, Hr.
Qed.
End Floats.

(** Floating point numbers: a double written is read back as it was, and a
    single as the nearest single, in either byte order and whatever the byte
    order of the machine, wherever the bytes fit. *)
Theorem buffer_float_roundtrip {F} (bytes32 bytes64 : F -> list Z)
    (float32 float64 : list Z -> F) (fround : F -> F) bigEndian e buf v offset :
  (forall v, len (bytes32 v) = 4 /\ Forall byte (bytes32 v) /\ float32 (bytes32 v) = fround v) ->
  (forall v, len (bytes64 v) = 8 /\ Forall byte (bytes64 v) /\ float64 (bytes64 v) = v) ->
  Forall byte buf ->
  (forall i, index buf offset 8 = Some i ->
   exists buf',
     match e with LE => writeDoubleLE bytes64 bigEndian | BE => writeDoubleBE bytes64 bigEndian end
       buf v offset = Ok (buf', i + 8) /\
     match e with LE => readDoubleLE float64 bigEndian | BE => readDoubleBE float64 bigEndian end
       buf' offset = Ok v) /\
  (forall i, index buf offset 4 = Some i ->
   exists buf',
     match e with LE => writeFloatLE bytes32 bigEndian | BE => writeFloatBE bytes32 bigEndian end
       buf v offset = Ok (buf', i + 4) /\
     match e with LE => readFloatLE float32 bigEndian | BE => readFloatBE float32 bigEndian end
       buf' offset = Ok (fround v)).
Proof.
  intros H32 H64 Hb. split; intros i Hi; destruct e, bigEndian.
  1, 4: apply (double_roundtrip bytes64 float64 H64 true); auto using readDoubleBackwards_loads.
  1, 2: apply (double_roundtrip bytes64 float64 H64 false); auto using readDoubleForwards_loads.
  1, 4: apply (single_roundtrip bytes32 float32 fround H32 true); auto using readFloatBackwards_loads.
  1, 2: apply (single_roundtrip bytes32 float32 fround H32 false); auto using readFloatForwards_loads.
Qed.

(** The numbers 1 and -1, and their bytes on a little-endian machine. *)
Definition demo_bytes32 (negative : bool) : list Z := [0; 0; 128; if negative then 191 else 63].
Definition demo_bytes64 (negative : bool) : list Z :=
  [0; 0; 0; 0; 0; 0; 240; if negative then 191 else 63].
Definition demo_float (l : list Z) : bool := default 0 (last l) =? 191.

Lemma buffer_float_roundtrip_witness :
  exists buf', writeDoubleBE demo_bytes64 false (replicate 9 0) true (Number (int 1)) = Ok (buf', 1 + 8) /\
    readDoubleBE demo_float false buf' (Number (int 1)) = Ok true.
Proof.
  apply (buffer_float_roundtrip demo_bytes32 demo_bytes64 demo_float demo_float (fun b => b) false BE
    (replicate 9 0) true (Number (int 1))).
  - intros []; (split; [done|split; [|done]]); unfold byte; repeat constructor; lia.
  - intros []; (split; [done|split; [|done]]); unfold byte; repeat constructor; lia.
  - apply Forall_replicate. unfold byte. lia.
  - vm_compute. reflexivity.
Defined.
