(* ===== verification/Url.v ===== *)
(** * The URL shim

    Models [libjs/shims/internal/url.js]: [URLSearchParams], the [URL] class
    over the native parser, and the conversions between file URLs and paths.

    A [URL] is its [URLContext] (the serialised URL and the offsets of its
    components) and its [searchParams], if it has been asked for them; their
    [_url] is that URL.  Arguments are strings, after [String(...)].  The
    native parser is a parameter: it answers a new serialisation with its
    offsets, which [readComponents] copies, or [None] when the input is not
    valid.  Iterators over search parameters ([entries], [keys], [values],
    [forEach]) and the protocol sets are not modelled. *)

From S2P Require Import Prelude JsString QueryString.

Module Url.

Definition TypeError (message : jsstr) : jserror := JsError [] ["TypeError"%js; message].

(** ** [encodeURIComponent] (ECMA-262) *)

(** [encodeURIComponent] keeps letters, digits and [-_.!~*'()]. *)
Definition unreserved (c : Z) : bool :=
  (65 <=? c) && (c <=? 90) || (97 <=? c) && (c <=? 122) || (48 <=? c) && (c <=? 57) ||
  bool_decide (c ∈ [45; 95; 46; 33; 126; 42; 39; 40; 41]).

(** The octets of a code point in UTF-8, each as [%HH]. *)
Definition utf8_escape (v : Z) : jsstr :=
  if v <? 0x80 then Qs.hexTable v
  else if v <? 0x800 then Qs.hexTable (0xC0 + v / 64) ++ Qs.hexTable (0x80 + v mod 64)
  else if v <? 0x10000
  then Qs.hexTable (0xE0 + v / 4096) ++ Qs.hexTable (0x80 + v / 64 mod 64)
       ++ Qs.hexTable (0x80 + v mod 64)
  else Qs.hexTable (0xF0 + v / 262144) ++ Qs.hexTable (0x80 + v / 4096 mod 64)
       ++ Qs.hexTable (0x80 + v / 64 mod 64) ++ Qs.hexTable (0x80 + v mod 64).

Fixpoint encodeURIComponent (s : jsstr) : result jsstr :=
  match s with
  | [] => Ok []
  | c :: s1 =>
      if unreserved c then let* r := encodeURIComponent s1 in Ok (c :: r)
      else if (c <? 0xD800) || (0xE000 <=? c)
      then let* r := encodeURIComponent s1 in Ok (utf8_escape c ++ r)
      else
        match s1 with
        | u :: s2 =>
            if (c <? 0xDC00) && (0xDC00 <=? u) && (u <? 0xE000)
            then
              let* r := encodeURIComponent s2 in
              Ok (utf8_escape (0x10000 + (c - 0xD800) * 0x400 + (u - 0xDC00)) ++ r)
            else Throw Qs.URIError
        | [] => Throw Qs.URIError
        end
  end.

(** ** [URLSearchParams] *)

Abbreviation entry := (list Z * list Z)%type (only parsing).
Abbreviation params := (list (list Z * list Z)) (only parsing).

(** [s.replace(/\+/g, ' ')] *)
Definition plus_to_space (s : jsstr) : jsstr := replace_all 43 " " s.

(** One piece of the query, between two ampersands. *)
Definition parse_pair (piece : jsstr) : result entry :=
  let eqIdx := indexOf piece "=" in
  if eqIdx =? -1 then
    let* key := Qs.decodeURIComponent (plus_to_space piece) in
    Ok (key, [])
  else
    let* key := Qs.decodeURIComponent (plus_to_space (slice piece 0 eqIdx)) in
    let* value := Qs.decodeURIComponent (plus_to_space (slice_from piece (eqIdx + 1))) in
    Ok (key, value).

(** The loop pushes onto [_list]; a piece that cannot be decoded leaves what
    was pushed before it. *)
Fixpoint parse_pairs (pairs : list jsstr) (l : params) : params * result unit :=
  match pairs with
  | [] => (l, Ok tt)
  | piece :: pairs =>
      if len piece =? 0 then parse_pairs pairs l
      else
        match parse_pair piece with
        | Ok p => parse_pairs pairs (l ++ [p])
        | Throw e => (l, Throw e)
        end
  end.

Definition _parseString (qs : jsstr) (l : params) : params * result unit :=
  if len qs =? 0 then (l, Ok tt) else parse_pairs (split qs 38) l.

(** What [new URLSearchParams] is given. *)
Inductive params_init :=
  | InitString (s : jsstr)
  | InitArray (pairs : list (option entry))   (** [None]: not an array of two *)
  | InitObject (fields : params)
  | InitOther.

Fixpoint init_array (pairs : list (option entry)) (l : params) : result params :=
  match pairs with
  | [] => Ok l
  | None :: _ => Throw (TypeError "Each query pair must be an iterable [name, value] pair")
  | Some p :: pairs => init_array pairs (l ++ [p])
  end.

Definition new_URLSearchParams (init : params_init) : result params :=
  match init with
  | InitString s =>
      let s := if (0 <? len s) && code_is (charCodeAt s 0) 0x3F then slice_from s 1 else s in
      match _parseString s [] with
      | (l, Ok _) => Ok l
      | (_, Throw e) => Throw e
      end
  | InitArray pairs => init_array pairs []
  | InitObject fields => Ok fields
  | InitOther => Ok []
  end.

Definition append (name value : jsstr) (l : params) : params := l ++ [(name, value)].

Definition delete (name : jsstr) (value : option jsstr) (l : params) : params :=
  List.filter (fun p =>
    if negb (bool_decide (p.1 = name)) then true
    else match value with Some v => negb (bool_decide (p.2 = v)) | None => false end) l.

Fixpoint get (name : jsstr) (l : params) : option jsstr :=
  match l with
  | [] => None
  | p :: l => if bool_decide (p.1 = name) then Some p.2 else get name l
  end.

Definition getAll (name : jsstr) (l : params) : list jsstr :=
  snd <$> filter (fun p => p.1 = name) l.

Definition has (name : jsstr) (value : option jsstr) (l : params) : bool :=
  existsb (fun p => bool_decide (p.1 = name) &&
    match value with Some v => bool_decide (p.2 = v) | None => true end) l.

(** The filter of [set]: the first pair of that name is changed, the others
    go.  The result is the new list and [found]. *)
Fixpoint set_filter (name value : jsstr) (found : bool) (l : params) : params * bool :=
  match l with
  | [] => ([], found)
  | p :: l =>
      if negb (bool_decide (p.1 = name)) then
        let '(l, found) := set_filter name value found l in (p :: l, found)
      else if negb found then
        let '(l, found) := set_filter name value true l in ((p.1, value) :: l, found)
      else set_filter name value found l
  end.

Definition set (name value : jsstr) (l : params) : params :=
  let '(l, found) := set_filter name value false l in
  if found then l else l ++ [(name, value)].

(** [a < b] on strings: the order of code units. *)
Fixpoint str_lt (a b : jsstr) : bool :=
  match a, b with
  | _, [] => false
  | [], _ :: _ => true
  | x :: a, y :: b => (x <? y) || (x =? y) && str_lt a b
  end.

(** [Array.prototype.sort] is stable: insert each item after those it does not
    precede. *)
Fixpoint sort_insert (p : entry) (l : params) : params :=
  match l with
  | [] => [p]
  | q :: l => if str_lt q.1 p.1 then q :: sort_insert p l else p :: q :: l
  end.

Definition sort (l : params) : params := foldr sort_insert [] l.

Definition size (l : params) : Z := Z.of_nat (length l).

(** [encodeURIComponent(s).replace(/%20/g, '+')] *)
Fixpoint space_to_plus (s : jsstr) : jsstr :=
  match s with
  | 37 :: 50 :: 48 :: s => 43 :: space_to_plus s
  | c :: s => c :: space_to_plus s
  | [] => []
  end.

Definition encode_component (s : jsstr) : result jsstr :=
  let* r := encodeURIComponent s in Ok (space_to_plus r).

Fixpoint pair_strings (l : params) : result (list jsstr) :=
  match l with
  | [] => Ok []
  | p :: l =>
      let* name := encode_component p.1 in
      let* value := encode_component p.2 in
      let* rest := pair_strings l in
      Ok ((name ++ "="%js ++ value) :: rest)
  end.

Definition toString (l : params) : result jsstr :=
  let* strings := pair_strings l in Ok (join "&" strings).

(** ** [URL] *)

Inductive action :=
  kProtocol | kHost | kHostname | kPort | kUsername | kPassword | kPathname | kSearch | kHash
| kHref.

Record components := Components {
  protocol_end : Z; username_end : Z; host_start : Z; host_end : Z; c_port : Z;
  pathname_start : Z; search_start : Z; hash_start : Z; scheme_type : Z }.

Record context := Context_ { ctx_href : jsstr; ctx : components }.

Record url := Url_ { _context : context; _searchParams : option params }.

Definition kOmittedSigned : Z := -1.
Definition hasPort (c : components) : bool := negb (c_port c =? kOmittedSigned).
Definition hasSearch (c : components) : bool := negb (search_start c =? kOmittedSigned).
Definition hasHash (c : components) : bool := negb (hash_start c =? kOmittedSigned).

(** *** Getters *)

Definition href (u : url) : jsstr := ctx_href (_context u).
Definition comps (u : url) : components := ctx (_context u).

Definition protocol (u : url) : jsstr := slice (href u) 0 (protocol_end (comps u)).

Definition username (u : url) : jsstr :=
  let c := comps u in
  if username_end c <=? protocol_end c + 2 then []
  else slice (href u) (protocol_end c + 2) (username_end c).

Definition password (u : url) : jsstr :=
  let c := comps u in
  if host_start c - username_end c <=? 0 then []
  else slice (href u) (username_end c + 1) (host_start c).

(** [host_start] is at the [@] when there are credentials. *)
Definition host_at (u : url) : Z :=
  let c := comps u in
  if code_is (charCodeAt (href u) (host_start c)) 0x40 then host_start c + 1 else host_start c.

Definition host (u : url) : jsstr :=
  let c := comps u in
  if host_at u =? host_end c then [] else slice (href u) (host_at u) (pathname_start c).

Definition hostname (u : url) : jsstr := slice (href u) (host_at u) (host_end (comps u)).

Definition port (u : url) : jsstr :=
  if hasPort (comps u) then js_of_Z (c_port (comps u)) else [].

Definition pathname (u : url) : jsstr :=
  let c := comps u in
  let endsAt :=
    if hasSearch c then search_start c
    else if hasHash c then hash_start c
    else len (href u) in
  slice (href u) (pathname_start c) endsAt.

Definition search_of (h : jsstr) (c : components) : jsstr :=
  if negb (hasSearch c) then []
  else
    let endsAt := if hasHash c then hash_start c else len h in
    if endsAt - search_start c <=? 1 then [] else slice h (search_start c) endsAt.
Definition search (u : url) : jsstr := search_of (href u) (comps u).

Definition hash (u : url) : jsstr :=
  if hasHash (comps u) then slice_from (href u) (hash_start (comps u)) else [].

Section Native.
(** [bindingUrl.parse(input, base)], [bindingUrl.update(href, action, value)],
    [bindingUrl.canParse], [bindingUrl.pathToFileURL]. *)
Context (parse : jsstr -> option jsstr -> option context).
Context (update : jsstr -> action -> jsstr -> option context).
Context (native_pathToFileURL : jsstr -> option context).

(** [if (!href)]: an empty string is not an answer. *)
Definition answered (r : option context) : option context :=
  match r with
  | Some x => if len (ctx_href x) =? 0 then None else Some x
  | None => None
  end.

Definition new_URL (input : jsstr) (base : option jsstr) : result url :=
  match answered (parse input base) with
  | None => Throw (TypeError ("Invalid URL: "%js ++ input))
  | Some x => Ok (Url_ x None)
  end.

Definition URL_parse (input : jsstr) (base : option jsstr) : option url :=
  match answered (parse input base) with None => None | Some x => Some (Url_ x None) end.

(** A setter other than those of [href] and [search]; they differ in the
    action. *)
Definition set_component (a : action) (value : jsstr) (u : url) : url :=
  match answered (update (href u) a value) with
  | Some x => Url_ x (_searchParams u)
  | None => u
  end.

Definition set_protocol := set_component kProtocol.
Definition set_username := set_component kUsername.
Definition set_password := set_component kPassword.
Definition set_host := set_component kHost.
Definition set_hostname := set_component kHostname.
Definition set_port := set_component kPort.
Definition set_pathname := set_component kPathname.
Definition set_hash := set_component kHash.

Definition set_href (value : jsstr) (u : url) : url * result unit :=
  match answered (update (href u) kHref value) with
  | None => (u, Throw (TypeError ("Invalid URL: "%js ++ value)))
  | Some x => (Url_ x (_searchParams u), Ok tt)
  end.

Definition set_search (value : jsstr) (u : url) : url * result unit :=
  match answered (update (href u) kSearch value) with
  | None => (u, Ok tt)
  | Some x =>
      let u := Url_ x (_searchParams u) in
      match _searchParams u with
      | None => (u, Ok tt)
      | Some _ =>
          let qs := search u in
          let '(l, r) := if 1 <? len qs then _parseString (slice_from qs 1) [] else ([], Ok tt) in
          (Url_ x (Some l), r)
      end
  end.

Definition searchParams (u : url) : url * result params :=
  match _searchParams u with
  | Some l => (u, Ok l)
  | None =>
      match new_URLSearchParams (InitString (search u)) with
      | Ok l => (Url_ (_context u) (Some l), Ok l)
      | Throw e => (u, Throw e)
      end
  end.

Definition _setSearchFromParams (search : jsstr) (u : url) : url :=
  set_component kSearch (if len search =? 0 then [] else "?"%js ++ search) u.

(** A method of [url.searchParams] that changes the list to [f] of it, then
    calls [_notifyUrl]. *)
Definition change_params (f : params -> params) (u : url) : url * result unit :=
  match searchParams u with
  | (u, Throw e) => (u, Throw e)
  | (u, Ok l) =>
      let u := Url_ (_context u) (Some (f l)) in
      match toString (f l) with
      | Throw e => (u, Throw e)
      | Ok s => (_setSearchFromParams s u, Ok tt)
      end
  end.

Definition params_append (name value : jsstr) := change_params (append name value).
Definition params_delete (name : jsstr) (value : option jsstr) := change_params (delete name value).
Definition params_set (name value : jsstr) := change_params (set name value).
Definition params_sort := change_params sort.

Definition origin (u : url) : jsstr :=
  let p := protocol u in
  if negb (scheme_type (comps u) =? 1) then
    if scheme_type (comps u) =? 6 then "null" else p ++ "//"%js ++ host u
  else if bool_decide (p = "blob:"%js) then
    let path := pathname u in
    if 0 <? len path then
      match new_URL path None with
      | Ok inner =>
          if (scheme_type (comps inner) =? 0) || (scheme_type (comps inner) =? 2)
          then protocol inner ++ "//"%js ++ host inner
          else "null"
      | Throw _ => "null"
      end
    else "null"
  else "null".

(** ** Files *)

(** What [fileURLToPath] is given; an object that is not a [URL] is seen
    through three properties. *)
Inductive file_arg :=
  | FString (s : jsstr)
  | FUrl (u : url)
  | FObject (protocol : option jsstr) (hostname pathname : jsstr)
  | FOther.

(** The search for [%2f] in any case; [n] positions remain. *)
Fixpoint encoded_slash (pathname : jsstr) (n : nat) (i : Z) : bool :=
  match n with
  | O => false
  | S n =>
      if code_is (charCodeAt pathname i) 0x25 &&
         (code_is (charCodeAt pathname (i + 1)) 0x32 &&
          (Z.lor (default 0 (charCodeAt pathname (i + 2))) 0x20 =? 0x66))
      then true
      else encoded_slash pathname n (i + 1)
  end.

Definition file_path (hostname pathname : jsstr) : result jsstr :=
  if negb (len hostname =? 0) && negb (bool_decide (hostname = "localhost"%js))
  then Throw (TypeError ("File URL host must be "%js ++ [34] ++ "localhost"%js ++ [34]
                         ++ " or empty on this platform"%js))
  else if encoded_slash pathname (Z.to_nat (len pathname - 2)) 0
  then Throw (TypeError "File URL path must not include encoded / characters")
  else Qs.decodeURIComponent pathname.

Definition fileURLToPath (path : file_arg) : result jsstr :=
  let not_file := Throw (TypeError "The URL must be of scheme file") in
  match path with
  | FString s => let* u := new_URL s None in file_path (hostname u) (pathname u)
  | FUrl u => file_path (hostname u) (pathname u)
  | FObject p h n =>
      if bool_decide (p = Some "file:"%js) then file_path h n else not_file
  | FOther => not_file
  end.

(** The answer is a path, or the argument itself. *)
Definition toPathIfFileURL (arg : file_arg) : result (jsstr + file_arg) :=
  let converted := let* s := fileURLToPath arg in Ok (inl s) in
  match arg with
  | FUrl _ => converted
  | FObject p _ _ => if bool_decide (p = Some "file:"%js) then converted else Ok (inr arg)
  | FString s => if startsWith s "file://" then converted else Ok (inr arg)
  | FOther => Ok (inr arg)
  end.

Definition pathToFileURL (filepath : option jsstr) : result url :=
  match filepath with
  | None => Throw (TypeError "The argument must be a string")
  | Some p =>
      match answered (native_pathToFileURL p) with
      | None => Throw (TypeError ("Invalid file path: "%js ++ p))
      | Some x => Ok (Url_ x None)
      end
  end.
End Native.

Record http_options := HttpOptions {
  o_protocol : jsstr; o_hostname : jsstr; o_hash : jsstr; o_search : jsstr; o_pathname : jsstr;
  o_path : jsstr; o_href : jsstr; o_port : option Z; o_auth : option jsstr }.

(** [Number(port)] is the port, since [port] is its decimal string. *)
Definition urlToHttpOptions (u : url) : result http_options :=
  let hostname := hostname u in
  let port := port u in
  let* auth :=
    if negb (len (username u) =? 0) || negb (len (password u) =? 0) then
      let* a := Qs.decodeURIComponent (username u) in
      let* b := Qs.decodeURIComponent (password u) in
      Ok (Some (a ++ ":"%js ++ b))
    else Ok None in
  Ok (HttpOptions (protocol u)
        (if code_is (charCodeAt hostname 0) 0x5B then slice hostname 1 (-1) else hostname)
        (hash u) (search u) (pathname u) (pathname u ++ search u) (href u)
        (if len port =? 0 then None else Some (c_port (comps u))) auth).

(** ** [encodeStr] *)

(** As [Qs.encode_loop], but a surrogate at the end is replaced instead of
    refused. *)
Fixpoint encode_loop (str : jsstr) (noEscapeTable : list Z) (n : nat) (i lastPos : Z) (out : jsstr)
    : Z * jsstr :=
  match n with
  | O => (lastPos, out)
  | S n =>
      match charCodeAt str i with
      | None => (lastPos, out)
      | Some c =>
          let flushed := if lastPos <? i then out ++ slice str lastPos i else out in
          if c <? 0x80 then
            if bool_decide (Qs.table_get noEscapeTable c = Some 1)
            then encode_loop str noEscapeTable n (i + 1) lastPos out
            else encode_loop str noEscapeTable n (i + 1) (i + 1) (flushed ++ Qs.hexTable c)
          else if c <? 0x800 then
            encode_loop str noEscapeTable n (i + 1) (i + 1)
              (flushed ++ Qs.hexTable (Z.lor 0xC0 (Z.shiftr c 6)) ++
               Qs.hexTable (Z.lor 0x80 (Z.land c 0x3F)))
          else if (c <? 0xD800) || (0xE000 <=? c) then
            encode_loop str noEscapeTable n (i + 1) (i + 1)
              (flushed ++ Qs.hexTable (Z.lor 0xE0 (Z.shiftr c 12)) ++
               Qs.hexTable (Z.lor 0x80 (Z.land (Z.shiftr c 6) 0x3F)) ++
               Qs.hexTable (Z.lor 0x80 (Z.land c 0x3F)))
          else
            let i := i + 1 in
            match charCodeAt str i with
            | None => (i, flushed ++ "%EF%BF%BD"%js)
            | Some c2 =>
                let c := 0x10000 + Z.lor (Z.shiftl (Z.land c 0x3FF) 10) (Z.land c2 0x3FF) in
                encode_loop str noEscapeTable n (i + 1) (i + 1)
                  (flushed ++ Qs.hexTable (Z.lor 0xF0 (Z.shiftr c 18)) ++
                   Qs.hexTable (Z.lor 0x80 (Z.land (Z.shiftr c 12) 0x3F)) ++
                   Qs.hexTable (Z.lor 0x80 (Z.land (Z.shiftr c 6) 0x3F)) ++
                   Qs.hexTable (Z.lor 0x80 (Z.land c 0x3F)))
            end
      end
  end.

Definition encodeStr (str : jsstr) (noEscapeTable : list Z) : jsstr :=
  if len str =? 0 then []
  else
    let '(lastPos, out) := encode_loop str noEscapeTable (length str) 0 0 [] in
    if lastPos =? 0 then str
    else if lastPos <? len str then out ++ slice_from str lastPos
    else out.

(** ** Examples *)

Example toString_ex : toString [("a b"%js, "&"%js); ("c"%js, [])] = Ok "a+b=%26&c="%js.
Proof. vm_compute. reflexivity. Qed.

Example params_parse_ex : new_URLSearchParams (InitString "?a+b=%26&&c") = Ok [("a b"%js, "&"%js); ("c"%js, [])].
Proof. vm_compute. reflexivity. Qed.
End Url.
