(* ===== verification/UrlFacts.v ===== *)
(** * Correctness of the URL shim

    [URLSearchParams] as a list of pairs: round trip through text, and the
    multimap its methods act on; the components of a [URL]. *)

From Stdlib Require Import Sorted.
From S2P Require Import Prelude JsString PathSpec QueryString QueryStringFacts Url.
Import Url.

(** ** Encoding a component *)

Lemma plus_to_space_app a b : plus_to_space (a ++ b) = plus_to_space a ++ plus_to_space b.
Proof. unfold plus_to_space, replace_all. by rewrite fmap_app, join_app. Qed.

Lemma plus_to_space_id s : Forall (fun c => c <> 43) s -> plus_to_space s = s.
Proof.
  induction 1 as [|c s Hc HF IH]; [done|].
  change (c :: s) with ([c] ++ s). rewrite plus_to_space_app, IH. f_equal.
  unfold plus_to_space, replace_all. cbn. by ztest.
Qed.

Lemma space_to_plus_other c s : c <> 37 -> space_to_plus (c :: s) = c :: space_to_plus s.
Proof.
  intros Hc. cbn [space_to_plus]. destruct c as [|p|p]; [done| |done].
  repeat (destruct p as [p|p|]; try done).
Qed.

(** Units outside the query percent-encode set of the URL standard. *)
Definition query_kept (c : Z) : Prop := 0x21 <= c <= 0x7E /\ c <> 34 /\ c <> 35 /\ c <> 60 /\ c <> 62.

(** Units of a component of a query, which is split at ampersands and equals
    signs and starts with a question mark. *)
Definition query_unit (c : Z) : Prop := c <> 38 /\ c <> 61 /\ c <> 63 /\ query_kept c.

(** A hexadecimal digit is ordinary. *)
Lemma hex_digit_unit d :
  0 <= d < 16 -> query_unit (Qs.hex_digit d) /\ Qs.hex_digit d <> 37 /\ 43 < Qs.hex_digit d.
Proof. intros Hd. unfold query_unit, query_kept, Qs.hex_digit. case_step; bool_hyps; lia. Qed.

Lemma hexTable_units b : 0 <= b < 256 -> Forall (fun c => query_unit c /\ c <> 43 /\ c <> 39) (Qs.hexTable b).
Proof.
  intros Hb. unfold Qs.hexTable.
  destruct (hex_digit_unit (b / 16)) as (? & ? & ?); [Z.to_euclidean_division_equations; lia|].
  destruct (hex_digit_unit (b mod 16)) as (? & ? & ?); [Z.to_euclidean_division_equations; lia|].
  repeat constructor; unfold query_unit, query_kept in *; lia.
Qed.

Lemma space_to_plus_hex b s :
  0 <= b < 256 -> b <> 32 -> space_to_plus (Qs.hexTable b ++ s) = Qs.hexTable b ++ space_to_plus s.
Proof.
  intros Hb Hne. unfold Qs.hexTable. cbn [app].
  destruct (hex_digit_unit (b / 16)) as (_ & Hh & _); [Z.to_euclidean_division_equations; lia|].
  destruct (hex_digit_unit (b mod 16)) as (_ & Hl & _); [Z.to_euclidean_division_equations; lia|].
  assert (~ (Qs.hex_digit (b / 16) = 50 /\ Qs.hex_digit (b mod 16) = 48)) as Hno.
  { unfold Qs.hex_digit. pose proof (Z.div_mod b 16 ltac:(lia)).
    repeat case_step; bool_hyps; lia. }
  assert (forall h l t, ~ (h = 50 /\ l = 48) ->
    space_to_plus (37 :: h :: l :: t) = 37 :: space_to_plus (h :: l :: t)) as Hgen.
  { clear. intros h l t H. cbn [space_to_plus].
    destruct h as [|p|p]; try done. repeat (destruct p as [p|p|]; try done).
    destruct l as [|p|p]; try done. repeat (destruct p as [p|p|]; try done). exfalso. apply H. done. }
  rewrite Hgen by done. by rewrite !space_to_plus_other.
Qed.

(** Some apostrophes of a text were replaced by [%27], as the query of a URL
    with a special scheme requires. *)
Inductive quoted : jsstr -> jsstr -> Prop :=
  | quoted_nil : quoted [] []
  | quoted_same c s t : quoted s t -> quoted (c :: s) (c :: t)
  | quoted_quote s t : quoted s t -> quoted (39 :: s) (Qs.hexTable 39 ++ t).

Lemma quoted_refl s : quoted s s.
Proof. induction s; by constructor. Qed.

Lemma quoted_app_inv a b c :
  quoted (a ++ b) c -> exists a' b', c = a' ++ b' /\ quoted a a' /\ quoted b b'.
Proof.
  revert c. induction a as [|x a IH]; intros c H; [by exists [], c; repeat constructor|].
  inversion H as [|? ? t Ht|? t Ht]; subst; destruct (IH _ Ht) as (a' & b' & -> & Ha & Hb).
  - exists (x :: a'), b'. split_and!; [done|by constructor|done].
  - exists (Qs.hexTable 39 ++ a'), b'. split_and!; [done|by constructor|done].
Qed.

Lemma quoted_none s t : Forall (fun c => c <> 39) s -> quoted s t -> t = s.
Proof.
  intros HF H. induction H as [|c s t H IH|s t H IH]; [done| |]; apply Forall_cons in HF as [Hc HF]; [|done].
  by rewrite IH.
Qed.

Lemma quoted_Forall (P : Z -> Prop) s t : P 37 -> P 50 -> P 55 -> Forall P s -> quoted s t -> Forall P t.
Proof.
  intros H1 H2 H3 HF H. induction H as [|c s t H IH|s t H IH]; [done| |]; apply Forall_cons in HF as [Hc HF].
  - constructor; auto.
  - cbn. repeat (apply Forall_cons; split; [done|]). auto.
Qed.

(** [e] is what [encodeURIComponent] writes for the units [x]. *)
Record codes (x e : jsstr) (b : jsstr) : Prop := {
  codes_plus : forall t, space_to_plus (e ++ t) = b ++ space_to_plus t;
  codes_units : Forall query_unit b;
  codes_decode : forall b' t, quoted b b' ->
    Qs.decodeURIComponent (plus_to_space b' ++ t) =
    result_bind (Qs.decodeURIComponent t) (fun r => Ok (x ++ r));
}.

Lemma codes_hex x e :
  (forall t, space_to_plus (e ++ t) = e ++ space_to_plus t) ->
  Forall (fun c => query_unit c /\ c <> 43 /\ c <> 39) e ->
  (forall t, Qs.decodeURIComponent (e ++ t) = result_bind (Qs.decodeURIComponent t) (fun r => Ok (x ++ r))) ->
  codes x e e.
Proof.
  intros Hs [Hu [Hp Hq]%Forall_and]%Forall_and Hd. constructor; [done..|].
  intros b' t Hb. rewrite (quoted_none _ _ Hq Hb), plus_to_space_id by done. apply Hd.
Qed.

Lemma unreserved_unit c : unreserved c = true -> query_unit c /\ c <> 37 /\ c <> 43 /\ 0 <= c < 128.
Proof.
  unfold unreserved, query_unit, query_kept. rewrite !orb_true_iff.
  intros [[[H|H]|H]|H]; bool_hyps; [lia..|].
  rewrite !elem_of_cons, elem_of_nil in H. lia.
Qed.

Lemma codes_unreserved c : unreserved c = true -> codes [c] [c] [c].
Proof.
  intros (Hu & Hp & H43 & _)%unreserved_unit. constructor.
  - intros t. by apply space_to_plus_other.
  - by apply Forall_singleton.
  - intros b' t Hb. inversion Hb as [|? ? t' Ht|? t' Ht]; subst; inversion Ht; subst.
    + rewrite plus_to_space_id by by apply Forall_singleton. by apply decode_plain.
    + by apply (decode_byte 39).
Qed.

(** Units in the rows of [utf8_escape]. *)
Ltac hex_rows :=
  repeat first
    [ rewrite <- app_assoc
    | rewrite space_to_plus_hex by (Z.to_euclidean_division_equations; lia) ];
  try reflexivity.

Ltac hex_units :=
  repeat (apply Forall_app; split); apply hexTable_units; Z.to_euclidean_division_equations; lia.

Lemma codes_escape c :
  0 <= c < 0x10000 -> is_surrogate c = false -> exists b, codes [c] (utf8_escape c) b.
Proof.
  intros Hc Hs. unfold utf8_escape.
  destruct (c <? 0x80) eqn:E1; bool_hyps.
  { destruct (Z.eq_dec c 32) as [->|Hne].
    - exists [43]. constructor; [done| |].
      + apply Forall_singleton. unfold query_unit, query_kept. lia.
      + intros b' t Hb. by rewrite (quoted_none [43] b') by (done || by apply Forall_singleton).
    - exists (Qs.hexTable c). apply codes_hex; [intros t; apply space_to_plus_hex; [lia|done]| |].
      + apply hexTable_units. lia.
      + intros t. apply decode_byte. lia. }
  destruct (c <? 0x800) eqn:E2; bool_hyps.
  { eexists. apply codes_hex; [intros t; hex_rows|hex_units|].
    intros t. rewrite <- bytes2_eq by lia. apply decode_bytes2. lia. }
  ztest. eexists. apply codes_hex; [intros t; hex_rows|hex_units|].
  intros t. rewrite <- bytes3_eq by lia. apply decode_bytes3; [lia|done].
Qed.

Lemma codes_pair c u :
  0xD800 <= c < 0xDC00 -> 0xDC00 <= u < 0xE000 ->
  exists b, codes [c; u] (utf8_escape (0x10000 + (c - 0xD800) * 0x400 + (u - 0xDC00))) b.
Proof.
  intros Hc Hu. unfold utf8_escape. set (v := 0x10000 + (c - 0xD800) * 0x400 + (u - 0xDC00)).
  assert (0x10000 <= v < 0x110000) as Hv by lia. do 3 ztest.
  eexists. apply codes_hex.
  - clearbody v. intros t. hex_rows.
  - clearbody v. hex_units.
  - intros t. rewrite <- bytes4_eq by lia. unfold v. rewrite <- pair_point_eq by done.
    by apply decode_bytes4.
Qed.

(** A well-formed string survives a trip through its component of a query,
    whatever happened to its apostrophes. *)
Definition component (s r : jsstr) : Prop :=
  Forall query_unit r /\ Qs.decodeURIComponent (plus_to_space r) = Ok s.
Definition robust (s r : jsstr) : Prop := forall r', quoted r r' -> component s r'.

Lemma encode_component_ok s :
  wf16 s = true -> exists r, encode_component s = Ok r /\ robust s r.
Proof.
  unfold encode_component.
  induction s as [s IH] using (well_founded_induction (Wf_nat.well_founded_ltof _ (@length Z))).
  assert (forall x e b s', s = x ++ s' -> x <> [] -> codes x e b -> wf16 s' = true ->
    encodeURIComponent s = result_bind (encodeURIComponent s') (fun r => Ok (e ++ r)) ->
    exists r, result_bind (encodeURIComponent s) (fun r => Ok (space_to_plus r)) = Ok r /\ robust s r) as Hstep.
  { intros x e b s' -> Hx [H1 H2 H3] Hwf Henc.
    destruct (IH s') as (r & Hr & Hrob).
    { unfold Wf_nat.ltof. rewrite length_app. destruct x; [done|cbn; lia]. } { done. }
    rewrite Henc. destruct (encodeURIComponent s') as [r0|err]; [|done]. cbn in *. injection Hr as <-.
    exists (b ++ space_to_plus r0). split; [by rewrite H1|].
    intros q (b' & r' & -> & Hb & Hr)%quoted_app_inv. destruct (Hrob r' Hr) as [Hu Hd]. split.
    - apply Forall_app. split; [|done]. by apply (quoted_Forall query_unit b).
    - by rewrite plus_to_space_app, H3, Hd. }
  destruct s as [|c s]; [exists []; split; [done|]; intros r Hr; inversion Hr; by split|]. cbn [wf16]. intros Hwf.
  apply andb_true_iff in Hwf as [Hc Hwf]. bool_hyps.
  destruct (unreserved c) eqn:Eu.
  { apply unreserved_unit in Eu as Hr. apply (Hstep [c] [c] [c] s); [done..|by apply codes_unreserved| |].
    - replace (is_surrogate c) with false in Hwf by (unfold is_surrogate; by ztest). done.
    - cbn [encodeURIComponent]. by rewrite Eu. }
  destruct (is_surrogate c) eqn:Es; cbn [negb] in Hwf.
  - destruct s as [|u s]; [done|]. bool_hyps. unfold is_surrogate in Es. bool_hyps.
    destruct (codes_pair c u) as [b Hb]; [lia|lia|]. eapply (Hstep [c; u]); [done..|exact Hb|done|].
    cbn [encodeURIComponent]. rewrite Eu. by repeat (ztest; cbn [orb andb]).
  - destruct (codes_escape c) as [b Hb]; [lia|done|]. eapply (Hstep [c]); [done..|exact Hb|done|].
    cbn [encodeURIComponent]. rewrite Eu. unfold is_surrogate in Es. apply negb_false_iff in Es.
    by rewrite Es.
Qed.

(** ** The text of a list of pairs *)

Definition wf_entry (p : jsstr * jsstr) : Prop := wf16 p.1 = true /\ wf16 p.2 = true.

(** A piece of the query stands for a pair. *)
Definition piece_of (p : jsstr * jsstr) (t : jsstr) : Prop :=
  exists n v, t = n ++ 61 :: v /\ component p.1 n /\ component p.2 v.
Definition robust_piece (p : jsstr * jsstr) (t : jsstr) : Prop :=
  forall t', quoted t t' -> piece_of p t'.

Lemma quoted_cons_inv c s t : c <> 39 -> quoted (c :: s) t -> exists t', t = c :: t' /\ quoted s t'.
Proof. intros Hc H. inversion H; subst; [by eexists|done]. Qed.

Lemma pair_strings_ok l :
  Forall wf_entry l -> exists ts, pair_strings l = Ok ts /\ Forall2 robust_piece l ts.
Proof.
  induction 1 as [|p l [Hn Hv] HF (ts & Hts & IH)]; [by exists []|]. cbn [pair_strings].
  destruct (encode_component_ok _ Hn) as (n & -> & Hcn). destruct (encode_component_ok _ Hv) as (v & -> & Hcv).
  cbn [result_bind]. rewrite Hts. cbn [result_bind]. eexists. split; [done|]. constructor; [|done].
  intros t (n' & t' & -> & Hn' & (v' & -> & Hv')%quoted_cons_inv)%quoted_app_inv; [|done].
  exists n', v'. auto.
Qed.

(** The text of a list, with some apostrophes replaced. *)
Lemma quoted_join l ts q :
  Forall2 robust_piece l ts -> quoted (join "&" ts) q ->
  exists ts', q = join "&" ts' /\ Forall2 piece_of l ts'.
Proof.
  intros HF. revert q. induction HF as [|p t l ts Hp HF IH]; intros q Hq; [inversion Hq; by exists []|].
  destruct ts as [|y ts].
  - inversion HF; subst. exists [q]. split; [done|]. constructor; [by apply Hp|done].
  - apply (quoted_app_inv t (38 :: join "&" (y :: ts))) in Hq as (t' & q' & -> & Ht & Hq').
    apply quoted_cons_inv in Hq' as (q'' & -> & Hq''); [|done].
    destruct (IH _ Hq'') as (ts' & -> & HF'). exists (t' :: ts').
    split; [|constructor; [by apply Hp|done]]. destruct ts' as [|y' ts']; [|done].
    inversion HF'; subst. inversion HF.
Qed.

Lemma indexOf_at_first c s t k : Forall (fun x => x <> c) s -> indexOf_at (s ++ c :: t) [c] k = k + len s.
Proof.
  intros HF. revert k. induction HF as [|x s Hx HF IH]; intros k; cbn [app indexOf_at]; rewrite startsWith_single.
  - rewrite Z.eqb_refl. len_lia.
  - ztest. rewrite IH. len_lia.
Qed.

Lemma parse_piece p t : piece_of p t -> parse_pair t = Ok p /\ len t <> 0 /\ Forall (fun c => c <> 38 /\ c <> 63 /\ query_kept c) t.
Proof.
  intros (n & v & -> & [Hun Hdn] & [Huv Hdv]). split_and!.
  - unfold parse_pair. assert (indexOf (n ++ 61 :: v) "=" = len n) as ->.
    { rewrite indexOf_start, indexOf_at_first; [lia|]. eapply Forall_impl; [exact Hun|]. by intros c (_ & ? & _). }
    pose proof (len_nonneg n). ztest. rewrite slice_prefix by done. rewrite Hdn. cbn [result_bind].
    rewrite (app_assoc n [61] v : n ++ 61 :: v = _), slice_suffix by len_lia. rewrite Hdv. by destruct p.
  - pose proof (len_nonneg n). len_lia.
  - apply Forall_app. split; [|apply Forall_cons; split; [unfold query_kept; lia|]]; (eapply Forall_impl; [eassumption|]);
      unfold query_unit, query_kept; lia.
Qed.

Lemma parse_pieces l ts acc : Forall2 piece_of l ts -> parse_pairs ts acc = (acc ++ l, Ok tt).
Proof.
  intros HF. revert acc. induction HF as [|p t l ts Hp HF IH]; intros acc; cbn [parse_pairs]; [by rewrite app_nil_r|].
  destruct (parse_piece _ _ Hp) as (-> & Hne & _). ztest. rewrite IH. by rewrite <- app_assoc.
Qed.

Lemma split_join c l :
  l <> [] -> Forall (Forall (fun x => x <> c)) l -> split (join [c] l) c = l.
Proof.
  intros Hl HF. apply (segments_join (fun o => from_option (Z.eqb c) false o) c); [by apply Z.eqb_refl|done|].
  eapply Forall_impl; [exact HF|]. intros x Hx. eapply Forall_impl; [exact Hx|]. intros y Hy. by apply Z.eqb_neq.
Qed.

Lemma parse_joined l ts : Forall2 piece_of l ts -> _parseString (join "&" ts) [] = (l, Ok tt).
Proof.
  intros HF. unfold _parseString.
  assert (Forall (Forall (fun x => x <> 38)) ts) as H38.
  { eapply Forall2_Forall_r; [exact HF|]. apply Forall_true. intros p t Hp.
    destruct (parse_piece _ _ Hp) as (_ & _ & H). eapply Forall_impl; [exact H|]. by intros c [? _]. }
  destruct HF as [|p t l ts Hp HF]; [done|].
  assert (len (join "&" (t :: ts)) <> 0) as Hne.
  { destruct (parse_piece _ _ Hp) as (_ & Ht & _). pose proof (len_nonneg t).
    destruct ts as [|y ts]; [done|].
    change (join "&" (t :: y :: ts)) with (t ++ 38 :: join "&" (y :: ts)). len_lia. }
  ztest. change "&"%js with [38]. rewrite split_join by done.
  apply (parse_pieces (p :: l) (t :: ts) []). by constructor.
Qed.

Lemma join_units (P : Z -> Prop) ts : P 38 -> Forall (Forall P) ts -> Forall P (join "&" ts).
Proof.
  intros H38 HF. induction HF as [|x ts Hx HF IH]; [constructor|]. destruct ts as [|y ts]; [done|].
  change (join "&" (x :: y :: ts)) with (x ++ 38 :: join "&" (y :: ts)).
  apply Forall_app. split; [done|]. by constructor.
Qed.

Lemma toString_parse l :
  Forall wf_entry l ->
  exists s, toString l = Ok s /\
    forall q, quoted s q -> _parseString q [] = (l, Ok tt) /\ Forall (fun c => c <> 63 /\ query_kept c) q.
Proof.
  intros (ts & Hts & HF)%pair_strings_ok. exists (join "&" ts). unfold toString. rewrite Hts.
  split; [done|]. intros q Hq. destruct (quoted_join _ _ _ HF Hq) as (ts' & -> & HF').
  split; [by apply parse_joined|]. apply join_units; [unfold query_kept; lia|].
  eapply Forall2_Forall_r; [exact HF'|]. apply Forall_true. intros p t Hp.
  destruct (parse_piece _ _ Hp) as (_ & _ & H). eapply Forall_impl; [exact H|]. by intros c [_ ?].
Qed.

Lemma params_of_text q l :
  _parseString q [] = (l, Ok tt) -> Forall (fun c => c <> 63) q ->
  new_URLSearchParams (InitString q) = Ok l /\ new_URLSearchParams (InitString ("?"%js ++ q)) = Ok l.
Proof.
  intros Hp Hq. unfold new_URLSearchParams. split.
  - assert ((0 <? len q) && code_is (charCodeAt q 0) 0x3F = false) as ->; [|by rewrite Hp].
    rewrite charCodeAt_0. destruct Hq as [|c q Hc]; [done|]. cbn [head code_is].
    apply andb_false_iff. right. by apply Z.eqb_neq.
  - assert (0 <? len ("?"%js ++ q) = true) as -> by (apply Z.ltb_lt; pose proof (len_nonneg q); len_lia).
    replace (code_is _ _) with true by done. cbn [andb].
    rewrite (slice_suffix "?"%js q 1) by done. by rewrite Hp.
Qed.

(** Search parameters survive a trip through text: a list of pairs of
    well-formed strings is written by [toString], and [new URLSearchParams] of
    the text, with or without the leading question mark, is the same list. *)
Theorem url_params_roundtrip l :
  Forall wf_entry l ->
  exists s, toString l = Ok s /\
    new_URLSearchParams (InitString s) = Ok l /\
    new_URLSearchParams (InitString ("?"%js ++ s)) = Ok l.
Proof.
  intros (s & Hs & Hq)%toString_parse. exists s. split; [done|].
  destruct (Hq s (quoted_refl s)) as [Hp [H63 _]%Forall_and]. by apply params_of_text.
Qed.

Definition demo_params : list (jsstr * jsstr) := [("a b"%js, "x&y=z"%js); ([0xD83D; 0xDE00], "+"%js); ([], [])].

Lemma url_params_roundtrip_witness :
  exists s, toString demo_params = Ok s /\ new_URLSearchParams (InitString s) = Ok demo_params /\
    new_URLSearchParams (InitString ("?"%js ++ s)) = Ok demo_params.
Proof.
  apply (url_params_roundtrip demo_params).
  unfold demo_params, wf_entry. repeat (apply Forall_cons; split; [split; vm_compute; reflexivity|]).
  apply Forall_nil. exact I.
Defined.

(** ** The multimap *)

Lemma getAll_cons n p l : getAll n (p :: l) = (if bool_decide (p.1 = n) then [p.2] else []) ++ getAll n l.
Proof. unfold getAll. rewrite filter_cons. case_decide; case_bool_decide; done. Qed.

Lemma getAll_app n l k : getAll n (l ++ k) = getAll n l ++ getAll n k.
Proof. unfold getAll. by rewrite filter_app, fmap_app. Qed.

Lemma get_head n l : get n l = head (getAll n l).
Proof. induction l as [|p l IH]; [done|]. cbn [get]. rewrite getAll_cons. by case_bool_decide. Qed.

Lemma has_getAll n v l :
  has n v l = match v with Some v => bool_decide (v ∈ getAll n l) | None => bool_decide (getAll n l <> []) end.
Proof.
  induction l as [|p l IH]; [by destruct v|]. unfold has in *. cbn [existsb]. rewrite IH, getAll_cons.
  destruct (decide (p.1 = n)) as [E|E].
  - rewrite (bool_decide_eq_true_2 _ E). cbn [andb app]. destruct v as [v|]; [|done].
    destruct (decide (p.2 = v)) as [Ev|Ev].
    + rewrite (bool_decide_eq_true_2 _ Ev). symmetry. apply bool_decide_eq_true. rewrite Ev. left.
    + rewrite (bool_decide_eq_false_2 _ Ev). cbn [orb]. apply bool_decide_ext.
      rewrite elem_of_cons. split; [by right|]. by intros [->|?].
  - by rewrite (bool_decide_eq_false_2 _ E).
Qed.

(** What [delete] leaves under a name. *)
Definition after_delete (n : jsstr) (v : option jsstr) (m : jsstr) (vs : list jsstr) : list jsstr :=
  if bool_decide (m = n) then match v with Some v => filter (fun x => x <> v) vs | None => [] end else vs.

Lemma getAll_delete n v m l : getAll m (delete n v l) = after_delete n v m (getAll m l).
Proof.
  unfold after_delete. induction l as [|p l IH]; [by repeat case_match|].
  unfold delete in *. cbn [List.filter]. rewrite getAll_cons.
  destruct (decide (p.1 = n)) as [E|E]; [rewrite (bool_decide_eq_true_2 _ E)|rewrite (bool_decide_eq_false_2 _ E)];
    cbn [negb].
  2: { rewrite getAll_cons, IH. destruct (decide (m = n)) as [->|Em]; [|by rewrite !(bool_decide_eq_false_2 _ Em)].
       by rewrite (bool_decide_eq_false_2 _ E). }
  destruct (decide (m = n)) as [->|Em].
  - rewrite (bool_decide_eq_true_2 _ E), !(bool_decide_eq_true_2 (n = n)) in * by done. cbn [app].
    destruct v as [v|]; [|done]. rewrite filter_cons. destruct (decide (p.2 = v)) as [Ev|Ev].
    + rewrite (bool_decide_eq_true_2 _ Ev). cbn [negb]. rewrite decide_False by tauto. done.
    + rewrite (bool_decide_eq_false_2 _ Ev). cbn [negb]. rewrite decide_True, getAll_cons, IH by done.
      by rewrite (bool_decide_eq_true_2 _ E).
  - assert (p.1 <> m) as Hm by congruence. rewrite (bool_decide_eq_false_2 _ Em) in *.
    rewrite (bool_decide_eq_false_2 _ Hm).
    destruct (match v with Some _ => _ | None => _ end); [|done].
    by rewrite getAll_cons, IH, (bool_decide_eq_false_2 _ Hm).
Qed.

Lemma set_filter_ok n v l :
  (forall found, (set_filter n v found l).2 = found || bool_decide (getAll n l <> [])) /\
  getAll n (set_filter n v true l).1 = [] /\
  getAll n (set_filter n v false l).1 = (if bool_decide (getAll n l <> []) then [v] else []) /\
  (forall m found, m <> n -> getAll m (set_filter n v found l).1 = getAll m l).
Proof.
  induction l as [|p l (IH1 & IH2 & IH3 & IH4)].
  { split_and!; [by intros []|done..]. }
  cbn [set_filter]. rewrite getAll_cons.
  destruct (decide (p.1 = n)) as [E|E];
    [rewrite (bool_decide_eq_true_2 _ E)|rewrite (bool_decide_eq_false_2 _ E)]; cbn [negb app].
  - split_and!.
    + intros []; cbn [negb]; [by rewrite IH1|]. specialize (IH1 true). by destruct (set_filter n v true l).
    + done.
    + destruct (set_filter n v true l) as [k f]. cbn [fst snd] in *. rewrite getAll_cons. cbn [fst snd].
      by rewrite (bool_decide_eq_true_2 _ E), IH2.
    + intros m [] Hm; cbn [negb]; rewrite (getAll_cons m p l), bool_decide_eq_false_2 by congruence; [by apply IH4|].
      specialize (IH4 m true Hm). destruct (set_filter n v true l) as [k f]. cbn [fst snd] in *.
      rewrite getAll_cons. cbn [fst snd]. by rewrite bool_decide_eq_false_2 by congruence.
  - assert (forall m found, getAll m (let '(k, f) := set_filter n v found l in (p :: k, f)).1 =
      (if bool_decide (p.1 = m) then [p.2] else []) ++ getAll m (set_filter n v found l).1) as Hg.
    { intros m found. destruct (set_filter n v found l). apply getAll_cons. }
    split_and!.
    + intros found. specialize (IH1 found). by destruct (set_filter n v found l).
    + by rewrite Hg, (bool_decide_eq_false_2 _ E), IH2.
    + by rewrite Hg, (bool_decide_eq_false_2 _ E), IH3.
    + intros m found Hm. by rewrite Hg, getAll_cons, IH4.
Qed.

Lemma getAll_set n v m l :
  getAll m (set n v l) = if bool_decide (m = n) then [v] else getAll m l.
Proof.
  destruct (set_filter_ok n v l) as (H1 & _ & H3 & H4). unfold set. specialize (H1 false).
  destruct (set_filter n v false l) as [k f] eqn:Ek. cbn [fst snd] in H1, H3.
  destruct (decide (m = n)) as [->|Hm].
  - rewrite bool_decide_eq_true_2 by done. subst f. cbn [orb]. destruct (bool_decide (getAll n l <> [])); [done|].
    rewrite getAll_app, H3, getAll_cons. cbn [fst snd]. by rewrite bool_decide_eq_true_2.
  - rewrite bool_decide_eq_false_2 by done. specialize (H4 m false Hm). rewrite Ek in H4. cbn [fst snd] in H4.
    destruct f; [done|]. rewrite getAll_app, H4, getAll_cons. cbn [fst snd].
    rewrite bool_decide_eq_false_2 by congruence. apply app_nil_r.
Qed.

(** *** Sorting *)

Lemma str_lt_irrefl a : str_lt a a = false.
Proof. induction a as [|x a IH]; [done|]. cbn. rewrite IH, Z.ltb_irrefl, Z.eqb_refl. done. Qed.

Lemma str_lt_asym a b : str_lt a b = true -> str_lt b a = false.
Proof.
  revert b. induction a as [|x a IH]; intros [|y b]; cbn [str_lt]; try done.
  rewrite orb_true_iff, andb_true_iff, orb_false_iff, andb_false_iff, Z.ltb_lt, Z.eqb_eq, Z.ltb_ge, Z.eqb_neq.
  intros [H|[-> H]]; [lia|]. split; [lia|]. right. by apply IH.
Qed.

Lemma str_ge_trans a b c : str_lt b a = false -> str_lt c b = false -> str_lt c a = false.
Proof.
  revert b c. induction a as [|x a IH]; intros [|y b] [|z c]; cbn [str_lt]; try done.
  rewrite !orb_false_iff, !andb_false_iff, !Z.ltb_ge, !Z.eqb_neq.
  intros [H1 H2] [H3 H4]. split; [lia|].
  destruct (Z.eq_dec z x) as [->|]; [|by left]. right. assert (y = x) as -> by lia.
  destruct H2; [done|]. destruct H4; [done|]. by eapply IH.
Qed.

(** Names in order. *)
Abbreviation in_order := (StronglySorted (fun p q : jsstr * jsstr => str_lt q.1 p.1 = false)).

Lemma sort_insert_perm p l : sort_insert p l ≡ₚ p :: l.
Proof.
  induction l as [|q l IH]; [done|]. cbn [sort_insert]. case_match; [|done]. rewrite IH. apply Permutation_swap.
Qed.

Lemma sort_insert_sorted p l : in_order l -> in_order (sort_insert p l).
Proof.
  induction 1 as [|q l Hl IH Hq]; cbn [sort_insert]; [by repeat constructor|].
  destruct (str_lt q.1 p.1) eqn:E.
  - constructor; [done|]. rewrite sort_insert_perm. constructor; [by apply str_lt_asym|done].
  - constructor; [by constructor|]. constructor; [done|]. eapply Forall_impl; [exact Hq|].
    intros r Hr. cbn in *. by eapply str_ge_trans.
Qed.

Lemma getAll_sort_insert n p l : getAll n (sort_insert p l) = getAll n (p :: l).
Proof.
  induction l as [|q l IH]; [done|]. cbn [sort_insert]. destruct (str_lt q.1 p.1) eqn:E; [|done].
  rewrite getAll_cons, IH, !getAll_cons. destruct (decide (p.1 = n)) as [Ep|Ep].
  - assert (q.1 <> n) as Eq by (intros Eq; rewrite Ep, Eq, str_lt_irrefl in E; done).
    by rewrite (bool_decide_eq_false_2 _ Eq).
  - by rewrite (bool_decide_eq_false_2 _ Ep).
Qed.

Lemma sort_ok l : sort l ≡ₚ l /\ in_order (sort l) /\ forall n, getAll n (sort l) = getAll n l.
Proof.
  unfold sort. induction l as [|p l (IH1 & IH2 & IH3)]; [by repeat constructor|]. cbn [foldr]. split_and!.
  - by rewrite sort_insert_perm, IH1.
  - by apply sort_insert_sorted.
  - intros n. by rewrite getAll_sort_insert, !getAll_cons, IH3.
Qed.

(** Search parameters are a multimap of names to the list of their values:
    [append], [set] and [delete] change the values of their name as they
    should and no others, [get] and [has] answer for it, and [sort] orders the
    names without changing the order of the values of any. *)
Theorem url_params_multimap n v w l m :
  get n l = head (getAll n l) /\
  has n None l = bool_decide (getAll n l <> []) /\
  has n (Some v) l = bool_decide (v ∈ getAll n l) /\
  getAll m (append n v l) = (if bool_decide (m = n) then getAll n l ++ [v] else getAll m l) /\
  getAll m (set n v l) = (if bool_decide (m = n) then [v] else getAll m l) /\
  getAll m (delete n w l) = after_delete n w m (getAll m l) /\
  sort l ≡ₚ l /\ in_order (sort l) /\ getAll m (sort l) = getAll m l.
Proof.
  destruct (sort_ok l) as (? & ? & ?).
  split_and!; auto using get_head, getAll_set, getAll_delete; [apply has_getAll..|].
  unfold append. rewrite getAll_app, getAll_cons. cbn [fst snd]. destruct (decide (m = n)) as [->|Hm].
  - by rewrite !bool_decide_eq_true_2.
  - rewrite (bool_decide_eq_false_2 _ Hm), bool_decide_eq_false_2 by congruence. apply app_nil_r.
Qed.

(** ** Components *)

(** The layout of the offsets, as the parser documents it: credentials up to
    [host_start], where an at sign is if there are any, then the host, the
    port, the path, the query and the fragment. *)
Record laid_out (h : jsstr) (c : components) : Prop := {
  lo_scheme : 0 <= protocol_end c;
  lo_slashes : slice h (protocol_end c) (protocol_end c + 2) = "//"%js;
  lo_user : protocol_end c + 2 <= username_end c <= host_start c;
  lo_colon : username_end c < host_start c ->
    username_end c + 1 < host_start c /\ charCodeAt h (username_end c) = Some 58;
  lo_at : username_end c <> protocol_end c + 2 \/ username_end c <> host_start c ->
    charCodeAt h (host_start c) = Some 64;
  lo_host : (if code_is (charCodeAt h (host_start c)) 64 then host_start c + 1 else host_start c)
    <= host_end c <= pathname_start c;
  lo_no_host :
    (if code_is (charCodeAt h (host_start c)) 64 then host_start c + 1 else host_start c) = host_end c ->
    pathname_start c = host_end c;
  lo_path : pathname_start c <= len h;
  lo_search : hasSearch c = true -> pathname_start c <= search_start c <= len h;
  lo_hash : hasHash c = true ->
    pathname_start c <= hash_start c <= len h /\ (hasSearch c = true -> search_start c <= hash_start c);
}.

Lemma slice_join h a b c :
  0 <= a -> a <= b -> b <= c -> c <= len h -> slice h a b ++ slice h b c = slice h a c.
Proof.
  intros. rewrite !slice_spec by lia.
  replace (drop (Z.to_nat b) h) with (drop (Z.to_nat (b - a)) (drop (Z.to_nat a) h))
    by (rewrite drop_drop; f_equal; lia).
  replace (Z.to_nat (c - a)) with (Z.to_nat (b - a) + Z.to_nat (c - b))%nat by lia.
  apply take_take_drop.
Qed.

Lemma slice_one h a c : charCodeAt h a = Some c -> slice h a (a + 1) = [c].
Proof.
  intros H. assert (0 <= a < len h) as Ha.
  { destruct (Z.lt_ge_cases a 0); [by rewrite charCodeAt_neg in H|].
    destruct (Z.lt_ge_cases a (len h)); [done|by rewrite charCodeAt_ge in H]. }
  rewrite slice_spec by lia. replace (a + 1 - a) with 1 by lia.
  unfold charCodeAt in H. replace (a <? 0) with false in H by (symmetry; apply Z.ltb_ge; lia).
  rewrite (drop_S _ c) by done. done.
Qed.

(** The query as it stands in the URL: a lone question mark is kept there,
    while [url.search] hides it. *)
Definition raw_search (u : url) : jsstr :=
  let c := comps u in
  if hasSearch c
  then slice (href u) (search_start c) (if hasHash c then hash_start c else len (href u)) else [].

Lemma tail_parts u :
  laid_out (href u) (comps u) ->
  slice_from (href u) (pathname_start (comps u)) = pathname u ++ raw_search u ++ hash u.
Proof.
  intros L. pose proof (lo_path _ _ L). pose proof (lo_host _ _ L) as Hh. pose proof (lo_user _ _ L) as Hu.
  pose proof (lo_search _ _ L) as Hs. pose proof (lo_hash _ _ L) as Hf. pose proof (lo_scheme _ _ L).
  assert (0 <= pathname_start (comps u)) by (destruct (code_is _ _); lia).
  unfold pathname, raw_search, hash, slice_from in *.
  destruct (hasSearch (comps u)), (hasHash (comps u)); rewrite ?app_nil_r;
    repeat match goal with H : true = true -> _ |- _ => specialize (H eq_refl) end.
  - rewrite slice_join, slice_join by lia. done.
  - rewrite slice_join by lia. done.
  - cbn [app]. rewrite slice_join by lia. done.
  - done.
Qed.

Lemma host_parts u :
  laid_out (href u) (comps u) ->
  host u = slice (href u) (host_at u) (pathname_start (comps u)) /\
  host u = hostname u ++ slice (href u) (host_end (comps u)) (pathname_start (comps u)).
Proof.
  intros L. pose proof (lo_host _ _ L) as Hh. pose proof (lo_no_host _ _ L) as Hn.
  pose proof (lo_path _ _ L). pose proof (lo_user _ _ L). pose proof (lo_scheme _ _ L).
  unfold host, hostname, host_at in *. cbv zeta in *.
  set (a := if code_is _ _ then _ else _) in *.
  assert (0 <= a) by (unfold a; destruct (code_is _ _); lia).
  destruct (a =? host_end (comps u)) eqn:E; bool_hyps.
  - rewrite Hn by done. rewrite E, !slice_empty by lia. done.
  - rewrite slice_join by lia. done.
Qed.

Lemma authority_parts u :
  laid_out (href u) (comps u) ->
  slice (href u) (protocol_end (comps u)) (host_at u) =
  "//"%js ++ username u ++ (if bool_decide (password u = []) then [] else ":"%js ++ password u)
  ++ (if bool_decide (host_at u = host_start (comps u)) then [] else "@"%js).
Proof.
  intros L. pose proof (lo_host _ _ L) as Hh. pose proof (lo_path _ _ L). pose proof (lo_user _ _ L).
  pose proof (lo_scheme _ _ L). pose proof (lo_at _ _ L) as Hat. pose proof (lo_colon _ _ L) as Hcol.
  unfold host_at in *. set (h := href u) in *. set (c := comps u) in *.
  rewrite <- (slice_join h (protocol_end c) (protocol_end c + 2)) by (destruct (code_is _ _); lia).
  rewrite (lo_slashes _ _ L). f_equal.
  rewrite <- (slice_join h _ (username_end c)) by (destruct (code_is _ _); lia).
  f_equal; [|rewrite <- (slice_join h _ (host_start c)) by (destruct (code_is _ _); lia); f_equal].
  - unfold username. fold h c. cbv zeta. destruct (_ <=? _) eqn:E; bool_hyps; [|done].
    apply slice_empty. lia.
  - unfold password. fold h c. cbv zeta. destruct (_ <=? 0) eqn:E; bool_hyps.
    + rewrite bool_decide_eq_true_2 by done. apply slice_empty. lia.
    + destruct Hcol as [Hlt Hc]; [lia|].
      rewrite <- (slice_join h _ (username_end c + 1)) by (destruct (code_is _ _); lia).
      rewrite (slice_one _ _ _ Hc).
      rewrite bool_decide_eq_false_2; [done|]. intros Hz. apply (f_equal len) in Hz.
      rewrite slice_spec in Hz by (destruct (code_is _ _); lia). unfold len in *.
      rewrite length_take, length_drop, length_nil in Hz. destruct (code_is _ _); lia.
  - destruct (code_is (charCodeAt h (host_start c)) 64) eqn:E.
    + rewrite bool_decide_eq_false_2 by lia. apply slice_one.
      destruct (charCodeAt h (host_start c)) as [x|]; [|done]. cbn in E. bool_hyps. by subst.
    + rewrite bool_decide_eq_true_2 by done. apply slice_empty. lia.
Qed.

(** The components a URL shows are the whole of it: its serialisation is
    the protocol, the credentials, the host, the path, the query and the
    fragment its getters answer, with their delimiters, and nothing else. *)
Theorem url_components_rebuild_href u :
  laid_out (href u) (comps u) ->
  href u = protocol u ++ "//"%js ++ username u ++
    (if bool_decide (password u = []) then [] else ":"%js ++ password u) ++
    (if bool_decide (host_at u = host_start (comps u)) then [] else "@"%js) ++
    host u ++ pathname u ++ raw_search u ++ hash u /\
  (search u = raw_search u \/ search u = [] /\ len (raw_search u) <= 1).
Proof.
  intros L. split.
  - rewrite <- tail_parts by done. destruct (host_parts _ L) as [-> _].
    pose proof (lo_host _ _ L) as Hh. pose proof (lo_path _ _ L). pose proof (lo_user _ _ L).
    pose proof (lo_scheme _ _ L). unfold slice_from.
    rewrite slice_join by (unfold host_at; destruct (code_is _ _); lia).
    pose proof (authority_parts _ L) as Ha. rewrite !app_assoc in Ha |- *. rewrite <- !app_assoc in Ha |- *.
    rewrite !(app_assoc "//"%js), !app_assoc.
    rewrite <- !app_assoc. rewrite <- (slice_whole (href u)) at 1.
    rewrite <- (slice_join (href u) 0 (protocol_end (comps u))) by (destruct (code_is _ _); lia).
    f_equal. rewrite <- (slice_join (href u) _ (host_at u)) by (unfold host_at; destruct (code_is _ _); lia).
    rewrite Ha. by rewrite <- !app_assoc.
  - unfold search, search_of, raw_search. destruct (hasSearch (comps u)) eqn:E; cbn [negb]; [|by left].
    destruct (_ <=? 1) eqn:E1; [|by left]. right. split; [done|]. bool_hyps.
    pose proof (lo_search _ _ L E). pose proof (lo_hash _ _ L) as Hf. pose proof (lo_scheme _ _ L).
    pose proof (lo_host _ _ L). pose proof (lo_user _ _ L).
    assert (0 <= pathname_start (comps u)) by (destruct (code_is _ _); lia).
    rewrite slice_spec by (destruct (hasHash (comps u)); [destruct (Hf eq_refl) as [? Hx]; specialize (Hx E)|]; lia).
    unfold len in *. rewrite length_take. lia.
Qed.

(** ["https://u:p@h:1/x?q#f"]. *)
Definition demo_url : url :=
  Url_ (Context_ "https://u:p@h:1/x?q#f" (Components 6 9 11 13 1 15 17 19 2)) None.

Lemma url_components_rebuild_href_witness :
  laid_out (href demo_url) (comps demo_url) /\
  (protocol demo_url, username demo_url, password demo_url, host demo_url) =
    ("https:"%js, "u"%js, "p"%js, "h:1"%js) /\
  (search demo_url = raw_search demo_url \/ search demo_url = [] /\ len (raw_search demo_url) <= 1).
Proof.
  assert (laid_out (href demo_url) (comps demo_url)) as L.
  { constructor; cbn; done || lia. }
  split; [exact L|]. split; [vm_compute; reflexivity|].
  exact (proj2 (url_components_rebuild_href demo_url L)).
Defined.
