(* ===== verification/UrlSync.v ===== *)
(** * The URL shim: [url.search] and [url.searchParams]; file URLs

    [searchParams] is a second copy of the query.  The operations that change
    either keep them in agreement, given what the native parser promises
    ([native_ok]); assigning to [href] does not.  Then what [fileURLToPath]
    accepts and answers. *)

From stdpp Require Import relations.
From S2P Require Import Prelude JsString PathSpec QueryString QueryStringFacts Url UrlFacts.
Import Url.

(** ** Code units *)

Abbreviation units := (Forall (fun c => 0 <= c < 0x10000)).
Abbreviation unit_entry := (fun p => units p.1 /\ units p.2).

Lemma octet_nonneg h l b : Qs.octet h l = Some b -> 0 <= b.
Proof.
  unfold Qs.octet, Qs.unhex. repeat case_match; intros; simplify_eq; bool_hyps; lia.
Qed.

Lemma utf16_units least v : 0 <= least -> Qs.scalar least v = true -> units (Qs.utf16 v).
Proof.
  intros Hl Hv. unfold Qs.scalar in Hv. bool_hyps. unfold Qs.utf16. case_step; bool_hyps.
  - apply Forall_singleton. lia.
  - apply Forall_cons. split; [Z.to_euclidean_division_equations; lia|].
    apply Forall_singleton. Z.to_euclidean_division_equations; lia.
Qed.

(** Decoding code units gives code units. *)
Lemma decode_units s r : units s -> Qs.decodeURIComponent s = Ok r -> units r.
Proof.
  revert r. induction s as [s IH] using (well_founded_induction (Wf_nat.well_founded_ltof _ (@length Z))).
  assert (forall t x r, (length t < length s)%nat -> units t -> units x ->
    result_bind (Qs.decodeURIComponent t) (fun r => Ok (x ++ r)) = Ok r -> units r) as Hnext.
  { intros t x r Hl Ht Hx. destruct (Qs.decodeURIComponent t) as [r0|] eqn:E; [|done]. cbn. intros [= <-].
    apply Forall_app. split; [done|]. by apply (IH t). }
  intros r Hs. destruct s as [|c s]; [by intros [= <-]|]. apply Forall_cons in Hs as [Hc Hs].
  cbn [Qs.decodeURIComponent]. case_step.
  { intros H. apply (Hnext s [c] r); [cbn; lia|done|by apply Forall_singleton|done]. }
  destruct s as [|h [|l s]]; [done..|]. apply Forall_cons in Hs as [_ [_ Hs]%Forall_cons].
  destruct (Qs.octet h l) as [b|] eqn:Eb; [|done]. apply octet_nonneg in Eb.
  case_step; bool_hyps.
  { intros H. apply (Hnext s [b] r); [cbn; lia|done|apply Forall_singleton; lia|done]. }
  repeat case_step; try done; intros H;
    repeat match goal with H : units (_ :: _) |- _ => apply Forall_cons in H as [_ H] end;
    (eapply Hnext; [|eassumption| |exact H]; [cbn; lia|eapply utf16_units; [|eassumption]; lia]).
Qed.

(** Only a well-formed string can be encoded. *)
Lemma encode_wf s r : units s -> encode_component s = Ok r -> wf16 s = true.
Proof.
  unfold encode_component. revert r.
  induction s as [s IH] using (well_founded_induction (Wf_nat.well_founded_ltof _ (@length Z))).
  assert (forall t x r, (length t < length s)%nat -> units t ->
    result_bind (result_bind (encodeURIComponent t) (fun r => Ok (x ++ r))) (fun r => Ok (space_to_plus r))
      = Ok r -> wf16 t = true) as Hnext.
  { intros t x r Hl Ht H. destruct (encodeURIComponent t) as [r0|] eqn:E; [|done].
    apply (IH t Hl (space_to_plus r0) Ht). by rewrite E. }
  intros r Hs. destruct s as [|c s]; [done|]. apply Forall_cons in Hs as [Hc Hs].
  cbn [encodeURIComponent wf16]. do 2 (ztest; cbn [andb]). destruct (unreserved c) eqn:Eu.
  { apply unreserved_unit in Eu. intros H. replace (is_surrogate c) with false by (unfold is_surrogate; by ztest).
    apply (Hnext s [c] r); [cbn; lia|done..]. }
  unfold is_surrogate. destruct ((c <? 0xD800) || (0xE000 <=? c)) eqn:E; cbn [negb].
  { intros H. eapply Hnext; [cbn; lia|done|exact H]. }
  destruct s as [|u s]; [done|]. destruct (_ && _ && _) eqn:E2; [|done]. cbn [andb].
  apply Forall_cons in Hs as [_ Hs]. intros H. eapply Hnext; [cbn; lia|done|exact H].
Qed.

Lemma toString_wf l s : Forall unit_entry l -> toString l = Ok s -> Forall wf_entry l.
Proof.
  intros Hl. unfold toString. destruct (pair_strings l) as [ts|] eqn:E; [|done]. intros _.
  revert ts E. induction Hl as [|p l [H1 H2] Hl IH]; intros ts E; [constructor|].
  cbn [pair_strings] in E. destruct (encode_component p.1) as [a|] eqn:E1; [|done].
  cbn [result_bind] in E. destruct (encode_component p.2) as [b|] eqn:E2; [|done].
  cbn [result_bind] in E. destruct (pair_strings l) as [rest|] eqn:E3; [|done].
  constructor; [split; by eapply encode_wf|by eapply IH].
Qed.

(** ** Units of the parameters *)

Lemma replace_units c t s : units t -> units s -> units (replace_all c t s).
Proof.
  intros Ht. unfold replace_all. induction 1 as [|x s Hx Hs IH]; [constructor|].
  cbn. apply Forall_app. split; [|done]. case_match; [done|by apply Forall_singleton].
Qed.

Lemma slice_units s a b : units s -> units (slice s a b).
Proof. intros H. unfold slice. cbv zeta. by apply Forall_take, Forall_drop. Qed.

Lemma decode_plus_units s r : units s -> Qs.decodeURIComponent (plus_to_space s) = Ok r -> units r.
Proof. intros H. apply decode_units. apply replace_units; [by repeat constructor|done]. Qed.

Lemma parse_pair_units s p : units s -> parse_pair s = Ok p -> unit_entry p.
Proof.
  intros Hs. unfold parse_pair, slice_from. case_step.
  - destruct (Qs.decodeURIComponent _) eqn:E; [|done]. intros [= <-]. split; [|constructor].
    by eapply decode_plus_units.
  - destruct (Qs.decodeURIComponent _) eqn:E1; [|done]. cbn [result_bind].
    destruct (Qs.decodeURIComponent (plus_to_space (slice s (_ + 1) _))) eqn:E2; [|done]. intros [= <-].
    split; (eapply decode_plus_units; [|eassumption]); by apply slice_units.
Qed.

Lemma parse_pairs_units ts acc :
  Forall units ts -> Forall unit_entry acc -> Forall unit_entry (parse_pairs ts acc).1.
Proof.
  intros Hts. revert acc. induction Hts as [|t ts Ht Hts IH]; intros acc Hacc; [done|]. cbn [parse_pairs].
  case_step; [by apply IH|]. destruct (parse_pair t) as [p|] eqn:E; [|done].
  apply IH, Forall_app. split; [done|]. apply Forall_singleton. by apply (parse_pair_units t).
Qed.

Lemma split_units p cur s : units cur -> units s -> Forall units (split_by p cur s).
Proof.
  intros Hcur Hs. revert cur Hcur. induction Hs as [|c s Hc Hs IH]; intros cur Hcur; cbn [split_by].
  - by apply Forall_singleton.
  - case_step; [apply Forall_cons; split; [done|by apply IH]|].
    apply IH. apply Forall_app. split; [done|by apply Forall_singleton].
Qed.

Lemma params_units s l : units s -> new_URLSearchParams (InitString s) = Ok l -> Forall unit_entry l.
Proof.
  intros Hs. unfold new_URLSearchParams. set (t := if _ && _ then _ else _).
  assert (units t) as Ht by (unfold t; case_step; [by apply slice_units|done]). clearbody t.
  unfold _parseString. case_step; [by intros [= <-]|].
  pose proof (parse_pairs_units (split t 38) [] (split_units _ _ _ (Forall_nil_2 _) Ht) (Forall_nil_2 _)) as H.
  destruct (parse_pairs _ _) as [k []]; [|done]. by intros [= <-].
Qed.

Lemma set_filter_units n v found l :
  units v -> Forall unit_entry l -> Forall unit_entry (set_filter n v found l).1.
Proof.
  intros Hv Hl. revert found. induction Hl as [|p l Hp Hl IH]; intros found; [constructor|]. cbn [set_filter].
  destruct (negb _); [|destruct (negb found); [|apply IH]].
  - specialize (IH found). destruct (set_filter n v found l). by constructor.
  - specialize (IH true). destruct (set_filter n v true l). constructor; [|done]. split; [apply Hp|done].
Qed.

(** ** The native parser *)

(** What is relied on of [bindingUrl.update], for the contexts it and
    [bindingUrl.parse] answer: they are serialisations in code units whose
    query, if not empty, starts with a question mark; writing a query whose
    units need no escape gives that query, apostrophes escaped or not;
    writing an empty one removes it; the other components are written without
    changing the query. *)
Record native_ok (update : jsstr -> action -> jsstr -> option context) (valid : context -> Prop) : Prop := {
  nat_valid x a v y : valid x -> update (ctx_href x) a v = Some y -> valid y;
  nat_href x : valid x -> units (ctx_href x) /\ len (ctx_href x) <> 0;
  nat_mark x : valid x ->
    search_of (ctx_href x) (ctx x) = [] \/ exists q, search_of (ctx_href x) (ctx x) = "?"%js ++ q;
  nat_query x q : valid x -> q <> [] -> Forall query_kept q ->
    exists y q', update (ctx_href x) kSearch ("?"%js ++ q) = Some y /\ quoted q q' /\
      search_of (ctx_href y) (ctx y) = "?"%js ++ q';
  nat_no_query x : valid x ->
    exists y, update (ctx_href x) kSearch [] = Some y /\ search_of (ctx_href y) (ctx y) = [];
  nat_other x a v y : valid x -> a <> kSearch -> a <> kHref -> update (ctx_href x) a v = Some y ->
    search_of (ctx_href y) (ctx y) = search_of (ctx_href x) (ctx x);
}.

Section Sync.
Context (update : jsstr -> action -> jsstr -> option context) (valid : context -> Prop).
Context (N : native_ok update valid).

(** An operation on a [URL] that returned normally. *)
Inductive url_step (u : url) : url -> Prop :=
  | step_component a v : a <> kSearch -> a <> kHref -> url_step u (set_component update a v u)
  | step_search v u' : set_search update v u = (u', Ok tt) -> url_step u u'
  | step_searchParams l u' : searchParams u = (u', Ok l) -> url_step u u'
  | step_append n v u' : units n -> units v -> params_append update n v u = (u', Ok tt) -> url_step u u'
  | step_delete n v u' : params_delete update n v u = (u', Ok tt) -> url_step u u'
  | step_set n v u' : units n -> units v -> params_set update n v u = (u', Ok tt) -> url_step u u'
  | step_sort u' : params_sort update u = (u', Ok tt) -> url_step u u'.

(** The parameters, if they were asked for, are those of the query. *)
Definition in_sync (u : url) : Prop :=
  valid (_context u) /\
  forall l, _searchParams u = Some l -> new_URLSearchParams (InitString (search u)) = Ok l.

Lemma valid_answered x a v :
  valid x -> forall y, answered (update (ctx_href x) a v) = Some y <-> update (ctx_href x) a v = Some y.
Proof.
  intros Hx y. unfold answered. destruct (update (ctx_href x) a v) as [z|] eqn:E; [|done].
  apply (nat_valid _ _ N) in E; [|done]. apply (nat_href _ _ N) in E as [_ E]. by ztest.
Qed.

Lemma search_units u : valid (_context u) -> units (search u).
Proof.
  intros [H _]%(nat_href _ _ N). unfold search, search_of, href, comps.
  repeat case_step; (apply Forall_nil_2 || by apply slice_units).
Qed.

Lemma sync_component a v u :
  a <> kSearch -> a <> kHref -> in_sync u -> in_sync (set_component update a v u).
Proof.
  intros H1 H2 [Hv Hs]. unfold set_component. destruct (answered _) as [x|] eqn:E; [|done].
  apply valid_answered in E; [|done]. split; [by eapply (nat_valid _ _ N)|]. cbn [_searchParams]. intros l Hl.
  rewrite <- (Hs l Hl). unfold search, href, comps. cbn [_context]. by rewrite (nat_other _ _ N _ _ _ _ Hv H1 H2 E).
Qed.

Lemma sync_search v u u' : in_sync u -> set_search update v u = (u', Ok tt) -> in_sync u'.
Proof.
  intros [Hv Hs]. unfold set_search. destruct (answered _) as [x|] eqn:E; [|by intros [= <-]].
  apply valid_answered in E; [|done]. assert (valid x) as Hx by by eapply (nat_valid _ _ N).
  cbn [_searchParams]. destruct (_searchParams u) as [l0|]; [|intros [= <-]; by split].
  intros H. case_match eqn:Hp. injection H as <- ->. split; [done|]. cbn [_searchParams]. intros k [= <-].
  change (search (Url_ x (Some l))) with (search (Url_ x (Some l0))).
  unfold search, href, comps in *. cbn [_context] in *.
  destruct (nat_mark _ _ N x Hx) as [Hq|[q Hq]]; rewrite Hq in Hp |- *; [by injection Hp as <-|].
  unfold new_URLSearchParams. pose proof (len_nonneg q).
  assert (0 <? len ("?"%js ++ q) = true) as -> by (apply Z.ltb_lt; len_lia).
  replace (code_is _ _) with true by done. cbn [andb]. rewrite (slice_suffix "?"%js q 1) in Hp |- * by done.
  destruct q as [|c q]; [by injection Hp as <-|]. rewrite (proj2 (Z.ltb_lt 1 _)) in Hp by len_lia. by rewrite Hp.
Qed.

Lemma sync_searchParams u u' l :
  in_sync u -> searchParams u = (u', Ok l) ->
  in_sync u' /\ _searchParams u' = Some l /\ search u' = search u.
Proof.
  intros Hu. pose proof Hu as [Hv Hs]. unfold searchParams.
  destruct (_searchParams u) as [k|] eqn:E; [by intros [= <- <-]|].
  destruct (new_URLSearchParams _) as [k|] eqn:Ek; [|done]. intros [= <- <-].
  split_and!; [split; [done|]|done..]. by intros ? [= <-].
Qed.

(** A method of the parameters: what it writes is read back as its list. *)
Lemma sync_change f u u' :
  (forall l, Forall unit_entry l -> Forall unit_entry (f l)) ->
  in_sync u -> change_params update f u = (u', Ok tt) -> in_sync u'.
Proof.
  intros Hf Hu. unfold change_params. destruct (searchParams u) as [u1 [l|]] eqn:E; [|done].
  apply sync_searchParams in E as ([Hv Hs] & Hl & _); [|done]. specialize (Hs l Hl).
  apply params_units in Hs; [|by apply search_units]. apply Hf in Hs.
  destruct (toString (f l)) as [s|] eqn:Es; [|done]. intros [= <-].
  pose proof (toString_wf _ _ Hs Es) as Hwf. apply toString_parse in Hwf as (s' & Es' & Hq).
  rewrite Es in Es'. injection Es' as <-. unfold _setSearchFromParams, set_component, href. cbn [_context].
  destruct (Hq s (quoted_refl s)) as [Hp [_ Hk]%Forall_and]. destruct (len s =? 0) eqn:E0; bool_hyps.
  - destruct s; [|len_lia]. destruct (nat_no_query _ _ N _ Hv) as (y & Hy & Hsy).
    rewrite (proj2 (valid_answered _ _ _ Hv y) Hy). split; [by eapply (nat_valid _ _ N)|].
    cbn [_searchParams]. intros k [= <-]. unfold search, href, comps. cbn [_context]. rewrite Hsy.
    by injection Hp as <-.
  - destruct (nat_query _ _ N _ s Hv) as (y & q & Hy & Hsq & Hsy); [by intros ->|done|].
    rewrite (proj2 (valid_answered _ _ _ Hv y) Hy). split; [by eapply (nat_valid _ _ N)|].
    cbn [_searchParams]. intros k [= <-]. unfold search, href, comps. cbn [_context]. rewrite Hsy.
    destruct (Hq q Hsq) as [Hpq [H63 _]%Forall_and]. by apply params_of_text.
Qed.

Lemma sync_step u u' : in_sync u -> url_step u u' -> in_sync u'.
Proof.
  intros Hu []; [by apply sync_component|by eapply sync_search|by eapply sync_searchParams|..];
    (eapply sync_change; [|exact Hu|eassumption]); intros l Hl.
  - apply Forall_app. split; [done|]. by apply Forall_singleton.
  - unfold delete. apply List.Forall_forall. intros p [Hp _]%List.filter_In. by apply (proj1 (List.Forall_forall _ l) Hl).
  - unfold set. destruct (set_filter _ _ _ _) as [k found] eqn:E.
    pose proof (set_filter_units n v false l ltac:(done) Hl) as Hk. rewrite E in Hk. cbn [fst] in Hk.
    case_step; [done|]. apply Forall_app. split; [done|]. by apply Forall_singleton.
  - by rewrite (proj1 (sort_ok l)).
Qed.
End Sync.

(** ** A small native parser

    URLs ["a:"] with a query and nothing else. *)
Definition toy (q : jsstr) : context :=
  Context_ ("a:"%js ++ q) (Components 2 2 2 2 (-1) 2 (if len q =? 0 then -1 else 2) (-1) 1).

Definition toy_query (v : jsstr) : jsstr :=
  match v with [] => [] | c :: _ => if c =? 63 then v else 63 :: v end.

Definition toy_update (h : jsstr) (a : action) (v : jsstr) : option context :=
  match a with
  | kSearch => Some (toy (toy_query v))
  | kHref => Some (toy (slice_from v 2))
  | _ => Some (toy (slice_from h 2))
  end.

Definition toy_valid (x : context) : Prop :=
  exists q, x = toy q /\ units q /\ (q = [] \/ exists t, q = 63 :: t /\ t <> []).

Lemma toy_search q : (q = [] \/ exists t, q = 63 :: t /\ t <> []) -> search_of (ctx_href (toy q)) (ctx (toy q)) = q.
Proof.
  intros [->|(t & -> & Ht)]; [done|]. unfold search_of, hasSearch, hasHash, toy. cbn [ctx_href ctx search_start hash_start].
  pose proof (len_nonneg t). rewrite (proj2 (Z.eqb_neq (len (63 :: t)) 0)) by len_lia. cbn [Z.eqb Pos.eqb negb kOmittedSigned].
  assert (len t <> 0) by (destruct t; [done|len_lia]).
  assert (len ("a:"%js ++ 63 :: t) = len t + 3) as Hlen by len_lia. rewrite Hlen.
  rewrite (proj2 (Z.leb_gt (len t + 3 - 2) 1)) by lia. rewrite <- Hlen. by apply (slice_suffix "a:"%js).
Qed.

(** It accepts queries of code units that do not start with a lone mark. *)
Definition toy_accepts (h : jsstr) (a : action) (v : jsstr) : option context :=
  if forallb (fun c => (0 <=? c) && (c <? 0x10000)) v && negb (bool_decide (v = [63])) &&
     match a with kHref => false | _ => true end
  then toy_update h a v else None.

Lemma toy_ok : native_ok toy_accepts toy_valid.
Proof.
  assert (forall v, forallb (fun c => (0 <=? c) && (c <? 0x10000)) v = true -> units v) as Hun.
  { intros v Hv. apply List.Forall_forall. intros c Hc. rewrite forallb_forall in Hv. apply Hv in Hc. bool_hyps. lia. }
  constructor; unfold toy_accepts.
  - intros x a v y (q & -> & Hq & Hm) H. destruct (_ && _ && _) eqn:E; [|done]. apply andb_true_iff in E as [E Ea].
    apply andb_true_iff in E as [E Hne]. apply Hun in E.
    assert (y = toy (toy_query v) \/ y = toy q) as [->| ->]; [|exists (toy_query v)|by exists q].
    { destruct a; try done; cbn in H; injection H as <-; [right; f_equal; by apply (slice_suffix "a:"%js)..|by left|].
      right; f_equal; by apply (slice_suffix "a:"%js). }
    split; [done|]. unfold toy_query. destruct v as [|c v]; [split; [done|by left]|].
    destruct (c =? 63) eqn:Ec; bool_hyps.
    + subst. split; [done|]. right. exists v. split; [done|]. intros ->. done.
    + split; [by constructor|]. right. by exists (c :: v).
  - intros x (q & -> & Hq & _). split; [|unfold toy; cbn [ctx_href]; pose proof (len_nonneg q); len_lia].
    cbn [ctx_href toy]. apply Forall_app. split; [by repeat constructor|done].
  - intros x (q & -> & Hq & Hm). rewrite toy_search by done. destruct Hm as [->|(t & -> & _)]; [by left|right; by exists t].
  - intros x q (q0 & -> & Hq & Hm) Hne Hk. exists (toy (63 :: q)), q. split_and!; [|apply quoted_refl|].
    + rewrite bool_decide_eq_false_2 by (intros [=]; done). rewrite (proj2 (forallb_forall _ _)); [done|].
      cbn [app]. intros c [<-|Hc]; [done|]. apply List.Forall_forall with (x := c) in Hk; [|done].
      unfold query_kept in Hk. by repeat ztest.
    + apply toy_search. right. by exists q.
  - intros x Hx. by exists (toy []).
  - intros x a v y (q & -> & Hq & Hm) H1 H2 H. destruct (_ && _ && _); [|done].
    destruct a; try done; cbn [toy_update toy ctx_href] in H;
      rewrite (slice_suffix "a:"%js) in H by done; by injection H as <-.
Qed.

(** C33. The two views of a query agree: after any operations that returned
    normally on a URL - setting a component, setting [search], asking for
    [searchParams], and [append], [delete], [set] and [sort] on them - the
    parameters are exactly what [url.search] reads as.  Assigning to [href] is
    not among the operations. *)
Theorem url_search_params_agree update valid u u' l :
  native_ok update valid -> valid (_context u) -> _searchParams u = None ->
  rtc (url_step update) u u' -> _searchParams u' = Some l ->
  new_URLSearchParams (InitString (search u')) = Ok l.
Proof.
  intros N Hv Hnone Hsteps. assert (in_sync valid u) as Hu by (split; [done|]; by rewrite Hnone).
  clear Hv Hnone. induction Hsteps as [u|u u1 u' Hstep _ IH]; [by apply Hu|].
  apply IH. by eapply sync_step.
Qed.

Lemma url_search_params_agree_witness :
  exists u', rtc (url_step toy_accepts) (Url_ (toy []) None) u' /\
    href u' = "a:?k=it%27s"%js /\
    new_URLSearchParams (InitString (search u')) = Ok [("k"%js, "it's"%js)].
Proof.
  set (u1 := Url_ (toy "?k=it%27s"%js) None).
  set (u2 := Url_ (toy "?k=it%27s"%js) (Some [("k"%js, "it's"%js)])).
  assert (rtc (url_step toy_accepts) (Url_ (toy []) None) u2) as Hrun.
  { apply (rtc_l _ _ u1); [apply (step_search _ _ "k=it%27s"%js); vm_compute; reflexivity|].
    apply (rtc_l _ _ u2); [apply (step_searchParams _ _ [("k"%js, "it's"%js)]); vm_compute; reflexivity|].
    apply rtc_refl. }
  exists u2. split; [exact Hrun|]. split; [vm_compute; reflexivity|].
  apply (url_search_params_agree toy_accepts toy_valid (Url_ (toy []) None) u2); [exact toy_ok| |reflexivity|exact Hrun|reflexivity].
  exists []. split; [reflexivity|]. split; [apply Forall_nil_2|left; reflexivity].
Defined.

(** Assigning to [href] keeps the old parameters, and the next change of them
    writes them over the query of the new URL. *)
Lemma url_href_keeps_old_params :
  let '(u1, _) := searchParams (Url_ (toy "?old=1"%js) None) in
  let '(u2, r) := set_href toy_update "a:?new=2" u1 in
  let '(u3, _) := params_append toy_update "x" "3" u2 in
  r = Ok tt /\ href u2 = "a:?new=2"%js /\ _searchParams u2 = Some [("old"%js, "1"%js)] /\
  href u3 = "a:?old=1&x=3"%js.
Proof. by vm_compute. Qed.

(** A method that throws while writing the query has already changed the list:
    here a lone surrogate. *)
Lemma url_append_lone_surrogate :
  params_append toy_update "x" [0xD800] (Url_ (toy []) (Some [])) =
  (Url_ (toy []) (Some [("x"%js, [0xD800])]), Throw Qs.URIError).
Proof. by vm_compute. Qed.

(** ** File URLs *)

(** The characters [%2f] or [%2F] at position [i]. *)
Definition encoded_slash_at (s : jsstr) (i : Z) : Prop :=
  charCodeAt s i = Some 37 /\ charCodeAt s (i + 1) = Some 50 /\
  (charCodeAt s (i + 2) = Some 102 \/ charCodeAt s (i + 2) = Some 70).

Lemma lor_f c : Z.lor c 0x20 = 0x66 <-> c = 102 \/ c = 70.
Proof.
  split; [|by intros [-> | ->]]. intros H.
  assert (0 <= c) as Hc by (apply (Z.lor_nonneg c 32); lia).
  assert (c < 2 ^ 7).
  { destruct (Z.eq_dec c 0) as [->|Hne]; [done|]. apply Z.log2_lt_pow2; [lia|].
    apply (f_equal Z.log2) in H. rewrite Z.log2_lor in H by lia. change (Z.log2 102) with 6 in H. lia. }
  assert (forallb (fun n => implb (Z.lor (Z.of_nat n) 32 =? 102)
    ((Z.of_nat n =? 102) || (Z.of_nat n =? 70))) (seq 0 128) = true) as Hall by by vm_compute.
  rewrite forallb_forall in Hall. specialize (Hall (Z.to_nat c)). rewrite Z2Nat.id, H in Hall by lia.
  assert (In (Z.to_nat c) (seq 0 128)) as Hin by (apply in_seq; lia). apply Hall in Hin. cbn [implb Z.eqb Pos.eqb] in Hin.
  apply orb_true_iff in Hin as [Hin|Hin]; bool_hyps; auto.
Qed.

Lemma encoded_slash_spec s n i :
  encoded_slash s n i = true <-> exists k, i <= k < i + Z.of_nat n /\ encoded_slash_at s k.
Proof.
  revert i. induction n as [|n IH]; intros i; cbn [encoded_slash]; [split; [done|]; intros (k & ? & _); lia|].
  destruct (_ && _) eqn:E.
  - split; [intros _|done]. exists i. split; [lia|]. unfold encoded_slash_at.
    apply andb_true_iff in E as [E1 E]. apply andb_true_iff in E as [E2 E3]. unfold code_is in *.
    destruct (charCodeAt s i), (charCodeAt s (i + 1)); [|done..]. apply Z.eqb_eq in E1 as ->, E2 as ->, E3.
    split_and!; [done..|]. destruct (charCodeAt s (i + 2)) as [c|]; [|done]. change (Z.lor c 0x20 = 0x66) in E3.
    apply lor_f in E3 as [-> | ->]; auto.
  - rewrite IH. split; intros (k & Hk & Hs); exists k; (split; [|done]); [lia|].
    destruct (Z.eq_dec k i) as [->|]; [|lia]. destruct Hs as (E1 & E2 & E3). rewrite E1, E2 in E.
    cbn in E. apply Z.eqb_neq in E. exfalso. apply E, lor_f. destruct E3 as [-> | ->]; auto.
Qed.

(** What [fileURLToPath] accepts and answers: a URL whose host is empty or
    [localhost] and whose path has no encoded slash, for which it answers the
    decoded path.  The scheme of the URL is not looked at. *)
Theorem url_file_path_spec parse u p :
  fileURLToPath parse (FUrl u) = Ok p <->
  (hostname u = [] \/ hostname u = "localhost"%js) /\
  (forall i, ~ encoded_slash_at (pathname u) i) /\
  Qs.decodeURIComponent (pathname u) = Ok p.
Proof.
  cbn [fileURLToPath]. unfold file_path.
  assert (encoded_slash (pathname u) (Z.to_nat (len (pathname u) - 2)) 0 = false <->
    forall i, ~ encoded_slash_at (pathname u) i) as Hslash.
  { rewrite <- not_true_iff_false, encoded_slash_spec. split; [|intros H (k & _ & Hk); by apply (H k)].
    intros H i Hi. apply H. exists i. split; [|done]. destruct Hi as (H1 & _ & H3).
    destruct (Z.lt_ge_cases i 0); [by rewrite charCodeAt_neg in H1|].
    destruct (Z.lt_ge_cases (i + 2) (len (pathname u))); [lia|].
    rewrite charCodeAt_ge in H3 by lia. by destruct H3. }
  rewrite <- Hslash. clear Hslash.
  assert (negb (len (hostname u) =? 0) && negb (bool_decide (hostname u = "localhost"%js)) = false <->
    (hostname u = [] \/ hostname u = "localhost"%js)) as Hhost.
  { destruct (hostname u) as [|c h]; [cbn; tauto|]. rewrite (proj2 (Z.eqb_neq (len (c :: h)) 0)) by (pose proof (len_nonneg h); len_lia).
    cbn [negb andb]. rewrite negb_false_iff, bool_decide_eq_true. split; [auto|]. by intros [?|?]. }
  rewrite <- Hhost. clear Hhost.
  destruct (_ && _); [split; [done|by intros [? _]]|]. destruct (encoded_slash _ _ _); [|tauto].
  split; [done|by intros (_ & ? & _)].
Qed.

(** An [http] URL is taken for a file. *)
Lemma url_file_path_any_scheme parse :
  let u := Url_ (Context_ "http://localhost/etc/passwd" (Components 5 7 7 16 (-1) 16 (-1) (-1) 0)) None in
  protocol u = "http:"%js /\ fileURLToPath parse (FUrl u) = Ok "/etc/passwd"%js.
Proof. by vm_compute. Qed.
