(* ===== verification/Events.v ===== *)
(** * [EventEmitter]

    Models [libjs-node/events.js]: the constructor, [emit] with the unhandled
    ['error'] rule and the error monitor, [on], [once], their [prepend]
    variants, [removeListener], [removeAllListeners], the accessors, the
    listener limit and the capture of rejections.

    The table of listeners is shared and mutable: [emit] keeps the table it
    read across the calls of the error monitor's listeners, and
    [removeAllListeners] walks an array while listeners change it.  Tables and
    listener arrays therefore live in a heap, and [_events] is a location.
    Listeners, and the listeners of process warnings, are arbitrary code: trees
    of calls to the emitter's methods, run with fuel for the nesting.

    A function has no [listener] property of its own unless [once] made it, and
    tables have no inherited properties. *)

From Stdlib Require Import QArith.
From S2P Require Import Prelude JsString JsNumber.
#[local] Open Scope Z_scope.

Module Events.

(** ** Values *)

(** A property key: a string or a symbol. *)
Inductive key :=
  | KStr (s : jsstr)
  | KSym (id : positive).

#[export] Instance key_eq_dec : EqDecision key.
Proof. solve_decision. Defined.

Definition kErrorMonitor : key := KSym 1.
Definition key_error : key := KStr "error".
Definition key_newListener : key := KStr "newListener".
Definition key_removeListener : key := KStr "removeListener".

(** A function: the user's, or the one [_onceWrap] bound to the [w]-th state
    object; the object's [type] and [listener] never change. *)
Inductive fn :=
  | User (f : positive)
  | Wrap (w : nat) (type : key) (listener : fn).

#[export] Instance fn_eq_dec : EqDecision fn.
Proof. solve_decision. Defined.

(** [f.listener] *)
Definition listener_of (f : fn) : option fn :=
  match f with User _ => None | Wrap _ _ l => Some l end.

(** An argument or a thrown value. *)
Inductive arg :=
  | AVal (v : jsval)
  | AError (id : positive)
  | ANodeError (code : jsstr) (context : option arg)
  | AFn (f : fn)
  | AKey (k : key).

Definition is_error (a : arg) : bool :=
  match a with AError _ | ANodeError _ _ => true | _ => false end.

Definition ERR_INVALID_ARG_TYPE : arg := ANodeError "ERR_INVALID_ARG_TYPE" None.
Definition ERR_OUT_OF_RANGE : arg := ANodeError "ERR_OUT_OF_RANGE" None.
Definition ERR_UNHANDLED_ERROR (context : arg) : arg :=
  ANodeError "ERR_UNHANDLED_ERROR" (Some context).

Inductive res (A : Type) :=
  | Ret (a : A)
  | Raise (x : arg).
Arguments Ret {A} _.
Arguments Raise {A} _.

(** What a listener returns: nothing ([undefined] or [null]), a value without a
    callable [then], a thenable, or one whose [then] throws when used. *)
Inductive retval :=
  | RNone
  | RValue
  | RThen (promise : positive)
  | RThenThrows (x : arg).

(** ** State *)

(** A property of the table: [undefined], one function, or an array. *)
Inductive slot :=
  | SUndef
  | SFn (f : fn)
  | SArr (loc : positive).

#[export] Instance slot_eq_dec : EqDecision slot.
Proof. solve_decision. Defined.

Abbreviation table := (list (key * slot)).
Record larr := LArr { items : list fn; warned : bool }.
Record call := Call { c_depth : nat; c_fn : fn; c_args : list arg }.

Record state := State {
  tables : gmap positive table;
  arrays : gmap positive larr;
  nextLoc : positive;
  _events : option positive;
  _eventsCount : Z;
  kShapeMode : bool;
  kCapture : bool;
  _maxListeners : option num;
  defaultMaxListeners : num;
  fired : gset nat;                   (* state objects whose [fired] is true *)
  onceStates : list (key * fn);       (* [type] and [listener] of the state objects *)
  pending : list (positive * key * list arg);  (* rejections [addCatch] waits for *)
  warnings : list (key * Z);          (* warnings given to the process *)
  onces : list nat;                   (* state objects whose listener was applied *)
  trace : list call;                  (* functions applied *)
}.

Definition set_tables (h : gmap positive table) (n : positive) (s : state) : state :=
  State h (arrays s) n (_events s) (_eventsCount s) (kShapeMode s) (kCapture s) (_maxListeners s)
    (defaultMaxListeners s) (fired s) (onceStates s) (pending s) (warnings s) (onces s) (trace s).
Definition set_arrays (h : gmap positive larr) (n : positive) (s : state) : state :=
  State (tables s) h n (_events s) (_eventsCount s) (kShapeMode s) (kCapture s) (_maxListeners s)
    (defaultMaxListeners s) (fired s) (onceStates s) (pending s) (warnings s) (onces s) (trace s).
Definition set_events (e : option positive) (s : state) : state :=
  State (tables s) (arrays s) (nextLoc s) e (_eventsCount s) (kShapeMode s) (kCapture s)
    (_maxListeners s) (defaultMaxListeners s) (fired s) (onceStates s) (pending s) (warnings s)
    (onces s) (trace s).
Definition set_count (n : Z) (s : state) : state :=
  State (tables s) (arrays s) (nextLoc s) (_events s) n (kShapeMode s) (kCapture s)
    (_maxListeners s) (defaultMaxListeners s) (fired s) (onceStates s) (pending s) (warnings s)
    (onces s) (trace s).
Definition set_shape (b : bool) (s : state) : state :=
  State (tables s) (arrays s) (nextLoc s) (_events s) (_eventsCount s) b (kCapture s)
    (_maxListeners s) (defaultMaxListeners s) (fired s) (onceStates s) (pending s) (warnings s)
    (onces s) (trace s).
Definition set_capture (b : bool) (s : state) : state :=
  State (tables s) (arrays s) (nextLoc s) (_events s) (_eventsCount s) (kShapeMode s) b
    (_maxListeners s) (defaultMaxListeners s) (fired s) (onceStates s) (pending s) (warnings s)
    (onces s) (trace s).
Definition set_max (m : option num) (s : state) : state :=
  State (tables s) (arrays s) (nextLoc s) (_events s) (_eventsCount s) (kShapeMode s) (kCapture s)
    m (defaultMaxListeners s) (fired s) (onceStates s) (pending s) (warnings s) (onces s) (trace s).
Definition set_fired (w : nat) (s : state) : state :=
  State (tables s) (arrays s) (nextLoc s) (_events s) (_eventsCount s) (kShapeMode s) (kCapture s)
    (_maxListeners s) (defaultMaxListeners s) ({[w]} ∪ fired s) (onceStates s) (pending s)
    (warnings s) (onces s ++ [w]) (trace s).
Definition add_onceState (p : key * fn) (s : state) : state :=
  State (tables s) (arrays s) (nextLoc s) (_events s) (_eventsCount s) (kShapeMode s) (kCapture s)
    (_maxListeners s) (defaultMaxListeners s) (fired s) (onceStates s ++ [p]) (pending s)
    (warnings s) (onces s) (trace s).
Definition add_pending (p : positive * key * list arg) (s : state) : state :=
  State (tables s) (arrays s) (nextLoc s) (_events s) (_eventsCount s) (kShapeMode s) (kCapture s)
    (_maxListeners s) (defaultMaxListeners s) (fired s) (onceStates s) (pending s ++ [p])
    (warnings s) (onces s) (trace s).
Definition add_warning (w : key * Z) (s : state) : state :=
  State (tables s) (arrays s) (nextLoc s) (_events s) (_eventsCount s) (kShapeMode s) (kCapture s)
    (_maxListeners s) (defaultMaxListeners s) (fired s) (onceStates s) (pending s)
    (warnings s ++ [w]) (onces s) (trace s).
Definition log (c : call) (s : state) : state :=
  State (tables s) (arrays s) (nextLoc s) (_events s) (_eventsCount s) (kShapeMode s) (kCapture s)
    (_maxListeners s) (defaultMaxListeners s) (fired s) (onceStates s) (pending s) (warnings s)
    (onces s) (trace s ++ [c]).

(** ** Tables: [events[k]], [events[k] = v], [delete events[k]] *)

Fixpoint tget (t : table) (k : key) : slot :=
  match t with
  | [] => SUndef
  | (k', v) :: t => if decide (k' = k) then v else tget t k
  end.

Fixpoint tset (t : table) (k : key) (v : slot) : table :=
  match t with
  | [] => [(k, v)]
  | (k', v') :: t => if decide (k' = k) then (k', v) :: t else (k', v') :: tset t k v
  end.

Fixpoint tdel (t : table) (k : key) : table :=
  match t with
  | [] => []
  | (k', v') :: t => if decide (k' = k) then t else (k', v') :: tdel t k
  end.

(** [Reflect.ownKeys]: array indices in increasing order, then the other
    strings and then the symbols, each in order of insertion. *)
Definition digit (c : Z) : bool := (48 <=? c) && (c <=? 57).

Definition array_index (k : key) : option Z :=
  match k with
  | KSym _ => None
  | KStr s =>
      if negb (forallb digit s) || bool_decide (s = []) then None
      else
        let n := fold_left (fun n c => n * 10 + (c - 48)) s 0 in
        if (n <? 4294967295) && bool_decide (js_of_Z n = s) then Some n else None
  end.

Fixpoint insert_index (p : Z * key) (l : list (Z * key)) : list (Z * key) :=
  match l with
  | [] => [p]
  | q :: l => if p.1 <=? q.1 then p :: q :: l else q :: insert_index p l
  end.

Definition ReflectOwnKeys (t : table) : list key :=
  let ks := t.*1 in
  let is_index k := match array_index k with Some _ => true | None => false end in
  let is_str k := match k with KStr _ => negb (is_index k) | KSym _ => false end in
  let is_sym k := match k with KSym _ => true | KStr _ => false end in
  (foldr insert_index []
     (omap (fun k => match array_index k with Some n => Some (n, k) | None => None end) ks)).*2
  ++ List.filter is_str ks ++ List.filter is_sym ks.

Definition tbl (s : state) (l : positive) : table := default [] (tables s !! l).
Definition arr (s : state) (a : positive) : larr := default (LArr [] false) (arrays s !! a).

(** [events[type]] for the current table. *)
Definition cur (s : state) : table :=
  match _events s with Some l => tbl s l | None => [] end.

Definition put_slot (l : positive) (k : key) (v : slot) (s : state) : state :=
  set_tables (<[l := tset (tbl s l) k v]> (tables s)) (nextLoc s) s.
Definition del_slot (l : positive) (k : key) (s : state) : state :=
  set_tables (<[l := tdel (tbl s l) k]> (tables s)) (nextLoc s) s.
Definition put_arr (a : positive) (x : larr) (s : state) : state :=
  set_arrays (<[a := x]> (arrays s)) (nextLoc s) s.
(** [this._events = { __proto__: null }] *)
Definition fresh_events (s : state) : state :=
  set_events (Some (nextLoc s))
    (set_tables (<[nextLoc s := []]> (tables s)) (Pos.succ (nextLoc s)) s).
Definition new_arr (l : list fn) (s : state) : positive * state :=
  (nextLoc s, set_arrays (<[nextLoc s := LArr l false]> (arrays s)) (Pos.succ (nextLoc s)) s).

(** ** The constructor *)

Definition truthy (v : jsval) : bool :=
  match v with
  | VUndefined | VNull => false
  | VBool b => b
  | VNumber z => negb (z =? 0)
  | VString s => negb (bool_decide (s = []))
  | VArray _ | VObject _ => true
  end.

Definition num_truthy (n : num) : bool :=
  match n with NaN => false | Fin q => negb (Qeq_bool q 0) | _ => true end.

(** [EventEmitter.init] for an object that has, or not, a table of its own with
    functions or [undefined] in it, and perhaps a [_maxListeners]; [opts] is
    [opts?.captureRejections] and [proto] the default of [kCapture]. *)
Definition init (own : option (list (key * option fn))) (max : option num) (opts : jsval)
    (proto : bool) (dflt : num) : res state :=
  let max := match max with Some n => if num_truthy n then Some n else None | None => None end in
  let start t shape capture :=
    State {[1%positive := t]} ∅ 2 (Some 1%positive) 0 shape capture max dflt ∅ [] [] [] [] [] in
  let table := match own with
    | None => []
    | Some t => (fun p => (p.1, match p.2 with Some f => SFn f | None => SUndef end)) <$> t
    end in
  let shape := match own with None => false | Some _ => true end in
  if truthy opts then
    match opts with
    | VBool b => Ret (start table shape b)
    | _ => Raise ERR_INVALID_ARG_TYPE
    end
  else Ret (start table shape proto).

(** ** Programs *)

Inductive body :=
  | Return (r : retval)
  | Fail (x : arg)
  | On (prepend : bool) (type : key) (f : option fn) (k : res unit -> body)
  | Once (prepend : bool) (type : key) (f : option fn) (k : res unit -> body)
  | Off (type : key) (f : option fn) (k : res unit -> body)
  | Emit (type : key) (args : list arg) (k : res bool -> body)
  | RemoveAll (type : option key) (k : res unit -> body)
  | SetMax (n : num) (k : res unit -> body)
  | RawListeners (type : key) (k : list fn -> body).

(** ** A monad of state, exceptions and fuel *)

Definition M (A : Type) : Type := state -> option (state * res A).

Definition ret {A} (a : A) : M A := fun s => Some (s, Ret a).
Definition raise {A} (x : arg) : M A := fun s => Some (s, Raise x).
Definition bind {A B} (m : M A) (k : A -> M B) : M B := fun s =>
  match m s with
  | None => None
  | Some (s, Raise x) => Some (s, Raise x)
  | Some (s, Ret a) => k a s
  end.
(** The caller sees how the call ended. *)
Definition attempt {A B} (m : M A) (k : res A -> M B) : M B := fun s =>
  match m s with
  | None => None
  | Some (s, r) => k r s
  end.
Definition gets {A} (f : state -> A) : M A := fun s => Some (s, Ret (f s)).
Definition modify (f : state -> state) : M unit := fun s => Some (f s, Ret tt).

Declare Scope ee_scope.
Delimit Scope ee_scope with ee.
Notation "x <- m ;; k" := (bind m (fun x => k))
  (at level 100, m at next level, k at level 200) : ee_scope.
Notation "m ;; k" := (bind m (fun _ => k)) (at level 100, k at level 200) : ee_scope.
#[local] Open Scope ee_scope.

(** ** Methods that call no listener *)

(** [validateNumber(n, name, 0)] *)
Definition validate_min0 (n : num) : bool :=
  match n with NaN => false | n => negb (num_lt n 0) end.

Definition setMaxListeners (n : num) : M unit :=
  if validate_min0 n then modify (set_max (Some n)) else raise ERR_OUT_OF_RANGE.

Definition _getMaxListeners (s : state) : num :=
  match _maxListeners s with None => defaultMaxListeners s | Some n => n end.

(** [list[i] === listener || list[i].listener === listener] *)
Definition matches (listener x : fn) : bool :=
  bool_decide (x = listener) || bool_decide (listener_of x = Some listener).

(** The array or the function of a slot, as a list. *)
Definition slot_list (s : state) (v : slot) : list fn :=
  match v with
  | SUndef => []
  | SFn f => [f]
  | SArr a => items (arr s a)
  end.

(** [evlistener.listener || evlistener], and [unwrapListeners] elementwise. *)
Definition unwrap_one (f : fn) : fn := default f (listener_of f).

Definition _listeners (type : key) (unwrap : bool) (s : state) : list fn :=
  let l := slot_list s (tget (cur s) type) in
  if unwrap then unwrap_one <$> l else l.
Definition listeners (type : key) : state -> list fn := _listeners type true.
Definition rawListeners (type : key) : state -> list fn := _listeners type false.

Definition listenerCount (type : key) (listener : option fn) (s : state) : Z :=
  match tget (cur s) type with
  | SFn f =>
      match listener with
      | Some l => if bool_decide (l = f) || bool_decide (Some l = listener_of f) then 1 else 0
      | None => 1
      end
  | SArr a =>
      match listener with
      | Some l => Z.of_nat (length (List.filter (matches l) (items (arr s a))))
      | None => Z.of_nat (length (items (arr s a)))
      end
  | SUndef => 0
  end.

Definition eventNames (s : state) : list key :=
  if 0 <? _eventsCount s then ReflectOwnKeys (cur s) else [].

(** The search of [removeListener], from the end of the array. *)
Fixpoint find_last (listener : fn) (l : list fn) (i : nat) : option nat :=
  match i with
  | O => None
  | S i => match l !! i with
           | Some x => if matches listener x then Some i else find_last listener l i
           | None => find_last listener l i
           end
  end.

(** [spliceOne(list, index)] of [internal/util.js] *)
Fixpoint splice_shift (steps : nat) (l : list fn) (index : nat) : list fn :=
  match steps with
  | O => l
  | S steps => match l !! S index with
               | Some x => splice_shift steps (<[index := x]> l) (S index)
               | None => l
               end
  end.
Definition spliceOne (l : list fn) (index : nat) : list fn :=
  let l := splice_shift (length l - S index) l index in take (length l - 1) l.

(** [list.shift()] or [spliceOne] *)
Definition remove_at (l : list fn) (position : nat) : list fn :=
  match position with O => tail l | _ => spliceOne l position end.

(** ** [emit] and the methods that call it *)

(** What runs code of the user: an event, or a warning of the process. *)
Inductive req :=
  | REmit (type : key) (args : list arg)
  | RWarn (type : key) (count : Z).

Section Code.
(** The code of the user's functions, and what the listeners of process
    warnings do when told that [count] listeners of [type] exceed the limit. *)
Variable code : positive -> list arg -> body.
Variable on_warning : key -> Z -> body.

Section WithRec.
(** The calls at the nesting that remains, made [depth] deep. *)
Variable rec : nat -> req -> M bool.

Definition emit_at (d : nat) (type : key) (args : list arg) : M bool := rec d (REmit type args).

(** The end of [_addListener]: the listener leak check, for the array [a]. *)
Definition check_leak (d : nat) (type : key) (a : positive) : M unit :=
  s <- gets id;;
  let m := _getMaxListeners s in
  let length := Z.of_nat (length (items (arr s a))) in
  if num_gt m 0 && num_lt m length && negb (warned (arr s a)) then
    modify (put_arr a (LArr (items (arr s a)) true));;
    modify (add_warning (type, length));;
    (_ <- rec d (RWarn type length);; ret tt)
  else ret tt.

(** [events[type] = listener] and so on, once [events] is known. *)
Definition add_to (d : nat) (l : positive) (type : key) (listener : fn) (prepend : bool) : M unit :=
  s <- gets id;;
  match tget (tbl s l) type with
  | SUndef =>
      modify (put_slot l type (SFn listener));;
      modify (fun s => set_count (_eventsCount s + 1) s)
  | SFn existing =>
      let '(a, s') := new_arr (if prepend then [listener; existing] else [existing; listener]) s in
      modify (fun _ => put_slot l type (SArr a) s');;
      check_leak d type a
  | SArr a =>
      let x := arr s a in
      modify (put_arr a (LArr (if prepend then listener :: items x else items x ++ [listener])
                           (warned x)));;
      check_leak d type a
  end.

Definition _addListener (d : nat) (type : key) (listener : option fn) (prepend : bool) : M unit :=
  match listener with
  | None => raise ERR_INVALID_ARG_TYPE
  | Some f =>
      s <- gets id;;
      match _events s with
      | None =>
          modify (fun s => set_count 0 (fresh_events s));;
          s <- gets id;;
          match _events s with Some l => add_to d l type f prepend | None => ret tt end
      | Some l =>
          (if bool_decide (tget (tbl s l) key_newListener = SUndef) then ret true
           else emit_at d key_newListener [AKey type; AFn (unwrap_one f)]);;
          s <- gets id;;
          match _events s with
          | Some l => add_to d l type f prepend
          | None => raise (ANodeError "TypeError" None)
          end
      end
  end.

(** [once] and [prependOnceListener], with [_onceWrap] *)
Definition once (d : nat) (type : key) (listener : option fn) (prepend : bool) : M unit :=
  match listener with
  | None => raise ERR_INVALID_ARG_TYPE
  | Some f =>
      s <- gets id;;
      modify (add_onceState (type, f));;
      _addListener d type (Some (Wrap (length (onceStates s)) type f)) prepend
  end.

Definition removeListener (d : nat) (type : key) (listener : option fn) : M unit :=
  match listener with
  | None => raise ERR_INVALID_ARG_TYPE
  | Some listener =>
      s <- gets id;;
      match _events s with
      | None => ret tt
      | Some l =>
          match tget (tbl s l) type with
          | SUndef => ret tt
          | SFn f =>
              if matches listener f then
                modify (set_count (_eventsCount s - 1));;
                if kShapeMode s then modify (put_slot l type SUndef)
                else if _eventsCount s - 1 =? 0 then modify fresh_events
                else
                  modify (del_slot l type);;
                  s <- gets id;;
                  if bool_decide (tget (tbl s l) key_removeListener = SUndef) then ret tt
                  else
                    emit_at d key_removeListener
                      [AKey type; AFn (default listener (listener_of f))];;
                    ret tt
              else ret tt
          | SArr a =>
              let list := items (arr s a) in
              match find_last listener list (length list) with
              | None => ret tt
              | Some position =>
                  let list := remove_at list position in
                  modify (put_arr a (LArr list (warned (arr s a))));;
                  match list with
                  | [f] => modify (put_slot l type (SFn f))
                  | _ => ret tt
                  end;;
                  s <- gets id;;
                  if bool_decide (tget (tbl s l) key_removeListener = SUndef) then ret tt
                  else
                    emit_at d key_removeListener [AKey type; AFn listener];;
                    ret tt
              end
          end
      end
  end.

(** The LIFO loop of [removeAllListeners(type)] over the array [a], from the
    index [i - 1]: [listeners[i]] is read at each turn. *)
Fixpoint remove_down (d : nat) (type : key) (a : positive) (i : nat) : M unit :=
  match i with
  | O => ret tt
  | S i =>
      s <- gets id;;
      removeListener d type (items (arr s a) !! i);;
      remove_down d type a i
  end.

(** [removeAllListeners(type)] *)
Definition removeAll_type (d : nat) (type : key) : M unit :=
  s <- gets id;;
  match _events s with
  | None => ret tt
  | Some l =>
      if bool_decide (tget (tbl s l) key_removeListener = SUndef) then
        (if bool_decide (tget (tbl s l) type = SUndef) then ret tt
         else
           modify (set_count (_eventsCount s - 1));;
           if _eventsCount s - 1 =? 0 then modify fresh_events else modify (del_slot l type));;
        modify (set_shape false)
      else
        match tget (tbl s l) type with
        | SFn f => removeListener d type (Some f)
        | SArr a => remove_down d type a (length (items (arr s a)))
        | SUndef => ret tt
        end
  end.

Fixpoint each_key (d : nat) (ks : list key) : M unit :=
  match ks with
  | [] => ret tt
  | k :: ks =>
      (if bool_decide (k = key_removeListener) then ret tt else removeAll_type d k);;
      each_key d ks
  end.

(** [removeAllListeners()] *)
Definition removeAll_all (d : nat) : M unit :=
  s <- gets id;;
  match _events s with
  | None => ret tt
  | Some l =>
      (if bool_decide (tget (tbl s l) key_removeListener = SUndef) then ret tt
       else
         each_key d (ReflectOwnKeys (tbl s l));;
         removeAll_type d key_removeListener);;
      modify fresh_events;; modify (set_count 0);; modify (set_shape false)
  end.

Definition removeAllListeners (d : nat) (type : option key) : M unit :=
  match type with
  | Some k => removeAll_type d k
  | None => removeAll_all d
  end.

Fixpoint exec (d : nat) (b : body) : M retval :=
  match b with
  | Return r => ret r
  | Fail x => raise x
  | On prepend type f k => attempt (_addListener d type f prepend) (fun r => exec d (k r))
  | Once prepend type f k => attempt (once d type f prepend) (fun r => exec d (k r))
  | Off type f k => attempt (removeListener d type f) (fun r => exec d (k r))
  | Emit type args k => attempt (emit_at d type args) (fun r => exec d (k r))
  | RemoveAll type k => attempt (removeAllListeners d type) (fun r => exec d (k r))
  | SetMax n k => attempt (setMaxListeners n) (fun r => exec d (k r))
  | RawListeners type k => l <- gets (rawListeners type);; exec d (k l)
  end.

(** Applying a function: the user's code, or [onceWrapper]. *)
Fixpoint apply (d : nat) (f : fn) (args : list arg) : M retval :=
  modify (log (Call d f args));;
  match f with
  | User c => exec (S d) (code c args)
  | Wrap w type listener =>
      s <- gets id;;
      if bool_decide (w ∈ fired s) then ret RNone
      else
        removeListener (S d) type (Some f);;
        modify (set_fired w);;
        apply (S d) listener args
  end.

(** [addCatch(this, result, type, args)], called when there is a result *)
Definition addCatch (d : nat) (r : retval) (type : key) (args : list arg) : M unit :=
  s <- gets id;;
  if negb (kCapture s) then ret tt
  else
    match r with
    | RThen p => modify (add_pending (p, type, args))
    | RThenThrows x => emit_at (S d) key_error [x];; ret tt
    | _ => ret tt
    end.

(** The loop of [emit] over the copy of the array. *)
Fixpoint apply_all (d : nat) (type : key) (fs : list fn) (args : list arg) : M unit :=
  match fs with
  | [] => ret tt
  | f :: fs =>
      r <- apply d f args;;
      addCatch d r type args;;
      apply_all d type fs args
  end.

Definition throw_unhandled (args : list arg) : M bool :=
  let er := match args with a :: _ => a | [] => AVal VUndefined end in
  if is_error er then raise er else raise (ERR_UNHANDLED_ERROR er).

(** [emit(type, ...args)] *)
Definition emit_with (d : nat) (type : key) (args : list arg) : M bool :=
  let doError := bool_decide (type = key_error) in
  s <- gets id;;
  match _events s with
  | None => if doError then throw_unhandled args else ret false
  | Some l =>
      (if doError && negb (bool_decide (tget (tbl s l) kErrorMonitor = SUndef))
       then emit_at (S d) kErrorMonitor args;; ret tt else ret tt);;
      s <- gets id;;
      if doError && bool_decide (tget (tbl s l) key_error = SUndef) then throw_unhandled args
      else
        match tget (tbl s l) type with
        | SUndef => ret false
        | v => apply_all d type (slot_list s v) args;; ret true
        end
  end.

Definition handle (d : nat) (r : req) : M bool :=
  match r with
  | REmit type args => emit_with d type args
  | RWarn type count => exec d (on_warning type count);; ret true
  end.
End WithRec.

(** At most [fuel] nested calls. *)
Fixpoint dispatch (fuel : nat) : nat -> req -> M bool :=
  match fuel with
  | O => fun _ _ _ => None
  | S fuel => handle (dispatch fuel)
  end.

Definition emit (fuel d : nat) (type : key) (args : list arg) : M bool :=
  dispatch fuel d (REmit type args).

(** A program of the user that runs outside of any event. *)
Definition main (fuel : nat) (b : body) : M retval := exec (dispatch fuel) 0 b.

(** [emitUnhandledRejectionOrErr(ee, err, type, args)], which runs when a
    promise of [pending] is rejected; [rejection] is [ee[kRejection]]. *)
Definition emitUnhandledRejectionOrErr (fuel : nat) (rejection : option positive) (err : arg)
    (type : key) (args : list arg) : M unit :=
  match rejection with
  | Some f => exec (dispatch fuel) 0 (code f (err :: AKey type :: args));; ret tt
  | None =>
      s <- gets id;;
      modify (set_capture false);;
      attempt (emit fuel 0 key_error [err]) (fun r =>
        modify (set_capture (kCapture s));;
        match r with Ret _ => ret tt | Raise x => raise x end)
  end.
End Code.

End Events.
