(* ===== verification/EventsFacts.v ===== *)
(** * [EventEmitter]: tables, programs and the invariant of the state

    Lemmas on tables; a weakest-precondition reading of the monad, with which
    invariants are proved of every method whatever the listeners do; and the
    invariant of the emitter: the table has one entry per key, [_eventsCount]
    is the number of keys with a listener, an array holds at least two
    functions and belongs to one key. *)

From Stdlib Require Import QArith.
From S2P Require Import Prelude JsString JsNumber Events.
Import Events.
#[local] Open Scope Z_scope.
#[local] Open Scope ee_scope.

(** ** Tables *)

Lemma tget_tset t k v k' : tget (tset t k v) k' = if decide (k = k') then v else tget t k'.
Proof.
  induction t as [|[k0 v0] t IH]; cbn [tset tget]; [by destruct (decide _)|].
  destruct (decide (k0 = k)) as [->|]; cbn [tget]; [by destruct (decide _)|].
  rewrite IH. repeat destruct (decide _); congruence.
Qed.

Lemma tget_absent t k : k ∉ t.*1 -> tget t k = SUndef.
Proof.
  induction t as [|[k0 v0] t IH]; [done|]. cbn [fmap list_fmap fst tget].
  rewrite not_elem_of_cons. intros [H1 H2]. rewrite decide_False by congruence. auto.
Qed.

Lemma tget_tdel t k k' :
  NoDup t.*1 -> tget (tdel t k) k' = if decide (k = k') then SUndef else tget t k'.
Proof.
  induction t as [|[k0 v0] t IH]; cbn [tdel tget fmap list_fmap fst].
  - intros _. by destruct (decide _).
  - rewrite NoDup_cons. intros [H1 H2]. destruct (decide (k0 = k)) as [->|].
    + destruct (decide (k = k')) as [<-|]; [by apply tget_absent|done].
    + cbn [tget]. rewrite IH by done. repeat destruct (decide _); congruence.
Qed.

Lemma tset_keys t k v x : x ∈ (tset t k v).*1 <-> x = k \/ x ∈ t.*1.
Proof.
  induction t as [|[k0 v0] t IH]; cbn [tset].
  - cbn. rewrite list_elem_of_singleton, elem_of_nil. naive_solver.
  - destruct (decide (k0 = k)) as [->|]; cbn [fmap list_fmap fst]; rewrite !elem_of_cons; naive_solver.
Qed.

Lemma tset_NoDup t k v : NoDup t.*1 -> NoDup (tset t k v).*1.
Proof.
  induction t as [|[k0 v0] t IH]; cbn [tset]; intros H; [by apply NoDup_singleton|].
  cbn [fmap list_fmap fst] in H. apply NoDup_cons in H as [H1 H2].
  destruct (decide (k0 = k)) as [->|Hk]; cbn [fmap list_fmap fst]; apply NoDup_cons; [done|].
  split; [|auto]. rewrite (tset_keys t k v k0). naive_solver.
Qed.

Lemma tdel_keys t k x : x ∈ (tdel t k).*1 -> x ∈ t.*1.
Proof.
  induction t as [|[k0 v0] t IH]; cbn [tdel]; [done|].
  destruct (decide (k0 = k)); cbn [fmap list_fmap fst]; rewrite !elem_of_cons; naive_solver.
Qed.

Lemma tdel_NoDup t k : NoDup t.*1 -> NoDup (tdel t k).*1.
Proof.
  induction t as [|[k0 v0] t IH]; cbn [tdel]; intros H; [done|].
  cbn [fmap list_fmap fst] in H. apply NoDup_cons in H as [H1 H2].
  destruct (decide (k0 = k)); cbn [fmap list_fmap fst]; [done|]. apply NoDup_cons.
  split; [|auto]. by intros ?%tdel_keys.
Qed.

(** The number of keys that have a listener. *)
Definition defined (v : slot) : Z := if bool_decide (v = SUndef) then 0 else 1.
Fixpoint live (t : table) : Z :=
  match t with [] => 0 | (_, v) :: t => defined v + live t end.

Lemma live_nonneg t : 0 <= live t.
Proof. induction t as [|[k v] t IH]; cbn [live]; [done|]. unfold defined. case_bool_decide; lia. Qed.

Lemma live_tset t k v : live (tset t k v) = live t - defined (tget t k) + defined v.
Proof.
  induction t as [|[k0 v0] t IH]; cbn [tset tget live]; [change (defined SUndef) with 0; lia|].
  destruct (decide (k0 = k)); cbn [live]; lia.
Qed.

Lemma live_tdel t k : live (tdel t k) = live t - defined (tget t k).
Proof.
  induction t as [|[k0 v0] t IH]; cbn [tdel tget live]; [done|].
  destruct (decide (k0 = k)); cbn [live]; lia.
Qed.

Lemma live_zero t k : live t = 0 -> tget t k = SUndef.
Proof.
  induction t as [|[k0 v0] t IH]; cbn [tget live]; [done|]. intros H.
  pose proof (live_nonneg t). unfold defined in H. case_bool_decide as Hv; [|lia].
  destruct (decide _); [done|auto].
Qed.

Lemma defined_true v : v <> SUndef -> defined v = 1.
Proof. unfold defined. by case_bool_decide. Qed.

(** ** [spliceOne] deletes one element *)

Lemma splice_shift_spec rest : forall pre y,
  exists z, splice_shift (length rest) (pre ++ y :: rest) (length pre) = pre ++ rest ++ [z].
Proof.
  induction rest as [|x rest IH]; intros pre y; cbn [splice_shift length]; [by exists y|].
  destruct (IH (pre ++ [x]) x) as [z Hz]. exists z.
  rewrite lookup_app_r by lia. replace (S (length pre) - length pre)%nat with 1%nat by lia. cbn.
  rewrite insert_app_r_alt, Nat.sub_diag by lia. cbn [insert list_insert].
  rewrite length_app, Nat.add_comm, <- app_assoc in Hz. cbn in Hz. rewrite Hz. by rewrite <- app_assoc.
Qed.

Lemma remove_at_delete l i : (i < length l)%nat -> remove_at l i = delete i l.
Proof.
  intros Hi. destruct (lookup_lt_is_Some_2 l i Hi) as [y Hy].
  assert (spliceOne l i = delete i l) as H.
  { destruct (splice_shift_spec (drop (S i) l) (take i l) y) as [z Hz].
    rewrite take_drop_middle, length_take, length_drop, Nat.min_l in Hz by (done || lia).
    unfold spliceOne. rewrite Hz, app_assoc, length_app, Nat.add_sub, take_app_length.
    by rewrite delete_take_drop. }
  destruct i; [|done]. by destruct l.
Qed.

Lemma find_last_lt listener l i j : find_last listener l i = Some j -> (j < i)%nat.
Proof.
  induction i as [|i IH]; cbn [find_last]; [done|].
  destruct (l !! i) as [x|]; [destruct (matches _ _)|]; [by intros [= ->]; lia|..];
    intros H%IH; lia.
Qed.

Lemma length_remove_at l i : (i < length l)%nat -> length (remove_at l i) = (length l - 1)%nat.
Proof.
  intros Hi. rewrite remove_at_delete by done.
  destruct (lookup_lt_is_Some_2 l i Hi) as [y Hy]. rewrite length_delete by (by exists y). lia.
Qed.

(** ** Weakest preconditions *)

(** If the program ends, it ends in [Q]; if the fuel runs out, [div] holds:
    [False] for total correctness, [True] for partial. *)
Definition wpd (div : Prop) {A} (m : M A) (Q : res A -> state -> Prop) (s : state) : Prop :=
  match m s with None => div | Some (s', r) => Q r s' end.
Abbreviation wp := (wpd True).

Lemma wp_bind div {A B} (m : M A) (k : A -> M B) Q s :
  wpd div m (fun r s' => match r with Ret a => wpd div (k a) Q s' | Raise x => Q (Raise x) s' end) s ->
  wpd div (bind m k) Q s.
Proof. unfold wpd, bind. by destruct (m s) as [[s' [a|x]]|]. Qed.

Lemma wp_attempt div {A B} (m : M A) (k : res A -> M B) Q s :
  wpd div m (fun r s' => wpd div (k r) Q s') s -> wpd div (attempt m k) Q s.
Proof. unfold wpd, attempt. by destruct (m s) as [[s' r]|]. Qed.

Lemma wp_mono div {A} (m : M A) (Q Q' : res A -> state -> Prop) s :
  wpd div m Q s -> (forall r s', Q r s' -> Q' r s') -> wpd div m Q' s.
Proof. unfold wpd. destruct (m s) as [[s' r]|]; auto. Qed.

Lemma wp_run {A} (m : M A) Q s s' r : wp m Q s -> m s = Some (s', r) -> Q r s'.
Proof. unfold wpd. intros H E. by rewrite E in H. Qed.

Lemma wp_total {A} (m : M A) Q s :
  wpd False m Q s -> exists s' r, m s = Some (s', r) /\ Q r s'.
Proof. unfold wpd. destruct (m s) as [[s' r]|]; [eauto|done]. Qed.

(** ** Relations every method keeps

    A relation between the states before and after that is a preorder, and
    that the elementary steps satisfy, holds of every method. *)
Definition keeps {A} (I : state -> Prop) (m : M A) : Prop :=
  forall s, I s -> wp m (fun _ s' => I s') s.

Section Keeps.
Context (I : state -> Prop).

Lemma keeps_ret {A} (a : A) : keeps I (ret a).
Proof. by intros s H. Qed.

Lemma keeps_raise {A} x : keeps I (@raise A x).
Proof. by intros s H. Qed.

Lemma keeps_bind {A B} (m : M A) (k : A -> M B) :
  keeps I m -> (forall a, keeps I (k a)) -> keeps I (bind m k).
Proof.
  intros Hm Hk s H. apply wp_bind. eapply wp_mono; [by apply Hm|].
  intros [a|x] s' Hs'; [by apply Hk|done].
Qed.

Lemma keeps_attempt {A B} (m : M A) (k : res A -> M B) :
  keeps I m -> (forall r, keeps I (k r)) -> keeps I (attempt m k).
Proof.
  intros Hm Hk s H. apply wp_attempt. eapply wp_mono; [by apply Hm|].
  intros r s' Hs'. by apply Hk.
Qed.

(** Reading the state: what is known of it stays known. *)
Lemma keeps_gets {A B} (f : state -> A) (k : A -> M B) :
  (forall s, I s -> wp (k (f s)) (fun _ s' => I s') s) -> keeps I (bind (gets f) k).
Proof. intros H s Hs. apply wp_bind. cbn. by apply H. Qed.

Lemma keeps_modify f : (forall s, I s -> I (f s)) -> keeps I (modify f).
Proof. intros H s Hs. cbn. auto. Qed.
End Keeps.

(** ** The invariant of the heap *)

(** The listeners of [k] in the table [l]. *)
Definition tview (s : state) (l : positive) (k : key) : list fn := slot_list s (tget (tbl s l) k).

Record wfh (s : state) : Prop := {
  wh_keys : forall l, NoDup (tbl s l).*1;
  wh_fresh : forall l, (nextLoc s <= l)%positive -> tbl s l = [];
  wh_arr : forall l k a, tget (tbl s l) k = SArr a ->
             (a < nextLoc s)%positive /\ (2 <= length (items (arr s a)))%nat;
  wh_sep : forall l k l' k' a, tget (tbl s l) k = SArr a -> tget (tbl s l') k' = SArr a ->
             l = l' /\ k = k';
}.

(** [_eventsCount] counts the keys of the current table that have listeners. *)
Definition counted (s : state) : Prop :=
  match _events s with
  | None => _eventsCount s = 0
  | Some l => (l < nextLoc s)%positive /\ _eventsCount s = live (tbl s l)
  end.

Definition wf (s : state) : Prop := wfh s /\ counted s.

(** The fields the methods that move listeners leave alone. *)
Definition frame (s s' : state) : Prop :=
  fired s' = fired s /\ onceStates s' = onceStates s /\ onces s' = onces s /\ trace s' = trace s.

(** Only the listeners of [k] in [l] change, to [fs]. *)
Definition upd (l : positive) (k : key) (fs : list fn) (s s' : state) : Prop :=
  wfh s' /\ _events s' = _events s /\ (nextLoc s <= nextLoc s')%positive /\ frame s s' /\
  forall l' k', tview s' l' k' =
    if decide (l = l') then if decide (k = k') then fs else tview s l' k' else tview s l' k'.

(** *** Elementary changes *)

Lemma tbl_put s l k v l' :
  tbl (put_slot l k v s) l' = if decide (l = l') then tset (tbl s l) k v else tbl s l'.
Proof.
  unfold tbl at 1. cbn. destruct (decide _) as [<-|]; [by rewrite lookup_insert_eq|].
  by rewrite lookup_insert_ne.
Qed.

Lemma tbl_del s l k l' :
  tbl (del_slot l k s) l' = if decide (l = l') then tdel (tbl s l) k else tbl s l'.
Proof.
  unfold tbl at 1. cbn. destruct (decide _) as [<-|]; [by rewrite lookup_insert_eq|].
  by rewrite lookup_insert_ne.
Qed.

Lemma arr_put s a x b : arr (put_arr a x s) b = if decide (a = b) then x else arr s b.
Proof.
  unfold arr. cbn. destruct (decide (a = b)) as [<-|]; [by rewrite lookup_insert_eq|].
  by rewrite lookup_insert_ne.
Qed.

Lemma tbl_fresh s l : wfh s -> tbl (fresh_events s) l = tbl s l.
Proof.
  intros H. unfold tbl at 1. cbn. destruct (decide (nextLoc s = l)) as [<-|].
  - rewrite lookup_insert_eq. cbn. symmetry. by apply wh_fresh.
  - by rewrite lookup_insert_ne.
Qed.

(** The slot of one key is replaced by one that is not an array. *)
Lemma upd_slot (s s' : state) l k v :
  wfh s -> (l < nextLoc s)%positive -> (forall a, v <> SArr a) ->
  arrays s' = arrays s -> nextLoc s' = nextLoc s -> _events s' = _events s -> frame s s' ->
  (forall l', NoDup (tbl s' l').*1) -> (forall l', l <> l' -> tbl s' l' = tbl s l') ->
  (forall k', tget (tbl s' l) k' = if decide (k = k') then v else tget (tbl s l) k') ->
  upd l k (slot_list s v) s s'.
Proof.
  intros [H1 H2 H3 H4] Hl Hv Ea En Ee Hf Hn Ht Hg.
  assert (forall a, arr s' a = arr s a) as Harr by (intros a; unfold arr; by rewrite Ea).
  assert (forall l' k' a, tget (tbl s' l') k' = SArr a -> tget (tbl s l') k' = SArr a) as Hold.
  { intros l' k' a. destruct (decide (l = l')) as [<-|]; [|by rewrite Ht].
    rewrite Hg. destruct (decide _); [by intros ?%Hv|done]. }
  assert (forall x, slot_list s' x = slot_list s x) as Hs by (intros [| |a]; cbn; by rewrite ?Harr).
  split_and!; [split| | | |].
  - done.
  - intros l' Hl'. rewrite En in Hl'. rewrite Ht by lia. by apply H2.
  - intros l' k' a Ha%Hold. rewrite En, Harr. by eapply H3.
  - intros l1 k1 l2 k2 a Ha1%Hold Ha2%Hold. by eapply H4.
  - done.
  - by rewrite En.
  - done.
  - intros l' k'. unfold tview. rewrite Hs. destruct (decide (l = l')) as [<-|]; [|by rewrite Ht].
    rewrite Hg. by destruct (decide _).
Qed.

Lemma upd_put_slot s l k v :
  wfh s -> (l < nextLoc s)%positive -> (forall a, v <> SArr a) ->
  upd l k (slot_list s v) s (put_slot l k v s).
Proof.
  intros H Hl Hv. apply upd_slot; try done.
  - intros l'. rewrite tbl_put. destruct (decide _); [apply tset_NoDup|]; by apply wh_keys.
  - intros l' Hne. rewrite tbl_put. by rewrite decide_False.
  - intros k'. rewrite tbl_put, decide_True by done. apply tget_tset.
Qed.

Lemma upd_del s l k :
  wfh s -> (l < nextLoc s)%positive -> upd l k [] s (del_slot l k s).
Proof.
  intros H Hl. apply (upd_slot s _ l k SUndef); try done.
  - intros l'. rewrite tbl_del. destruct (decide _); [apply tdel_NoDup|]; by apply wh_keys.
  - intros l' Hne. rewrite tbl_del. by rewrite decide_False.
  - intros k'. rewrite tbl_del, decide_True by done. apply tget_tdel. by apply wh_keys.
Qed.

Lemma upd_arr s l k a x :
  wfh s -> tget (tbl s l) k = SArr a -> (2 <= length (items x))%nat ->
  upd l k (items x) s (put_arr a x s).
Proof.
  intros H Ha Hx. destruct (id H) as [H1 H2 H3 H4]. split_and!; [split| | | |]; try done.
  - intros l' k' b Hb. rewrite arr_put. cbn. destruct (H3 l' k' b Hb). by destruct (decide _).
  - intros l' k'. unfold tview.
    change (tbl (put_arr a x s) l') with (tbl s l'). destruct (tget (tbl s l') k') as [|f|b] eqn:Hb.
    1,2: repeat destruct (decide _); subst; done || congruence.
    cbn [slot_list]. rewrite arr_put. destruct (decide (a = b)) as [<-|Hne].
    + destruct (H4 _ _ _ _ _ Ha Hb) as [<- <-]. by rewrite !decide_True.
    + repeat destruct (decide _); subst; done || congruence.
Qed.

(** An array of two that lost one: the function takes its place. *)
Lemma upd_collapse s l k a f b :
  wfh s -> (l < nextLoc s)%positive -> tget (tbl s l) k = SArr a ->
  upd l k [f] s (put_slot l k (SFn f) (put_arr a (LArr [f] b) s)).
Proof.
  intros H Hl Ha. destruct (id H) as [H1 H2 H3 H4].
  set (s1 := put_arr a (LArr [f] b) s). set (s2 := put_slot l k (SFn f) s1).
  assert (forall l' k' c, tget (tbl s2 l') k' = SArr c -> tget (tbl s l') k' = SArr c /\ c <> a) as Hold.
  { intros l' k' c. unfold s2. rewrite tbl_put. change (tbl s1) with (tbl s).
    destruct (decide (l = l')) as [<-|Hne].
    - rewrite tget_tset. destruct (decide (k = k')) as [|Hk]; [done|]. intros Hc. split; [done|].
      intros ->. by destruct (H4 _ _ _ _ _ Ha Hc).
    - intros Hc. split; [done|]. intros ->. by destruct (H4 _ _ _ _ _ Ha Hc). }
  assert (forall c, c <> a -> arr s2 c = arr s c) as Harr
    by (intros c Hc; change (arr s2 c) with (arr s1 c); unfold s1; rewrite arr_put; by rewrite decide_False).
  split_and!; [split| | | |]; try done.
  - intros l'. unfold s2. rewrite tbl_put. change (tbl s1) with (tbl s).
    destruct (decide _); [by apply tset_NoDup|done].
  - intros l' Hl'. unfold s2. rewrite tbl_put. rewrite decide_False; [by apply H2|].
    change (nextLoc s <= l')%positive in Hl'. lia.
  - intros l' k' c [Hc Hne]%Hold. rewrite Harr by done. by eapply H3.
  - intros l1 k1 l2 k2 c [Hc1 _]%Hold [Hc2 _]%Hold. by eapply H4.
  - intros l' k'. unfold tview.
    destruct (tget (tbl s2 l') k') as [|g|c] eqn:Hg.
    3:{ destruct (Hold _ _ _ Hg) as [Hc Hne]. cbn [slot_list]. rewrite Harr, Hc by done. cbn [slot_list].
        destruct (decide (l = l')) as [<-|]; [|done]. destruct (decide (k = k')) as [<-|]; [|done]. congruence. }
    all: unfold s2 in Hg; rewrite tbl_put in Hg; change (tbl s1) with (tbl s) in Hg.
    all: destruct (decide (l = l')) as [<-|]; [rewrite tget_tset in Hg; destruct (decide (k = k'))|].
    all: by simplify_eq || by rewrite Hg.
Qed.

(** A second listener: the function becomes an array. *)
Lemma upd_new_arr s l k fs a s1 :
  wfh s -> (l < nextLoc s)%positive -> (2 <= length fs)%nat -> new_arr fs s = (a, s1) ->
  upd l k fs s (put_slot l k (SArr a) s1) /\
  arr (put_slot l k (SArr a) s1) a = LArr fs false.
Proof.
  intros H Hl Hfs E. injection E as <- <-. destruct (id H) as [H1 H2 H3 H4].
  set (s1 := set_arrays _ _ s). set (s2 := put_slot l k _ s1).
  assert (forall c, arr s2 c = if decide (nextLoc s = c) then LArr fs false else arr s c) as Harr
    by (intros c; change (arr s2 c) with (arr (put_arr (nextLoc s) (LArr fs false) s) c); apply arr_put).
  assert (forall l' k', tget (tbl s2 l') k' =
     if decide (l = l') then if decide (k = k') then SArr (nextLoc s) else tget (tbl s l') k'
     else tget (tbl s l') k') as Hget.
  { intros l' k'. unfold s2. rewrite tbl_put. change (tbl s1) with (tbl s).
    destruct (decide _) as [<-|]; [apply tget_tset|done]. }
  assert (forall l' k', tget (tbl s l') k' <> SArr (nextLoc s)) as Hfresh
    by (intros l' k' Hk'; destruct (H3 _ _ _ Hk'); lia).
  split; [|by rewrite Harr, decide_True]. split_and!; [split| | | |]; try done.
  - intros l'. unfold s2. rewrite tbl_put. change (tbl s1) with (tbl s).
    destruct (decide _); [by apply tset_NoDup|done].
  - intros l' Hl'. unfold s2. rewrite tbl_put. change (tbl s1) with (tbl s).
    change (Pos.succ (nextLoc s) <= l')%positive in Hl'. rewrite decide_False by lia. apply H2. lia.
  - intros l' k' c. rewrite Hget, Harr. change (nextLoc s2) with (Pos.succ (nextLoc s)).
    destruct (decide (l = l')); [destruct (decide (k = k'))|].
    1: intros [= <-]; rewrite decide_True by done; cbn; lia.
    all: intros Hc; destruct (H3 _ _ _ Hc); rewrite decide_False by lia; split; [lia|done].
  - intros l1 k1 l2 k2 c. rewrite !Hget.
    repeat destruct (decide _); subst; try done; intros Hc1 Hc2; simplify_eq; try by edestruct Hfresh.
    all: by eapply H4.
  - change (nextLoc s2) with (Pos.succ (nextLoc s)). lia.
  - intros l' k'. unfold tview. rewrite Hget.
    destruct (decide (l = l')); [destruct (decide (k = k'))|].
    1: cbn [slot_list]; by rewrite Harr, decide_True.
    all: destruct (tget (tbl s l') k') as [| |c] eqn:Hc; [done..|]; cbn [slot_list].
    all: rewrite Harr, decide_False; [done|]; intros <-; by eapply Hfresh.
Qed.
