(* ===== verification/EventsOps.v ===== *)
(** * [EventEmitter]: what each method does to the listeners

    For every method that moves listeners, the change it makes to the lists of
    all tables before it hands over to the listeners' code; and a theorem that
    lifts a property of the state that these changes keep to all programs. *)

From Stdlib Require Import QArith.
From S2P Require Import Prelude JsString JsNumber Events EventsFacts.
Import Events.
#[local] Open Scope Z_scope.
#[local] Open Scope ee_scope.
#[local] Arguments _addListener : simpl never.
#[local] Arguments removeListener : simpl never.
#[local] Arguments removeAll_type : simpl never.
#[local] Arguments add_to : simpl never.
#[local] Arguments check_leak : simpl never.

(** ** Changes *)

Definition view (s : state) (k : key) : list fn := rawListeners k s.

Lemma view_tview s l k : _events s = Some l -> view s k = tview s l k.
Proof. intros E. unfold view, rawListeners, _listeners, cur. by rewrite E. Qed.

Lemma view_none s k : _events s = None -> view s k = [].
Proof. intros E. unfold view, rawListeners, _listeners, cur. by rewrite E. Qed.

(** No list gains a function; the table is the same or a new one. *)
Definition less (s s' : state) : Prop :=
  wf s' /\ frame s s' /\ (nextLoc s <= nextLoc s')%positive /\
  (_events s' = _events s \/ exists l, _events s' = Some l /\ (nextLoc s <= l)%positive) /\
  forall l k, tview s' l k `sublist_of` tview s l k.

Definition added (prepend : bool) (f : fn) (fs : list fn) : list fn :=
  if prepend then f :: fs else fs ++ [f].

(** The list of [k] in the current table gains [f]. *)
Definition plus (k : key) (f : fn) (prepend : bool) (s s' : state) : Prop :=
  wf s' /\ frame s s' /\ (nextLoc s <= nextLoc s')%positive /\
  exists l, _events s = Some l /\ _events s' = Some l /\
    forall l' k', tview s' l' k' =
      if decide (l = l') then if decide (k = k') then added prepend f (tview s l' k') else tview s l' k'
      else tview s l' k'.

(** The last function that is [f] or was made from it is taken out. *)
Definition remove_last (f : fn) (fs : list fn) : list fn :=
  match find_last f fs (length fs) with Some i => delete i fs | None => fs end.

Definition minus (k : key) (f : fn) (s s' : state) : Prop :=
  less s s' /\ forall k', view s' k' = if decide (k = k') then remove_last f (view s k') else view s k'.

Lemma frame_refl s : frame s s.
Proof. by split_and!. Qed.

#[export] Instance frame_preorder : PreOrder frame.
Proof.
  split; [intros s; apply frame_refl|].
  intros s1 s2 s3 (A1 & A2 & A3 & A4) (B1 & B2 & B3 & B4). unfold frame. rewrite B1, B2, B3, B4. auto.
Qed.

Lemma less_refl s : wf s -> less s s.
Proof. intros H. split_and!; [done|reflexivity|lia|by left|done]. Qed.

Lemma less_trans s1 s2 s3 : less s1 s2 -> less s2 s3 -> less s1 s3.
Proof.
  intros (A1 & A2 & A3 & A4 & A5) (B1 & B2 & B3 & B4 & B5).
  split_and!; [done|by etrans|lia| |].
  - destruct B4 as [->|(l & E & ?)]; [done|]. right. exists l. split; [done|lia].
  - intros l k. etrans; [apply B5|apply A5].
Qed.

Lemma less_view s s' k : wf s -> less s s' -> view s' k `sublist_of` view s k.
Proof.
  intros [Hh _] (H1 & H2 & H3 & [E|(l & E & Hl)] & H5).
  - destruct (_events s) as [l|] eqn:El; [by rewrite !(view_tview _ l)|by rewrite !view_none].
  - rewrite (view_tview s' l) by done. specialize (H5 l k). unfold tview at 2 in H5.
    rewrite (wh_fresh _ Hh l) in H5 by done. apply sublist_nil_r in H5. rewrite H5. apply sublist_nil_l.
Qed.

(** Changes of fields that hold no listener. *)
Lemma wfh_ext s s' :
  wfh s -> tables s' = tables s -> arrays s' = arrays s -> nextLoc s' = nextLoc s -> wfh s'.
Proof.
  intros [H1 H2 H3 H4] Et Ea En.
  assert (forall l, tbl s' l = tbl s l) as Ht by (intros l; unfold tbl; by rewrite Et).
  assert (forall a, arr s' a = arr s a) as Ha by (intros a; unfold arr; by rewrite Ea).
  split.
  - intros l. by rewrite Ht.
  - intros l. rewrite Ht, En. apply H2.
  - intros l k a. rewrite Ht, En, Ha. apply H3.
  - intros l k l' k' a. rewrite !Ht. apply H4.
Qed.

Lemma less_fields s s' :
  wf s -> tables s' = tables s -> arrays s' = arrays s -> nextLoc s' = nextLoc s ->
  _events s' = _events s -> _eventsCount s' = _eventsCount s -> frame s s' -> less s s'.
Proof.
  intros [Hh Hc] Et Ea En Ee Ec Hf. split_and!; [split|done|rewrite En; lia|by left|].
  - by apply (wfh_ext s).
  - unfold counted, tbl in *. by rewrite Ee, Ec, En, Et.
  - intros l k. unfold tview, slot_list, tbl, arr. by rewrite Et, Ea.
Qed.

Lemma fresh_less s :
  wfh s -> less s (set_count 0 (fresh_events s)) /\ forall k, view (set_count 0 (fresh_events s)) k = [].
Proof.
  intros H. pose proof H as [H1 H2 H3 H4].
  assert (forall l, tbl (set_count 0 (fresh_events s)) l = tbl s l) as Ht by (intros l; by apply tbl_fresh).
  split.
  - split_and!; [split; [split|]| |cbn; lia|right; exists (nextLoc s); split; [done|lia]|].
    + intros l. by rewrite Ht.
    + intros l Hl. rewrite Ht. apply H2. cbn in Hl. lia.
    + intros l k a. rewrite Ht. intros Ha. destruct (H3 _ _ _ Ha). split; [cbn; lia|done].
    + intros l k l' k' a. rewrite !Ht. apply H4.
    + unfold counted. cbn [_events set_count fresh_events set_events]. rewrite Ht, H2 by lia. cbn. lia.
    + by split_and!.
    + intros l k. unfold tview. rewrite Ht. by destruct (tget _ _).
  - intros k. rewrite (view_tview _ (nextLoc s)) by done. unfold tview. by rewrite Ht, H2 by lia.
Qed.

Lemma upd_less s s' l k fs :
  upd l k fs s s' -> counted s' -> fs `sublist_of` tview s l k -> less s s'.
Proof.
  intros (H1 & H2 & H3 & H4 & H5) Hc Hs. split_and!; [done|done|done|by left|].
  intros l' k'. rewrite H5. repeat destruct (decide _); by subst.
Qed.

Lemma upd_view s s' l k fs k' :
  upd l k fs s s' -> _events s = Some l -> view s' k' = if decide (k = k') then fs else view s k'.
Proof.
  intros (H1 & H2 & H3 & H4 & H5) E. rewrite (view_tview s' l), (view_tview s l) by congruence.
  rewrite H5. by rewrite decide_True.
Qed.

(** Every list stays as it is. *)
Definition same (s s' : state) : Prop :=
  wf s' /\ frame s s' /\ nextLoc s' = nextLoc s /\ _events s' = _events s /\
  forall l k, tview s' l k = tview s l k.

Lemma plus_same k f p s s1 s2 : plus k f p s s1 -> same s1 s2 -> plus k f p s s2.
Proof.
  intros (A1 & A2 & A3 & l & E1 & E2 & A4) (B1 & B2 & B3 & B4 & B5).
  split_and!; [done|by etrans|lia|]. exists l. split_and!; [done|congruence|].
  intros l' k'. by rewrite B5, A4.
Qed.

Lemma upd_ext l k fs s s1 s2 :
  upd l k fs s s1 -> tables s2 = tables s1 -> arrays s2 = arrays s1 -> nextLoc s2 = nextLoc s1 ->
  _events s2 = _events s1 -> frame s1 s2 -> upd l k fs s s2.
Proof.
  intros (H1 & H2 & H3 & H4 & H5) Et Ea En Ee Hf.
  split_and!; [by apply (wfh_ext s1)|congruence|by rewrite En|by etrans|].
  intros l' k'. rewrite <- H5. unfold tview, slot_list, tbl, arr. by rewrite Et, Ea.
Qed.

Lemma upd_plus s s' l k f p :
  upd l k (added p f (tview s l k)) s s' -> _events s = Some l -> counted s' -> plus k f p s s'.
Proof.
  intros (H1 & H2 & H3 & H4 & H5) E Hc. split_and!; [done|done|done|]. exists l.
  split_and!; [done|congruence|]. intros l' k'. rewrite H5. repeat destruct (decide _); by subst.
Qed.

Lemma slot_list_defined s l k : wfh s -> tget (tbl s l) k <> SUndef -> tview s l k <> [].
Proof.
  intros H Hk. unfold tview. destruct (tget _ _) as [| |a] eqn:Ha; [done|done|]. cbn. intros Hn.
  destruct (wh_arr _ H _ _ _ Ha) as [_ Hlen]. rewrite Hn in Hlen. cbn in Hlen. lia.
Qed.

(** ** Methods *)

Section Methods.
Context (div : Prop).
Context (rec : nat -> req -> M bool).

Definition to_unit (r : res bool) : res unit := match r with Ret _ => Ret tt | Raise x => Raise x end.

Lemma wp_discard (m : M bool) (Q : res unit -> state -> Prop) s :
  wpd div m (fun r s' => Q (to_unit r) s') s -> wpd div (m;; ret tt) Q s.
Proof. intros H. apply wp_bind. eapply wp_mono; [exact H|]. by intros [b|x] s'. Qed.

Lemma check_leak_wp d k l a (Q : res unit -> state -> Prop) s :
  wf s -> tget (tbl s l) k = SArr a ->
  Q (Ret tt) s ->
  (forall s' n, same s s' -> wpd div (rec d (RWarn k n)) (fun r s' => Q (to_unit r) s') s') ->
  wpd div (check_leak rec d k a) Q s.
Proof.
  intros [Hh Hc] Ha H1 H2. unfold check_leak. apply wp_bind. cbn.
  destruct (_ && _); [|done]. apply wp_bind. cbn. apply wp_bind. cbn. apply wp_discard. apply H2.
  destruct (wh_arr _ Hh _ _ _ Ha) as [? Hlen].
  destruct (upd_arr s l k a (LArr (items (arr s a)) true) Hh Ha Hlen) as (B1 & B2 & B3 & B4 & B5).
  split_and!; [split; [by apply (wfh_ext _ _ B1)|exact Hc]|exact B4|done|exact B2|].
  intros l' k'. etrans; [exact (B5 l' k')|]. cbn [items].
  destruct (decide _) as [<-|]; [|done]. destruct (decide _) as [<-|]; [|done].
  unfold tview. by rewrite Ha.
Qed.

Lemma counted_put s l k v c :
  wf s -> _events s = Some l -> c = _eventsCount s - defined (tget (tbl s l) k) + defined v ->
  forall s', tbl s' l = tset (tbl s l) k v -> _events s' = Some l -> (nextLoc s <= nextLoc s')%positive ->
  _eventsCount s' = c -> counted s'.
Proof.
  intros [_ Hc] El -> s' Ht Ee Hn Ec. unfold counted in *. rewrite El in Hc. destruct Hc as [Hl Hc].
  rewrite Ee, Ec, Ht, live_tset, Hc. split; lia.
Qed.

Lemma add_to_wp d l k f p (Q : res unit -> state -> Prop) s :
  wf s -> _events s = Some l ->
  (forall s', plus k f p s s' -> Q (Ret tt) s') ->
  (forall s' n, plus k f p s s' -> wpd div (rec d (RWarn k n)) (fun r s' => Q (to_unit r) s') s') ->
  wpd div (add_to rec d l k f p) Q s.
Proof.
  intros Hwf El H1 H2. destruct (id Hwf) as [Hh Hc]. unfold counted in Hc. rewrite El in Hc.
  destruct Hc as [Hl Hc]. unfold add_to. apply wp_bind. cbn.
  destruct (tget (tbl s l) k) as [|g|a] eqn:Hk; cbn [slot_list].
  - apply wp_bind. cbn. apply H1.
    pose proof (upd_put_slot s l k (SFn f) Hh Hl ltac:(done)) as Hu.
    eapply upd_plus; [|exact El|].
    + unfold tview. rewrite Hk. replace (added p f (slot_list s SUndef)) with [f] by (by destruct p). by apply (upd_ext _ _ _ _ _ _ Hu).
    + apply (counted_put s l k (SFn f) (_eventsCount s + 1)); try done.
      * rewrite Hk. rewrite (defined_true (SFn f)) by done. change (defined SUndef) with 0. lia.
      * change (tbl (put_slot l k (SFn f) s) l = tset (tbl s l) k (SFn f)).
        by rewrite tbl_put, decide_True.
  - set (fs := if p then [f; g] else [g; f]).
    assert (2 <= length fs)%nat as Hlen by (destruct p; cbn; lia).
    destruct (upd_new_arr s l k fs (nextLoc s) (new_arr fs s).2 Hh Hl Hlen eq_refl) as [Hu Harr].
    apply wp_bind. cbn.
    assert (plus k f p s (put_slot l k (SArr (nextLoc s)) (new_arr fs s).2)) as Hp.
    { eapply upd_plus; [|exact El|].
      - unfold tview. rewrite Hk. replace (added p f (slot_list s (SFn g))) with fs
          by (by destruct p). exact Hu.
      - apply (counted_put s l k (SArr (nextLoc s)) (_eventsCount s)); try done.
        + rewrite Hk, !defined_true by done. lia.
        + rewrite tbl_put. by rewrite decide_True.
        + cbn. lia. }
    eapply (check_leak_wp d k l).
    + apply Hp.
    + rewrite tbl_put, decide_True by done. rewrite tget_tset. by rewrite decide_True.
    + by apply H1.
    + intros s' n Hs. apply H2. by eapply plus_same.
  - set (x := LArr _ _). apply wp_bind. cbn.
    destruct (wh_arr _ Hh _ _ _ Hk) as [? Hlen].
    assert (plus k f p s (put_arr a x s)) as Hp.
    { eapply upd_plus; [|exact El|].
      - unfold tview. rewrite Hk. cbn [slot_list].
        replace (added p f (items (arr s a))) with (items x) by (by destruct p).
        apply (upd_arr s l k a x Hh Hk). subst x. cbn. destruct p; [cbn; lia|]. rewrite length_app. lia.
      - unfold counted. cbn. by rewrite El. }
    eapply (check_leak_wp d k l); [apply Hp|exact Hk|by apply H1|].
    intros s' n Hs. apply H2. by eapply plus_same.
Qed.

(** [f] is added to the state [s], and the rest of the program is [Q]. *)
Definition add_post d k f p (Q : res unit -> state -> Prop) (s : state) : Prop :=
  (forall s', plus k f p s s' -> Q (Ret tt) s') /\
  (forall s' n, plus k f p s s' -> wpd div (rec d (RWarn k n)) (fun r s' => Q (to_unit r) s') s').

Lemma addListener_wp d k f p (Q : res unit -> state -> Prop) s :
  wf s ->
  (forall s', less s s' -> (forall k, view s' k = view s k) -> add_post d k f p Q s') ->
  (forall args, view s key_newListener <> [] ->
     wpd div (rec d (REmit key_newListener args))
     (fun r s' => match r with
                  | Ret _ => wf s' /\ add_post d k f p Q s' /\ Q (Raise (ANodeError "TypeError" None)) s'
                  | Raise x => Q (Raise x) s'
                  end) s) ->
  wpd div (_addListener rec d k (Some f) p) Q s.
Proof.
  intros Hwf Hq Hn. unfold _addListener. apply wp_bind. cbn.
  destruct (_events s) as [l|] eqn:El.
  - destruct (bool_decide _) eqn:Hb; bool_hyps.
    + apply wp_bind. cbn. apply wp_bind. cbn. rewrite El.
      destruct (Hq s (less_refl s Hwf) ltac:(done)). by apply add_to_wp.
    + apply wp_bind. eapply wp_mono; [apply Hn|].
      * rewrite (view_tview s l) by done. apply slot_list_defined; [apply Hwf|done].
      * cbn. intros [b|x] s1; [|done]. intros (Hwf1 & [Ha1 Ha2] & Hx). apply wp_bind. cbn.
        destruct (_events s1) as [l1|] eqn:El1; [by apply add_to_wp|done].
  - destruct (fresh_less s (proj1 Hwf)) as [Hless Hv].
    apply wp_bind. cbn. apply wp_bind. cbn.
    destruct (Hq _ Hless) as [Ha1 Ha2]; [intros k'; by rewrite Hv, view_none|].
    apply add_to_wp; [apply Hless|done|done|done].
Qed.

Lemma find_last_singleton f g : find_last f [g] 1 = if matches f g then Some 0%nat else None.
Proof. cbn. by destruct (matches f g). Qed.

Lemma remove_last_sublist f fs : remove_last f fs `sublist_of` fs.
Proof. unfold remove_last. destruct (find_last _ _ _); [apply sublist_delete|done]. Qed.

Lemma minus_of s s' k f :
  less s s' -> (forall k', view s' k' = if decide (k = k') then remove_last f (view s k') else view s k') ->
  minus k f s s'.
Proof. by split. Qed.

(** The branch for a single function: the count goes down by one. *)
Lemma minus_single s l k f g s' :
  wf s -> _events s = Some l -> tget (tbl s l) k = SFn g -> matches f g = true ->
  s' = set_count (_eventsCount s - 1)
         (if kShapeMode s then put_slot l k SUndef s
          else if _eventsCount s - 1 =? 0 then fresh_events s else del_slot l k s) ->
  minus k f s s'.
Proof.
  intros Hwf El Hk Hm ->. destruct (id Hwf) as [Hh Hc]. unfold counted in Hc. rewrite El in Hc.
  destruct Hc as [Hl Hc].
  assert (view s k = [g]) as Hv by (rewrite (view_tview s l) by done; unfold tview; by rewrite Hk).
  assert (remove_last f (view s k) = []) as Hr
    by (rewrite Hv; unfold remove_last; cbn [length]; by rewrite find_last_singleton, Hm).
  assert (forall s1, upd l k [] s s1 -> live (tbl s1 l) = live (tbl s l) - 1 ->
            minus k f s (set_count (_eventsCount s - 1) s1)) as Hupd.
  { intros s1 Hu Hlive. pose proof Hu as (U1 & U2 & U3 & U4 & U5).
    assert (upd l k [] s (set_count (_eventsCount s - 1) s1)) as Hu' by (by apply (upd_ext _ _ _ _ _ _ Hu)).
    apply minus_of.
    - apply (upd_less _ _ _ _ _ Hu'); [|apply sublist_nil_l]. unfold counted. cbn. rewrite U2, El.
      change (tbl (set_count _ s1) l) with (tbl s1 l). split; lia.
    - intros k'. rewrite (upd_view _ _ _ _ _ k' Hu' El). destruct (decide _) as [<-|]; [|done]. by rewrite Hr. }
  destruct (kShapeMode s); [|destruct (_ =? 0) eqn:Hz; bool_hyps].
  - apply Hupd; [by apply (upd_put_slot s l k SUndef)|]. rewrite tbl_put, decide_True by done.
    rewrite live_tset, Hk, (defined_true (SFn g)) by done. change (defined SUndef) with 0. lia.
  - rewrite Hz. destruct (fresh_less s Hh) as [Hless Hnil]. apply minus_of; [done|].
    intros k'. rewrite Hnil. destruct (decide _) as [<-|Hne]; [by rewrite Hr|].
    rewrite (view_tview s l) by done. unfold tview.
    assert (live (tdel (tbl s l) k) = 0) as Hlz by (rewrite live_tdel, Hk, defined_true by done; lia).
    pose proof (live_zero _ k' Hlz) as Hu. rewrite tget_tdel, decide_False in Hu by (done || by apply wh_keys).
    by rewrite Hu.
  - apply Hupd; [by apply upd_del|]. rewrite tbl_del, decide_True by done.
    by rewrite live_tdel, Hk, defined_true by done.
Qed.

(** The branch for an array: one that is left alone takes the array's place. *)
Lemma minus_array s l k a f i :
  wf s -> _events s = Some l -> tget (tbl s l) k = SArr a ->
  find_last f (items (arr s a)) (length (items (arr s a))) = Some i ->
  let fs := remove_at (items (arr s a)) i in
  let s1 := put_arr a (LArr fs (warned (arr s a))) s in
  minus k f s (match fs with [g] => put_slot l k (SFn g) s1 | _ => s1 end).
Proof.
  intros Hwf El Hk Hi fs s1. destruct (id Hwf) as [Hh Hc]. unfold counted in Hc. rewrite El in Hc.
  destruct Hc as [Hl Hc]. pose proof (find_last_lt _ _ _ _ Hi) as Hlt.
  destruct (wh_arr _ Hh _ _ _ Hk) as [_ Hlen].
  assert (tview s l k = items (arr s a)) as Ht by (unfold tview; by rewrite Hk).
  assert (fs = remove_last f (tview s l k)) as Hfs
    by (unfold remove_last; rewrite Ht, Hi; by apply remove_at_delete).
  assert (length fs = (length (items (arr s a)) - 1)%nat) as Hn by (by apply length_remove_at).
  assert (forall s', upd l k fs s s' -> counted s' -> minus k f s s') as Hm.
  { intros s' Hu Hc'. apply minus_of.
    - apply (upd_less _ _ _ _ _ Hu Hc'). rewrite Hfs. apply remove_last_sublist.
    - intros k'. rewrite (upd_view _ _ _ _ _ k' Hu El). destruct (decide _) as [<-|]; [|done].
      by rewrite (view_tview s l). }
  assert ((2 <= length fs)%nat -> minus k f s s1) as Hlong.
  { intros H2. apply Hm; [by apply (upd_arr s l k a (LArr fs (warned (arr s a))))|].
    unfold counted. cbn. by rewrite El. }
  destruct fs as [|g [|g' fs']] eqn:Hd; [cbn in Hn; lia| |apply Hlong; cbn; lia].
  apply Hm.
  - by apply upd_collapse.
  - apply (counted_put s l k (SFn g) (_eventsCount s)); try done.
    + rewrite Hk, !defined_true by done. lia.
    + rewrite tbl_put. by rewrite decide_True.
Qed.

Lemma minus_none s k f :
  wf s -> remove_last f (view s k) = view s k -> minus k f s s.
Proof.
  intros Hwf Hr. apply minus_of; [by apply less_refl|]. intros k'.
  destruct (decide _) as [<-|]; [|done]. by rewrite Hr.
Qed.

Lemma removeListener_wp d k f (Q : res unit -> state -> Prop) s :
  wf s ->
  (forall s', minus k f s s' -> Q (Ret tt) s') ->
  (forall s' args, minus k f s s' -> view s' key_removeListener <> [] ->
     wpd div (rec d (REmit key_removeListener args)) (fun r s' => Q (to_unit r) s') s') ->
  wpd div (removeListener rec d k (Some f)) Q s.
Proof.
  intros Hwf H1 H2. unfold removeListener. apply wp_bind. cbn.
  destruct (_events s) as [l|] eqn:El.
  2:{ apply H1, minus_none; [done|]. by rewrite view_none. }
  destruct (tget (tbl s l) k) as [|g|a] eqn:Hk.
  - apply H1, minus_none; [done|]. rewrite (view_tview s l) by done. unfold tview. by rewrite Hk.
  - destruct (matches f g) eqn:Hm.
    + pose proof (minus_single s l k f g _ Hwf El Hk Hm eq_refl) as Hmin.
      apply wp_bind. cbn. destruct (kShapeMode s); [by apply H1|].
      destruct (_ =? 0); [by apply H1|].
      apply wp_bind. cbn. apply wp_bind. cbn.
      case_bool_decide; [by apply H1|]. apply wp_discard. apply H2; [done|].
      rewrite (view_tview _ l) by done. apply slot_list_defined; [apply Hmin|done].
    + apply H1, minus_none; [done|]. rewrite (view_tview s l) by done. unfold tview. rewrite Hk.
      unfold remove_last. cbn [slot_list length]. by rewrite find_last_singleton, Hm.
  - destruct (find_last f _ _) as [i|] eqn:Hi.
    + pose proof (minus_array s l k a f i Hwf El Hk Hi) as Hmin. cbn zeta in Hmin.
      assert (forall s', minus k f s s' -> _events s' = Some l ->
        wpd div (s <- gets id;; if bool_decide (tget (tbl s l) key_removeListener = SUndef) then ret tt
              else emit_at rec d key_removeListener [AKey k; AFn f];; ret tt) Q s') as Htail.
      { intros s' Hs' El'. apply wp_bind. cbn. case_bool_decide; [by apply H1|]. apply wp_discard.
        apply H2; [done|]. rewrite (view_tview _ l) by done. apply slot_list_defined; [apply Hs'|done]. }
      apply wp_bind. cbn. apply wp_bind.
      destruct (remove_at _ _) as [|g [|g' fs]]; by apply Htail.
    + apply H1, minus_none; [done|]. rewrite (view_tview s l) by done. unfold tview. rewrite Hk.
      unfold remove_last. cbn [slot_list]. by rewrite Hi.
Qed.

(** [removeAllListeners(type)] without a listener of ['removeListener']. *)
Definition clears (k : key) (s s' : state) : Prop :=
  less s s' /\ forall k', view s' k' = if decide (k = k') then [] else view s k'.

Lemma clears_one s l k :
  wf s -> _events s = Some l -> tget (tbl s l) k <> SUndef ->
  clears k s (set_shape false (set_count (_eventsCount s - 1)
    (if _eventsCount s - 1 =? 0 then fresh_events s else del_slot l k s))).
Proof.
  intros Hwf El Hk. destruct (id Hwf) as [Hh Hc]. unfold counted in Hc. rewrite El in Hc.
  destruct Hc as [Hl Hc].
  set (s1 := set_count _ _).
  assert (clears k s s1) as [Hless Hv].
  { unfold s1. destruct (_ =? 0) eqn:Hz; bool_hyps.
    - rewrite Hz. destruct (fresh_less s Hh) as [Hless Hnil]. split; [done|].
      intros k'. rewrite Hnil. destruct (decide _) as [<-|Hne]; [done|].
      rewrite (view_tview s l) by done. unfold tview.
      assert (live (tdel (tbl s l) k) = 0) as Hlz by (rewrite live_tdel, defined_true by done; lia).
      pose proof (live_zero _ k' Hlz) as Hu.
      rewrite tget_tdel, decide_False in Hu by (done || by apply wh_keys). by rewrite Hu.
    - pose proof (upd_del s l k Hh Hl) as Hu0.
      assert (upd l k [] s (set_count (_eventsCount s - 1) (del_slot l k s))) as Hu
        by (by apply (upd_ext _ _ _ _ _ _ Hu0)).
      split.
      + apply (upd_less _ _ _ _ _ Hu); [|apply sublist_nil_l]. unfold counted. cbn. rewrite El.
        change (tbl (set_count _ ?s2) l) with (tbl s2 l). rewrite tbl_del, decide_True by done.
        rewrite live_tdel, defined_true by done. split; [done|lia].
      + intros k'. by rewrite (upd_view _ _ _ _ _ k' Hu El). }
  split; [|intros k'; exact (Hv k')].
  eapply less_trans; [exact Hless|]. apply less_fields; try done. apply Hless.
Qed.
End Methods.

(** ** Lifting a property of the state to programs *)

(** The state objects of the wrappers in a function are among [W]. *)
Fixpoint older (W : list (key * fn)) (f : fn) : Prop :=
  match f with User _ => True | Wrap w k l => W !! w = Some (k, l) /\ older W l end.

Lemma older_mono W W' f : W `prefix_of` W' -> older W f -> older W' f.
Proof. intros H. induction f; cbn; [done|]. intros [? ?]. split; [by eapply prefix_lookup_Some|auto]. Qed.

(** The functions a program passes to [on] and [once] satisfy [U]. *)
Section Plain.
Context (U : fn -> Prop).
Fixpoint plain (b : body) : Prop :=
  match b with
  | Return _ | Fail _ => True
  | On _ _ f k | Once _ _ f k =>
      match f with Some f => U f | None => True end /\ forall r, plain (k r)
  | Off _ _ k => forall r, plain (k r)
  | Emit _ _ k => forall r, plain (k r)
  | RemoveAll _ k => forall r, plain (k r)
  | SetMax _ k => forall r, plain (k r)
  | RawListeners _ k => forall l, plain (k l)
  end.
End Plain.

Lemma plain_all (U : fn -> Prop) b : (forall f, U f) -> plain U b.
Proof.
  intros HU. induction b; cbn; auto; (split; [|auto]); by destruct f.
Qed.

Section Lift.
Context (code : positive -> list arg -> body) (on_warning : key -> Z -> body).
Context (rec : nat -> req -> M bool).
(** [old W f]: the state objects of [f] are among [W]; [I]: the property; [G k f]:
    [f] may be added to [k]; [ok f]: [f] may be applied; [T l]: a table programs
    see; [D]: the depth they run at. *)
Context (old : list (key * fn) -> fn -> Prop).
Context (I : state -> Prop) (G : key -> fn -> state -> Prop) (U ok : fn -> Prop)
        (T : positive -> Prop) (D : nat).

Definition inv (W : list (key * fn)) (s : state) : Prop := wf s /\ I s /\ W `prefix_of` onceStates s.

Context (I_less : forall s s', wf s -> I s -> less s s' -> I s').
Context (I_plus : forall k f p s s', wf s -> I s -> G k f s -> plus k f p s s' -> I s').
Context (G_less : forall k f s s', wf s -> I s -> G k f s -> less s s' -> G k f s').
Context (I_rec : forall W d q, (D <= d)%nat -> keeps (inv W) (rec d q)).
Context (G_rec : forall W k f d args, (D <= d)%nat ->
           keeps (fun s => inv W s /\ G k f s) (rec d (REmit key_newListener args))).
Context (U_G : forall k f s, U f -> I s -> G k f s).
Context (I_wrap : forall k f s, wf s -> U f -> I s ->
           let s' := add_onceState (k, f) s in
           I s' /\ G k (Wrap (length (onceStates s)) k f) s').
Context (I_log : forall d f args s, (D <= d)%nat -> I s -> I (log (Call d f args) s)).
Context (I_fire : forall W d k w f s, (D <= d)%nat -> inv W s -> w ∉ fired s -> ok (Wrap w k f) ->
           old W (Wrap w k f) ->
           wp (removeListener rec d k (Some (Wrap w k f)))
             (fun r s' => match r with Ret _ => inv W (set_fired w s') | Raise _ => inv W s' end) s).
Context (T_cur : forall s l, I s -> _events s = Some l -> T l).
Context (T_ok : forall s l k f, wf s -> I s -> T l -> f ∈ tview s l k -> ok f /\ old (onceStates s) f).
Context (ok_inner : forall w k f, ok (Wrap w k f) -> ok f).
Context (old_inner : forall W w k f, old W (Wrap w k f) -> old W f).
Context (code_plain : forall f args, plain U (code f args)).
Context (warning_plain : forall k n, plain U (on_warning k n)).

Lemma inv_less W s s' : inv W s -> less s s' -> inv W s'.
Proof.
  intros (H1 & H2 & H3) Hl. split_and!; [apply Hl|by eapply I_less|].
  destruct Hl as (_ & (_ & -> & _) & _). done.
Qed.

Lemma inv_plus W k f p s s' : inv W s -> G k f s -> plus k f p s s' -> inv W s'.
Proof.
  intros (H1 & H2 & H3) HG Hp. split_and!; [apply Hp|by eapply I_plus|].
  destruct Hp as (_ & (_ & -> & _) & _). done.
Qed.

(** A change of other fields. *)
Lemma inv_fields W s s' :
  inv W s -> tables s' = tables s -> arrays s' = arrays s -> nextLoc s' = nextLoc s ->
  _events s' = _events s -> _eventsCount s' = _eventsCount s -> frame s s' -> inv W s'.
Proof. intros H. intros. eapply inv_less; [exact H|]. apply less_fields; try done. apply H. Qed.

Lemma wp_rec W d q (Q : res bool -> state -> Prop) s :
  (D <= d)%nat -> inv W s -> (forall r s', inv W s' -> Q r s') -> wp (rec d q) Q s.
Proof. intros Hd Hs HQ. eapply wp_mono; [by apply (I_rec W)|]. auto. Qed.

Lemma add_inv W d k f p s :
  (D <= d)%nat -> inv W s -> G k f s -> wp (_addListener rec d k (Some f) p) (fun _ s' => inv W s') s.
Proof.
  intros Hd Hs HG.
  assert (forall s1, inv W s1 -> G k f s1 -> add_post True rec d k f p (fun _ s' => inv W s') s1) as Hadd.
  { intros s1 H1 HG1. split.
    - intros s' Hp. by eapply inv_plus.
    - intros s' n Hp. apply (wp_rec W); [done|by eapply inv_plus|done]. }
  apply addListener_wp; [apply Hs| |].
  - intros s' Hl _. apply Hadd; [by eapply inv_less|]. eapply G_less; [..|exact Hl]; [apply Hs..|done].
  - intros args _. eapply wp_mono; [apply (G_rec W k f); [done|by split]|].
    intros [b|x] s' [H1 H2]; [|done]. split_and!; [apply H1|by apply Hadd|done].
Qed.

Lemma addListener_keeps W d k f p :
  (D <= d)%nat -> match f with Some f => U f | None => True end -> keeps (inv W) (_addListener rec d k f p).
Proof.
  intros Hd HU s Hs. destruct f as [f|]; [|done]. apply add_inv; [done..|]. apply U_G; [done|apply Hs].
Qed.

Lemma once_keeps W d k f p :
  (D <= d)%nat -> match f with Some f => U f | None => True end -> keeps (inv W) (once rec d k f p).
Proof.
  intros Hd HU s Hs. destruct f as [f|]; [|done]. unfold once. apply wp_bind. cbn. apply wp_bind. cbn.
  destruct Hs as (Hwf & HI & HW). destruct (I_wrap k f s Hwf HU HI) as [H1 H2].
  apply (add_inv W d k (Wrap (length (onceStates s)) k f) p); [done| |done]. split_and!; [|done|cbn; by apply prefix_app_r].
  destruct Hwf as [Hh Hc]. split; [by apply (wfh_ext s)|done].
Qed.

Lemma removeListener_keeps W d k f : (D <= d)%nat -> keeps (inv W) (removeListener rec d k f).
Proof.
  intros Hd s Hs. destruct f as [f|]; [|done]. apply removeListener_wp; [apply Hs| |].
  - intros s' [Hl _]. by eapply inv_less.
  - intros s' args [Hl _] _. apply (wp_rec W); [done|by eapply inv_less|done].
Qed.

Lemma remove_down_keeps W d k a i : (D <= d)%nat -> keeps (inv W) (remove_down rec d k a i).
Proof.
  intros Hd. induction i as [|i IH]; cbn [remove_down]; [apply keeps_ret|].
  apply keeps_gets. intros s Hs. apply wp_bind.
  eapply wp_mono; [by apply (removeListener_keeps W)|]. intros [u|x] s' Hs'; [by apply IH|done].
Qed.

Lemma removeAll_type_keeps W d k : (D <= d)%nat -> keeps (inv W) (removeAll_type rec d k).
Proof.
  intros Hd. unfold removeAll_type. apply keeps_gets. intros s Hs. cbn.
  destruct (_events s) as [l|] eqn:El; [|done]. case_bool_decide.
  - apply wp_bind. case_bool_decide; [cbn; by apply (inv_fields W s)|].
    pose proof (clears_one s l k ltac:(apply Hs) El ltac:(done)) as [Hl _].
    apply wp_bind. cbn. by destruct (_ =? 0); cbn; eapply inv_less.
  - destruct (tget (tbl s l) k); [done|by apply (removeListener_keeps W)|by apply (remove_down_keeps W)].
Qed.

Lemma each_key_keeps W d ks : (D <= d)%nat -> keeps (inv W) (each_key rec d ks).
Proof.
  intros Hd. induction ks as [|k ks IH]; cbn [each_key]; [apply keeps_ret|].
  apply keeps_bind; [|done]. case_bool_decide; [apply keeps_ret|by apply removeAll_type_keeps].
Qed.

Lemma removeAll_keeps W d k : (D <= d)%nat -> keeps (inv W) (removeAllListeners rec d k).
Proof.
  intros Hd. destruct k as [k|]; [by apply removeAll_type_keeps|].
  cbn [removeAllListeners]. unfold removeAll_all. apply keeps_gets. intros s Hs. cbn.
  destruct (_events s) as [l|] eqn:El; [|done]. apply wp_bind.
  assert (forall s, inv W s ->
    wp (modify fresh_events;; modify (set_count 0);; modify (set_shape false)) (fun _ s' => inv W s') s) as Ht.
  { intros s1 H1. cbn. destruct (fresh_less s1) as [Hl _]; [apply H1|].
    eapply inv_fields; [eapply inv_less; [exact H1|exact Hl]|done..|by split_and!]. }
  case_bool_decide; [by apply Ht|]. apply wp_bind.
  eapply wp_mono; [by apply (each_key_keeps W)|]. intros [u|x] s1 H1; [|done].
  eapply wp_mono; [by apply (removeAll_type_keeps W)|]. intros [u'|x] s2 H2; [by apply Ht|done].
Qed.

Lemma program_keeps W d b : (D <= d)%nat -> plain U b -> keeps (inv W) (exec rec d b).
Proof.
  intros Hd. induction b; cbn [plain exec]; intros Hp.
  - apply keeps_ret.
  - apply keeps_raise.
  - destruct Hp. apply keeps_attempt; [by apply addListener_keeps|auto].
  - destruct Hp. apply keeps_attempt; [by apply once_keeps|auto].
  - apply keeps_attempt; [by apply removeListener_keeps|auto].
  - apply keeps_attempt; [by apply I_rec|auto].
  - apply keeps_attempt; [by apply removeAll_keeps|auto].
  - apply keeps_attempt; [|auto]. unfold setMaxListeners. destruct (validate_min0 n); [|apply keeps_raise].
    apply keeps_modify. intros s Hs. by apply (inv_fields W s).
  - apply keeps_gets. intros s Hs. by apply H.
Qed.

Lemma apply_keeps W f : forall d args,
  (D <= d)%nat -> ok f -> old W f -> keeps (inv W) (apply code rec d f args).
Proof.
  induction f as [c|w k f IH]; intros d args Hd Hok Hold; cbn [apply]; apply keeps_bind.
  1,3: apply keeps_modify; intros s (H1 & H2 & H3); split_and!; [|by apply I_log|done];
    destruct H1 as [Hh Hc]; split; [by apply (wfh_ext s)|done].
  - intros _. apply program_keeps; [lia|done].
  - intros _. apply keeps_gets. intros s Hs. cbn [id]. case_bool_decide; [done|]. apply wp_bind.
    eapply wp_mono; [apply (I_fire W (S d) k w f); [lia|done..]|]. cbn.
    intros [u|x] s' Hs'; [|done]. apply wp_bind. cbn. apply IH; [lia|by eapply ok_inner|by eapply old_inner|done].
Qed.

Lemma addCatch_keeps W d r k args : (D <= S d)%nat -> keeps (inv W) (addCatch rec d r k args).
Proof.
  intros Hd. unfold addCatch. apply keeps_gets. intros s Hs. cbn [id].
  destruct (kCapture s); cbn [negb]; [|done]. destruct r; [done|done| |].
  - cbn. by apply (inv_fields W s).
  - apply wp_discard. apply (wp_rec W); [lia|done..].
Qed.

Lemma apply_all_keeps W d k fs args :
  (D <= d)%nat -> Forall ok fs -> Forall (old W) fs -> keeps (inv W) (apply_all code rec d k fs args).
Proof.
  intros Hd. induction fs as [|f fs IH]; intros H1 H2; cbn [apply_all]; [apply keeps_ret|].
  apply Forall_cons in H1 as [? ?], H2 as [? ?].
  apply keeps_bind; [by apply apply_keeps|]. intros r.
  apply keeps_bind; [apply addCatch_keeps; lia|]. auto.
Qed.

Lemma throw_unhandled_same args s : exists r, throw_unhandled args s = Some (s, r).
Proof. unfold throw_unhandled. destruct (is_error _); by eexists. Qed.

Lemma wp_unhandled (P : state -> Prop) args s : P s -> wp (throw_unhandled args) (fun _ s' => P s') s.
Proof. intros H. unfold wpd. by destruct (throw_unhandled_same args s) as [r ->]. Qed.

(** The part of [emit] after the error monitor. *)
Lemma emit_tail W d k args l s :
  (D <= d)%nat -> inv W s -> T l ->
  wp (match tget (tbl s l) k with
      | SUndef => ret false
      | v => apply_all code rec d k (slot_list s v) args;; ret true
      end) (fun _ s' => inv W s') s.
Proof.
  intros Hd Hs HT. destruct Hs as (H1 & H2 & H3).
  assert (wp (apply_all code rec d k (tview s l k) args;; ret true) (fun _ s' => inv W s') s) as Hrun.
  { apply wp_bind. eapply wp_mono.
    - apply (apply_all_keeps (onceStates s) d k (tview s l k) args); [done| | |by split_and!].
      all: apply Forall_forall; intros f Hf; by destruct (T_ok s l k f H1 H2 HT Hf).
    - intros [u|x] s' (? & ? & ?); cbn; split_and!; (done || by etrans). }
  unfold tview in Hrun. by destruct (tget (tbl s l) k).
Qed.

Lemma emit_with_keeps W d k args : (D <= d)%nat -> keeps (inv W) (emit_with code rec d k args).
Proof.
  intros Hd. unfold emit_with. apply keeps_gets. intros s Hs. cbn [id].
  destruct (_events s) as [l|] eqn:El.
  - apply wp_bind.
    assert (forall s1, inv W s1 ->
      wp (s0 <- gets id;;
          if bool_decide (k = key_error) && bool_decide (tget (tbl s0 l) key_error = SUndef)
          then throw_unhandled args
          else match tget (tbl s0 l) k with
               | SUndef => ret false
               | v => apply_all code rec d k (slot_list s0 v) args;; ret true
               end) (fun _ s' => inv W s') s1) as Htail.
    { intros s1 H1. apply wp_bind. cbn. destruct (_ && _); [by apply wp_unhandled|].
      apply emit_tail; [done|done|]. by eapply T_cur; [apply Hs|]. }
    destruct (_ && _); [|by apply Htail]. apply wp_discard.
    apply (wp_rec W); [lia|done|]. intros [b|x] s1 H1; [by apply Htail|done].
  - destruct (bool_decide _); [by apply wp_unhandled|done].
Qed.

Lemma handle_keeps W d q : (D <= d)%nat -> keeps (inv W) (handle code on_warning rec d q).
Proof.
  intros Hd. destruct q as [k args|k n]; cbn [handle]; [by apply emit_with_keeps|].
  apply keeps_bind; [by apply program_keeps|]. intros r. apply keeps_ret.
Qed.
End Lift.

(** ** Properties that every function may be added to and applied in *)

Section Passive.
Context (code : positive -> list arg -> body) (on_warning : key -> Z -> body).
Context (I : state -> Prop) (D : nat).
Context (I_less : forall s s', wf s -> I s -> less s s' -> I s').
Context (I_plus : forall k f p s s', wf s -> I s -> plus k f p s s' -> I s').
Context (I_wrap : forall s p, I s -> I (add_onceState p s)).
Context (I_log : forall d f args s, (D <= d)%nat -> I s -> I (log (Call d f args) s)).
Context (I_fired : forall s w, I s -> I (set_fired w s)).

Lemma wf_set_fired w s : wf s -> wf (set_fired w s).
Proof. intros [Hh Hc]. split; [by apply (wfh_ext s)|done]. Qed.

Lemma fire_passive (rec : nat -> req -> M bool) W d k w f s :
  (forall W d q, (D <= d)%nat -> keeps (inv I W) (rec d q)) ->
  (D <= d)%nat -> inv I W s ->
  wp (removeListener rec d k (Some (Wrap w k f)))
    (fun r s' => match r with Ret _ => inv I W (set_fired w s') | Raise _ => inv I W s' end) s.
Proof.
  intros Hrec Hd Hs.
  eapply wp_mono; [by apply (removeListener_keeps rec I D I_less Hrec W d k (Some (Wrap w k f)))|].
  intros [u|x] s' (H1 & H2 & H3); split_and!; auto using wf_set_fired.
Qed.

#[local] Ltac passive Hrec :=
  eapply (fun old => handle_keeps _ _ _ old I (fun _ _ _ => True) (fun _ => True) (fun _ => True)
            (fun _ => True)) with (old := fun _ _ => True);
  try done; auto using plain_all; eauto using fire_passive;
  try (intros; intros s (H1 & _); eapply wp_mono; [by apply Hrec|]; by intros).

Lemma handle_passive (rec : nat -> req -> M bool) :
  (forall W d q, (D <= d)%nat -> keeps (inv I W) (rec d q)) ->
  forall W d q, (D <= d)%nat -> keeps (inv I W) (handle code on_warning rec d q).
Proof. intros Hrec W d q Hd. passive Hrec. Qed.

Lemma dispatch_passive fuel W d q :
  (D <= d)%nat -> keeps (inv I W) (dispatch code on_warning fuel d q).
Proof.
  revert W d q. induction fuel as [|fuel IH]; intros W d q Hd; [by intros s _|].
  cbn [dispatch]. by apply handle_passive.
Qed.

Lemma exec_passive fuel W d b :
  (D <= d)%nat -> keeps (inv I W) (exec (dispatch code on_warning fuel) d b).
Proof.
  intros Hd.
  eapply (program_keeps (dispatch code on_warning fuel) I (fun _ _ _ => True) (fun _ => True));
    try done; auto using plain_all, dispatch_passive.
  - eauto.
  - intros W0 k f d0 args Hd0 s [H1 _]. eapply wp_mono; [by apply (dispatch_passive fuel W0)|]. by intros.
  - cbn. auto.
Qed.

Lemma removeListener_passive fuel W d k f :
  (D <= d)%nat -> keeps (inv I W) (removeListener (dispatch code on_warning fuel) d k f).
Proof. intros Hd. eapply removeListener_keeps; eauto using dispatch_passive. Qed.

Lemma apply_passive fuel W d f args :
  (D <= d)%nat -> keeps (inv I W) (apply code (dispatch code on_warning fuel) d f args).
Proof.
  intros Hd.
  eapply (apply_keeps code (dispatch code on_warning fuel) (fun _ _ => True) I (fun _ _ _ => True)
            (fun _ => True) (fun _ => True)); try done; eauto using plain_all, dispatch_passive.
  - intros W0 k f0 d0 args0 Hd0 s [H1 _]. eapply wp_mono; [by apply (dispatch_passive fuel W0)|]. by intros.
  - intros. apply fire_passive; auto using dispatch_passive.
Qed.
End Passive.
