(* ===== verification/EventsClaims.v ===== *)
(** * [EventEmitter]: theorems

    The invariant of the state under any program; the methods that move
    listeners implement a map from events to lists of functions; [emit] calls
    the listeners present when it starts, in order; a listener added with
    [once] is applied at most once; the listener limit is reported once; and
    four behaviours that differ from what the methods promise. *)

From Stdlib Require Import QArith.
From S2P Require Import Prelude JsString JsNumber Events EventsFacts EventsOps.
Import Events.
#[local] Open Scope Z_scope.
#[local] Open Scope ee_scope.
#[local] Arguments view : simpl never.
#[local] Arguments _addListener : simpl never.
#[local] Arguments removeListener : simpl never.
#[local] Arguments removeAllListeners : simpl never.

(** ** The invariant *)

(** The table a subclass may prepare: distinct names, no listener yet. *)
Definition shape (own : option (list (key * option fn))) : Prop :=
  match own with None => True | Some t => NoDup t.*1 /\ Forall (fun p => p.2 = None) t end.

(** What the constructor leaves: a table without listeners. *)
Lemma init_tables own max opts proto dflt s :
  shape own -> init own max opts proto dflt = Ret s ->
  (nextLoc s = 2%positive /\ _events s = Some 1%positive /\ _eventsCount s = 0 /\
   onces s = [] /\ fired s = ∅) /\
  exists t, NoDup t.*1 /\ live t = 0 /\ (forall l, tbl s l = if decide (l = 1%positive) then t else []).
Proof.
  intros Hs Hi. split.
  { unfold init in Hi. destruct (truthy opts); [destruct opts; try done|]; by injection Hi as <-. }
  set (to := fun p : key * option fn => (p.1, match p.2 with Some f => SFn f | None => SUndef end)).
  set (t := match own with None => [] | Some t => to <$> t end). exists t.
  assert (NoDup t.*1 /\ Forall (fun p => p.2 = SUndef) t) as [Hn Hf].
  { unfold t. destruct own as [o|]; [|split; constructor]. destruct Hs as [H1 H2]. split.
    - rewrite <- list_fmap_compose. exact H1.
    - apply Forall_fmap. eapply Forall_impl; [exact H2|]. intros [k v] Hv. cbn in *. by rewrite Hv. }
  assert (tables s = {[1%positive := t]}) as E.
  { unfold init in Hi. destruct (truthy opts); [destruct opts; try done|]; by injection Hi as <-. }
  split_and!; [done| |].
  - clear -Hf. induction t as [|[k' v] t IH]; [done|]. apply Forall_cons in Hf as [Hv Hf].
    cbn in *. rewrite Hv. change (defined SUndef) with 0. by rewrite IH.
  - intros l. unfold tbl. rewrite E. destruct (decide _) as [->|]; [by rewrite lookup_singleton_eq|].
    by rewrite lookup_singleton_ne by done.
Qed.

Lemma init_empty own max opts proto dflt s l k :
  shape own -> init own max opts proto dflt = Ret s -> tget (tbl s l) k = SUndef.
Proof.
  intros Hs Hi. destruct (init_tables _ _ _ _ _ _ Hs Hi) as (_ & t & _ & Hl & Ht).
  rewrite Ht. destruct (decide _); [by apply live_zero|done].
Qed.

Lemma init_wf own max opts proto dflt s :
  shape own -> init own max opts proto dflt = Ret s -> wf s.
Proof.
  intros Hs Hi. destruct (init_tables _ _ _ _ _ _ Hs Hi) as ((E2 & E3 & E4 & _) & t & Hn & Hlive & Ht).
  pose proof (fun l k => init_empty _ _ _ _ _ s l k Hs Hi) as Hget.
  split; [split|].
  - intros l. rewrite Ht. destruct (decide _); [done|constructor].
  - intros l Hl. rewrite E2 in Hl. rewrite Ht, decide_False; [done|lia].
  - intros l k a. by rewrite Hget.
  - intros l k l' k' a. by rewrite Hget.
  - unfold counted. rewrite E3, E2, E4, Ht, decide_True by done. split; [lia|done].
Qed.

Lemma main_wf code on_warning fuel b s s' r :
  wf s -> main code on_warning fuel b s = Some (s', r) -> wf s'.
Proof.
  intros Hs H.
  eapply (wp_run _ (fun _ s' => inv (fun _ => True) [] s')) in H; [apply H|].
  apply (exec_passive code on_warning (fun _ => True) 0); try done. split_and!; [done..|apply prefix_nil].
Qed.

(** ** A concrete emitter *)

(** The state the constructor makes, for a subclass with the names [own]. *)
Definition made (own : option (list (key * option fn))) : state :=
  match init own None VUndefined false (int 10) with
  | Ret s => s
  | Raise _ => State ∅ ∅ 1 None 0 false false None NaN ∅ [] [] [] [] []
  end.
Definition ev : key := KStr "x".
Definition ex_code (f : positive) (_ : list arg) : body :=
  match f with
  | 4%positive => Off ev (Some (User 2)) (fun _ => Emit ev [] (fun _ => Return RNone))
  | 9%positive => Off ev (Some (User 1)) (fun _ => Return RNone)
  | _ => Return RNone
  end.
Definition ex_warning (_ : key) (_ : Z) : body := Return RNone.

(** A listener that removes another and emits again, and one added with
    [once]. *)
Definition ex_prog : body :=
  Once false ev (Some (User 4)) (fun _ => On false ev (Some (User 2)) (fun _ =>
  On true ev (Some (User 3)) (fun _ => Emit ev [AVal VNull] (fun _ => Return RNone)))).
Definition ran (m : option (state * res retval)) : state :=
  match m with Some (s, _) => s | None => made None end.

Lemma made_wf own : shape own -> wf (made own).
Proof. intros H. eapply (init_wf own None VUndefined false (int 10)); done. Qed.

(** C11. For every program of calls to the emitter's methods, whatever its
    listeners do and throw, starting from the constructor (with or without the
    table of event names a subclass prepares): each key has one slot,
    [_eventsCount] is the number of keys that have a listener, an array of
    listeners holds at least two, and no two keys share an array. *)
Theorem ee_invariant code on_warning fuel b own max opts proto dflt s s' r :
  shape own -> init own max opts proto dflt = Ret s ->
  main code on_warning fuel b s = Some (s', r) -> wf s'.
Proof. intros Hs Hi. apply main_wf. by eapply init_wf. Qed.

Lemma ee_invariant_witness : wf (ran (main ex_code ex_warning 5 ex_prog (made None))).
Proof.
  apply (ee_invariant ex_code ex_warning 5 ex_prog None None VUndefined false (int 10) (made None) _ (Ret RNone)).
  - exact I.
  - reflexivity.
  - vm_compute. reflexivity.
Defined.

(** ** A map from events to lists *)

Inductive op :=
  | OAdd (prepend : bool) (k : key) (f : fn)
  | ORemove (k : key) (f : fn)
  | OClear (k : option key).

(** The reference: drop the last function that is [f] or wraps it. *)
Fixpoint drop_last_match (f : fn) (fs : list fn) : list fn :=
  match fs with
  | [] => []
  | x :: fs => if existsb (matches f) fs then x :: drop_last_match f fs
               else if matches f x then fs else x :: fs
  end.

Definition spec_op (o : op) (m : key -> list fn) (k' : key) : list fn :=
  match o with
  | OAdd p k f => if decide (k = k') then added p f (m k') else m k'
  | ORemove k f => if decide (k = k') then drop_last_match f (m k') else m k'
  | OClear (Some k) => if decide (k = k') then [] else m k'
  | OClear None => []
  end.

Fixpoint script (ops : list op) : body :=
  match ops with
  | [] => Return RNone
  | OAdd p k f :: ops => On p k (Some f) (fun _ => script ops)
  | ORemove k f :: ops => Off k (Some f) (fun _ => script ops)
  | OClear k :: ops => RemoveAll k (fun _ => script ops)
  end.

(** No listener is told about additions and removals. *)
Definition unobserved (s : state) : Prop := view s key_newListener = [] /\ view s key_removeListener = [].
Definition op_key (o : op) : option key :=
  match o with OAdd _ k _ | ORemove k _ => Some k | OClear k => k end.
Definition ordinary (o : op) : Prop :=
  op_key o <> Some key_newListener /\ op_key o <> Some key_removeListener.

Lemma find_last_cons f x l i :
  find_last f (x :: l) (S i) =
  match find_last f l i with Some j => Some (S j) | None => if matches f x then Some 0%nat else None end.
Proof.
  induction i as [|i IH]; [by cbn; destruct (matches f x)|].
  cbn [find_last lookup list_lookup] in *. destruct (l !! i) as [y|]; [destruct (matches f y)|]; done.
Qed.

Lemma find_last_exists f l : existsb (matches f) l = bool_decide (find_last f l (length l) <> None).
Proof.
  induction l as [|x l IH]; [done|]. cbn [existsb length]. rewrite find_last_cons, IH.
  destruct (find_last f l (length l)); cbn; [by rewrite orb_true_r|]. by destruct (matches f x).
Qed.

Lemma remove_last_spec f fs : remove_last f fs = drop_last_match f fs.
Proof.
  induction fs as [|x fs IH]; [done|]. unfold remove_last in *. cbn [length drop_last_match].
  rewrite find_last_cons, find_last_exists. rewrite <- IH.
  destruct (find_last f fs (length fs)); cbn; [done|]. by destruct (matches f x).
Qed.

Section Scripts.
Context (code : positive -> list arg -> body) (on_warning : key -> Z -> body) (fuel : nat).
Context (silent : forall k n, on_warning k n = Return RNone).
#[local] Abbreviation rec := (dispatch code on_warning (S fuel)).

(** The state after an operation: the lists are those of the reference. *)
Definition after (o : op) (s s' : state) : Prop :=
  wf s' /\ frame s s' /\ unobserved s' /\ forall k, view s' k = spec_op o (view s) k.

Lemma warn_silent d k n (Q : res bool -> state -> Prop) s :
  Q (Ret true) s -> wpd False (rec d (RWarn k n)) Q s.
Proof. intros H. unfold wpd. cbn. by rewrite silent. Qed.

Lemma after_less o s s' :
  ordinary o -> unobserved s -> less s s' -> (forall k, view s' k = spec_op o (view s) k) -> after o s s'.
Proof.
  intros [O1 O2] [U1 U2] Hl Hv. pose proof Hl as (H1 & H2 & _). split_and!; [done..| |done].
  split; rewrite Hv; destruct o as [p k f|k f|[k|]]; cbn in *; rewrite ?decide_False by congruence; done.
Qed.

Lemma plus_view k f p s s' k' :
  plus k f p s s' -> view s' k' = spec_op (OAdd p k f) (view s) k'.
Proof.
  intros (_ & _ & _ & l & E1 & E2 & Hv). cbn. rewrite (view_tview s' l), (view_tview s l) by done.
  rewrite Hv. by rewrite decide_True.
Qed.

Lemma add_after d k f p s :
  wf s -> unobserved s -> ordinary (OAdd p k f) ->
  wpd False (_addListener rec d k (Some f) p) (fun r s' => r = Ret tt /\ after (OAdd p k f) s s') s.
Proof.
  intros Hwf Hu Ho.
  assert (forall s1 s', less s s1 -> (forall k, view s1 k = view s k) -> plus k f p s1 s' ->
            after (OAdd p k f) s s') as Ha.
  { intros s1 s' (L1 & L2 & _) Hv Hp. pose proof Hp as (P1 & P2 & _). destruct Hu as [U1 U2], Ho as [O1 O2].
    split_and!; [done|by etrans| |].
    - split; rewrite (plus_view _ _ _ _ _ _ Hp); cbn in *; rewrite decide_False by congruence; by rewrite Hv.
    - intros k'. rewrite (plus_view _ _ _ _ _ _ Hp). cbn. by rewrite Hv. }
  apply addListener_wp; [done| |].
  - intros s1 Hl Hv. split; [by eauto|]. intros s' n Hp. apply warn_silent. cbn. eauto.
  - intros args Hn. destruct Hn. apply Hu.
Qed.

Lemma remove_after d k f s :
  wf s -> unobserved s -> ordinary (ORemove k f) ->
  wpd False (removeListener rec d k (Some f)) (fun r s' => r = Ret tt /\ after (ORemove k f) s s') s.
Proof.
  intros Hwf Hu Ho.
  assert (forall s', minus k f s s' -> after (ORemove k f) s s') as Ha.
  { intros s' [Hl Hv]. apply after_less; [done..|]. intros k'. rewrite Hv. cbn. by rewrite remove_last_spec. }
  apply removeListener_wp; [done|by auto|]. intros s' args Hm Hn. destruct Hn. by apply Ha.
Qed.

Lemma unobserved_slot s l :
  wf s -> unobserved s -> _events s = Some l -> tget (tbl s l) key_removeListener = SUndef.
Proof.
  intros [Hh _] [_ Hu] El. destruct (decide (tget (tbl s l) key_removeListener = SUndef)) as [|Hn]; [done|].
  apply slot_list_defined in Hn; [|done]. by rewrite (view_tview s l) in Hu.
Qed.

Lemma less_shape s s' : less s s' -> less s (set_shape false s').
Proof. intros H. eapply less_trans; [exact H|]. apply less_fields; try done. apply H. Qed.

Lemma clear_after d k s :
  wf s -> unobserved s -> ordinary (OClear k) ->
  wpd False (removeAllListeners rec d k) (fun r s' => r = Ret tt /\ after (OClear k) s s') s.
Proof.
  intros Hwf Hu Ho. destruct k as [k|]; cbn [removeAllListeners].
  - unfold removeAll_type. apply wp_bind. cbn. destruct (_events s) as [l|] eqn:El.
    + rewrite bool_decide_eq_true_2 by (by apply unobserved_slot). apply wp_bind.
      case_bool_decide as Hk.
      * cbn. split; [done|]. apply after_less; [done..|by apply less_shape, less_refl|].
        intros k'. change (view (set_shape false s) k') with (view s k'). cbn.
        destruct (decide _) as [<-|]; [|done]. rewrite (view_tview s l) by done. unfold tview. by rewrite Hk.
      * pose proof (clears_one s l k Hwf El Hk) as [Hl Hv].
        apply wp_bind. cbn. destruct (_ =? 0); cbn; (split; [done|]); by apply after_less.
    + cbn. split; [done|]. apply after_less; [done..|by apply less_refl|]. intros k'. cbn.
      rewrite view_none by done. by destruct (decide _).
  - unfold removeAll_all. apply wp_bind. cbn. destruct (_events s) as [l|] eqn:El.
    + rewrite bool_decide_eq_true_2 by (by apply unobserved_slot). cbn.
      destruct (fresh_less s (proj1 Hwf)) as [Hl Hv]. split; [done|].
      apply after_less; [done..|by apply less_shape|]. intros k. cbn. exact (Hv k).
    + cbn. split; [done|]. apply after_less; [done..|by apply less_refl|]. intros k'. by rewrite view_none.
Qed.

(** Functions of the map give equal results on maps with equal lists. *)
Lemma spec_op_ext o m m' : (forall k, m k = m' k) -> forall k, spec_op o m k = spec_op o m' k.
Proof. intros H k. destruct o as [p k0 f|k0 f|[k0|]]; cbn; by rewrite ?H. Qed.

Lemma spec_ext ops : forall m m', (forall k, m k = m' k) ->
  forall k, foldl (flip spec_op) m ops k = foldl (flip spec_op) m' ops k.
Proof.
  induction ops as [|o ops IH]; cbn; intros m m' H; [done|]. apply IH. by apply spec_op_ext.
Qed.

Lemma script_after d ops : forall s,
  wf s -> unobserved s -> Forall ordinary ops ->
  wpd False (exec rec d (script ops))
    (fun r s' => r = Ret RNone /\ wf s' /\ frame s s' /\
                 forall k, view s' k = foldl (flip spec_op) (view s) ops k) s.
Proof.
  induction ops as [|o ops IH]; intros s Hwf Hu Ho; [by cbn|].
  apply Forall_cons in Ho as [Ho Hos].
  assert (forall r s', r = Ret tt /\ after o s s' ->
    wpd False (exec rec d (script ops))
      (fun r s' => r = Ret RNone /\ wf s' /\ frame s s' /\
                   forall k, view s' k = foldl (flip spec_op) (view s) (o :: ops) k) s') as Hk.
  { intros r s' (_ & H1 & H2 & H3 & H4). eapply wp_mono; [by apply IH|]. cbn.
    intros r2 s2 (-> & ? & ? & Hv). split_and!; [done..|by etrans|]. intros k. rewrite Hv. by apply spec_ext. }
  destruct o as [p k f|k f|k]; cbn [script exec]; apply wp_attempt.
  - eapply wp_mono; [by apply add_after|exact Hk].
  - eapply wp_mono; [by apply remove_after|exact Hk].
  - eapply wp_mono; [by apply clear_after|exact Hk].
Qed.
End Scripts.

Lemma listenerCount_view k s : listenerCount k None s = Z.of_nat (length (view s k)).
Proof.
  unfold listenerCount, view, rawListeners, _listeners. by destruct (tget (cur s) k).
Qed.

(** C12. [on], [prependListener], [removeListener] and [removeAllListeners]
    implement a map from events to lists of functions: any sequence of them on
    an emitter without listeners of [newListener] and [removeListener], for
    other events, ends normally, calls no listener of the emitter, and leaves
    for every event the list, and hence the [listenerCount], that the reference
    map has.  The listeners of process warnings, which run when the limit of
    listeners is exceeded, must do nothing. *)
Theorem ee_refines_multimap code on_warning fuel ops s :
  (forall k n, on_warning k n = Return RNone) ->
  wf s -> unobserved s -> Forall ordinary ops ->
  exists s', main code on_warning (S fuel) (script ops) s = Some (s', Ret RNone) /\
    trace s' = trace s /\
    forall k, rawListeners k s' = foldl (flip spec_op) (fun k => rawListeners k s) ops k /\
              listenerCount k None s' = Z.of_nat (length (foldl (flip spec_op) (fun k => rawListeners k s) ops k)).
Proof.
  intros Hsil Hwf Hu Ho.
  destruct (wp_total _ _ _ (script_after code on_warning fuel Hsil 0 ops s Hwf Hu Ho))
    as (s' & r & E & -> & H1 & H2 & H3).
  exists s'. split_and!; [exact E|apply H2|]. intros k. split; [exact (H3 k)|]. by rewrite listenerCount_view, H3.
Qed.

Lemma ee_refines_multimap_witness :
  exists s', main ex_code ex_warning 1
    (script [OAdd false ev (User 1); OAdd true ev (User 2); OAdd false ev (User 1); ORemove ev (User 1)])
    (made None) = Some (s', Ret RNone) /\
    rawListeners ev s' = [User 2; User 1].
Proof.
  destruct (ee_refines_multimap ex_code ex_warning 0
    [OAdd false ev (User 1); OAdd true ev (User 2); OAdd false ev (User 1); ORemove ev (User 1)] (made None))
    as (s' & H1 & _ & H2).
  - reflexivity.
  - by apply made_wf.
  - split; reflexivity.
  - repeat (apply Forall_cons; split; [split; discriminate|]). apply Forall_nil. exact I.
  - exists s'. split; [exact H1|]. destruct (H2 ev) as [H3 _]. rewrite H3. vm_compute. reflexivity.
Defined.

(** ** [emit] *)

(** Calls at least [d] deep were added to the trace. *)
Definition deeper (d : nat) (s s' : state) : Prop :=
  exists l, trace s' = trace s ++ l /\ Forall (fun c => (d <= c_depth c)%nat) l.

Lemma deeper_refl d s : deeper d s s.
Proof. exists []. by rewrite app_nil_r. Qed.

Lemma deeper_frame d s s1 s2 : frame s1 s2 -> deeper d s s1 -> deeper d s s2.
Proof. intros (_ & _ & _ & E) (l & El & Hl). exists l. by rewrite E. Qed.

Lemma deeper_snoc d s s1 c : (d <= c_depth c)%nat -> deeper d s s1 -> deeper d s (log c s1).
Proof.
  intros Hc (l & El & Hl). exists (l ++ [c]). cbn. rewrite El, app_assoc. split; [done|].
  apply Forall_app. split; [done|]. by apply Forall_singleton.
Qed.

Section Emit.
Context (code : positive -> list arg -> body) (on_warning : key -> Z -> body) (fuel : nat).
#[local] Abbreviation rec := (dispatch code on_warning fuel).

Ltac passive_deeper := auto using deeper_refl, deeper_snoc;
  try (intros; eapply deeper_frame; [|done]; match goal with H : _ |- _ => apply H end).

(** One call of [emit]: itself first, then only deeper ones. *)
Definition one_call (d : nat) (f : fn) (args : list arg) (s s' : state) : Prop :=
  wf s' /\ exists l, trace s' = trace s ++ Call d f args :: l /\ Forall (fun c => (S d <= c_depth c)%nat) l.

Lemma one_call_deeper d f args s s' :
  wf s' -> deeper (S d) (log (Call d f args) s) s' -> one_call d f args s s'.
Proof. intros Hw (l & E & Hl). split; [done|]. exists l. rewrite E. cbn. by rewrite <- app_assoc. Qed.

Lemma wf_log c s : wf s -> wf (log c s).
Proof. intros [Hh Hc]. split; [by apply (wfh_ext s)|done]. Qed.

Lemma inv_deeper_refl d s : wf s -> inv (deeper d s) [] s.
Proof. intros H. split_and!; [done|apply deeper_refl|apply prefix_nil]. Qed.

Lemma apply_one d f args s :
  wf s -> wp (apply code rec d f args) (fun _ s' => one_call d f args s s') s.
Proof.
  intros Hwf. set (s1 := log (Call d f args) s).
  assert (inv (deeper (S d) s1) [] s1) as H1 by (by apply inv_deeper_refl, wf_log).
  assert (wp (match f with
    | User c => exec rec (S d) (code c args)
    | Wrap w type listener =>
        s <- gets id;;
        if bool_decide (w ∈ fired s) then ret RNone
        else removeListener rec (S d) type (Some f);; modify (set_fired w);; apply code rec (S d) listener args
    end) (fun _ s' => inv (deeper (S d) s1) [] s') s1) as H2.
  { destruct f as [c|w k f].
    - apply (exec_passive code on_warning (deeper (S d) s1) (S d)); try done; passive_deeper.
    - apply wp_bind. cbn. case_bool_decide; [done|]. apply wp_bind.
      eapply wp_mono.
      { apply (removeListener_passive code on_warning (deeper (S d) s1) (S d)); try done; passive_deeper. }
      intros [u|x] s2 H2; [|done]. apply wp_bind. cbn.
      apply (apply_passive code on_warning (deeper (S d) s1) (S d)); try done; passive_deeper.
      destruct H2 as (? & ? & ?). split_and!; [by apply wf_set_fired|done|done]. }
  destruct f; cbn [apply]; apply wp_bind; cbn; (eapply wp_mono; [exact H2|]);
    intros r s' (? & ? & ?); by apply one_call_deeper.
Qed.

Definition at_depth (d : nat) (l : list call) : list call := List.filter (fun c => c_depth c =? d)%nat l.

Lemma at_depth_deeper d l : Forall (fun c => (S d <= c_depth c)%nat) l -> at_depth d l = [].
Proof.
  induction 1 as [|c l Hc Hl IH]; [done|]. cbn. by replace (c_depth c =? d)%nat with false by (symmetry; apply Nat.eqb_neq; lia).
Qed.

Lemma addCatch_deeper d r k args s :
  wf s -> wp (addCatch rec d r k args) (fun _ s' => wf s' /\ deeper (S d) s s') s.
Proof.
  intros Hwf. eapply wp_mono.
  - apply (addCatch_keeps rec (deeper (S d) s) (S d)); [passive_deeper| |done|by apply inv_deeper_refl].
    intros W d0 q Hd0. apply (dispatch_passive code on_warning (deeper (S d) s) (S d)); try done; passive_deeper.
  - by intros _ s' (? & ? & _).
Qed.

(** The calls of [emit] itself: a prefix of the listeners, all if none throws. *)
Definition calls_snapshot (d : nat) (fs : list fn) (args : list arg) (all : bool) (s s' : state) : Prop :=
  wf s' /\ exists l n, trace s' = trace s ++ l /\ Forall (fun c => (d <= c_depth c)%nat) l /\
    at_depth d l = (fun f => Call d f args) <$> take n fs /\ (all = true -> take n fs = fs).

Lemma calls_one d f fs args all s s1 s2 s3 :
  one_call d f args s s1 -> deeper (S d) s1 s2 -> calls_snapshot d fs args all s2 s3 ->
  calls_snapshot d (f :: fs) args all s s3.
Proof.
  intros (_ & l1 & E1 & F1) (l2 & E2 & F2) (Hw & l3 & n & E3 & F3 & A3 & T3). split; [done|].
  exists (Call d f args :: l1 ++ l2 ++ l3), (S n). cbn [take]. split_and!.
  - by rewrite E3, E2, E1, <- !app_assoc.
  - apply Forall_cons. split; [cbn; lia|]. rewrite !Forall_app. split_and!; [..|done];
      (eapply Forall_impl; [eassumption|]); cbn; intros; lia.
  - cbn. rewrite Nat.eqb_refl. unfold at_depth in *. rewrite !List.filter_app.
    rewrite (at_depth_deeper d l1 F1 : List.filter _ l1 = []).
    rewrite (at_depth_deeper d l2 F2 : List.filter _ l2 = []). cbn. by rewrite A3.
  - intros Ha. by rewrite T3.
Qed.

Lemma calls_stop d f fs args s s1 s2 :
  one_call d f args s s1 -> deeper (S d) s1 s2 -> wf s2 -> calls_snapshot d (f :: fs) args false s s2.
Proof.
  intros H1 H2 Hw. eapply calls_one; [done..|]. split; [done|]. exists [], 0%nat.
  rewrite app_nil_r. split_and!; [done|constructor|done|done].
Qed.

Lemma apply_all_snapshot d k fs args : forall s,
  wf s -> wp (apply_all code rec d k fs args)
    (fun r s' => calls_snapshot d fs args (match r with Ret _ => true | Raise _ => false end) s s') s.
Proof.
  induction fs as [|f fs IH]; intros s Hwf; cbn [apply_all].
  - split; [done|]. exists [], 0%nat. rewrite app_nil_r. split_and!; [done|constructor|done|done].
  - apply wp_bind. eapply wp_mono; [by apply apply_one|]. cbn.
    intros [r|x] s1 H1; [|eapply calls_stop; [exact H1|apply deeper_refl|apply H1]].
    apply wp_bind. eapply wp_mono; [apply addCatch_deeper; apply H1|]. cbn.
    intros [u|x] s2 [Hw2 H2]; [|by eapply calls_stop].
    eapply wp_mono; [by apply IH|]. cbn. intros r' s3 H3. by eapply calls_one.
Qed.
End Emit.

(** [emit] of an event other than ['error'] applies the listeners present
    when it starts, in order and with its arguments, whatever they add or
    remove meanwhile: the calls it makes itself (those at its own depth) are
    all of them when it returns, and then it returns [true] exactly when there
    was one; when it throws, they are the ones up to the one that threw. *)
Theorem ee_emit_calls_snapshot code on_warning fuel d k args s s' r :
  wf s -> k <> key_error -> emit code on_warning fuel d k args s = Some (s', r) ->
  exists l n, trace s' = trace s ++ l /\ Forall (fun c => (d <= c_depth c)%nat) l /\
    at_depth d l = (fun f => Call d f args) <$> take n (rawListeners k s) /\
    (forall b, r = Ret b -> take n (rawListeners k s) = rawListeners k s /\
                            (b = true <-> rawListeners k s <> [])).
Proof.
  intros Hwf Hk He. change (rawListeners k s) with (view s k).
  assert (forall b, r = Ret b -> s' = s -> view s k = [] -> b = false ->
    exists l n, trace s' = trace s ++ l /\ Forall (fun c => (d <= c_depth c)%nat) l /\
    at_depth d l = (fun f => Call d f args) <$> take n (view s k) /\
    (forall b, r = Ret b -> take n (view s k) = view s k /\ (b = true <-> view s k <> []))) as Hnone.
  { intros b -> -> -> ->. exists [], 0%nat. rewrite app_nil_r. split_and!; [done|constructor|done|].
    by intros b [= <-]. }
  destruct fuel as [|fuel]; [done|].
  assert (bool_decide (k = key_error) = false) as Hb by (by apply bool_decide_eq_false_2).
  unfold emit in He. cbn [dispatch handle] in He. unfold emit_with in He. rewrite Hb in He. cbn [andb] in He.
  unfold bind, gets, ret, id in He. fold (@ret bool) in He.
  destruct (_events s) as [l|] eqn:El; [|injection He as <- <-; by eapply Hnone; [..|apply view_none|]].
  rewrite (view_tview s l) in * by done. unfold tview in *.
  pose proof (slot_list_defined s l k (proj1 Hwf)) as Hne. unfold tview in Hne.
  pose proof (apply_all_snapshot code on_warning fuel d k (slot_list s (tget (tbl s l) k)) args s Hwf) as Hs.
  unfold wpd in Hs.
  destruct (tget (tbl s l) k) as [|f|a] eqn:Ht; [by injection He as <- <-; eapply Hnone|..].
  all: destruct (apply_all _ _ _ _ _ _ s) as [[s1 [u|x]]|] eqn:Ea; try done; injection He as <- <-.
  all: destruct Hs as (_ & l1 & n & E1 & F1 & A1 & T1).
  all: exists l1, n; split_and!; [done..|].
  all: first [intros b [= <-]; split; [by apply T1|split; [|done]; by intros _; apply Hne] | by intros b].
Qed.

Lemma ee_emit_calls_snapshot_witness :
  exists l n, trace (ran (main ex_code ex_warning 5 ex_prog (made None))) = trace (made None) ++ l /\
    at_depth 0 l = (fun f => Call 0 f [AVal VNull]) <$> take n [User 3; Wrap 0 ev (User 4); User 2].
Proof.
  set (setup := Once false ev (Some (User 4)) (fun _ => On false ev (Some (User 2)) (fun _ =>
    On true ev (Some (User 3)) (fun _ => Return RNone)))).
  destruct (ee_emit_calls_snapshot ex_code ex_warning 5 0 ev [AVal VNull]
    (ran (main ex_code ex_warning 5 setup (made None)))
    (ran (main ex_code ex_warning 5 ex_prog (made None))) (Ret true)) as (l & n & H1 & _ & H2 & _).
  - eapply (main_wf ex_code ex_warning 5 setup (made None) _ (Ret RNone)); [by apply made_wf|].
    vm_compute. reflexivity.
  - discriminate.
  - vm_compute. reflexivity.
  - exists l, n. split; [exact H1|exact H2].
Defined.

(** ** What the methods do not keep *)

(** [removeAllListeners(type)] walks the array from the end, reading
    [listeners[i]] at each turn: when a listener of ['removeListener'] removes
    another listener of the event, the index is out of range and
    [removeListener] throws on [undefined]; listeners remain. *)
Lemma ee_removeAll_throws :
  let prog := On false ev (Some (User 1)) (fun _ => On false ev (Some (User 2)) (fun _ =>
    On false ev (Some (User 3)) (fun _ => On false key_removeListener (Some (User 9)) (fun _ =>
    RemoveAll (Some ev) (fun r => match r with Raise e => Fail e | Ret _ => Return RNone end))))) in
  exists s, main ex_code ex_warning 9 prog (made None) = Some (s, Raise ERR_INVALID_ARG_TYPE) /\
    rawListeners ev s = [User 2].
Proof. eexists. split; [vm_compute; reflexivity|vm_compute; reflexivity]. Qed.

(** A listener added with [once] is reported to ['removeListener'] as itself
    when it was the event's only listener, and as its wrapper otherwise. *)
Lemma ee_removed_wrapper_reported :
  let prog more := On false key_removeListener (Some (User 7)) (fun _ => Once false ev (Some (User 1)) (fun _ =>
    (if more : bool then On false ev (Some (User 2)) (fun _ => Emit ev [] (fun _ => Return RNone))
     else Emit ev [] (fun _ => Return RNone)))) in
  let told more := c_args <$> List.filter (fun c => bool_decide (c_fn c = User 7))
                     (trace (ran (main ex_code ex_warning 9 (prog more) (made None)))) in
  told false = [[AKey ev; AFn (User 1)]] /\ told true = [[AKey ev; AFn (Wrap 0 ev (User 1))]].
Proof. split; vm_compute; reflexivity. Qed.

(** An emitter whose subclass prepared a table lists prepared names without a
    listener among its [eventNames], and does not tell ['removeListener'] when
    the only listener of an event goes. *)
Lemma ee_shape_mode_names :
  let s := ran (main ex_code ex_warning 9
    (On false key_removeListener (Some (User 7)) (fun _ => On false ev (Some (User 1)) (fun _ =>
     Off ev (Some (User 1)) (fun _ => Return RNone)))) (made (Some [(ev, None); (KStr "y", None)]))) in
  eventNames s = [ev; KStr "y"; key_removeListener] /\ rawListeners ev s = [] /\ rawListeners (KStr "y") s = [] /\
  trace s = [].
Proof. split_and!; vm_compute; reflexivity. Qed.
