(* ===== verification/EventsOnce.v ===== *)
(** * [EventEmitter]: listeners added with [once]

    [onceWrapper] marks its state object only after [removeListener], which
    runs listeners of ['removeListener']: between the removal and the mark the
    wrapper must not be reached again.  It is not, because it is in no table a
    program can reach: the theorem follows, for programs that do not register
    wrappers themselves. *)

From Stdlib Require Import QArith.
From S2P Require Import Prelude JsString JsNumber Events EventsFacts EventsOps EventsClaims.
Import Events.
#[local] Open Scope Z_scope.
#[local] Arguments removeListener : simpl never.
#[local] Arguments view : simpl never.

(** Programs register functions of the user's. *)
Definition user (f : fn) : Prop := match f with User _ => True | Wrap _ _ _ => False end.

Definition wrap_id (f : fn) : option nat := match f with User _ => None | Wrap w _ _ => Some w end.

(** In the list of [k]: a function of the user's or a wrapper of one made for
    [k]. *)
Definition placed (k : key) (f : fn) : Prop :=
  match f with User _ => True | Wrap _ t g => t = k /\ user g end.

Record main_inv (s : state) : Prop := {
  mi_placed : forall l k f, f ∈ tview s l k -> placed k f /\ older (onceStates s) f;
  mi_nodup : forall l k, _events s = Some l -> NoDup (omap wrap_id (tview s l k));
  mi_onces : NoDup (onces s);
  mi_fired : forall w, w ∈ onces s -> w ∈ fired s;
  mi_made : forall w, w ∈ fired s -> (w < length (onceStates s))%nat;
}.

(** [w] exists, has not fired, and is in none of the tables [S], which are those
    programs reach from now on. *)
Record hidden (w : nat) (S : positive -> Prop) (s : state) : Prop := {
  hi_made : (w < length (onceStates s))%nat;
  hi_fired : w ∉ fired s;
  hi_out : forall l k f, S l -> f ∈ tview s l k -> wrap_id f <> Some w;
  hi_cur : forall l, _events s = Some l -> S l;
  hi_new : forall l, (nextLoc s <= l)%positive -> S l;
}.

Definition once_inv (H : list (nat * (positive -> Prop))) (s : state) : Prop :=
  main_inv s /\ Forall (fun p => hidden p.1 p.2 s) H.

(** ** The changes keep it *)

Lemma omap_wrap_sublist (fs gs : list fn) : fs `sublist_of` gs -> omap wrap_id fs `sublist_of` omap wrap_id gs.
Proof.
  induction 1 as [|x fs gs _ IH|x fs gs _ IH]; [done|..]; cbn; destruct (wrap_id x); cbn;
    [by apply sublist_skip|done|by apply sublist_cons|done].
Qed.

Lemma NoDup_sublist {A} (l k : list A) : l `sublist_of` k -> NoDup k -> NoDup l.
Proof.
  induction 1 as [|x l k Hs IH|x l k Hs IH]; [done|..]; rewrite NoDup_cons; intros [H1 H2]; [|auto].
  apply NoDup_cons. split; [|auto]. intros Hx. apply H1. by eapply elem_of_sublist.
Qed.

Lemma wrap_id_in f (fs : list fn) w : f ∈ fs -> wrap_id f = Some w -> w ∈ omap wrap_id fs.
Proof. intros H1 H2. apply list_elem_of_omap. eauto. Qed.

Lemma main_less s s' : wf s -> main_inv s -> less s s' -> main_inv s'.
Proof.
  intros [Hh _] [M1 M2 M3 M4 M5] (H1 & (F1 & F2 & F3 & F4) & H3 & H4 & H5). split.
  - intros l k f Hf. rewrite F2. eapply M1. by eapply elem_of_sublist.
  - intros l k El. destruct H4 as [E|(l' & E & Hl')].
    + eapply NoDup_sublist; [apply omap_wrap_sublist, H5|]. apply M2. congruence.
    + assert (l' = l) as -> by congruence. specialize (H5 l k). unfold tview at 2 in H5.
      rewrite (wh_fresh _ Hh l) in H5 by done. apply sublist_nil_r in H5. rewrite H5. constructor.
  - by rewrite F3.
  - intros w. rewrite F1, F3. apply M4.
  - intros w. rewrite F1, F2. apply M5.
Qed.

Lemma hidden_less w S s s' : hidden w S s -> less s s' -> hidden w S s'.
Proof.
  intros [A1 A2 A3 A4 A5] (H1 & (F1 & F2 & F3 & F4) & H3 & H4 & H5). split.
  - by rewrite F2.
  - by rewrite F1.
  - intros l k f HS Hf. eapply A3; [exact HS|]. by eapply elem_of_sublist.
  - intros l El. destruct H4 as [E|(l' & E & Hl')]; [apply A4; congruence|].
    apply A5. by assert (l' = l) as <- by congruence.
  - intros l Hl. apply A5. lia.
Qed.

Lemma added_elem p f fs x : x ∈ added p f fs -> x = f \/ x ∈ fs.
Proof. destruct p; cbn; [rewrite elem_of_cons|rewrite elem_of_app, list_elem_of_singleton]; tauto. Qed.

Lemma added_nodup p f fs :
  NoDup (omap wrap_id fs) -> (forall w, wrap_id f = Some w -> w ∉ omap wrap_id fs) ->
  NoDup (omap wrap_id (added p f fs)).
Proof.
  intros H1 H2. destruct p; cbn.
  - destruct (wrap_id f) as [w|]; [|done]. apply NoDup_cons. auto.
  - rewrite omap_app. cbn. destruct (wrap_id f) as [w|] eqn:E; [|by rewrite app_nil_r].
    apply NoDup_app. split_and!; [done| |by apply NoDup_singleton].
    intros x Hx ->%list_elem_of_singleton. by eapply H2.
Qed.

(** [f] may be added to the list of [k]. *)
Definition may_add (H : list (nat * (positive -> Prop))) (k : key) (f : fn) (s : state) : Prop :=
  match f with
  | User _ => True
  | Wrap w t g => t = k /\ user g /\ onceStates s !! w = Some (t, g) /\
                  (exists S, hidden w S s) /\ Forall (fun p => p.1 <> w) H
  end.

Lemma main_plus H k f p s s' : main_inv s -> may_add H k f s -> plus k f p s s' -> main_inv s'.
Proof.
  intros [M1 M2 M3 M4 M5] HG (H1 & (F1 & F2 & F3 & F4) & H3 & l0 & E & E' & Hv). split.
  - intros l k' g. rewrite Hv, F2. destruct (decide (l0 = l)) as [<-|]; [|apply M1].
    destruct (decide (k = k')) as [<-|]; [|apply M1].
    intros [->|Hg]%added_elem; [|by eapply M1]. destruct f as [c|w t g]; [done|].
    destruct HG as (-> & Hu & Ho & _). cbn. split_and!; [done..|]. by destruct g.
  - intros l k' El. assert (l0 = l) as -> by congruence. rewrite Hv, decide_True by done.
    destruct (decide (k = k')) as [<-|]; [|by apply M2]. apply added_nodup; [by apply M2|].
    intros w Hw Hin. destruct f as [c|w' t g]; [done|]. injection Hw as ->.
    destruct HG as (_ & _ & _ & (S & Hhid) & _). apply list_elem_of_omap in Hin as (x & Hx & Ex).
    by eapply (hi_out _ _ _ Hhid); [eapply hi_cur| |].
  - by rewrite F3.
  - intros w. rewrite F1, F3. apply M4.
  - intros w. rewrite F1, F2. apply M5.
Qed.

Lemma hidden_plus H k f p s s' w S :
  (w, S) ∈ H -> hidden w S s -> may_add H k f s -> plus k f p s s' -> hidden w S s'.
Proof.
  intros Hin [A1 A2 A3 A4 A5] HG (H1 & (F1 & F2 & F3 & F4) & H3 & l0 & E & E' & Hv). split.
  - by rewrite F2.
  - by rewrite F1.
  - intros l k' g HS. rewrite Hv. destruct (decide (l0 = l)) as [<-|]; [|by apply A3].
    destruct (decide (k = k')) as [<-|]; [|by apply A3].
    intros [->|Hg]%added_elem; [|by eapply A3]. destruct f as [c|w' t g]; [done|]. cbn. intros [= ->].
    destruct HG as (_ & _ & _ & _ & HF). rewrite Forall_forall in HF. by apply HF in Hin.
  - intros l El. apply A4. congruence.
  - intros l Hl. apply A5. lia.
Qed.

Lemma inv_less_once H s s' : wf s -> once_inv H s -> less s s' -> once_inv H s'.
Proof.
  intros Hwf [H1 H2] Hl. split; [by eapply main_less|]. eapply Forall_impl; [exact H2|].
  intros [w S] Hw. by eapply hidden_less.
Qed.

Lemma inv_plus_once H k f p s s' :
  once_inv H s -> may_add H k f s -> plus k f p s s' -> once_inv H s'.
Proof.
  intros [H1 H2] HG Hp. split; [by eapply main_plus|]. rewrite Forall_forall in *.
  intros [w S] Hin. eapply hidden_plus; [done|by apply (H2 (w, S))|done..].
Qed.

Lemma may_add_less H k f s s' : may_add H k f s -> less s s' -> may_add H k f s'.
Proof.
  intros HG Hl. destruct f as [c|w t g]; [done|]. destruct HG as (H1 & H2 & H3 & (S & H4) & H5).
  split_and!; [done..| | |done].
  - destruct Hl as (_ & (_ & -> & _) & _). done.
  - exists S. by eapply hidden_less.
Qed.

(** ** [onceWrapper] *)

(** [f] may be applied while the wrappers of [H] must not. *)
Definition may_apply (H : list (nat * (positive -> Prop))) (f : fn) : Prop :=
  match f with
  | User _ => True
  | Wrap w _ g => user g /\ Forall (fun p => p.1 <> w) H
  end.

Lemma drop_last_unique g (fs : list fn) k w :
  wrap_id g = Some w -> (forall x, x ∈ fs -> placed k x) -> NoDup (omap wrap_id fs) ->
  g ∉ drop_last_match g fs.
Proof.
  intros Hg. assert (forall x, placed k x -> matches g x = true -> x = g) as Hm.
  { intros x Hx. unfold matches. rewrite orb_true_iff. intros [?|Hl]; bool_hyps; [done|].
    destruct x as [c|w' t y]; [done|]. destruct Hx as [_ Hu]. injection Hl as ->. by destruct g. }
  assert (matches g g = true) as Hrefl by (unfold matches; by rewrite bool_decide_eq_true_2).
  induction fs as [|x fs IH]; intros Hp Hn; cbn [drop_last_match]; [apply not_elem_of_nil|].
  assert (g ∈ fs -> existsb (matches g) fs = true) as Hex
    by (intros Hin; apply existsb_exists; exists g; by rewrite <- list_elem_of_In).
  assert (NoDup (omap wrap_id fs)) as Hn' by (cbn in Hn; destruct (wrap_id x); [by apply NoDup_cons in Hn as [_ ?]|done]).
  destruct (existsb (matches g) fs) eqn:E.
  - apply not_elem_of_cons. split; [|apply IH; [|done]; intros; apply Hp; by apply elem_of_cons; right].
    intros <-. apply existsb_exists in E as (y & Hy%list_elem_of_In & Ey).
    apply Hm in Ey as ->; [|apply Hp, elem_of_cons; by right].
    cbn in Hn. rewrite Hg in Hn. apply NoDup_cons in Hn as [Hn _]. apply Hn. by eapply wrap_id_in.
  - destruct (matches g x) eqn:Ex; [by intros ?%Hex|]. apply not_elem_of_cons. split; [by intros <-; congruence|].
    by intros ?%Hex.
Qed.

Lemma once_fired H w S s :
  once_inv H s -> hidden w S s -> Forall (fun p => p.1 <> w) H -> once_inv H (set_fired w s).
Proof.
  intros [[M1 M2 M3 M4 M5] HF] [A1 A2 A3 A4 A5] Hne. split; [split|].
  - done.
  - done.
  - cbn. apply NoDup_app. split_and!; [done| |by apply NoDup_singleton].
    intros x Hx ->%list_elem_of_singleton. by apply A2, M4.
  - cbn. intros x [Hx| ->%list_elem_of_singleton]%elem_of_app; [apply M4 in Hx|]; set_solver.
  - cbn. intros x [->%elem_of_singleton|Hx]%elem_of_union; [done|by apply M5].
  - rewrite Forall_forall in *. intros [w' S'] Hin. destruct (HF _ Hin) as [B1 B2 B3 B4 B5].
    split; try done. cbn. specialize (Hne _ Hin). cbn in *. set_solver.
Qed.

(** After [removeListener] took the wrapper out, no reachable table has it. *)
Lemma removed_hidden W k w f s s' :
  wf s -> main_inv s -> W `prefix_of` onceStates s -> older W (Wrap w k f) -> w ∉ fired s ->
  minus k (Wrap w k f) s s' ->
  hidden w (fun l => _events s' = Some l \/ (nextLoc s' <= l)%positive) s'.
Proof.
  intros Hwf HM HW [Hold _] Hfi [Hless Hv]. pose proof Hless as ([Hh' _] & (F1 & F2 & F3 & F4) & H3 & H4 & H5).
  assert (onceStates s !! w = Some (k, f)) as Hst by (by eapply prefix_lookup_Some).
  split; [rewrite F2; by eapply lookup_lt_Some|by rewrite F1| |by left|by right].
  intros l k' x [El|Hl] Hx Hw.
  2:{ unfold tview in Hx. rewrite (wh_fresh _ Hh') in Hx by done. by apply elem_of_nil in Hx. }
  rewrite <- (view_tview s' l) in Hx by done.
  assert (x ∈ view s k') as Hx0 by (eapply elem_of_sublist; [done|by apply less_view]).
  destruct (_events s) as [l0|] eqn:El0; [|rewrite view_none in Hx0 by done; by apply elem_of_nil in Hx0].
  assert (x = Wrap w k f /\ k = k') as [-> <-].
  { rewrite (view_tview s l0) in Hx0 by done. destruct (mi_placed _ HM _ _ _ Hx0) as [Hp Ho].
    destruct x as [c|w' t y]; [done|]. injection Hw as ->. destruct Hp as [-> _], Ho as [Ho _].
    rewrite Hst in Ho. by injection Ho as -> ->. }
  rewrite Hv, decide_True, remove_last_spec in Hx by done.
  eapply (drop_last_unique (Wrap w k f) _ k w) in Hx; try done.
  - intros x Hx'. rewrite (view_tview s l0) in Hx' by done. by eapply mi_placed.
  - rewrite (view_tview s l0) by done. by eapply mi_nodup.
Qed.

Section Once.
Context (code : positive -> list arg -> body) (on_warning : key -> Z -> body).
Context (code_user : forall f args, plain user (code f args)).
Context (warning_user : forall k n, plain user (on_warning k n)).

Definition rec_once (rec : nat -> req -> M bool) : Prop :=
  forall H W d q, keeps (inv (once_inv H) W) (rec d q).

Lemma fire_once rec H W d k w f s :
  rec_once rec -> inv (once_inv H) W s -> w ∉ fired s -> may_apply H (Wrap w k f) -> older W (Wrap w k f) ->
  wp (removeListener rec d k (Some (Wrap w k f)))
    (fun r s' => match r with
                 | Ret _ => inv (once_inv H) W (set_fired w s')
                 | Raise _ => inv (once_inv H) W s'
                 end) s.
Proof.
  intros Hrec (Hwf & HI & HW) Hfi [Hu Hne] Hold.
  assert (forall s', minus k (Wrap w k f) s s' -> inv (once_inv H) W s' /\
            hidden w (fun l => _events s' = Some l \/ (nextLoc s' <= l)%positive) s') as Hm.
  { intros s' Hmin. pose proof Hmin as [Hl _]. split; [|by eapply (removed_hidden W); [..|apply HI| | | |]].
    split_and!; [apply Hl|by eapply inv_less_once|]. destruct Hl as (_ & (_ & -> & _) & _). done. }
  assert (forall S s', inv (once_inv H) W s' -> hidden w S s' -> inv (once_inv H) W (set_fired w s')) as Hf.
  { intros S s' (H1 & H2 & H3) Hh. split_and!; [by apply wf_set_fired|by eapply once_fired|done]. }
  apply removeListener_wp; [done| |].
  - intros s' [H1 H2]%Hm. by eapply Hf.
  - intros s' args [H1 H2]%Hm _. set (S := fun l => _) in H2.
    eapply wp_mono; [apply (Hrec ((w, S) :: H) W)|].
    + destruct H1 as (? & [? ?] & ?). split_and!; [done|split; [done|by apply Forall_cons]|done].
    + intros r s2 (B1 & [B2 B3] & B4). apply Forall_cons in B3 as [B3 B5].
      assert (inv (once_inv H) W s2) as B by (by split_and!). destruct r; cbn; [by eapply Hf|done].
Qed.

Lemma wrap_once H k f s :
  wf s -> user f -> once_inv H s ->
  once_inv H (add_onceState (k, f) s) /\
  may_add H k (Wrap (length (onceStates s)) k f) (add_onceState (k, f) s).
Proof.
  intros Hwf Hu [[M1 M2 M3 M4 M5] HF].
  assert (forall l k' x, x ∈ tview s l k' -> wrap_id x <> Some (length (onceStates s))) as Hnew.
  { intros l k' x Hx. destruct (M1 l k' x Hx) as [_ Ho]. destruct x as [c|w t g]; [done|]. cbn. intros [= ->].
    destruct Ho as [Ho _]. apply lookup_lt_Some in Ho. lia. }
  split; [split; [split|]|].
  - intros l k' x Hx. destruct (M1 l k' x Hx) as [H1 H2]. split; [done|].
    eapply older_mono; [|exact H2]. cbn. by apply prefix_app_r.
  - done.
  - done.
  - done.
  - cbn. intros w Hw%M5. rewrite length_app. cbn. lia.
  - eapply Forall_impl; [exact HF|]. intros [w S] [B1 B2 B3 B4 B5]. split; try done.
    cbn in *. rewrite length_app. cbn. lia.
  - cbn. split_and!; [done|done| | |].
    + by rewrite lookup_app_r, Nat.sub_diag by lia.
    + exists (fun _ => True). split; [cbn; rewrite length_app; cbn; lia| | |done|done].
      * cbn. intros Hw%M5. lia.
      * intros l k' x _ Hx. by apply (Hnew l k').
    + eapply Forall_impl; [exact HF|]. intros [w S] [B1 _ _ _ _]. cbn in *. lia.
Qed.

Lemma may_add_rec rec H W k f d args :
  rec_once rec ->
  keeps (fun s => inv (once_inv H) W s /\ may_add H k f s) (rec d (REmit key_newListener args)).
Proof.
  intros Hrec s [Hs HG]. destruct f as [c|w t g].
  - eapply wp_mono; [by apply (Hrec H W)|]. by intros.
  - destruct HG as (-> & Hu & Ho & (S & Hh) & Hne). destruct Hs as (H1 & [H2 H3] & H4).
    eapply wp_mono; [apply (Hrec ((w, S) :: H) (onceStates s))|].
    + split_and!; [done|split; [done|by apply Forall_cons]|done].
    + intros r s' (B1 & [B2 B3] & B4). apply Forall_cons in B3 as [B3 B5]. split.
      * split_and!; [done|by split|by etrans].
      * cbn. split_and!; [done|done|by eapply prefix_lookup_Some|by exists S|done].
Qed.

Lemma main_log H c s : once_inv H s -> once_inv H (log c s).
Proof.
  intros [[M1 M2 M3 M4 M5] HF]. split; [by split|]. eapply Forall_impl; [exact HF|].
  intros [w S] [B1 B2 B3 B4 B5]. by split.
Qed.

Lemma once_applies H s l k f :
  once_inv H s -> (forall p, p ∈ H -> p.2 l) -> f ∈ tview s l k ->
  may_apply H f /\ older (onceStates s) f.
Proof.
  intros [HM HF] HT Hf. destruct (mi_placed _ HM _ _ _ Hf) as [Hp Ho]. split; [|done].
  destruct f as [c|w t g]; [done|]. destruct Hp as [-> Hu]. split; [done|].
  rewrite Forall_forall in *. intros [w' S] Hin. cbn. intros ->.
  by eapply (hi_out _ _ _ (HF _ Hin)); [apply (HT _ Hin)|done|].
Qed.

Lemma dispatch_once fuel : rec_once (dispatch code on_warning fuel).
Proof.
  induction fuel as [|fuel IH]; intros H W d q; [by intros s _|]. cbn [dispatch].
  apply (handle_keeps code on_warning (dispatch code on_warning fuel) older (once_inv H) (may_add H)
           user (may_apply H) (fun l => forall p, p ∈ H -> p.2 l) 0); try done; try lia.
  - intros. by eapply inv_less_once.
  - intros. by eapply inv_plus_once.
  - intros. by eapply may_add_less.
  - intros. by apply may_add_rec.
  - intros k f s Hu _. by destruct f.
  - intros. by apply wrap_once.
  - intros. by apply main_log.
  - intros. by apply fire_once.
  - intros s l [_ HF] El [w S] Hin. rewrite Forall_forall in HF. by apply (HF _ Hin).
  - intros. by eapply once_applies.
  - intros w k f [Hu _]. by destruct f.
  - intros W' w k f [_ Ho]. done.
Qed.

Lemma exec_once fuel b s :
  plain user b -> wf s -> main_inv s ->
  wp (exec (dispatch code on_warning fuel) 0 b) (fun _ s' => main_inv s') s.
Proof.
  intros Hb Hwf HM. eapply wp_mono.
  - apply (program_keeps (dispatch code on_warning fuel) (once_inv []) (may_add []) user 0) with (W := []);
      try done; try lia.
    + intros. by eapply inv_less_once.
    + intros. by eapply inv_plus_once.
    + intros. by eapply may_add_less.
    + intros. by apply dispatch_once.
    + intros. apply may_add_rec, dispatch_once.
    + intros k f s0 Hu _. by destruct f.
    + intros. by apply wrap_once.
    + split_and!; [done|by split|apply prefix_nil].
  - by intros r s' (_ & [? _] & _).
Qed.
End Once.

(** C13. A listener added with [once] or [prependOnceListener] is applied at most
    once, in every program whose code registers its own functions only (not
    wrappers obtained from [rawListeners]): nested emits of the event,
    exceptions, listeners of ['removeListener'] that run before the wrapper is
    marked, and tables replaced meanwhile included. *)
Theorem ee_once_at_most_once code on_warning fuel b own max opts proto dflt s s' r :
  (forall f args, plain user (code f args)) -> (forall k n, plain user (on_warning k n)) -> plain user b ->
  shape own -> init own max opts proto dflt = Ret s ->
  main code on_warning fuel b s = Some (s', r) -> NoDup (onces s').
Proof.
  intros Hc Hw Hb Hs Hi Hm. pose proof (init_wf _ _ _ _ _ _ Hs Hi) as Hwf.
  eapply wp_run in Hm; [|apply (exec_once code on_warning Hc Hw fuel b s Hb Hwf)].
  { cbn in Hm. apply Hm. }
  destruct (init_tables _ _ _ _ _ _ Hs Hi) as ((_ & _ & _ & E1 & E2) & _).
  assert (forall l k, tview s l k = []) as Hnil
    by (intros l k; unfold tview; by erewrite init_empty).
  split.
  - intros l k f. rewrite Hnil. by intros ?%elem_of_nil.
  - intros l k _. rewrite Hnil. constructor.
  - rewrite E1. constructor.
  - intros w. rewrite E1. by intros ?%elem_of_nil.
  - intros w. rewrite E2. set_solver.
Qed.

Lemma ee_once_at_most_once_witness : NoDup (onces (ran (main ex_code ex_warning 5 ex_prog (made None)))).
Proof.
  apply (ee_once_at_most_once ex_code ex_warning 5 ex_prog None None VUndefined false (int 10) (made None) _ (Ret RNone)).
  - intros f args. unfold ex_code.
    repeat match goal with |- context [match ?p with _ => _ end] => is_var p; destruct p end; cbn; auto.
  - intros k n. exact I.
  - cbn. auto 10.
  - exact I.
  - reflexivity.
  - vm_compute. reflexivity.
Defined.
