(* ===== verification/EventsLimit.v ===== *)
(** * [EventEmitter]: the listener limit

    [_addListener] warns when an array grows past the limit, and marks the
    array: adding any number of listeners to an event warns at most once, when
    the count first exceeds the limit, never for one listener, and never when
    the limit is 0 or infinite. *)

From Stdlib Require Import QArith.
From S2P Require Import Prelude JsString JsNumber Events EventsFacts EventsOps EventsClaims.
Import Events.
#[local] Open Scope Z_scope.
#[local] Open Scope ee_scope.
#[local] Arguments view : simpl never.
#[local] Arguments _addListener : simpl never.

(** The count reported for [n] listeners under the limit [m]: the first that
    exceeds it, if any. *)
Definition reported (m : num) (n : Z) : option Z :=
  if num_gt m 0 then List.find (num_lt m) (seqZ 2 (n - 1)) else None.

Lemma find_snoc {A} (p : A -> bool) l x :
  List.find p (l ++ [x]) = match List.find p l with Some y => Some y | None => if p x then Some x else None end.
Proof. induction l as [|y l IH]; cbn; [done|]. by destruct (p y). Qed.

Lemma reported_one m n : n <= 1 -> reported m n = None.
Proof. intros H. unfold reported. destruct (num_gt m 0); [|done]. by rewrite seqZ_nil by lia. Qed.

Lemma reported_next m n :
  2 <= n -> reported m n =
  match reported m (n - 1) with
  | Some c => Some c
  | None => if num_gt m 0 && num_lt m n then Some n else None
  end.
Proof.
  intros H. unfold reported. destruct (num_gt m 0); [|done]. cbn [andb].
  replace (n - 1) with (n - 1 - 1 + 1) at 1 by lia. rewrite seqZ_app by lia.
  replace (2 + (n - 1 - 1)) with n by lia. replace (seqZ n 1) with [n] by (by rewrite seqZ_cons by lia).
  by rewrite find_snoc.
Qed.

Section Limit.
Context (code : positive -> list arg -> body) (on_warning : key -> Z -> body) (fuel : nat).
Context (silent : forall k n, on_warning k n = Return RNone).
#[local] Abbreviation rec := (dispatch code on_warning (S fuel)).

Lemma check_leak_run d k a s :
  check_leak rec d k a s =
  Some (if num_gt (_getMaxListeners s) 0 && num_lt (_getMaxListeners s) (Z.of_nat (length (items (arr s a))))
           && negb (warned (arr s a))
        then add_warning (k, Z.of_nat (length (items (arr s a))))
               (put_arr a (LArr (items (arr s a)) true) s)
        else s, Ret tt).
Proof. unfold check_leak. cbn. destruct (_ && _); [|done]. cbn. by rewrite silent. Qed.

(** Warnings given so far, and the mark on the array of [k]. *)
Record limit_inv (k : key) (m : num) (ws : list (key * Z)) (s : state) : Prop := {
  li_max : _getMaxListeners s = m;
  li_warnings : warnings s =
    ws ++ match reported m (Z.of_nat (length (view s k))) with Some c => [(k, c)] | None => [] end;
  li_mark : forall l a, _events s = Some l -> tget (tbl s l) k = SArr a ->
    warned (arr s a) = bool_decide (reported m (Z.of_nat (length (view s k))) <> None);
}.

(** The leak check at the array that now holds [n >= 2] listeners of [k], when
    the mark and the warnings are those for one fewer. *)
Lemma leak_inv k m ws s l a n :
  _events s = Some l -> tget (tbl s l) k = SArr a -> n = Z.of_nat (length (items (arr s a))) -> 2 <= n ->
  _getMaxListeners s = m ->
  warnings s = ws ++ match reported m (n - 1) with Some c => [(k, c)] | None => [] end ->
  warned (arr s a) = bool_decide (reported m (n - 1) <> None) ->
  forall d s', check_leak rec d k a s = Some (s', Ret tt) -> limit_inv k m ws s'.
Proof.
  intros El Ha En Hn Hm Hw Hk d s' H. rewrite check_leak_run, Hm, <- En, Hk in H. injection H as <-.
  pose proof (reported_next m n Hn) as Hr.
  assert (forall s1, _events s1 = Some l -> tget (tbl s1 l) k = SArr a -> items (arr s1 a) = items (arr s a) ->
    Z.of_nat (length (view s1 k)) = n) as Hv.
  { intros s1 E1 E2 E3. rewrite (view_tview s1 l) by done. unfold tview. rewrite E2. cbn. by rewrite E3. }
  destruct (reported m (n - 1)) as [c|] eqn:Hc.
  - rewrite bool_decide_eq_true_2 by done. cbn [negb]. rewrite andb_false_r. split; [done| |].
    + by rewrite (Hv s), Hr.
    + intros l' a' El' Ha'. assert (l' = l) as -> by congruence. assert (a' = a) as -> by congruence.
      rewrite (Hv s), Hr by done. by rewrite Hk.
  - rewrite bool_decide_eq_false_2 in * by naive_solver. cbn [negb]. rewrite andb_true_r.
    destruct (num_gt m 0 && num_lt m n) eqn:Hb.
    + set (s1 := add_warning _ _).
      assert (arr s1 a = LArr (items (arr s a)) true) as Harr
        by (change (arr s1 a) with (arr (put_arr a (LArr (items (arr s a)) true) s) a);
            by rewrite arr_put, decide_True).
      assert (Z.of_nat (length (view s1 k)) = n) as Hv1 by (apply Hv; [done..|by rewrite Harr]).
      split; [done| |].
      * rewrite Hv1, Hr. cbn. by rewrite Hw, app_nil_r.
      * intros l' a' El' Ha'. change (_events s = Some l') in El'. change (tget (tbl s l') k = SArr a') in Ha'.
        assert (l' = l) as -> by congruence. assert (a' = a) as -> by congruence.
        by rewrite Hv1, Hr, Harr.
    + split; [done| |].
      * rewrite (Hv s), Hr by done. by rewrite Hw.
      * intros l' a' El' Ha'. assert (l' = l) as -> by congruence. assert (a' = a) as -> by congruence.
      rewrite (Hv s), Hr by done. by rewrite Hk.
Qed.

(** The first listener of an event. *)
Lemma limit_first k m ws f s s' l c :
  limit_inv k m ws s -> view s k = [] -> _getMaxListeners s' = _getMaxListeners s ->
  warnings s' = warnings s -> _events s' = Some l -> tget (tbl s' l) k = SFn f -> length (view s' k) = c ->
  (c <= 1)%nat -> limit_inv k m ws s'.
Proof.
  intros [L1 L2 L3] Hn Em Ew El Ht Hc Hle. split; [congruence| |].
  - rewrite Ew, L2, Hn, Hc. by rewrite !reported_one by (cbn; lia).
  - intros l' a El' Ha. assert (l' = l) as -> by congruence. congruence.
Qed.

(** [add_to] is what [_addListener] does when nobody listens to ['newListener']. *)
Lemma add_to_limit k m ws p f d s s' l :
  wf s -> _events s = Some l -> limit_inv k m ws s -> add_to rec d l k f p s = Some (s', Ret tt) ->
  view s' k = added p f (view s k) -> limit_inv k m ws s'.
Proof.
  intros [Hh Hc] El Hlim E Hv. pose proof Hlim as [L1 L2 L3].
  unfold counted in Hc. rewrite El in Hc. destruct Hc as [Hl _].
  assert (view s k = slot_list s (tget (tbl s l) k)) as Hvs by (by rewrite (view_tview s l)).
  unfold add_to, bind, gets, modify, id in E. destruct (tget (tbl s l) k) as [|g|a] eqn:Ht.
  - injection E as <-. eapply (limit_first k m ws f s _ l 1); try done.
    + change (tget (tbl (put_slot l k (SFn f) s) l) k = SFn f).
      by rewrite tbl_put, decide_True, tget_tset, decide_True.
    + rewrite Hv, Hvs. by destruct p.
  - set (fs := if p then [f; g] else [g; f]) in E. cbn zeta in E.
    destruct (upd_new_arr s l k fs (nextLoc s) (new_arr fs s).2 Hh Hl ltac:(by destruct p; cbn; lia) eq_refl)
      as [_ Harr].
    cbv beta iota zeta delta [new_arr] in E. cbv beta iota zeta delta [new_arr snd] in Harr.
    eapply (leak_inv k m ws _ l (nextLoc s) 2); [..|exact E]; try done.
    + by rewrite tbl_put, decide_True, tget_tset, decide_True.
    + rewrite Harr. by destruct p.
    + cbn. rewrite L2, Hvs. by rewrite !reported_one by (cbn; lia).
    + rewrite Harr. by rewrite reported_one by lia.
  - set (x := LArr _ _) in E. specialize (L3 l a El Ht). rewrite Hvs in L2, L3. cbn in L2, L3.
    destruct (wh_arr _ Hh _ _ _ Ht) as [_ Hlen].
    assert (length (items x) = S (length (items (arr s a)))) as Hx
      by (subst x; destruct p; cbn; [done|rewrite length_app; cbn; lia]).
    eapply (leak_inv k m ws _ l a (Z.of_nat (length (items x)))); [..|exact E]; try done.
    + by rewrite arr_put, decide_True.
    + lia.
    + rewrite Hx. replace (Z.of_nat (S _) - 1) with (Z.of_nat (length (items (arr s a)))) by lia. exact L2.
    + rewrite Hx, arr_put, decide_True by done.
      replace (Z.of_nat (S _) - 1) with (Z.of_nat (length (items (arr s a)))) by lia. exact L3.
Qed.

Lemma limit_add k m ws p f d s :
  wf s -> unobserved s -> ordinary (OAdd p k f) -> limit_inv k m ws s ->
  wpd False (_addListener rec d k (Some f) p)
    (fun r s' => r = Ret tt /\ after (OAdd p k f) s s' /\ limit_inv k m ws s') s.
Proof.
  intros Hwf Hu Ho Hlim. pose proof (add_after code on_warning fuel silent d k f p s Hwf Hu Ho) as Ha.
  apply wp_total in Ha as (s' & r & E & -> & Ha). unfold wpd. rewrite E. split_and!; [done..|].
  pose proof Ha as (_ & _ & _ & Hv). specialize (Hv k). cbn in Hv. rewrite decide_True in Hv by done.
  unfold _addListener, bind, gets, modify, id in E. destruct (_events s) as [l|] eqn:El.
  - rewrite bool_decide_eq_true_2 in E.
    + unfold ret in E. rewrite El in E. by eapply add_to_limit.
    + destruct (decide (tget (tbl s l) key_newListener = SUndef)) as [|Hn]; [done|].
      apply slot_list_defined in Hn; [|apply Hwf]. destruct Hu as [Hu _]. by rewrite (view_tview s l) in Hu.
  - set (s1 := set_count 0 (fresh_events s)) in E. change (_events s1) with (Some (nextLoc s)) in E.
    destruct (fresh_less s (proj1 Hwf)) as [Hl Hnil].
    eapply (add_to_limit k m ws p f d s1 s' (nextLoc s)); [apply Hl|done| |done|].
    + destruct Hlim as [L1 L2 L3]. rewrite view_none in L2 by done. split; [done| |].
      * change (view s1 k) with (view (set_count 0 (fresh_events s)) k). rewrite Hnil. exact L2.
      * intros l a [= <-]. change (tbl s1 (nextLoc s)) with (tbl (fresh_events s) (nextLoc s)).
        rewrite tbl_fresh by apply Hwf. rewrite (wh_fresh _ (proj1 Hwf)) by lia. done.
    + rewrite Hv, view_none by done. unfold s1. by rewrite Hnil.
Qed.

Lemma limit_script k m ws d fs : forall s,
  wf s -> unobserved s -> k <> key_newListener -> k <> key_removeListener -> limit_inv k m ws s ->
  wpd False (exec rec d (script ((fun x => OAdd x.1 k x.2) <$> fs)))
    (fun r s' => r = Ret RNone /\ limit_inv k m ws s' /\ length (view s' k) = (length (view s k) + length fs)%nat) s.
Proof.
  induction fs as [|[p f] fs IH]; intros s Hwf Hu Hk1 Hk2 Hlim; [by cbn; rewrite Nat.add_0_r|].
  cbn [fmap list_fmap script exec fst snd]. apply wp_attempt.
  eapply wp_mono; [apply (limit_add k m ws p f d s); [done|done| |done]|].
  { by split; intros [= ?]. }
  cbn beta. intros r s1 (-> & (H1 & _ & H3 & Hv) & Hlim1). eapply wp_mono; [by apply IH|].
  cbn beta. intros r2 s2 (-> & H4 & H5). split_and!; [done..|]. rewrite H5, Hv. cbn.
  rewrite decide_True by done. destruct p; cbn; [lia|]. rewrite length_app. cbn. lia.
Qed.
End Limit.

(** C14. Adding any number of listeners, at either end, to an event that has none
    warns at most once: exactly when their number exceeds the limit and the
    limit is positive, with the first count (of at least two) that exceeds it;
    a limit of 0, an infinite one, or a single listener never warns.  The
    emitter must have no listeners of [newListener] and [removeListener], the
    event must be neither of the two, and the listeners of process warnings
    must do nothing. *)
Theorem ee_limit_reported_once code on_warning fuel k fs s :
  (forall k n, on_warning k n = Return RNone) ->
  wf s -> unobserved s -> k <> key_newListener -> k <> key_removeListener -> rawListeners k s = [] ->
  exists s', main code on_warning (S fuel) (script ((fun x => OAdd x.1 k x.2) <$> fs)) s = Some (s', Ret RNone) /\
    warnings s' = warnings s ++
      match reported (_getMaxListeners s) (Z.of_nat (length fs)) with Some c => [(k, c)] | None => [] end.
Proof.
  intros Hsil Hwf Hu Hk1 Hk2 Hn.
  assert (limit_inv k (_getMaxListeners s) (warnings s) s) as Hlim.
  { change (view s k = []) in Hn. split; [done| |].
    - rewrite Hn, reported_one by (cbn; lia). by rewrite app_nil_r.
    - intros l a El Ht. rewrite (view_tview s l) in Hn by done.
      exfalso. eapply (slot_list_defined s l k); [apply Hwf|by rewrite Ht|done]. }
  destruct (wp_total _ _ _ (limit_script code on_warning fuel Hsil k _ _ 0 fs s Hwf Hu Hk1 Hk2 Hlim))
    as (s' & r & E & -> & [L1 L2 L3] & H2).
  exists s'. split; [exact E|]. rewrite L2, H2. change (view s k) with (rawListeners k s). by rewrite Hn.
Qed.

Lemma ee_limit_reported_once_witness :
  exists s', main ex_code ex_warning 1
    (script ((fun x => OAdd x.1 ev x.2) <$> replicate 13 (true, User 1))) (made None) = Some (s', Ret RNone) /\
    warnings s' = [(ev, 11)].
Proof.
  destruct (ee_limit_reported_once ex_code ex_warning 0 ev (replicate 13 (true, User 1)) (made None))
    as (s' & H1 & H2).
  - reflexivity.
  - by apply made_wf.
  - split; reflexivity.
  - discriminate.
  - discriminate.
  - reflexivity.
  - exists s'. split; [exact H1|]. rewrite H2. vm_compute. reflexivity.
Defined.
