(* ===== verification/Effects.v ===== *)
(** * Effects

    State, exceptions and fuel in one monad: what the loaders do to their caches
    and warnings, a JavaScript completion, and [None] when the fuel of a nested
    loop ran out.  [within] runs a computation on a part of the state. *)

From S2P Require Import Prelude.

Definition M (S A : Type) : Type := S -> option (S * result A).

Section Effects.
Context {S : Type}.

Definition ret {A} (a : A) : M S A := fun s => Some (s, Ok a).
Definition throw {A} (e : jserror) : M S A := fun s => Some (s, Throw e).
Definition lift {A} (r : result A) : M S A := fun s => Some (s, r).
Definition lift_fuel {A} (r : option (result A)) : M S A := fun s =>
  match r with None => None | Some r => Some (s, r) end.
Definition bind {A B} (m : M S A) (k : A -> M S B) : M S B := fun s =>
  match m s with
  | None => None
  | Some (s, Throw e) => Some (s, Throw e)
  | Some (s, Ok a) => k a s
  end.
(** [try { m } catch (e) { h(e) }], with what follows on success. *)
Definition attempt {A B} (m : M S A) (k : result A -> M S B) : M S B := fun s =>
  match m s with None => None | Some (s, r) => k r s end.
(** [try { m } finally { f }] *)
Definition finally {A} (m : M S A) (f : S -> S) : M S A := fun s =>
  match m s with None => None | Some (s, r) => Some (f s, r) end.
(** [try { m } finally { if (threw) f }] *)
Definition on_throw {A} (m : M S A) (f : S -> S) : M S A := fun s =>
  match m s with Some (s, Throw e) => Some (f s, Throw e) | o => o end.
Definition gets {A} (f : S -> A) : M S A := fun s => Some (s, Ok (f s)).
Definition modify (f : S -> S) : M S unit := fun s => Some (f s, Ok tt).
End Effects.

Definition within {S T A} (get : S -> T) (put : T -> S -> S) (m : M T A) : M S A := fun s =>
  match m (get s) with None => None | Some (t, r) => Some (put t s, r) end.

Declare Scope effect_scope.
Delimit Scope effect_scope with effect.
Notation "x <- m ;; k" := (bind m (fun x => k)) (at level 100, m at next level, k at level 200) : effect_scope.
Notation "m ;; k" := (bind m (fun _ => k)) (at level 100, k at level 200) : effect_scope.

Section Facts.
Context {S : Type}.

Lemma bind_ok {A B} (m : M S A) (k : A -> M S B) s s' b :
  bind m k s = Some (s', Ok b) <-> exists s1 a, m s = Some (s1, Ok a) /\ k a s1 = Some (s', Ok b).
Proof.
  unfold bind. destruct (m s) as [[s1 [a|e]]|]; split; try done.
  - eauto.
  - by intros (? & ? & [= -> ->] & ?).
  - by intros (? & ? & ? & _).
  - by intros (? & ? & ? & _).
Qed.

Lemma lift_ok {A} (r : result A) (s s' : S) a : lift r s = Some (s', Ok a) <-> s' = s /\ r = Ok a.
Proof. unfold lift. split; [by intros [= -> ->]|by intros [-> ->]]. Qed.

Lemma ret_ok {A} (a b : A) (s s' : S) : ret a s = Some (s', Ok b) <-> s' = s /\ b = a.
Proof. unfold ret. split; [by intros [= -> ->]|by intros [-> ->]]. Qed.
End Facts.

Lemma within_ok {S T A} (get : S -> T) put (m : M T A) s s' a :
  within get put m s = Some (s', Ok a) <-> exists t, m (get s) = Some (t, Ok a) /\ s' = put t s.
Proof.
  unfold within. destruct (m (get s)) as [[t r]|]; [|by split; [|intros (? & ? & _)]].
  split; [intros [= <- ->]; by eauto|]. by intros (? & [= -> ->] & ->).
Qed.

(** ** Invariants

    [upholds I m Q]: from a state that satisfies [I], [m] ends in one that does,
    whether it answers or throws, and what it answers satisfies [Q]. *)

Definition upholds {S A} (I : S -> Prop) (m : M S A) (Q : A -> Prop) : Prop :=
  forall s s' r, I s -> m s = Some (s', r) -> I s' /\ forall a, r = Ok a -> Q a.

Section Upholds.
Context {S : Type} (I : S -> Prop).

Lemma upholds_ret {A} (a : A) (Q : A -> Prop) : Q a -> upholds I (ret a) Q.
Proof. intros HQ s s' r HI [= <- <-]. split; [done|]. by intros ? [= ->]. Qed.

Lemma upholds_throw {A} e (Q : A -> Prop) : upholds I (throw e) Q.
Proof. intros s s' r HI [= <- <-]. by split. Qed.

Lemma upholds_lift {A} (r : result A) (Q : A -> Prop) : (forall a, r = Ok a -> Q a) -> upholds I (lift r) Q.
Proof. intros HQ s s' r' HI [= <- <-]. by split. Qed.

Lemma upholds_bind {A B} (m : M S A) (k : A -> M S B) (P : A -> Prop) (Q : B -> Prop) :
  upholds I m P -> (forall a, P a -> upholds I (k a) Q) -> upholds I (bind m k) Q.
Proof.
  intros Hm Hk s s' r HI. unfold bind. destruct (m s) as [[s1 [a|e]]|] eqn:E; [..|done].
  - destruct (Hm _ _ _ HI E) as [HI1 Ha]. apply Hk; [by apply Ha|done].
  - intros [= <- <-]. destruct (Hm _ _ _ HI E). by split.
Qed.

Lemma upholds_attempt {A B} (m : M S A) (k : result A -> M S B) (P : A -> Prop) (Q : B -> Prop) :
  upholds I m P -> (forall r, (forall a, r = Ok a -> P a) -> upholds I (k r) Q) -> upholds I (attempt m k) Q.
Proof.
  intros Hm Hk s s' r HI. unfold attempt. destruct (m s) as [[s1 r1]|] eqn:E; [|done].
  destruct (Hm _ _ _ HI E) as [HI1 Ha]. by apply Hk.
Qed.

Lemma upholds_weaken {A} (m : M S A) (P Q : A -> Prop) :
  upholds I m P -> (forall a, P a -> Q a) -> upholds I m Q.
Proof. intros Hm HPQ s s' r HI E. destruct (Hm _ _ _ HI E) as [H1 H2]. split; [done|]. intros a Ha. by apply HPQ, H2. Qed.

Lemma upholds_gets {A} (f : S -> A) (Q : A -> Prop) : (forall s, I s -> Q (f s)) -> upholds I (gets f) Q.
Proof. intros HQ s s' r HI [= <- <-]. split; [done|]. intros a [= <-]. by apply HQ. Qed.

Lemma upholds_modify f : (forall s, I s -> I (f s)) -> upholds I (modify f) (fun _ => True).
Proof. intros Hf s s' r HI [= <- <-]. split; [by apply Hf|done]. Qed.

(** A part of the state that the invariant says nothing about. *)
Lemma upholds_within {T A} (get : S -> T) put (m : M T A) :
  (forall t s, I s -> I (put t s)) -> upholds I (within get put m) (fun _ => True).
Proof.
  intros Hput s s' r HI. unfold within. destruct (m (get s)) as [[t r1]|]; [|done].
  intros [= <- _]. split; [by apply Hput|done].
Qed.
End Upholds.

(** ** Results

    [gives I m r J]: from any state that satisfies [I], [m] completes with [r] in
    a state that satisfies [J]. *)

Definition gives {S A} (I : S -> Prop) (m : M S A) (r : result A) (J : S -> Prop) : Prop :=
  forall s, I s -> exists s', m s = Some (s', r) /\ J s'.

Section Gives.
Context {S : Type}.

Lemma gives_lift {A} (I : S -> Prop) (r : result A) : gives I (lift r) r I.
Proof. intros s HI. by exists s. Qed.

Lemma gives_ret {A} (I : S -> Prop) (a : A) : gives I (ret a) (Ok a) I.
Proof. intros s HI. by exists s. Qed.

Lemma gives_throw {A} (I : S -> Prop) e : gives (A := A) I (throw e) (Throw e) I.
Proof. intros s HI. by exists s. Qed.

Lemma gives_bind {A B} (I J K : S -> Prop) (m : M S A) (k : A -> M S B) a r :
  gives I m (Ok a) J -> gives J (k a) r K -> gives I (bind m k) r K.
Proof.
  intros Hm Hk s HI. destruct (Hm s HI) as (s1 & E1 & H1). destruct (Hk s1 H1) as (s2 & E2 & H2).
  exists s2. split; [|done]. unfold bind. by rewrite E1.
Qed.
End Gives.

(** ** Triples

    [triple P m Q]: from a state that satisfies [P], a completion [r] of [m] and
    the state it ends in satisfy [Q r]; [total m]: [m] completes. *)

Definition triple {S A} (P : S -> Prop) (m : M S A) (Q : result A -> S -> Prop) : Prop :=
  forall s s' r, P s -> m s = Some (s', r) -> Q r s'.

Definition total {S A} (m : M S A) : Prop := forall s, exists s' r, m s = Some (s', r).

(** A postcondition on what is answered; an exception leaves [I]. *)
Definition or_throw {S A} (I : S -> Prop) (Q : A -> S -> Prop) (r : result A) (s : S) : Prop :=
  match r with Ok a => Q a s | Throw _ => I s end.

Section Triples.
Context {S : Type}.

Lemma triple_ret {A} (P : S -> Prop) (a : A) Q : (forall s, P s -> Q (Ok a) s) -> triple P (ret a) Q.
Proof. intros H s s' r HP [= <- <-]. by apply H. Qed.

Lemma triple_throw {A} (P : S -> Prop) e Q : (forall s, P s -> Q (Throw e) s) -> triple (A := A) P (throw e) Q.
Proof. intros H s s' r HP [= <- <-]. by apply H. Qed.

Lemma triple_lift {A} (P : S -> Prop) (x : result A) Q : (forall s, P s -> Q x s) -> triple P (lift x) Q.
Proof. intros H s s' r HP [= <- <-]. by apply H. Qed.

Lemma triple_gets {A} (P : S -> Prop) (f : S -> A) Q : (forall s, P s -> Q (Ok (f s)) s) -> triple P (gets f) Q.
Proof. intros H s s' r HP [= <- <-]. by apply H. Qed.

Lemma triple_modify (P : S -> Prop) f Q : (forall s, P s -> Q (Ok tt) (f s)) -> triple P (modify f) Q.
Proof. intros H s s' r HP [= <- <-]. by apply H. Qed.

Lemma triple_bind {A B} (P : S -> Prop) (m : M S A) (k : A -> M S B) (R : A -> S -> Prop) Q :
  triple P m (fun r s => match r with Ok a => R a s | Throw e => Q (Throw e) s end) ->
  (forall a, triple (R a) (k a) Q) -> triple P (bind m k) Q.
Proof.
  intros Hm Hk s s' r HP. unfold bind. destruct (m s) as [[s1 [a|e]]|] eqn:E; [..|done].
  - intros E2. eapply Hk; [|exact E2]. exact (Hm _ _ _ HP E).
  - intros [= <- <-]. exact (Hm _ _ _ HP E).
Qed.

Lemma triple_attempt {A B} (P : S -> Prop) (m : M S A) (k : result A -> M S B) (R : result A -> S -> Prop) Q :
  triple P m R -> (forall r, triple (R r) (k r) Q) -> triple P (attempt m k) Q.
Proof.
  intros Hm Hk s s' r HP. unfold attempt. destruct (m s) as [[s1 r1]|] eqn:E; [|done].
  intros E2. eapply Hk; [|exact E2]. exact (Hm _ _ _ HP E).
Qed.

Lemma triple_finally {A} (P : S -> Prop) (m : M S A) f Q :
  triple P m (fun r s => Q r (f s)) -> triple P (finally m f) Q.
Proof.
  intros Hm s s' r HP. unfold finally. destruct (m s) as [[s1 r1]|] eqn:E; [|done].
  intros [= <- <-]. exact (Hm _ _ _ HP E).
Qed.

Lemma triple_on_throw {A} (P : S -> Prop) (m : M S A) f Q :
  triple P m (fun r s => match r with Ok _ => Q r s | Throw _ => Q r (f s) end) -> triple P (on_throw m f) Q.
Proof.
  intros Hm s s' r HP. unfold on_throw. destruct (m s) as [[s1 [a|e]]|] eqn:E; [| |done];
    intros [= <- <-]; exact (Hm _ _ _ HP E).
Qed.

Lemma triple_weaken {A} (P P' : S -> Prop) (m : M S A) (Q Q' : result A -> S -> Prop) :
  triple P m Q -> (forall s, P' s -> P s) -> (forall r s, Q r s -> Q' r s) -> triple P' m Q'.
Proof. intros Hm HP HQ s s' r H E. apply HQ. eapply Hm; [by apply HP|done]. Qed.

Lemma triple_pure {A} (P : S -> Prop) (phi : Prop) (m : M S A) Q :
  (phi -> triple P m Q) -> triple (fun s => P s /\ phi) m Q.
Proof. intros H s s' r [HP Hphi]. by apply H. Qed.

Lemma upholds_triple {A} (I : S -> Prop) (m : M S A) : triple I m (fun _ => I) <-> upholds I m (fun _ => True).
Proof. split; intros H s s' r HI E; [split; [by eapply H|done]|by eapply H]. Qed.

Lemma total_ret {A} (a : A) : total (S := S) (ret a).
Proof. intros s. by do 2 eexists. Qed.
Lemma total_throw {A} e : total (S := S) (A := A) (throw e).
Proof. intros s. by do 2 eexists. Qed.
Lemma total_lift {A} (r : result A) : total (S := S) (lift r).
Proof. intros s. by do 2 eexists. Qed.
Lemma total_gets {A} (f : S -> A) : total (gets f).
Proof. intros s. by do 2 eexists. Qed.
Lemma total_modify (f : S -> S) : total (modify f).
Proof. intros s. by do 2 eexists. Qed.
Lemma total_bind {A B} (m : M S A) (k : A -> M S B) : total m -> (forall a, total (k a)) -> total (bind m k).
Proof.
  intros Hm Hk s. destruct (Hm s) as (s1 & [a|e] & E); unfold bind; rewrite E; [apply Hk|by do 2 eexists].
Qed.
Lemma total_attempt {A B} (m : M S A) (k : result A -> M S B) : total m -> (forall r, total (k r)) -> total (attempt m k).
Proof. intros Hm Hk s. destruct (Hm s) as (s1 & r & E). unfold attempt. rewrite E. apply Hk. Qed.
End Triples.

Lemma total_within {S T A} (get : S -> T) put (m : M T A) : total m -> total (within get put m).
Proof. intros Hm s. destruct (Hm (get s)) as (t & r & E). unfold within. rewrite E. by do 2 eexists. Qed.

Create HintDb total.
#[export] Hint Resolve total_ret total_throw total_lift total_gets total_modify total_bind total_attempt total_within : total.
