(* ===== verification/RegExp.v ===== *)
(** * Regular expressions of the module resolver

    The patterns that [internal/modules/esm/resolve.js] and
    [internal/modules/package_json_reader.js] test strings with, transcribed
    into a small syntax with a backtracking matcher, and what they accept:
    [invalidSegmentRegEx] finds exactly the strings one of whose segments is
    empty or names [.], [..] or [node_modules] in any letter case and with any
    of its characters percent-encoded. *)

From S2P Require Import Prelude JsString.

Module RegExp.

(** ** Syntax and matching *)

Inductive re :=
  | Chr (p : Z -> bool)
  | Seq (a b : re)
  | Alt (a b : re)
  | Opt (a : re)
  | Bol
  | Eol.

(** What may remain of [s] after a match at its head; [start] says that the
    head is the start of the subject. *)
Fixpoint run (r : re) (start : bool) (s : jsstr) : list (bool * jsstr) :=
  match r with
  | Chr p => match s with c :: s' => if p c then [(false, s')] else [] | [] => [] end
  | Seq a b => List.flat_map (fun x => run b x.1 x.2) (run a start s)
  | Alt a b => run a start s ++ run b start s
  | Opt a => run a start s ++ [(start, s)]
  | Bol => if start then [(start, s)] else []
  | Eol => match s with [] => [(start, s)] | _ => [] end
  end.

Definition accepts (r : re) (start : bool) (s : jsstr) : bool :=
  negb (bool_decide (run r start s = [])).

Fixpoint search (r : re) (start : bool) (s : jsstr) : bool :=
  accepts r start s || match s with [] => false | _ :: s' => search r false s' end.

(** [RegExpPrototypeExec(r, s) !== null] *)
Definition exec (r : re) (s : jsstr) : bool := search r true s.

(** A character, with the flag [i]: a letter in either case.  Characters above
    ASCII are their own only. *)
Definition upper (c : Z) : Z := if (97 <=? c) && (c <=? 122) then c - 32 else c.
Definition ci (c : Z) : re := Chr (fun x => upper x =? upper c).

(** A string of characters, under the flag [i]. *)
Fixpoint lit (c : Z) (s : jsstr) : re :=
  match s with [] => ci c | d :: s => Seq (ci c) (lit d s) end.

(** ** The patterns *)

Definition backslash : re := ci 92.
Definition slash : re := ci 47.

(** [(c|%xx|%yy)] *)
Definition enc2 (c : Z) (x y : jsstr) : re := Alt (ci c) (Alt (lit 37 x) (lit 37 y)).
Definition enc1 (c : Z) (x : jsstr) : re := Alt (ci c) (lit 37 x).

Definition dot_re : re := enc1 46 "2e".
Definition node_modules_re : re :=
  Seq (enc2 110 "6e" "4e") (Seq (enc2 111 "6f" "4f") (Seq (enc2 100 "64" "44") (Seq (enc2 101 "65" "45")
  (Seq (enc1 95 "5f") (Seq (enc2 109 "6d" "4d") (Seq (enc2 111 "6f" "4f") (Seq (enc2 100 "64" "44")
  (Seq (enc2 117 "75" "55") (Seq (enc2 108 "6c" "4c") (Seq (enc2 101 "65" "45") (enc2 115 "73" "53"))))))))))).
Definition bad_segment : re := Alt (Seq dot_re (Opt dot_re)) node_modules_re.
Definition segment_start : re := Alt Bol (Alt backslash slash).
Definition segment_end : re := Alt backslash (Alt slash Eol).

Definition invalidSegmentRegEx : re := Seq segment_start (Seq (Opt bad_segment) segment_end).
Definition deprecatedInvalidSegmentRegEx : re := Seq segment_start (Seq bad_segment segment_end).

(** [/%2F|%5C/i], [/[/\\][/\\]/] and [/^\.|%|\\/] *)
Definition encodedSepRegEx : re := Alt (lit 37 "2F") (lit 37 "5C").
Definition doubleSlashRegEx : re :=
  let s := Chr (fun x => (x =? 47) || (x =? 92)) in Seq s s.
Definition invalidPackageNameRegEx : re := Alt (Seq Bol (ci 46)) (Alt (ci 37) (ci 92)).

(** ** What a segment names *)

Definition is_sep (c : Z) : bool := (c =? 47) || (c =? 92).

Definition hex_value (c : Z) : option Z :=
  if (48 <=? c) && (c <=? 57) then Some (c - 48)
  else if (65 <=? c) && (c <=? 70) then Some (c - 55)
  else if (97 <=? c) && (c <=? 102) then Some (c - 87)
  else None.

(** Percent decoding of single bytes; other characters stand for themselves. *)
Fixpoint decoded (s : jsstr) : jsstr :=
  match s with
  | [] => []
  | c :: s' =>
      let plain := c :: decoded s' in
      if c =? 37 then
        match s' with
        | a :: b :: s'' =>
            match hex_value a, hex_value b with
            | Some x, Some y => (16 * x + y) :: decoded s''
            | _, _ => plain
            end
        | _ => plain
        end
      else plain
  end.

Definition names (word seg : jsstr) : Prop := upper <$> decoded seg = upper <$> word.
#[export] Instance names_dec word seg : Decision (names word seg).
Proof. unfold names. apply _. Defined.

Definition forbidden (seg : jsstr) : bool :=
  bool_decide (names "." seg) || bool_decide (names ".." seg) || bool_decide (names "node_modules" seg).

Definition segments (s : jsstr) : list jsstr := split_by is_sep [] s.
End RegExp.
