(* ===== verification/RegExpFacts.v ===== *)
(** * What the patterns of the module resolver accept *)

From S2P Require Import Prelude JsString RegExp.
Import RegExp.

(** ** Languages *)

(** The words of a pattern without anchors. *)
Fixpoint lang (r : re) (w : jsstr) : Prop :=
  match r with
  | Chr p => exists c, w = [c] /\ p c = true
  | Seq a b => exists u v, w = u ++ v /\ lang a u /\ lang b v
  | Alt a b => lang a w \/ lang b w
  | Opt a => lang a w \/ w = []
  | Bol | Eol => False
  end.

Fixpoint anchored (r : re) : bool :=
  match r with
  | Chr _ => false
  | Seq a b | Alt a b => anchored a || anchored b
  | Opt a => anchored a
  | Bol | Eol => true
  end.

Lemma run_lang r : anchored r = false -> forall b s t,
  (exists b', (b', t) ∈ run r b s) <-> exists w, s = w ++ t /\ lang r w.
Proof.
  induction r as [p|r1 IH1 r2 IH2|r1 IH1 r2 IH2|r IH| |]; cbn [anchored run lang];
    rewrite ?orb_false_iff; try done.
  - intros _ b s t. destruct s as [|c s].
    + split; [intros (? & ?%elem_of_nil); done|intros (w & E & c & -> & _); done].
    + destruct (p c) eqn:Hp.
      * split.
        -- intros (b' & [= -> ->]%list_elem_of_singleton). exists [c]. eauto.
        -- intros (w & E & c' & -> & Hc). injection E as <- <-. exists false. by apply list_elem_of_singleton.
      * split; [intros (? & ?%elem_of_nil); done|]. intros (w & E & c' & -> & Hc). injection E as <- <-. congruence.
  - intros [H1 H2] b s t. setoid_rewrite list_elem_of_In. setoid_rewrite in_flat_map. split.
    + intros (b' & [b1 s1] & Hin1 & Hin2). cbn in Hin2.
      destruct (proj1 (IH1 H1 b s s1)) as (u & -> & Hu); [exists b1; by apply list_elem_of_In|].
      destruct (proj1 (IH2 H2 b1 s1 t)) as (v & -> & Hv); [exists b'; by apply list_elem_of_In|].
      exists (u ++ v). rewrite <- app_assoc. split; [done|]. eauto.
    + intros (w & -> & u & v & -> & Hu & Hv). rewrite <- app_assoc.
      destruct (proj2 (IH1 H1 b (u ++ v ++ t) (v ++ t))) as (b1 & Hb1); [eauto|].
      destruct (proj2 (IH2 H2 b1 (v ++ t) t)) as (b' & Hb'); [eauto|].
      exists b', (b1, v ++ t). cbn. split; by apply list_elem_of_In.
  - intros [H1 H2] b s t. setoid_rewrite elem_of_app. split.
    + intros (b' & [H|H]); [destruct (proj1 (IH1 H1 b s t)) as (w & -> & Hw)|
        destruct (proj1 (IH2 H2 b s t)) as (w & -> & Hw)]; eauto.
    + intros (w & -> & [Hw|Hw]); [destruct (proj2 (IH1 H1 b (w ++ t) t)) as (b' & ?)|
        destruct (proj2 (IH2 H2 b (w ++ t) t)) as (b' & ?)]; eauto.
  - intros H b s t. setoid_rewrite elem_of_app. setoid_rewrite list_elem_of_singleton. split.
    + intros (b' & [Hin|[= -> ->]]); [|by exists []; eauto].
      destruct (proj1 (IH H b s t)) as (w & -> & Hw); eauto.
    + intros (w & -> & [Hw| ->]); [|eauto]. destruct (proj2 (IH H b (w ++ t) t)) as (b' & ?); eauto.
Qed.

Lemma accepts_true r b s : accepts r b s = true <-> exists x, x ∈ run r b s.
Proof.
  unfold accepts. rewrite negb_true_iff, bool_decide_eq_false. destruct (run r b s) as [|x l]; split.
  - done.
  - by intros (x & ?%elem_of_nil).
  - intros _. exists x. by left.
  - done.
Qed.

Lemma accepts_seq a b start s :
  accepts (Seq a b) start s = true <->
  exists b' t, (b', t) ∈ run a start s /\ accepts b b' t = true.
Proof.
  rewrite accepts_true. cbn [run]. setoid_rewrite list_elem_of_In. setoid_rewrite in_flat_map. split.
  - intros (x & [b' t] & H1 & H2). exists b', t. split; [done|].
    apply accepts_true. exists x. by apply list_elem_of_In.
  - intros (b' & t & H1 & (x & H2)%accepts_true). exists x, (b', t).
    split; [done|]. by apply list_elem_of_In.
Qed.

(** ** Segments *)

(** The end of a segment: the end of the string or a separator. *)
Definition boundary (t : jsstr) : Prop := match t with [] => True | c :: _ => is_sep c = true end.

Lemma end_accepts b t : accepts segment_end b t = true <-> boundary t.
Proof.
  unfold segment_end, accepts. destruct t as [|c t]; [done|]. cbn -[upper]. unfold is_sep.
  rewrite negb_true_iff, bool_decide_eq_false.
  assert (forall x, x = 92 \/ x = 47 -> (upper c =? upper x) = (c =? x)) as Hu.
  { intros x Hx. unfold upper. destruct ((97 <=? c) && (c <=? 122)) eqn:E; bool_hyps;
      destruct Hx as [-> | ->]; cbn; apply Bool.eq_true_iff_eq; rewrite !Z.eqb_eq; lia. }
  rewrite !Hu by auto. destruct (c =? 92) eqn:E1, (c =? 47) eqn:E2; cbn; naive_solver.
Qed.

Fixpoint first (s : jsstr) : jsstr :=
  match s with [] => [] | c :: s => if is_sep c then [] else c :: first s end.

Lemma first_unique w t : Forall (fun c => is_sep c = false) w -> boundary t -> first (w ++ t) = w.
Proof.
  intros Hw Ht. induction Hw as [|c w Hc _ IH]; cbn.
  - destruct t as [|c t]; [done|]. cbn in *. by rewrite Ht.
  - by rewrite Hc, IH.
Qed.

Lemma first_split s : exists t, s = first s ++ t /\ boundary t /\ Forall (fun c => is_sep c = false) (first s).
Proof.
  induction s as [|c s (t & E & Ht & Hf)]; [by exists []|]. cbn. destruct (is_sep c) eqn:Hc.
  - by exists (c :: s).
  - exists t. cbn. rewrite <- E. split_and!; [done..|]. by constructor.
Qed.

Lemma split_by_first acc s :
  split_by is_sep acc s = (acc ++ first s) :: tail (segments s).
Proof.
  unfold segments. revert acc. induction s as [|c s IH]; intros acc; cbn; [by rewrite app_nil_r|].
  destruct (is_sep c); cbn; [by rewrite app_nil_r|]. rewrite IH, (IH [c]), <- app_assoc. done.
Qed.

Lemma segments_first s : segments s = first s :: tail (segments s).
Proof. apply (split_by_first [] s). Qed.

Lemma segments_tail c s :
  tail (segments (c :: s)) = if is_sep c then segments s else tail (segments s).
Proof.
  unfold segments at 1. cbn. destruct (is_sep c); [done|]. by rewrite split_by_first.
Qed.

(** Patterns [(^|\\|\/)body]: [body] is tried at the start of each segment. *)
Lemma search_segments body (P : jsstr -> bool) s :
  (forall b s, accepts body b s = P (first s)) ->
  exec (Seq segment_start body) s = existsb P (segments s).
Proof.
  intros Hb.
  assert (forall b s, accepts (Seq segment_start body) b s =
            (b && P (first s)) || match s with c :: s' => is_sep c && P (first s') | [] => false end) as Ha.
  { intros b u. apply Bool.eq_true_iff_eq. rewrite accepts_seq. unfold segment_start. cbn [run].
    setoid_rewrite Hb. rewrite orb_true_iff. split.
    - intros (b' & t & Hin & HP). apply elem_of_app in Hin as [Hin|Hin].
      + left. destruct b; [|by apply elem_of_nil in Hin]. apply list_elem_of_singleton in Hin as [= -> ->].
        by rewrite HP.
      + right. destruct u as [|c u]; [by apply elem_of_nil in Hin|].
        apply andb_true_iff.
        assert (is_sep c = true /\ t = u) as [? ->]; [|done].
        assert (boundary (c :: u)) as Hbd.
        { apply (end_accepts false). apply accepts_true. exists (b', t). unfold segment_end. cbn [run].
          cbn in Hin. rewrite elem_of_app. rewrite elem_of_app in Hin. destruct Hin as [|]; [by left|].
          right. rewrite elem_of_app. by left. }
        split; [exact Hbd|]. cbn in Hin. rewrite elem_of_app in Hin.
        by destruct Hin as [Hin|Hin]; destruct (_ =? _) in Hin; cbn in Hin;
          (apply list_elem_of_singleton in Hin as [= _ ->] || apply elem_of_nil in Hin).
    - intros [H|H].
      + apply andb_true_iff in H as [-> HP]. exists true, u. split; [|done]. apply elem_of_app. left. by left.
      + destruct u as [|c u]; [done|]. apply andb_true_iff in H as [Hc HP]. exists false, u. split; [|done].
        apply elem_of_app. right. unfold is_sep in Hc. apply orb_true_iff in Hc.
        cbn. apply elem_of_app. destruct Hc as [Hc|Hc]; bool_hyps; subst c; cbn; [right|left]; by left. }
  assert (forall s, search (Seq segment_start body) false s = existsb P (tail (segments s))) as Hf.
  { intros v. induction v as [|c u IH]; cbn [search]; rewrite Ha; cbn [andb orb]; [done|].
    rewrite IH, segments_tail. destruct (is_sep c); [|done]. by rewrite (segments_first u). }
  unfold exec. rewrite segments_first. cbn [existsb]. rewrite <- Hf.
  destruct s as [|c u]; cbn [search]; rewrite !Ha; cbn [andb]; [by rewrite !orb_false_r|].
  by rewrite orb_false_l, orb_assoc.
Qed.

(** ** Encoded letters *)

Definition hexchar (v : Z) : Z := if v <? 10 then 48 + v else 55 + v.

Lemma hex_value_upper a v :
  hex_value a = Some v <-> 0 <= v <= 15 /\ upper a = hexchar v.
Proof.
  unfold hex_value, upper, hexchar.
  destruct ((48 <=? a) && (a <=? 57)) eqn:E1, ((65 <=? a) && (a <=? 70)) eqn:E2,
    ((97 <=? a) && (a <=? 102)) eqn:E3, ((97 <=? a) && (a <=? 122)) eqn:E4, (v <? 10) eqn:E5;
    rewrite ?andb_true_iff, ?andb_false_iff, ?Z.leb_le, ?Z.leb_gt, ?Z.ltb_lt, ?Z.ltb_ge in *;
    (split; [intros H; simplify_eq; lia|intros [? ?]; try lia; f_equal; lia]).
Qed.

Lemma upper_percent c : upper c = 37 <-> c = 37.
Proof. unfold upper. destruct (_ && _) eqn:E; bool_hyps; lia. Qed.

(** [w] is [x], in either case, or its percent-encoding. *)
Definition one (x : Z) (w : jsstr) : Prop :=
  (exists c, w = [c] /\ upper c = upper x) \/
  (exists a b v v', w = [37; a; b] /\ hex_value a = Some v /\ hex_value b = Some v' /\
                    upper (16 * v + v') = upper x).

Lemma lang_ci c w : lang (ci c) w <-> exists d, w = [d] /\ upper d = upper c.
Proof. cbn. setoid_rewrite Z.eqb_eq. done. Qed.

Lemma lang_percent x y w :
  lang (lit 37 [x; y]) w <-> exists a b, w = [37; a; b] /\ upper a = upper x /\ upper b = upper y.
Proof.
  cbn [lit lang]. split.
  - intros (u & v & -> & (p & -> & Hp)%lang_ci & u' & v' & -> & (a & -> & Ha)%lang_ci & (b & -> & Hb)%lang_ci).
    apply upper_percent in Hp as ->. exists a, b. done.
  - intros (a & b & -> & Ha & Hb). exists [37], [a; b]. split_and!; [done|by apply lang_ci; exists 37|].
    exists [a], [b]. split_and!; [done|by apply lang_ci; eauto|by apply lang_ci; eauto].
Qed.

Lemma enc1_one c x y :
  0 <= c < 65 \/ 90 < c < 97 -> upper x = hexchar (c / 16) -> upper y = hexchar (c mod 16) ->
  forall w, lang (enc1 c [x; y]) w <-> one c w.
Proof.
  intros Hc Hx Hy w. unfold enc1. cbn [lang]. rewrite lang_percent, lang_ci. unfold one. apply or_iff_compat_l.
  assert (upper c = c) as Hu by (unfold upper; destruct (_ && _) eqn:E; bool_hyps; lia).
  pose proof (Z.div_mod c 16 ltac:(lia)). pose proof (Z.mod_pos_bound c 16 ltac:(lia)).
  rewrite Hx, Hy. split.
  - intros (a & b & -> & Ha & Hb). exists a, b, (c / 16), (c mod 16).
    rewrite !hex_value_upper. split_and!; [done|lia|lia|done|lia|lia|done|].
    by rewrite <- Z.div_mod by lia.
  - intros (a & b & v & v' & -> & [Hv Ha]%hex_value_upper & [Hv' Hb]%hex_value_upper & E). exists a, b.
    rewrite Ha, Hb. rewrite Hu in E. assert (16 * v + v' = c) as Hc'.
    { unfold upper in E. destruct (_ && _) eqn:E'; bool_hyps; lia. }
    assert (v = c / 16) as -> by lia. by assert (v' = c mod 16) as -> by lia.
Qed.

Lemma enc2_one c x y x' y' :
  97 <= c <= 122 -> upper x = hexchar (c / 16) -> upper y = hexchar (c mod 16) ->
  upper x' = hexchar ((c - 32) / 16) -> upper y' = hexchar ((c - 32) mod 16) ->
  forall w, lang (enc2 c [x; y] [x'; y']) w <-> one c w.
Proof.
  intros Hc Hx Hy Hx' Hy' w. unfold enc2. cbn [lang]. rewrite !lang_percent, lang_ci. unfold one.
  apply or_iff_compat_l.
  assert (upper c = c - 32) as Hu by (unfold upper; destruct (_ && _) eqn:E; [done|bool_hyps];
    rewrite andb_false_iff, !Z.leb_gt in E; lia).
  pose proof (Z.div_mod c 16 ltac:(lia)). pose proof (Z.mod_pos_bound c 16 ltac:(lia)).
  pose proof (Z.div_mod (c - 32) 16 ltac:(lia)). pose proof (Z.mod_pos_bound (c - 32) 16 ltac:(lia)).
  rewrite Hx, Hy, Hx', Hy', Hu. split.
  - intros [(a & b & -> & Ha & Hb)|(a & b & -> & Ha & Hb)]; exists a, b.
    + exists (c / 16), (c mod 16). rewrite !hex_value_upper. split_and!; [done|lia|lia|done|lia|lia|done|].
      by rewrite <- Z.div_mod by lia.
    + exists ((c - 32) / 16), ((c - 32) mod 16). rewrite !hex_value_upper.
      split_and!; [done|lia|lia|done|lia|lia|done|]. rewrite <- Z.div_mod by lia.
      unfold upper. destruct (_ && _) eqn:E; bool_hyps; lia.
  - intros (a & b & v & v' & -> & [Hv Ha]%hex_value_upper & [Hv' Hb]%hex_value_upper & E).
    assert (16 * v + v' = c \/ 16 * v + v' = c - 32) as [Hc'|Hc'].
    { unfold upper in E. destruct (_ && _) eqn:E'; bool_hyps; lia. }
    + left. exists a, b. rewrite Ha, Hb. assert (v = c / 16) as -> by lia. by assert (v' = c mod 16) as -> by lia.
    + right. exists a, b. rewrite Ha, Hb. assert (v = (c - 32) / 16) as -> by lia.
      by assert (v' = (c - 32) mod 16) as -> by lia.
Qed.

(** A word spelled letter by letter. *)
Fixpoint spelled (xs w : jsstr) : Prop :=
  match xs with
  | [] => w = []
  | x :: xs => exists u v, w = u ++ v /\ one x u /\ spelled xs v
  end.

Lemma spelled_names xs w : Forall (fun x => upper x <> 37) xs -> spelled xs w <-> names xs w.
Proof.
  intros H. revert w. induction H as [|x xs Hx _ IH]; intros w; cbn [spelled].
  - split; [by intros ->|]. intros E. destruct w as [|c w]; [done|]. unfold names in E. cbn in E.
    repeat match type of E with context [match ?e with _ => _ end] => destruct e end; done.
  - unfold names in *. split.
    + intros (u & v & -> & [(c & -> & Hc)|(a & b & n & n' & -> & Ha & Hb & E)] & Hv%IH).
      * cbn. destruct (c =? 37) eqn:Ec; bool_hyps; [subst c; cbn in Hc; congruence|].
        cbn. by rewrite Hc, Hv.
      * cbn. rewrite Ha, Hb. cbn. f_equal; [exact E|exact Hv].
    + intros E. destruct w as [|c w]; [done|]. cbn [decoded] in E.
      assert (upper <$> c :: decoded w = upper <$> x :: xs -> c <> 37 ->
              exists u v, c :: w = u ++ v /\ one x u /\ spelled xs v) as Hplain.
      { cbn. intros [= E1 E2] Hc. exists [c], w. split_and!; [done|left; eauto|by apply IH]. }
      destruct (c =? 37) eqn:Ec; bool_hyps; [subst c|by apply Hplain].
      destruct w as [|a [|b w]]; [cbn in E; injection E as E _; congruence..|].
      destruct (hex_value a) as [n|] eqn:Ha, (hex_value b) as [n'|] eqn:Hb;
        [|cbn in E; injection E as E _; congruence..].
      cbn in E. injection E as E1 E2. exists [37; a; b], w. split_and!; [done| |by apply IH].
      right. exists a, b, n, n'. split_and!; [done..|]. exact E1.
Qed.

(** ** Forbidden segments *)

Lemma seq_spelled r rest x xs :
  (forall w, lang r w <-> one x w) -> (forall w, lang rest w <-> spelled xs w) ->
  forall w, lang (Seq r rest) w <-> spelled (x :: xs) w.
Proof. intros H1 H2 w. cbn. setoid_rewrite H1. setoid_rewrite H2. done. Qed.

Lemma one_spelled r x : (forall w, lang r w <-> one x w) -> forall w, lang r w <-> spelled [x] w.
Proof.
  intros H w. rewrite H. cbn. split.
  - intros Hw. exists w, []. by rewrite app_nil_r.
  - intros (u & v & -> & Hu & ->). by rewrite app_nil_r.
Qed.

Lemma dot_one w : lang dot_re w <-> one 46 w.
Proof. apply enc1_one; [lia|done|done]. Qed.

Lemma node_modules_spelled w : lang node_modules_re w <-> spelled "node_modules" w.
Proof.
  unfold node_modules_re.
  repeat (apply seq_spelled;
    [intros; first [apply enc2_one; [lia|done..] | apply enc1_one; [lia|done..]]|]; clear w; intros w).
  apply one_spelled. intros. apply enc2_one; [lia|done..].
Qed.

Lemma dots_spelled w : lang (Seq dot_re (Opt dot_re)) w <-> spelled "." w \/ spelled ".." w.
Proof.
  cbn [lang spelled]. setoid_rewrite dot_one. split.
  - intros (u & v & -> & Hu & [Hv| ->]); [right|left]; exists u, v || exists u, []; [|by rewrite app_nil_r].
    split_and!; [done..|]. exists v, []. by rewrite app_nil_r.
  - intros [(u & v & -> & Hu & ->)|(u & v & -> & Hu & u' & v' & -> & Hu' & ->)].
    + exists u, []. auto.
    + exists u, u'. rewrite app_nil_r. auto.
Qed.

Lemma bad_forbidden w : lang bad_segment w <-> forbidden w = true.
Proof.
  unfold forbidden. rewrite !orb_true_iff, !bool_decide_eq_true.
  rewrite <- !spelled_names by (repeat constructor; done).
  change (lang (Seq dot_re (Opt dot_re)) w \/ lang node_modules_re w <->
          (spelled "." w \/ spelled ".." w) \/ spelled "node_modules" w).
  by rewrite dots_spelled, node_modules_spelled.
Qed.

Lemma hex_not_sep a v : hex_value a = Some v -> is_sep a = false.
Proof.
  unfold hex_value, is_sep. destruct (a =? 47) eqn:E1, (a =? 92) eqn:E2; bool_hyps; subst; try done; lia.
Qed.

Lemma one_no_sep x u :
  is_sep x = false -> ~ (65 <= x <= 90) -> one x u -> u <> [] /\ Forall (fun c => is_sep c = false) u.
Proof.
  intros Hx Hu [(c & -> & Hc)|(a & b & v & v' & -> & Ha & Hb & _)].
  - split; [done|]. apply Forall_singleton. unfold is_sep, upper in *.
    destruct ((97 <=? c) && (c <=? 122)) eqn:E1, ((97 <=? x) && (x <=? 122)) eqn:E2; bool_hyps;
      rewrite ?orb_false_iff, ?Z.eqb_neq in *; lia.
  - split; [done|]. repeat (apply Forall_cons; split); [done|by eapply hex_not_sep..|constructor].
Qed.

Lemma spelled_no_sep xs w :
  xs <> [] -> Forall (fun x => is_sep x = false /\ ~ (65 <= x <= 90)) xs -> spelled xs w ->
  w <> [] /\ Forall (fun c => is_sep c = false) w.
Proof.
  intros Hne H. revert w. induction H as [|x xs [H1 H2] H IH]; [done|]. intros w (u & v & -> & Hu & Hv).
  destruct (one_no_sep x u H1 H2 Hu) as [Hn Hf]. split; [by destruct u|]. apply Forall_app. split; [done|].
  destruct xs as [|y xs]; [by cbn in Hv; subst|]. by apply IH.
Qed.

Lemma forbidden_word w : forbidden w = true -> w <> [] /\ Forall (fun c => is_sep c = false) w.
Proof.
  unfold forbidden. rewrite !orb_true_iff, !bool_decide_eq_true.
  rewrite <- !spelled_names by (repeat constructor; done).
  intros [[H|H]|H]; (eapply spelled_no_sep; [| |exact H]; [done|repeat constructor; done || lia]).
Qed.

Lemma check_spec (empty : bool) b s :
  accepts (Seq (if empty then Opt bad_segment else bad_segment) segment_end) b s =
  (empty && bool_decide (first s = [])) || forbidden (first s).
Proof.
  apply Bool.eq_true_iff_eq. rewrite accepts_seq, orb_true_iff, andb_true_iff, bool_decide_eq_true.
  destruct (first_split s) as (t0 & E0 & Ht0 & Hf0).
  assert ((exists b' t, (b', t) ∈ run (if empty then Opt bad_segment else bad_segment) b s /\
             accepts segment_end b' t = true) <->
          exists w t, s = w ++ t /\ lang (if empty then Opt bad_segment else bad_segment) w /\ boundary t) as ->.
  { split.
    - intros (b' & t & Hin & Hend%end_accepts).
      destruct (proj1 (run_lang (if empty then Opt bad_segment else bad_segment) ltac:(by destruct empty) b s t))
        as (w & -> & Hw); [eauto|]. exists w, t. auto.
    - intros (w & t & -> & Hw & Ht).
      destruct (proj2 (run_lang (if empty then Opt bad_segment else bad_segment) ltac:(by destruct empty) b (w ++ t) t))
        as (b' & Hb'); [eauto|]. exists b', t. split; [done|]. by apply end_accepts. }
  split.
  - intros (w & t & -> & Hw & Ht).
    assert (lang bad_segment w \/ (empty = true /\ w = [])) as [Hb|[-> ->]]
      by (destruct empty; [destruct Hw as [?| ->]; auto|auto]).
    + right. apply bad_forbidden in Hb. destruct (forbidden_word w Hb) as [_ Hs]. by rewrite first_unique.
    + left. by rewrite first_unique.
  - intros [[-> E]|H].
    + exists [], s. rewrite E in E0. cbn in E0. subst t0. split_and!; [done|by right|done].
    + exists (first s), t0. split_and!; [done| |done]. apply bad_forbidden in H. destruct empty; [by left|done].
Qed.

Lemma invalid_segment_exec s :
  exec invalidSegmentRegEx s =
  existsb (fun seg => bool_decide (seg = []) || forbidden seg) (segments s).
Proof.
  apply (search_segments _ (fun seg => bool_decide (seg = []) || forbidden seg)). intros b u.
  exact (check_spec true b u).
Qed.

Lemma deprecated_segment_exec s :
  exec deprecatedInvalidSegmentRegEx s = existsb forbidden (segments s).
Proof. apply (search_segments _ forbidden). intros b u. exact (check_spec false b u). Qed.
