(* ===== verification/PackageJson.v ===== *)
(** * Package configurations

    Models [libjs-node/internal/modules/package_json_reader.js]: the fields of a
    package.json that the native reader hands over, the search for the nearest
    one, package names, and the search through [node_modules] directories.

    The native code is a parameter: the reader of package.json files, the state
    of files, permissions, [JSON.parse] and the URL parser.  Paths are POSIX.
    The loop over parent directories of [getPackageJSONURL] ends when the path
    stops changing its length, which depends on the URL parser; it has fuel. *)

From S2P Require Import Prelude JsString Url RegExp.

(** ** Strings *)

Definition endsWith (s pat : jsstr) : bool := startsWith (rev s) (rev pat).

(** [s.replace('*', () => d)]: the first occurrence only. *)
Fixpoint replace_first (c : Z) (d s : jsstr) : jsstr :=
  match s with
  | [] => []
  | x :: s => if x =? c then d ++ s else x :: replace_first c d s
  end.

(** A value of [JSON.parse]; the properties of an object are in the order of
    [Object.getOwnPropertyNames], and a number is known by its text. *)
Inductive json :=
  | JNull
  | JBool (b : bool)
  | JNumber (text : jsstr)
  | JString (s : jsstr)
  | JArray (l : list json)
  | JObject (props : list (jsstr * json)).

(** [v != null] *)
Definition present (v : option json) : bool :=
  match v with None | Some JNull => false | Some _ => true end.

Module PackageJson.

(** What the native reader answers for a file. *)
Record contents := Contents {
  c_name : option jsstr; c_main : option jsstr; c_type : option jsstr;
  plainImports : option jsstr; plainExports : option jsstr; optionalFilePath : option jsstr }.

(** A configuration: [data], [exists] and [path]. *)
Record config := Config {
  p_name : option jsstr; p_main : option jsstr; p_type : option jsstr;
  p_imports : option jsstr; p_exports : option jsstr; p_exists : bool; pjsonPath : jsstr }.

(** The module that imports: [base], which is [null] when a CommonJS module
    looks into a package. *)
Inductive base_t :=
  | BString (s : jsstr)
  | BUrl (u : Url.url)
  | BNull.

Definition base_string (b : base_t) : jsstr :=
  match b with BString s => s | BUrl u => Url.href u | BNull => "null"%js end.
Definition base_file (b : base_t) : Url.file_arg :=
  match b with BString s => Url.FString s | BUrl u => Url.FUrl u | BNull => Url.FOther end.
(** [base] as a condition. *)
Definition base_truthy (b : base_t) : bool :=
  match b with BString [] | BNull => false | _ => true end.

(** The native side. *)
Record env := Env {
  url_parse : jsstr -> option jsstr -> option Url.context;
  url_update : jsstr -> Url.action -> jsstr -> option Url.context;
  url_fromPath : jsstr -> option Url.context;
  internalModuleStat : jsstr -> Z;
  readPackageJSON : jsstr -> result (option contents);
  native_getPackageScopeConfig : jsstr -> contents + jsstr;
  can_read : option (jsstr -> bool);  (* [permission.has], when enabled *)
  JSONParse : jsstr -> result json;
}.

Definition ERR_INVALID_MODULE_SPECIFIER (args : list jsstr) : jserror :=
  JsError "ERR_INVALID_MODULE_SPECIFIER" args.
Definition ERR_MODULE_NOT_FOUND (args : list jsstr) : jserror := JsError "ERR_MODULE_NOT_FOUND" args.

Section WithEnv.
Variable E : env.

Definition new_URL (input : jsstr) (base : option jsstr) : result Url.url :=
  Url.new_URL (url_parse E) input base.
Definition fileURLToPath (b : base_t) : result jsstr := Url.fileURLToPath (url_parse E) (base_file b).
Definition pathToFileURL (p : jsstr) : result Url.url := Url.pathToFileURL (url_fromPath E) (Some p).

(** ** Reading *)

Definition requiresJSONParse (value : jsstr) : bool :=
  code_is (charCodeAt value 0) 0x5B || code_is (charCodeAt value 0) 0x7B.

(** The lazy getters of [imports] and [exports]. *)
Definition lazy_field (plain : option jsstr) : result (option json) :=
  match plain with
  | None => Ok None
  | Some s => if requiresJSONParse s then let* v := JSONParse E s in Ok (Some v) else Ok (Some (JString s))
  end.
Definition imports (c : config) : result (option json) := lazy_field (p_imports c).
Definition exports (c : config) : result (option json) := lazy_field (p_exports c).

Definition deserializePackageJSON (path : jsstr) (c : option contents) : config :=
  match c with
  | None => Config None None (Some "none"%js) None None false path
  | Some c => Config (c_name c) (c_main c) (c_type c) (plainImports c) (plainExports c) true
                (default path (optionalFilePath c))
  end.

Definition read (jsonPath : jsstr) : result config :=
  let* parsed := readPackageJSON E jsonPath in Ok (deserializePackageJSON jsonPath parsed).

Definition getPackageScopeConfig (resolved : jsstr) : config :=
  match native_getPackageScopeConfig E resolved with
  | inl c => deserializePackageJSON resolved (Some c)
  | inr path => Config None None (Some "none"%js) None None false path
  end.

(** ** The nearest package.json *)

(** The do-while loop; [n] bounds the iterations by the length of the path. *)
Fixpoint find_parent (n : nat) (rootSeparatorIndex : Z) (checkPath : jsstr) : option jsstr :=
  match n with
  | O => None
  | S n =>
      let separatorIndex := lastIndexOf checkPath "/" in
      let checkPath := slice checkPath 0 separatorIndex in
      if match can_read E with Some ok => negb (ok (checkPath ++ "/"%js)) | None => false end then None
      else if endsWith checkPath "/node_modules" then None
      else
        let maybePackageJSONPath := checkPath ++ "/package.json"%js in
        if internalModuleStat E maybePackageJSONPath =? 0 then Some maybePackageJSONPath
        else if rootSeparatorIndex <? separatorIndex then find_parent n rootSeparatorIndex checkPath
        else None
  end.

Definition findParentPackageJSON (checkPath : jsstr) : option jsstr :=
  find_parent (S (length checkPath)) (indexOf checkPath "/") checkPath.

(** [nearestParentPackageJSONCache]: [Some None] is an entry for [undefined]. *)
Abbreviation cache := (gmap jsstr (option config)).

Definition getNearestParentPackageJSON (checkPath : jsstr) (c : cache) : cache * result (option config) :=
  match findParentPackageJSON checkPath with
  | None => (c, Ok None)
  | Some nearest =>
      match c !! nearest with
      | Some r => (c, Ok r)
      | None =>
          match readPackageJSON E nearest with
          | Throw e => (c, Throw e)
          | Ok None => (<[checkPath := None]> c, Ok None)
          | Ok (Some contents) =>
              let packageConfig := deserializePackageJSON checkPath (Some contents) in
              (<[nearest := Some packageConfig]> c, Ok (Some packageConfig))
          end
      end
  end.

(** ** Package names *)

Definition parsePackageName (specifier : jsstr) (base : base_t) : result (jsstr * jsstr * bool) :=
  let separatorIndex := indexOf specifier "/" in
  let isScoped := code_is (charCodeAt specifier 0) 0x40 in
  let '(separatorIndex, validPackageName) :=
    if isScoped then
      if (separatorIndex =? -1) || (len specifier =? 0) then (separatorIndex, false)
      else (indexOf_from specifier "/" (separatorIndex + 1), true)
    else (separatorIndex, true) in
  let packageName := if separatorIndex =? -1 then specifier else slice specifier 0 separatorIndex in
  if negb validPackageName || RegExp.exec RegExp.invalidPackageNameRegEx packageName then
    let* from := fileURLToPath base in
    Throw (ERR_INVALID_MODULE_SPECIFIER [specifier; "is not a valid package name"%js; from])
  else
    let packageSubpath :=
      "."%js ++ if separatorIndex =? -1 then [] else slice_from specifier separatorIndex in
    Ok (packageName, packageSubpath, isScoped).

(** What [getPackageJSONURL] answers. *)
Record located := Located { packageJSONUrl : Url.url; packageJSONPath : jsstr; packageSubpath : jsstr }.

(** The loop over [node_modules] directories; [None] is fuel exhausted. *)
Fixpoint search_parents (fuel : nat) (packageName : jsstr) (isScoped : bool) (u : Url.url) (path : jsstr)
    : option (result (option (Url.url * jsstr))) :=
  match fuel with
  | O => None
  | S fuel =>
      if internalModuleStat E (slice path 0 (len path - 13)) =? 1 then Some (Ok (Some (u, path)))
      else
        match new_URL ((if isScoped then "../"%js else []) ++ "../../../node_modules/"%js ++ packageName
                       ++ "/package.json"%js) (Some (Url.href u)) with
        | Throw e => Some (Throw e)
        | Ok u' =>
            match fileURLToPath (BUrl u') with
            | Throw e => Some (Throw e)
            | Ok path' =>
                if len path' =? len path then Some (Ok None)
                else search_parents fuel packageName isScoped u' path'
            end
        end
  end.

(** [fuel] is for the directories; a result says that it was enough. *)
Definition getPackageJSONURL (fuel : nat) (specifier : jsstr) (base : base_t) : option (result located) :=
  match parsePackageName specifier base with
  | Throw e => Some (Throw e)
  | Ok (packageName, subpath, isScoped) =>
      let packageConfig := getPackageScopeConfig (base_string base) in
      match (if p_exists packageConfig then exports packageConfig else Ok None) with
      | Throw e => Some (Throw e)
      | Ok exp =>
          if present exp && bool_decide (p_name packageConfig = Some packageName) then
            Some (let* u := pathToFileURL (pjsonPath packageConfig) in
                  Ok (Located u (pjsonPath packageConfig) subpath))
          else
            match new_URL ("./node_modules/"%js ++ packageName ++ "/package.json"%js)
                    (Some (base_string base)) with
            | Throw e => Some (Throw e)
            | Ok u =>
                match fileURLToPath (BUrl u) with
                | Throw e => Some (Throw e)
                | Ok path =>
                    match search_parents fuel packageName isScoped u path with
                    | None => None
                    | Some (Throw e) => Some (Throw e)
                    | Some (Ok (Some (u, path))) => Some (Ok (Located u path subpath))
                    | Some (Ok None) =>
                        Some (let* from := fileURLToPath base in
                              Throw (ERR_MODULE_NOT_FOUND [packageName; from]))
                    end
                end
            end
      end
  end.
End WithEnv.
End PackageJson.
