(* ===== verification/EsmResolve.v ===== *)
(** * Resolution of ES module specifiers

    Models [libjs-node/internal/modules/esm/resolve.js]: package targets with
    conditions and fallbacks, the [exports] and [imports] maps with their
    patterns, package and relative specifiers, and the checks of the file that
    is found.

    The state is the set of packages already warned about and the deprecation
    warnings given.  Native code, the realpath of a file and the format of a
    module are parameters; so is the number a property name denotes when it is
    that number's own text, which [isArrayIndex] asks for.  Fuel is for the
    parent directories of [getPackageJSONURL] only. *)

From Stdlib Require Import QArith.
From S2P Require Import Prelude Effects JsString Realm Url RegExp PackageJson PathPosix.
#[local] Open Scope Z_scope.
#[local] Open Scope effect_scope.

Module Esm.
Import PackageJson.

Record renv := REnv {
  pj : env;
  canonicalNumber : jsstr -> option Q;
  FSLegacyMainResolve : jsstr -> option jsstr -> jsstr -> result Z;
  realpathSync : jsstr -> result jsstr;
  defaultGetFormatWithoutErrors : Url.url -> option jsstr;
  noDeprecation : bool;
  cwd : result jsstr;
  fuel : nat;
}.

(** ** State, exceptions and fuel *)

Record state := State {
  emittedPackageWarnings : list jsstr;
  warnings : list (jsstr * list jsstr);
}.

Abbreviation R := (M state).

Definition emitWarning (code : jsstr) (args : list jsstr) : R unit := fun s =>
  Some (State (emittedPackageWarnings s) (warnings s ++ [(code, args)]), Ok tt).

(** ** Keys with a pattern *)

(** The code unit of a star. *)
Definition star : Z := 42.

Definition patternKeyCompare (a b : jsstr) : Z :=
  let aPatternIndex := indexOf a [star] in
  let bPatternIndex := indexOf b [star] in
  let baseLenA := if aPatternIndex =? -1 then len a else aPatternIndex + 1 in
  let baseLenB := if bPatternIndex =? -1 then len b else bPatternIndex + 1 in
  if baseLenB <? baseLenA then -1
  else if baseLenA <? baseLenB then 1
  else if aPatternIndex =? -1 then 1
  else if bPatternIndex =? -1 then -1
  else if len b <? len a then -1
  else if len a <? len b then 1
  else 0.

(** [bestMatch] and [bestMatchSubpath] *)
Abbreviation best := (jsstr * jsstr)%type.

(** The first condition of the loops: a star after a prefix of the request. *)
Definition pattern_prefix (request key : jsstr) : bool :=
  let patternIndex := indexOf key [star] in
  negb (patternIndex =? -1) && startsWith request (slice key 0 patternIndex).

(** The second condition, and what is kept. *)
Definition pattern_update (request key : jsstr) (b : best) : best :=
  let patternIndex := indexOf key [star] in
  let patternTrailer := slice_from key (patternIndex + 1) in
  if (len key <=? len request) && endsWith request patternTrailer
     && (patternKeyCompare b.1 key =? 1) && (lastIndexOf key [star] =? patternIndex)
  then (key, slice request patternIndex (len request - len patternTrailer))
  else b.

(** The loop of [packageImportsResolve]. *)
Fixpoint best_match (request : jsstr) (keys : list jsstr) (b : best) : best :=
  match keys with
  | [] => b
  | key :: keys =>
      best_match request keys
        (if pattern_prefix request key then pattern_update request key b else b)
  end.

Definition isArrayIndex (canonicalNumber : jsstr -> option Q) (key : jsstr) : bool :=
  match canonicalNumber key with
  | None => false
  | Some q => Qle_bool 0 q && negb (Qle_bool (inject_Z 0xFFFFFFFF) q)
  end.

(** ** Specifiers *)

Definition isBareSpecifier (specifier : jsstr) : bool :=
  match specifier with
  | [] => false
  | c :: _ => negb (c =? 47) && negb (c =? 46)
  end.

Definition isRelativeSpecifier (specifier : jsstr) : bool :=
  if code_is (charCodeAt specifier 0) 46 then
    if (len specifier =? 1) || code_is (charCodeAt specifier 1) 47 then true
    else if code_is (charCodeAt specifier 1) 46 then
      (len specifier =? 2) || code_is (charCodeAt specifier 2) 47
    else false
  else false.

Definition shouldBeTreatedAsRelativeOrAbsolutePath (specifier : jsstr) : bool :=
  if len specifier =? 0 then false
  else if code_is (charCodeAt specifier 0) 47 then true
  else isRelativeSpecifier specifier.

Definition legacyMainResolveExtensions : list jsstr :=
  [""; ".js"; ".json"; ".node"; "/index.js"; "/index.json"; "/index.node"; "./index.js"; "./index.json";
   "./index.node"]%js.

(** What a target resolves to: a URL, [null] or [undefined]. *)
Inductive resolved :=
  | RUrl (u : Url.url)
  | RNull
  | RUndefined.

(** [lastException] of the loop over an array. *)
Inductive last_exception :=
  | LUndefined
  | LNull
  | LError (e : jserror).

Section WithEnv.
Variable E : renv.

Definition newURL (input : jsstr) (base : option jsstr) : R Url.url := lift (new_URL (pj E) input base).
Definition toPath (b : base_t) : R jsstr := lift (fileURLToPath (pj E) b).
(** [base && fileURLToPath(base)], nothing when there is no base. *)
Definition importedFrom (b : base_t) : R (list jsstr) :=
  if base_truthy b then p <- toPath b;; ret [p] else ret [].

(** ** Warnings *)

Definition emitTrailingSlashPatternDeprecation (match_ : jsstr) (pjsonUrl : Url.url) (base : base_t) : R unit :=
  if noDeprecation E then ret tt
  else
    pjsonPath <- toPath (BUrl pjsonUrl);;
    let entry := pjsonPath ++ "|"%js ++ match_ in
    (fun s =>
       if bool_decide (entry ∈ emittedPackageWarnings s) then Some (s, Ok tt)
       else
         (from <- importedFrom base;; emitWarning "DEP0155" ([match_; pjsonPath] ++ from))
           (State (entry :: emittedPackageWarnings s) (warnings s))).

Definition emitInvalidSegmentDeprecation (target request match_ : jsstr) (pjsonUrl : Url.url) (internal : bool)
    (base : base_t) (isTarget : bool) : R unit :=
  if noDeprecation E then ret tt
  else
    pjsonPath <- toPath (BUrl pjsonUrl);;
    let double := RegExp.exec RegExp.doubleSlashRegEx (if isTarget then target else request) in
    from <- importedFrom base;;
    emitWarning "DEP0166"
      ([if double then "double slash"%js else "leading or trailing slash matching"%js; target; request; match_;
        if internal then "imports"%js else "exports"%js; pjsonPath] ++ from).

Definition emitLegacyIndexDeprecation (url : Url.url) (path pkgPath : jsstr) (base : base_t)
    (main : option jsstr) : R unit :=
  if noDeprecation E then ret tt
  else if negb (bool_decide (defaultGetFormatWithoutErrors E url = Some "module"%js)) then ret tt
  else
    basePath <- toPath base;;
    match main with
    | None | Some [] => emitWarning "DEP0151" [pkgPath; slice_from path (len pkgPath); basePath]
    | Some m =>
        full <- lift (Posix.resolve (cwd E) [VString pkgPath; VString m]);;
        if bool_decide (full = path) then ret tt
        else emitWarning "DEP0151" [pkgPath; m; slice_from path (len pkgPath); basePath]
    end.

(** ** Errors *)

Definition importNotDefined {A} (specifier : jsstr) (packageJSONUrl : option Url.url) (base : base_t) : R A :=
  pkg <- (match packageJSONUrl with
          | None => ret []
          | Some u => d <- newURL "." (Some (Url.href u));; toPath (BUrl d)
          end);;
  from <- toPath base;;
  throw (JsError "ERR_PACKAGE_IMPORT_NOT_DEFINED" [specifier; pkg; from]).

Definition exportsNotFound {A} (subpath : jsstr) (packageJSONUrl : Url.url) (base : base_t) : R A :=
  d <- newURL "." (Some (Url.href packageJSONUrl));;
  pkg <- toPath (BUrl d);;
  from <- importedFrom base;;
  throw (JsError "ERR_PACKAGE_PATH_NOT_EXPORTED" ([pkg; subpath] ++ from)).

Definition throwInvalidSubpath {A} (request match_ : jsstr) (packageJSONUrl : Url.url) (internal : bool)
    (base : base_t) : R A :=
  file <- toPath (BUrl packageJSONUrl);;
  from <- importedFrom base;;
  throw (ERR_INVALID_MODULE_SPECIFIER
           ([request; match_; if internal then "imports"%js else "exports"%js; file] ++ from)).

(** [target] is a string here, or a boolean or number of the file. *)
Definition invalidPackageTarget {A} (subpath target : jsstr) (packageJSONUrl : Url.url) (internal : bool)
    (base : base_t) : R A :=
  d <- newURL "." (Some (Url.href packageJSONUrl));;
  pkg <- toPath (BUrl d);;
  from <- importedFrom base;;
  throw (JsError "ERR_INVALID_PACKAGE_TARGET"
           ([pkg; subpath; target; if internal then "imports"%js else "exports"%js] ++ from)).

(** ** Targets *)

(** [RegExpPrototypeSymbolReplace(patternRegEx, s, () => subpath)] *)
Definition replace_stars (subpath s : jsstr) : jsstr := replace_all star subpath s.

Section Target.
(** [packageResolve], which a target of [imports] may call. *)
Variable packageResolve : jsstr -> base_t -> R Url.url.
(** The conditions, and the arguments that do not change. *)
Variable conditions : jsstr -> bool.
Variables (packageJSONUrl : Url.url) (subpath match_ : jsstr) (base : base_t)
          (pattern internal isPathMap : bool).

(** The two checks of segments: throw, warn or pass. *)
Definition check_segments (checked : jsstr) (isTarget : bool) (target : jsstr) (invalid : R unit) : R unit :=
  if RegExp.exec RegExp.invalidSegmentRegEx checked then
    if negb (RegExp.exec RegExp.deprecatedInvalidSegmentRegEx checked) then
      if negb isPathMap then
        let request := if pattern then replace_first star subpath match_ else match_ ++ subpath in
        let resolvedTarget := if pattern then replace_stars subpath target else target in
        emitInvalidSegmentDeprecation resolvedTarget request match_ packageJSONUrl internal base isTarget
      else ret tt
    else invalid
  else ret tt.

Definition resolvePackageTargetString (target : jsstr) : R Url.url :=
  let invalid {A} : R A := invalidPackageTarget match_ target packageJSONUrl internal base in
  if negb (bool_decide (subpath = [])) && negb pattern && negb (code_is (charCodeAt target (len target - 1)) 47)
  then invalid
  else if negb (startsWith target "./") then
    if internal && negb (code_is (charCodeAt target 0) 47) && negb (startsWith target "../")
       && negb (is_ok (new_URL (pj E) target None))
    then packageResolve (if pattern then replace_stars subpath target else target ++ subpath)
           (BUrl packageJSONUrl)
    else invalid
  else
    check_segments (slice_from target 2) true target invalid;;
    resolved <- newURL target (Some (Url.href packageJSONUrl));;
    dir <- newURL "." (Some (Url.href packageJSONUrl));;
    if negb (startsWith (Url.pathname resolved) (Url.pathname dir)) then invalid
    else if bool_decide (subpath = []) then ret resolved
    else
      let request := if pattern then replace_first star subpath match_ else match_ ++ subpath in
      check_segments subpath false target (throwInvalidSubpath request match_ packageJSONUrl internal base);;
      if pattern then newURL (replace_stars subpath (Url.href resolved)) None
      else newURL subpath (Some (Url.href resolved)).

Definition numeric_key (props : list (jsstr * json)) : bool :=
  existsb (fun p => isArrayIndex (canonicalNumber E) p.1) props.

Definition json_text (j : json) : jsstr :=
  match j with JBool b => if b then "true" else "false" | JNumber t => t | _ => [] end.

Fixpoint resolvePackageTarget (target : json) : R resolved :=
  match target with
  | JString s => u <- resolvePackageTargetString s;; ret (RUrl u)
  | JArray [] => ret RNull
  | JArray items =>
      (fix loop (items : list json) (last : last_exception) : R resolved :=
         match items with
         | [] => match last with
                 | LUndefined => ret RUndefined
                 | LNull => ret RNull
                 | LError e => throw e
                 end
         | item :: items =>
             attempt (resolvePackageTarget item) (fun r =>
               match r with
               | Throw e => if bool_decide (err_code e = "ERR_INVALID_PACKAGE_TARGET"%js)
                            then loop items (LError e) else throw e
               | Ok RUndefined => loop items last
               | Ok RNull => loop items LNull
               | Ok (RUrl u) => ret (RUrl u)
               end)
         end) items LUndefined
  | JObject props =>
      if numeric_key props then
        file <- toPath (BUrl packageJSONUrl);;
        throw (JsError "ERR_INVALID_PACKAGE_CONFIG" [file; base_string base])
      else
        (fix loop (props : list (jsstr * json)) : R resolved :=
           match props with
           | [] => ret RUndefined
           | (key, conditional) :: props =>
               if bool_decide (key = "default"%js) || conditions key then
                 r <- resolvePackageTarget conditional;;
                 match r with RUndefined => loop props | _ => ret r end
               else loop props
           end) props
  | JNull => ret RNull
  | JBool _ | JNumber _ => invalidPackageTarget match_ (json_text target) packageJSONUrl internal base
  end.
End Target.

(** ** The [exports] map *)

(** The loop over the keys: all start with a dot, or none. *)
Fixpoint sugar_loop (first : bool) (isConditionalSugar : bool) (keys : list jsstr) : option bool :=
  match keys with
  | [] => Some isConditionalSugar
  | key :: keys =>
      let cur := (len key =? 0) || negb (code_is (charCodeAt key 0) 46) in
      if first then sugar_loop false cur keys
      else if Bool.eqb isConditionalSugar cur then sugar_loop false isConditionalSugar keys
      else None
  end.

Definition isConditionalExportsMainSugar (exports : json) (packageJSONUrl : Url.url) (base : base_t) : R bool :=
  match exports with
  | JString _ | JArray _ => ret true
  | JObject props =>
      match sugar_loop true false props.*1 with
      | Some b => ret b
      | None =>
          file <- toPath (BUrl packageJSONUrl);;
          throw (JsError "ERR_INVALID_PACKAGE_CONFIG" [file; base_string base])
      end
  | _ => ret false
  end.

(** [exports[key]] for an own property. *)
Fixpoint prop (key : jsstr) (props : list (jsstr * json)) : option json :=
  match props with
  | [] => None
  | (k, v) :: props => if decide (k = key) then Some v else prop key props
  end.

Definition own_properties (j : json) : list (jsstr * json) :=
  match j with JObject props => props | _ => [] end.

(** The loop of [packageExportsResolve], which warns about a trailing slash. *)
Fixpoint exports_match (packageJSONUrl : Url.url) (base : base_t) (request : jsstr) (keys : list jsstr) (b : best)
    : R best :=
  match keys with
  | [] => ret b
  | key :: keys =>
      if pattern_prefix request key then
        (if endsWith request "/" then emitTrailingSlashPatternDeprecation request packageJSONUrl base else ret tt);;
        exports_match packageJSONUrl base request keys (pattern_update request key b)
      else exports_match packageJSONUrl base request keys b
  end.

(** [exports] never call [packageResolve]: [internal] is false. *)
Definition no_packageResolve (_ : jsstr) (_ : base_t) : R Url.url := fun _ => None.

Definition packageExportsResolve (packageJSONUrl : Url.url) (packageSubpath : jsstr) (exports : json)
    (base : base_t) (conditions : jsstr -> bool) : R Url.url :=
  sugar <- isConditionalExportsMainSugar exports packageJSONUrl base;;
  let props := if sugar then [("."%js, exports)] else own_properties exports in
  let finish r :=
    match r with
    | RUrl u => ret u
    | _ => exportsNotFound packageSubpath packageJSONUrl base
    end in
  let exact := if negb (includes packageSubpath [star]) && negb (endsWith packageSubpath "/")
               then prop packageSubpath props else None in
  match exact with
  | Some target =>
      r <- resolvePackageTarget no_packageResolve conditions packageJSONUrl [] packageSubpath base
             false false false target;;
      finish r
  | None =>
      b <- exports_match packageJSONUrl base packageSubpath props.*1 ([], []);;
      match (if bool_decide (b.1 = []) then None else prop b.1 props) with
      | Some target =>
          r <- resolvePackageTarget no_packageResolve conditions packageJSONUrl b.2 b.1 base
                 true false (endsWith packageSubpath "/") target;;
          finish r
      | None => exportsNotFound packageSubpath packageJSONUrl base
      end
  end.

(** ** Packages *)

Definition legacyMainResolve (packageJSONUrl : Url.url) (main : option jsstr) (base : base_t) : R Url.url :=
  dir <- newURL "." (Some (Url.href packageJSONUrl));;
  pkgPath <- toPath (BUrl dir);;
  resolvedOption <- lift (FSLegacyMainResolve E pkgPath main (base_string base));;
  let maybeMain :=
    if resolvedOption <=? 6 then match main with None | Some [] => "./"%js | Some m => m end else [] in
  let ext := default "undefined"%js
    (if resolvedOption <? 0 then None else legacyMainResolveExtensions !! Z.to_nat resolvedOption) in
  resolvedPath <- lift (Posix.resolve (cwd E) [VString pkgPath; VString (maybeMain ++ ext)]);;
  resolvedUrl <- lift (pathToFileURL (pj E) resolvedPath);;
  emitLegacyIndexDeprecation resolvedUrl resolvedPath pkgPath base main;;
  ret resolvedUrl.

Definition packageResolve (conditions : jsstr -> bool) (specifier : jsstr) (base : base_t) : R Url.url :=
  if canBeRequiredWithoutScheme specifier then newURL ("node:"%js ++ specifier) None
  else
    found <- lift_fuel (getPackageJSONURL (pj E) (fuel E) specifier base);;
    packageConfig <- lift (read (pj E) (packageJSONPath found));;
    exp <- lift (exports (pj E) packageConfig);;
    match (if present exp then exp else None) with
    | Some exports => packageExportsResolve (packageJSONUrl found) (packageSubpath found) exports base conditions
    | None =>
        if bool_decide (packageSubpath found = "."%js) then
          legacyMainResolve (packageJSONUrl found) (p_main packageConfig) base
        else newURL (packageSubpath found) (Some (Url.href (packageJSONUrl found)))
    end.

(** ** The [imports] map *)

Definition packageImportsResolve (name : jsstr) (base : base_t) (conditions : jsstr -> bool) : R Url.url :=
  if bool_decide (name = "#"%js) || startsWith name "#/" || endsWith name "/" then
    from <- toPath base;;
    throw (ERR_INVALID_MODULE_SPECIFIER [name; "is not a valid internal imports specifier name"%js; from])
  else
    let packageConfig := getPackageScopeConfig (pj E) (base_string base) in
    if negb (p_exists packageConfig) then importNotDefined name None base
    else
      packageJSONUrl <- lift (pathToFileURL (pj E) (pjsonPath packageConfig));;
      imp <- lift (imports (pj E) packageConfig);;
      let props := match imp with Some j => own_properties j | None => [] end in
      let finish r :=
        match r with RUrl u => ret u | _ => importNotDefined name (Some packageJSONUrl) base end in
      match (if negb (includes name [star]) then prop name props else None) with
      | Some target =>
          r <- resolvePackageTarget (packageResolve conditions) conditions packageJSONUrl [] name base
                 false true false target;;
          finish r
      | None =>
          let b := best_match name props.*1 ([], []) in
          match (if bool_decide (b.1 = []) then None else prop b.1 props) with
          | Some target =>
              r <- resolvePackageTarget (packageResolve conditions) conditions packageJSONUrl b.2 b.1 base
                     true true false target;;
              finish r
          | None => importNotDefined name (Some packageJSONUrl) base
          end
      end.

(** ** Modules *)

(** [basePath] of the errors: the path, or the base itself. *)
Definition base_path (base : base_t) : jsstr :=
  match fileURLToPath (pj E) base with Ok p => p | Throw _ => base_string base end.

(** [s.endsWith(pat, position)] *)
Definition endsWith_to (s pat : jsstr) (position : Z) : bool :=
  endsWith (take (Z.to_nat (Z.min (Z.max position 0) (len s))) s) pat.

(** [StringPrototypeEndsWith(internalFsBinding, path, '/')]: the receiver is the
    text of the binding object, and the position [Number('/')], that is 0. *)
Definition stat_path (path : jsstr) : jsstr :=
  if endsWith_to "[object Object]" path 0 then slice_from path (-1) else path.

Definition finalizeResolution (resolved : Url.url) (base : base_t) (preserveSymlinks : bool) : R Url.url :=
  if RegExp.exec RegExp.encodedSepRegEx (Url.pathname resolved) then
    throw (ERR_INVALID_MODULE_SPECIFIER [Url.pathname resolved; base_path base])
  else
    path <- toPath (BUrl resolved);;
    let stats := internalModuleStat (pj E) (stat_path path) in
    if stats =? 1 then throw (JsError "ERR_UNSUPPORTED_DIR_IMPORT" [path; base_path base; Url.href resolved])
    else if negb (stats =? 0) then
      throw (ERR_MODULE_NOT_FOUND
               [if bool_decide (path = []) then Url.pathname resolved else path; base_path base; Url.href resolved])
    else if preserveSymlinks then ret resolved
    else
      real <- lift (realpathSync E path);;
      u <- lift (pathToFileURL (pj E) (real ++ if endsWith path "/" then "/"%js else []));;
      let '(u, r) := Url.set_search (url_update (pj E)) (Url.search resolved) u in
      lift r;;
      ret (Url.set_hash (url_update (pj E)) (Url.hash resolved) u).

Definition moduleResolve (specifier : jsstr) (base : base_t) (conditions : jsstr -> bool) (preserveSymlinks : bool)
    : R Url.url :=
  protocol <- (match base with
    | BString s => ret (slice s 0 (indexOf s ":" + 1))
    | BUrl u => ret (Url.protocol u)
    | BNull => throw (Url.TypeError "Cannot read properties of null")
    end);;
  let isData := bool_decide (protocol = "data:"%js) in
  let unsupported := throw (JsError "ERR_UNSUPPORTED_RESOLVE_REQUEST" [specifier; base_string base]) in
  resolved <-
    (if shouldBeTreatedAsRelativeOrAbsolutePath specifier then
       attempt (newURL specifier (Some (base_string base))) (fun r =>
         match r with Ok u => ret u | Throw _ => unsupported end)
     else if bool_decide (protocol = "file:"%js) && code_is (charCodeAt specifier 0) 35 then
       packageImportsResolve specifier base conditions
     else
       attempt (newURL specifier None) (fun r =>
         match r with
         | Ok u => ret u
         | Throw _ => if isData && negb (canBeRequiredWithoutScheme specifier) then unsupported
                      else packageResolve conditions specifier base
         end));;
  if negb (bool_decide (Url.protocol resolved = "file:"%js)) then ret resolved
  else finalizeResolution resolved base preserveSymlinks.
End WithEnv.
End Esm.
