(* ===== verification/EsmFacts.v ===== *)
(** * Module resolution: patterns, targets and names

    Lemmas on the strings of the resolver; the loops over pattern keys find the
    most specific key that covers the request; and the targets a resolution
    may come from. *)

From Stdlib Require Import QArith.
From S2P Require Import Prelude Effects JsString Url RegExp RegExpFacts PackageJson PathPosix EsmResolve.
From S2P Require Import Realm PathSpec UrlFacts.
Import PackageJson Esm.
#[local] Open Scope Z_scope.
#[local] Open Scope effect_scope.

(** ** Strings *)

Lemma endsWith_split s pat : endsWith s pat = true <-> exists u, s = u ++ pat.
Proof.
  unfold endsWith. split.
  - intros (t & E)%startsWith_split. exists (rev t).
    rewrite <- (rev_involutive s), E, rev_app_distr, rev_involutive. done.
  - intros (u & ->). rewrite rev_app_distr. apply startsWith_app.
Qed.

Lemma indexOf_at_none c s k : Forall (fun x => x <> c) s -> indexOf_at s [c] k = -1.
Proof.
  intros HF. revert k. induction HF as [|x s Hx HF IH]; intros k; [done|]. cbn [indexOf_at].
  rewrite startsWith_single. replace (x =? c) with false by (symmetry; by apply Z.eqb_neq). apply IH.
Qed.

(** A string without [c], or split at its first [c]. *)
Lemma first_code c (s : jsstr) :
  Forall (fun x => x <> c) s \/ exists p t, s = p ++ c :: t /\ Forall (fun x => x <> c) p.
Proof.
  induction s as [|x s IH]; [by left|]. destruct (decide (x = c)) as [->|Hx].
  - right. exists [], s. done.
  - destruct IH as [H|(p & t & -> & H)]; [left; by constructor|]. right. exists (x :: p), t. split; [done|by constructor].
Qed.

Lemma last_code c (s : jsstr) :
  Forall (fun x => x <> c) s \/ exists p t, s = p ++ c :: t /\ Forall (fun x => x <> c) t.
Proof.
  induction s as [|x s IH] using rev_ind; [by left|]. destruct (decide (x = c)) as [->|Hx].
  - right. exists s, []. done.
  - destruct IH as [H|(p & t & -> & H)].
    + left. apply Forall_app. split; [done|by apply Forall_singleton].
    + right. exists p, (t ++ [x]). rewrite <- app_assoc. split; [done|]. apply Forall_app. split; [done|by apply Forall_singleton].
Qed.

Lemma indexOf_none c s : Forall (fun x => x <> c) s -> indexOf s [c] = -1.
Proof. intros H. rewrite indexOf_start. by apply indexOf_at_none. Qed.

Lemma indexOf_split c p t : Forall (fun x => x <> c) p -> indexOf (p ++ c :: t) [c] = len p.
Proof. intros H. rewrite indexOf_start, indexOf_at_first by done. lia. Qed.

Lemma lastIndexOf_split c p t :
  Forall (fun x => x <> c) p -> lastIndexOf (p ++ c :: t) [c] = len p <-> Forall (fun x => x <> c) t.
Proof.
  intros Hp. unfold lastIndexOf. split.
  - intros E. destruct (last_code c t) as [H|(a & b & -> & Hb)]; [done|].
    change (p ++ c :: a ++ c :: b) with (p ++ (c :: a) ++ c :: b) in E. rewrite app_assoc in E.
    rewrite lastIndexOf_at_mid in E by (done || lia). rewrite len_app, len_cons in E.
    pose proof (len_nonneg a). lia.
  - intros H. rewrite lastIndexOf_at_mid by (done || lia). lia.
Qed.

(** ** Pattern keys *)

(** [key] has one star, and the request is [key] with [sub], not empty, for the
    star. *)
Definition covers (request key sub : jsstr) : Prop :=
  exists p t, key = p ++ star :: t /\ Forall (fun x => x <> star) p /\ Forall (fun x => x <> star) t /\
              request = p ++ sub ++ t /\ sub <> [].

(** A longer part before the star, or the same and a longer key. *)
Definition less_specific (a b : jsstr) : Prop :=
  indexOf a [star] < indexOf b [star] \/ (indexOf a [star] = indexOf b [star] /\ len a < len b).

Lemma covers_sub request key sub sub' : covers request key sub -> covers request key sub' -> sub = sub'.
Proof.
  intros (p & t & -> & Hp & Ht & E & _) (p' & t' & Ek & Hp' & Ht' & E' & _).
  assert (len p = len p') as Hl by (rewrite <- (indexOf_split star p t), Ek, indexOf_split by done; done).
  apply app_inj_1 in Ek as [-> Ek]; [|unfold len in Hl; lia]. injection Ek as <-.
  rewrite E in E'. by apply app_inv_head, app_inv_tail in E'.
Qed.

(** Two keys that cover the same request compare by how specific they are. *)
Lemma covers_compare request a b sub sub' :
  covers request a sub -> covers request b sub' ->
  a = b \/ less_specific a b \/ less_specific b a.
Proof.
  intros (p & t & -> & Hp & Ht & E & _) (p' & t' & -> & Hp' & Ht' & E' & _).
  unfold less_specific. rewrite !indexOf_split, !len_app, !len_cons by done.
  destruct (Z.lt_trichotomy (len p) (len p')) as [H|[H|H]]; [by auto| |by auto].
  destruct (Z.lt_trichotomy (len t) (len t')) as [H'|[H'|H']]; [right; left; right; lia| |right; right; right; lia].
  left. rewrite E in E'. unfold len in *. apply app_inj_1 in E' as [-> E']; [|lia].
  apply app_inj_2 in E' as [_ ->]; [|lia]. done.
Qed.

Lemma compare_specific a b :
  star ∈ b -> (a = [] \/ star ∈ a) -> patternKeyCompare a b = 1 <-> a = [] \/ less_specific a b.
Proof.
  intros Hb Ha. unfold patternKeyCompare, less_specific.
  destruct (first_code star b) as [H|(p & t & -> & Hp)]; [rewrite Forall_forall in H; by apply H in Hb|].
  rewrite !(indexOf_split star p t) by done. pose proof (len_nonneg p). pose proof (len_nonneg t).
  replace (len p =? -1) with false by (symmetry; apply Z.eqb_neq; lia). cbv zeta.
  destruct Ha as [->|Ha].
  - change (indexOf [] [star]) with (-1). change (-1 =? -1) with true. cbv iota.
    change (len []) with 0. destruct (Z.ltb_spec (len p + 1) 0); [lia|].
    destruct (Z.ltb_spec 0 (len p + 1)); [|lia]. split; [intros _; by left|done].
  - destruct (first_code star a) as [H'|(p' & t' & -> & Hp')]; [rewrite Forall_forall in H'; by apply H' in Ha|].
    rewrite !(indexOf_split star p' t') by done. pose proof (len_nonneg p'). pose proof (len_nonneg t').
    replace (len p' =? -1) with false by (symmetry; apply Z.eqb_neq; lia).
    assert (p' ++ star :: t' <> []) by (by destruct p').
    repeat match goal with |- context [?x <? ?y] => destruct (Z.ltb_spec x y) end;
      (split; [intros; try lia; right; lia|intros [?|?]; [done|lia]]).
Qed.

Lemma covers_star request key sub : covers request key sub -> star ∈ key.
Proof. intros (p & t & -> & _). apply elem_of_app. right. by left. Qed.

Lemma covers_nil request sub : ~ covers request [] sub.
Proof. intros (p & t & E & _). by destruct p. Qed.

(** One turn of the loops. *)
Definition step (request key : jsstr) (b : best) : best :=
  if pattern_prefix request key then pattern_update request key b else b.

Lemma prefix_trailer request p t :
  startsWith request p = true -> len p + 1 + len t <= len request -> endsWith request t = true ->
  exists sub, request = p ++ sub ++ t /\ sub <> [].
Proof.
  intros (r & ->)%startsWith_split Hlen (u & E)%endsWith_split. rewrite len_app in Hlen.
  assert (exists sub, r = sub ++ t) as (sub & ->).
  { exists (drop (length p) u). pose proof (f_equal (drop (length p)) E) as E'.
    rewrite drop_app_length in E'. rewrite E'. apply drop_app_le.
    apply (f_equal length) in E. rewrite !length_app in E. unfold len in *. lia. }
  exists sub. split; [done|]. intros ->. cbn in Hlen. lia.
Qed.

Lemma step_spec request key b :
  (exists sub, covers request key sub /\ patternKeyCompare b.1 key = 1 /\ step request key b = (key, sub)) \/
  (step request key b = b /\ forall sub, covers request key sub -> patternKeyCompare b.1 key <> 1).
Proof.
  unfold step, pattern_prefix, pattern_update. cbv zeta.
  destruct (first_code star key) as [H|(p & t & -> & Hp)].
  - right. rewrite indexOf_none by done. cbn. split; [done|]. intros sub Hc%covers_star.
    rewrite Forall_forall in H. by apply H in Hc.
  - rewrite !(indexOf_split star p t) by done. pose proof (len_nonneg p). pose proof (len_nonneg t).
    replace (len p =? -1) with false by (symmetry; apply Z.eqb_neq; lia). cbn [negb andb].
    rewrite slice_prefix by done.
    replace (slice_from (p ++ star :: t) (len p + 1)) with t
      by (change (p ++ star :: t) with (p ++ [star] ++ t); rewrite app_assoc, slice_suffix; [done|];
          unfold len; rewrite length_app; cbn [length]; lia).
    rewrite len_app, len_cons.
    assert (forall sub, covers request (p ++ star :: t) sub ->
      startsWith request p = true /\ (len p + (len t + 1) <=? len request) = true /\ endsWith request t = true /\
      (lastIndexOf (p ++ star :: t) [star] =? len p) = true /\ request = p ++ sub ++ t) as Hcov.
    { intros sub (p' & t' & E & Hp' & Ht' & -> & Hs).
      assert (len p = len p') as Hl by (rewrite <- (indexOf_split star p t), E, indexOf_split by done; done).
      apply app_inj_1 in E as [<- E]; [|unfold len in Hl; lia]. injection E as <-.
      split_and!; [apply startsWith_app| |apply endsWith_split; exists (p ++ sub); by rewrite app_assoc| |done].
      - apply Z.leb_le. rewrite !len_app. destruct sub as [|x sub]; [done|]. rewrite len_cons.
        pose proof (len_nonneg sub). lia.
      - apply Z.eqb_eq. by apply lastIndexOf_split. }
    destruct (startsWith request p) eqn:E1; [|right; split; [done|]; intros sub Hc; by apply Hcov in Hc as (? & _)].
    destruct (len p + (len t + 1) <=? len request) eqn:E2;
      [|right; split; [done|]; intros sub Hc; by apply Hcov in Hc as (? & ? & _)].
    destruct (endsWith request t) eqn:E3;
      [|right; split; [done|]; intros sub Hc; by apply Hcov in Hc as (? & ? & ? & _)].
    destruct (lastIndexOf (p ++ star :: t) [star] =? len p) eqn:E4;
      [|right; rewrite andb_false_r; split; [done|]; intros sub Hc; by apply Hcov in Hc as (? & ? & ? & ? & _)].
    destruct (patternKeyCompare b.1 (p ++ star :: t) =? 1) eqn:E5; cbn [andb]; bool_hyps;
      [|right; split; [done|]; by intros].
    left. destruct (prefix_trailer request p t E1 ltac:(lia) E3) as (sub & -> & Hs). exists sub.
    split_and!; [|done|].
    + exists p, t. split_and!; [done|done| |done|done]. by apply lastIndexOf_split in E4.
    + f_equal. apply slice_mid; rewrite ?len_app; lia.
Qed.

(** ** The most specific key *)

Definition is_best (request : jsstr) (keys : list jsstr) (b : best) : Prop :=
  (b = ([], []) /\ forall k sub, k ∈ keys -> ~ covers request k sub) \/
  (b.1 ∈ keys /\ covers request b.1 b.2 /\
   forall k sub, k ∈ keys -> covers request k sub -> k = b.1 \/ less_specific k b.1).

Lemma less_specific_trans a b c : less_specific a b -> less_specific b c -> less_specific a c.
Proof. unfold less_specific. lia. Qed.

Lemma step_best request keys key b :
  is_best request keys b -> is_best request (keys ++ [key]) (step request key b).
Proof.
  intros Hb. assert (b.1 = [] \/ star ∈ b.1) as Hs.
  { destruct Hb as [[-> _]|(_ & Hc & _)]; [by left|]. right. by eapply covers_star. }
  destruct (step_spec request key b) as [(sub & Hc & Hcmp & ->)|[-> Hno]].
  - right. split_and!; [apply elem_of_app; right; by left|done|]. cbn [fst].
    apply compare_specific in Hcmp; [|by eapply covers_star|done].
    intros k sub' [Hk|Hk]%elem_of_app Hk'; [|left; by apply list_elem_of_singleton in Hk].
    destruct Hb as [[_ Hn]|(_ & Hcb & Hmax)]; [by destruct (Hn k sub' Hk)|].
    right. destruct Hcmp as [E|Hcmp]; [rewrite E in Hcb; by destruct (covers_nil _ _ Hcb)|].
    destruct (Hmax k sub' Hk Hk') as [->|Hlt]; [done|by eapply less_specific_trans].
  - destruct Hb as [[-> Hn]|(Hin & Hcb & Hmax)].
    + left. split; [done|]. intros k sub [Hk|Hk]%elem_of_app; [by apply Hn|].
      apply list_elem_of_singleton in Hk as ->. intros Hc. apply (Hno sub Hc).
      apply compare_specific; [by eapply covers_star|by left|by left].
    + right. split_and!; [apply elem_of_app; by left|done|].
      intros k sub [Hk|Hk]%elem_of_app Hc; [by eapply Hmax|]. apply list_elem_of_singleton in Hk as ->.
      destruct (covers_compare _ _ _ _ _ Hc Hcb) as [?|[?|Hlt]]; [by left|by right|].
      exfalso. apply (Hno sub Hc). apply compare_specific; [by eapply covers_star|done|by right].
Qed.

Lemma best_match_best request keys : forall done_ b,
  is_best request done_ b -> is_best request (done_ ++ keys) (best_match request keys b).
Proof.
  induction keys as [|key keys IH]; intros done_ b Hb; cbn [best_match]; [by rewrite app_nil_r|].
  change (done_ ++ key :: keys) with (done_ ++ [key] ++ keys). rewrite app_assoc. apply IH. by apply step_best.
Qed.

Lemma best_match_spec request keys : is_best request keys (best_match request keys ([], [])).
Proof.
  apply (best_match_best request keys []). left. split; [done|]. by intros k sub ?%elem_of_nil.
Qed.

Lemma is_best_unique request keys keys' b b' :
  (forall k, k ∈ keys <-> k ∈ keys') -> is_best request keys b -> is_best request keys' b' -> b = b'.
Proof.
  intros Hk [[-> Hn]|(Hin & Hc & Hmax)] [[-> Hn']|(Hin' & Hc' & Hmax')].
  - done.
  - apply Hk in Hin'. by destruct (Hn _ _ Hin' Hc').
  - apply Hk in Hin. by destruct (Hn' _ _ Hin Hc).
  - assert (b.1 = b'.1) as E.
    { destruct (Hmax' _ _ (proj1 (Hk _) Hin) Hc) as [?|H1]; [done|].
      destruct (Hmax _ _ (proj2 (Hk _) Hin') Hc') as [?|H2]; [done|]. unfold less_specific in *. lia. }
    destruct b as [k s], b' as [k' s']. cbn in *. subst k'. f_equal. by eapply covers_sub.
Qed.

Lemma exports_match_best E u base request keys : forall b s s' b',
  exports_match E u base request keys b s = Some (s', Ok b') -> b' = best_match request keys b.
Proof.
  induction keys as [|key keys IH]; intros b s s' b' H; cbn [exports_match best_match] in *; [by injection H|].
  destruct (pattern_prefix request key); [|by eapply IH].
  unfold bind in H.
  match type of H with match ?m with _ => _ end = _ => destruct m as [[s1 [a|e]]|]; try done end. by eapply IH.
Qed.

(** ** Targets *)

(** The string targets a resolution may select: under ["default"] or a condition
    that is set, and in arrays. *)
Inductive leaf (conditions : jsstr -> bool) : json -> jsstr -> Prop :=
  | leaf_string t : leaf conditions (JString t) t
  | leaf_array l j t : j ∈ l -> leaf conditions j t -> leaf conditions (JArray l) t
  | leaf_object props k j t :
      (k, j) ∈ props -> k = "default"%js \/ conditions k = true -> leaf conditions j t ->
      leaf conditions (JObject props) t.

(** An induction principle that reaches into arrays and objects. *)
Section JsonInd.
Context (P : json -> Prop).
Context (Pnull : P JNull) (Pbool : forall b, P (JBool b)) (Pnum : forall t, P (JNumber t))
        (Pstr : forall s, P (JString s))
        (Parr : forall l, Forall P l -> P (JArray l))
        (Pobj : forall props, Forall (fun p => P p.2) props -> P (JObject props)).

Fixpoint json_rect' (j : json) : P j :=
  match j with
  | JNull => Pnull
  | JBool b => Pbool b
  | JNumber t => Pnum t
  | JString s => Pstr s
  | JArray l => Parr l ((fix go l : Forall P l :=
      match l with [] => List.Forall_nil _ | x :: l => List.Forall_cons _ _ _ (json_rect' x) (go l) end) l)
  | JObject props => Pobj props ((fix go l : Forall (fun p => P p.2) l :=
      match l with [] => List.Forall_nil _ | x :: l => List.Forall_cons _ _ _ (json_rect' x.2) (go l) end) props)
  end.
End JsonInd.

(** What a string target resolves to, inside the package whose package.json is
    at [pjson]: the target, which has no forbidden segment, is resolved against
    the package and stays under its directory; the part of the request that
    stands for the star has no forbidden segment either. *)
Definition inside (E : renv) (pjson : Url.url) (subpath : jsstr) (pattern : bool) (t : jsstr) (u : Url.url) : Prop :=
  exists target dir,
    new_URL (pj E) t (Some (Url.href pjson)) = Ok target /\
    new_URL (pj E) "." (Some (Url.href pjson)) = Ok dir /\
    startsWith (Url.pathname target) (Url.pathname dir) = true /\
    startsWith t "./" = true /\
    Forall (fun seg => RegExp.forbidden seg = false) (RegExp.segments (slice_from t 2)) /\
    (if bool_decide (subpath = []) then u = target
     else Forall (fun seg => RegExp.forbidden seg = false) (RegExp.segments subpath) /\
          new_URL (pj E) (if pattern then replace_stars subpath (Url.href target) else subpath)
            (if pattern then None else Some (Url.href target)) = Ok u).

Lemma invalid_never {A} E m t u i base s s' (a : A) : invalidPackageTarget E m t u i base s <> Some (s', Ok a).
Proof.
  unfold invalidPackageTarget. intros (? & ? & _ & (? & ? & _ & (? & ? & _ & [=])%bind_ok)%bind_ok)%bind_ok.
Qed.

Lemma subpath_never {A} E r m u i base s s' (a : A) : throwInvalidSubpath E r m u i base s <> Some (s', Ok a).
Proof. unfold throwInvalidSubpath. intros (? & ? & _ & (? & ? & _ & [=])%bind_ok)%bind_ok. Qed.

(** A check of segments that passes: none is forbidden. *)
Lemma check_passes E u sub m base pattern internal pathMap checked isT t inv s s' :
  (forall s s', inv s <> Some (s', Ok tt)) ->
  check_segments E u sub m base pattern internal pathMap checked isT t inv s = Some (s', Ok tt) ->
  Forall (fun seg => RegExp.forbidden seg = false) (RegExp.segments checked).
Proof.
  intros Hinv. unfold check_segments. rewrite invalid_segment_exec, deprecated_segment_exec.
  intros H. apply Forall_forall. intros seg Hseg.
  destruct (RegExp.forbidden seg) eqn:Hf; [|done]. exfalso.
  assert (existsb RegExp.forbidden (RegExp.segments checked) = true) as Hd
    by (apply existsb_exists; exists seg; split; [by apply list_elem_of_In|done]).
  assert (existsb (fun seg => bool_decide (seg = []) || RegExp.forbidden seg) (RegExp.segments checked) = true) as Hi.
  { apply existsb_exists. exists seg. split; [by apply list_elem_of_In|]. by rewrite Hf, orb_true_r. }
  rewrite Hi, Hd in H. cbn in H. by eapply Hinv.
Qed.

Lemma target_string_inside E pr pjson sub m base pattern pathMap t s s' u :
  resolvePackageTargetString E pr pjson sub m base pattern false pathMap t s = Some (s', Ok u) ->
  inside E pjson sub pattern t u.
Proof.
  unfold resolvePackageTargetString. cbn [andb]. intros H.
  destruct (_ && _ && _); [by apply invalid_never in H|].
  destruct (startsWith t "./") eqn:Ht; cbn [negb] in H; [|by apply invalid_never in H].
  apply bind_ok in H as (s1 & [] & Hc & H). apply check_passes in Hc; [|intros; apply invalid_never].
  apply bind_ok in H as (s2 & r & [-> Hr]%lift_ok & H). apply bind_ok in H as (s3 & dir & [-> Hd]%lift_ok & H).
  destruct (startsWith (Url.pathname r) (Url.pathname dir)) eqn:Hp; cbn [negb] in H; [|by apply invalid_never in H].
  exists r, dir. split_and!; [done..|].
  destruct (bool_decide (sub = [])) eqn:Hs; [by injection H as <- <-|].
  apply bind_ok in H as (s4 & [] & Hc' & H). apply check_passes in Hc'; [|intros; apply subpath_never].
  split; [done|]. destruct pattern; by apply lift_ok in H as [_ H].
Qed.

Lemma target_leaf E pr conditions pjson sub m base pattern pathMap j : forall s s' u,
  resolvePackageTarget E pr conditions pjson sub m base pattern false pathMap j s = Some (s', Ok (RUrl u)) ->
  exists t, leaf conditions j t /\ inside E pjson sub pattern t u.
Proof.
  induction j as [|b|n|t|l IH|props IH] using json_rect'; intros s s' u H; cbn [resolvePackageTarget] in H.
  - done.
  - by apply invalid_never in H.
  - by apply invalid_never in H.
  - apply bind_ok in H as (s1 & u' & H & [= <- <-]). exists t. split; [constructor|]. by eapply target_string_inside.
  - assert (exists last, (fix loop (items : list json) (last : last_exception) : R resolved :=
         match items with
         | [] => match last with LUndefined => ret RUndefined | LNull => ret RNull | LError e => throw e end
         | item :: items =>
             attempt (resolvePackageTarget E pr conditions pjson sub m base pattern false pathMap item) (fun r =>
               match r with
               | Throw e => if bool_decide (err_code e = "ERR_INVALID_PACKAGE_TARGET"%js)
                            then loop items (LError e) else throw e
               | Ok RUndefined => loop items last
               | Ok RNull => loop items LNull
               | Ok (RUrl u) => ret (RUrl u)
               end)
         end) l last s = Some (s', Ok (RUrl u))) as (last & Hl) by (destruct l; [done|by exists LUndefined]).
    clear H. enough (exists j t, j ∈ l /\ leaf conditions j t /\ inside E pjson sub pattern t u) as (j & t & ? & ? & ?)
      by (exists t; split; [by econstructor|done]).
    revert last s Hl. induction IH as [|x l Hx _ IHl]; intros last s Hl; [by destruct last|].
    unfold attempt in Hl at 1.
    destruct (resolvePackageTarget E pr conditions pjson sub m base pattern false pathMap x s)
      as [[s1 [[u'| |]|e]]|] eqn:Ex; try done.
    + injection Hl as <- <-. destruct (Hx _ _ _ Ex) as (t & ? & ?). exists x, t. split; [by left|done].
    + apply IHl in Hl as (j & t & ? & ?). exists j, t. split; [by right|done].
    + apply IHl in Hl as (j & t & ? & ?). exists j, t. split; [by right|done].
    + destruct (bool_decide _); [|done]. apply IHl in Hl as (j & t & ? & ?). exists j, t. split; [by right|done].
  - destruct (numeric_key E props); [by apply bind_ok in H as (? & ? & _ & [=])|].
    enough (exists k j t, (k, j) ∈ props /\ (k = "default"%js \/ conditions k = true) /\ leaf conditions j t /\
              inside E pjson sub pattern t u) as (k & j & t & ? & ? & ? & ?) by (exists t; split; [by econstructor|done]).
    revert s H. induction IH as [|[k j] props Hj _ IHp]; intros s H; [done|].
    destruct (bool_decide (k = "default"%js) || conditions k) eqn:Hk;
      [|apply IHp in H as (k0 & j0 & t & ? & ?); exists k0, j0, t; split; [by right|done]].
    apply bind_ok in H as (s1 & r & Hr & H). destruct r as [u'| |].
    + injection H as <- <-. cbn in Hj. destruct (Hj _ _ _ Hr) as (t & ? & ?). exists k, j, t.
      split_and!; [by left| |done..]. apply orb_true_iff in Hk as [Hk|Hk]; [left; by bool_hyps|by right].
    + done.
    + apply IHp in H as (k0 & j0 & t & ? & ?). exists k0, j0, t. split; [by right|done].
Qed.
