(* ===== verification/PackageJsonFacts.v ===== *)
(** * Package configurations: names and the nearest package.json

    A package name and the subpath after it are exactly the parts of the
    specifier; the search up the directories finds the nearest package.json,
    if no directory on the way stops it. *)

From Stdlib Require Import QArith.
From S2P Require Import Prelude JsString Url RegExp RegExpFacts PackageJson PathPosix EsmResolve.
From S2P Require Import Realm PathSpec UrlFacts EsmFacts.
Import PackageJson.
#[local] Open Scope Z_scope.

(** ** Package names *)

(** No leading dot, no percent sign and no backslash; one slash after an at
    sign, none otherwise. *)
Definition package_name (scoped : bool) (name : jsstr) : Prop :=
  head name <> Some 46 /\ Forall (fun c => c <> 37 /\ c <> 92) name /\
  if scoped
  then exists a b, name = 64 :: a ++ 47 :: b /\ Forall (fun c => c <> 47) a /\ Forall (fun c => c <> 47) b
  else head name <> Some 64 /\ Forall (fun c => c <> 47) name.

(** Nothing, or a slash and the rest. *)
Definition subpath_tail (t : jsstr) : Prop := t = [] \/ head t = Some 47.

Lemma upper_code c x : x < 65 \/ 122 < x \/ (90 < x < 97) -> (RegExp.upper c =? x) = (c =? x).
Proof.
  intros Hx. unfold RegExp.upper. destruct ((97 <=? c) && (c <=? 122)) eqn:E; [|done].
  bool_hyps. destruct (Z.eqb_spec (c - 32) x), (Z.eqb_spec c x); lia.
Qed.

Lemma accepts_invalid_name start c s :
  RegExp.accepts RegExp.invalidPackageNameRegEx start (c :: s) = (start && (c =? 46)) || (c =? 37) || (c =? 92).
Proof.
  unfold RegExp.accepts, RegExp.invalidPackageNameRegEx, RegExp.ci. cbn.
  change (RegExp.upper 46) with 46. change (RegExp.upper 37) with 37. change (RegExp.upper 92) with 92.
  rewrite !upper_code by lia. destruct start; cbn; rewrite ?upper_code by lia; repeat case_match; done.
Qed.

Lemma search_invalid_name s :
  RegExp.search RegExp.invalidPackageNameRegEx false s = true <-> ~ Forall (fun c => c <> 37 /\ c <> 92) s.
Proof.
  induction s as [|c s IH]; [split; [done|intros []; constructor]|].
  cbn [RegExp.search]. rewrite accepts_invalid_name. cbn [andb orb]. rewrite !orb_true_iff, IH, Forall_cons, !Z.eqb_eq. cbv beta.
  destruct (decide (c = 37)), (decide (c = 92)), (decide (Forall (fun c => c <> 37 /\ c <> 92) s)); tauto.
Qed.

Lemma exec_invalid_name s :
  RegExp.exec RegExp.invalidPackageNameRegEx s = false <-> head s <> Some 46 /\ Forall (fun c => c <> 37 /\ c <> 92) s.
Proof.
  unfold RegExp.exec. destruct s as [|c s]; [by split|].
  assert (RegExp.search RegExp.invalidPackageNameRegEx true (c :: s) =
          (c =? 46) || RegExp.search RegExp.invalidPackageNameRegEx false (c :: s)) as ->
    by (cbn [RegExp.search]; rewrite !accepts_invalid_name; cbn [andb orb]; by rewrite !orb_assoc).
  rewrite orb_false_iff, <- (not_true_iff_false (RegExp.search _ _ _)), search_invalid_name, Z.eqb_neq. cbn [head].
  assert (Some c <> Some 46 <-> c <> 46) as -> by (split; [congruence|by intros ? [=]]).
  destruct (decide (Forall (fun c => c <> 37 /\ c <> 92) (c :: s))); tauto.
Qed.

Section Names.
Context (E : env) (base : base_t).

Lemma index_slash name t :
  Forall (fun c => c <> 47) name -> subpath_tail t ->
  indexOf (name ++ t) [47] = if bool_decide (t = []) then -1 else len name.
Proof.
  intros Hn [->|Ht]; [rewrite app_nil_r; by apply indexOf_none|].
  destruct t as [|x t]; [done|]. injection Ht as ->. by apply indexOf_split.
Qed.

(** What is kept of the specifier once the separator is found. *)
Lemma parts_at name t :
  subpath_tail t ->
  let i := if bool_decide (t = []) then -1 else len name in
  (if i =? -1 then name ++ t else slice (name ++ t) 0 i) = name /\
  (if i =? -1 then [] else slice_from (name ++ t) i) = t.
Proof.
  intros Ht i. unfold i. destruct (bool_decide (t = [])) eqn:Hd; bool_hyps; [subst; by rewrite app_nil_r|].
  pose proof (len_nonneg name). replace (len name =? -1) with false by (symmetry; apply Z.eqb_neq; lia).
  by rewrite slice_prefix, slice_suffix.
Qed.

Lemma parse_plain name t :
  head name <> Some 64 -> Forall (fun c => c <> 47) name -> subpath_tail t ->
  parsePackageName E (name ++ t) base =
    if RegExp.exec RegExp.invalidPackageNameRegEx name
    then let* from := fileURLToPath E base in
         Throw (ERR_INVALID_MODULE_SPECIFIER [name ++ t; "is not a valid package name"%js; from])
    else Ok (name, "."%js ++ t, false).
Proof.
  intros Hh Hn Ht. unfold parsePackageName.
  assert (code_is (charCodeAt (name ++ t) 0) 64 = false) as ->.
  { destruct name as [|c name]; cbn in *.
    - destruct Ht as [->|Ht]; [done|]. destruct t; [done|]. by injection Ht as ->.
    - apply Z.eqb_neq. congruence. }
  change "/"%js with [47]. rewrite index_slash by done. cbv zeta. cbn [negb orb].
  destruct (parts_at name t Ht) as [-> ->]. done.
Qed.

Lemma parse_scoped a b t :
  Forall (fun c => c <> 47) a -> Forall (fun c => c <> 47) b -> subpath_tail t ->
  parsePackageName E ((64 :: a ++ 47 :: b) ++ t) base =
    if RegExp.exec RegExp.invalidPackageNameRegEx (64 :: a ++ 47 :: b)
    then let* from := fileURLToPath E base in
         Throw (ERR_INVALID_MODULE_SPECIFIER [(64 :: a ++ 47 :: b) ++ t; "is not a valid package name"%js; from])
    else Ok (64 :: a ++ 47 :: b, "."%js ++ t, true).
Proof.
  intros Ha Hb Ht. set (name := 64 :: a ++ 47 :: b). unfold parsePackageName.
  assert (Forall (fun c => c <> 47) (64 :: a)) as Ha' by (by constructor).
  assert (name ++ t = (64 :: a) ++ 47 :: b ++ t) as En by (unfold name; cbn; by rewrite <- app_assoc).
  replace (code_is (charCodeAt (name ++ t) 0) 64) with true by done.
  assert (indexOf (name ++ t) [47] = len (64 :: a)) as Hi by (rewrite En; by apply indexOf_split).
  change "/"%js with [47]. rewrite Hi. pose proof (len_nonneg (64 :: a)) as Hl.
  replace (len (64 :: a) =? -1) with false by (symmetry; apply Z.eqb_neq; lia).
  replace (len (name ++ t) =? 0) with false
    by (symmetry; apply Z.eqb_neq; unfold name; rewrite len_app, len_cons; pose proof (len_nonneg t);
        pose proof (len_nonneg (a ++ 47 :: b)); lia).
  cbn [orb].
  assert (indexOf_from (name ++ t) [47] (len (64 :: a) + 1) = if bool_decide (t = []) then -1 else len name) as ->.
  { unfold indexOf_from. cbv zeta.
    assert (len (64 :: a) + 1 <= len (name ++ t)) as Hle
      by (rewrite En; rewrite len_app, (len_cons 47); pose proof (len_nonneg (b ++ t)); lia).
    replace (Z.min (Z.max (len (64 :: a) + 1) 0) (len (name ++ t))) with (len (64 :: a) + 1) by lia.
    replace (drop (Z.to_nat (len (64 :: a) + 1)) (name ++ t)) with (b ++ t).
    2:{ rewrite En. change ((64 :: a) ++ 47 :: b ++ t) with ((64 :: a) ++ [47] ++ b ++ t). rewrite app_assoc.
        rewrite drop_app_exact; [done|]. unfold len. rewrite length_app. cbn [length]. lia. }
    destruct Ht as [->|Ht]; [rewrite app_nil_r; by apply indexOf_at_none|].
    destruct t as [|x t]; [done|]. injection Ht as ->. rewrite indexOf_at_first by done. cbn [bool_decide].
    rewrite bool_decide_eq_false_2 by done. unfold name.
    change (64 :: a ++ 47 :: b) with ((64 :: a) ++ 47 :: b). rewrite len_app, (len_cons 47). lia. }
  cbn [negb orb]. cbv zeta. destruct (parts_at name t Ht) as [-> ->]. done.
Qed.

Lemma parse_unscoped a :
  Forall (fun c => c <> 47) a -> exists e, parsePackageName E (64 :: a) base = Throw e.
Proof.
  intros Ha. unfold parsePackageName. replace (code_is (charCodeAt (64 :: a) 0) 64) with true by done.
  change "/"%js with [47]. rewrite indexOf_none by (by constructor). change (-1 =? -1) with true. cbn [orb negb].
  destruct (fileURLToPath E base); cbn; eauto.
Qed.
End Names.

Lemma split_tail (s : jsstr) : exists p t, s = p ++ t /\ Forall (fun c => c <> 47) p /\ subpath_tail t.
Proof.
  destruct (first_code 47 s) as [H|(p & t & -> & H)]; [|exists p, (47 :: t); split_and!; [done..|by right]].
  exists s, []. rewrite app_nil_r. split_and!; [done..|by left].
Qed.

Lemma parse_iff E base specifier name subpath scoped :
  parsePackageName E specifier base = Ok (name, subpath, scoped) <->
  exists t, specifier = name ++ t /\ subpath = "."%js ++ t /\ subpath_tail t /\ package_name scoped name.
Proof.
  split.
  - destruct (split_tail specifier) as (p & t & -> & Hp & Ht). destruct (decide (head p = Some 64)) as [Hh|Hh].
    + destruct p as [|x a]; [done|]. injection Hh as ->. apply Forall_cons in Hp as [_ Ha].
      destruct Ht as [->|Ht]; [rewrite app_nil_r; destruct (parse_unscoped E base a Ha) as (? & ->); done|].
      destruct t as [|x t]; [done|]. injection Ht as ->.
      destruct (split_tail t) as (b & t' & -> & Hb & Ht').
      replace ((64 :: a) ++ 47 :: b ++ t') with ((64 :: a ++ 47 :: b) ++ t') by (cbn; by rewrite <- app_assoc).
      rewrite parse_scoped by done.
      destruct (RegExp.exec _ _) eqn:Hx; [by destruct (fileURLToPath E base)|]. intros [= <- <- <-].
      apply exec_invalid_name in Hx as [H1 H2]. exists t'. split_and!; [done..|]. split_and!; [done..|]. eauto.
    + rewrite parse_plain by done.
      destruct (RegExp.exec _ _) eqn:Hx; [by destruct (fileURLToPath E base)|]. intros [= <- <- <-].
      apply exec_invalid_name in Hx as [H1 H2]. exists t. split_and!; [done..|]. by split_and!.
  - intros (t & -> & -> & Ht & H1 & H2 & Hs).
    assert (RegExp.exec RegExp.invalidPackageNameRegEx name = false) as Hx by (by apply exec_invalid_name).
    destruct scoped.
    + destruct Hs as (a & b & -> & Ha & Hb). by rewrite parse_scoped, Hx by done.
    + destruct Hs as [Hh Hs]. by rewrite parse_plain, Hx by done.
Qed.

(** [parsePackageName] answers a name, a subpath and whether the name is
    scoped exactly when the specifier is a valid package name followed by
    nothing or by a slash and the rest, and the subpath is a dot and that rest:
    so the name and the subpath without its dot, put together, are the
    specifier, and every valid name and rest is found again. *)
Theorem package_name_roundtrip E base specifier name subpath scoped :
  parsePackageName E specifier base = Ok (name, subpath, scoped) <->
  exists t, specifier = name ++ t /\ subpath = "."%js ++ t /\ subpath_tail t /\ package_name scoped name.
Proof. apply parse_iff. Qed.

(** ** The nearest package.json *)

(** [dir] is a directory above the file [p]. *)
Definition above (p dir : jsstr) : Prop := exists rest, p = dir ++ 47 :: rest.

(** The search may look into [dir] and go on: it can be read, and it is not a
    [node_modules] directory. *)
Definition passable (E : env) (dir : jsstr) : Prop :=
  (forall ok, can_read E = Some ok -> ok (dir ++ "/"%js) = true) /\ endsWith dir "/node_modules" = false.

Definition nearest (E : env) (p q : jsstr) : Prop :=
  exists dir, above p dir /\ q = dir ++ "/package.json"%js /\ internalModuleStat E q = 0 /\
    forall d, above p d -> len dir <= len d ->
      passable E d /\ (len dir < len d -> internalModuleStat E (d ++ "/package.json"%js) <> 0).

Lemma above_last d r : Forall (fun c => c <> 47) r -> forall e, above (d ++ 47 :: r) e <-> e = d \/ above d e.
Proof.
  intros Hr e. split.
  - intros (rest & H). destruct (last_code 47 rest) as [Hn|(a & b & -> & Hb)].
    + left. assert (len e = len d) as Hl.
      { rewrite <- (Z.add_0_l (len e)), <- (Z.add_0_l (len d)).
        rewrite <- (lastIndexOf_at_mid e 47 rest 0), <- (lastIndexOf_at_mid d 47 r 0) by (done || lia). by rewrite H. }
      symmetry in H. apply app_inj_1 in H as [-> _]; [done|]. unfold len in Hl. lia.
    + right. exists a. change (e ++ 47 :: a ++ 47 :: b) with (e ++ (47 :: a) ++ 47 :: b) in H. rewrite app_assoc in H.
      assert (len d = len (e ++ 47 :: a)) as Hl.
      { rewrite <- (Z.add_0_l (len d)), <- (Z.add_0_l (len (e ++ _))).
        rewrite <- (lastIndexOf_at_mid d 47 r 0), <- (lastIndexOf_at_mid (e ++ 47 :: a) 47 b 0) by (done || lia). by rewrite H. }
      apply app_inj_1 in H as [-> _]; [done|]. unfold len in Hl. lia.
  - intros [->|(rest & ->)]; [by exists r|]. exists (rest ++ 47 :: r). by rewrite <- app_assoc.
Qed.

Lemma above_none p e : Forall (fun c => c <> 47) p -> ~ above p e.
Proof. intros H (r & ->). apply Forall_app in H as [_ H]. by apply Forall_cons in H as [? _]. Qed.

(** [nearest] by the last directory: there, or further up. *)
Lemma nearest_step E d r q :
  Forall (fun c => c <> 47) r ->
  nearest E (d ++ 47 :: r) q <->
  passable E d /\
  ((q = d ++ "/package.json"%js /\ internalModuleStat E q = 0) \/
   (internalModuleStat E (d ++ "/package.json"%js) <> 0 /\ nearest E d q)).
Proof.
  intros Hr. unfold nearest. split.
  - intros (dir & Ha & -> & Hs & Hall). rewrite above_last in Ha by done.
    destruct Ha as [->|Ha].
    + split; [|by left]. apply (Hall d); [by exists r|lia].
    + assert (len dir < len d) as Hlt by (destruct Ha as (x & ->); rewrite len_app, len_cons; pose proof (len_nonneg x); lia).
      destruct (Hall d) as [Hp Hn]; [by exists r|lia|]. split; [done|]. right. split; [by apply Hn|].
      exists dir. split_and!; [done..|]. intros e He. apply Hall. rewrite above_last by done. by right.
  - intros (Hp & [[-> Hs]|(Hs & dir & Ha & -> & Hs' & Hall)]).
    + exists d. split_and!; [by exists r|done..|]. intros e He Hle. rewrite above_last in He by done.
      destruct He as [->|(x & ->)]; [split; [done|lia]|]. rewrite len_app, len_cons in Hle. pose proof (len_nonneg x). lia.
    + exists dir. split_and!; [rewrite above_last by done; by right|done..|]. intros e He Hle.
      rewrite above_last in He by done. destruct He as [->|He]; [by split|by apply Hall].
Qed.

Lemma find_parent_nearest E n : forall s q,
  47 ∈ s -> (length s < n)%nat -> find_parent E n (indexOf s "/") s = Some q <-> nearest E s q.
Proof.
  induction n as [|n IH]; intros s q Hin Hn; [lia|].
  destruct (last_code 47 s) as [H|(d & r & -> & Hr)]; [rewrite Forall_forall in H; by apply H in Hin|].
  cbn [find_parent]. unfold lastIndexOf. change "/"%js with [47]. rewrite lastIndexOf_at_mid by (done || lia).
  rewrite Z.add_0_l, slice_prefix, nearest_step by done. cbv zeta.
  destruct (match can_read E with Some ok => negb (ok (d ++ [47])) | None => false end) eqn:Hread.
  { split; [done|]. intros ((Hok & _) & _). destruct (can_read E) as [ok|]; [|done].
    rewrite (Hok ok eq_refl) in Hread. done. }
  destruct (endsWith d "/node_modules") eqn:Hm; [split; [done|]; intros ((_ & Hm2) & _); congruence|].
  assert (passable E d) as Hp.
  { split; [|done]. intros ok Hok. rewrite Hok in Hread. by apply negb_false_iff. }
  destruct (internalModuleStat E (d ++ "/package.json"%js) =? 0) eqn:Hs; [apply Z.eqb_eq in Hs|apply Z.eqb_neq in Hs].
  { split; [intros [= <-]; by auto|]. intros (_ & [[-> _]|[? _]]); done. }
  destruct (first_code 47 d) as [Hd|(a & b & -> & Ha)].
  - rewrite indexOf_split by done. replace (len d <? len d) with false by (symmetry; apply Z.ltb_ge; lia).
    split; [done|]. intros (_ & [[-> ?]|(_ & dir & Hab & _)]); [done|]. by apply above_none in Hab.
  - replace ((a ++ 47 :: b) ++ 47 :: r) with (a ++ 47 :: b ++ 47 :: r) by (by rewrite <- app_assoc).
    rewrite indexOf_split by done. rewrite len_app, len_cons. pose proof (len_nonneg b).
    replace (len a <? len a + (len b + 1)) with true by (symmetry; apply Z.ltb_lt; lia).
    rewrite <- (indexOf_split 47 a b) by done. change [47] with "/"%js. rewrite IH.
    + split; [by auto|]. intros (_ & [[-> ?]|[_ ?]]); done.
    + apply elem_of_app. right. by left.
    + rewrite length_app in Hn. cbn [length] in Hn. lia.
Qed.

(** [findParentPackageJSON] of an absolute path answers the package.json of
    the nearest directory above the file that has one, provided that this
    directory and all below it can be read and are not called [node_modules];
    when there is no such package.json it answers [undefined]. *)
Theorem nearest_package_json E p q :
  head p = Some 47 -> findParentPackageJSON E p = Some q <-> nearest E p q.
Proof.
  intros Hp. apply find_parent_nearest; [|lia]. destruct p as [|c p]; [done|]. injection Hp as ->. by left.
Qed.

(** ** An example file system *)

Module Sample.

(** Dot segments of a path. *)
Fixpoint normal (stack segs : list jsstr) : list jsstr :=
  match segs with
  | [] => rev stack
  | seg :: segs =>
      let last := match segs with [] => [[]] | _ => [] end in
      if bool_decide (seg = "."%js) then normal (last ++ stack) segs
      else if bool_decide (seg = ".."%js) then normal (last ++ tail stack) segs
      else normal (seg :: stack) segs
  end.

Definition of_path (p : jsstr) : Url.context :=
  Url.Context_ ("file:///"%js ++ join "/" (normal [] (split (tail p) 47)))
    (Url.Components 5 7 7 7 (-1) 7 (-1) (-1) 6).

(** File URLs without query or fragment, and relative references. *)
Definition parse (input : jsstr) (base : option jsstr) : option Url.context :=
  if startsWith input "file:///" then Some (of_path (drop 7 input))
  else
    match base with
    | Some b =>
        if startsWith b "file:///" then
          let p := drop 7 b in
          Some (of_path (if startsWith input "/" then input else slice p 0 (lastIndexOf p "/" + 1) ++ input))
        else None
    | None => None
    end.

(** The files, by their paths; a directory is what lies above a file. *)
Definition stat (files : list jsstr) (p : jsstr) : Z :=
  if bool_decide (p ∈ files) then 0
  else if existsb (fun f => startsWith f (p ++ "/"%js)) files then 1 else -2.

(** The package.json files, with what the native reader answers. *)
Definition env_of (files : list jsstr) (packages : list (jsstr * contents)) (parsed : jsstr -> result json) : env :=
  Env parse (fun _ _ _ => None) (fun p => Some (of_path p)) (stat files)
    (fun p => Ok (snd <$> List.find (fun x => bool_decide (x.1 = p)) packages))
    (fun _ => inr "/package.json"%js) None parsed.

Definition env : env :=
  env_of ["/app/package.json"; "/app/lib/a.js"; "/app/node_modules/m/i.js"]%js [] (fun _ => Ok JNull).
End Sample.

Lemma nearest_package_json_witness :
  nearest Sample.env "/app/lib/a.js" "/app/package.json" /\
  ~ nearest Sample.env "/app/node_modules/m/i.js" "/app/package.json".
Proof.
  split.
  - apply (nearest_package_json Sample.env "/app/lib/a.js"); vm_compute; reflexivity.
  - intros H. apply (nearest_package_json Sample.env "/app/node_modules/m/i.js") in H; [|reflexivity].
    vm_compute in H. discriminate H.
Defined.

(** A file whose package.json is found but cannot be read is remembered under
    the path asked for, where it is never looked up: the search of the cache is
    by the package.json. *)
Lemma nearest_miss_not_cached E p q c :
  findParentPackageJSON E p = Some q -> readPackageJSON E q = Ok None -> c !! q = None -> p <> q ->
  (getNearestParentPackageJSON E p c).1 !! q = None.
Proof.
  intros Hf Hr Hc Hne. unfold getNearestParentPackageJSON. rewrite Hf, Hc, Hr. cbn. by rewrite lookup_insert_ne.
Qed.
