(* ===== verification/EsmClaims.v ===== *)
(** * Module resolution: the theorems

    The segment checks, the choice among pattern keys, the targets that
    [exports] can lead to and the files that a resolution can answer. *)

From Stdlib Require Import QArith.
From S2P Require Import Prelude Effects JsString Url RegExp RegExpFacts PackageJson PathPosix EsmResolve.
From S2P Require Import Realm PathSpec UrlFacts EsmFacts PackageJsonFacts.
Import PackageJson Esm.
#[local] Open Scope Z_scope.
#[local] Open Scope effect_scope.

(** ** Segments *)

(** [deprecatedInvalidSegmentRegEx], found anywhere in a string, tells
    exactly the strings that have, between slashes or backslashes, a segment
    that is [.], [..] or [node_modules] once percent-encodings are undone and
    letter case is ignored; [invalidSegmentRegEx] also those with an empty
    segment. *)
Theorem esm_invalid_segments s :
  (RegExp.exec RegExp.deprecatedInvalidSegmentRegEx s = true <->
   exists seg, seg ∈ RegExp.segments s /\ RegExp.forbidden seg = true) /\
  (RegExp.exec RegExp.invalidSegmentRegEx s = true <->
   exists seg, seg ∈ RegExp.segments s /\ (seg = [] \/ RegExp.forbidden seg = true)).
Proof.
  rewrite deprecated_segment_exec, invalid_segment_exec, !existsb_exists.
  split; split; intros (seg & Hin%list_elem_of_In & Hs); exists seg; (split; [done|]).
  - done.
  - done.
  - apply orb_true_iff in Hs as [Hs|Hs]; [left; by bool_hyps|by right].
  - apply orb_true_iff. destruct Hs as [->|Hs]; [by left|by right].
Qed.

(** ** Patterns *)

(** C16. The loops over the keys of [exports] and [imports] choose the most
    specific key with one star that covers the request, the part before the star
    being compared first and the whole length next, together with the part of
    the request that stands for the star; they choose nothing when no key covers
    it. The order of the keys does not matter, and the loop of
    [packageExportsResolve], which also warns, makes the same choice. *)
Theorem esm_best_pattern request keys keys' :
  (forall k, k ∈ keys <-> k ∈ keys') ->
  is_best request keys (best_match request keys ([], [])) /\
  best_match request keys' ([], []) = best_match request keys ([], []) /\
  forall E u base s s' b,
    exports_match E u base request keys' ([], []) s = Some (s', Ok b) -> b = best_match request keys ([], []).
Proof.
  intros Hk. assert (best_match request keys' ([], []) = best_match request keys ([], [])) as Heq
    by (symmetry; eapply is_best_unique; [exact Hk|apply best_match_spec..]).
  split_and!; [apply best_match_spec|exact Heq|]. intros E u base s s' b H. apply exports_match_best in H. congruence.
Qed.

Definition sample_keys : list jsstr := ["./*"; "./a/*"; "./a/*.js"; "./*/b.js"]%js.

Lemma esm_best_pattern_witness :
  (forall k, k ∈ sample_keys <-> k ∈ rev sample_keys) /\
  best_match "./a/b.js" sample_keys ([], []) = ("./a/*.js"%js, "b"%js) /\
  is_best "./a/b.js" sample_keys (best_match "./a/b.js" sample_keys ([], [])) /\
  best_match "./a/b.js" (rev sample_keys) ([], []) = best_match "./a/b.js" sample_keys ([], []).
Proof.
  assert (forall k, k ∈ sample_keys <-> k ∈ rev sample_keys) as Hk
    by (intros k; rewrite !list_elem_of_In, <- in_rev; done).
  destruct (esm_best_pattern "./a/b.js" sample_keys (rev sample_keys) Hk) as (H1 & H2 & _).
  split_and!; [exact Hk|vm_compute; reflexivity|exact H1|exact H2].
Defined.

(** ** Targets *)

(** The map of subpaths: the keys as they are, or one entry for the main entry
    point when the keys are conditions. *)
Definition subpaths (exports : json) : list (jsstr * json) :=
  match exports with
  | JString _ | JArray _ => [("."%js, exports)]
  | JObject props =>
      if default false (sugar_loop true false props.*1) then [("."%js, exports)] else props
  | _ => []
  end.

Lemma prop_elem key props j : prop key props = Some j -> (key, j) ∈ props.
Proof.
  induction props as [|[k v] props IH]; [done|]. cbn. destruct (decide (k = key)) as [->|]; [intros [= ->]; by left|].
  intros H. right. by apply IH.
Qed.

Lemma sugar_subpaths E exports u base s s' b :
  isConditionalExportsMainSugar E exports u base s = Some (s', Ok b) ->
  (if b then [("."%js, exports)] else own_properties exports) = subpaths exports.
Proof.
  destruct exports; cbn; try by intros [= _ <-].
  destruct (sugar_loop true false props.*1) as [c|] eqn:Hs; cbn.
  - intros [= _ <-]. done.
  - by destruct (Url.file_path _ _).
Qed.

Lemma not_found_never {A} E sub u base s s' (a : A) : exportsNotFound E sub u base s <> Some (s', Ok a).
Proof. unfold exportsNotFound. intros (? & ? & _ & (? & ? & _ & (? & ? & _ & [=])%bind_ok)%bind_ok)%bind_ok. Qed.

(** The end of [packageExportsResolve]. *)
Lemma finish_ok E sub u base r s s' v :
  match r with RUrl u0 => ret u0 | _ => exportsNotFound E sub u base end s = Some (s', Ok v) -> r = RUrl v.
Proof. destruct r as [w| |]; [by intros [= _ ->]|by intros ?%not_found_never..]. Qed.

(** C15. Encapsulation: what [packageExportsResolve] answers comes from an entry
    of [exports] whose key is the requested subpath or a pattern that covers it,
    through a string target under ["default"] or conditions that are set; that
    target starts with [./], none of its segments is [.], [..] or
    [node_modules], in any encoding, and resolved against the package.json its
    path stays under the package's directory; the part of the request that
    stands for a star has no such segment either. Nothing else of the package
    can be reached. *)
Theorem esm_exports_encapsulate E pjson subpath exports base conditions s s' u :
  packageExportsResolve E pjson subpath exports base conditions s = Some (s', Ok u) ->
  exists key target sub t,
    (key, target) ∈ subpaths exports /\ leaf conditions target t /\
    ((key = subpath /\ sub = [] /\ inside E pjson sub false t u) \/
     (covers subpath key sub /\ inside E pjson sub true t u)).
Proof.
  unfold packageExportsResolve. intros (s1 & sugar & Hsugar & H)%bind_ok. cbv zeta in H.
  rewrite (sugar_subpaths _ _ _ _ _ _ _ Hsugar) in H.
  match type of H with match ?m with _ => _ end _ = _ => destruct m as [target|] eqn:Hexact end.
  - apply bind_ok in H as (s2 & r & Hr & H). apply finish_ok in H as ->.
    apply target_leaf in Hr as (t & Hl & Hi). exists subpath, target, [], t.
    destruct (_ && _); [|done]. apply prop_elem in Hexact. split_and!; [done..|by left].
  - apply bind_ok in H as (s2 & b & Hb & H). apply exports_match_best in Hb as ->.
    pose proof (best_match_spec subpath (subpaths exports).*1) as Hbest.
    set (b := best_match _ _ _) in *. destruct (bool_decide (b.1 = [])) eqn:Hne; [by apply not_found_never in H|].
    destruct (prop b.1 (subpaths exports)) as [target|] eqn:Hp; [|by apply not_found_never in H].
    apply bind_ok in H as (s3 & r & Hr & H). apply finish_ok in H as ->.
    apply target_leaf in Hr as (t & Hl & Hi). exists b.1, target, b.2, t. bool_hyps.
    destruct Hbest as [[E0 _]|(_ & Hc & _)]; [by rewrite E0 in Hne|].
    split_and!; [by apply prop_elem|done|by right].
Qed.

(** A package with conditions, a pattern and a private directory. *)
Definition sample_exports : json :=
  JObject [("."%js, JObject [("import"%js, JString "./index.mjs"); ("default"%js, JString "./index.js")]);
           ("./features/*.js"%js, JArray [JString "../outside.js"; JString "./src/features/*.js"]);
           ("./features/private/*"%js, JNull)].

Definition sample_renv (files : list jsstr) (packages : list (jsstr * contents)) (parsed : json) : renv :=
  REnv (Sample.env_of files packages (fun _ => Ok parsed)) (fun _ => None) (fun _ _ _ => Ok 7)
    (fun p => Ok p) (fun _ => None) false (Ok "/"%js) 10.

Definition file_url (p : jsstr) : Url.url := Url.Url_ (Sample.of_path p) None.
Definition only_import (c : jsstr) : bool := bool_decide (c = "import"%js).

Definition sample_resolve (subpath : jsstr) : option (result jsstr) :=
  match packageExportsResolve (sample_renv [] [] JNull) (file_url "/p/package.json") subpath sample_exports
          (BUrl (file_url "/a.mjs")) only_import (State [] []) with
  | Some (_, Ok u) => Some (Ok (Url.href u))
  | Some (_, Throw e) => Some (Throw (JsError (err_code e) []))
  | None => None
  end.

Example sample_main : sample_resolve "." = Some (Ok "file:///p/index.mjs"%js).
Proof. vm_compute. reflexivity. Qed.
Example sample_private :
  sample_resolve "./features/private/x" = Some (Throw (JsError "ERR_PACKAGE_PATH_NOT_EXPORTED" [])).
Proof. vm_compute. reflexivity. Qed.
Example sample_dots :
  sample_resolve "./features/%2e%2E/x.js" = Some (Throw (JsError "ERR_INVALID_MODULE_SPECIFIER" [])).
Proof. vm_compute. reflexivity. Qed.

Lemma esm_exports_encapsulate_witness :
  exists s' u,
    packageExportsResolve (sample_renv [] [] JNull) (file_url "/p/package.json") "./features/x.js" sample_exports
      (BUrl (file_url "/a.mjs")) only_import (State [] []) = Some (s', Ok u) /\
    Url.href u = "file:///p/src/features/x.js"%js /\
    exists key target sub t,
      (key, target) ∈ subpaths sample_exports /\ leaf only_import target t /\
      ((key = "./features/x.js"%js /\ sub = [] /\
        inside (sample_renv [] [] JNull) (file_url "/p/package.json") sub false t u) \/
       (covers "./features/x.js" key sub /\
        inside (sample_renv [] [] JNull) (file_url "/p/package.json") sub true t u)).
Proof.
  exists (State [] []), (file_url "/p/src/features/x.js"). split; [vm_compute; reflexivity|]. split; [reflexivity|].
  apply (esm_exports_encapsulate _ _ _ _ (BUrl (file_url "/a.mjs")) _ (State [] []) (State [] [])).
  vm_compute. reflexivity.
Defined.

(** The star is replaced in the whole URL of the target: in a package whose
    directory has a star in its name, the answer is in another directory. *)
Lemma esm_star_in_directory :
  exists s' u,
    packageExportsResolve (sample_renv [] [] JNull) (file_url "/lib*/p/package.json") "./x.js"
      (JObject [("./*.js"%js, JString "./src/*.js")])
      (BUrl (file_url "/a.mjs")) only_import (State [] []) = Some (s', Ok u) /\
    Url.href u = "file:///libx/p/src/x.js"%js /\
    startsWith (Url.pathname u) "/lib*/p/" = false.
Proof. exists (State [] []), (file_url "/libx/p/src/x.js"). split_and!; vm_compute; reflexivity. Qed.

(** [isArrayIndex] takes a number that is not an integer for an index. *)
Lemma esm_fraction_is_index canonical :
  canonical "1.5"%js = Some (3 # 2)%Q -> isArrayIndex canonical "1.5" = true.
Proof. intros H. unfold isArrayIndex. by rewrite H. Qed.

(** ** Files *)

(** The test for a trailing slash never holds on a path: the file is looked up
    under the path as it is. *)
Lemma stat_path_same path : stat_path path = path.
Proof.
  unfold stat_path, endsWith_to. cbn [len]. destruct path as [|c path]; [by vm_compute|].
  replace (endsWith _ (c :: path)) with false; [done|]. symmetry. apply not_true_is_false.
  intros (u & Hu)%endsWith_split. change (Z.to_nat _) with 0%nat in Hu. by destruct u.
Qed.

(** What [finalizeResolution] answers for a URL. *)
Definition finalized (E : renv) (resolved : Url.url) (preserveSymlinks : bool) (u : Url.url) : Prop :=
  RegExp.exec RegExp.encodedSepRegEx (Url.pathname resolved) = false /\
  exists path,
    fileURLToPath (pj E) (BUrl resolved) = Ok path /\ internalModuleStat (pj E) path = 0 /\
    if preserveSymlinks then u = resolved
    else exists real v w,
      realpathSync E path = Ok real /\
      pathToFileURL (pj E) (real ++ if endsWith path "/" then "/"%js else []) = Ok v /\
      Url.set_search (url_update (pj E)) (Url.search resolved) v = (w, Ok tt) /\
      u = Url.set_hash (url_update (pj E)) (Url.hash resolved) w.

Lemma finalize_ok E resolved base preserve s s' u :
  finalizeResolution E resolved base preserve s = Some (s', Ok u) -> finalized E resolved preserve u.
Proof.
  unfold finalizeResolution. destruct (RegExp.exec _ _) eqn:Hx; [done|].
  intros (s1 & path & [-> Hp]%lift_ok & H)%bind_ok. cbv zeta in H. rewrite stat_path_same in H.
  split; [done|]. exists path. split; [done|].
  destruct (internalModuleStat (pj E) path =? 1); [done|].
  destruct (internalModuleStat (pj E) path =? 0) eqn:H0; [|done]. cbn [negb] in H. split; [by apply Z.eqb_eq|].
  destruct preserve; [by injection H|].
  apply bind_ok in H as (s2 & real & [-> Hr]%lift_ok & H). apply bind_ok in H as (s3 & v & [-> Hv]%lift_ok & H).
  destruct (Url.set_search _ _ v) as [w r] eqn:Hw.
  apply bind_ok in H as (s4 & [] & [-> ->]%lift_ok & [= _ <-]). exists real, v, w. done.
Qed.

(** A module resolved to a file is a regular file: when [moduleResolve]
    answers, the URL it found for the specifier (the specifier resolved against
    the importing module, when it is relative or absolute) either is not a file
    URL and is the answer, or has no encoded separator in its path and names a
    file that exists and is not a directory; the answer is then that URL, or the
    real path of the file with the URL's query and fragment. *)
Theorem esm_resolves_to_files E specifier base conditions preserve s s' u :
  moduleResolve E specifier base conditions preserve s = Some (s', Ok u) ->
  exists resolved,
    (shouldBeTreatedAsRelativeOrAbsolutePath specifier = true ->
     new_URL (pj E) specifier (Some (base_string base)) = Ok resolved) /\
    ((Url.protocol resolved <> "file:"%js /\ u = resolved) \/
     (Url.protocol resolved = "file:"%js /\ finalized E resolved preserve u)).
Proof.
  unfold moduleResolve. intros (s0 & protocol & _ & H)%bind_ok. cbv zeta in H.
  apply bind_ok in H as (s1 & resolved & Hr & H). exists resolved. split.
  - intros Hrel. rewrite Hrel in Hr. unfold attempt, newURL, lift in Hr.
    destruct (new_URL (pj E) specifier _) as [v|e]; [by injection Hr as _ ->|done].
  - destruct (bool_decide (Url.protocol resolved = _)) eqn:Hp; cbn [negb] in H; bool_hyps.
    + right. split; [done|]. by eapply finalize_ok.
    + left. by injection H as _ <-.
Qed.

(** An import of a package, through its package.json, to a file. *)
Definition sample_tree : renv :=
  sample_renv ["/p/m.mjs"; "/p/node_modules/dep/package.json"; "/p/node_modules/dep/index.mjs"]%js
    [("/p/node_modules/dep/package.json"%js,
      Contents (Some "dep"%js) None None None (Some "{json}"%js) None)] sample_exports.

Lemma esm_resolves_to_files_witness :
  exists s' u,
    moduleResolve sample_tree "dep" (BUrl (file_url "/p/m.mjs")) only_import true (State [] []) = Some (s', Ok u) /\
    Url.href u = "file:///p/node_modules/dep/index.mjs"%js /\
    exists resolved,
      (shouldBeTreatedAsRelativeOrAbsolutePath "dep" = true ->
       new_URL (pj sample_tree) "dep" (Some "file:///p/m.mjs"%js) = Ok resolved) /\
      ((Url.protocol resolved <> "file:"%js /\ u = resolved) \/
       (Url.protocol resolved = "file:"%js /\ finalized sample_tree resolved true u)).
Proof.
  exists (State [] []), (file_url "/p/node_modules/dep/index.mjs").
  split; [vm_compute; reflexivity|]. split; [reflexivity|].
  apply (esm_resolves_to_files sample_tree "dep" (BUrl (file_url "/p/m.mjs")) only_import true (State [] []) (State [] [])).
  vm_compute. reflexivity.
Defined.
