(* ===== verification/CjsResolve.v ===== *)
(** * Resolution of CommonJS requests

    Models the resolver of [libjs-node/internal/modules/cjs/loader.js] on POSIX:
    from a request and the module that makes it to the name of a file.

    The state is the path cache, the cache of file states while modules load,
    the cache of package.json files and the warnings.  The file system, the
    realpath of a file and the command line are parameters, with those of the
    ES module resolver, whose [exports] and [imports] this one uses.  Paths are
    strings.  Hooks of [module.registerHooks] and the watch mode are not
    modelled. *)

From Stdlib Require Import QArith.
From S2P Require Import Prelude Effects JsString Realm Url RegExp PackageJson PathPosix EsmResolve.
#[local] Open Scope Z_scope.
#[local] Open Scope effect_scope.

Module Cjs.
Import PackageJson.

Record cenv := CEnv {
  esm : Esm.renv;
  preserveSymlinks : bool;
  preserveSymlinksMain : bool;
  extensions : list jsstr;    (* [ObjectKeys(Module._extensions)] *)
  modulePaths : list jsstr;
}.

(** [statCache] is [null] between two loads. *)
Record state := State {
  warned : Esm.state;
  nearestParentPackageJSONCache : gmap jsstr (option config);
  _pathCache : gmap jsstr jsstr;
  statCache : option (gmap jsstr Z);
}.

Definition set_warned (w : Esm.state) (s : state) : state :=
  State w (nearestParentPackageJSONCache s) (_pathCache s) (statCache s).
Definition set_nearest (c : gmap jsstr (option config)) (s : state) : state :=
  State (warned s) c (_pathCache s) (statCache s).
Definition set_pathCache (c : gmap jsstr jsstr) (s : state) : state :=
  State (warned s) (nearestParentPackageJSONCache s) c (statCache s).
Definition set_statCache (c : option (gmap jsstr Z)) (s : state) : state :=
  State (warned s) (nearestParentPackageJSONCache s) (_pathCache s) c.

Abbreviation C := (M state).

(** A resolution of the other loader, with its warnings. *)
Definition in_esm {A} (m : Esm.R A) : C A := within warned set_warned m.

(** A string or [undefined], as a condition. *)
Definition truthy (o : option jsstr) : option jsstr :=
  match o with Some [] => None | _ => o end.

(** The module that requires: what the resolver reads of it.  [requireStack] is
    the chain of its first parents, itself first. *)
Record parent_t := Parent {
  id : jsstr; filename : option jsstr; paths : option (list jsstr); requireStack : list jsstr }.

Definition MODULE_NOT_FOUND (args : list jsstr) : jserror := JsError "MODULE_NOT_FOUND" args.
(** Reading a property of [null]. *)
Definition null_error : jserror := Url.TypeError "Cannot read properties of null".

(** ** Names *)

Definition isRelative (path : jsstr) : bool :=
  if negb (code_is (charCodeAt path 0) 46) then false
  else (len path =? 1) || bool_decide (path = ".."%js) || startsWith path "./" || startsWith path "../"
       || startsWith path "..\".

(** A code unit that [.] of a regular expression does not match. *)
Definition line_terminator (c : Z) : bool := bool_decide (c ∈ [10; 13; 0x2028; 0x2029]).
(** [[^/\\%]] *)
Definition name_char (c : Z) : bool := negb ((c =? 47) || (c =? 92) || (c =? 37)).

Fixpoint span (p : Z -> bool) (s : jsstr) : jsstr * jsstr :=
  match s with
  | c :: s' => if p c then let '(a, b) := span p s' in (c :: a, b) else ([], s)
  | [] => ([], [])
  end.

(** The pattern after the optional scope: a character that is neither a dot nor
    one of slash, backslash and percent, then characters that are none of the
    three, as many as there are; then the end, or a slash and a rest without
    line terminators.  No shorter match of the name can be followed by a slash
    or the end, so the match is unique. *)
Definition match_name (s : jsstr) : option (jsstr * jsstr) :=
  match s with
  | c :: s' =>
      if name_char c && negb (c =? 46) then
        let '(name, expansion) := span name_char s' in
        match expansion with
        | [] => Some (c :: name, [])
        | d :: rest => if (d =? 47) && forallb (fun x => negb (line_terminator x)) rest
                       then Some (c :: name, expansion) else None
        end
      else None
  | [] => None
  end.

(** The groups of the match: the name and the expansion.  The optional scope, an
    at sign and characters up to a slash, is tried first, and given up when the
    rest does not match after it. *)
Definition EXPORTS_PATTERN (request : jsstr) : option (jsstr * jsstr) :=
  let scoped :=
    match request with
    | c :: s =>
        if c =? 64 then
          match span name_char s with
          | (x :: scope, d :: rest) =>
              if d =? 47 then
                match match_name rest with
                | Some (name, expansion) => Some ((64 :: (x :: scope) ++ [47]) ++ name, expansion)
                | None => None
                end
              else None
          | _ => None
          end
        else None
    | [] => None
    end in
  match scoped with Some r => Some r | None => match_name request end.

(** The loop of [findLongestRegisteredExtension]; [n] bounds the dots left. *)
Fixpoint longest_loop (registered : list jsstr) (n : nat) (name : jsstr) (startIndex : Z) : jsstr :=
  match n with
  | O => ".js"
  | S n =>
      let index := indexOf_from name "." startIndex in
      if index =? -1 then ".js"
      else if index =? 0 then longest_loop registered n name (index + 1)
      else
        let currentExtension := slice_from name index in
        if bool_decide (currentExtension ∈ registered) then currentExtension
        else longest_loop registered n name (index + 1)
  end.

Definition findLongestRegisteredExtension (registered : list jsstr) (filename : jsstr) : result jsstr :=
  let* name := Posix.basename (VString filename) None in
  Ok (longest_loop registered (S (length name)) name 0).

(** ** Where to look *)

(** [node_modules] character codes reversed *)
Definition nmChars : list Z := [115; 101; 108; 117; 100; 111; 109; 95; 101; 100; 111; 110].
Definition nmLen : Z := 12.

(** The loop of [_nodeModulePaths] from [i = n - 1] down. *)
Fixpoint paths_loop (from : jsstr) (n : nat) (p last : Z) : list jsstr :=
  match n with
  | O => []
  | S n =>
      let i := Z.of_nat n in
      if code_is (charCodeAt from i) 47 then
        (if negb (p =? nmLen) then [slice from 0 last ++ "/node_modules"%js] else []) ++ paths_loop from n 0 i
      else if negb (p =? -1) then
        let matched := match nmChars !! Z.to_nat p with Some x => code_is (charCodeAt from i) x | None => false end in
        paths_loop from n (if matched then p + 1 else -1) last
      else paths_loop from n p last
  end.

Definition _nodeModulePaths (cwd : result jsstr) (from : jsstr) : result (list jsstr) :=
  let* from := Posix.resolve cwd [VString from] in
  if bool_decide (from = "/"%js) then Ok ["/node_modules"%js]
  else Ok (paths_loop from (length from) 0 (len from) ++ ["/node_modules"%js]).

Definition _resolveLookupPaths (modulePaths : list jsstr) (request : jsstr) (parent : option parent_t)
    : result (option (list jsstr)) :=
  if bool_decide (normalizeRequirableId request <> None) then Ok None
  else if negb (code_is (charCodeAt request 0) 46) ||
          (1 <? len request) && negb (code_is (charCodeAt request 1) 46) && negb (code_is (charCodeAt request 1) 47)
  then
    let l := match parent with
      | Some p => match paths p with Some (x :: l) => (x :: l) ++ modulePaths | _ => modulePaths end
      | None => modulePaths
      end in
    Ok (match l with [] => None | _ => Some l end)
  else
    match parent with
    | Some p =>
        match id p, truthy (filename p) with
        | _ :: _, Some f => let* d := Posix.dirname (VString f) in Ok (Some [d])
        | _, _ => Ok (Some ["."%js])
        end
    | None => Ok (Some ["."%js])
    end.

(** [HOME], [NODE_PATH] and [process.execPath] *)
Definition _initPaths (cwd : result jsstr) (homeDir nodePath : option jsstr) (execPath : jsstr)
    : result (list jsstr) :=
  let* prefixDir := Posix.resolve cwd [VString execPath; VString ".."; VString ".."] in
  let* lib := Posix.resolve cwd [VString prefixDir; VString "lib"; VString "node"] in
  let* home := match truthy homeDir with
    | Some h =>
        let* a := Posix.resolve cwd [VString h; VString ".node_libraries"] in
        let* b := Posix.resolve cwd [VString h; VString ".node_modules"] in
        Ok [b; a; lib]
    | None => Ok [lib]
    end in
  Ok (match truthy nodePath with
      | Some p => List.filter (fun x => negb (len x =? 0)) (split p 58) ++ home
      | None => home
      end).

Section WithEnv.
Variable E : cenv.

Let pj : env := Esm.pj (esm E).
Let cwd : result jsstr := Esm.cwd (esm E).
Definition path_resolve (l : list jsstr) : C jsstr := lift (Posix.resolve cwd (VString <$> l)).

(** ** Files *)

Definition stat (filename : jsstr) : C Z := fun s =>
  match statCache s with
  | None => Some (s, Ok (internalModuleStat pj filename))
  | Some cache =>
      match cache !! filename with
      | Some r => Some (s, Ok r)
      | None =>
          let r := internalModuleStat pj filename in
          Some (if 0 <=? r then set_statCache (Some (<[filename := r]> cache)) s else s, Ok r)
      end
  end.

(** The name a file is known by. *)
Definition file_name (isMain : bool) (requestPath : jsstr) : C jsstr :=
  if if isMain then preserveSymlinksMain E else preserveSymlinks E
  then path_resolve [requestPath]
  else lift (Esm.realpathSync (esm E) requestPath).

Definition tryFile (requestPath : jsstr) (isMain : bool) : C (option jsstr) :=
  rc <- stat requestPath;;
  if negb (rc =? 0) then ret None
  else f <- file_name isMain requestPath;; ret (Some f).

Fixpoint tryExtensions (basePath : jsstr) (exts : list jsstr) (isMain : bool) : C (option jsstr) :=
  match exts with
  | [] => ret None
  | ext :: exts =>
      f <- tryFile (basePath ++ ext) isMain;;
      match truthy f with
      | Some f => ret (Some f)
      | None => tryExtensions basePath exts isMain
      end
  end.

(** [a || b] *)
Definition orElse (a b : C (option jsstr)) : C (option jsstr) :=
  x <- a;; match truthy x with Some f => ret (Some f) | None => b end.

Definition _readPackage (requestPath : jsstr) : C config :=
  p <- path_resolve [requestPath; "package.json"%js];;
  lift (read pj p).

Definition tryPackage (requestPath : jsstr) (exts : list jsstr) (isMain : bool) (originalPath : jsstr)
    : C (option jsstr) :=
  c <- _readPackage requestPath;;
  match truthy (p_main c) with
  | None =>
      index <- path_resolve [requestPath; "index"%js];;
      tryExtensions index exts isMain
  | Some pkg =>
      filename <- path_resolve [requestPath; pkg];;
      actual <- orElse (tryFile filename isMain)
                  (orElse (tryExtensions filename exts isMain)
                     (index <- path_resolve [filename; "index"%js];; tryExtensions index exts isMain));;
      match actual with
      | Some f => ret (Some f)
      | None =>
          index <- path_resolve [requestPath; "index"%js];;
          actual <- tryExtensions index exts isMain;;
          match truthy actual with
          | None => throw (MODULE_NOT_FOUND [filename; pjsonPath c; originalPath])
          | Some f =>
              in_esm (Esm.emitWarning "DEP0128" [pjsonPath c; pkg]);;
              ret (Some f)
          end
      end
  end.

(** ** Packages with exports *)

Definition createEsmNotFoundErr (request : jsstr) (path : option jsstr) : jserror :=
  MODULE_NOT_FOUND (request :: match truthy path with Some p => [p] | None => [] end).

(** The URL is tested as a string. *)
Definition finalizeEsmResolution (resolved : Url.url) (parentPath : option jsstr) (pkgPath : jsstr) : C jsstr :=
  if RegExp.exec RegExp.encodedSepRegEx (Url.href resolved) then
    throw (ERR_INVALID_MODULE_SPECIFIER
             (Url.href resolved :: match truthy parentPath with Some p => [p] | None => [] end))
  else
    filename <- lift (fileURLToPath pj (BUrl resolved));;
    actual <- tryFile filename false;;
    match truthy actual with
    | Some f => ret f
    | None => throw (createEsmNotFoundErr filename (Some pkgPath))
    end.

(** [catch (e)]: a missing ES module is reported as a missing module. *)
Definition not_found_as {A} (err : jserror) (m : C A) : C A :=
  attempt m (fun r =>
    match r with
    | Ok a => ret a
    | Throw e => throw (if bool_decide (err_code e = "ERR_MODULE_NOT_FOUND"%js) then err else e)
    end).

Definition nearestPackage (checkPath : jsstr) : C (option config) := fun s =>
  let '(c, r) := getNearestParentPackageJSON pj checkPath (nearestParentPackageJSONCache s) in
  Some (set_nearest c s, r).

(** [None] stands for [false] and [undefined]. *)
Definition trySelfParentPath (parent : option parent_t) : option jsstr :=
  match parent with
  | None => None
  | Some p =>
      match truthy (filename p) with
      | Some f => Some f
      | None =>
          if bool_decide (id p = "<repl>"%js) || bool_decide (id p = "internal/preload"%js)
          then match cwd with Ok d => Some (d ++ "/"%js) | Throw _ => None end
          else None
      end
  end.

Definition trySelf (parentPath : option jsstr) (request : jsstr) (conditions : jsstr -> bool) : C (option jsstr) :=
  match truthy parentPath with
  | None => ret None
  | Some parentPath =>
      pkg <- nearestPackage parentPath;;
      match pkg with
      | None => ret None
      | Some pkg =>
          exp <- lift (exports pj pkg);;
          match exp, p_name pkg with
          | Some exports, Some name =>
              let expansion :=
                if bool_decide (request = name) then Some "."%js
                else if startsWith request (name ++ "/"%js) then Some ("."%js ++ slice_from request (len name))
                else None in
              match expansion with
              | None => ret None
              | Some expansion =>
                  f <- not_found_as (createEsmNotFoundErr request (Some (pjsonPath pkg)))
                    (u <- lift (pathToFileURL pj (pjsonPath pkg));;
                     b <- lift (pathToFileURL pj parentPath);;
                     r <- in_esm (Esm.packageExportsResolve (esm E) u expansion exports (BUrl b) conditions);;
                     finalizeEsmResolution r (Some parentPath) (pjsonPath pkg));;
                  ret (Some f)
              end
          | _, _ => ret None
          end
      end
  end.

Definition resolveExports (nmPath request : jsstr) (conditions : jsstr -> bool) : C (option jsstr) :=
  match EXPORTS_PATTERN request with
  | None => ret None
  | Some (name, expansion) =>
      pkgPath <- path_resolve [nmPath; name];;
      pkg <- _readPackage pkgPath;;
      exp <- (if p_exists pkg then lift (exports pj pkg) else ret None);;
      match (if present exp then exp else None) with
      | None => ret None
      | Some exports =>
          f <- not_found_as (createEsmNotFoundErr request (Some (pkgPath ++ "/package.json"%js)))
            (u <- lift (pathToFileURL pj (pkgPath ++ "/package.json"%js));;
             r <- in_esm (Esm.packageExportsResolve (esm E) u ("."%js ++ expansion) exports BNull conditions);;
             finalizeEsmResolution r None pkgPath);;
          ret (Some f)
      end
  end.

(** ** [Module._findPath] *)

(** The request ends in a slash, or in a segment of one or two dots. *)
Definition trailingSlash (request : jsstr) : bool :=
  let n := len request in
  (0 <? n) &&
  (code_is (charCodeAt request (n - 1)) 47 ||
   (code_is (charCodeAt request (n - 1)) 46 &&
    ((n =? 1) || code_is (charCodeAt request (n - 2)) 47 ||
     (code_is (charCodeAt request (n - 2)) 46 &&
      ((n =? 2) || code_is (charCodeAt request (n - 3)) 47))))).

Definition insidePath (request : jsstr) : C bool :=
  if isRelative request then
    n <- lift (Posix.normalize (VString request));;
    ret (negb (startsWith n ".."))
  else ret true.

Definition cacheKey (request : jsstr) (paths : list jsstr) : jsstr := request ++ [0] ++ join [0] paths.

(** One path of the list: the file found there, and whether it is cached. *)
Definition find_in (request curPath : jsstr) (isMain inside absolute : bool) (conditions : jsstr -> bool)
    : C (option (jsstr * bool)) :=
  skip <- (if inside && negb (len curPath =? 0) then rc <- stat curPath;; ret (rc <? 1) else ret false);;
  if skip then ret None
  else
    exported <- (if negb absolute then resolveExports curPath request conditions else ret None);;
    match truthy exported with
    | Some f => ret (Some (f, false))
    | None =>
        basePath <- path_resolve [curPath; request];;
        rc <- stat basePath;;
        found <- (if negb (trailingSlash request) then
                    orElse (if rc =? 0 then f <- file_name isMain basePath;; ret (Some f) else ret None)
                      (tryExtensions basePath (extensions E) isMain)
                  else ret None);;
        found <- (match truthy found with
                  | Some f => ret (Some f)
                  | None => if rc =? 1 then tryPackage basePath (extensions E) isMain request else ret None
                  end);;
        ret (match truthy found with Some f => Some (f, true) | None => None end)
    end.

Fixpoint find_loop (request key : jsstr) (paths : list jsstr) (isMain inside absolute : bool)
    (conditions : jsstr -> bool) : C (option jsstr) :=
  match paths with
  | [] => ret None
  | curPath :: paths =>
      r <- find_in request curPath isMain inside absolute conditions;;
      match r with
      | Some (f, true) => modify (fun s => set_pathCache (<[key := f]> (_pathCache s)) s);; ret (Some f)
      | Some (f, false) => ret (Some f)
      | None => find_loop request key paths isMain inside absolute conditions
      end
  end.

Definition _findPath (request : jsstr) (paths : option (list jsstr)) (isMain : bool) (conditions : jsstr -> bool)
    : C (option jsstr) :=
  absolute <- lift (Posix.isAbsolute (VString request));;
  match (if absolute : bool then [[]] else default [] paths) with
  | [] => ret None
  | paths =>
      let key := cacheKey request paths in
      entry <- gets (fun s => truthy (_pathCache s !! key));;
      match entry with
      | Some f => ret (Some f)
      | None =>
          inside <- insidePath request;;
          find_loop request key paths isMain inside absolute conditions
      end
  end.

(** ** [Module._resolveFilename] *)

(** [options.paths] *)
Inductive option_paths :=
  | PUndefined
  | PArray (l : list jsstr)
  | POther.

(** The paths of [options.paths] for a request that is not relative. *)
Fixpoint collect_paths (request : jsstr) (l : list jsstr) (acc : list jsstr) : C (list jsstr) :=
  match l with
  | [] => ret acc
  | p :: l =>
      own <- lift (_nodeModulePaths cwd p);;
      lookup <- lift (_resolveLookupPaths (modulePaths E) request (Some (Parent [] None (Some own) [])));;
      match lookup with
      | None => throw null_error
      | Some found =>
          collect_paths request l
            (List.fold_left (fun acc x => if bool_decide (x ∈ acc) then acc else acc ++ [x]) found acc)
      end
  end.

(** Where to look; [conditions] are already chosen. *)
Definition lookup_paths (request : jsstr) (parent : option parent_t) (options : option option_paths)
    : C (option (list jsstr)) :=
  match options with
  | Some (PArray l) =>
      if isRelative request then ret (Some l)
      else found <- collect_paths request l [];; ret (Some found)
  | Some POther => throw (JsError "ERR_INVALID_ARG_VALUE" ["options.paths"%js])
  | Some PUndefined | None => lift (_resolveLookupPaths (modulePaths E) request parent)
  end.

(** A request that starts with a hash, from a module with a package that has
    [imports]; [None] when it is not one. *)
Definition tryImports (request : jsstr) (parent : option parent_t) (conditions : jsstr -> bool) : C (option jsstr) :=
  match parent with
  | None => ret None
  | Some p =>
      if code_is (charCodeAt request 0) 35 &&
         (bool_decide (truthy (filename p) <> None) || bool_decide (id p = "<repl>"%js))
      then
        parentPath <- (match filename p with
                       | Some f => ret f
                       | None => d <- lift cwd;; ret (d ++ "/"%js)
                       end);;
        pkg <- nearestPackage parentPath;;
        match pkg with
        | None => ret None
        | Some pkg =>
            imp <- lift (imports pj pkg);;
            if present imp then
              f <- not_found_as (createEsmNotFoundErr request None)
                (b <- lift (pathToFileURL pj parentPath);;
                 r <- in_esm (Esm.packageImportsResolve (esm E) request (BUrl b) conditions);;
                 finalizeEsmResolution r (Some parentPath) (pjsonPath pkg));;
              ret (Some f)
            else ret None
        end
      else ret None
  end.

Definition _resolveFilename (request : jsstr) (parent : option parent_t) (isMain : bool)
    (options : option option_paths) (conditions : jsstr -> bool) : C jsstr :=
  if bool_decide (normalizeRequirableId request <> None) then ret request
  else
    paths <- lookup_paths request parent options;;
    imported <- tryImports request parent conditions;;
    match imported with
    | Some f => ret f
    | None =>
        self <- trySelf (trySelfParentPath parent) request conditions;;
        match truthy self with
        | Some f =>
            match paths with
            | None => throw null_error
            | Some paths =>
                modify (fun s => set_pathCache (<[cacheKey request paths := f]> (_pathCache s)) s);;
                ret f
            end
        | None =>
            found <- _findPath request paths isMain conditions;;
            match truthy found with
            | Some f => ret f
            | None =>
                throw (MODULE_NOT_FOUND
                         (request :: match parent with Some p => requireStack p | None => [] end))
            end
        end
    end.
End WithEnv.
End Cjs.
