(* ===== verification/CjsFacts.v ===== *)
(** * CommonJS resolution: lemmas

    The directories of [_nodeModulePaths], the pattern of package names, and the
    files that the searches can answer. *)

From Stdlib Require Import QArith.
From S2P Require Import Prelude Effects JsString Realm Url RegExp PackageJson PathPosix EsmResolve CjsResolve.
From S2P Require Import Path PathSpec UrlFacts EsmFacts PackageJsonFacts PathPosixFacts.
Import PackageJson Cjs.
#[local] Open Scope Z_scope.

(** ** [node_modules] directories *)

(** What the loop knows of a segment, read from its end: how much of
    [node_modules] it is so far, or that it is something else. *)
Definition nm_step (p c : Z) : Z :=
  if p =? -1 then -1
  else if match nmChars !! Z.to_nat p with Some x => c =? x | None => false end then p + 1 else -1.

Lemma paths_loop_step from n p last c :
  charCodeAt from (Z.of_nat n) = Some c -> c <> 47 ->
  paths_loop from (S n) p last = paths_loop from n (nm_step p c) last.
Proof.
  intros Hc Hn. cbn [paths_loop]. rewrite Hc. cbn [code_is].
  replace (c =? 47) with false by (symmetry; by apply Z.eqb_neq). unfold nm_step.
  destruct (Z.eqb_spec p (-1)) as [->|]; cbn [negb]; [done|]. by destruct (nmChars !! Z.to_nat p).
Qed.

Lemma paths_loop_segment from pre s post p last :
  from = pre ++ s ++ post -> Forall (fun c => c <> 47) s ->
  paths_loop from (length (pre ++ s)) p last = paths_loop from (length pre) (foldl nm_step p (rev s)) last.
Proof.
  revert p post. induction s as [|c s IH] using rev_ind; intros p post Hf Hs; [by rewrite app_nil_r|].
  apply Forall_app in Hs as [Hs Hc]. rewrite Forall_singleton in Hc.
  rewrite rev_app_distr. cbn [rev app foldl]. rewrite app_assoc, length_app. cbn [length].
  rewrite Nat.add_1_r, (paths_loop_step _ _ _ _ c); [| |done].
  - apply (IH (nm_step p c) (c :: post)); [by rewrite Hf, <- app_assoc|done].
  - rewrite Hf. replace (pre ++ (s ++ [c]) ++ post) with ((pre ++ s) ++ c :: post) by (by rewrite <- !app_assoc).
    by apply charCodeAt_app_mid.
Qed.

Lemma nm_dead s : foldl nm_step (-1) s = -1.
Proof. induction s as [|c s IH]; [done|]. exact IH. Qed.

Lemma nm_match s : forall k, (k <= 12)%nat -> foldl nm_step (Z.of_nat k) s = 12 <-> s = drop k nmChars.
Proof.
  induction s as [|c s IH]; intros k Hk; cbn [foldl].
  - split; [intros E; replace k with 12%nat by lia; done|].
    intros E. symmetry in E. apply (f_equal length) in E. rewrite length_drop in E. cbn in E. lia.
  - unfold nm_step. replace (Z.of_nat k =? -1) with false by (symmetry; apply Z.eqb_neq; lia). rewrite Nat2Z.id.
    destruct (nmChars !! k) as [x|] eqn:Hx.
    + pose proof (lookup_lt_Some _ _ _ Hx) as Hlt. cbn in Hlt. rewrite (drop_S _ _ _ Hx).
      destruct (Z.eqb_spec c x) as [->|Hne].
      * replace (Z.of_nat k + 1) with (Z.of_nat (S k)) by lia. rewrite IH by lia.
        split; [by intros ->|]. by intros [= ->].
      * rewrite nm_dead. split; [lia|]. by intros [= -> _].
    + rewrite nm_dead. apply lookup_ge_None in Hx. cbn in Hx. rewrite drop_ge by (cbn; lia). split; [lia|done].
Qed.

Lemma nm_segment s : (foldl nm_step 0 (rev s) =? nmLen) = bool_decide (s = "node_modules"%js).
Proof.
  apply Bool.eq_true_iff_eq. rewrite Z.eqb_eq, bool_decide_eq_true. unfold nmLen.
  rewrite (nm_match (rev s) 0) by lia. split.
  - intros E. rewrite <- (rev_involutive s), E. done.
  - by intros ->.
Qed.

(** The directories of [rsegs], innermost first, that are not called
    [node_modules], each with [/node_modules]; the root last. *)
Fixpoint lookup_dirs (rsegs : list jsstr) : list jsstr :=
  match rsegs with
  | [] => ["/node_modules"%js]
  | s :: up =>
      (if bool_decide (s = "node_modules"%js) then [] else [abs_path (rev rsegs) ++ "/node_modules"%js]) ++ lookup_dirs up
  end.

(** The text of a list of segments, a slash before each. *)
Definition slashed (l : list jsstr) : jsstr := mjoin ((fun s => 47 :: s) <$> l).

Lemma slashed_snoc l s : slashed (l ++ [s]) = slashed l ++ 47 :: s.
Proof. unfold slashed. rewrite fmap_app, join_app. cbn. by rewrite app_nil_r. Qed.

Lemma abs_path_slashed l : l <> [] -> abs_path l = slashed l.
Proof.
  intros Hl. unfold abs_path. induction l as [|s [|x l] IH]; [done| |]; [by unfold slashed; cbn; rewrite app_nil_r|].
  change (slashed (s :: x :: l)) with ((47 :: s) ++ slashed (x :: l)). rewrite <- IH by done. done.
Qed.

Lemma paths_loop_dirs segs : forall from post,
  from = slashed segs ++ post -> Forall (Forall (fun c => c <> 47)) segs ->
  paths_loop from (length (slashed segs)) 0 (len (slashed segs)) ++ ["/node_modules"%js] = lookup_dirs (rev segs).
Proof.
  induction segs as [|s segs IH] using rev_ind; intros from post Hf Hs; [done|].
  apply Forall_app in Hs as [Hs Hl]. rewrite Forall_singleton in Hl.
  rewrite rev_app_distr. change (rev [s] ++ rev segs) with (s :: rev segs). cbn [lookup_dirs].
  change (rev (s :: rev segs)) with (rev (rev segs) ++ [s]). rewrite rev_involutive.
  rewrite abs_path_slashed by (by destruct segs).
  assert (slashed (segs ++ [s]) = (slashed segs ++ [47]) ++ s) as Es by (rewrite slashed_snoc, <- app_assoc; done).
  rewrite Es at 1. rewrite (paths_loop_segment from _ s post) by (rewrite ?Hf, ?Es, <- ?app_assoc; done).
  rewrite length_app. cbn [length]. rewrite Nat.add_1_r. cbn [paths_loop].
  assert (charCodeAt from (Z.of_nat (length (slashed segs))) = Some 47) as ->.
  { rewrite Hf, slashed_snoc, <- app_assoc. by apply charCodeAt_app_mid. }
  cbn [code_is]. change (47 =? 47) with true. cbv iota. rewrite nm_segment.
  rewrite <- app_assoc. change (Z.of_nat (length (slashed segs))) with (len (slashed segs)).
  rewrite (IH from (47 :: s ++ post)) by (rewrite ?Hf, ?slashed_snoc, <- ?app_assoc; done).
  rewrite Hf, slice_prefix by done. by destruct (bool_decide (s = _)).
Qed.

Lemma node_module_paths c dir from :
  clean dir -> c = abs_path dir ->
  _nodeModulePaths (Ok c) from = Ok (lookup_dirs (rev (cd slash dir from))).
Proof.
  intros Hd Hc. unfold _nodeModulePaths.
  change [VString from] with (VString <$> [from]). rewrite (resolve_cd c dir [from] Hd Hc). cbn [foldl result_bind].
  pose proof (cd_clean dir from Hd) as Hclean. set (segs := cd slash dir from) in *.
  destruct segs as [|s segs]; [done|].
  assert (Forall (Forall (fun c => c <> 47)) (s :: segs)) as Hs.
  { eapply Forall_impl; [exact Hclean|]. intros x [_ Hx]. eapply Forall_impl; [exact Hx|]. by intros y Hy ->. }
  pose proof Hclean as [[[Hne _] _] _]%Forall_cons. rewrite abs_path_slashed by done.
  rewrite bool_decide_eq_false_2.
  - f_equal. apply (paths_loop_dirs (s :: segs) _ []); [by rewrite app_nil_r|done].
  - intros E. destruct s as [|c0 s]; [done|]. by injection E.
Qed.

(** ** Package names *)

Lemma span_split p s : s = (span p s).1 ++ (span p s).2 /\ Forall (fun c => p c = true) (span p s).1 /\
  match (span p s).2 with [] => True | c :: _ => p c = false end.
Proof.
  induction s as [|c s IH]; [done|]. cbn. destruct (p c) eqn:Hc; [|done].
  destruct (span p s) as [a b]. cbn in *. destruct IH as (-> & ? & ?). split_and!; [done|by constructor|done].
Qed.

Lemma span_app p a b :
  Forall (fun c => p c = true) a -> match b with [] => True | c :: _ => p c = false end -> span p (a ++ b) = (a, b).
Proof.
  intros Ha Hb. induction Ha as [|c a Hc Ha IH]; cbn.
  - destruct b as [|c b]; [done|]. cbn. by rewrite Hb.
  - by rewrite Hc, IH.
Qed.

(** The expansion of a request: nothing, or a slash and a line. *)
Definition one_line (exp : jsstr) : Prop :=
  exp = [] \/ exists rest, exp = 47 :: rest /\ Forall (fun c => line_terminator c = false) rest.

(** A name without a scope: not empty, no leading dot. *)
Definition bare_name (name : jsstr) : Prop :=
  name <> [] /\ head name <> Some 46 /\ Forall (fun c => name_char c = true) name.

Lemma match_name_iff s name exp :
  match_name s = Some (name, exp) <-> s = name ++ exp /\ bare_name name /\ one_line exp.
Proof.
  split.
  - destruct s as [|c s]; [done|]. cbn. destruct (name_char c && negb (c =? 46)) eqn:Hc; [|done].
    apply andb_true_iff in Hc as [Hc Hd]. pose proof (span_split name_char s) as (Hs & Ha & Hb).
    destruct (span name_char s) as [a b]. cbn in *. assert (bare_name (c :: a)) as Hbare.
    { split_and!; [done| |by constructor]. cbn. intros [= ->]. done. }
    destruct b as [|d b].
    + intros [= <- <-]. split_and!; [by rewrite Hs|done|by left].
    + destruct ((d =? 47) && _) eqn:Hr; [|done]. intros [= <- <-]. apply andb_true_iff in Hr as [Hd' Hr].
      apply Z.eqb_eq in Hd' as ->. split_and!; [by rewrite Hs|done|]. right. exists b. split; [done|].
      apply Forall_forall. intros x Hx. rewrite forallb_forall in Hr. apply negb_true_iff, Hr. by apply list_elem_of_In.
  - intros (-> & (Hne & Hd & Hn) & Hx). destruct name as [|c name]; [done|]. apply Forall_cons in Hn as [Hc Hn].
    cbn. rewrite Hc. replace (c =? 46) with false by (symmetry; apply Z.eqb_neq; cbn in Hd; congruence). cbn [andb negb].
    rewrite span_app; [|done|by destruct Hx as [->|(r & -> & _)]].
    destruct Hx as [->|(r & -> & Hr)]; [done|]. change (47 =? 47) with true. cbn [andb].
    replace (forallb _ r) with true; [done|]. symmetry. apply forallb_forall. intros x Hx. apply negb_true_iff.
    rewrite Forall_forall in Hr. apply Hr. by apply list_elem_of_In.
Qed.

(** A name with a scope, both not empty. *)
Definition scoped_name (name : jsstr) : Prop :=
  exists a b, name = 64 :: a ++ 47 :: b /\ a <> [] /\ Forall (fun c => name_char c = true) a /\ bare_name b.

Lemma exports_pattern_scoped name exp :
  scoped_name name -> one_line exp -> EXPORTS_PATTERN (name ++ exp) = Some (name, exp).
Proof.
  intros (a & b & -> & Hne & Ha & Hb) Hx. unfold EXPORTS_PATTERN. cbn [app]. change (64 =? 64) with true. cbv iota.
  rewrite <- app_assoc, span_app by done. destruct a as [|x a]; [done|]. cbn [app]. change (47 =? 47) with true. cbv iota.
  rewrite (proj2 (match_name_iff (b ++ exp) b exp)) by done. cbn. by rewrite <- app_assoc.
Qed.

Lemma exports_pattern_plain name exp :
  bare_name name -> head name <> Some 64 -> one_line exp -> EXPORTS_PATTERN (name ++ exp) = Some (name, exp).
Proof.
  intros Hn Hh Hx. unfold EXPORTS_PATTERN. rewrite (proj2 (match_name_iff (name ++ exp) name exp)) by done.
  destruct name as [|c name]; [by destruct Hn|]. cbn [app].
  replace (c =? 64) with false by (symmetry; apply Z.eqb_neq; cbn in Hh; congruence). done.
Qed.

Lemma exports_pattern_split r name exp : EXPORTS_PATTERN r = Some (name, exp) -> r = name ++ exp.
Proof.
  unfold EXPORTS_PATTERN. destruct r as [|c r]; [done|].
  destruct (Z.eqb_spec c 64) as [->|]; [|by intros (-> & _)%match_name_iff].
  pose proof (span_split name_char r) as (Hs & _). destruct (span name_char r) as [[|x a] [|d b]];
    try (by intros (-> & _)%match_name_iff). cbn in Hs.
  destruct (Z.eqb_spec d 47) as [->|]; [|by intros (-> & _)%match_name_iff].
  destruct (match_name b) as [[n e]|] eqn:Hn; [|by intros (-> & _)%match_name_iff].
  apply match_name_iff in Hn as (-> & _). intros [= <- <-]. rewrite Hs. cbn. by rewrite <- !app_assoc.
Qed.

Lemma name_char_codes c : name_char c = true <-> c <> 47 /\ c <> 92 /\ c <> 37.
Proof. unfold name_char. rewrite negb_true_iff, !orb_false_iff, !Z.eqb_neq. tauto. Qed.

(** Names that both loaders read the same way. *)
Definition regular_name (name : jsstr) : Prop :=
  scoped_name name \/ (bare_name name /\ head name <> Some 64).

Lemma regular_package_name name : regular_name name -> exists scoped, package_name scoped name.
Proof.
  assert (forall l, Forall (fun c => name_char c = true) l -> Forall (fun c => c <> 37 /\ c <> 92) l) as H1
    by (intros l Hl; eapply Forall_impl; [exact Hl|]; intros c Hc%name_char_codes; tauto).
  assert (forall l, Forall (fun c => name_char c = true) l -> Forall (fun c => c <> 47) l) as H2
    by (intros l Hl; eapply Forall_impl; [exact Hl|]; intros c Hc%name_char_codes; tauto).
  intros [(a & b & -> & Hne & Ha & Hb & Hd & Hn)|((Hne & Hd & Hn) & Hh)].
  - exists true. split_and!; [done| |by eauto 10].
    constructor; [done|]. apply Forall_app. split; [by apply H1|]. constructor; [done|by apply H1].
  - exists false. split_and!; [done|by apply H1|done|by apply H2].
Qed.

(** ** Files *)

Section Files.
Context (E : cenv).
Abbreviation pjE := (Esm.pj (esm E)).
Abbreviation cwdE := (Esm.cwd (esm E)).

(** [f] is the name of the file at [p]: its real path, or the absolute path when
    symbolic links are kept. *)
Definition named (isMain : bool) (p f : jsstr) : Prop :=
  if if isMain then preserveSymlinksMain E else preserveSymlinks E
  then Posix.resolve cwdE [VString p] = Ok f
  else Esm.realpathSync (esm E) p = Ok f.

(** The name of a regular file. *)
Definition regular_file (f : jsstr) : Prop :=
  exists isMain p, internalModuleStat pjE p = 0 /\ named isMain p f.

(** The caches say what the file system says. *)
Record sound_caches (s : state) : Prop := {
  sound_paths : forall k f, _pathCache s !! k = Some f -> regular_file f;
  sound_stats : forall cache f r, statCache s = Some cache -> cache !! f = Some r -> r = internalModuleStat pjE f;
}.

Definition found (o : option jsstr) : Prop := forall f, o = Some f -> regular_file f.

Lemma found_none : found None.
Proof. by intros f. Qed.
Lemma found_some f : regular_file f -> found (Some f).
Proof. by intros Hf f' [= <-]. Qed.
Lemma found_truthy o : found o -> found (truthy o).
Proof. intros Ho f Hf. apply Ho. by destruct o as [[|]|]. Qed.

Abbreviation keeps m Q := (upholds sound_caches m Q).

Lemma keeps_esm {A} (m : Esm.R A) : keeps (in_esm m) (fun _ => True).
Proof. apply upholds_within. intros w s [H1 H2]. by split. Qed.

Lemma keeps_nearest p : keeps (nearestPackage E p) (fun _ => True).
Proof.
  intros s s' r [H1 H2] H. unfold nearestPackage in H.
  destruct (getNearestParentPackageJSON _ _ _) as [c r0]. injection H as <- <-. split; [by split|done].
Qed.

Lemma keeps_stat p : keeps (stat E p) (fun r => r = internalModuleStat pjE p).
Proof.
  intros s s' r HI H. unfold stat in H. destruct (statCache s) as [cache|] eqn:Hc.
  - destruct (cache !! p) as [x|] eqn:Hx.
    + injection H as <- <-. split; [done|]. intros a [= <-]. by eapply sound_stats.
    + cbv zeta in H. injection H as <- <-. split; [|by intros a [= <-]].
      destruct (0 <=? internalModuleStat pjE p); [|done]. split; [by apply HI|].
      cbn. intros cache' f r [= <-] Hf. destruct (decide (p = f)) as [<-|Hne].
      * rewrite lookup_insert_eq in Hf. by injection Hf.
      * rewrite lookup_insert_ne in Hf by done. by eapply sound_stats.
  - injection H as <- <-. split; [done|]. by intros a [= <-].
Qed.

Lemma keeps_true {A} (r : result A) : keeps (lift r) (fun _ => True).
Proof. by apply upholds_lift. Qed.

Lemma keeps_file_name isMain p : keeps (file_name E isMain p) (named isMain p).
Proof. unfold file_name, named. destruct (if isMain then _ else _); by apply upholds_lift. Qed.

Lemma keeps_tryFile p isMain : keeps (tryFile E p isMain) found.
Proof.
  unfold tryFile. eapply upholds_bind; [apply keeps_stat|]. intros rc ->.
  destruct (internalModuleStat pjE p =? 0) eqn:H0; cbn [negb]; [|apply upholds_ret, found_none].
  eapply upholds_bind; [apply keeps_file_name|]. intros f Hf. apply upholds_ret, found_some.
  exists isMain, p. split; [by apply Z.eqb_eq|done].
Qed.

Lemma keeps_tryExtensions base exts isMain : keeps (tryExtensions E base exts isMain) found.
Proof.
  induction exts as [|ext exts IH]; cbn [tryExtensions]; [apply upholds_ret, found_none|].
  eapply upholds_bind; [apply keeps_tryFile|]. intros o Ho%found_truthy.
  destruct (truthy o) as [f|]; [apply upholds_ret; exact Ho|exact IH].
Qed.

Lemma keeps_orElse a b : keeps a found -> keeps b found -> keeps (orElse a b) found.
Proof.
  intros Ha Hb. unfold orElse. eapply upholds_bind; [exact Ha|]. intros o Ho%found_truthy.
  destruct (truthy o) as [f|]; [apply upholds_ret; exact Ho|exact Hb].
Qed.

(** A step whose answer does not matter. *)
Lemma keeps_seq {A B} (m : C A) (k : A -> C B) (Q : B -> Prop) :
  keeps m (fun _ => True) -> (forall a, keeps (k a) Q) -> keeps (bind m k) Q.
Proof. intros Hm Hk. eapply upholds_bind; [exact Hm|]. by intros a _. Qed.

Lemma keeps_readPackage p : keeps (_readPackage E p) (fun _ => True).
Proof. unfold _readPackage, path_resolve. apply keeps_seq; [apply keeps_true|]. intros. apply keeps_true. Qed.

Lemma keeps_tryPackage p exts isMain orig : keeps (tryPackage E p exts isMain orig) found.
Proof.
  unfold tryPackage, path_resolve. apply keeps_seq; [apply keeps_readPackage|]. intros c.
  destruct (truthy (p_main c)) as [pkg|]; (apply keeps_seq; [apply keeps_true|]); intros index;
    [|apply keeps_tryExtensions].
  eapply upholds_bind.
  { apply keeps_orElse; [apply keeps_tryFile|]. apply keeps_orElse; [apply keeps_tryExtensions|].
    apply keeps_seq; [apply keeps_true|]. intros. apply keeps_tryExtensions. }
  intros o Ho. destruct o as [f|]; [by apply upholds_ret|].
  apply keeps_seq; [apply keeps_true|]. intros i2. eapply upholds_bind; [apply keeps_tryExtensions|].
  intros o Ho'%found_truthy. destruct (truthy o) as [f|]; [|apply upholds_throw].
  apply keeps_seq; [apply keeps_esm|]. intros _. by apply upholds_ret.
Qed.

Lemma keeps_finalize u parent pkg : keeps (finalizeEsmResolution E u parent pkg) regular_file.
Proof.
  unfold finalizeEsmResolution. destruct (RegExp.exec _ _); [apply upholds_throw|].
  apply keeps_seq; [apply keeps_true|]. intros f. eapply upholds_bind; [apply keeps_tryFile|].
  intros o Ho%found_truthy. destruct (truthy o) as [g|]; [|apply upholds_throw]. apply upholds_ret. by apply Ho.
Qed.

Lemma keeps_not_found {A} err (m : C A) Q : keeps m Q -> keeps (not_found_as err m) Q.
Proof.
  intros Hm. unfold not_found_as. eapply upholds_attempt; [exact Hm|].
  intros [a|e] Ha; [apply upholds_ret; by apply Ha|apply upholds_throw].
Qed.

Lemma keeps_answer (m : C jsstr) : keeps m regular_file -> keeps (bind m (fun f => ret (Some f))) found.
Proof. intros Hm. eapply upholds_bind; [exact Hm|]. intros f Hf. by apply upholds_ret, found_some. Qed.

Lemma keeps_trySelf parentPath request conditions : keeps (trySelf E parentPath request conditions) found.
Proof.
  unfold trySelf. destruct (truthy parentPath) as [pp|]; [|apply upholds_ret, found_none].
  apply keeps_seq; [apply keeps_nearest|]. intros [pkg|]; [|apply upholds_ret, found_none].
  apply keeps_seq; [apply keeps_true|]. intros [exp|]; [|apply upholds_ret, found_none].
  destruct (p_name pkg) as [name|]; [|apply upholds_ret, found_none]. cbv zeta.
  destruct (if bool_decide (request = name) then _ else _) as [x|]; [|apply upholds_ret, found_none].
  apply keeps_answer, keeps_not_found. repeat (apply keeps_seq; [apply keeps_true|]; intros ?).
  apply keeps_seq; [apply keeps_esm|]. intros u. apply keeps_finalize.
Qed.

Lemma keeps_resolveExports nm request conditions : keeps (resolveExports E nm request conditions) found.
Proof.
  unfold resolveExports. destruct (EXPORTS_PATTERN request) as [[name x]|]; [|apply upholds_ret, found_none].
  apply keeps_seq; [apply keeps_true|]. intros pkgPath. apply keeps_seq; [apply keeps_readPackage|]. intros pkg.
  apply keeps_seq; [destruct (p_exists pkg); [apply keeps_true|by apply upholds_ret]|]. intros exp.
  destruct (if present exp then exp else None) as [e|]; [|apply upholds_ret, found_none].
  apply keeps_answer, keeps_not_found. apply keeps_seq; [apply keeps_true|]. intros u.
  apply keeps_seq; [apply keeps_esm|]. intros v. apply keeps_finalize.
Qed.

Lemma keeps_tryImports request parent conditions : keeps (tryImports E request parent conditions) found.
Proof.
  unfold tryImports. destruct parent as [p|]; [|apply upholds_ret, found_none].
  destruct (_ && _); [|apply upholds_ret, found_none].
  apply keeps_seq.
  { destruct (filename p); [by apply upholds_ret|]. apply keeps_seq; [apply keeps_true|]. intros. by apply upholds_ret. }
  intros pp. apply keeps_seq; [apply keeps_nearest|]. intros [pkg|]; [|apply upholds_ret, found_none].
  apply keeps_seq; [apply keeps_true|]. intros imp. destruct (present imp); [|apply upholds_ret, found_none].
  apply keeps_answer, keeps_not_found. apply keeps_seq; [apply keeps_true|]. intros u.
  apply keeps_seq; [apply keeps_esm|]. intros v. apply keeps_finalize.
Qed.

Lemma keeps_find_in request cur isMain inside absolute conditions :
  keeps (find_in E request cur isMain inside absolute conditions) (fun o => found (fst <$> o)).
Proof.
  assert (forall f (b : bool), regular_file f -> found (fst <$> Some (f, b))) as Hsome by (intros; by apply found_some).
  unfold find_in, path_resolve. apply keeps_seq.
  { destruct (_ && _); [|by apply upholds_ret]. eapply upholds_bind; [apply keeps_stat|]. intros. by apply upholds_ret. }
  intros [|]; [apply upholds_ret, found_none|].
  eapply upholds_bind; [destruct (negb absolute); [apply keeps_resolveExports|apply upholds_ret, found_none]|].
  intros o Ho%found_truthy. destruct (truthy o) as [f|]; [apply upholds_ret; by apply Hsome, Ho|].
  apply keeps_seq; [apply keeps_true|]. intros base. eapply upholds_bind; [apply keeps_stat|]. intros rc Hrc.
  eapply upholds_bind.
  { destruct (negb (trailingSlash request)); [|apply upholds_ret, found_none].
    apply keeps_orElse; [|apply keeps_tryExtensions]. destruct (rc =? 0) eqn:H0; [|apply upholds_ret, found_none].
    apply keeps_answer. eapply upholds_weaken; [apply keeps_file_name|]. intros f Hf. exists isMain, base.
    split; [|done]. apply Z.eqb_eq in H0. by rewrite <- Hrc. }
  intros o1 Ho1%found_truthy. eapply upholds_bind.
  { destruct (truthy o1) as [f|]; [by apply upholds_ret|].
    destruct (rc =? 1); [apply keeps_tryPackage|apply upholds_ret, found_none]. }
  intros o2 Ho2%found_truthy. apply upholds_ret. destruct (truthy o2) as [f|]; [|apply found_none].
  by apply Hsome, Ho2.
Qed.

Lemma keeps_cached key f : regular_file f -> keeps (modify (fun s => set_pathCache (<[key := f]> (_pathCache s)) s)) (fun _ => True).
Proof.
  intros Hf. apply upholds_modify. intros s [H1 H2]. split; [|done]. cbn. intros k g Hg.
  destruct (decide (key = k)) as [<-|Hne].
  - rewrite lookup_insert_eq in Hg. by injection Hg as <-.
  - rewrite lookup_insert_ne in Hg by done. by eapply H1.
Qed.

Lemma keeps_find_loop request key paths isMain inside absolute conditions :
  keeps (find_loop E request key paths isMain inside absolute conditions) found.
Proof.
  induction paths as [|p paths IH]; cbn [find_loop]; [apply upholds_ret, found_none|].
  eapply upholds_bind; [apply keeps_find_in|]. intros [[f [|]]|] Ho; cbn in Ho.
  - apply keeps_seq; [apply keeps_cached; by apply Ho|]. intros _. by apply upholds_ret.
  - by apply upholds_ret.
  - exact IH.
Qed.

Lemma keeps_findPath request paths isMain conditions : keeps (_findPath E request paths isMain conditions) found.
Proof.
  unfold _findPath. apply keeps_seq; [apply keeps_true|]. intros absolute.
  destruct (if absolute : bool then _ else _) as [|p l]; [apply upholds_ret, found_none|]. cbv zeta.
  eapply upholds_bind.
  { apply (upholds_gets _ _ found). intros s HI. apply found_truthy. intros f Hf. by eapply sound_paths. }
  intros o Ho. destruct o as [f|]; [by apply upholds_ret|].
  apply keeps_seq.
  { unfold insidePath. destruct (isRelative request); [|by apply upholds_ret].
    apply keeps_seq; [apply keeps_true|]. intros. by apply upholds_ret. }
  intros inside. apply keeps_find_loop.
Qed.

Lemma keeps_collect request l : forall acc, keeps (collect_paths E request l acc) (fun _ => True).
Proof.
  induction l as [|p l IH]; intros acc; cbn [collect_paths]; [by apply upholds_ret|].
  apply keeps_seq; [apply keeps_true|]. intros own. apply keeps_seq; [apply keeps_true|].
  intros [found|]; [apply IH|apply upholds_throw].
Qed.

Lemma keeps_lookup request parent options : keeps (lookup_paths E request parent options) (fun _ => True).
Proof.
  unfold lookup_paths. destruct options as [[|l|]|]; [apply keeps_true| |apply upholds_throw|apply keeps_true].
  destruct (isRelative request); [by apply upholds_ret|].
  apply keeps_seq; [apply keeps_collect|]. intros. by apply upholds_ret.
Qed.

Lemma keeps_resolveFilename request parent isMain options conditions :
  keeps (_resolveFilename E request parent isMain options conditions)
    (fun f => (normalizeRequirableId request <> None /\ f = request) \/ regular_file f).
Proof.
  unfold _resolveFilename. destruct (bool_decide _) eqn:Hb; [apply upholds_ret; left; by bool_hyps|].
  apply keeps_seq; [apply keeps_lookup|]. intros paths.
  eapply upholds_bind; [apply keeps_tryImports|]. intros [f|] Ho; [apply upholds_ret; right; by apply Ho|].
  eapply upholds_bind; [apply keeps_trySelf|]. intros o Hs%found_truthy. destruct (truthy o) as [f|].
  - destruct paths as [paths|]; [|apply upholds_throw].
    apply keeps_seq; [apply keeps_cached; by apply Hs|]. intros _. apply upholds_ret. right. by apply Hs.
  - eapply upholds_bind; [apply keeps_findPath|]. intros o2 Hf%found_truthy.
    destruct (truthy o2) as [f|]; [|apply upholds_throw]. apply upholds_ret. right. by apply Hf.
Qed.
End Files.
