(* ===== verification/CjsFind.v ===== *)
(** * CommonJS resolution: files and directories

    [_findPath] for a path, relative or absolute, is the documented search: the
    file, the file with each extension, then the main entry of the package in
    the directory and its index files. *)

From Stdlib Require Import QArith.
From S2P Require Import Prelude Effects JsString Realm Url RegExp PackageJson PathPosix EsmResolve CjsResolve.
From S2P Require Import Path PathSpec UrlFacts EsmFacts PackageJsonFacts PathPosixFacts CjsFacts.
Import PackageJson Cjs.
#[local] Open Scope Z_scope.

(** The request names a directory: it ends in a slash, or its last segment is
    one or two dots. *)
Definition names_directory (request : jsstr) : Prop :=
  (exists p, request = p ++ "/"%js) \/
  exists p t, request = p ++ t /\ (p = [] \/ exists p', p = p' ++ "/"%js) /\ (t = "."%js \/ t = ".."%js).

Lemma charCodeAt_rev l k : charCodeAt (rev l) (len (rev l) - 1 - Z.of_nat k) = l !! k.
Proof.
  revert k. induction l as [|a l IH]; intros k; cbn [rev].
  - apply charCodeAt_neg. rewrite len_nil. lia.
  - rewrite len_app, len_cons, len_nil. destruct k as [|k].
    + cbn. apply charCodeAt_app_mid. lia.
    + pose proof (len_nonneg (rev l)). rewrite charCodeAt_app_l by lia. cbn. rewrite <- IH. f_equal. lia.
Qed.

Lemma trailingSlash_rev l :
  trailingSlash (rev l) =
  match l with
  | [] => false
  | a :: l =>
      (a =? 47) || ((a =? 46) &&
        match l with
        | [] => true
        | b :: l => (b =? 47) || ((b =? 46) && match l with [] => true | c :: _ => c =? 47 end)
        end)
  end.
Proof.
  pose proof (fun k => charCodeAt_rev l k) as Hc. unfold trailingSlash. cbv zeta.
  pose proof (Hc 0%nat) as H0. pose proof (Hc 1%nat) as H1. pose proof (Hc 2%nat) as H2.
  replace (len (rev l) - 1 - Z.of_nat 0) with (len (rev l) - 1) in H0 by lia.
  replace (len (rev l) - 1 - Z.of_nat 1) with (len (rev l) - 2) in H1 by lia.
  replace (len (rev l) - 1 - Z.of_nat 2) with (len (rev l) - 3) in H2 by lia.
  rewrite H0, H1, H2. replace (len (rev l)) with (len l) by (unfold len; by rewrite length_rev).
  destruct l as [|a [|b [|c l]]]; cbn [lookup list_lookup code_is]; [done| | |];
    rewrite ?len_cons, ?len_nil; pose proof (len_nonneg (@nil Z));
    try (pose proof (len_nonneg l); replace (len l + 1 + 1 + 1 =? 1) with false by (symmetry; apply Z.eqb_neq; lia);
         replace (len l + 1 + 1 + 1 =? 2) with false by (symmetry; apply Z.eqb_neq; lia);
         replace (0 <? len l + 1 + 1 + 1) with true by (symmetry; apply Z.ltb_lt; lia));
    cbn; rewrite ?orb_false_r, ?andb_true_r; try done; by destruct (a =? 47), (a =? 46), (b =? 47), (b =? 46).
Qed.

Lemma trailingSlash_iff request : trailingSlash request = true <-> names_directory request.
Proof.
  rewrite <- (rev_involutive request). generalize (rev request) as l. clear request. intros l.
  rewrite trailingSlash_rev. unfold names_directory. split.
  - destruct l as [|a l]; [done|]. intros [->%Z.eqb_eq|[->%Z.eqb_eq H]%andb_true_iff]%orb_true_iff; [by left; eexists|].
    right. destruct l as [|b l]; [exists [], "."%js; auto|].
    apply orb_true_iff in H as [->%Z.eqb_eq|[->%Z.eqb_eq H]%andb_true_iff].
    + exists (rev (47 :: l)), "."%js. split_and!; [done|right; by eexists|by left].
    + exists (rev l), ".."%js. split_and!; [cbn; by rewrite <- app_assoc| |by right].
      destruct l as [|c l]; [by left|]. apply Z.eqb_eq in H as ->. right. by exists (rev l).
  - intros [(p & E)|(p & t & E & Hp & Ht)].
    + apply (f_equal (@rev Z)) in E. rewrite rev_involutive, rev_app_distr in E. by rewrite E.
    + apply (f_equal (@rev Z)) in E. rewrite rev_involutive, rev_app_distr in E.
      assert (rev p = [] \/ exists q, rev p = 47 :: q) as Hq.
      { destruct Hp as [->|(p' & ->)]; [by left|]. right. rewrite rev_app_distr. by eexists. }
      destruct Ht as [->| ->]; destruct Hq as [Hq|(q & Hq)]; rewrite Hq in E; subst l; done.
Qed.

Section Find.
Context (E : cenv) (dir : list jsstr).
Abbreviation pjE := (Esm.pj (esm E)).

(** The absolute path of [path.resolve]. *)
Definition absolute_of (l : list jsstr) : jsstr := abs_path (foldl (cd slash) dir l).

Definition is_file (p : jsstr) : bool := internalModuleStat pjE p =? 0.
Definition first_file (l : list jsstr) : option jsstr := List.find is_file l.

Definition with_exts (p : jsstr) : list jsstr := (fun ext => p ++ ext) <$> extensions E.
Definition index_files (p : jsstr) : list jsstr := with_exts (absolute_of [p; "index"%js]).

(** The candidates of a directory: its main entry as a file or a directory, if
    its package.json has one, and its own index files. *)
Definition directory_files (base : jsstr) (main : option jsstr) : list jsstr :=
  match truthy main with
  | None => index_files base
  | Some m => let f := absolute_of [base; m] in (f :: with_exts f) ++ index_files f ++ index_files base
  end.

(** The candidates of a request, in order. *)
Definition candidates (request base : jsstr) (main : option jsstr) : list jsstr :=
  (if trailingSlash request then [] else base :: with_exts base) ++
  (if internalModuleStat pjE base =? 1 then directory_files base main else []).

Lemma first_app a b : first_file (a ++ b) = match first_file a with Some p => Some p | None => first_file b end.
Proof. unfold first_file. induction a as [|x a IH]; cbn; [done|]. by destruct (is_file x). Qed.

Context (Hdir : clean dir) (Hcwd : Esm.cwd (esm E) = Ok (abs_path dir)).
(** The name of a file: what [realpath] answers, not empty. *)
Context (name_of : bool -> jsstr -> jsstr).
Context (Hname : forall isMain p, is_file p = true -> named E isMain p (name_of isMain p) /\ name_of isMain p <> []).

(** The stat cache is right, and [key] is not in the path cache. *)
Definition fresh (key : jsstr) (s : state) : Prop :=
  (forall cache f r, statCache s = Some cache -> cache !! f = Some r -> r = internalModuleStat pjE f) /\
  _pathCache s !! key = None.

Abbreviation answers key m r := (gives (fresh key) m r (fresh key)).

Lemma answers_stat key p : answers key (stat E p) (Ok (internalModuleStat pjE p)).
Proof.
  intros s [Hs Hp]. unfold stat. destruct (statCache s) as [cache|] eqn:Hc.
  - destruct (cache !! p) as [x|] eqn:Hx.
    + exists s. rewrite (Hs _ _ _ eq_refl Hx). split; [done|]. split; [|done]. by rewrite Hc.
    + cbv zeta. destruct (0 <=? internalModuleStat pjE p); eexists; (split; [done|]); [|split; [by rewrite Hc|done]].
      split; [|done]. cbn. intros cache' f r [= <-] Hf. destruct (decide (p = f)) as [<-|Hne].
      * rewrite lookup_insert_eq in Hf. by injection Hf.
      * rewrite lookup_insert_ne in Hf by done. by eapply Hs.
  - exists s. split; [done|]. split; [by rewrite Hc|done].
Qed.

Lemma answers_resolve key l : answers key (path_resolve E l) (Ok (absolute_of l)).
Proof. unfold path_resolve, absolute_of. rewrite Hcwd, (resolve_cd _ dir l Hdir eq_refl). apply gives_lift. Qed.

Lemma answers_file_name key isMain p :
  is_file p = true -> answers key (file_name E isMain p) (Ok (name_of isMain p)).
Proof.
  intros Hp. destruct (Hname isMain p Hp) as [Hn _]. unfold file_name, named, path_resolve in *.
  destruct (if isMain then _ else _); cbn [fmap list_fmap] in *; rewrite Hn; apply gives_lift.
Qed.

(** The first file of a list, by its name. *)
Definition first_name (isMain : bool) (l : list jsstr) : option jsstr := name_of isMain <$> first_file l.

Lemma first_truthy isMain l : truthy (first_name isMain l) = first_name isMain l.
Proof.
  unfold first_name, first_file. destruct (List.find is_file l) as [p|] eqn:Hp; [|done]. cbn.
  apply List.find_some in Hp as [_ Hp]. destruct (Hname isMain p Hp) as [_ Hne]. by destruct (name_of isMain p).
Qed.

Lemma first_name_app isMain a b :
  first_name isMain (a ++ b) = match first_name isMain a with Some f => Some f | None => first_name isMain b end.
Proof. unfold first_name. rewrite first_app. by destruct (first_file a). Qed.

Lemma answers_tryFile key isMain p : answers key (tryFile E p isMain) (Ok (first_name isMain [p])).
Proof.
  unfold tryFile, first_name, first_file. cbn. eapply gives_bind; [apply answers_stat|].
  change (internalModuleStat pjE p =? 0) with (is_file p). destruct (is_file p) eqn:Hp; cbn [negb]; [|apply gives_ret].
  eapply gives_bind; [by apply answers_file_name|apply gives_ret].
Qed.

Lemma answers_orElse key isMain a b m n :
  answers key m (Ok (first_name isMain a)) -> answers key n (Ok (first_name isMain b)) ->
  answers key (orElse m n) (Ok (first_name isMain (a ++ b))).
Proof.
  intros Hm Hn. unfold orElse. eapply gives_bind; [exact Hm|]. rewrite first_truthy, first_name_app.
  destruct (first_name isMain a); [apply gives_ret|exact Hn].
Qed.

Lemma answers_tryExtensions key isMain base exts :
  answers key (tryExtensions E base exts isMain) (Ok (first_name isMain ((fun ext => base ++ ext) <$> exts))).
Proof.
  induction exts as [|ext exts IH]; [apply gives_ret|]. rewrite fmap_cons.
  apply (answers_orElse key isMain [base ++ ext] _ (tryFile E (base ++ ext) isMain)); [apply answers_tryFile|exact IH].
Qed.

Lemma answers_readPackage key base c :
  readPackageJSON pjE (absolute_of [base; "package.json"%js]) = Ok c ->
  answers key (_readPackage E base) (Ok (deserializePackageJSON (absolute_of [base; "package.json"%js]) c)).
Proof.
  intros Hr. unfold _readPackage. eapply gives_bind; [apply answers_resolve|].
  unfold read. rewrite Hr. apply gives_lift.
Qed.

Lemma answers_warning key code args : answers key (in_esm (Esm.emitWarning code args)) (Ok tt).
Proof. intros s HI. eexists. split; [done|]. exact HI. Qed.

(** The end of a search in a directory: an error when the main entry is missing
    and there is no index file. *)
Definition directory_result (isMain : bool) (base : jsstr) (c : config) (orig : jsstr) : result (option jsstr) :=
  match first_name isMain (directory_files base (p_main c)), truthy (p_main c) with
  | None, Some m => Throw (MODULE_NOT_FOUND [absolute_of [base; m]; pjsonPath c; orig])
  | r, _ => Ok r
  end.

Lemma answers_index key isMain base :
  answers key (bind (path_resolve E [base; "index"%js]) (fun i => tryExtensions E i (extensions E) isMain))
    (Ok (first_name isMain (index_files base))).
Proof. eapply gives_bind; [apply answers_resolve|]. apply answers_tryExtensions. Qed.

Lemma answers_tryPackage key isMain base orig c :
  readPackageJSON pjE (absolute_of [base; "package.json"%js]) = Ok c ->
  answers key (tryPackage E base (extensions E) isMain orig)
    (directory_result isMain base (deserializePackageJSON (absolute_of [base; "package.json"%js]) c) orig).
Proof.
  intros Hr. set (cfg := deserializePackageJSON _ c).
  unfold tryPackage. eapply gives_bind; [by apply answers_readPackage|]. fold cfg.
  unfold directory_result, directory_files. destruct (truthy (p_main cfg)) as [m|].
  2:{ destruct (first_name isMain (index_files base)) eqn:Hf; rewrite <- Hf; apply answers_index. }
  eapply gives_bind; [apply answers_resolve|]. set (f := absolute_of [base; m]). cbv zeta.
  eapply gives_bind.
  { apply (answers_orElse key isMain [f]); [apply answers_tryFile|].
    apply answers_orElse; [apply answers_tryExtensions|]. apply answers_index. }
  change ((fun ext => f ++ ext) <$> extensions E) with (with_exts f).
  replace ((f :: with_exts f) ++ index_files f ++ index_files base)
    with (([f] ++ with_exts f ++ index_files f) ++ index_files base) by (cbn; by rewrite <- app_assoc).
  rewrite (first_name_app isMain (_ ++ _ ++ _)).
  destruct (first_name isMain ([f] ++ with_exts f ++ index_files f)) as [g|]; [apply gives_ret|].
  eapply gives_bind; [apply answers_resolve|]. eapply gives_bind; [apply answers_tryExtensions|].
  change (first_name isMain ((fun ext => _ ++ ext) <$> extensions E)) with (first_name isMain (index_files base)).
  rewrite first_truthy. destruct (first_name isMain (index_files base)); [|apply gives_throw].
  eapply gives_bind; [apply answers_warning|apply gives_ret].
Qed.

(** ** A request *)

(** What the search answers: the first candidate that is a file. *)
Definition search_result (isMain : bool) (request base : jsstr) (c : config) : result (option jsstr) :=
  match first_name isMain (candidates request base (p_main c)) with
  | Some f => Ok (Some f)
  | None => if internalModuleStat pjE base =? 1 then directory_result isMain base c request else Ok None
  end.

Definition package_of (base : jsstr) (c : option contents) : config :=
  deserializePackageJSON (absolute_of [base; "package.json"%js]) c.

Lemma answers_find_in key request cur isMain inside absolute conditions c :
  cur = [] \/ internalModuleStat pjE cur = 1 ->
  absolute = true \/ EXPORTS_PATTERN request = None ->
  let base := absolute_of [cur; request] in
  readPackageJSON pjE (absolute_of [base; "package.json"%js]) = Ok c ->
  answers key (find_in E request cur isMain inside absolute conditions)
    (match search_result isMain request base (package_of base c) with
     | Ok o => Ok ((fun f => (f, true)) <$> o)
     | Throw e => Throw e
     end).
Proof.
  intros Hcur Habs base Hr. unfold find_in. eapply (gives_bind _ (fresh key) _ _ _ false).
  { destruct (inside && negb (len cur =? 0)) eqn:Hi; [|apply gives_ret].
    apply andb_true_iff in Hi as [_ Hi]. destruct Hcur as [->|Hcur]; [done|].
    eapply gives_bind; [apply answers_stat|]. rewrite Hcur. apply gives_ret. }
  cbv iota. eapply (gives_bind _ (fresh key) _ _ _ None).
  { destruct absolute; [apply gives_ret|]. destruct Habs as [?|Hx]; [done|]. cbn [negb]. unfold resolveExports.
    rewrite Hx. apply gives_ret. }
  cbn [truthy]. eapply gives_bind; [apply answers_resolve|]. fold base. clearbody base.
  eapply gives_bind; [apply answers_stat|].
  eapply (gives_bind _ (fresh key) _ _ _ (first_name isMain (if trailingSlash request then [] else base :: with_exts base))).
  { destruct (trailingSlash request); cbn [negb]; [apply gives_ret|].
    apply (answers_orElse key isMain [base]); [|apply answers_tryExtensions]. unfold first_name, first_file. cbn.
    change (internalModuleStat pjE base =? 0) with (is_file base). destruct (is_file base) eqn:Hf; [|apply gives_ret].
    eapply gives_bind; [by apply answers_file_name|apply gives_ret]. }
  rewrite first_truthy. unfold search_result, candidates. rewrite first_name_app.
  destruct (first_name isMain (if trailingSlash request then [] else base :: with_exts base)) as [f|] eqn:Hf.
  { eapply gives_bind; [apply gives_ret|]. rewrite <- Hf, first_truthy, Hf. apply gives_ret. }
  destruct (internalModuleStat pjE base =? 1).
  - pose proof (answers_tryPackage key isMain base request c Hr) as Ht. fold (package_of base c) in Ht.
    set (cfg := package_of base c) in *. unfold directory_result in *.
    destruct (first_name isMain (directory_files base (p_main cfg))) as [g|] eqn:Hg.
    + eapply gives_bind; [exact Ht|]. rewrite <- Hg, first_truthy, Hg. apply gives_ret.
    + destruct (truthy (p_main cfg)).
      * intros s Hs. destruct (Ht s Hs) as (s' & Es & Hs'). exists s'. split; [|done]. unfold bind. by rewrite Es.
      * eapply gives_bind; [exact Ht|]. apply gives_ret.
  - eapply gives_bind; [apply gives_ret|]. apply gives_ret.
Qed.

(** A request that is a path: where it is looked for. *)
Inductive path_request (request : jsstr) (paths : option (list jsstr)) : jsstr -> Prop :=
  | absolute_request : head request = Some 47 -> path_request request paths []
  | relative_request d :
      isRelative request = true -> paths = Some [d] -> internalModuleStat pjE d = 1 ->
      path_request request paths d.

Lemma relative_dot request : isRelative request = true -> head request = Some 46.
Proof.
  unfold isRelative. rewrite charCodeAt_0. destruct (head request) as [c|]; [|done]. cbn.
  destruct (Z.eqb_spec c 46) as [->|]; done.
Qed.

Lemma path_request_no_exports request : isRelative request = true -> EXPORTS_PATTERN request = None.
Proof. intros H%relative_dot. destruct request as [|c request]; [done|]. injection H as ->. done. Qed.

Lemma is_absolute request : Posix.isAbsolute (VString request) = Ok (bool_decide (head request = Some 47)).
Proof.
  unfold Posix.isAbsolute. cbn. destruct request as [|c request]; [done|]. cbn.
  rewrite len_cons. pose proof (len_nonneg request). destruct (Z.ltb_spec 0 (len request + 1)); [|lia]. cbn.
  f_equal. apply Bool.eq_true_iff_eq. rewrite bool_decide_eq_true. unfold CHAR_FORWARD_SLASH.
  split; [intros ->%Z.eqb_eq; done|intros [= ->]; done].
Qed.

Lemma find_path_answer request paths cur isMain conditions c s :
  path_request request paths cur ->
  fresh (cacheKey request [cur]) s ->
  let base := absolute_of [cur; request] in
  readPackageJSON pjE (absolute_of [base; "package.json"%js]) = Ok c ->
  exists s',
    _findPath E request paths isMain conditions s =
      Some (s', search_result isMain request base (package_of base c)) /\
    match search_result isMain request base (package_of base c) with
    | Ok (Some f) => _pathCache s' !! cacheKey request [cur] = Some f
    | _ => fresh (cacheKey request [cur]) s'
    end.
Proof.
  intros Hreq Hs base Hr. set (key := cacheKey request [cur]) in *.
  assert (exists absolute, Posix.isAbsolute (VString request) = Ok absolute /\
    (if absolute : bool then [[]] else default [] paths) = [cur] /\ (cur = [] \/ internalModuleStat pjE cur = 1) /\
    (absolute = true \/ EXPORTS_PATTERN request = None)) as (absolute & Ha & Hp & Hcur & Hx).
  { rewrite is_absolute. destruct Hreq as [Hh|d Hrel -> Hd].
    - exists true. rewrite bool_decide_eq_true_2 by done. auto.
    - exists false. rewrite bool_decide_eq_false_2 by (apply relative_dot in Hrel; congruence).
      split_and!; [done..|by right|right; by apply path_request_no_exports]. }
  unfold _findPath. rewrite Ha. unfold bind at 1, lift. rewrite Hp. cbv zeta. fold key.
  unfold bind at 1, gets. rewrite (proj2 Hs). cbn [truthy].
  assert (exists inside, gives (fresh key) (insidePath request) (Ok inside) (fresh key)) as (inside & Hi).
  { unfold insidePath. destruct (isRelative request); [|exists true; apply gives_ret].
    destruct (normalize_idempotent_and_sound request []) as (r & Hn & _). rewrite Hn.
    exists (negb (startsWith r "..")). eapply gives_bind; [apply gives_lift|apply gives_ret]. }
  destruct (Hi s Hs) as (s1 & E1 & H1). unfold bind at 1. rewrite E1. cbn [find_loop].
  destruct (answers_find_in key request cur isMain inside absolute conditions c Hcur Hx Hr s1 H1) as (s2 & E2 & H2).
  fold base in E2. unfold bind at 1. rewrite E2.
  destruct (search_result isMain request base (package_of base c)) as [[f|]|e]; cbn.
  - eexists. split; [done|]. cbn. apply lookup_insert_eq.
  - eexists. done.
  - eexists. done.
Qed.
End Find.
