(* ===== verification/CjsClaims.v ===== *)
(** * CommonJS resolution: the theorems *)

From Stdlib Require Import QArith.
From S2P Require Import Prelude Effects JsString Realm Url RegExp PackageJson PathPosix EsmResolve CjsResolve.
From S2P Require Import Path PathSpec UrlFacts EsmFacts PackageJsonFacts PathPosixFacts CjsFacts CjsFind.
Import PackageJson Cjs.
#[local] Open Scope Z_scope.

(** ** Where to look *)

(** C19. [Module._nodeModulePaths(from)] lists, for the directory [from] names and
    then for each one above it up to the root, the [node_modules] directory in
    it, leaving out directories that are called [node_modules] themselves: the
    loop over the characters, which matches the name backwards, computes the
    list over the segments of the path. *)
Theorem cjs_node_module_paths c dir from :
  clean dir -> c = abs_path dir ->
  _nodeModulePaths (Ok c) from = Ok (lookup_dirs (rev (cd slash dir from))).
Proof. apply node_module_paths. Qed.

Lemma cjs_node_module_paths_witness :
  clean ["w"%js] /\
  _nodeModulePaths (Ok "/w"%js) "a/node_modules/xnode_modules" =
    Ok ["/w/a/node_modules/xnode_modules/node_modules"; "/w/a/node_modules"; "/w/node_modules"; "/node_modules"]%js.
Proof.
  assert (clean ["w"%js]) as Hc by (by repeat constructor). split; [exact Hc|].
  rewrite (cjs_node_module_paths "/w" ["w"%js] "a/node_modules/xnode_modules" Hc eq_refl). vm_compute. reflexivity.
Defined.

(** The two loaders agree on package names: for a name that is not empty,
    does not start with a dot and, with a scope, has neither part empty, and an
    expansion on one line, the pattern that [require] matches a request against
    yields them exactly when [parsePackageName] does. *)
Theorem cjs_esm_names_agree E base request name expansion :
  regular_name name -> one_line expansion ->
  EXPORTS_PATTERN request = Some (name, expansion) <->
  exists scoped, parsePackageName E request base = Ok (name, "."%js ++ expansion, scoped).
Proof.
  intros Hn Hx. split.
  - intros ->%exports_pattern_split. destruct (regular_package_name name Hn) as (scoped & Hp). exists scoped.
    apply parse_iff. exists expansion. split_and!; [done..| |done].
    destruct Hx as [->|(r & -> & _)]; [by left|by right].
  - intros (scoped & (t & -> & [= ->] & _)%parse_iff).
    destruct Hn as [Hn|[Hn Hh]]; [by apply exports_pattern_scoped|by apply exports_pattern_plain].
Qed.

Lemma cjs_esm_names_agree_witness :
  regular_name "@s/p"%js /\ one_line "/a.js"%js /\
  exists scoped, parsePackageName Sample.env "@s/p/a.js" BNull = Ok ("@s/p"%js, "./a.js"%js, scoped).
Proof.
  assert (regular_name "@s/p"%js) as Hn.
  { left. exists "s"%js, "p"%js. split_and!; [done..|by repeat constructor|].
    split_and!; [done|done|by repeat constructor]. }
  assert (one_line "/a.js"%js) as Hx by (right; exists "a.js"%js; split; [done|by repeat constructor]).
  split_and!; [exact Hn|exact Hx|].
  apply (cjs_esm_names_agree Sample.env BNull "@s/p/a.js" "@s/p" "/a.js" Hn Hx). vm_compute. reflexivity.
Defined.

(** A scope without a name is a package for [require] only. *)
Lemma cjs_scope_alone :
  EXPORTS_PATTERN "@scope"%js = Some ("@scope"%js, []) /\
  exists e, parsePackageName Sample.env "@scope"%js (BString "file:///a.js"%js) = Throw e.
Proof. split; [done|]. vm_compute. by eexists. Qed.

(** ** Files *)

(** C17. Resolution answers files: with caches that say what the file system says,
    [Module._resolveFilename] answers a builtin module under the name it was
    asked for, or the name of a regular file (its real path, or its absolute path
    when symbolic links are kept), and leaves caches that say what the file
    system says, also when it throws. *)
Theorem cjs_resolves_to_files E request parent isMain options conditions s s' r :
  sound_caches E s ->
  _resolveFilename E request parent isMain options conditions s = Some (s', r) ->
  sound_caches E s' /\
  forall f, r = Ok f -> (normalizeRequirableId request <> None /\ f = request) \/ regular_file E f.
Proof. apply keeps_resolveFilename. Qed.

(** C18. The search for a path, relative to a directory that exists or absolute,
    is the documented one.  The candidates are, in order: the file itself and
    with each extension, unless the request ends in a slash or in [.] or [..];
    and, when it is a directory, the main entry of its package.json (as a file,
    with each extension, and as a directory with index files) and its index
    files.  [_findPath] answers the name of the first candidate that is a file
    and remembers it; when there is none it answers [false], or throws if the
    package.json has a main entry.  The request is one that no cache answers,
    the package.json of the directory can be read or is missing, and the real
    path of every file can be found. *)
Theorem cjs_path_search E dir name_of request paths cur isMain conditions c s :
  clean dir -> Esm.cwd (esm E) = Ok (abs_path dir) ->
  (forall isMain p, is_file E p = true -> named E isMain p (name_of isMain p) /\ name_of isMain p <> []) ->
  path_request E request paths cur ->
  fresh E (cacheKey request [cur]) s ->
  let base := absolute_of dir [cur; request] in
  readPackageJSON (Esm.pj (esm E)) (absolute_of dir [base; "package.json"%js]) = Ok c ->
  (trailingSlash request = true <-> names_directory request) /\
  exists s',
    _findPath E request paths isMain conditions s =
      Some (s', search_result E dir name_of isMain request base (package_of dir base c)) /\
    match search_result E dir name_of isMain request base (package_of dir base c) with
    | Ok (Some f) => _pathCache s' !! cacheKey request [cur] = Some f
    | _ => fresh E (cacheKey request [cur]) s'
    end.
Proof. intros. split; [apply trailingSlash_iff|]. by eapply find_path_answer. Qed.

(** ** An example *)

(** A package with exports, a directory with a main entry, and a module that
    lies directly in [node_modules]. *)
Definition sample_files : list jsstr :=
  ["/a/package.json"; "/a/index.js"; "/a/lib/c/package.json"; "/a/lib/c/main.js"; "/a/node_modules/x.js";
   "/a/node_modules/pkg/index.js"]%js.
Definition sample_packages : list (jsstr * contents) :=
  [("/a/package.json"%js,
    Contents (Some "pkg"%js) None None None (Some "./index.js"%js) (Some "/a/package.json"%js));
   ("/a/lib/c/package.json"%js, Contents None (Some "main"%js) None None None None)].
Definition sample_cenv : cenv :=
  CEnv (Esm.REnv (Sample.env_of sample_files sample_packages (fun _ => Ok JNull)) (fun _ => None)
          (fun _ _ _ => Ok 7) (fun p => Ok p) (fun _ => None) false (Ok "/"%js) 10)
    false false [".js"; ".json"; ".node"]%js [].
Definition empty_state : state := State (Esm.State [] []) ∅ ∅ None.
Definition sample_module (file : jsstr) : parent_t :=
  Parent file (Some file) (Some ["/a/node_modules"; "/node_modules"]%js) [file].

Definition resolve_from (file request : jsstr) : C jsstr :=
  _resolveFilename sample_cenv request (Some (sample_module file)) false None (fun _ => false).

Lemma empty_sound : sound_caches sample_cenv empty_state.
Proof. split; [|done]. intros k f. cbn. by rewrite lookup_empty. Qed.

Lemma cjs_resolves_to_files_witness :
  exists s',
    resolve_from "/a/index.js" "./lib/c" empty_state = Some (s', Ok "/a/lib/c/main.js"%js) /\
    sound_caches sample_cenv s' /\
    ((normalizeRequirableId "./lib/c" <> None /\ "/a/lib/c/main.js"%js = "./lib/c"%js) \/
     regular_file sample_cenv "/a/lib/c/main.js").
Proof.
  eexists. split; [vm_compute; reflexivity|].
  match goal with |- sound_caches _ ?s' /\ _ =>
    destruct (cjs_resolves_to_files sample_cenv "./lib/c" (Some (sample_module "/a/index.js")) false None
                (fun _ => false) empty_state s' (Ok "/a/lib/c/main.js"%js) empty_sound) as [H1 H2];
      [vm_compute; reflexivity|]
  end.
  split; [exact H1|]. by apply H2.
Defined.

Lemma cjs_path_search_witness :
  exists s',
    _findPath sample_cenv "./lib/c" (Some ["/a"%js]) false (fun _ => false) empty_state =
      Some (s', Ok (Some "/a/lib/c/main.js"%js)) /\
    _pathCache s' !! cacheKey "./lib/c" ["/a"%js] = Some "/a/lib/c/main.js"%js.
Proof.
  assert (forall isMain p, is_file sample_cenv p = true -> named sample_cenv isMain p p /\ p <> []) as Hname.
  { intros isMain p Hp. split; [by destruct isMain|]. intros ->. vm_compute in Hp. discriminate Hp. }
  destruct (cjs_path_search sample_cenv [] (fun _ p => p) "./lib/c" (Some ["/a"%js]) "/a" false (fun _ => false)
              (Some (Contents None (Some "main"%js) None None None None)) empty_state) as (_ & s' & H1 & H2).
  - constructor.
  - reflexivity.
  - exact Hname.
  - apply relative_request; vm_compute; reflexivity.
  - split; [done|]. cbn. by rewrite lookup_empty.
  - vm_compute. reflexivity.
  - exists s'. split; [exact H1|exact H2].
Defined.

(** ** Defects *)

(** What a package resolves its own name to is remembered under the request and
    the list of paths; a module in the package's [node_modules] directory has
    the same list, so that its request for another package of that name is
    answered from the cache. *)
Lemma cjs_self_resolution_shared :
  exists s1 s2 s3,
    resolve_from "/a/node_modules/x.js" "pkg" empty_state = Some (s1, Ok "/a/node_modules/pkg/index.js"%js) /\
    resolve_from "/a/index.js" "pkg" empty_state = Some (s2, Ok "/a/index.js"%js) /\
    resolve_from "/a/node_modules/x.js" "pkg" s2 = Some (s3, Ok "/a/index.js"%js).
Proof. do 3 eexists. split_and!; vm_compute; reflexivity. Qed.

(** A module without search paths that requires its own package by name: the
    list of paths is [null], and reading its length throws. *)
Lemma cjs_self_without_paths :
  exists s', _resolveFilename sample_cenv "pkg" (Some (Parent "/a/index.js" (Some "/a/index.js"%js) None []))
               false None (fun _ => false) empty_state = Some (s', Throw null_error).
Proof. eexists. vm_compute. reflexivity. Qed.

(** On POSIX a name that starts with two dots and a backslash counts as
    relative; one dot and a backslash does not. *)
Lemma cjs_backslash_relative : isRelative "..\x" = true /\ isRelative ".\x" = false.
Proof. done. Qed.

(** The list of paths and the request are joined with the code unit 0 only: two
    requests share an entry of the path cache when one contains it. *)
Lemma cjs_key_collision : cacheKey "x" ["/p"; "/q"]%js = cacheKey ("x"%js ++ [0] ++ "/p"%js) ["/q"%js].
Proof. done. Qed.

(** ** Extensions *)

(** [e] is an extension of [name] at a dot from [k] on that is not its first
    character. *)
Definition extension_at (name : jsstr) (k i : nat) : Prop := (k <= i)%nat /\ i <> 0%nat /\ name !! i = Some 46.

Lemma longest_loop_spec registered name : forall n k,
  (k <= length name)%nat -> (length name < n + k)%nat ->
  let r := longest_loop registered n name (Z.of_nat k) in
  (exists i, extension_at name k i /\ r = drop i name /\ r ∈ registered /\
     forall j, extension_at name k j -> (j < i)%nat -> drop j name ∉ registered) \/
  (r = ".js"%js /\ forall j, extension_at name k j -> drop j name ∉ registered).
Proof.
  induction n as [|n IH]; intros k Hk Hn; [lia|]. cbn [longest_loop]. cbv zeta.
  assert (indexOf_from name "." (Z.of_nat k) = indexOf_at (drop k name) [46] (Z.of_nat k)) as ->.
  { unfold indexOf_from. cbv zeta. unfold len.
    replace (Z.min (Z.max (Z.of_nat k) 0) (Z.of_nat (length name))) with (Z.of_nat k) by lia. by rewrite Nat2Z.id. }
  destruct (first_code 46 (drop k name)) as [Hd|(p & t & Hd & Hp)].
  - rewrite indexOf_at_none by done. right. split; [done|]. intros j (Hj & _ & Hx) _. rewrite Forall_forall in Hd.
    apply (Hd 46); [|done]. apply list_elem_of_lookup. exists (j - k)%nat. rewrite lookup_drop. by replace (k + (j - k))%nat with j by lia.
  - rewrite Hd, indexOf_at_first by done. pose proof (len_nonneg p).
    replace (Z.of_nat k + len p =? -1) with false by (symmetry; apply Z.eqb_neq; lia).
    set (i := (k + length p)%nat). replace (Z.of_nat k + len p) with (Z.of_nat i) by (unfold len, i; lia).
    assert (drop i name = 46 :: t) as Hi.
    { unfold i. rewrite <- drop_drop, Hd, drop_app_length. done. }
    assert (name !! i = Some 46) as Hl by (rewrite <- (Nat.add_0_r i), <- lookup_drop, Hi; done).
    pose proof (lookup_lt_Some _ _ _ Hl) as Hlt.
    assert (forall j, extension_at name k j -> (j < i)%nat -> False) as Hbefore.
    { intros j (Hj & _ & Hx) Hji. rewrite Forall_forall in Hp. apply (Hp 46); [|done].
      apply list_elem_of_lookup. exists (j - k)%nat.
      rewrite <- (lookup_app_l p (46 :: t)) by (unfold i in Hji; lia). rewrite <- Hd, lookup_drop.
      by replace (k + (j - k))%nat with j by lia. }
    assert (drop i name ∉ registered \/ i = 0%nat ->
      (exists i0, extension_at name k i0 /\ longest_loop registered n name (Z.of_nat i + 1) = drop i0 name /\
         longest_loop registered n name (Z.of_nat i + 1) ∈ registered /\
         forall j, extension_at name k j -> (j < i0)%nat -> drop j name ∉ registered) \/
      (longest_loop registered n name (Z.of_nat i + 1) = ".js"%js /\
         forall j, extension_at name k j -> drop j name ∉ registered)) as Hnext.
    { intros Hno. replace (Z.of_nat i + 1) with (Z.of_nat (S i)) by lia.
      assert (forall j, extension_at name k j -> extension_at name (S i) j \/ drop j name ∉ registered) as Hsplit.
      { intros j Hj. destruct (decide (j < i)%nat) as [H1|H1]; [by destruct (Hbefore j Hj H1)|].
        destruct (decide (j = i)) as [->|H2]; [|left; destruct Hj as (? & ? & ?); split_and!; [lia|done|done]].
        destruct Hno as [?|Hz]; [by right|]. by destruct Hj as (_ & ? & _). }
      destruct (IH (S i) ltac:(lia) ltac:(unfold i; lia)) as [(i0 & H1 & H2 & H3 & H4)|[H1 H2]].
      - left. exists i0. split_and!; [|done..|].
        + destruct H1 as (? & ? & ?). split_and!; [unfold i in *; lia|done..].
        + intros j Hj Hlt0. destruct (Hsplit j Hj) as [?|?]; [by apply H4|done].
      - right. split; [done|]. intros j Hj. destruct (Hsplit j Hj) as [?|?]; [by apply H2|done]. }
    destruct (Z.eqb_spec (Z.of_nat i) 0) as [Hz|Hz]; [apply Hnext; right; lia|].
    assert (slice_from name (Z.of_nat i) = drop i name) as ->.
    { rewrite <- (take_drop i name) at 1. apply slice_suffix. unfold len. rewrite length_take. lia. }
    destruct (bool_decide (drop i name ∈ registered)) eqn:Hr; bool_hyps; [|apply Hnext; by left].
    left. exists i. split_and!; [|done..|].
    + split_and!; [unfold i; lia|lia|done].
    + intros j Hj Hji. by destruct (Hbefore j Hj Hji).
Qed.

(** [findLongestRegisteredExtension] answers the longest registered extension
    of the file's base name: the part from a dot that is not its first character,
    no longer such part being registered; and [.js] when there is none. *)
Theorem cjs_longest_extension registered filename name :
  Posix.basename (VString filename) None = Ok name ->
  exists r, findLongestRegisteredExtension registered filename = Ok r /\
  ((exists i, extension_at name 0 i /\ r = drop i name /\ r ∈ registered /\
      forall j, extension_at name 0 j -> (j < i)%nat -> drop j name ∉ registered) \/
   (r = ".js"%js /\ forall j, extension_at name 0 j -> drop j name ∉ registered)).
Proof.
  intros Hb. unfold findLongestRegisteredExtension. rewrite Hb. eexists. split; [done|].
  apply (longest_loop_spec registered name (S (length name)) 0); lia.
Qed.

Lemma cjs_longest_extension_witness :
  Posix.basename (VString "/x/.a.b.test.js") None = Ok ".a.b.test.js"%js /\
  exists r, findLongestRegisteredExtension [".js"; ".test.js"; ".a.b.test.js"]%js "/x/.a.b.test.js" = Ok r /\
    r = ".test.js"%js.
Proof.
  split; [reflexivity|].
  destruct (cjs_longest_extension [".js"; ".test.js"; ".a.b.test.js"]%js "/x/.a.b.test.js" ".a.b.test.js" eq_refl)
    as (r & H1 & _).
  exists r. split; [exact H1|]. vm_compute in H1. congruence.
Defined.
