(* ===== verification/CjsLoad.v ===== *)
(** * Loading CommonJS modules

    Models [Module._load], [Module.prototype.load], [Module.prototype.require]
    and the handlers of file extensions of
    [libjs-node/internal/modules/cjs/loader.js], over the resolver.

    The state is that of the resolver, [Module._cache], the module records,
    [relativeResolveCache], [process.mainModule], [requireDepth], the exports
    that carry the prototype which warns about circular dependencies, and a
    trace.  The code of a module is a tree of the calls that reach the loader,
    each continued with its answer: [require] of any module, [Module._load],
    and changes of [module.exports] and of [Module._cache].  Modules that assign
    [module.parent] ([setModuleParent]) or change [module.children] by hand are
    left out.  Reading and
    compiling files, [JSON.parse], native addons and builtin modules are
    parameters.  ES modules and hooks are not modelled: a file that is compiled
    as an ES module is a program as well. *)

From Stdlib Require Import QArith.
From S2P Require Import Prelude Effects JsString Realm Path Url RegExp PackageJson PathPosix EsmResolve CjsResolve.
#[local] Open Scope Z_scope.
#[local] Open Scope effect_scope.

Module CjsLoad.
Import PackageJson.

(** The parent of a load. *)
Inductive parent_arg :=
  | PUndefined
  | PNull
  | PModule (m : positive).

Definition parent_module (p : parent_arg) : option positive :=
  match p with PModule m => Some m | _ => None end.

(** What the code of a module does to the loader, less assignments of
    [module.parent] and changes of [module.children].  [from] is the module whose
    [require] is called; [None] is the module's own. *)
Inductive body :=
  | Done
  | Fail (e : jserror)
  | Require (from : option positive) (id : jsval) (k : result jsval -> body)
  | Load (request : jsstr) (parent : parent_arg) (isMain : bool) (k : result jsval -> body)
  | SetExports (v : jsval) (k : body)
  | SetCache (filename : jsstr) (m : positive) (k : body)
  | DeleteCache (filename : jsstr) (k : body).

Record lenv := LEnv {
  cj : Cjs.cenv;
  conditions : jsstr -> bool;
  stripTypes : bool;
  requireModule : bool;
  builtin_exports : jsstr -> result jsval;
  readSource : jsstr -> option jsstr -> result jsstr;
  (* [wrapSafe]: whether the source is an ES module, and the program *)
  compile : jsstr -> jsstr -> option jsstr -> result (bool * body);
  JSON_parse : jsstr -> result jsval;
  dlopen : jsstr -> result (option jsval);
  custom_handler : jsstr -> jsstr -> body;
  plain_object : jsval -> bool;
}.

(** A [Module]. *)
Record module_ := Mod {
  m_id : jsstr; m_path : jsstr; m_exports : jsval; m_filename : option jsstr; m_loaded : bool;
  m_children : list positive; m_parent : option positive; m_paths : option (list jsstr); m_isMain : bool;
}.

Inductive event :=
  | EvStart (filename : jsstr)
  | EvFailed (filename : jsstr)
  | EvDeleted (filename : jsstr).

#[export] Instance event_eq_dec : EqDecision event.
Proof. solve_decision. Defined.

Record state := State {
  resolver : Cjs.state;
  _cache : gmap jsstr positive;
  heap : gmap positive module_;
  next : positive;
  relativeResolveCache : gmap jsstr jsstr;
  mainModule : option positive;
  requireDepth : Z;
  circular : list jsval;
  trace : list event;
}.

Abbreviation L := (M state).

(** ** Updates *)

Definition set_resolver (r : Cjs.state) (s : state) : state :=
  State r (_cache s) (heap s) (next s) (relativeResolveCache s) (mainModule s) (requireDepth s) (circular s) (trace s).
Definition set_cache (c : gmap jsstr positive) (s : state) : state :=
  State (resolver s) c (heap s) (next s) (relativeResolveCache s) (mainModule s) (requireDepth s) (circular s) (trace s).
Definition set_heap (h : gmap positive module_) (s : state) : state :=
  State (resolver s) (_cache s) h (next s) (relativeResolveCache s) (mainModule s) (requireDepth s) (circular s) (trace s).
Definition set_relative (c : gmap jsstr jsstr) (s : state) : state :=
  State (resolver s) (_cache s) (heap s) (next s) c (mainModule s) (requireDepth s) (circular s) (trace s).
Definition set_main (m : positive) (s : state) : state :=
  State (resolver s) (_cache s) (heap s) (next s) (relativeResolveCache s) (Some m) (requireDepth s) (circular s) (trace s).
Definition set_depth (d : Z) (s : state) : state :=
  State (resolver s) (_cache s) (heap s) (next s) (relativeResolveCache s) (mainModule s) d (circular s) (trace s).
Definition set_circular (c : list jsval) (s : state) : state :=
  State (resolver s) (_cache s) (heap s) (next s) (relativeResolveCache s) (mainModule s) (requireDepth s) c (trace s).
Definition log (e : event) (s : state) : state :=
  State (resolver s) (_cache s) (heap s) (next s) (relativeResolveCache s) (mainModule s) (requireDepth s) (circular s)
    (trace s ++ [e]).

Definition update_mod (m : positive) (f : module_ -> module_) (s : state) : state := set_heap (alter f m (heap s)) s.
Definition in_resolver {A} (m : Cjs.C A) : L A := within resolver set_resolver m.
Definition set_statCache (c : option (gmap jsstr Z)) (s : state) : state :=
  set_resolver (Cjs.set_statCache c (resolver s)) s.

Definition with_exports (v : jsval) (r : module_) : module_ :=
  Mod (m_id r) (m_path r) v (m_filename r) (m_loaded r) (m_children r) (m_parent r) (m_paths r) (m_isMain r).
Definition with_children (c : list positive) (r : module_) : module_ :=
  Mod (m_id r) (m_path r) (m_exports r) (m_filename r) (m_loaded r) c (m_parent r) (m_paths r) (m_isMain r).
(** [module.id = '.'; module[kIsMainSymbol] = true] *)
Definition as_main (r : module_) : module_ :=
  Mod "." (m_path r) (m_exports r) (m_filename r) (m_loaded r) (m_children r) (m_parent r) (m_paths r) true.
(** [this.filename ??= filename] *)
Definition with_filename (filename : jsstr) (r : module_) : module_ :=
  Mod (m_id r) (m_path r) (m_exports r) (Some (default filename (m_filename r))) (m_loaded r) (m_children r)
    (m_parent r) (m_paths r) (m_isMain r).
(** [this.paths ??= paths] *)
Definition with_paths (paths : list jsstr) (r : module_) : module_ :=
  Mod (m_id r) (m_path r) (m_exports r) (m_filename r) (m_loaded r) (m_children r) (m_parent r)
    (Some (default paths (m_paths r))) (m_isMain r).
Definition as_loaded (r : module_) : module_ :=
  Mod (m_id r) (m_path r) (m_exports r) (m_filename r) true (m_children r) (m_parent r) (m_paths r) (m_isMain r).

Definition exports_of (m : positive) (s : state) : jsval :=
  match heap s !! m with Some r => m_exports r | None => VUndefined end.

(** ** Modules *)

Definition updateChildren (parent : parent_arg) (child : positive) (scan : bool) (s : state) : state :=
  match parent with
  | PModule p =>
      update_mod p (fun r => if scan && bool_decide (child ∈ m_children r) then r
                             else with_children (m_children r ++ [child]) r) s
  | _ => s
  end.

(** [children.splice(children.indexOf(child), 1)] *)
Fixpoint remove_first (m : positive) (l : list positive) : list positive :=
  match l with
  | [] => []
  | x :: l => if decide (x = m) then l else x :: remove_first m l
  end.
Definition removeChild (parent : parent_arg) (child : positive) (s : state) : state :=
  match parent with
  | PModule p => update_mod p (fun r => with_children (remove_first child (m_children r)) r) s
  | _ => s
  end.

(** [new Module(id, parent)]; its exports are a new object. *)
Definition new_Module (id : jsstr) (parent : parent_arg) : L positive :=
  path <- lift (Posix.dirname (VString id));;
  m <- gets next;;
  modify (updateChildren parent m false);;
  modify (fun s =>
    State (resolver s) (_cache s)
      (<[m := Mod id path (VObject m) None false [] (parent_module parent) None false]> (heap s)) (Pos.succ m)
      (relativeResolveCache s) (mainModule s) (requireDepth s) (circular s) (trace s));;
  ret m.

(** The chain of first parents, [fuel] long at most; a parent is older than its
    children. *)
Fixpoint require_stack (fuel : nat) (h : gmap positive module_) (m : option positive) : list jsstr :=
  match fuel, m with
  | S fuel, Some m =>
      match h !! m with
      | Some r => default (m_id r) (Cjs.truthy (m_filename r)) :: require_stack fuel h (m_parent r)
      | None => []
      end
  | _, _ => []
  end.

(** What the resolver reads of a module. *)
Definition parent_of (p : parent_arg) (s : state) : option Cjs.parent_t :=
  match p with
  | PModule m =>
      match heap s !! m with
      | Some r => Some (Cjs.Parent (m_id r) (m_filename r) (m_paths r) (require_stack (Pos.to_nat (next s)) (heap s) (Some m)))
      | None => None
      end
  | _ => None
  end.

(** [parent.path + '\x00' + request]; without a module it is [undefined], as the
    name of a property. *)
Definition relative_key (parent : parent_arg) (request : jsstr) (s : state) : jsstr :=
  match parent with
  | PModule m => match heap s !! m with Some r => m_path r | None => [] end ++ [0] ++ request
  | _ => "undefined"
  end.

(** A program can only hold a module that exists. *)
Definition held (m : option positive) (s : state) : option positive :=
  match m with Some m => if bool_decide (is_Some (heap s !! m)) then Some m else None | None => None end.
Definition held_parent (p : parent_arg) (s : state) : parent_arg :=
  match p with
  | PModule m => if bool_decide (is_Some (heap s !! m)) then PModule m else PUndefined
  | _ => p
  end.

Definition js_truthy (v : jsval) : bool :=
  match v with
  | VUndefined | VNull | VBool false | VString [] => false
  | VNumber n => negb (n =? 0)
  | _ => true
  end.

Section WithEnv.
Variable E : lenv.

(** Requires of ES modules in a cycle are not modelled. *)
Definition getExportsForCircularRequire (m : positive) : L jsval :=
  v <- gets (exports_of m);;
  modify (fun s =>
    if js_truthy v && plain_object E v && negb (bool_decide (v ∈ circular s))
    then set_circular (v :: circular s) s else s);;
  ret v.

Definition loadBuiltinModule (id : jsstr) : L jsval :=
  if canBeRequiredByUsers id then lift (builtin_exports E id)
  else throw (Url.TypeError "Cannot read properties of undefined").

(** [resolveForCJSWithHooks] without hooks. *)
Definition resolveForCJS (specifier : jsstr) (parent : parent_arg) (isMain : bool) : L jsstr :=
  if startsWith specifier node_scheme then
    match normalizeRequirableId specifier with
    | Some id => ret id
    | None => throw (JsError "ERR_UNKNOWN_BUILTIN_MODULE" [specifier])
    end
  else
    p <- gets (parent_of parent);;
    in_resolver (Cjs._resolveFilename (cj E) specifier p isMain None (conditions E)).

(** ** Running a module

    [load] stands for [Module._load] at the depth that remains. *)

Section WithLoad.
Variable load : jsstr -> parent_arg -> bool -> L jsval.

Definition prototype_require (m : positive) (id : jsval) : L jsval :=
  s <- lift (validateString id "id");;
  if bool_decide (s = []) then throw (JsError "ERR_INVALID_ARG_VALUE" ["id"; "must be a non-empty string"]%js)
  else
    modify (fun st => set_depth (requireDepth st + 1) st);;
    finally (load s (PModule m) false) (fun st => set_depth (requireDepth st - 1) st).

Fixpoint exec (m : positive) (b : body) : L unit :=
  match b with
  | Done => ret tt
  | Fail e => throw e
  | Require from id k =>
      from <- gets (fun s => default m (held from s));;
      attempt (prototype_require from id) (fun r => exec m (k r))
  | Load request parent isMain k =>
      parent <- gets (held_parent parent);;
      attempt (load request parent isMain) (fun r => exec m (k r))
  | SetExports v k => modify (update_mod m (with_exports v));; exec m k
  | SetCache f c k =>
      c <- gets (held (Some c));;
      modify (fun s => match c with Some c => set_cache (<[f := c]> (_cache s)) s | None => s end);;
      exec m k
  | DeleteCache f k => modify (fun s => log (EvDeleted f) (set_cache (delete f (_cache s)) s));; exec m k
  end.

(** [_compile]: the cache of file states lives while the outermost module runs. *)
Definition _compile (m : positive) (content filename : jsstr) (format : option jsstr) : L unit :=
  c <- lift (compile E filename content format);;
  let '(isModule, program) := c in
  if isModule : bool then exec m program
  else
    _ <- lift (Posix.dirname (VString filename));;
    modify (fun s => if requireDepth s =? 0 then set_statCache (Some ∅) s else s);;
    exec m program;;
    modify (fun s => if requireDepth s =? 0 then set_statCache None s else s).

Definition nearest_type (filename : jsstr) : L (option jsstr) :=
  pkg <- in_resolver (Cjs.nearestPackage (cj E) filename);;
  ret (match pkg with Some c => p_type c | None => None end).

(** The format of a file by its name and its package. *)
Definition js_format (filename : jsstr) : L (option jsstr) :=
  if endsWith filename ".cjs" then ret (Some "commonjs"%js)
  else if endsWith filename ".mjs" then ret (Some "module"%js)
  else if endsWith filename ".js" then
    t <- nearest_type filename;;
    ret (match t with
         | Some x => if bool_decide (x = "module"%js) || bool_decide (x = "commonjs"%js) || bool_decide (x = [])
                     then Some x else None
         | None => None
         end)
  else if endsWith filename ".mts" && stripTypes E then ret (Some "module-typescript"%js)
  else if endsWith filename ".cts" && stripTypes E then ret (Some "commonjs-typescript"%js)
  else if endsWith filename ".ts" && stripTypes E then
    t <- nearest_type filename;;
    ret (Some (if bool_decide (t = Some "module"%js) then "module-typescript"%js
               else if bool_decide (t = Some "commonjs"%js) then "commonjs-typescript"%js
               else "typescript"%js))
  else ret None.

Definition is_esm_format (format : option jsstr) : bool :=
  bool_decide (format = Some "module"%js) || bool_decide (format = Some "module-typescript"%js).

Definition extension_js (m : positive) (filename : jsstr) : L unit :=
  format <- js_format filename;;
  source <- lift (readSource E filename format);;
  if is_esm_format format && negb (requireModule E) then throw (JsError "ERR_REQUIRE_ESM" [filename])
  else _compile m source filename format.

(** [stripBOM] *)
Definition stripBOM (content : jsstr) : jsstr :=
  if code_is (charCodeAt content 0) 0xFEFF then slice_from content 1 else content.

Definition extension_json (m : positive) (filename : jsstr) : L unit :=
  content <- lift (readSource E filename (Some "json"%js));;
  match JSON_parse E (stripBOM content) with
  | Ok v => modify (update_mod m (with_exports v))
  | Throw e => throw (JsError (err_code e) (filename :: err_args e))
  end.

Definition extension_node (m : positive) (filename : jsstr) : L unit :=
  v <- lift (dlopen E filename);;
  match v with Some v => modify (update_mod m (with_exports v)) | None => ret tt end.

(** [Module._extensions[extension](module, filename)] *)
Definition run_extension (extension : jsstr) (m : positive) (filename : jsstr) : L unit :=
  if bool_decide (extension = ".js"%js) then extension_js m filename
  else if bool_decide (extension = ".json"%js) then extension_json m filename
  else if bool_decide (extension = ".node"%js) then extension_node m filename
  else exec m (custom_handler E extension filename).

Definition prototype_load (m : positive) (filename : jsstr) : L unit :=
  loaded <- gets (fun s => match heap s !! m with Some r => m_loaded r | None => false end);;
  if loaded : bool then throw (JsError "ERR_INTERNAL_ASSERTION" [])
  else
    modify (update_mod m (with_filename filename));;
    own <- gets (fun s => match heap s !! m with Some r => m_paths r | None => None end);;
    paths <- (match own with
              | Some paths => ret paths
              | None =>
                  dir <- lift (Posix.dirname (VString filename));;
                  lift (Cjs._nodeModulePaths (Esm.cwd (Cjs.esm (cj E))) dir)
              end);;
    modify (update_mod m (with_paths paths));;
    extension <- lift (Cjs.findLongestRegisteredExtension (Cjs.extensions (cj E)) filename);;
    run_extension extension m filename;;
    modify (update_mod m as_loaded).

(** ** [Module._load] *)

(** The exports of a module of the cache. *)
Definition cached_exports (parent : parent_arg) (m : positive) : L jsval :=
  modify (updateChildren parent m true);;
  loaded <- gets (fun s => match heap s !! m with Some r => m_loaded r | None => false end);;
  if loaded : bool then gets (exports_of m) else getExportsForCircularRequire m.

(** The fast path for requests made before from the same directory. *)
Definition from_relative_cache (parent : parent_arg) (key : jsstr) : L (option jsval) :=
  match parent with
  | PModule _ =>
      filename <- gets (fun s => relativeResolveCache s !! key);;
      match filename with
      | None => ret None
      | Some f =>
          cached <- gets (fun s => _cache s !! f);;
          match cached with
          | Some m => v <- cached_exports parent m;; ret (Some v)
          | None => modify (fun s => set_relative (delete key (relativeResolveCache s)) s);; ret None
          end
      end
  | _ => ret None
  end.

(** A builtin module; [None] when its exports are falsy and loading goes on. *)
Definition builtin_result (id : jsstr) : L (option jsval) :=
  v <- loadBuiltinModule id;; ret (if js_truthy v then Some v else None).

(** [parent !== undefined] *)
Definition has_parent (parent : parent_arg) : bool := match parent with PUndefined => false | _ => true end.

(** What a failed load takes back. *)
Definition forget (parent : parent_arg) (key filename : jsstr) (m : positive) (s : state) : state :=
  let s := log (EvFailed filename) (set_cache (delete filename (_cache s)) s) in
  if has_parent parent then removeChild parent m (set_relative (delete key (relativeResolveCache s)) s) else s.

Definition load_new (parent : parent_arg) (key filename : jsstr) (isMain : bool) : L jsval :=
  m <- new_Module filename parent;;
  modify (fun s => if isMain then update_mod m as_main (set_main m s) else s);;
  modify (fun s => log (EvStart filename) (set_cache (<[filename := m]> (_cache s)) s));;
  modify (fun s => if has_parent parent then set_relative (<[key := filename]> (relativeResolveCache s)) s else s);;
  on_throw (prototype_load m filename) (forget parent key filename m);;
  v <- gets (exports_of m);;
  modify (fun s => if js_truthy v && bool_decide (v ∈ circular s)
                   then set_circular (List.filter (fun x => negb (bool_decide (x = v))) (circular s)) s else s);;
  ret v.

Definition load_step (request : jsstr) (parent : parent_arg) (isMain : bool) : L jsval :=
  key <- gets (relative_key parent request);;
  fast <- from_relative_cache parent key;;
  match fast with
  | Some v => ret v
  | None =>
      filename <- resolveForCJS request parent isMain;;
      early <- (if startsWith request node_scheme then builtin_result filename else ret None);;
      match early with
      | Some v => ret v
      | None =>
          cached <- gets (fun s => _cache s !! filename);;
          match cached with
          | Some m => cached_exports parent m
          | None =>
              builtin <- (if canBeRequiredWithoutScheme filename then builtin_result filename else ret None);;
              match builtin with
              | Some v => ret v
              | None => load_new parent key filename isMain
              end
          end
      end
  end.
End WithLoad.

(** [fuel] is for the modules that are being loaded, one inside the other. *)
Fixpoint _load (fuel : nat) (request : jsstr) (parent : parent_arg) (isMain : bool) : L jsval :=
  match fuel with
  | O => fun _ => None
  | S fuel => load_step (_load fuel) request parent isMain
  end.

Definition initial (r : Cjs.state) : state := State r ∅ ∅ 1 ∅ None 0 [] [].
End WithEnv.
End CjsLoad.
