(* ===== verification/CjsLoadFacts.v ===== *)
(** * Loading CommonJS modules: invariants

    A state predicate that every step of the loader keeps, whatever the programs
    do, is kept by [Module._load]. *)

From Stdlib Require Import QArith.
From S2P Require Import Prelude Effects JsString Realm Path Url RegExp PackageJson PathPosix EsmResolve CjsResolve CjsLoad.
Import PackageJson CjsLoad.
#[local] Open Scope Z_scope.
#[local] Open Scope effect_scope.

(** A program that never deletes from [Module._cache]. *)
Fixpoint no_delete (b : body) : Prop :=
  match b with
  | Done | Fail _ => True
  | Require _ _ k | Load _ _ _ k => forall r, no_delete (k r)
  | SetExports _ k | SetCache _ _ k => no_delete k
  | DeleteCache _ _ => False
  end.

(** The programs of the loader satisfy [ok]. *)
Definition programs (E : lenv) (ok : body -> Prop) : Prop :=
  (forall filename content format b prog, compile E filename content format = Ok (b, prog) -> ok prog) /\
  (forall extension filename, ok (custom_handler E extension filename)).

(** The modules of [X] exist. *)
Definition allocated (X : list positive) (s : state) : Prop := Forall (fun m => is_Some (heap s !! m)) X.

Definition parent_in (X : list positive) (p : parent_arg) : Prop :=
  match p with PModule m => m ∈ X | _ => True end.

Lemma allocated_update X m f s : allocated X s -> allocated X (update_mod m f s).
Proof.
  intros H. eapply Forall_impl; [exact H|]. intros x Hx. cbn. destruct (decide (m = x)) as [->|Hne].
  - rewrite lookup_alter_eq. destruct Hx as [r ->]. by eexists.
  - by rewrite lookup_alter_ne.
Qed.

Lemma allocated_held X m s :
  allocated X s -> m ∈ X -> is_Some (heap s !! m).
Proof. intros H Hm. unfold allocated in H. rewrite Forall_forall in H. by apply H. Qed.

(** The state in which the code of a new module starts. *)
Definition started (parent : parent_arg) (key filename path : jsstr) (isMain : bool) (s : state) : state :=
  let m := next s in
  let s := updateChildren parent m false s in
  let s := State (resolver s) (_cache s)
    (<[m := Mod filename path (VObject m) None false [] (parent_module parent) None false]> (heap s)) (Pos.succ m)
    (relativeResolveCache s) (mainModule s) (requireDepth s) (circular s) (trace s) in
  let s := if isMain then update_mod m as_main (set_main m s) else s in
  let s := log (EvStart filename) (set_cache (<[filename := m]> (_cache s)) s) in
  if has_parent parent then set_relative (<[key := filename]> (relativeResolveCache s)) s else s.

Lemma load_new_started E load parent key filename isMain s :
  load_new E load parent key filename isMain s =
  match Posix.dirname (VString filename) with
  | Throw e => Some (s, Throw e)
  | Ok path =>
      let m := next s in
      (on_throw (prototype_load E load m filename) (forget parent key filename m);;
       v <- gets (exports_of m);;
       modify (fun s => if js_truthy v && bool_decide (v ∈ circular s)
                        then set_circular (List.filter (fun x => negb (bool_decide (x = v))) (circular s)) s else s);;
       ret v) (started parent key filename path isMain s)
  end.
Proof.
  unfold load_new, new_Module. unfold bind at 1 2, lift. destruct (Posix.dirname (VString filename)) as [path|e]; [|done].
  by destruct parent, isMain.
Qed.

(** What an invariant must be kept by. *)
Class Stable (E : lenv) (deletes : bool) (I : Z -> state -> Prop) : Prop := {
  stable_resolve d request p isMain s t r :
    I d s -> Cjs._resolveFilename (cj E) request p isMain None (conditions E) (resolver s) = Some (t, r) ->
    I d (set_resolver t s);
  stable_nearest d f s t r :
    I d s -> Cjs.nearestPackage (cj E) f (resolver s) = Some (t, r) -> I d (set_resolver t s);
  stable_statCache d c s : c = None \/ c = Some ∅ -> I d s -> I d (set_statCache c s);
  stable_relative d c s : I d s -> I d (set_relative c s);
  stable_circular d c s : I d s -> I d (set_circular c s);
  stable_exports d m v s : I d s -> I d (update_mod m (with_exports v) s);
  stable_filename d m f s : I d s -> I d (update_mod m (with_filename f) s);
  stable_paths d m p s : I d s -> I d (update_mod m (with_paths p) s);
  stable_loaded d m s : I d s -> I d (update_mod m as_loaded s);
  stable_deeper d s : I d s -> I (d + 1) (set_depth (requireDepth s + 1) s);
  stable_back d s : I (d + 1) s -> I d (set_depth (requireDepth s - 1) s);
  stable_child d p m f s : I d s -> _cache s !! f = Some m -> I d (updateChildren p m true s);
  stable_set d f m s : I d s -> is_Some (heap s !! m) -> I d (set_cache (<[f := m]> (_cache s)) s);
  stable_delete d f s : deletes = true -> I d s -> I d (log (EvDeleted f) (set_cache (delete f (_cache s)) s));
  stable_start d parent key f path isMain s :
    I d s -> _cache s !! f = None -> (forall p, parent = PModule p -> is_Some (heap s !! p)) ->
    I d (started parent key f path isMain s);
  stable_fail d parent key f s0 s :
    I d s0 -> _cache s0 !! f = None -> I d s -> I d (forget parent key f (next s0) s);
}.

Section Invariant.
Context (E : lenv) (deletes : bool) (I : Z -> state -> Prop) `{!Stable E deletes I}.
Context (Hprog : programs E (fun b => deletes = true \/ no_delete b)).

Definition J (d : Z) (X : list positive) (s : state) : Prop := I d s /\ allocated X s.
Abbreviation inv d X m := (triple (J d X) m (fun _ => J d X)).

(** Steps that leave the state, or change one field. *)
Lemma inv_ret {A} d X (a : A) : inv d X (ret a).
Proof. by apply triple_ret. Qed.
Lemma inv_throw {A} d X e : inv d X (throw (A := A) e).
Proof. by apply triple_throw. Qed.
Lemma inv_lift {A} d X (r : result A) : inv d X (lift r).
Proof. by apply triple_lift. Qed.
Lemma inv_gets {A} d X (f : state -> A) : inv d X (gets f).
Proof. by apply triple_gets. Qed.
Lemma inv_bind {A B} d X (m : L A) (k : A -> L B) :
  inv d X m -> (forall a, inv d X (k a)) -> inv d X (bind m k).
Proof.
  intros Hm Hk. eapply (triple_bind _ _ _ (fun _ => J d X)); [|exact Hk].
  eapply triple_weaken; [exact Hm|done|]. by intros [a|e] s H.
Qed.
Lemma inv_attempt {A B} d X (m : L A) (k : result A -> L B) :
  inv d X m -> (forall r, inv d X (k r)) -> inv d X (attempt m k).
Proof. intros Hm Hk. by eapply triple_attempt. Qed.
Lemma inv_modify d X f :
  (forall s, I d s -> allocated X s -> I d (f s)) -> (forall s, allocated X s -> allocated X (f s)) -> inv d X (modify f).
Proof. intros H1 H2. apply triple_modify. intros s [HI HX]. split; [by apply H1|by apply H2]. Qed.
Lemma inv_resolver {A} d X (m : Cjs.C A) :
  (forall s t r, I d s -> m (resolver s) = Some (t, r) -> I d (set_resolver t s)) -> inv d X (in_resolver m).
Proof.
  intros Hm s s' r [HI HX]. unfold in_resolver, within. destruct (m (resolver s)) as [[t r1]|] eqn:H; [|done].
  intros [= <- <-]. split; [by eapply Hm|done].
Qed.
Lemma inv_update d X m f : (forall s, I d s -> I d (update_mod m f s)) -> inv d X (modify (update_mod m f)).
Proof. intros H. apply inv_modify; [auto|]. intros. by apply allocated_update. Qed.

Lemma updateChildren_allocated X p m scan s : allocated X s -> allocated X (updateChildren p m scan s).
Proof. destruct p; [done|done|]. apply allocated_update. Qed.

Hint Resolve inv_ret inv_throw inv_lift inv_gets inv_bind inv_attempt : inv.

Lemma inv_stat d X c :
  c = None \/ c = Some ∅ -> inv d X (modify (fun s => if requireDepth s =? 0 then set_statCache c s else s)).
Proof.
  intros Hc. apply inv_modify; intros s HI; destruct (requireDepth s =? 0); try done. intros _. by apply stable_statCache.
Qed.

Lemma inv_circular d X m : inv d X (getExportsForCircularRequire E m).
Proof.
  unfold getExportsForCircularRequire. apply inv_bind; [auto with inv|]. intros v. apply inv_bind; [|auto with inv].
  apply inv_modify; intros s HI; destruct (_ && _); try done. intros _. by apply stable_circular.
Qed.

Lemma inv_nearest d X f : inv d X (nearest_type E f).
Proof.
  unfold nearest_type. apply inv_bind; [|auto with inv]. apply inv_resolver. intros. by eapply stable_nearest.
Qed.

Lemma inv_format d X f : inv d X (js_format E f).
Proof. unfold js_format. repeat case_match; auto using inv_nearest with inv. Qed.

Lemma inv_builtin d X id : inv d X (builtin_result E id).
Proof. unfold builtin_result, loadBuiltinModule. repeat case_match; auto with inv. Qed.

(** The cached module that is handed out. *)
Lemma inv_cached d X parent f m :
  triple (fun s => J d X s /\ _cache s !! f = Some m) (cached_exports E parent m) (fun _ => J d X).
Proof.
  unfold cached_exports. eapply (triple_bind _ _ _ (fun _ => J d X)).
  - apply triple_modify. intros s [[HI HX] Hc]. split; [by eapply stable_child|by apply updateChildren_allocated].
  - intros _. apply inv_bind; [auto with inv|]. intros [|]; [auto with inv|apply inv_circular].
Qed.

Lemma inv_relative d X parent key : inv d X (from_relative_cache E parent key).
Proof.
  unfold from_relative_cache. destruct parent; [auto with inv..|]. apply inv_bind; [auto with inv|].
  intros [f|]; [|auto with inv].
  eapply (triple_bind _ _ _ (fun o s => J d X s /\ _cache s !! f = o)); [by apply triple_gets|].
  intros [c|].
  - eapply (triple_bind _ _ _ (fun _ => J d X)); [|auto with inv].
    eapply triple_weaken; [apply (inv_cached d X _ f)|done|]. by intros [?|?].
  - eapply (triple_bind _ _ _ (fun _ => J d X)); [|auto with inv].
    apply triple_modify. intros s [[HI HX] _]. split; [by apply stable_relative|done].
Qed.

(** ** Programs *)

Section WithLoad.
Context (load : jsstr -> parent_arg -> bool -> L jsval).
Context (Hload : forall d X request parent isMain, parent_in X parent -> inv d X (load request parent isMain)).

Lemma inv_require d X m id : m ∈ X -> inv d X (prototype_require load m id).
Proof.
  intros Hm. unfold prototype_require. apply inv_bind; [auto with inv|]. intros x.
  destruct (bool_decide _); [auto with inv|].
  eapply (triple_bind _ _ _ (fun _ => J (d + 1) X)).
  - apply triple_modify. intros s [HI HX]. split; [by apply stable_deeper|done].
  - intros _. apply triple_finally. eapply triple_weaken; [by apply Hload|done|].
    intros r s [HI HX]. split; [by apply stable_back|done].
Qed.

Lemma inv_exec b : (deletes = true \/ no_delete b) -> forall d X m, m ∈ X -> inv d X (exec load m b).
Proof.
  induction b as [|e|from id k IH|request parent isMain k IH|v k IH|f c k IH|f k IH]; intros Hok d X m Hm; cbn [exec].
  - auto with inv.
  - auto with inv.
  - eapply (triple_bind _ _ _ (fun p s => J d X s /\ is_Some (heap s !! p))).
    { apply triple_gets. intros s [HI HX]. split; [done|]. unfold held. destruct from as [p|]; cbn; [|by eapply allocated_held].
      case_bool_decide; [done|by eapply allocated_held]. }
    intros p. apply (triple_weaken (J d (p :: X)) _ _ (fun _ => J d X) _); [|intros s [[HI HX] Hp]; split; [done|by constructor]|done].
    eapply triple_attempt; [apply inv_require; by left|]. intros r.
    assert (deletes = true \/ no_delete (k r)) as Hr by (destruct Hok as [?|Hok]; [by left|right; apply Hok]).
    eapply triple_weaken; [apply (IH r Hr d X m Hm)|by intros s [HI [_ HX]%Forall_cons]|done].
  - eapply (triple_bind _ _ _ (fun p s => J d X s /\ forall q, p = PModule q -> is_Some (heap s !! q))).
    { apply triple_gets. intros s [HI HX]. split; [done|]. intros q. unfold held_parent. destruct parent; [done..|].
      case_bool_decide; [|done]. by intros [= ->]. }
    intros p. set (Y := match p with PModule q => q :: X | _ => X end).
    apply (triple_weaken (J d Y) _ _ (fun _ => J d X) _); [| |done].
    + eapply triple_attempt; [apply Hload|]. { unfold Y. destruct p; [done..|by left]. }
      intros r. assert (deletes = true \/ no_delete (k r)) as Hr by (destruct Hok as [?|Hok]; [by left|right; apply Hok]).
      eapply triple_weaken; [apply (IH r Hr d X m Hm)| |done].
      intros s [HI HX]. split; [done|]. unfold Y in HX. destruct p; [done..|]. by apply Forall_cons in HX as [_ ?].
    + intros s [[HI HX] Hp]. split; [done|]. unfold Y. destruct p; [done..|]. constructor; [by apply Hp|done].
  - apply inv_bind; [|intros _; by apply IH]. apply inv_update. intros. by apply stable_exports.
  - eapply (triple_bind _ _ _ (fun c s => J d X s /\ forall q, c = Some q -> is_Some (heap s !! q))).
    { apply triple_gets. intros s HJ. split; [done|]. unfold held. intros q. case_bool_decide; [|done]. by intros [= ->]. }
    intros c'. eapply (triple_bind _ _ _ (fun _ => J d X)); [|intros _; by apply IH].
    apply triple_modify. intros s [[HI HX] Hc]. destruct c' as [c'|]; [|done].
    split; [apply stable_set; [done|by apply Hc]|done].
  - destruct Hok as [Hd|[]]. apply inv_bind; [|intros _; apply IH; [by left|done]].
    apply inv_modify; [|done]. intros s HI _. by apply stable_delete.
Qed.

Lemma inv_compile d X m content filename format : m ∈ X -> inv d X (_compile E load m content filename format).
Proof.
  intros Hm. unfold _compile. eapply (triple_bind _ _ _ (fun c s => J d X s /\ compile E filename content format = Ok c)).
  { apply triple_lift. intros s HJ. by destruct (compile E filename content format). }
  intros [isM prog]. apply triple_pure. intros Hc.
  assert (deletes = true \/ no_delete prog) as Hok by (by eapply Hprog).
  destruct isM; [by apply inv_exec|]. apply inv_bind; [auto with inv|]. intros _.
  apply inv_bind; [apply inv_stat; by right|]. intros _. apply inv_bind; [by apply inv_exec|]. intros _.
  apply inv_stat. by left.
Qed.

Lemma inv_extension d X ext m filename : m ∈ X -> inv d X (run_extension E load ext m filename).
Proof.
  intros Hm. unfold run_extension. case_bool_decide.
  { unfold extension_js. apply inv_bind; [apply inv_format|]. intros format. apply inv_bind; [auto with inv|].
    intros source. destruct (_ && _); [auto with inv|by apply inv_compile]. }
  case_bool_decide.
  { unfold extension_json. apply inv_bind; [auto with inv|]. intros content.
    destruct (JSON_parse E _); [|auto with inv]. apply inv_update. intros. by apply stable_exports. }
  case_bool_decide; [|apply inv_exec; [apply Hprog|done]].
  unfold extension_node. apply inv_bind; [auto with inv|]. intros [v|]; [|auto with inv].
  apply inv_update. intros. by apply stable_exports.
Qed.

Lemma inv_prototype_load d X m filename : m ∈ X -> inv d X (prototype_load E load m filename).
Proof.
  intros Hm. unfold prototype_load. apply inv_bind; [auto with inv|]. intros [|]; [auto with inv|].
  apply inv_bind; [apply inv_update; intros; by apply stable_filename|]. intros _.
  apply inv_bind; [auto with inv|]. intros own. apply inv_bind; [destruct own; auto with inv|]. intros paths.
  apply inv_bind; [apply inv_update; intros; by apply stable_paths|]. intros _.
  apply inv_bind; [auto with inv|]. intros ext. apply inv_bind; [by apply inv_extension|]. intros _.
  apply inv_update. intros. by apply stable_loaded.
Qed.

Lemma started_allocated X parent key f path isMain s :
  allocated X s -> allocated (next s :: X) (started parent key f path isMain s).
Proof.
  intros HX. unfold started. cbv zeta.
  assert (forall t, allocated (next s :: X) t -> allocated (next s :: X)
            (if has_parent parent then set_relative (<[key := f]> (relativeResolveCache t)) t else t)) as Hrel
    by (intros t Ht; by destruct (has_parent parent)).
  apply Hrel. set (t := State _ _ _ _ _ _ _ _ _).
  assert (allocated (next s :: X) t) as Ht.
  { constructor; [unfold t; cbn; rewrite lookup_insert_eq; by eexists|].
    eapply Forall_impl; [apply (updateChildren_allocated X parent (next s) false s HX)|].
    intros x Hx. unfold t. cbn [heap]. destruct (decide (next s = x)) as [<-|Hne].
    - rewrite lookup_insert_eq. by eexists.
    - by rewrite lookup_insert_ne. }
  destruct isMain; [|exact Ht]. apply (allocated_update (next s :: X) (next s) as_main). exact Ht.
Qed.

Lemma inv_load_new d X parent key f isMain :
  parent_in X parent ->
  triple (fun s => J d X s /\ _cache s !! f = None) (load_new E load parent key f isMain) (fun _ => J d X).
Proof.
  intros Hp s s' r [[HI HX] Hc]. rewrite load_new_started.
  destruct (Posix.dirname (VString f)) as [path|e]; [|by intros [= <- <-]]. cbv zeta.
  assert (J d (next s :: X) (started parent key f path isMain s)) as HJ.
  { split; [|by apply started_allocated]. apply stable_start; [done..|]. intros p ->. by eapply allocated_held. }
  generalize dependent (started parent key f path isMain s). intros s1 HJ. set (m := next s) in *.
  revert s1 s' r HJ. match goal with |- forall s1 s' r, _ -> ?n s1 = _ -> _ => change (triple (J d (m :: X)) n (fun _ => J d X)) end.
  eapply (triple_bind _ _ _ (fun _ => J d X)).
  - apply triple_on_throw. eapply triple_weaken; [apply inv_prototype_load; by left|done|].
    intros [a|e] s1 [HI1 HX1]; apply Forall_cons in HX1 as [_ HX1]; [done|].
    split; [by eapply (stable_fail _ _ _ _ s)|]. unfold forget. cbv zeta. destruct parent; [done..|]. by apply allocated_update.
  - intros _. apply inv_bind; [auto with inv|]. intros v. apply inv_bind; [|auto with inv].
    apply inv_modify; intros s1 H1; destruct (_ && _); try done. intros _. by apply stable_circular.
Qed.

Lemma inv_step d X request parent isMain : parent_in X parent -> inv d X (load_step E load request parent isMain).
Proof.
  intros Hp. unfold load_step. apply inv_bind; [auto with inv|]. intros key.
  apply inv_bind; [apply inv_relative|]. intros [v|]; [auto with inv|].
  apply inv_bind.
  { unfold resolveForCJS. repeat case_match; auto with inv. apply inv_bind; [auto with inv|]. intros p.
    apply inv_resolver. intros. by eapply stable_resolve. }
  intros f.
  apply inv_bind; [destruct (startsWith request node_scheme); [apply inv_builtin|auto with inv]|].
  intros [v|]; [auto with inv|].
  eapply (triple_bind _ _ _ (fun o s => J d X s /\ _cache s !! f = o)); [by apply triple_gets|].
  intros [c|]; [apply (inv_cached d X _ f)|].
  eapply (triple_bind _ _ _ (fun _ s => J d X s /\ _cache s !! f = None)).
  - destruct (canBeRequiredWithoutScheme f); [|by apply triple_ret].
    unfold builtin_result, loadBuiltinModule.
    eapply (triple_bind _ _ _ (fun _ s => J d X s /\ _cache s !! f = None)).
    + destruct (canBeRequiredByUsers f); [apply triple_lift|apply triple_throw]; intros s [H1 H2]; [|done].
      by destruct (builtin_exports E f).
    + intros v. by apply triple_ret.
  - intros [v|]; [|by apply inv_load_new]. apply triple_ret. by intros s [? _].
Qed.
End WithLoad.

(** Every load keeps the invariant. *)
Theorem inv_load n : forall d X request parent isMain,
  parent_in X parent -> inv d X (_load E n request parent isMain).
Proof.
  induction n as [|n IH]; intros d X request parent isMain Hp; [by intros s s' r|].
  cbn [_load]. by apply inv_step.
Qed.
End Invariant.
