(* ===== verification/CjsSample.v ===== *)
(** * An example for the CommonJS loader

    A directory with modules that require each other in a cycle, one that fails,
    and one that replaces its exports after a cycle. *)

From Stdlib Require Import QArith.
From S2P Require Import Prelude Effects JsString Realm Path Url RegExp PackageJson PathPosix EsmResolve CjsResolve CjsLoad.
From S2P Require Import PackageJsonFacts.
Import PackageJson CjsLoad.
#[local] Open Scope Z_scope.

Module CjsSample.

Definition files : list jsstr :=
  ["/a/index.js"; "/a/b.js"; "/a/fail.js"; "/a/swap.js"; "/a/peek.js"; "/a/twice.js"]%js.

(** No package.json, and no URL that can be parsed. *)
Definition native : env :=
  Env (fun _ _ => None) (fun _ _ _ => None) (fun _ => None) (Sample.stat files) (fun _ => Ok None)
    (fun _ => inr "/package.json"%js) None (fun _ => Ok JNull).

Definition cjs : Cjs.cenv :=
  Cjs.CEnv (Esm.REnv native (fun _ => None) (fun _ _ _ => Ok 7) (fun p => Ok p) (fun _ => None) false (Ok "/"%js) 10)
    false false [".js"; ".json"; ".node"]%js [].

Definition failure : jserror := JsError "E_FAIL" [].

(** The module bodies. *)
Definition program (filename : jsstr) : body :=
  let require (request : jsstr) (k : result jsval -> body) := Require None (VString request) k in
  if bool_decide (filename = "/a/index.js"%js) then require "./b" (fun _ => SetExports (VNumber 1) Done)
  else if bool_decide (filename = "/a/b.js"%js) then require "./index" (fun _ => Done)
  else if bool_decide (filename = "/a/fail.js"%js) then require "./b" (fun _ => Fail failure)
  else if bool_decide (filename = "/a/swap.js"%js) then require "./peek" (fun _ => SetExports (VNumber 2) Done)
  else if bool_decide (filename = "/a/peek.js"%js) then require "./swap" (fun _ => Done)
  else require "./fail" (fun _ => require "./fail" (fun _ => Done)).

Definition loader : lenv :=
  LEnv cjs (fun _ => false) false true (fun _ => Ok (VObject 1)) (fun _ _ => Ok []) (fun f _ _ => Ok (false, program f))
    (fun _ => Ok VNull) (fun _ => Ok None) (fun _ _ => Done)
    (fun v => match v with VObject _ => true | _ => false end).

Definition start : state := initial (Cjs.State (Esm.State [] []) ∅ ∅ None).

Definition run (request : jsstr) : option (state * result jsval) := _load loader 10 request PNull true start.
End CjsSample.
