(* ===== verification/CjsLoadClaims.v ===== *)
(** * Loading CommonJS modules: the theorems *)

From Stdlib Require Import QArith.
From S2P Require Import Prelude Effects JsString Realm Path Url RegExp PackageJson PathPosix EsmResolve CjsResolve CjsLoad.
From S2P Require Import PackageJsonFacts CjsFacts CjsLoadFacts CjsSample.
Import PackageJson CjsLoad.
#[local] Open Scope Z_scope.
#[local] Open Scope effect_scope.

Lemma all_programs E : programs E (fun b => true = true \/ no_delete b).
Proof. split; intros; by left. Qed.

(** The parent of a load exists. *)
Definition parent_held (parent : parent_arg) (s : state) : Prop :=
  forall p, parent = PModule p -> is_Some (heap s !! p).

(** An invariant of the steps is one of [Module._load]. *)
Lemma load_keeps E (I : Z -> state -> Prop) `{!Stable E true I} d n request parent isMain s s' r :
  parent_held parent s -> I d s -> _load E n request parent isMain s = Some (s', r) -> I d s'.
Proof.
  intros Hp HI H. set (X := match parent with PModule p => [p] | _ => [] end).
  eapply (inv_load E true I (all_programs E) n d X); [| |exact H].
  - destruct parent; [done..|by left].
  - split; [done|]. destruct parent as [| |p]; [constructor..|]. constructor; [by apply Hp|constructor].
Qed.

(** ** Depth *)

#[export] Instance depth_stable E : Stable E true (fun d s => requireDepth s = d).
Proof.
  split; try done.
  - intros d s <-. done.
  - intros d s H. cbn. lia.
  - intros d [| |p] m f s; done.
  - intros d [| |p] key f path [|] s <- _ _; done.
  - intros d [| |p] key f s0 s _ _ <-; done.
Qed.

(** Whatever modules do, and however a load ends, [requireDepth] is what it
    was: each [require] that is entered is left once, so the cache of file states
    is opened and closed by outermost modules only. *)
Theorem cjs_depth_balanced E n request parent isMain s s' r :
  parent_held parent s ->
  _load E n request parent isMain s = Some (s', r) -> requireDepth s' = requireDepth s.
Proof. intros Hp H. exact (load_keeps E (fun d s => requireDepth s = d) _ n request parent isMain s s' r Hp eq_refl H). Qed.

(** ** At most once *)

Definition count (e : event) (t : list event) : nat := length (List.filter (fun x => bool_decide (x = e)) t).

Lemma count_snoc e x t : count e (t ++ [x]) = (count e t + if bool_decide (x = e) then 1 else 0)%nat.
Proof. unfold count. rewrite List.filter_app, length_app. cbn. by destruct (bool_decide (x = e)). Qed.

(** A module that was started is in the cache, has failed or was deleted. *)
Definition accounted (c : gmap jsstr positive) (t : list event) : Prop :=
  forall f, (count (EvStart f) t <=
    count (EvFailed f) t + count (EvDeleted f) t + if bool_decide (is_Some (c !! f)) then 1 else 0)%nat.

Lemma accounted_insert c t f m : accounted c t -> accounted (<[f := m]> c) t.
Proof.
  intros H g. specialize (H g). destruct (decide (f = g)) as [<-|Hne].
  - rewrite lookup_insert_eq, (bool_decide_eq_true_2 (is_Some (Some m))) by by eexists. case_bool_decide; lia.
  - by rewrite lookup_insert_ne.
Qed.

Lemma accounted_start c t f m : c !! f = None -> accounted c t -> accounted (<[f := m]> c) (t ++ [EvStart f]).
Proof.
  intros Hc H g. specialize (H g). rewrite !count_snoc.
  rewrite (bool_decide_eq_false_2 (EvStart f = EvFailed g)), (bool_decide_eq_false_2 (EvStart f = EvDeleted g)) by done.
  destruct (decide (f = g)) as [<-|Hne].
  - rewrite lookup_insert_eq, (bool_decide_eq_true_2 (is_Some (Some m))) by by eexists.
    rewrite Hc, (bool_decide_eq_false_2 (is_Some None)) in H by (by intros [? ?]).
    rewrite bool_decide_eq_true_2 by done. lia.
  - rewrite lookup_insert_ne by done. rewrite (bool_decide_eq_false_2 (EvStart f = EvStart g)) by congruence. lia.
Qed.

Lemma accounted_delete c t f e :
  e = EvFailed f \/ e = EvDeleted f -> accounted c t -> accounted (delete f c) (t ++ [e]).
Proof.
  intros He H g. specialize (H g). rewrite !count_snoc.
  rewrite (bool_decide_eq_false_2 (e = EvStart g)) by (destruct He; congruence).
  destruct (decide (f = g)) as [<-|Hne].
  - rewrite lookup_delete_eq, (bool_decide_eq_false_2 (is_Some None)) by (by intros [? ?]).
    destruct He as [->| ->]; repeat case_bool_decide; done || lia.
  - rewrite lookup_delete_ne by done. lia.
Qed.

#[export] Instance accounted_stable E : Stable E true (fun _ s => accounted (_cache s) (trace s)).
Proof.
  split; try done.
  - intros d [| |p] m f s; done.
  - intros d f m s H _. by apply accounted_insert.
  - intros d f s _ H. apply accounted_delete; [by right|done].
  - intros d parent key f path isMain s H Hc _.
    unfold started. destruct parent, isMain; cbn -[accounted]; by apply accounted_start.
  - intros d [| |p] key f s0 s _ _ H; (apply accounted_delete; [by left|done]).
Qed.

(** C20. The code of a file is started again only after a load of it failed or it
    was deleted from [Module._cache]: in whatever order modules require each
    other, delete entries of the cache and catch exceptions, the number of
    starts of a file exceeds that of its failures and deletions by one at most,
    and only while it is in the cache. *)
Theorem cjs_started_once E n request parent isMain s s' r :
  parent_held parent s -> accounted (_cache s) (trace s) ->
  _load E n request parent isMain s = Some (s', r) -> accounted (_cache s') (trace s').
Proof.
  intros Hp HI H. exact (load_keeps E (fun _ s => accounted (_cache s) (trace s)) 0 n request parent isMain s s' r Hp HI H).
Qed.

(** ** Records *)

(** The modules of the cache, of lists of children and of parents exist; a module
    is listed once by its parent, and is younger than it. *)
Record wf (s : state) : Prop := {
  wf_next : forall m r, heap s !! m = Some r -> (m < next s)%positive;
  wf_cache : forall f m, _cache s !! f = Some m -> is_Some (heap s !! m);
  wf_children : forall m r, heap s !! m = Some r ->
    NoDup (m_children r) /\ Forall (fun c => is_Some (heap s !! c)) (m_children r);
  wf_parent : forall m r p, heap s !! m = Some r -> m_parent r = Some p -> (p < m)%positive /\ is_Some (heap s !! p);
  wf_main : forall m, mainModule s = Some m -> is_Some (heap s !! m);
}.

Lemma wf_ext s t :
  _cache t = _cache s -> heap t = heap s -> next t = next s -> mainModule t = mainModule s -> wf s -> wf t.
Proof. intros E1 E2 E3 E4 [W1 W2 W3 W4 W5]. split; rewrite ?E1, ?E2, ?E3, ?E4; done. Qed.

Lemma alter_alive (h : gmap positive module_) m f x : is_Some (alter f m h !! x) <-> is_Some (h !! x).
Proof.
  destruct (decide (m = x)) as [->|Hne]; [rewrite lookup_alter_eq; apply fmap_is_Some|by rewrite lookup_alter_ne].
Qed.

Lemma wf_update m f s :
  (forall r, heap s !! m = Some r -> m_parent (f r) = m_parent r /\ NoDup (m_children (f r)) /\
     Forall (fun c => is_Some (heap s !! c)) (m_children (f r))) ->
  wf s -> wf (update_mod m f s).
Proof.
  intros Hf [W1 W2 W3 W4 W5].
  assert (forall x r', alter f m (heap s) !! x = Some r' ->
    exists r, heap s !! x = Some r /\ m_parent r' = m_parent r /\
      NoDup (m_children r') /\ Forall (fun c => is_Some (heap s !! c)) (m_children r')) as Hx.
  { intros x r' H. destruct (decide (m = x)) as [->|Hne].
    - rewrite lookup_alter_eq in H. apply fmap_Some in H as (r & Hr & ->). exists r. split; [done|]. by apply Hf.
    - rewrite lookup_alter_ne in H by done. exists r'. split_and!; [done..|by eapply W3|by eapply W3]. }
  split; cbn.
  - intros x r' (r & Hr & _)%Hx. by eapply W1.
  - intros g x Hg. apply alter_alive. by eapply W2.
  - intros x r' (r & Hr & _ & Hn & Hc)%Hx. split; [done|]. eapply Forall_impl; [exact Hc|]. intros c. apply alter_alive.
  - intros x r' p (r & Hr & Hp & _)%Hx Hpar. rewrite alter_alive. rewrite Hp in Hpar. by eapply W4.
  - intros x Hm. apply alter_alive. by apply W5.
Qed.

(** An update that leaves children and parent. *)
Lemma wf_field m f s :
  (forall r, m_parent (f r) = m_parent r /\ m_children (f r) = m_children r) -> wf s -> wf (update_mod m f s).
Proof.
  intros Hf W. apply wf_update; [|done]. intros r Hr. destruct (Hf r) as [-> ->]. split; [done|]. by eapply wf_children.
Qed.

Lemma wf_set_cache c s : (forall f m, c !! f = Some m -> is_Some (heap s !! m)) -> wf s -> wf (set_cache c s).
Proof. intros Hc [W1 W2 W3 W4 W5]. by split. Qed.

Lemma remove_first_spec m l : NoDup l -> NoDup (remove_first m l) /\ m ∉ remove_first m l /\ remove_first m l ⊆ l.
Proof.
  induction 1 as [|x l Hx Hl (IH1 & IH2 & IH3)]; cbn; [split_and!; [constructor|apply not_elem_of_nil|done]|].
  destruct (decide (x = m)) as [->|Hne]; [split_and!; [done..|set_solver]|].
  split_and!; [constructor; [set_solver|done]|set_solver|set_solver].
Qed.

Lemma wf_append p m scan s :
  is_Some (heap s !! m) -> (scan = false -> forall r, heap s !! p = Some r -> m ∉ m_children r) ->
  wf s -> wf (updateChildren (PModule p) m scan s).
Proof.
  intros Hm Hscan W. apply wf_update; [|done]. intros r Hr. destruct (wf_children s W p r Hr) as [Hn Hc].
  destruct (scan && bool_decide (m ∈ m_children r)) eqn:E; [done|]. cbn. split; [done|]. split.
  - apply NoDup_app. split_and!; [done| |apply NoDup_singleton]. intros x Hx ->%list_elem_of_singleton.
    destruct scan; [cbn in E; by bool_hyps|]. by eapply Hscan.
  - apply Forall_app. split; [done|]. by apply Forall_singleton.
Qed.

Lemma wf_remove p m s : wf s -> wf (removeChild (PModule p) m s).
Proof.
  intros W. apply wf_update; [|done]. intros r Hr. destruct (wf_children s W p r Hr) as [Hn Hc].
  destruct (remove_first_spec m (m_children r) Hn) as (H1 & _ & H3). cbn. split_and!; [done..|].
  apply Forall_forall. intros x Hx. rewrite Forall_forall in Hc. apply Hc. by apply H3.
Qed.

(** The record of a new module. *)
Lemma wf_new_module f path parent s :
  (forall p, parent = Some p -> is_Some (heap s !! p)) -> wf s ->
  let m := next s in
  wf (State (resolver s) (_cache s) (<[m := Mod f path (VObject m) None false [] parent None false]> (heap s))
        (Pos.succ m) (relativeResolveCache s) (mainModule s) (requireDepth s) (circular s) (trace s)).
Proof.
  intros Hp [W1 W2 W3 W4 W5] m. assert (heap s !! m = None) as Hm.
  { destruct (heap s !! m) eqn:E; [|done]. apply W1 in E. unfold m in E. lia. }
  assert (forall x (y : module_), is_Some (heap s !! x) -> is_Some (<[m := y]> (heap s) !! x)) as Halive.
  { intros x y Hx. destruct (decide (m = x)) as [<-|Hne]; [rewrite lookup_insert_eq; by eexists|by rewrite lookup_insert_ne]. }
  split; cbn.
  - intros x r H. destruct (decide (m = x)) as [<-|Hne]; [lia|]. rewrite lookup_insert_ne in H by done. apply W1 in H. unfold m. lia.
  - intros g x Hg. apply Halive; by eapply W2.
  - intros x r H. destruct (decide (m = x)) as [<-|Hne].
    + rewrite lookup_insert_eq in H. injection H as <-. split; constructor.
    + rewrite lookup_insert_ne in H by done. destruct (W3 x r H) as [Hn Hc]. split; [done|].
      eapply Forall_impl; [exact Hc|]. intros c Hc'. by apply Halive.
  - intros x r p H Hpar. destruct (decide (m = x)) as [<-|Hne].
    + rewrite lookup_insert_eq in H. injection H as <-. cbn in Hpar. destruct (Hp p Hpar) as [r' Hr'].
      split; [by eapply W1|apply Halive; by eexists].
    + rewrite lookup_insert_ne in H by done. destruct (W4 x r p H Hpar). split; [done|]. by apply Halive.
  - intros x H. apply Halive; by apply W5.
Qed.

Lemma wf_fresh s p r : wf s -> heap s !! p = Some r -> next s ∉ m_children r.
Proof.
  intros W Hr Hin. destruct (wf_children s W p r Hr) as [_ Hc]. rewrite Forall_forall in Hc.
  destruct (Hc _ Hin) as [x Hx]. apply (wf_next s W) in Hx. lia.
Qed.

Lemma wf_started parent key f path isMain s :
  parent_held parent s -> wf s -> wf (started parent key f path isMain s).
Proof.
  intros Hp W. set (m := next s). set (par := parent_module parent).
  set (t := State (resolver s) (_cache s) (<[m := Mod f path (VObject m) None false [] par None false]> (heap s))
        (Pos.succ m) (relativeResolveCache s) (mainModule s) (requireDepth s) (circular s) (trace s)).
  assert (wf t) as Wt.
  { apply wf_new_module; [|done]. unfold par. destruct parent; [done..|]. intros p [= <-]. by apply Hp. }
  assert (heap t !! m = Some (Mod f path (VObject m) None false [] par None false)) as Hm by apply lookup_insert_eq.
  set (u := updateChildren parent m false t).
  assert (wf u /\ is_Some (heap u !! m)) as [Wu Hu].
  { unfold u. destruct parent as [| |p]; [by split; [|eexists]..|]. split; [|apply alter_alive; by eexists].
    apply wf_append; [by eexists| |done]. intros _ r Hr. destruct (Hp p eq_refl) as [x Hx].
    assert (m <> p) as Hne by (intros Heq; rewrite <- Heq in Hx; apply (wf_next s W) in Hx; unfold m in Hx; lia).
    unfold t in Hr. cbn in Hr. rewrite lookup_insert_ne in Hr by done. by eapply wf_fresh. }
  set (v := if isMain then update_mod m as_main (set_main m u) else u).
  assert (wf v /\ is_Some (heap v !! m)) as [Wv Hv].
  { unfold v. destruct isMain; [|done]. split; [|by apply alter_alive]. apply wf_field; [done|].
    destruct Wu as [W1 W2 W3 W4 W5]. split; try done. cbn. by intros x [= <-]. }
  apply (wf_ext (set_cache (<[f := m]> (_cache v)) v)).
  - unfold started, v, u. by destruct parent, isMain.
  - unfold started, v, u. destruct parent as [| |p], isMain; try done; cbn;
      (destruct (Hp p eq_refl) as [x Hx];
       assert (m <> p) as Hne by (intros Heq; rewrite <- Heq in Hx; apply (wf_next s W) in Hx; unfold m in Hx; lia);
       by rewrite (alter_insert_ne _ p) by done).
  - unfold started, v, u. by destruct parent, isMain.
  - unfold started, v, u. by destruct parent, isMain.
  - apply wf_set_cache; [|done]. intros g x Hg. destruct (decide (f = g)) as [<-|Hne].
    + rewrite lookup_insert_eq in Hg. by injection Hg as <-.
    + rewrite lookup_insert_ne in Hg by done. by eapply wf_cache.
Qed.

Lemma wf_delete f s : wf s -> forall e, wf (log e (set_cache (delete f (_cache s)) s)).
Proof.
  intros W e. apply (wf_ext (set_cache (delete f (_cache s)) s)); [done..|]. apply wf_set_cache; [|done].
  intros g m Hg. apply lookup_delete_Some in Hg as [_ Hg]. by eapply wf_cache.
Qed.

#[export] Instance wf_stable E : Stable E true (fun _ => wf).
Proof.
  split.
  - intros d request p isMain s t r W _. by apply (wf_ext s).
  - intros d f s t r W _. by apply (wf_ext s).
  - intros d c s _ W. by apply (wf_ext s).
  - intros d c s W. by apply (wf_ext s).
  - intros d c s W. by apply (wf_ext s).
  - intros d m v s. by apply wf_field.
  - intros d m f s. by apply wf_field.
  - intros d m p s. by apply wf_field.
  - intros d m s. by apply wf_field.
  - intros d s W. by apply (wf_ext s).
  - intros d s W. by apply (wf_ext s).
  - intros d [| |p] m f s W Hc; [done..|]. apply wf_append; [by eapply wf_cache|done|done].
  - intros d f m s W Hm. apply wf_set_cache; [|done]. intros g x Hg. destruct (decide (f = g)) as [<-|Hne].
    + rewrite lookup_insert_eq in Hg. by injection Hg as <-.
    + rewrite lookup_insert_ne in Hg by done. by eapply wf_cache.
  - intros d f s _ W. by apply wf_delete.
  - intros d parent key f path isMain s W _ Hp. by apply wf_started.
  - intros d parent key f s0 s _ _ W. unfold forget. cbv zeta. pose proof (wf_delete f s W (EvFailed f)) as Wd.
    destruct parent as [| |p]; cbn [has_parent]; [done| |].
    + by apply (wf_ext (log (EvFailed f) (set_cache (delete f (_cache s)) s))).
    + apply wf_remove. by apply (wf_ext (log (EvFailed f) (set_cache (delete f (_cache s)) s))).
Qed.

(** C21. The records of the loader stay well formed, whatever modules require,
    export, throw, and put in or delete from [Module._cache], as long as they do
    not assign [module.parent] nor change [module.children] by hand: the modules
    in [Module._cache], in lists of children and named as parents exist, no list
    names a child twice, and a parent is older than its child, so that the
    chain of parents of an error message ends. *)
Theorem cjs_modules_wellformed E n request parent isMain s s' r :
  parent_held parent s -> wf s -> _load E n request parent isMain s = Some (s', r) -> wf s'.
Proof. intros Hp W H. exact (load_keeps E (fun _ => wf) 0 n request parent isMain s s' r Hp W H). Qed.

(** ** Failure *)

(** C22. A module whose load fails leaves no trace: it is not in [Module._cache],
    its request is not in [relativeResolveCache], so that the next [require]
    starts over, and it is not among the children of the module that required
    it, whatever its own requires did before; the records stay well formed. *)
Theorem cjs_failed_load_leaves_no_trace E n parent key f isMain s s' e :
  parent_held parent s -> wf s -> _cache s !! f = None ->
  load_new E (_load E n) parent key f isMain s = Some (s', Throw e) ->
  wf s' /\ _cache s' !! f = None /\
  (forall p r, parent = PModule p -> heap s' !! p = Some r ->
     next s ∉ m_children r /\ (relativeResolveCache s' !! key = None)).
Proof.
  intros Hp W Hc H.
  set (X := match parent with PModule p => [p] | _ => [] end).
  assert (parent_in X parent) as HX by (destruct parent; [done..|by left]).
  assert (J (fun _ => wf) 0 X s) as HJ.
  { split; [done|]. destruct parent as [| |p]; [constructor..|]. constructor; [by apply Hp|constructor]. }
  assert (forall d X request parent isMain, parent_in X parent ->
    triple (J (fun _ => wf) d X) (_load E n request parent isMain) (fun _ => J (fun _ => wf) d X)) as Hload
    by (intros; by apply (inv_load E true _ (all_programs E))).
  assert (wf s') as W' by (eapply (inv_load_new E true _ (all_programs E) (_load E n) Hload 0 X parent key f isMain HX);
                             [|exact H]; done).
  split; [done|]. rewrite load_new_started in H.
  destruct (Posix.dirname (VString f)) as [path|e'] eqn:Hd;
    [|unfold Posix.dirname in Hd; cbn in Hd; by destruct (len f =? 0)]. cbv zeta in H.
  assert (J (fun _ => wf) 0 (next s :: X) (started parent key f path isMain s)) as HJ1.
  { split; [|apply started_allocated; by destruct HJ]. by apply wf_started. }
  unfold bind at 1, on_throw in H.
  destruct (prototype_load E (_load E n) (next s) f (started parent key f path isMain s)) as [[s1 [a|e1]]|] eqn:Hrun;
    [by unfold bind, gets, modify, ret in H| |done].
  injection H as <- <-.
  assert (wf s1) as W1.
  { eapply (inv_prototype_load E true _ (all_programs E) (_load E n) Hload 0 (next s :: X)); [|exact HJ1|exact Hrun]. by left. }
  unfold forget. cbv zeta. split.
  - destruct parent; apply lookup_delete_eq.
  - intros p r -> Hr. cbn in Hr. split; [|apply lookup_delete_eq].
    rewrite lookup_alter_eq in Hr. apply fmap_Some in Hr as (r1 & Hr1 & ->). cbn.
    by apply (remove_first_spec (next s) (m_children r1)), (wf_children s1 W1 p r1).
Qed.

(** ** Examples *)

Lemma no_parent s : parent_held PNull s.
Proof. by intros p. Qed.

Lemma start_accounted : accounted (_cache CjsSample.start) (trace CjsSample.start).
Proof. intros f. cbn. lia. Qed.

Lemma start_wf : wf CjsSample.start.
Proof. by split. Qed.

(** Two modules that require each other. *)
Lemma cjs_depth_balanced_witness :
  exists s', CjsSample.run "/a/index.js" = Some (s', Ok (VNumber 1)) /\
    requireDepth s' = requireDepth CjsSample.start /\ trace s' = [EvStart "/a/index.js"; EvStart "/a/b.js"]%js.
Proof.
  eexists. split; [vm_compute; reflexivity|]. split; [|vm_compute; reflexivity].
  apply (cjs_depth_balanced CjsSample.loader 10 "/a/index.js" PNull true CjsSample.start _ (Ok (VNumber 1)));
    [apply no_parent|vm_compute; reflexivity].
Defined.

(** A module that fails is started again by the next require. *)
Lemma cjs_started_once_witness :
  exists s', CjsSample.run "/a/twice.js" = Some (s', Ok (VObject 1)) /\ accounted (_cache s') (trace s') /\
    count (EvStart "/a/fail.js"%js) (trace s') = 2%nat /\ count (EvFailed "/a/fail.js"%js) (trace s') = 2%nat /\
    count (EvStart "/a/b.js"%js) (trace s') = 1%nat.
Proof.
  eexists. split; [vm_compute; reflexivity|]. split; [|vm_compute; auto].
  apply (cjs_started_once CjsSample.loader 10 "/a/twice.js" PNull true CjsSample.start _ (Ok (VObject 1)));
    [apply no_parent|apply start_accounted|vm_compute; reflexivity].
Defined.

Lemma cjs_modules_wellformed_witness :
  exists s', CjsSample.run "/a/twice.js" = Some (s', Ok (VObject 1)) /\ wf s'.
Proof.
  eexists. split; [vm_compute; reflexivity|].
  apply (cjs_modules_wellformed CjsSample.loader 10 "/a/twice.js" PNull true CjsSample.start _ (Ok (VObject 1)));
    [apply no_parent|apply start_wf|vm_compute; reflexivity].
Defined.

Lemma cjs_failed_load_leaves_no_trace_witness :
  exists s', load_new CjsSample.loader (_load CjsSample.loader 10) PNull "undefined" "/a/fail.js" false CjsSample.start
               = Some (s', Throw CjsSample.failure) /\
    wf s' /\ _cache s' !! "/a/fail.js"%js = None.
Proof.
  eexists. split; [vm_compute; reflexivity|].
  match goal with |- wf ?s' /\ _ =>
    destruct (cjs_failed_load_leaves_no_trace CjsSample.loader 10 PNull "undefined" "/a/fail.js" false CjsSample.start
                s' CjsSample.failure) as (H1 & H2 & _);
      [apply no_parent|apply start_wf|reflexivity|vm_compute; reflexivity|]
  end.
  split; [exact H1|exact H2].
Defined.

(** ** Defects *)

(** The cache of file states is not dropped when the outermost module throws. *)
Lemma cjs_stat_cache_left :
  exists s1 s2, CjsSample.run "/a/index.js" = Some (s1, Ok (VNumber 1)) /\ Cjs.statCache (resolver s1) = None /\
    CjsSample.run "/a/fail.js" = Some (s2, Throw CjsSample.failure) /\ requireDepth s2 = 0 /\
    bool_decide (is_Some (Cjs.statCache (resolver s2))) = true.
Proof. do 2 eexists. split_and!; vm_compute; reflexivity. Qed.

(** The exports handed out in a cycle keep the prototype that warns when the
    module replaces its exports before it is done. *)
Lemma cjs_circular_prototype_left :
  exists s', CjsSample.run "/a/swap.js" = Some (s', Ok (VNumber 2)) /\ circular s' = [VObject 1].
Proof. eexists. split; vm_compute; reflexivity. Qed.
