(* ===== verification/CjsTotal.v ===== *)
(** * Module resolution and loading end

    Both resolvers complete when the search through [node_modules] does, and
    [Module._load] completes with fuel for every file there is, however modules
    require each other. *)

From Stdlib Require Import QArith.
From S2P Require Import Prelude Effects JsString Realm Path Url RegExp PackageJson PathPosix EsmResolve CjsResolve CjsLoad.
From S2P Require Import EsmFacts PackageJsonFacts CjsFacts CjsLoadFacts CjsSample CjsLoadClaims.
Import PackageJson.
#[local] Open Scope Z_scope.
#[local] Open Scope effect_scope.

(** ** ES module resolution *)

Section Esm.
Context (E : Esm.renv).
Import Esm.

Lemma total_warning code args : total (emitWarning code args).
Proof. intros s. by do 2 eexists. Qed.
Lemma total_newURL i b : total (newURL E i b).
Proof. apply total_lift. Qed.
Lemma total_toPath b : total (toPath E b).
Proof. apply total_lift. Qed.
Hint Resolve total_warning total_newURL total_toPath : total.

Lemma total_importedFrom b : total (importedFrom E b).
Proof. unfold importedFrom. destruct (base_truthy b); auto with total. Qed.
Hint Resolve total_importedFrom : total.

Lemma total_trailing m u b : total (emitTrailingSlashPatternDeprecation E m u b).
Proof.
  unfold emitTrailingSlashPatternDeprecation. destruct (noDeprecation E); [auto with total|].
  apply total_bind; [auto with total|]. intros p s. cbv zeta. destruct (bool_decide _); [by do 2 eexists|].
  eapply total_bind; auto with total.
Qed.

Lemma total_segment t r m u i b isT : total (emitInvalidSegmentDeprecation E t r m u i b isT).
Proof. unfold emitInvalidSegmentDeprecation. destruct (noDeprecation E); auto 6 with total. Qed.

Lemma total_index u p pkg b main : total (emitLegacyIndexDeprecation E u p pkg b main).
Proof.
  unfold emitLegacyIndexDeprecation. destruct (noDeprecation E); [auto with total|].
  destruct (negb _); [auto with total|]. apply total_bind; [auto with total|]. intros bp.
  destruct main as [[|c m]|]; [auto with total| |auto with total]. apply total_bind; [auto with total|]. intros full.
  destruct (bool_decide _); auto with total.
Qed.
Hint Resolve total_trailing total_segment total_index : total.

Lemma total_not_defined {A} sp u b : total (importNotDefined (A := A) E sp u b).
Proof. unfold importNotDefined. destruct u; auto 8 with total. Qed.
Lemma total_not_found {A} sp u b : total (exportsNotFound (A := A) E sp u b).
Proof. unfold exportsNotFound. auto 8 with total. Qed.
Lemma total_subpath {A} r m u i b : total (throwInvalidSubpath (A := A) E r m u i b).
Proof. unfold throwInvalidSubpath. auto 8 with total. Qed.
Lemma total_target {A} sp t u i b : total (invalidPackageTarget (A := A) E sp t u i b).
Proof. unfold invalidPackageTarget. auto 8 with total. Qed.
Hint Resolve total_not_defined total_not_found total_subpath total_target : total.

Lemma total_segments u sub m b pattern internal pm checked isT t inv :
  total inv -> total (check_segments E u sub m b pattern internal pm checked isT t inv).
Proof. intros Hi. unfold check_segments. repeat case_match; auto with total. Qed.

Lemma total_targetString pr u sub m b pattern internal pm t :
  (internal = true -> forall x y, total (pr x y)) ->
  total (resolvePackageTargetString E pr u sub m b pattern internal pm t).
Proof.
  intros Hpr. unfold resolvePackageTargetString. destruct (_ && _ && _); [auto with total|].
  destruct (negb (startsWith t "./")).
  { destruct (internal && _ && _ && _) eqn:Hi; [|auto with total]. apply Hpr. by destruct internal. }
  apply total_bind; [apply total_segments; auto with total|]. intros _.
  apply total_bind; [auto with total|]. intros r. apply total_bind; [auto with total|]. intros dir.
  destruct (negb _); [auto with total|]. destruct (bool_decide _); [auto with total|].
  apply total_bind; [apply total_segments; auto with total|]. intros _. destruct pattern; auto with total.
Qed.

Lemma total_resolveTarget pr conditions u sub m b pattern internal pm j :
  (internal = true -> forall x y, total (pr x y)) ->
  total (resolvePackageTarget E pr conditions u sub m b pattern internal pm j).
Proof.
  intros Hpr. induction j as [| | |t|l IH|props IH] using json_rect'; cbn [resolvePackageTarget]; try (auto with total).
  - apply total_bind; [by apply total_targetString|]. auto with total.
  - assert (forall last, total ((fix loop (items : list json) (last : last_exception) : R resolved :=
         match items with
         | [] => match last with LUndefined => ret RUndefined | LNull => ret RNull | LError e => throw e end
         | item :: items =>
             attempt (resolvePackageTarget E pr conditions u sub m b pattern internal pm item) (fun r =>
               match r with
               | Throw e => if bool_decide (err_code e = "ERR_INVALID_PACKAGE_TARGET"%js)
                            then loop items (LError e) else throw e
               | Ok RUndefined => loop items last
               | Ok RNull => loop items LNull
               | Ok (RUrl u) => ret (RUrl u)
               end)
         end) l last)) as Hl by
      (induction IH as [|x l Hx _ IHl]; intros last; [destruct last; auto with total|];
       apply total_attempt; [exact Hx|]; intros [[v| |]|e]; auto with total; destruct (bool_decide _); auto with total).
    destruct l; [auto with total|apply Hl].
  - destruct (numeric_key E props); [auto with total|].
    induction IH as [|[k v] props Hx _ IHp]; [auto with total|].
    destruct (_ || _); [|exact IHp]. apply total_bind; [exact Hx|]. intros [w| |]; auto with total.
Qed.

Lemma total_sugar exp u b : total (isConditionalExportsMainSugar E exp u b).
Proof. unfold isConditionalExportsMainSugar. destruct exp; auto with total. destruct (sugar_loop _ _ _); auto with total. Qed.

Lemma total_exports_match u b request keys : forall x, total (exports_match E u b request keys x).
Proof.
  induction keys as [|key keys IH]; intros x; cbn [exports_match]; [auto with total|].
  destruct (pattern_prefix request key); [|apply IH].
  apply total_bind; [destruct (endsWith request "/"); auto with total|]. intros _. apply IH.
Qed.
Hint Resolve total_sugar total_exports_match : total.

Lemma total_packageExports u sub exp b conditions : total (packageExportsResolve E u sub exp b conditions).
Proof.
  assert (forall r, total (match r with RUrl v => ret v | _ => exportsNotFound E sub u b end)) as Hfin
    by (intros [v| |]; auto with total).
  assert (forall m pattern internal pm, internal = false -> forall s j,
    total (resolvePackageTarget E no_packageResolve conditions u s m b pattern internal pm j)) as Htarget
    by (intros; apply total_resolveTarget; congruence).
  unfold packageExportsResolve. apply total_bind; [auto with total|]. intros sugar. cbv zeta.
  match goal with |- total (match ?x with _ => _ end) => destruct x as [t|] end.
  - apply total_bind; [by apply Htarget|exact Hfin].
  - apply total_bind; [auto with total|]. intros best.
    match goal with |- total (match ?x with _ => _ end) => destruct x as [t|] end; [|auto with total].
    apply total_bind; [by apply Htarget|exact Hfin].
Qed.

Context (Hsearch : forall specifier base, getPackageJSONURL (pj E) (fuel E) specifier base <> None).

Lemma total_packageResolve conditions specifier base : total (packageResolve E conditions specifier base).
Proof.
  unfold packageResolve. destruct (canBeRequiredWithoutScheme specifier); [auto with total|].
  apply total_bind.
  { intros s. unfold lift_fuel. destruct (getPackageJSONURL _ _ _ _) eqn:H; [by do 2 eexists|]. by apply Hsearch in H. }
  intros found. apply total_bind; [auto with total|]. intros c. apply total_bind; [auto with total|]. intros exp.
  match goal with |- total (match ?x with _ => _ end) => destruct x as [e|] end; [apply total_packageExports|].
  destruct (bool_decide _); [|auto with total]. unfold legacyMainResolve.
  repeat (apply total_bind; [auto with total|]; intros ?). auto with total.
Qed.

Lemma total_packageImports name base conditions : total (packageImportsResolve E name base conditions).
Proof.
  unfold packageImportsResolve. destruct (_ || _ || _); [auto with total|]. cbv zeta.
  destruct (negb _); [auto with total|]. apply total_bind; [auto with total|]. intros u.
  apply total_bind; [auto with total|]. intros imp.
  assert (forall r, total (match r with RUrl v => ret v | _ => importNotDefined E name (Some u) base end)) as Hfin
    by (intros [v| |]; auto with total).
  match goal with |- total (match ?x with _ => _ end) => destruct x as [t|] end.
  - apply total_bind; [apply total_resolveTarget; intros; apply total_packageResolve|exact Hfin].
  - match goal with |- total (match ?x with _ => _ end) => destruct x as [t|] end; [|auto with total].
    apply total_bind; [apply total_resolveTarget; intros; apply total_packageResolve|exact Hfin].
Qed.
End Esm.

(** ** CommonJS resolution *)

Section Cjs.
Context (E : Cjs.cenv).
Import Cjs.
Context (Hsearch : forall specifier base,
  getPackageJSONURL (Esm.pj (esm E)) (Esm.fuel (esm E)) specifier base <> None).

Lemma total_stat p : total (stat E p).
Proof. intros s. unfold stat. repeat case_match; by do 2 eexists. Qed.
Lemma total_path_resolve l : total (path_resolve E l).
Proof. apply total_lift. Qed.
Lemma total_file_name isMain p : total (file_name E isMain p).
Proof. unfold file_name. destruct (if isMain then _ else _); apply total_lift. Qed.
Lemma total_nearest p : total (nearestPackage E p).
Proof. intros s. unfold nearestPackage. destruct (getNearestParentPackageJSON _ _ _). by do 2 eexists. Qed.
Lemma total_in_esm {A} (m : Esm.R A) : total m -> total (in_esm m).
Proof. apply total_within. Qed.
Hint Resolve total_stat total_path_resolve total_file_name total_nearest total_in_esm : total.

Lemma total_tryFile p isMain : total (tryFile E p isMain).
Proof. unfold tryFile. apply total_bind; [auto with total|]. intros rc. destruct (negb _); auto with total. Qed.
Hint Resolve total_tryFile : total.

Lemma total_tryExtensions base exts isMain : total (tryExtensions E base exts isMain).
Proof.
  induction exts as [|ext exts IH]; cbn [tryExtensions]; [auto with total|].
  apply total_bind; [auto with total|]. intros o. destruct (truthy o); auto with total.
Qed.
Lemma total_orElse a b : total a -> total b -> total (orElse a b).
Proof. intros Ha Hb. unfold orElse. apply total_bind; [done|]. intros o. destruct (truthy o); auto with total. Qed.
Lemma total_readPackage p : total (_readPackage E p).
Proof. unfold _readPackage. auto with total. Qed.
Hint Resolve total_tryExtensions total_orElse total_readPackage : total.

Lemma total_tryPackage p exts isMain orig : total (tryPackage E p exts isMain orig).
Proof.
  unfold tryPackage. apply total_bind; [auto with total|]. intros c. destruct (truthy (p_main c)); [|auto with total].
  apply total_bind; [auto with total|]. intros f. apply total_bind; [auto 8 with total|].
  intros [g|]; [auto with total|]. apply total_bind; [auto with total|]. intros i. apply total_bind; [auto with total|].
  intros o. destruct (truthy o); [|auto with total]. apply total_bind; [|auto with total].
  apply total_in_esm, total_warning.
Qed.

Lemma total_finalize u parent pkg : total (finalizeEsmResolution E u parent pkg).
Proof.
  unfold finalizeEsmResolution. destruct (RegExp.exec _ _); [auto with total|].
  apply total_bind; [auto with total|]. intros f. apply total_bind; [auto with total|]. intros o.
  destruct (truthy o); auto with total.
Qed.
Lemma total_not_found_as {A} err (m : C A) : total m -> total (not_found_as err m).
Proof. intros Hm. unfold not_found_as. apply total_attempt; [done|]. intros [a|e]; auto with total. Qed.
Hint Resolve total_tryPackage total_finalize total_not_found_as total_packageExports : total.

Lemma total_trySelf parentPath request conditions : total (trySelf E parentPath request conditions).
Proof.
  unfold trySelf. destruct (truthy parentPath); [|auto with total]. apply total_bind; [auto with total|].
  intros [pkg|]; [|auto with total]. apply total_bind; [auto with total|]. intros [exp|]; [|auto with total].
  destruct (p_name pkg) as [name|]; [|auto with total]. cbv zeta.
  destruct (if bool_decide (request = name) then _ else _); auto 10 with total.
Qed.

Lemma total_resolveExports nm request conditions : total (resolveExports E nm request conditions).
Proof.
  unfold resolveExports. destruct (EXPORTS_PATTERN request) as [[name x]|]; [|auto with total].
  apply total_bind; [auto with total|]. intros p. apply total_bind; [auto with total|]. intros pkg.
  apply total_bind; [destruct (p_exists pkg); auto with total|]. intros exp.
  destruct (if present exp then exp else None); auto 10 with total.
Qed.

Lemma total_tryImports request parent conditions : total (tryImports E request parent conditions).
Proof.
  unfold tryImports. destruct parent as [p|]; [|auto with total]. destruct (_ && _); [|auto with total].
  apply total_bind; [destruct (filename p); auto with total|]. intros pp. apply total_bind; [auto with total|].
  intros [pkg|]; [|auto with total]. apply total_bind; [auto with total|]. intros imp.
  destruct (present imp); [|auto with total]. apply total_bind; [|auto with total]. apply total_not_found_as.
  apply total_bind; [auto with total|]. intros b. apply total_bind; [|auto with total].
  by apply total_in_esm, total_packageImports.
Qed.
Hint Resolve total_trySelf total_resolveExports total_tryImports : total.

Lemma total_find_in request cur isMain inside absolute conditions :
  total (find_in E request cur isMain inside absolute conditions).
Proof.
  unfold find_in. apply total_bind; [destruct (_ && _); auto with total|]. intros [|]; [auto with total|].
  apply total_bind; [destruct (negb absolute); auto with total|]. intros o. destruct (truthy o); [auto with total|].
  apply total_bind; [auto with total|]. intros base. apply total_bind; [auto with total|]. intros rc.
  apply total_bind.
  { destruct (negb _); [|auto with total]. apply total_orElse; [|auto with total]. destruct (rc =? 0); auto with total. }
  intros f. apply total_bind; [|auto with total]. destruct (truthy f); [auto with total|].
  destruct (rc =? 1); auto with total.
Qed.

Lemma total_findPath request paths isMain conditions : total (_findPath E request paths isMain conditions).
Proof.
  unfold _findPath. apply total_bind; [auto with total|]. intros absolute.
  destruct (if absolute : bool then _ else _) as [|p l]; [auto with total|]. cbv zeta.
  apply total_bind; [auto with total|]. intros [f|]; [auto with total|].
  apply total_bind; [unfold insidePath; destruct (isRelative request); auto with total|]. intros inside.
  generalize (cacheKey request (p :: l)) as key. intros key. generalize (p :: l) as paths'. intros paths'.
  induction paths' as [|q paths' IH]; cbn [find_loop]; [auto with total|].
  apply total_bind; [apply total_find_in|]. intros [[f [|]]|]; auto with total.
Qed.

Lemma total_lookup request parent options : total (lookup_paths E request parent options).
Proof.
  unfold lookup_paths. destruct options as [[|l|]|]; auto with total. destruct (isRelative request); [auto with total|].
  apply total_bind; [|auto with total]. generalize (@nil (list Z)) as acc.
  induction l as [|p l IH]; intros acc; cbn [collect_paths]; [auto with total|].
  apply total_bind; [auto with total|]. intros own. apply total_bind; [auto with total|]. intros [f|]; auto with total.
Qed.

Lemma total_resolveFilename request parent isMain options conditions :
  total (_resolveFilename E request parent isMain options conditions).
Proof.
  unfold _resolveFilename. destruct (bool_decide _); [auto with total|].
  apply total_bind; [apply total_lookup|]. intros paths. apply total_bind; [auto with total|].
  intros [f|]; [auto with total|]. apply total_bind; [auto with total|]. intros o. destruct (truthy o).
  - destruct paths; auto with total.
  - apply total_bind; [apply total_findPath|]. intros x. destruct (truthy x); auto with total.
Qed.
End Cjs.

(** ** Loading *)

Section Loading.
Context (E : CjsLoad.lenv).
Import CjsLoad.
Context (Hsearch : forall specifier base,
  getPackageJSONURL (Esm.pj (Cjs.esm (cj E))) (Esm.fuel (Cjs.esm (cj E))) specifier base <> None).
Context (Hprog : programs E no_delete).
(** The files there are, by their names, and the builtin modules. *)
Context (U : gset jsstr) (HU : forall f, regular_file (cj E) f -> f ∈ U) (HB : forall id, id ∈ allRequirableIds -> id ∈ U).

(** The resolver's caches are sound, and the files of [c] are in the cache. *)
Definition holds (c : gset jsstr) (_ : Z) (s : state) : Prop :=
  sound_caches (cj E) (resolver s) /\ forall f, f ∈ c -> is_Some (_cache s !! f).

Lemma holds_insert c d f m s : holds c d s -> forall g, g ∈ c -> is_Some (<[f := m]> (_cache s) !! g).
Proof.
  intros [_ H] g Hg. destruct (decide (f = g)) as [->|Hne]; [rewrite lookup_insert_eq; by eexists|].
  rewrite lookup_insert_ne by done. by apply H.
Qed.

#[export] Instance holds_stable c : Stable E false (holds c).
Proof.
  split; try done.
  - intros d request p isMain s t r [H1 H2] H. split; [|done]. cbn.
    exact (proj1 (keeps_resolveFilename (cj E) request p isMain None (conditions E) _ _ _ H1 H)).
  - intros d f s t r [H1 H2] H. split; [|done]. cbn.
    exact (proj1 (keeps_nearest (cj E) f _ _ _ H1 H)).
  - intros d x s Hx [[S1 S2] H2]. split; [|done]. split; [done|]. cbn. intros cache f r Hc Hf.
    destruct Hx as [->| ->]; [done|]. injection Hc as <-. by rewrite lookup_empty in Hf.
  - intros d [| |p] m f s H _; done.
  - intros d f m s H _. split; [by destruct H|]. by apply (holds_insert c 0).
  - intros d parent key f path isMain s H _ _. split; [|by destruct parent, isMain; apply (holds_insert c d)].
    destruct H as [H _]. by destruct parent, isMain.
  - intros d parent key f s0 s [_ H0] Hf [H1 H2]. split; [by destruct parent|]. intros g Hg.
    assert (f <> g) as Hne by (intros ->; destruct (H0 g Hg) as [? ?]; congruence).
    destruct parent; cbn; rewrite lookup_delete_ne by done; by apply H2.
Qed.

Lemma programs_kept : programs E (fun b => false = true \/ no_delete b).
Proof. destruct Hprog as [H1 H2]. split; intros; right; [by eapply H1|by apply H2]. Qed.

Lemma total_in_resolver {A} (m : Cjs.C A) : total m -> total (in_resolver m).
Proof. apply total_within. Qed.

(** [m] completes from every state of [P]. *)
Definition halts {A} (P : state -> Prop) (m : L A) : Prop := forall s, P s -> exists s' r, m s = Some (s', r).

Lemma halts_total {A} P (m : L A) : total m -> halts P m.
Proof. intros H s _. apply H. Qed.

Lemma halts_bind {A B} P (m : L A) (k : A -> L B) (R : A -> state -> Prop) :
  halts P m -> triple P m (fun r s => match r with Ok a => R a s | Throw _ => True end) ->
  (forall a, halts (R a) (k a)) -> halts P (bind m k).
Proof.
  intros Hm Ht Hk s HP. destruct (Hm s HP) as (s1 & [a|e] & E1); unfold bind; rewrite E1; [|by do 2 eexists].
  apply Hk. exact (Ht _ _ _ HP E1).
Qed.

Lemma halts_attempt {A B} P (m : L A) (k : result A -> L B) (R : result A -> state -> Prop) :
  halts P m -> triple P m R -> (forall r, halts (R r) (k r)) -> halts P (attempt m k).
Proof.
  intros Hm Ht Hk s HP. destruct (Hm s HP) as (s1 & r & E1). unfold attempt. rewrite E1. apply Hk. exact (Ht _ _ _ HP E1).
Qed.

Abbreviation K c d X := (J (holds c) d X).
Abbreviation inv c d X m := (triple (K c d X) m (fun _ => K c d X)).

Lemma halts_then {A B} c d X (m : L A) (k : A -> L B) :
  halts (K c d X) m -> inv c d X m -> (forall a, halts (K c d X) (k a)) -> halts (K c d X) (bind m k).
Proof.
  intros Hm Ht Hk. eapply (halts_bind _ _ _ (fun _ => K c d X)); [exact Hm| |exact Hk].
  eapply triple_weaken; [exact Ht|done|]. by intros [a|e].
Qed.

Lemma halts_run {A B} c d X (m : L A) (k : A -> L B) :
  total m -> inv c d X m -> (forall a, halts (K c d X) (k a)) -> halts (K c d X) (bind m k).
Proof. intros Hm. apply halts_then. by apply halts_total. Qed.

Section WithLoad.
Context (c : gset jsstr) (load : jsstr -> parent_arg -> bool -> L jsval).
Context (Hinv : forall c d X request parent isMain, parent_in X parent -> inv c d X (load request parent isMain)).
Context (Hhalt : forall d X request parent isMain, parent_in X parent -> halts (K c d X) (load request parent isMain)).

Lemma halts_require d X m id : m ∈ X -> halts (K c d X) (prototype_require load m id).
Proof.
  intros Hm s HK. unfold prototype_require, bind at 1, lift. destruct (validateString id _) as [x|e]; [|by do 2 eexists].
  destruct (bool_decide _); [by do 2 eexists|]. unfold bind, modify.
  destruct (Hhalt d X x (PModule m) false Hm (set_depth (requireDepth s + 1) s)) as (s1 & r & H1); [exact HK|].
  unfold finally. rewrite H1. by do 2 eexists.
Qed.

Lemma halts_exec b : no_delete b -> forall d X m, m ∈ X -> halts (K c d X) (exec load m b).
Proof.
  induction b as [|e|from id k IH|request parent isMain k IH|v k IH|f x k IH|f k IH]; intros Hok d X m Hm; cbn [exec].
  - apply halts_total, total_ret.
  - apply halts_total, total_throw.
  - apply (halts_bind _ _ _ (fun p s => K c d (p :: X) s)); [apply halts_total, total_gets| |].
    { apply triple_gets. intros s [HI HX]. split; [done|]. constructor; [|done]. unfold held.
      destruct from as [p|]; cbn; [case_bool_decide; [done|]|]; by eapply allocated_held. }
    intros p. eapply halts_attempt; [apply halts_require; by left| |].
    { eapply (inv_require E false (holds c) load (Hinv c)). by left. }
    intros r s [HI [_ HX]%Forall_cons]. apply (IH r (Hok r) d X m Hm). by split.
  - apply (halts_bind _ _ _ (fun p s => K c d (match p with PModule q => q :: X | _ => X end) s));
      [apply halts_total, total_gets| |].
    { apply triple_gets. intros s [HI HX]. split; [done|]. unfold held_parent. destruct parent as [| |q]; [done..|].
      case_bool_decide; [by constructor|done]. }
    intros p. eapply halts_attempt; [apply Hhalt| |].
    { destruct p; [done..|by left]. }
    { apply Hinv. destruct p; [done..|by left]. }
    intros r s [HI HX]. apply (IH r (Hok r) d X m Hm). split; [done|]. destruct p; [done..|]. by apply Forall_cons in HX as [_ ?].
  - apply halts_run; [apply total_modify| |intros _; by apply IH].
    apply (inv_update (holds c)). intros s H. exact H.
  - eapply (halts_bind _ _ _ (fun _ => K c d X)); [apply halts_total, total_gets|by apply triple_gets|]. intros y.
    eapply (halts_bind _ _ _ (fun _ => K c d X)); [apply halts_total, total_modify| |intros _; by apply IH].
    apply triple_modify. intros s [HI HX]. destruct y as [y|]; [|done]. split; [|done].
    split; [by destruct HI|]. by apply (holds_insert c 0).
  - done.
Qed.

Lemma halts_compile d X m content filename format :
  m ∈ X -> halts (K c d X) (_compile E load m content filename format).
Proof.
  intros Hm s HK. unfold _compile, bind at 1, lift at 1. destruct (compile E filename content format) as [[isM prog]|e] eqn:Hc;
    [|by do 2 eexists]. assert (no_delete prog) as Hok by (by eapply Hprog).
  destruct isM; [by apply halts_exec with (d := d) (X := X)|].
  revert s HK. match goal with |- forall s, _ -> exists s' r, ?n s = _ => change (halts (K c d X) n) end.
  apply halts_run; [apply total_lift|by apply triple_lift|]. intros _.
  apply halts_run; [apply total_modify|apply (inv_stat E false (holds c)); by right|]. intros _.
  apply halts_then; [by apply halts_exec| |intros _; apply halts_total, total_modify].
  apply (inv_exec E false (holds c) load (Hinv c)); [by right|done].
Qed.

Lemma halts_extension d X ext m filename : m ∈ X -> halts (K c d X) (run_extension E load ext m filename).
Proof.
  intros Hm. unfold run_extension. case_bool_decide.
  { unfold extension_js. apply halts_run; [|apply (inv_format E false (holds c))|].
    - unfold js_format, nearest_type. repeat case_match; auto 6 using total_in_resolver, total_nearest with total.
    - intros format. apply halts_run; [apply total_lift|by apply triple_lift|]. intros source.
      destruct (_ && _); [apply halts_total, total_throw|by apply halts_compile]. }
  case_bool_decide.
  { apply halts_total. unfold extension_json. apply total_bind; [apply total_lift|]. intros x. destruct (JSON_parse E _); auto with total. }
  case_bool_decide; [|apply halts_exec; [apply Hprog|done]].
  apply halts_total. unfold extension_node. apply total_bind; [apply total_lift|]. intros [v|]; auto with total.
Qed.

Lemma halts_prototype_load d X m filename : m ∈ X -> halts (K c d X) (prototype_load E load m filename).
Proof.
  intros Hm. unfold prototype_load. apply halts_run; [apply total_gets|by apply triple_gets|].
  intros [|]; [apply halts_total, total_throw|].
  apply halts_run; [apply total_modify|apply (inv_update (holds c)); intros s H; exact H|]. intros _.
  apply halts_run; [apply total_gets|by apply triple_gets|]. intros own.
  apply halts_run; [destruct own; auto with total|destruct own; [by apply triple_ret|]|].
  { apply (inv_bind (holds c)); [by apply triple_lift|]. intros. by apply triple_lift. }
  intros paths. apply halts_run; [apply total_modify|apply (inv_update (holds c)); intros s H; exact H|]. intros _.
  apply halts_run; [apply total_lift|by apply triple_lift|]. intros ext.
  apply halts_then; [by apply halts_extension| |intros _; apply halts_total, total_modify].
  by apply (inv_extension E false (holds c) programs_kept load (Hinv c)).
Qed.
End WithLoad.

Lemma requirable_in id x : normalizeRequirableId id = Some x -> startsWith id node_scheme = false -> id ∈ U.
Proof.
  unfold normalizeRequirableId. intros H Hs. rewrite Hs in H. destruct (builtinSet id) eqn:Hb; [|done]. apply HB.
  unfold builtinSet in Hb. apply elem_of_app. left. by bool_hyps.
Qed.

Lemma resolved_in d c X request parent isMain :
  triple (K c d X) (resolveForCJS E request parent isMain)
    (fun r s => match r with Ok f => K c d X s /\ f ∈ U | Throw _ => True end).
Proof.
  unfold resolveForCJS. destruct (startsWith request node_scheme) eqn:Hs.
  - destruct (normalizeRequirableId request) as [id|] eqn:Hn; [|by apply triple_throw].
    apply triple_ret. intros s HK. split; [done|]. unfold normalizeRequirableId in Hn. rewrite Hs in Hn.
    destruct (allRequirableSet _) eqn:Ha; [|done]. injection Hn as <-. apply HB. unfold allRequirableSet in Ha. by bool_hyps.
  - eapply (triple_bind _ _ _ (fun _ => K c d X)); [by apply triple_gets|]. intros p s s' r HK H.
    unfold in_resolver, within in H.
    destruct (Cjs._resolveFilename (cj E) request p isMain None (conditions E) (resolver s)) as [[t r1]|] eqn:Hr; [|done].
    injection H as <- <-. destruct r1 as [f|]; [|done]. destruct HK as [[Hs1 Hs2] HX].
    destruct (keeps_resolveFilename (cj E) request p isMain None (conditions E) _ _ _ Hs1 Hr) as [Hk Hf].
    split; [split; [by split|done]|]. destruct (Hf f eq_refl) as [[Hn ->]|Hf']; [|by apply HU].
    destruct (normalizeRequirableId request) eqn:Hn'; [by eapply requirable_in|done].
Qed.

Lemma total_cached parent m : total (cached_exports E parent m).
Proof.
  unfold cached_exports. apply total_bind; [apply total_modify|]. intros _. apply total_bind; [apply total_gets|].
  intros [|]; [apply total_gets|]. unfold getExportsForCircularRequire. auto with total.
Qed.

Lemma total_relative parent key : total (from_relative_cache E parent key).
Proof.
  unfold from_relative_cache. destruct parent; auto with total. apply total_bind; [apply total_gets|].
  intros [f|]; [|auto with total]. apply total_bind; [apply total_gets|]. intros [x|]; [|auto with total].
  apply total_bind; [apply total_cached|]. auto with total.
Qed.

Lemma total_builtin id : total (builtin_result E id).
Proof. unfold builtin_result, loadBuiltinModule. apply total_bind; [destruct (canBeRequiredByUsers id)|]; auto with total. Qed.

Lemma total_resolveForCJS request parent isMain : total (resolveForCJS E request parent isMain).
Proof.
  unfold resolveForCJS. repeat case_match; auto with total. apply total_bind; [apply total_gets|]. intros p.
  by apply total_in_resolver, total_resolveFilename.
Qed.

(** Enough fuel: more than the files that may still be started. *)
Lemma halts_load n : forall c d X request parent isMain,
  (size (U ∖ c) < n)%nat -> parent_in X parent -> halts (K c d X) (_load E n request parent isMain).
Proof.
  induction n as [|n IH]; intros c d X request parent isMain Hn Hp; [lia|]. cbn [_load].
  pose proof (fun c d X request parent isMain Hp =>
                inv_load E false (holds c) programs_kept n d X request parent isMain Hp) as Hinv.
  unfold load_step. apply halts_run; [apply total_gets|by apply triple_gets|]. intros key.
  apply halts_run; [apply total_relative|apply (inv_relative E false (holds c))|].
  intros [v|]; [apply halts_total, total_ret|].
  eapply halts_bind; [apply halts_total, total_resolveForCJS|apply resolved_in|]. intros f.
  eapply (halts_bind _ _ _ (fun _ s => K c d X s /\ f ∈ U)).
  { apply halts_total. destruct (startsWith request node_scheme); [apply total_builtin|apply total_ret]. }
  { intros s s' r [HK Hf] H. assert (K c d X s') as HK'.
    { destruct (startsWith request node_scheme); [by apply (inv_builtin E (holds c) d X f _ _ _ HK H)|].
      by injection H as <- <-. }
    by destruct r. }
  intros [v|]; [apply halts_total, total_ret|].
  eapply (halts_bind _ _ _ (fun o s => (K c d X s /\ f ∈ U) /\ _cache s !! f = o));
    [apply halts_total, total_gets|by apply triple_gets|].
  intros [x|]; [apply halts_total, total_cached|].
  eapply (halts_bind _ _ _ (fun _ s => (K c d X s /\ f ∈ U) /\ _cache s !! f = None)).
  { apply halts_total. destruct (canBeRequiredWithoutScheme f); [apply total_builtin|apply total_ret]. }
  { intros s s' r HP H. assert (s' = s) as ->; [|by destruct r].
    destruct (canBeRequiredWithoutScheme f); [|by injection H as <- <-]. unfold builtin_result, loadBuiltinModule in H.
    destruct (canBeRequiredByUsers f); unfold bind, lift, throw, ret in H; [destruct (builtin_exports E f)|]; by injection H as <- <-. }
  intros [v|]; [apply halts_total, total_ret|]. intros s [[HK Hf] Hc]. rewrite load_new_started.
  destruct (Posix.dirname (VString f)) as [path|e]; [|by do 2 eexists]. cbv zeta.
  assert (f ∉ c) as Hfc by (intros Hin; destruct HK as [[_ H2] _]; destruct (H2 f Hin) as [? ?]; congruence).
  assert (K ({[f]} ∪ c) d (next s :: X) (started parent key f path isMain s)) as HK1.
  { destruct HK as [[H1 H2] HX]. split; [|by apply started_allocated]. split; [by destruct parent, isMain|].
    intros g Hg. assert (is_Some (<[f := next s]> (_cache s) !! g)) as Hg'.
    { destruct (decide (f = g)) as [<-|Hne]; [rewrite lookup_insert_eq; by eexists|]. rewrite lookup_insert_ne by done.
      apply H2. set_solver. }
    by destruct parent, isMain. }
  assert (size (U ∖ ({[f]} ∪ c)) < n)%nat as Hsz.
  { enough (size (U ∖ ({[f]} ∪ c)) < size (U ∖ c))%nat by lia. apply subset_size. set_solver. }
  pose proof (halts_prototype_load ({[f]} ∪ c) (_load E n) Hinv
    (fun d X request parent isMain => IH ({[f]} ∪ c) d X request parent isMain Hsz) d (next s :: X) (next s) f
    (list_elem_of_here _ _) _ HK1) as (s1 & r & Hrun).
  unfold bind at 1, on_throw. rewrite Hrun. destruct r as [a|e]; by do 2 eexists.
Qed.
End Loading.

Import CjsLoad.

(** C23. Loading ends: on a file system with finitely many files, and when no
    module deletes from [Module._cache], [Module._load] completes with a result
    or an exception, however modules require each other, in cycles or again after
    a failure.  The recursion is at most as deep as there are files and builtin
    modules.  The programs themselves are finite trees, and the walk of
    [getPackageJSONURL] up the directories, which follows what the native URL
    parser answers, is assumed to end. *)
Theorem cjs_load_terminates (E : lenv) (U : gset jsstr) n request parent isMain s :
  (forall specifier base, getPackageJSONURL (Esm.pj (Cjs.esm (cj E))) (Esm.fuel (Cjs.esm (cj E))) specifier base <> None) ->
  programs E no_delete ->
  (forall f, regular_file (cj E) f -> f ∈ U) -> (forall id, id ∈ allRequirableIds -> id ∈ U) ->
  sound_caches (cj E) (resolver s) -> parent_held parent s -> (size U < n)%nat ->
  exists s' r, _load E n request parent isMain s = Some (s', r).
Proof.
  intros Hsearch Hprog HU HB Hs Hp Hn.
  set (X := match parent with PModule p => [p] | _ => [] end).
  apply (halts_load E Hsearch Hprog U HU HB n ∅ 0 X).
  - by rewrite difference_empty_L.
  - destruct parent; [done..|by left].
  - split; [by split|]. destruct parent as [| |p]; [constructor..|]. constructor; [by apply Hp|constructor].
Qed.

(** The files of the example, and the builtin modules. *)
Definition sample_files : gset jsstr := list_to_set (CjsSample.files ++ allRequirableIds).

Lemma cjs_load_terminates_witness :
  exists s' r, _load CjsSample.loader (S (size sample_files)) "/a/twice.js" PNull true CjsSample.start = Some (s', r).
Proof.
  apply (cjs_load_terminates CjsSample.loader sample_files); [..|lia].
  - intros specifier base H. unfold getPackageJSONURL in H. cbn in H.
    by destruct (parsePackageName CjsSample.native specifier base) as [[[a b] c]|].
  - split; [|done]. intros filename content format b prog [= _ <-]. unfold CjsSample.program.
    repeat (destruct (bool_decide _); [cbn; tauto|]). cbn. tauto.
  - intros f (isMain & p & Hf & Hnamed). unfold sample_files. rewrite elem_of_list_to_set, elem_of_app. left.
    assert (p = f) as <- by (destruct isMain; by injection Hnamed). cbn in Hf. unfold Sample.stat in Hf.
    case_bool_decide; [done|]. by destruct (existsb _ _).
  - intros id Hid. unfold sample_files. rewrite elem_of_list_to_set, elem_of_app. by right.
  - split; [|done]. intros k f. cbn. by rewrite lookup_empty.
  - apply no_parent.
Defined.
