(* ===== verification/Writable.v ===== *)
(** * Writable streams

    Models [libjs-node/internal/streams/writable.js] with
    [internal/streams/destroy.js] and [internal/streams/state.js], for a stream
    that is not a duplex: writing, buffering, corking, ending, finishing,
    destroying and asynchronous construction.

    The flags are bits of the integer [kState].  The buffered writes are an array
    that is shared, between the state, the loop that empties it and the callback
    of a [_writev], so arrays live in a heap.  Functions that are handed to
    [process.nextTick] are a queue of tasks.

    The code the stream calls (its own [_write], [_writev], [_final], [_destroy]
    and [_construct], the callbacks of writes and the listeners of its events)
    is arbitrary: for each call, a tree of calls to the stream, each continued
    with its answer.  Methods are not overridden, and [destroyed] and [writable]
    are not assigned to.  [Buffer.from], [Buffer.isEncoding] and lower case are
    parameters. *)

From Stdlib Require Import QArith.
From S2P Require Import Prelude Effects JsString JsNumber.
#[local] Open Scope Z_scope.
#[local] Open Scope effect_scope.

(** ** Flags *)

Definition has (k m : Z) : bool := negb (Z.land k m =? 0).
(** [k |= m] and [k &= ~m]; all flags are below bit 31. *)
Definition on (k m : Z) : Z := Z.lor k m.
Definition off (k m : Z) : Z := Z.land k (Z.lnot m).
(** [a | b | ...] *)
Definition flags (l : list Z) : Z := fold_right Z.lor 0 l.

Module Writable.

Definition kObjectMode : Z := Z.shiftl 1 0.
Definition kErrorEmitted : Z := Z.shiftl 1 1.
Definition kAutoDestroy : Z := Z.shiftl 1 2.
Definition kEmitClose : Z := Z.shiftl 1 3.
Definition kDestroyed : Z := Z.shiftl 1 4.
Definition kClosed : Z := Z.shiftl 1 5.
Definition kCloseEmitted : Z := Z.shiftl 1 6.
Definition kErrored : Z := Z.shiftl 1 7.
Definition kConstructed : Z := Z.shiftl 1 8.
Definition kSync : Z := Z.shiftl 1 9.
Definition kFinalCalled : Z := Z.shiftl 1 10.
Definition kNeedDrain : Z := Z.shiftl 1 11.
Definition kEnding : Z := Z.shiftl 1 12.
Definition kFinished : Z := Z.shiftl 1 13.
Definition kDecodeStrings : Z := Z.shiftl 1 14.
Definition kWriting : Z := Z.shiftl 1 15.
Definition kBufferProcessing : Z := Z.shiftl 1 16.
Definition kPrefinished : Z := Z.shiftl 1 17.
Definition kAllBuffers : Z := Z.shiftl 1 18.
Definition kAllNoop : Z := Z.shiftl 1 19.
Definition kOnFinished : Z := Z.shiftl 1 20.
Definition kHasWritable : Z := Z.shiftl 1 21.
Definition kWritable : Z := Z.shiftl 1 22.
Definition kCorked : Z := Z.shiftl 1 23.
Definition kDefaultUTF8Encoding : Z := Z.shiftl 1 24.
Definition kWriteCb : Z := Z.shiftl 1 25.
Definition kExpectWriteCb : Z := Z.shiftl 1 26.
Definition kAfterWriteTickInfo : Z := Z.shiftl 1 27.
Definition kAfterWritePending : Z := Z.shiftl 1 28.
Definition kBuffered : Z := Z.shiftl 1 29.
Definition kEnded : Z := Z.shiftl 1 30.

(** ** Values *)

Inductive chunk :=
  | CNull
  | CUndefined
  | CString (s : jsstr)
  | CBuffer (b : list Z)
  | CView (b : list Z)
  | CFn (c : positive)
  | CObject (o : positive).

(** The second argument of [write] and [end]. *)
Inductive enc_arg :=
  | ENone
  | EStr (s : jsstr)
  | EFn (c : positive).

#[export] Instance chunk_eq_dec : EqDecision chunk.
Proof. solve_decision. Defined.

(** A function passed as a callback; [None] is [nop]. *)
Abbreviation user_cb := (option positive).

(** The callback of a write: [nop], the user's, or the one that [clearBuffer]
    makes for a [_writev], over the array [arr] from index [i]. *)
Inductive callback :=
  | Nop
  | User (c : positive)
  | Batch (arr : positive) (i : nat).

#[export] Instance callback_eq_dec : EqDecision callback.
Proof. solve_decision. Defined.

Definition of_user (c : user_cb) : callback := match c with Some c => User c | None => Nop end.

Record entry := Entry { e_chunk : chunk; e_encoding : option jsstr; e_callback : user_cb }.

Inductive event_name := EvDrain | EvPrefinish | EvFinish | EvClose | EvError (e : jserror).

(** What is handed to [process.nextTick]. *)
Inductive task :=
  | TNop
  | TCallback (c : positive) (er : option jserror)
  | TOnwriteError (er : jserror) (cb : callback)
  | TAfterWrite (cb : callback)
  | TAfterWriteTick (info : positive)
  | TErrorBuffer
  | TFinish
  | TFinishMaybe
  | TEmitErrorClose (er : jserror)
  | TEmitClose
  | TEmitError (er : jserror)
  | TConstruct
  | TOnConstruct (er : option jserror)
  | TUser (c : positive).

(** What was done to the outside, the writes that were accepted, and the moment
    the stream was destroyed. *)
Inductive event :=
  | Accepted (chunk : chunk) (encoding : option jsstr)
  | Sunk (chunks : list (chunk * option jsstr))
  | Written (er : option jserror)
  | Emitted (ev : event_name)
  | Called (c : positive) (er : option jserror)
  | Destroyed.

(** Calls of the user's code.  [CallTurn] is code that the event loop runs. *)
Inductive call :=
  | CallCb (c : positive) (er : option jserror)
  | CallListener (ev : event_name)
  | CallWrite (chunk : chunk) (encoding : option jsstr)
  | CallWritev (chunks : list (chunk * option jsstr)) (allBuffers : option bool)
  | CallFinal
  | CallDestroy (er : option jserror) (onDestroy : positive)
  | CallConstruct
  | CallTurn (c : positive).

(** What a call does to the stream. *)
Inductive body :=
  | Done
  | Fail (e : jserror)
  | Write (chunk : chunk) (encoding : enc_arg) (cb : user_cb) (k : result bool -> body)
  | End_ (chunk : chunk) (encoding : enc_arg) (cb : user_cb) (k : result unit -> body)
  | Cork (k : body)
  | Uncork (k : result unit -> body)
  | Destroy (er : option jserror) (cb : user_cb) (k : result unit -> body)
  | SetDefaultEncoding (encoding : jsstr) (k : result unit -> body)
  | OnWrite (er : option jserror) (k : result unit -> body)
  | OnFinal (er : option jserror) (k : result unit -> body)
  | OnDestroy (d : positive) (er : option jserror) (k : result unit -> body)
  | OnConstruct (er : option jserror) (k : body)
  | NextTick (c : positive) (k : body).

(** The methods the stream has of its own, and what its code does: the number of
    the call stands for what the code remembers. *)
Record env := Env {
  has_write : bool;
  has_writev : bool;
  has_final : bool;
  has_construct : bool;
  code : nat -> call -> body;
  isEncoding : jsstr -> bool;
  Buffer_from : jsstr -> jsstr -> list Z;
  toLowerCase : jsstr -> jsstr;
  fuel : nat;
}.

(** ** State

    [arrays], [tickInfos] and [destroyers] are the objects there are: arrays of
    buffered writes, where a slot is [null] once its write was taken out, the
    objects of [afterWriteTickInfo], and the functions [onDestroy] with their
    [called] and [cb]. *)

Record state := State {
  kState : Z;
  highWaterMark : Z;
  length_ : Z;
  corked : Z;
  writelen : Z;
  kBufferedValue : option positive;
  bufferedIndex : nat;
  pendingcb : Z;
  kErroredValue : option jserror;
  kWriteCbValue : option callback;
  kAfterWriteTickInfoValue : option positive;
  kOnFinishedValue : option (list positive);
  kDefaultEncodingValue : jsstr;
  arrays : gmap positive (list (option entry));
  tickInfos : gmap positive (nat * callback);
  destroyers : gmap positive (bool * option positive);
  next : positive;
  onKDestroy : option (option jserror * option positive);
  constructStarted : bool;
  constructCalled : bool;
  ticks : list task;
  calls : nat;
  trace : list event;
}.

Definition set_kState (v : Z) (s : state) : state :=
  State v (highWaterMark s) (length_ s) (corked s) (writelen s) (kBufferedValue s) (bufferedIndex s) (pendingcb s)
    (kErroredValue s) (kWriteCbValue s) (kAfterWriteTickInfoValue s) (kOnFinishedValue s) (kDefaultEncodingValue s)
    (arrays s) (tickInfos s) (destroyers s) (next s) (onKDestroy s) (constructStarted s) (constructCalled s)
    (ticks s) (calls s) (trace s).
Definition set_length (v : Z) (s : state) : state :=
  State (kState s) (highWaterMark s) v (corked s) (writelen s) (kBufferedValue s) (bufferedIndex s) (pendingcb s)
    (kErroredValue s) (kWriteCbValue s) (kAfterWriteTickInfoValue s) (kOnFinishedValue s) (kDefaultEncodingValue s)
    (arrays s) (tickInfos s) (destroyers s) (next s) (onKDestroy s) (constructStarted s) (constructCalled s)
    (ticks s) (calls s) (trace s).
Definition set_corked (v : Z) (s : state) : state :=
  State (kState s) (highWaterMark s) (length_ s) v (writelen s) (kBufferedValue s) (bufferedIndex s) (pendingcb s)
    (kErroredValue s) (kWriteCbValue s) (kAfterWriteTickInfoValue s) (kOnFinishedValue s) (kDefaultEncodingValue s)
    (arrays s) (tickInfos s) (destroyers s) (next s) (onKDestroy s) (constructStarted s) (constructCalled s)
    (ticks s) (calls s) (trace s).
Definition set_writelen (v : Z) (s : state) : state :=
  State (kState s) (highWaterMark s) (length_ s) (corked s) v (kBufferedValue s) (bufferedIndex s) (pendingcb s)
    (kErroredValue s) (kWriteCbValue s) (kAfterWriteTickInfoValue s) (kOnFinishedValue s) (kDefaultEncodingValue s)
    (arrays s) (tickInfos s) (destroyers s) (next s) (onKDestroy s) (constructStarted s) (constructCalled s)
    (ticks s) (calls s) (trace s).
Definition set_kBufferedValue (v : option positive) (s : state) : state :=
  State (kState s) (highWaterMark s) (length_ s) (corked s) (writelen s) v (bufferedIndex s) (pendingcb s)
    (kErroredValue s) (kWriteCbValue s) (kAfterWriteTickInfoValue s) (kOnFinishedValue s) (kDefaultEncodingValue s)
    (arrays s) (tickInfos s) (destroyers s) (next s) (onKDestroy s) (constructStarted s) (constructCalled s)
    (ticks s) (calls s) (trace s).
Definition set_bufferedIndex (v : nat) (s : state) : state :=
  State (kState s) (highWaterMark s) (length_ s) (corked s) (writelen s) (kBufferedValue s) v (pendingcb s)
    (kErroredValue s) (kWriteCbValue s) (kAfterWriteTickInfoValue s) (kOnFinishedValue s) (kDefaultEncodingValue s)
    (arrays s) (tickInfos s) (destroyers s) (next s) (onKDestroy s) (constructStarted s) (constructCalled s)
    (ticks s) (calls s) (trace s).
Definition set_pendingcb (v : Z) (s : state) : state :=
  State (kState s) (highWaterMark s) (length_ s) (corked s) (writelen s) (kBufferedValue s) (bufferedIndex s) v
    (kErroredValue s) (kWriteCbValue s) (kAfterWriteTickInfoValue s) (kOnFinishedValue s) (kDefaultEncodingValue s)
    (arrays s) (tickInfos s) (destroyers s) (next s) (onKDestroy s) (constructStarted s) (constructCalled s)
    (ticks s) (calls s) (trace s).
Definition set_kErroredValue (v : option jserror) (s : state) : state :=
  State (kState s) (highWaterMark s) (length_ s) (corked s) (writelen s) (kBufferedValue s) (bufferedIndex s)
    (pendingcb s) v (kWriteCbValue s) (kAfterWriteTickInfoValue s) (kOnFinishedValue s) (kDefaultEncodingValue s)
    (arrays s) (tickInfos s) (destroyers s) (next s) (onKDestroy s) (constructStarted s) (constructCalled s)
    (ticks s) (calls s) (trace s).
Definition set_kWriteCbValue (v : option callback) (s : state) : state :=
  State (kState s) (highWaterMark s) (length_ s) (corked s) (writelen s) (kBufferedValue s) (bufferedIndex s)
    (pendingcb s) (kErroredValue s) v (kAfterWriteTickInfoValue s) (kOnFinishedValue s) (kDefaultEncodingValue s)
    (arrays s) (tickInfos s) (destroyers s) (next s) (onKDestroy s) (constructStarted s) (constructCalled s)
    (ticks s) (calls s) (trace s).
Definition set_kAfterWriteTickInfoValue (v : option positive) (s : state) : state :=
  State (kState s) (highWaterMark s) (length_ s) (corked s) (writelen s) (kBufferedValue s) (bufferedIndex s)
    (pendingcb s) (kErroredValue s) (kWriteCbValue s) v (kOnFinishedValue s) (kDefaultEncodingValue s) (arrays s)
    (tickInfos s) (destroyers s) (next s) (onKDestroy s) (constructStarted s) (constructCalled s) (ticks s)
    (calls s) (trace s).
Definition set_kOnFinishedValue (v : option (list positive)) (s : state) : state :=
  State (kState s) (highWaterMark s) (length_ s) (corked s) (writelen s) (kBufferedValue s) (bufferedIndex s)
    (pendingcb s) (kErroredValue s) (kWriteCbValue s) (kAfterWriteTickInfoValue s) v (kDefaultEncodingValue s)
    (arrays s) (tickInfos s) (destroyers s) (next s) (onKDestroy s) (constructStarted s) (constructCalled s)
    (ticks s) (calls s) (trace s).
Definition set_kDefaultEncodingValue (v : jsstr) (s : state) : state :=
  State (kState s) (highWaterMark s) (length_ s) (corked s) (writelen s) (kBufferedValue s) (bufferedIndex s)
    (pendingcb s) (kErroredValue s) (kWriteCbValue s) (kAfterWriteTickInfoValue s) (kOnFinishedValue s) v (arrays s)
    (tickInfos s) (destroyers s) (next s) (onKDestroy s) (constructStarted s) (constructCalled s) (ticks s)
    (calls s) (trace s).
Definition set_arrays (v : gmap positive (list (option entry))) (s : state) : state :=
  State (kState s) (highWaterMark s) (length_ s) (corked s) (writelen s) (kBufferedValue s) (bufferedIndex s)
    (pendingcb s) (kErroredValue s) (kWriteCbValue s) (kAfterWriteTickInfoValue s) (kOnFinishedValue s)
    (kDefaultEncodingValue s) v (tickInfos s) (destroyers s) (next s) (onKDestroy s) (constructStarted s)
    (constructCalled s) (ticks s) (calls s) (trace s).
Definition set_tickInfos (v : gmap positive (nat * callback)) (s : state) : state :=
  State (kState s) (highWaterMark s) (length_ s) (corked s) (writelen s) (kBufferedValue s) (bufferedIndex s)
    (pendingcb s) (kErroredValue s) (kWriteCbValue s) (kAfterWriteTickInfoValue s) (kOnFinishedValue s)
    (kDefaultEncodingValue s) (arrays s) v (destroyers s) (next s) (onKDestroy s) (constructStarted s)
    (constructCalled s) (ticks s) (calls s) (trace s).
Definition set_destroyers (v : gmap positive (bool * option positive)) (s : state) : state :=
  State (kState s) (highWaterMark s) (length_ s) (corked s) (writelen s) (kBufferedValue s) (bufferedIndex s)
    (pendingcb s) (kErroredValue s) (kWriteCbValue s) (kAfterWriteTickInfoValue s) (kOnFinishedValue s)
    (kDefaultEncodingValue s) (arrays s) (tickInfos s) v (next s) (onKDestroy s) (constructStarted s)
    (constructCalled s) (ticks s) (calls s) (trace s).
Definition set_next (v : positive) (s : state) : state :=
  State (kState s) (highWaterMark s) (length_ s) (corked s) (writelen s) (kBufferedValue s) (bufferedIndex s)
    (pendingcb s) (kErroredValue s) (kWriteCbValue s) (kAfterWriteTickInfoValue s) (kOnFinishedValue s)
    (kDefaultEncodingValue s) (arrays s) (tickInfos s) (destroyers s) v (onKDestroy s) (constructStarted s)
    (constructCalled s) (ticks s) (calls s) (trace s).
Definition set_onKDestroy (v : option (option jserror * option positive)) (s : state) : state :=
  State (kState s) (highWaterMark s) (length_ s) (corked s) (writelen s) (kBufferedValue s) (bufferedIndex s)
    (pendingcb s) (kErroredValue s) (kWriteCbValue s) (kAfterWriteTickInfoValue s) (kOnFinishedValue s)
    (kDefaultEncodingValue s) (arrays s) (tickInfos s) (destroyers s) (next s) v (constructStarted s)
    (constructCalled s) (ticks s) (calls s) (trace s).
Definition set_constructStarted (v : bool) (s : state) : state :=
  State (kState s) (highWaterMark s) (length_ s) (corked s) (writelen s) (kBufferedValue s) (bufferedIndex s)
    (pendingcb s) (kErroredValue s) (kWriteCbValue s) (kAfterWriteTickInfoValue s) (kOnFinishedValue s)
    (kDefaultEncodingValue s) (arrays s) (tickInfos s) (destroyers s) (next s) (onKDestroy s) v (constructCalled s)
    (ticks s) (calls s) (trace s).
Definition set_constructCalled (v : bool) (s : state) : state :=
  State (kState s) (highWaterMark s) (length_ s) (corked s) (writelen s) (kBufferedValue s) (bufferedIndex s)
    (pendingcb s) (kErroredValue s) (kWriteCbValue s) (kAfterWriteTickInfoValue s) (kOnFinishedValue s)
    (kDefaultEncodingValue s) (arrays s) (tickInfos s) (destroyers s) (next s) (onKDestroy s) (constructStarted s) v
    (ticks s) (calls s) (trace s).
Definition set_ticks (v : list task) (s : state) : state :=
  State (kState s) (highWaterMark s) (length_ s) (corked s) (writelen s) (kBufferedValue s) (bufferedIndex s)
    (pendingcb s) (kErroredValue s) (kWriteCbValue s) (kAfterWriteTickInfoValue s) (kOnFinishedValue s)
    (kDefaultEncodingValue s) (arrays s) (tickInfos s) (destroyers s) (next s) (onKDestroy s) (constructStarted s)
    (constructCalled s) v (calls s) (trace s).
Definition set_calls (v : nat) (s : state) : state :=
  State (kState s) (highWaterMark s) (length_ s) (corked s) (writelen s) (kBufferedValue s) (bufferedIndex s)
    (pendingcb s) (kErroredValue s) (kWriteCbValue s) (kAfterWriteTickInfoValue s) (kOnFinishedValue s)
    (kDefaultEncodingValue s) (arrays s) (tickInfos s) (destroyers s) (next s) (onKDestroy s) (constructStarted s)
    (constructCalled s) (ticks s) v (trace s).
Definition set_trace (v : list event) (s : state) : state :=
  State (kState s) (highWaterMark s) (length_ s) (corked s) (writelen s) (kBufferedValue s) (bufferedIndex s)
    (pendingcb s) (kErroredValue s) (kWriteCbValue s) (kAfterWriteTickInfoValue s) (kOnFinishedValue s)
    (kDefaultEncodingValue s) (arrays s) (tickInfos s) (destroyers s) (next s) (onKDestroy s) (constructStarted s)
    (constructCalled s) (ticks s) (calls s) v.

Abbreviation W := (M state).

Definition log (e : event) (s : state) : state := set_trace (trace s ++ [e]) s.
Definition nextTick (t : task) (s : state) : state := set_ticks (ticks s ++ [t]) s.
Definition flag (m : Z) : W bool := gets (fun s => has (kState s) m).
Definition raise_flags (m : Z) (s : state) : state := set_kState (on (kState s) m) s.
Definition drop_flags (m : Z) (s : state) : state := set_kState (off (kState s) m) s.
Definition count_pending (d : Z) (s : state) : state := set_pendingcb (pendingcb s + d) s.

(** The properties [errored], [writecb] and [buffered] of the state. *)
Definition errored (s : state) : option jserror :=
  if has (kState s) kErrored then kErroredValue s else None.
Definition set_errored (er : jserror) (s : state) : state :=
  raise_flags kErrored (set_kErroredValue (Some er) s).
Definition set_writecb (cb : callback) (s : state) : state :=
  raise_flags kWriteCb (set_kWriteCbValue (Some cb) s).
Definition clear_writecb (s : state) : state := drop_flags kWriteCb (set_kWriteCbValue None s).
Definition array (arr : positive) (s : state) : list (option entry) := default [] (arrays s !! arr).
Definition buffered (s : state) : list (option entry) :=
  if has (kState s) kBuffered then match kBufferedValue s with Some arr => array arr s | None => [] end else [].

Definition chunk_length (c : chunk) : Z :=
  match c with CString s => len s | CBuffer b => Z.of_nat (List.length b) | _ => 0 end.
(** [objectMode ? 1 : chunk.length] *)
Definition size_of (s : state) (c : chunk) : Z :=
  if has (kState s) kObjectMode then 1 else chunk_length c.

Definition ERR_STREAM_DESTROYED (name : jsstr) : jserror := JsError "ERR_STREAM_DESTROYED" [name].
Definition ERR_MULTIPLE_CALLBACK : jserror := JsError "ERR_MULTIPLE_CALLBACK" [].
Definition null_entry : jserror := JsError "" ["TypeError"; "Cannot destructure null"]%js.

(** [aggregateTwoErrors]: an error with the code of the outer one, holding both. *)
Definition aggregateTwoErrors (inner outer : option jserror) : option jserror :=
  match inner, outer with
  | Some i, Some o =>
      if bool_decide (i = o) then Some i else Some (JsError (err_code o) (err_args o ++ err_code i :: err_args i))
  | Some i, None => Some i
  | None, o => o
  end.

(** ** Construction of the state *)

Record options := Options {
  o_objectMode : bool;
  o_highWaterMark : option num;
  o_decodeStrings : bool;
  o_emitClose : bool;
  o_autoDestroy : bool;
  o_defaultEncoding : option jsstr;
}.

Definition getDefaultHighWaterMark (objectMode : bool) : Z := if objectMode then 16 else 64 * 1024.

Definition getHighWaterMark (objectMode : bool) (hwm : option num) : result Z :=
  match hwm with
  | None => Ok (getDefaultHighWaterMark objectMode)
  | Some n =>
      match integer_of n with
      | Some z => if z <? 0 then Throw (JsError "ERR_INVALID_ARG_VALUE" ["options.highWaterMark"%js]) else Ok z
      | None => Throw (JsError "ERR_INVALID_ARG_VALUE" ["options.highWaterMark"%js])
      end
  end.

Definition resetBuffer (s : state) : state :=
  drop_flags kBuffered (raise_flags (flags [kAllBuffers; kAllNoop]) (set_bufferedIndex 0%nat (set_kBufferedValue None s))).

Definition is_utf8 (e : jsstr) : bool := bool_decide (e = "utf8"%js) || bool_decide (e = "utf-8"%js).

Section WithEnv.
Variable E : env.

Definition new_WritableState (o : options) : result state :=
  let k := flags [kSync; kConstructed; kEmitClose; kAutoDestroy] in
  let k := if o_objectMode o then on k kObjectMode else k in
  let* hwm := getHighWaterMark (o_objectMode o) (o_highWaterMark o) in
  let k := if o_decodeStrings o then on k kDecodeStrings else k in
  let k := if o_emitClose o then k else off k kEmitClose in
  let k := if o_autoDestroy o then k else off k kAutoDestroy in
  let* d := match o_defaultEncoding o with
    | None => Ok (on k kDefaultUTF8Encoding, [])
    | Some e => if is_utf8 e then Ok (on k kDefaultUTF8Encoding, [])
                else if isEncoding E e then Ok (off k kDefaultUTF8Encoding, e)
                else Throw (JsError "ERR_UNKNOWN_ENCODING" [e])
    end in
  let '(k, e) := d in
  Ok (resetBuffer (State k hwm 0 0 0 None 0 0 None None None None e ∅ ∅ ∅ 1 None false false [] 0 [])).

(** [Writable]: with a [_construct], construction waits for a tick. *)
Definition new_Writable (o : options) : result state :=
  let* s := new_WritableState o in
  Ok (if has_construct E then nextTick TConstruct (drop_flags kConstructed s) else s).

(** ** Calling the user's code

    [user] makes a call of the user's code at the depth that remains. *)

Section WithUser.
Variable user : call -> W unit.

Definition call_user (c : user_cb) (er : option jserror) : W unit :=
  match c with
  | None => ret tt
  | Some c => modify (log (Called c er));; user (CallCb c er)
  end.

Definition emit (ev : event_name) : W unit := modify (log (Emitted ev));; user (CallListener ev).

(** The callback of a [_writev]: [for (let n = i; n < buffered.length; ++n)]. *)
Fixpoint batch_loop (fuel : nat) (arr : positive) (n : nat) (er : option jserror) : W unit :=
  match fuel with
  | O => fun _ => None
  | S fuel =>
      slot <- gets (fun s => array arr s !! n);;
      match slot with
      | None => ret tt
      | Some None => throw null_entry
      | Some (Some e) => call_user (e_callback e) er;; batch_loop fuel arr (S n) er
      end
  end.

Definition call_cb (cb : callback) (er : option jserror) : W unit :=
  match cb with
  | Nop => ret tt
  | User c => call_user (Some c) er
  | Batch arr i => batch_loop (fuel E) arr i er
  end.

Fixpoint call_all (l : list positive) (er : option jserror) : W unit :=
  match l with
  | [] => ret tt
  | c :: l => call_user (Some c) er;; call_all l er
  end.

Definition callFinishedCallbacks (er : option jserror) : W unit :=
  pending <- flag kOnFinished;;
  if pending then
    l <- gets (fun s => default [] (kOnFinishedValue s));;
    modify (fun s => drop_flags kOnFinished (set_kOnFinishedValue None s));;
    call_all l er
  else ret tt.

(** ** Destroying *)

Fixpoint error_loop (fuel : nat) (n : nat) : W unit :=
  match fuel with
  | O => fun _ => None
  | S fuel =>
      slot <- gets (fun s => buffered s !! n);;
      match slot with
      | None => ret tt
      | Some None => throw null_entry
      | Some (Some e) =>
          modify (fun s => set_length (length_ s - size_of s (e_chunk e)) s);;
          er <- gets (fun s => default (ERR_STREAM_DESTROYED "write") (errored s));;
          call_user (e_callback e) (Some er);;
          error_loop fuel (S n)
      end
  end.

Definition errorBuffer : W unit :=
  writing <- flag kWriting;;
  if writing then ret tt
  else
    pending <- flag kBuffered;;
    (if pending then n <- gets bufferedIndex;; error_loop (fuel E) n else ret tt);;
    er <- gets (fun s => default (ERR_STREAM_DESTROYED "end") (errored s));;
    callFinishedCallbacks (Some er);;
    modify resetBuffer.

Definition checkError (er : option jserror) (s : state) : state :=
  match er with
  | Some er => match errored s with None => set_errored er s | Some _ => s end
  | None => s
  end.

(** [onDestroy], the function that [_destroy] is called with. *)
Definition onDestroy (d : positive) (er : option jserror) : W unit :=
  closure <- gets (fun s => destroyers s !! d);;
  match closure with
  | None | Some (true, _) => ret tt
  | Some (false, cb) =>
      modify (fun s => set_destroyers (<[d := (true, cb)]> (destroyers s)) s);;
      modify (checkError er);;
      modify (raise_flags kClosed);;
      call_user cb er;;
      modify (nextTick (match er with Some er => TEmitErrorClose er | None => TEmitClose end))
  end.

Definition _destroy (er : option jserror) (cb : user_cb) : W unit :=
  d <- gets next;;
  modify (fun s => set_next (Pos.succ d) (set_destroyers (<[d := (false, cb)]> (destroyers s)) s));;
  attempt (user (CallDestroy er d)) (fun r =>
    match r with Ok _ => ret tt | Throw e => onDestroy d (Some e) end).

Definition base_destroy (er : option jserror) (cb : user_cb) : W unit :=
  destroyed <- flag kDestroyed;;
  if destroyed then call_user cb None
  else
    modify (checkError er);;
    modify (fun s => log Destroyed (raise_flags kDestroyed s));;
    constructed <- flag kConstructed;;
    if constructed then _destroy er cb
    else modify (set_onKDestroy (Some (er, cb))).

Definition destroy (er : option jserror) (cb : user_cb) : W unit :=
  modify (fun s => if has (kState s) (flags [kBuffered; kOnFinished]) && negb (has (kState s) kDestroyed)
                   then nextTick TErrorBuffer s else s);;
  base_destroy er cb.

Definition emitErrorNT (er : jserror) : W unit :=
  emitted <- flag kErrorEmitted;;
  if emitted then ret tt
  else modify (raise_flags kErrorEmitted);; emit (EvError er).

Definition emitCloseNT : W unit :=
  modify (raise_flags kCloseEmitted);;
  emitClose <- flag kEmitClose;;
  if emitClose then emit EvClose else ret tt.

Definition errorOrDestroy (er : option jserror) (sync : bool) : W unit :=
  destroyed <- flag kDestroyed;;
  if destroyed then ret tt
  else
    autoDestroy <- flag kAutoDestroy;;
    if autoDestroy then destroy er None
    else
      match er with
      | None => ret tt
      | Some er =>
          modify (fun s => if has (kState s) kErrored then s else set_errored er s);;
          if sync then modify (nextTick (TEmitError er)) else emitErrorNT er
      end.

(** ** Finishing *)

Definition needFinish (s : state) : bool :=
  (Z.land (kState s) (flags [kEnding; kDestroyed; kConstructed; kFinished; kWriting; kErrorEmitted; kCloseEmitted;
                             kErrored; kBuffered]) =? flags [kEnding; kConstructed]) && (length_ s =? 0).

Definition onFinish (er : option jserror) : W unit :=
  prefinished <- flag kPrefinished;;
  if prefinished then errorOrDestroy (Some (default ERR_MULTIPLE_CALLBACK er)) false
  else
    modify (count_pending (-1));;
    match er with
    | Some e =>
        callFinishedCallbacks (Some e);;
        sync <- flag kSync;;
        errorOrDestroy (Some e) sync
    | None =>
        ready <- gets needFinish;;
        if ready then
          modify (raise_flags kPrefinished);;
          emit EvPrefinish;;
          modify (count_pending 1);;
          modify (nextTick TFinish)
        else ret tt
    end.

Definition prefinish : W unit :=
  started <- flag (flags [kPrefinished; kFinalCalled]);;
  if started then ret tt
  else
    destroyed <- flag kDestroyed;;
    if has_final E && negb destroyed then
      modify (raise_flags (flags [kFinalCalled; kSync]));;
      modify (count_pending 1);;
      attempt (user CallFinal) (fun r => match r with Ok _ => ret tt | Throw e => onFinish (Some e) end);;
      modify (drop_flags kSync)
    else
      modify (raise_flags (flags [kFinalCalled; kPrefinished]));;
      emit EvPrefinish.

Definition finish : W unit :=
  modify (count_pending (-1));;
  modify (raise_flags kFinished);;
  callFinishedCallbacks None;;
  emit EvFinish;;
  autoDestroy <- flag kAutoDestroy;;
  if autoDestroy then destroy None None else ret tt.

Definition finishMaybe (sync : bool) : W unit :=
  ready <- gets needFinish;;
  if ready then
    prefinish;;
    pending <- gets pendingcb;;
    if pending =? 0 then
      if sync then modify (count_pending 1);; modify (nextTick TFinishMaybe)
      else
        ready <- gets needFinish;;
        if ready then modify (count_pending 1);; finish else ret tt
    else ret tt
  else ret tt.

(** ** After a write *)

Fixpoint after_loop (count : nat) (cb : callback) : W unit :=
  match count with
  | O => ret tt
  | S count => modify (count_pending (-1));; call_cb cb None;; after_loop count cb
  end.

Definition afterWrite (count : nat) (cb : callback) : W unit :=
  modify (drop_flags kAfterWritePending);;
  needDrain <- gets (fun s => (Z.land (kState s) (flags [kEnding; kNeedDrain; kDestroyed]) =? kNeedDrain) &&
                              (length_ s =? 0));;
  (if needDrain : bool then modify (drop_flags kNeedDrain);; emit EvDrain else ret tt);;
  after_loop count cb;;
  destroyed <- flag kDestroyed;;
  (if destroyed then errorBuffer else ret tt);;
  ending <- flag kEnding;;
  if ending then finishMaybe true else ret tt.

Definition afterWriteTick (info : positive) : W unit :=
  c <- gets (fun s => default (0%nat, Nop) (tickInfos s !! info));;
  modify (fun s => set_kAfterWriteTickInfoValue None (drop_flags kAfterWriteTickInfo s));;
  afterWrite c.1 c.2.

Definition onwriteError (er : jserror) (cb : callback) : W unit :=
  modify (count_pending (-1));;
  call_cb cb (Some er);;
  errorBuffer;;
  errorOrDestroy (Some er) false.

(** The tick that already waits to call [cb]: its object and count. *)
Definition current_tick (cb : callback) (s : state) : option (positive * nat) :=
  match (if has (kState s) kAfterWriteTickInfo then kAfterWriteTickInfoValue s else None) with
  | Some info =>
      match tickInfos s !! info with
      | Some (count, cb') => if bool_decide (cb' = cb) then Some (info, count) else None
      | None => None
      end
  | None => None
  end.

Definition schedule_tick (cb : callback) (s : state) : state :=
  let t := next s in
  let s := set_next (Pos.succ t) (set_tickInfos (<[t := (1%nat, cb)]> (tickInfos s)) s) in
  raise_flags (flags [kAfterWritePending; kAfterWriteTickInfo])
    (nextTick (TAfterWriteTick t) (set_kAfterWriteTickInfoValue (Some t) s)).

(** [state.pendingcb--; if (ending) finishMaybe(stream, state, true)] *)
Definition settle : W unit :=
  modify (count_pending (-1));;
  ending <- flag kEnding;;
  if ending then finishMaybe true else ret tt.

(** The end of a successful write that completed before [_write] returned.  As
    [!==] binds tighter than [&], the test of [kDestroyed] is one of bit 0. *)
Definition written_sync (cb : callback) : W unit :=
  needDrain <- gets (fun s => has (kState s) kNeedDrain && (length_ s =? 0));;
  bit0 <- flag 1;;
  let needTick := needDrain || bit0 || negb (bool_decide (cb = Nop)) in
  if bool_decide (cb = Nop) then
    pending <- flag kAfterWritePending;;
    if negb pending && needTick then
      modify (nextTick (TAfterWrite cb));; modify (raise_flags kAfterWritePending)
    else settle
  else
    current <- gets (current_tick cb);;
    match current with
    | Some (info, count) => modify (fun s => set_tickInfos (<[info := (S count, cb)]> (tickInfos s)) s)
    | None => if needTick then modify (schedule_tick cb) else settle
    end.

(** The function passed to [_write]; [clear] is [clearBuffer]. *)
Definition onwrite_with (clear : W unit) (er : option jserror) : W unit :=
  expected <- flag kExpectWriteCb;;
  if negb expected then errorOrDestroy (Some ERR_MULTIPLE_CALLBACK) false
  else
    sync <- flag kSync;;
    cb <- gets (fun s => if has (kState s) kWriteCb then default Nop (kWriteCbValue s) else Nop);;
    modify clear_writecb;;
    modify (fun s => log (Written er) (drop_flags (flags [kWriting; kExpectWriteCb]) s));;
    modify (fun s => set_writelen 0 (set_length (length_ s - writelen s) s));;
    match er with
    | Some e =>
        modify (fun s => if has (kState s) kErrored then s else set_errored e s);;
        if sync then modify (nextTick (TOnwriteError e cb)) else onwriteError e cb
    | None =>
        buffering <- flag kBuffered;;
        (if buffering then clear else ret tt);;
        if sync then written_sync cb else afterWrite 1 cb
    end.

(** ** Writing *)

Definition keep_writecb (cb : callback) (s : state) : state :=
  if bool_decide (cb = Nop) then s else set_writecb cb s.

(** [stream._writev] and [stream._write]. *)
Definition stream_writev (l : list (chunk * option jsstr)) (allBuffers : option bool) : W unit :=
  modify (log (Sunk l));; user (CallWritev l allBuffers).
Definition stream_write (c : chunk) (encoding : option jsstr) : W unit :=
  if has_write E then modify (log (Sunk [(c, encoding)]));; user (CallWrite c encoding)
  else if has_writev E then stream_writev [(c, encoding)] None
  else throw (JsError "ERR_METHOD_NOT_IMPLEMENTED" ["_write()"%js]).

(** The writes of an array from an index. *)
Definition entries (l : list (option entry)) (i : nat) : list entry := omap id (drop i l).
Definition payload (e : entry) : chunk * option jsstr := (e_chunk e, e_encoding e).

(** [doWrite]; [sink] is the call of [_write] or [_writev].  With an error,
    [onwrite] does not empty the buffer. *)
Definition doWrite (size : Z) (sink : W unit) (cb : callback) : W unit :=
  modify (set_writelen size);;
  modify (keep_writecb cb);;
  modify (raise_flags (flags [kWriting; kSync; kExpectWriteCb]));;
  destroyed <- flag kDestroyed;;
  (if destroyed then onwrite_with (ret tt) (Some (ERR_STREAM_DESTROYED "write")) else sink);;
  modify (drop_flags kSync).

(** The loop that writes one buffered write after the other; the answer is the
    index it ended at. *)
Fixpoint clear_loop (fuel : nat) (arr : positive) (i : nat) : W nat :=
  match fuel with
  | O => fun _ => None
  | S fuel =>
      slot <- gets (fun s => array arr s !! i);;
      match slot with
      | Some (Some e) =>
          modify (fun s => set_arrays (<[arr := <[i := None]> (array arr s)]> (arrays s)) s);;
          size <- gets (fun s => size_of s (e_chunk e));;
          doWrite size (stream_write (e_chunk e) (e_encoding e)) (of_user (e_callback e));;
          more <- gets (fun s => bool_decide (S i < List.length (array arr s))%nat && negb (has (kState s) kWriting));;
          if more : bool then clear_loop fuel arr (S i) else ret (S i)
      | _ => throw null_entry
      end
  end.

Definition clearBuffer : W unit :=
  ready <- gets (fun s =>
    Z.land (kState s) (flags [kDestroyed; kBufferProcessing; kCorked; kBuffered; kConstructed])
      =? flags [kBuffered; kConstructed]);;
  arr <- gets (fun s => default 1%positive (kBufferedValue s));;
  i <- gets bufferedIndex;;
  bufferedLength <- gets (fun s => List.length (array arr s) - i)%nat;;
  if negb ready || bool_decide (bufferedLength = 0%nat) then ret tt
  else
    modify (raise_flags kBufferProcessing);;
    (if bool_decide (1 < bufferedLength)%nat && has_writev E then
       modify (count_pending (- (Z.of_nat bufferedLength - 1)));;
       allNoop <- flag kAllNoop;;
       allBuffers <- flag kAllBuffers;;
       size <- gets length_;;
       chunks <- gets (fun s => payload <$> entries (array arr s) i);;
       doWrite size (stream_writev chunks (Some allBuffers)) (if allNoop : bool then Nop else Batch arr i);;
       modify resetBuffer
     else
       j <- clear_loop (fuel E) arr i;;
       modify (fun s =>
         if bool_decide (j = List.length (array arr s)) then resetBuffer s
         else if bool_decide (256 < j)%nat
         then set_bufferedIndex 0%nat (set_arrays (<[arr := drop j (array arr s)]> (arrays s)) s)
         else set_bufferedIndex j s));;
    modify (drop_flags kBufferProcessing).

Definition onwrite : option jserror -> W unit := onwrite_with clearBuffer.

(** [buffered.push({ chunk, encoding, callback })] *)
Definition push_entry (e : entry) (s : state) : state :=
  let s := if has (kState s) kBuffered then s
           else
             let arr := next s in
             set_next (Pos.succ arr)
               (set_arrays (<[arr := []]> (arrays s)) (set_kBufferedValue (Some arr) (raise_flags kBuffered s))) in
  let arr := default 1%positive (kBufferedValue s) in
  let s := set_arrays (<[arr := array arr s ++ [Some e]]> (arrays s)) s in
  let s := if has (kState s) kAllBuffers && negb (bool_decide (e_encoding e = Some "buffer"%js))
           then drop_flags kAllBuffers s else s in
  if has (kState s) kAllNoop && bool_decide (e_callback e <> None) then drop_flags kAllNoop s else s.

Definition writeOrBuffer (c : chunk) (encoding : option jsstr) (cb : user_cb) : W bool :=
  size <- gets (fun s => size_of s c);;
  modify (log (Accepted c encoding));;
  modify (fun s => set_length (length_ s + size) s);;
  free <- gets (fun s => Z.land (kState s) (flags [kWriting; kErrored; kCorked; kConstructed]) =? kConstructed);;
  (if negb free then modify (push_entry (Entry c encoding cb))
   else
     modify (set_writelen size);;
     modify (keep_writecb (of_user cb));;
     modify (raise_flags (flags [kWriting; kSync; kExpectWriteCb]));;
     stream_write c encoding;;
     modify (drop_flags kSync));;
  answer <- gets (fun s => (length_ s <? highWaterMark s) || (length_ s =? 0));;
  modify (fun s => if answer : bool then s else raise_flags kNeedDrain s);;
  dead <- flag (flags [kDestroyed; kErrored]);;
  ret (answer && negb dead).

(** The chunk and the encoding that are written, in byte mode. *)
Definition normalize (s : state) (c : chunk) (encoding : option jsstr) : result (chunk * option jsstr) :=
  let given := match encoding with Some [] => None | e => e end in
  let* e := match given with
    | None => Ok (if has (kState s) kDefaultUTF8Encoding then "utf8"%js else kDefaultEncodingValue s)
    | Some e => if negb (bool_decide (e = "buffer"%js)) && negb (isEncoding E e)
                then Throw (JsError "ERR_UNKNOWN_ENCODING" [e]) else Ok e
    end in
  match c with
  | CString x => if has (kState s) kDecodeStrings then Ok (CBuffer (Buffer_from E x e), Some "buffer"%js)
                 else Ok (CString x, Some e)
  | CBuffer b => Ok (CBuffer b, Some "buffer"%js)
  | CView b => Ok (CBuffer b, Some "buffer"%js)
  | _ => Throw (JsError "ERR_INVALID_ARG_TYPE" ["chunk"; "string, Buffer, TypedArray or DataView"]%js)
  end.

(** [_write] of the module: an error it returns is [inr]. *)
Definition _write (c : chunk) (encoding : option jsstr) (cb : user_cb) : W (bool + jserror) :=
  if bool_decide (c = CNull) then throw (JsError "ERR_STREAM_NULL_VALUES" [])
  else
    objectMode <- flag kObjectMode;;
    input <- (if objectMode then ret (c, encoding)
              else r <- gets (fun s => normalize s c encoding);; lift r);;
    s <- gets (fun s => s);;
    match (if has (kState s) kEnding then Some (JsError "ERR_STREAM_WRITE_AFTER_END" [])
           else if has (kState s) kDestroyed then Some (ERR_STREAM_DESTROYED "write") else None) with
    | Some er =>
        modify (fun s => match cb with Some c => nextTick (TCallback c (Some er)) s | None => nextTick TNop s end);;
        errorOrDestroy (Some er) true;;
        ret (inr er)
    | None =>
        modify (count_pending 1);;
        b <- writeOrBuffer input.1 input.2 cb;;
        ret (inl b)
    end.

(** [write(chunk, encoding, cb)]; the encoding may be left out. *)
Definition split_args (encoding : enc_arg) (cb : user_cb) : option jsstr * user_cb :=
  match encoding with
  | ENone => (None, cb)
  | EStr e => (Some e, cb)
  | EFn c => (None, Some c)
  end.

Definition write (c : chunk) (encoding : enc_arg) (cb : user_cb) : W bool :=
  let '(encoding, cb) := split_args encoding cb in
  r <- _write c encoding cb;;
  ret (match r with inl b => b | inr _ => false end).

Definition cork : W unit := modify (fun s => set_corked (corked s + 1) (raise_flags kCorked s)).

Definition uncork : W unit :=
  n <- gets corked;;
  if n =? 0 then ret tt
  else
    modify (fun s => let s := set_corked (n - 1) s in if n - 1 =? 0 then drop_flags kCorked s else s);;
    writing <- flag kWriting;;
    if writing then ret tt else clearBuffer.

Definition setDefaultEncoding (encoding : jsstr) : W unit :=
  let e := toLowerCase E encoding in
  if isEncoding E e then
    modify (fun s => if is_utf8 e then raise_flags kDefaultUTF8Encoding s
                     else set_kDefaultEncodingValue e (drop_flags kDefaultUTF8Encoding s))
  else throw (JsError "ERR_UNKNOWN_ENCODING" [e]).

(** [end(chunk, encoding, cb)]; leading arguments may be left out. *)
Definition end_args (c : chunk) (encoding : enc_arg) (cb : user_cb) : chunk * option jsstr * user_cb :=
  match c with
  | CFn f => (CNull, None, Some f)
  | _ => let '(e, cb) := split_args encoding cb in (c, e, cb)
  end.

Definition end_ (c : chunk) (encoding : enc_arg) (cb : user_cb) : W unit :=
  let '(c, encoding, cb) := end_args c encoding cb in
  er <- (if bool_decide (c = CNull) || bool_decide (c = CUndefined) then ret None
         else r <- _write c encoding None;; ret (match r with inl _ => None | inr e => Some e end));;
  isCorked <- flag kCorked;;
  (if isCorked then modify (set_corked 1);; uncork else ret tt);;
  closing <- flag (flags [kEnding; kErrored]);;
  finished <- flag kFinished;;
  destroyed <- flag kDestroyed;;
  er <- (match er with
         | Some er => ret (Some er)
         | None =>
             if negb closing then
               modify (raise_flags kEnding);; finishMaybe true;; modify (raise_flags kEnded);; ret None
             else if finished then ret (Some (JsError "ERR_STREAM_ALREADY_FINISHED" ["end"%js]))
             else if destroyed then ret (Some (ERR_STREAM_DESTROYED "end"))
             else ret None
         end);;
  match cb with
  | None => ret tt
  | Some c =>
      modify (fun s =>
        match er with
        | Some er => nextTick (TCallback c (Some er)) s
        | None =>
            if has (kState s) kErrored then nextTick (TCallback c (kErroredValue s)) s
            else if has (kState s) kFinished then nextTick (TCallback c None) s
            else raise_flags kOnFinished (set_kOnFinishedValue (Some (default [] (kOnFinishedValue s) ++ [c])) s)
        end)
  end.

(** ** Construction *)

Definition onConstructed : W unit :=
  writing <- flag kWriting;;
  (if writing then ret tt else clearBuffer);;
  ending <- flag kEnding;;
  if ending then finishMaybe false else ret tt.

Definition onConstruct (er : option jserror) : W unit :=
  called <- gets constructCalled;;
  if called : bool then errorOrDestroy (Some (default ERR_MULTIPLE_CALLBACK er)) false
  else
    modify (set_constructCalled true);;
    modify (raise_flags kConstructed);;
    destroyed <- flag kDestroyed;;
    if destroyed then
      waiting <- gets onKDestroy;;
      match waiting with
      | None => ret tt
      | Some (er0, cb) => modify (set_onKDestroy None);; _destroy (aggregateTwoErrors er er0) cb
      end
    else
      match er with
      | Some er => errorOrDestroy (Some er) true
      | None => onConstructed
      end.

Definition constructNT : W unit :=
  modify (set_constructStarted true);;
  attempt (user CallConstruct) (fun r =>
    match r with Ok _ => ret tt | Throw e => modify (nextTick (TOnConstruct (Some e))) end).

(** ** Programs *)

Definition run_task (t : task) : W unit :=
  match t with
  | TNop => ret tt
  | TCallback c er => call_user (Some c) er
  | TOnwriteError er cb => onwriteError er cb
  | TAfterWrite cb => afterWrite 1 cb
  | TAfterWriteTick info => afterWriteTick info
  | TErrorBuffer => errorBuffer
  | TFinish => finish
  | TFinishMaybe =>
      ready <- gets needFinish;; if ready then finish else modify (count_pending (-1))
  | TEmitErrorClose er => emitErrorNT er;; emitCloseNT
  | TEmitClose => emitCloseNT
  | TEmitError er => emitErrorNT er
  | TConstruct => constructNT
  | TOnConstruct er => onConstruct er
  | TUser c => user (CallTurn c)
  end.

Fixpoint exec (b : body) : W unit :=
  match b with
  | Done => ret tt
  | Fail e => throw e
  | Write c encoding cb k => attempt (write c encoding cb) (fun r => exec (k r))
  | End_ c encoding cb k => attempt (end_ c encoding cb) (fun r => exec (k r))
  | Cork k => cork;; exec k
  | Uncork k => attempt uncork (fun r => exec (k r))
  | Destroy er cb k => attempt (destroy er cb) (fun r => exec (k r))
  | SetDefaultEncoding e k => attempt (setDefaultEncoding e) (fun r => exec (k r))
  | OnWrite er k => attempt (onwrite er) (fun r => exec (k r))
  | OnFinal er k =>
      (* the callback exists once [_final] was called *)
      called <- flag kFinalCalled;;
      if called && has_final E then attempt (onFinish er) (fun r => exec (k r)) else exec (k (Ok tt))
  | OnDestroy d er k => attempt (onDestroy d er) (fun r => exec (k r))
  | OnConstruct er k =>
      modify (fun s => if constructStarted s then nextTick (TOnConstruct er) s else s);; exec k
  | NextTick c k => modify (nextTick (TUser c));; exec k
  end.
End WithUser.

(** A call of the user's code, with fuel for the calls inside it. *)
Fixpoint user (n : nat) (c : call) : W unit :=
  match n with
  | O => fun _ => None
  | S n =>
      b <- gets (fun s => code E (calls s) c);;
      modify (fun s => set_calls (S (calls s)) s);;
      exec (user n) b
  end.

(** ** Turns of the event loop

    A turn runs the first task of the queue, or code of the user.  An exception
    ends the turn. *)
Inductive turn :=
  | Tick
  | Turn (c : positive).

Definition run_turn (n : nat) (t : turn) : W unit :=
  match t with
  | Tick =>
      l <- gets ticks;;
      match l with
      | [] => ret tt
      | x :: l => modify (set_ticks l);; run_task (user n) x
      end
  | Turn c => user n (CallTurn c)
  end.

Fixpoint run_turns (n : nat) (l : list turn) : W unit :=
  match l with
  | [] => ret tt
  | t :: l => attempt (run_turn n t) (fun _ => run_turns n l)
  end.
End WithEnv.

(** ** Accessors *)

Definition getBuffer (s : state) : list entry := entries (buffered s) (bufferedIndex s).
Definition bufferedRequestCount (s : state) : nat := List.length (buffered s) - bufferedIndex s.
Definition writable (s : state) : bool :=
  negb (has (kState s) kHasWritable && negb (has (kState s) kWritable)) &&
  negb (has (kState s) (flags [kEnding; kEnded; kDestroyed; kErrored])).
Definition writableNeedDrain (s : state) : bool :=
  Z.land (kState s) (flags [kDestroyed; kEnding; kNeedDrain]) =? kNeedDrain.
Definition writableAborted (s : state) : bool :=
  negb (Z.land (kState s) (flags [kHasWritable; kWritable]) =? kHasWritable) &&
  has (kState s) (flags [kDestroyed; kErrored]) && negb (has (kState s) kFinished).
End Writable.
