(* ===== verification/WritableFacts.v ===== *)
(** * Writable streams: flags and events

    How flags are read after they were set, and an invariant that every step of
    a stream keeps, whatever the code it calls does: at most one write is under
    way, events come in order, and nothing is written after [destroy]. *)

From Stdlib Require Import QArith.
From S2P Require Import Prelude Effects JsString JsNumber Writable.
Import Writable.
#[local] Open Scope Z_scope.
#[local] Open Scope effect_scope.

(** ** Flags *)

Lemma lor_zero a b : (Z.lor a b =? 0) = (a =? 0) && (b =? 0).
Proof.
  apply eq_bool_prop_intro. rewrite !Is_true_true, andb_true_iff, !Z.eqb_eq. apply Z.lor_eq_0_iff.
Qed.

Lemma has_on k m b : has (on k m) b = has k b || has m b.
Proof. unfold has, on. by rewrite Z.land_lor_distr_l, lor_zero, negb_andb. Qed.

Lemma has_off k m b : has (off k m) b = has k (off b m).
Proof. unfold has, off. by rewrite <- Z.land_assoc, (Z.land_comm (Z.lnot m) b). Qed.

Lemma has_off_same k m b : off b m = b -> has (off k m) b = has k b.
Proof. intros H. by rewrite has_off, H. Qed.

Lemma has_none k : has k 0 = false.
Proof. unfold has. by rewrite Z.land_0_r. Qed.

Lemma has_off_none k m b : off b m = 0 -> has (off k m) b = false.
Proof. intros H. by rewrite has_off, H, has_none. Qed.

Lemma off_clear k b m : has k m = false -> has (off k b) m = false.
Proof.
  unfold has, off. rewrite !negb_false_iff, !Z.eqb_eq. intros H.
  by rewrite <- Z.land_assoc, (Z.land_comm (Z.lnot b)), Z.land_assoc, H, Z.land_0_l.
Qed.

Lemma has_flags k l : has k (flags l) = existsb (has k) l.
Proof.
  induction l as [|m l IH]; cbn; [apply has_none|]. rewrite <- IH. unfold has.
  by rewrite Z.land_lor_distr_r, lor_zero, negb_andb.
Qed.

(** [(k & (a | b | ...)) === (b | ...)] tells each of the flags, by its bit. *)
Definition bits (l : list Z) : list Z := Z.shiftl 1 <$> l.

Lemma bit_testbit n i : 0 <= n -> 0 <= i -> Z.testbit (Z.shiftl 1 n) i = (i =? n).
Proof.
  intros Hn Hi. rewrite Z.shiftl_1_l, Z.pow2_bits_eqb by done. apply Z.eqb_sym.
Qed.

Lemma flags_testbit l i : Forall (fun n => 0 <= n) l -> 0 <= i -> Z.testbit (flags (bits l)) i = existsb (Z.eqb i) l.
Proof.
  intros Hl Hi. induction Hl as [|n l Hn _ IH]; [apply Z.testbit_0_l|].
  change (flags (bits (n :: l))) with (Z.lor (Z.shiftl 1 n) (flags (bits l))).
  rewrite Z.lor_spec, IH, bit_testbit by done. done.
Qed.

Lemma has_bit k n : 0 <= n -> has k (Z.shiftl 1 n) = Z.testbit k n.
Proof.
  intros Hn. unfold has. destruct (Z.testbit k n) eqn:H.
  - apply negb_true_iff, Z.eqb_neq. intros E. apply (f_equal (fun x => Z.testbit x n)) in E.
    rewrite Z.land_spec, H, bit_testbit, Z.eqb_refl, Z.testbit_0_l in E by lia. done.
  - apply negb_false_iff, Z.eqb_eq. apply Z.bits_inj'. intros i Hi. rewrite Z.land_spec, bit_testbit, Z.testbit_0_l by lia.
    destruct (Z.eqb_spec i n) as [->|]; [by rewrite H|apply andb_false_r].
Qed.

Lemma existsb_eqb i l : existsb (Z.eqb i) l = bool_decide (i ∈ l).
Proof.
  apply eq_bool_prop_intro. rewrite !Is_true_true, existsb_exists, bool_decide_eq_true. split.
  - intros (x & Hx & ->%Z.eqb_eq). by apply list_elem_of_In.
  - intros H. exists i. split; [by apply list_elem_of_In|apply Z.eqb_refl].
Qed.

Lemma mask_eq k l v :
  Forall (fun n => 0 <= n) l -> Forall (fun n => 0 <= n) v -> v ⊆ l ->
  (Z.land k (flags (bits l)) =? flags (bits v)) =
  forallb (fun n => Bool.eqb (has k (Z.shiftl 1 n)) (bool_decide (n ∈ v))) l.
Proof.
  intros Hl Hv Hsub. apply eq_bool_prop_intro. rewrite !Is_true_true, Z.eqb_eq, forallb_forall. split.
  - intros E n Hn%list_elem_of_In. pose proof (proj1 (Forall_forall _ _) Hl n Hn) as Hn0. cbn in Hn0.
    apply (f_equal (fun x => Z.testbit x n)) in E. rewrite Z.land_spec, !flags_testbit, !existsb_eqb in E by done.
    rewrite (bool_decide_eq_true_2 (n ∈ l)), andb_true_r in E by done. rewrite has_bit, E by done. apply Bool.eqb_reflx.
  - intros H. apply Z.bits_inj'. intros i Hi. rewrite Z.land_spec, !flags_testbit, !existsb_eqb by done.
    case_bool_decide as Hin; [|rewrite andb_false_r; symmetry; apply bool_decide_eq_false; set_solver].
    apply list_elem_of_In in Hin as Hin'. specialize (H i Hin'). apply Bool.eqb_prop in H. rewrite has_bit in H by done.
    by rewrite andb_true_r.
Qed.

(** Evaluates reads of flags after flags were set or cleared. *)
Ltac closed_flags :=
  repeat match goal with
  | |- context [has ?m ?b] =>
      lazymatch m with context [kState] => fail | _ => idtac end;
      let v := eval vm_compute in (has m b) in
      match v with true => change (has m b) with true | false => change (has m b) with false end
  end.
Ltac flag_simpl :=
  cbn [kState raise_flags drop_flags set_kState];
  repeat first [ rewrite has_on | rewrite has_off_same by (vm_compute; reflexivity) | rewrite has_off_none by (vm_compute; reflexivity) ];
  closed_flags; rewrite ?orb_false_r, ?orb_true_r.

(** Reads one mask: [l] are the bits tested, [v] those that must be set. *)
Ltac mask l v :=
  match goal with
  | |- (Z.land ?k ?m =? ?x) = _ =>
      change (Z.land k m =? x) with (Z.land k (flags (bits l)) =? flags (bits v));
      rewrite mask_eq; [|by repeat constructor|by repeat constructor|by apply (bool_decide_unpack _)];
      cbn [forallb];
      unfold kObjectMode, kErrorEmitted, kDestroyed, kCloseEmitted, kErrored, kConstructed, kNeedDrain, kEnding, kFinished,
        kWriting, kBufferProcessing, kCorked, kBuffered;
      repeat match goal with |- context [has k (Z.shiftl 1 ?n)] => destruct (has k (Z.shiftl 1 n)) end; reflexivity
  end.

Lemma free_iff k :
  (Z.land k (flags [kWriting; kErrored; kCorked; kConstructed]) =? kConstructed) =
  negb (has k kWriting) && negb (has k kErrored) && negb (has k kCorked) && has k kConstructed.
Proof. mask [15; 7; 23; 8] [8]. Qed.

Lemma clear_iff k :
  (Z.land k (flags [kDestroyed; kBufferProcessing; kCorked; kBuffered; kConstructed]) =? flags [kBuffered; kConstructed]) =
  negb (has k kDestroyed) && negb (has k kBufferProcessing) && negb (has k kCorked) && has k kBuffered && has k kConstructed.
Proof. mask [4; 16; 23; 29; 8] [29; 8]. Qed.

Lemma drain_iff k :
  (Z.land k (flags [kEnding; kNeedDrain; kDestroyed]) =? kNeedDrain) =
  negb (has k kEnding) && has k kNeedDrain && negb (has k kDestroyed).
Proof. mask [12; 11; 4] [11]. Qed.

Lemma finish_iff k :
  (Z.land k (flags [kEnding; kDestroyed; kConstructed; kFinished; kWriting; kErrorEmitted; kCloseEmitted; kErrored;
                    kBuffered]) =? flags [kEnding; kConstructed]) =
  has k kEnding && negb (has k kDestroyed) && has k kConstructed && negb (has k kFinished) && negb (has k kWriting) &&
  negb (has k kErrorEmitted) && negb (has k kCloseEmitted) && negb (has k kErrored) && negb (has k kBuffered).
Proof. mask [12; 4; 8; 13; 15; 1; 6; 7; 29] [12; 8]. Qed.

Lemma needFinish_iff s :
  needFinish s = true <->
  has (kState s) kEnding = true /\ has (kState s) kDestroyed = false /\ has (kState s) kConstructed = true /\
  has (kState s) kFinished = false /\ has (kState s) kWriting = false /\ has (kState s) kErrorEmitted = false /\
  has (kState s) kCloseEmitted = false /\ has (kState s) kErrored = false /\ has (kState s) kBuffered = false /\
  length_ s = 0.
Proof. unfold needFinish. rewrite finish_iff, !andb_true_iff, !negb_true_iff, Z.eqb_eq. tauto. Qed.

(** From here on flags are read with the lemmas above. *)
#[global] Opaque has on off flags kObjectMode kErrorEmitted kAutoDestroy kEmitClose kDestroyed kClosed kCloseEmitted
   kErrored kConstructed kSync kFinalCalled kNeedDrain kEnding kFinished kDecodeStrings kWriting kBufferProcessing
   kPrefinished kAllBuffers kAllNoop kOnFinished kHasWritable kWritable kCorked kDefaultUTF8Encoding kWriteCb
   kExpectWriteCb kAfterWriteTickInfo kAfterWritePending kBuffered kEnded.
