(* ===== verification/WritableEvents.v ===== *)
(** * Writable streams: what holds whatever the code they call does *)

From Stdlib Require Import QArith.
From S2P Require Import Prelude Effects JsString JsNumber Writable WritableFacts.
Import Writable.
#[local] Open Scope Z_scope.
#[local] Open Scope effect_scope.

(** ** Traces *)

(** Whether a write is under way; [None] once two writes overlapped. *)
Definition flow_step (o : option bool) (e : event) : option bool :=
  match o, e with
  | Some true, Sunk _ => None
  | Some false, Sunk _ => Some true
  | Some _, Written _ => Some false
  | _, _ => o
  end.
Definition flow (t : list event) : option bool := List.fold_left flow_step t (Some false).

(** Whether ['close'] was emitted; [None] once an event followed that must not.
    A stream with a [_final] may emit ['finish'] after ['close']. *)
Definition order_step (final : bool) (o : option bool) (e : event) : option bool :=
  match o, e with
  | Some true, Emitted (EvError _ | EvDrain | EvPrefinish | EvClose) => None
  | Some true, Emitted EvFinish => if final then o else None
  | Some _, Emitted EvClose => Some true
  | _, _ => o
  end.
Definition order (final : bool) (t : list event) : option bool := List.fold_left (order_step final) t (Some false).

Definition is_error (e : event) : bool := match e with Emitted (EvError _) => true | _ => false end.
Definition is_close (e : event) : bool := match e with Emitted EvClose => true | _ => false end.
Definition is_finish (e : event) : bool := match e with Emitted EvFinish => true | _ => false end.
Definition is_active (e : event) : bool :=
  match e with Accepted _ _ | Sunk _ | Emitted EvDrain => true | _ => false end.
Definition occurs (p : event -> bool) (t : list event) : nat := List.length (List.filter p t).
(** Writes that were accepted or begun, and ['drain']. *)
Definition active (t : list event) : list event := List.filter is_active t.

(** Whether the stream was destroyed; [None] once it was active after that. *)
Definition inert_step (o : option bool) (e : event) : option bool :=
  match o, e with
  | Some true, (Accepted _ _ | Sunk _ | Emitted EvDrain) => None
  | Some _, Destroyed => Some true
  | _, _ => o
  end.
Definition inert (t : list event) : option bool := List.fold_left inert_step t (Some false).

Lemma flow_snoc t e : flow (t ++ [e]) = flow_step (flow t) e.
Proof. unfold flow. by rewrite List.fold_left_app. Qed.
Lemma order_snoc b t e : order b (t ++ [e]) = order_step b (order b t) e.
Proof. unfold order. by rewrite List.fold_left_app. Qed.
Lemma inert_snoc t e : inert (t ++ [e]) = inert_step (inert t) e.
Proof. unfold inert. by rewrite List.fold_left_app. Qed.
Lemma occurs_snoc p t e : occurs p (t ++ [e]) = (occurs p t + if p e then 1 else 0)%nat.
Proof. unfold occurs. rewrite List.filter_app, length_app. cbn. by destruct (p e). Qed.
Lemma active_snoc t e : active (t ++ [e]) = active t ++ if is_active e then [e] else [].
Proof. unfold active. rewrite List.filter_app. cbn. by destruct (is_active e). Qed.

(** ** The invariant *)

Definition b2n (b : bool) : nat := if b then 1 else 0.

Definition is_closing (t : task) : bool := match t with TEmitErrorClose _ | TEmitClose => true | _ => false end.
Definition is_error_task (t : task) : bool := match t with TEmitError _ => true | _ => false end.
Definition closings (l : list task) : nat := List.length (List.filter is_closing l).
(** No ['error'] waits behind a ['close']. *)
Fixpoint errors_first (l : list task) : bool :=
  match l with
  | [] => true
  | t :: l => (if is_closing t then forallb (fun t => negb (is_error_task t)) l else true) && errors_first l
  end.
Abbreviation no_error_task l := (forallb (fun t => negb (is_error_task t)) l).

(** The functions [onDestroy] that were not called yet. *)
Definition uncalled (m : gmap positive (bool * user_cb)) : nat := size (filter (fun p => p.2.1 = false) m).

#[global] Arguments closings : simpl never.
#[global] Arguments uncalled : simpl never.
#[global] Arguments occurs : simpl never.

(** What is known of the code that runs: the number of ['close'] events so far;
    how many ['close'] events are still due in the code that runs; whether
    ['finish'] is due in it; what the stream had done when it was destroyed; and
    whether no ['error'] waits. *)
Record point := Point { closed : nat; due : nat; finishing : nat; dead : option (list event); silent : bool }.

(** What the invariant reads. *)
Definition quiet (s s' : state) : Prop :=
  trace s' = trace s /\ ticks s' = ticks s /\ destroyers s' = destroyers s /\ onKDestroy s' = onKDestroy s /\
  has (kState s') kWriting = has (kState s) kWriting /\ has (kState s') kDestroyed = has (kState s) kDestroyed /\
  has (kState s') kErrorEmitted = has (kState s) kErrorEmitted /\ has (kState s') kFinished = has (kState s) kFinished.

(** A step that the invariant does not see. *)
Ltac quiet_step :=
  intros ?; unfold count_pending, keep_writecb, set_writecb, clear_writecb, checkError, set_errored, resetBuffer;
  repeat case_match; unfold quiet, raise_flags, drop_flags; cbn; repeat split; flag_simpl; reflexivity.

Section WithEnv.
Variable E : env.
Abbreviation final := (has_final E).

Record U (p : point) (s : state) : Prop := {
  u_flow : exists busy, flow (trace s) = Some busy /\ (busy = true -> has (kState s) kWriting = true);
  u_dead : forall a, dead p = Some a -> has (kState s) kDestroyed = true /\ active (trace s) = a;
  u_error : (occurs is_error (trace s) <= b2n (has (kState s) kErrorEmitted))%nat;
  u_budget : (closed p + due p + closings (ticks s) + uncalled (destroyers s) +
              b2n (bool_decide (is_Some (onKDestroy s))) + b2n (negb (has (kState s) kDestroyed)) <= 1)%nat;
  u_closes : occurs is_close (trace s) = closed p;
  u_order : order final (trace s) = Some (0 <? closed p)%nat;
  u_first : errors_first (ticks s) = true;
  u_silent : (silent p = true \/ (0 < closed p)%nat) -> has (kState s) kDestroyed = true /\ no_error_task (ticks s) = true;
  u_finish : final = false ->
    (occurs is_finish (trace s) + finishing p <= b2n (has (kState s) kFinished))%nat /\ TFinish ∉ ticks s;
  u_early : (0 < finishing p)%nat -> closed p = 0%nat;
  u_inert : inert (trace s) = Some (has (kState s) kDestroyed);
}.

Lemma U_quiet p s s' : quiet s s' -> U p s -> U p s'.
Proof.
  intros (E1 & E2 & E3 & E4 & E5 & E6 & E7 & E8) [H1 H2 H3 H4 H5 H6 H7 H8 H9 H10 H11].
  split; rewrite ?E1, ?E2, ?E3, ?E4, ?E5, ?E6, ?E7, ?E8; done.
Qed.

Abbreviation keeps p m := (triple (U p) m (fun _ => U p)).

Lemma wr_keeps_ret {A} p (a : A) : keeps p (ret a).
Proof. by apply triple_ret. Qed.
Lemma wr_keeps_throw {A} p e : keeps p (throw (A := A) e).
Proof. by apply triple_throw. Qed.
Lemma wr_keeps_gets {A} p (f : state -> A) : keeps p (gets f).
Proof. by apply triple_gets. Qed.
Lemma wr_keeps_bind {A B} p (m : W A) (k : A -> W B) : keeps p m -> (forall a, keeps p (k a)) -> keeps p (bind m k).
Proof. intros Hm Hk. eapply triple_bind; [|exact Hk]. eapply triple_weaken; [exact Hm|done|]. by intros []. Qed.
Lemma wr_keeps_attempt {A B} p (m : W A) (k : result A -> W B) : keeps p m -> (forall r, keeps p (k r)) -> keeps p (attempt m k).
Proof. intros Hm Hk. eapply triple_attempt; [exact Hm|exact Hk]. Qed.
Lemma wr_keeps_modify p f : (forall s, U p s -> U p (f s)) -> keeps p (modify f).
Proof. intros Hf. by apply triple_modify. Qed.
Lemma wr_keeps_quiet p f : (forall s, quiet s (f s)) -> keeps p (modify f).
Proof. intros Hf. apply wr_keeps_modify. intros s. by apply U_quiet. Qed.
Lemma wr_keeps_stuck {A} p : keeps p (fun _ => None : option (state * result A)).
Proof. by intros s s' r _. Qed.

(** A flag is read, then the code depends on it. *)
Lemma triple_read {A B} (P : state -> Prop) (f : state -> A) (k : A -> W B) Q :
  (forall a, triple (fun s => P s /\ f s = a) (k a) Q) -> triple P (bind (gets f) k) Q.
Proof. intros H. eapply (triple_bind _ _ _ (fun a s => P s /\ f s = a)); [by apply triple_gets|exact H]. Qed.

(** ** Steps *)

Ltac log_simpl :=
  unfold log, raise_flags, drop_flags;
  cbn [trace set_trace set_kState kState ticks destroyers onKDestroy closed due finishing dead silent] in *;
  rewrite ?flow_snoc, ?order_snoc, ?inert_snoc, ?occurs_snoc, ?active_snoc; cbn [is_error is_close is_finish is_active];
  rewrite ?Nat.add_0_r, ?app_nil_r.

Lemma U_live_closed p s : has (kState s) kDestroyed = false -> U p s -> closed p = 0%nat.
Proof. intros HD []. rewrite HD in u_budget0. cbn in u_budget0. lia. Qed.

Lemma U_live_dead p s : has (kState s) kDestroyed = false -> U p s -> dead p = None.
Proof. intros HD []. destruct (dead p) as [a|]; [|done]. destruct (u_dead0 a eq_refl). congruence. Qed.

(** Proves the invariant after an event or a change of flags; what is left are
    the parts that the step affects. *)
Ltac steps H :=
  let b := fresh "busy" in let F := fresh "F" in let HF := fresh "HF" in
  destruct H as [(b & F & HF) Hdead Herr Hbudget Hcloses Horder Hfirst Hsilent Hfinish Hearly Hinert];
  split; flag_simpl; log_simpl; rewrite ?F, ?Horder, ?Hinert; flag_simpl; try done;
  try (match goal with |- inert_step (Some ?d) _ = Some ?d => by destruct d end);
  try (exists b; split; [by destruct b|done]).

Lemma U_called p c er s : U p s -> U p (log (Called c er) s).
Proof. intros H. steps H. by destruct (0 <? closed p)%nat. Qed.

Lemma U_accepted p c e s : has (kState s) kDestroyed = false -> U p s -> U p (log (Accepted c e) s).
Proof.
  intros HD H. pose proof (U_live_dead p s HD H) as Ha. steps H; [congruence|by destruct (0 <? closed p)%nat].
Qed.

(** A write begins: the flag is set before the write is passed on. *)
Definition begun (p : point) (s : state) : Prop :=
  U p s /\ flow (trace s) = Some false /\ has (kState s) kWriting = true.

Lemma U_begin p s :
  has (kState s) kWriting = false -> U p s -> begun p (raise_flags (flags [kWriting; kSync; kExpectWriteCb]) s).
Proof.
  intros HW H. assert (flow (trace s) = Some false) as Hf.
  { destruct (u_flow p s H) as ([|] & F & HF); [|done]. by rewrite HF in HW. }
  split; [|split; [done|by flag_simpl]]. steps H.
Qed.

Lemma U_sunk p l s : has (kState s) kDestroyed = false -> begun p s -> U p (log (Sunk l) s).
Proof.
  intros HD (H & Hf & HW). pose proof (U_live_dead p s HD H) as Ha.
  steps H; [|congruence|by destruct (0 <? closed p)%nat]. assert (busy = false) as -> by congruence. by exists true.
Qed.

Lemma U_written p er s : U p s -> U p (log (Written er) (drop_flags (flags [kWriting; kExpectWriteCb]) s)).
Proof. intros H. steps H; [|by destruct (0 <? closed p)%nat]. exists false. by destruct busy. Qed.

Lemma U_drain p s : has (kState s) kDestroyed = false -> U p s -> U p (log (Emitted EvDrain) s).
Proof.
  intros HD H. pose proof (U_live_dead p s HD H) as Ha. pose proof (U_live_closed p s HD H) as Hc.
  steps H; [congruence|by rewrite Hc].
Qed.

Lemma U_prefinish p s : has (kState s) kDestroyed = false -> U p s -> U p (log (Emitted EvPrefinish) s).
Proof. intros HD H. pose proof (U_live_closed p s HD H) as Hc. steps H. by rewrite Hc. Qed.

Lemma U_error p er s :
  closed p = 0%nat -> has (kState s) kErrorEmitted = false -> U p s ->
  U p (log (Emitted (EvError er)) (raise_flags kErrorEmitted s)).
Proof. intros Hc HE H. steps H; [|by rewrite Hc]. rewrite HE in Herr. cbn in *. lia. Qed.

(** *** ['close'] *)

(** One more ['close'] is due in the code that runs. *)
Definition give (p : point) : point := Point (closed p) (S (due p)) (finishing p) (dead p) (silent p).

Lemma U_drop p s : U (give p) s -> U p s.
Proof. intros []. split; try done. cbn in *. lia. Qed.

Lemma U_destroyed p s : has (kState s) kDestroyed = false -> U p s -> U (give p) (log Destroyed (raise_flags kDestroyed s)).
Proof.
  intros HD H. pose proof (U_live_dead p s HD H) as Ha. steps H.
  - cbn. congruence.
  - rewrite HD in Hbudget. cbn in *. lia.
  - change (closed (give p)) with (closed p). by destruct (0 <? closed p)%nat.
  - intros Hs. cbn in Hs. destruct (Hsilent Hs). congruence.
  - by destruct (has (kState s) kDestroyed).
Qed.

Lemma U_wait p x s : U (give p) s -> U p (set_onKDestroy (Some x) s).
Proof.
  intros []. split; try done. cbn in *. lia.
Qed.

Lemma U_wake p x s : onKDestroy s = Some x -> U p s -> U (give p) (set_onKDestroy None s).
Proof.
  intros Hx []. split; try done. rewrite Hx in u_budget0. cbn in *. lia.
Qed.

Lemma uncalled_insert m d cb : (uncalled (<[d := (false, cb)]> m) <= S (uncalled m))%nat.
Proof.
  unfold uncalled. rewrite map_filter_insert_True by done.
  destruct (filter (fun p => p.2.1 = false) m !! d) eqn:H.
  - rewrite map_size_insert_Some by (by eexists). lia.
  - rewrite map_size_insert_None by done. lia.
Qed.

Lemma uncalled_call m d cb : m !! d = Some (false, cb) -> S (uncalled (<[d := (true, cb)]> m)) = uncalled m.
Proof.
  intros Hd. unfold uncalled. rewrite map_filter_insert_False by done. rewrite map_filter_delete, map_size_delete_Some.
  - assert (filter (fun p => p.2.1 = false) m !! d = Some (false, cb)) as Hf by by apply map_lookup_filter_Some.
    assert (size (filter (fun p => p.2.1 = false) m) <> 0%nat); [|lia].
    intros H0%map_size_empty_inv. by rewrite H0, lookup_empty in Hf.
  - eexists. by apply map_lookup_filter_Some.
Qed.

Lemma U_alloc p d cb s : U (give p) s -> U p (set_destroyers (<[d := (false, cb)]> (destroyers s)) s).
Proof.
  intros []. split; try done. cbn in *. pose proof (uncalled_insert (destroyers s) d cb). lia.
Qed.

Lemma U_call p d cb s :
  destroyers s !! d = Some (false, cb) -> U p s -> U (give p) (set_destroyers (<[d := (true, cb)]> (destroyers s)) s).
Proof.
  intros Hd []. split; try done. cbn in *. pose proof (uncalled_call (destroyers s) d cb Hd). lia.
Qed.

(** *** Ticks *)

Lemma closings_snoc l t : closings (l ++ [t]) = (closings l + b2n (is_closing t))%nat.
Proof. unfold closings. rewrite List.filter_app, length_app. cbn. by destruct (is_closing t). Qed.

Lemma closings_zero l : closings l = 0%nat -> forallb (fun t => negb (is_closing t)) l = true.
Proof. unfold closings. induction l as [|t l IH]; cbn; [done|]. by destruct (is_closing t). Qed.

Lemma errors_first_snoc l t :
  is_error_task t = false \/ closings l = 0%nat -> errors_first (l ++ [t]) = errors_first l.
Proof.
  intros H. induction l as [|x l IH]; cbn; [by destruct (is_closing t)|].
  unfold closings in H. cbn in H. destruct (is_closing x).
  - destruct H as [H|H]; [|done]. rewrite forallb_app, IH by by left. cbn. by rewrite H, andb_true_r.
  - by rewrite IH.
Qed.

(** What a task needs to be queued. *)
Lemma U_nextTick p t s :
  is_closing t = false -> (is_error_task t = true -> has (kState s) kDestroyed = false) -> (final = false -> t <> TFinish) ->
  U p s -> U p (nextTick t s).
Proof.
  intros Ht He Hf H. pose proof (U_live_closed p s) as Hlive. destruct H. unfold nextTick. split; cbn; try done.
  - rewrite closings_snoc, Ht. cbn. lia.
  - rewrite errors_first_snoc; [done|]. destruct (is_error_task t); [right|by left].
    rewrite (He eq_refl) in u_budget0. cbn in u_budget0. lia.
  - intros Hs. destruct (u_silent0 Hs) as [HD Hn]. split; [done|]. rewrite forallb_app, Hn. cbn.
    destruct (is_error_task t); [|done]. by rewrite He in HD.
  - intros F. destruct (u_finish0 F) as [H1 H2]. split; [done|]. rewrite not_elem_of_app, list_elem_of_singleton.
    split; [done|]. intros <-. by apply Hf.
Qed.

Lemma U_nextTick_close p t s : is_closing t = true -> U (give p) s -> U p (nextTick t s).
Proof.
  intros Ht []. unfold nextTick. split; cbn in *; try done.
  - rewrite closings_snoc, Ht. cbn. lia.
  - rewrite errors_first_snoc; [done|]. left. by destruct t.
  - intros Hs. destruct (u_silent0 Hs) as [HD Hn]. split; [done|]. rewrite forallb_app, Hn. cbn. by destruct t.
  - intros F. destruct (u_finish0 F) as [H1 H2]. split; [done|]. rewrite not_elem_of_app, list_elem_of_singleton.
    split; [done|]. by intros <-.
Qed.

Lemma U_pop p t l s : is_closing t = false -> ticks s = t :: l -> U p s -> U p (set_ticks l s).
Proof.
  intros Ht Hl []. rewrite Hl in *. unfold closings in *. cbn in *. rewrite Ht in *. split; try done; cbn.
  - intros Hs. destruct (u_silent0 Hs) as [HD [_ Hn]%andb_true_iff]. done.
  - intros F. destruct (u_finish0 F) as [H1 H2]. set_solver.
Qed.

Definition mute (p : point) : point := Point (closed p) (due p) (finishing p) (dead p) true.

Lemma U_pop_close p t l s :
  is_closing t = true -> ticks s = t :: l -> U p s -> U (give (mute p)) (set_ticks l s) /\ closed p = 0%nat.
Proof.
  intros Ht Hl []. rewrite Hl in *. unfold closings in *. cbn in *. rewrite Ht in *. cbn in *. split; [|lia].
  split; try done; cbn.
  - unfold closings. lia.
  - by apply andb_true_iff in u_first0 as [_ H].
  - intros _. split; [|by apply andb_true_iff in u_first0 as [H _]]. destruct (has (kState s) kDestroyed); [done|]. cbn in *. lia.
  - intros F. destruct (u_finish0 F) as [H1 H2]. set_solver.
Qed.

(** An ['error'] that waits is not late. *)
Lemma U_error_waits p er l s : ticks s = TEmitError er :: l -> U p s -> closed p = 0%nat.
Proof.
  intros Hl []. destruct (closed p) eqn:Hc; [done|]. destruct (u_silent0 ltac:(right; lia)) as [_ Hn].
  rewrite Hl in Hn. done.
Qed.

Lemma U_close p s :
  silent p = true -> finishing p = 0%nat -> closed p = 0%nat -> U (give p) s ->
  U (Point 1 (due p) 0 (dead p) true) (log (Emitted EvClose) (raise_flags kCloseEmitted s)).
Proof.
  intros Hs Hf Hc H. steps H; cbn in *; rewrite ?Hc, ?Hf in *.
  - lia.
  - lia.
  - done.
  - intros _. apply Hsilent. by left.
  - intros F0. destruct (Hfinish F0) as [H1 H2]. split; [lia|done].
  - lia.
Qed.

(** *** ['finish'] *)

(** ['finish'] is due, when it is announced only once. *)
Definition fin (p : point) : point :=
  if final then p else Point (closed p) (due p) (S (finishing p)) (dead p) (silent p).

Lemma U_fin p s :
  (final = false -> has (kState s) kFinished = false /\ has (kState s) kDestroyed = false) ->
  U p s -> U (fin p) (raise_flags kFinished s).
Proof.
  intros Hc H. pose proof (U_live_closed p s) as Hlive. unfold fin. destruct final eqn:F0.
  - steps H. congruence.
  - destruct (Hc eq_refl) as [H1 H2]. specialize (Hlive H2 H). steps H. intros _. destruct (Hfinish F0) as [H3 H4].
    rewrite H1 in H3. cbn in *. split; [lia|done].
Qed.

Lemma U_fin_drop p s : U (fin p) s -> U p s.
Proof.
  unfold fin. destruct final eqn:F0; [done|]. intros []. split; try done; cbn in *.
  - intros _. destruct (u_finish0 F0). split; [lia|done].
  - intros H. apply u_early0. lia.
Qed.

Lemma U_finished p s : U (fin p) s -> U p (log (Emitted EvFinish) s).
Proof.
  unfold fin. destruct final eqn:F0; intros H; steps H.
  - rewrite F0 in *. by destruct (0 <? closed p)%nat.
  - congruence.
  - cbn in *. rewrite F0, (Hearly ltac:(lia)). done.
  - intros _. destruct (Hfinish F0). cbn in *. split; [lia|done].
  - cbn in *. intros. apply Hearly. lia.
Qed.

(** ** Operations *)

Create HintDb keeps.
Hint Resolve wr_keeps_ret wr_keeps_throw wr_keeps_gets wr_keeps_stuck : keeps.

(** One step of the code. *)
Ltac walk1 :=
  lazymatch goal with
  | |- triple _ (bind (gets _) _) _ => apply wr_keeps_bind; [apply wr_keeps_gets|intros ?]
  | |- triple _ (bind (flag _) _) _ => apply wr_keeps_bind; [apply wr_keeps_gets|intros ?]
  | |- triple _ (bind (modify _) _) _ => apply wr_keeps_bind; [apply wr_keeps_quiet; quiet_step|intros _]
  | |- triple _ (modify _) _ => apply wr_keeps_quiet; quiet_step
  | |- triple _ (bind _ _) _ => apply wr_keeps_bind; [|intros ?]
  | |- triple _ (if ?b then _ else _) _ => destruct b
  | |- triple _ (match ?x with _ => _ end) _ => destruct x
  end.
Ltac walk := repeat (first [solve [auto with keeps] | walk1]).

Section WithUser.
Context (user : call -> W unit) (Huser : forall p c, keeps p (user c)).
Hint Resolve Huser : keeps.

Lemma wr_keeps_nextTick p t :
  is_closing t = false -> is_error_task t = false -> (final = false -> t <> TFinish) -> keeps p (modify (nextTick t)).
Proof. intros H1 H2 H3. apply wr_keeps_modify. intros s. apply U_nextTick; [done|intros; congruence|done]. Qed.

Lemma wr_keeps_call_user p c er : keeps p (call_user user c er).
Proof.
  unfold call_user. destruct c; [|auto with keeps]. apply wr_keeps_bind; [|auto with keeps].
  apply wr_keeps_modify. intros s. apply U_called.
Qed.
Hint Resolve wr_keeps_call_user : keeps.

Lemma wr_keeps_batch p n : forall arr i er, keeps p (batch_loop user n arr i er).
Proof. induction n as [|n IH]; intros arr i er; cbn [batch_loop]; walk. Qed.
Hint Resolve wr_keeps_batch : keeps.

Lemma wr_keeps_call_cb p cb er : keeps p (call_cb E user cb er).
Proof. destruct cb; cbn [call_cb]; auto with keeps. Qed.

Lemma wr_keeps_call_all p l er : keeps p (call_all user l er).
Proof. induction l as [|c l IH]; cbn [call_all]; walk. Qed.
Hint Resolve wr_keeps_call_cb wr_keeps_call_all : keeps.

Lemma wr_keeps_finished_callbacks p er : keeps p (callFinishedCallbacks user er).
Proof. unfold callFinishedCallbacks. walk. Qed.

Lemma wr_keeps_error_loop p n : forall i, keeps p (error_loop user n i).
Proof. induction n as [|n IH]; intros i; cbn [error_loop]; walk. Qed.
Hint Resolve wr_keeps_finished_callbacks wr_keeps_error_loop : keeps.

Lemma wr_keeps_errorBuffer p : keeps p (errorBuffer E user).
Proof. unfold errorBuffer. walk. Qed.
Hint Resolve wr_keeps_errorBuffer : keeps.

(** **** Destroying *)

Lemma give_bind {A B} p (m : W A) (k : A -> W B) :
  keeps (give p) m -> (forall a, triple (U (give p)) (k a) (fun _ => U p)) -> triple (U (give p)) (bind m k) (fun _ => U p).
Proof.
  intros Hm Hk. eapply triple_bind; [|exact Hk]. eapply triple_weaken; [exact Hm|done|].
  intros [a|e] s H; [done|]. by apply U_drop.
Qed.

Lemma wr_keeps_onDestroy p d er : keeps p (onDestroy user d er).
Proof.
  unfold onDestroy. apply triple_read. intros [[[|] cb]|]; try (by apply triple_ret; intros s []).
  eapply (triple_bind _ _ _ (fun _ => U (give p))).
  { apply triple_modify. intros s [H Hd]. by apply U_call. }
  intros _. apply give_bind; [apply wr_keeps_quiet; quiet_step|]. intros _.
  apply give_bind; [apply wr_keeps_quiet; quiet_step|]. intros _. apply give_bind; [apply wr_keeps_call_user|]. intros _.
  apply triple_modify. intros s H. apply U_nextTick_close; [by destruct er|done].
Qed.
Hint Resolve wr_keeps_onDestroy : keeps.

Lemma gives_destroy p er cb : triple (U (give p)) (_destroy user er cb) (fun _ => U p).
Proof.
  unfold _destroy. eapply (triple_bind _ _ _ (fun _ => U (give p))); [by apply triple_gets|]. intros d.
  eapply (triple_bind _ _ _ (fun _ => U p)).
  { apply triple_modify. intros s H. apply (U_quiet _ (set_destroyers (<[d := (false, cb)]> (destroyers s)) s)); [done|].
    by apply U_alloc. }
  intros _. apply wr_keeps_attempt; [auto with keeps|]. intros [a|e]; auto with keeps.
Qed.

(** The stream is not destroyed. *)
Definition live (p : point) (s : state) : Prop := U p s /\ has (kState s) kDestroyed = false.

Lemma live_quiet p f : (forall s, quiet s (f s)) -> triple (live p) (modify f) (fun _ => live p).
Proof.
  intros Hf. apply triple_modify. intros s [H HD]. split; [by eapply U_quiet|].
  destruct (Hf s) as (_ & _ & _ & _ & _ & -> & _). done.
Qed.

Lemma wr_keeps_base_destroy p er cb : keeps p (base_destroy user er cb).
Proof.
  unfold base_destroy, flag. apply triple_read. intros [|].
  { eapply triple_weaken; [apply (wr_keeps_call_user p)| |]; [|done]. by intros s []. }
  eapply (triple_bind _ _ _ (fun _ => live p)); [|intros _].
  { eapply triple_weaken; [apply (live_quiet p (checkError er)); quiet_step| |].
    - intros s H. exact H.
    - intros [a|e] s H; [exact H|apply H]. }
  eapply (triple_bind _ _ _ (fun _ => U (give p))); [apply triple_modify; intros s [H HD]; by apply U_destroyed|].
  intros _. eapply (triple_bind _ _ _ (fun _ => U (give p))); [by apply triple_gets|].
  intros [|]; [apply gives_destroy|]. apply triple_modify. intros s. apply U_wait.
Qed.

Lemma wr_keeps_destroy p er cb : keeps p (destroy user er cb).
Proof.
  unfold destroy. apply wr_keeps_bind; [|intros _; apply wr_keeps_base_destroy]. apply wr_keeps_modify. intros s H.
  case_match; [|done]. by apply U_nextTick.
Qed.
Hint Resolve wr_keeps_destroy : keeps.

Lemma wr_keeps_emit p ev :
  (forall s, U p s -> U p (log (Emitted ev) s)) -> keeps p (emit user ev).
Proof. intros H. unfold emit. apply wr_keeps_bind; [by apply wr_keeps_modify|]. auto with keeps. Qed.

Lemma wr_keeps_emitError p er : closed p = 0%nat -> keeps p (emitErrorNT user er).
Proof.
  intros Hc. unfold emitErrorNT, flag. apply triple_read. intros [|]; [by apply triple_ret; intros s []|].
  unfold emit. intros s s' r [H HE] Hrun.
  assert (U p (log (Emitted (EvError er)) (raise_flags kErrorEmitted s))) as H1 by by apply U_error.
  exact (Huser p (CallListener (EvError er)) _ _ _ H1 Hrun).
Qed.

Lemma wr_keeps_errorOrDestroy p er sync : keeps p (errorOrDestroy user er sync).
Proof.
  unfold errorOrDestroy, flag. apply triple_read. intros [|]; [by apply triple_ret; intros s []|].
  apply triple_read. intros [|].
  { eapply triple_weaken; [apply (wr_keeps_destroy p)| |]; [|done]. by intros s [[H _] _]. }
  destruct er as [er|]; [|by apply triple_ret; intros s [[H _] _]].
  eapply (triple_bind _ _ _ (fun _ => live p)); [|intros _].
  { eapply triple_weaken; [apply (live_quiet p); quiet_step| |].
    - intros s [H _]. exact H.
    - intros [a|e] s H; [exact H|apply H]. }
  destruct sync.
  - apply triple_modify. intros s [H HD]. by apply U_nextTick.
  - intros s s' r [H HD] Hrun. by eapply (wr_keeps_emitError p er); [eapply U_live_closed| |].
Qed.
Hint Resolve wr_keeps_errorOrDestroy : keeps.

(** **** Finishing *)

Lemma live_emit p ev :
  (forall s, live p s -> U p (log (Emitted ev) s)) -> triple (live p) (emit user ev) (fun _ => U p).
Proof.
  intros H. unfold emit. eapply (triple_bind _ _ _ (fun _ => U p)); [by apply triple_modify|]. auto with keeps.
Qed.

Lemma needFinish_live p s : U p s /\ needFinish s = true -> live p s.
Proof. intros [H (_ & HD & _)%needFinish_iff]. by split. Qed.

Lemma wr_keeps_onFinish p er : final = true -> keeps p (onFinish user er).
Proof.
  intros Hfinal. unfold onFinish. walk1. destruct a; [auto with keeps|]. walk1. destruct er as [e|].
  { apply wr_keeps_bind; [auto with keeps|]. intros _. walk1. auto with keeps. }
  apply triple_read. intros [|]; [|by apply triple_ret; intros s []].
  eapply (triple_bind _ _ _ (fun _ => live p)); [|intros _].
  { eapply triple_weaken; [apply (live_quiet p); quiet_step|apply needFinish_live|].
    intros [a|e] s H; [exact H|apply H]. }
  eapply (triple_bind _ _ _ (fun _ => U p)); [|intros _].
  { eapply triple_weaken; [apply (live_emit p EvPrefinish)|done|by intros []]. intros s [H HD]. by apply U_prefinish. }
  walk1. apply wr_keeps_modify. intros s. apply U_nextTick; congruence || done.
Qed.

Lemma wr_keeps_prefinish p : triple (live p) (prefinish E user) (fun _ => U p).
Proof.
  unfold prefinish, flag. eapply (triple_bind _ _ _ (fun _ => live p)); [by apply triple_gets|].
  intros [|]; [by apply triple_ret; intros s []|]. eapply (triple_bind _ _ _ (fun _ => live p)); [by apply triple_gets|].
  intros d. destruct (has_final E && negb d) eqn:F.
  - apply andb_true_iff in F as [F _]. eapply (triple_weaken (U p) _ _ (fun _ => U p)); [|by intros s []|done].
    walk1. walk1. apply wr_keeps_bind; [|intros _; walk1].
    apply wr_keeps_attempt; [auto with keeps|]. intros [a|e]; [auto with keeps|]. by apply wr_keeps_onFinish.
  - eapply (triple_bind _ _ _ (fun _ => live p)); [|intros _].
    { eapply triple_weaken; [apply (live_quiet p); quiet_step|done|]. intros [a|e] s H; [exact H|apply H]. }
    apply live_emit. intros s [H HD]. by apply U_prefinish.
Qed.

Lemma wr_keeps_finish p :
  triple (fun s => U p s /\ (final = false -> has (kState s) kFinished = false /\ has (kState s) kDestroyed = false))
    (finish user) (fun _ => U p).
Proof.
  unfold finish.
  eapply (triple_bind _ _ _ (fun _ s => U p s /\ (final = false -> has (kState s) kFinished = false /\
            has (kState s) kDestroyed = false))); [apply triple_modify|intros _].
  { intros s [H Hc]. split; [|done]. by apply (U_quiet p s). }
  eapply (triple_bind _ _ _ (fun _ => U (fin p))); [apply triple_modify|intros _].
  { intros s [H Hc]. by apply U_fin. }
  eapply (triple_bind _ _ _ (fun _ => U (fin p))); [|intros _].
  { eapply triple_weaken; [apply (wr_keeps_finished_callbacks (fin p))|done|].
    intros [a|e] s H; [done|by apply U_fin_drop]. }
  eapply (triple_bind _ _ _ (fun _ => U p)); [|intros _; walk].
  unfold emit. eapply (triple_bind _ _ _ (fun _ => U p)); [apply triple_modify; intros s; apply U_finished|].
  intros _. eapply triple_weaken; [apply (Huser p)|done|by intros []].
Qed.

Lemma wr_keeps_finishMaybe p sync : keeps p (finishMaybe E user sync).
Proof.
  unfold finishMaybe. apply triple_read. intros [|]; [|by apply triple_ret; intros s []].
  eapply (triple_bind _ _ _ (fun _ => U p)); [|intros _].
  { eapply triple_weaken; [apply wr_keeps_prefinish|apply needFinish_live|by intros []]. }
  walk1. destruct (a =? 0); [|auto with keeps]. destruct sync.
  - walk1. by apply wr_keeps_nextTick.
  - apply triple_read. intros [|]; [|by apply triple_ret; intros s []].
    intros s s' r [H Hn] Hrun. apply needFinish_iff in Hn as (_ & HD & _ & HF & _). revert Hrun.
    apply wr_keeps_finish. split; [|done]. by apply (U_quiet p s).
Qed.
Hint Resolve wr_keeps_finishMaybe : keeps.

(** **** After a write *)

Lemma wr_keeps_after_loop p n cb : keeps p (after_loop E user n cb).
Proof. induction n as [|n IH]; cbn [after_loop]; walk. Qed.
Hint Resolve wr_keeps_after_loop : keeps.

Lemma wr_keeps_afterWrite p n cb : keeps p (afterWrite E user n cb).
Proof.
  unfold afterWrite. walk1. apply triple_read. intros drain.
  eapply (triple_bind _ _ _ (fun _ => U p)); [|intros _; walk]. destruct drain; [|by apply triple_ret; intros s []].
  eapply (triple_bind _ _ _ (fun _ => live p)); [|intros _].
  { eapply triple_weaken; [apply (live_quiet p); quiet_step| |].
    - intros s [H Hd]. rewrite drain_iff, !andb_true_iff, !negb_true_iff in Hd. split; tauto.
    - intros [a|e] s H; [exact H|apply H]. }
  eapply triple_weaken; [apply (live_emit p EvDrain)|done|by intros []]. intros s [H HD]. by apply U_drain.
Qed.
Hint Resolve wr_keeps_afterWrite : keeps.

Lemma wr_keeps_onwriteError p er cb : keeps p (onwriteError E user er cb).
Proof. unfold onwriteError. walk. Qed.

Lemma wr_keeps_settle p : keeps p (settle E user).
Proof. unfold settle. walk. Qed.
Hint Resolve wr_keeps_onwriteError wr_keeps_settle : keeps.

Lemma wr_keeps_schedule p cb : keeps p (modify (schedule_tick cb)).
Proof.
  apply wr_keeps_modify. intros s H. unfold schedule_tick.
  eapply U_quiet; [|apply (U_nextTick p (TAfterWriteTick (next s)) s); [done..|exact H]].
  repeat split; flag_simpl; reflexivity.
Qed.
Hint Resolve wr_keeps_schedule : keeps.

Lemma wr_keeps_written_sync p cb : keeps p (written_sync E user cb).
Proof.
  unfold written_sync. walk1. walk1. destruct (bool_decide (cb = Nop)).
  - walk1. destruct (negb a1 && _); [|auto with keeps]. apply wr_keeps_bind; [by apply wr_keeps_nextTick|]. intros _. walk1.
  - walk.
Qed.
Hint Resolve wr_keeps_written_sync : keeps.

(** **** Writing *)

(** No write is under way; with [d], the stream is not destroyed either. *)
Definition free (d : bool) (p : point) (s : state) : Prop :=
  U p s /\ has (kState s) kWriting = false /\ (d = true -> has (kState s) kDestroyed = false).

Lemma free_U d p s : free d p s -> U p s.
Proof. by intros []. Qed.

Lemma free_quiet d p f : (forall s, quiet s (f s)) -> triple (free d p) (modify f) (or_throw (U p) (fun _ => free d p)).
Proof.
  intros Hf. apply triple_modify. intros s (H & HW & HD). split; [by eapply U_quiet|].
  destruct (Hf s) as (_ & _ & _ & _ & -> & -> & _). done.
Qed.

(** A step before a write begins. *)
Lemma free_then {A} d p f (m : W A) Q :
  (forall s, quiet s (f s)) -> triple (free d p) m Q -> triple (free d p) (modify f;; m) Q.
Proof.
  intros Hf Hm. eapply (triple_bind _ _ _ (fun _ => free d p)); [|by intros _].
  intros s s' r H [= <- <-]. exact (free_quiet d p f Hf s (f s) (Ok tt) H eq_refl).
Qed.

Lemma free_read {A B} d p (f : state -> A) (k : A -> W B) Q :
  (forall a, triple (free d p) (k a) Q) -> triple (free d p) (bind (gets f) k) Q.
Proof. intros H. eapply (triple_bind _ _ _ (fun _ => free d p)); [by apply triple_gets|exact H]. Qed.

Lemma from_U {A} (P : state -> Prop) p (m : W A) : (forall s, P s -> U p s) -> keeps p m -> triple P m (fun _ => U p).
Proof. intros HP Hm. by eapply triple_weaken. Qed.

Lemma wr_keeps_onwrite_with p clear er :
  triple (free false p) clear (fun _ => U p) -> keeps p (onwrite_with E user clear er).
Proof.
  intros Hclear. unfold onwrite_with. walk1. destruct (negb a); [auto with keeps|]. walk1. walk1. walk1.
  eapply (triple_bind _ _ _ (fun _ => free false p)); [apply triple_modify|intros _].
  { intros s H. split; [by apply U_written|]. split; [unfold log, drop_flags; cbn; by flag_simpl|done]. }
  apply free_then; [quiet_step|]. destruct er as [e|].
  - apply (from_U _ p); [by intros s []|]. walk1. destruct a0; [by apply wr_keeps_nextTick|auto with keeps].
  - apply free_read. intros b. eapply (triple_bind _ _ _ (fun _ => U p)).
    + destruct b; [|by apply triple_ret; intros s []]. eapply triple_weaken; [exact Hclear|done|by intros []].
    + intros _. destruct a0; auto with keeps.
Qed.

Lemma begun_U p s : begun p s -> U p s.
Proof. by intros []. Qed.

(** The write is passed to the stream's own code. *)
Lemma sinks_writev p l b :
  triple (fun s => begun p s /\ has (kState s) kDestroyed = false) (stream_writev user l b) (fun _ => U p).
Proof.
  unfold stream_writev. eapply (triple_bind _ _ _ (fun _ => U p)); [apply triple_modify|intros _; auto with keeps].
  intros s [H HD]. by apply U_sunk.
Qed.

Lemma sinks_write p c e :
  triple (fun s => begun p s /\ has (kState s) kDestroyed = false) (stream_write E user c e) (fun _ => U p).
Proof.
  unfold stream_write. destruct (has_write E).
  - eapply (triple_bind _ _ _ (fun _ => U p)); [apply triple_modify|intros _; auto with keeps].
    intros s [H HD]. by apply U_sunk.
  - destruct (has_writev E); [apply sinks_writev|]. apply triple_throw. by intros s [[] _].
Qed.

Lemma wr_keeps_doWrite p size sink cb :
  triple (fun s => begun p s /\ has (kState s) kDestroyed = false) sink (fun _ => U p) ->
  triple (free false p) (doWrite E user size sink cb) (fun _ => U p).
Proof.
  intros Hsink. unfold doWrite. apply free_then; [quiet_step|]. apply free_then; [quiet_step|].
  eapply (triple_bind _ _ _ (fun _ => begun p)); [apply triple_modify|intros _].
  { intros s (H & HW & _). by apply U_begin. }
  apply triple_read. intros d. eapply (triple_bind _ _ _ (fun _ => U p)); [|intros _; walk].
  destruct d.
  - eapply triple_weaken; [apply (wr_keeps_onwrite_with p (ret tt))| |by intros []].
    + apply triple_ret. by intros s [].
    + intros s [H _]. by apply begun_U.
  - eapply triple_weaken; [exact Hsink|done|by intros []].
Qed.

Lemma wr_keeps_clear_loop p n : forall arr i, triple (free false p) (clear_loop E user n arr i) (fun _ => U p).
Proof.
  induction n as [|n IH]; intros arr i; cbn [clear_loop]; [by intros s s' r _|]. apply free_read.
  intros [[e|]|]; try (by apply triple_throw; intros s []). apply free_then; [quiet_step|]. apply free_read. intros size.
  eapply (triple_bind _ _ _ (fun _ => U p)).
  { eapply triple_weaken; [apply wr_keeps_doWrite, sinks_write|done|by intros []]. }
  intros _. apply triple_read. intros [|]; [|by apply triple_ret; intros s []].
  eapply triple_weaken; [apply IH| |done]. intros s [H Hm]. apply andb_true_iff in Hm as [_ Hm%negb_true_iff]. by split.
Qed.

Lemma wr_keeps_clearBuffer p : triple (free false p) (clearBuffer E user) (fun _ => U p).
Proof.
  unfold clearBuffer. do 4 (apply free_read; intros ?). destruct (_ || _); [by apply triple_ret; intros s []|].
  apply free_then; [quiet_step|]. eapply (triple_bind _ _ _ (fun _ => U p)); [|intros _; walk]. destruct (_ && _).
  - apply free_then; [quiet_step|]. do 4 (apply free_read; intros ?).
    eapply (triple_bind _ _ _ (fun _ => U p)); [|intros _].
    { eapply triple_weaken; [apply wr_keeps_doWrite, sinks_writev|done|by intros []]. }
    eapply triple_weaken; [apply (wr_keeps_quiet p resetBuffer); quiet_step|done|by intros []].
  - eapply (triple_bind _ _ _ (fun _ => U p)); [|intros j].
    { eapply triple_weaken; [apply (wr_keeps_clear_loop p)|done|by intros []]. }
    eapply triple_weaken; [apply (wr_keeps_quiet p); quiet_step|done|by intros []].
Qed.

Lemma wr_keeps_onwrite p er : keeps p (onwrite E user er).
Proof. apply wr_keeps_onwrite_with, wr_keeps_clearBuffer. Qed.
Hint Resolve wr_keeps_onwrite : keeps.

Lemma live_read {A B} p (f : state -> A) (k : A -> W B) Q :
  (forall a, triple (fun s => live p s /\ f s = a) (k a) Q) -> triple (live p) (bind (gets f) k) Q.
Proof. apply triple_read. Qed.

Lemma live_then {A} p f (m : W A) Q :
  (forall s, quiet s (f s)) -> triple (live p) m Q -> triple (live p) (modify f;; m) Q.
Proof.
  intros Hf Hm. eapply (triple_bind _ _ _ (fun _ => live p)); [|by intros _].
  intros s s' r H [= <- <-]. exact (live_quiet p f Hf s (f s) (Ok tt) H eq_refl).
Qed.

Lemma wr_keeps_push p e : keeps p (modify (push_entry e)).
Proof. apply wr_keeps_quiet. intros s. unfold push_entry. revert s. quiet_step. Qed.
Hint Resolve wr_keeps_push : keeps.

Lemma wr_keeps_writeOrBuffer p c e cb : triple (live p) (writeOrBuffer E user c e cb) (fun _ => U p).
Proof.
  unfold writeOrBuffer. eapply (triple_bind _ _ _ (fun _ => live p)); [by apply triple_gets|]. intros size.
  eapply (triple_bind _ _ _ (fun _ => live p)); [apply triple_modify|intros _].
  { intros s [H HD]. split; [by apply U_accepted|done]. }
  apply live_then; [quiet_step|]. apply live_read. intros f.
  eapply (triple_bind _ _ _ (fun _ => U p)); [|intros _; walk]. destruct (negb f) eqn:Hf.
  { eapply triple_weaken; [apply (wr_keeps_push p)| |by intros []]. by intros s [[] _]. }
  apply negb_false_iff in Hf as ->. eapply (triple_weaken (free true p) _ _ (fun _ => U p)); [| |by intros []].
  2: { intros s [[H HD] Hm]. rewrite free_iff, !andb_true_iff, !negb_true_iff in Hm. split; [done|]. tauto. }
  apply free_then; [quiet_step|]. apply free_then; [quiet_step|].
  eapply (triple_bind _ _ _ (fun _ s => begun p s /\ has (kState s) kDestroyed = false)); [apply triple_modify|intros _].
  { intros s (H & HW & HD). split; [by apply U_begin|]. flag_simpl. by apply HD. }
  eapply (triple_bind _ _ _ (fun _ => U p)); [|intros _; walk].
  eapply triple_weaken; [apply (sinks_write p)|done|by intros []].
Qed.

Lemma wr_keeps_write' p c e cb : keeps p (_write E user c e cb).
Proof.
  unfold _write. destruct (bool_decide _); [auto with keeps|]. walk1.
  apply wr_keeps_bind; [destruct a; [auto with keeps|]; walk1; by apply triple_lift|]. intros input.
  apply triple_read. intros s0. case_match eqn:Hc.
  - eapply (triple_weaken (U p) _ _ (fun _ => U p)); [|by intros s []|done].
    apply wr_keeps_bind; [|intros _; walk]. apply wr_keeps_modify. intros s H. destruct cb; by apply U_nextTick.
  - assert (has (kState s0) kDestroyed = false) as HD by (repeat case_match; done).
    eapply (triple_weaken (live p) _ _ (fun _ => U p)); [| |done]; [|by intros s [H ->]].
    apply live_then; [quiet_step|]. eapply (triple_bind _ _ _ (fun _ => U p)); [|intros b; auto with keeps].
    eapply triple_weaken; [apply (wr_keeps_writeOrBuffer p)|done|by intros []].
Qed.
Hint Resolve wr_keeps_write' : keeps.

Lemma wr_keeps_write p c e cb : keeps p (write E user c e cb).
Proof. unfold write. destruct (split_args e cb). walk. Qed.

Lemma wr_keeps_uncork p : keeps p (uncork E user).
Proof.
  unfold uncork. walk1. destruct (a =? 0); [auto with keeps|]. walk1.
  apply triple_read. intros [|]; [by apply triple_ret; intros s []|].
  eapply triple_weaken; [apply (wr_keeps_clearBuffer p)| |done]. by intros s [H HW].
Qed.
Hint Resolve wr_keeps_write wr_keeps_uncork : keeps.

Lemma wr_keeps_cork p : keeps p cork.
Proof. unfold cork. walk1. Qed.

Lemma wr_keeps_setDefaultEncoding p e : keeps p (setDefaultEncoding E e).
Proof. unfold setDefaultEncoding. walk. Qed.
Hint Resolve wr_keeps_cork wr_keeps_setDefaultEncoding : keeps.

Lemma wr_keeps_end p c e cb : keeps p (end_ E user c e cb).
Proof.
  unfold end_. destruct (end_args c e cb) as [[c' e'] cb']. apply wr_keeps_bind; [destruct (_ || _); walk|]. intros er.
  walk1. apply wr_keeps_bind; [walk|]. intros _. walk1. walk1. walk1.
  apply wr_keeps_bind; [destruct er as [er|]; walk|]. intros er'. destruct cb' as [f|]; [|auto with keeps].
  apply wr_keeps_modify. intros s H. repeat case_match; try by apply U_nextTick.
  apply (U_quiet p s); [|done]. repeat split; flag_simpl; reflexivity.
Qed.
Hint Resolve wr_keeps_end : keeps.

(** **** Construction *)

Lemma wr_keeps_onConstructed p : keeps p (onConstructed E user).
Proof.
  unfold onConstructed. apply triple_read. intros w. eapply (triple_bind _ _ _ (fun _ => U p)); [|intros _; walk].
  destruct w; [by apply triple_ret; intros s []|].
  eapply triple_weaken; [apply (wr_keeps_clearBuffer p)| |by intros []]. by intros s [H HW].
Qed.
Hint Resolve wr_keeps_onConstructed : keeps.

Lemma wr_keeps_onConstruct p er : keeps p (onConstruct E user er).
Proof.
  unfold onConstruct. walk1. destruct a; [auto with keeps|]. do 2 walk1. walk1. destruct a; [|walk].
  apply triple_read. intros [[er0 cb]|]; [|by apply triple_ret; intros s []].
  eapply (triple_bind _ _ _ (fun _ => U (give p))); [|intros _; apply gives_destroy].
  apply triple_modify. intros s [H Hk]. by eapply U_wake.
Qed.

Lemma wr_keeps_constructNT p : keeps p (constructNT user).
Proof.
  unfold constructNT. walk1. apply wr_keeps_attempt; [auto with keeps|]. intros [a|e]; [auto with keeps|].
  by apply wr_keeps_nextTick.
Qed.
Hint Resolve wr_keeps_onConstruct wr_keeps_constructNT : keeps.

Lemma wr_keeps_exec p b : keeps p (exec E user b).
Proof.
  induction b; cbn [exec]; try (by auto with keeps);
    try (apply wr_keeps_attempt; [by auto with keeps|by auto]); try (apply wr_keeps_bind; [by auto with keeps|by auto]).
  - walk1. destruct a; cbn; [|done]. destruct (has_final E) eqn:F; [|done].
    apply wr_keeps_attempt; [by apply wr_keeps_onFinish|done].
  - apply wr_keeps_bind; [|done]. apply wr_keeps_modify. intros s Hs. destruct (constructStarted s); [|done]. by apply U_nextTick.
  - apply wr_keeps_bind; [by apply wr_keeps_nextTick|done].
Qed.
End WithUser.

Lemma wr_keeps_user n : forall p c, keeps p (user E n c).
Proof.
  induction n as [|n IH]; intros p c; cbn [user]; [apply wr_keeps_stuck|]. walk1. walk1. by apply wr_keeps_exec.
Qed.
End WithEnv.
