(* ===== verification/WritableClaims.v ===== *)
(** * Writable streams: the theorems that hold whatever the code they call does *)

From Stdlib Require Import QArith.
From S2P Require Import Prelude Effects JsString JsNumber Writable WritableFacts WritableEvents.
Import Writable.
#[local] Open Scope Z_scope.
#[local] Open Scope effect_scope.

Section Turns.
Context (E : env) (n : nat) (a : option (list event)).

Abbreviation keeps p m := (triple (U E p) m (fun _ => U E p)).

(** Between two turns nothing is due. *)
Definition rest (s : state) : Prop := exists c b, U E (Point c 0 0 a b) s.

Lemma rest_U c b s : U E (Point c 0 0 a b) s -> rest s.
Proof. intros H. by exists c, b. Qed.

Lemma close_run p :
  closed p = 0%nat -> due p = 0%nat -> finishing p = 0%nat -> dead p = a -> silent p = true ->
  triple (U E (give p)) (emitCloseNT (user E n)) (fun _ => rest).
Proof.
  intros Hc Hd Hf Ha Hs. unfold emitCloseNT, emit, flag, bind, modify, gets, ret. intros s s' r H Hrun.
  destruct (has (kState (raise_flags kCloseEmitted s)) kEmitClose).
  - pose proof (U_close E p s Hs Hf Hc H) as H1. apply (rest_U 1 true).
    pose proof (wr_keeps_user E n _ (CallListener EvClose) _ _ _ H1 Hrun) as H2. by rewrite Hd, Ha in H2.
  - injection Hrun as <- <-. apply U_drop in H. apply (rest_U 0 true).
    destruct p as [c d f a' b]. cbn in *. subst.
    apply (U_quiet E _ s); [|done]. revert s H. intros s _. revert s. quiet_step.
Qed.

Lemma closing_run t : is_closing t = true -> forall c b l,
  triple (fun s => U E (Point c 0 0 a b) s /\ ticks s = t :: l)
    (modify (set_ticks l);; run_task E (user E n) t) (fun _ => rest).
Proof.
  intros Ht c b l. set (p := mute (Point c 0 0 a b)).
  eapply (triple_bind _ _ _ (fun _ s => U E (give p) s /\ c = 0%nat)).
  { apply triple_modify. intros s [H Hl]. by apply (U_pop_close E (Point c 0 0 a b) t l s). }
  intros _ s s' r [H ->]. revert s s' r H. change (triple (U E (give p)) (run_task E (user E n) t) (fun _ => rest)).
  destruct t; try done; cbn [run_task]; [|by apply (close_run p)].
  eapply (triple_bind _ _ _ (fun _ => U E (give p))); [|intros _; by apply (close_run p)].
  eapply triple_weaken; [apply (wr_keeps_emitError E _ (wr_keeps_user E n) (give p)); done|done|].
  intros [x|e] s H; [done|]. apply U_drop in H. by apply (rest_U 0 true).
Qed.

Lemma task_run t : is_closing t = false -> forall c b l,
  triple (fun s => U E (Point c 0 0 a b) s /\ ticks s = t :: l)
    (modify (set_ticks l);; run_task E (user E n) t) (fun _ => rest).
Proof.
  intros Ht c b l. set (p := Point c 0 0 a b). pose proof (wr_keeps_user E n) as Hu.
  eapply (triple_bind _ _ _ (fun _ s => U E p s /\ (is_error_task t = true -> closed p = 0%nat) /\
                                        (has_final E = false -> t <> TFinish))).
  { apply triple_modify. intros s [H Hl]. split; [by apply (U_pop E p t l s)|]. split.
    - intros He. destruct t; try done. by apply (U_error_waits E p er l s).
    - intros F ->. destruct (u_finish E p s H F) as [_ Hn]. rewrite Hl in Hn. set_solver. }
  intros _ s s' r (H & He & Hf) Hrun. apply (rest_U c b). revert H Hrun. revert s s' r.
  change (triple (U E p) (run_task E (user E n) t) (fun _ => U E p)).
  destruct t; try done; cbn [run_task];
    auto using wr_keeps_ret, wr_keeps_call_user, wr_keeps_onwriteError, wr_keeps_afterWrite, wr_keeps_errorBuffer, wr_keeps_constructNT,
      wr_keeps_onConstruct, wr_keeps_emitError.
  - unfold afterWriteTick. apply wr_keeps_bind; [apply wr_keeps_gets|]. intros x. apply wr_keeps_bind; [|intros _; by apply wr_keeps_afterWrite].
    apply wr_keeps_quiet. quiet_step.
  - intros s s' r H. apply (wr_keeps_finish E _ Hu p). split; [done|]. intros F. by destruct (Hf F).
  - apply triple_read. intros [|].
    + intros s s' r [H Hn]. apply (wr_keeps_finish E _ Hu p). split; [done|]. intros _.
      apply needFinish_iff in Hn as (_ & HD & _ & HF & _). done.
    + apply triple_modify. intros s [H _]. by apply (U_quiet E p s).
Qed.

Lemma turn_run t : triple rest (run_turn E n t) (fun _ => rest).
Proof.
  intros s s' r (c & b & H) Hrun. destruct t as [|x]; cbn [run_turn] in Hrun.
  - unfold bind at 1, gets in Hrun. destruct (ticks s) as [|t l] eqn:Hl.
    + injection Hrun as <- <-. by apply (rest_U c b).
    + destruct (is_closing t) eqn:Ht; [eapply (closing_run t Ht c b l)|eapply (task_run t Ht c b l)]; by eauto.
  - apply (rest_U c b). by eapply (wr_keeps_user E n).
Qed.

Lemma turns_run l : triple rest (run_turns E n l) (fun _ => rest).
Proof.
  induction l as [|t l IH]; cbn [run_turns]; [by apply triple_ret|].
  eapply triple_attempt; [apply turn_run|]. intros r. exact IH.
Qed.
End Turns.

(** A stream that has run some turns since it was made. *)
Definition reachable (E : env) (s : state) : Prop :=
  exists o n l s0 r, new_Writable E o = Ok s0 /\ run_turns E n l s0 = Some (s, r).

(** The flags that a new stream does not have. *)
Definition later_flags : list Z :=
  [kWriting; kExpectWriteCb; kDestroyed; kErrored; kErrorEmitted; kFinished; kEnding; kCorked; kBuffered; kBufferProcessing;
   kNeedDrain; kPrefinished; kFinalCalled; kOnFinished; kWriteCb; kCloseEmitted; kAfterWritePending; kAfterWriteTickInfo].

Record fresh_stream (s : state) : Prop := {
  fresh_trace : trace s = [];
  fresh_ticks : ticks s = [] \/ ticks s = [TConstruct];
  fresh_destroyers : destroyers s = ∅;
  fresh_waiting : onKDestroy s = None;
  fresh_flags : forall m, m ∈ later_flags -> has (kState s) m = false;
  fresh_counts : length_ s = 0 /\ corked s = 0 /\ pendingcb s = 0 /\ kBufferedValue s = None /\ bufferedIndex s = 0%nat;
}.

Lemma later_clear k m : forallb (fun m => negb (has k m)) later_flags = true -> m ∈ later_flags -> has k m = false.
Proof. rewrite forallb_forall. intros H Hm%list_elem_of_In. by apply negb_true_iff, H. Qed.

Lemma new_fresh E o s : new_Writable E o = Ok s -> fresh_stream s.
Proof.
  unfold new_Writable, new_WritableState. intros H.
  apply result_bind_ok in H as (s0 & H & [= <-]).
  apply result_bind_ok in H as (hwm & _ & H). apply result_bind_ok in H as ([k e] & Hk & [= <-]).
  assert (forallb (fun m => negb (has k m)) later_flags = true) as Hf.
  { repeat case_match; simplify_eq; vm_compute; reflexivity. }
  assert (forall m, m ∈ later_flags -> has (off (on k (flags [kAllBuffers; kAllNoop])) kBuffered) m = false) as Hf'.
  { intros m Hm. apply off_clear. rewrite has_on, (later_clear k m Hf Hm).
    apply (later_clear _ m); [vm_compute; reflexivity|done]. }
  destruct (has_construct E); (split; [done|by (left + right)|done|done| |done]); intros m Hm; [apply off_clear|]; by apply Hf'.
Qed.

Lemma new_rest E o s : new_Writable E o = Ok s -> rest E None s.
Proof.
  intros [T K D Kd F _]%new_fresh. exists 0%nat, false.
  assert (has (kState s) kDestroyed = false) as HD by (apply F; unfold later_flags; set_solver).
  split; rewrite ?T, ?D, ?Kd, ?HD; cbn; try done.
  - by exists false.
  - unfold occurs. cbn. lia.
  - destruct K as [->| ->]; done.
  - destruct K as [->| ->]; done.
  - intros [|]; [done|lia].
  - intros _. unfold occurs. cbn. split; [lia|]. destruct K as [->| ->]; set_solver.
Qed.

Lemma reachable_rest E s : reachable E s -> rest E None s.
Proof. intros (o & n & l & s0 & r & Hn & Hrun). exact (turns_run E n None l s0 s r (new_rest E o s0 Hn) Hrun). Qed.

Lemma rest_dead E s : has (kState s) kDestroyed = true -> rest E None s -> rest E (Some (active (trace s))) s.
Proof.
  intros HD (c & b & []). exists c, b. split; try done. cbn. by intros a [= <-].
Qed.

(** ** Traces *)

Lemma flow_failed t : List.fold_left flow_step t None = None.
Proof. by induction t. Qed.

Lemma flow_busy t : (forall er, Written er ∉ t) ->
  List.fold_left flow_step t (Some true) = Some true \/ List.fold_left flow_step t (Some true) = None.
Proof.
  induction t as [|e t IH]; intros Ht; [by left|]. assert (forall er, Written er ∉ t) as Ht' by set_solver.
  destruct e; cbn; try (by apply IH); [right; apply flow_failed|]. exfalso. apply (Ht er). set_solver.
Qed.

Lemma flow_between t1 a t2 b t3 :
  flow (t1 ++ Sunk a :: t2 ++ Sunk b :: t3) <> None -> exists er, Written er ∈ t2.
Proof.
  intros H. destruct (existsb (fun e => match e with Written _ => true | _ => false end) t2) eqn:Hw.
  { apply existsb_exists in Hw as (e & He & Hw). destruct e; try done. exists er. by apply list_elem_of_In. }
  exfalso. apply H. unfold flow. rewrite List.fold_left_app. cbn. rewrite List.fold_left_app. cbn.
  assert (forall er, Written er ∉ t2) as Ht.
  { intros er Hin%list_elem_of_In. enough (existsb (fun e => match e with Written _ => true | _ => false end) t2 = true) by congruence.
    apply existsb_exists. by exists (Written er). }
  destruct (List.fold_left flow_step t1 (Some false)) as [[|]|]; cbn; try (by rewrite !flow_failed).
  destruct (flow_busy t2 Ht) as [-> | ->]; cbn; by rewrite flow_failed.
Qed.

Lemma order_failed f t : List.fold_left (order_step f) t None = None.
Proof. by induction t. Qed.

Lemma order_closed f t : List.fold_left (order_step f) t (Some true) <> None -> forall e, e ∈ t ->
  match e with Emitted (EvError _ | EvDrain | EvPrefinish | EvClose) => False | Emitted EvFinish => f = true | _ => True end.
Proof.
  induction t as [|x t IH]; intros H e He; [set_solver|]. cbn [List.fold_left] in H.
  destruct (order_step f (Some true) x) as [[|]|] eqn:Hx; [| |by rewrite order_failed in H].
  - apply elem_of_cons in He as [->|He]; [|by apply IH]. destruct x as [| | |[]| |]; try done. by destruct f.
  - by destruct x as [| | |[]| |], f.
Qed.

Lemma inert_failed t : List.fold_left inert_step t None = None.
Proof. by induction t. Qed.

Lemma inert_after t : List.fold_left inert_step t (Some true) <> None -> active t = [].
Proof.
  induction t as [|e t IH]; [done|]. cbn [List.fold_left]. intros H.
  destruct e as [| | |[]| |]; cbn in H |- *; try (by apply IH); by rewrite inert_failed in H.
Qed.

Lemma inert_destroyed t1 t2 : inert (t1 ++ Destroyed :: t2) <> None -> active t2 = [].
Proof.
  unfold inert. rewrite List.fold_left_app. cbn [List.fold_left]. intros H. apply inert_after.
  destruct (List.fold_left inert_step t1 (Some false)) as [[|]|]; try exact H. by rewrite inert_failed in H.
Qed.

Lemma inert_elem t b : inert t = Some b -> b = true <-> Destroyed ∈ t.
Proof.
  revert b. induction t as [|e t IH] using rev_ind; intros b; [intros [= <-]; set_solver|].
  rewrite inert_snoc, elem_of_app, list_elem_of_singleton. destruct (inert t) as [d|]; [|done].
  specialize (IH d eq_refl). destruct e as [| | |[]| |], d; cbn; intros [= <-]; naive_solver.
Qed.

(** ** The theorems *)

(** C25. At most one write is under way, whatever the stream's own code, the
    callbacks and the listeners do: between two calls of [_write] or [_writev]
    the stream accepts a call of the first one's callback. *)
Theorem writable_one_write_at_a_time E s t1 a t2 b t3 :
  reachable E s -> trace s = t1 ++ Sunk a :: t2 ++ Sunk b :: t3 -> exists er, Written er ∈ t2.
Proof.
  intros (c & d & H)%reachable_rest Ht. destruct (u_flow E _ s H) as (busy & Hf & _). rewrite Ht in Hf.
  apply (flow_between t1 a t2 b t3). by rewrite Hf.
Qed.



(** ** Examples *)

Definition plain_options : options := Options false None true true true None.

(** A stream that runs [code], in byte mode. *)
Definition stream_of (writev final : bool) (code : nat -> call -> body) : env :=
  Env true writev final false code (fun _ => true) (fun s _ => s) (fun s => s) 50.

Definition put (b : list Z) (k : body) : body := Write (CBuffer b) ENone None (fun _ => k).
Definition nothing {A} : A -> body := fun _ => Done.

(** What a stream has done after some turns, and what it has queued. *)
Definition after (E : env) (o : options) (l : list turn) : option state :=
  match new_Writable E o with
  | Ok s => match run_turns E 50 l s with Some (s, _) => Some s | None => None end
  | Throw _ => None
  end.

Lemma after_reachable E o l s : after E o l = Some s -> reachable E s.
Proof.
  unfold after. destruct (new_Writable E o) as [s0|] eqn:H0; [|done].
  destruct (run_turns E 50 l s0) as [[s1 r]|] eqn:H1; [|done]. intros [= <-]. by exists o, 50%nat, l, s0, r.
Qed.

(** A stream that answers each write at once, is written to twice and ended. *)
Definition simple_code (n : nat) (c : call) : body :=
  match c with
  | CallTurn 1 => put [1] (put [2] (End_ CNull ENone (Some 7%positive) nothing))
  | CallTurn 2 => put [3] (Destroy (Some (JsError "E" [])) None nothing)
  | CallTurn 3 => put [4] Done
  | CallWrite _ _ => OnWrite None nothing
  | CallDestroy er d => OnDestroy d er nothing
  | CallFinal => OnFinal None nothing
  | _ => Done
  end.
Definition simple : env := stream_of false false simple_code.

Definition buf : option jsstr := Some "buffer"%js.

Lemma writable_one_write_at_a_time_witness :
  exists s t3, after simple plain_options [Turn 1] = Some s /\
    trace s = [Accepted (CBuffer [1]) buf] ++ Sunk [(CBuffer [1], buf)] ::
              [Written None; Accepted (CBuffer [2]) buf] ++ Sunk [(CBuffer [2], buf)] :: t3 /\
    exists er, Written er ∈ [Written None; Accepted (CBuffer [2]) buf].
Proof.
  do 2 eexists. split; [vm_compute; reflexivity|]. split; [reflexivity|].
  eapply (writable_one_write_at_a_time simple _ [Accepted (CBuffer [1]) buf] [(CBuffer [1], buf)] _ [(CBuffer [2], buf)]);
    [apply (after_reachable simple plain_options [Turn 1]); vm_compute; reflexivity|reflexivity].
Defined.

(** Three writes are buffered; while [uncork] empties the buffer, the [_write]
    of the first destroys the stream. *)
Definition abrupt_code (n : nat) (c : call) : body :=
  match c with
  | CallTurn 1 => Cork (put [1] (put [2] (put [3] (Uncork nothing))))
  | CallWrite _ _ => OnWrite None (fun _ => Destroy None None nothing)
  | _ => simple_code n c
  end.

Definition abrupt_before : list event :=
  [Accepted (CBuffer [1]) buf; Accepted (CBuffer [2]) buf; Accepted (CBuffer [3]) buf; Sunk [(CBuffer [1], buf)];
   Written None].
Definition abrupt_rest : list event :=
  [Written (Some (ERR_STREAM_DESTROYED "write")); Written (Some (ERR_STREAM_DESTROYED "write"))].



(** ** Defects *)

(** A write made by [_writev] before it returns is dropped with the array it was
    pushed on: it is never passed on, and the stream never finishes. *)
Definition lossy_code (n : nat) (c : call) : body :=
  match c with
  | CallTurn 1 => Cork (put [1] (put [2] (Uncork nothing)))
  | CallTurn 2 => OnWrite None (fun _ => End_ CNull ENone None nothing)
  | CallWritev [_; _] _ => put [3] Done
  | _ => simple_code n c
  end.

Lemma writable_writev_loses_write :
  exists s, after (stream_of true false lossy_code) plain_options [Turn 1; Turn 2; Tick; Tick] = Some s /\
    active (trace s) = [Accepted (CBuffer [1]) buf; Accepted (CBuffer [2]) buf;
                        Sunk [(CBuffer [1], buf); (CBuffer [2], buf)]; Accepted (CBuffer [3]) buf] /\
    ticks s = [] /\ getBuffer s = [] /\ length_ s = 1 /\ has (kState s) kWriting = false /\ has (kState s) kFinished = false.
Proof. eexists. split; [vm_compute; reflexivity|]. split_and!; vm_compute; reflexivity. Qed.

(** When a [_writev] throws, [clearBuffer] neither resets the buffer nor clears
    [kBufferProcessing]: the writes were passed on and stay buffered for good,
    while later writes go past them. *)
Definition throwing_code (n : nat) (c : call) : body :=
  match c with
  | CallTurn 1 => Cork (put [1] (put [2] (Uncork nothing)))
  | CallTurn 2 => OnWrite None nothing
  | CallWritev _ _ => Fail (JsError "E" [])
  | _ => simple_code n c
  end.

Lemma writable_writev_throw_keeps_buffer :
  exists s, after (stream_of true false throwing_code) plain_options [Turn 1; Turn 2; Tick; Tick; Turn 3] = Some s /\
    active (trace s) = [Accepted (CBuffer [1]) buf; Accepted (CBuffer [2]) buf;
                        Sunk [(CBuffer [1], buf); (CBuffer [2], buf)]; Accepted (CBuffer [4]) buf;
                        Sunk [(CBuffer [4], buf)]] /\
    e_chunk <$> getBuffer s = [CBuffer [1]; CBuffer [2]] /\ has (kState s) kWriting = false.
Proof. eexists. split; [vm_compute; reflexivity|]. split_and!; vm_compute; reflexivity. Qed.

(** A [_write] that calls its callback and then writes gets ahead of the writes
    that are still buffered. *)
Definition hasty_code (n : nat) (c : call) : body :=
  match c with
  | CallTurn 1 => Cork (put [1] (put [2] (Uncork nothing)))
  | CallWrite (CBuffer [1]) _ => OnWrite None (fun _ => put [3] Done)
  | _ => simple_code n c
  end.

Lemma writable_write_out_of_order :
  exists s, after (stream_of false false hasty_code) plain_options [Turn 1] = Some s /\
    active (trace s) = [Accepted (CBuffer [1]) buf; Accepted (CBuffer [2]) buf; Sunk [(CBuffer [1], buf)];
                        Accepted (CBuffer [3]) buf; Sunk [(CBuffer [3], buf)]; Sunk [(CBuffer [2], buf)]].
Proof. eexists. split; vm_compute; reflexivity. Qed.

(** A stream with a [_final] that is destroyed by a listener of ['prefinish']
    emits ['finish'] after ['error'] and ['close']. *)
Definition late_code (n : nat) (c : call) : body :=
  match c with
  | CallTurn 1 => End_ CNull ENone None nothing
  | CallListener EvPrefinish => Destroy (Some (JsError "E" [])) None nothing
  | _ => simple_code n c
  end.

Lemma writable_finish_after_close :
  exists s, after (stream_of false true late_code) plain_options [Turn 1; Tick; Tick; Tick] = Some s /\
    trace s = [Emitted EvPrefinish; Destroyed; Emitted (EvError (JsError "E" [])); Emitted EvClose; Emitted EvFinish].
Proof. eexists. split; vm_compute; reflexivity. Qed.

(** The test of [kDestroyed] in [onwrite] is one of bit 0, that of object mode:
    there, a write without a callback always schedules a tick. *)
Definition one_write (n : nat) (c : call) : body :=
  match c with CallTurn 1 => put [1] Done | _ => simple_code n c end.

Lemma writable_tick_by_object_mode :
  exists s s', after (stream_of false false one_write) plain_options [Turn 1] = Some s /\ ticks s = [] /\
    after (stream_of false false one_write) (Options true None true true true None) [Turn 1] = Some s' /\
    ticks s' = [TAfterWrite Nop].
Proof. do 2 eexists. split_and!; vm_compute; reflexivity. Qed.
