(* ===== verification/WritableOrder.v ===== *)
(** * Writable streams: order

    Writes reach the stream's own code in the order in which they were accepted,
    and none is lost while the stream has not failed, when the stream is
    [disciplined]: its [_write] and [_writev] do not throw, call their callback
    last, if they call it before they return, and do not call the callback of
    [_final]; and its [_writev] does not write before it returns.  Callbacks,
    listeners and the rest of the stream's code may do anything. *)

From Stdlib Require Import QArith.
From S2P Require Import Prelude Effects JsString JsNumber Writable WritableFacts WritableEvents WritableClaims.
Import Writable.
#[local] Open Scope Z_scope.
#[local] Open Scope effect_scope.

(** ** What is accepted and passed on *)

Abbreviation payload_t := (chunk * option jsstr)%type.

Definition accepts (e : event) : list payload_t := match e with Accepted c x => [(c, x)] | _ => [] end.
Definition delivers (e : event) : list payload_t := match e with Sunk l => l | _ => [] end.
Definition accepted (t : list event) : list payload_t := t ≫= accepts.
Definition delivered (t : list event) : list payload_t := t ≫= delivers.

Lemma accepted_snoc t e : accepted (t ++ [e]) = accepted t ++ accepts e.
Proof. unfold accepted. rewrite bind_app. cbn. by rewrite app_nil_r. Qed.
Lemma delivered_snoc t e : delivered (t ++ [e]) = delivered t ++ delivers e.
Proof. unfold delivered. rewrite bind_app. cbn. by rewrite app_nil_r. Qed.

(** ** Well-behaved streams *)

(** The code of a [_write] or [_writev]: it does not throw, does nothing after it
    called its callback, and does not call the callback of [_final]. *)
Fixpoint answers_last (b : body) : Prop :=
  match b with
  | Done => True
  | Fail _ | OnFinal _ _ => False
  | OnWrite _ k => forall r, k r = Done
  | Write _ _ _ k => forall r, answers_last (k r)
  | End_ _ _ _ k | Uncork k | Destroy _ _ k | SetDefaultEncoding _ k | OnDestroy _ _ k => forall r, answers_last (k r)
  | Cork k | OnConstruct _ k | NextTick _ k => answers_last k
  end.

(** Code that does not write. *)
Fixpoint no_write (b : body) : Prop :=
  match b with
  | Done | Fail _ => True
  | Write _ _ _ _ => False
  | End_ c _ _ k => (c = CNull \/ c = CUndefined) /\ forall r, no_write (k r)
  | OnWrite _ k | OnFinal _ k | Uncork k | Destroy _ _ k | SetDefaultEncoding _ k | OnDestroy _ _ k => forall r, no_write (k r)
  | Cork k | OnConstruct _ k | NextTick _ k => no_write k
  end.

Record disciplined (E : env) : Prop := {
  d_sink : has_write E || has_writev E = true;
  d_write : forall n c e, answers_last (code E n (CallWrite c e));
  d_writev : forall n l b, answers_last (code E n (CallWritev l b)) /\ no_write (code E n (CallWritev l b));
}.

Definition is_sink (c : call) : bool := match c with CallWrite _ _ | CallWritev _ _ => true | _ => false end.

(** ** The invariant *)

(** Where the writes that wait are: in the buffer of the state, or in the array
    that [clearBuffer] is emptying, from index [i] on.  A sealed array is one that
    was passed to [_writev] as a whole. *)
Inductive mode :=
  | Free
  | Taken (arr : positive) (i : nat) (sealed : bool).

Definition queue (m : mode) (s : state) : list entry :=
  match m with
  | Free => entries (buffered s) (bufferedIndex s)
  | Taken arr i _ => entries (array arr s) i
  end.

Definition full (l : list (option entry)) : Prop := Forall (fun x => x <> None) l.

(** [kErrored] or [kDestroyed] *)
Definition failed (s : state) : Prop := has (kState s) kDestroyed = true \/ has (kState s) kErrored = true.

(** The tasks that drop what is buffered. *)
Definition fails (t : task) : bool := match t with TOnwriteError _ _ | TErrorBuffer => true | _ => false end.

Definition shape (m : mode) (s : state) : Prop :=
  match m with
  | Free => has (kState s) kBufferProcessing = false /\
      if has (kState s) kBuffered
      then exists arr, kBufferedValue s = Some arr /\
             (bufferedIndex s <= List.length (array arr s))%nat /\ full (drop (bufferedIndex s) (array arr s))
      else bufferedIndex s = 0%nat
  | Taken arr i sealed => has (kState s) kBufferProcessing = true /\ has (kState s) kBuffered = true /\
      kBufferedValue s = Some arr /\ (i <= List.length (array arr s))%nat /\ full (drop i (array arr s)) /\
      (sealed = true -> has (kState s) kDestroyed = true \/ i = List.length (array arr s))
  end.

(** [h] and [t] are writes in the hands of the code that runs, to be passed on
    before those that wait, and after them. *)
Record core (h t : list payload_t) (m : mode) (s : state) : Prop := {
  c_sub : delivered (trace s) ++ h ++ (payload <$> queue m s) ++ t `sublist_of` accepted (trace s);
  c_eq : ~ failed s -> delivered (trace s) ++ h ++ (payload <$> queue m s) ++ t = accepted (trace s);
  c_expect : has (kState s) kExpectWriteCb = has (kState s) kWriting;
  c_shape : shape m s;
  c_closures : forall d cb, destroyers s !! d = Some (false, cb) -> has (kState s) kDestroyed = true;
  c_ticks : existsb fails (ticks s) = true -> failed s;
}.

(** No write waits for nothing. *)
Definition idle (s : state) : Prop :=
  ~ failed s -> has (kState s) kWriting = false -> has (kState s) kCorked = false -> has (kState s) kConstructed = true ->
  queue Free s = [].

(** What is known where code runs. *)
Record ctx := Ctx { c_mode : mode; c_failed : bool; c_destroyed : bool }.
Definition known (x : ctx) (s : state) : Prop :=
  (c_failed x = true -> failed s) /\ (c_destroyed x = true -> has (kState s) kDestroyed = true).
Definition hold (h : list payload_t) (x : ctx) (s : state) : Prop := core h [] (c_mode x) s /\ known x s.
Abbreviation loose := (hold []).

(** What holds where the stream calls code, and while [_write] runs. *)
Definition V (x : ctx) (s : state) : Prop :=
  loose x s /\
  match c_mode x with
  | Free => idle s
  | Taken _ _ _ => has (kState s) kSync = true /\ (has (kState s) kWriting = true \/ has (kState s) kDestroyed = true)
  end.
(** What holds when [_write] returns. *)
Definition answered (x : ctx) (s : state) : Prop :=
  loose x s /\ match c_mode x with Free => idle s | Taken _ _ _ => has (kState s) kSync = true end.

Lemma V_answered x s : V x s -> answered x s.
Proof. intros [H1 H2]. split; [done|]. destruct (c_mode x); [done|]. by destruct H2. Qed.

(** Code other than that of a write runs when nothing is being emptied, or when
    the stream is destroyed. *)
Definition outside (x : ctx) : Prop := c_mode x = Free \/ c_destroyed x = true.
(** A write would be kept. *)
Definition open (x : ctx) : Prop :=
  c_destroyed x = true \/ match c_mode x with Taken _ _ true => False | _ => True end.

Lemma outside_open x : outside x -> open x.
Proof. intros [H|H]; [right; by rewrite H|by left]. Qed.

Definition dead (x : ctx) : ctx := Ctx (c_mode x) true true.
Definition bad (x : ctx) : ctx := Ctx (c_mode x) true (c_destroyed x).

Lemma dead_outside x : outside (dead x).
Proof. by right. Qed.
Lemma bad_outside x : outside x -> outside (bad x).
Proof. done. Qed.
Lemma destroyed_failed s : has (kState s) kDestroyed = true -> failed s.
Proof. by left. Qed.
Lemma V_dead x s : has (kState s) kDestroyed = true -> V x s -> V (dead x) s.
Proof. intros HD [[H1 H2] H3]. split; [split; [done|]|done]. split; intros _; [by left|done]. Qed.
Lemma V_undead x s : V (dead x) s -> V x s.
Proof. intros [[H1 [H2 H3]] H4]. split; [split; [done|]|done]. split; intros _; [by apply H2|by apply H3]. Qed.
Lemma V_bad x s : failed s -> V x s -> V (bad x) s.
Proof. intros HD [[H1 [H2 H3]] H4]. split; [split; [done|]|done]. by split. Qed.
Lemma V_unbad x s : V (bad x) s -> V x s.
Proof. intros [[H1 [H2 H3]] H4]. split; [split; [done|]|done]. split; [|done]. intros _. by apply H2. Qed.
Lemma failed_idle s : failed s -> idle s.
Proof. by intros H1 H2. Qed.

(** ** Steps that move no write *)

Record mono (s s' : state) : Prop := {
  m_trace : trace s' = trace s;
  m_destroyers : destroyers s' = destroyers s;
  m_arrays : arrays s' = arrays s;
  m_value : kBufferedValue s' = kBufferedValue s;
  m_index : bufferedIndex s' = bufferedIndex s;
  m_writing : has (kState s') kWriting = has (kState s) kWriting;
  m_expect : has (kState s') kExpectWriteCb = has (kState s) kExpectWriteCb;
  m_processing : has (kState s') kBufferProcessing = has (kState s) kBufferProcessing;
  m_buffered : has (kState s') kBuffered = has (kState s) kBuffered;
  m_destroyed : has (kState s) kDestroyed = true -> has (kState s') kDestroyed = true;
  m_errored : has (kState s) kErrored = true -> has (kState s') kErrored = true;
  m_ticks : existsb fails (ticks s') = true -> existsb fails (ticks s) = true \/ failed s';
}.

(** Nor does a write that waits become free to go. *)
Record still (s s' : state) : Prop := {
  t_corked : has (kState s) kCorked = true -> has (kState s') kCorked = true;
  t_constructed : has (kState s') kConstructed = true -> has (kState s) kConstructed = true;
  t_sync : has (kState s) kSync = true -> has (kState s') kSync = true;
}.

Lemma mono_failed s s' : mono s s' -> failed s -> failed s'.
Proof. intros M [H|H]; [left; by apply (m_destroyed s s')|right; by apply (m_errored s s')]. Qed.

Lemma mono_queue m s s' : mono s s' -> queue m s' = queue m s.
Proof.
  intros M. destruct m; unfold queue, buffered, array;
    rewrite ?(m_buffered s s' M), ?(m_arrays s s' M), ?(m_value s s' M), ?(m_index s s' M); done.
Qed.

Lemma mono_shape m s s' : mono s s' -> shape m s -> shape m s'.
Proof.
  intros M. unfold shape, array.
  rewrite (m_processing s s' M), (m_buffered s s' M), (m_arrays s s' M), (m_value s s' M), (m_index s s' M).
  destruct m; [done|]. intros (H1 & H2 & H3 & H4 & H5 & H6). split_and!; try done. intros Hs.
  destruct (H6 Hs); [left|by right]. by apply (m_destroyed s s' M).
Qed.

Lemma core_mono h t m s s' : mono s s' -> core h t m s -> core h t m s'.
Proof.
  intros M [C1 C2 C3 C4 C5 C6]. pose proof (mono_failed s s' M) as Hf.
  split; rewrite ?(m_trace s s' M), ?(mono_queue m s s' M), ?(m_destroyers s s' M), ?(m_writing s s' M), ?(m_expect s s' M).
  - done.
  - intros H. apply C2. by intros ?%Hf.
  - done.
  - by eapply mono_shape.
  - intros d cb H. by apply (m_destroyed s s' M), (C5 d cb).
  - intros [H|H]%(m_ticks s s' M); [by apply Hf, C6|done].
Qed.

Lemma known_mono x s s' : mono s s' -> known x s -> known x s'.
Proof.
  intros M [H1 H2]. split; intros H; [by apply (mono_failed s s' M), H1|by apply (m_destroyed s s' M), H2].
Qed.

Lemma hold_mono h x s s' : mono s s' -> hold h x s -> hold h x s'.
Proof. intros M [H1 H2]. split; [by eapply core_mono|by eapply known_mono]. Qed.

Lemma idle_mono s s' : mono s s' -> still s s' -> idle s -> idle s'.
Proof.
  intros M T H Hf HW HC HK. rewrite (mono_queue Free s s' M). rewrite (m_writing s s' M) in HW.
  apply H; [by intros ?%(mono_failed s s' M)|done| |by apply (t_constructed s s' T)].
  apply not_true_iff_false. intros HC'%(t_corked s s' T). congruence.
Qed.

Lemma V_mono x s s' : mono s s' -> still s s' -> V x s -> V x s'.
Proof.
  intros M T [H1 H2]. split; [by eapply hold_mono|]. destruct (c_mode x); [by eapply idle_mono|].
  rewrite (m_writing s s' M). destruct H2 as [H2 [H3|H3]]; split; try by apply (t_sync s s' T).
  - by left.
  - right. by apply (m_destroyed s s' M).
Qed.

Lemma answered_mono x s s' : mono s s' -> still s s' -> answered x s -> answered x s'.
Proof.
  intros M T [H1 H2]. split; [by eapply hold_mono|]. destruct (c_mode x); [by eapply idle_mono|]. by apply (t_sync s s' T).
Qed.

Lemma existsb_fails_snoc l t : existsb fails (l ++ [t]) = existsb fails l || fails t.
Proof. rewrite existsb_app. cbn [existsb]. by rewrite orb_false_r. Qed.

(** Proves [mono] and [still] of an update of the state. *)
Ltac mono_step :=
  intros; unfold count_pending, keep_writecb, set_writecb, clear_writecb, checkError, set_errored, nextTick, schedule_tick;
  repeat case_match; unfold nextTick, raise_flags, drop_flags; split; cbn; flag_simpl;
  rewrite ?existsb_fails_snoc, ?orb_false_r; cbn [fails]; rewrite ?orb_false_r; 
  (reflexivity || (by intros) || (by intros; left) || (intros; right; unfold failed; flag_simpl; by (left + right))).

(** ** Steps that the invariant sees *)

Definition plain (e : event) : Prop := accepts e = [] /\ delivers e = [].

Lemma core_log h t m e s : plain e -> core h t m s -> core h t m (log e s).
Proof.
  intros [H1 H2] [C1 C2 C3 C4 C5 C6]. split; try done; cbn [log trace set_trace];
    rewrite accepted_snoc, delivered_snoc, H1, H2, !app_nil_r; done.
Qed.

Lemma V_log x e s : plain e -> V x s -> V x (log e s).
Proof. intros He [[H1 H2] H3]. split; [split; [by apply core_log|done]|done]. Qed.

(** The stream fails: what is in hand may be dropped. *)
Lemma core_drop h m s : failed s -> core h [] m s -> core [] [] m s.
Proof.
  intros Hf [C1 C2 C3 C4 C5 C6]. split; try done. etrans; [|exact C1]. apply sublist_app; [done|]. by apply sublist_inserts_l.
Qed.

Lemma core_destroyers h t m d b cb s :
  (b = false -> has (kState s) kDestroyed = true) -> core h t m s ->
  core h t m (set_destroyers (<[d := (b, cb)]> (destroyers s)) s).
Proof.
  intros Hb [C1 C2 C3 C4 C5 C6]. split; try done. cbn [destroyers set_destroyers kState]. intros d' cb'.
  destruct (decide (d = d')) as [<-|Hd]; [rewrite lookup_insert_eq; intros [= -> _]; by apply Hb|].
  rewrite lookup_insert_ne by done. apply C5.
Qed.

(** A write that is accepted, and one that is passed on. *)
Lemma core_accept m c e s : core [] [] m s -> core [] [(c, e)] m (log (Accepted c e) s).
Proof.
  intros [C1 C2 C3 C4 C5 C6]. split; try done; change (queue m (log (Accepted c e) s)) with (queue m s);
    cbn [log trace set_trace]; rewrite accepted_snoc, delivered_snoc; cbn [accepts delivers]; cbn [app] in *; rewrite !app_nil_r in *;
    rewrite app_assoc.
  - by apply sublist_app.
  - intros Hf. by rewrite C2.
Qed.

Lemma core_first p m s : queue m s = [] -> core [] [p] m s -> core [p] [] m s.
Proof. intros Hq [C1 C2 C3 C4 C5 C6]. split; try done; by rewrite Hq in *. Qed.

Lemma core_sunk h t m s : core h t m s -> core [] t m (log (Sunk h) s).
Proof.
  intros [C1 C2 C3 C4 C5 C6]. split; try done; change (queue m (log (Sunk h) s)) with (queue m s);
    cbn [log trace set_trace]; rewrite accepted_snoc, delivered_snoc; cbn; rewrite app_nil_r, <- app_assoc; done.
Qed.

(** *** Arrays *)

Lemma entries_snoc l i e : (i <= List.length l)%nat -> entries (l ++ [Some e]) i = entries l i ++ [e].
Proof. intros H. unfold entries. rewrite drop_app_le by done. rewrite omap_app. done. Qed.

Lemma full_snoc l i e : (i <= List.length l)%nat -> full (drop i l) -> full (drop i (l ++ [Some e])).
Proof. intros H Hl. unfold full. rewrite drop_app_le by done. apply Forall_app. split; [done|by repeat constructor]. Qed.

Lemma array_insert arr l s : array arr (set_arrays (<[arr := l]> (arrays s)) s) = l.
Proof. unfold array. cbn. by rewrite lookup_insert_eq. Qed.

(** What [push_entry] does, past the flags of the buffer. *)
Definition pushes (m : mode) (e : entry) (s s' : state) : Prop :=
  queue m s' = queue m s ++ [e] /\ shape m s'.

Definition slot (e : entry) (s : state) : state :=
  let s := if has (kState s) kBuffered then s
           else
             let arr := next s in
             set_next (Pos.succ arr)
               (set_arrays (<[arr := []]> (arrays s)) (set_kBufferedValue (Some arr) (raise_flags kBuffered s))) in
  let arr := default 1%positive (kBufferedValue s) in
  set_arrays (<[arr := array arr s ++ [Some e]]> (arrays s)) s.

Lemma slot_pushes m e s : match m with Taken _ _ true => False | _ => True end -> shape m s -> pushes m e s (slot e s).
Proof.
  intros Ho Hs. unfold slot, pushes, queue, buffered, shape in *. destruct m as [|arr i b].
  - destruct Hs as [Hp Hs]. destruct (has (kState s) kBuffered) eqn:HB.
    + destruct Hs as (arr & Ha & Hi & Hf). cbn [kState set_arrays kBufferedValue bufferedIndex]. rewrite HB, Ha. change (default 1%positive (Some arr)) with arr.
      rewrite array_insert. split; [by apply entries_snoc|]. split; [done|]. exists arr. rewrite array_insert.
      split; [done|]. rewrite length_app. cbn [List.length]. split; [lia|by apply full_snoc].
    + cbn [kState set_arrays kBufferedValue set_next set_kBufferedValue bufferedIndex raise_flags set_kState default].
      rewrite !has_on, Hp, HB. closed_flags. cbn [orb]. rewrite array_insert, Hs. unfold array. cbn. rewrite lookup_insert_eq. cbn.
      split; [done|]. split; [done|]. eexists. split; [done|]. rewrite lookup_insert_eq. cbn.
      split; [lia|by repeat constructor].
  - destruct b; [done|]. destruct Hs as (Hp & HB & Ha & Hi & Hf & _). rewrite HB, Ha. change (default 1%positive (Some arr)) with arr.
    rewrite array_insert. cbn [kState set_arrays kBufferedValue]. rewrite HB, Ha, length_app. cbn [List.length].
    split; [by apply entries_snoc|]. split_and!; try done; [lia|by apply full_snoc].
Qed.

(** Builds the invariant of a state from that of another with the same writes
    under way. *)
Lemma core_move h t m h' t' m' s s' :
  core h t m s ->
  trace s' = trace s -> destroyers s' = destroyers s -> ticks s' = ticks s ->
  has (kState s') kWriting = has (kState s) kWriting -> has (kState s') kExpectWriteCb = has (kState s) kExpectWriteCb ->
  has (kState s') kDestroyed = has (kState s) kDestroyed -> has (kState s') kErrored = has (kState s) kErrored ->
  h' ++ (payload <$> queue m' s') ++ t' `sublist_of` h ++ (payload <$> queue m s) ++ t ->
  (~ failed s -> h' ++ (payload <$> queue m' s') ++ t' = h ++ (payload <$> queue m s) ++ t) ->
  shape m' s' -> core h' t' m' s'.
Proof.
  intros [C1 C2 C3 C4 C5 C6] E1 E2 E3 E4 E5 E6 E7 Hsub Heq Hs. unfold failed in *.
  split; rewrite ?E1, ?E2, ?E3, ?E4, ?E5, ?E6; unfold failed; rewrite ?E6, ?E7; try done.
  - etrans; [|exact C1]. by apply sublist_app.
  - intros Hf. rewrite Heq by done. by apply C2.
Qed.

Lemma core_moves h t m h' t' m' s s' :
  core h t m s ->
  trace s' = trace s -> destroyers s' = destroyers s -> ticks s' = ticks s ->
  has (kState s') kWriting = has (kState s) kWriting -> has (kState s') kExpectWriteCb = has (kState s) kExpectWriteCb ->
  has (kState s') kDestroyed = has (kState s) kDestroyed -> has (kState s') kErrored = has (kState s) kErrored ->
  h' ++ (payload <$> queue m' s') ++ t' = h ++ (payload <$> queue m s) ++ t ->
  shape m' s' -> core h' t' m' s'.
Proof. intros. eapply core_move; try eassumption; [by rewrite H7|done]. Qed.

Lemma core_push m e s :
  match m with Taken _ _ true => False | _ => True end -> core [] [payload e] m s -> core [] [] m (push_entry e s).
Proof.
  intros Ho H. assert (core [] [] m (slot e s)) as Hs.
  { destruct (slot_pushes m e s Ho (c_shape _ _ _ _ H)) as [Hq Hs]. eapply core_moves; [exact H|..|exact Hs];
      try (unfold slot; destruct (has (kState s) kBuffered); cbn; flag_simpl; done).
    rewrite Hq, fmap_app. cbn. by rewrite app_nil_r. }
  change (push_entry e s) with
    (let s := if has (kState (slot e s)) kAllBuffers && negb (bool_decide (e_encoding e = Some "buffer"%js))
              then drop_flags kAllBuffers (slot e s) else slot e s in
     if has (kState s) kAllNoop && bool_decide (e_callback e <> None) then drop_flags kAllNoop s else s).
  revert Hs. generalize (slot e s). intros u Hu. cbn zeta. eapply core_mono; [|exact Hu].
  destruct (_ && negb _), (_ && _); mono_step.
Qed.

Lemma entries_cons l i e : l !! i = Some (Some e) -> entries l i = e :: entries l (S i).
Proof. intros H. unfold entries. by rewrite (drop_S l (Some e) i H). Qed.

Lemma entries_drop l i j : entries (drop i l) j = entries l (i + j).
Proof. unfold entries. by rewrite drop_drop. Qed.

Lemma core_take arr i e s :
  array arr s !! i = Some (Some e) -> core [] [] (Taken arr i false) s ->
  core [payload e] [] (Taken arr (S i) false) (set_arrays (<[arr := <[i := None]> (array arr s)]> (arrays s)) s).
Proof.
  intros Hi H. pose proof (c_shape _ _ _ _ H) as (Hp & HB & Ha & Hl & Hf & _). pose proof (lookup_lt_Some _ _ _ Hi) as Hlt.
  eapply core_moves; [exact H|done..| |].
  - unfold queue. rewrite array_insert, (entries_cons _ _ _ Hi). unfold entries. by rewrite drop_insert_lt by lia.
  - unfold shape. rewrite array_insert, length_insert, drop_insert_lt by lia. split_and!; try done.
    rewrite (drop_S _ _ _ Hi) in Hf. by inversion Hf.
Qed.

Lemma core_seal arr i s :
  core [] [] (Taken arr i false) s ->
  core (payload <$> entries (array arr s) i) [] (Taken arr (List.length (array arr s)) true) s.
Proof.
  intros H. pose proof (c_shape _ _ _ _ H) as (Hp & HB & Ha & Hl & Hf & _).
  eapply core_moves; [exact H|done..| |].
  - unfold queue. unfold entries at 2. rewrite drop_all. cbn. by rewrite !app_nil_r.
  - unfold shape. rewrite drop_all. split_and!; try done; [constructor|by right].
Qed.

Lemma core_start s :
  has (kState s) kBuffered = true -> core [] [] Free s ->
  core [] [] (Taken (default 1%positive (kBufferedValue s)) (bufferedIndex s) false) (raise_flags kBufferProcessing s).
Proof.
  intros HB H. pose proof (c_shape _ _ _ _ H) as [Hp Hs]. rewrite HB in Hs. destruct Hs as (arr & Ha & Hi & Hf).
  rewrite Ha. change (default 1%positive (Some arr)) with arr.
  eapply core_moves; [exact H|try (cbn; flag_simpl; done)..| |].
  - unfold queue, buffered. by rewrite HB, Ha.
  - unfold shape. cbn [raise_flags kState set_kState kBufferedValue]. flag_simpl. split_and!; done.
Qed.

Lemma core_index arr j s :
  core [] [] (Taken arr j false) s -> core [] [] Free (drop_flags kBufferProcessing (set_bufferedIndex j s)).
Proof.
  intros H. pose proof (c_shape _ _ _ _ H) as (Hp & HB & Ha & Hl & Hf & _).
  eapply core_moves; [exact H|try (cbn; flag_simpl; done)..| |].
  - unfold queue, buffered, drop_flags. flag_simpl. cbn [kState set_kState set_bufferedIndex kBufferedValue bufferedIndex]. by rewrite ?HB, ?Ha.
  - unfold shape, drop_flags. flag_simpl. cbn [kState set_kState set_bufferedIndex kBufferedValue bufferedIndex]. rewrite HB. split; [done|]. by exists arr.
Qed.

Lemma core_shift arr j s :
  core [] [] (Taken arr j false) s ->
  core [] [] Free (drop_flags kBufferProcessing
    (set_bufferedIndex 0%nat (set_arrays (<[arr := drop j (array arr s)]> (arrays s)) s))).
Proof.
  intros H. pose proof (c_shape _ _ _ _ H) as (Hp & HB & Ha & Hl & Hf & _).
  eapply core_moves; [exact H|try (cbn; flag_simpl; done)..| |].
  - unfold queue, buffered, drop_flags. flag_simpl. cbn [kState set_kState set_bufferedIndex set_arrays kBufferedValue bufferedIndex]. rewrite ?HB, ?Ha.
    change (array arr _) with (array arr (set_arrays (<[arr := drop j (array arr s)]> (arrays s)) s)) at 1.
    rewrite array_insert, entries_drop. by rewrite Nat.add_0_r.
  - unfold shape, drop_flags. flag_simpl. cbn [kState set_kState set_bufferedIndex set_arrays kBufferedValue bufferedIndex]. rewrite HB. split; [done|].
    exists arr. split; [done|]. change (array arr _) with (array arr (set_arrays (<[arr := drop j (array arr s)]> (arrays s)) s)).
    rewrite array_insert, drop_0. split; [lia|done].
Qed.

(** What is buffered is dropped, or nothing was. *)
Lemma core_reset m s :
  failed s \/ queue m s = [] -> core [] [] m s -> core [] [] Free (drop_flags kBufferProcessing (resetBuffer s)).
Proof.
  intros Hq H. assert (queue Free (drop_flags kBufferProcessing (resetBuffer s)) = []) as Hq'.
  { unfold queue, buffered, resetBuffer. flag_simpl. done. }
  eapply core_move; [exact H|try (unfold resetBuffer; cbn; flag_simpl; done)..| | |].
  - rewrite Hq'. apply sublist_nil_l.
  - intros Hf. rewrite Hq'. by destruct Hq as [?| ->].
  - unfold shape, resetBuffer. flag_simpl. by split.
Qed.
