(* ===== verification/WritableFifo.v ===== *)
(** * Writable streams: writes are passed on in order

    Every operation of a stream keeps the invariant of [WritableOrder], when the
    code of its writes is well-behaved. *)

From Stdlib Require Import QArith.
From S2P Require Import Prelude Effects JsString JsNumber Writable WritableFacts WritableEvents WritableClaims WritableOrder.
Import Writable.
#[local] Open Scope Z_scope.
#[local] Open Scope effect_scope.

(** Code that keeps an invariant; and, besides, does not throw. *)
Abbreviation keep I m := (triple I m (fun _ => I)).
Abbreviation sure Q := (or_throw (fun _ => False) (fun _ => Q)).
Abbreviation firm I m := (triple I m (sure I)).

Section Keep.
Context (I : state -> Prop).

Lemma ord_ret {A} (a : A) : keep I (ret a).
Proof. by apply triple_ret. Qed.
Lemma ord_throw {A} e : keep I (throw (A := A) e).
Proof. by apply triple_throw. Qed.
Lemma ord_gets {A} (f : state -> A) : keep I (gets f).
Proof. by apply triple_gets. Qed.
Lemma ord_bind {A B} (m : W A) (k : A -> W B) : keep I m -> (forall a, keep I (k a)) -> keep I (bind m k).
Proof. intros Hm Hk. eapply triple_bind; [|exact Hk]. eapply triple_weaken; [exact Hm|done|]. by intros []. Qed.
Lemma ord_attempt {A B} (m : W A) (k : result A -> W B) : keep I m -> (forall r, keep I (k r)) -> keep I (attempt m k).
Proof. intros Hm Hk. eapply triple_attempt; [exact Hm|exact Hk]. Qed.
Lemma ord_modify f : (forall s, I s -> I (f s)) -> keep I (modify f).
Proof. intros Hf. by apply triple_modify. Qed.
Lemma ord_stuck {A} : keep I (fun _ => None : option (state * result A)).
Proof. by intros s s' r _. Qed.
Lemma ord_from {A} (J : state -> Prop) (m : W A) : keep J m -> (forall s, I s -> J s) -> (forall s, J s -> I s) -> keep I m.
Proof. intros Hm H1 H2. eapply triple_weaken; [exact Hm|exact H1|]. intros r. apply H2. Qed.
End Keep.

Create HintDb fifo.
Hint Resolve ord_ret ord_throw ord_gets ord_stuck : fifo.

Lemma ord_quiet x f : (forall s, mono s (f s)) -> (forall s, still s (f s)) -> keep (V x) (modify f).
Proof. intros H1 H2. apply ord_modify. intros s. by apply V_mono. Qed.

Lemma ord_nextTick x t : fails t = false -> keep (V x) (modify (nextTick t)).
Proof.
  intros Ht. apply ord_quiet; [|mono_step]. intros s. split; try done. cbn.
  rewrite existsb_fails_snoc, Ht, orb_false_r. by left.
Qed.

(** One step of the code. *)
Ltac walk1 :=
  lazymatch goal with
  | |- triple _ (bind (gets _) _) _ => apply ord_bind; [apply ord_gets|intros ?]
  | |- triple _ (bind (flag _) _) _ => apply ord_bind; [apply ord_gets|intros ?]
  | |- triple _ (bind (modify (nextTick _)) _) _ => apply ord_bind; [by apply ord_nextTick|intros _]
  | |- triple _ (modify (nextTick _)) _ => by apply ord_nextTick
  | |- triple _ (bind (modify _) _) _ => apply ord_bind; [apply ord_quiet; mono_step|intros _]
  | |- triple _ (modify _) _ => apply ord_quiet; mono_step
  | |- triple _ (bind _ _) _ => apply ord_bind; [|intros ?]
  | |- triple _ (if ?b then _ else _) _ => destruct b
  | |- triple _ (match ?x with _ => _ end) _ => destruct x
  end.
Ltac walk := repeat (first [solve [eauto with fifo] | walk1]).

Section WithUser.
Context (E : env) (user : call -> W unit).

(** What a call of the user's code keeps. *)
Record fair : Prop := {
  f_user : forall x c, is_sink c = false -> outside x -> keep (V x) (user c);
  f_sink : forall x c, is_sink c = true -> (open x \/ exists l b, c = CallWritev l b) ->
    triple (V x) (user c) (or_throw (fun _ => False) (fun _ => answered x));
}.
Hypothesis Hfair : fair.
Hypothesis Hsinks : has_write E || has_writev E = true.

Lemma ord_user x c : is_sink c = false -> outside x -> keep (V x) (user c).
Proof. apply (f_user Hfair). Qed.

Lemma ord_log x e : plain e -> keep (V x) (modify (log e)).
Proof. intros He. apply ord_modify. intros s. by apply V_log. Qed.

Lemma ord_call_user x c er : outside x -> keep (V x) (call_user user c er).
Proof.
  intros Ho. unfold call_user. destruct c; [|auto with fifo]. apply ord_bind; [by apply ord_log|]. intros _. by apply ord_user.
Qed.
Hint Resolve ord_call_user : fifo.

Lemma ord_emit x ev : outside x -> keep (V x) (emit user ev).
Proof. intros Ho. unfold emit. apply ord_bind; [by apply ord_log|]. intros _. by apply ord_user. Qed.
Hint Resolve ord_emit : fifo.

Lemma ord_batch x n : outside x -> forall arr i er, keep (V x) (batch_loop user n arr i er).
Proof. intros Ho. induction n as [|n IH]; intros arr i er; cbn [batch_loop]; walk. Qed.
Hint Resolve ord_batch : fifo.

Lemma ord_call_cb x cb er : outside x -> keep (V x) (call_cb E user cb er).
Proof. intros Ho. destruct cb; cbn [call_cb]; auto with fifo. Qed.

Lemma ord_call_all x l er : outside x -> keep (V x) (call_all user l er).
Proof. intros Ho. induction l as [|c l IH]; cbn [call_all]; walk. Qed.
Hint Resolve ord_call_cb ord_call_all : fifo.

Lemma ord_finished_callbacks x er : outside x -> keep (V x) (callFinishedCallbacks user er).
Proof. intros Ho. unfold callFinishedCallbacks. walk. Qed.

Lemma ord_error_loop x n : outside x -> forall i, keep (V x) (error_loop user n i).
Proof. intros Ho. induction n as [|n IH]; intros i; cbn [error_loop]; walk. Qed.
Hint Resolve ord_finished_callbacks ord_error_loop : fifo.

(** What is buffered is dropped when the stream failed. *)
Lemma V_reset x s : c_mode x = Free -> c_failed x = true -> V x s -> V x (resetBuffer s).
Proof.
  intros Hm Hx [[H1 H2] H3]. rewrite Hm in *. pose proof (proj1 H2 Hx) as Hf.
  assert (failed (resetBuffer s)) as Hf'.
  { unfold failed, resetBuffer. flag_simpl. exact Hf. }
  split; [|rewrite Hm; by apply failed_idle]. split.
  - rewrite Hm. apply (core_mono _ _ _ (drop_flags kBufferProcessing (resetBuffer s))); [|apply (core_reset Free); [by left|exact H1]].
    pose proof (c_shape _ _ _ _ H1) as [Hp _]. unfold resetBuffer. split; try done; flag_simpl; try done. by left.
  - split; intros H; [done|]. unfold resetBuffer. flag_simpl. by apply H2.
Qed.

Lemma ord_errorBuffer x : c_mode x = Free -> c_failed x = true -> keep (V x) (errorBuffer E user).
Proof.
  intros Hm Hx. assert (outside x) as Ho by by left. unfold errorBuffer. walk1. destruct a; [auto with fifo|]. walk1.
  walk1; [walk|]. walk1. walk1; [auto with fifo|]. apply ord_modify. intros s. by apply V_reset.
Qed.
Hint Resolve ord_errorBuffer : fifo.

(** ** Destroying *)

Lemma ord_dead {A} x (m : W A) : keep (V (dead x)) m -> triple (fun s => V x s /\ has (kState s) kDestroyed = true) m (fun _ => V x).
Proof. intros H. eapply triple_weaken; [exact H| |]. - intros s []. by apply V_dead. - intros r. apply V_undead. Qed.

Lemma ord_onDestroy x d er : keep (V x) (onDestroy user d er).
Proof.
  unfold onDestroy. apply triple_read. intros [[[|] cb]|]; try (by apply triple_ret; intros s []).
  eapply (triple_weaken (fun s => V x s /\ has (kState s) kDestroyed = true) _ _ (fun _ => V x)); [|intros s [H Hd]|done].
  2: { split; [done|]. destruct H as [[H _] _]. by apply (c_closures _ _ _ _ H d cb). }
  apply ord_dead. pose proof (dead_outside x) as Ho.
  apply ord_bind; [|intros _].
  { apply ord_modify. intros s [[H1 H2] H3]. split; [|done]. split; [by apply core_destroyers|done]. }
  walk. destruct er; walk.
Qed.
Hint Resolve ord_onDestroy : fifo.

Lemma ord__destroy x er cb : c_destroyed x = true -> keep (V x) (_destroy user er cb).
Proof.
  intros Hx. unfold _destroy. walk1. apply ord_bind; [|intros _].
  { apply ord_modify. intros s [[H1 H2] H3]. eapply (V_mono x (set_destroyers _ s)); [..|split; [split|]]; [mono_step| mono_step| |done|done].
    apply core_destroyers; [|done]. intros _. by apply H2. }
  apply ord_attempt; [apply ord_user; [done|by right]|]. intros [?|?]; auto with fifo.
Qed.
Hint Resolve ord__destroy : fifo.

(** [destroy]: the task is queued just before the flag is raised. *)
Definition destroying (er : option jserror) (s : state) : state :=
  raise_flags kDestroyed (checkError er
    (if has (kState s) (flags [kBuffered; kOnFinished]) && negb (has (kState s) kDestroyed) then nextTick TErrorBuffer s else s)).

Lemma destroying_mono er s : mono s (destroying er s) /\ still s (destroying er s).
Proof. unfold destroying. destruct (_ && _); split; mono_step. Qed.

Lemma destroying_dead er s : has (kState (destroying er s)) kDestroyed = true.
Proof. unfold destroying. by flag_simpl. Qed.

Lemma V_destroy x er s : V x s -> V (dead x) (destroying er s).
Proof.
  intros H. apply V_dead; [apply destroying_dead|]. revert H. apply V_mono; apply destroying_mono.
Qed.

Lemma loose_destroy x er s : c_mode x = Free -> loose x s -> V (dead x) (destroying er s).
Proof.
  intros Hm H. apply V_dead; [apply destroying_dead|]. split; [by eapply hold_mono; [apply destroying_mono|]|].
  rewrite Hm. apply failed_idle. left. apply destroying_dead.
Qed.

Lemma run_destroy x er cb :
  triple (fun s => has (kState s) kDestroyed = false /\ V (dead x) (destroying er s)) (destroy user er cb) (fun _ => V x).
Proof.
  intros s s' r [HD H]. unfold destroying in H. unfold destroy, base_destroy, flag, bind, modify, gets. revert H. rewrite HD.
  set (s1 := if _ && negb false then _ else _).
  assert (has (kState s1) kDestroyed = false) as -> by (unfold s1; by case_match).
  generalize (raise_flags kDestroyed (checkError er s1)). intros s2 H2 Hrun. apply V_undead.
  apply (V_log (dead x) Destroyed s2) in H2; [|done]. destruct (has (kState (log Destroyed s2)) kConstructed).
  - exact (ord__destroy (dead x) er cb eq_refl _ s' r H2 Hrun).
  - injection Hrun as <- <-. eapply V_mono; [..|exact H2]; mono_step.
Qed.

Lemma ord_destroy x er cb : keep (V x) (destroy user er cb).
Proof.
  intros s s' r H Hrun. destruct (has (kState s) kDestroyed) eqn:HD.
  - unfold destroy, base_destroy, flag, bind, modify, gets in Hrun. rewrite HD, andb_false_r, HD in Hrun.
    eapply (ord_dead x); [apply (ord_call_user (dead x)), dead_outside|by split|exact Hrun].
  - eapply (run_destroy x er cb); [|exact Hrun]. split; [done|by apply V_destroy].
Qed.
Hint Resolve ord_destroy : fifo.

Lemma ord_emitError x er : outside x -> keep (V x) (emitErrorNT user er).
Proof. intros Ho. unfold emitErrorNT. walk. Qed.
Lemma ord_emitClose x : outside x -> keep (V x) (emitCloseNT user).
Proof. intros Ho. unfold emitCloseNT. walk. Qed.
Hint Resolve ord_emitError ord_emitClose : fifo.

Lemma ord_errorOrDestroy x er sync : (sync = true \/ outside x) -> keep (V x) (errorOrDestroy user er sync).
Proof.
  intros Hs. unfold errorOrDestroy. walk1. walk1; [auto with fifo|]. walk1. walk1; [auto with fifo|].
  destruct er as [er|]; [|auto with fifo]. walk1. destruct sync; [by apply ord_nextTick|].
  destruct Hs; [done|auto with fifo].
Qed.
Hint Resolve ord_errorOrDestroy : fifo.

(** ** Finishing *)

Lemma ord_onFinish x er : outside x -> keep (V x) (onFinish user er).
Proof.
  intros Ho. unfold onFinish. walk1. walk1; [auto with fifo|]. walk1. destruct er as [e|]; [walk|]. walk1. walk1; [|auto with fifo].
  walk1. apply ord_bind; [auto with fifo|]. intros _. walk.
Qed.
Hint Resolve ord_onFinish : fifo.

(** The invariant reads [kSync] while an array is being emptied only. *)
Lemma V_sync x s : c_mode x = Free -> V x s -> V x (drop_flags kSync s).
Proof.
  intros Hm [H1 H2]. rewrite Hm in H2. split; [eapply hold_mono; [mono_step|done]|]. rewrite Hm. unfold idle, failed.
  rewrite (mono_queue Free s) by mono_step. flag_simpl. exact H2.
Qed.

Lemma ord_prefinish x : c_mode x = Free -> keep (V x) (prefinish E user).
Proof.
  intros Hm. assert (outside x) as Ho by by left. unfold prefinish. walk1. walk1; [auto with fifo|]. walk1. walk1.
  - walk1. walk1. apply ord_bind; [|intros _; apply ord_modify; intros s; by apply V_sync].
    apply ord_attempt; [by apply ord_user|]. intros [?|?]; auto with fifo.
  - walk.
Qed.

Lemma ord_finish x : outside x -> keep (V x) (finish user).
Proof. intros Ho. unfold finish. walk. Qed.
Hint Resolve ord_prefinish ord_finish : fifo.

(** A stream that has buffered writes does not finish. *)
Lemma finishMaybe_waits sync s : has (kState s) kBuffered = true -> finishMaybe E user sync s = Some (s, Ok tt).
Proof.
  intros HB. unfold finishMaybe, bind, gets. destruct (needFinish s) eqn:Hn; [|done].
  apply needFinish_iff in Hn. destruct_and!. congruence.
Qed.

Lemma taken_buffered h t arr i b s : core h t (Taken arr i b) s -> has (kState s) kBuffered = true.
Proof. intros H. apply (c_shape _ _ _ _ H). Qed.

Lemma ord_finishMaybe x sync : keep (V x) (finishMaybe E user sync).
Proof.
  destruct (c_mode x) as [|arr i b] eqn:Hm.
  - assert (outside x) as Ho by by left. unfold finishMaybe. walk1. walk1; [|auto with fifo]. walk.
  - intros s s' r H Hrun. rewrite finishMaybe_waits in Hrun; [by injection Hrun as <- <-|].
    destruct H as [[H _] _]. rewrite Hm in H. by apply taken_buffered in H.
Qed.
Hint Resolve ord_finishMaybe : fifo.

(** ** After a write *)

Lemma ord_after_loop x n cb : outside x -> keep (V x) (after_loop E user n cb).
Proof. intros Ho. induction n as [|n IH]; cbn [after_loop]; walk. Qed.
Hint Resolve ord_after_loop : fifo.

Lemma ord_afterWrite x n cb : c_mode x = Free -> keep (V x) (afterWrite E user n cb).
Proof.
  intros Hm. assert (outside x) as Ho by by left. unfold afterWrite. walk1. walk1. walk1; [walk|]. walk1; [auto with fifo|].
  apply triple_read. intros d. eapply (triple_bind _ _ _ (fun _ => V x)); [|intros _; walk].
  destruct d; [|by apply triple_ret; intros s []].
  eapply triple_weaken; [apply (ord_dead x), (ord_errorBuffer (dead x)); done|done|by intros []].
Qed.
Hint Resolve ord_afterWrite : fifo.

Lemma ord_onwriteError x er cb : c_mode x = Free -> c_failed x = true -> keep (V x) (onwriteError E user er cb).
Proof. intros Hm Hf. assert (outside x) as Ho by by left. unfold onwriteError. walk. Qed.
Hint Resolve ord_onwriteError : fifo.

Lemma ord_settle x : keep (V x) (settle E user).
Proof. unfold settle. walk. Qed.
Hint Resolve ord_settle : fifo.

Lemma ord_written_sync x cb : keep (V x) (written_sync E user cb).
Proof. unfold written_sync. walk. Qed.
Hint Resolve ord_written_sync : fifo.

(** ** Writing *)

Lemma core_kState h t m v s :
  has v kExpectWriteCb = has v kWriting -> has v kBufferProcessing = has (kState s) kBufferProcessing ->
  has v kBuffered = has (kState s) kBuffered -> has v kDestroyed = has (kState s) kDestroyed ->
  has v kErrored = has (kState s) kErrored -> core h t m s -> core h t m (set_kState v s).
Proof.
  intros E1 E2 E3 E4 E5 [C1 C2 C3 C4 C5 C6].
  assert (queue m (set_kState v s) = queue m s) as Hq by (destruct m; [|done]; unfold queue, buffered; cbn; by rewrite E3).
  split; rewrite ?Hq; unfold failed, shape in *; cbn [kState set_kState trace ticks destroyers kBufferedValue bufferedIndex]; rewrite ?E2, ?E3, ?E4, ?E5; done.
Qed.

Lemma core_begin h t m s : core h t m s -> core h t m (raise_flags (flags [kWriting; kSync; kExpectWriteCb]) s).
Proof. apply core_kState; by flag_simpl. Qed.

Lemma core_written h t m er s :
  core h t m s -> core h t m (log (Written er) (drop_flags (flags [kWriting; kExpectWriteCb]) s)).
Proof. intros H. apply core_log; [done|]. revert H. apply core_kState; by flag_simpl. Qed.

Lemma known_written x er s : known x s -> known x (log (Written er) (drop_flags (flags [kWriting; kExpectWriteCb]) s)).
Proof. unfold known, failed. cbn. by flag_simpl. Qed.

Lemma known_begin x s : known x s -> known x (raise_flags (flags [kWriting; kSync; kExpectWriteCb]) s).
Proof. unfold known, failed. by flag_simpl. Qed.

Lemma unbuffered_empty s : has (kState s) kBuffered = false -> queue Free s = [].
Proof. intros HB. unfold queue, buffered. rewrite HB. unfold entries. by rewrite drop_nil. Qed.

Lemma loose_writing x s : c_mode x = Free -> has (kState s) kWriting = true -> loose x s -> V x s.
Proof. intros Hm HW H. split; [done|]. rewrite Hm. intros _ HW'. congruence. Qed.

Lemma loose_empty x s : c_mode x = Free -> queue Free s = [] -> loose x s -> V x s.
Proof. intros Hm Hq H. split; [done|]. rewrite Hm. by intros _ _ _ _. Qed.

Lemma loose_failed x s : c_mode x = Free -> failed s -> loose x s -> V x s.
Proof. intros Hm Hf H. split; [done|]. rewrite Hm. by apply failed_idle. Qed.

Lemma triple_quiet {A} h x f (m : W A) Q :
  (forall s, mono s (f s)) -> triple (hold h x) m Q -> triple (hold h x) (modify f;; m) Q.
Proof.
  intros Hf Hm. eapply (triple_bind _ _ _ (fun _ => hold h x)); [|by intros _].
  apply triple_modify. intros s. by apply hold_mono.
Qed.

(** *** The callback of a write *)

Lemma bad_errored x e s : loose x s -> loose (bad x) (if has (kState s) kErrored then s else set_errored e s).
Proof.
  intros H. assert (mono s (if has (kState s) kErrored then s else set_errored e s)) as M by mono_step.
  destruct (hold_mono _ _ _ _ M H) as [H1 [H2 H3]]. split; [done|]. split; [|done]. intros _. right.
  destruct (has (kState s) kErrored) eqn:HE; [done|]. unfold set_errored. by flag_simpl.
Qed.

Lemma ord_nextTick_fails x t : c_failed x = true -> keep (V x) (modify (nextTick t)).
Proof.
  intros Hx. apply ord_modify. intros s H. eapply V_mono; [..|exact H]; [|mono_step]. split; try done. intros _. right.
  destruct H as [[_ [H _]] _]. by apply H.
Qed.

Lemma ord_onwrite_with x clear er :
  c_mode x = Free -> triple (loose x) clear (fun _ => V x) -> keep (V x) (onwrite_with E user clear er).
Proof.
  intros Hm Hclear. assert (outside x) as Ho by by left. unfold onwrite_with. walk1. walk1; [auto with fifo|]. walk1. walk1. walk1.
  eapply (triple_bind _ _ _ (fun _ => loose x)); [apply triple_modify|intros _].
  { intros s [[H1 H2] _]. split; [by apply core_written|by apply known_written]. }
  apply triple_quiet; [mono_step|]. destruct er as [e|].
  - eapply (triple_bind _ _ _ (fun _ => V (bad x))); [apply triple_modify|intros _].
    { intros s H%(bad_errored _ e). apply loose_failed; [done| |done]. destruct H as [_ [H _]]. by apply H. }
    eapply (triple_weaken (V (bad x)) _ _ (fun _ => V (bad x))); [|done|intros r; apply V_unbad].
    destruct a0; [by apply ord_nextTick_fails|auto with fifo].
  - apply triple_read. intros b. eapply (triple_bind _ _ _ (fun _ => V x)); [|intros _; walk]. destruct b.
    + eapply triple_weaken; [exact Hclear|by intros s []|by intros []].
    + apply triple_ret. intros s [H HB]. apply loose_empty; [done| |done]. by apply unbuffered_empty.
Qed.

(** *** While an array is being emptied *)


Lemma firm_bind {A B} I (m : W A) (k : A -> W B) : firm I m -> (forall a, firm I (k a)) -> firm I (bind m k).
Proof. intros Hm Hk. eapply triple_bind; [|exact Hk]. eapply triple_weaken; [exact Hm|done|]. by intros []. Qed.
Lemma firm_quiet x f : (forall s, mono s (f s)) -> (forall s, still s (f s)) -> firm (answered x) (modify f).
Proof. intros H1 H2. apply triple_modify. intros s. by apply answered_mono. Qed.
Lemma firm_gets {A} (I : state -> Prop) (f : state -> A) : firm I (gets f).
Proof. by apply triple_gets. Qed.
Lemma firm_ret {A} (I : state -> Prop) (a : A) : firm I (ret a).
Proof. by apply triple_ret. Qed.
Lemma firm_finishMaybe x arr i b sync : c_mode x = Taken arr i b -> firm (answered x) (finishMaybe E user sync).
Proof.
  intros Hm s s' r H Hrun. rewrite finishMaybe_waits in Hrun; [by injection Hrun as <- <-|].
  destruct H as [[H _] _]. rewrite Hm in H. by apply taken_buffered in H.
Qed.
Lemma firm_nextTick x t : fails t = false -> firm (answered x) (modify (nextTick t)).
Proof.
  intros Ht. apply firm_quiet; [|mono_step]. intros s. split; try done. cbn.
  rewrite existsb_fails_snoc, Ht, orb_false_r. by left.
Qed.

Ltac firm1 :=
  lazymatch goal with
  | |- triple _ (bind (gets _) _) _ => apply firm_bind; [apply firm_gets|intros ?]
  | |- triple _ (bind (flag _) _) _ => apply firm_bind; [apply firm_gets|intros ?]
  | |- triple _ (bind (modify (nextTick _)) _) _ => apply firm_bind; [by apply firm_nextTick|intros _]
  | |- triple _ (bind (modify _) _) _ => apply firm_bind; [apply firm_quiet; mono_step|intros _]
  | |- triple _ (modify _) _ => apply firm_quiet; mono_step
  | |- triple _ (if ?b then _ else _) _ => destruct b
  | |- triple _ (match ?x with _ => _ end) _ => destruct x
  end.

Lemma firm_written_sync x arr i b cb : c_mode x = Taken arr i b -> firm (answered x) (written_sync E user cb).
Proof.
  intros Hm. pose proof (firm_finishMaybe x arr i b true Hm) as Hf. unfold written_sync, settle.
  repeat (first [exact Hf | apply firm_ret | firm1]).
Qed.

(** The callback of a write may be called while [_write] runs. *)
Lemma firm_onwrite x arr i b clear er :
  c_mode x = Taken arr i b -> firm (answered x) clear ->
  triple (fun s => answered x s /\ (has (kState s) kWriting = true \/ has (kState s) kDestroyed = true))
    (onwrite_with E user clear er) (sure (answered x)).
Proof.
  intros Hm Hclear. unfold onwrite_with, flag. apply triple_read. intros ex. destruct ex; cbn [negb].
  2: { unfold errorOrDestroy, flag. apply triple_read. intros d s s' r [[[H HWD] He] Hd] Hrun.
       rewrite (c_expect _ _ _ _ (proj1 (proj1 H))) in He. destruct HWD as [|HD]; [congruence|].
       rewrite HD in Hd. subst d. by injection Hrun as <- <-. }
  apply triple_read. intros sync. eapply (triple_weaken (fun s => answered x s /\ sync = true) _ _ (sure (answered x))); [| |done].
  2: { intros s [[[H _] _] Hs]. split; [done|]. destruct H as [_ H]. rewrite Hm in H. congruence. }
  apply triple_pure. intros ->. firm1. firm1.
  eapply (triple_bind _ _ _ (fun _ => answered x)); [apply triple_modify|intros _].
  { intros s [[H1 H2] H3]. split; [split; [by apply core_written|by apply known_written]|]. rewrite Hm in *.
    unfold log. cbn [kState set_trace]. by flag_simpl. }
  firm1. destruct er as [e|].
  - eapply (triple_bind _ _ _ (fun _ => answered (bad x))); [apply triple_modify|intros _; apply triple_modify].
    { intros s [H1 H2]. split; [by apply bad_errored|]. cbn [c_mode bad]. rewrite Hm in *. unfold set_errored.
      destruct (has (kState s) kErrored); [done|]. by flag_simpl. }
    intros s [[H1 H2] H3]. split; [|cbn [c_mode bad] in H3; by rewrite Hm in *]. split; [|by split; [intros _; apply H2|apply H2]].
    eapply core_mono; [|exact H1]. split; try done. intros _. right. by apply H2.
  - firm1. apply firm_bind; [|intros _; by apply (firm_written_sync x arr i b)]. destruct a0; [done|apply firm_ret].
Qed.

Definition begun (h : list payload_t) (x : ctx) (s : state) : Prop :=
  hold h x s /\ has (kState s) kSync = true /\ has (kState s) kWriting = true.

Lemma begun_sunk h x s : begun h x s -> V x (log (Sunk h) s).
Proof.
  intros ([H1 H2] & HS & HW). split; [split; [by apply core_sunk|done]|]. destruct (c_mode x).
  - intros _ HW'. cbn in HW'. congruence.
  - split; [done|by left].
Qed.

Lemma ord_stream_writev h x b : triple (begun h x) (stream_writev user h b) (sure (answered x)).
Proof.
  unfold stream_writev. eapply (triple_bind _ _ _ (fun _ => V x)); [apply triple_modify; apply begun_sunk|intros _].
  apply (f_sink Hfair); [done|]. right. by eexists _, _.
Qed.

Lemma ord_stream_write c e x : open x -> triple (begun [(c, e)] x) (stream_write E user c e) (sure (answered x)).
Proof.
  intros Ho. unfold stream_write. destruct (has_write E) eqn:HW.
  - eapply (triple_bind _ _ _ (fun _ => V x)); [apply triple_modify; apply begun_sunk|intros _].
    apply (f_sink Hfair); [done|by left].
  - destruct (has_writev E); [apply ord_stream_writev|done].
Qed.

Lemma ord_doWrite h x arr i b size sink cb :
  c_mode x = Taken arr i b -> triple (begun h x) sink (sure (answered x)) ->
  triple (hold h x) (doWrite E user size sink cb) (sure (loose x)).
Proof.
  intros Hm Hsink. unfold doWrite. apply triple_quiet; [mono_step|]. apply triple_quiet; [mono_step|].
  eapply (triple_bind _ _ _ (fun _ => begun h x)); [apply triple_modify|intros _].
  { intros s [H1 H2]. split; [split; [by apply core_begin|by apply known_begin]|]. by flag_simpl. }
  unfold flag. apply triple_read. intros d.
  eapply (triple_bind _ _ _ (fun _ => loose x)); [|intros _; apply triple_modify; intros s; apply hold_mono; mono_step].
  destruct d.
  - eapply triple_weaken; [apply (firm_onwrite x arr i b (ret tt)); [done|apply firm_ret]| |].
    + intros s [[[H1 H2] [HS HW]] HD]. split; [|by left]. split; [|by rewrite Hm]. split; [|done]. by apply (core_drop h); [left|].
    + intros [?|?] s H; [apply H|done].
  - eapply triple_weaken; [exact Hsink|by intros s []|]. intros [?|?] s H; [apply H|done].
Qed.

(** *** Emptying the buffer *)

Definition set_mode (m : mode) (x : ctx) : ctx := Ctx m (c_failed x) (c_destroyed x).

Lemma loose_take x arr i e s :
  array arr s !! i = Some (Some e) -> loose (set_mode (Taken arr i false) x) s ->
  hold [payload e] (set_mode (Taken arr (S i) false) x) (set_arrays (<[arr := <[i := None]> (array arr s)]> (arrays s)) s).
Proof. intros Hi [H1 H2]. split; [by apply core_take|done]. Qed.

Lemma ord_clear_loop x n : forall arr i,
  triple (fun s => loose (set_mode (Taken arr i false) x) s /\ (i < List.length (array arr s))%nat)
    (clear_loop E user n arr i)
    (or_throw (fun _ => False) (fun j s => loose (set_mode (Taken arr j false) x) s /\
       (j = List.length (array arr s) \/ has (kState s) kWriting = true))).
Proof.
  induction n as [|n IH]; intros arr i; cbn [clear_loop]; [by intros s s' r _|]. apply triple_read. intros e.
  assert (open (set_mode (Taken arr (S i) false) x)) as Ho by by right.
  eapply (triple_weaken (fun s => (loose (set_mode (Taken arr i false) x) s /\ array arr s !! i = e) /\
                                  exists v, e = Some (Some v))); [| |done].
  2: { intros s [[H Hi] He]. split; [by split|]. destruct H as [H _].
       pose proof (c_shape _ _ _ _ H) as (_ & _ & _ & _ & Hf & _). apply lookup_lt_is_Some_2 in Hi as [y Hy].
       rewrite (drop_S _ _ _ Hy) in Hf. apply Forall_cons in Hf as [Hf _]. destruct y as [v|]; [|done]. exists v. by rewrite Hy in He. }
  apply triple_pure. intros [v ->].
  eapply (triple_bind _ _ _ (fun _ => hold [payload v] (set_mode (Taken arr (S i) false) x))); [apply triple_modify|intros _].
  { intros s [H Hi]. by apply loose_take. }
  eapply (triple_bind _ _ _ (fun _ => hold [payload v] (set_mode (Taken arr (S i) false) x))); [by apply triple_gets|intros size].
  eapply (triple_bind _ _ _ (fun _ => loose (set_mode (Taken arr (S i) false) x))); [|intros _].
  { eapply triple_weaken; [eapply (ord_doWrite [payload v] (set_mode (Taken arr (S i) false) x)); [done|by apply ord_stream_write]|done|by intros []]. }
  apply triple_read. intros [|].
  - eapply triple_weaken; [apply IH| |done]. intros s [H [Hl _]%andb_true_iff]. split; [done|]. by apply bool_decide_eq_true in Hl.
  - apply triple_ret. intros s [H Hm]. split; [done|]. apply andb_false_iff in Hm as [Hm|Hm]; [left|right; by apply negb_false_iff in Hm].
    apply bool_decide_eq_false in Hm. destruct H as [H _]. pose proof (c_shape _ _ _ _ H) as (_ & _ & _ & Hi & _). lia.
Qed.

(** Once the array was emptied, or a write is under way. *)
Lemma loose_settled x arr j s :
  c_mode x = Free -> loose (set_mode (Taken arr j false) x) s ->
  j = List.length (array arr s) \/ has (kState s) kWriting = true ->
  V x (drop_flags kBufferProcessing
    (if bool_decide (j = List.length (array arr s)) then resetBuffer s
     else if bool_decide (256 < j)%nat
     then set_bufferedIndex 0%nat (set_arrays (<[arr := drop j (array arr s)]> (arrays s)) s)
     else set_bufferedIndex j s)).
Proof.
  intros Hm [H1 H2] Hj. cbn [c_mode set_mode] in H1.
  assert (forall s', kState s' = kState s -> known x (drop_flags kBufferProcessing s')) as Hk.
  { intros s' Es. unfold known, failed. flag_simpl. rewrite Es. exact H2. }
  case_bool_decide as Hl.
  - apply loose_empty; [done| |split].
    + apply unbuffered_empty. unfold resetBuffer. by flag_simpl.
    + rewrite Hm. eapply core_reset; [right|exact H1]. unfold queue, entries. by rewrite Hl, drop_all.
    + unfold known, failed, resetBuffer. flag_simpl. exact H2.
  - destruct Hj as [?|HW]; [done|]. case_bool_decide; (apply loose_writing; [done|by flag_simpl|]); unfold hold; rewrite Hm.
    + split; [by apply core_shift|by apply Hk].
    + split; [by eapply core_index|by apply Hk].
Qed.

Lemma loose_sealed x arr j s :
  c_mode x = Free -> loose (set_mode (Taken arr j true) x) s ->
  V x (drop_flags kBufferProcessing (resetBuffer s)).
Proof.
  intros Hm [H1 H2]. cbn [c_mode set_mode] in H1. apply loose_empty; [done| |split].
  - apply unbuffered_empty. unfold resetBuffer. by flag_simpl.
  - rewrite Hm. eapply core_reset; [|exact H1]. pose proof (c_shape _ _ _ _ H1) as (_ & _ & _ & _ & _ & Hs).
    destruct (Hs eq_refl) as [HD|Hl]; [by left; left|right]. unfold queue, entries. by rewrite Hl, drop_all.
  - unfold known, failed, resetBuffer. flag_simpl. exact H2.
Qed.

(** The buffer is not emptied. *)
Lemma loose_blocked x s :
  c_mode x = Free -> loose x s ->
  negb (has (kState s) kDestroyed) && negb (has (kState s) kBufferProcessing) && negb (has (kState s) kCorked) &&
    has (kState s) kBuffered && has (kState s) kConstructed = false \/
  (List.length (array (default 1%positive (kBufferedValue s)) s) - bufferedIndex s = 0)%nat -> V x s.
Proof.
  intros Hm H Hb. split; [done|]. rewrite Hm. intros Hf HW HC HK. destruct (has (kState s) kBuffered) eqn:HB; [|by apply unbuffered_empty].
  destruct H as [H _]. rewrite Hm in H. pose proof (c_shape _ _ _ _ H) as [Hp Hs]. rewrite HB in Hs. destruct Hs as (arr & Ha & Hi & _).
  destruct Hb as [Hb|Hb].
  - rewrite HK, HC, Hp, !andb_true_r in Hb. apply negb_false_iff in Hb. destruct Hf. by left.
  - rewrite Ha in Hb. change (default 1%positive (Some arr)) with arr in Hb. unfold queue, buffered, entries. rewrite HB, Ha.
    by rewrite drop_ge by lia.
Qed.

Lemma loose_start x s :
  c_mode x = Free -> has (kState s) kBuffered = true -> loose x s ->
  loose (set_mode (Taken (default 1%positive (kBufferedValue s)) (bufferedIndex s) false) x) (raise_flags kBufferProcessing s).
Proof.
  intros Hm HB [H1 H2]. rewrite Hm in H1. split; [by apply core_start|]. unfold known, failed. flag_simpl. exact H2.
Qed.

Lemma triple_get {A B} (P : state -> Prop) (f : state -> A) (k : A -> W B) Q :
  (forall a, triple P (k a) Q) -> triple P (bind (gets f) k) Q.
Proof. intros H. eapply (triple_bind _ _ _ (fun _ => P)); [by apply triple_gets|exact H]. Qed.

Lemma ord_sealed x arr k chunks b size cb :
  c_mode x = Free ->
  triple (hold chunks (set_mode (Taken arr k true) x))
    (doWrite E user size (stream_writev user chunks b) cb;; modify resetBuffer)
    (sure (fun s => V x (drop_flags kBufferProcessing s))).
Proof.
  intros Hm. eapply (triple_bind _ _ _ (fun _ => loose (set_mode (Taken arr k true) x))).
  - eapply triple_weaken; [eapply (ord_doWrite chunks (set_mode (Taken arr k true) x)); [done|apply ord_stream_writev]|done|by intros []].
  - intros _. apply triple_modify. intros u Hu. by apply (loose_sealed x arr k).
Qed.

Lemma ord_writev x arr i b size cb :
  c_mode x = Free ->
  triple (loose (set_mode (Taken arr i false) x))
    (chunks <- gets (fun s => payload <$> entries (array arr s) i);;
     doWrite E user size (stream_writev user chunks b) cb;; modify resetBuffer)
    (sure (fun s => V x (drop_flags kBufferProcessing s))).
Proof.
  intros Hm. apply triple_read. intros chunks s s' r [[H1 H2] Hc].
  apply (ord_sealed x arr (List.length (array arr s))); [done|]. split; [|done]. rewrite <- Hc. by apply (core_seal arr i).
Qed.

Lemma ord_clearBuffer x : c_mode x = Free -> triple (loose x) (clearBuffer E user) (fun _ => V x).
Proof.
  intros Hm. unfold clearBuffer. do 4 (apply triple_read; intros ?).
  eapply (triple_weaken (fun s => loose x s /\ (negb a || bool_decide (a2 = 0%nat) = false ->
             loose (set_mode (Taken a0 a1 false) x) (raise_flags kBufferProcessing s) /\ (a1 < List.length (array a0 s))%nat) /\
             (negb a || bool_decide (a2 = 0%nat) = true -> V x s)) _ _ (fun _ => V x)); [| |done].
  2: { intros s [[[[H Ha] Ha0] Ha1] Ha2]. rewrite clear_iff in Ha. subst a0 a1 a2. split; [done|]. split.
       - intros [Ha' Hl]%orb_false_iff. rewrite negb_false_iff in Ha'. rewrite bool_decide_eq_false in Hl. rewrite Ha' in Ha.
         rewrite !andb_true_iff in Ha. destruct Ha as [[_ HB] _]. split; [by apply loose_start|lia].
       - intros Hb. apply loose_blocked; [done..|]. apply orb_true_iff in Hb as [Hb|Hb].
         + left. apply negb_true_iff in Hb. congruence.
         + right. by apply bool_decide_eq_true in Hb. }
  destruct (negb a || _); [apply triple_ret; intros s (_ & _ & H); by apply H|].
  eapply (triple_bind _ _ _ (fun _ s => loose (set_mode (Taken a0 a1 false) x) s /\ (a1 < List.length (array a0 s))%nat)).
  { apply triple_modify. intros s (_ & H & _). by destruct (H eq_refl). }
  intros _. eapply (triple_bind _ _ _ (fun _ s => V x (drop_flags kBufferProcessing s))); [|intros _; by apply triple_modify].
  destruct (_ && _).
  - eapply (triple_weaken (loose (set_mode (Taken a0 a1 false) x)) _ _ (sure (fun s => V x (drop_flags kBufferProcessing s))));
      [|by intros s []|by intros []].
    apply triple_quiet; [mono_step|]. do 3 (apply triple_get; intros ?). by apply ord_writev.
  - eapply (triple_bind _ _ _ (fun j s => loose (set_mode (Taken a0 j false) x) s /\
       (j = List.length (array a0 s) \/ has (kState s) kWriting = true))); [|intros j].
    + eapply triple_weaken; [apply (ord_clear_loop x)|done|by intros []].
    + apply triple_modify. intros s [H Hj]. by apply loose_settled.
Qed.

(** While an array is being emptied, nothing else is. *)
Lemma clearBuffer_waits s : has (kState s) kBufferProcessing = true -> clearBuffer E user s = Some (s, Ok tt).
Proof.
  intros HP. unfold clearBuffer, bind, gets. rewrite clear_iff, HP. cbn [negb]. by rewrite andb_false_r.
Qed.

Lemma taken_processing h t arr i b s : core h t (Taken arr i b) s -> has (kState s) kBufferProcessing = true.
Proof. intros H. apply (c_shape _ _ _ _ H). Qed.

Lemma firm_clearBuffer x arr i b : c_mode x = Taken arr i b -> firm (answered x) (clearBuffer E user).
Proof.
  intros Hm s s' r H Hrun. rewrite clearBuffer_waits in Hrun; [by injection Hrun as <- <-|].
  destruct H as [[H _] _]. rewrite Hm in H. by apply taken_processing in H.
Qed.

(** The callback, called by the code of a write, and by other code. *)
Lemma sink_onwrite x er : triple (V x) (onwrite E user er) (fun _ => answered x).
Proof.
  unfold onwrite. destruct (c_mode x) as [|arr i b] eqn:Hm.
  - eapply triple_weaken; [apply (ord_onwrite_with x); [done|by apply ord_clearBuffer]|done|intros r; apply V_answered].
  - eapply triple_weaken; [apply (firm_onwrite x arr i b); [done|by apply (firm_clearBuffer x arr i b)]| |].
    + intros s H. split; [by apply V_answered|]. destruct H as [_ H]. rewrite Hm in H. by destruct H.
    + by intros [].
Qed.

Lemma answered_V x s : outside x -> answered x s -> V x s.
Proof.
  intros Ho [H1 H2]. split; [done|]. destruct (c_mode x) eqn:Hm; [done|]. destruct Ho as [Ho|Ho]; [congruence|].
  split; [done|]. right. by apply H1.
Qed.

Lemma ord_onwrite x er : outside x -> keep (V x) (onwrite E user er).
Proof. intros Ho. eapply triple_weaken; [apply sink_onwrite|done|]. intros r s. by apply answered_V. Qed.
Hint Resolve ord_onwrite : fifo.

(** *** New writes *)

(** A write was accepted and is not stored yet. *)
Definition pend (p : payload_t) (x : ctx) (s : state) : Prop :=
  core [] [p] (c_mode x) s /\ known x s /\ has (kState s) kDestroyed = false /\
  match c_mode x with
  | Free => idle s
  | Taken _ _ b => b = false /\ has (kState s) kSync = true /\ has (kState s) kWriting = true
  end.

Lemma pend_accept x c e s : open x -> has (kState s) kDestroyed = false -> V x s -> pend (c, e) x (log (Accepted c e) s).
Proof.
  intros Ho HD [[H1 H2] H3]. split; [by apply core_accept|]. split; [done|]. split; [done|]. unfold open in Ho.
  destruct (c_mode x) as [|arr i b]; [done|]. destruct H3 as [HS [HW|?]]; [|congruence]. split; [|done].
  destruct b; [|done]. destruct Ho as [Ho|[]]. apply H2 in Ho. congruence.
Qed.

Lemma pend_mono p x s s' :
  mono s s' -> still s s' -> has (kState s') kDestroyed = has (kState s) kDestroyed -> pend p x s -> pend p x s'.
Proof.
  intros M T ED (H1 & H2 & H3 & H4). split; [by eapply core_mono|]. split; [by eapply known_mono|]. split; [by rewrite ED|].
  destruct (c_mode x); [by eapply idle_mono|]. destruct H4 as (Hb & HS & HW). rewrite (m_writing s s' M).
  by split_and!; [|apply (t_sync s s' T)|].
Qed.

Lemma V_push x e s :
  negb (has (kState s) kWriting) && negb (has (kState s) kErrored) && negb (has (kState s) kCorked) && has (kState s) kConstructed = false ->
  pend (payload e) x s -> V x (push_entry e s).
Proof.
  intros Hn (H1 & H2 & HD & H3).
  assert (forall m, m ∈ [kDestroyed; kErrored; kWriting; kCorked; kConstructed; kSync] ->
            has (kState (push_entry e s)) m = has (kState s) m) as Hf.
  { intros m Hm. repeat (apply elem_of_cons in Hm as [->|Hm]; [unfold push_entry; repeat case_match; cbn; flag_simpl; done|]).
    by apply elem_of_nil in Hm. }
  split; [split|].
  - apply core_push; [|done]. destruct (c_mode x) as [|arr i b]; [done|]. by destruct H3 as [-> _].
  - unfold known, failed. rewrite !Hf by set_solver. exact H2.
  - destruct (c_mode x) as [|arr i b].
    + unfold idle, failed. rewrite !Hf by set_solver. intros Hnf HW HC HK. rewrite HW, HC, HK, andb_true_r in Hn. cbn in Hn.
      rewrite andb_true_r in Hn. apply negb_false_iff in Hn. destruct Hnf. by right.
    + rewrite !Hf by set_solver. destruct H3 as (_ & HS & HW). split; [done|by left].
Qed.

Lemma pend_first p x s :
  negb (has (kState s) kWriting) && negb (has (kState s) kErrored) && negb (has (kState s) kCorked) && has (kState s) kConstructed = true ->
  pend p x s -> hold [p] x s /\ c_mode x = Free.
Proof.
  rewrite !andb_true_iff, !negb_true_iff. intros [[[HW HE] HC] HK] (H1 & H2 & HD & H3). destruct (c_mode x) as [|arr i b] eqn:Hm.
  - split; [|done]. split; [|done]. rewrite Hm. apply core_first; [|done]. apply H3; try done. intros [|]; congruence.
  - destruct H3 as (_ & _ & H3). congruence.
Qed.

Lemma ord_writeOrBuffer x c e cb :
  open x -> triple (fun s => V x s /\ has (kState s) kDestroyed = false) (writeOrBuffer E user c e cb) (fun _ => V x).
Proof.
  intros Ho. unfold writeOrBuffer. apply triple_get. intros size.
  eapply (triple_bind _ _ _ (fun _ => pend (c, e) x)); [apply triple_modify; intros s []; by apply pend_accept|intros _].
  eapply (triple_bind _ _ _ (fun _ => pend (c, e) x)); [apply triple_modify|intros _].
  { intros s. apply pend_mono; [mono_step|mono_step|done]. }
  apply triple_read. intros f. eapply (triple_bind _ _ _ (fun _ => V x)); [|intros _; walk]. destruct f; cbn [negb].
  2: { apply triple_modify. intros s [H Hf]. rewrite free_iff in Hf. by apply V_push. }
  eapply (triple_weaken (fun s => hold [(c, e)] x s /\ c_mode x = Free) _ _ (fun _ => V x)); [| |by intros []].
  2: { intros s [H Hf]. rewrite free_iff in Hf. by apply pend_first. }
  apply triple_pure. intros Hm. apply triple_quiet; [mono_step|]. apply triple_quiet; [mono_step|].
  eapply (triple_bind _ _ _ (fun _ => begun [(c, e)] x)); [apply triple_modify|intros _].
  { intros s [H1 H2]. split; [split; [by apply core_begin|by apply known_begin]|]. by flag_simpl. }
  eapply (triple_bind _ _ _ (fun _ => V x)); [|intros _; apply triple_modify; intros s; by apply V_sync].
  eapply triple_weaken; [by apply (ord_stream_write c e x)|done|]. intros [?|?] s H; [|done]. apply answered_V; [by left|done].
Qed.

Lemma ord_write' x c e cb : open x -> keep (V x) (_write E user c e cb).
Proof.
  intros Ho. unfold _write. destruct (bool_decide _); [auto with fifo|]. walk1.
  apply ord_bind; [destruct a; [auto with fifo|]; walk1; by apply triple_lift|]. intros input.
  apply triple_read. intros s0. case_match eqn:Hc.
  - eapply (triple_weaken (V x) _ _ (fun _ => V x)); [|by intros s []|done].
    apply ord_bind; [destruct cb; walk|intros _]. apply ord_bind; [|intros _; auto with fifo]. apply ord_errorOrDestroy. by left.
  - assert (has (kState s0) kDestroyed = false) as HD by (repeat case_match; done).
    eapply (triple_weaken (fun s => V x s /\ has (kState s) kDestroyed = false) _ _ (fun _ => V x)); [| |done]; [|by intros s [H ->]].
    eapply (triple_bind _ _ _ (fun _ s => V x s /\ has (kState s) kDestroyed = false)); [apply triple_modify|intros _].
    { intros s [H H']. split; [|done]. eapply V_mono; [..|exact H]; mono_step. }
    eapply (triple_bind _ _ _ (fun _ => V x)); [|intros b; auto with fifo].
    eapply triple_weaken; [by apply (ord_writeOrBuffer x)|done|by intros []].
Qed.
Hint Resolve ord_write' : fifo.

Lemma ord_write x c e cb : open x -> keep (V x) (write E user c e cb).
Proof. intros Ho. unfold write. destruct (split_args e cb). walk. Qed.
Hint Resolve ord_write : fifo.

Lemma ord_uncork x : keep (V x) (uncork E user).
Proof.
  unfold uncork. walk1. destruct (a =? 0); [auto with fifo|]. destruct (c_mode x) as [|arr i b] eqn:Hm.
  - eapply (triple_bind _ _ _ (fun _ => loose x)); [apply triple_modify|intros _].
    { intros s [H _]. eapply hold_mono; [|exact H]. cbn zeta. destruct (a - 1 =? 0); mono_step. }
    unfold flag. apply triple_read. intros [|].
    + apply triple_ret. intros s [H HW]. by apply loose_writing.
    + eapply triple_weaken; [by apply (ord_clearBuffer x)|by intros s []|done].
  - apply ord_bind; [|intros _].
    { apply ord_modify. intros s [H1 H2]. split.
      - eapply hold_mono; [|exact H1]. cbn zeta. destruct (a - 1 =? 0); mono_step.
      - rewrite Hm in *. cbn zeta. destruct (a - 1 =? 0); [|done]. by flag_simpl. }
    walk1. walk1; [auto with fifo|]. intros s s' r H Hrun. rewrite clearBuffer_waits in Hrun; [by injection Hrun as <- <-|].
    destruct H as [[H _] _]. rewrite Hm in H. by apply taken_processing in H.
Qed.
Hint Resolve ord_uncork : fifo.

Lemma ord_cork x : keep (V x) cork.
Proof. unfold cork. walk1. Qed.

Lemma ord_setDefaultEncoding x e : keep (V x) (setDefaultEncoding E e).
Proof. unfold setDefaultEncoding. walk. Qed.
Hint Resolve ord_cork ord_setDefaultEncoding : fifo.

Lemma ord_end x c e cb : open x \/ c = CNull \/ c = CUndefined -> keep (V x) (end_ E user c e cb).
Proof.
  intros Ho. unfold end_. destruct (end_args c e cb) as [[c' e'] cb'] eqn:Ha.
  assert (open x \/ c' = CNull \/ c' = CUndefined) as Ho'.
  { destruct Ho as [Ho|Ho]; [by left|right]. unfold end_args in Ha. destruct Ho as [-> | ->], (split_args e cb); injection Ha; auto. }
  apply ord_bind; [|intros er].
  { destruct Ho' as [Ho'|Ho']; [walk|]. by destruct Ho' as [-> | ->]; cbn; apply ord_ret. }
  walk1. apply ord_bind; [walk|]. intros _. walk1. walk1. walk1. apply ord_bind; [destruct er as [er|]; walk|]. intros er'.
  destruct cb' as [f|]; [|auto with fifo]. destruct er'; walk1.
Qed.
Hint Resolve ord_end : fifo.

(** ** Construction *)

Lemma ord_onConstructed x : c_mode x = Free -> triple (loose x) (onConstructed E user) (fun _ => V x).
Proof.
  intros Hm. unfold onConstructed, flag. apply triple_read. intros w. eapply (triple_bind _ _ _ (fun _ => V x)); [|intros _; walk].
  destruct w.
  - apply triple_ret. intros s [H HW]. by apply loose_writing.
  - eapply triple_weaken; [by apply (ord_clearBuffer x)|by intros s []|by intros []].
Qed.

Lemma loose_error x er sync :
  c_mode x = Free -> triple (fun s => loose x s /\ has (kState s) kDestroyed = false) (errorOrDestroy user (Some er) sync) (fun _ => V x).
Proof.
  intros Hm. assert (outside x) as Ho by by left. unfold errorOrDestroy, flag. apply triple_read. intros d.
  destruct d; [intros s s' r [[H1 H2] H3]; congruence|]. apply triple_get. intros [|].
  - eapply triple_weaken; [apply (run_destroy x)| |done]. intros s [[H HD] _]. split; [done|by apply loose_destroy].
  - eapply (triple_weaken (loose x) _ _ (fun _ => V x)); [|by intros s [[]]|done]. eapply (triple_bind _ _ _ (fun _ => V x)); [apply triple_modify|intros _; destruct sync; walk].
    intros s H%(bad_errored _ er). apply V_unbad, loose_failed; [done| |done]. by apply H.
Qed.

Lemma ord_onConstruct x er : c_mode x = Free -> keep (V x) (onConstruct E user er).
Proof.
  intros Hm. assert (outside x) as Ho by by left. unfold onConstruct. walk1. walk1; [auto with fifo|]. walk1.
  eapply (triple_bind _ _ _ (fun _ => loose x)); [apply triple_modify; intros s [H _]; eapply hold_mono; [|exact H]; mono_step|intros _].
  unfold flag. apply triple_read. intros [|].
  - eapply (triple_weaken (fun s => V x s /\ has (kState s) kDestroyed = true) _ _ (fun _ => V x)); [apply ord_dead| |done].
    + walk1. destruct a as [[er0 cb]|]; walk.
    + intros s [H HD]. split; [|done]. apply loose_failed; [done|by left|done].
  - destruct er as [er|]; [by apply loose_error|]. eapply triple_weaken; [by apply (ord_onConstructed x)|by intros s []|done].
Qed.

Lemma ord_constructNT x : outside x -> keep (V x) (constructNT user).
Proof.
  intros Ho. unfold constructNT. walk1. apply ord_attempt; [by apply ord_user|]. intros [?|?]; walk.
Qed.
Hint Resolve ord_onConstruct ord_constructNT : fifo.

(** ** Programs *)

Lemma ord_exec x b : outside x -> keep (V x) (exec E user b).
Proof.
  intros Ho. pose proof (outside_open x Ho) as Hop.
  induction b; cbn [exec]; try (by auto with fifo);
    try (apply ord_attempt; [by auto with fifo|by auto]); try (apply ord_bind; [by auto with fifo|by auto]).
  - walk1. destruct (_ && _); [|done]. apply ord_attempt; [by apply ord_onFinish|done].
  - walk1. done.
  - walk1. done.
Qed.

(** The code of a write. *)
Lemma sink_done x : triple (V x) (exec E user Done) (sure (answered x)).
Proof. apply triple_ret. intros s. apply V_answered. Qed.

Lemma sink_exec x b :
  answers_last b -> open x \/ no_write b -> triple (V x) (exec E user b) (sure (answered x)).
Proof.
  induction b; cbn [exec answers_last no_write]; intros Ha Ho; try done; try apply sink_done.
  - eapply triple_attempt; [apply (ord_write x); by destruct Ho|]. intros r. apply H; [done|]. destruct Ho; [by left|done].
  - eapply triple_attempt; [apply (ord_end x); destruct Ho as [?|[? _]]; [by left|by right]|]. intros r. apply H; [done|].
    destruct Ho as [?|[_ Ho]]; [by left|right; apply Ho].
  - eapply (triple_bind _ _ _ (fun _ => V x)); [|intros _; by apply IHb].
    apply triple_modify. intros s. apply V_mono; mono_step.
  - eapply triple_attempt; [apply (ord_uncork x)|]. intros r. apply H; [done|]. destruct Ho as [?|Ho]; [by left|right; apply Ho].
  - eapply triple_attempt; [apply (ord_destroy x)|]. intros r. apply H; [done|]. destruct Ho as [?|Ho]; [by left|right; apply Ho].
  - eapply triple_attempt; [apply (ord_setDefaultEncoding x)|]. intros r. apply H; [done|].
    destruct Ho as [?|Ho]; [by left|right; apply Ho].
  - eapply triple_attempt; [apply (sink_onwrite x)|]. intros r. rewrite Ha. by apply triple_ret.
  - eapply triple_attempt; [apply (ord_onDestroy x)|]. intros r. apply H; [done|]. destruct Ho as [?|Ho]; [by left|right; apply Ho].
  - eapply (triple_bind _ _ _ (fun _ => V x)); [|intros _; by apply IHb]. apply triple_modify. intros s. apply V_mono; mono_step.
  - eapply (triple_bind _ _ _ (fun _ => V x)); [|intros _; by apply IHb]. apply triple_modify. intros s. apply V_mono; mono_step.
Qed.
End WithUser.

(** ** Turns *)

Section Turns.
Context (E : env) (HE : disciplined E).

Lemma user_fair n : fair (user E n).
Proof.
  induction n as [|n IH]; [split; by intros x c _ _ s s' r _|]. split; intros x c Hc Ho; cbn [user].
  - walk1. walk1. apply ord_exec; [done|apply (d_sink E HE)|done].
  - apply triple_read. intros b.
    eapply (triple_weaken (fun s => V x s /\ answers_last b /\ (open x \/ no_write b)) _ _ (sure (answered x))); [| |done].
    + apply triple_pure. intros [Ha Hn].
      eapply (triple_bind _ _ _ (fun _ => V x)); [apply triple_modify; intros s; apply V_mono; mono_step|intros _].
      by apply sink_exec; [|apply (d_sink E HE)|..].
    + intros s [H <-]. split; [done|]. destruct c; try done.
      * split; [apply (d_write E HE)|]. destruct Ho as [?|(? & ? & ?)]; [by left|done].
      * destruct (d_writev E HE (calls s) chunks allBuffers). split; [done|by right].
Qed.

(** Between two turns. *)
Definition top : ctx := Ctx Free false false.

Lemma V_pop t l s : ticks s = t :: l -> V top s -> V (Ctx Free (fails t) false) (set_ticks l s).
Proof.
  intros Hl [[H1 H2] H3]. split; [split|done].
  - eapply core_mono; [|exact H1]. split; try done. cbn. intros H. left. rewrite Hl. cbn. by rewrite H, orb_true_r.
  - split; [|done]. cbn. intros Ht. change (failed s). apply (c_ticks _ _ _ _ H1). rewrite Hl. cbn. by rewrite Ht.
Qed.

Lemma V_top f d s : V (Ctx Free f d) s -> V top s.
Proof. intros [[H1 H2] H3]. by split. Qed.

Lemma ord_task n t : keep (V (Ctx Free (fails t) false)) (run_task E (user E n) t).
Proof.
  set (x := Ctx Free (fails t) false). assert (outside x) as Ho by by left. assert (c_mode x = Free) as Hm by done.
  pose proof (user_fair n) as Hu. pose proof (d_sink E HE) as Hd.
  destruct t; cbn [run_task]; eauto using ord_ret, ord_call_user, ord_onwriteError, ord_afterWrite, ord_errorBuffer, ord_finish,
    ord_emitClose, ord_emitError, ord_constructNT, ord_onConstruct, ord_user.
  - unfold afterWriteTick. walk1. walk1. by apply ord_afterWrite.
  - walk1. walk1; [by apply ord_finish|walk1].
  - apply ord_bind; [by apply ord_emitError|]. intros _. by apply ord_emitClose.
Qed.

Lemma ord_turn n t : keep (V top) (run_turn E n t).
Proof.
  destruct t as [|c]; cbn [run_turn].
  - apply triple_read. intros [|t l]; [by apply triple_ret; intros s []|].
    eapply (triple_bind _ _ _ (fun _ => V (Ctx Free (fails t) false))); [apply triple_modify; intros s []; by apply V_pop|intros _].
    eapply triple_weaken; [apply (ord_task n t)|done|]. intros r s. apply V_top.
  - apply ord_user; [apply user_fair|done|by left].
Qed.

Lemma ord_turns n l : keep (V top) (run_turns E n l).
Proof.
  induction l as [|t l IH]; cbn [run_turns]; [by apply triple_ret|]. eapply triple_attempt; [apply ord_turn|]. intros r. exact IH.
Qed.

End Turns.

Lemma new_ordered E o s : new_Writable E o = Ok s -> V top s.
Proof.
  intros H%new_fresh. destruct H as [T K D Kd F (_ & _ & _ & _ & HI)].
  assert (forall m, m ∈ [kWriting; kExpectWriteCb; kBuffered; kBufferProcessing] -> has (kState s) m = false) as Hf.
  { intros m Hm. apply F. unfold later_flags. set_solver. }
  apply loose_empty; [done|apply unbuffered_empty, Hf; set_solver|]. split; [|by split].
  split; cbn [c_mode top]; unfold shape; rewrite ?T, ?D, ?(Hf kWriting), ?(Hf kExpectWriteCb), ?(Hf kBuffered), ?(Hf kBufferProcessing) by set_solver.
  - rewrite unbuffered_empty by (apply Hf; set_solver). done.
  - intros _. rewrite unbuffered_empty by (apply Hf; set_solver). done.
  - done.
  - done.
  - done.
  - destruct K as [-> | ->]; done.
Qed.

(** ** The theorem *)

(** C24. A stream is a queue.  Its [_write] and [_writev], of which it has one at
    least, must not throw, nor do anything before they return once they called
    their callback, nor call the callback of [_final]; and [_writev] must not
    write before it returns.  Then, whatever callbacks, listeners and the rest of
    its code do, what was passed to [_write] and [_writev],
    followed by what is buffered, is what was accepted, in that order and, until
    the stream errors or is destroyed, with nothing missing.  And until then a
    write is buffered only while another is under way, the stream is corked, or
    it is still being constructed. *)
Theorem writable_fifo E s :
  disciplined E -> reachable E s ->
  delivered (trace s) ++ (payload <$> getBuffer s) `sublist_of` accepted (trace s) /\
  (~ failed s -> delivered (trace s) ++ (payload <$> getBuffer s) = accepted (trace s)) /\
  (~ failed s -> getBuffer s <> [] ->
   has (kState s) kWriting = true \/ has (kState s) kCorked = true \/ has (kState s) kConstructed = false).
Proof.
  intros HE (o & n & l & s0 & r & Hn & Hrun).
  destruct (ord_turns E HE n l s0 s r (new_ordered E o s0 Hn) Hrun) as [[H _] Hi]. cbn [c_mode top] in H, Hi.
  pose proof (c_sub _ _ _ _ H) as H1. pose proof (c_eq _ _ _ _ H) as H2. rewrite app_nil_r in H1, H2. split; [exact H1|].
  split; [exact H2|]. intros Hf Hb.
  destruct (has (kState s) kWriting) eqn:HW; [by left|right]. destruct (has (kState s) kCorked) eqn:HC; [by left|right].
  destruct (has (kState s) kConstructed) eqn:HK; [|done]. by destruct Hb; apply Hi.
Qed.

(** A stream that writes in batches, and answers a batch later. *)
Definition batch_code (n : nat) (c : call) : body :=
  match c with
  | CallTurn 1 => Cork (put [1] (put [2] (Uncork (fun _ => put [3] Done))))
  | CallTurn 2 => OnWrite None nothing
  | CallWritev _ _ => Done
  | CallWrite _ _ => OnWrite None nothing
  | CallListener _ => put [9] Done
  | _ => Done
  end.
Definition batching : env := stream_of true false batch_code.

Lemma batching_disciplined : disciplined batching.
Proof. by split. Qed.

Lemma writable_fifo_witness :
  exists s, after batching plain_options [Turn 1] = Some s /\ getBuffer s = [Entry (CBuffer [3]) buf None] /\
    delivered (trace s) = [(CBuffer [1], buf); (CBuffer [2], buf)] /\
    delivered (trace s) ++ (payload <$> getBuffer s) `sublist_of` accepted (trace s).
Proof.
  eexists. split; [vm_compute; reflexivity|]. split; [vm_compute; reflexivity|]. split; [vm_compute; reflexivity|].
  apply (writable_fifo batching); [apply batching_disciplined|].
  apply (after_reachable batching plain_options [Turn 1]). vm_compute. reflexivity.
Defined.
