(* ===== verification/Inspector.v ===== *)
(** * The inspector server

    Models [libjs/shims/inspector-server.js]: the server that connects a debugger
    client to the runtime.  Messages of the runtime go to the client, or wait
    until there is one; messages of the client go to the runtime, except requests
    for the source of a script, which are answered from disk, and breakpoints by
    regular expression, which are rewritten.

    [JSON.parse], [new RegExp] and [fs.readFileSync] are parameters.  A socket of
    the [ws] package is known by its [readyState]: it is open when it connects,
    and never again once it is closing. *)

From S2P Require Import Prelude JsString QueryString PackageJson.
#[local] Open Scope Z_scope.

Module Inspector.

(** ** JSON *)

Definition hex_digit (n : Z) : Z := if n <? 10 then 48 + n else 87 + n.
Definition unicode_escape (c : Z) : jsstr :=
  "\u"%js ++ [hex_digit (c / 4096); hex_digit (c / 256 mod 16); hex_digit (c / 16 mod 16); hex_digit (c mod 16)].

Definition is_lead (c : Z) : bool := (0xD800 <=? c) && (c <? 0xDC00).
Definition is_trail (c : Z) : bool := (0xDC00 <=? c) && (c <? 0xE000).

(** The characters of a JSON string; [paired]: the one before was the first half
    of a pair. *)
Fixpoint quote_chars (paired : bool) (s : jsstr) : jsstr :=
  match s with
  | [] => []
  | c :: s' =>
      let next_trail := match s' with d :: _ => is_trail d | [] => false end in
      if c =? 8 then "\b"%js ++ quote_chars false s'
      else if c =? 9 then "\t"%js ++ quote_chars false s'
      else if c =? 10 then "\n"%js ++ quote_chars false s'
      else if c =? 12 then "\f"%js ++ quote_chars false s'
      else if c =? 13 then "\r"%js ++ quote_chars false s'
      else if c =? 34 then 92 :: 34 :: quote_chars false s'
      else if c =? 92 then 92 :: 92 :: quote_chars false s'
      else if c <? 32 then unicode_escape c ++ quote_chars false s'
      else if is_lead c then
        if next_trail then c :: quote_chars true s' else unicode_escape c ++ quote_chars false s'
      else if is_trail c && negb paired then unicode_escape c ++ quote_chars false s'
      else c :: quote_chars false s'
  end.
Definition quote (s : jsstr) : jsstr := 34 :: quote_chars false s ++ [34].

(** [JSON.stringify] *)
Fixpoint stringify (v : json) : jsstr :=
  match v with
  | JNull => "null"%js
  | JBool b => if b then "true"%js else "false"%js
  | JNumber text => text
  | JString s => quote s
  | JArray l => 91 :: join ","%js (stringify <$> l) ++ [93]
  | JObject l => 123 :: join ","%js ((fun p => quote p.1 ++ 58 :: stringify p.2) <$> l) ++ [125]
  end.

(** [String(v)] *)
Fixpoint to_string (v : json) : jsstr :=
  match v with
  | JNull => "null"%js
  | JBool b => if b then "true"%js else "false"%js
  | JNumber text => text
  | JString s => s
  | JArray l => join ","%js ((fun x => match x with JNull => [] | _ => to_string x end) <$> l)
  | JObject _ => "[object Object]"%js
  end.

(** A number is false when it is zero. *)
Definition truthy (v : option json) : bool :=
  match v with
  | None | Some JNull => false
  | Some (JBool b) => b
  | Some (JNumber text) => negb (bool_decide (text = "0"%js))
  | Some (JString s) => negb (bool_decide (s = []))
  | Some (JArray _) | Some (JObject _) => true
  end.

Definition TypeError : jserror := JsError "" ["TypeError"%js].

Fixpoint lookup_prop (k : jsstr) (l : list (jsstr * json)) : option json :=
  match l with
  | [] => None
  | (k', v) :: l => if bool_decide (k' = k) then Some v else lookup_prop k l
  end.
Fixpoint put_prop (k : jsstr) (v : json) (l : list (jsstr * json)) : list (jsstr * json) :=
  match l with
  | [] => [(k, v)]
  | (k', v') :: l => if bool_decide (k' = k) then (k, v) :: l else (k', v') :: put_prop k v l
  end.
Definition delete_prop (k : jsstr) (l : list (jsstr * json)) : list (jsstr * json) :=
  List.filter (fun p => negb (bool_decide (p.1 = k))) l.

(** [v.k] *)
Definition prop (k : jsstr) (v : json) : result (option json) :=
  match v with
  | JNull => Throw TypeError
  | JObject l => Ok (lookup_prop k l)
  | _ => Ok None
  end.
(** [v && v.k] *)
Definition and_prop (k : jsstr) (v : option json) : result (option json) :=
  match v with
  | Some x => if truthy v then prop k x else Ok v
  | None => Ok None
  end.

(** [msg.method === name] *)
Definition has_method (name : jsstr) (msg : json) : result bool :=
  let* method := prop "method" msg in
  Ok (match method with Some (JString m) => bool_decide (m = name) | _ => false end).

(** *** [for (var sid in scriptUrls)]: array indices come first, in order. *)

Definition digit_of (c : Z) : option Z := if (48 <=? c) && (c <=? 57) then Some (c - 48) else None.
Fixpoint digits (acc : Z) (s : jsstr) : option Z :=
  match s with
  | [] => Some acc
  | c :: s => match digit_of c with Some d => digits (acc * 10 + d) s | None => None end
  end.
Definition array_index (s : jsstr) : option Z :=
  match s with
  | [] => None
  | [48] => Some 0
  | 48 :: _ => None
  | _ => match digits 0 s with Some n => if n <? 4294967295 then Some n else None | None => None end
  end.
Fixpoint insert_index (n : Z) (v : json) (l : list (Z * json)) : list (Z * json) :=
  match l with
  | [] => [(n, v)]
  | (m, w) :: l => if n <? m then (n, v) :: (m, w) :: l else (m, w) :: insert_index n v l
  end.
Definition for_in (l : list (jsstr * json)) : list json :=
  let indices := fold_right (fun p acc => match array_index p.1 with Some n => insert_index n p.2 acc | None => acc end) [] l in
  (snd <$> indices) ++ (snd <$> List.filter (fun p => bool_decide (array_index p.1 = None)) l).

(** ** State *)

Inductive event :=
  | Sent (ws : positive) (data : jsstr)         (* [send] of a message of the runtime *)
  | Replied (ws : positive) (data : jsstr)      (* [send] of a source read from disk *)
  | Refused (ws : positive)                     (* [close(1013, ...)] *)
  | SentToMain (data : jsstr)
  | Closed_servers.

Record state := State {
  activeWs : option positive;
  pendingMessages : list jsstr;
  scriptUrls : list (jsstr * json);
  readyState : gmap positive Z;
  accepted : list positive;    (* sockets that have listeners *)
  log : list event;
}.

Definition OPEN : Z := 1.
Definition CLOSING : Z := 2.
Definition CLOSED : Z := 3.

Definition set_active (v : option positive) (s : state) : state :=
  State v (pendingMessages s) (scriptUrls s) (readyState s) (accepted s) (log s).
Definition set_pending (v : list jsstr) (s : state) : state :=
  State (activeWs s) v (scriptUrls s) (readyState s) (accepted s) (log s).
Definition set_urls (v : list (jsstr * json)) (s : state) : state :=
  State (activeWs s) (pendingMessages s) v (readyState s) (accepted s) (log s).
Definition set_ready (ws : positive) (v : Z) (s : state) : state :=
  State (activeWs s) (pendingMessages s) (scriptUrls s) (<[ws := v]> (readyState s)) (accepted s) (log s).
Definition accept (ws : positive) (s : state) : state :=
  State (activeWs s) (pendingMessages s) (scriptUrls s) (readyState s) (ws :: accepted s) (log s).
Definition emit (l : list event) (s : state) : state :=
  State (activeWs s) (pendingMessages s) (scriptUrls s) (readyState s) (accepted s) (log s ++ l).

Definition init : state := State None [] [] ∅ [] [].
Definition is_open (ws : positive) (s : state) : bool := bool_decide (readyState s !! ws = Some OPEN).

Section WithRuntime.
Context (JSON_parse : jsstr -> result json) (new_RegExp : jsstr -> option (jsstr -> bool))
  (readFileSync : json -> result jsstr).

(** ** Breakpoints by regular expression *)

(** [a.replace(/\\(.)/g, '$1')]: [.] is not a line terminator. *)
Definition line_end (c : Z) : bool := (c =? 10) || (c =? 13) || (c =? 0x2028) || (c =? 0x2029).
Fixpoint unescape (s : jsstr) : jsstr :=
  match s with
  | [] => []
  | c :: s' =>
      if c =? 92 then
        match s' with
        | d :: s'' => if line_end d then c :: unescape s' else d :: unescape s''
        | [] => [c]
        end
      else c :: unescape s'
  end.

Definition file_scheme : jsstr := "file://".

(** The answer is a URL of a known script, or text of the expression itself. *)
Definition pickUrlForRegex (urlRegex : json) : list (jsstr * json) -> result (option json) := fun urls =>
  match new_RegExp (to_string urlRegex) with
  | None => Ok None
  | Some re =>
      match List.find (fun u => re (to_string u)) (for_in urls) with
      | Some u => Ok (Some u)
      | None =>
          match urlRegex with
          | JString s =>
              let alts := unescape <$> split s 124 in
              match List.find (fun a => negb (indexOf a file_scheme =? 0)) alts with
              | Some a => Ok (Some (JString a))
              | None => Ok (match alts with a :: _ => if bool_decide (a = []) then None else Some (JString a) | [] => None end)
              end
          | _ => Throw TypeError
          end
      end
  end.

(** The source that answers a request of [Debugger.getScriptSource]. *)
Definition script_source (urls : list (jsstr * json)) (str : jsstr) : result (option jsstr) :=
  let* msg := JSON_parse str in
  let* ours := has_method "Debugger.getScriptSource" msg in
  if ours : bool then
    let* params := prop "params" msg in
    let* scriptId := and_prop "scriptId" params in
    match scriptId with
    | Some id =>
        if truthy scriptId then
          match lookup_prop (to_string id) urls with
          | Some url =>
              if truthy (Some url) then
                match readFileSync url with
                | Ok source =>
                    let* mid := prop "id" msg in
                    Ok (Some (stringify (JObject (match mid with Some v => [("id"%js, v)] | None => [] end ++
                                                  [("result"%js, JObject [("scriptSource"%js, JString source)])]))))
                | Throw _ => Ok None
                end
              else Ok None
          | None => Ok None
          end
        else Ok None
    | None => Ok None
    end
  else Ok None.

(** The message with [url] in place of [urlRegex]. *)
Definition rewrite_breakpoint (urls : list (jsstr * json)) (str : jsstr) : result jsstr :=
  let* msg := JSON_parse str in
  let* ours := has_method "Debugger.setBreakpointByUrl" msg in
  if negb ours then Ok str
  else
    let* params := prop "params" msg in
    let* urlRegex := and_prop "urlRegex" params in
    let* url := and_prop "url" params in
    if truthy urlRegex && negb (truthy url) then
      let* rewritten := match urlRegex with Some r => pickUrlForRegex r urls | None => Ok None end in
      match rewritten, params, msg with
      | Some u, Some (JObject ps), JObject ms =>
          if truthy rewritten
          then Ok (stringify (JObject (put_prop "params" (JObject (delete_prop "urlRegex" (put_prop "url" u ps))) ms)))
          else Ok str
      | _, _, _ => Ok str
      end
    else Ok str.

(** ** Handlers *)

Definition connection (ws : positive) (s : state) : state :=
  match activeWs s with
  | Some _ => emit [Refused ws] (set_ready ws CLOSING s)
  | None =>
      let s := set_active (Some ws) s in
      let s := set_pending [] (emit (Sent ws <$> pendingMessages s) s) in
      accept ws s
  end.

Definition message (ws : positive) (str : jsstr) (s : state) : state :=
  let reply := if includes str "getScriptSource"
               then match script_source (scriptUrls s) str with Ok (Some r) => Some r | _ => None end else None in
  match reply with
  | Some r => emit [Replied ws r] s
  | None =>
      let str := if includes str "setBreakpointByUrl"
                 then match rewrite_breakpoint (scriptUrls s) str with Ok t => t | Throw _ => str end else str in
      emit [SentToMain str] s
  end.

(** [ws.on('close')] and [ws.on('error')] *)
Definition on_close (ws : positive) (s : state) : state :=
  if bool_decide (activeWs s = Some ws) then set_active None s else s.

(** The URL of a [Debugger.scriptParsed] message. *)
Definition parsed_script (msg : jsstr) : result (option (jsstr * json)) :=
  let* parsed := JSON_parse msg in
  let* ours := has_method "Debugger.scriptParsed" parsed in
  let* params := prop "params" parsed in
  if ours && truthy params then
    let* scriptId := and_prop "scriptId" params in
    let* url := and_prop "url" params in
    match scriptId, url with
    | Some id, Some u => if truthy scriptId && truthy url then Ok (Some (to_string id, u)) else Ok None
    | _, _ => Ok None
    end
  else Ok None.

Definition outbound (msg : jsstr) (s : state) : state :=
  let s := if includes msg "scriptParsed"
           then match parsed_script msg with Ok (Some (id, u)) => set_urls (put_prop id u (scriptUrls s)) s | _ => s end
           else s in
  match activeWs s with
  | Some ws => if is_open ws s then emit [Sent ws msg] s else set_pending (pendingMessages s ++ [msg]) s
  | None => set_pending (pendingMessages s ++ [msg]) s
  end.

Definition shutdown (s : state) : state :=
  let s := match activeWs s with Some ws => set_active None (set_ready ws CLOSING s) | None => s end in
  emit [Closed_servers] s.

(** ** Steps

    What the sockets and the runtime do; a step that a socket cannot make has no
    result. *)
Inductive input :=
  | Connection (ws : positive)
  | Message (ws : positive) (data : jsstr)
  | Closing (ws : positive)
  | Close (ws : positive)
  | Error (ws : positive)
  | Outbound (msg : jsstr)
  | Shutdown.

Definition listening (ws : positive) (s : state) : bool := bool_decide (ws ∈ accepted s).

Definition step (s : state) (i : input) : option state :=
  match i with
  | Connection ws =>
      match readyState s !! ws with
      | None => Some (connection ws (set_ready ws OPEN s))
      | Some _ => None
      end
  | Message ws data => if listening ws s then Some (message ws data s) else Some s
  | Closing ws =>
      match readyState s !! ws with
      | Some r => Some (set_ready ws (Z.max r CLOSING) s)
      | None => None
      end
  | Close ws =>
      match readyState s !! ws with
      | Some _ => let s := set_ready ws CLOSED s in Some (if listening ws s then on_close ws s else s)
      | None => None
      end
  | Error ws =>
      match readyState s !! ws with
      | Some _ => Some (if listening ws s then on_close ws s else s)
      | None => None
      end
  | Outbound msg => Some (outbound msg s)
  | Shutdown => Some (shutdown s)
  end.

Fixpoint steps (s : state) (l : list input) : option state :=
  match l with
  | [] => Some s
  | i :: l => match step s i with Some s => steps s l | None => None end
  end.
End WithRuntime.

(** ** The HTTP server *)

Record config := Config { host : jsstr; actualPort : Z; sessionId : jsstr; scriptName : jsstr }.
Record response := Response { status : Z; content_type : jsstr; body : jsstr }.

(** [(url.match(/[?&]ws=([^&]+)/) || [])[1]] *)
Fixpoint until_amp (s : jsstr) : jsstr :=
  match s with
  | [] => []
  | c :: s => if c =? 38 then [] else c :: until_amp s
  end.
Fixpoint ws_param (s : jsstr) : option jsstr :=
  match s with
  | [] => None
  | c :: s' =>
      if ((c =? 63) || (c =? 38)) && startsWith s' "ws=" && negb (bool_decide (until_amp (drop 3 s') = []))
      then Some (until_amp (drop 3 s'))
      else ws_param s'
  end.

Definition address (c : config) : jsstr := host c ++ ":"%js ++ js_of_Z (actualPort c) ++ "/"%js ++ sessionId c.

Definition target (c : config) : json :=
  JArray [JObject [
    ("description"%js, JString "hermes-node instance");
    ("id"%js, JString (sessionId c));
    ("title"%js, JString (if bool_decide (scriptName c = []) then "hermes-node"%js else scriptName c));
    ("type"%js, JString "node");
    ("url"%js, JString (if bool_decide (scriptName c = []) then [] else file_scheme ++ scriptName c));
    ("webSocketDebuggerUrl"%js, JString ("ws://"%js ++ address c));
    ("devtoolsFrontendUrl"%js, JString ("http://"%js ++ host c ++ ":"%js ++ js_of_Z (actualPort c) ++
                                        "/devtools/inspector.html?ws="%js ++ address c))]].
Definition versionInfo : json :=
  JObject [("Browser"%js, JString "hermes-node/0.1.0"); ("Protocol-Version"%js, JString "1.1")].

Definition cdnBase : jsstr :=
  "https://chrome-devtools-frontend.appspot.com/serve_file/@60127beb442528082b3f6eff7392267e145262c3/js_app.html".

Definition frontend_page (ws : jsstr) : jsstr :=
  "<!DOCTYPE html><html><head><script>location = "%js ++ quote cdnBase ++ [32; 43; 32; 34] ++ "?ws="%js ++ [34; 32; 43; 32] ++
  quote ws ++ ";</script></head><body>Opening DevTools...</body></html>"%js.

(** The request listener. *)
Definition request (c : config) (url : jsstr) : result response :=
  let url := if bool_decide (url = []) then "/"%js else url in
  let qIdx := indexOf url "?" in
  let pathname := if 0 <=? qIdx then substring url 0 qIdx else url in
  if bool_decide (pathname = "/json"%js) || bool_decide (pathname = "/json/list"%js) then
    Ok (Response 200 "application/json" (stringify (target c)))
  else if bool_decide (pathname = "/json/version"%js) then
    Ok (Response 200 "application/json" (stringify versionInfo))
  else if indexOf pathname "/devtools/" =? 0 then
    let* ws := match ws_param url with
      | Some m => Qs.decodeURIComponent m
      | None => Ok (address c)
      end in
    Ok (Response 200 "text/html" (frontend_page ws))
  else Ok (Response 404 "text/plain" "Not Found").
End Inspector.
