(* ===== verification/InspectorFacts.v ===== *)
(** * The inspector server: theorems

    Messages of the runtime reach the clients in order and none is lost, a
    refused client gets nothing, and a breakpoint on an escaped path is set on
    that path. *)

From S2P Require Import Prelude JsString PathSpec QueryString PackageJson Inspector.
Import Inspector.
#[local] Open Scope Z_scope.

(** ** Messages of the runtime *)

Definition sent_by (e : event) : list jsstr := match e with Sent _ d => [d] | _ => [] end.
(** What the clients were sent, and what the runtime handed over. *)
Definition sent (l : list event) : list jsstr := l ≫= sent_by.
Definition handed_by (i : input) : list jsstr := match i with Outbound m => [m] | _ => [] end.
Definition handed (l : list input) : list jsstr := l ≫= handed_by.

(** The sockets that something was sent to. *)
Definition receiver (e : event) : option positive :=
  match e with Sent ws _ | Replied ws _ => Some ws | _ => None end.

Record bridge (out : list jsstr) (s : state) : Prop := {
  b_order : sent (log s) ++ pendingMessages s = out;
  b_waits : forall ws, activeWs s = Some ws -> is_open ws s = true -> pendingMessages s = [];
  b_known : forall ws, activeWs s = Some ws \/ ws ∈ accepted s \/ Refused ws ∈ log s -> is_Some (readyState s !! ws);
  b_refused : forall ws, Refused ws ∈ log s -> ws ∉ accepted s;
  b_active : forall ws, activeWs s = Some ws -> ws ∈ accepted s;
  b_receivers : forall e ws, e ∈ log s -> receiver e = Some ws -> ws ∈ accepted s;
}.

Lemma sent_app l1 l2 : sent (l1 ++ l2) = sent l1 ++ sent l2.
Proof. apply bind_app. Qed.

Lemma sent_all ws l : sent (Sent ws <$> l) = l.
Proof. unfold sent. induction l as [|m l IH]; [done|]. rewrite fmap_cons, bind_cons, IH. done. Qed.

(** Nothing is sent, and no socket is used again once it is closing. *)
Lemma bridge_ready out ws v s :
  (readyState s !! ws = Some OPEN -> v <> OPEN) \/ activeWs s <> Some ws ->
  (v = OPEN -> activeWs s <> Some ws) -> bridge out s -> bridge out (set_ready ws v s).
Proof.
  intros Hv Hn [B1 B2 B3 B4 B5 B6]. split; try done.
  - cbn. unfold is_open. cbn. intros ws' Ha Ho. apply bool_decide_eq_true in Ho.
    destruct (decide (ws = ws')) as [<-|Hne].
    + rewrite lookup_insert_eq in Ho. injection Ho as Ho. by apply Hn in Ho.
    + rewrite lookup_insert_ne in Ho by done. apply (B2 ws'); [done|]. by apply bool_decide_eq_true.
  - cbn. intros ws' H. destruct (decide (ws = ws')) as [<-|Hne]; [rewrite lookup_insert_eq; by eexists|].
    rewrite lookup_insert_ne by done. by apply B3.
Qed.

Lemma bridge_emit out l s :
  Forall (fun e => match e with Sent _ _ | Refused _ => False | Replied ws _ => ws ∈ accepted s | _ => True end) l ->
  bridge out s -> bridge out (emit l s).
Proof.
  intros Hl [B1 B2 B3 B4 B5 B6]. rewrite Forall_forall in Hl.
  assert (sent l = []) as Hs.
  { clear -Hl. induction l as [|e l IH]; [done|]. unfold sent in *. rewrite bind_cons, IH by (intros; apply Hl; set_solver).
    specialize (Hl e ltac:(set_solver)). by destruct e. }
  split; cbn; try done.
  - by rewrite sent_app, Hs, app_nil_r.
  - intros ws [H|[H|H]]; apply B3; [by left|by right; left|]. apply elem_of_app in H as [H|H]; [by right; right|]. by specialize (Hl _ H).
  - intros ws [H|H]%elem_of_app; [by apply B4|]. by specialize (Hl _ H).
  - intros e ws [H|H]%elem_of_app He; [by apply (B6 e)|]. specialize (Hl _ H). destruct e; cbn in He; simplify_eq; done.
Qed.

Lemma bridge_active out s : bridge out s -> bridge out (set_active None s).
Proof. intros [B1 B2 B3 B4 B5 B6]. split; try done. cbn. intros ws [|[H|H]]; [done|..]; apply B3; auto. Qed.

Lemma bridge_on_close out ws s : bridge out s -> bridge out (on_close ws s).
Proof. unfold on_close. case_bool_decide; [|done]. apply bridge_active. Qed.

Lemma bridge_urls out v s : bridge out s -> bridge out (set_urls v s).
Proof. by intros [B1 B2 B3 B4 B5 B6]. Qed.

Lemma bridge_refuse out ws s : ws ∉ accepted s -> bridge out s -> bridge out (emit [Refused ws] (set_ready ws CLOSING s)).
Proof.
  intros Ha H. assert (activeWs s <> Some ws) as Hn by (intros H'%(b_active _ _ H); done).
  destruct (bridge_ready out ws CLOSING s) as [B1 B2 B3 B4 B5 B6]; [by right|by intros _|done|]. split; cbn in *; try done.
  - by rewrite sent_app, app_nil_r.
  - intros ws' H'. destruct (decide (ws = ws')) as [<-|Hne]; [rewrite lookup_insert_eq; by eexists|]. apply B3.
    destruct H' as [|[|H']]; auto. apply elem_of_app in H' as [|H']; auto. apply list_elem_of_singleton in H'. simplify_eq.
  - intros ws' [H'|H']%elem_of_app; [by apply B4|]. apply list_elem_of_singleton in H'. by simplify_eq.
  - intros e ws' [H'|H']%elem_of_app He; [by apply (B6 e)|]. apply list_elem_of_singleton in H'. by subst e.
Qed.

Lemma bridge_accept out ws s :
  activeWs s = None -> is_Some (readyState s !! ws) -> Refused ws ∉ log s -> bridge out s ->
  bridge out (accept ws (set_pending [] (emit (Sent ws <$> pendingMessages s) (set_active (Some ws) s)))).
Proof.
  intros Hnone Hk Hr [B1 B2 B3 B4 B5 B6].
  assert (forall ws', Refused ws' ∉ Sent ws <$> pendingMessages s) as Hnr.
  { intros ws' H. apply list_elem_of_fmap in H as (m & Hm & _). done. }
  split; cbn; try done.
  - by rewrite sent_app, sent_all, app_nil_r.
  - intros ws' [H|[H|H]]; [by simplify_eq| |].
    + apply elem_of_cons in H as [->|H]; [done|]. apply B3. auto.
    + apply elem_of_app in H as [H|H]; [apply B3; auto|]. by apply Hnr in H.
  - intros ws' [H|H]%elem_of_app; [|by apply Hnr in H]. intros [->|H']%elem_of_cons; [done|]. by apply (B4 ws').
  - intros ws' [= ->]. set_solver.
  - intros e ws' [H|H]%elem_of_app He; [apply elem_of_cons; right; by apply (B6 e)|].
    apply list_elem_of_fmap in H as (m & -> & _). cbn in He. simplify_eq. set_solver.
Qed.

Section Steps.
Context (JSON_parse : jsstr -> result json) (new_RegExp : jsstr -> option (jsstr -> bool))
  (readFileSync : json -> result jsstr).

Lemma bridge_connection out ws s :
  readyState s !! ws = None -> bridge out s -> bridge out (connection ws (set_ready ws OPEN s)).
Proof.
  intros Hf H.
  assert (activeWs s <> Some ws /\ ws ∉ accepted s /\ Refused ws ∉ log s) as (Hn & Ha & Hr).
  { split_and!; intros H'; (destruct (b_known out s H ws) as [v Hv]; [by auto|congruence]). }
  assert (bridge out (set_ready ws OPEN s)) as H1 by (apply bridge_ready; [by right|done|done]).
  unfold connection. destruct (activeWs (set_ready ws OPEN s)) eqn:Hact.
  - by apply bridge_refuse.
  - apply (bridge_accept out ws (set_ready ws OPEN s)); try done. cbn. rewrite lookup_insert_eq. by eexists.
Qed.

Lemma bridge_message out ws data s :
  ws ∈ accepted s -> bridge out s -> bridge out (message JSON_parse new_RegExp readFileSync ws data s).
Proof. intros Ha H. unfold message. case_match; apply bridge_emit; try done; repeat constructor; done. Qed.

Lemma bridge_wait out m s :
  (forall ws, activeWs s = Some ws -> is_open ws s = false) -> bridge out s ->
  bridge (out ++ [m]) (set_pending (pendingMessages s ++ [m]) s).
Proof.
  intros Ho [B1 B2 B3 B4 B5 B6]. split; cbn; try done.
  - by rewrite <- B1, app_assoc.
  - intros ws Ha Ho'. apply Ho in Ha. unfold is_open in *. cbn in Ho'. congruence.
Qed.

Lemma bridge_send out ws m s :
  activeWs s = Some ws -> is_open ws s = true -> bridge out s -> bridge (out ++ [m]) (emit [Sent ws m] s).
Proof.
  intros Ha Ho H. pose proof (b_waits _ _ H ws Ha Ho) as Hw. destruct H as [B1 B2 B3 B4 B5 B6]. rewrite Hw, app_nil_r in B1.
  split; cbn; try done.
  - rewrite sent_app, Hw, app_nil_r, B1. done.
  - intros ws' [H|[H|H]]; apply B3; auto. apply elem_of_app in H as [H|H]; [auto|]. by apply list_elem_of_singleton in H.
  - intros ws' [H|H]%elem_of_app; [by apply B4|]. by apply list_elem_of_singleton in H.
  - intros e ws' [H|H]%elem_of_app He; [by apply (B6 e)|]. apply list_elem_of_singleton in H. subst e. cbn in He. simplify_eq. by apply B5.
Qed.

Lemma bridge_outbound out m s : bridge out s -> bridge (out ++ [m]) (outbound JSON_parse m s).
Proof.
  intros H. unfold outbound. set (s1 := if includes m "scriptParsed" then _ else _).
  assert (bridge out s1) as H1 by (unfold s1; repeat case_match; by try apply bridge_urls). clearbody s1. clear H.
  destruct (activeWs s1) as [ws|] eqn:Ha; [destruct (is_open ws s1) eqn:Ho|].
  - by apply bridge_send.
  - apply bridge_wait; [|done]. intros ws' Ha'. congruence.
  - apply bridge_wait; [|done]. congruence.
Qed.

Lemma bridge_step out i s s' :
  step JSON_parse new_RegExp readFileSync s i = Some s' -> bridge out s -> bridge (out ++ handed_by i) s'.
Proof.
  intros Hs H. destruct i; cbn in *; rewrite ?app_nil_r.
  - destruct (readyState s !! ws) eqn:Hr; [done|]. injection Hs as <-. by apply bridge_connection.
  - unfold listening in Hs. case_bool_decide; injection Hs as <-; [by apply bridge_message|done].
  - destruct (readyState s !! ws) as [r|] eqn:Hr; [|done]. injection Hs as <-. unfold CLOSING. apply bridge_ready; [left|..]; try done; unfold OPEN; lia.
  - destruct (readyState s !! ws) as [r|] eqn:Hr; [|done]. injection Hs as <-.
    assert (bridge out (set_ready ws CLOSED s)) as H1 by (apply bridge_ready; try done; by left).
    case_match; [by apply bridge_on_close|done].
  - destruct (readyState s !! ws) as [r|] eqn:Hr; [|done]. injection Hs as <-. case_match; [by apply bridge_on_close|done].
  - injection Hs as <-. by apply bridge_outbound.
  - injection Hs as <-. unfold shutdown. apply bridge_emit; [by repeat constructor|].
    case_match; [|done]. apply bridge_active, bridge_ready; try done. by left.
Qed.

Lemma bridge_steps l : forall out s s',
  steps JSON_parse new_RegExp readFileSync s l = Some s' -> bridge out s -> bridge (out ++ handed l) s'.
Proof.
  induction l as [|i l IH]; intros out s s' Hs H; cbn in Hs.
  - injection Hs as <-. unfold handed. cbn. by rewrite app_nil_r.
  - destruct (step _ _ _ s i) as [s1|] eqn:H1; [|done]. apply (bridge_step out i) in H1; [|done].
    apply (IH _ _ _ Hs) in H1. unfold handed in *. rewrite bind_cons. by rewrite <- app_assoc in H1.
Qed.
End Steps.

Lemma bridge_init : bridge [] init.
Proof. split; cbn; try done; set_solver. Qed.

(** C28. The messages of the runtime reach the debugger in order, and none is lost
    while clients come and go: what the clients were sent, one after the other,
    followed by what waits for a client, is what the runtime handed over.  Nothing
    waits while a client is open, and a client that was refused because there was
    one already is never sent anything. *)
Theorem inspector_bridge_in_order JSON_parse new_RegExp readFileSync l s :
  steps JSON_parse new_RegExp readFileSync init l = Some s ->
  sent (log s) ++ pendingMessages s = handed l /\
  (forall ws, activeWs s = Some ws -> is_open ws s = true -> pendingMessages s = []) /\
  (forall ws e, Refused ws ∈ log s -> e ∈ log s -> receiver e <> Some ws).
Proof.
  intros Hs. pose proof (bridge_steps _ _ _ l [] init s Hs bridge_init) as H. split; [by apply (b_order _ _ H)|].
  split; [by apply (b_waits _ _ H)|]. intros ws e Hr He Hw. apply (b_refused _ _ H ws Hr). by apply (b_receivers _ _ H e).
Qed.

Definition no_json (s : jsstr) : result json := Throw TypeError.
Definition no_regexp (s : jsstr) : option (jsstr -> bool) := None.
Definition no_file (v : json) : result jsstr := Throw TypeError.

Lemma inspector_bridge_in_order_witness :
  exists s, steps no_json no_regexp no_file init
      [Outbound "a"%js; Connection 1; Connection 2; Outbound "b"%js; Closing 1; Outbound "c"%js; Close 1; Connection 3] = Some s /\
    sent (log s) ++ pendingMessages s = ["a"; "b"; "c"]%js.
Proof.
  eexists. split; [vm_compute; reflexivity|].
  apply (inspector_bridge_in_order no_json no_regexp no_file
    [Outbound "a"%js; Connection 1; Connection 2; Outbound "b"%js; Closing 1; Outbound "c"%js; Close 1; Connection 3]).
  vm_compute. reflexivity.
Defined.

(** ** Breakpoints *)

(** A path as a client writes it in a regular expression: a backslash before the
    characters that [special] tells. *)
Definition escape (special : Z -> bool) (s : jsstr) : jsstr := s ≫= (fun c => if special c then [92; c] else [c]).

Lemma unescape_escape special s :
  special 92 = true -> Forall (fun c => line_end c = false) s -> unescape (escape special s) = s.
Proof.
  intros Hb Hs. induction Hs as [|c s Hc Hs IH]; [done|]. unfold escape in *. rewrite bind_cons. destruct (special c) eqn:Hsp.
  - cbn [app unescape]. rewrite Z.eqb_refl, Hc. by rewrite IH.
  - cbn [app unescape]. destruct (Z.eqb_spec c 92) as [->|]; [congruence|]. by rewrite IH.
Qed.

Lemma escape_no_bar special s :
  Forall (fun c => c <> 124) s -> Forall (fun c => (124 =? c) = false) (escape special s).
Proof.
  intros Hs. induction Hs as [|c s Hc Hs IH]; [constructor|]. unfold escape in *. rewrite bind_cons. apply Forall_app. split; [|done].
  assert ((124 =? c) = false) by (apply Z.eqb_neq; congruence). destruct (special c); by repeat constructor.
Qed.

(** A breakpoint on a path that no script is known for yet, as the alternatives of
    the path and its file URL, is set on the path. *)
Lemma inspector_breakpoint_on_path new_RegExp special urls path rest re :
  special 92 = true -> Forall (fun c => line_end c = false /\ c <> 124) path -> indexOf path file_scheme <> 0 ->
  new_RegExp (escape special path ++ 124 :: rest) = Some re ->
  List.find (fun u => re (to_string u)) (for_in urls) = None ->
  pickUrlForRegex new_RegExp (JString (escape special path ++ 124 :: rest)) urls = Ok (Some (JString path)).
Proof.
  intros Hb Hp Hf Hre Hnone. unfold pickUrlForRegex. cbn [to_string]. rewrite Hre, Hnone. unfold split.
  rewrite split_by_app by done. rewrite split_by_nil by (apply escape_no_bar; eapply Forall_impl; [exact Hp|by intros c []]). cbn [app].
  rewrite fmap_cons, unescape_escape by (done || (eapply Forall_impl; [exact Hp|by intros c []])). cbn [List.find].
  rewrite (proj2 (Z.eqb_neq _ _) Hf). done.
Qed.

(** ** Defects *)

Definition here : config := Config "localhost" 9229 "s" "a.js".

(** A request for the frontend whose [ws] is not well-formed throws in the
    listener of requests, where nothing catches it. *)
Lemma inspector_malformed_ws_throws :
  request here "/devtools/inspector.html?ws=%" = Throw Qs.URIError.
Proof. reflexivity. Qed.

(** The page is built with [JSON.stringify], which leaves [</script>] alone: a
    link may close the script of the page and open its own. *)
Lemma inspector_page_runs_link :
  request here "/devtools/x?ws=%3C/script%3E%3Cscript%3Ealert(1)//" =
  Ok (Response 200 "text/html"
    ("<!DOCTYPE html><html><head><script>location = "%js ++ quote cdnBase ++ [32; 43; 32; 34] ++ "?ws="%js ++ [34; 32; 43; 32; 34] ++
     "</script><script>alert(1)//"%js ++ [34] ++ ";</script></head><body>Opening DevTools...</body></html>"%js)).
Proof. vm_compute. reflexivity. Qed.

(** A path with a bar is split at the bar although it is escaped. *)
Lemma inspector_escaped_bar_splits :
  pickUrlForRegex (fun _ => Some (fun _ => false)) (JString "/a\|b.js") [] = Ok (Some (JString "/a\")).
Proof. reflexivity. Qed.
