(* ===== verification/Domain.v ===== *)
(** * Domains

    Models [libjs/shims/domain.js]: the stack of domains, the members of a domain,
    functions bound to a domain, and what a domain does with an error.

    Programs are trees of calls, each continued with its answer; the listeners of
    ['error'] are arbitrary programs.  [emit] calls a snapshot of the listeners and
    throws the error when there are none.  An error is known by its contents. *)

From S2P Require Import Prelude Effects.
#[local] Open Scope effect_scope.

Module Domain.

(** [exports.active] and [process.domain]. *)
Inductive current :=
  | Null
  | Undefined
  | Is (d : positive).

#[export] Instance current_eq_dec : EqDecision current.
Proof. solve_decision. Defined.

(** The properties of an error: [domain], [domainThrown] and [domainBound]. *)
Record mark := Mark { m_domain : positive; m_thrown : bool; m_bound : option positive }.

Record state := State {
  stack : list positive;                       (* the innermost is the last *)
  active : current;
  process_domain : current;
  members : gmap positive (list positive);
  owner : gmap positive current;               (* [ee.domain] *)
  listeners : gmap positive (list positive);   (* of ['error'] *)
  marks : list (jserror * mark);
  next : positive;
  calls : nat;
}.

Definition init : state := State [] Null Null ∅ ∅ ∅ [] 1 0.

(** The stack, with [exports.active] and [process.domain], which are assigned
    together. *)
Definition set_stack (l : list positive) (c : current) (s : state) : state :=
  State l c c (members s) (owner s) (listeners s) (marks s) (next s) (calls s).
Definition set_process_domain (c : current) (s : state) : state :=
  State (stack s) (active s) c (members s) (owner s) (listeners s) (marks s) (next s) (calls s).
Definition set_members (v : gmap positive (list positive)) (s : state) : state :=
  State (stack s) (active s) (process_domain s) v (owner s) (listeners s) (marks s) (next s) (calls s).
Definition set_owner (ee : positive) (c : current) (s : state) : state :=
  State (stack s) (active s) (process_domain s) (members s) (<[ee := c]> (owner s)) (listeners s) (marks s) (next s) (calls s).
Definition set_listeners (v : gmap positive (list positive)) (s : state) : state :=
  State (stack s) (active s) (process_domain s) (members s) (owner s) v (marks s) (next s) (calls s).
Definition set_mark (e : jserror) (m : mark) (s : state) : state :=
  State (stack s) (active s) (process_domain s) (members s) (owner s) (listeners s) ((e, m) :: marks s) (next s) (calls s).
Definition count_call (s : state) : state :=
  State (stack s) (active s) (process_domain s) (members s) (owner s) (listeners s) (marks s) (next s) (S (calls s)).

(** [er.domainBound] *)
Definition bound_of (er : jserror) (s : state) : option positive :=
  match List.find (fun p => bool_decide (p.1 = er)) (marks s) with Some (_, m) => m_bound m | None => None end.
Definition members_of (d : positive) (s : state) : list positive := default [] (members s !! d).
Definition owner_of (ee : positive) (s : state) : current := default Undefined (owner s !! ee).
Definition listeners_of (d : positive) (s : state) : list positive := default [] (listeners s !! d).

(** ** Entering and leaving *)

Definition createDomain (s : state) : state * positive :=
  let d := next s in
  (State (stack s) (active s) (process_domain s) (<[d := []]> (members s)) (owner s) (<[d := []]> (listeners s)) (marks s)
     (Pos.succ d) (calls s), d).

Definition enter (d : positive) (s : state) : state := set_stack (stack s ++ [d]) (Is d) s.

(** [ArrayPrototypeLastIndexOf(stack, this)] *)
Fixpoint last_index (d : positive) (l : list positive) : option nat :=
  match l with
  | [] => None
  | x :: l =>
      match last_index d l with
      | Some i => Some (S i)
      | None => if bool_decide (x = d) then Some 0%nat else None
      end
  end.

Definition top (l : list positive) : current := match last l with Some d => Is d | None => Undefined end.

Definition exit (d : positive) (s : state) : state :=
  match last_index d (stack s) with
  | None => s
  | Some i => let l := take i (stack s) in set_stack l (top l) s
  end.

(** ** Members *)

Fixpoint remove_first (ee : positive) (l : list positive) : list positive :=
  match l with
  | [] => []
  | x :: l => if bool_decide (x = ee) then l else x :: remove_first ee l
  end.

Definition remove (d ee : positive) (s : state) : state :=
  let s := set_owner ee Null s in
  set_members (<[d := remove_first ee (members_of d s)]> (members s)) s.

Definition add (d ee : positive) (s : state) : state :=
  if bool_decide (owner_of ee s = Is d) then s
  else
    let s := match owner_of ee s with Is d' => remove d' ee s | _ => s end in
    let s := set_owner ee (Is d) s in
    set_members (<[d := members_of d s ++ [ee]]> (members s)) s.

(** ** Programs *)

Inductive body :=
  | Done
  | Fail (e : jserror)
  | Create (k : positive -> body)
  | Enter (d : positive) (k : body)
  | Exit (d : positive) (k : body)
  | Assign (c : current) (k : body)            (* [process.domain = c] *)
  | Look (k : current -> body)                 (* [domain.active] *)
  | Add (d ee : positive) (k : body)
  | Remove (d ee : positive) (k : body)
  | On (d l : positive) (k : body)
  | Off (d l : positive) (k : body)
  | Run (d : positive) (fn : body) (k : result unit -> body)
  | Bound (d : positive) (cb : body) (k : result unit -> body)      (* [d.bind(cb)()] *)
  | Intercepted (d : positive) (er : option jserror) (cb : positive) (k : result unit -> body)
  | HandleError (d : positive) (er : jserror) (k : result bool -> body).

(** What the functions of a program do: the listener [l] on the error [er], and
    the callback [cb] of an [intercept].  The number of the call stands for what
    they remember. *)
Record env := Env {
  on_error : nat -> positive -> jserror -> body;
  on_call : nat -> positive -> body;
}.

Section WithEnv.
Variable E : env.

Section WithUser.
Variable user : body -> M state unit.

Definition call_listener (l : positive) (er : jserror) : M state unit :=
  b <- gets (fun s => on_error E (calls s) l er);;
  modify count_call;;
  user b.

Fixpoint emit_all (l : list positive) (er : jserror) : M state unit :=
  match l with
  | [] => ret tt
  | x :: l => call_listener x er;; emit_all l er
  end.

(** [this.emit('error', er)] *)
Definition emit_error (d : positive) (er : jserror) : M state bool :=
  l <- gets (listeners_of d);;
  match l with
  | [] => throw er
  | _ => emit_all l er;; ret true
  end.

(** [run], and the function that [bind] makes: [try { fn() } finally { exit() }]. *)
Definition run (d : positive) (fn : M state unit) : M state unit :=
  modify (enter d);;
  finally fn (exit d).

Definition intercepted (d : positive) (er : option jserror) (cb : positive) : M state unit :=
  match er with
  | Some e =>
      modify (set_mark e (Mark d false (Some cb)));;
      emit_error d e;;
      ret tt
  | None =>
      run d (b <- gets (fun s => on_call E (calls s) cb);; modify count_call;; user b)
  end.

(** [while (exports.active === this) this.exit()] *)
Fixpoint exit_loop (fuel : nat) (d : positive) : M state unit :=
  match fuel with
  | O => fun _ => None
  | S fuel =>
      mine <- gets (fun s => bool_decide (active s = Is d));;
      if mine : bool then modify (exit d);; exit_loop fuel d else ret tt
  end.

Definition _errorHandler (d : positive) (er : jserror) : M state bool :=
  modify (fun s => set_mark er (Mark d true (bound_of er s)) s);;
  n <- gets (fun s => S (List.length (stack s)));;
  exit_loop n d;;
  count <- gets (fun s => List.length (listeners_of d s));;
  caught <- (if bool_decide (0 < count)%nat then emit_error d er else ret false);;
  modify (set_stack [] Null);;
  ret caught.

Fixpoint exec (b : body) : M state unit :=
  match b with
  | Done => ret tt
  | Fail e => throw e
  | Create k => d <- gets (fun s => (createDomain s).2);; modify (fun s => (createDomain s).1);; exec (k d)
  | Enter d k => modify (enter d);; exec k
  | Exit d k => modify (exit d);; exec k
  | Assign c k => modify (set_process_domain c);; exec k
  | Look k => c <- gets active;; exec (k c)
  | Add d ee k => modify (add d ee);; exec k
  | Remove d ee k => modify (remove d ee);; exec k
  | On d l k => modify (fun s => set_listeners (<[d := listeners_of d s ++ [l]]> (listeners s)) s);; exec k
  | Off d l k => modify (fun s => set_listeners (<[d := rev (remove_first l (rev (listeners_of d s)))]> (listeners s)) s);; exec k
  | Run d fn k => attempt (run d (exec fn)) (fun r => exec (k r))
  | Bound d cb k => attempt (run d (exec cb)) (fun r => exec (k r))
  | Intercepted d er cb k => attempt (intercepted d er cb) (fun r => exec (k r))
  | HandleError d er k => attempt (_errorHandler d er) (fun r => exec (k r))
  end.
End WithUser.

(** A program, with fuel for the listeners and callbacks inside it. *)
Fixpoint program (n : nat) (b : body) : M state unit :=
  match n with
  | O => fun _ => None
  | S n => exec (program n) b
  end.
End WithEnv.
End Domain.
