(* ===== verification/DomainFacts.v ===== *)
(** * Domains: theorems *)

From S2P Require Import Prelude Effects Domain.
Import Domain.
#[local] Open Scope effect_scope.

(** ** The stack *)

(** The active domain is the innermost one of the stack. *)
Definition synced (s : state) : Prop := active s = top (stack s) \/ (stack s = [] /\ active s = Null).

Lemma top_snoc l d : top (l ++ [d]) = Is d.
Proof. unfold top. by rewrite last_snoc. Qed.

Lemma last_index_snoc d l : last_index d (l ++ [d]) = Some (List.length l).
Proof. induction l as [|x l IH]; cbn; [by rewrite bool_decide_eq_true_2|by rewrite IH]. Qed.

Lemma synced_enter d s : synced (enter d s).
Proof. left. cbn. by rewrite top_snoc. Qed.

Lemma synced_exit d s : synced s -> synced (exit d s).
Proof. unfold exit. case_match; [|done]. intros _. by left. Qed.

(** Steps that leave the stack alone. *)
Lemma synced_same s s' : stack s' = stack s -> active s' = active s -> synced s -> synced s'.
Proof. unfold synced. by intros -> ->. Qed.

Lemma add_stack d ee s : stack (add d ee s) = stack s /\ active (add d ee s) = active s.
Proof. unfold add, remove. repeat case_match; done. Qed.

(** [exit] undoes [enter]. *)
Lemma exit_enter d s : stack (exit d (set_stack (stack s ++ [d]) (Is d) s)) = stack s.
Proof. unfold exit. cbn. rewrite last_index_snoc. cbn. by rewrite take_app_length. Qed.

Section WithEnv.
Context (E : env).

Abbreviation keeps I m := (triple I m (fun _ => I)).

Lemma dom_bind {A B} I (m : M state A) (k : A -> M state B) : keeps I m -> (forall a, keeps I (k a)) -> keeps I (bind m k).
Proof. intros Hm Hk. eapply triple_bind; [|exact Hk]. eapply triple_weaken; [exact Hm|done|]. by intros []. Qed.
Lemma dom_attempt {A B} I (m : M state A) (k : result A -> M state B) :
  keeps I m -> (forall r, keeps I (k r)) -> keeps I (attempt m k).
Proof. intros Hm Hk. by eapply triple_attempt. Qed.
Lemma dom_gets {A} I (f : state -> A) : keeps I (gets f).
Proof. by apply triple_gets. Qed.

(** *** Any program *)

Section Any.
Context (user : body -> M state unit) (Huser : forall b, keeps synced (user b)).

Lemma synced_emit_all l er : keeps synced (emit_all E user l er).
Proof.
  induction l as [|x l IH]; cbn [emit_all]; [by apply triple_ret|]. apply dom_bind; [|done]. unfold call_listener.
  apply dom_bind; [apply dom_gets|]. intros b. apply dom_bind; [by apply triple_modify|done].
Qed.

Lemma synced_emit d er : keeps synced (emit_error E user d er).
Proof.
  unfold emit_error. apply dom_bind; [apply dom_gets|]. intros [|x l]; [by apply triple_throw|].
  apply dom_bind; [apply synced_emit_all|]. intros _. by apply triple_ret.
Qed.

Lemma synced_run d fn : keeps synced fn -> keeps synced (run d fn).
Proof.
  intros Hf. unfold run. apply dom_bind; [apply triple_modify; intros s _; apply synced_enter|]. intros _.
  apply triple_finally. eapply triple_weaken; [exact Hf|done|]. intros r s. apply synced_exit.
Qed.

Lemma synced_exit_loop n d : keeps synced (exit_loop n d).
Proof.
  induction n as [|n IH]; cbn [exit_loop]; [by intros s s' r _|]. apply dom_bind; [apply dom_gets|]. intros [|]; [|by apply triple_ret].
  apply dom_bind; [apply triple_modify; intros s; apply synced_exit|done].
Qed.

Lemma synced_handler d er : keeps synced (_errorHandler E user d er).
Proof.
  unfold _errorHandler. apply dom_bind; [by apply triple_modify|]. intros _. apply dom_bind; [apply dom_gets|]. intros n.
  apply dom_bind; [apply synced_exit_loop|]. intros _. apply dom_bind; [apply dom_gets|]. intros c.
  apply dom_bind; [case_bool_decide; [apply synced_emit|by apply triple_ret]|]. intros b.
  apply dom_bind; [apply triple_modify; intros s _; by right|]. intros _. by apply triple_ret.
Qed.

Lemma synced_exec b : keeps synced (exec E user b).
Proof.
  induction b; cbn [exec];
    try (by apply triple_ret); try (by apply triple_throw);
    try (apply dom_bind; [apply dom_gets|]; intros ?); try (by auto);
    try (apply dom_bind; [apply triple_modify; intros s Hs|by auto]).
  - done.
  - apply synced_enter.
  - by apply synced_exit.
  - done.
  - eapply synced_same; [apply add_stack..|done].
  - done.
  - done.
  - done.
  - apply dom_attempt; [by apply synced_run|done].
  - apply dom_attempt; [by apply synced_run|done].
  - apply dom_attempt; [|done]. unfold intercepted. destruct er as [e|].
    + apply dom_bind; [by apply triple_modify|]. intros _. apply dom_bind; [apply synced_emit|]. intros _. by apply triple_ret.
    + apply synced_run. apply dom_bind; [apply dom_gets|]. intros b. apply dom_bind; [by apply triple_modify|done].
  - apply dom_attempt; [apply synced_handler|done].
Qed.
End Any.

Lemma synced_program n : forall b, keeps synced (program E n b).
Proof. induction n as [|n IH]; intros b; cbn [program]; [by intros s s' r _|by apply synced_exec]. Qed.
End WithEnv.

(** *** Structured programs *)

(** A program that enters domains through [run], [bind] and [intercept] only. *)
Fixpoint structured (b : body) : Prop :=
  match b with
  | Done | Fail _ => True
  | Enter _ _ | Exit _ _ | HandleError _ _ _ => False
  | Create k => forall d, structured (k d)
  | Look k => forall c, structured (k c)
  | Assign _ k | Add _ _ k | Remove _ _ k | On _ _ k | Off _ _ k => structured k
  | Run _ fn k | Bound _ fn k => structured fn /\ forall r, structured (k r)
  | Intercepted _ _ _ k => forall r, structured (k r)
  end.

Section Structured.
Context (E : env) (He : forall n l er, structured (on_error E n l er)) (Hc : forall n cb, structured (on_call E n cb)).
Abbreviation at_stack l := (fun s => stack s = l).
Abbreviation keeps I m := (triple I m (fun _ => I)).
Context (user : body -> M state unit) (Huser : forall b, structured b -> forall l, keeps (at_stack l) (user b)).

Lemma balanced_emit d er l : keeps (at_stack l) (emit_error E user d er).
Proof.
  unfold emit_error. apply dom_bind; [apply dom_gets|]. intros [|x xs]; [by apply triple_throw|].
  apply dom_bind; [|intros _; by apply triple_ret]. generalize (x :: xs). intros ys.
  induction ys as [|y ys IH]; cbn [emit_all]; [by apply triple_ret|]. apply dom_bind; [|done]. unfold call_listener.
  eapply (triple_bind _ _ _ (fun b s => structured b /\ stack s = l)); [apply triple_gets; intros s Hs; by split|]. intros b.
  eapply (triple_bind _ _ _ (fun _ s => structured b /\ stack s = l)); [by apply triple_modify|]. intros _ s s' r [Hb Hs] Hrun.
  by apply (Huser b Hb l s s' r).
Qed.

Lemma balanced_run d fn l : (forall l, keeps (at_stack l) fn) -> keeps (at_stack l) (run d fn).
Proof.
  intros Hf. unfold run. eapply (triple_bind _ _ _ (fun _ => at_stack (l ++ [d]))).
  { apply triple_modify. intros s Hs. cbn. by rewrite Hs. }
  intros _. apply triple_finally. eapply triple_weaken; [apply (Hf (l ++ [d]))|done|]. intros r s Hs.
  unfold exit. rewrite Hs, last_index_snoc. cbn. by rewrite take_app_length.
Qed.

Lemma balanced_exec b : structured b -> forall l, keeps (at_stack l) (exec E user b).
Proof.
  induction b; cbn [exec structured]; intros Hb l0; try done;
    try (by apply triple_ret); try (by apply triple_throw);
    try (apply dom_bind; [apply dom_gets|]; intros ?); try (by auto);
    try (apply dom_bind; [apply triple_modify; intros s Hs; cbn|by auto]); try done.
  - by rewrite (proj1 (add_stack d ee s)).
  - destruct Hb. apply dom_attempt; [by apply balanced_run; auto|auto].
  - destruct Hb. apply dom_attempt; [by apply balanced_run; auto|auto].
  - apply dom_attempt; [|auto]. unfold intercepted. destruct er as [e|].
    + apply dom_bind; [by apply triple_modify|]. intros _. apply dom_bind; [apply balanced_emit|]. intros _. by apply triple_ret.
    + apply balanced_run. intros l'.
      eapply (triple_bind _ _ _ (fun b s => structured b /\ stack s = l')); [apply triple_gets; intros s Hs; by split|]. intros b.
      eapply (triple_bind _ _ _ (fun _ s => structured b /\ stack s = l')); [by apply triple_modify|]. intros _ s s' r [Hb' Hs] Hrun.
      by apply (Huser b Hb' l' s s' r).
Qed.
End Structured.

Lemma balanced_program E n :
  (forall n l er, structured (on_error E n l er)) -> (forall n cb, structured (on_call E n cb)) ->
  forall b, structured b -> forall l, triple (fun s => stack s = l) (program E n b) (fun _ s => stack s = l).
Proof.
  intros He Hc. induction n as [|n IH]; intros b Hb l; cbn [program]; [by intros s s' r _|]. by apply balanced_exec.
Qed.


(** ** Errors *)

Lemma exit_top d s : active s = Is d -> synced s -> exists l, stack s = l ++ [d] /\ stack (exit d s) = l.
Proof.
  intros Ha [Hs|[_ Hs]]; [|congruence]. rewrite Ha in Hs. unfold top in Hs. destruct (last (stack s)) as [x|] eqn:Hl; [|done].
  injection Hs as <-. apply last_Some in Hl as [l Hl]. exists l. split; [done|]. unfold exit. rewrite Hl, last_index_snoc. cbn.
  by rewrite take_app_length.
Qed.

(** The loop that leaves the domain ends, with another domain or none active. *)
Lemma exit_loop_ends d n : forall s, synced s -> (List.length (stack s) < n)%nat ->
  exists s', exit_loop n d s = Some (s', Ok tt) /\ active s' <> Is d /\ stack s' `prefix_of` stack s.
Proof.
  induction n as [|n IH]; intros s Hs Hn; [lia|]. cbn [exit_loop]. unfold bind at 1, gets. case_bool_decide as Ha.
  - destruct (exit_top d s Ha Hs) as (l & Hl & He). destruct (IH (exit d s)) as (s' & Hrun & Ha' & Hp).
    + by apply synced_exit.
    + rewrite He. rewrite Hl, length_app in Hn. cbn in Hn. lia.
    + exists s'. split; [|split; [done|]].
      * unfold bind, modify. exact Hrun.
      * etrans; [exact Hp|]. rewrite He, Hl. by apply prefix_app_r.
  - exists s. done.
Qed.

Lemma exit_loop_listeners d n : forall s s' r, exit_loop n d s = Some (s', r) -> listeners s' = listeners s.
Proof.
  induction n as [|n IH]; intros s s' r H; cbn [exit_loop] in H; [by simplify_eq|]. unfold bind at 1, gets in H.
  case_bool_decide; [|by injection H as <-]. unfold bind, modify in H. apply IH in H. rewrite H. unfold exit. by case_match.
Qed.

(** When [_errorHandler] answers, no domain is active any more; it answers whether
    there were listeners. *)
Lemma errorHandler_clears E user d er s s' caught :
  _errorHandler E user d er s = Some (s', Ok caught) ->
  stack s' = [] /\ active s' = Null /\ process_domain s' = Null /\ (caught = false -> listeners_of d s = []).
Proof.
  intros H. unfold _errorHandler in H. apply bind_ok in H as (s1 & [] & [= <-] & H). apply bind_ok in H as (s2 & n & [= <- <-] & H).
  apply bind_ok in H as (s3 & [] & Hx & H). apply bind_ok in H as (s4 & c & [= <- <-] & H).
  apply bind_ok in H as (s5 & b & Hb & H). apply bind_ok in H as (s6 & [] & [= <-] & [= <- <-]). split_and!; try done. intros ->.
  pose proof (exit_loop_listeners d _ _ _ _ Hx) as Hl. cbn in Hl.
  unfold listeners_of in *. rewrite Hl in Hb. case_bool_decide as Hc.
  - unfold emit_error in Hb. apply bind_ok in Hb as (? & l & [= <- <-] & Hb). case_match; [done|].
    apply bind_ok in Hb as (? & [] & _ & [= _ Hb]).
  - destruct (default [] (listeners s !! d)); [done|]. cbn in Hc. lia.
Qed.

(** ** Members *)

(** An emitter is a member of the domain it names, once, and of no other. *)
Definition membership (s : state) : Prop :=
  forall d, NoDup (members_of d s) /\ forall ee, ee ∈ members_of d s <-> owner_of ee s = Is d.

Lemma remove_member_spec ee l : NoDup l -> NoDup (remove_first ee l) /\ forall x, x ∈ remove_first ee l <-> x ∈ l /\ x <> ee.
Proof.
  induction l as [|y l IH]; intros Hl; cbn [remove_first]; [split; [constructor|set_solver]|].
  apply NoDup_cons in Hl as [Hy Hl]. destruct (IH Hl) as [H1 H2]. case_bool_decide as He.
  - subst y. split; [done|]. set_solver.
  - split; [|set_solver]. apply NoDup_cons. split; [|done]. rewrite H2. by intros [].
Qed.

Lemma members_insert d l d' s :
  members_of d' (set_members (<[d := l]> (members s)) s) = if bool_decide (d = d') then l else members_of d' s.
Proof.
  unfold members_of. cbn. case_bool_decide as H; [subst; by rewrite lookup_insert_eq|by rewrite lookup_insert_ne].
Qed.

Lemma owner_insert ee c ee' s : owner_of ee' (set_owner ee c s) = if bool_decide (ee = ee') then c else owner_of ee' s.
Proof.
  unfold owner_of. cbn. case_bool_decide as H; [subst; by rewrite lookup_insert_eq|by rewrite lookup_insert_ne].
Qed.

(** Removing an emitter from the domain it is in, or from any when it is in none. *)
Lemma membership_remove d ee s :
  (forall d', owner_of ee s = Is d' -> d' = d) -> membership s -> membership (remove d ee s).
Proof.
  intros Ho H d'. unfold remove. rewrite members_insert. change (members_of d (set_owner ee Null s)) with (members_of d s).
  change (members_of d' (set_owner ee Null s)) with (members_of d' s).
  destruct (H d) as [Hn He], (H d') as [Hn' He']. destruct (remove_member_spec ee _ Hn) as [Hr1 Hr2].
  assert (forall x, owner_of x (set_members (<[d := remove_first ee (members_of d s)]> (members (set_owner ee Null s))) (set_owner ee Null s)) =
            if bool_decide (ee = x) then Null else owner_of x s) as Hown by (intros x; apply owner_insert).
  case_bool_decide as Hd.
  - subst d'. split; [done|]. intros x. rewrite Hown, Hr2, He. case_bool_decide; subst; naive_solver.
  - split; [done|]. intros x. rewrite Hown, He'. case_bool_decide as Hx; [|done]. subst x. split; [|done].
    intros Hx%Ho. congruence.
Qed.

Lemma membership_add d ee s : membership s -> membership (add d ee s).
Proof.
  intros H. unfold add. case_bool_decide as Hd; [done|].
  set (s1 := match owner_of ee s with Is d' => remove d' ee s | _ => s end).
  assert (membership s1 /\ forall d', owner_of ee s1 <> Is d') as [H1 Hn].
  { unfold s1. destruct (owner_of ee s) as [| |d'] eqn:Ho; [split; [done|]; by rewrite Ho|split; [done|]; by rewrite Ho|].
    split; [apply membership_remove; [|done]; intros d'' ?; congruence|]. intros d''. unfold remove.
    change (owner_of ee (set_owner ee Null s) <> Is d''). rewrite owner_insert, bool_decide_eq_true_2 by done. done. }
  clearbody s1. clear H Hd. intros d'. rewrite members_insert.
  change (members_of d (set_owner ee (Is d) s1)) with (members_of d s1). change (members_of d' (set_owner ee (Is d) s1)) with (members_of d' s1).
  assert (forall x, owner_of x (set_members (<[d := members_of d s1 ++ [ee]]> (members (set_owner ee (Is d) s1))) (set_owner ee (Is d) s1)) =
            if bool_decide (ee = x) then Is d else owner_of x s1) as Hown by (intros x; apply owner_insert).
  destruct (H1 d) as [Hm He], (H1 d') as [Hm' He']. case_bool_decide as Hd.
  - subst d'. split.
    + apply NoDup_app. split; [done|]. split; [|apply NoDup_singleton]. intros x Hx%He Hx'%list_elem_of_singleton. subst x. by apply Hn in Hx.
    + intros x. rewrite Hown, elem_of_app, list_elem_of_singleton, He. case_bool_decide; subst; naive_solver.
  - split; [done|]. intros x. rewrite Hown, He'. case_bool_decide as Hx; [|done]. subst x. split; [|congruence]. by intros Hx%Hn.
Qed.

(** ** Examples *)

Definition quiet : env := Env (fun _ _ _ => Done) (fun _ _ => Done).


(** When the listener throws, the stack is not cleared. *)
Lemma domain_throwing_listener_keeps_stack :
  exists s', program (Env (fun _ _ _ => Fail (JsError "E2" [])) (fun _ _ => Done)) 5
    (On 2 9 (Enter 1 (Enter 2 (HandleError 2 (JsError "E" []) (fun _ => Done))))) init = Some (s', Ok tt) /\
    stack s' = [1]%positive /\ active s' = Is 1.
Proof. eexists. split_and!; vm_compute; reflexivity. Qed.

(** ** Defects *)

(** [remove] forgets the domain of an emitter that another domain holds: that
    domain keeps it, and holds it twice once it is added again. *)
Lemma domain_remove_of_stranger :
  let s := add 1 7 (remove 2 7 (add 1 7 init)) in members_of 1 s = [7; 7]%positive.
Proof. vm_compute. reflexivity. Qed.
