(* ===== verification/AbortSignal.v ===== *)
(** * Abort signals

    Models [libjs/shims/internal/abort_controller.js]: controllers, signals,
    signals that time out and signals that follow others.

    A signal is an event emitter: the table of its listeners, by event name, of
    which [emit] calls a snapshot.  Listeners of the meta events ['newListener']
    and ['removeListener'], and one-shot listeners, are left to the model of
    [events.js].  Programs are trees of calls, each continued with its answer;
    they do not assign to [aborted] and [reason], and name signals that exist:
    a call on another one does nothing. *)

From S2P Require Import Prelude Effects.
#[local] Open Scope effect_scope.

Module AbortSignal.

(** A listener: the user's, or [onAbort] bound to the signal [source], which
    aborts [signal]. *)
Inductive listener :=
  | Listener (c : positive)
  | OnAbort (signal source : positive).

#[export] Instance listener_eq_dec : EqDecision listener.
Proof. solve_decision. Defined.

(** The value of [_onabort]. *)
Inductive handler :=
  | NoHandler
  | Function (c : positive)
  | NotCallable.

Record signal := Signal {
  aborted : bool;
  reason : option jserror;
  listeners : gmap jsstr (list listener);
  _onabort : handler;
}.

Inductive event :=
  | Emitted (signal : positive)           (* ['abort'], by the shim *)
  | Called (c : positive) (signal : positive).

Record state := State {
  signals : gmap positive signal;
  timeouts : list positive;               (* signals that a timer will abort *)
  controllers : list positive;            (* signals that have a controller *)
  next : positive;
  calls : nat;
  log : list event;
}.

Definition init : state := State ∅ [] [] 1 0 [].

Definition new_AbortSignal : signal := Signal false None ∅ NoHandler.
Definition signal_of (x : positive) (s : state) : signal := default new_AbortSignal (signals s !! x).
Definition put (x : positive) (v : signal) (s : state) : state :=
  State (<[x := v]> (signals s)) (timeouts s) (controllers s) (next s) (calls s) (log s).
Definition emits (e : event) (s : state) : state := State (signals s) (timeouts s) (controllers s) (next s) (calls s) (log s ++ [e]).
Definition set_timeouts (l : list positive) (s : state) : state := State (signals s) l (controllers s) (next s) (calls s) (log s).
Definition count_call (s : state) : state := State (signals s) (timeouts s) (controllers s) (next s) (S (calls s)) (log s).

(** [new AbortSignal()] *)
Definition alloc (v : signal) (s : state) : state :=
  State (<[next s := v]> (signals s)) (timeouts s) (controllers s) (Pos.succ (next s)) (calls s) (log s).

(** [new AbortController()] *)
Definition new_AbortController (s : state) : state :=
  let x := next s in let s := alloc new_AbortSignal s in
  State (signals s) (timeouts s) (x :: controllers s) (next s) (calls s) (log s).

Definition exists_ (x : positive) (s : state) : bool := bool_decide (is_Some (signals s !! x)).

(** [DOMException], by its name, message and code. *)
Definition DOMException (message name : jsstr) : jserror :=
  JsError name [message; if bool_decide (name = "AbortError"%js) then "20"%js else "0"%js].
Definition abort_error : jserror := DOMException "This operation was aborted" "AbortError".
Definition timeout_error : jserror := DOMException "The operation was aborted due to timeout" "TimeoutError".

Definition abort_event : jsstr := "abort".
Definition error_event : jsstr := "error".
Definition unhandled : jserror := JsError "ERR_UNHANDLED_ERROR" [].

Definition listeners_of (x : positive) (type : jsstr) (s : state) : list listener :=
  default [] (listeners (signal_of x s) !! type).
Definition set_listeners (x : positive) (type : jsstr) (l : list listener) (s : state) : state :=
  let v := signal_of x s in put x (Signal (aborted v) (reason v) (<[type := l]> (listeners v)) (_onabort v)) s.
Definition set_onabort (x : positive) (h : handler) (s : state) : state :=
  let v := signal_of x s in put x (Signal (aborted v) (reason v) (listeners v) h) s.
Definition set_aborted (x : positive) (r : option jserror) (s : state) : state :=
  let v := signal_of x s in put x (Signal true r (listeners v) (_onabort v)) s.

Fixpoint remove_first (l : listener) (ls : list listener) : list listener :=
  match ls with
  | [] => []
  | x :: ls => if bool_decide (x = l) then ls else x :: remove_first l ls
  end.

Definition addEventListener (x : positive) (type : jsstr) (l : listener) (s : state) : state :=
  set_listeners x type (listeners_of x type s ++ [l]) s.
(** [removeListener] takes out the last one. *)
Definition removeEventListener (x : positive) (type : jsstr) (l : listener) (s : state) : state :=
  set_listeners x type (rev (remove_first l (rev (listeners_of x type s)))) s.

(** ** Programs *)

Inductive body :=
  | Done
  | Fail (e : jserror)
  | NewController (k : positive -> body)                              (* the answer is its signal *)
  | ControllerAbort (x : positive) (reason : option jserror) (k : result unit -> body)
  | SignalAbort (reason : option jserror) (k : positive -> body)
  | SignalTimeout (k : positive -> body)
  | SignalAny (l : list positive) (k : positive -> body)
  | AddEventListener (x : positive) (type : jsstr) (c : positive) (k : body)
  | RemoveEventListener (x : positive) (type : jsstr) (c : positive) (k : body)
  | DispatchEvent (x : positive) (type : jsstr) (k : result unit -> body)
  | SetOnabort (x : positive) (h : handler) (k : body)
  | ThrowIfAborted (x : positive) (k : result unit -> body)
  | GetAborted (x : positive) (k : bool -> body).

Section WithCode.
(** What the user's function [c] does when it is called for the [n]-th time. *)
Variable code : nat -> positive -> body.

Section WithUser.
Variable user : body -> M state unit.

Definition call (c x : positive) : M state unit :=
  b <- gets (fun s => code (calls s) c);;
  modify (fun s => emits (Called c x) (count_call s));;
  user b.

(** [emit], given how a listener is called; ['error'] without listeners throws. *)
Fixpoint call_all (invoke : listener -> M state unit) (l : list listener) : M state unit :=
  match l with
  | [] => ret tt
  | x :: l => invoke x;; call_all invoke l
  end.
Definition emit_with (invoke : listener -> M state unit) (x : positive) (type : jsstr) : M state unit :=
  l <- gets (listeners_of x type);;
  match l with
  | [] => if bool_decide (type = error_event) then throw unhandled else ret tt
  | _ => call_all invoke l
  end.

(** [signal.aborted = true; signal.reason = ...; signal.emit('abort');
    if (typeof signal._onabort === 'function') signal._onabort()] *)
Definition fire_with (invoke : listener -> M state unit) (x : positive) (r : option jserror) : M state unit :=
  modify (set_aborted x r);;
  modify (emits (Emitted x));;
  emit_with invoke x abort_event;;
  h <- gets (fun s => _onabort (signal_of x s));;
  match h with Function c => call c x | _ => ret tt end.

(** A call of a listener of the signal [x]; signals that follow signals that
    follow ... need fuel. *)
Fixpoint invoke (fuel : nat) (x : positive) (l : listener) : M state unit :=
  match fuel with
  | O => fun _ => None
  | S fuel =>
      match l with
      | Listener c => call c x
      | OnAbort signal source =>
          done <- gets (fun s => aborted (signal_of signal s));;
          if done : bool then ret tt
          else
            r <- gets (fun s => reason (signal_of source s));;
            fire_with (invoke fuel signal) signal r
      end
  end.

Variable fuel : nat.

Definition emit (x : positive) (type : jsstr) : M state unit := emit_with (invoke fuel x) x type.
Definition fire (x : positive) (r : option jserror) : M state unit := fire_with (invoke fuel x) x r.

Definition controller_abort (x : positive) (why : option jserror) : M state unit :=
  done <- gets (fun s => aborted (signal_of x s));;
  if done : bool then ret tt else fire x (Some (default abort_error why)).

Definition signal_abort (why : option jserror) (s : state) : state :=
  alloc (Signal true (Some (default abort_error why)) ∅ NoHandler) s.

Definition signal_timeout (s : state) : state :=
  let x := next s in set_timeouts (timeouts s ++ [x]) (alloc new_AbortSignal s).

(** The function that [AbortSignal.timeout] hands to [setTimeout]. *)
Definition on_timeout (x : positive) : M state unit :=
  done <- gets (fun s => aborted (signal_of x s));;
  if done : bool then ret tt else fire x (Some timeout_error).

Fixpoint follow_all (x : positive) (l : list positive) (s : state) : state :=
  match l with
  | [] => s
  | y :: l => follow_all x l (addEventListener y abort_event (OnAbort x y) s)
  end.

Definition signal_any (l : list positive) (s : state) : state :=
  match List.find (fun y => aborted (signal_of y s)) l with
  | Some y => alloc (Signal true (reason (signal_of y s)) ∅ NoHandler) s
  | None => follow_all (next s) l (alloc new_AbortSignal s)
  end.

Definition throwIfAborted (x : positive) : M state unit :=
  v <- gets (signal_of x);;
  if aborted v then throw (default unhandled (reason v)) else ret tt.

Fixpoint exec (b : body) : M state unit :=
  match b with
  | Done => ret tt
  | Fail e => throw e
  | NewController k => x <- gets next;; modify new_AbortController;; exec (k x)
  | ControllerAbort x why k =>
      mine <- gets (fun s => bool_decide (x ∈ controllers s));;
      attempt (if mine : bool then controller_abort x why else ret tt) (fun r => exec (k r))
  | SignalAbort why k => x <- gets next;; modify (signal_abort why);; exec (k x)
  | SignalTimeout k => x <- gets next;; modify signal_timeout;; exec (k x)
  | SignalAny l k =>
      x <- gets next;; modify (fun s => if forallb (fun y => exists_ y s) l then signal_any l s else s);; exec (k x)
  | AddEventListener x type c k => modify (fun s => if exists_ x s then addEventListener x type (Listener c) s else s);; exec k
  | RemoveEventListener x type c k =>
      modify (fun s => if exists_ x s then removeEventListener x type (Listener c) s else s);; exec k
  | DispatchEvent x type k => attempt (emit x type) (fun r => exec (k r))
  | SetOnabort x h k => modify (fun s => if exists_ x s then set_onabort x h s else s);; exec k
  | ThrowIfAborted x k => attempt (throwIfAborted x) (fun r => exec (k r))
  | GetAborted x k => v <- gets (fun s => aborted (signal_of x s));; exec (k v)
  end.
End WithUser.

(** A program, with fuel for the calls inside it. *)
Fixpoint program (n : nat) (b : body) : M state unit :=
  match n with
  | O => fun _ => None
  | S n => exec (program n) n b
  end.

(** The event loop runs code, or the first timer that is set. *)
Inductive turn :=
  | Code (b : body)
  | Timer.

Definition run_turn (n : nat) (t : turn) : M state unit :=
  match t with
  | Code b => program n b
  | Timer =>
      l <- gets timeouts;;
      match l with
      | [] => ret tt
      | x :: l => modify (set_timeouts l);; on_timeout (program n) n x
      end
  end.

Fixpoint run_turns (n : nat) (l : list turn) : M state unit :=
  match l with
  | [] => ret tt
  | t :: l => attempt (run_turn n t) (fun _ => run_turns n l)
  end.
End WithCode.
End AbortSignal.
