(* ===== verification/AbortSignalFacts.v ===== *)
(** * Abort signals: theorems *)

From S2P Require Import Prelude Effects AbortSignal.
Import AbortSignal.
#[local] Open Scope effect_scope.

(** ** The invariant *)

Definition is_emitted (x : positive) (e : event) : bool := match e with Emitted y => bool_decide (y = x) | _ => false end.
Definition emissions (x : positive) (l : list event) : nat := List.length (List.filter (is_emitted x) l).
#[local] Arguments emissions : simpl never.

(** [x] follows [y]. *)
Definition follows (x y : positive) (s : state) : Prop := OnAbort x y ∈ listeners_of y abort_event s.
Definition is_aborted (x : positive) (s : state) : Prop := aborted (signal_of x s) = true.
Definition why (x : positive) (s : state) : option jserror := reason (signal_of x s).

Record inv (s : state) : Prop := {
  i_alloc : forall x, is_Some (signals s !! x) -> (x < next s)%positive;
  i_roots : forall x, x ∈ controllers s \/ x ∈ timeouts s -> is_Some (signals s !! x);
  i_reason : forall x, is_aborted x s <-> is_Some (why x s);
  i_emit : forall x, (emissions x (log s) <= if aborted (signal_of x s) then 1 else 0)%nat;
  i_bound : forall x y z t, OnAbort x z ∈ listeners_of y t s ->
    t = abort_event /\ z = y /\ is_Some (signals s !! x) /\ x ∉ controllers s /\ x ∉ timeouts s;
  i_follow : forall x y, follows x y s -> is_aborted x s -> exists y', follows x y' s /\ is_aborted y' s /\ why y' s = why x s;
}.

(** What is never undone. *)
Record ext (s s' : state) : Prop := {
  e_exists : forall x, is_Some (signals s !! x) -> is_Some (signals s' !! x);
  e_aborted : forall x, is_aborted x s -> is_aborted x s' /\ why x s' = why x s;
  e_follows : forall x y, follows x y s -> follows x y s';
}.

Lemma ext_refl s : ext s s.
Proof. by split. Qed.

Lemma ext_trans s1 s2 s3 : ext s1 s2 -> ext s2 s3 -> ext s1 s3.
Proof.
  intros A B. split.
  - intros x H. by apply (e_exists s2), (e_exists s1).
  - intros x H. destruct (e_aborted s1 s2 A x H) as [H1 E1]. destruct (e_aborted s2 s3 B x H1) as [H2 E2]. split; congruence.
  - intros x y H. by apply (e_follows s2), (e_follows s1).
Qed.

Lemma ext_signals s0 s s' : signals s' = signals s -> ext s0 s -> ext s0 s'.
Proof.
  intros E [A B C]. unfold follows, listeners_of, is_aborted, why, signal_of in *. split; unfold follows, listeners_of, is_aborted, why, signal_of;
    rewrite ?E; done.
Qed.

Definition K (s0 s : state) : Prop := inv s /\ ext s0 s.

(** ** Steps *)

Lemma signal_put x v y s : signal_of y (put x v s) = if bool_decide (x = y) then v else signal_of y s.
Proof. unfold signal_of, put. cbn. case_bool_decide as H; [subst; by rewrite lookup_insert_eq|by rewrite lookup_insert_ne]. Qed.

Lemma put_exists x v y s : is_Some (signals s !! x) -> is_Some (signals (put x v s) !! y) <-> is_Some (signals s !! y).
Proof.
  intros Hx. unfold put. cbn. destruct (decide (x = y)) as [<-|Hne]; [by rewrite lookup_insert_eq|by rewrite lookup_insert_ne].
Qed.

(** A signal that may follow others: nothing else aborts it. *)
Definition derived (x : positive) (s : state) : Prop :=
  is_Some (signals s !! x) /\ x ∉ controllers s /\ x ∉ timeouts s /\ ~ is_aborted x s.

(** A step that changes the listeners of a signal and its handler only; what it
    adds is that a signal follows this one. *)
Lemma K_update s0 x v s :
  is_Some (signals s !! x) -> aborted v = aborted (signal_of x s) -> reason v = reason (signal_of x s) ->
  (forall y z t, OnAbort y z ∈ listeners_of x t s -> OnAbort y z ∈ default [] (listeners v !! t)) ->
  (forall y z t, OnAbort y z ∈ default [] (listeners v !! t) ->
     OnAbort y z ∈ listeners_of x t s \/ (t = abort_event /\ z = x /\ derived y s)) ->
  K s0 s -> K s0 (put x v s).
Proof.
  intros Hx Ha Hr Hl1 Hl2 [[I1 I2 I3 I4 I5 I6] He].
  assert (forall y, aborted (signal_of y (put x v s)) = aborted (signal_of y s)) as A.
  { intros y. rewrite signal_put. case_bool_decide; by subst. }
  assert (forall y, why y (put x v s) = why y s) as R.
  { intros y. unfold why. rewrite signal_put. case_bool_decide; by subst. }
  assert (forall y z w t, OnAbort y z ∈ listeners_of w t s -> OnAbort y z ∈ listeners_of w t (put x v s)) as L1.
  { intros y z w t. unfold listeners_of at 2. rewrite signal_put. case_bool_decide; [subst; apply Hl1|done]. }
  assert (forall y z w t, OnAbort y z ∈ listeners_of w t (put x v s) ->
            OnAbort y z ∈ listeners_of w t s \/ (t = abort_event /\ z = w /\ derived y s)) as L2.
  { intros y z w t. unfold listeners_of at 1. rewrite signal_put. case_bool_decide; [subst; apply Hl2|by left]. }
  unfold is_aborted in *. split.
  - split; unfold is_aborted, follows in *.
    + intros y. rewrite put_exists by done. apply I1.
    + intros y. rewrite put_exists by done. apply I2.
    + intros y. rewrite A, R. apply I3.
    + intros y. rewrite A. apply I4.
    + intros y y' z t [H|(Ht & Hz & Hd & Hc & Hm & _)]%L2; rewrite put_exists by done; [by apply I5|done].
    + intros y y' H. rewrite A. intros H2. apply L2 in H as [H|(_ & _ & _ & _ & _ & H)]; [|done].
      destruct (I6 y y' H H2) as (u & Hu1 & Hu2 & Hu3). exists u. rewrite A, !R. by auto.
  - eapply ext_trans; [exact He|]. split; unfold is_aborted, follows.
    + intros y. by rewrite put_exists.
    + intros y. by rewrite A, R.
    + intros y y'. apply L1.
Qed.

Lemma K_listeners s0 x v s :
  is_Some (signals s !! x) -> aborted v = aborted (signal_of x s) -> reason v = reason (signal_of x s) ->
  (forall y z t, OnAbort y z ∈ default [] (listeners v !! t) <-> OnAbort y z ∈ listeners_of x t s) ->
  K s0 s -> K s0 (put x v s).
Proof. intros H1 H2 H3 H4. apply K_update; try done; intros y z t H; [by apply H4|left; by apply H4]. Qed.

Lemma remove_user_listener c y z ls : OnAbort y z ∈ remove_first (Listener c) ls <-> OnAbort y z ∈ ls.
Proof.
  induction ls as [|l ls IH]; cbn [remove_first]; [done|]. case_bool_decide as H.
  - subst l. rewrite elem_of_cons. naive_solver.
  - rewrite !elem_of_cons, IH. done.
Qed.

Lemma listeners_insert t l t' (v : signal) :
  default [] (<[t := l]> (listeners v) !! t') = if bool_decide (t = t') then l else default [] (listeners v !! t').
Proof. case_bool_decide as H; [subst; by rewrite lookup_insert_eq|by rewrite lookup_insert_ne]. Qed.

Lemma elem_of_rev_iff {A} (x : A) l : x ∈ rev l <-> x ∈ l.
Proof. by rewrite !list_elem_of_In, <- in_rev. Qed.

Lemma K_add s0 x t c s : is_Some (signals s !! x) -> K s0 s -> K s0 (addEventListener x t (Listener c) s).
Proof.
  intros Hx. unfold addEventListener, set_listeners. apply K_listeners; try done. cbn. intros y z t'. rewrite listeners_insert.
  case_bool_decide as H; [subst t'|done]. rewrite elem_of_app, list_elem_of_singleton. naive_solver.
Qed.

Lemma K_remove s0 x t c s : is_Some (signals s !! x) -> K s0 s -> K s0 (removeEventListener x t (Listener c) s).
Proof.
  intros Hx. unfold removeEventListener, set_listeners. apply K_listeners; try done. cbn. intros y z t'. rewrite listeners_insert.
  case_bool_decide as H; [subst t'|done]. rewrite elem_of_rev_iff, remove_user_listener, elem_of_rev_iff. done.
Qed.

Lemma K_onabort s0 x h s : is_Some (signals s !! x) -> K s0 s -> K s0 (set_onabort x h s).
Proof. intros Hx. unfold set_onabort. apply K_listeners; [done..|]. intros y z t. reflexivity. Qed.

Lemma K_counted s0 c x s : K s0 s -> K s0 (emits (Called c x) (count_call s)).
Proof.
  intros [[I1 I2 I3 I4 I5 I6] He]. split; [|by apply (ext_signals s0 s)]. split; try done. cbn. intros y. unfold emissions.
  rewrite List.filter_app, length_app. cbn. rewrite Nat.add_0_r. apply I4.
Qed.

(** A new signal. *)
Lemma signal_alloc v y s : signal_of y (alloc v s) = if bool_decide (next s = y) then v else signal_of y s.
Proof. unfold signal_of, alloc. cbn. case_bool_decide as H; [subst; by rewrite lookup_insert_eq|by rewrite lookup_insert_ne]. Qed.

Lemma fresh_signal s : inv s -> signals s !! next s = None.
Proof.
  intros H. destruct (signals s !! next s) eqn:E; [|done]. pose proof (i_alloc s H (next s) ltac:(by eexists)). lia.
Qed.

Lemma alloc_exists v y s : is_Some (signals (alloc v s) !! y) <-> y = next s \/ is_Some (signals s !! y).
Proof.
  unfold alloc. cbn. destruct (decide (next s = y)) as [<-|Hne]; [rewrite lookup_insert_eq; split; [by left|by eexists]|].
  rewrite lookup_insert_ne by done. split; [by right|]. intros [->|?]; done.
Qed.

Lemma signal_of_fresh s : inv s -> signal_of (next s) s = new_AbortSignal.
Proof. intros H. unfold signal_of. by rewrite fresh_signal. Qed.

(** Nothing refers to a signal before it is made. *)
Lemma K_alloc s0 v s :
  (aborted v = true <-> is_Some (reason v)) -> listeners v = ∅ -> K s0 s -> K s0 (alloc v s).
Proof.
  intros Hv Hl [I He]. pose proof (fresh_signal s I) as Hn. pose proof (signal_of_fresh s I) as Hs. destruct I as [I1 I2 I3 I4 I5 I6].
  assert (forall y z w t, OnAbort y z ∈ listeners_of w t (alloc v s) <-> OnAbort y z ∈ listeners_of w t s) as L.
  { intros y z w t. unfold listeners_of. rewrite signal_alloc. case_bool_decide; [subst|done]. rewrite Hl, Hs. cbn. by rewrite lookup_empty. }
  assert (forall y, is_Some (signals s !! y) -> signal_of y (alloc v s) = signal_of y s) as Sg.
  { intros y [u Hy]. rewrite signal_alloc. case_bool_decide; [congruence|done]. }
  assert (forall y, is_aborted y s -> is_Some (signals s !! y)) as Ab.
  { intros y. unfold is_aborted, signal_of. destruct (signals s !! y); [by eexists|done]. }
  assert (ext s (alloc v s)) as Hx.
  { split.
    - intros y H. apply alloc_exists. by right.
    - intros y H. unfold is_aborted, why. rewrite Sg by by apply Ab. by split.
    - intros y z. apply L. }
  split; [|by eapply ext_trans]. split.
  - intros y [->|H]%alloc_exists; cbn; [lia|]. apply I1 in H. lia.
  - intros y H. apply alloc_exists. right. by apply I2.
  - intros y. unfold is_aborted, why. rewrite signal_alloc. case_bool_decide; [done|apply I3].
  - intros y. cbn. rewrite signal_alloc. case_bool_decide as H; [|apply I4]. subst y. specialize (I4 (next s)). rewrite Hs in I4.
    cbn in I4. destruct (aborted v); lia.
  - intros y z w t. rewrite L, alloc_exists. intros H. apply I5 in H. naive_solver.
  - intros y z. unfold follows. rewrite L. intros H Ha. destruct (I5 _ _ _ _ H) as (_ & _ & Hy & _).
    unfold is_aborted in Ha. rewrite Sg in Ha by done. destruct (I6 y z H Ha) as (u & Hu & Hua & Hur). exists u. rewrite L.
    unfold is_aborted, why. rewrite !Sg by (done || by apply Ab). done.
Qed.

Lemma K_follow s0 x y s : derived x s -> is_Some (signals s !! y) -> K s0 s -> K s0 (addEventListener y abort_event (OnAbort x y) s).
Proof.
  intros Hx Hy. unfold addEventListener, set_listeners. apply K_update; try done; cbn; intros u z t; rewrite listeners_insert;
    (case_bool_decide as H; [subst t|by auto]); rewrite elem_of_app, list_elem_of_singleton; [by left|]. intros [|[= -> ->]]; auto.
Qed.

Lemma put_same_flags x v y s :
  aborted v = aborted (signal_of x s) -> reason v = reason (signal_of x s) ->
  is_aborted y (put x v s) <-> is_aborted y s.
Proof. intros Ha Hr. unfold is_aborted. rewrite signal_put. case_bool_decide; by subst; rewrite ?Ha. Qed.

Lemma derived_add x y t l s : is_Some (signals s !! y) -> derived x s -> derived x (addEventListener y t l s).
Proof.
  intros Hy (H1 & H2 & H3 & H4). unfold addEventListener, set_listeners. split_and!; try done.
  - by rewrite put_exists.
  - by rewrite put_same_flags.
Qed.

Lemma K_follow_all s0 x l : forall s, derived x s -> Forall (fun y => is_Some (signals s !! y)) l -> K s0 s -> K s0 (follow_all x l s).
Proof.
  induction l as [|y l IH]; intros s Hx Hl H; cbn [follow_all]; [done|]. apply Forall_cons in Hl as [Hy Hl].
  apply IH; [by apply derived_add| |by apply K_follow]. eapply Forall_impl; [exact Hl|]. intros z Hz.
  unfold addEventListener, set_listeners. by rewrite put_exists.
Qed.

(** No signal follows others that has a controller or a timer. *)
Lemma fresh_unfollowed s y z t : inv s -> OnAbort (next s) z ∉ listeners_of y t s.
Proof. intros H Hf. apply (i_bound s H) in Hf as (_ & _ & [v Hv] & _). rewrite fresh_signal in Hv by done. done. Qed.

Lemma alloc_listeners v y t s : inv s -> listeners v = ∅ -> listeners_of y t (alloc v s) = listeners_of y t s.
Proof.
  intros H Hl. unfold listeners_of. rewrite signal_alloc. case_bool_decide; [subst|done]. rewrite Hl, signal_of_fresh by done. done.
Qed.

Definition roots (c t : list positive) (s : state) : state := State (signals s) t c (next s) (calls s) (log s).

Lemma K_roots s0 c t s :
  (forall x, x ∈ c \/ x ∈ t -> is_Some (signals s !! x)) ->
  (forall x y z u, OnAbort x z ∈ listeners_of y u s -> x ∉ c /\ x ∉ t) -> K s0 s -> K s0 (roots c t s).
Proof.
  intros H1 H2 [[I1 I2 I3 I4 I5 I6] He]. split; [|by apply (ext_signals s0 s)]. split; try done.
  intros x y z u H. destruct (I5 x y z u H) as (A & B & C & _). by destruct (H2 x y z u H).
Qed.

Lemma K_new s0 : forall s, K s0 s -> K s0 (alloc new_AbortSignal s).
Proof. intros s. apply K_alloc; [|done]. cbn. split; [done|by intros []]. Qed.

Lemma K_controller s0 s : K s0 s -> K s0 (new_AbortController s).
Proof.
  intros H. pose proof (K_new s0 s H) as H1. destruct H as [I _].
  apply (K_roots s0 (next s :: controllers s) (timeouts s)) in H1; [exact H1|..].
  - intros x [[-> |H]%elem_of_cons|H]; apply alloc_exists; [by left|right; apply (i_roots s I); by left|right; apply (i_roots s I); by right].
  - intros x y z u. rewrite alloc_listeners by done. intros H. pose proof (i_bound s I x y z u H) as (_ & _ & _ & A & B).
    split; [|done]. intros [-> |?]%elem_of_cons; [|done]. by apply fresh_unfollowed in H.
Qed.

Lemma K_timeout s0 s : K s0 s -> K s0 (signal_timeout s).
Proof.
  intros H. pose proof (K_new s0 s H) as H1. destruct H as [I _].
  apply (K_roots s0 (controllers s) (timeouts s ++ [next s])) in H1; [exact H1|..].
  - intros x [H|[H| ->%list_elem_of_singleton]%elem_of_app]; apply alloc_exists; [right; apply (i_roots s I); by left|right; apply (i_roots s I); by right|by left].
  - intros x y z u. rewrite alloc_listeners by done. intros H. pose proof (i_bound s I x y z u H) as (_ & _ & _ & A & B).
    split; [done|]. intros [?| ->%list_elem_of_singleton]%elem_of_app; [done|]. by apply fresh_unfollowed in H.
Qed.

Lemma K_any s0 l s : forallb (fun y => exists_ y s) l = true -> K s0 s -> K s0 (signal_any l s).
Proof.
  intros Hl H. pose proof H as [I _]. unfold signal_any. destruct (List.find _ l) as [y|] eqn:Hy.
  - apply K_alloc; [|done|done]. cbn. apply find_some in Hy as [_ Hy]. split; [|done]. intros _. by apply (i_reason s I).
  - apply K_follow_all; [| |by apply K_new].
    + split_and!; cbn.
      * rewrite lookup_insert_eq. by eexists.
      * intros Hc. destruct (i_roots s I (next s)) as [v Hv]; [by left|]. by rewrite fresh_signal in Hv.
      * intros Hc. destruct (i_roots s I (next s)) as [v Hv]; [by right|]. by rewrite fresh_signal in Hv.
      * unfold is_aborted. rewrite signal_alloc, bool_decide_eq_true_2 by done. done.
    + apply Forall_forall. intros y' Hy'. rewrite forallb_forall in Hl. apply alloc_exists. right.
      specialize (Hl y' (proj1 (list_elem_of_In _ _) Hy')). by apply bool_decide_eq_true in Hl.
Qed.

(** A signal is aborted: for a reason of its own, or that of one it follows. *)
Definition cause (x : positive) (r : option jserror) (s : state) : Prop :=
  is_Some (signals s !! x) /\ is_Some r /\
  ((forall y, ~ follows x y s) \/ exists y, follows x y s /\ is_aborted y s /\ why y s = r).

Lemma K_fire s0 x r s :
  ~ is_aborted x s -> cause x r s -> K s0 s -> K s0 (emits (Emitted x) (set_aborted x r s)).
Proof.
  intros Hn (Hx & Hr & Hc) [[I1 I2 I3 I4 I5 I6] He]. unfold set_aborted.
  set (v := Signal true r (listeners (signal_of x s)) (_onabort (signal_of x s))).
  assert (forall y z w t, OnAbort y z ∈ listeners_of w t (put x v s) <-> OnAbort y z ∈ listeners_of w t s) as L.
  { intros y z w t. unfold listeners_of at 1. rewrite signal_put. case_bool_decide; [by subst|done]. }
  assert (forall y, y <> x -> signal_of y (put x v s) = signal_of y s) as Sg.
  { intros y Hy. rewrite signal_put. by case_bool_decide. }
  assert (signal_of x (put x v s) = v) as Sx by by rewrite signal_put, bool_decide_eq_true_2.
  assert (forall y, is_aborted y s -> is_aborted y (put x v s) /\ why y (put x v s) = why y s) as Ab.
  { intros y H. assert (y <> x) by (intros ->; done). unfold is_aborted, why. by rewrite Sg. }
  split.
  - split; cbn; unfold follows.
    + intros y. change (is_Some (signals (put x v s) !! y) -> (y < next s)%positive). rewrite put_exists by done. apply I1.
    + intros y. change (y ∈ controllers s \/ y ∈ timeouts s -> is_Some (signals (put x v s) !! y)). rewrite put_exists by done. apply I2.
    + intros y. change (is_aborted y (put x v s) <-> is_Some (why y (put x v s))). destruct (decide (y = x)) as [->|Hy].
      * unfold is_aborted, why. rewrite Sx. cbn. by split.
      * unfold is_aborted, why. rewrite Sg by done. apply I3.
    + intros y. change (emissions y (log s ++ [Emitted x]) <= if aborted (signal_of y (put x v s)) then 1 else 0)%nat.
      unfold emissions. rewrite List.filter_app, length_app. cbn. specialize (I4 y). unfold emissions in I4.
      destruct (decide (y = x)) as [->|Hy].
      * rewrite bool_decide_eq_true_2, Sx by done. cbn. unfold is_aborted in Hn. destruct (aborted (signal_of x s)); [done|]. cbn in I4. lia.
      * rewrite bool_decide_eq_false_2, Sg by congruence. cbn. lia.
    + intros y z w t. change (OnAbort y w ∈ listeners_of z t (put x v s) -> t = abort_event /\ w = z /\
        is_Some (signals (put x v s) !! y) /\ y ∉ controllers s /\ y ∉ timeouts s). rewrite L, put_exists by done. apply I5.
    + intros y z. change (OnAbort y z ∈ listeners_of z abort_event (put x v s) -> is_aborted y (put x v s) ->
        exists y', OnAbort y y' ∈ listeners_of y' abort_event (put x v s) /\ is_aborted y' (put x v s) /\ why y' (put x v s) = why y (put x v s)).
      rewrite L. intros H Ha. destruct (decide (y = x)) as [->|Hy].
      * destruct Hc as [Hc|(u & Hu & Hua & Hur)]; [by destruct (Hc z)|]. exists u. rewrite L. destruct (Ab u Hua) as [A1 A2].
        split; [done|]. split; [done|]. rewrite A2. unfold why at 2. by rewrite Sx.
      * unfold is_aborted in Ha. rewrite Sg in Ha by done. destruct (I6 y z H Ha) as (u & Hu & Hua & Hur). exists u. rewrite L.
        destruct (Ab u Hua) as [A1 A2]. split; [done|]. split; [done|]. rewrite A2. unfold why at 2. by rewrite Sg.
  - apply (ext_signals s0 (put x v s)); [done|]. eapply ext_trans; [exact He|]. split.
    + intros y. by rewrite put_exists.
    + intros y. apply Ab.
    + intros y z. unfold follows. by rewrite L.
Qed.

(** ** Programs *)

(** A program that does not dispatch ['abort'] itself. *)
Fixpoint honest (b : body) : Prop :=
  match b with
  | Done | Fail _ => True
  | NewController k | SignalAbort _ k | SignalTimeout k | SignalAny _ k => forall x, honest (k x)
  | ControllerAbort _ _ k | ThrowIfAborted _ k => forall r, honest (k r)
  | AddEventListener _ _ _ k | RemoveEventListener _ _ _ k | SetOnabort _ _ k => honest k
  | DispatchEvent _ type k => type <> abort_event /\ forall r, honest (k r)
  | GetAborted _ k => forall v, honest (k v)
  end.

Section WithCode.
Context (code : nat -> positive -> body) (Hcode : forall n c, honest (code n c)).
Abbreviation keeps I m := (triple I m (fun _ => I)).

Lemma ab_bind {A B} (I : state -> Prop) (m : M state A) (k : A -> M state B) : keeps I m -> (forall a, keeps I (k a)) -> keeps I (bind m k).
Proof. intros Hm Hk. eapply triple_bind; [|exact Hk]. eapply triple_weaken; [exact Hm|done|]. by intros []. Qed.
Lemma ab_attempt {A B} (I : state -> Prop) (m : M state A) (k : result A -> M state B) :
  keeps I m -> (forall r, keeps I (k r)) -> keeps I (attempt m k).
Proof. intros Hm Hk. by eapply triple_attempt. Qed.
Lemma ab_gets {A} (I : state -> Prop) (f : state -> A) : keeps I (gets f).
Proof. by apply triple_gets. Qed.
Lemma ab_modify (I : state -> Prop) f : (forall s, I s -> I (f s)) -> keeps I (modify f).
Proof. intros H. by apply triple_modify. Qed.

Section WithUser.
Context (user : body -> M state unit) (Huser : forall b s0, honest b -> keeps (K s0) (user b)).

Lemma ab_call s0 c x : keeps (K s0) (call code user c x).
Proof.
  unfold call. intros s s' r H. unfold bind, gets, modify. intros Hrun.
  eapply (Huser (code (calls s) c) s0); [apply Hcode|by apply K_counted|exact Hrun].
Qed.

(** The listeners of a snapshot: that of a signal that follows [x] is called once
    [x] is aborted. *)
Definition ready (s1 : state) (x : positive) (l : listener) : Prop :=
  match l with
  | Listener _ => True
  | OnAbort y z => z = x /\ follows y x s1 /\ is_aborted x s1
  end.

Lemma ab_call_all s0 inv l : Forall (fun x => keeps (K s0) (inv x)) l -> keeps (K s0) (call_all inv l).
Proof. induction 1 as [|x l Hx _ IH]; cbn [call_all]; [by apply triple_ret|by apply ab_bind]. Qed.

Lemma ab_emit s0 inv x type :
  (forall s1 l, ready s1 x l -> keeps (K s1) (inv l)) ->
  triple (fun s => K s0 s /\ (type = abort_event -> is_aborted x s)) (emit_with inv x type) (fun _ => K s0).
Proof.
  intros Hinv s s' r [[I He] Ha]. unfold emit_with, bind, gets. destruct (listeners_of x type s) as [|l ls] eqn:Hl.
  - case_bool_decide; intros [= <- <-]; by split.
  - intros Hrun. enough (K s s') as [I' He'] by (split; [done|by eapply ext_trans]).
    assert (K s s) as Hs by (split; [done|apply ext_refl]).
    eapply (ab_call_all s inv (l :: ls)); [|exact Hs|exact Hrun]. rewrite <- Hl. apply Forall_forall. intros y Hy. apply Hinv.
    destruct y as [c|y z]; [done|]. pose proof (i_bound s I y x z type Hy) as (-> & -> & _). by split_and!; [|exact Hy|apply Ha].
Qed.

Lemma ab_announce s0 inv x :
  (forall s1 l, ready s1 x l -> keeps (K s1) (inv l)) ->
  triple (fun s => K s0 s /\ is_aborted x s)
    (emit_with inv x abort_event;;
     h <- gets (fun s => _onabort (signal_of x s));;
     match h with Function c => call code user c x | _ => ret tt end) (fun _ => K s0).
Proof.
  intros Hinv. eapply (triple_bind _ _ _ (fun _ => K s0)).
  - eapply triple_weaken; [apply (ab_emit s0 inv x abort_event Hinv)|by intros s []|by intros []].
  - intros _. apply ab_bind; [apply ab_gets|]. intros h. destruct h; try (by apply triple_ret). apply ab_call.
Qed.

Lemma ab_fire s0 inv x r :
  (forall s1 l, ready s1 x l -> keeps (K s1) (inv l)) ->
  triple (fun s => K s0 s /\ ~ is_aborted x s /\ cause x r s) (fire_with code user inv x r) (fun _ => K s0).
Proof.
  intros Hinv s s' res (H & Hn & Hc) Hrun.
  apply (ab_announce s0 inv x Hinv (emits (Emitted x) (set_aborted x r s)) s' res); [|exact Hrun].
  split; [by apply K_fire|]. unfold is_aborted. change (aborted (signal_of x (set_aborted x r s)) = true). unfold set_aborted.
  by rewrite signal_put, bool_decide_eq_true_2.
Qed.

Lemma ab_invoke fuel : forall s1 x l, ready s1 x l -> keeps (K s1) (invoke code user fuel x l).
Proof.
  induction fuel as [|fuel IH]; intros s1 x l Hl; cbn [invoke]; [by intros s s' r _|]. destruct l as [c|y z]; [apply ab_call|].
  destruct Hl as (-> & Hf & Ha). intros s s' r H. unfold bind, gets. destruct (aborted (signal_of y s)) eqn:Hy.
  - by intros [= <- <-].
  - intros Hrun. eapply (ab_fire s1 (invoke code user fuel y) y); [intros s2 l; apply IH| |exact Hrun]. split; [done|]. split.
    { unfold is_aborted. congruence. }
    destruct H as [I He]. pose proof (e_follows _ _ He y x Hf) as Hf'. destruct (e_aborted _ _ He x Ha) as [Ha' _].
    pose proof (i_bound s I _ _ _ _ Hf') as (_ & _ & Hx & _). split; [done|]. split; [by apply (i_reason s I)|].
    right. by exists x.
Qed.

(** *** What is passed on *)

Lemma fire_aborts fuel x r s s' res :
  inv s -> ~ is_aborted x s -> cause x r s -> fire_with code user (invoke code user fuel x) x r s = Some (s', res) ->
  is_aborted x s' /\ why x s' = r.
Proof.
  intros I Hn Hc Hrun. set (s1 := emits (Emitted x) (set_aborted x r s)).
  assert (signal_of x s1 = Signal true r (listeners (signal_of x s)) (_onabort (signal_of x s))) as Hx.
  { change (signal_of x s1) with (signal_of x (set_aborted x r s)). unfold set_aborted. by rewrite signal_put, bool_decide_eq_true_2. }
  assert (K s1 s') as [_ He].
  { apply (ab_announce s1 (invoke code user fuel x) x (fun s1 l => ab_invoke fuel s1 x l) s1 s' res); [|exact Hrun].
    split; [|unfold is_aborted; by rewrite Hx]. split; [|apply ext_refl].
    apply (K_fire s x r s Hn Hc). split; [done|apply ext_refl]. }
  destruct (e_aborted _ _ He x) as [H1 H2]; [unfold is_aborted; by rewrite Hx|]. split; [done|]. rewrite H2. unfold why. by rewrite Hx.
Qed.

Lemma invoke_aborts fuel s1 x y s s' r :
  K s1 s -> ready s1 x (OnAbort y x) -> invoke code user fuel x (OnAbort y x) s = Some (s', r) -> is_aborted y s'.
Proof.
  intros H (_ & Hf & Ha) Hrun. destruct fuel as [|fuel]; [done|]. cbn [invoke] in Hrun. unfold bind, gets in Hrun.
  destruct (aborted (signal_of y s)) eqn:Hy; [by injection Hrun as <- <-|].
  destruct H as [I He]. pose proof (e_follows _ _ He y x Hf) as Hf'. destruct (e_aborted _ _ He x Ha) as [Ha' _].
  pose proof (i_bound s I _ _ _ _ Hf') as (_ & _ & Hx & _).
  eapply (fire_aborts fuel y _ s s' r); [done|unfold is_aborted; congruence| |exact Hrun].
  split; [done|]. split; [by apply (i_reason s I)|]. right. by exists x.
Qed.

Lemma call_all_aborts fuel s1 x l : Forall (ready s1 x) l -> forall s s',
  K s1 s -> call_all (invoke code user fuel x) l s = Some (s', Ok tt) -> K s1 s' /\ forall y, OnAbort y x ∈ l -> is_aborted y s'.
Proof.
  induction 1 as [|z l Hz Hl IH]; intros s s' H Hrun; cbn [call_all] in Hrun.
  - injection Hrun as <-. split; [done|]. intros y Hy. by apply elem_of_nil in Hy.
  - apply bind_ok in Hrun as (s2 & [] & Hi & Hrun). pose proof (ab_invoke fuel s1 x z Hz s s2 (Ok tt) H Hi) as H2.
    destruct (IH s2 s' H2 Hrun) as [H3 H4]. split; [done|]. intros y [<-|Hy]%elem_of_cons; [|by apply H4].
    pose proof (invoke_aborts fuel s1 x y s s2 (Ok tt) H Hz Hi) as Ha.
    assert (K s2 s2) as Hs2 by (split; [apply H2|apply ext_refl]).
    assert (K s2 s') as [_ He].
    { eapply (ab_call_all s2 (invoke code user fuel x) l); [|exact Hs2|exact Hrun].
      eapply Forall_impl; [exact Hl|]. intros w Hw. apply ab_invoke. destruct w as [c|w u]; [done|]. destruct Hw as (-> & Hw1 & Hw2).
      destruct H2 as [_ He2]. split; [done|]. split; [by apply (e_follows _ _ He2)|by apply (e_aborted _ _ He2)]. }
    by apply (e_aborted _ _ He).
Qed.

(** A signal that is aborted without an exception has aborted those that follow it. *)
Lemma fire_reaches fuel x r s s' :
  inv s -> ~ is_aborted x s -> cause x r s -> fire code user fuel x r s = Some (s', Ok tt) ->
  forall y, follows y x s -> is_aborted y s'.
Proof.
  intros I Hn Hc Hrun y Hy. set (s1 := emits (Emitted x) (set_aborted x r s)).
  assert (K s s1) as H1 by (apply (K_fire s x r s Hn Hc); split; [done|apply ext_refl]).
  assert (is_aborted x s1) as Hx.
  { unfold is_aborted. change (aborted (signal_of x (set_aborted x r s)) = true). unfold set_aborted. by rewrite signal_put, bool_decide_eq_true_2. }
  change (fire code user fuel x r s) with ((emit_with (invoke code user fuel x) x abort_event;;
     h <- gets (fun s => _onabort (signal_of x s));; match h with Function c => call code user c x | _ => ret tt end) s1) in Hrun.
  apply bind_ok in Hrun as (s2 & [] & He & Hrun).
  assert (K s1 s1) as Hs1 by (split; [apply H1|apply ext_refl]).
  assert (K s1 s2 /\ is_aborted y s2) as [H2 Hy2].
  { assert (follows y x s1) as Hf by by apply (e_follows s s1 (proj2 H1)). unfold emit_with in He. unfold bind, gets in He.
    unfold follows in Hf. destruct (listeners_of x abort_event s1) as [|l ls] eqn:Hl; [by apply elem_of_nil in Hf|].
    destruct (call_all_aborts fuel s1 x (l :: ls)) with s1 s2 as [A B]; try done; [|by split; [|apply B]].
    rewrite <- Hl. apply Forall_forall. intros [c|u z] Hu; [done|]. pose proof (i_bound s1 (proj1 H1) u x z _ Hu) as (_ & -> & _). done. }
  assert (K s2 s') as [_ Hx2].
  { apply bind_ok in Hrun as (s3 & h & [= <- <-] & Hrun). assert (K s2 s2) by (split; [apply H2|apply ext_refl]).
    destruct (_onabort (signal_of x s2)); try (injection Hrun as <-; done). by eapply (ab_call s2). }
  by apply (e_aborted _ _ Hx2).
Qed.

(** *** Programs *)

Lemma ab_controller fuel s0 x w :
  triple (fun s => K s0 s /\ x ∈ controllers s) (controller_abort code user fuel x w) (fun _ => K s0).
Proof.
  intros s s' r [H Hx]. unfold controller_abort, bind, gets. destruct (aborted (signal_of x s)) eqn:Ha; [by intros [= <- <-]|].
  intros Hrun. eapply (ab_fire s0 (invoke code user fuel x) x); [intros s1 l; apply ab_invoke| |exact Hrun].
  split; [done|]. split; [unfold is_aborted; congruence|]. destruct H as [I _]. split; [apply (i_roots s I); by left|].
  split; [by eexists|]. left. intros y Hy. apply (i_bound s I) in Hy as (_ & _ & _ & Hy & _). done.
Qed.

Lemma ab_guarded s0 x f :
  (forall s, is_Some (signals s !! x) -> K s0 s -> K s0 (f s)) -> keeps (K s0) (modify (fun s => if exists_ x s then f s else s)).
Proof. intros Hf. apply ab_modify. intros s H. unfold exists_. case_bool_decide; [by apply Hf|done]. Qed.

Lemma ab_exec fuel s0 b : honest b -> keeps (K s0) (exec code user fuel b).
Proof.
  induction b; cbn [exec honest]; intros Hb; try (by apply triple_ret); try (by apply triple_throw).
  - apply ab_bind; [apply ab_gets|]. intros x. apply ab_bind; [apply ab_modify; intros s; apply K_controller|auto].
  - intros s s' r Hs. unfold bind at 1, gets. case_bool_decide as Hx.
    + intros Hrun. eapply (triple_attempt (fun s => K s0 s /\ x ∈ controllers s) _ _ (fun _ => K s0) (fun _ => K s0)); [apply (ab_controller fuel s0)| |by split|exact Hrun].
      intros r0. cbn beta. apply H, Hb.
    + intros Hrun. eapply (ab_attempt (K s0) (ret tt)); [by apply triple_ret| |exact Hs|exact Hrun].
      intros r0. apply H, Hb.
  - apply ab_bind; [apply ab_gets|]. intros x. apply ab_bind; [apply ab_modify; intros s; apply K_alloc; [|done]|auto].
    cbn. split; [by eexists|done].
  - apply ab_bind; [apply ab_gets|]. intros x. apply ab_bind; [apply ab_modify; intros s; apply K_timeout|auto].
  - apply ab_bind; [apply ab_gets|]. intros x. apply ab_bind; [apply ab_modify; intros s Hs|auto].
    destruct (forallb _ l) eqn:Hl; [by apply K_any|done].
  - apply ab_bind; [apply ab_guarded; intros s; apply K_add|auto].
  - apply ab_bind; [apply ab_guarded; intros s; apply K_remove|auto].
  - destruct Hb as [Ht Hb]. apply ab_attempt; [|auto]. unfold emit. eapply triple_weaken; [apply (ab_emit s0 (invoke code user fuel x) x type)| |done].
    + intros s1 l. apply ab_invoke.
    + intros s Hs. by split.
  - apply ab_bind; [apply ab_guarded; intros s; apply K_onabort|auto].
  - apply ab_attempt; [|auto]. unfold throwIfAborted. apply ab_bind; [apply ab_gets|]. intros v.
    destruct (aborted v); [by apply triple_throw|by apply triple_ret].
  - apply ab_bind; [apply ab_gets|]. auto.
Qed.
End WithUser.

Lemma ab_program n : forall b s0, honest b -> keeps (K s0) (program code n b).
Proof. induction n as [|n IH]; intros b s0 Hb; cbn [program]; [by intros s s' r _|]. by apply ab_exec. Qed.

Lemma ab_timer n s0 x l :
  triple (fun s => K s0 s /\ timeouts s = x :: l) (modify (set_timeouts l);; on_timeout code (program code n) n x) (fun _ => K s0).
Proof.
  intros s s' r [H Hl]. unfold bind at 1, modify. set (s1 := set_timeouts l s). pose proof H as [I _].
  assert (K s0 s1) as H1.
  { apply (K_roots s0 (controllers s) l s); [| |done].
    - intros y [Hy|Hy]; apply (i_roots s I); [by left|right; rewrite Hl; set_solver].
    - intros y z u t Hy. apply (i_bound s I) in Hy as (_ & _ & _ & A & B). rewrite Hl in B. set_solver. }
  unfold on_timeout, bind, gets. destruct (aborted (signal_of x s1)) eqn:Ha; [by intros [= <- <-]|]. intros Hrun.
  eapply (ab_fire (program code n) (ab_program n) s0 (invoke code (program code n) n x) x); [| |exact Hrun].
  - intros s2 y. apply ab_invoke. apply ab_program.
  - split; [done|]. split; [unfold is_aborted; congruence|]. split; [apply (i_roots s I); right; rewrite Hl; set_solver|].
    split; [by eexists|]. left. intros y Hy. apply (i_bound s I) in Hy as (_ & _ & _ & _ & Hy). rewrite Hl in Hy. set_solver.
Qed.

Definition honest_turn (t : turn) : Prop := match t with Code b => honest b | Timer => True end.

Lemma ab_turn n s0 t : honest_turn t -> keeps (K s0) (run_turn code n t).
Proof.
  destruct t as [b|]; cbn [run_turn honest_turn]; intros Ht; [by apply ab_program|].
  intros s s' r H. unfold bind at 1, gets. destruct (timeouts s) as [|x l] eqn:Hl; [by intros [= <- <-]|].
  by apply ab_timer.
Qed.

Lemma ab_turns n s0 l : Forall honest_turn l -> keeps (K s0) (run_turns code n l).
Proof. induction 1 as [|t l Ht _ IH]; cbn [run_turns]; [by apply triple_ret|]. apply ab_attempt; [by apply ab_turn|done]. Qed.
End WithCode.

Lemma inv_init : inv init.
Proof.
  assert (forall x, signal_of x init = new_AbortSignal) as Hs by (intros x; unfold signal_of; cbn; by rewrite lookup_empty).
  split; unfold is_aborted, why, follows, listeners_of.
  - intros x []. done.
  - intros x [H|H]; by apply elem_of_nil in H.
  - intros x. rewrite Hs. cbn. split; [done|by intros []].
  - intros x. rewrite Hs. unfold emissions. cbn. lia.
  - intros x y z t. rewrite Hs. cbn. rewrite lookup_empty. intros H. by apply elem_of_nil in H.
  - intros x y. rewrite Hs. cbn. rewrite lookup_empty. intros H. by apply elem_of_nil in H.
Qed.

(** ** The theorem *)

(** C29. A signal is aborted once and for good, as long as no code dispatches
    ['abort'] by hand: it stays aborted with the reason it got; it has a reason
    exactly when it is aborted; the shim emits its ['abort'] once at most, and not
    before; and a signal that [AbortSignal.any] made to follow others is aborted
    only with the reason of one of them that is aborted. *)
Theorem abort_once_for_good code n l1 l2 s1 s2 r1 r2 :
  (forall n c, honest (code n c)) -> Forall honest_turn l1 -> Forall honest_turn l2 ->
  run_turns code n l1 init = Some (s1, r1) -> run_turns code n l2 s1 = Some (s2, r2) ->
  (forall x, is_aborted x s1 -> is_aborted x s2 /\ why x s2 = why x s1) /\
  (forall x, is_aborted x s2 <-> is_Some (why x s2)) /\
  (forall x, (emissions x (log s2) <= if aborted (signal_of x s2) then 1 else 0)%nat) /\
  (forall x y, follows x y s2 -> is_aborted x s2 -> exists y', follows x y' s2 /\ is_aborted y' s2 /\ why y' s2 = why x s2).
Proof.
  intros Hc H1 H2 Hr1 Hr2.
  assert (K init init) as Hi by (split; [apply inv_init|apply ext_refl]).
  destruct (ab_turns code Hc n init l1 H1 init s1 r1 Hi Hr1) as [I1 _].
  assert (K s1 s1) as Hs1 by (split; [done|apply ext_refl]).
  destruct (ab_turns code Hc n s1 l2 H2 s1 s2 r2 Hs1 Hr2) as [I2 He]. split; [apply (e_aborted _ _ He)|].
  split; [apply (i_reason s2 I2)|]. split; [apply (i_emit s2 I2)|]. apply (i_follow s2 I2).
Qed.

(** A controller, a signal that follows its signal, and a listener. *)
Definition two_signals : body :=
  NewController (fun x => SignalAny [x] (fun y => AddEventListener y abort_event 9 (ControllerAbort x None (fun _ => Done)))).
Definition calm_code (n : nat) (c : positive) : body := Done.

Lemma abort_once_for_good_witness :
  exists s, run_turns calm_code 9 [Code two_signals] init = Some (s, Ok tt) /\
    (is_aborted 2 s /\ why 2 s = Some abort_error) /\ (forall x, is_aborted x s <-> is_Some (why x s)).
Proof.
  eexists. split; [vm_compute; reflexivity|]. split; [split; vm_compute; reflexivity|].
  eapply (abort_once_for_good calm_code 9 [Code two_signals] [] _ _ (Ok tt) (Ok tt));
    [done|repeat constructor; done|constructor|vm_compute; reflexivity|vm_compute; reflexivity].
Defined.

(** ** Defects *)

(** Dispatching ['abort'] on a signal aborts those that follow it, without a
    reason, although the signal itself is not aborted. *)
Lemma abort_dispatch_aborts_followers :
  exists s, run_turns calm_code 9
      [Code (NewController (fun x => SignalAny [x] (fun y => DispatchEvent x abort_event (fun _ => Done))))] init = Some (s, Ok tt) /\
    aborted (signal_of 1 s) = false /\ aborted (signal_of 2 s) = true /\ reason (signal_of 2 s) = None.
Proof. eexists. split_and!; vm_compute; reflexivity. Qed.

(** A listener that throws keeps the signals that follow from being aborted. *)
Lemma abort_throwing_listener_stops_followers :
  exists s, run_turns (fun _ _ => Fail (JsError "E" [])) 9
      [Code (NewController (fun x => AddEventListener x abort_event 9
         (SignalAny [x] (fun y => ControllerAbort x None (fun _ => Done)))))] init = Some (s, Ok tt) /\
    aborted (signal_of 1 s) = true /\ aborted (signal_of 2 s) = false.
Proof. eexists. split_and!; vm_compute; reflexivity. Qed.
